(* ===== verification/_CoqProject ===== *)
-Q . S2P
Prelude.v
Machine.v
Straight.v
Slots.v
Flight.v
Internal.v
ReduceOp.v
Spinlock.v
Comm.v
Tree.v
CollInit.v
CollSync.v
Compose.v
Gather.v
Ring.v
Pairs.v
TreeBarrier.v
DissemBarrier.v
Barriers.v
Bcast.v
Reduce.v
Collect.v
Schedule.v
Phase.v
Exchange.v
Chain.v
CollectProof.v
BcastProof.v
Broadcast.v
AllReduce.v
Rings.v
RecDbl.v
OpToAll.v
Doubling.v
Fcollect.v
Lock.v
LockProof.v
CFloat.v
Team.v
TeamFacts.v
TeamOps.v
ErrState.v
Stx.v
Util.v
FreeList.v
Fabric.v
OfiTransport.v
OfiProof.v
OfiCalls.v
SymHeap.v
Access.v
Env.v
PmiUtil.v
SimplePmi.v
PmiStart.v
RuntimeUtil.v
OfiMr.v
FabricCtl.v
OfiCtl.v
OfiCtlProof.v
OfiLife.v
RuntimePmi.v
Init.v
