(* ===== verification/Prelude.v ===== *)
(** * Sandia OpenSHMEM: a verification library

    Sandia OpenSHMEM is a C library for partitioned-global-address-space programs: every
    processing element (PE) runs the same program over its own copy of the symmetric
    memory and reaches the copies of the others by one-sided puts, gets and atomics.
    This development models the parts of the library that carry its own logic: the
    collectives, the distributed lock, the teams, the symmetric heap, the transport over
    libfabric, the free lists, the environment variables, the node map and the PMI client.
    Names are those of the code.

    ** The parts, and where they are modelled

    The one-sided machine.
    - [Machine] is the job of all PEs: a program is a tree of operations ([prog]), a
      [state] has the memory of every PE and the operations in flight ([msg]), and [step]
      is one operation of one PE or one step of the network.  An operation in flight first
      reads its source ([net_capture], unless the values were captured when it was issued)
      and then reaches its target ([net_deliver]); deliveries happen in any order that the
      fences between them allow.  Every theorem about a job quantifies over all such
      interleavings.
    - [Comm] gives the internal API the rest of the library is written against: the
      operations of [shmem_comm.h] and the waits of [shmem_synchronization.h].  A blocking
      operation that returns a value (swap, fetch, their variants, with the wait for the
      result that always follows in the code) is one atomic step at the target; puts and
      non-fetching atomics are messages.  [run_local] runs the programs that only touch
      the caller's memory, and [run_local_steps] places such a run into any job.
    - [Straight] turns the loops of a program into the list of its operations and has the
      method of the big proofs: a [prog] is related to a label (a position in that list, or
      a state of a small automaton), the job to the labels of its PEs, an invariant is
      proved over the labelled steps, and a measure bounds the number of steps.  [Slots] is
      that method for programs that issue data operations in a fixed order between waits.

    Collectives ([collectives.c], [shmem_collectives.h], [shmem_internal_op.h]).
    - [Internal]: active sets, bit arrays and the active-set check of [shmem_internal.h].
    - [ReduceOp]: the datatypes, operators and element loop of [shmem_internal_op.h].
    - [Tree]: the k-ary tree, the full tree of [shmem_internal_collectives_init] and the
      circulator.  The class [Tree] is what a tree collective needs of its parents and
      children; both constructions are instances.
    - [CollInit]: [shmem_internal_collectives_init]; [coll_env] are the globals it leaves.
    - [CollSync], [Bcast], [Reduce], [Collect]: one definition per algorithm and the
      dispatch of each collective.  [barrier_spec] (in [CollSync]) is the abstract
      specification of a barrier.
    - [TreeBarrier] proves that specification for any instance of [Tree], [DissemBarrier]
      for repeated dissemination rounds over any partner functions that cover the set,
      and [Barriers] discharges both for the code, through the dispatch.
    - [Schedule]: the index arithmetic of the data collectives.
    - [Phase] reduces a job "puts, quiet, barrier, resets" to the job of its barrier, and
      [Exchange] applies it to [shmem_internal_barrier] and the all-to-alls; [BcastProof]
      proves the broadcast over any instance of [Tree], and [Broadcast] instantiates it.
    - Three patterns of data collectives are proved once, for any data and actions:
      [Gather] (children send to parents, who combine), [Ring] (every member forwards
      chunks to its right neighbour) and [Pairs] (rounds of exchanges between pairs).
      [Flight] has the reasoning about messages they share; [Compose] runs one collective
      after another, each member moving on by itself.
    - [Chain] adds, before an exchange of the kind of [Phase], a chain of values handed from
      member to member; [CollectProof] is [shmem_internal_collect], whose offsets are one.
    - [AllReduce] is the linear and the tree reduction (a gather, then a broadcast); [Rings]
      the ring reduction and the ring fcollect; [RecDbl] the reduction by recursive doubling
      (pairs); [OpToAll] is [shmem_internal_op_to_all] over the four.
    - [Doubling] is the fcollect by recursive doubling, on its own invariant; [Fcollect] has
      the linear fcollect (everything to the first member, then a broadcast) and
      [shmem_internal_fcollect] over the three.

    [Lock], [LockProof]: [shmem_lock.h].
    [CFloat], [Team], [TeamFacts], [TeamOps]: [shmem_team.c]; [CFloat] is the
    single-precision arithmetic one line of the 2-D split relies on.

    The OFI transport.
    - [Fabric] is what the transport expects of libfabric: one operation per call, and the
      laws of a reliable endpoint; a queue of fixed depth is an example that has them.
    - [OfiTransport]: the data path of [transport_ofi.h], as programs over the state of one
      context (its counters, locks and bounce buffers, taken from a [FreeList]), the memory
      of the process and the endpoint.  [OfiProof] has the invariant and a specification of
      every call; [OfiCalls] composes the calls into programs.
    - [Stx]: the shared transmit contexts of [transport_ofi.c].
    - [OfiMr]: the registered regions, the exchange of their keys through the runtime layer
      and the translation of addresses (a parameter of [OfiTransport]).
    - [FabricCtl] is what the control path expects of libfabric: opening, binding, enabling
      and closing of objects that need each other.  [OfiCtl] is that path: start-up, the
      atomics check, contexts and their slots, shutdown; its state has the pool of [Stx]
      and the runtime layer as parts.  [OfiCtlProof] has the invariant and the contexts,
      [OfiLife] start-up, shutdown and the life of the transport.

    [Util]: [util.c].  [FreeList]: [shmem_free_list.c].  [SymHeap]: [symmetric_heap_c.c];
    [Access]: the queries of the public interface on its regions.  [Env]: [shmem_env.c] and
    [shmem_env_defs.h].  [Spinlock]: the ticket lock of [shmem_atomic.h], between threads.

    The runtime.  [ErrState] is the state monad with failure of its single-process parts, and
    the rules for the total correctness of such computations.
    [PmiUtil], [SimplePmi], [PmiStart]: the client of the process manager in [pmi-simple];
    the classes [KvsManager] and [StartManager] are what the client expects of the manager
    at the other end.  [RuntimeUtil]: [runtime_util.c], written against the interface
    [RuntimeKvs] of a runtime layer; [RuntimePmi]: [runtime-pmi.c], which implements it over
    the client.  [Init]: [init.c] and [init_c.c], the order in which everything is started,
    undone and shut down.

    ** What the theorems show

    - Barriers ([Barriers]): [shmem_internal_sync], whichever algorithm is selected,
      completes within a stated number of steps under every schedule, separates the two
      sides, and restores its pSync; the dissemination barrier can be repeated on one
      pSync with nothing in between, with every slot below 3 (the assertion in the code).
    - Delivery ([Broadcast], [OpToAll], [CollectProof], [Fcollect], [Exchange]): a broadcast
      leaves the root's data at every other member; a reduction leaves the combined values at every member,
      whichever of its algorithms is selected; a collect (blocks of any lengths), an fcollect,
      whichever of its algorithms is selected, and the all-to-alls leave every block at its
      place (the collect when the fabric delivers its two-word message in one piece: without
      that, [collect_split_put] is an execution that loses a block); [shmem_internal_barrier] completes the operations issued before it; each under
      every interleaving, with the pSyncs as the next call needs them.
    - The lock ([LockProof]): mutual exclusion, completion of every use and the final
      state, for any members and any mixture of blocking and trying uses.
    - Trees ([Tree]): parents and children computed by different PEs agree, every PE
      reaches the root, and the k-ary tree has logarithmic depth, when radix times number
      of PEs is an [int]; beyond that the code divides by zero or computes children that do
      not exist ([full_tree_traps], [kary_tree_overflow]).
    - Schedules ([Schedule]): chunks tile the buffer, ring steps and recursive doubling
      rounds fit together, the circulator visits everybody once.
    - Operators ([ReduceOp]): integer reductions do not depend on the order of arrival at
      any width; the element loop changes exactly the output elements.
    - Teams ([TeamFacts], [TeamOps]): initialization establishes, and creation and
      destruction preserve, the agreement of the pool with the availability bits; creation
      picks the same free slot on every member; 2-D splits partition the parent; PE
      translation; how pSyncs are chosen, and that neighbouring slots share them.
    - The OFI transport ([OfiCalls]): any program of puts, gets, atomics, waits, fences and
      quiets runs to its end and keeps the invariant, unless a call of the endpoint answers
      an error or refuses a request more often than the code retries, where the code aborts
      the job; and a quiet completes everything and frees every bounce buffer; after a blocking put the source may be
      overwritten; a signal follows its data; long transfers are cut into requests that
      cover the data once.  Its transmit contexts are shared and kept private correctly
      ([Stx]).  A translated address names the same object at the target, in every build
      and provider mode ([OfiMr]).  Whatever contexts are created and destroyed, and
      whichever creations the provider refuses, exactly the objects of start-up and of the
      live contexts are open, and shutdown closes all of them in order ([OfiLife]).
    - The ticket lock ([Spinlock]): it implements a queue of threads, and every waiting
      thread of a fair run is served.
    - Start-up ([Init], [RuntimePmi]): in every reachable state the calls made are exactly
      those of the library's phase; a failed start-up undoes what it did; the runtime layer
      comes up under a process manager, its exchange gives the node map, and what is put is
      read back.
    - The heap, free lists, environment, node map, text wrapping and PMI client: memory
      safety of the free list against an explicit heap (every block of items is freed with
      the list, its list object is not), bounds of the break and the exact condition under
      which a request is refused, the exact condition of the symmetric-address check, conversions and their rounding, round
      trips of the encodings and of the PMI messages, and the inputs at which a bound is
      missing in the code.

    ** Conventions

    - A C integer is a [Z]; the wrap-around is written ([wrap_s], [wrap_u], [i32]) where the
      code can reach it.  Signed overflow, undefined in C, is modelled as wrapping; a
      theorem that excludes it says by which bound, and lemmas show what happens beyond
      the bound.  [cdiv] and [cmod] are the truncating operators of C; a division by zero
      is [None].
    - A memory cell holds the scalar that starts at its address ([lmem]), so the code's
      accesses at one width per address are exact and overlapping accesses at different
      widths are not expressed.
    - A message is delivered in one step, all its values together.  The one place where
      the code relies on how a message of several words arrives is
      [shmem_internal_collect_linear], which packs an offset and the flag that announces it
      into one put of 16 bytes and says so in a comment; there the model has a switch,
      [whole_puts]: the two words arrive together, or each by itself in any order.
    - [Raise] is an abort of the job (RAISE_ERROR); completion theorems show that it is not
      reached.  [option] and result codes are the error returns of the code.
    - Fuel: [dissem_rounds] and [pow2_loop] take 31 rounds, the number of doublings an
      [int] has; [circular_loop] takes the size of the set, proved sufficient;
      [full_tree_loop] takes the number of PEs, proved sufficient as the radix is at least
      2 and radix times number of PEs is an [int] ([None] otherwise); [POLL_FUEL] is 3 because the data word of a lock changes at most twice while its
      owner polls, and running out would be a [Raise], excluded by [lock_correct]; the
      loops of [Util], [PmiUtil] and [FreeList] take the lengths of their inputs; in
      [OfiTransport] the loop that reads completion events takes one turn more than there
      are bounce buffers, a request is retried [max_poll] times and fragments and chunks are
      counted by length, and the loops that wait for the fabric take [spins] turns, enough
      once that exceeds the delay of a completion and the number of bounce buffers
      ([config_ok]); running out stops the model, which the theorems exclude.  The random
      search for a transmit context takes any number [probes] of draws; the only way it can
      end without an answer is that all of them missed ([unlucky]), and of the generator
      no more is assumed than its documented range ([draws_range]).  The theorem on the life
      of the transport ([transport_lifecycle]) supposes for that allocator that the draws
      visit every index ([draws_cover]).
    - Parameters: the allocator, [malloc], the system calls, [getenv], the conversions of
      the C library, floating-point reductions, sockets, the process manager and libfabric.

    ** Not modelled

    The other transports (Portals 4, UCX, CMA, XPMEM) and the runtime layers over PMI-2,
    PMIx and MPI, which drive external libraries; the vendored [malloc.c] and [uthash.h];
    most C and all Fortran entry points, generated by m4 or checking arguments before a
    modelled call; the link between the machine of the collectives and the transport (the
    machine states what the collectives rely on, for one default context and without gets);
    the attributes and hints passed to libfabric, and messages; threads that share a context,
    or that create and destroy contexts at the same time (creations and destructions are
    steps of the transport; each takes its lock); backtraces; [PMI_Spawn_multiple].
    The delivery of a ring reduction in place (it begins with a barrier, then runs from a
    copy) is not proved; the program is modelled.

    This file: C division, integer ranges, pointwise updates, counting and extremal
    elements of lists. *)

From Stdlib Require Export ZArith Lia FunctionalExtensionality.
From stdpp Require Export base list numbers relations functions.
Local Open Scope Z_scope.

(** ** C integer division: [/] and [%] truncate towards zero. *)

Definition cdiv (a b : Z) : Z := Z.quot a b.
Definition cmod (a b : Z) : Z := Z.rem a b.

Lemma cdiv_nonneg (a b : Z) : 0 <= a -> 0 < b -> cdiv a b = a / b.
Proof. intros; unfold cdiv; apply Z.quot_div_nonneg; lia. Qed.

Lemma cmod_nonneg (a b : Z) : 0 <= a -> 0 < b -> cmod a b = a mod b.
Proof. intros; unfold cmod; apply Z.rem_mod_nonneg; lia. Qed.

(** Rewriting the C operators on non-negative operands into [/] and [mod]. *)
Create HintDb cint discriminated.
#[export] Hint Rewrite cdiv_nonneg cmod_nonneg using lia : cint.
Ltac cint := autorewrite with cint in *.

(** ** Machine integers *)

Definition wrap_u (w x : Z) : Z := x mod 2 ^ w.
Definition wrap_s (w x : Z) : Z := (x + 2 ^ (w - 1)) mod 2 ^ w - 2 ^ (w - 1).

Lemma wrap_s_id w x : 1 <= w -> - 2 ^ (w - 1) <= x < 2 ^ (w - 1) -> wrap_s w x = x.
Proof.
  intros Hw Hx. unfold wrap_s. rewrite Z.mod_small; [lia|].
  replace (2 ^ w) with (2 * 2 ^ (w - 1)); [lia|].
  rewrite <- Z.pow_succ_r by lia. f_equal. lia.
Qed.

Lemma wrap_u_id w x : 0 <= x < 2 ^ w -> wrap_u w x = x.
Proof. apply Z.mod_small. Qed.

(** Congruence modulo the width decides equality of wrapped values. *)
Lemma wrap_s_congr w x y : 0 <= w -> x mod 2 ^ w = y mod 2 ^ w -> wrap_s w x = wrap_s w y.
Proof.
  intros Hw E. unfold wrap_s. f_equal.
  rewrite <- (Zplus_mod_idemp_l x), <- (Zplus_mod_idemp_l y). by rewrite E.
Qed.

Lemma wrap_s_mod w x : 0 <= w -> wrap_s w x mod 2 ^ w = x mod 2 ^ w.
Proof.
  intros. unfold wrap_s. rewrite Zminus_mod_idemp_l. f_equal. lia.
Qed.

(** A C [int].  The conversions to [int] wrap; so does its arithmetic here, where C
    leaves an overflow undefined. *)
Definition i32 (x : Z) : Z := wrap_s 32 x.

Lemma i32_id x : - 2 ^ 31 <= x < 2 ^ 31 -> i32 x = x.
Proof. intros. apply wrap_s_id; [lia|]. change (2 ^ (32 - 1)) with (2 ^ 31). lia. Qed.

(** ** Integer ranges, the index sets of the C [for] loops. *)

(** [zrange a n] is [a, a+1, ..., a+n-1]. *)
Definition zrange (a : Z) (n : nat) : list Z := map (fun i => a + Z.of_nat i) (List.seq 0 n).

(** [for (i = lo; i < hi; i++)] visits [upto lo hi]. *)
Definition upto (lo hi : Z) : list Z := zrange lo (Z.to_nat (hi - lo)).

Lemma elem_of_upto (lo hi i : Z) : i ∈ upto lo hi <-> lo <= i < hi.
Proof.
  unfold upto, zrange. rewrite list_elem_of_In, in_map_iff. split.
  - intros (k & <- & Hk%in_seq). lia.
  - intros H. exists (Z.to_nat (i - lo)). split; [lia|]. apply in_seq. lia.
Qed.

Lemma length_upto (lo hi : Z) : length (upto lo hi) = Z.to_nat (hi - lo).
Proof. unfold upto, zrange. by rewrite length_map, length_seq. Qed.

Lemma lookup_upto (lo hi : Z) (k : nat) :
  (k < Z.to_nat (hi - lo))%nat -> upto lo hi !! k = Some (lo + Z.of_nat k).
Proof.
  intros H. unfold upto, zrange. rewrite list_lookup_fmap.
  rewrite lookup_seq_lt by lia. simpl. f_equal.
Qed.

Lemma NoDup_upto (lo hi : Z) : NoDup (upto lo hi).
Proof.
  unfold upto, zrange. apply NoDup_fmap_2.
  - intros x y. lia.
  - apply NoDup_seq.
Qed.

Create HintDb lists discriminated.
#[export] Hint Rewrite length_upto elem_of_upto : lists.
#[export] Hint Resolve NoDup_upto : lists.

(** ** Memories are functions of the address *)

Lemma insert_cases {A} `{EqDecision K} (f : K -> A) (k : K) (v : A) (k' : K) :
  <[k := v]> f k' = if decide (k = k') then v else f k'.
Proof.
  destruct (decide (k = k')) as [<-|]; [apply fn_lookup_insert|by apply fn_lookup_insert_ne].
Qed.

(** Case analysis on the first pointwise update of the goal. *)
Ltac update_cases :=
  match goal with
  | |- context [<[?k := ?v]> ?f ?k'] => rewrite (insert_cases f k v k'); destruct (decide (k = k'))
  end.

(** ** Counting the elements of a list that satisfy a test *)

Fixpoint countb {A} (f : A -> bool) (l : list A) : nat :=
  match l with
  | [] => 0
  | x :: l => (if f x then 1 else 0) + countb f l
  end.

Section countb.
Context {A : Type}.
Implicit Types (f g : A -> bool) (l : list A).

Lemma countb_app f l1 l2 : countb f (l1 ++ l2) = (countb f l1 + countb f l2)%nat.
Proof. induction l1; simpl; lia. Qed.

Lemma countb_ext f g l : (forall x, x ∈ l -> f x = g x) -> countb f l = countb g l.
Proof.
  induction l as [|a l IH]; intros H; simpl; [done|].
  rewrite (H a) by apply list_elem_of_here. rewrite IH; [done|].
  intros x Hx. apply H. by apply list_elem_of_further.
Qed.

Lemma countb_le f l : (countb f l <= length l)%nat.
Proof. induction l; simpl; [lia|]. case_match; lia. Qed.

Lemma countb_zero f l : countb f l = 0%nat <-> forall x, x ∈ l -> f x = false.
Proof.
  induction l as [|a l IH]; simpl; [split; [intros _ x ?%elem_of_nil; done|done]|].
  destruct (f a) eqn:E; simpl.
  - split; [done|]. intros H. specialize (H a (list_elem_of_here _ _)). congruence.
  - rewrite IH. split.
    + intros H x [->|Hx]%elem_of_cons; auto.
    + intros H x Hx. apply H. by apply list_elem_of_further.
Qed.

Lemma countb_pos f l x : x ∈ l -> f x = true -> (0 < countb f l)%nat.
Proof.
  intros Hx Hf. destruct (countb f l) eqn:E; [|lia].
  rewrite countb_zero in E. specialize (E x Hx). congruence.
Qed.

Lemma countb_all f l : countb f l = length l <-> forall x, x ∈ l -> f x = true.
Proof.
  induction l as [|a l IH]; simpl; [split; [intros _ x ?%elem_of_nil; done|done]|].
  pose proof (countb_le f l). destruct (f a) eqn:E; simpl.
  - split.
    + intros H' x [->|Hx]%elem_of_cons; [done|]. apply (proj1 IH); [lia|done].
    + intros H'. f_equal. apply IH. intros x Hx. apply H'. by apply list_elem_of_further.
  - split; [lia|]. intros H'. specialize (H' a (list_elem_of_here _ _)). congruence.
Qed.

(** Changing the test at one element of a duplicate-free list. *)
Lemma countb_flip f g l a :
  NoDup l -> a ∈ l -> f a = false -> g a = true ->
  (forall x, x ∈ l -> x <> a -> g x = f x) ->
  countb g l = S (countb f l).
Proof.
  induction l as [|b l IH]; intros Hnd Ha Hf Hg Hext; [by apply elem_of_nil in Ha|].
  apply list.NoDup_cons in Hnd as [Hb Hnd]. simpl. apply elem_of_cons in Ha as [->|Ha].
  - rewrite Hf, Hg. simpl. f_equal. apply countb_ext. intros x Hx. apply Hext.
    + by apply list_elem_of_further.
    + intros ->. done.
  - rewrite (Hext b) by (apply list_elem_of_here || (intros ->; done)).
    rewrite (IH Hnd Ha Hf Hg); [lia|]. intros x Hx. apply Hext. by apply list_elem_of_further.
Qed.

Lemma countb_nodup_le f l : NoDup l -> (forall x y, f x = true -> f y = true -> x = y) -> (countb f l <= 1)%nat.
Proof.
  induction l as [|a l IH]; intros Hnd Hf; simpl; [lia|].
  apply list.NoDup_cons in Hnd as [Ha Hnd]. specialize (IH Hnd Hf).
  destruct (f a) eqn:E; [|lia]. assert (countb f l = 0%nat); [|lia].
  apply countb_zero. intros x Hx. destruct (f x) eqn:E'; [|done].
  by rewrite (Hf _ _ E E') in Ha.
Qed.
End countb.

(** ** Extremal elements of non-empty lists *)

Lemma list_argmin {A} (f : A -> Z) (P : A -> Prop) `{forall x, Decision (P x)} (l : list A) x :
  x ∈ l -> P x -> exists y, y ∈ l /\ P y /\ forall z, z ∈ l -> P z -> f y <= f z.
Proof.
  intros Hx HP. revert x Hx HP. induction l as [|a l IH]; intros x Hx HP; [by apply elem_of_nil in Hx|].
  destruct (decide (Exists P l)) as [HE|HE].
  - apply list.Exists_exists in HE as (x' & Hx' & HP').
    destruct (IH _ Hx' HP') as (y & Hy & HPy & Hmin).
    destruct (decide (P a)) as [HPa|HPa]; [destruct (decide (f a <= f y))|].
    + exists a. split; [apply list_elem_of_here|]. split; [done|].
      intros z [->|Hz]%elem_of_cons HPz; [lia|]. specialize (Hmin z Hz HPz). lia.
    + exists y. split; [by apply list_elem_of_further|]. split; [done|].
      intros z [->|Hz]%elem_of_cons HPz; [lia|auto].
    + exists y. split; [by apply list_elem_of_further|]. split; [done|].
      intros z [->|Hz]%elem_of_cons HPz; [done|auto].
  - exists a. split; [apply list_elem_of_here|].
    assert (forall z, z ∈ l -> ~ P z) as Hn.
    { intros z Hz HPz. apply HE, list.Exists_exists. eauto. }
    apply elem_of_cons in Hx as [->|Hx]; [|by destruct (Hn x)].
    split; [done|]. intros z [->|Hz]%elem_of_cons HPz; [lia|]. by destruct (Hn z).
Qed.

Lemma list_argmax {A} (f : A -> Z) (P : A -> Prop) `{forall x, Decision (P x)} (l : list A) x :
  x ∈ l -> P x -> exists y, y ∈ l /\ P y /\ forall z, z ∈ l -> P z -> f z <= f y.
Proof.
  intros Hx HP. destruct (list_argmin (fun a => - f a) P l x Hx HP) as (y & Hy & HPy & Hm).
  exists y. split; [done|]. split; [done|]. intros z Hz HPz. specialize (Hm z Hz HPz). lia.
Qed.

Lemma flat_map_singleton {A B} (f : A -> B) (l : list A) : flat_map (fun x => [f x]) l = map f l.
Proof. induction l; simpl; congruence. Qed.

(** ** Lengths *)

Lemma nodup_length_le `{EqDecision A} (l k : list A) :
  NoDup l -> (forall x, x ∈ l -> x ∈ k) -> (length l <= length k)%nat.
Proof. intros Hnd Hin. by apply submseteq_length, list.NoDup_submseteq. Qed.

Lemma sum_length_bind {A B} (f : A -> list B) (l : list A) :
  sum_list (map (fun x => length (f x)) l) = length (l ≫= f).
Proof. induction l as [|a l IH]; simpl; [done|]. by rewrite length_app, IH. Qed.

Lemma sum_list_const {A} (f : A -> nat) k l : (forall x, f x = k) -> sum_list (map f l) = (length l * k)%nat.
Proof.
  intros Hf. induction l as [|x l IH]; [done|]. change (f x + sum_list (map f l) = (S (length l) * k))%nat. rewrite IH, Hf. lia.
Qed.

Lemma sum_list_le {A} (f g : A -> nat) l : (forall x, x ∈ l -> (f x <= g x)%nat) -> (sum_list (map f l) <= sum_list (map g l))%nat.
Proof.
  induction l as [|x l IH]; intros H; [done|]. simpl. apply Nat.add_le_mono; [apply H, list_elem_of_here|].
  apply IH. intros y Hy. apply H. by apply list_elem_of_further.
Qed.

Lemma sum_list_add {A} (f g : A -> nat) (l : list A) :
  sum_list (map (fun x => f x + g x)%nat l) = (sum_list (map f l) + sum_list (map g l))%nat.
Proof. induction l; simpl; lia. Qed.
