(* ===== verification/Machine.v ===== *)
(** * The one-sided communication machine

    The collectives, the locks and the teams of the library are SPMD programs:
    every PE runs the same C code over its own copy of the symmetric memory and
    the internal API of [shmem_comm.h] and [shmem_synchronization.h].  This file
    gives that API: programs as trees of operations, the memory of every PE, the
    operations in flight in the transport, and the step relation of the whole job. *)

From S2P Require Import Prelude.
Local Open Scope Z_scope.

(** ** Memory, messages and operations *)

(** Comparison operators of [SHMEM_WAIT_UNTIL] and of the [COMP] macro. *)
Inductive cmp := SHMEM_CMP_EQ | SHMEM_CMP_NE | SHMEM_CMP_GT | SHMEM_CMP_GE | SHMEM_CMP_LT | SHMEM_CMP_LE.

Definition COMP (type : cmp) (a b : Z) : bool :=
  match type with
  | SHMEM_CMP_EQ => a =? b
  | SHMEM_CMP_NE => negb (a =? b)
  | SHMEM_CMP_GT => a >? b
  | SHMEM_CMP_GE => a >=? b
  | SHMEM_CMP_LT => a <? b
  | SHMEM_CMP_LE => a <=? b
  end.

(** The memory of one PE: a cell at byte address [a] holds the whole scalar that
    starts at [a]; the bytes inside a scalar are cells holding 0. *)
Abbreviation lmem := (Z -> Z).

(** What an operation carries: the values (with their offsets from the target),
    or the local source they are still to be read from. *)
Inductive payload :=
| Captured (vals : list (Z * Z))
| Pending (source : Z) (offs : list Z).

Inductive mkind :=
| KPut
| KAtomic (calc : Z -> Z -> Z).

(** An operation issued and not yet complete at its target. *)
Record msg := Msg {
  m_src : Z; m_dst : Z; m_epoch : nat; m_kind : mkind;
  m_target : Z; m_nbi : bool; m_data : payload }.

(** The operations a PE can perform. *)
Inductive op :=
| OPut (pe target : Z) (data : payload) (nbi : bool)
| OAtomic (pe target : Z) (calc : Z -> Z -> Z) (data : payload)
| ORmw (pe target : Z) (f : Z -> Z)
| OPutWait
| OFence
| OQuiet
| OWait (var : Z) (c : cmp) (value : Z)
| OLoad (a : Z)
| OLocal (f : lmem -> lmem)
| OCall (f : lmem -> Z * lmem)
| OMark (tag : Z).

(** A program: a value, an operation and what to do with its result, or a job abort. *)
Inductive prog (A : Type) :=
| Ret (a : A)
| Do (o : op) (k : Z -> prog A)
| Raise.
Arguments Ret {A} a.
Arguments Do {A} o k.
Arguments Raise {A}.

Fixpoint pbind {A B} (p : prog A) (f : A -> prog B) : prog B :=
  match p with
  | Ret a => f a
  | Do o k => Do o (fun v => pbind (k v) f)
  | Raise => Raise
  end.

Declare Scope prog_scope.
Delimit Scope prog_scope with prog.
Notation "x <- p ; q" := (pbind p (fun x => q))
  (at level 100, p at next level, q at level 200, right associativity) : prog_scope.
Notation "p ;; q" := (pbind p (fun _ => q))
  (at level 100, q at level 200, right associativity) : prog_scope.
Abbreviation skip := (Ret tt).

(** [for] loops over a list of indices. *)
Fixpoint for_ {I} (l : list I) (body : I -> prog unit) : prog unit :=
  match l with
  | [] => skip
  | i :: l => pbind (body i) (fun _ => for_ l body)
  end.

Definition do_ (o : op) : prog unit := Do o (fun _ => skip).
Definition when (b : bool) (p : prog unit) : prog unit := if b then p else skip.

Lemma pbind_skip (p : prog unit) : pbind p (fun _ => skip) = p.
Proof.
  induction p as [[]|o k IH|]; simpl; [done| |done]. f_equal. extensionality v. apply IH.
Qed.

Lemma pbind_assoc {A B C} (p : prog A) (f : A -> prog B) (g : B -> prog C) :
  pbind (pbind p f) g = pbind p (fun a => pbind (f a) g).
Proof. induction p as [a|o k IH|]; simpl; [done| |done]. f_equal. extensionality v. apply IH. Qed.

(** ** State of the job and the effect of each operation *)

Record state := St {
  mem : Z -> lmem;          (* the symmetric memory of every PE *)
  net : list msg;           (* operations in flight *)
  epoch : Z -> nat;         (* number of fences each PE has issued *)
  log : list (Z * Z) }.     (* marks left by the programs *)

Definition set_mem (s : state) (pe : Z) (m : lmem) : state :=
  St (<[pe := m]> (mem s)) (net s) (epoch s) (log s).
Definition set_net (s : state) (n : list msg) : state :=
  St (mem s) n (epoch s) (log s).

Definition pending (d : payload) : bool := match d with Pending _ _ => true | _ => false end.

Definition op_exec (pe : Z) (o : op) (s : state) : option (Z * state) :=
  match o with
  | OPut t a d nbi => Some (0, set_net s (net s ++ [Msg pe t (epoch s pe) KPut a nbi d]))
  | OAtomic t a c d => Some (0, set_net s (net s ++ [Msg pe t (epoch s pe) (KAtomic c) a false d]))
  | ORmw t a f => Some (mem s t a, set_mem s t (<[a := f (mem s t a)]> (mem s t)))
  | OPutWait =>
      if forallb (fun m => negb ((m_src m =? pe) && pending (m_data m) && negb (m_nbi m))) (net s)
      then Some (0, s) else None
  | OFence => Some (0, St (mem s) (net s) (<[pe := S (epoch s pe)]> (epoch s)) (log s))
  | OQuiet => if forallb (fun m => negb (m_src m =? pe)) (net s) then Some (0, s) else None
  | OWait a c v => if COMP c (mem s pe a) v then Some (0, s) else None
  | OLoad a => Some (mem s pe a, s)
  | OLocal f => Some (0, set_mem s pe (f (mem s pe)))
  | OCall f => Some ((f (mem s pe)).1, set_mem s pe (f (mem s pe)).2)
  | OMark t => Some (0, St (mem s) (net s) (epoch s) (log s ++ [(pe, t)]))
  end.

(** Delivery of one captured operation at its target. *)
Definition combine_kind (k : mkind) (old v : Z) : Z :=
  match k with KPut => v | KAtomic c => c old v end.

Definition apply_vals (k : mkind) (target : Z) (vals : list (Z * Z)) (m : lmem) : lmem :=
  fold_left (fun m '(o, v) => <[target + o := combine_kind k (m (target + o)) v]> m) vals m.

(** Ordering: an operation issued before a fence reaches its target PE before any
    operation issued by the same PE to the same target after that fence. *)
Definition fence_ready (m : msg) (others : list msg) : bool :=
  forallb (fun m' => negb ((m_src m' =? m_src m) && (m_dst m' =? m_dst m) &&
                           (m_epoch m' <? m_epoch m)%nat)) others.

Inductive net_step : state -> state -> Prop :=
| net_capture s l1 m l2 src offs :
    net s = l1 ++ m :: l2 ->
    m_data m = Pending src offs ->
    net_step s (set_net s (l1 ++ Msg (m_src m) (m_dst m) (m_epoch m) (m_kind m) (m_target m) (m_nbi m)
                  (Captured (map (fun o => (o, mem s (m_src m) (src + o))) offs)) :: l2))
| net_deliver s l1 m l2 vals :
    net s = l1 ++ m :: l2 ->
    m_data m = Captured vals ->
    fence_ready m (l1 ++ l2) = true ->
    net_step s (set_net (set_mem s (m_dst m)
                  (apply_vals (m_kind m) (m_target m) vals (mem s (m_dst m)))) (l1 ++ l2)).

(** A job: one program per PE and the shared state. *)
Record world := World { progs : Z -> prog unit; w_st : state }.

Inductive step : world -> world -> Prop :=
| step_pe w pe o k v s' :
    progs w pe = Do o k ->
    op_exec pe o (w_st w) = Some (v, s') ->
    step w (World (<[pe := k v]> (progs w)) s')
| step_net w s' :
    net_step (w_st w) s' ->
    step w (World (progs w) s').

Definition returned (w : world) (pe : Z) : Prop := progs w pe = Ret tt.
Definition all_returned (w : world) : Prop := forall pe, returned w pe.

(** The initial state of a job: given memory, nothing in flight. *)
Definition init_state (m : Z -> lmem) : state := St m [] (fun _ => 0%nat) [].

(** ** Delivery of a put *)

Lemma apply_puts target vals m a :
  (exists x, x ∈ vals /\ target + x.1 = a /\ apply_vals KPut target vals m a = x.2) \/
  ((forall x, x ∈ vals -> target + x.1 <> a) /\ apply_vals KPut target vals m a = m a).
Proof.
  revert m. induction vals as [|[o x] vals IH]; intros m.
  - right. split; [by intros x ?%elem_of_nil|done].
  - change (apply_vals KPut target ((o, x) :: vals) m) with (apply_vals KPut target vals (<[target + o := x]> m)).
    destruct (IH (<[target + o := x]> m)) as [(y & Hy & E & Ev)|[Hn Ev]].
    + left. exists y. split; [by apply list_elem_of_further|done].
    + destruct (decide (target + o = a)) as [<-|Hne].
      * left. exists (o, x). split; [apply list_elem_of_here|]. split; [done|].
        rewrite Ev. by rewrite fn_lookup_insert.
      * right. split; [intros y [->|Hy]%elem_of_cons; [done|by apply Hn]|].
        rewrite Ev. by rewrite fn_lookup_insert_ne.
Qed.

(** ** An executable scheduler, for evaluating jobs *)

Inductive choice := RunPE (pe : Z) | RunNet (i : nat).

Definition net_exec (i : nat) (s : state) : option state :=
  match net s !! i with
  | None => None
  | Some m =>
      let l1 := take i (net s) in
      let l2 := drop (S i) (net s) in
      match m_data m with
      | Pending src offs =>
          Some (set_net s (l1 ++ Msg (m_src m) (m_dst m) (m_epoch m) (m_kind m) (m_target m) (m_nbi m)
                  (Captured (map (fun o => (o, mem s (m_src m) (src + o))) offs)) :: l2))
      | Captured vals =>
          if fence_ready m (l1 ++ l2)
          then Some (set_net (set_mem s (m_dst m)
                  (apply_vals (m_kind m) (m_target m) vals (mem s (m_dst m)))) (l1 ++ l2))
          else None
      end
  end.

Definition exec (c : choice) (w : world) : option world :=
  match c with
  | RunPE pe =>
      match progs w pe with
      | Do o k => match op_exec pe o (w_st w) with
                  | Some (v, s') => Some (World (<[pe := k v]> (progs w)) s')
                  | None => None
                  end
      | _ => None
      end
  | RunNet i => match net_exec i (w_st w) with
                | Some s' => Some (World (progs w) s')
                | None => None
                end
  end.

(** Try the given choices in turn, over and over, [fuel] times. *)
Fixpoint run (fuel : nat) (cs : list choice) (w : world) : world :=
  match fuel with
  | O => w
  | S fuel => run fuel cs (fold_left (fun w c => default w (exec c w)) cs w)
  end.

(** Run a list of choices, each of which must be possible. *)
Fixpoint exec_all (cs : list choice) (w : world) : option world :=
  match cs with
  | [] => Some w
  | c :: cs => match exec c w with Some w' => exec_all cs w' | None => None end
  end.

Lemma net_exec_sound i s s' : net_exec i s = Some s' -> net_step s s'.
Proof.
  unfold net_exec. destruct (net s !! i) as [m|] eqn:Em; [|done]. pose proof (take_drop_middle _ _ _ Em) as E.
  destruct (m_data m) as [vals|src offs] eqn:Ed.
  - destruct (fence_ready _ _) eqn:Ef; [|done]. intros [= <-]. by eapply net_deliver.
  - intros [= <-]. by eapply net_capture.
Qed.

Lemma exec_sound c w w' : exec c w = Some w' -> step w w'.
Proof.
  destruct c as [pe|i]; simpl.
  - destruct (progs w pe) as [|o k|] eqn:Ep; [done| |done].
    destruct (op_exec pe o (w_st w)) as [[v s']|] eqn:Eo; [|done]. intros [= <-]. by eapply step_pe.
  - destruct (net_exec i (w_st w)) as [s'|] eqn:En; [|done]. intros [= <-]. by apply step_net, (net_exec_sound i).
Qed.

Lemma exec_all_sound cs w w' : exec_all cs w = Some w' -> rtc step w w'.
Proof.
  revert w. induction cs as [|c cs IH]; intros w; simpl; [by intros [= ->]|].
  destruct (exec c w) as [w1|] eqn:E; [|done]. intros H. eapply rtc_l; [by eapply exec_sound|by apply IH].
Qed.

(** The programs of the PEs that are not chosen do not move. *)
(** A property of the outcome of the given choices is one of an execution. *)
Lemma exec_all_outcome {A} cs w (f : world -> A) v :
  option_map f (exec_all cs w) = Some v -> exists w', rtc step w w' /\ f w' = v.
Proof. destruct (exec_all cs w) as [w'|] eqn:E; [|done]. intros [= <-]. exists w'. split; [by eapply exec_all_sound|done]. Qed.

Lemma stays_returned w w' pe : rtc step w w' -> returned w pe -> returned w' pe.
Proof.
  unfold returned. induction 1 as [|w w1 w2 Hs _ IH]; [done|]. intros Hr. apply IH.
  destruct Hs as [w q o k v s Hp _|]; [|done]. simpl. rewrite fn_lookup_insert_ne; [done|]. intros ->. congruence.
Qed.

Lemma exec_all_other cs w w' pe : RunPE pe ∉ cs -> exec_all cs w = Some w' -> progs w' pe = progs w pe.
Proof.
  revert w. induction cs as [|c cs IH]; intros w Hn; simpl; [by intros [= ->]|].
  apply not_elem_of_cons in Hn as [Hc Hn]. destruct (exec c w) as [w1|] eqn:E; [|done].
  intros H. rewrite (IH w1 Hn H). destruct c as [q|i]; simpl in E.
  - destruct (progs w q) as [|o k|]; [done| |done]. destruct (op_exec q o (w_st w)) as [[v s']|]; [|done].
    injection E as <-. simpl. apply fn_lookup_insert_ne. congruence.
  - destruct (net_exec i (w_st w)); [|done]. by injection E as <-.
Qed.
