(* ===== verification/Straight.v ===== *)
(** * Straight-line SPMD programs

    Most collectives are, once the rank and the active set are known, a fixed
    sequence of operations; [Straight] relates a program to its operation list.  The second part
    gives jobs whose program points carry labels a semantics on labels that
    simulates the machine in both directions; invariants, termination and progress
    of a job are proved on its labels. *)

From S2P Require Import Prelude Machine.
Local Open Scope Z_scope.
Local Open Scope prog_scope.

(** ** Programs as operation lists *)

Fixpoint seqp (l : list op) : prog unit :=
  match l with
  | [] => skip
  | o :: l => Do o (fun _ => seqp l)
  end.

Lemma seqp_app l1 l2 : pbind (seqp l1) (fun _ => seqp l2) = seqp (l1 ++ l2).
Proof.
  induction l1 as [|o l1 IH]; simpl; [done|].
  f_equal. by extensionality v.
Qed.

(** [Straight p l]: the program [p] performs exactly the operations [l]. *)
Class Straight (p : prog unit) (l : list op) := straight : p = seqp l.

#[export] Instance straight_skip : Straight skip [].
Proof. done. Qed.
#[export] Instance straight_do o : Straight (do_ o) [o].
Proof. done. Qed.
#[export] Instance straight_bind p q l1 l2 :
  Straight p l1 -> Straight q l2 -> Straight (p ;; q)%prog (l1 ++ l2).
Proof. unfold Straight; intros -> ->. apply seqp_app. Qed.
#[export] Instance straight_for {I} (l : list I) body ops :
  (forall i, Straight (body i) (ops i)) -> Straight (for_ l body) (flat_map ops l) | 10.
Proof.
  unfold Straight; intros H. induction l as [|i l IH]; simpl; [done|].
  rewrite H, IH. apply seqp_app.
Qed.
#[export] Instance straight_when b p l :
  Straight p l -> Straight (when b p) (if b then l else []).
Proof. unfold Straight; intros ->; by destruct b. Qed.
#[export] Instance straight_if (b : bool) p q l1 l2 :
  Straight p l1 -> Straight q l2 -> Straight (if b then p else q) (if b then l1 else l2).
Proof. unfold Straight; intros -> ->; by destruct b. Qed.
#[export] Instance straight_seqp l : Straight (seqp l) l.
Proof. done. Qed.

Lemma for_ext {I} (l : list I) body body' : (forall i, i ∈ l -> body i = body' i) -> for_ l body = for_ l body'.
Proof.
  induction l as [|i l IH]; simpl; intros H; [done|].
  rewrite (H i), IH; [done| |constructor]. intros j Hj. apply H. by constructor.
Qed.

Lemma for_map {I J} (f : I -> J) (l : list I) body : for_ (map f l) body = for_ l (fun i => body (f i)).
Proof. induction l as [|i l IH]; simpl; [done|]. f_equal. by rewrite IH. Qed.

(** Rewrite a program into its operation list. *)
Ltac straighten :=
  match goal with
  | |- ?p = seqp ?l => let H := fresh in
      pose proof (_ : Straight p _) as H; red in H; rewrite H; clear H; f_equal
  end.

(** ** Programs whose operations all satisfy a predicate *)

Definition performs (P : op -> Prop) (q : prog unit) : Prop := exists l, q = seqp l /\ Forall P l.

Section performs.
Context (P : op -> Prop).

Lemma performs_skip : performs P skip.
Proof. by exists []. Qed.
Lemma performs_do o : P o -> performs P (do_ o).
Proof. intros H. exists [o]. split; [done|]. by constructor. Qed.
Lemma performs_bind q1 q2 : performs P q1 -> performs P q2 -> performs P (q1 ;; q2).
Proof.
  intros (l1 & -> & H1) (l2 & -> & H2). exists (l1 ++ l2). split; [apply seqp_app|]. by apply Forall_app.
Qed.
Lemma performs_if (b : bool) q1 q2 : performs P q1 -> performs P q2 -> performs P (if b then q1 else q2).
Proof. by destruct b. Qed.
Lemma performs_for {I} (l : list I) body : (forall i, i ∈ l -> performs P (body i)) -> performs P (for_ l body).
Proof.
  induction l as [|i l IH]; intros H; [apply performs_skip|]. apply performs_bind.
  - apply H, list_elem_of_here.
  - apply IH. intros j Hj. apply H. by apply list_elem_of_further.
Qed.
End performs.

(** The operations of a straight program. *)
Fixpoint prog_ops (q : prog unit) : list op :=
  match q with
  | Do o k => o :: prog_ops (k 0)
  | _ => []
  end.
Lemma prog_ops_seqp l : prog_ops (seqp l) = l.
Proof. induction l as [|o l IH]; simpl; [done|]. by rewrite IH. Qed.

Lemma performs_ops P q : performs P q -> q = seqp (prog_ops q) /\ Forall P (prog_ops q).
Proof. intros (l & -> & H). by rewrite prog_ops_seqp. Qed.

(** ** Labelled program points *)

Section labels.
(** A set of labels for the points of the programs, the program at each point,
    the operation (with the next label, given its result) it performs, and what a
    point without an operation is: a return or an abort. *)
Context {L : Type} (pt : Z -> L -> prog unit) (next : Z -> L -> option (op * (Z -> L))) (halt : Z -> L -> bool).
Context (Hpt : forall pe l, pt pe l = match next pe l with
                                      | Some (o, f) => Do o (fun r => pt pe (f r))
                                      | None => if halt pe l then skip else Raise
                                      end).

Record lworld := LW { lab : Z -> L; lst : state }.

Inductive lstep : lworld -> lworld -> Prop :=
| lstep_pe ls pe o f v s' :
    next pe (lab ls pe) = Some (o, f) ->
    op_exec pe o (lst ls) = Some (v, s') ->
    lstep ls (LW (<[pe := f v]> (lab ls)) s')
| lstep_net ls s' :
    net_step (lst ls) s' ->
    lstep ls (LW (lab ls) s').

Definition refines (w : world) (ls : lworld) : Prop :=
  (forall pe, progs w pe = pt pe (lab ls pe)) /\ w_st w = lst ls.

Lemma refines_step w ls w' :
  refines w ls -> step w w' -> exists ls', lstep ls ls' /\ refines w' ls'.
Proof.
  intros [Hp Hs] Hstep. destruct Hstep as [w pe o k v s' Hpe Hex | w s' Hn].
  - rewrite Hp, Hpt in Hpe. destruct (next pe (lab ls pe)) as [[o' f]|] eqn:En; [|by destruct (halt _ _)].
    injection Hpe as -> <-. rewrite Hs in Hex.
    eexists; split; [by eapply lstep_pe|]. split; [|done]. intros pe'. simpl.
    destruct (decide (pe' = pe)) as [->|Hne].
    + by rewrite !fn_lookup_insert.
    + by rewrite !fn_lookup_insert_ne by done.
  - rewrite Hs in Hn. eexists; split; [by apply lstep_net|]. done.
Qed.

Lemma refines_lstep w ls ls' :
  refines w ls -> lstep ls ls' -> exists w', step w w' /\ refines w' ls'.
Proof.
  intros [Hp Hs] Hstep. destruct Hstep as [ls pe o f v s' Hl Hex | ls s' Hn].
  - rewrite <- Hs in Hex. eexists; split.
    + eapply step_pe; [|done]. by rewrite Hp, Hpt, Hl.
    + split; [|done]. intros pe'. simpl.
      destruct (decide (pe' = pe)) as [->|Hne].
      * by rewrite !fn_lookup_insert.
      * by rewrite !fn_lookup_insert_ne by done.
  - rewrite <- Hs in Hn. eexists; split; [by apply step_net|]. done.
Qed.

(** Invariants of the labelled semantics hold of every reachable job. *)
Lemma invariant_reachable (I : lworld -> Prop) w0 ls0 w :
  refines w0 ls0 -> I ls0 ->
  (forall ls ls', I ls -> lstep ls ls' -> I ls') ->
  rtc step w0 w -> exists ls, refines w ls /\ I ls.
Proof.
  intros Hr Hi Hpres Hsteps. revert ls0 Hr Hi.
  induction Hsteps as [w|w1 w2 w3 H12 _ IH]; intros ls0 Hr Hi; [by exists ls0|].
  destruct (refines_step _ _ _ Hr H12) as (ls1 & Hst & Hr1). eauto.
Qed.

Lemma refines_returned w ls pe :
  refines w ls -> returned w pe <-> next pe (lab ls pe) = None /\ halt pe (lab ls pe) = true.
Proof.
  intros [Hp _]. unfold returned. rewrite Hp, Hpt. destruct (next _ _) as [[o f]|].
  - split; [done|]. by intros [? _].
  - destruct (halt _ _); split; try done. by intros [_ ?].
Qed.
End labels.
Arguments lworld L : clear implicits.
Arguments LW {L} lab lst.

(** ** The network can always move, and every job is bounded *)

Lemma fence_ready_exists (l : list msg) :
  l <> [] -> Forall (fun m => pending (m_data m) = false) l ->
  exists l1 m l2, l = l1 ++ m :: l2 /\ fence_ready m (l1 ++ l2) = true /\ pending (m_data m) = false.
Proof.
  intros Hne HF.
  assert (exists m, m ∈ l /\ forall m', m' ∈ l -> (m_epoch m <= m_epoch m')%nat) as (m & Hm & Hmin).
  { clear HF. induction l as [|a l IH]; [done|]. destruct l as [|b l'].
    - exists a. split; [apply list_elem_of_here|]. intros m' ->%list_elem_of_singleton. done.
    - destruct IH as (m & Hm & Hmin); [done|].
      destruct (decide (m_epoch a <= m_epoch m)%nat).
      + exists a. split; [apply list_elem_of_here|]. intros m' [->|H]%elem_of_cons; [done|].
        specialize (Hmin _ H). lia.
      + exists m. split; [by apply list_elem_of_further|].
        intros m' [->|H]%elem_of_cons; [lia|eauto]. }
  destruct (list_elem_of_split _ _ Hm) as (l1 & l2 & ->).
  exists l1, m, l2. split; [done|]. split.
  - unfold fence_ready. rewrite forallb_forall. intros m' Hin%list_elem_of_In.
    assert (m' ∈ l1 ++ m :: l2) as H%Hmin
      by (rewrite elem_of_app, elem_of_cons; apply elem_of_app in Hin; tauto).
    rewrite (proj2 (Nat.ltb_ge _ _) H), andb_false_r. done.
  - rewrite list.Forall_forall in HF. apply HF. rewrite elem_of_app, elem_of_cons. auto.
Qed.

Lemma net_progress s : net s <> [] -> exists s', net_step s s'.
Proof.
  intros Hne.
  destruct (decide (Forall (fun m => pending (m_data m) = false) (net s))) as [HF|HF].
  - destruct (fence_ready_exists _ Hne HF) as (l1 & m & l2 & E & Hr & Hp).
    destruct (m_data m) as [vals|] eqn:Ed; [|done]. eexists. by eapply net_deliver.
  - apply not_Forall_Exists in HF; [|intros ?; apply _].
    apply list.Exists_exists in HF as (m & Hm & Hp).
    destruct (list_elem_of_split _ _ Hm) as (l1 & l2 & E).
    destruct (m_data m) as [|src offs] eqn:Ed;
      [exfalso; apply Hp; simpl; by rewrite Ed|]. eexists. by eapply net_capture.
Qed.

Definition msg_weight (m : msg) : nat := if pending (m_data m) then 2 else 1.
Definition net_weight (n : list msg) : nat := sum_list (map msg_weight n).

Lemma net_weight_app l1 l2 : net_weight (l1 ++ l2) = (net_weight l1 + net_weight l2)%nat.
Proof. unfold net_weight. rewrite map_app. induction l1; simpl; lia. Qed.

Lemma net_step_weight s s' : net_step s s' -> (net_weight (net s') < net_weight (net s))%nat.
Proof.
  intros [s0 l1 m l2 src offs E D | s0 l1 m l2 vals E D R]; simpl; rewrite E, !net_weight_app;
    unfold net_weight; simpl; unfold msg_weight; simpl; rewrite D; simpl; lia.
Qed.

Lemma op_exec_weight pe o s v s' :
  op_exec pe o s = Some (v, s') -> (net_weight (net s') <= net_weight (net s) + 2)%nat.
Proof.
  assert (forall m, msg_weight m <= 2)%nat as Hw.
  { intros m. unfold msg_weight. destruct (pending _); lia. }
  destruct o; simpl; intros H;
    repeat (case_match; try done); injection H as <- <-; simpl;
    rewrite ?net_weight_app; unfold net_weight; simpl;
    try match goal with |- context [msg_weight ?m] => specialize (Hw m) end; lia.
Qed.

Definition remaining {L} (dist : Z -> L -> nat) (members : list Z) (lb : Z -> L) : nat :=
  sum_list (map (fun pe => dist pe (lb pe)) members).

Lemma remaining_insert {L} (dist : Z -> L -> nat) members lb pe l :
  NoDup members -> pe ∈ members -> (dist pe l < dist pe (lb pe))%nat ->
  (remaining dist members (<[pe := l]> lb) < remaining dist members lb)%nat.
Proof.
  unfold remaining. induction members as [|a ms IH]; intros Hnd Hin Hlt; [by apply elem_of_nil in Hin|].
  apply list.NoDup_cons in Hnd as [Ha Hnd]. simpl.
  apply elem_of_cons in Hin as [->|Hin].
  - rewrite fn_lookup_insert.
    assert (map (fun pe => dist pe (<[a := l]> lb pe)) ms = map (fun pe => dist pe (lb pe)) ms) as ->; [|lia].
    apply map_ext_in. intros b Hb%list_elem_of_In.
    rewrite fn_lookup_insert_ne; [done|]. by intros ->.
  - rewrite fn_lookup_insert_ne by (intros ->; done). specialize (IH Hnd Hin Hlt). lia.
Qed.

(** A job that always comes to an end: its executions have at most [bound] steps,
    and one that cannot be extended has returned on every PE. *)
Definition job_completes (w0 : world) (bound : nat) : Prop :=
  (forall n w, nsteps step n w0 w -> (n <= bound)%nat) /\
  (forall w, rtc step w0 w -> all_returned w \/ exists w', step w w').

Section bounded.
Context {L : Type} (pt : Z -> L -> prog unit) (next : Z -> L -> option (op * (Z -> L))) (halt : Z -> L -> bool).
Context (Hpt : forall pe l, pt pe l = match next pe l with
                                      | Some (o, f) => Do o (fun r => pt pe (f r))
                                      | None => if halt pe l then skip else Raise
                                      end).
Context (members : list Z) (dist : Z -> L -> nat) (Hnd : NoDup members).
Context (Hdist : forall pe l o f r, next pe l = Some (o, f) -> pe ∈ members /\ (dist pe (f r) < dist pe l)%nat).

Definition lmeasure (ls : lworld L) : nat :=
  (3 * remaining dist members (lab ls) + net_weight (net (lst ls)))%nat.

Lemma lstep_measure ls ls' : lstep next ls ls' -> (lmeasure ls' < lmeasure ls)%nat.
Proof.
  unfold lmeasure. intros [ls0 pe o f v s' Hl Hex | ls0 s' Hn]; simpl.
  - destruct (Hdist _ _ _ _ v Hl) as [Hin Hlt].
    pose proof (remaining_insert dist members (lab ls0) pe (f v) Hnd Hin Hlt).
    pose proof (op_exec_weight _ _ _ _ _ Hex). lia.
  - pose proof (net_step_weight _ _ Hn). lia.
Qed.

Lemma labels_bounded w0 ls0 n w :
  refines pt w0 ls0 -> nsteps step n w0 w -> (n <= lmeasure ls0)%nat.
Proof.
  intros Hr Hn. revert ls0 Hr.
  induction Hn as [w|n w1 w2 w3 H12 _ IH]; intros ls0 Hr; [lia|].
  destruct (refines_step _ _ _ Hpt _ _ _ Hr H12) as (ls1 & Hst & Hr1).
  specialize (IH _ Hr1). pose proof (lstep_measure _ _ Hst). lia.
Qed.

(** Completion from an invariant under which an unfinished job with an idle network can move. *)
Lemma labels_complete (I : lworld L -> Prop) w0 ls0 :
  refines pt w0 ls0 -> I ls0 ->
  (forall ls ls', I ls -> lstep next ls ls' -> I ls') ->
  (forall ls, I ls -> net (lst ls) = [] ->
     (forall pe, next pe (lab ls pe) = None /\ halt pe (lab ls pe) = true) \/ exists ls', lstep next ls ls') ->
  job_completes w0 (lmeasure ls0).
Proof.
  intros Hr Hi Hpres Hprog. split; [intros; by eapply labels_bounded|].
  intros w Hw. destruct (invariant_reachable _ _ _ Hpt I _ _ _ Hr Hi Hpres Hw) as (ls & Hrw & HI).
  destruct (decide (length (net (lst ls)) = 0)%nat) as [E|E].
  - destruct (Hprog _ HI) as [Hdone|[ls' Hst]]; [by apply nil_length_inv| |].
    + left. intros pe. by apply (refines_returned _ _ _ Hpt _ _ _ Hrw).
    + right. destruct (refines_lstep _ _ _ Hpt _ _ _ Hrw Hst) as (w' & ? & _). eauto.
  - right. destruct (net_progress (lst ls)) as [s' Hs']; [intros E'; by rewrite E' in E|].
    destruct (refines_lstep _ _ _ Hpt _ _ (LW (lab ls) s') Hrw) as (w' & ? & _); [by apply lstep_net|eauto].
Qed.
End bounded.
