(* ===== verification/Slots.v ===== *)
(** * Programs made of optional operations

    The algorithms of a collective differ in which of a common sequence of operations a
    member performs: the root does not wait, a leaf does not send, an acknowledgement is
    optional.  Such a program is a list of slots, each with an operation or empty; the
    label of a member is its position in the list.  Invariants are proved one slot at a
    time, empty slots included, and termination is for free. *)

From S2P Require Import Prelude Machine Straight.
Local Open Scope Z_scope.
Local Open Scope prog_scope.

(** An operation that only some members perform. *)
Definition slot (b : bool) (o : op) : option op := if b then Some o else None.

Lemma slot_none b o : slot b o = None -> b = false.
Proof. by destruct b. Qed.
Lemma slot_some b o o' : slot b o = Some o' -> b = true /\ o' = o.
Proof. destruct b; [by intros [= ->]|done]. Qed.

(** ** Blocks *)

(** A loop whose body has [B] slots. *)
Section blocks.
Context {A : Type} (B : nat) (f : nat -> list A) (Hlen : forall h, length (f h) = B).

Lemma length_blocks k m : length (flat_map f (seq k m)) = (B * m)%nat.
Proof.
  revert k. induction m as [|m IH]; intros k; [simpl; lia|]. cbn [seq flat_map]. rewrite length_app, Hlen, IH. lia.
Qed.

Lemma lookup_blocks k m h j : (j < B)%nat -> (h < m)%nat -> flat_map f (seq k m) !! (B * h + j)%nat = f (k + h)%nat !! j.
Proof.
  revert k h. induction m as [|m IH]; intros k h Hj Hh; [lia|]. cbn [seq flat_map]. destruct h as [|h].
  - rewrite Nat.mul_0_r, Nat.add_0_r, Nat.add_0_l, lookup_app_l by (rewrite Hlen; lia). done.
  - rewrite lookup_app_r, Hlen by (rewrite Hlen; lia). replace (B * S h + j - B)%nat with (B * h + j)%nat by lia.
    rewrite IH by lia. by replace (S k + h)%nat with (k + S h)%nat by lia.
Qed.

(** Which block a position is in, and where. *)
Lemma in_block m v : (v < B * m)%nat -> exists h j, (h < m)%nat /\ (j < B)%nat /\ v = (B * h + j)%nat.
Proof.
  intros Hv. exists (v / B)%nat, (v mod B)%nat. assert (B <> 0)%nat as HB by lia.
  pose proof (Nat.div_mod v B HB). pose proof (Nat.mod_upper_bound v B HB).
  split; [apply Nat.Div0.div_lt_upper_bound; lia|]. split; [done|lia].
Qed.

Lemma block_inj h j h' j' : (j < B)%nat -> (j' < B)%nat -> (B * h + j = B * h' + j')%nat -> h = h' /\ j = j'.
Proof.
  intros Hj Hj' E. assert (h = h') as ->; [|lia]. destruct (Nat.lt_trichotomy h h') as [Hl|[|Hl]]; [|done|]; nia.
Qed.
End blocks.

Section slots.
Context (M : list Z) (HM : NoDup M).
Context (slots : Z -> list (option op)).

(** The first operation of a list of slots that starts at position [v], and its position. *)
Fixpoint first_op (l : list (option op)) (v : nat) : option (op * nat) :=
  match l with
  | [] => None
  | Some o :: _ => Some (o, v)
  | None :: l => first_op l (S v)
  end.

Definition slot_pt (p : Z) (v : nat) : prog unit :=
  if decide (p ∈ M) then seqp (omap id (drop v (slots p))) else skip.
Definition slot_next (p : Z) (v : nat) : option (op * (Z -> nat)) :=
  if decide (p ∈ M) then
    match first_op (drop v (slots p)) v with
    | Some (o, u) => Some (o, fun _ => S u)
    | None => None
    end
  else None.

Lemma first_op_spec l v : match first_op l v with
  | Some (o, u) => exists n, u = (v + n)%nat /\ l !! n = Some (Some o) /\
                     (forall i, (i < n)%nat -> l !! i = Some None) /\ omap id l = o :: omap id (drop (S n) l)
  | None => (forall i, (i < length l)%nat -> l !! i = Some None) /\ omap id l = []
  end.
Proof.
  revert v. induction l as [|[o|] l IH]; intros v; simpl.
  - split; [lia|done].
  - exists 0%nat. split; [lia|]. split; [done|]. split; [lia|]. by rewrite drop_0.
  - specialize (IH (S v)). destruct (first_op l (S v)) as [[o u]|].
    + destruct IH as (n & -> & Hn & Hi & Ho). exists (S n). split; [lia|]. split; [done|].
      split; [|done]. intros [|i] Hlt; [done|]. apply Hi. lia.
    + destruct IH as [Hi Ho]. split; [|done]. intros [|i] Hlt; [done|]. apply Hi. lia.
Qed.

Lemma slot_pt_next p v : slot_pt p v = match slot_next p v with
                                       | Some (o, f) => Do o (fun r => slot_pt p (f r))
                                       | None => skip
                                       end.
Proof.
  unfold slot_pt, slot_next. destruct (decide (p ∈ M)); [|done].
  pose proof (first_op_spec (drop v (slots p)) v) as H. destruct (first_op _ v) as [[o u]|].
  - destruct H as (n & -> & _ & _ & ->). simpl. f_equal. extensionality r.
    rewrite drop_drop. do 3 f_equal. lia.
  - destruct H as [_ ->]. done.
Qed.

Lemma slot_next_spec p v o f : slot_next p v = Some (o, f) ->
  p ∈ M /\ exists u, (v <= u)%nat /\ f = (fun _ => S u) /\ slots p !! u = Some (Some o) /\
    forall i, (v <= i < u)%nat -> slots p !! i = Some None.
Proof.
  unfold slot_next. destruct (decide (p ∈ M)); [|done]. intros H. split; [done|].
  pose proof (first_op_spec (drop v (slots p)) v) as Hs. destruct (first_op _ v) as [[o' u]|]; [|done].
  injection H as -> <-. destruct Hs as (n & -> & Hn & Hi & _). exists (v + n)%nat.
  rewrite lookup_drop in Hn. split; [lia|]. split; [done|]. split; [done|]. intros i Hlt.
  specialize (Hi (i - v)%nat ltac:(lia)). rewrite lookup_drop in Hi.
  by replace (v + (i - v))%nat with i in Hi by lia.
Qed.

Definition slot_dist (p : Z) (v : nat) : nat := (length (slots p) - v)%nat.

Lemma slot_next_dist p v o f r : slot_next p v = Some (o, f) -> p ∈ M /\ (slot_dist p (f r) < slot_dist p v)%nat.
Proof.
  intros (Hp & u & Hu & -> & Ho & _)%slot_next_spec. split; [done|]. unfold slot_dist.
  apply lookup_lt_Some in Ho. lia.
Qed.

(** An invariant of the positions and the state, proved slot by slot. *)
Context (I : (Z -> nat) -> state -> Prop).
Context (Hempty : forall lb s p, I lb s -> p ∈ M -> slots p !! lb p = Some None -> I (<[p := S (lb p)]> lb) s).
Context (Hop : forall lb s p o x s', I lb s -> p ∈ M -> slots p !! lb p = Some (Some o) ->
  op_exec p o s = Some (x, s') -> I (<[p := S (lb p)]> lb) s').
Context (Hnet : forall lb s s', I lb s -> net_step s s' -> I lb s').

(** Empty slots can be passed at any time. *)
Lemma slots_skip n : forall lb s p v, I lb s -> p ∈ M -> lb p = v ->
  (forall i, (v <= i < v + n)%nat -> slots p !! i = Some None) -> I (<[p := (v + n)%nat]> lb) s.
Proof.
  induction n as [|n IH]; intros lb s p v Hi Hp Hv Hs.
  - assert (<[p := (v + 0)%nat]> lb = lb) as ->; [|done]. extensionality q. update_cases; [subst; lia|done].
  - assert (I (<[p := (v + n)%nat]> lb) s) as Hi' by (apply IH; [done..|intros; apply Hs; lia]).
    eapply Hempty in Hi'; [|exact Hp|rewrite fn_lookup_insert; apply Hs; lia].
    rewrite fn_lookup_insert in Hi'. assert (<[p := S (v + n)]> (<[p := (v + n)%nat]> lb) =
      <[p := (v + S n)%nat]> lb) as E; [|by rewrite E in Hi'].
    extensionality q. repeat update_cases; congruence || lia.
Qed.

Definition slots_inv (ls : lworld nat) : Prop := I (lab ls) (lst ls).

Lemma slots_step ls ls' : slots_inv ls -> lstep slot_next ls ls' -> slots_inv ls'.
Proof.
  unfold slots_inv. intros Hi Hst. destruct Hst as [ls p o f x s' Hn Hex|ls s' Hn]; [|by eapply Hnet].
  apply slot_next_spec in Hn as (Hp & u & Hu & -> & Ho & Hs).
  pose proof (slots_skip (u - lab ls p) _ _ p _ Hi Hp eq_refl) as H.
  replace (lab ls p + (u - lab ls p))%nat with u in H by lia. specialize (H Hs).
  eapply Hop in H; [|exact Hp|rewrite fn_lookup_insert; exact Ho|exact Hex]. rewrite fn_lookup_insert in H.
  assert (<[p := S u]> (<[p := u]> (lab ls)) = <[p := S u]> (lab ls)) as E; [|by rewrite E in H].
  extensionality q. repeat update_cases; congruence.
Qed.

(** All the empty slots passed: every member is at an operation or at its end. *)
Definition settled (lb : Z -> nat) : Prop :=
  forall p, p ∈ M -> (exists o, slots p !! lb p = Some (Some o)) \/ (length (slots p) <= lb p)%nat.

Lemma settle_one p v : p ∈ M -> exists n,
  (forall i, (v <= i < v + n)%nat -> slots p !! i = Some None) /\
  ((exists o, slots p !! (v + n)%nat = Some (Some o)) \/ (length (slots p) <= v + n)%nat) /\
  slot_next p v = slot_next p (v + n).
Proof.
  intros Hp. pose proof (first_op_spec (drop v (slots p)) v) as Hf.
  assert (forall n, (forall i, (i < n)%nat -> drop v (slots p) !! i = Some None) ->
    forall i, (v <= i < v + n)%nat -> slots p !! i = Some None) as Hd.
  { intros n Hlt i Hi. specialize (Hlt (i - v)%nat ltac:(lia)). rewrite lookup_drop in Hlt.
    by replace (v + (i - v))%nat with i in Hlt by lia. }
  unfold slot_next. setoid_rewrite (decide_True _ _ Hp). destruct (first_op _ v) as [[o u]|].
  - destruct Hf as (n & -> & Hn & Hlt & _). exists n. rewrite lookup_drop in Hn. split; [by apply Hd|].
    split; [eauto|]. by rewrite (drop_S _ _ _ Hn).
  - destruct Hf as [Hlt _]. exists (length (slots p) - v)%nat. rewrite length_drop in Hlt.
    split; [by apply Hd|]. split; [right; lia|]. by rewrite (drop_ge (slots p)) by lia.
Qed.

Lemma slots_settle lb s : I lb s -> exists lb', I lb' s /\ settled lb' /\
  forall p, slot_next p (lb p) = slot_next p (lb' p).
Proof.
  intros Hi. assert (forall l, l ⊆ M -> NoDup l -> exists lb', I lb' s /\
    (forall p, p ∈ l -> (exists o, slots p !! lb' p = Some (Some o)) \/ (length (slots p) <= lb' p)%nat) /\
    (forall p, slot_next p (lb p) = slot_next p (lb' p))) as H.
  { induction l as [|q l IH]; intros Hl Hnd; [exists lb; split; [done|]; split; [by intros p ?%elem_of_nil|done]|].
    apply list.NoDup_cons in Hnd as [Hq Hnd].
    destruct IH as (lb1 & Hi1 & Hs1 & Hn1); [set_solver|done|].
    assert (q ∈ M) as HqM by (apply Hl, list_elem_of_here).
    destruct (settle_one q (lb1 q) HqM) as (n & Hskip & Hend & Hnx).
    exists (<[q := (lb1 q + n)%nat]> lb1). split; [by apply slots_skip|]. split.
    - intros p [->|Hp]%elem_of_cons; [by rewrite fn_lookup_insert|].
      rewrite fn_lookup_insert_ne by (intros ->; done). auto.
    - intros p. rewrite Hn1. update_cases; [by subst|done]. }
  destruct (H M (reflexivity M) HM) as (lb' & ? & ? & ?). by exists lb'.
Qed.

(** The job of the members, from the memory [m0], is complete if an unfinished job with
    an idle network can always move. *)
Context (m0 : Z -> lmem) (Hinit : I (fun _ => 0%nat) (init_state m0)).
Context (Hprog : forall lb s, I lb s -> settled lb -> net s = [] ->
  (forall p, p ∈ M -> (length (slots p) <= lb p)%nat) \/
  exists p o r, p ∈ M /\ slots p !! lb p = Some (Some o) /\ op_exec p o s = Some r).

Definition slots_job : world := World (fun p => slot_pt p 0) (init_state m0).

Lemma slots_refines : refines slot_pt slots_job (LW (fun _ => 0%nat) (init_state m0)).
Proof. by split. Qed.

Lemma slots_reachable w : rtc step slots_job w -> exists lb,
  (forall p, progs w p = slot_pt p (lb p)) /\ I lb (w_st w).
Proof.
  intros Hw. destruct (invariant_reachable slot_pt slot_next (fun _ _ => true) slot_pt_next slots_inv
    slots_job _ w slots_refines Hinit slots_step Hw) as (ls & [Hp Hs] & Hi).
  exists (lab ls). split; [done|]. rewrite Hs. exact Hi.
Qed.

(** A member that has returned is at its end, possibly after empty slots. *)
Lemma slots_returned lb w p : (forall p, progs w p = slot_pt p (lb p)) -> I lb (w_st w) -> p ∈ M ->
  returned w p -> exists n, (length (slots p) <= lb p + n)%nat /\ I (<[p := (lb p + n)%nat]> lb) (w_st w).
Proof.
  intros Hw Hi Hp Hr. unfold returned in Hr. rewrite Hw, slot_pt_next in Hr.
  unfold slot_next in Hr. rewrite decide_True in Hr by done.
  pose proof (first_op_spec (drop (lb p) (slots p)) (lb p)) as Hf.
  destruct (first_op _ (lb p)) as [[o u]|]; [done|]. destruct Hf as [Hlt _].
  exists (length (slots p) - lb p)%nat. split; [lia|]. apply slots_skip; [done..|].
  intros i Hi'. rewrite length_drop in Hlt. specialize (Hlt (i - lb p)%nat ltac:(lia)).
  rewrite lookup_drop in Hlt. by replace (lb p + (i - lb p))%nat with i in Hlt by lia.
Qed.

Lemma slots_all_returned w : rtc step slots_job w -> all_returned w ->
  exists lb, I lb (w_st w) /\ forall p, p ∈ M -> (length (slots p) <= lb p)%nat.
Proof.
  intros Hw Hr. destruct (slots_reachable w Hw) as (lb & Hp & Hi).
  destruct (slots_settle lb _ Hi) as (lb' & Hi' & Hs & Hn). exists lb'. split; [done|].
  intros p HpM. destruct (Hs p HpM) as [[o Ho]|]; [exfalso|done].
  specialize (Hr p). unfold returned in Hr. rewrite Hp, slot_pt_next, Hn in Hr.
  unfold slot_next in Hr. rewrite decide_True, (drop_S _ _ _ Ho) in Hr by done. done.
Qed.

Lemma slots_complete : job_completes slots_job (3 * sum_list (map (fun p => length (slots p)) M)).
Proof.
  pose proof (labels_complete slot_pt slot_next (fun _ _ => true) slot_pt_next M slot_dist HM slot_next_dist
    slots_inv slots_job _ slots_refines Hinit slots_step) as H.
  unfold lmeasure, remaining, net_weight, slot_dist in H. simpl in H. rewrite Nat.add_0_r in H.
  assert (map (fun p => length (slots p) - 0)%nat M = map (fun p => length (slots p)) M) as E
    by (apply map_ext; intros; lia). rewrite E in H. apply H.
  intros [lb s] Hi Hnil. simpl in *. destruct (slots_settle lb s Hi) as (lb' & Hi' & Hs & Hn).
  destruct (Hprog lb' s Hi' Hs Hnil) as [Hend|(p & o & [x s'] & Hp & Ho & Hex)].
  - left. intros p. split; [|done]. rewrite Hn. unfold slot_next. case_decide as Hp; [|done].
    by rewrite drop_ge by auto.
  - right. eexists. eapply lstep_pe; [|exact Hex]. simpl. rewrite Hn.
    unfold slot_next. rewrite decide_True, (drop_S _ _ _ Ho) by done. reflexivity.
Qed.
End slots.
