(* ===== verification/Flight.v ===== *)
(** * Messages on their way, and messages that have arrived

    In a job whose members run lists of slots, every message is sent by one slot of one
    member.  When a message can be identified by what does not change while it travels,
    the network of a reachable state is described by one test: which messages have
    arrived.  No operation of a member changes that test; a delivery changes it at the
    message delivered.  The collectives of [Gather] state their invariants on it. *)

From S2P Require Import Prelude Machine Straight Slots.
Local Open Scope Z_scope.

(** The message an operation puts into the network. *)
Definition op_msg (p : Z) (o : op) (ep : nat) : option msg :=
  match o with
  | OPut t a d nbi => Some (Msg p t ep KPut a nbi d)
  | OAtomic t a c d => Some (Msg p t ep (KAtomic c) a false d)
  | _ => None
  end.

Lemma op_exec_net p o s x s' : op_exec p o s = Some (x, s') ->
  net s' = net s ++ option_list (op_msg p o (epoch s p)).
Proof.
  destruct o; simpl; intros H; repeat (case_match; try done); injection H as <- <-; simpl; by rewrite ?app_nil_r.
Qed.

(** The operations that leave the memory alone. *)
Definition remote_op (o : op) : bool :=
  match o with ORmw _ _ _ | OLocal _ | OCall _ => false | _ => true end.

Lemma op_exec_mem p o s x s' : op_exec p o s = Some (x, s') -> remote_op o = true -> mem s' = mem s.
Proof. destruct o; simpl; intros H Hr; try done; repeat (case_match; try done); by injection H as <- <-. Qed.

Lemma op_exec_epoch p o s x s' : op_exec p o s = Some (x, s') ->
  epoch s' = match o with OFence => <[p := S (epoch s p)]> (epoch s) | _ => epoch s end.
Proof. destruct o; simpl; intros H; repeat (case_match; try done); by injection H as <- <-. Qed.

(** A local wait for the puts, when it is over. *)
Lemma putwait_done p s x s' m : op_exec p OPutWait s = Some (x, s') -> m ∈ net s -> m_src m = p ->
  m_nbi m = false -> pending (m_data m) = false.
Proof.
  simpl. case_match eqn:E; [|done]. intros _ Hm Hs Hn. rewrite forallb_forall in E.
  specialize (E m (proj1 (list_elem_of_In _ _) Hm)). rewrite Hs, Hn, Z.eqb_refl in E. by destruct (pending _).
Qed.

Lemma quiet_done p s x s' m : op_exec p OQuiet s = Some (x, s') -> m ∈ net s -> m_src m <> p.
Proof.
  simpl. case_match eqn:E; [|done]. intros _ Hm Hs. rewrite forallb_forall in E.
  specialize (E m (proj1 (list_elem_of_In _ _) Hm)). by rewrite Hs, Z.eqb_refl in E.
Qed.

(** What a fence orders. *)
Lemma fence_ready_none m others m' : fence_ready m others = true -> m' ∈ others ->
  m_src m' = m_src m -> m_dst m' = m_dst m -> (m_epoch m <= m_epoch m')%nat.
Proof.
  unfold fence_ready. rewrite forallb_forall. intros H Hin%list_elem_of_In Hs Hd. specialize (H m' Hin).
  rewrite Hs, Hd, !Z.eqb_refl in H. simpl in H. apply negb_true_iff, Nat.ltb_ge in H. done.
Qed.

(** A message arrives. *)
Definition arrives {I : Type} `{EqDecision I} (arr : I -> bool) (i : I) : I -> bool := fun j => arr j || bool_decide (j = i).
Lemma arrives_at {I : Type} `{EqDecision I} (arr : I -> bool) i : arrives arr i i = true.
Proof. unfold arrives. rewrite bool_decide_eq_true_2 by done. apply orb_true_r. Qed.
Lemma arrives_ne {I : Type} `{EqDecision I} (arr : I -> bool) i j : j <> i -> arrives arr i j = arr j.
Proof. intros Hj. unfold arrives. rewrite bool_decide_eq_false_2 by done. apply orb_false_r. Qed.
Lemma arrives_mono {I : Type} `{EqDecision I} (arr : I -> bool) i j : arr j = true -> arrives arr i j = true.
Proof. unfold arrives. by intros ->. Qed.

Section flight.
Context {I : Type} `{EqDecision I} (ident : msg -> I).
(** The identity of a message does not depend on whether its data are read. *)
Context (Hident : forall m d, ident (Msg (m_src m) (m_dst m) (m_epoch m) (m_kind m) (m_target m) (m_nbi m) d) = ident m).
Context (M : list Z) (slots : Z -> list (option op)).
(** The number of fences before a slot. *)
Context (ep : Z -> nat -> nat).

Definition sends (p : Z) (v : nat) : option I :=
  match slots p !! v with
  | Some (Some o) => ident <$> op_msg p o (ep p v)
  | _ => None
  end.

(** The slot a message is sent from. *)
Context (home : I -> Z * nat).
Context (Hhome : forall p v i, p ∈ M -> sends p v = Some i -> home i = (p, v)).

Definition sentb (lb : Z -> nat) (i : I) : bool :=
  bool_decide ((home i).1 ∈ M /\ sends (home i).1 (home i).2 = Some i) && ((home i).2 <? lb (home i).1)%nat.
Definition count (i : I) (n : list msg) : nat := countb (fun m => bool_decide (ident m = i)) n.
Definition flight (lb : Z -> nat) (n : list msg) : Prop :=
  forall i, (count i n <= if sentb lb i then 1 else 0)%nat.
Definition arrived (lb : Z -> nat) (n : list msg) (i : I) : bool := sentb lb i && (count i n =? 0)%nat.

Lemma sentb_intro lb p v i : p ∈ M -> sends p v = Some i -> (v < lb p)%nat -> sentb lb i = true.
Proof.
  intros Hp Hs Hv. unfold sentb. rewrite (Hhome p v i Hp Hs). simpl.
  rewrite bool_decide_eq_true_2 by done. by apply Nat.ltb_lt.
Qed.

Lemma sentb_elim lb i : sentb lb i = true -> exists p v, home i = (p, v) /\ p ∈ M /\ sends p v = Some i /\ (v < lb p)%nat.
Proof.
  unfold sentb. destruct (home i) as [p v]. simpl. rewrite andb_true_iff, Nat.ltb_lt, bool_decide_eq_true.
  intros [[? ?] ?]. by exists p, v.
Qed.

Lemma sentb_at lb i p v : p ∈ M -> sends p v = Some i -> sentb lb i = (v <? lb p)%nat.
Proof. intros Hp Hs. unfold sentb. rewrite (Hhome p v i Hp Hs). simpl. by rewrite bool_decide_eq_true_2 by done. Qed.

Lemma sentb_step lb p i : p ∈ M ->
  sentb (<[p := S (lb p)]> lb) i = sentb lb i || bool_decide (sends p (lb p) = Some i).
Proof.
  intros Hp. destruct (bool_decide_reflect (sends p (lb p) = Some i)) as [Hs|Hs].
  - rewrite orb_true_r. eapply sentb_intro; [exact Hp|exact Hs|]. rewrite fn_lookup_insert. lia.
  - rewrite orb_false_r. unfold sentb. destruct (home i) as [q v]. simpl.
    destruct (bool_decide_reflect (q ∈ M /\ sends q v = Some i)) as [[Hq Hi]|]; [|done]. simpl.
    update_cases; [subst q|done]. destruct (decide (v = lb p)) as [->|]; [done|].
    destruct (Nat.ltb_spec v (S (lb p))), (Nat.ltb_spec v (lb p)); lia || done.
Qed.

Lemma count_app i n1 n2 : count i (n1 ++ n2) = (count i n1 + count i n2)%nat.
Proof. apply countb_app. Qed.

Lemma count_in i n m : m ∈ n -> ident m = i -> (0 < count i n)%nat.
Proof. intros Hm Hi. eapply countb_pos; [done|]. by rewrite bool_decide_eq_true_2. Qed.

(** A message not counted is not there. *)
Lemma count_none i n m : count i n = 0%nat -> m ∈ n -> ident m <> i.
Proof. intros Hz Hm Hi. pose proof (count_in i n m Hm Hi). lia. Qed.

Lemma flight_in lb n m : flight lb n -> m ∈ n -> sentb lb (ident m) = true /\ arrived lb n (ident m) = false.
Proof.
  intros Hf Hm. specialize (Hf (ident m)). pose proof (count_in _ n m Hm eq_refl) as Hc. unfold arrived.
  destruct (sentb lb (ident m)); [|lia]. split; [done|]. simpl. apply Nat.eqb_neq. lia.
Qed.

Lemma arrived_sent lb n i : arrived lb n i = true -> sentb lb i = true.
Proof. unfold arrived. by intros [? _]%andb_true_iff. Qed.

Lemma arrived_idle lb i : arrived lb [] i = sentb lb i.
Proof. unfold arrived. simpl. apply andb_true_r. Qed.

(** Where the sender of a message that has arrived is. *)
Lemma arrived_at lb n i p v : arrived lb n i = true -> home i = (p, v) -> p ∈ M /\ sends p v = Some i /\ (v < lb p)%nat.
Proof.
  intros (p' & v' & E & ?)%arrived_sent%sentb_elim Hh. rewrite Hh in E. by injection E as <- <-.
Qed.

(** The empty network at the start. *)
Lemma flight_init : flight (fun _ => 0%nat) [].
Proof. intros i. unfold count. simpl. lia. Qed.

Lemma arrived_init i : arrived (fun _ => 0%nat) [] i = false.
Proof. rewrite arrived_idle. unfold sentb. apply andb_false_r. Qed.

(** An operation of a member. *)
Lemma flight_move lb n p ms :
  p ∈ M -> flight lb n -> option_list (sends p (lb p)) = map ident ms ->
  flight (<[p := S (lb p)]> lb) (n ++ ms) /\
  arrived (<[p := S (lb p)]> lb) (n ++ ms) = arrived lb n.
Proof.
  intros Hp Hf Hms.
  assert (forall i, count i ms = if bool_decide (sends p (lb p) = Some i) then 1%nat else 0%nat) as Hc.
  { intros i. destruct (sends p (lb p)) as [j|], ms as [|m [|m' ms]]; simpl in Hms; try discriminate Hms; [|done].
    injection Hms as ->. unfold count. simpl. destruct (bool_decide_reflect (ident m = i)), (bool_decide_reflect (Some (ident m) = Some i));
      simpl; congruence || done. }
  assert (forall i, sends p (lb p) = Some i -> sentb lb i = false) as Hnew.
  { intros i Hs. rewrite (sentb_at lb i p (lb p)) by done. apply Nat.ltb_irrefl. }
  split.
  - intros i. rewrite count_app, Hc, sentb_step by done. specialize (Hf i).
    destruct (bool_decide_reflect (sends p (lb p) = Some i)) as [Hs|Hs].
    + rewrite (Hnew i Hs) in *. simpl in *. lia.
    + rewrite orb_false_r. lia.
  - extensionality i. unfold arrived. rewrite count_app, Hc, sentb_step by done. specialize (Hf i).
    destruct (bool_decide_reflect (sends p (lb p) = Some i)) as [Hs|Hs].
    + rewrite (Hnew i Hs). simpl. rewrite Nat.add_1_r. done.
    + rewrite orb_false_r, Nat.add_0_r. done.
Qed.

Lemma flight_op lb s p o x s' :
  p ∈ M -> flight lb (net s) -> slots p !! lb p = Some (Some o) -> op_exec p o s = Some (x, s') ->
  ident <$> op_msg p o (epoch s p) = ident <$> op_msg p o (ep p (lb p)) ->
  flight (<[p := S (lb p)]> lb) (net s') /\
  arrived (<[p := S (lb p)]> lb) (net s') = arrived lb (net s).
Proof.
  intros Hp Hf Ho Hex He. rewrite (op_exec_net _ _ _ _ _ Hex). apply flight_move; [done|done|].
  unfold sends. rewrite Ho, <- He. by destruct (op_msg p o (epoch s p)).
Qed.

Lemma flight_empty lb n p :
  p ∈ M -> flight lb n -> slots p !! lb p = Some None ->
  flight (<[p := S (lb p)]> lb) n /\ arrived (<[p := S (lb p)]> lb) n = arrived lb n.
Proof.
  intros Hp Hf Ho. pose proof (flight_move lb n p [] Hp Hf) as H. rewrite app_nil_r in H. apply H.
  unfold sends. by rewrite Ho.
Qed.

(** The steps of the network. *)
Lemma flight_same lb n n' : (forall i, count i n' = count i n) -> flight lb n ->
  flight lb n' /\ arrived lb n' = arrived lb n.
Proof.
  intros Hc Hf. split; [intros i; rewrite Hc; apply Hf|]. extensionality i. unfold arrived. by rewrite Hc.
Qed.

Lemma flight_capture lb l1 m l2 d :
  flight lb (l1 ++ m :: l2) ->
  let m' := Msg (m_src m) (m_dst m) (m_epoch m) (m_kind m) (m_target m) (m_nbi m) d in
  flight lb (l1 ++ m' :: l2) /\ arrived lb (l1 ++ m' :: l2) = arrived lb (l1 ++ m :: l2).
Proof.
  intros Hf m'. apply flight_same; [|done]. intros i. rewrite !count_app. f_equal. unfold count. simpl.
  unfold m'. by rewrite Hident.
Qed.

Lemma flight_deliver lb l1 m l2 :
  flight lb (l1 ++ m :: l2) ->
  flight lb (l1 ++ l2) /\
  forall i, arrived lb (l1 ++ l2) i = arrived lb (l1 ++ m :: l2) i || bool_decide (i = ident m).
Proof.
  intros Hf.
  assert (forall i, count i (l1 ++ m :: l2) = (count i (l1 ++ l2) + if bool_decide (i = ident m) then 1 else 0)%nat) as Hc.
  { intros i. rewrite !count_app. unfold count. simpl.
    destruct (bool_decide_reflect (ident m = i)), (bool_decide_reflect (i = ident m)); lia || congruence. }
  split; [intros i; specialize (Hf i); rewrite Hc in Hf; lia|].
  intros i. unfold arrived. specialize (Hf i). rewrite Hc in *.
  destruct (bool_decide_reflect (i = ident m)) as [E|E].
  - rewrite orb_true_r. destruct (sentb lb i); [|lia]. simpl. apply Nat.eqb_eq. lia.
  - by rewrite orb_false_r, Nat.add_0_r.
Qed.
End flight.
