(* ===== verification/Internal.v ===== *)
(** * Library globals and the helpers of [shmem_internal.h]

    The per-process globals every collective reads ([env]), active sets, and the
    byte-array bit operations the teams use to allocate pSync slots. *)

From S2P Require Import Prelude.
Local Open Scope Z_scope.

(** Collective algorithms ([coll_type_t], [shmem_collectives.h]). *)
Inductive coll_type_t := AUTO | LINEAR | TREE | DISSEM | RING | RECDBL.
#[export] Instance coll_type_eq_dec : EqDecision coll_type_t.
Proof. solve_decision. Defined.

(** The process globals: rank and size of the job, the collective parameters of
    [shmem_internal_params], the selected algorithms and the full tree. *)
Record env := Env {
  shmem_internal_my_pe : Z;
  shmem_internal_num_pes : Z;
  tree_radix : Z;
  COLL_CROSSOVER : Z;
  COLL_SIZE_CROSSOVER : Z;
  shmem_internal_barrier_type : coll_type_t;
  shmem_internal_bcast_type : coll_type_t;
  shmem_internal_reduce_type : coll_type_t;
  shmem_internal_collect_type : coll_type_t;
  shmem_internal_fcollect_type : coll_type_t;
  full_tree_parent : Z;
  full_tree_children : list Z }.

Definition SIZEOF_LONG : Z := 8.
Definition SIZEOF_INT : Z := 4.
Definition SHMEM_SYNC_VALUE : Z := 0.
(** Sizes computed by configure.ac for 8-byte longs and 4-byte ints. *)
Definition SHMEM_BCAST_SYNC_SIZE : Z := 1.
Definition SHMEM_REDUCE_SYNC_SIZE : Z := 35.
Definition SHMEM_BARRIER_SYNC_SIZE : Z := 16.
Definition SHMEM_COLLECT_SYNC_SIZE : Z := 18.
Definition SHMEM_SYNC_SIZE : Z := 35.

(** ** Active sets *)

(** The PE numbers a loop [pe = first; ...; pe += stride] visits in [n] iterations. *)
Fixpoint pe_loop (pe stride : Z) (n : nat) : list Z :=
  match n with
  | O => []
  | S n => pe :: pe_loop (pe + stride) stride n
  end.

Lemma pe_loop_map pe stride n :
  pe_loop pe stride n = map (fun i => pe + i * stride) (upto 0 (Z.of_nat n)).
Proof.
  unfold upto, zrange. rewrite Z.sub_0_r, Nat2Z.id, map_map.
  revert pe; induction n as [|n IH]; intros pe; [done|].
  simpl. f_equal; [lia|]. rewrite IH, <- seq_shift, map_map.
  apply map_ext. intros. lia.
Qed.

(** The members of the active set <start, stride, size>. *)
Definition active_set (PE_start PE_stride PE_size : Z) : list Z :=
  pe_loop PE_start PE_stride (Z.to_nat PE_size).

Lemma elem_of_active_set start stride size pe :
  pe ∈ active_set start stride size <-> exists i, 0 <= i < size /\ pe = start + i * stride.
Proof.
  unfold active_set. rewrite pe_loop_map, list_elem_of_In, in_map_iff.
  split; intros (i & H).
  - destruct H as [<- Hi%list_elem_of_In%elem_of_upto]. exists i. split; lia.
  - destruct H as [Hi ->]. exists i. split; [done|].
    apply list_elem_of_In, elem_of_upto. lia.
Qed.

Lemma NoDup_active_set start stride size : 1 <= stride -> NoDup (active_set start stride size).
Proof.
  intros. unfold active_set. rewrite pe_loop_map. apply NoDup_fmap_2_strong; [|apply NoDup_upto].
  intros. nia.
Qed.

Lemma length_active_set start stride size : length (active_set start stride size) = Z.to_nat size.
Proof. unfold active_set. rewrite pe_loop_map, length_map, length_upto. lia. Qed.

Definition shmem_internal_pe_in_active_set (global_pe PE_start PE_stride PE_size : Z) : Z :=
  let n := cdiv (global_pe - PE_start) PE_stride in
  if (global_pe <? PE_start) || negb (cmod (global_pe - PE_start) PE_stride =? 0) || (n >=? PE_size)
  then -1 else n.

(** The active-set check of the error-checking build: true when the arguments are accepted. *)
Definition SHMEM_ERR_CHECK_ACTIVE_SET (e : env) (PE_start PE_stride PE_size : Z) : bool :=
  if (PE_start <? 0) || (PE_stride <? 1) || (PE_size <? 0) ||
     (PE_start + (PE_size - 1) * PE_stride >? shmem_internal_num_pes e)
  then false
  else (shmem_internal_my_pe e >=? PE_start) &&
       (shmem_internal_my_pe e <=? PE_start + (PE_size - 1) * PE_stride) &&
       (cmod (shmem_internal_my_pe e - PE_start) PE_stride =? 0).

(** [pe_in_active_set] answers the index of a member and -1 for every other PE. *)
Lemma pe_in_active_set_member i start stride size :
  1 <= stride -> 0 <= i < size ->
  shmem_internal_pe_in_active_set (start + i * stride) start stride size = i.
Proof.
  intros Hs Hi. unfold shmem_internal_pe_in_active_set.
  replace (start + i * stride - start) with (i * stride) by lia.
  rewrite cdiv_nonneg, cmod_nonneg, Z.div_mul, Z.mod_mul by nia.
  rewrite (proj2 (Z.ltb_ge _ _)) by nia. rewrite Z.geb_leb, (proj2 (Z.leb_gt _ _)) by lia. done.
Qed.

Lemma pe_in_active_set_inv pe start stride size n :
  1 <= stride -> shmem_internal_pe_in_active_set pe start stride size = n -> n <> -1 ->
  0 <= n < size /\ pe = start + n * stride.
Proof.
  intros Hs H Hn. unfold shmem_internal_pe_in_active_set in H. case_match eqn:E; [done|].
  apply orb_false_iff in E as [[E1 E2]%orb_false_iff E3].
  apply Z.ltb_ge in E1. apply negb_false_iff, Z.eqb_eq in E2.
  rewrite Z.geb_leb in E3. apply Z.leb_gt in E3.
  rewrite cdiv_nonneg in H, E3 by lia. rewrite cmod_nonneg in E2 by lia.
  pose proof (Z.div_mod (pe - start) stride). pose proof (Z.div_pos (pe - start) stride). lia.
Qed.

(** ** Bit operations on byte arrays *)

Definition CHAR_BIT : Z := 8.

Definition byte_at (ptr : list Z) (i : Z) : Z := nth (Z.to_nat i) ptr 0.
Definition byte_upd (ptr : list Z) (i v : Z) : list Z := <[Z.to_nat i := v]> ptr.

Definition shmem_internal_bit_set (ptr : list Z) (size index : Z) : list Z :=
  let which_byte := index / CHAR_BIT in
  byte_upd ptr which_byte (Z.lor (byte_at ptr which_byte) (Z.shiftl 1 (index mod CHAR_BIT))).

(** [~] on the promoted int and the store back to [unsigned char] (modulo 256). *)
Definition shmem_internal_bit_clear (ptr : list Z) (size index : Z) : list Z :=
  let which_byte := index / CHAR_BIT in
  byte_upd ptr which_byte
    (Z.land (byte_at ptr which_byte) (Z.lnot (Z.shiftl 1 (index mod CHAR_BIT))) mod 256).

Definition shmem_internal_bit_fetch (ptr : list Z) (size index : Z) : Z :=
  let which_byte := index / CHAR_BIT in
  Z.land (Z.shiftr (byte_at ptr which_byte) (index mod CHAR_BIT)) 1.

(** The inner loop: [for (j = 0; bit_val && j < CHAR_BIT; j++)]. *)
Fixpoint first_bit (fuel : nat) (bit_val j : Z) : option Z :=
  match fuel with
  | O => None
  | S fuel =>
      if bit_val =? 0 then None
      else if Z.odd bit_val then Some j
      else first_bit fuel (Z.shiftr bit_val 1) (j + 1)
  end.

Fixpoint first_byte (ptr : list Z) (i : Z) : Z :=
  match ptr with
  | [] => -1
  | b :: ptr =>
      match first_bit 8 b 0 with
      | Some j => i * CHAR_BIT + j
      | None => first_byte ptr (i + 1)
      end
  end.

(** [(size_t) -1] is read back by its callers as the [int] -1. *)
Definition shmem_internal_bit_1st_nonzero (ptr : list Z) (size : Z) : Z :=
  first_byte (take (Z.to_nat size) ptr) 0.
