(* ===== verification/ReduceOp.v ===== *)
(** * Reduction operators ([shmem_internal_op.h], [transport.h])

    The datatypes and operators of the reductions, the element functions the
    [FUNC_OP_CREATE] macro generates, and the dispatch of
    [shmem_internal_reduce_local].  Integers are kept at their width.  The
    floating-point and complex operators are a parameter ([fp_calc]). *)

From S2P Require Import Prelude.
Local Open Scope Z_scope.

(** ** Datatypes and operators *)

Inductive shm_internal_datatype_t :=
| SHM_INTERNAL_SIGNED_BYTE | SHM_INTERNAL_SHORT | SHM_INTERNAL_INT | SHM_INTERNAL_LONG
| SHM_INTERNAL_LONG_LONG | SHM_INTERNAL_FORTRAN_INTEGER
| SHM_INTERNAL_INT8 | SHM_INTERNAL_INT16 | SHM_INTERNAL_INT32 | SHM_INTERNAL_INT64
| SHM_INTERNAL_PTRDIFF_T
| SHM_INTERNAL_UCHAR | SHM_INTERNAL_USHORT | SHM_INTERNAL_UINT | SHM_INTERNAL_ULONG
| SHM_INTERNAL_ULONG_LONG
| SHM_INTERNAL_UINT8 | SHM_INTERNAL_UINT16 | SHM_INTERNAL_UINT32 | SHM_INTERNAL_UINT64
| SHM_INTERNAL_SIZE_T
| SHM_INTERNAL_FLOAT | SHM_INTERNAL_DOUBLE | SHM_INTERNAL_LONG_DOUBLE
| SHM_INTERNAL_FLOAT_COMPLEX | SHM_INTERNAL_DOUBLE_COMPLEX.

Inductive shm_internal_op_t :=
| SHM_INTERNAL_BAND | SHM_INTERNAL_BOR | SHM_INTERNAL_BXOR
| SHM_INTERNAL_MIN | SHM_INTERNAL_MAX | SHM_INTERNAL_SUM | SHM_INTERNAL_PROD.

(** The [case] macro each datatype is listed under in [shmem_internal_reduce_local],
    with the signedness and width of its C type on an LP64 machine. *)
Inductive dtype_case :=
| CASE_INT (signed : bool) (width : Z)
| CASE_AND_OR_XOR (signed : bool) (width : Z)
| CASE_FP
| CASE_CPLX
| CASE_INVALID.

Definition reduce_case (d : shm_internal_datatype_t) : dtype_case :=
  match d with
  | SHM_INTERNAL_INT32 => CASE_INT true 32
  | SHM_INTERNAL_INT64 => CASE_INT true 64
  | SHM_INTERNAL_UCHAR => CASE_AND_OR_XOR false 8
  | SHM_INTERNAL_SHORT => CASE_INT true 16
  | SHM_INTERNAL_USHORT => CASE_INT false 16
  | SHM_INTERNAL_INT => CASE_INT true 32
  | SHM_INTERNAL_UINT => CASE_INT false 32
  | SHM_INTERNAL_LONG => CASE_INT true 64
  | SHM_INTERNAL_ULONG => CASE_INT false 64
  | SHM_INTERNAL_LONG_LONG => CASE_INT true 64
  | SHM_INTERNAL_ULONG_LONG => CASE_INT false 64
  | SHM_INTERNAL_FLOAT | SHM_INTERNAL_DOUBLE | SHM_INTERNAL_LONG_DOUBLE => CASE_FP
  | SHM_INTERNAL_FLOAT_COMPLEX | SHM_INTERNAL_DOUBLE_COMPLEX => CASE_CPLX
  | _ => CASE_INVALID
  end.

(** The operator macros; the result is stored back at the C type's width (signed
    overflow wraps, as the transports' atomics do). *)
Definition shmem_internal_max_op (a b : Z) : Z := if a >? b then a else b.
Definition shmem_internal_min_op (a b : Z) : Z := if a <? b then a else b.
Definition shmem_internal_sum_op (a b : Z) : Z := a + b.
Definition shmem_internal_prod_op (a b : Z) : Z := a * b.
Definition shmem_internal_and_op (a b : Z) : Z := Z.land a b.
Definition shmem_internal_or_op (a b : Z) : Z := Z.lor a b.
Definition shmem_internal_xor_op (a b : Z) : Z := Z.lxor a b.

Definition op_calc (o : shm_internal_op_t) : Z -> Z -> Z :=
  match o with
  | SHM_INTERNAL_BAND => shmem_internal_and_op
  | SHM_INTERNAL_BOR => shmem_internal_or_op
  | SHM_INTERNAL_BXOR => shmem_internal_xor_op
  | SHM_INTERNAL_MIN => shmem_internal_min_op
  | SHM_INTERNAL_MAX => shmem_internal_max_op
  | SHM_INTERNAL_SUM => shmem_internal_sum_op
  | SHM_INTERNAL_PROD => shmem_internal_prod_op
  end.

Definition store_width (signed : bool) (w x : Z) : Z := if signed then wrap_s w x else wrap_u w x.
Definition int_calc (signed : bool) (w : Z) (o : shm_internal_op_t) (old v : Z) : Z :=
  store_width signed w (op_calc o old v).

Definition is_logic (o : shm_internal_op_t) : bool :=
  match o with SHM_INTERNAL_BAND | SHM_INTERNAL_BOR | SHM_INTERNAL_BXOR => true | _ => false end.
Definition is_sum_prod (o : shm_internal_op_t) : bool :=
  match o with SHM_INTERNAL_SUM | SHM_INTERNAL_PROD => true | _ => false end.

Section reduce.
(** IEEE and complex arithmetic on the element encodings. *)
Context (fp_calc : shm_internal_op_t -> shm_internal_datatype_t -> Z -> Z -> Z).

(** The element function selected by the two nested switches; [None] is a RAISE_ERROR. *)
Definition reduce_calc (o : shm_internal_op_t) (d : shm_internal_datatype_t) : option (Z -> Z -> Z) :=
  match reduce_case d with
  | CASE_INT s w => Some (int_calc s w o)
  | CASE_AND_OR_XOR s w => if is_logic o then Some (int_calc s w o) else None
  | CASE_FP => if is_logic o then None else Some (fp_calc o d)
  | CASE_CPLX => if is_sum_prod o then Some (fp_calc o d) else None
  | CASE_INVALID => None
  end.

Definition dtype_size (d : shm_internal_datatype_t) : Z :=
  match d with
  | SHM_INTERNAL_SIGNED_BYTE | SHM_INTERNAL_INT8 | SHM_INTERNAL_UCHAR | SHM_INTERNAL_UINT8 => 1
  | SHM_INTERNAL_SHORT | SHM_INTERNAL_INT16 | SHM_INTERNAL_USHORT | SHM_INTERNAL_UINT16 => 2
  | SHM_INTERNAL_INT | SHM_INTERNAL_INT32 | SHM_INTERNAL_UINT | SHM_INTERNAL_UINT32
  | SHM_INTERNAL_FORTRAN_INTEGER | SHM_INTERNAL_FLOAT => 4
  | SHM_INTERNAL_LONG_DOUBLE | SHM_INTERNAL_DOUBLE_COMPLEX => 16
  | _ => 8
  end.

(** The loop of [FUNC_OP_CREATE]: element by element, in increasing order. *)
Definition func_op (calc : Z -> Z -> Z) (size : Z) (inp outp count : Z) (m : Z -> Z) : Z -> Z :=
  fold_left (fun m i => <[outp + i * size := calc (m (outp + i * size)) (m (inp + i * size))]> m)
            (upto 0 count) m.

(** [int count]: the element count arrives as a C int. *)
Definition shmem_internal_reduce_local (o : shm_internal_op_t) (d : shm_internal_datatype_t)
    (count inp inout : Z) (m : Z -> Z) : option (Z -> Z) :=
  match reduce_calc o d with
  | Some calc => Some (func_op calc (dtype_size d) inp inout (wrap_s 32 count) m)
  | None => None
  end.
End reduce.

(** A signed counter that stays in range counts exactly. *)
Lemma signed_sum w old v : 1 <= w -> - 2 ^ (w - 1) <= old + v < 2 ^ (w - 1) ->
  int_calc true w SHM_INTERNAL_SUM old v = old + v.
Proof. intros. by apply wrap_s_id. Qed.

(** ** The operators are commutative monoids up to the width *)

Lemma store_width_congr s w x y : 0 <= w -> x mod 2 ^ w = y mod 2 ^ w ->
  store_width s w x = store_width s w y.
Proof. intros. destruct s; [by apply wrap_s_congr|done]. Qed.

Lemma store_width_mod s w x : 0 <= w -> store_width s w x mod 2 ^ w = x mod 2 ^ w.
Proof. intros. destruct s; [by apply wrap_s_mod|]. apply Z.mod_mod. apply Z.pow_nonzero; lia. Qed.

Lemma op_calc_comm o a b : op_calc o a b = op_calc o b a.
Proof.
  destruct o; simpl; unfold shmem_internal_and_op, shmem_internal_or_op, shmem_internal_xor_op,
    shmem_internal_min_op, shmem_internal_max_op, shmem_internal_sum_op, shmem_internal_prod_op.
  - apply Z.land_comm.
  - apply Z.lor_comm.
  - apply Z.lxor_comm.
  - destruct (a <? b) eqn:E1, (b <? a) eqn:E2; lia.
  - rewrite !Z.gtb_ltb. destruct (a <? b) eqn:E1, (b <? a) eqn:E2; lia.
  - lia.
  - lia.
Qed.

Lemma op_calc_assoc o a b c : op_calc o (op_calc o a b) c = op_calc o a (op_calc o b c).
Proof.
  destruct o; simpl; unfold shmem_internal_and_op, shmem_internal_or_op, shmem_internal_xor_op,
    shmem_internal_min_op, shmem_internal_max_op, shmem_internal_sum_op, shmem_internal_prod_op.
  - symmetry; apply Z.land_assoc.
  - symmetry; apply Z.lor_assoc.
  - apply Z.lxor_assoc.
  - destruct (a <? b) eqn:E1, (b <? c) eqn:E2; rewrite ?E1, ?E2; repeat case_match; lia.
  - rewrite !Z.gtb_ltb. destruct (b <? a) eqn:E1, (c <? b) eqn:E2; rewrite ?E1, ?E2; repeat case_match; lia.
  - lia.
  - lia.
Qed.

Lemma op_calc_mod_l o w a b : 0 <= w -> is_logic o || is_sum_prod o = true ->
  op_calc o (a mod 2 ^ w) b mod 2 ^ w = op_calc o a b mod 2 ^ w.
Proof.
  intros Hw Ho. destruct o; simpl in *; try done;
    unfold shmem_internal_and_op, shmem_internal_or_op, shmem_internal_xor_op, shmem_internal_sum_op, shmem_internal_prod_op.
  1-3: apply Z.bits_inj'; intros i Hi; destruct (decide (i < w));
    [rewrite !Z.mod_pow2_bits_low by lia; rewrite ?Z.land_spec, ?Z.lor_spec, ?Z.lxor_spec, Z.mod_pow2_bits_low by lia
    |rewrite !Z.mod_pow2_bits_high by lia]; done.
  - apply Zplus_mod_idemp_l.
  - apply Zmult_mod_idemp_l.
Qed.

Definition in_range (s : bool) (w x : Z) : Prop :=
  if s then - 2 ^ (w - 1) <= x < 2 ^ (w - 1) else 0 <= x < 2 ^ w.

Lemma store_width_in_range s w x : 1 <= w -> in_range s w (store_width s w x).
Proof.
  intros. pose proof (Z.pow_pos_nonneg 2 w). destruct s; simpl; unfold wrap_s, wrap_u.
  - assert (2 ^ w = 2 * 2 ^ (w - 1)) as E by (rewrite <- Z.pow_succ_r by lia; f_equal; lia).
    pose proof (Z.mod_pos_bound (x + 2 ^ (w - 1)) (2 ^ w)). lia.
  - apply Z.mod_pos_bound. lia.
Qed.

Lemma store_width_id s w x : 1 <= w -> in_range s w x -> store_width s w x = x.
Proof. intros. destruct s; simpl in *; [by apply wrap_s_id|by apply wrap_u_id]. Qed.

Lemma int_calc_comm s w o a b : int_calc s w o a b = int_calc s w o b a.
Proof. unfold int_calc. by rewrite op_calc_comm. Qed.

Lemma int_calc_assoc s w o a b c :
  1 <= w -> in_range s w a -> in_range s w b -> in_range s w c ->
  int_calc s w o (int_calc s w o a b) c = int_calc s w o a (int_calc s w o b c).
Proof.
  intros Hw Ha Hb Hc. unfold int_calc.
  destruct (is_logic o || is_sum_prod o) eqn:Ho.
  - apply store_width_congr; [lia|].
    assert (forall x y, op_calc o (store_width s w x) y mod 2 ^ w = op_calc o x y mod 2 ^ w) as Hl.
    { intros. rewrite <- (op_calc_mod_l o w (store_width s w x)), store_width_mod, op_calc_mod_l by (lia || done). done. }
    rewrite Hl, (op_calc_comm o a (store_width _ _ _)), Hl, op_calc_assoc.
    by rewrite (op_calc_comm o (op_calc o b c)).
  - assert (forall x y, in_range s w x -> in_range s w y -> in_range s w (op_calc o x y)) as Hr.
    { intros x y. destruct o; try done; simpl; unfold shmem_internal_min_op, shmem_internal_max_op; by case_match. }
    rewrite (store_width_id s w (op_calc o a b)), (store_width_id s w (op_calc o b c)) by auto.
    by rewrite op_calc_assoc.
Qed.

(** C31: An integer reduction does not depend on the order in which the contributions arrive:
    at every width and signedness, with the wrap-around of SUM and PROD, combining the
    same contributions into an accumulator in another order gives the same result, and
    that result is a value of the type. *)
Theorem reduction_order s w o (x : Z) (l l' : list Z) :
  1 <= w -> in_range s w x -> Forall (in_range s w) l -> l ≡ₚ l' ->
  fold_left (int_calc s w o) l x = fold_left (int_calc s w o) l' x /\
  in_range s w (fold_left (int_calc s w o) l x).
Proof.
  intros Hw Hx Hl Hp. split.
  - revert x Hx Hl. induction Hp as [|a l1 l2 _ IH|a b l1|l1 l2 l3 Hp1 IH1 _ IH2]; intros x Hx Hl; simpl.
    + done.
    + apply list.Forall_cons in Hl as [_ Hl]. apply IH; [by apply store_width_in_range|done].
    + apply list.Forall_cons in Hl as [Hb [Ha _]%list.Forall_cons]. f_equal.
      by rewrite !int_calc_assoc, (int_calc_comm s w o b a).
    + rewrite IH1 by done. apply IH2; [done|]. by rewrite <- Hp1.
  - clear Hp. revert x Hx Hl. induction l as [|a l IH]; intros x Hx Hl; [done|]. simpl.
    apply list.Forall_cons in Hl as [_ Hl]. apply IH; [by apply store_width_in_range|done].
Qed.

Lemma reduction_order_witness :
  fold_left (int_calc true 8 SHM_INTERNAL_SUM) [100; 100; -50] 100 = -6 /\
  fold_left (int_calc true 8 SHM_INTERNAL_SUM) [100; 100; -50] 100 =
  fold_left (int_calc true 8 SHM_INTERNAL_SUM) [-50; 100; 100] 100.
Proof.
  split; [vm_compute; reflexivity|].
  apply (reduction_order true 8 SHM_INTERNAL_SUM 100 [100; 100; -50] [-50; 100; 100]).
  - lia.
  - simpl. lia.
  - repeat constructor; simpl; lia.
  - apply (Permutation_app_comm [100; 100] [-50]).
Defined.

(** ** The element loop *)

(** The reduction loop combines element by element: when no input element is an earlier
    output element, the cells of the [count] output elements hold the combination of
    their old values with the input elements of the same index, and no other cell
    changes. *)
Lemma func_op_spec calc size inp outp count m a :
  1 <= size -> 0 <= count ->
  (forall i j, 0 <= i < count -> 0 <= j < count -> i <> j -> inp + i * size <> outp + j * size) ->
  func_op calc size inp outp count m a =
  if bool_decide (outp <= a < outp + count * size /\ (a - outp) mod size = 0)
  then calc (m a) (m (inp + (a - outp))) else m a.
Proof.
  intros Hs Hc. unfold func_op.
  replace count with (Z.of_nat (Z.to_nat count)) by lia. generalize (Z.to_nat count). clear Hc count.
  intros n Hdis. unfold upto, zrange. rewrite Z.sub_0_r, Nat2Z.id. revert a. induction n as [|n IH]; intros a.
  - simpl. rewrite bool_decide_eq_false_2 by lia. done.
  - assert (forall i j, 0 <= i < Z.of_nat n -> 0 <= j < Z.of_nat n -> i <> j ->
      inp + i * size <> outp + j * size) as Hdis' by (intros; apply Hdis; lia).
    specialize (IH Hdis'). rewrite seq_S, map_app, fold_left_app. cbn [map fold_left].
    rewrite (Z.add_0_l (Z.of_nat (0 + n))). change (0 + n)%nat with n.
    destruct (decide (a = outp + Z.of_nat n * size)) as [->|Hne].
    + rewrite fn_lookup_insert, !IH.
      rewrite (bool_decide_eq_false_2 (_ <= outp + _ < _ /\ _)) by nia.
      rewrite bool_decide_eq_false_2.
      2:{ intros [H1 H2].
          assert (inp + Z.of_nat n * size = outp + (inp + Z.of_nat n * size - outp) / size * size) as E
            by (pose proof (Z.div_mod (inp + Z.of_nat n * size - outp) size); lia).
          set (k := (inp + Z.of_nat n * size - outp) / size) in *.
          assert (0 <= k < Z.of_nat n) by nia.
          apply (Hdis (Z.of_nat n) k); lia. }
      rewrite bool_decide_eq_true_2.
      2:{ replace (outp + Z.of_nat n * size - outp) with (Z.of_nat n * size) by lia.
          rewrite Z.mod_mul by lia. nia. }
      f_equal. f_equal. lia.
    + rewrite fn_lookup_insert_ne by done. rewrite IH.
      destruct (decide ((a - outp) mod size = 0)) as [E|E].
      * assert (a - outp = (a - outp) / size * size) as E' by (pose proof (Z.div_mod (a - outp) size); lia).
        set (k := (a - outp) / size) in *.
        destruct (decide (0 <= k < Z.of_nat n)).
        -- rewrite !bool_decide_eq_true_2 by (split; [nia|done]). done.
        -- assert (k <> Z.of_nat n) by (intros Hk; rewrite Hk in E'; lia).
           rewrite !bool_decide_eq_false_2; [done|intros [? _]; nia|intros [? _]; nia].
      * rewrite !bool_decide_eq_false_2 by tauto. done.
Qed.

Lemma func_op_spec_witness :
  func_op (int_calc true 32 SHM_INTERNAL_SUM) 4 0 100 3 (fun a => a) 108 = 116.
Proof.
  rewrite (func_op_spec (int_calc true 32 SHM_INTERNAL_SUM) 4 0 100 3 (fun a => a) 108);
    [vm_compute; reflexivity|lia|lia|intros; lia].
Defined.
