(* ===== verification/Spinlock.v ===== *)
(** * The spin lock between the threads of a process ([shmem_atomic.h])

    A ticket lock on two 64-bit counters: [enter] is the next ticket, [exit] the ticket
    being served.  The atomic operations of the compiler are the steps of the threads; the
    lock is proved to implement a queue of threads, which gives mutual exclusion and
    service in the order of arrival, and every waiting thread is served. *)

From S2P Require Import Prelude Internal ReduceOp.
Local Open Scope Z_scope.

Record shmem_spinlock_t := Spinlock { enter : Z; exit : Z }.

Definition shmem_spinlock_init : shmem_spinlock_t := Spinlock 0 0.

(** [__atomic_fetch_add(&lock->enter, 1)]: the value before, and the lock after. *)
Definition spinlock_take (l : shmem_spinlock_t) : Z * shmem_spinlock_t :=
  (enter l, Spinlock (wrap_u 64 (enter l + 1)) (exit l)).
(** The test of the loop: the thread with this ticket keeps spinning. *)
Definition spinlock_spins (val : Z) (l : shmem_spinlock_t) : bool := negb (val =? exit l).
Definition shmem_spinlock_unlock (l : shmem_spinlock_t) : shmem_spinlock_t :=
  Spinlock (enter l) (wrap_u 64 (exit l + 1)).
(** Whether the assertion of [shmem_spinlock_fini] holds. *)
Definition shmem_spinlock_fini (l : shmem_spinlock_t) : bool := enter l =? exit l.

(** ** The threads *)

(** Where a thread is: outside, in the loop of [shmem_spinlock_lock] with its [val], or
    holding the lock. *)
Inductive pc := Outside | Spinning (val : Z) | Holding (val : Z).

Section threads.
Context {T : Type} `{EqDecision T} (threads : list T) (Hcount : Z.of_nat (length threads) < 2 ^ 64).

Record state := State { lock : shmem_spinlock_t; at_ : T -> pc }.

(** One atomic operation of thread [t]. *)
Inductive step (t : T) : state -> state -> Prop :=
| step_outside s : at_ s t = Outside -> step t s s
| step_take s : at_ s t = Outside ->
    step t s (State (spinlock_take (lock s)).2 (<[t := Spinning (spinlock_take (lock s)).1]> (at_ s)))
| step_spin s val : at_ s t = Spinning val -> spinlock_spins val (lock s) = true -> step t s s
| step_enter s val : at_ s t = Spinning val -> spinlock_spins val (lock s) = false ->
    step t s (State (lock s) (<[t := Holding val]> (at_ s)))
| step_work s val : at_ s t = Holding val -> step t s s
| step_unlock s val : at_ s t = Holding val ->
    step t s (State (shmem_spinlock_unlock (lock s)) (<[t := Outside]> (at_ s))).

Definition state0 : state := State shmem_spinlock_init (fun _ => Outside).

Inductive reachable : state -> Prop :=
| reach_start : reachable state0
| reach_step t s s' : t ∈ threads -> reachable s -> step t s s' -> reachable s'.

(** ** The abstract lock: a queue whose head may hold it *)

Record queue := Queue { waiting : list T; held : bool }.

Inductive qstep (t : T) : queue -> queue -> Prop :=
| q_arrive q : t ∉ waiting q -> qstep t q (Queue (waiting q ++ [t]) (held q))
| q_enter l : qstep t (Queue (t :: l) false) (Queue (t :: l) true)
| q_leave l : qstep t (Queue (t :: l) true) (Queue l false).

Definition ticket (p : pc) : option Z := match p with Outside => None | Spinning v | Holding v => Some v end.

(** The queue a state stands for: its threads have consecutive tickets from [exit] on. *)
Record abstracts (s : state) (q : queue) : Prop := {
  a_nodup : NoDup (waiting q);
  a_threads : forall t, t ∈ waiting q -> t ∈ threads;
  a_busy : held q = true -> waiting q <> [];
  a_exit : 0 <= exit (lock s) < 2 ^ 64;
  a_enter : enter (lock s) = wrap_u 64 (exit (lock s) + Z.of_nat (length (waiting q)));
  a_outside : forall t, at_ s t = Outside <-> t ∉ waiting q;
  a_ticket : forall i t, waiting q !! i = Some t -> ticket (at_ s t) = Some (wrap_u 64 (exit (lock s) + Z.of_nat i));
  a_held : forall t v, at_ s t = Holding v <-> held q = true /\ waiting q !! 0%nat = Some t /\ v = exit (lock s) }.

Lemma queue_short s q : abstracts s q -> (length (waiting q) <= length threads)%nat.
Proof.
  intros [Hn Ht]. apply submseteq_length, NoDup_submseteq; [done|]. auto.
Qed.

(** Tickets of different positions differ. *)
Lemma ticket_inj e i j : 0 <= i < 2 ^ 64 -> 0 <= j < 2 ^ 64 -> wrap_u 64 (e + i) = wrap_u 64 (e + j) -> i = j.
Proof.
  intros Hi Hj E. unfold wrap_u in E.
  assert (((e + i) - (e + j)) mod 2 ^ 64 = 0) as H0 by (rewrite Zminus_mod, E, Z.sub_diag; done).
  replace (e + i - (e + j)) with (i - j) in H0 by lia.
  apply Z.mod_divide in H0; [|lia]. destruct H0 as [k Hk]. nia.
Qed.

Lemma abstracts0 : abstracts state0 (Queue [] false).
Proof.
  constructor; simpl; try done; try lia.
  - constructor.
  - intros t. by rewrite elem_of_nil.
  - split; [intros _; apply not_elem_of_nil|done].
  - split; [done|by intros []].
Qed.

Lemma wrap_u_add_l a b : wrap_u 64 (wrap_u 64 a + b) = wrap_u 64 (a + b).
Proof. unfold wrap_u. by rewrite Z.add_mod_idemp_l. Qed.

Lemma wrap_u_range x : 0 <= wrap_u 64 x < 2 ^ 64.
Proof. apply Z.mod_pos_bound. lia. Qed.

(** A thread that is not outside has a place in the queue. *)
Lemma has_place s q t v : abstracts s q -> ticket (at_ s t) = Some v ->
  exists i, waiting q !! i = Some t /\ v = wrap_u 64 (exit (lock s) + Z.of_nat i).
Proof.
  intros Ha Hv. assert (t ∈ waiting q) as [i Hi]%list_elem_of_lookup_1.
  { destruct (decide (t ∈ waiting q)) as [|Hn]; [done|]. apply (a_outside _ _ Ha) in Hn. by rewrite Hn in Hv. }
  exists i. split; [done|]. pose proof (a_ticket _ _ Ha i t Hi). congruence.
Qed.

(** The ticket being served is the head's. *)
Lemma served_is_head s q t : abstracts s q -> ticket (at_ s t) = Some (exit (lock s)) -> waiting q !! 0%nat = Some t.
Proof.
  intros Ha Ht. destruct (has_place s q t _ Ha Ht) as (i & Hi & Hv).
  pose proof (queue_short s q Ha). apply lookup_lt_Some in Hi as Hlt.
  rewrite <- (wrap_u_id 64 (exit (lock s))) in Hv at 1 by apply Ha.
  rewrite <- (Z.add_0_r (exit (lock s))) in Hv at 1.
  apply ticket_inj in Hv; [|lia..]. by replace i with 0%nat in Hi by lia.
Qed.

Lemma simulate_take s q t : abstracts s q -> t ∈ threads -> at_ s t = Outside ->
  abstracts (State (spinlock_take (lock s)).2 (<[t := Spinning (enter (lock s))]> (at_ s)))
    (Queue (waiting q ++ [t]) (held q)).
Proof.
  intros Ha Ht Hout. pose proof Ha as [Hn Hin Hb Hex Hen Ho Htk Hh]. apply Ho in Hout as Hni. constructor; simpl.
  - apply list.NoDup_app. split; [done|]. split; [intros x Hx Hx'%list_elem_of_singleton; by subst|apply NoDup_singleton].
  - intros x [Hx|Hx%list_elem_of_singleton]%elem_of_app; [auto|by subst].
  - intros _. by destruct (waiting q).
  - done.
  - rewrite Hen, wrap_u_add_l, length_app. simpl. f_equal. lia.
  - intros x. rewrite insert_cases, not_elem_of_app, list_elem_of_singleton. destruct (decide (t = x)) as [<-|].
    + split; [done|]. by intros [_ []].
    + rewrite Ho. naive_solver.
  - intros i x Hi. rewrite insert_cases. destruct (decide (t = x)) as [<-|Hne].
    + apply lookup_app_Some in Hi as [Hi|[Hle Hi]]; [by apply list_elem_of_lookup_2 in Hi|].
      destruct (i - length (waiting q))%nat eqn:E; [|done]. simpl. rewrite Hen. do 3 f_equal. lia.
    + apply lookup_app_Some in Hi as [Hi|[Hle Hi]]; [by apply Htk|].
      destruct (i - length (waiting q))%nat eqn:E; [|done]. by injection Hi as ->.
  - intros x v. rewrite insert_cases. destruct (decide (t = x)) as [<-|Hne].
    + split; [done|]. intros (Hhd & H0 & _). apply lookup_app_Some in H0 as [H0|[Hle _]]; [by apply list_elem_of_lookup_2 in H0|].
      apply Hb in Hhd. destruct (waiting q); [done|simpl in Hle; lia].
    + rewrite Hh. split; intros (Hhd & H0 & ->); (split; [done|split; [|done]]).
      * by apply lookup_app_l_Some.
      * apply lookup_app_Some in H0 as [H0|[Hle _]]; [done|]. apply Hb in Hhd.
        destruct (waiting q); [done|simpl in Hle; lia].
Qed.

Lemma simulate_enter s q t v : abstracts s q -> at_ s t = Spinning v -> spinlock_spins v (lock s) = false ->
  exists l, q = Queue (t :: l) false /\ abstracts (State (lock s) (<[t := Holding v]> (at_ s))) (Queue (t :: l) true).
Proof.
  intros Ha Hsp Hv%negb_false_iff%Z.eqb_eq. subst v. pose proof Ha as [Hn Hin Hb Hex Hen Ho Htk Hh].
  assert (waiting q !! 0%nat = Some t) as H0 by (apply (served_is_head s); [done|]; by rewrite Hsp).
  destruct q as [[|y l] b]; [done|]. injection H0 as ->. simpl in *.
  assert (b = false) as ->. { destruct b; [|done]. assert (at_ s t = Holding (exit (lock s))) by (by apply Hh). congruence. }
  exists l. split; [done|]. constructor; simpl; try done.
  - intros x. rewrite insert_cases. destruct (decide (t = x)) as [<-|]; [|apply Ho].
    split; [done|]. rewrite not_elem_of_cons. naive_solver.
  - intros i x Hi. rewrite insert_cases. destruct (decide (t = x)) as [<-|]; [|by apply Htk].
    rewrite <- (Htk i t Hi), Hsp. done.
  - intros x v. rewrite insert_cases. destruct (decide (t = x)) as [<-|]; [naive_solver|].
    rewrite Hh. naive_solver.
Qed.

Lemma simulate_unlock s q t v : abstracts s q -> at_ s t = Holding v ->
  exists l, q = Queue (t :: l) true /\
    abstracts (State (shmem_spinlock_unlock (lock s)) (<[t := Outside]> (at_ s))) (Queue l false).
Proof.
  intros Ha Hhold. pose proof Ha as [Hn Hin Hb Hex Hen Ho Htk Hh].
  apply Hh in Hhold as Hd. destruct Hd as (Hhd & H0 & ->). destruct q as [[|y l] b]; [done|]. simpl in *.
  injection H0 as ->. subst b. apply list.NoDup_cons in Hn as [Hnt Hn]. exists l. split; [done|]. constructor; simpl.
  - done.
  - intros x Hx. apply Hin. by apply list_elem_of_further.
  - done.
  - apply wrap_u_range.
  - rewrite Hen, wrap_u_add_l. f_equal. lia.
  - intros x. rewrite insert_cases. destruct (decide (t = x)) as [<-|]; [done|]. rewrite Ho, not_elem_of_cons. naive_solver.
  - intros i x Hi. rewrite insert_cases. destruct (decide (t = x)) as [<-|]; [by apply list_elem_of_lookup_2 in Hi|].
    rewrite (Htk (S i) x Hi), wrap_u_add_l. do 2 f_equal. lia.
  - intros x w. rewrite insert_cases. destruct (decide (t = x)) as [<-|Hne]; [split; [done|by intros []]|].
    split; [|by intros []]. intros (_ & Hx & _)%Hh. congruence.
Qed.

(** Every step of a thread is a step of the queue, or leaves it alone. *)
Lemma simulate s q t s' : abstracts s q -> t ∈ threads -> step t s s' ->
  exists q', abstracts s' q' /\ (q' = q \/ qstep t q q').
Proof.
  intros Ha Ht Hs. inversion Hs as [? Ho|? Ho|? v Hp Hv|? v Hp Hv|? v Hp|? v Hp]; subst.
  - exists q. auto.
  - eexists. split; [by apply simulate_take|]. right. constructor. by apply (a_outside _ _ Ha).
  - exists q. auto.
  - destruct (simulate_enter s q t v Ha Hp Hv) as (l & -> & Ha'). eexists. split; [exact Ha'|]. right. constructor.
  - exists q. auto.
  - destruct (simulate_unlock s q t v Ha Hp) as (l & -> & Ha'). eexists. split; [exact Ha'|]. right. constructor.
Qed.

Lemma reachable_abstracts s : reachable s -> exists q, abstracts s q.
Proof.
  induction 1 as [|t s s' Ht Hr [q Ha] Hs]; [by eexists; apply abstracts0|].
  destruct (simulate s q t s' Ha Ht Hs) as (q' & Ha' & _). by exists q'.
Qed.

(** ** Every waiting thread is served *)

(** How many threads are served before the ticket [v]. *)
Definition behind (s : state) (v : Z) : Z := wrap_u 64 (v - exit (lock s)).

Lemma behind_place s q t i v : abstracts s q -> waiting q !! i = Some t -> ticket (at_ s t) = Some v -> behind s v = Z.of_nat i.
Proof.
  intros Ha Hi Hv. pose proof (a_ticket _ _ Ha i t Hi) as E. rewrite Hv in E. injection E as ->.
  pose proof (queue_short s q Ha). apply lookup_lt_Some in Hi.
  unfold behind, Z.sub. rewrite wrap_u_add_l. rewrite <- Z.add_assoc, (Z.add_comm (Z.of_nat i)), Z.add_assoc, Z.add_opp_diag_r.
  apply wrap_u_id. lia.
Qed.

Lemma other_step t u s s' : step u s s' -> u <> t -> at_ s' t = at_ s t.
Proof. intros Hs Hne. inversion Hs; subst; simpl; try done; by rewrite fn_lookup_insert_ne. Qed.

Lemma holder_step t v s s' : step t s s' -> at_ s t = Holding v -> at_ s' t = Holding v \/ at_ s' t = Outside.
Proof. intros Hs Hv. inversion Hs; subst; simpl; rewrite ?fn_lookup_insert; (congruence || auto). Qed.

(** A waiting thread keeps its ticket until it is served, and moves up when the holder leaves. *)
Lemma waiting_step s q t u s' v : abstracts s q -> step u s s' -> at_ s t = Spinning v ->
  at_ s' t = Holding v \/
  (at_ s' t = Spinning v /\ behind s' v <= behind s v /\
   (forall w, at_ s u = Holding w -> at_ s' u = Outside -> behind s' v < behind s v)).
Proof.
  intros Ha Hs Ht. inversion Hs as [? Ho|? Ho|? w Hp Hv|? w Hp Hv|? w Hp|? w Hp]; subst.
  - right. split; [done|]. split; [done|]. congruence.
  - right. simpl. rewrite !insert_cases. destruct (decide (u = t)) as [->|]; [congruence|].
    split; [done|]. split; [done|]. congruence.
  - right. split; [done|]. split; [done|]. congruence.
  - simpl. rewrite !insert_cases. destruct (decide (u = t)) as [->|]; [left; congruence|]. right.
    split; [done|]. split; [done|]. congruence.
  - right. split; [done|]. split; [done|]. congruence.
  - right. simpl. destruct (simulate_unlock s q u w Ha Hp) as (l & -> & Ha').
    destruct (decide (u = t)) as [->|Hne]; [congruence|]. rewrite fn_lookup_insert_ne by done.
    destruct (has_place s _ t v Ha) as (i & Hi & _); [by rewrite Ht|].
    destruct i as [|i]; [simpl in Hi; congruence|]. simpl in Hi.
    rewrite (behind_place s _ t (S i) v Ha Hi) by (by rewrite Ht).
    erewrite (behind_place _ _ t i v Ha' Hi) by (simpl; by rewrite fn_lookup_insert_ne, Ht by done).
    split; [done|]. split; [lia|]. intros. lia.
Qed.

(** A fair run: every thread gets its turns, and who holds the lock releases it some day. *)
Record fair_run (run : nat -> state) (sched : nat -> T) : Prop := {
  fr_start : run 0%nat = state0;
  fr_step : forall n, sched n ∈ threads /\ step (sched n) (run n) (run (S n));
  fr_turns : forall t n, t ∈ threads -> exists m, (n <= m)%nat /\ sched m = t;
  fr_leaves : forall t n v, at_ (run n) t = Holding v -> exists m, (n <= m)%nat /\ at_ (run m) t = Outside }.

Section fair.
Context (run : nat -> state) (sched : nat -> T) (Hfair : fair_run run sched).

Lemma run_abstracts n : exists q, abstracts (run n) q.
Proof.
  apply reachable_abstracts. induction n as [|n IH]; [rewrite (fr_start _ _ Hfair); constructor|].
  destruct (fr_step _ _ Hfair n). by eapply reach_step.
Qed.

(** The next turn of a thread; nobody else moves it. *)
Lemma next_turn t n : t ∈ threads -> exists m, (n <= m)%nat /\ sched m = t /\ at_ (run m) t = at_ (run n) t.
Proof.
  intros Ht. destruct (fr_turns _ _ Hfair t n Ht) as (m & Hle & Hm).
  remember (m - n)%nat as k eqn:Ek. revert n Hle Ek. induction k as [|k IH]; intros n Hle Ek.
  - exists n. by replace n with m by lia.
  - destruct (decide (sched n = t)) as [|Hne]; [by exists n|].
    destruct (IH (S n)) as (m' & ? & ? & E); [lia..|]. exists m'. split; [lia|]. split; [done|]. rewrite E.
    apply (other_step _ (sched n)); [apply (fr_step _ _ Hfair)|done].
Qed.

Lemma waiting_run t v n m : at_ (run n) t = Spinning v -> (n <= m)%nat ->
  (exists k, (n <= k <= m)%nat /\ at_ (run k) t = Holding v) \/
  (at_ (run m) t = Spinning v /\ behind (run m) v <= behind (run n) v).
Proof.
  intros Hn Hle. induction Hle as [|m Hle IH]; [by right|]. destruct IH as [(k & ? & ?)|[Hm Hb]].
  - left. exists k. split; [lia|done].
  - destruct (run_abstracts m) as [q Ha]. destruct (fr_step _ _ Hfair m) as [_ Hs].
    destruct (waiting_step _ q t _ _ v Ha Hs Hm) as [|(? & ? & _)]; [left; exists (S m); split; [lia|done]|].
    right. split; [done|lia].
Qed.

(** The head of the queue gets the lock at its next turn at the latest. *)
Lemma head_served t v n : t ∈ threads -> at_ (run n) t = Spinning v -> behind (run n) v = 0 ->
  exists m, (n <= m)%nat /\ at_ (run m) t = Holding v.
Proof.
  intros Ht Hn Hb. destruct (next_turn t n Ht) as (m & Hle & Hsm & Em).
  destruct (waiting_run t v n m Hn Hle) as [(k & ? & ?)|[Hm Hbm]]; [exists k; split; [lia|done]|].
  destruct (run_abstracts m) as [q Ha]. destruct (has_place _ _ t v Ha) as (i & Hi & Hv); [by rewrite Hm|].
  pose proof (behind_place _ q t i v Ha Hi) as Hp. rewrite Hm in Hp. specialize (Hp eq_refl).
  replace i with 0%nat in * by lia. rewrite Z.add_0_r, wrap_u_id in Hv by apply Ha.
  destruct (fr_step _ _ Hfair m) as [_ Hs]. rewrite Hsm in Hs.
  exists (S m). split; [lia|]. inversion Hs as [? Ho E|? Ho|? w Hp' Hw E|? w Hp' Hw|? w Hp' E|? w Hp']; try congruence.
  - replace w with v in Hw by congruence. unfold spinlock_spins in Hw. by rewrite Hv, Z.eqb_refl in Hw.
  - simpl. rewrite fn_lookup_insert. congruence.
Qed.

(** Who holds the lock leaves at a step of its own. *)
Lemma holder_leaves t n v : at_ (run n) t = Holding v ->
  exists k w, (n <= k)%nat /\ sched k = t /\ at_ (run k) t = Holding w /\ at_ (run (S k)) t = Outside.
Proof.
  intros Hn. destruct (fr_leaves _ _ Hfair t n v Hn) as (m & Hle & Hm).
  remember (m - n)%nat as d eqn:Ed. revert n v Hn Hle Ed. induction d as [|d IH]; intros n v Hn Hle Ed.
  - replace m with n in Hm by lia. congruence.
  - destruct (fr_step _ _ Hfair n) as [_ Hs]. destruct (decide (sched n = t)) as [Et|Hne].
    + rewrite Et in Hs. destruct (holder_step t v _ _ Hs Hn) as [E|E]; [|by exists n, v].
      destruct (IH (S n) v E) as (k & w' & ? & ?); [lia..|]. exists k, w'. split; [lia|done].
    + pose proof (other_step t _ _ _ Hs Hne) as E. rewrite Hn in E.
      destruct (IH (S n) v E) as (k & w' & ? & ?); [lia..|]. exists k, w'. split; [lia|done].
Qed.

Lemma served t v n : at_ (run n) t = Spinning v -> exists m, (n <= m)%nat /\ at_ (run m) t = Holding v.
Proof.
  remember (Z.to_nat (behind (run n) v)) as d eqn:Ed. revert n Ed. induction (lt_wf d) as [d _ IH]. intros n Ed Hn.
  destruct (run_abstracts n) as [q Ha]. destruct (has_place _ _ t v Ha) as (i & Hi & Hv); [by rewrite Hn|].
  assert (behind (run n) v = Z.of_nat i) as Hb by (apply (behind_place _ q t); [done|done|by rewrite Hn]).
  assert (forall u, u ∈ waiting q -> u ∈ threads) as Hth by apply Ha.
  assert (exists h w, waiting q !! 0%nat = Some h /\ ticket (at_ (run n) h) = Some w) as (h & w & H0 & Hw).
  { destruct (waiting q) as [|h l] eqn:Eq; [done|]. exists h, (wrap_u 64 (exit (lock (run n)) + Z.of_nat 0)).
    split; [done|]. apply Ha. by rewrite Eq. }
  assert (behind (run n) w = 0) as Hw0 by (by apply (behind_place _ q h 0)).
  assert (h ∈ threads) as Hh by (eapply Hth, list_elem_of_lookup_2, H0).
  assert (exists m, (n <= m)%nat /\ at_ (run m) h = Holding w) as (m & Hle & Hm).
  { destruct (at_ (run n) h) as [|w'|w'] eqn:E; [done| |]; injection Hw as ->; [by apply head_served|by exists n]. }
  destruct (holder_leaves h m w Hm) as (k & w' & Hk & Hsk & Hkh & Hout).
  destruct (waiting_run t v n k Hn) as [(j & ? & ?)|[Hkt Hbk]]; [lia|exists j; split; [lia|done]|].
  destruct (run_abstracts k) as [qk Hak]. destruct (fr_step _ _ Hfair k) as [_ Hs].
  destruct (waiting_step _ qk t _ _ v Hak Hs Hkt) as [|(Ht' & _ & Hlt)]; [exists (S k); split; [lia|done]|].
  rewrite Hsk in Hlt. specialize (Hlt w' Hkh Hout).
  destruct (IH (Z.to_nat (behind (run (S k)) v))) with (n := S k) as (m' & ? & ?); [|done|done|exists m'; split; [lia|done]].
  pose proof (wrap_u_range (v - exit (lock (run (S k))))). unfold behind in *. lia.
Qed.
End fair.

(** C18: the ticket lock implements a queue of threads, for any number of threads below
    2^64, with its counters wrapping around: every reachable state stands for a queue,
    every step of a thread is an arrival at the tail, the head taking the lock, the holder
    leaving from the head, or no change; at most one thread holds the lock, and the
    assertion of [shmem_spinlock_fini] holds exactly when no thread holds it or waits. *)
Theorem spinlock_refines s : reachable s -> exists q, abstracts s q /\
  (forall t s', t ∈ threads -> step t s s' -> exists q', abstracts s' q' /\ (q' = q \/ qstep t q q')) /\
  (forall t u v w, at_ s t = Holding v -> at_ s u = Holding w -> t = u) /\
  (shmem_spinlock_fini (lock s) = true <-> forall t, at_ s t = Outside).
Proof.
  intros Hr. destruct (reachable_abstracts s Hr) as [q Ha]. exists q. split; [done|]. split; [|split].
  - intros t s' Ht Hs. by eapply simulate.
  - intros t u v w (_ & Ht & _)%(a_held _ _ Ha) (_ & Hu & _)%(a_held _ _ Ha). congruence.
  - unfold shmem_spinlock_fini. rewrite Z.eqb_eq, (a_enter _ _ Ha). pose proof (queue_short s q Ha) as Hl.
    rewrite <- (wrap_u_id 64 (exit (lock s))) at 2 by apply Ha. rewrite <- (Z.add_0_r (exit (lock s))) at 2. split.
    + intros E%ticket_inj; [|lia..]. intros t. apply (a_outside _ _ Ha).
      destruct (waiting q); [apply not_elem_of_nil|simpl in E; lia].
    + intros Hall. destruct (waiting q) as [|t l] eqn:E; [done|]. specialize (Hall t). apply (a_outside _ _ Ha) in Hall.
      rewrite E in Hall. destruct Hall. apply list_elem_of_here.
Qed.

(** C19: in every fair run, in which the threads get their turns and no thread keeps the lock
    for ever, every thread that waits for the lock gets it. *)
Theorem spinlock_served run sched t v n : fair_run run sched -> at_ (run n) t = Spinning v ->
  exists m, (n <= m)%nat /\ at_ (run m) t = Holding v.
Proof. intros Hf. by apply (served run sched Hf). Qed.

(** A run in which every thread locks and unlocks at each of its turns is fair. *)
Definition turn (t : T) (s : state) : state :=
  match at_ s t with
  | Outside => State (spinlock_take (lock s)).2 (<[t := Spinning (spinlock_take (lock s)).1]> (at_ s))
  | Spinning v => if spinlock_spins v (lock s) then s else State (lock s) (<[t := Holding v]> (at_ s))
  | Holding v => State (shmem_spinlock_unlock (lock s)) (<[t := Outside]> (at_ s))
  end.

Fixpoint turns (sched : nat -> T) (n : nat) : state :=
  match n with O => state0 | S n => turn (sched n) (turns sched n) end.

Lemma turn_step t s : step t s (turn t s).
Proof.
  unfold turn. destruct (at_ s t) as [|v|v] eqn:E; [by constructor| |by econstructor].
  destruct (spinlock_spins v (lock s)) eqn:Ev; by econstructor.
Qed.

Lemma turns_reachable sched n : (forall n, sched n ∈ threads) -> reachable (turns sched n).
Proof. intros Hin. induction n as [|n IH]; [constructor|]. eapply reach_step; [apply (Hin n)|exact IH|apply turn_step]. Qed.

Lemma turns_fair sched : (forall n, sched n ∈ threads) -> (forall t n, t ∈ threads -> exists m, (n <= m)%nat /\ sched m = t) ->
  fair_run (turns sched) sched.
Proof.
  intros Hin Hturns. pose proof (fun n => turns_reachable sched n Hin) as Hr.
  constructor; [done| |done|].
  - intros n. split; [done|apply turn_step].
  - intros t n v Hv. destruct (reachable_abstracts _ (Hr n)) as [q Ha].
    assert (t ∈ threads) as Ht.
    { apply (a_threads _ _ Ha). pose proof (proj1 (a_held _ _ Ha t v) Hv) as (_ & H0 & _). by eapply list_elem_of_lookup_2. }
    destruct (Hturns t n Ht) as (m & Hle & Hm). remember (m - n)%nat as k eqn:Ek. clear q Ha.
    revert n Hv Hle Ek. induction k as [|k IH]; intros n Hv Hle Ek.
    + replace m with n in * by lia. exists (S n). split; [lia|]. simpl. rewrite Hm. unfold turn. rewrite Hv. simpl.
      by rewrite fn_lookup_insert.
    + destruct (decide (sched n = t)) as [E|Hne].
      * exists (S n). split; [lia|]. simpl. rewrite E. unfold turn. rewrite Hv. simpl. by rewrite fn_lookup_insert.
      * destruct (IH (S n)) as (m' & ? & ?); [|lia..|exists m'; split; [lia|done]].
        simpl. rewrite (other_step t _ _ _ (turn_step (sched n) _) Hne). exact Hv.
Qed.
End threads.

(** Two threads taking turns. *)
Definition alternate (n : nat) : bool := Nat.even n.

Lemma alternate_in n : alternate n ∈ [true; false].
Proof. unfold alternate. destruct (Nat.even n); apply list_elem_of_In; simpl; tauto. Qed.

Lemma spinlock_refines_witness :
  let s := turns alternate 3 in
  reachable [true; false] s /\ exists q, abstracts [true; false] s q /\ waiting q = [true; false].
Proof.
  intros s. pose proof (turns_reachable [true; false] alternate 3 alternate_in) as Hr. fold s in Hr.
  split; [exact Hr|]. destruct (spinlock_refines [true; false] ltac:(done) s Hr) as (q & Ha & Hrest). clear Hrest. exists q. split; [exact Ha|].
  pose proof (a_ticket _ _ _ Ha) as Ht. pose proof (a_enter _ _ _ Ha) as He.
  pose proof (queue_short _ _ _ Ha) as Hl.
  destruct (waiting q) as [|a [|b [|c l]]]; [discriminate He|discriminate He| |simpl in Hl; lia].
  specialize (Ht 0%nat a eq_refl) as Ha0. specialize (Ht 1%nat b eq_refl) as Hb0.
  destruct a, b; try discriminate Ha0; try discriminate Hb0. reflexivity.
Defined.

Lemma alternate_turns t n : t ∈ [true; false] -> exists m, (n <= m)%nat /\ alternate m = t.
Proof.
  intros _. unfold alternate. destruct (Nat.even n) eqn:E, t.
  - by exists n.
  - exists (S n). split; [lia|]. by rewrite Nat.even_succ, <- Nat.negb_even, E.
  - exists (S n). split; [lia|]. by rewrite Nat.even_succ, <- Nat.negb_even, E.
  - by exists n.
Qed.

Lemma spinlock_served_witness :
  fair_run [true; false] (turns alternate) alternate /\ at_ (turns alternate 2) false = Spinning 1 /\
  exists m, (2 <= m)%nat /\ at_ (turns alternate m) false = Holding 1.
Proof.
  assert (fair_run [true; false] (turns alternate) alternate) as Hf.
  { apply turns_fair; [done|apply alternate_in|intros; by apply alternate_turns]. }
  split; [exact Hf|]. split; [reflexivity|].
  apply (spinlock_served [true; false] ltac:(done) (turns alternate) alternate false 1 2 Hf). reflexivity.
Defined.
