(* ===== verification/Comm.v ===== *)
(** * The internal communication API ([shmem_comm.h], [shmem_synchronization.h])

    Each function of the API as a program of the machine.  Which transport carries
    an operation (shared memory or network) is not visible here: the machine lets
    an operation complete at any time its ordering rules allow, which covers both. *)

From S2P Require Import Prelude Machine Straight Internal ReduceOp.
Local Open Scope Z_scope.
Local Open Scope prog_scope.

(** ** Puts *)

(** [shmem_internal_put_scalar(ctx, target, &v, sizeof(v), pe)]: the value is read at the call. *)
Definition shmem_internal_put_scalar (target v pe : Z) : prog unit :=
  do_ (OPut pe target (Captured [(0, v)]) false).

(** The same call with a local array of longs as its source.  Nothing says in which order
    the words of one put become visible: with [whole_puts] they do so together, without it
    each word is a message of its own. *)
Definition shmem_internal_put_longs (whole_puts : bool) (target : Z) (vs : list Z) (pe : Z) : prog unit :=
  let words := imap (fun i v => (SIZEOF_LONG * Z.of_nat i, v)) vs in
  if whole_puts then do_ (OPut pe target (Captured words) false)
  else for_ words (fun '(offset, v) => shmem_internal_put_scalar (target + offset) v pe).

Definition shmem_internal_put_nb (target source len pe : Z) : prog unit :=
  when (negb (len =? 0)) (do_ (OPut pe target (Pending source (upto 0 len)) false)).

Definition shmem_internal_put_nbi (target source len pe : Z) : prog unit :=
  when (negb (len =? 0)) (do_ (OPut pe target (Pending source (upto 0 len)) true)).

Definition shmem_internal_put_wait : prog unit := do_ OPutWait.

(** ** Atomics *)

Definition long_calc (o : shm_internal_op_t) : Z -> Z -> Z := int_calc true 64 o.
Definition i32_calc (o : shm_internal_op_t) : Z -> Z -> Z := int_calc true 32 o.

(** [shmem_internal_atomic] on a scalar read at the call. *)
Definition shmem_internal_atomic (target v pe : Z) (calc : Z -> Z -> Z) : prog unit :=
  do_ (OAtomic pe target calc (Captured [(0, v)])).

(** [shmem_internal_atomicv]: one atomic update per element, source read until [put_wait]. *)
Definition shmem_internal_atomicv (target source len pe : Z) (calc : Z -> Z -> Z) (size : Z) : prog unit :=
  do_ (OAtomic pe target calc (Pending source (map (fun i => i * size) (upto 0 (len / size))))).

(** Fetching atomics, with the [shmem_internal_get_wait] that follows each of them. *)
Definition shmem_internal_swap (target v pe : Z) : prog Z :=
  Do (ORmw pe target (fun _ => v)) Ret.
Definition shmem_internal_cswap (target v cond pe : Z) : prog Z :=
  Do (ORmw pe target (fun old => if old =? cond then v else old)) Ret.
Definition shmem_internal_mswap (target v mask pe : Z) : prog Z :=
  Do (ORmw pe target (fun old => Z.lor (Z.land old (Z.lnot mask)) (Z.land v mask))) Ret.
Definition shmem_internal_atomic_fetch (target pe : Z) : prog Z :=
  Do (ORmw pe target (fun old => old)) Ret.
Definition shmem_internal_atomic_set (target v pe : Z) : prog unit :=
  do_ (OAtomic pe target (fun _ v => v) (Captured [(0, v)])).

(** ** Synchronization *)

Definition shmem_internal_quiet : prog unit := do_ OQuiet.
Definition shmem_internal_fence : prog unit := do_ OFence.

(** Waiting polls (or blocks on a counter) until the comparison holds. *)
Definition SHMEM_WAIT_UNTIL (var : Z) (cond : cmp) (value : Z) : prog unit := do_ (OWait var cond value).
Definition SHMEM_WAIT (var value : Z) : prog unit := do_ (OWait var SHMEM_CMP_NE value).

(** ** Local memory *)

Definition store (a v : Z) : prog unit := do_ (OLocal (fun m => <[a := v]> m)).
Definition load (a : Z) : prog Z := Do (OLoad a) Ret.
Definition copy_bytes (target source len : Z) (m : lmem) : lmem :=
  fun a => if (target <=? a) && (a <? target + len) then m (source + (a - target)) else m a.
Definition memcpy (target source len : Z) : prog unit := do_ (OLocal (copy_bytes target source len)).

(** Stores of [SHMEM_SYNC_VALUE] over the first [n] longs of a pSync. *)
Definition reset_psync (pSync n : Z) : prog unit :=
  for_ (upto 0 n) (fun i => store (pSync + SIZEOF_LONG * i) SHMEM_SYNC_VALUE).

(** Marks used to observe when a PE enters and leaves a collective. *)
Definition mark (t : Z) : prog unit := do_ (OMark t).

#[export] Hint Extern 0 (Straight (shmem_internal_put_scalar _ _ _) _) => apply straight_do : typeclass_instances.
#[export] Hint Extern 0 (Straight (shmem_internal_put_longs true _ _ _) _) => apply straight_do : typeclass_instances.
#[export] Hint Extern 0 (Straight (shmem_internal_put_nb _ _ _ _) _) => apply straight_when, straight_do : typeclass_instances.
#[export] Hint Extern 0 (Straight (shmem_internal_put_nbi _ _ _ _) _) => apply straight_when, straight_do : typeclass_instances.
#[export] Hint Extern 0 (Straight shmem_internal_put_wait _) => apply straight_do : typeclass_instances.
#[export] Hint Extern 0 (Straight (shmem_internal_atomic _ _ _ _) _) => apply straight_do : typeclass_instances.
#[export] Hint Extern 0 (Straight (shmem_internal_atomicv _ _ _ _ _ _) _) => apply straight_do : typeclass_instances.
#[export] Hint Extern 0 (Straight (shmem_internal_atomic_set _ _ _) _) => apply straight_do : typeclass_instances.
#[export] Hint Extern 0 (Straight shmem_internal_quiet _) => apply straight_do : typeclass_instances.
#[export] Hint Extern 0 (Straight shmem_internal_fence _) => apply straight_do : typeclass_instances.
#[export] Hint Extern 0 (Straight (SHMEM_WAIT_UNTIL _ _ _) _) => apply straight_do : typeclass_instances.
#[export] Hint Extern 0 (Straight (SHMEM_WAIT _ _) _) => apply straight_do : typeclass_instances.
#[export] Hint Extern 0 (Straight (store _ _) _) => apply straight_do : typeclass_instances.
#[export] Hint Extern 0 (Straight (memcpy _ _ _) _) => apply straight_do : typeclass_instances.
#[export] Hint Extern 0 (Straight (mark _) _) => apply straight_do : typeclass_instances.

(** ** Programs that only touch the caller's own memory *)

(** The value and the memory such a program ends with; [None] at the first operation
    that communicates, or at an abort. *)
Fixpoint run_local {A} (p : prog A) (m : lmem) : option (A * lmem) :=
  match p with
  | Ret a => Some (a, m)
  | Do (OLoad a) k => run_local (k (m a)) m
  | Do (OLocal f) k => run_local (k 0) (f m)
  | Do (OCall f) k => run_local (k (f m).1) (f m).2
  | _ => None
  end.

Lemma run_local_bind {A B} (p : prog A) (f : A -> prog B) m :
  run_local (pbind p f) m = '(a, m') ← run_local p m; run_local (f a) m'.
Proof.
  revert m. induction p as [a|o k IH|]; intros m; [done| |done].
  destruct o; simpl; try done; apply IH.
Qed.

(** In the job, a PE that runs such a program reaches that value and memory, whatever
    follows, with nothing else in the job changed. *)
Lemma run_local_steps {A} (p : prog A) (k : A -> prog unit) (w : world) pe a m' :
  progs w pe = pbind p k -> run_local p (mem (w_st w) pe) = Some (a, m') ->
  exists w', rtc step w w' /\ progs w' pe = k a /\
    (forall q, q <> pe -> progs w' q = progs w q) /\
    (forall a, mem (w_st w') pe a = m' a) /\
    (forall q, q <> pe -> mem (w_st w') q = mem (w_st w) q) /\
    net (w_st w') = net (w_st w) /\ log (w_st w') = log (w_st w).
Proof.
  revert w. induction p as [x|o f IH|]; intros w Hp Hr; [| |done].
  - injection Hr as -> <-. exists w. split; [done|]. by repeat split.
  - assert (exists v w1, run_local (f v) (mem (w_st w1) pe) = Some (a, m') /\ step w w1 /\
      progs w1 = <[pe := pbind (f v) k]> (progs w) /\
      (forall q, q <> pe -> mem (w_st w1) q = mem (w_st w) q) /\
      net (w_st w1) = net (w_st w) /\ log (w_st w1) = log (w_st w)) as (v & w1 & Hr1 & Hs & Hp1 & Hq & Hn & Hl).
    { destruct o; try done; simpl in Hr; do 2 eexists.
      all: split; [|split; [eapply step_pe; [exact Hp|reflexivity]|]]; simpl.
      all: try (rewrite fn_lookup_insert; exact Hr). 
      all: try exact Hr.
      all: split; [done|]; split; [|done]; intros q Hq; simpl; by rewrite ?fn_lookup_insert_ne by done. }
    destruct (IH v w1) as (w' & Hw & H1 & H2 & H3 & H4 & H5 & H6); [by rewrite Hp1, fn_lookup_insert|done|].
    exists w'. split; [by eapply rtc_l|]. split; [done|]. split; [|split; [done|split; [|split; congruence]]].
    + intros q Hne. rewrite H2, Hp1 by done. by apply fn_lookup_insert_ne.
    + intros q Hne. by rewrite H4, Hq by done.
Qed.
