(* ===== verification/Tree.v ===== *)
(** * Communication trees of the collectives ([collectives.c])

    The k-ary tree built for an arbitrary active set, the k-nomial "full tree"
    [shmem_internal_collectives_init] builds over all PEs, and the circulator used
    by the all-to-all style collectives.  [Tree] is the contract the tree
    collectives rely on; both constructions are proved to implement it. *)

From S2P Require Import Prelude Internal.
Local Open Scope Z_scope.

(** ** The contract of a communication tree *)

Class Tree (members : list Z) (root : Z) (parent : Z -> Z) (children : Z -> list Z) (rank : Z -> Z) : Prop := {
  tree_root_member : root ∈ members;
  tree_root_parent : parent root = root;
  tree_parent_member : forall c, c ∈ members -> parent c ∈ members;
  tree_child_member : forall p c, p ∈ members -> c ∈ children p -> c ∈ members;
  tree_child_iff : forall p c, p ∈ members -> c ∈ members ->
      c ∈ children p <-> c <> root /\ parent c = p;
  tree_children_nodup : forall p, p ∈ members -> NoDup (children p);
  tree_rank : forall c, c ∈ members -> c <> root -> 0 <= rank (parent c) < rank c }.

(** A tree with another member than its root gives its root a child, and its
    children lists together hold no member twice. *)
Section tree.
Context (M : list Z) (root : Z) (parent : Z -> Z) (children : Z -> list Z) (rank : Z -> Z).
Context (HT : Tree M root parent children rank).

Lemma tree_parent_ne c : c ∈ M -> c <> root -> parent c <> c.
Proof. intros Hc Hne E. pose proof (tree_rank (Tree:=HT) c Hc Hne). rewrite E in *. lia. Qed.

Lemma tree_child_in p c : p ∈ M -> c ∈ children p -> c ∈ M /\ c <> root /\ parent c = p.
Proof.
  intros Hp Hc. pose proof (tree_child_member (Tree:=HT) _ _ Hp Hc) as Hcm.
  split; [done|]. by apply (tree_child_iff (Tree:=HT)).
Qed.

Lemma tree_child_of c : c ∈ M -> c <> root -> parent c ∈ M /\ c ∈ children (parent c).
Proof.
  intros Hc Hne. pose proof (tree_parent_member (Tree:=HT) c Hc) as Hp. split; [done|].
  by apply (tree_child_iff (Tree:=HT)).
Qed.

Lemma tree_root_child c : c ∈ M -> c <> root -> children root <> [].
Proof.
  intros Hc Hne.
  destruct (list_argmin rank (fun c => c <> root) M c Hc Hne) as (y & Hy & Hyr & Hmin).
  destruct (decide (parent y = root)) as [E|E].
  - assert (y ∈ children root) as Hin.
    { apply (tree_child_iff (Tree:=HT)); [apply (tree_root_member (Tree:=HT))|done|done]. }
    intros E'. rewrite E' in Hin. by apply elem_of_nil in Hin.
  - pose proof (tree_rank (Tree:=HT) y Hy Hyr).
    specialize (Hmin (parent y) (tree_parent_member (Tree:=HT) y Hy) E). lia.
Qed.

Lemma tree_children_count : NoDup M -> (length (M ≫= children) <= length M)%nat.
Proof.
  intros HM. apply nodup_length_le.
  - apply NoDup_bind; [|apply (tree_children_nodup (Tree:=HT))|done].
    intros p q c Hp Hq Hcp Hcq. pose proof (tree_child_member (Tree:=HT) p c Hp Hcp) as Hc.
    apply (tree_child_iff (Tree:=HT)) in Hcp as [_ <-]; [|done|done].
    by apply (tree_child_iff (Tree:=HT)) in Hcq as [_ <-].
  - intros c (p & Hc & Hp)%list_elem_of_bind. by eapply (tree_child_member (Tree:=HT)).
Qed.

Lemma tree_degree p : NoDup M -> p ∈ M -> (length (children p) <= length M)%nat.
Proof.
  intros HM Hp. apply nodup_length_le; [by apply (tree_children_nodup (Tree:=HT))|].
  intros c. by apply (tree_child_member (Tree:=HT)).
Qed.

(** Following the parents from any member leads to the root. *)
Lemma tree_ancestor c : c ∈ M -> exists d, Nat.iter d parent c = root.
Proof.
  remember (Z.to_nat (rank c)) as k eqn:Hk. revert c Hk.
  induction k as [k IH] using lt_wf_ind. intros c -> Hc.
  destruct (decide (c = root)) as [->|Hne]; [by exists 0%nat|].
  pose proof (tree_rank (Tree:=HT) c Hc Hne).
  destruct (IH (Z.to_nat (rank (parent c))) ltac:(lia) (parent c) eq_refl) as [d Hd].
  - by apply (tree_parent_member (Tree:=HT)).
  - exists (S d). by rewrite Nat.iter_succ_r.
Qed.
End tree.
Arguments tree_parent_ne {M root parent children rank} HT.
Arguments tree_child_in {M root parent children rank} HT.
Arguments tree_child_of {M root parent children rank} HT.

(** ** The k-ary tree over an active set *)

(** All the arithmetic is in [int]; the caller's [long] radix is converted by the call. *)

Definition shmem_internal_build_kary_tree (my_pe radix PE_start stride PE_size PE_root : Z) : Z * list Z :=
  let radix := i32 radix in
  let my_id := cmod (i32 (i32 (cdiv (my_pe - PE_start) stride + PE_size) - PE_root)) PE_size in
  let parent := i32 (PE_start + i32 (cmod (i32 (cdiv (my_id - 1) radix + PE_root)) PE_size * stride)) in
  let children := flat_map (fun i =>
      let tmp := i32 (i32 (radix * my_id) + i) in
      if tmp <? PE_size
      then
        let child_idx := cmod (i32 (PE_root + tmp)) PE_size in
        [i32 (PE_start + i32 (child_idx * stride))]
      else []) (upto 1 (radix + 1)) in
  (parent, children).

(** ** The full k-nomial tree of [shmem_internal_collectives_init] *)

(** One level of the loop [for (i = 1; i <= num_pes; i *= tree_radix)]: the radix
    used at this level ([int tmp_radix], from the [long] radix), the size of a block
    ([tmp_radix * i]) and the root of [my_pe]'s block. *)
Definition level_radix (num_pes radix i : Z) : Z :=
  i32 (if cdiv num_pes i <? radix then i32 (cdiv num_pes i + 1) else radix).
Definition level_block (num_pes radix i : Z) : Z := i32 (level_radix num_pes radix i * i).
Definition level_root (num_pes radix i my_pe : Z) : Z :=
  let b := level_block num_pes radix i in i32 (cdiv my_pe b * b).

(** The children a level contributes, in the order the inner loop meets them. *)
Definition level_children (num_pes radix i my_pe : Z) : list Z :=
  filter (fun c => c < num_pes)
    (map (fun j => i32 (my_pe + i32 (i * j))) (upto 1 (level_radix num_pes radix i))).

(** The counting loop and the filling loop run the same iteration space; both
    return the final [my_root].  [i *= tree_radix] is a [long] product stored in an
    [int].  [None]: a division by zero ([i] or the block size has wrapped to 0), or a
    loop not finished within [fuel] levels. *)
Fixpoint full_tree_loop (fuel : nat) (num_pes radix i my_pe my_root : Z) : option (list Z * Z) :=
  match fuel with
  | O => None
  | S fuel =>
      if i <=? num_pes then
        if (i =? 0) || (level_block num_pes radix i =? 0) then None
        else
          let my_root := level_root num_pes radix i my_pe in
          if negb (my_root =? my_pe) then Some ([], my_root)
          else match full_tree_loop fuel num_pes radix (i32 (wrap_s 64 (i * radix))) my_pe my_root with
               | Some (cs, r) => Some (level_children num_pes radix i my_pe ++ cs, r)
               | None => None
               end
      else Some ([], my_root)
  end.

(** [full_tree_children[k--] = c], from [k = num_children - 1] down: the array the
    filling loop leaves, given the children in the order it meets them. *)
Fixpoint fill_down (k : nat) (visited : list Z) (arr : list Z) : list Z :=
  match visited with
  | [] => arr
  | c :: visited => fill_down (k - 1) visited (<[k := c]> arr)
  end.

(** [full_tree_parent] and [full_tree_children]; [None] as in [full_tree_loop]. *)
Definition full_tree_init (num_pes radix my_pe : Z) : option (Z * list Z) :=
  match full_tree_loop (S (Z.to_nat num_pes)) num_pes radix 1 my_pe 0 with
  | Some (visited, my_root) =>
      let n := length visited in
      Some (my_root, fill_down (n - 1) visited (replicate n 0))
  | None => None
  end.

(** ** The circulator over an active set *)

Definition shmem_internal_circular_iter_next (curr PE_start PE_stride PE_size : Z) : Z :=
  let last := PE_start + PE_stride * (PE_size - 1) in
  let next := curr + PE_stride in
  if next >? last then PE_start else next.

(** [do { visit peer; peer = next peer } while (peer != start_pe)], the visited PEs. *)
Fixpoint circular_loop (fuel : nat) (peer start_pe PE_start PE_stride PE_size : Z) : list Z :=
  match fuel with
  | O => []
  | S fuel =>
      let next := shmem_internal_circular_iter_next peer PE_start PE_stride PE_size in
      peer :: (if next =? start_pe then [] else circular_loop fuel next start_pe PE_start PE_stride PE_size)
  end.

(** The PEs a round-robin collective visits from [my_pe]: its successor first. *)
Definition circular_visit (my_pe PE_start PE_stride PE_size : Z) : list Z :=
  let start_pe := shmem_internal_circular_iter_next my_pe PE_start PE_stride PE_size in
  circular_loop (Z.to_nat PE_size) start_pe start_pe PE_start PE_stride PE_size.

(** ** The k-ary tree is a tree *)

Section kary.
Context (radix PE_start stride PE_size PE_root : Z).
Context (Hradix : 2 <= radix) (Hstride : 1 <= stride) (Hroot : 0 <= PE_root < PE_size).
Context (Hset : 0 <= PE_start /\ PE_start + (PE_size - 1) * stride < 2 ^ 31).
(** No [int] of the construction overflows. *)
Context (Hint : radix * PE_size < 2 ^ 31).

Let mem := active_set PE_start stride PE_size.
Let root := PE_start + PE_root * stride.
Let par pe := (shmem_internal_build_kary_tree pe radix PE_start stride PE_size PE_root).1.
Let chi pe := (shmem_internal_build_kary_tree pe radix PE_start stride PE_size PE_root).2.

Lemma kary_size_bound : PE_size < 2 ^ 30 /\ radix < 2 ^ 31.
Proof. assert (2 * PE_size <= radix * PE_size) by nia. assert (radix * 1 <= radix * PE_size) by nia. lia. Qed.

(** PE numbers and tree indices (the root has index 0) are in bijection. *)
Definition kary_id (pe : Z) : Z := ((pe - PE_start) / stride + PE_size - PE_root) mod PE_size.
Definition kary_pe (id : Z) : Z := PE_start + ((PE_root + id) mod PE_size) * stride.

Lemma kary_id_pe id : 0 <= id < PE_size -> kary_id (kary_pe id) = id.
Proof.
  intros. unfold kary_id, kary_pe.
  replace (PE_start + (PE_root + id) mod PE_size * stride - PE_start)
    with ((PE_root + id) mod PE_size * stride) by lia.
  rewrite Z.div_mul by lia.
  replace ((PE_root + id) mod PE_size + PE_size - PE_root)
    with ((PE_root + id) mod PE_size + (PE_size - PE_root)) by lia.
  rewrite Zplus_mod_idemp_l. replace (PE_root + id + (PE_size - PE_root)) with (id + 1 * PE_size) by lia.
  rewrite Z.mod_add by lia. apply Z.mod_small; lia.
Qed.

Lemma kary_pe_id pe : pe ∈ mem -> kary_pe (kary_id pe) = pe.
Proof.
  intros (i & Hi & ->)%elem_of_active_set. unfold kary_id, kary_pe.
  replace (PE_start + i * stride - PE_start) with (i * stride) by lia.
  rewrite Z.div_mul by lia. rewrite Zplus_mod_idemp_r.
  replace (PE_root + (i + PE_size - PE_root)) with (i + 1 * PE_size) by lia.
  rewrite Z.mod_add by lia. rewrite Z.mod_small by lia. done.
Qed.

Lemma kary_id_bound pe : 0 <= kary_id pe < PE_size.
Proof. apply Z.mod_pos_bound. lia. Qed.

Lemma kary_pe_member id : kary_pe id ∈ mem.
Proof.
  apply elem_of_active_set. eexists; split; [|reflexivity]. apply Z.mod_pos_bound. lia.
Qed.

Lemma kary_id_cmod pe : pe ∈ mem ->
  cmod (i32 (i32 (cdiv (pe - PE_start) stride + PE_size) - PE_root)) PE_size = kary_id pe.
Proof.
  intros (i & Hi & ->)%elem_of_active_set. unfold kary_id.
  replace (PE_start + i * stride - PE_start) with (i * stride) by lia.
  rewrite cdiv_nonneg, Z.div_mul by nia. pose proof kary_size_bound.
  rewrite (i32_id (i + PE_size)) by lia. rewrite i32_id by lia. rewrite cmod_nonneg by lia. done.
Qed.

Lemma kary_pe_i32 k : 0 <= k < PE_size -> i32 (PE_start + i32 (k * stride)) = PE_start + k * stride.
Proof.
  intros. assert (0 <= k * stride <= (PE_size - 1) * stride) by nia.
  rewrite (i32_id (k * stride)) by lia. apply i32_id. lia.
Qed.

(** Within the bound the source's [int] arithmetic is exact. *)
Lemma kary_exact pe : pe ∈ mem ->
  shmem_internal_build_kary_tree pe radix PE_start stride PE_size PE_root =
  (PE_start + cmod (cdiv (kary_id pe - 1) radix + PE_root) PE_size * stride,
   flat_map (fun i => if radix * kary_id pe + i <? PE_size
                      then [kary_pe (radix * kary_id pe + i)] else []) (upto 1 (radix + 1))).
Proof.
  intros Hp. unfold shmem_internal_build_kary_tree. rewrite (kary_id_cmod pe Hp).
  pose proof kary_size_bound. rewrite (i32_id radix) by lia. pose proof (kary_id_bound pe) as Hb. cbv zeta. f_equal.
  - assert (0 <= cdiv (kary_id pe - 1) radix < PE_size) as Hc.
    { unfold cdiv. destruct (decide (kary_id pe = 0)) as [->|].
      - change (0 - 1) with (- (1)). rewrite Z.quot_opp_l, Z.quot_small by lia. lia.
      - rewrite Z.quot_div_nonneg by lia. split; [apply Z.div_pos; lia|].
        apply Z.div_lt_upper_bound; nia. }
    rewrite (i32_id (_ + PE_root)) by lia. apply kary_pe_i32.
    rewrite cmod_nonneg by lia. apply Z.mod_pos_bound. lia.
  - rewrite !flat_map_concat_map. f_equal. apply map_ext_in.
    intros i Hi%list_elem_of_In%elem_of_upto.
    assert (0 <= radix * kary_id pe <= radix * (PE_size - 1)) by nia.
    rewrite (i32_id (radix * _)) by lia. rewrite (i32_id (_ + i)) by lia.
    destruct (_ <? PE_size) eqn:E; [|done]. apply Z.ltb_lt in E.
    rewrite (i32_id (PE_root + _)) by lia. rewrite cmod_nonneg by lia.
    rewrite kary_pe_i32 by (apply Z.mod_pos_bound; lia). done.
Qed.

(** C's [-1 / radix] is 0: the root is its own parent. *)
Definition parent_id (id : Z) : Z := if id =? 0 then 0 else (id - 1) / radix.

Lemma parent_id_bound id : 0 <= id < PE_size -> 0 <= parent_id id < PE_size.
Proof.
  intros. unfold parent_id. case_match eqn:E; [lia|]. apply Z.eqb_neq in E.
  pose proof (Z.div_pos (id - 1) radix). pose proof (Z.div_le_upper_bound (id - 1) radix (id - 1)). nia.
Qed.

Lemma kary_parent pe : pe ∈ mem -> par pe = kary_pe (parent_id (kary_id pe)).
Proof.
  intros H. unfold par. rewrite (kary_exact pe H). simpl fst.
  pose proof (kary_id_bound pe) as Hb. unfold kary_pe, parent_id.
  assert (cdiv (kary_id pe - 1) radix = if kary_id pe =? 0 then 0 else (kary_id pe - 1) / radix) as ->.
  { case_match eqn:E.
    - apply Z.eqb_eq in E. rewrite E. unfold cdiv. change (0 - 1) with (- (1)).
      rewrite Z.quot_opp_l by lia. rewrite Z.quot_small by lia. done.
    - apply Z.eqb_neq in E. apply cdiv_nonneg; lia. }
  pose proof (parent_id_bound _ Hb) as Hp. unfold parent_id in Hp.
  rewrite cmod_nonneg by (destruct (kary_id pe =? 0); lia). f_equal. f_equal. f_equal. lia.
Qed.

Lemma kary_children p c : p ∈ mem -> c ∈ mem ->
  c ∈ chi p <-> radix * kary_id p + 1 <= kary_id c <= radix * kary_id p + radix.
Proof.
  intros Hp Hc. unfold chi. rewrite (kary_exact p Hp). simpl snd.
  pose proof (kary_id_bound p) as Hb. rewrite list_elem_of_In, in_flat_map. split.
  - intros (i & Hi%list_elem_of_In%elem_of_upto & Hin). case_match eqn:E; [|done].
    destruct Hin as [<-|[]]. apply Z.ltb_lt in E.
    rewrite kary_id_pe by nia. lia.
  - intros Hid. pose proof (kary_id_bound c). exists (kary_id c - radix * kary_id p). split.
    + apply list_elem_of_In, elem_of_upto. lia.
    + rewrite Zplus_minus. rewrite (proj2 (Z.ltb_lt _ _)) by lia. left. by apply kary_pe_id.
Qed.

Lemma kary_children_member p c : p ∈ mem -> c ∈ chi p -> c ∈ mem.
Proof.
  intros Hp. unfold chi. rewrite (kary_exact p Hp). simpl snd. rewrite list_elem_of_In, in_flat_map.
  intros (i & Hi%list_elem_of_In%elem_of_upto & Hin). pose proof (kary_id_bound p).
  case_match; [|done]. destruct Hin as [<-|[]]. apply kary_pe_member.
Qed.

Lemma kary_children_nodup p : p ∈ mem -> NoDup (chi p).
Proof.
  intros Hp. unfold chi. rewrite (kary_exact p Hp). simpl snd.
  pose proof (kary_id_bound p) as Hb.
  pose proof (NoDup_upto 1 (radix + 1)) as Hnd.
  assert (Forall (fun i => 1 <= i) (upto 1 (radix + 1))) as HF.
  { apply list.Forall_forall. intros i ?%elem_of_upto. lia. }
  induction (upto 1 (radix + 1)) as [|i l IH]; simpl; [constructor|].
  apply list.NoDup_cons in Hnd as [Hni Hnd]. apply list.Forall_cons in HF as [Hi HF].
  case_match eqn:E; simpl; [|by apply IH]. apply Z.ltb_lt in E. constructor; [|by apply IH].
  rewrite list_elem_of_In, in_flat_map. intros (i' & Hi' & Hin).
  apply list_elem_of_In in Hi'. pose proof (proj1 (list.Forall_forall _ _) HF _ Hi') as Hpos.
  simpl in Hpos. case_match eqn:E'; [|done]. apply Z.ltb_lt in E'. destruct Hin as [Heq|[]].
  apply (f_equal kary_id) in Heq. rewrite !kary_id_pe in Heq by nia. by replace i with i' in Hni by lia.
Qed.

Lemma parent_id_iff c p : 0 <= p -> 0 < c -> parent_id c = p <-> radix * p + 1 <= c <= radix * p + radix.
Proof.
  intros Hp Hc. unfold parent_id. rewrite (proj2 (Z.eqb_neq _ _)) by lia. split.
  - intros <-. pose proof (Z.div_mod (c - 1) radix). pose proof (Z.mod_pos_bound (c - 1) radix). lia.
  - intros H. symmetry. apply (Z.div_unique _ _ _ (c - 1 - radix * p)); lia.
Qed.

Lemma kary_id_root : kary_id root = 0.
Proof.
  unfold kary_id, root. replace (PE_start + PE_root * stride - PE_start) with (PE_root * stride) by lia.
  rewrite Z.div_mul by lia. replace (PE_root + PE_size - PE_root) with PE_size by lia.
  apply Z.mod_same. lia.
Qed.

Lemma kary_id_inj a b : a ∈ mem -> b ∈ mem -> kary_id a = kary_id b -> a = b.
Proof. intros Ha Hb E. rewrite <- (kary_pe_id a Ha), <- (kary_pe_id b Hb). by rewrite E. Qed.

Lemma kary_tree : Tree mem root par chi kary_id.
Proof.
  assert (root ∈ mem) as Hrm by (apply elem_of_active_set; exists PE_root; lia).
  assert (forall c, c ∈ mem -> c <> root <-> 0 < kary_id c) as Hnr.
  { intros c Hc. pose proof (kary_id_bound c). split; intros H'.
    - assert (kary_id c <> 0); [|lia]. rewrite <- kary_id_root. intros ?%kary_id_inj; done.
    - intros ->. rewrite kary_id_root in H'. lia. }
  split.
  - done.
  - rewrite kary_parent, kary_id_root by done. unfold parent_id. simpl.
    rewrite <- kary_id_root. by apply kary_pe_id.
  - intros c Hc. rewrite kary_parent by done. apply kary_pe_member.
  - apply kary_children_member.
  - intros p c Hp Hc. rewrite kary_children, Hnr, kary_parent by done.
    pose proof (kary_id_bound p) as Hbp. pose proof (kary_id_bound c) as Hbc. split.
    + intros H. assert (0 < kary_id c) by nia. split; [done|].
      rewrite (proj2 (parent_id_iff (kary_id c) (kary_id p) ltac:(lia) ltac:(lia)) H). by apply kary_pe_id.
    + intros [Hc0 <-]. apply parent_id_iff; [|done|].
      * apply kary_id_bound.
      * rewrite kary_id_pe; [done|]. by apply parent_id_bound, kary_id_bound.
  - apply kary_children_nodup.
  - intros c Hc Hcr%Hnr; [|done]. rewrite kary_parent by done.
    pose proof (kary_id_bound c) as Hbc. rewrite kary_id_pe by (by apply parent_id_bound).
    unfold parent_id. rewrite (proj2 (Z.eqb_neq _ _)) by lia. split; [apply Z.div_pos; lia|].
    apply Z.div_lt_upper_bound; nia.
Qed.

(** A member at depth [d] has an id of at least [(radix ^ d - 1) / (radix - 1)]. *)
Lemma kary_depth pe : pe ∈ mem ->
  exists d, Nat.iter d par pe = root /\ radix ^ Z.of_nat d <= (radix - 1) * kary_id pe + 1.
Proof.
  remember (Z.to_nat (kary_id pe)) as k eqn:Hk. revert pe Hk.
  induction k as [k IH] using lt_wf_ind. intros pe -> Hpe. pose proof (kary_id_bound pe) as Hb.
  destruct (decide (kary_id pe = 0)) as [E|E].
  - exists 0%nat. split; [|simpl; lia]. rewrite <- (kary_pe_id pe Hpe), E, <- kary_id_root.
    apply kary_pe_id. apply elem_of_active_set. exists PE_root. lia.
  - assert (kary_id (par pe) = (kary_id pe - 1) / radix) as Ep.
    { rewrite (kary_parent pe Hpe), kary_id_pe by (by apply parent_id_bound).
      unfold parent_id. by rewrite (proj2 (Z.eqb_neq _ _)). }
    pose proof (Z.div_mod (kary_id pe - 1) radix ltac:(lia)) as Ed.
    pose proof (Z.mod_pos_bound (kary_id pe - 1) radix ltac:(lia)) as Em. rewrite <- Ep in Ed.
    pose proof (kary_id_bound (par pe)) as Hb'.
    destruct (IH (Z.to_nat (kary_id (par pe))) ltac:(nia) (par pe) eq_refl) as (d & Hd & Hr).
    { rewrite (kary_parent pe Hpe). apply kary_pe_member. }
    exists (S d). split; [by rewrite Nat.iter_succ_r|].
    rewrite Nat2Z.inj_succ, Z.pow_succ_r by lia. nia.
Qed.

(** C24: As long as [radix * PE_size] fits an [int], the k-ary tree of an active set is a
    tree of logarithmic depth: every member reaches
    the root along the parents the members compute, in [d] steps with
    [radix ^ d <= (radix - 1) * (PE_size - 1) + 1], and a member lists exactly those members as its children, once
    each, that compute it as their parent. *)
Theorem kary_tree_structure pe : pe ∈ mem ->
  (exists d, Nat.iter d par pe = root /\ radix ^ Z.of_nat d <= (radix - 1) * (PE_size - 1) + 1) /\
  (forall c, c ∈ chi pe <-> c ∈ mem /\ c <> root /\ par c = pe) /\ NoDup (chi pe).
Proof.
  intros Hp. pose proof (kary_id_bound pe) as Hb. split; [|split].
  - destruct (kary_depth pe Hp) as (d & Hd & Hr). exists d. split; [done|nia].
  - intros c. split.
    + intros Hc. pose proof (kary_children_member pe c Hp Hc). split; [done|].
      by apply (tree_child_iff (Tree:=kary_tree)).
    + intros [Hc H]. by apply (tree_child_iff (Tree:=kary_tree)).
  - by apply kary_children_nodup.
Qed.
End kary.

Lemma kary_tree_structure_witness :
  let par pe := (shmem_internal_build_kary_tree pe 2 3 2 6 1).1 in
  let chi pe := (shmem_internal_build_kary_tree pe 2 3 2 6 1).2 in
  chi 7 = [11; 13] /\ (forall c, c ∈ chi 7 <-> c ∈ active_set 3 2 6 /\ c <> 5 /\ par c = 7).
Proof.
  split; [reflexivity|].
  apply (kary_tree_structure 2 3 2 6 1 ltac:(lia) ltac:(lia) ltac:(lia) ltac:(lia) ltac:(lia) 7).
  apply elem_of_active_set. exists 2. lia.
Defined.

(** ** The full tree is a tree *)

Lemma fill_down_rev visited arr :
  length arr = length visited ->
  fill_down (length visited - 1) visited arr = rev visited.
Proof.
  enough (forall visited k (arr tl : list Z), length arr = length visited -> (k = length visited - 1)%nat ->
    fill_down k visited (arr ++ tl) = rev visited ++ tl) as H.
  { intros E. specialize (H visited _ arr [] E eq_refl). by rewrite !app_nil_r in H. }
  clear. intros visited. induction visited as [|c visited IH]; intros k arr tl E Hk.
  - destruct arr; [done|discriminate].
  - simpl in *. destruct (exists_last (l:=arr)) as (arr' & x & ->); [by intros ->|].
    rewrite length_app in E. simpl in E.
    replace k with (length arr' + 0)%nat by lia.
    rewrite <- app_assoc, insert_app_r. simpl.
    rewrite IH by lia. by rewrite <- app_assoc.
Qed.

(** The loop on unbounded integers, which the source's computes as long as
    [radix * num_pes] fits an [int]. *)
Definition exact_radix (num_pes radix i : Z) : Z :=
  if cdiv num_pes i <? radix then cdiv num_pes i + 1 else radix.
Definition exact_root (num_pes radix i my_pe : Z) : Z :=
  let t := exact_radix num_pes radix i in cdiv my_pe (t * i) * (t * i).
Definition exact_children (num_pes radix i my_pe : Z) : list Z :=
  filter (fun c => c < num_pes) (map (fun j => my_pe + i * j) (upto 1 (exact_radix num_pes radix i))).

Fixpoint exact_loop (fuel : nat) (num_pes radix i my_pe my_root : Z) : list Z * Z :=
  match fuel with
  | O => ([], my_root)
  | S fuel =>
      if i <=? num_pes then
        let my_root := exact_root num_pes radix i my_pe in
        if negb (my_root =? my_pe) then ([], my_root)
        else let '(cs, r) := exact_loop fuel num_pes radix (i * radix) my_pe my_root in
             (exact_children num_pes radix i my_pe ++ cs, r)
      else ([], my_root)
  end.

Section full.
Context (n r : Z) (Hn : 1 <= n) (Hr : 2 <= r) (Hint : r * n < 2 ^ 31).

Local Abbreviation V fuel i p mr := (exact_loop fuel n r i p mr).1.
Local Abbreviation R fuel i p mr := (exact_loop fuel n r i p mr).2.

Lemma loop_unfold fuel i p mr :
  i <= n ->
  exact_loop (S fuel) n r i p mr =
  if exact_root n r i p =? p
  then (exact_children n r i p ++ V fuel (i * r) p p, R fuel (i * r) p p)
  else ([], exact_root n r i p).
Proof.
  intros Hi. cbn [exact_loop]. rewrite (proj2 (Z.leb_le _ _)) by done.
  destruct (exact_root n r i p =? p) eqn:E; simpl; [|done].
  apply Z.eqb_eq in E. rewrite E. by destruct (exact_loop fuel n r (i * r) p p).
Qed.

Lemma loop_stop fuel i p mr : n < i -> exact_loop fuel n r i p mr = ([], mr).
Proof. intros. destruct fuel; simpl; [done|]. rewrite (proj2 (Z.leb_gt _ _)) by lia. done. Qed.

(** Below the last level the radix is the tree radix; at the last level one block covers the job. *)
Lemma level_inner i p : 1 <= i -> i * r <= n -> 0 <= p ->
  exact_radix n r i = r /\ exact_root n r i p = p / (r * i) * (r * i).
Proof.
  intros. assert (exact_radix n r i = r) as E.
  { unfold exact_radix. rewrite cdiv_nonneg by lia. rewrite (proj2 (Z.ltb_ge _ _)); [done|].
    apply Z.div_le_lower_bound; nia. }
  split; [done|]. unfold exact_root. cbv zeta. rewrite E, cdiv_nonneg by nia. done.
Qed.

Lemma level_last i p : 1 <= i <= n -> n < i * r -> 0 <= p < n ->
  exact_radix n r i = n / i + 1 /\ exact_root n r i p = 0.
Proof.
  intros. assert (exact_radix n r i = n / i + 1) as E.
  { unfold exact_radix. rewrite cdiv_nonneg by lia. rewrite (proj2 (Z.ltb_lt _ _)); [done|].
    apply Z.div_lt_upper_bound; nia. }
  split; [done|]. unfold exact_root. cbv zeta. rewrite E.
  pose proof (Z.div_mod n i). pose proof (Z.mod_pos_bound n i). pose proof (Z.div_pos n i).
  rewrite cdiv_nonneg by nia. rewrite Z.div_small by nia. lia.
Qed.

Lemma elem_of_level_children i p c :
  c ∈ exact_children n r i p <-> c < n /\ exists j, 1 <= j < exact_radix n r i /\ c = p + i * j.
Proof.
  unfold exact_children. rewrite list_elem_of_filter. f_equiv.
  rewrite list_elem_of_In, in_map_iff. f_equiv. intros j.
  rewrite <- list_elem_of_In, elem_of_upto. split; intros [H1 H2]; split; try lia; done.
Qed.

Lemma NoDup_level_children i p : 1 <= i -> NoDup (exact_children n r i p).
Proof.
  intros. apply list.NoDup_filter, NoDup_fmap_2_strong; [|apply NoDup_upto]. intros; nia.
Qed.

Lemma fuel_step i fuel : 1 <= i -> n < i * 2 ^ Z.of_nat (S fuel) -> n < i * r * 2 ^ Z.of_nat fuel.
Proof.
  intros Hi H. rewrite Nat2Z.inj_succ, Z.pow_succ_r in H by lia.
  pose proof (Z.pow_pos_nonneg 2 (Z.of_nat fuel)).
  assert (i * 2 * 2 ^ Z.of_nat fuel <= i * r * 2 ^ Z.of_nat fuel); [|lia].
  apply Z.mul_le_mono_nonneg_r; nia.
Qed.

(** Every child and the parent found from level [i] on are multiples of [i]. *)
Lemma loop_divides fuel i p mr :
  1 <= i -> (i | p) -> (n < i -> mr = p) -> 0 <= p < n -> n < i * 2 ^ Z.of_nat fuel ->
  (i | R fuel i p mr) /\ (forall c, c ∈ V fuel i p mr -> (i | c)).
Proof.
  revert i p mr. induction fuel as [|fuel IH]; intros i p mr Hi Hd Hmr Hp Hf.
  - simpl. rewrite Hmr by lia. split; [done|]. intros c ?%elem_of_nil. done.
  - destruct (decide (i <= n)) as [Hin|Hin].
    2:{ rewrite loop_stop by lia. simpl. rewrite Hmr by lia. split; [done|]. intros c ?%elem_of_nil; done. }
    rewrite loop_unfold by done.
    assert ((i | exact_root n r i p)) as Hlr.
    { unfold exact_root. cbv zeta. apply Z.divide_mul_r, Z.divide_factor_r. }
    destruct (exact_root n r i p =? p) eqn:E; simpl.
    2:{ split; [done|]. intros c ?%elem_of_nil; done. }
    apply Z.eqb_eq in E.
    assert ((i * r | p)) as Hd'.
    { destruct (decide (i * r <= n)).
      - destruct (level_inner i p) as [_ E']; [lia..|]. rewrite E' in E. exists (p / (r * i)). lia.
      - destruct (level_last i p) as [_ E']; [lia..|]. exists 0. lia. }
    destruct (IH (i * r) p p) as [H1 H2]; [nia|done|done|done|by apply fuel_step|].
    assert ((i | i * r)) by apply Z.divide_factor_l. split.
    + by eapply Z.divide_trans.
    + intros c [Hc|Hc]%elem_of_app.
      * apply elem_of_level_children in Hc as (_ & j & _ & ->).
        apply Z.divide_add_r; [done|]. apply Z.divide_factor_l.
      * eapply Z.divide_trans; eauto.
Qed.

Lemma inner_block i c p : 1 <= i -> (i | c) -> (r * i | p) ->
  c / (r * i) * (r * i) = p <-> c = p \/ exists j, 1 <= j < r /\ c = p + i * j.
Proof.
  intros Hi [k ->] [q ->]. rewrite Z.div_mul_cancel_r by lia.
  pose proof (Z.div_mod k r). pose proof (Z.mod_pos_bound k r). split.
  - intros E. apply Z.mul_cancel_r in E; [|nia].
    destruct (decide (k mod r = 0)); [left; nia|right; exists (k mod r); nia].
  - intros [E|(j & Hj & E)].
    + assert (k = q * r) by (apply (Z.mul_cancel_r _ _ i); lia). subst k. rewrite Z.div_mul by lia. lia.
    + assert (k = q * r + j) by (apply (Z.mul_cancel_r _ _ i); lia). subst k. rewrite Z.div_add_l, Z.div_small by lia. lia.
Qed.

(** [c] is in [p]'s children list exactly when [c] computes [p] as its parent. *)
Lemma loop_child_iff fuel i p c mp mc :
  1 <= i -> (i | p) -> (i | c) -> (n < i -> mp = p) -> (n < i -> mc = c) ->
  0 <= p < n -> 0 <= c < n -> n < i * 2 ^ Z.of_nat fuel ->
  c ∈ V fuel i p mp <-> c <> p /\ R fuel i c mc = p.
Proof.
  revert i mp mc. induction fuel as [|fuel IH]; intros i mp mc Hi Hdp Hdc Hmp Hmc Hp Hc Hf.
  { simpl in *. rewrite Hmc by lia. split; [intros ?%elem_of_nil; done|]. intros [H1 H2]. done. }
  destruct (decide (i <= n)) as [Hin|Hin].
  2:{ rewrite !loop_stop by lia. simpl. rewrite Hmc by lia.
      split; [intros ?%elem_of_nil; done|]. intros [H1 H2]. done. }
  rewrite !loop_unfold by done. destruct (decide (i * r <= n)) as [Hir|Hir].
  - destruct (level_inner i p) as [Et ->]; [lia..|]. destruct (level_inner i c) as [_ ->]; [lia..|].
    pose proof (fuel_step i fuel Hi Hf) as Hf'.
    assert (forall x, x / (r * i) * (r * i) = x -> (i * r | x)) as Hmul.
    { intros x <-. rewrite (Z.mul_comm r i). apply Z.divide_factor_r. }
    assert ((r * i | c / (r * i) * (r * i))) as Hdiv by apply Z.divide_factor_r.
    destruct (p / (r * i) * (r * i) =? p) eqn:Ep; simpl.
    + apply Z.eqb_eq, Hmul in Ep. assert ((r * i | p)) as Ep' by (by rewrite Z.mul_comm).
      pose proof (inner_block i c p Hi Hdc Ep') as Hblk.
      rewrite elem_of_app, elem_of_level_children, Et.
      destruct (c / (r * i) * (r * i) =? c) eqn:Ec; simpl.
      * pose proof Ec as Ec2. apply Z.eqb_eq in Ec2. apply Z.eqb_eq, Hmul in Ec.
        rewrite <- (IH (i * r) p c) by (done || nia). split; [|tauto].
        intros [(_ & j & Hj & ->)|H]; [|done]. exfalso. destruct Ec as [a Ea], Ep as [b Eb].
        assert (j = (a - b) * r) by (apply (Z.mul_cancel_r _ _ i); lia).
        destruct (decide (a - b <= 0)); nia.
      * apply Z.eqb_neq in Ec. rewrite Hblk. split.
        -- intros [(_ & j & Hj & ->)|H]; [split; [nia|eauto]|].
           destruct (loop_divides fuel (i * r) p p) as [_ H2]; [nia|done|done|done|done|].
           exfalso. apply Ec. apply H2 in H as [a ->]. rewrite (Z.mul_comm i r), Z.div_mul by nia. done.
        -- intros [Hne [?|Hj]]; [done|]. left. split; [lia|done].
    + apply Z.eqb_neq in Ep. split; [intros ?%elem_of_nil; done|]. intros [Hne HR]. exfalso. apply Ep.
      assert ((i * r | p)) as [a ->].
      { destruct (c / (r * i) * (r * i) =? c) eqn:Ec; simpl in HR; rewrite <- HR.
        - apply Z.eqb_eq, Hmul in Ec. apply loop_divides; done || nia.
        - by rewrite Z.mul_comm. }
      rewrite (Z.mul_comm i r), Z.div_mul by nia. done.
  - destruct (level_last i p) as [Et ->]; [lia..|]. destruct (level_last i c) as [_ ->]; [lia..|].
    rewrite !(loop_stop fuel (i * r)) by lia. cbn [fst snd]. rewrite app_nil_r.
    rewrite (Z.eqb_sym 0 p), (Z.eqb_sym 0 c).
    destruct (c =? 0) eqn:E0, (p =? 0) eqn:Ep; cbn [fst snd];
      rewrite ?Z.eqb_eq, ?Z.eqb_neq in E0, Ep; subst;
      rewrite ?elem_of_level_children, ?elem_of_nil, ?Et; try lia.
    + split; [intros (_ & j & Hj & E); nia|lia].
    + destruct Hdc as [k ->]. split; [lia|]. intros [Hne _]. split; [lia|]. exists k. split; [|lia].
      assert (k <= n / i); [apply Z.div_le_lower_bound; lia|nia].
Qed.

(** The parent is found below, and every non-root PE has one. *)
Lemma loop_parent_lt fuel i c mc :
  1 <= i -> (i | c) -> (n < i -> mc = c) -> 0 <= c < n -> n < i * 2 ^ Z.of_nat fuel ->
  0 <= R fuel i c mc /\ (0 < c -> R fuel i c mc < c) /\ (c = 0 -> R fuel i c mc = 0).
Proof.
  revert i mc. induction fuel as [|fuel IH]; intros i mc Hi Hd Hmc Hc Hf.
  { simpl in *. rewrite Hmc by lia. split; [lia|]. split; [|done].
    intros. assert (i <= c) by (apply Z.divide_pos_le; [lia|done]). lia. }
  destruct (decide (i <= n)) as [Hin|Hin].
  2:{ rewrite loop_stop by lia. simpl. rewrite Hmc by lia. split; [lia|]. split; [|done].
      intros. assert (i <= c) by (apply Z.divide_pos_le; [lia|done]). lia. }
  rewrite loop_unfold by done. destruct (decide (i * r <= n)) as [Hir|Hir].
  - destruct (level_inner i c) as [_ ->]; [lia..|].
    pose proof (Z.div_mod c (r * i)). pose proof (Z.mod_pos_bound c (r * i)).
    pose proof (Z.div_pos c (r * i)).
    destruct (c / (r * i) * (r * i) =? c) eqn:Ec; cbn [snd].
    + apply Z.eqb_eq in Ec. apply IH; [nia| |nia|done|by apply fuel_step].
      rewrite <- Ec, (Z.mul_comm i r). apply Z.divide_factor_r.
    + apply Z.eqb_neq in Ec. split; [nia|]. split; [nia|]. intros ->. by rewrite Z.div_0_l in Ec by nia.
  - destruct (level_last i c) as [_ ->]; [lia..|]. rewrite (loop_stop fuel (i * r)) by lia.
    destruct (0 =? c) eqn:Ec; cbn [snd]; lia.
Qed.

Lemma loop_nodup fuel i p mp :
  1 <= i -> (i | p) -> (n < i -> mp = p) -> 0 <= p < n -> n < i * 2 ^ Z.of_nat fuel ->
  NoDup (V fuel i p mp) /\ (forall c, c ∈ V fuel i p mp -> 0 <= c < n).
Proof.
  revert i mp. induction fuel as [|fuel IH]; intros i mp Hi Hd Hmp Hp Hf.
  { split; [constructor|]. intros c ?%elem_of_nil; done. }
  destruct (decide (i <= n)) as [Hin|Hin].
  2:{ rewrite loop_stop by lia. split; [constructor|]. intros c ?%elem_of_nil; done. }
  rewrite loop_unfold by done.
  destruct (exact_root n r i p =? p) eqn:E; cbn [fst].
  2:{ split; [constructor|]. intros c ?%elem_of_nil; done. }
  assert (forall c, c ∈ exact_children n r i p -> 0 <= c < n) as Hlc.
  { intros c (Hlt & j & Hj & ->)%elem_of_level_children. nia. }
  destruct (decide (i * r <= n)) as [Hir|Hir].
  - apply Z.eqb_eq in E. destruct (level_inner i p) as [Et E']; [lia..|]. rewrite E' in E.
    assert ((i * r | p)) as Hd' by (rewrite <- E, (Z.mul_comm i r); apply Z.divide_factor_r).
    destruct (IH (i * r) p) as [H1 H2]; [nia|done|nia|done|by apply fuel_step|].
    split; [|intros c [?|?]%elem_of_app; eauto].
    apply list.NoDup_app. split; [by apply NoDup_level_children|]. split; [|done].
    intros c (Hlt & j & Hj & ->)%elem_of_level_children Hc.
    destruct (loop_divides fuel (i * r) p p) as [_ H3]; [nia|done|nia|done|by apply fuel_step|].
    apply H3 in Hc as [a Ha]. destruct Hd' as [b Hb]. rewrite Et in Hj.
    assert (j = (a - b) * r) by (apply (Z.mul_cancel_r _ _ i); lia).
    destruct (decide (a - b <= 0)); nia.
  - rewrite loop_stop by lia. cbn [fst]. rewrite app_nil_r. by split; [apply NoDup_level_children|].
Qed.

Lemma fuel_enough : n < 1 * 2 ^ Z.of_nat (Z.to_nat n).
Proof. rewrite Z2Nat.id by lia. pose proof (Z.pow_gt_lin_r 2 n). lia. Qed.

(** Within the bound no [int] of a level overflows. *)
Lemma level_exact i p : 1 <= i <= n -> 0 <= p < n ->
  level_radix n r i = exact_radix n r i /\ 0 < level_block n r i /\
  level_root n r i p = exact_root n r i p /\ level_children n r i p = exact_children n r i p.
Proof.
  intros Hi Hp. assert (r * 1 <= r * n) as Hrn by (apply Z.mul_le_mono_nonneg_l; lia).
  assert (2 * n <= r * n) as H2n by (apply Z.mul_le_mono_nonneg_r; lia).
  assert (1 <= n / i <= n /\ i * (n / i) <= n) as (Hq & Hqi).
  { pose proof (Z.mul_div_le n i). split; [|lia]. split; [apply Z.div_le_lower_bound; lia|].
    apply Z.div_le_upper_bound; nia. }
  assert (1 <= exact_radix n r i /\ exact_radix n r i * i <= r * n /\ i * (exact_radix n r i - 1) <= n) as (Ht & Hti & Hj).
  { unfold exact_radix. rewrite cdiv_nonneg by lia. destruct (n / i <? r) eqn:E.
    - nia.
    - apply Z.ltb_ge in E. split; [lia|]. split; [nia|].
      assert (i * r <= i * (n / i)) by (apply Z.mul_le_mono_nonneg_l; lia). lia. }
  assert (level_radix n r i = exact_radix n r i) as Et.
  { unfold level_radix. revert Ht Hti. unfold exact_radix. rewrite cdiv_nonneg by lia.
    rewrite (i32_id (n / i + 1)) by lia. intros. apply i32_id. destruct (n / i <? r); lia. }
  assert (level_block n r i = exact_radix n r i * i) as Eb.
  { unfold level_block. rewrite Et. apply i32_id. nia. }
  split; [done|]. rewrite Eb. split; [nia|]. split.
  - unfold level_root, exact_root. rewrite Eb. cbv zeta. apply i32_id. rewrite cdiv_nonneg by nia.
    pose proof (Z.mul_div_le p (exact_radix n r i * i) ltac:(nia)).
    pose proof (Z.div_pos p (exact_radix n r i * i)). nia.
  - unfold level_children, exact_children. rewrite Et. f_equal. apply map_ext_in.
    intros j Hjr%list_elem_of_In%elem_of_upto.
    assert (0 <= i * j <= i * (exact_radix n r i - 1)) by nia.
    rewrite (i32_id (i * j)) by lia. apply i32_id. lia.
Qed.

Lemma loop_exact fuel i p mr : 1 <= i -> 0 <= p < n -> n < i * 2 ^ Z.of_nat fuel -> i <= r * n ->
  full_tree_loop (S fuel) n r i p mr = Some (exact_loop fuel n r i p mr).
Proof.
  revert i mr. induction fuel as [|fuel IH]; intros i mr Hi Hp Hf Hle.
  - cbn [full_tree_loop]. rewrite (proj2 (Z.leb_gt _ _)) by lia. done.
  - destruct (decide (i <= n)) as [Hin|Hin].
    2:{ rewrite loop_stop by lia. cbn [full_tree_loop]. by rewrite (proj2 (Z.leb_gt _ _)) by lia. }
    destruct (level_exact i p ltac:(lia) Hp) as (_ & Hb & Er & Ec).
    rewrite loop_unfold by done. remember (S fuel) as f eqn:Ef. cbn [full_tree_loop].
    rewrite (proj2 (Z.leb_le _ _)), (proj2 (Z.eqb_neq i 0)), (proj2 (Z.eqb_neq _ 0)) by lia. cbn [orb].
    rewrite Er, Ec. destruct (exact_root n r i p =? p) eqn:E; cbn [negb]; [|done].
    apply Z.eqb_eq in E. rewrite E. assert (1 <= i * r <= r * n) by nia.
    rewrite (wrap_s_id 64), i32_id by (change (2 ^ (64 - 1)) with (2 ^ 63); lia).
    subst f. rewrite IH by (lia || by apply fuel_step).
    by destruct (exact_loop fuel n r (i * r) p p).
Qed.

Lemma full_tree_init_eq p : 0 <= p < n ->
  full_tree_init n r p = Some (R (Z.to_nat n) 1 p 0, rev (V (Z.to_nat n) 1 p 0)).
Proof.
  intros Hp. unfold full_tree_init. rewrite loop_exact by (nia || apply fuel_enough).
  destruct (exact_loop _ _ _ _ _ _) as [vis mr]. simpl.
  by rewrite fill_down_rev by apply length_replicate.
Qed.

(** The tree the PEs of the job compute, [(0, [])] where a PE computes none. *)
Definition full_tree (pe : Z) : Z * list Z := default (0, []) (full_tree_init n r pe).

Lemma full_tree_eq p : 0 <= p < n -> full_tree p = (R (Z.to_nat n) 1 p 0, rev (V (Z.to_nat n) 1 p 0)).
Proof. intros Hp. unfold full_tree. by rewrite full_tree_init_eq. Qed.

Lemma full_tree_is_tree :
  Tree (active_set 0 1 n) 0 (fun pe => (full_tree pe).1) (fun pe => (full_tree pe).2) (fun pe => pe).
Proof.
  assert (forall pe, pe ∈ active_set 0 1 n <-> 0 <= pe < n) as Hmem.
  { intros pe. rewrite elem_of_active_set. split; [intros (i & ? & ->); lia|exists pe; lia]. }
  pose proof fuel_enough as Hf. pose proof Z.divide_1_l as Hd.
  split; intros *; rewrite ?Hmem.
  - lia.
  - rewrite full_tree_eq by lia. cbn [fst].
    destruct (loop_parent_lt (Z.to_nat n) 1 0 0) as (H1 & H2 & H3); lia || auto.
  - intros Hc. rewrite full_tree_eq by done. cbn [fst].
    destruct (loop_parent_lt (Z.to_nat n) 1 c 0) as (H1 & H2 & H3); lia || done.
  - intros Hp. rewrite full_tree_eq by done. cbn [snd]. rewrite list_elem_of_In, <- in_rev, <- list_elem_of_In.
    apply (loop_nodup (Z.to_nat n) 1 p 0); lia || done.
  - intros Hp Hc. rewrite !full_tree_eq by done. cbn [fst snd].
    rewrite list_elem_of_In, <- in_rev, <- list_elem_of_In.
    rewrite (loop_child_iff _ _ _ _ 0 0) by (lia || done).
    destruct (loop_parent_lt (Z.to_nat n) 1 c 0) as (H1 & H2 & H3); lia || done.
  - intros Hp. rewrite full_tree_eq by done. cbn [snd].
    apply NoDup_ListNoDup, NoDup_rev, NoDup_ListNoDup. apply loop_nodup; try (lia || done).
  - intros Hc Hne. rewrite full_tree_eq by done. cbn [fst].
    destruct (loop_parent_lt (Z.to_nat n) 1 c 0) as (H1 & H2 & H3); lia || done.
Qed.

(** C23: As long as [radix * num_pes] fits an [int], the loops that build the full tree end
    without a division by zero on every PE, and what they compute is a tree over all PEs
    rooted at 0: every PE reaches PE 0 along the parents the PEs compute for themselves,
    each parent is a lower PE, and a PE's array of children holds, once each, exactly the
    PEs that compute it as their parent. *)
Theorem full_tree_structure : exists parent children,
  (forall pe, 0 <= pe < n -> full_tree_init n r pe = Some (parent pe, children pe)) /\
  forall pe, 0 <= pe < n ->
    (exists d, Nat.iter d parent pe = 0) /\
    (pe <> 0 -> 0 <= parent pe < pe) /\
    (forall c, c ∈ children pe <-> 0 < c < n /\ parent c = pe) /\ NoDup (children pe).
Proof.
  exists (fun pe => (full_tree pe).1), (fun pe => (full_tree pe).2). split.
  { intros pe Hp. rewrite full_tree_eq by done. by apply full_tree_init_eq. }
  intros pe Hp. pose proof full_tree_is_tree as HT.
  assert (forall q, q ∈ active_set 0 1 n <-> 0 <= q < n) as Hm.
  { intros q. rewrite elem_of_active_set. split; [intros (i & ? & ->); lia|exists q; lia]. }
  assert (pe ∈ active_set 0 1 n) as Hpe by (by apply Hm). split; [|split; [|split]].
  - by apply (tree_ancestor _ _ _ _ _ HT).
  - intros Hne. by apply (tree_rank (Tree:=HT)).
  - intros c. split.
    + intros Hc. pose proof (tree_child_member (Tree:=HT) pe c Hpe Hc) as Hcm.
      apply (tree_child_iff (Tree:=HT)) in Hc as [Hc0 <-]; [|done|done]. apply Hm in Hcm. split; [lia|done].
    + intros [Hc <-]. apply (tree_child_iff (Tree:=HT)); [done|apply Hm; lia|split; [lia|done]].
  - by apply (tree_children_nodup (Tree:=HT)).
Qed.
End full.

Lemma full_tree_structure_witness : exists parent children,
  (forall pe, 0 <= pe < 10 -> full_tree_init 10 3 pe = Some (parent pe, children pe)) /\
  children 0 = [9; 6; 3; 2; 1] /\ (forall c, c ∈ children 0 <-> 0 < c < 10 /\ parent c = 0).
Proof.
  destruct (full_tree_structure 10 3 ltac:(lia) ltac:(lia) ltac:(lia)) as (parent & children & H & Ht).
  exists parent, children. split; [exact H|]. split.
  - pose proof (H 0 ltac:(lia)) as E. vm_compute in E. by simplify_eq.
  - apply (Ht 0). lia.
Defined.

(** The radix is not validated: with 65536 the level counter wraps to 0 on a job of more
    than 65536 PEs and the next level divides by it; with 60000, PE 39999 of a job
    of 60000, which has no children, computes a list of negative PE numbers. *)
Lemma full_tree_traps : full_tree_init 65537 65536 0 = None.
Proof. reflexivity. Qed.

Lemma kary_tree_overflow :
  (shmem_internal_build_kary_tree 39999 60000 0 1 60000 0).1 = 0 /\
  -47295 ∈ (shmem_internal_build_kary_tree 39999 60000 0 1 60000 0).2.
Proof.
  split; [reflexivity|]. apply list_elem_of_In. apply in_flat_map. exists 1. split.
  - apply list_elem_of_In, elem_of_upto. change (i32 60000) with 60000. lia.
  - vm_compute. by left.
Qed.

(** ** The circulator visits every member once *)

Lemma circular_iter_next_index i start stride size :
  1 <= stride -> 0 <= i < size ->
  shmem_internal_circular_iter_next (start + i * stride) start stride size =
  start + ((i + 1) mod size) * stride.
Proof.
  intros Hs Hi. unfold shmem_internal_circular_iter_next. rewrite Z.gtb_ltb.
  destruct (decide (i + 1 = size)) as [E|].
  - rewrite (proj2 (Z.ltb_lt _ _)) by nia. rewrite E, Z.mod_same by lia. lia.
  - rewrite (proj2 (Z.ltb_ge _ _)) by nia. rewrite Z.mod_small by lia. lia.
Qed.

Lemma circular_loop_indices fuel i k start stride size :
  1 <= stride -> 0 <= i < size -> Z.of_nat fuel = size - k -> 0 <= k < size ->
  circular_loop fuel (start + ((i + k) mod size) * stride) (start + i * stride) start stride size =
  map (fun d => start + ((i + d) mod size) * stride) (zrange k fuel).
Proof.
  intros Hs Hi. revert k. induction fuel as [|fuel IH]; intros k Hf Hk; [lia|].
  pose proof (Z.mod_pos_bound (i + k) size).
  unfold zrange. simpl. rewrite circular_iter_next_index by lia.
  rewrite Zplus_mod_idemp_l, <- Z.add_assoc. f_equal; [by rewrite Z.add_0_r|].
  rewrite <- seq_shift, !map_map.
  destruct (start + (i + (k + 1)) mod size * stride =? start + i * stride) eqn:E.
  - apply Z.eqb_eq in E.
    assert ((i + (k + 1)) mod size = i) as E' by nia.
    assert (fuel = 0%nat) as ->; [|done].
    destruct (decide (k + 1 = size)); [lia|]. exfalso.
    destruct (decide (i + (k + 1) < size)).
    + rewrite Z.mod_small in E' by lia. lia.
    + replace (i + (k + 1)) with (i + (k + 1) - size + 1 * size) in E' by lia.
      rewrite Z.mod_add, Z.mod_small in E' by lia. lia.
  - apply Z.eqb_neq in E. destruct fuel as [|fuel'].
    + done.
    + rewrite IH by (rewrite ?Nat2Z.inj_succ in *; nia || lia).
      unfold zrange. rewrite map_map. apply map_ext. intros d. do 3 f_equal. lia.
Qed.

