(* ===== verification/CollInit.v ===== *)
(** * Initialization of the collectives ([shmem_internal_collectives_init])

    The parameters read from the environment, the algorithm strings, the two barrier
    pSyncs of the job and the full communication tree.  [malloc] and the symmetric
    [shmem_internal_shmalloc] are parameters: they answer an address or NULL. *)

From stdpp Require Import strings.
From S2P Require Import Prelude Internal Tree.
Local Open Scope Z_scope.

(** The collective parameters; an algorithm is [Some s] when the variable was provided. *)
Record coll_params := CollParams {
  p_COLL_CROSSOVER : Z;
  p_COLL_SIZE_CROSSOVER : Z;
  p_COLL_RADIX : Z;
  p_BARRIER_ALGORITHM : option string;
  p_BCAST_ALGORITHM : option string;
  p_REDUCE_ALGORITHM : option string;
  p_COLLECT_ALGORITHM : option string;
  p_FCOLLECT_ALGORITHM : option string }.

(** ** Algorithm names *)

Definition barrier_type_of (type : string) : option coll_type_t :=
  if String.eqb type "auto" then Some AUTO
  else if String.eqb type "linear" then Some LINEAR
  else if String.eqb type "tree" then Some TREE
  else if String.eqb type "dissem" then Some DISSEM
  else None.

Definition bcast_type_of (type : string) : option coll_type_t :=
  if String.eqb type "auto" then Some AUTO
  else if String.eqb type "linear" then Some LINEAR
  else if String.eqb type "tree" then Some TREE
  else None.

Definition reduce_type_of (type : string) : option coll_type_t :=
  if String.eqb type "auto" then Some AUTO
  else if String.eqb type "linear" then Some LINEAR
  else if String.eqb type "ring" then Some RING
  else if String.eqb type "tree" then Some TREE
  else if String.eqb type "recdbl" then Some RECDBL
  else None.

Definition collect_type_of (type : string) : option coll_type_t :=
  if String.eqb type "auto" then Some AUTO
  else if String.eqb type "linear" then Some LINEAR
  else None.

Definition fcollect_type_of (type : string) : option coll_type_t :=
  if String.eqb type "auto" then Some AUTO
  else if String.eqb type "linear" then Some LINEAR
  else if String.eqb type "tree" then Some TREE
  else if String.eqb type "ring" then Some RING
  else if String.eqb type "recdbl" then Some RECDBL
  else None.

(** A provided name selects an algorithm; a bad one is ignored (with a warning) and
    leaves the global at its initial value [AUTO]. *)
Definition select (of_string : string -> option coll_type_t) (provided : option string) : coll_type_t :=
  match provided with
  | Some type => default AUTO (of_string type)
  | None => AUTO
  end.

(** Whether a warning is raised for a provided name. *)
Definition warns (of_string : string -> option coll_type_t) (provided : option string) : bool :=
  match provided with
  | Some type => match of_string type with Some _ => false | None => true end
  | None => false
  end.

(** ** The globals after initialization

    Where the loops of the full tree do not end or trap ([full_tree_init] is [None]) the
    call does not return: [shmem_internal_collectives_init] below says so, and the two
    fields of the tree here are then without meaning. *)

Definition coll_env (params : coll_params) (num_pes my_pe : Z) : env :=
  let '(parent, children) := default (0, []) (full_tree_init num_pes (p_COLL_RADIX params) my_pe) in
  {| shmem_internal_my_pe := my_pe;
     shmem_internal_num_pes := num_pes;
     tree_radix := p_COLL_RADIX params;
     COLL_CROSSOVER := p_COLL_CROSSOVER params;
     COLL_SIZE_CROSSOVER := p_COLL_SIZE_CROSSOVER params;
     shmem_internal_barrier_type := select barrier_type_of (p_BARRIER_ALGORITHM params);
     shmem_internal_bcast_type := select bcast_type_of (p_BCAST_ALGORITHM params);
     shmem_internal_reduce_type := select reduce_type_of (p_REDUCE_ALGORITHM params);
     shmem_internal_collect_type := select collect_type_of (p_COLLECT_ALGORITHM params);
     shmem_internal_fcollect_type := select fcollect_type_of (p_FCOLLECT_ALGORITHM params);
     full_tree_parent := parent;
     full_tree_children := children |}.

(** An active set of an initialized job: what the callers of a collective guarantee.  The
    radix is the user's and is not checked by the code; the loops that build the trees
    need the bounds of [ok_radix], without which they trap, do not end or overflow
    ([full_tree_traps], [kary_tree_overflow]). *)
Record active_set_ok (params : coll_params) (num_pes start stride size : Z) : Prop := {
  ok_radix : 2 <= p_COLL_RADIX params /\ p_COLL_RADIX params * num_pes < 2 ^ 31;
  ok_num : 1 <= num_pes < 2 ^ 31;
  ok_stride : 1 <= stride;
  ok_size : 1 <= size <= num_pes;
  ok_set : 0 <= start /\ start + (size - 1) * stride < num_pes }.

Lemma active_set_small params num_pes start stride size :
  active_set_ok params num_pes start stride size -> num_pes < 2 ^ 30.
Proof. intros [[H1 H2] H3 _ _ _]. assert (2 * num_pes <= p_COLL_RADIX params * num_pes) by nia. lia. Qed.

(** Writing [SHMEM_SYNC_VALUE] to the [n] longs of a pSync. *)
Definition init_psync (addr n : Z) (m : Z -> Z) : Z -> Z :=
  fold_left (fun m i => <[addr + SIZEOF_LONG * i := SHMEM_SYNC_VALUE]> m) (upto 0 n) m.

(** The result of the call: the globals and the addresses of the two barrier pSyncs;
    [InitError] is the return of -1.  [InitTrap]: the loops that build the full tree
    divide by zero or do not end, as [full_tree_init] finds them to. *)
Inductive init_result :=
| InitDone (e : env) (barrier_all_psync sync_all_psync : Z) (m : Z -> Z)
| InitError
| InitTrap.

Section init.
Context (malloc : Z -> option Z) (shmem_internal_shmalloc : Z -> (Z -> Z) -> option Z).

Definition shmem_internal_collectives_init (params : coll_params) (num_pes my_pe : Z) (m : Z -> Z) : init_result :=
  match shmem_internal_shmalloc (SIZEOF_LONG * SHMEM_BARRIER_SYNC_SIZE) m with
  | None => InitError
  | Some barrier_all =>
      let m := init_psync barrier_all SHMEM_BARRIER_SYNC_SIZE m in
      match shmem_internal_shmalloc (SIZEOF_LONG * SHMEM_BARRIER_SYNC_SIZE) m with
      | None => InitError
      | Some sync_all =>
          let m := init_psync sync_all SHMEM_BARRIER_SYNC_SIZE m in
          match full_tree_init num_pes (p_COLL_RADIX params) my_pe with
          | None => InitTrap
          | Some (_, children) =>
              match malloc (SIZEOF_INT * Z.of_nat (length children)) with
              | None => InitError
              | Some _ => InitDone (coll_env params num_pes my_pe) barrier_all sync_all m
              end
          end
      end
  end.
End init.
