(* ===== verification/CollSync.v ===== *)
(** * Barriers and synchronization ([collectives.c], [shmem_collectives.h])

    The three synchronization algorithms, the dispatch of [shmem_internal_sync]
    and the barriers built on it. *)

From S2P Require Import Prelude Machine Straight Internal ReduceOp Comm Tree.
Local Open Scope Z_scope.
Local Open Scope prog_scope.

Definition shmem_internal_sync_linear (e : env) (PE_start PE_stride PE_size pSync : Z) : prog unit :=
  let my_pe := shmem_internal_my_pe e in
  if PE_start =? my_pe then
    (* wait for N - 1 callins up the tree *)
    SHMEM_WAIT_UNTIL pSync SHMEM_CMP_EQ (PE_size - 1) ;;
    (* Clear pSync *)
    shmem_internal_put_scalar pSync 0 my_pe ;;
    SHMEM_WAIT_UNTIL pSync SHMEM_CMP_EQ 0 ;;
    (* Send acks down psync tree *)
    for_ (pe_loop (PE_start + PE_stride) PE_stride (Z.to_nat (PE_size - 1)))
         (fun pe => shmem_internal_put_scalar pSync 1 pe)
  else
    (* send message to root *)
    shmem_internal_atomic pSync 1 PE_start (long_calc SHM_INTERNAL_SUM) ;;
    (* wait for ack down psync tree *)
    SHMEM_WAIT pSync 0 ;;
    (* Clear pSync *)
    shmem_internal_put_scalar pSync 0 my_pe ;;
    SHMEM_WAIT_UNTIL pSync SHMEM_CMP_EQ 0.

(** Parent and children of this PE: the full tree when the set is the whole job
    and (for rooted operations) the root is 0, a k-ary tree otherwise. *)
Definition coll_tree (e : env) (full : bool) (PE_start PE_stride PE_size PE_root : Z) : Z * list Z :=
  if full then (full_tree_parent e, full_tree_children e)
  else shmem_internal_build_kary_tree (shmem_internal_my_pe e) (tree_radix e) PE_start PE_stride PE_size PE_root.

(** The body of [sync_tree] once the tree is known. *)
Definition sync_tree_body (my_pe parent : Z) (children : list Z) (pSync : Z) : prog unit :=
  let num_children := Z.of_nat (length children) in
  if negb (num_children =? 0) then
    (* Not a pure leaf node: wait for num_children callins up the tree *)
    SHMEM_WAIT_UNTIL pSync SHMEM_CMP_EQ num_children ;;
    if parent =? my_pe then
      (* The root of the tree: clear pSync, send acks down to children *)
      shmem_internal_put_scalar pSync 0 my_pe ;;
      SHMEM_WAIT_UNTIL pSync SHMEM_CMP_EQ 0 ;;
      for_ children (fun c => shmem_internal_atomic pSync 1 c (long_calc SHM_INTERNAL_SUM))
    else
      (* Middle of the tree: send ack to parent, wait for ack from parent *)
      shmem_internal_atomic pSync 1 parent (long_calc SHM_INTERNAL_SUM) ;;
      SHMEM_WAIT_UNTIL pSync SHMEM_CMP_EQ (num_children + 1) ;;
      (* Clear pSync *)
      shmem_internal_put_scalar pSync 0 my_pe ;;
      SHMEM_WAIT_UNTIL pSync SHMEM_CMP_EQ 0 ;;
      (* Send acks down to children *)
      for_ children (fun c => shmem_internal_atomic pSync 1 c (long_calc SHM_INTERNAL_SUM))
  else
    (* Leaf node: send message up psync tree, wait for ack down psync tree *)
    shmem_internal_atomic pSync 1 parent (long_calc SHM_INTERNAL_SUM) ;;
    SHMEM_WAIT pSync 0 ;;
    (* Clear pSync *)
    shmem_internal_put_scalar pSync 0 my_pe ;;
    SHMEM_WAIT_UNTIL pSync SHMEM_CMP_EQ 0.

Definition shmem_internal_sync_tree (e : env) (PE_start PE_stride PE_size pSync : Z) : prog unit :=
  let '(parent, children) :=
    coll_tree e (PE_size =? shmem_internal_num_pes e) PE_start PE_stride PE_size 0 in
  sync_tree_body (shmem_internal_my_pe e) parent children pSync.

(** [for (i = 0, distance = 1; distance < PE_size; ++i, distance <<= 1)], the rounds
    of the dissemination barrier.  [distance] is an [int]: up to [2 ^ 30] PEs there are at
    most 30 rounds and the shift is exact; beyond that the doubled distance wraps, the
    loop does not end, and the list is what [fuel] lets see of it. *)
Fixpoint dissem_rounds (fuel : nat) (i distance PE_size : Z) : list (Z * Z) :=
  match fuel with
  | O => []
  | S fuel => if distance <? PE_size
              then (i, distance) :: dissem_rounds fuel (i + 1) (i32 (2 * distance)) PE_size
              else []
  end.

Definition shmem_internal_sync_dissem (e : env) (PE_start PE_stride PE_size pSync : Z) : prog unit :=
  let coll_rank := cdiv (shmem_internal_my_pe e - PE_start) PE_stride in
  for_ (dissem_rounds 31 0 1 PE_size) (fun '(i, distance) =>
    let to := cmod (i32 (coll_rank + distance)) PE_size in
    let to := PE_start + to * PE_stride in
    let slot := pSync + SIZEOF_INT * i in
    shmem_internal_atomic slot 1 to (i32_calc SHM_INTERNAL_SUM) ;;
    SHMEM_WAIT_UNTIL slot SHMEM_CMP_NE 0 ;;
    (* this slot is no longer used, so subtract off results now *)
    shmem_internal_atomic slot (-1) (shmem_internal_my_pe e) (i32_calc SHM_INTERNAL_SUM)) ;;
  (* Ensure local pSync decrements are done before a subsequent barrier *)
  shmem_internal_quiet.

(** [shmem_internal_sync]; [Raise] is the RAISE_ERROR_MSG of the default case. *)
Definition shmem_internal_sync (e : env) (PE_start PE_stride PE_size pSync : Z) : prog unit :=
  if PE_size =? 1 then skip
  else match shmem_internal_barrier_type e with
  | AUTO => if PE_size <? COLL_CROSSOVER e
            then shmem_internal_sync_linear e PE_start PE_stride PE_size pSync
            else shmem_internal_sync_tree e PE_start PE_stride PE_size pSync
  | LINEAR => shmem_internal_sync_linear e PE_start PE_stride PE_size pSync
  | TREE => shmem_internal_sync_tree e PE_start PE_stride PE_size pSync
  | DISSEM => shmem_internal_sync_dissem e PE_start PE_stride PE_size pSync
  | _ => Raise
  end.

Definition shmem_internal_sync_all (e : env) (sync_all_psync : Z) : prog unit :=
  shmem_internal_sync e 0 1 (shmem_internal_num_pes e) sync_all_psync.

Definition shmem_internal_barrier (e : env) (PE_start PE_stride PE_size pSync : Z) : prog unit :=
  shmem_internal_quiet ;;
  shmem_internal_sync e PE_start PE_stride PE_size pSync.

Definition shmem_internal_barrier_all (e : env) (barrier_all_psync : Z) : prog unit :=
  shmem_internal_quiet ;;
  shmem_internal_sync e 0 1 (shmem_internal_num_pes e) barrier_all_psync.

(** ** What a barrier promises *)

(** The job: every member of [M] runs its program, from the memory [m0]. *)
Definition coll_job (M : list Z) (m0 : Z -> lmem) (body : Z -> prog unit) : world :=
  World (fun p => if decide (p ∈ M) then body p else skip) (init_state m0).

Lemma coll_job_returned M m0 body w : rtc step (coll_job M m0 body) w ->
  (forall p, p ∈ M -> returned w p) -> all_returned w.
Proof.
  intros Hs HM p. destruct (decide (p ∈ M)) as [Hp|Hp]; [by apply HM|]. eapply stays_returned; [exact Hs|].
  unfold returned, coll_job. simpl. by rewrite decide_False.
Qed.

(** Marks left by a PE when it enters and leaves a collective. *)
Definition ENTER : Z := 0.
Definition EXIT : Z := 1.
Definition marked (body : prog unit) : prog unit := mark ENTER ;; body ;; mark EXIT.

(** The job in which every member of [M] runs [body], between its two marks, from memory [m0]. *)
Definition job_prog (M : list Z) (body : Z -> prog unit) (pe : Z) : prog unit :=
  if decide (pe ∈ M) then marked (body pe) else skip.
Definition barrier_job (M : list Z) (body : Z -> prog unit) (m0 : Z -> lmem) : world :=
  World (job_prog M body) (init_state m0).

(** The specification of a barrier: under every interleaving and every delivery
    order the call returns on every PE within [bound] steps of the job, no member
    leaves before every member has entered, a member that leaves finds its memory (the
    pSync included) as it was, when all have returned nothing is in flight, and the other
    PEs are left alone. *)
Record barrier_spec (M : list Z) (body : Z -> prog unit) (m0 : Z -> lmem) (bound : nat) : Prop := {
  barrier_completes : job_completes (barrier_job M body m0) bound;
  barrier_safe : forall w i j, rtc step (barrier_job M body m0) w ->
    (i, EXIT) ∈ log (w_st w) -> j ∈ M -> (j, ENTER) ∈ log (w_st w);
  barrier_restored : forall w i a, rtc step (barrier_job M body m0) w ->
    (i, EXIT) ∈ log (w_st w) -> mem (w_st w) i a = m0 i a;
  barrier_clean : forall w, rtc step (barrier_job M body m0) w -> all_returned w ->
    net (w_st w) = [] /\ forall p a, mem (w_st w) p a = m0 p a;
  barrier_frame : forall w p a, rtc step (barrier_job M body m0) w -> p ∉ M -> mem (w_st w) p a = m0 p a }.

Lemma barrier_spec_ext M body body' m0 bound :
  (forall p, p ∈ M -> body p = body' p) -> barrier_spec M body m0 bound -> barrier_spec M body' m0 bound.
Proof.
  intros H. assert (barrier_job M body m0 = barrier_job M body' m0) as E.
  { unfold barrier_job. f_equal. extensionality p. unfold job_prog. case_decide; [by rewrite H|done]. }
  intros [H1 H2 H3 H4 H5]. split; rewrite <- E; done.
Qed.

Lemma barrier_spec_weaken M body m0 b b' : (b <= b')%nat -> barrier_spec M body m0 b -> barrier_spec M body m0 b'.
Proof.
  intros Hb [[H1 H1'] H2 H3 H4 H5]. split; [|done..]. split; [|done].
  intros n w Hn. specialize (H1 n w Hn). lia.
Qed.

(** ** A set of one member needs no barrier *)

Section solo.
Context (q : Z).

Definition solo_next (p : Z) (l : nat) : option (op * (Z -> nat)) :=
  if decide (p = q) then
    match l with
    | 0%nat => Some (OMark ENTER, fun _ => 1%nat)
    | 1%nat => Some (OMark EXIT, fun _ => 2%nat)
    | _ => None
    end
  else None.
Definition solo_pt (p : Z) (l : nat) : prog unit :=
  if decide (p = q) then seqp (drop l [OMark ENTER; OMark EXIT]) else skip.

Lemma solo_pt_next p l : solo_pt p l = match solo_next p l with
                                       | Some (o, f) => Do o (fun r => solo_pt p (f r))
                                       | None => skip
                                       end.
Proof.
  unfold solo_pt, solo_next. case_decide; [|done].
  destruct l as [|[|l]]; try reflexivity. by rewrite drop_ge by (simpl; lia).
Qed.

Definition solo_inv (m0 : Z -> lmem) (ls : lworld nat) : Prop :=
  lst ls = St m0 [] (fun _ => 0%nat) (take (lab ls q) [(q, ENTER); (q, EXIT)]).

Lemma solo_step m0 ls ls' : solo_inv m0 ls -> lstep solo_next ls ls' -> solo_inv m0 ls'.
Proof.
  unfold solo_inv. intros Hi Hst. destruct Hst as [ls p o f v s' Hl Hex | ls s' Hn].
  - unfold solo_next in Hl. case_decide; [|done]. subst p. simpl. rewrite fn_lookup_insert.
    rewrite Hi in Hex. destruct (lab ls q) as [|[|l]]; [..|done]; injection Hl as <- <-;
      injection Hex as <- <-; done.
  - rewrite Hi in Hn. exfalso. inversion Hn as [s l1 m l2 ? ? E|s l1 m l2 ? E]; subst; by destruct l1.
Qed.

Lemma solo_dist p l o f r : solo_next p l = Some (o, f) -> p ∈ [q] /\ (2 - f r < 2 - l)%nat.
Proof.
  unfold solo_next. case_decide; [|done]. subst. intros H. split; [apply list_elem_of_here|].
  destruct l as [|[|l]]; [..|done]; injection H as <- <-; lia.
Qed.

Lemma solo_progress m0 ls : solo_inv m0 ls -> net (lst ls) = [] ->
  (forall p, solo_next p (lab ls p) = None /\ true = true) \/ exists ls', lstep solo_next ls ls'.
Proof.
  intros _ _. destruct (solo_next q (lab ls q)) as [[o f]|] eqn:E; [right|left].
  - assert (exists g, o = OMark g) as [g ->].
    { unfold solo_next in E. rewrite decide_True in E by done.
      destruct (lab ls q) as [|[|l]]; [..|done]; injection E as <- <-; eauto. }
    eexists. by eapply lstep_pe.
  - intros p. split; [|done]. destruct (decide (p = q)) as [->|Hp]; [done|].
    unfold solo_next. by rewrite decide_False.
Qed.

Lemma solo_barrier m0 : barrier_spec [q] (fun _ => skip) m0 6.
Proof.
  set (w0 := barrier_job [q] (fun _ => skip) m0). set (ls0 := LW (fun _ => 0%nat) (init_state m0)).
  assert (refines solo_pt w0 ls0) as Hr.
  { split; [|done]. intros p. simpl. unfold job_prog, solo_pt.
    destruct (decide (p = q)) as [->|Hn]; [by rewrite decide_True by apply list_elem_of_here|].
    rewrite decide_False; [done|]. by intros ?%list_elem_of_singleton. }
  assert (forall w, rtc step w0 w -> exists ls, refines solo_pt w ls /\ solo_inv m0 ls) as Hreach
    by (intros w; by apply (invariant_reachable _ _ (fun _ _ => true) solo_pt_next _ _ _ _ Hr eq_refl (solo_step m0))).
  split.
  - apply (labels_complete solo_pt solo_next (fun _ _ => true) solo_pt_next [q] (fun _ l => 2 - l)%nat
      (NoDup_singleton q) solo_dist (solo_inv m0) w0 ls0 Hr eq_refl (solo_step m0) (solo_progress m0)).
  - intros w i j Hw Hex ->%list_elem_of_singleton. destruct (Hreach w Hw) as (ls & [_ Hs] & Hi).
    rewrite Hs, Hi in *. simpl in *. destruct (lab ls q); [by apply elem_of_nil in Hex|apply list_elem_of_here].
  - intros w i a Hw _. destruct (Hreach w Hw) as (ls & [_ Hs] & Hi). by rewrite Hs, Hi.
  - intros w Hw _. destruct (Hreach w Hw) as (ls & [_ Hs] & Hi). unfold solo_inv in Hi. by rewrite Hs, Hi.
  - intros w p a Hw _. destruct (Hreach w Hw) as (ls & [_ Hs] & Hi). unfold solo_inv in Hi. by rewrite Hs, Hi.
Qed.
End solo.
