(* ===== verification/Compose.v ===== *)
(** * One collective after another

    A collective that calls another runs, on every member, its own part and then the
    callee.  When no member can pass the first operation of the callee before the root
    has finished its part, and then everything has arrived, the job is the job of the
    first part followed by the job of the callee: [then_reachable] and [then_completes].
    The callee does not start with fresh fence counters; [shifted] shows that this does
    not matter. *)

From S2P Require Import Prelude Machine Straight CollSync.
Local Open Scope Z_scope.
Local Open Scope prog_scope.

(** ** Jobs do not depend on the number of earlier fences *)

Section shifted.
(** The fences each PE has issued before, and the marks left before. *)
Context (d : Z -> nat) (lg : list (Z * Z)).

Definition sh_msg (m : msg) : msg :=
  Msg (m_src m) (m_dst m) (m_epoch m + d (m_src m)) (m_kind m) (m_target m) (m_nbi m) (m_data m).
Definition sh (s : state) : state :=
  St (mem s) (map sh_msg (net s)) (fun p => (epoch s p + d p)%nat) (lg ++ log s).
Definition sh_world (w : world) : world := World (progs w) (sh (w_st w)).

Lemma forallb_sh f (l : list msg) : (forall m, f (sh_msg m) = f m) -> forallb f (map sh_msg l) = forallb f l.
Proof. intros H. induction l as [|m l IH]; [done|]. simpl. by rewrite H, IH. Qed.

Lemma sh_exec p o s : op_exec p o (sh s) = (fun r => (r.1, sh r.2)) <$> op_exec p o s.
Proof.
  destruct o; simpl.
  - unfold sh, set_net. simpl. by rewrite map_app.
  - unfold sh, set_net. simpl. by rewrite map_app.
  - done.
  - rewrite forallb_sh by done. by case_match.
  - unfold sh. simpl. do 3 f_equal. extensionality q. update_cases.
    + subst. by rewrite fn_lookup_insert.
    + by rewrite fn_lookup_insert_ne.
  - rewrite forallb_sh by done. by case_match.
  - by case_match.
  - done.
  - done.
  - done.
  - unfold sh. simpl. by rewrite app_assoc.
Qed.

Lemma sh_fence m l : fence_ready (sh_msg m) (map sh_msg l) = fence_ready m l.
Proof.
  unfold fence_ready. induction l as [|m' l IH]; [done|]. cbn [map forallb]. rewrite IH. f_equal. f_equal. simpl.
  destruct (Z.eqb_spec (m_src m') (m_src m)) as [->|]; [|done]. destruct (m_dst m' =? m_dst m); [|done]. simpl.
  destruct (Nat.ltb_spec (m_epoch m' + d (m_src m)) (m_epoch m + d (m_src m))), (Nat.ltb_spec (m_epoch m') (m_epoch m)); lia || done.
Qed.

Lemma sh_net s s' : net_step s s' -> net_step (sh s) (sh s').
Proof.
  intros [s0 l1 m l2 src offs E Hd|s0 l1 m l2 vals E Hd Hf].
  - replace (sh (set_net _ _)) with (set_net (sh s0) (map sh_msg l1 ++ Msg (m_src (sh_msg m)) (m_dst (sh_msg m))
      (m_epoch (sh_msg m)) (m_kind (sh_msg m)) (m_target (sh_msg m)) (m_nbi (sh_msg m))
      (Captured (map (fun o => (o, mem (sh s0) (m_src (sh_msg m)) (src + o))) offs)) :: map sh_msg l2))
      by (unfold sh, set_net; simpl; by rewrite map_app).
    apply net_capture; [|done]. simpl. by rewrite E, map_app.
  - replace (sh (set_net _ _)) with (set_net (set_mem (sh s0) (m_dst (sh_msg m)) (apply_vals (m_kind (sh_msg m))
      (m_target (sh_msg m)) vals (mem (sh s0) (m_dst (sh_msg m))))) (map sh_msg l1 ++ map sh_msg l2))
      by (unfold sh, set_net; simpl; by rewrite map_app).
    apply net_deliver; [simpl; by rewrite E, map_app|done|]. by rewrite <- map_app, sh_fence.
Qed.

Lemma sh_net_inv s t : net_step (sh s) t -> exists s', net_step s s' /\ t = sh s'.
Proof.
  intros H. inversion H as [s0 l1 m l2 src offs E Hd E0|s0 l1 m l2 vals E Hd Hf E0]; subst; simpl in E.
  all: apply map_eq_app in E as (k1 & k2' & E & <- & E2); apply map_eq_cons in E2 as (m0 & k2 & -> & <- & <-).
  - eexists. split; [by eapply net_capture|]. unfold sh, set_net. simpl. by rewrite map_app.
  - rewrite <- map_app, sh_fence in Hf. eexists. split; [by eapply net_deliver|].
    unfold sh, set_net. simpl. by rewrite map_app.
Qed.

Lemma sh_step w w' : step w w' -> step (sh_world w) (sh_world w').
Proof.
  intros [w0 p o k v s' Hp Hex|w0 s' Hn].
  - unfold sh_world. simpl. apply (step_pe (World (progs w0) (sh (w_st w0)))) with (o := o); [done|].
    simpl. by rewrite sh_exec, Hex.
  - apply (step_net (sh_world w0)). by apply sh_net.
Qed.

Lemma sh_step_inv w t : step (sh_world w) t -> exists w', step w w' /\ t = sh_world w'.
Proof.
  intros H. inversion H as [w0 p o k v s' Hp Hex E0|w0 s' Hn E0]; subst; simpl in *.
  - rewrite sh_exec in Hex. destruct (op_exec p o (w_st w)) as [[v0 s0]|] eqn:E; [|done]. injection Hex as <- <-.
    eexists. split; [by eapply step_pe|done].
  - apply sh_net_inv in Hn as (s0 & Hn & ->). eexists. split; [by apply step_net|done].
Qed.
End shifted.

(** ** A part with a gate *)

Section gated.
Context (M : list Z) (m0 : Z -> lmem) (P1 P2 : Z -> prog unit) (root : Z).
Let J1 := coll_job M m0 P1.

(** When the root has finished its part, so has everybody, and nothing is in flight. *)
Context (Hroot_last : forall w, rtc step J1 w -> returned w root -> all_returned w /\ net (w_st w) = []).
(** The callee of the others starts with a wait for a word that is zero during the first part. *)
Context (gate : Z) (Hgate : forall p, p ∈ M -> p <> root -> exists k, P2 p = Do (OWait gate SHMEM_CMP_NE 0) k).
Context (Hshut : forall w p, rtc step J1 w -> p ∈ M -> mem (w_st w) p gate = 0).

Definition then_job : world := coll_job M m0 (fun p => P1 p ;; P2 p).
Let J := then_job.

(** The job during the first part, and after it. *)
Definition during (n : nat) (w : world) : Prop := exists w1, nsteps step n J1 w1 /\ w_st w = w_st w1 /\
  forall p, progs w p = if decide (p ∈ M) then (progs w1 p ;; P2 p) else skip.
Definition after (n : nat) (w : world) : Prop := exists n1 n2 w1 w2, n = (n1 + n2)%nat /\
  nsteps step n1 J1 w1 /\ all_returned w1 /\ net (w_st w1) = [] /\
  nsteps step n2 (coll_job M (mem (w_st w1)) P2) w2 /\ w = sh_world (epoch (w_st w1)) (log (w_st w1)) w2.

Lemma outside_returned n w1 p : nsteps step n J1 w1 -> p ∉ M -> progs w1 p = skip.
Proof.
  intros Hn Hp. assert (progs J1 p = skip) as H0 by (simpl; by rewrite decide_False).
  revert H0. clear Hroot_last Hgate Hshut. generalize J1 Hn. clear J J1 Hn. intros w0 Hn.
  induction Hn as [w|n w w' w'' Hs Hn IH]; [done|]. intros H0. apply IH.
  destruct Hs as [w q o k v s' Hq Hex|w s' Hnet]; [|done]. simpl. update_cases; [subst; congruence|done].
Qed.

(** When everybody has finished the first part, the job of the callee starts. *)
Lemma during_after n w w1 : nsteps step n J1 w1 -> w_st w = w_st w1 ->
  (forall p, progs w p = if decide (p ∈ M) then (progs w1 p ;; P2 p) else skip) ->
  all_returned w1 -> net (w_st w1) = [] -> after n w.
Proof.
  intros Hn Hs Hp Hr Hnet. exists n, 0%nat, w1, (coll_job M (mem (w_st w1)) P2).
  split; [lia|]. repeat (split; [done || constructor|]). destruct w as [pw sw]. simpl in *. subst sw.
  unfold sh_world, sh, coll_job. simpl. f_equal.
  - extensionality p. rewrite Hp. case_decide; [|done]. by rewrite (Hr p).
  - destruct (w_st w1) as [mm nn ee ll]. simpl in *. subst nn. rewrite app_nil_r. done.
Qed.

Lemma after_step n w w' : after n w -> step w w' -> after (S n) w'.
Proof.
  intros (n1 & n2 & w1 & w2 & -> & H1 & Hr & Hnet & H2 & ->) Hs.
  apply sh_step_inv in Hs as (w2' & Hs & ->). exists n1, (S n2), w1, w2'. split; [lia|].
  repeat (split; [done|]). split; [|done]. eapply nsteps_r; done.
Qed.

Lemma then_step n w w' : during n w \/ after n w -> step w w' -> during (S n) w' \/ after (S n) w'.
Proof.
  intros [(w1 & Hn & Hs & Hp)|Ha] Hst; [|right; by eapply after_step].
  pose proof (rtc_nsteps_2 _ _ _ Hn) as Hrtc.
  inversion Hst as [w0 p o k v s' Hpe Hex E0|w0 s' Hnet E0]; subst.
  - rewrite Hp in Hpe. case_decide as HpM; [|done]. destruct (progs w1 p) as [[]|o1 k1|] eqn:Ep; [| |done].
    + (* [p] has finished its part *) simpl in Hpe. destruct (decide (p = root)) as [->|Hpr].
      * right. destruct (Hroot_last w1 Hrtc Ep) as [Hall Hnil].
        eapply after_step; [|exact Hst]. by eapply during_after.
      * exfalso. destruct (Hgate p HpM Hpr) as [k' E]. rewrite E in Hpe. injection Hpe as <- <-.
        rewrite Hs in Hex. simpl in Hex. by rewrite (Hshut w1 p Hrtc HpM) in Hex.
    + left. simpl in Hpe. injection Hpe as -> <-. rewrite Hs in Hex.
      exists (World (<[p := k1 v]> (progs w1)) s'). split; [|split; [done|]].
      * eapply nsteps_r; [exact Hn|]. by eapply step_pe.
      * intros q. simpl. update_cases.
        -- subst q. by rewrite decide_True, fn_lookup_insert by done.
        -- rewrite fn_lookup_insert_ne by done. apply Hp.
  - left. rewrite Hs in Hnet. exists (World (progs w1) s'). split; [|split; [done|exact Hp]].
    eapply nsteps_r; [exact Hn|]. by apply step_net.
Qed.

Lemma then_nsteps n w : nsteps step n J w -> during n w \/ after n w.
Proof.
  intros Hn. assert (during 0 J) as H0.
  { exists J1. split; [constructor|]. split; [done|]. intros p. simpl. by case_decide. }
  assert (forall n w, nsteps step n J w -> during n w \/ after n w) as H; [|by apply H].
  clear n w Hn. intros n. induction n as [|n IH]; intros w Hn.
  - inversion Hn; subst. by left.
  - apply nsteps_inv_r in Hn as (w' & Hn & Hs). eapply then_step; [by apply IH|done].
Qed.

(** A reachable state is one of the first part, or one of the callee's job after it. *)
Lemma then_reachable w : rtc step J w ->
  (exists w1, rtc step J1 w1 /\ w_st w = w_st w1 /\
     forall p, progs w p = if decide (p ∈ M) then (progs w1 p ;; P2 p) else skip) \/
  (exists w1 w2, rtc step J1 w1 /\ all_returned w1 /\ net (w_st w1) = [] /\
     rtc step (coll_job M (mem (w_st w1)) P2) w2 /\ w = sh_world (epoch (w_st w1)) (log (w_st w1)) w2).
Proof.
  intros (n & Hn)%rtc_nsteps. destruct (then_nsteps n w Hn) as [(w1 & H1 & H)|(n1 & n2 & w1 & w2 & _ & H1 & Hr & Hnet & H2 & E)].
  - left. exists w1. split; [by eapply rtc_nsteps_2|done].
  - right. exists w1, w2. split; [by eapply rtc_nsteps_2|]. split; [done|]. split; [done|]. split; [by eapply rtc_nsteps_2|done].
Qed.

(** A member that has returned has returned from the callee: the first part is over. *)
Lemma then_returned w p : rtc step J w -> p ∈ M -> returned w p ->
  exists w1 w2, rtc step J1 w1 /\ all_returned w1 /\ net (w_st w1) = [] /\
    rtc step (coll_job M (mem (w_st w1)) P2) w2 /\ returned w2 p /\
    w = sh_world (epoch (w_st w1)) (log (w_st w1)) w2.
Proof.
  intros Hw Hp Hr. destruct (then_reachable w Hw) as [(w1 & H1 & Hs & Hpr)|(w1 & w2 & H1 & Hall & Hnet & H2 & ->)].
  - unfold returned in Hr. rewrite Hpr, decide_True in Hr by done.
    destruct (progs w1 p) as [[]|o k|] eqn:Ep; [|done|done]. simpl in Hr.
    destruct (decide (p = root)) as [->|Hne]; [|destruct (Hgate p Hp Hne) as [k E]; by rewrite E in Hr].
    destruct (Hroot_last w1 H1 Ep) as [Hall Hnil].
    apply rtc_nsteps in H1 as (n & Hn). pose proof (rtc_nsteps_2 _ _ _ Hn) as H1.
    exists w1, (coll_job M (mem (w_st w1)) P2). repeat (split; [done || apply rtc_refl|]). split.
    + unfold returned, coll_job. simpl. by rewrite decide_True.
    + destruct w as [pw sw]. simpl in *. subst sw. unfold sh_world, sh, coll_job. simpl. f_equal.
      * extensionality q. rewrite Hpr. case_decide; [|done]. by rewrite (Hall q).
      * destruct (w_st w1) as [mm nn ee ll]. simpl in *. subst nn. by rewrite app_nil_r.
  - exists w1, w2. repeat (split; [done|]). done.
Qed.

(** The bounds of the two parts add up. *)
Lemma then_completes b1 b2 : job_completes J1 b1 ->
  (forall w1, rtc step J1 w1 -> all_returned w1 -> job_completes (coll_job M (mem (w_st w1)) P2) b2) ->
  job_completes J (b1 + b2).
Proof.
  intros [Hb1 Hp1] H2. split.
  - intros n w Hn. destruct (then_nsteps n w Hn) as [(w1 & Hn1 & _)|(n1 & n2 & w1 & w2 & -> & Hn1 & Hr & _ & Hn2 & _)].
    + specialize (Hb1 n w1 Hn1). lia.
    + specialize (Hb1 n1 w1 Hn1). destruct (H2 w1 (rtc_nsteps_2 _ _ _ Hn1) Hr) as [Hb2 _]. specialize (Hb2 n2 w2 Hn2). lia.
  - assert (forall w, (exists n, after n w) -> all_returned w \/ exists w', step w w') as Haft.
    { intros w (n & n1 & n2 & w1 & w2 & _ & Hn1 & Hr & _ & Hn2 & ->).
      destruct (H2 w1 (rtc_nsteps_2 _ _ _ Hn1) Hr) as [_ Hp2].
      destruct (Hp2 w2 (rtc_nsteps_2 _ _ _ Hn2)) as [Hall|[w' Hs]]; [by left|right]. eexists. by apply sh_step. }
    intros w (n & Hn)%rtc_nsteps. destruct (then_nsteps n w Hn) as [(w1 & Hn1 & Hs & Hp)|Ha]; [|eauto].
    pose proof (rtc_nsteps_2 _ _ _ Hn1) as Hw1.
    destruct (Hp1 w1 Hw1) as [Hr|[w1' Hst]].
    + destruct (Hroot_last w1 Hw1 (Hr root)) as [_ Hnil]. apply Haft. exists n. by eapply during_after.
    + right. inversion Hst as [w0 p o k v s' Hpe Hex E0|w0 s' Hnet E0]; subst.
      * assert (p ∈ M) as HpM.
        { destruct (decide (p ∈ M)) as [|Hn']; [done|]. rewrite (outside_returned n w1 p Hn1 Hn') in Hpe. done. }
        eexists. eapply step_pe; [rewrite Hp, decide_True, Hpe by done; reflexivity|]. rewrite Hs. exact Hex.
      * eexists. apply step_net. rewrite Hs. exact Hnet.
Qed.
End gated.
