(* ===== verification/Gather.v ===== *)
(** * Reducing to the root

    The first half of the linear and the tree reductions: every member combines its
    contribution, and those of its children, into the target of its parent.  A member
    with children puts its own contribution into its target, tells its children that they
    may send, waits for their acknowledgements and resets the word that counted them; a
    member with a parent waits until it may send, resets that word, sends its data as an
    atomic update and, after a fence, acknowledges.  The linear algorithm is a star.

    The invariant follows the contributions: [L p] lists the members whose contributions
    the data of [p] combine, every member is in exactly one list, and a delivery
    concatenates two of them. *)

From S2P Require Import Prelude Machine Straight Slots Internal ReduceOp Comm Tree CollSync Flight.
Local Open Scope Z_scope.
Local Open Scope prog_scope.

(** ** Combining the contributions of a list of members *)

Section combine.
(** The combination, on the values of the datatype, and the contribution of each member. *)
Context (calc : Z -> Z -> Z) (inr : Z -> Prop).
Context (Hclosed : forall a b, inr a -> inr b -> inr (calc a b)).
Context (Hassoc : forall a b c, inr a -> inr b -> inr c -> calc (calc a b) c = calc a (calc b c)).
Context (Hcomm : forall a b, calc a b = calc b a).
Context (f : Z -> Z).

Definition combine (l : list Z) : Z :=
  match l with
  | [] => 0
  | p :: l => fold_left calc (map f l) (f p)
  end.

Abbreviation contributes l := (Forall (fun p => inr (f p)) l).

Lemma fold_calc_in (l : list Z) x : inr x -> contributes l -> inr (fold_left calc (map f l) x).
Proof.
  revert x. induction l as [|p l IH]; intros x Hx Hl; [done|]. apply list.Forall_cons in Hl as [Hp Hl].
  apply IH; auto.
Qed.

Lemma fold_calc_l (l : list Z) a b : inr a -> inr b -> contributes l ->
  fold_left calc (map f l) (calc a b) = calc a (fold_left calc (map f l) b).
Proof.
  revert b. induction l as [|p l IH]; intros b Ha Hb Hl; [done|]. apply list.Forall_cons in Hl as [Hp Hl].
  simpl. rewrite Hassoc by done. apply IH; auto.
Qed.

Lemma combine_in l : l <> [] -> contributes l -> inr (combine l).
Proof. destruct l as [|p l]; [done|]. intros _ [Hp Hl]%list.Forall_cons. by apply fold_calc_in. Qed.

Lemma combine_app l1 l2 : l1 <> [] -> l2 <> [] -> contributes l1 -> contributes l2 ->
  combine (l1 ++ l2) = calc (combine l1) (combine l2).
Proof.
  intros H1 H2 Hl1 Hl2. destruct l1 as [|p l1], l2 as [|q l2]; try done. simpl.
  apply list.Forall_cons in Hl1 as [Hp Hl1]. apply list.Forall_cons in Hl2 as [Hq Hl2].
  rewrite map_app, fold_left_app. simpl. apply fold_calc_l; [by apply fold_calc_in|done|done].
Qed.

Lemma combine_cons p l : l <> [] -> contributes (p :: l) -> combine (p :: l) = calc (f p) (combine l).
Proof.
  intros Hne [Hp Hl]%list.Forall_cons. apply (combine_app [p]); [done|done| |done]. by constructor.
Qed.

Lemma combine_perm l l' : l ≡ₚ l' -> contributes l -> combine l = combine l'.
Proof.
  induction 1 as [|p l l' Hp IH|p q l|l1 l2 l3 H12 IH1 _ IH2]; intros Hl; [done|..].
  - destruct (decide (l = [])) as [->|Hne]; [by apply Permutation_nil in Hp as ->|].
    assert (l' <> []) as Hne' by (intros ->; by apply Hne, Permutation_nil).
    rewrite !combine_cons; [|done|by rewrite <- Hp|done|done].
    apply list.Forall_cons in Hl as [_ Hl]. by rewrite IH.
  - simpl. by rewrite (Hcomm (f q)).
  - rewrite IH1 by done. apply IH2. by rewrite <- H12.
Qed.
End combine.

(** ** What a reduction to the root promises *)

(** Under every interleaving and delivery order: the call returns on every member within
    [steps] steps of the job; once the root has returned, so has everybody, nothing is in
    flight, the elements of its target hold the [total] of the contributions and the two
    words are zero again on every member; and nothing else changes than the words and the
    targets. *)
Record gather_spec (M : list Z) (root target len A R : Z) (offs : list Z) (total : Z -> Z) (m0 : Z -> lmem)
    (body : Z -> prog unit) (steps : nat) : Prop := {
  ga_completes : job_completes (coll_job M m0 body) steps;
  ga_last : forall w, rtc step (coll_job M m0 body) w -> returned w root -> all_returned w /\ net (w_st w) = [];
  ga_total : forall w o, rtc step (coll_job M m0 body) w -> returned w root -> o ∈ offs ->
    mem (w_st w) root (target + o) = total o;
  ga_restored : forall w p, rtc step (coll_job M m0 body) w -> returned w root -> p ∈ M ->
    mem (w_st w) p A = 0 /\ mem (w_st w) p R = 0;
  ga_frame : forall w p a, rtc step (coll_job M m0 body) w ->
    (p ∉ M \/ a <> A /\ a <> R /\ ~ (target <= a < target + len)) -> mem (w_st w) p a = m0 p a }.

(** ** The slots *)

Inductive gid := Self (p : Z) | Flag (c : Z) | ClrA (p : Z) | ClrR (p : Z) | Dat (c : Z) | Ack (c : Z).
#[export] Instance gid_eq : EqDecision gid.
Proof. solve_decision. Defined.

(** The position of a child among the children. *)
Definition index (c : Z) (l : list Z) : nat :=
  match list_find (fun x => x = c) l with Some (k, _) => k | None => 0%nat end.

Lemma index_lookup c (l : list Z) k : NoDup l -> l !! k = Some c -> index c l = k.
Proof.
  intros Hnd Hk. unfold index. destruct (list_find (fun x => x = c) l) as [[j x]|] eqn:E.
  - apply list_find_Some in E as (Hj & -> & _). by eapply NoDup_lookup.
  - exfalso. apply list_find_None in E. rewrite list.Forall_forall in E.
    by eapply E; [by eapply list_elem_of_lookup_2|].
Qed.

Lemma index_in c (l : list Z) : c ∈ l -> l !! index c l = Some c.
Proof.
  intros Hc. unfold index. destruct (list_find (fun x => x = c) l) as [[j x]|] eqn:E.
  - by apply list_find_Some in E as (Hj & -> & _).
  - exfalso. apply list_find_None in E. rewrite list.Forall_forall in E. by eapply E.
Qed.

Section gather.
Context (M : list Z) (root : Z) (parent : Z -> Z) (children : Z -> list Z) (rank : Z -> Z).
Context (HT : Tree M root parent children rank) (HM : NoDup M).
(** The arrays of [len] bytes, the offsets of their elements, the word [R] that tells a
    child that it may send and the word [A] that counts the acknowledgements. *)
Context (target source len R A : Z) (offs : list Z).
Context (Hlen : 0 < len) (Hoffs : forall o, o ∈ offs -> 0 <= o < len) (Hnd : NoDup offs).
Context (HtA : ~ (target <= A < target + len)) (HtR : ~ (target <= R < target + len)).
Context (HsA : ~ (source <= A < source + len)) (HsR : ~ (source <= R < source + len)).
Abbreviation nc p := (length (children p)).
(** The two words can be one where no member uses both. *)
Context (HRA : forall p, p ∈ M -> p <> root -> nc p <> 0%nat -> R <> A).
Context (Hbig : forall p, p ∈ M -> Z.of_nat (nc p) < 2 ^ 63) (Hroot : nc root <> 0%nat).
Context (calc : Z -> Z -> Z) (inr : Z -> Prop).
Context (Hclosed : forall a b, inr a -> inr b -> inr (calc a b)).
Context (Hassoc : forall a b c, inr a -> inr b -> inr c -> calc (calc a b) c = calc a (calc b c)).
Context (Hcomm : forall a b, calc a b = calc b a).

Let sum := long_calc SHM_INTERNAL_SUM.

Definition leads (p : Z) : bool := negb (nc p =? 0)%nat.
Definition follower (p : Z) : bool := negb (bool_decide (p = root)).
(** A leaf sends from its source, an inner member what it has collected in its target. *)
Definition gbuf (p : Z) : Z := if leads p then target else source.

(** 0 put the own contribution, wait, quiet; 3+k tell child k; then wait for the
    acknowledgements, reset [A], wait; wait for [R], reset it, wait; send the data, wait, fence,
    acknowledge. *)
Definition gather_slots (p : Z) : list (option op) :=
  [slot (leads p) (OPut p target (Pending source (upto 0 len)) false); slot (leads p) OPutWait; slot (leads p) OQuiet] ++
  map (fun c => Some (OPut c R (Captured [(0, 1)]) false)) (children p) ++
  [slot (leads p) (OWait A SHMEM_CMP_EQ (Z.of_nat (nc p)));
   slot (leads p) (OPut p A (Captured [(0, 0)]) false);
   slot (leads p) (OWait A SHMEM_CMP_EQ 0);
   slot (follower p) (OWait R SHMEM_CMP_NE 0);
   slot (follower p) (OPut p R (Captured [(0, 0)]) false);
   slot (follower p) (OWait R SHMEM_CMP_EQ 0);
   slot (follower p) (OAtomic (parent p) target calc (Pending (gbuf p) offs));
   slot (follower p) OPutWait;
   slot (follower p) OFence;
   slot (follower p) (OAtomic (parent p) A sum (Captured [(0, 1)]))].

Lemma gather_length_slots p : length (gather_slots p) = (13 + nc p)%nat.
Proof. unfold gather_slots. rewrite !length_app, !length_map. simpl. lia. Qed.

Inductive gview (p : Z) : nat -> option op -> Prop :=
| gv_self : gview p 0 (slot (leads p) (OPut p target (Pending source (upto 0 len)) false))
| gv_putwait : gview p 1 (slot (leads p) OPutWait)
| gv_quiet : gview p 2 (slot (leads p) OQuiet)
| gv_flag k c : children p !! k = Some c -> gview p (3 + k) (Some (OPut c R (Captured [(0, 1)]) false))
| gv_acks : gview p (3 + nc p) (slot (leads p) (OWait A SHMEM_CMP_EQ (Z.of_nat (nc p))))
| gv_clrA : gview p (4 + nc p) (slot (leads p) (OPut p A (Captured [(0, 0)]) false))
| gv_waitA : gview p (5 + nc p) (slot (leads p) (OWait A SHMEM_CMP_EQ 0))
| gv_ready : gview p (6 + nc p) (slot (follower p) (OWait R SHMEM_CMP_NE 0))
| gv_clrR : gview p (7 + nc p) (slot (follower p) (OPut p R (Captured [(0, 0)]) false))
| gv_waitR : gview p (8 + nc p) (slot (follower p) (OWait R SHMEM_CMP_EQ 0))
| gv_dat : gview p (9 + nc p) (slot (follower p) (OAtomic (parent p) target calc (Pending (gbuf p) offs)))
| gv_datwait : gview p (10 + nc p) (slot (follower p) OPutWait)
| gv_fence : gview p (11 + nc p) (slot (follower p) OFence)
| gv_ack : gview p (12 + nc p) (slot (follower p) (OAtomic (parent p) A sum (Captured [(0, 1)]))).

Lemma gather_slots_view p v o : gather_slots p !! v = Some o -> gview p v o.
Proof.
  unfold gather_slots. intros H. destruct v as [|[|[|v]]]; [injection H as <-; constructor..|].
  simpl in H. apply lookup_app_Some in H as [H|[Hl H]].
  { rewrite list_lookup_fmap in H. destruct (children p !! v) as [c|] eqn:E; [|done]. injection H as <-.
    by apply gv_flag. }
  rewrite length_map in *. replace (S (S (S v))) with (3 + nc p + (v - nc p))%nat by lia.
  destruct (v - nc p)%nat as [|[|[|[|[|[|[|[|[|[|u]]]]]]]]]]; [injection H as <-..|done];
    match goal with |- gview _ ?v _ =>
      let w := eval simpl in v in
      first [replace v with (3 + nc p)%nat by lia; constructor | replace v with (4 + nc p)%nat by lia; constructor
            |replace v with (5 + nc p)%nat by lia; constructor | replace v with (6 + nc p)%nat by lia; constructor
            |replace v with (7 + nc p)%nat by lia; constructor | replace v with (8 + nc p)%nat by lia; constructor
            |replace v with (9 + nc p)%nat by lia; constructor | replace v with (10 + nc p)%nat by lia; constructor
            |replace v with (11 + nc p)%nat by lia; constructor | replace v with (12 + nc p)%nat by lia; constructor]
    end.
Qed.

Lemma view_slots p v o : gview p v o -> gather_slots p !! v = Some o.
Proof.
  assert (forall k, gather_slots p !! (3 + k)%nat = (map (fun c => Some (OPut c R (Captured [(0, 1)]) false)) (children p) ++
    drop (3 + nc p) (gather_slots p)) !! k) as H.
  { intros k. unfold gather_slots. simpl. f_equal. rewrite drop_app_ge, length_map, Nat.sub_diag by (rewrite length_map; lia).
    done. }
  assert (forall k, gather_slots p !! (3 + nc p + k)%nat = drop (3 + nc p) (gather_slots p) !! k) as Ht
    by (intros k; by rewrite lookup_drop).
  assert (forall v k, v = (3 + nc p + k)%nat -> gather_slots p !! v = drop (3 + nc p) (gather_slots p) !! k) as Hv
    by (intros ? k ->; apply Ht).
  assert (drop (3 + nc p) (gather_slots p) = drop 0 (drop (3 + nc p) (gather_slots p))) as E by by rewrite drop_0.
  unfold gather_slots in Hv at 2. simpl in Hv. rewrite drop_app_ge, length_map, Nat.sub_diag, drop_0 in Hv
    by (rewrite length_map; lia).
  destruct 1 as [| | |k c Hk| | | | | | | | | |]; try done.
  - rewrite H, lookup_app_l by (rewrite length_map; by eapply lookup_lt_Some). rewrite list_lookup_fmap. by rewrite Hk.
  - by apply (Hv _ 0%nat); lia.
  - by apply (Hv _ 1%nat); lia.
  - by apply (Hv _ 2%nat); lia.
  - by apply (Hv _ 3%nat); lia.
  - by apply (Hv _ 4%nat); lia.
  - by apply (Hv _ 5%nat); lia.
  - by apply (Hv _ 6%nat); lia.
  - by apply (Hv _ 7%nat); lia.
  - by apply (Hv _ 8%nat); lia.
  - by apply (Hv _ 9%nat); lia.
Qed.

Lemma gather_follower_iff p : follower p = true <-> p <> root.
Proof. unfold follower. rewrite negb_true_iff, bool_decide_eq_false. done. Qed.
Lemma gather_leads_iff p : leads p = true <-> nc p <> 0%nat.
Proof. unfold leads. by rewrite negb_true_iff, Nat.eqb_neq. Qed.
Lemma leads_child p c : c ∈ children p -> leads p = true.
Proof.
  intros Hc. apply gather_leads_iff. intros Hn%nil_length_inv. rewrite Hn in Hc. by apply elem_of_nil in Hc.
Qed.
(** A member that leads and follows uses two words. *)
Lemma both_words p : p ∈ M -> p <> root -> leads p = true -> R <> A.
Proof.
  intros Hp Hr Hl. apply (HRA p); [done|done|]. by apply gather_leads_iff.
Qed.

(** ** The messages *)

Definition gident (m : msg) : gid :=
  match m_kind m with
  | KAtomic _ => if m_target m =? target then Dat (m_src m) else Ack (m_src m)
  | KPut => if m_target m =? target then Self (m_src m)
            else if m_src m =? m_dst m then
              if (m_target m =? A) && leads (m_src m) then ClrA (m_src m) else ClrR (m_src m)
            else Flag (m_dst m)
  end.

Definition ghome (i : gid) : Z * nat :=
  match i with
  | Self p => (p, 0%nat)
  | Flag c => (parent c, (3 + index c (children (parent c)))%nat)
  | ClrA p => (p, (4 + nc p)%nat)
  | ClrR p => (p, (7 + nc p)%nat)
  | Dat c => (c, (9 + nc c)%nat)
  | Ack c => (c, (12 + nc c)%nat)
  end.

Lemma gident_same m d : gident (Msg (m_src m) (m_dst m) (m_epoch m) (m_kind m) (m_target m) (m_nbi m) d) = gident m.
Proof. done. Qed.
(** Epochs do not identify messages here. *)
Definition no_epoch (p : Z) (v : nat) : nat := 0.
Lemma gident_epoch p o e e' : gident <$> op_msg p o e = gident <$> op_msg p o e'.
Proof. by destruct o. Qed.

Lemma words_ne : R =? target = false /\ A =? target = false.
Proof. rewrite !Z.eqb_neq. lia. Qed.

Abbreviation gsends := (sends gident gather_slots no_epoch).

(** What is sent from where. *)
Inductive gsent (p : Z) : nat -> gid -> Prop :=
| gs_self : leads p = true -> gsent p 0 (Self p)
| gs_flag k c : children p !! k = Some c -> gsent p (3 + k) (Flag c)
| gs_clrA : leads p = true -> gsent p (4 + nc p) (ClrA p)
| gs_clrR : p <> root -> gsent p (7 + nc p) (ClrR p)
| gs_dat : p <> root -> gsent p (9 + nc p) (Dat p)
| gs_ack : p <> root -> gsent p (12 + nc p) (Ack p).

Lemma sends_gsent p v i : p ∈ M -> gsends p v = Some i -> gsent p v i.
Proof.
  intros Hp. unfold sends. destruct (gather_slots p !! v) as [oo|] eqn:E; [|done].
  apply gather_slots_view in E. destruct words_ne as [HR HA].
  destruct E as [| | |k c Hk| | | | | | | | | |];
    try (unfold slot; match goal with |- context [if ?b then _ else _] => destruct b eqn:Hb end; [|done]);
    simpl; intros H; try done; injection H as <-;
    unfold gident; simpl; rewrite ?Z.eqb_refl, ?HR, ?HA.
  - by constructor.
  - destruct (tree_child_in HT p c Hp (list_elem_of_lookup_2 _ _ _ Hk)) as (Hc & Hr & Hpc).
    rewrite (proj2 (Z.eqb_neq p c)); [by constructor|]. intros ->. by apply (tree_parent_ne HT c).
  - rewrite Hb. by constructor.
  - apply gather_follower_iff in Hb. destruct (Z.eqb_spec R A) as [E|]; [|by constructor].
    destruct (leads p) eqn:Hl; [|by constructor]. by destruct (both_words p Hp Hb Hl).
  - apply gather_follower_iff in Hb. by constructor.
  - apply gather_follower_iff in Hb. by constructor.
Qed.

Lemma gsent_sends p v i : p ∈ M -> gsent p v i -> gsends p v = Some i.
Proof.
  intros Hp Hs. destruct words_ne as [HR HA].
  assert (forall v o, gview p v (Some o) -> gsends p v = gident <$> op_msg p o 0) as H
    by (intros u o Hv%view_slots; unfold sends; by rewrite Hv).
  destruct Hs as [Hl|k c Hk|Hl|Hr|Hr|Hr]; try (apply gather_follower_iff in Hr).
  - pose proof (gv_self p) as Hv. rewrite Hl in Hv. rewrite (H _ _ Hv). simpl. unfold gident. simpl. by rewrite Z.eqb_refl.
  - rewrite (H _ _ (gv_flag _ _ _ Hk)). simpl. unfold gident. simpl.
    destruct (tree_child_in HT p c Hp (list_elem_of_lookup_2 _ _ _ Hk)) as (Hc & Hcr & Hpc).
    rewrite HR, (proj2 (Z.eqb_neq p c)); [done|]. intros ->. by apply (tree_parent_ne HT c).
  - pose proof (gv_clrA p) as Hv. rewrite Hl in Hv. rewrite (H _ _ Hv). simpl. unfold gident. simpl.
    by rewrite HA, !Z.eqb_refl, Hl.
  - pose proof (gv_clrR p) as Hv. rewrite Hr in Hv. rewrite (H _ _ Hv). simpl. unfold gident. simpl.
    rewrite HR, Z.eqb_refl. destruct (Z.eqb_spec R A) as [E|]; [|done]. destruct (leads p) eqn:Hl; [|done].
    apply gather_follower_iff in Hr. by destruct (both_words p Hp Hr Hl).
  - pose proof (gv_dat p) as Hv. rewrite Hr in Hv. rewrite (H _ _ Hv). simpl. unfold gident. simpl. by rewrite Z.eqb_refl.
  - pose proof (gv_ack p) as Hv. rewrite Hr in Hv. rewrite (H _ _ Hv). simpl. unfold gident. simpl. by rewrite HA.
Qed.

Lemma ghome_sends p v i : p ∈ M -> gsends p v = Some i -> ghome i = (p, v).
Proof.
  intros Hp Hs%sends_gsent; [|done]. destruct Hs as [|k c Hk| | | |]; try done. simpl.
  destruct (tree_child_in HT p c Hp (list_elem_of_lookup_2 _ _ _ Hk)) as (Hc & Hr & ->).
  do 2 f_equal. rewrite (index_lookup c _ k); [lia| |done]. by apply (tree_children_nodup (Tree:=HT)).
Qed.

(** ** Where the members are *)

Abbreviation gflight := (flight gident M gather_slots no_epoch ghome).
Abbreviation garrived := (arrived gident M gather_slots no_epoch ghome).

(** Every message has one sender, past the slot that sends it. *)
Lemma sent_gsent lb i : sentb gident M gather_slots no_epoch ghome lb i = true ->
  exists p v, ghome i = (p, v) /\ p ∈ M /\ gsent p v i /\ (v < lb p)%nat.
Proof. intros (p & v & Hh & Hp & Hs%sends_gsent & Hv)%sentb_elim; [|done]. by exists p, v. Qed.

(** What a member knows at its position. *)
Record gpos (arr : gid -> bool) (p : Z) (v : nat) : Prop := {
  p_self : leads p = true -> (2 < v)%nat -> arr (Self p) = true;
  p_acks : leads p = true -> (3 + nc p < v)%nat -> forall c, c ∈ children p -> arr (Ack c) = true;
  p_clrA : leads p = true -> (5 + nc p < v)%nat -> arr (ClrA p) = true;
  p_flag : p <> root -> (6 + nc p < v)%nat -> arr (Flag p) = true;
  p_clrR : p <> root -> (8 + nc p < v)%nat -> arr (ClrR p) = true }.

Definition fences (p : Z) (v : nat) : nat := if decide (p <> root /\ 11 + nc p < v)%nat then 1 else 0.

Record gctl (lb : Z -> nat) (s : state) : Prop := {
  c_flight : gflight lb (net s);
  c_len : forall p, p ∈ M -> (lb p <= 13 + nc p)%nat;
  c_pos : forall p, p ∈ M -> gpos (garrived lb (net s)) p (lb p);
  c_epoch : forall p, p ∈ M -> epoch s p = fences p (lb p);
  c_cap : forall m p, m ∈ net s -> m_src m = p -> p ∈ M -> p <> root -> (10 + nc p < lb p)%nat ->
    pending (m_data m) = false;
  c_order : forall c, c ∈ M -> garrived lb (net s) (Ack c) = true -> garrived lb (net s) (Dat c) = true }.

Lemma gpos_mono arr arr' p v : (forall i, arr i = true -> arr' i = true) -> gpos arr p v -> gpos arr' p v.
Proof. intros Ha []. split; intros; apply Ha; eauto. Qed.

(** *** What follows from the positions *)

Section facts.
Context (lb : Z -> nat) (s : state) (Hc : gctl lb s).
Let arr := garrived lb (net s).

Lemma arr_gsent i : arr i = true -> exists p v, ghome i = (p, v) /\ p ∈ M /\ gsent p v i /\ (v < lb p)%nat.
Proof. intros ?%arrived_sent. by apply sent_gsent. Qed.

Lemma arr_self p : arr (Self p) = true -> p ∈ M /\ leads p = true.
Proof. intros (q & v & Hh & Hq & Hs & _)%arr_gsent. injection Hh as <- <-. by inversion Hs; subst. Qed.

Lemma arr_flag c : arr (Flag c) = true -> parent c ∈ M /\ c ∈ children (parent c) /\ (3 < lb (parent c))%nat.
Proof.
  intros (q & v & Hh & Hq & Hs & Hv)%arr_gsent. injection Hh as <- <-. inversion Hs as [|k c' Hk| | | |]; subst.
  split; [done|]. split; [by eapply list_elem_of_lookup_2|lia].
Qed.

(** A member that has been flagged has a parent that has put its contribution. *)
Lemma flagged_parent c : arr (Flag c) = true -> c ∈ M /\ c <> root /\ arr (Self (parent c)) = true.
Proof.
  intros (Hp & Hin & Hv)%arr_flag. destruct (tree_child_in HT _ _ Hp Hin) as (Hcm & Hr & _).
  split; [done|]. split; [done|]. apply (p_self _ _ _ (c_pos _ _ Hc _ Hp)); [by eapply leads_child|lia].
Qed.

(** What a position past a send says of the messages that had to arrive before. *)
Lemma sent_dat p : p ∈ M -> p <> root -> (9 + nc p < lb p)%nat ->
  arr (Flag p) = true /\ arr (ClrR p) = true /\ (leads p = true -> arr (Self p) = true) /\
  forall c, c ∈ children p -> arr (Ack c) = true /\ arr (Dat c) = true.
Proof.
  intros Hp Hr Hv. destruct (c_pos _ _ Hc p Hp) as [H1 H2 H3 H4 H5].
  split; [apply H4; [done|lia]|]. split; [apply H5; [done|lia]|]. split; [intros Hl; apply H1; [done|lia]|].
  intros c Hin. assert (arr (Ack c) = true) as Ha by (apply H2; [by eapply leads_child|lia|done]).
  split; [done|]. apply (c_order _ _ Hc); [|done]. by destruct (tree_child_in HT p c Hp Hin).
Qed.
End facts.

(** *** What each message carries *)

Section contents.
(** The memory at the start, and whose contributions the data of each member combine. *)
Context (m0 : Z -> lmem) (L : Z -> list Z).
Definition contribution (o p : Z) : Z := m0 p (source + o).
Definition total (o : Z) (l : list Z) : Z := combine calc (contribution o) l.

Definition ggood (m : msg) : Prop :=
  match gident m with
  | Self p => m_src m = p /\ m_dst m = p /\ m_kind m = KPut /\ m_target m = target /\
      (m_data m = Pending source (upto 0 len) \/
       m_data m = Captured (map (fun o => (o, m0 p (source + o))) (upto 0 len)))
  | Flag c => m_src m = parent c /\ m_dst m = c /\ m_kind m = KPut /\ m_target m = R /\ m_data m = Captured [(0, 1)]
  | ClrA p => m_src m = p /\ m_dst m = p /\ m_kind m = KPut /\ m_target m = A /\ m_data m = Captured [(0, 0)]
  | ClrR p => m_src m = p /\ m_dst m = p /\ m_kind m = KPut /\ m_target m = R /\ m_data m = Captured [(0, 0)]
  | Dat c => m_src m = c /\ m_dst m = parent c /\ m_kind m = KAtomic calc /\ m_target m = target /\
      m_nbi m = false /\ m_epoch m = 0%nat /\
      (m_data m = Pending (gbuf c) offs \/ m_data m = Captured (map (fun o => (o, total o (L c))) offs))
  | Ack c => m_src m = c /\ m_dst m = parent c /\ m_kind m = KAtomic sum /\ m_target m = A /\
      m_epoch m = 1%nat /\ m_data m = Captured [(0, 1)]
  end.
End contents.

(** Only data are read later than they are sent. *)
Lemma ggood_pending m0 L m : ggood m0 L m -> pending (m_data m) = true ->
  gident m = Self (m_src m) \/ gident m = Dat (m_src m).
Proof.
  unfold ggood. destruct (gident m); intros Hg Hp; destruct_and!; subst; auto;
    match goal with H : m_data m = _ |- _ => by rewrite H in Hp end.
Qed.

(** ** The memory *)

Section memory.
Context (m0 : Z -> lmem).
Context (Hin : forall p o, p ∈ M -> o ∈ offs -> inr (m0 p (source + o))).
Abbreviation tot := (total m0).

Record gmem (arr : gid -> bool) (mm : Z -> lmem) (L : Z -> list Z) : Prop := {
  m_A : forall p, p ∈ M -> leads p = true ->
    mm p A = if arr (ClrA p) then 0 else Z.of_nat (countb (fun c => arr (Ack c)) (children p));
  m_R : forall p, p ∈ M -> p <> root -> mm p R = if arr (Flag p) && negb (arr (ClrR p)) then 1 else 0;
  m_frame : forall p a, (p ∉ M \/ (a <> A \/ leads p = false) /\ (a <> R \/ p = root) /\
      (arr (Self p) = false \/ ~ (target <= a < target + len))) -> mm p a = m0 p a;
  m_own : (M ≫= L) ≡ₚ M;
  m_gone : forall p, p ∈ M -> arr (Dat p) = true -> L p = [];
  m_have : forall p, p ∈ M -> arr (Dat p) = false -> L p <> [];
  m_single : forall p, p ∈ M -> arr (Self p) = false -> arr (Dat p) = false -> L p = [p];
  m_val : forall p, p ∈ M -> arr (Self p) = true -> arr (Dat p) = false ->
    forall o, o ∈ offs -> mm p (target + o) = tot o (L p) }.

Lemma owned arr mm L p q : gmem arr mm L -> p ∈ M -> q ∈ L p -> q ∈ M.
Proof. intros Hm Hp Hq. rewrite <- (m_own _ _ _ Hm). apply list_elem_of_bind. eauto. Qed.

Lemma owned_in arr mm L p o : gmem arr mm L -> p ∈ M -> o ∈ offs ->
  Forall (fun q => inr (contribution m0 o q)) (L p).
Proof. intros Hm Hp Ho. apply list.Forall_forall. intros q Hq. apply Hin; [by eapply owned|done]. Qed.

Lemma target_word o : o ∈ offs -> target + o <> A /\ target + o <> R.
Proof. intros Ho. specialize (Hoffs o Ho). lia. Qed.

(** A word of [p] changes. *)
Lemma gmem_word arr mm L i p w x :
  gmem arr mm L -> p ∈ M -> w = A /\ leads p = true \/ w = R /\ p <> root -> (forall q, i <> Self q /\ i <> Dat q) ->
  (forall q, q ∈ M -> leads q = true -> (if decide (q = p /\ w = A) then x else mm q A) =
     if arrives arr i (ClrA q) then 0 else Z.of_nat (countb (fun c => arrives arr i (Ack c)) (children q))) ->
  (forall q, q ∈ M -> q <> root -> (if decide (q = p /\ w = R) then x else mm q R) =
     if arrives arr i (Flag q) && negb (arrives arr i (ClrR q)) then 1 else 0) ->
  gmem (arrives arr i) (<[p := <[w := x]> (mm p)]> mm) L.
Proof.
  intros [H1 H2 H3 H4 H5 H6 H7 H8] Hp Hw Hi HA HR.
  assert (forall q, arrives arr i (Self q) = arr (Self q)) as HS by (intros q; apply arrives_ne; intros E; destruct (Hi q); congruence).
  assert (forall q, arrives arr i (Dat q) = arr (Dat q)) as HD by (intros q; apply arrives_ne; intros E; destruct (Hi q); congruence).
  assert (forall q a, <[p := <[w := x]> (mm p)]> mm q a = if decide (q = p /\ w = a) then x else mm q a) as Hg.
  { intros q a. rewrite (insert_cases mm). destruct (decide (p = q)) as [->|Hne].
    - rewrite insert_cases. destruct (decide (w = a)) as [->|]; [by rewrite decide_True|].
      rewrite decide_False by tauto. done.
    - rewrite decide_False by (intros [? _]; congruence). done. }
  split; try setoid_rewrite HS; try setoid_rewrite HD; try done.
  - intros q Hq Hl. rewrite Hg. by apply HA.
  - intros q Hq Hr. rewrite Hg. by apply HR.
  - intros q a Ha. rewrite Hg, decide_False; [by apply H3|]. intros [-> <-]. destruct Ha as [|(?&?&_)]; [done|].
    destruct Hw as [[? ?]|[? ?]]; intuition congruence.
  - intros q Hq Hs Hd o Ho. destruct (target_word o Ho). rewrite Hg, decide_False; [by apply H8|].
    intros [_ E]. destruct Hw as [[? _]|[? _]]; congruence.
Qed.

Lemma gmem_flag arr mm L c : gmem arr mm L -> c ∈ M -> c <> root -> arr (ClrR c) = false ->
  gmem (arrives arr (Flag c)) (<[c := <[R := 1]> (mm c)]> mm) L.
Proof.
  intros Hm Hc Hr Hcl. apply gmem_word; [done|done|by right|done| |].
  - intros q Hq Hl. rewrite arrives_ne by done. rewrite decide_False.
    + rewrite (m_A _ _ _ Hm q Hq Hl). case_match; [done|]. f_equal. apply countb_ext. intros x _. by rewrite arrives_ne.
    + intros [-> ?]. by destruct (both_words c Hc Hr Hl).
  - intros q Hq Hqr. rewrite (arrives_ne _ _ (ClrR q)) by done. case_decide as E; [destruct E as [-> _]|].
    + by rewrite arrives_at, Hcl.
    + rewrite arrives_ne by (intros [= ->]; tauto). by apply (m_R _ _ _ Hm).
Qed.

Lemma gmem_clrR arr mm L p : gmem arr mm L -> p ∈ M -> p <> root ->
  gmem (arrives arr (ClrR p)) (<[p := <[R := 0]> (mm p)]> mm) L.
Proof.
  intros Hm Hp Hr. apply gmem_word; [done|done|by right|done| |].
  - intros q Hq Hl. rewrite arrives_ne by done. rewrite decide_False.
    + rewrite (m_A _ _ _ Hm q Hq Hl). case_match; [done|]. f_equal. apply countb_ext. intros x _. by rewrite arrives_ne.
    + intros [-> ?]. by destruct (both_words p Hp Hr Hl).
  - intros q Hq Hqr. rewrite (arrives_ne _ _ (Flag q)) by done. case_decide as E; [destruct E as [-> _]|].
    + by rewrite arrives_at, andb_false_r.
    + rewrite arrives_ne by (intros [= ->]; tauto). by apply (m_R _ _ _ Hm).
Qed.

Lemma gmem_clrA arr mm L p : gmem arr mm L -> p ∈ M -> leads p = true ->
  gmem (arrives arr (ClrA p)) (<[p := <[A := 0]> (mm p)]> mm) L.
Proof.
  intros Hm Hp Hl. apply gmem_word; [done|done|by left|done| |].
  - intros q Hq Hlq. case_decide as E; [destruct E as [-> _]; by rewrite arrives_at|].
    rewrite arrives_ne by (intros [= ->]; tauto). rewrite (m_A _ _ _ Hm q Hq Hlq). case_match; [done|].
    f_equal. apply countb_ext. intros x _. by rewrite arrives_ne.
  - intros q Hq Hqr. rewrite !arrives_ne by done. rewrite decide_False; [by apply (m_R _ _ _ Hm)|].
    intros [-> ?]. by destruct (both_words p Hq Hqr Hl).
Qed.

Lemma gmem_ack arr mm L c : gmem arr mm L -> c ∈ M -> c <> root ->
  arr (Ack c) = false -> arr (ClrA (parent c)) = false ->
  gmem (arrives arr (Ack c)) (<[parent c := <[A := sum (mm (parent c) A) 1]> (mm (parent c))]> mm) L.
Proof.
  intros Hm Hc Hr Hn Hcl. destruct (tree_child_of HT c Hc Hr) as [Hp Hcin].
  pose proof (leads_child _ _ Hcin) as Hlp.
  assert (countb (fun x => arrives arr (Ack c) (Ack x)) (children (parent c)) =
    S (countb (fun x => arr (Ack x)) (children (parent c)))) as Hcount.
  { apply (countb_flip _ _ _ c); [by apply (tree_children_nodup (Tree:=HT))|done|done|apply arrives_at|].
    intros x _ Hx. apply arrives_ne. congruence. }
  assert (sum (mm (parent c) A) 1 = mm (parent c) A + 1) as Hs.
  { pose proof (Hbig _ Hp). rewrite (m_A _ _ _ Hm _ Hp Hlp), Hcl.
    pose proof (countb_le (fun x => arrives arr (Ack c) (Ack x)) (children (parent c))).
    unfold sum, long_calc. apply signed_sum; lia. }
  rewrite Hs. apply gmem_word; [done|done|by left|done| |].
  - intros q Hq Hlq. rewrite (arrives_ne _ _ (ClrA q)) by done. case_decide as E.
    + destruct E as [-> _]. rewrite Hcl, Hcount, (m_A _ _ _ Hm _ Hp Hlp), Hcl. lia.
    + rewrite (m_A _ _ _ Hm q Hq Hlq). case_match; [done|]. f_equal. apply countb_ext. intros x Hx.
      rewrite arrives_ne; [done|]. intros [= ->]. destruct (tree_child_in HT q c Hq Hx) as (_ & _ & <-). tauto.
  - intros q Hq Hqr. rewrite !arrives_ne by done. rewrite decide_False; [by apply (m_R _ _ _ Hm)|].
    intros [-> ?]. by destruct (both_words _ Hq Hqr Hlp).
Qed.

(** The own contribution of a leader arrives. *)
Lemma gmem_self arr mm L p :
  gmem arr mm L -> p ∈ M -> arr (Self p) = false -> arr (Dat p) = false ->
  gmem (arrives arr (Self p))
    (<[p := apply_vals KPut target (map (fun o => (o, m0 p (source + o))) (upto 0 len)) (mm p)]> mm) L.
Proof.
  intros Hm Hp Hns Hnd'. set (m' := apply_vals _ _ _ _).
  assert (forall a, ~ (target <= a < target + len) -> m' a = mm p a) as Hout.
  { intros a Ha. destruct (apply_puts target (map (fun o => (o, m0 p (source + o))) (upto 0 len)) (mm p) a)
      as [([k x] & Hx & E & _)|[_ ?]]; [|done].
    apply list_elem_of_fmap in Hx as (k' & [= -> ->] & Hk%elem_of_upto). simpl in E. lia. }
  assert (forall o, o ∈ offs -> m' (target + o) = m0 p (source + o)) as Hat.
  { intros o Ho. destruct (apply_puts target (map (fun o => (o, m0 p (source + o))) (upto 0 len)) (mm p) (target + o))
      as [([k x] & Hx & E & Ev)|[Hn _]].
    - apply list_elem_of_fmap in Hx as (k' & [= -> ->] & Hk%elem_of_upto). simpl in E, Ev.
      unfold m'. rewrite Ev. do 2 f_equal. lia.
    - exfalso. apply (Hn (o, m0 p (source + o))); [|done]. apply list_elem_of_fmap. exists o.
      split; [done|]. by apply elem_of_upto, Hoffs. }
  pose proof (m_single _ _ _ Hm p Hp Hns Hnd') as Hone.
  destruct Hm as [H1 H2 H3 H4 H5 H6 H7 H8].
  split; repeat setoid_rewrite (arrives_ne arr (Self p) (Dat _) ltac:(done)); try done.
  - intros q Hq Hl. rewrite arrives_ne by done. transitivity (mm q A); [|rewrite H1 by done; case_match; [done|]].
    + update_cases; [subst q|done]. by apply Hout.
    + f_equal. apply countb_ext. intros x _. by rewrite arrives_ne.
  - intros q Hq Hr. rewrite !arrives_ne by done. rewrite <- H2 by done. update_cases; [subst q|done]. by apply Hout.
  - intros q a Ha. update_cases; [subst q|].
    + destruct Ha as [|(HaA & HaR & Ha)]; [done|]. rewrite arrives_at in Ha. destruct Ha as [|Ha]; [done|].
      rewrite Hout by done. apply H3. auto.
    + apply H3. destruct Ha as [|(? & ? & Ha)]; [by left|right]. rewrite arrives_ne in Ha by congruence. done.
  - intros q Hq Hs Hd. destruct (decide (q = p)) as [->|Hne]; [by rewrite arrives_at in Hs|].
    rewrite arrives_ne in Hs by congruence. auto.
  - intros q Hq Hs Hd o Ho. update_cases; [subst q|].
    + rewrite Hat by done. by rewrite Hone.
    + rewrite arrives_ne in Hs by congruence. auto.
Qed.

(** The contributions of a member move to its parent. *)
Definition merge (L : Z -> list Z) (c : Z) : Z -> list Z := <[c := []]> (<[parent c := L (parent c) ++ L c]> L).

Lemma merge_own L c : c ∈ M -> c <> root -> (M ≫= merge L c) ≡ₚ (M ≫= L).
Proof.
  intros Hc Hr. destruct (tree_child_of HT c Hc Hr) as [Hp _]. pose proof (tree_parent_ne HT c Hc Hr) as Hne.
  apply elem_of_Permutation in Hc as [M1 E1]. pose proof HM as Hnd'. rewrite E1 in Hnd', Hp.
  apply list.NoDup_cons in Hnd' as [Hc1 Hnd']. apply elem_of_cons in Hp as [?|Hp]; [congruence|].
  apply elem_of_Permutation in Hp as [M2 E2]. rewrite E2 in Hnd', E1, Hc1. rewrite E1. simpl.
  apply list.NoDup_cons in Hnd' as [Hp2 _]. apply not_elem_of_cons in Hc1 as [_ Hc2].
  unfold merge. rewrite fn_lookup_insert, (fn_lookup_insert_ne _ c) by done. rewrite fn_lookup_insert. simpl.
  rewrite (app_assoc (L c)). apply Permutation_app; [apply Permutation_app_comm|].
  assert (forall l, c ∉ l -> parent c ∉ l -> (l ≫= <[c:=[]]> (<[parent c:=L (parent c) ++ L c]> L)) = (l ≫= L)) as E.
  { induction l as [|q l IH]; [done|]. intros [Hq1 Hl1]%not_elem_of_cons [Hq2 Hl2]%not_elem_of_cons.
    rewrite !bind_cons, IH by done. by rewrite !fn_lookup_insert_ne. }
  by rewrite E.
Qed.

Lemma apply_atomic vals m a : NoDup vals.*1 ->
  apply_vals (KAtomic calc) target vals m a =
  match list_find (fun x => target + x.1 = a) vals with
  | Some (_, x) => calc (m a) x.2
  | None => m a
  end.
Proof.
  revert m. induction vals as [|[o x] vals IH]; intros m Hv; [done|]. apply list.NoDup_cons in Hv as [Ho Hv].
  change (apply_vals (KAtomic calc) target ((o, x) :: vals) m) with
    (apply_vals (KAtomic calc) target vals (<[target + o := calc (m (target + o)) x]> m)).
  rewrite IH by done. simpl. destruct (decide (target + o = a)) as [E|Hne].
  - subst a. rewrite fn_lookup_insert. assert (list_find (fun x => target + x.1 = target + o) vals = None) as ->; [|done].
    apply list_find_None, list.Forall_forall. intros [o' x'] Hx E. simpl in E. apply Ho, list_elem_of_fmap.
    exists (o', x'). split; [simpl; lia|done].
  - rewrite fn_lookup_insert_ne by done. by destruct (list_find _ vals) as [[? ?]|].
Qed.

Lemma apply_totals (g : Z -> Z) m a : apply_vals (KAtomic calc) target (map (fun o => (o, g o)) offs) m a =
  if decide (a - target ∈ offs) then calc (m a) (g (a - target)) else m a.
Proof.
  rewrite apply_atomic by (rewrite <- list_fmap_compose; by rewrite list_fmap_id).
  destruct (list_find _ _) as [[k [o x]]|] eqn:E.
  - apply list_find_Some in E as (Hk & Ha & _). simpl in Ha.
    apply list_elem_of_lookup_2, list_elem_of_fmap in Hk as (o' & [= -> ->] & Ho).
    replace (a - target) with o' by lia. by rewrite decide_True.
  - rewrite decide_False; [done|]. intros Ha. apply list_find_None in E. rewrite list.Forall_forall in E.
    apply (E (a - target, g (a - target))); [|simpl; lia]. apply list_elem_of_fmap. eauto.
Qed.

Lemma gmem_dat arr mm L c :
  gmem arr mm L -> c ∈ M -> c <> root ->
  arr (Dat c) = false -> arr (Self (parent c)) = true -> arr (Dat (parent c)) = false ->
  gmem (arrives arr (Dat c))
    (<[parent c := apply_vals (KAtomic calc) target (map (fun o => (o, tot o (L c))) offs) (mm (parent c))]> mm) (merge L c).
Proof.
  intros Hm Hc Hr Hdc Hsp Hdp. destruct (tree_child_of HT c Hc Hr) as [Hp _].
  pose proof (tree_parent_ne HT c Hc Hr) as Hne. set (m' := apply_vals _ _ _ _).
  assert (forall a, ~ (target <= a < target + len) -> m' a = mm (parent c) a) as Hout.
  { intros a Ha. unfold m'. rewrite (apply_totals (fun o => tot o (L c))), decide_False; [done|].
    intros Ho%Hoffs. lia. }
  assert (forall q, q <> c -> q <> parent c -> merge L c q = L q) as HL
    by (intros q H1 H2; unfold merge; by rewrite !fn_lookup_insert_ne by done).
  assert (merge L c c = []) as HLc by (unfold merge; by rewrite fn_lookup_insert).
  assert (merge L c (parent c) = L (parent c) ++ L c) as HLp
    by (unfold merge; rewrite fn_lookup_insert_ne by done; by rewrite fn_lookup_insert).
  assert (forall o, o ∈ offs -> m' (target + o) = tot o (L (parent c) ++ L c)) as Hat.
  { intros o Ho. unfold m'. rewrite (apply_totals (fun o => tot o (L c))). replace (target + o - target) with o by lia.
    rewrite decide_True, (m_val _ _ _ Hm) by done. unfold total.
    rewrite (combine_app calc inr); try done; [by eapply m_have|by eapply m_have|by eapply owned_in|by eapply owned_in]. }
  pose proof (merge_own L c Hc Hr) as Hown. destruct Hm as [H1 H2 H3 H4 H5 H6 H7 H8].
  assert (forall i, (forall q, i <> Dat q) -> arrives arr (Dat c) i = arr i) as Harr by (intros i Hi; by apply arrives_ne).
  split.
  - intros q Hq Hl. rewrite Harr by done. transitivity (mm q A); [|rewrite H1 by done; case_match; [done|]].
    + update_cases; [subst q|done]. by apply Hout.
    + f_equal. apply countb_ext. intros x _. by rewrite Harr.
  - intros q Hq Hqr. rewrite !Harr by done. rewrite <- H2 by done. update_cases; [subst q|done]. by apply Hout.
  - intros q a Ha. rewrite Harr in Ha by done. update_cases; [subst q|by apply H3].
    rewrite Hout; [by apply H3|]. destruct Ha as [|(_ & _ & [Ha|])]; [done|congruence|done].
  - by rewrite Hown.
  - intros q Hq Hd. destruct (decide (q = c)) as [->|Hqc]; [done|]. rewrite arrives_ne in Hd by congruence.
    rewrite HL; [auto|done|congruence].
  - intros q Hq Hd. destruct (decide (q = c)) as [->|Hqc]; [by rewrite arrives_at in Hd|].
    rewrite arrives_ne in Hd by congruence. destruct (decide (q = parent c)) as [->|Hqp]; [|rewrite HL by done; auto].
    rewrite HLp. specialize (H6 _ Hp Hdp). by destruct (L (parent c)).
  - intros q Hq Hs Hd. rewrite Harr in Hs by done. destruct (decide (q = c)) as [->|Hqc]; [by rewrite arrives_at in Hd|].
    rewrite arrives_ne in Hd by congruence. rewrite HL; [auto|done|congruence].
  - intros q Hq Hs Hd o Ho. rewrite Harr in Hs by done. destruct (decide (q = c)) as [->|Hqc]; [by rewrite arrives_at in Hd|].
    rewrite arrives_ne in Hd by congruence. update_cases; [subst q; rewrite HLp; by apply Hat|]. rewrite HL by congruence. auto.
Qed.

(** ** The invariant *)

Definition ginv (lb : Z -> nat) (s : state) : Prop := exists L,
  gctl lb s /\ (forall m, m ∈ net s -> ggood m0 L m) /\ gmem (garrived lb (net s)) (mem s) L.

(** *** The network *)

(** Reading the data of a message. *)
Lemma ginv_capture lb s l1 m l2 src os :
  ginv lb s -> net s = l1 ++ m :: l2 -> m_data m = Pending src os ->
  ginv lb (set_net s (l1 ++ Msg (m_src m) (m_dst m) (m_epoch m) (m_kind m) (m_target m) (m_nbi m)
                  (Captured (map (fun o => (o, mem s (m_src m) (src + o))) os)) :: l2)).
Proof.
  intros (L & Hc & Hg & Hm) E Hd. assert (m ∈ net s) as Hm' by (rewrite E, elem_of_app, elem_of_cons; auto).
  pose proof (Hg m Hm') as Hgm. destruct (flight_in _ _ _ _ _ _ _ _ (c_flight _ _ Hc) Hm') as [Hsent Hnarr].
  destruct (flight_capture gident gident_same M gather_slots no_epoch ghome lb l1 m l2
    (Captured (map (fun o => (o, mem s (m_src m) (src + o))) os))) as [Hf Ha]; [by rewrite <- E; apply c_flight|].
  set (m2 := Msg _ _ _ _ _ _ _) in *. rewrite <- E in Ha.
  assert (gident m2 = gident m) as Hid by (apply gident_same).
  assert (ggood m0 L m2) as Hg2.
  { unfold ggood in *. rewrite Hid. destruct (gident m) as [p|c|p|p|c|c] eqn:Ei;
      try (exfalso; clear -Hgm Hd; destruct_and!; congruence); simpl.
    - destruct Hgm as (Hs & H1 & H2 & H3 & [Hda|Hda]); rewrite Hd in Hda; [|done]. injection Hda as -> ->.
      repeat (split; [done|]). right. f_equal. apply map_ext_in. intros o Ho%list_elem_of_In%elem_of_upto. f_equal.
      rewrite Hs. apply (m_frame _ _ _ Hm). right. split; [left; lia|]. split; [left; lia|by left].
    - destruct Hgm as (Hs & H1 & H2 & H3 & H4 & H5 & [Hda|Hda]); rewrite Hd in Hda; [|done]. injection Hda as -> ->.
      repeat (split; [done|]). right. f_equal. apply map_ext_in. intros o Ho%list_elem_of_In. f_equal. rewrite Hs.
      destruct (sent_gsent lb _ Hsent) as (q & v & Hh & Hcm & Hgs & Hv). injection Hh as <- <-.
      assert (c <> root) as Hr by (by inversion Hgs).
      destruct (sent_dat lb s Hc c Hcm Hr Hv) as (_ & _ & Hself & _). unfold gbuf. destruct (leads c) eqn:Hl.
      + apply (m_val _ _ _ Hm); auto.
      + assert (garrived lb (net s) (Self c) = false) as Hns.
        { destruct (garrived lb (net s) (Self c)) eqn:Hns; [|done]. apply arr_self in Hns as [_ ?]. congruence. }
        rewrite (m_single _ _ _ Hm c Hcm Hns Hnarr). unfold total, combine. simpl.
        apply (m_frame _ _ _ Hm). right. specialize (Hoffs o Ho). split; [left; lia|]. split; [left; lia|by left]. }
  destruct Hc as [C1 C2 C3 C4 C5 C6]. exists L. split; [|split].
  - split; simpl; rewrite ?Ha; try done.
    intros m' p Hin' Hs Hp Hr Hv. apply elem_of_app in Hin' as [Hin'|[->|Hin']%elem_of_cons]; [|done|];
      apply (C5 m' p); try done; rewrite E, elem_of_app, elem_of_cons; auto.
  - simpl. intros m'. rewrite elem_of_app, elem_of_cons. intros [Hin'|[->|Hin']]; [|done|];
      apply Hg; rewrite E, elem_of_app, elem_of_cons; auto.
  - simpl. by rewrite Ha.
Qed.

(** Nothing but the tests of arrival changes for the members when a message arrives. *)
Lemma gctl_deliver lb s l1 m l2 mm :
  gctl lb s -> (forall m', m' ∈ net s -> exists L, ggood m0 L m') -> net s = l1 ++ m :: l2 ->
  fence_ready m (l1 ++ l2) = true ->
  gctl lb (St mm (l1 ++ l2) (epoch s) (log s)) /\
  garrived lb (l1 ++ l2) = arrives (garrived lb (net s)) (gident m).
Proof.
  intros Hc Hg E Hf. assert (m ∈ net s) as Hm' by (rewrite E, elem_of_app, elem_of_cons; auto).
  destruct (flight_deliver gident M gather_slots no_epoch ghome lb l1 m l2) as [Hfl Ha]; [by rewrite <- E; apply c_flight|].
  rewrite <- E in Ha. split; [|by extensionality i].
  assert (forall m', m' ∈ l1 ++ l2 -> m' ∈ net s) as Hsub.
  { intros m'. rewrite E, !elem_of_app, elem_of_cons. tauto. }
  destruct Hc as [C1 C2 C3 C4 C5 C6]. split; simpl; try done.
  - intros p Hp. eapply gpos_mono; [|by apply C3]. intros i Hi. by rewrite Ha, Hi.
  - intros m' p Hin'. by apply C5, Hsub.
  - intros c Hcm Hack. rewrite Ha in Hack |- *. destruct (garrived lb (net s) (Ack c)) eqn:Hold; [by rewrite C6|].
    simpl in Hack. apply bool_decide_eq_true in Hack. apply orb_true_iff. left.
    destruct (Hg m Hm') as (L & Hgm). unfold ggood in Hgm. rewrite <- Hack in Hgm.
    destruct Hgm as (Hs & Hd & _ & _ & He & _).
    destruct (flight_in _ _ _ _ _ _ _ _ C1 Hm') as [Hsent _]. rewrite <- Hack in Hsent.
    apply sent_gsent in Hsent as (q & v & Hh & _ & Hgs & Hv). injection Hh as <- <-.
    assert (c <> root) as Hr by (by inversion Hgs).
    unfold arrived. apply andb_true_iff. split.
    + apply (sentb_intro gident M gather_slots no_epoch ghome ghome_sends lb c (9 + nc c)); [done| |lia].
      apply gsent_sends; [done|by constructor].
    + apply Nat.eqb_eq, countb_zero. intros m' Hin'. apply bool_decide_eq_false. intros Hi.
      destruct (Hg m' Hin') as (L' & Hgm'). unfold ggood in Hgm'. rewrite Hi in Hgm'.
      destruct Hgm' as (Hs' & Hd' & _ & _ & _ & He' & _).
      assert (m' ∈ l1 ++ l2) as Hin2.
      { rewrite E, elem_of_app, elem_of_cons in Hin'. rewrite elem_of_app. destruct Hin' as [|[->|]]; auto. congruence. }
      pose proof (fence_ready_none _ _ m' Hf Hin2 ltac:(congruence) ltac:(congruence)). lia.
Qed.

(** A message of the invariant comes from a member past the slot that sends it. *)
Lemma gsent_of lb s m : gctl lb s -> m ∈ net s -> exists p v, ghome (gident m) = (p, v) /\ p ∈ M /\
  gsent p v (gident m) /\ (v < lb p)%nat /\ garrived lb (net s) (gident m) = false.
Proof.
  intros Hc Hm. destruct (flight_in _ _ _ _ _ _ _ _ (c_flight _ _ Hc) Hm) as [Hsent Hn].
  destruct (sent_gsent lb _ Hsent) as (p & v & ? & ? & ? & ?). by exists p, v.
Qed.

(** What must have arrived before a message on its way. *)
Lemma before_self lb s p : gctl lb s -> leads p = true -> garrived lb (net s) (Self p) = false ->
  garrived lb (net s) (Dat p) = false.
Proof.
  intros Hc Hl Hn. apply not_true_iff_false. intros Hd.
  destruct (arr_gsent lb s _ Hd) as (q & v & Hh & Hq & Hs & Hv). injection Hh as <- <-.
  assert (p <> root) as Hr by (by inversion Hs).
  destruct (sent_dat lb s Hc p Hq Hr Hv) as (_ & _ & Hself & _). rewrite Hself in Hn by done. done.
Qed.

Lemma before_flag lb s c : gctl lb s -> garrived lb (net s) (Flag c) = false -> garrived lb (net s) (ClrR c) = false.
Proof.
  intros Hc Hn. apply not_true_iff_false. intros Hd.
  destruct (arr_gsent lb s _ Hd) as (q & v & Hh & Hq & Hs & Hv). injection Hh as <- <-.
  assert (c <> root) as Hr by (by inversion Hs).
  pose proof (p_flag _ _ _ (c_pos _ _ Hc c Hq) Hr ltac:(lia)). congruence.
Qed.

Lemma before_ack lb s c : gctl lb s -> c ∈ M -> c <> root -> garrived lb (net s) (Ack c) = false ->
  garrived lb (net s) (ClrA (parent c)) = false.
Proof.
  intros Hc Hcm Hr Hn. apply not_true_iff_false. intros Hd.
  destruct (arr_gsent lb s _ Hd) as (q & v & Hh & Hq & Hs & Hv). injection Hh as <- <-.
  assert (leads (parent c) = true) as Hl by (by inversion Hs). destruct (tree_child_of HT c Hcm Hr) as [_ Hin'].
  pose proof (p_acks _ _ _ (c_pos _ _ Hc _ Hq) Hl ltac:(lia) c Hin'). congruence.
Qed.

Lemma before_dat lb s c : gctl lb s -> c ∈ M -> c <> root -> (9 + nc c < lb c)%nat ->
  garrived lb (net s) (Dat c) = false ->
  garrived lb (net s) (Self (parent c)) = true /\
  sentb gident M gather_slots no_epoch ghome lb (Dat (parent c)) = false.
Proof.
  intros Hc Hcm Hr Hv Hn. destruct (sent_dat lb s Hc c Hcm Hr Hv) as (Hf & _).
  split; [by apply (flagged_parent lb s Hc)|]. apply not_true_iff_false. intros Hd.
  destruct (sent_gsent lb _ Hd) as (q & v & Hh & Hq & Hs & Hv'). injection Hh as <- <-.
  assert (parent c <> root) as Hpr by (by inversion Hs). destruct (tree_child_of HT c Hcm Hr) as [_ Hin'].
  destruct (sent_dat lb s Hc _ Hq Hpr Hv') as (_ & _ & _ & Hch). destruct (Hch c Hin'). congruence.
Qed.

(** The other messages do not mind a merge. *)
Lemma ggood_merge lb s L c m : gctl lb s -> c ∈ M -> m ∈ net s -> ggood m0 L m ->
  garrived lb (net s) (Dat c) = true -> sentb gident M gather_slots no_epoch ghome lb (Dat (parent c)) = false ->
  ggood m0 (merge L c) m.
Proof.
  intros Hc Hcm Hm Hg Ha Hs. destruct (flight_in _ _ _ _ _ _ _ _ (c_flight _ _ Hc) Hm) as [Hsent Hn].
  unfold ggood in *. destruct (gident m) as [p|c'|p|p|c'|c'] eqn:Ei; try exact Hg.
  assert (merge L c c' = L c') as ->; [|exact Hg]. unfold merge.
  rewrite !fn_lookup_insert_ne; [done|congruence|congruence].
Qed.

Lemma ginv_deliver lb s l1 m l2 vals :
  ginv lb s -> net s = l1 ++ m :: l2 -> m_data m = Captured vals -> fence_ready m (l1 ++ l2) = true ->
  ginv lb (set_net (set_mem s (m_dst m) (apply_vals (m_kind m) (m_target m) vals (mem s (m_dst m)))) (l1 ++ l2)).
Proof.
  intros (L & Hc & Hg & Hm) E Hd Hf. assert (m ∈ net s) as Hm' by (rewrite E, elem_of_app, elem_of_cons; auto).
  destruct (gctl_deliver lb s l1 m l2 (<[m_dst m := apply_vals (m_kind m) (m_target m) vals (mem s (m_dst m))]> (mem s)))
    as [Hc' Ha]; [done|eauto|done|done|].
  assert (forall m', m' ∈ l1 ++ l2 -> m' ∈ net s) as Hsub by (intros m'; rewrite E, !elem_of_app, elem_of_cons; tauto).
  enough (exists L', (forall m', m' ∈ l1 ++ l2 -> ggood m0 L' m') /\ gmem (arrives (garrived lb (net s)) (gident m))
    (<[m_dst m := apply_vals (m_kind m) (m_target m) vals (mem s (m_dst m))]> (mem s)) L') as (L' & Hg' & Hm'')
    by (exists L'; split; [exact Hc'|]; split; [exact Hg'|simpl; by rewrite Ha]).
  pose proof (Hg m Hm') as Hgm. destruct (gsent_of lb s m Hc Hm') as (q & v & Hh & Hq & Hs & Hv & Hn).
  unfold ggood in Hgm. destruct (gident m) as [p|c|p|p|c|c] eqn:Ei.
  - (* an own contribution *) injection Hh as <- <-. inversion Hs; subst.
    destruct Hgm as (_ & -> & -> & -> & [Hda|Hda]); rewrite Hd in Hda; [done|]. injection Hda as ->.
    exists L. split; [by auto|]. apply gmem_self; [done|done|done|]. by eapply before_self.
  - (* a flag *) injection Hh as <- <-. inversion Hs as [|k c' Hk| | | |]; subst.
    destruct (tree_child_in HT _ _ Hq (list_elem_of_lookup_2 _ _ _ Hk)) as (Hcm & Hr & _).
    destruct Hgm as (_ & -> & -> & -> & Hda). rewrite Hd in Hda. injection Hda as ->. cbn [apply_vals fold_left combine_kind].
    rewrite Z.add_0_r. exists L. split; [by auto|]. apply gmem_flag; [done|done|done|]. by eapply before_flag.
  - (* the reset of [A] *) injection Hh as <- <-. inversion Hs; subst.
    destruct Hgm as (_ & -> & -> & -> & Hda). rewrite Hd in Hda. injection Hda as ->. cbn [apply_vals fold_left combine_kind].
    rewrite Z.add_0_r. exists L. split; [by auto|]. by apply gmem_clrA.
  - (* the reset of [R] *) injection Hh as <- <-. assert (p <> root) as Hr by (by inversion Hs).
    destruct Hgm as (_ & -> & -> & -> & Hda). rewrite Hd in Hda. injection Hda as ->. cbn [apply_vals fold_left combine_kind].
    rewrite Z.add_0_r. exists L. split; [by auto|]. by apply gmem_clrR.
  - (* the data of a child *) injection Hh as <- <-. assert (c <> root) as Hr by (by inversion Hs).
    destruct (before_dat lb s c Hc Hq Hr Hv Hn) as [Hself Hnp].
    destruct Hgm as (_ & -> & -> & -> & _ & _ & [Hda|Hda]); rewrite Hd in Hda; [done|]. injection Hda as ->.
    exists (merge L c). split.
    + intros m' Hin'. eapply (ggood_merge lb _ L c); [exact Hc'|done|done|by auto| |done].
      simpl. rewrite Ha. apply arrives_at.
    + apply gmem_dat; try done. unfold arrived. by rewrite Hnp.
  - (* an acknowledgement *) injection Hh as <- <-. assert (c <> root) as Hr by (by inversion Hs).
    destruct Hgm as (_ & -> & -> & -> & _ & Hda). rewrite Hd in Hda. injection Hda as ->.
    cbn [apply_vals fold_left combine_kind]. rewrite Z.add_0_r.
    exists L. split; [by auto|]. apply gmem_ack; [done|done|done|done|]. by apply before_ack.
Qed.

Lemma ginv_net lb s s' : ginv lb s -> net_step s s' -> ginv lb s'.
Proof.
  intros Hi Hn. destruct Hn as [s l1 m l2 src os E Hd|s l1 m l2 vals E Hd Hf]; [by eapply ginv_capture|by eapply ginv_deliver].
Qed.

(** *** The members *)

Lemma gpos_next arr p v : gpos arr p v ->
  (leads p = true -> v = 2%nat -> arr (Self p) = true) ->
  (leads p = true -> v = (3 + nc p)%nat -> forall c, c ∈ children p -> arr (Ack c) = true) ->
  (leads p = true -> v = (5 + nc p)%nat -> arr (ClrA p) = true) ->
  (p <> root -> v = (6 + nc p)%nat -> arr (Flag p) = true) ->
  (p <> root -> v = (8 + nc p)%nat -> arr (ClrR p) = true) -> gpos arr p (S v).
Proof.
  intros [H1 H2 H3 H4 H5] N1 N2 N3 N4 N5. split.
  - intros Hl Hv. destruct (decide (v = 2)%nat); [auto|apply H1; [done|lia]].
  - intros Hl Hv. destruct (decide (v = 3 + nc p)%nat); [auto|apply H2; [done|lia]].
  - intros Hl Hv. destruct (decide (v = 5 + nc p)%nat); [auto|apply H3; [done|lia]].
  - intros Hl Hv. destruct (decide (v = 6 + nc p)%nat); [auto|apply H4; [done|lia]].
  - intros Hl Hv. destruct (decide (v = 8 + nc p)%nat); [auto|apply H5; [done|lia]].
Qed.

(** A member passes a slot: [ms] is what it sends. *)
Lemma ginv_move lb s p s' ms :
  let lb' := <[p := S (lb p)]> lb in
  ginv lb s -> p ∈ M -> (lb p < 13 + nc p)%nat ->
  mem s' = mem s -> net s' = net s ++ ms ->
  gflight lb' (net s') -> garrived lb' (net s') = garrived lb (net s) ->
  (forall m, m ∈ ms -> (forall L, ggood m0 L m) /\ m_src m = p /\
     (pending (m_data m) = true -> lb p <= 9 + nc p)%nat) ->
  (forall q, q ∈ M -> epoch s' q = fences q (lb' q)) ->
  gpos (garrived lb (net s)) p (S (lb p)) ->
  (p <> root -> lb p = (10 + nc p)%nat -> forall m, m ∈ net s -> m_src m = p -> pending (m_data m) = false) ->
  ginv lb' s'.
Proof.
  intros lb' (L & [C1 C2 C3 C4 C5 C6] & Hg & Hm) Hp Hlt Emem Enet Hf Ha Hms Hep Hpos Hcap.
  assert (forall q, q <> p -> lb' q = lb q) as Hne by (intros q Hq; unfold lb'; by rewrite fn_lookup_insert_ne).
  assert (lb' p = S (lb p)) as Hlp by (unfold lb'; by rewrite fn_lookup_insert).
  exists L. split; [|split].
  - split; rewrite ?Ha; try done.
    + intros q Hq. destruct (decide (q = p)) as [->|Hqp]; [lia|]. rewrite Hne by done. by apply C2.
    + intros q Hq. destruct (decide (q = p)) as [->|Hqp]; [by rewrite Hlp|]. rewrite Hne by done. by apply C3.
    + intros m q. rewrite Enet. intros [Hin'|Hin']%elem_of_app Hs Hq Hr Hv.
      * destruct (decide (q = p)) as [->|Hqp]; [|rewrite Hne in Hv by done; by eapply C5].
        rewrite Hlp in Hv. destruct (decide (lb p = 10 + nc p)%nat); [by apply Hcap|]. apply (C5 m p); done || lia.
      * destruct (Hms m Hin') as (_ & Hs' & Hpd). assert (q = p) as -> by congruence. rewrite Hlp in Hv.
        destruct (pending (m_data m)); [specialize (Hpd eq_refl); lia|done].
  - intros m. rewrite Enet. intros [Hin'|Hin']%elem_of_app; [auto|]. by apply Hms.
  - by rewrite Ha, Emem.
Qed.

Lemma ginv_op_gen lb s p o x s' :
  ginv lb s -> p ∈ M -> gather_slots p !! lb p = Some (Some o) -> op_exec p o s = Some (x, s') ->
  remote_op o = true -> gpos (garrived lb (net s)) p (S (lb p)) ->
  (forall m L, op_msg p o (fences p (lb p)) = Some m -> ggood m0 L m /\ (pending (m_data m) = true -> lb p <= 9 + nc p)%nat) ->
  fences p (S (lb p)) = match o with OFence => S (fences p (lb p)) | _ => fences p (lb p) end ->
  (p <> root -> lb p = (10 + nc p)%nat -> forall m, m ∈ net s -> m_src m = p -> pending (m_data m) = false) ->
  ginv (<[p := S (lb p)]> lb) s'.
Proof.
  intros Hi Hp Ho Hex Hrm Hpos Hms Hfe Hcap. pose proof Hi as (L & Hc & _).
  destruct (flight_op gident M gather_slots no_epoch ghome ghome_sends lb s p o x s' Hp (c_flight _ _ Hc) Ho Hex (gident_epoch _ _ _ _)) as [Hf Ha].
  pose proof (lookup_lt_Some _ _ _ Ho) as Hlt. rewrite gather_length_slots in Hlt.
  apply (ginv_move lb s p s' (option_list (op_msg p o (epoch s p)))); try done.
  - by eapply op_exec_mem.
  - by eapply op_exec_net.
  - intros m. rewrite (c_epoch _ _ Hc p Hp). destruct (op_msg p o (fences p (lb p))) as [m1|] eqn:E; [|by intros ?%elem_of_nil].
    intros ->%list_elem_of_singleton. split; [intros L'; by apply Hms|]. split; [|by apply (Hms m1 L)].
    destruct o; try done; simpl in E; by injection E as <-.
  - intros q Hq. rewrite (op_exec_epoch _ _ _ _ _ Hex). pose proof (c_epoch _ _ Hc q Hq) as Hq'.
    destruct (decide (q = p)) as [->|Hqp].
    + rewrite fn_lookup_insert, Hfe, <- Hq'. destruct o; try done. by rewrite fn_lookup_insert.
    + rewrite (fn_lookup_insert_ne lb) by done. rewrite <- Hq'. destruct o; try done. by rewrite fn_lookup_insert_ne.
Qed.

Lemma ginv_empty lb s p : ginv lb s -> p ∈ M -> gather_slots p !! lb p = Some None -> ginv (<[p := S (lb p)]> lb) s.
Proof.
  intros Hi Hp Ho. pose proof Hi as (L & Hc & _).
  destruct (flight_empty gident M gather_slots no_epoch ghome ghome_sends lb (net s) p Hp (c_flight _ _ Hc) Ho) as [Hf Ha].
  pose proof (lookup_lt_Some _ _ _ Ho) as Hlt. rewrite gather_length_slots in Hlt. apply gather_slots_view in Ho.
  assert (leads p = true -> lb p <> 2 /\ lb p <> 3 + nc p /\ lb p <> 5 + nc p)%nat as Hld.
  { intros Hl. remember (lb p) as v eqn:Hv in Ho. remember None as o eqn:Hn in Ho. rewrite <- Hv.
    destruct Ho as [| | |k c Hk%lookup_lt_Some| | | | | | | | | |]; try done; try (apply slot_none in Hn); try congruence; lia. }
  assert (p <> root -> (lb p <= 5 + nc p)%nat) as Hfo.
  { intros Hr%gather_follower_iff. remember (lb p) as v eqn:Hv in Ho. remember None as o eqn:Hn in Ho. rewrite <- Hv.
    destruct Ho as [| | |k c Hk%lookup_lt_Some| | | | | | | | | |]; try done; try (apply slot_none in Hn); try congruence; lia. }
  apply (ginv_move lb s p s []); try done; rewrite ?app_nil_r; try done.
  - by intros m ?%elem_of_nil.
  - intros q Hq. rewrite (c_epoch _ _ Hc q Hq). unfold fences. update_cases; [subst q|done].
    repeat case_decide; try lia; destruct_and?; exfalso; specialize (Hfo ltac:(done)); lia.
  - apply gpos_next; [by apply c_pos| | | | |]; intros H1 H2; exfalso;
      try (destruct (Hld H1) as (? & ? & ?)); try specialize (Hfo H1); lia.
  - intros Hr Hv. specialize (Hfo Hr). lia.
Qed.

(** The waits. *)

Lemma self_arrived lb s p : ginv lb s -> p ∈ M -> leads p = true -> (0 < lb p)%nat ->
  (forall m, m ∈ net s -> m_src m <> p) -> garrived lb (net s) (Self p) = true.
Proof.
  intros (L & Hc & Hg & _) Hp Hl Hv Hn. unfold arrived. apply andb_true_iff. split.
  - apply (sentb_intro gident M gather_slots no_epoch ghome ghome_sends lb p 0); [done| |done].
    apply gsent_sends; [done|by constructor].
  - apply Nat.eqb_eq, countb_zero. intros m Hm. apply bool_decide_eq_false. intros Hid. apply (Hn m Hm).
    specialize (Hg m Hm). unfold ggood in Hg. rewrite Hid in Hg. by destruct Hg.
Qed.

Lemma acks_arrived lb s p : ginv lb s -> p ∈ M -> leads p = true -> (lb p <= 4 + nc p)%nat ->
  mem s p A = Z.of_nat (nc p) -> forall c, c ∈ children p -> garrived lb (net s) (Ack c) = true.
Proof.
  intros (L & Hc & _ & Hm) Hp Hl Hv HA. rewrite (m_A _ _ _ Hm p Hp Hl) in HA.
  destruct (garrived lb (net s) (ClrA p)) eqn:Ha.
  - destruct (arr_gsent lb s _ Ha) as (q & v & Hh & _ & _ & Hv'). injection Hh as <- <-. lia.
  - apply Nat2Z.inj in HA. intros c Hcin. by apply (proj1 (countb_all (fun c => garrived lb (net s) (Ack c)) _) HA).
Qed.

Lemma clrA_arrived lb s p : ginv lb s -> p ∈ M -> leads p = true -> (3 + nc p < lb p)%nat ->
  mem s p A = 0 -> garrived lb (net s) (ClrA p) = true.
Proof.
  intros (L & Hc & _ & Hm) Hp Hl Hv HA. rewrite (m_A _ _ _ Hm p Hp Hl) in HA.
  destruct (garrived lb (net s) (ClrA p)) eqn:Ha; [done|exfalso].
  pose proof (p_acks _ _ _ (c_pos _ _ Hc p Hp) Hl Hv) as Hall.
  apply (countb_all (fun c => garrived lb (net s) (Ack c))) in Hall. apply gather_leads_iff in Hl. lia.
Qed.

Lemma flag_arrived lb s p : ginv lb s -> p ∈ M -> p <> root -> mem s p R <> 0 -> garrived lb (net s) (Flag p) = true.
Proof.
  intros (L & _ & _ & Hm) Hp Hr HR. rewrite (m_R _ _ _ Hm p Hp Hr) in HR. by destruct (garrived _ _ (Flag p)).
Qed.

Lemma clrR_arrived lb s p : ginv lb s -> p ∈ M -> p <> root -> (6 + nc p < lb p)%nat -> mem s p R = 0 ->
  garrived lb (net s) (ClrR p) = true.
Proof.
  intros (L & Hc & _ & Hm) Hp Hr Hv HR. rewrite (m_R _ _ _ Hm p Hp Hr) in HR.
  rewrite (p_flag _ _ _ (c_pos _ _ Hc p Hp) Hr Hv) in HR. by destruct (garrived _ _ (ClrR p)).
Qed.

(** The wait for the data to have been read. *)
Lemma data_read lb s p x s' m : ginv lb s -> p ∈ M -> lb p = (10 + nc p)%nat -> op_exec p OPutWait s = Some (x, s') ->
  m ∈ net s -> m_src m = p -> pending (m_data m) = false.
Proof.
  intros (L & Hc & Hg & _) Hp Hv Hex Hm Hs. destruct (pending (m_data m)) eqn:Hpd; [|done]. rewrite <- Hpd.
  pose proof (Hg m Hm) as Hgm. destruct (ggood_pending _ _ _ Hgm Hpd) as [Hid|Hid].
  - exfalso. destruct (gsent_of lb s m Hc Hm) as (q & v & Hh & _ & Hgs & _ & Hn).
    rewrite Hid, Hs in *. injection Hh as <- <-. assert (leads p = true) as Hl by (by inversion Hgs).
    rewrite (p_self _ _ _ (c_pos _ _ Hc p Hp) Hl) in Hn; [done|lia].
  - eapply putwait_done; [done..|]. unfold ggood in Hgm. rewrite Hid in Hgm. by destruct_and!.
Qed.

(** No fence here. *)
Lemma fences_same p v : v <> (11 + nc p)%nat -> fences p (S v) = fences p v.
Proof. intros Hv. unfold fences. repeat case_decide; lia. Qed.

Lemma ginv_op lb s p o x s' : ginv lb s -> p ∈ M -> gather_slots p !! lb p = Some (Some o) ->
  op_exec p o s = Some (x, s') -> ginv (<[p := S (lb p)]> lb) s'.
Proof.
  intros Hinv Hp Ho Hex. pose proof (gather_slots_view _ _ _ Ho) as Hview. pose proof words_ne as [HRt HAt].
  pose proof Hinv as (L & Hc & _ & _). pose proof (c_pos _ _ Hc p Hp) as Hpos.
  apply (ginv_op_gen lb s p o x s' Hinv Hp Ho Hex).
  all: remember (lb p) as v eqn:Hv in Hview; remember (Some o) as oo eqn:Hn in Hview; symmetry in Hv.
  - destruct Hview; try (apply slot_some in Hn as [Hn ->]); try (injection Hn as <-); done.
  - destruct Hview; try (apply slot_some in Hn as [Hn ->]); try (injection Hn as <-);
      try (apply gather_follower_iff in Hn); apply gpos_next; try exact Hpos; intros H1 H2; try (exfalso; lia);
      try (exfalso; apply lookup_lt_Some in H; lia).
    + apply self_arrived; [done|done|done|lia|]. intros m. by eapply quiet_done.
    + simpl in Hex. case_match eqn:E; [|done]. apply Z.eqb_eq in E. apply acks_arrived; done || lia.
    + simpl in Hex. case_match eqn:E; [|done]. apply Z.eqb_eq in E. apply clrA_arrived; done || lia.
    + simpl in Hex. case_match eqn:E; [|done]. apply negb_true_iff, Z.eqb_neq in E. by apply flag_arrived.
    + simpl in Hex. case_match eqn:E; [|done]. apply Z.eqb_eq in E. apply clrR_arrived; done || lia.
  - intros m L' Hm.
    destruct Hview as [| | |k c Hk| | | | | | | | | |]; try (apply slot_some in Hn as [Hn ->]); try (injection Hn as <-);
      try (apply gather_follower_iff in Hn); try done; injection Hm as <-; (split; [|simpl; try done; lia]);
      unfold ggood, gident; simpl; rewrite ?HRt, ?HAt, ?Z.eqb_refl.
    + repeat (split; [done|]). by left.
    + destruct (tree_child_in HT p c Hp (list_elem_of_lookup_2 _ _ _ Hk)) as (Hcm & Hcr & Hpc).
      rewrite (proj2 (Z.eqb_neq p c)); [by repeat split|]. intros ->. by apply (tree_parent_ne HT c).
    + by rewrite Hn.
    + destruct (Z.eqb_spec R A) as [E|]; [|done]. destruct (leads p) eqn:Hl; [|done].
      by destruct (both_words p Hp Hn Hl).
    + repeat (split; [done|]). split; [unfold fences; by rewrite decide_False by lia|]. by left.
    + repeat (split; [done|]). split; [unfold fences; by rewrite decide_True by (split; [done|lia])|done].
  - destruct Hview as [| | |k c Hk%lookup_lt_Some| | | | | | | | | |]; try (apply slot_some in Hn as [Hn ->]);
      try (injection Hn as <-); try (apply fences_same; lia).
    apply gather_follower_iff in Hn. unfold fences. by rewrite decide_True, decide_False by (done || lia || (split; [done|lia])).
  - intros Hr Hv' m Hm Hs. destruct Hview as [| | |k c Hk%lookup_lt_Some| | | | | | | | | |]; try (exfalso; lia).
    apply slot_some in Hn as [_ ->]. by eapply data_read.
Qed.

(** *** Progress *)

Abbreviation gsentb := (sentb gident M gather_slots no_epoch ghome).

(** With an idle network a member is blocked only before its flag or its acknowledgements. *)
Definition unflagged (lb : Z -> nat) (p : Z) : Prop :=
  lb p = (6 + nc p)%nat /\ p <> root /\ gsentb lb (Flag p) = false.
Definition unacked (lb : Z -> nat) (p : Z) : Prop :=
  lb p = (3 + nc p)%nat /\ Exists (fun c => gsentb lb (Ack c) = false) (children p).

Lemma gather_runs lb s p : ginv lb s -> settled M gather_slots lb -> net s = [] -> p ∈ M ->
  (lb p < 13 + nc p)%nat -> ~ unflagged lb p -> ~ unacked lb p ->
  exists p o r, p ∈ M /\ gather_slots p !! lb p = Some (Some o) /\ op_exec p o s = Some r.
Proof.
  intros Hinv Hset Hnet Hp Hlt Hf Ha. destruct (Hset p Hp) as [[o Ho]|Hge]; [|rewrite gather_length_slots in Hge; lia].
  exists p, o. enough (exists r, op_exec p o s = Some r) as [r Hr] by eauto.
  pose proof Hinv as (L & Hc & _ & Hm). pose proof (c_pos _ _ Hc p Hp) as Hpos. rewrite Hnet in Hm, Hpos.
  apply gather_slots_view in Ho. remember (lb p) as v eqn:Hv in Ho. remember (Some o) as oo eqn:Hn in Ho. symmetry in Hv.
  assert (forall i, garrived lb [] i = gsentb lb i) as Hidle by (intros i; apply arrived_idle).
  destruct Ho as [| | |k c Hk| | | | | | | | | |]; try (apply slot_some in Hn as [Hn ->]); try (injection Hn as <-);
    try (apply gather_follower_iff in Hn); simpl; rewrite ?Hnet; simpl; eauto.
  - assert (garrived lb [] (ClrA p) = false) as Hx.
    { apply not_true_iff_false. rewrite Hidle. intros (q & u & Hh & _ & _ & Hu)%sent_gsent. injection Hh as <- <-. lia. }
    assert (countb (fun c => garrived lb [] (Ack c)) (children p) = nc p) as Hall.
    { apply countb_all. intros c Hcin. rewrite Hidle. destruct (gsentb lb (Ack c)) eqn:Hs; [done|exfalso].
      apply Ha. split; [done|]. apply list.Exists_exists. eauto. }
    rewrite (m_A _ _ _ Hm p Hp Hn), Hx, Hall, Z.eqb_refl. eauto.
  - rewrite (m_A _ _ _ Hm p Hp Hn), Hidle.
    rewrite (sentb_intro gident M gather_slots no_epoch ghome ghome_sends lb p (4 + nc p)); [simpl; eauto|done| |lia].
    apply gsent_sends; [done|by constructor].
  - rewrite (m_R _ _ _ Hm p Hp Hn), !Hidle. destruct (gsentb lb (Flag p)) eqn:Hs; [|exfalso; by apply Hf].
    destruct (gsentb lb (ClrR p)) eqn:Hs'; simpl; [|eauto].
    apply sent_gsent in Hs' as (q & u & Hh & _ & _ & Hu). injection Hh as <- <-. lia.
  - rewrite (m_R _ _ _ Hm p Hp Hn), !Hidle.
    rewrite (sentb_intro gident M gather_slots no_epoch ghome ghome_sends lb p (7 + nc p) (ClrR p)); [|done| |lia].
    + rewrite andb_false_r. simpl. eauto.
    + apply gsent_sends; [done|by constructor].
Qed.

Lemma gather_progress lb s : ginv lb s -> settled M gather_slots lb -> net s = [] ->
  (forall p, p ∈ M -> (length (gather_slots p) <= lb p)%nat) \/
  exists p o r, p ∈ M /\ gather_slots p !! lb p = Some (Some o) /\ op_exec p o s = Some r.
Proof.
  intros Hinv Hset Hnet. pose proof (gather_runs lb s) as Hgo.
  destruct (decide (Exists (unflagged lb) M)) as [HA|HA].
  - (* a member that has not been told to send: its parent runs *)
    right. apply list.Exists_exists in HA as (p & Hp & Hv & Hr & Hs). destruct (tree_child_of HT p Hp Hr) as [Hpp Hin'].
    pose proof (index_in _ _ Hin') as Hidx. pose proof (lookup_lt_Some _ _ _ Hidx) as Hlt.
    assert (lb (parent p) <= 3 + index p (children (parent p)))%nat as Hle.
    { destruct (decide (lb (parent p) <= 3 + index p (children (parent p)))%nat) as [|Hgt]; [done|exfalso].
      rewrite (sentb_intro gident M gather_slots no_epoch ghome ghome_sends lb (parent p) (3 + index p (children (parent p)))) in Hs;
        [done|done| |lia]. apply gsent_sends; [done|by constructor]. }
    apply (Hgo (parent p)); try done; [lia|intros [? _]; lia|intros [? _]; lia].
  - assert (forall p, p ∈ M -> ~ unflagged lb p) as HnA by (intros p Hp Hu; apply HA, list.Exists_exists; eauto).
    destruct (decide (Exists (unacked lb) M)) as [HB|HB].
    + (* the lowest member that waits for its children: one of them runs *)
      right. apply list.Exists_exists in HB as (y & Hy & Hyu).
      destruct (list_argmax rank (unacked lb) M y Hy Hyu) as (p & Hp & (Hv & Hex) & Hmax).
      apply list.Exists_exists in Hex as (c & Hcin & Hs). destruct (tree_child_in HT p c Hp Hcin) as (Hcm & Hcr & Hcp).
      pose proof (tree_rank (Tree:=HT) c Hcm Hcr) as Hrk. rewrite Hcp in Hrk.
      assert (lb c <= 12 + nc c)%nat as Hle.
      { destruct (decide (lb c <= 12 + nc c)%nat) as [|Hgt]; [done|exfalso].
        rewrite (sentb_intro gident M gather_slots no_epoch ghome ghome_sends lb c (12 + nc c)) in Hs; [done|done| |lia].
        apply gsent_sends; [done|by constructor]. }
      apply (Hgo c); try done; [lia|by apply HnA|]. intros Hu. specialize (Hmax c Hcm Hu). lia.
    + destruct (decide (Exists (fun p => lb p < 13 + nc p)%nat M)) as [HC|HC].
      * right. apply list.Exists_exists in HC as (p & Hp & Hlt). apply (Hgo p); try done; [by apply HnA|].
        intros Hu. apply HB, list.Exists_exists. eauto.
      * left. intros p Hp. rewrite gather_length_slots. destruct (decide (13 + nc p <= lb p)%nat) as [|Hn]; [done|].
        exfalso. apply HC, list.Exists_exists. exists p. split; [done|lia].
Qed.

(** *** The end *)

(** When the root is past its wait for its children, everybody has sent everything. *)
Lemma root_past lb s : ginv lb s -> (3 + nc root < lb root)%nat ->
  forall p, p ∈ M -> p <> root -> garrived lb (net s) (Ack p) = true /\ lb p = (13 + nc p)%nat.
Proof.
  intros (L & Hc & _) Hv.
  assert (forall n p, p ∈ M -> p <> root -> (Z.to_nat (rank p) < n)%nat ->
    garrived lb (net s) (Ack p) = true /\ lb p = (13 + nc p)%nat) as H; [|intros p Hp Hr; by apply (H (S (Z.to_nat (rank p)))); [| |lia]].
  induction n as [|n IH]; intros p Hp Hr Hn; [lia|].
  destruct (tree_child_of HT p Hp Hr) as [Hpp Hcin]. pose proof (tree_rank (Tree:=HT) p Hp Hr) as Hrk.
  assert (3 + nc (parent p) < lb (parent p))%nat as Hpv.
  { destruct (decide (parent p = root)) as [->|Hpr]; [done|]. destruct (IH (parent p) Hpp Hpr); lia. }
  assert (garrived lb (net s) (Ack p) = true) as Ha
    by (apply (p_acks _ _ _ (c_pos _ _ Hc _ Hpp)); [by eapply leads_child|done|done]).
  split; [done|]. destruct (arr_gsent lb s _ Ha) as (q & v & Hh & _ & _ & Hv'). injection Hh as <- <-.
  pose proof (c_len _ _ Hc p Hp). lia.
Qed.

Lemma root_end lb s : ginv lb s -> (13 + nc root <= lb root)%nat ->
  (forall p, p ∈ M -> lb p = (13 + nc p)%nat) /\ net s = [] /\
  (forall o, o ∈ offs -> mem s root (target + o) = tot o M) /\
  (forall p, p ∈ M -> (leads p = true -> mem s p A = 0) /\ (p <> root -> mem s p R = 0)).
Proof.
  intros Hinv Hv. pose proof (root_past lb s Hinv ltac:(lia)) as Hpast. destruct Hinv as (L & Hc & Hg & Hm).
  assert (forall p, p ∈ M -> lb p = (13 + nc p)%nat) as Hend.
  { intros p Hp. destruct (decide (p = root)) as [->|Hr]; [|by apply Hpast]. pose proof (c_len _ _ Hc root Hp). lia. }
  pose proof (fun p Hp => c_pos _ _ Hc p Hp) as Hpos.
  assert (forall p, p ∈ M -> p <> root -> garrived lb (net s) (Dat p) = true) as Hdat
    by (intros p Hp Hr; apply (c_order _ _ Hc); [done|by apply Hpast]).
  split; [done|]. split; [|split].
  - destruct (net s) as [|m n] eqn:En; [done|exfalso]. assert (m ∈ net s) as Hin' by (rewrite En; apply list_elem_of_here).
    destruct (gsent_of lb s m Hc Hin') as (q & v & Hh & Hq & Hs & _ & Hn). rewrite <- En in *.
    apply not_true_iff_false in Hn. apply Hn. destruct Hs as [Hl|k c Hk|Hl|Hr|Hr|Hr].
    + apply (p_self _ _ _ (Hpos _ Hq)); [done|]. rewrite Hend by done. lia.
    + destruct (tree_child_in HT _ _ Hq (list_elem_of_lookup_2 _ _ _ Hk)) as (Hcm & Hr & _).
      apply (p_flag _ _ _ (Hpos _ Hcm) Hr). rewrite Hend by done. lia.
    + apply (p_clrA _ _ _ (Hpos _ Hq)); [done|]. rewrite Hend by done. lia.
    + apply (p_clrR _ _ _ (Hpos _ Hq) Hr). rewrite Hend by done. lia.
    + by apply Hdat.
    + by apply Hpast.
  - intros o Ho. pose proof (tree_root_member (Tree:=HT)) as Hrm.
    assert (leads root = true) as Hl by (by apply gather_leads_iff).
    assert (garrived lb (net s) (Dat root) = false) as Hd.
    { apply not_true_iff_false. intros Hd. destruct (arr_gsent lb s _ Hd) as (q & v & _ & _ & Hs & _). by inversion Hs. }
    rewrite (m_val _ _ _ Hm); [|done|apply (p_self _ _ _ (Hpos _ Hrm) Hl); rewrite Hend by done; lia|done|done].
    apply (combine_perm calc inr); try done; [|by eapply owned_in].
    rewrite <- (m_own _ _ _ Hm). apply elem_of_Permutation in Hrm as [M' E]. pose proof HM as Hnd'. rewrite E in Hnd' |- *.
    apply list.NoDup_cons in Hnd' as [Hnr _]. rewrite bind_cons.
    assert ((M' ≫= L) = []) as ->; [|by rewrite app_nil_r].
    assert (forall l, (forall p, p ∈ l -> L p = []) -> (l ≫= L) = []) as Hb.
    { induction l as [|q l IH]; intros HL; [done|]. rewrite bind_cons, IH, HL; [done|apply list_elem_of_here|].
      intros p Hp. apply HL. by apply list_elem_of_further. }
    apply Hb. intros p Hp. assert (p ∈ M) as HpM by (rewrite E; by apply list_elem_of_further).
    apply (m_gone _ _ _ Hm); [done|]. apply Hdat; [done|]. by intros ->.
  - intros p Hp. split.
    + intros Hl. rewrite (m_A _ _ _ Hm p Hp Hl), (p_clrA _ _ _ (Hpos p Hp) Hl); [done|]. rewrite Hend by done. lia.
    + intros Hr. rewrite (m_R _ _ _ Hm p Hp Hr), (p_clrR _ _ _ (Hpos p Hp) Hr), andb_false_r; [done|].
      rewrite Hend by done. lia.
Qed.

Lemma ginv_init : (forall p, p ∈ M -> m0 p A = 0 /\ m0 p R = 0) -> ginv (fun _ => 0%nat) (init_state m0).
Proof.
  intros H0. assert (forall i, garrived (fun _ => 0%nat) [] i = false) as Ha by (intros i; apply arrived_init).
  exists (fun p => [p]). split; [|split].
  - split; simpl; try done.
    + apply flight_init.
    + intros p _. lia.
    + intros p _. split; intros; lia.
    + intros p _. unfold fences. rewrite decide_False; [done|]. lia.
    + by intros m p ?%elem_of_nil.
    + intros c _. by rewrite Ha.
  - by intros m ?%elem_of_nil.
  - split; simpl; try setoid_rewrite Ha; try done.
    + intros p Hp _. destruct (H0 p Hp) as [-> _].
      match goal with |- _ = Z.of_nat (countb ?f ?l) => assert (countb f l = 0%nat) as -> end; [|done].
      apply countb_zero. intros c _. apply Ha.
    + intros p Hp _. by destruct (H0 p Hp) as [_ ->].
    + assert ((M ≫= (fun p => [p])) = M) as ->; [|done]. clear. induction M as [|q l IH]; [done|].
      rewrite bind_cons. by rewrite IH.
Qed.

Lemma gather_correct body :
  (forall p, p ∈ M -> body p = seqp (omap id (gather_slots p))) ->
  (forall p, p ∈ M -> m0 p A = 0 /\ m0 p R = 0) ->
  gather_spec M root target len A R offs (fun o => tot o M) m0 body (3 * sum_list (map (fun p => 13 + nc p) M))%nat.
Proof.
  intros Hbody H0. pose proof (ginv_init H0) as Hi. pose proof (tree_root_member (Tree:=HT)) as Hrm.
  assert (coll_job M m0 body = slots_job M gather_slots m0) as E.
  { unfold coll_job, slots_job. f_equal. extensionality p. unfold slot_pt. case_decide; [|done].
    rewrite drop_0. by apply Hbody. }
  pose proof (slots_reachable M gather_slots ginv ginv_empty ginv_op ginv_net m0 Hi) as Hreach. rewrite <- E in Hreach.
  assert (forall w, rtc step (coll_job M m0 body) w -> returned w root -> exists lb, ginv lb (w_st w) /\
    (forall p, p <> root -> progs w p = slot_pt M gather_slots p (lb p)) /\ (13 + nc root <= lb root)%nat) as Hret.
  { intros w Hw Hr. destruct (Hreach w Hw) as (lb & Hpt & Hinv).
    destruct (slots_returned M gather_slots ginv ginv_empty lb w root Hpt Hinv Hrm Hr) as (n & Hn & Hinv').
    rewrite gather_length_slots in Hn. eexists. split; [exact Hinv'|]. rewrite fn_lookup_insert. split; [|done].
    intros p Hp. by rewrite fn_lookup_insert_ne. }
  split.
  - rewrite E. pose proof (slots_complete M HM gather_slots ginv ginv_empty ginv_op ginv_net m0 Hi gather_progress) as Hc.
    assert (map (fun p => length (gather_slots p)) M = map (fun p => 13 + nc p)%nat M) as El
      by (apply map_ext; intros p; apply gather_length_slots). by rewrite El in Hc.
  - intros w Hw Hr. destruct (Hret w Hw Hr) as (lb & Hinv & Hp & Hv).
    destruct (root_end lb _ Hinv Hv) as (Hend & Hnet & _). split; [|done]. intros p.
    destruct (decide (p = root)) as [->|Hne]; [done|]. unfold returned. rewrite (Hp p Hne). unfold slot_pt.
    case_decide as HpM; [|done]. by rewrite drop_ge by (rewrite gather_length_slots, Hend; done).
  - intros w o Hw Hr Ho. destruct (Hret w Hw Hr) as (lb & Hinv & _ & Hv).
    destruct (root_end lb _ Hinv Hv) as (_ & _ & Htot & _). by apply Htot.
  - intros w p Hw Hr Hp. destruct (Hret w Hw Hr) as (lb & Hinv & _ & Hv).
    destruct (root_end lb _ Hinv Hv) as (_ & _ & _ & Hz). destruct Hinv as (L & _ & _ & Hm).
    destruct (Hz p Hp) as [HA HR]. pose proof (m_frame _ _ _ Hm p) as Hfr. destruct (H0 p Hp) as [H0A H0R].
    destruct (decide (p = root)) as [->|Hne].
    + specialize (HA ltac:(by apply gather_leads_iff)). split; [done|]. destruct (decide (R = A)) as [->|Hra]; [done|].
      rewrite Hfr; [done|]. right. auto.
    + specialize (HR Hne). split; [|done]. destruct (leads p) eqn:Hl; [auto|].
      destruct (decide (A = R)) as [->|Hra]; [done|]. rewrite Hfr; [done|]. right. auto.
  - intros w p a Hw Ha. destruct (Hreach w Hw) as (lb & _ & L & _ & _ & Hm). apply (m_frame _ _ _ Hm).
    destruct Ha as [|(? & ? & ?)]; auto.
Qed.
End memory.
End gather.
