(* ===== verification/Ring.v ===== *)
(** * Passing chunks around a ring

    The ring algorithms ([shmem_internal_fcollect_ring], [shmem_internal_op_to_all_ring]):
    in step [h] a member puts the chunk it received in the step before into its right
    neighbour, tells it with an atomic update of a counter, waits for the counter of its
    own step and, in the reductions, combines the chunk it received with its own
    contribution.  Each chunk is a token that moves one member further in each step: at
    hop [h] it has the value [V c h].  A member may run ahead of its neighbours by almost
    a whole turn; the counters and the fences keep the tokens in order. *)

From S2P Require Import Prelude Machine Straight Slots Internal ReduceOp Comm CollSync Flight.
Local Open Scope Z_scope.
Local Open Scope prog_scope.

(** ** What a ring promises *)

(** Under every interleaving and delivery order: the call returns on every member within
    [steps] steps of the job; a member that has returned has every chunk in its target,
    with its [total], its counters zero and, where the ring [waits] for its puts, its
    buffers free; nothing else changes than the chunks and the counters, and when
    everybody has returned nothing is in flight. *)
Record ring_spec (M : list Z) (n target : Z) (disp bytes : Z -> Z) (W0 W1 : Z) (used : Z -> Prop) (waits : bool)
    (total : Z -> Z -> Z) (m0 : Z -> lmem) (body : Z -> prog unit) (steps : nat) : Prop := {
  rg_completes : job_completes (coll_job M m0 body) steps;
  rg_delivers : forall w p c a, rtc step (coll_job M m0 body) w -> p ∈ M -> returned w p ->
    0 <= c < n -> 0 <= a < bytes c -> mem (w_st w) p (target + disp c + a) = total c a;
  rg_restored : forall w p b, rtc step (coll_job M m0 body) w -> p ∈ M -> returned w p -> used b ->
    mem (w_st w) p b = 0;
  rg_reusable : waits = true -> forall w p m, rtc step (coll_job M m0 body) w -> p ∈ M -> returned w p ->
    m ∈ net (w_st w) -> m_src m = p -> pending (m_data m) = false;
  rg_frame : forall w p b, rtc step (coll_job M m0 body) w ->
    (p ∉ M \/ b <> W0 /\ b <> W1 /\ forall c, 0 <= c < n -> ~ (exists a, 0 <= a < bytes c /\ b = target + disp c + a)) ->
    mem (w_st w) p b = m0 p b;
  rg_clean : forall w, rtc step (coll_job M m0 body) w -> all_returned w -> net (w_st w) = [] }.

(** ** Neighbours *)

Section neighbours.
Context (start stride n : Z) (Hstride : 1 <= stride) (Hn : 1 <= n).
Let M := active_set start stride n.

Definition rank (p : Z) : Z := (p - start) / stride.
Definition peer (p k : Z) : Z := start + ((rank p + k) mod n) * stride.

Lemma rank_at r : rank (start + r * stride) = r.
Proof. unfold rank. replace (start + r * stride - start) with (r * stride) by lia. apply Z.div_mul. lia. Qed.

Lemma member_at p : p ∈ M -> 0 <= rank p < n /\ p = start + rank p * stride.
Proof. intros (i & Hi & ->)%elem_of_active_set. by rewrite rank_at. Qed.

Lemma peer_in p k : peer p k ∈ M.
Proof. apply elem_of_active_set. exists ((rank p + k) mod n). split; [apply Z.mod_pos_bound; lia|done]. Qed.

Lemma rank_peer p k : rank (peer p k) = (rank p + k) mod n.
Proof. unfold peer. apply rank_at. Qed.

Lemma peer_peer p k k' : peer (peer p k) k' = peer p (k + k').
Proof. unfold peer at 1 3. rewrite rank_peer, Z.add_mod_idemp_l by lia. do 3 f_equal. lia. Qed.

Lemma peer_0 p : p ∈ M -> peer p 0 = p.
Proof. intros Hp. destruct (member_at p Hp) as [Hr E]. unfold peer. rewrite Z.add_0_r, Z.mod_small by lia. by symmetry. Qed.

Lemma peer_turn p k : peer p (k + n) = peer p k.
Proof.
  unfold peer. do 2 f_equal. rewrite Z.add_assoc. rewrite <- (Z.mul_1_l n) at 1. by rewrite Z.mod_add by lia.
Qed.

Lemma peer_ne p : 2 <= n -> p ∈ M -> peer p 1 <> p.
Proof.
  intros H2 Hp E. destruct (member_at p Hp) as [Hr _]. pose proof (f_equal rank E) as E'. rewrite rank_peer in E'.
  destruct (decide (rank p + 1 = n)) as [Hw|Hw].
  - rewrite Hw, Z.mod_same in E' by lia. lia.
  - rewrite Z.mod_small in E' by lia. lia.
Qed.
End neighbours.

Section ring.
Context (start stride n : Z) (Hstride : 1 <= stride) (Hn : 2 <= n < 2 ^ 31).
Let M := active_set start stride n.
Abbreviation rk := (rank start stride).
Definition right (p : Z) : Z := peer start stride n p 1.
Definition left (p : Z) : Z := peer start stride n p (-1).

Lemma right_in p : right p ∈ M.
Proof. apply peer_in. lia. Qed.
Lemma left_in p : left p ∈ M.
Proof. apply peer_in. lia. Qed.
Lemma right_left p : p ∈ M -> right (left p) = p.
Proof. intros Hp. unfold right, left. rewrite peer_peer by lia. by apply peer_0; [lia..|]. Qed.
Lemma left_right p : p ∈ M -> left (right p) = p.
Proof. intros Hp. unfold right, left. rewrite peer_peer by lia. by apply peer_0; [lia..|]. Qed.
Lemma right_ne p : p ∈ M -> right p <> p.
Proof. intros Hp. apply peer_ne; done || lia. Qed.

(** ** The steps *)

(** [H] steps, the first [n1] of them counted by [W0], the others by [W1]. *)
Context (H n1 : nat) (W0 W1 : Z) (Hn1 : (0 < n1 <= H)%nat) (HW : (n1 < H)%nat -> W0 <> W1).
Context (Hmany : (Z.of_nat H <= 2 * n)).
(** The chunks: their displacements and sizes. *)
Context (target source : Z) (disp bytes sdisp : Z -> Z).
Context (Hbytes : forall c, 0 <= c < n -> 0 <= bytes c).
Context (Hapart : forall c c' a a', 0 <= c < n -> 0 <= c' < n -> 0 <= a < bytes c -> 0 <= a' < bytes c' ->
  disp c + a = disp c' + a' -> c = c' /\ a = a').
(** How the puts are issued; whether the own chunk is copied to the target first (or sent
    from the source); and what is done with a chunk that has arrived. *)
Context (nbi waits copies : bool) (act : Z -> nat -> option (lmem -> lmem)).

Definition word (h : nat) : Z := if (h <? n1)%nat then W0 else W1.
Definition number (h : nat) : nat := if (h <? n1)%nat then S h else (S h - n1)%nat.
(** The last step that uses its counter. *)
Definition last_of (h : nat) : nat := if (h <? n1)%nat then (n1 - 1)%nat else (H - 1)%nat.
Definition first_of (h : nat) : nat := if (h <? n1)%nat then 0%nat else n1.
Definition is_last (h : nat) : bool := (h =? last_of h)%nat.
(** The chunk a member sends, and the one it receives. *)
Definition chunk_out (p : Z) (h : nat) : Z := (rk p - Z.of_nat h) mod n.
Definition chunk_in (p : Z) (h : nat) : Z := (rk p - 1 - Z.of_nat h) mod n.
Definition put_from (p : Z) (h : nat) : Z :=
  let c := chunk_out p h in
  if (h =? 0)%nat && negb copies then source + sdisp c else target + disp c.

Let sum := long_calc SHM_INTERNAL_SUM.
Definition step_slots (p : Z) (h : nat) : list (option op) :=
  let c := chunk_out p h in
  [slot (negb (bytes c =? 0)) (OPut (right p) (target + disp c) (Pending (put_from p h) (upto 0 (bytes c))) nbi);
   slot waits OPutWait;
   Some OFence;
   Some (OAtomic (right p) (word h) sum (Captured [(0, 1)]));
   Some (OWait (word h) SHMEM_CMP_GE (Z.of_nat (number h)));
   OLocal <$> act p h;
   slot (is_last h) (OPut p (word h) (Captured [(0, 0)]) false);
   slot (is_last h) (OWait (word h) SHMEM_CMP_EQ 0)].

Definition own_copy (p : Z) : lmem -> lmem := copy_bytes (target + disp (rk p)) (source + sdisp (rk p)) (bytes (rk p)).
Definition ring_slots (p : Z) : list (option op) :=
  slot copies (OLocal (own_copy p)) :: flat_map (step_slots p) (seq 0 H).

(** The position of slot [j] of step [h]. *)
Definition at_step (h j : nat) : nat := (1 + 8 * h + j)%nat.

Lemma slots_at p h j : (j < 8)%nat -> (h < H)%nat -> ring_slots p !! at_step h j = step_slots p h !! j.
Proof.
  intros Hj Hh. unfold ring_slots, at_step. rewrite lookup_cons_ne_0 by lia.
  replace (Nat.pred (1 + 8 * h + j)) with (8 * h + j)%nat by lia. by rewrite lookup_blocks.
Qed.

Lemma length_ring p : length (ring_slots p) = (1 + 8 * H)%nat.
Proof. unfold ring_slots. cbn [length]. by rewrite (length_blocks 8). Qed.

(** Every position is the first one, or slot [j] of step [h]. *)
Lemma ring_position p v oo : ring_slots p !! v = Some oo ->
  v = 0%nat /\ oo = slot copies (OLocal (own_copy p)) \/
  exists h j, (h < H)%nat /\ (j < 8)%nat /\ v = at_step h j /\ step_slots p h !! j = Some oo.
Proof.
  intros Hv. destruct v as [|v]; [left; by injection Hv as <-|right].
  pose proof (lookup_lt_Some _ _ _ Hv) as Hlt. rewrite length_ring in Hlt.
  destruct (in_block 8 H v ltac:(lia)) as (h & j & Hh & Hj & ->). exists h, j.
  change (S (8 * h + j)) with (at_step h j) in *. rewrite slots_at in Hv by done. done.
Qed.

(** ** The program *)

(** The operations of a step, without the reset after the last one. *)
Definition step_ops (p : Z) (h : nat) : list op := omap id (take 6 (step_slots p h)).
Definition reset_ops (p : Z) (h : nat) : list op :=
  [OPut p (word h) (Captured [(0, 0)]) false; OWait (word h) SHMEM_CMP_EQ 0].

Lemma omap_step p h : omap id (step_slots p h) = step_ops p h ++ if is_last h then reset_ops p h else [].
Proof.
  rewrite <- (take_drop 6 (step_slots p h)) at 1. rewrite omap_app. f_equal. simpl. by destruct (is_last h).
Qed.

(** A group of steps that share a counter ends with its reset. *)
Lemma omap_steps p k m : (forall h, (k <= h < k + m)%nat -> is_last h = (h =? k + m - 1)%nat) -> (0 < m)%nat ->
  omap id (flat_map (step_slots p) (seq k m)) = flat_map (step_ops p) (seq k m) ++ reset_ops p (k + m - 1).
Proof.
  destruct m as [|m]; [lia|]. intros Hl _. revert k Hl. induction m as [|m IH]; intros k Hl.
  - cbn [flat_map seq]. rewrite !app_nil_r, omap_step. replace (k + 1 - 1)%nat with k by lia.
    by rewrite Hl, (proj2 (Nat.eqb_eq _ _)) by lia.
  - rewrite <- cons_seq. cbn [flat_map]. rewrite omap_app, omap_step, Hl, (proj2 (Nat.eqb_neq _ _)), app_nil_r, <- app_assoc by lia.
    f_equal. rewrite IH; [do 2 f_equal; lia|]. intros h Hh. rewrite Hl by lia. f_equal. lia.
Qed.

Lemma omap_ring p : omap id (ring_slots p) =
  (if copies then [OLocal (own_copy p)] else []) ++ flat_map (step_ops p) (seq 0 n1) ++ reset_ops p (n1 - 1) ++
  if (n1 <? H)%nat then flat_map (step_ops p) (seq n1 (H - n1)) ++ reset_ops p (H - 1) else [].
Proof.
  unfold ring_slots. replace H with (n1 + (H - n1))%nat at 1 by lia. rewrite seq_app, flat_map_app, Nat.add_0_l.
  change (slot copies (OLocal (own_copy p)) :: ?l) with ([slot copies (OLocal (own_copy p))] ++ l).
  rewrite !omap_app, omap_steps; [|intros h Hh; unfold is_last, last_of; by rewrite (proj2 (Nat.ltb_lt h n1)) by lia|lia].
  rewrite <- app_assoc. f_equal; [by destruct copies|]. rewrite Nat.add_0_l. do 2 f_equal.
  destruct (Nat.ltb_spec n1 H) as [Hlt|]; [|by replace (H - n1)%nat with 0%nat by lia].
  rewrite omap_steps; [by replace (n1 + (H - n1) - 1)%nat with (H - 1)%nat by lia| |lia]. intros h Hh. unfold is_last, last_of.
  rewrite (proj2 (Nat.ltb_ge h n1)) by lia. f_equal. lia.
Qed.

(** ** The messages *)

Inductive rid := RDat (h : nat) (p : Z) | RCnt (h : nat) (p : Z) | RClr (h : nat) (p : Z).
#[local] Instance rid_eq : EqDecision rid.
Proof. solve_decision. Defined.

Definition rident (m : msg) : rid :=
  match m_kind m with
  | KAtomic _ => RCnt (Nat.pred (m_epoch m)) (m_src m)
  | KPut => if m_src m =? m_dst m then RClr (if m_target m =? W0 then (n1 - 1)%nat else (H - 1)%nat) (m_src m)
            else RDat (m_epoch m) (m_src m)
  end.
(** The fences before a position: one in each step. *)
Definition rep (p : Z) (v : nat) : nat :=
  match v with
  | O => 0
  | S u => (u / 8 + if (2 <? u mod 8)%nat then 1 else 0)%nat
  end.
Definition rhome (i : rid) : Z * nat :=
  match i with
  | RDat h p => (p, at_step h 0)
  | RCnt h p => (p, at_step h 3)
  | RClr h p => (p, at_step h 6)
  end.
Inductive rsent (p : Z) : nat -> rid -> Prop :=
| rs_dat h : (h < H)%nat -> bytes (chunk_out p h) <> 0 -> rsent p (at_step h 0) (RDat h p)
| rs_cnt h : (h < H)%nat -> rsent p (at_step h 3) (RCnt h p)
| rs_clr h : (h < H)%nat -> is_last h = true -> rsent p (at_step h 6) (RClr h p).

Abbreviation rsends := (sends rident ring_slots rep).

Lemma rep_at p h j : (j < 8)%nat -> rep p (at_step h j) = (h + if (2 <? j)%nat then 1 else 0)%nat.
Proof.
  intros Hj. unfold at_step. replace (1 + 8 * h + j)%nat with (S (j + h * 8)) by lia. unfold rep.
  by rewrite Nat.div_add, Nat.Div0.mod_add, Nat.div_small, Nat.mod_small by lia.
Qed.

Lemma last_word h : (h < H)%nat -> is_last h = true -> (if word h =? W0 then (n1 - 1)%nat else (H - 1)%nat) = h.
Proof.
  unfold is_last, last_of, word. intros Hh Hl%Nat.eqb_eq. destruct (Nat.ltb_spec h n1) as [Hlt|Hge].
  - rewrite Z.eqb_refl. lia.
  - rewrite (proj2 (Z.eqb_neq W1 W0)); [lia|]. intros E. by apply HW; [lia|].
Qed.

Lemma rsends_iff p v i : p ∈ M -> rsends p v = Some i <-> rsent p v i.
Proof.
  intros Hp. pose proof (right_ne p Hp) as Hr. split.
  - unfold sends. destruct (ring_slots p !! v) as [oo|] eqn:Ev; [|done].
    apply ring_position in Ev as [[-> ->]|(h & j & Hh & Hj & -> & Hs)]; [by destruct copies|].
    rewrite rep_at by done. destruct j as [|[|[|[|[|[|[|[|j]]]]]]]]; [injection Hs as <-..|lia]; simpl.
    + destruct (Z.eqb_spec (bytes (chunk_out p h)) 0) as [|Hb]; [done|]. simpl. intros [= <-]. unfold rident. simpl.
      rewrite (proj2 (Z.eqb_neq p (right p))), Nat.add_0_r by congruence. by constructor.
    + by destruct waits.
    + done.
    + intros [= <-]. unfold rident. simpl. rewrite Nat.add_1_r. by constructor.
    + done.
    + by destruct (act p h).
    + destruct (is_last h) eqn:Hl; [|done]. simpl. intros [= <-]. unfold rident. simpl. rewrite Z.eqb_refl.
      rewrite last_word by done. by constructor.
    + by destruct (is_last h).
  - intros Hs. unfold sends. destruct Hs as [h Hh Hb|h Hh|h Hh Hl]; rewrite slots_at, rep_at by lia; simpl.
    + rewrite (proj2 (Z.eqb_neq _ 0)) by done. simpl. unfold rident. simpl.
      rewrite (proj2 (Z.eqb_neq p (right p))), Nat.add_0_r by congruence. done.
    + unfold rident. simpl. by rewrite Nat.add_1_r.
    + rewrite Hl. simpl. unfold rident. simpl. by rewrite Z.eqb_refl, last_word.
Qed.

Lemma rhome_sends p v i : p ∈ M -> rsends p v = Some i -> rhome i = (p, v).
Proof. intros Hp Hs%rsends_iff; [|done]. by destruct Hs. Qed.

Lemma rident_same m d : rident (Msg (m_src m) (m_dst m) (m_epoch m) (m_kind m) (m_target m) (m_nbi m) d) = rident m.
Proof. done. Qed.

Abbreviation rflight := (flight rident M ring_slots rep rhome).
Abbreviation rarrived := (arrived rident M ring_slots rep rhome).
Abbreviation rsentb := (sentb rident M ring_slots rep rhome).

Lemma sent_rsent lb i : rsentb lb i = true -> exists p v, rhome i = (p, v) /\ p ∈ M /\ rsent p v i /\ (v < lb p)%nat.
Proof. intros (p & v & Hh & Hp & Hs%rsends_iff & Hv)%sentb_elim; [|done]. by exists p, v. Qed.
Lemma rsent_sentb lb p v i : p ∈ M -> rsent p v i -> (v < lb p)%nat -> rsentb lb i = true.
Proof. intros Hp Hs Hv. eapply sentb_intro; [apply rhome_sends|done|by apply rsends_iff|done]. Qed.

(** ** Where the members are *)

(** What a member knows at its position, and what follows for its left neighbour. *)
Record rpos (arr : rid -> bool) (p : Z) (v : nat) : Prop := {
  rp_wait : forall h, (h < H)%nat -> (at_step h 4 < v)%nat -> arr (RCnt h (left p)) = true;
  rp_clear : forall h, (h < H)%nat -> is_last h = true -> (at_step h 7 < v)%nat -> arr (RClr h p) = true }.

Record rctl (lb : Z -> nat) (s : state) : Prop := {
  rc_flight : rflight lb (net s);
  rc_len : forall p, p ∈ M -> (lb p <= 1 + 8 * H)%nat;
  rc_pos : forall p, p ∈ M -> rpos (rarrived lb (net s)) p (lb p);
  rc_epoch : forall p, p ∈ M -> epoch s p = rep p (lb p);
  rc_read : waits = true -> forall m h p, m ∈ net s -> rident m = RDat h p -> (at_step h 1 < lb p)%nat ->
    pending (m_data m) = false;
  (* what a member sends arrives in order *)
  rc_order : forall h p, p ∈ M -> rarrived lb (net s) (RCnt h p) = true ->
    (bytes (chunk_out p h) <> 0 -> rarrived lb (net s) (RDat h p) = true) /\
    forall k, (k < h)%nat -> rarrived lb (net s) (RCnt k p) = true }.

Section facts.
Context (lb : Z -> nat) (s : state) (Hc : rctl lb s).
Let arr := rarrived lb (net s).

Lemma arr_rsent i : arr i = true -> exists p v, rhome i = (p, v) /\ p ∈ M /\ rsent p v i /\ (v < lb p)%nat.
Proof. intros ?%arrived_sent. by apply sent_rsent. Qed.

Lemma arr_cnt h p : arr (RCnt h p) = true -> p ∈ M /\ (h < H)%nat /\ (at_step h 3 < lb p)%nat.
Proof.
  intros (q & v & Hh & Hq & Hs & Hv)%arr_rsent. injection Hh as <- <-. by inversion Hs; subst.
Qed.

(** A member that is past a wait has a left neighbour past the update it waited for. *)
Lemma left_before p h : p ∈ M -> (h < H)%nat -> (at_step h 4 < lb p)%nat -> (at_step h 3 < lb (left p))%nat.
Proof. intros Hp Hh Hv. by destruct (arr_cnt h (left p)) as (_ & _ & ?); [apply (rp_wait _ _ _ (rc_pos _ _ Hc p Hp))|]. Qed.

(** A token cannot have gone around further than the members have moved it. *)
Lemma behind k : forall p h, p ∈ M -> (h + k < H)%nat -> (at_step (h + k) 0 <= lb p)%nat ->
  exists q, q = peer start stride n p (- Z.of_nat k) /\ (at_step h 0 <= lb q)%nat.
Proof.
  induction k as [|k IH]; intros p h Hp Hh Hv.
  - exists p. rewrite Nat.add_0_r in Hv. split; [|done]. symmetry. apply peer_0; lia || done.
  - destruct (IH (left p) h (left_in p)) as (q & -> & Hq); [lia| |].
    + pose proof (left_before p (h + k) Hp ltac:(lia)) as Hl. unfold at_step in *. lia.
    + eexists. split; [|exact Hq]. unfold left. rewrite peer_peer by lia. f_equal. lia.
Qed.

(** When the left neighbour sends a chunk for the second time, this member is done with
    the first time. *)
Lemma second_turn p h : p ∈ M -> (h + Z.to_nat n < H)%nat -> (at_step (h + Z.to_nat n) 0 <= lb (left p))%nat ->
  (at_step (S h) 0 <= lb p)%nat /\ arr (RCnt (S h) p) = true.
Proof.
  intros Hp Hh Hv.
  destruct (behind (Z.to_nat n - 2) (left p) (h + 2) (left_in p)) as (q & Hq & Hvq); [lia| |].
  { by replace (h + 2 + (Z.to_nat n - 2))%nat with (h + Z.to_nat n)%nat by lia. }
  assert (q = right p) as ->.
  { rewrite Hq. unfold left, right. rewrite peer_peer by lia. rewrite <- peer_turn by lia. f_equal. lia. }
  pose proof (rp_wait _ _ _ (rc_pos _ _ Hc (right p) (right_in p)) (S h) ltac:(lia) ltac:(unfold at_step in *; lia)) as Ha.
  rewrite left_right in Ha by done. split; [|done]. destruct (arr_cnt _ _ Ha) as (_ & _ & ?). unfold at_step in *. lia.
Qed.
End facts.

(** ** What the chunks hold *)

Context (m0 : Z -> lmem) (V : Z -> nat -> Z -> Z).
Definition chunk_cell (c b : Z) : Prop := exists a, 0 <= a < bytes c /\ b = target + disp c + a.
Definition outside (b : Z) : Prop := b <> W0 /\ b <> W1 /\ forall c, 0 <= c < n -> ~ chunk_cell c b.
Context (Hwords : forall c b, 0 <= c < n -> chunk_cell c b -> b <> W0 /\ b <> W1).
Context (Hsource : forall c a, 0 <= c < n -> 0 <= a < bytes c -> outside (source + sdisp c + a)).
(** A token starts with the contribution of its owner; an action takes it one hop further. *)
Context (HV0 : forall p a, p ∈ M -> 0 <= a < bytes (rk p) -> V (rk p) 0 a = m0 p (source + sdisp (rk p) + a)).
Context (Hact : forall p h f m, p ∈ M -> (h < H)%nat -> act p h = Some f ->
  (forall a, 0 <= a < bytes (chunk_in p h) -> m (target + disp (chunk_in p h) + a) = V (chunk_in p h) h a) ->
  (forall b, outside b -> m b = m0 p b) ->
  (forall a, 0 <= a < bytes (chunk_in p h) -> f m (target + disp (chunk_in p h) + a) = V (chunk_in p h) (S h) a) /\
  (forall b, ~ chunk_cell (chunk_in p h) b -> f m b = m b)).
Context (Hidle : forall p h a, p ∈ M -> (h < H)%nat -> act p h = None -> V (chunk_in p h) (S h) a = V (chunk_in p h) h a).
Context (Hfirst_turn : forall p h f, act p h = Some f -> Z.of_nat h < n).
Context (Hcopies : copies = true -> Z.of_nat H < n) (Hwaits : waits = true -> nbi = false).

(** The hop at which a member receives a chunk for the first time. *)
Definition hop (p c : Z) : nat := Z.to_nat ((rk p - 1 - c) mod n).
Abbreviation nn := (Z.to_nat n).

Lemma chunk_left p h : chunk_out (left p) h = chunk_in p h.
Proof.
  unfold chunk_out, chunk_in, left. rewrite rank_peer by lia.
  rewrite Zminus_mod_idemp_l. done.
Qed.
Lemma chunk_bound p h : 0 <= chunk_in p h < n /\ 0 <= chunk_out p h < n.
Proof. split; apply Z.mod_pos_bound; lia. Qed.
Lemma hop_lt p c : (hop p c < nn)%nat.
Proof. unfold hop. pose proof (Z.mod_pos_bound (rk p - 1 - c) n ltac:(lia)). lia. Qed.

(** A member would receive its own chunk in the last step of a turn. *)
Lemma hop_own p : p ∈ M -> hop p (rk p) = (nn - 1)%nat.
Proof.
  intros _. unfold hop. replace (rk p - 1 - rk p) with (n - 1 + (-1) * n) by lia.
  rewrite Z.mod_add, Z.mod_small by lia. lia.
Qed.

Lemma chunk_in_hop p c : 0 <= c < n -> chunk_in p (hop p c) = c /\ chunk_in p (hop p c + nn) = c.
Proof.
  intros Hc. unfold chunk_in, hop. pose proof (Z.mod_pos_bound (rk p - 1 - c) n ltac:(lia)) as Hb.
  assert ((rk p - 1 - (rk p - 1 - c) mod n) mod n = c) as E.
  { rewrite Zminus_mod_idemp_r. replace (rk p - 1 - (rk p - 1 - c)) with c by lia. by apply Z.mod_small. }
  split.
  - by rewrite Z2Nat.id by lia.
  - rewrite Nat2Z.inj_add, !Z2Nat.id by lia. rewrite <- E at 2.
    replace (rk p - 1 - (rk p - 1 - c) mod n) with (rk p - 1 - ((rk p - 1 - c) mod n + n) + 1 * n) by lia.
    by rewrite Z.mod_add by lia.
Qed.

(** A chunk is received at its first hop, or a whole turn later. *)
Lemma hop_chunk_in p h : (h < H)%nat -> (h < nn /\ hop p (chunk_in p h) = h \/ h = hop p (chunk_in p h) + nn)%nat.
Proof.
  intros Hh. unfold hop, chunk_in. rewrite Zminus_mod_idemp_r.
  replace (rk p - 1 - (rk p - 1 - Z.of_nat h)) with (Z.of_nat h) by lia.
  destruct (decide (h < nn)%nat) as [Hlt|Hge].
  - left. split; [done|]. rewrite Z.mod_small by lia. lia.
  - destruct (decide (h < nn + nn)%nat) as [Hlt2|Hge2].
    + right. replace (Z.of_nat h) with (Z.of_nat h - n + 1 * n) at 1 by lia. rewrite Z.mod_add, Z.mod_small by lia. lia.
    + exfalso. lia.
Qed.

Lemma hop_out p h : (0 < h)%nat -> (h < H)%nat -> hop p (chunk_out p h) = hop p (chunk_in p (h - 1)).
Proof. intros Hh _. f_equal. unfold chunk_out, chunk_in. f_equal. lia. Qed.

Definition held (lb : Z -> nat) (arr : rid -> bool) (p c a : Z) : Z :=
  if arr (RDat (hop p c + nn) (left p)) then V c (hop p c + nn) a
  else if (hop p c <? H)%nat && (at_step (hop p c) 5 <? lb p)%nat then V c (S (hop p c)) a
  else if arr (RDat (hop p c) (left p)) then V c (hop p c) a
  else if copies && bool_decide (c = rk p) && (0 <? lb p)%nat then V c 0 a
  else m0 p (target + disp c + a).

Definition counted (arr : rid -> bool) (p : Z) (h : nat) : nat :=
  countb (fun k => arr (RCnt k (left p))) (seq (first_of h) (S h - first_of h)).

Record rmem (lb : Z -> nat) (arr : rid -> bool) (mm : Z -> lmem) : Prop := {
  rm_word : forall p h, p ∈ M -> (h < H)%nat -> is_last h = true ->
    mm p (word h) = if arr (RClr h p) then 0 else Z.of_nat (counted arr p h);
  rm_chunk : forall p c a, p ∈ M -> 0 <= c < n -> 0 <= a < bytes c -> mm p (target + disp c + a) = held lb arr p c a;
  rm_out : forall p b, (p ∉ M \/ outside b) -> mm p b = m0 p b }.

Definition chunk_vals (c : Z) (h : nat) : list (Z * Z) := map (fun a => (a, V c h a)) (upto 0 (bytes c)).

Definition rgood (m : msg) : Prop :=
  match rident m with
  | RDat h p => m_src m = p /\ m_dst m = right p /\ m_kind m = KPut /\ m_target m = target + disp (chunk_out p h) /\
      m_nbi m = nbi /\ (m_data m = Pending (put_from p h) (upto 0 (bytes (chunk_out p h))) \/
                        m_data m = Captured (chunk_vals (chunk_out p h) h))
  | RCnt h p => m_src m = p /\ m_dst m = right p /\ m_kind m = KAtomic sum /\ m_target m = word h /\
      m_epoch m = S h /\ m_data m = Captured [(0, 1)]
  | RClr h p => m_src m = p /\ m_dst m = p /\ m_kind m = KPut /\ m_target m = word h /\ m_data m = Captured [(0, 0)]
  end.

Definition rinv (lb : Z -> nat) (s : state) : Prop :=
  rctl lb s /\ (forall m, m ∈ net s -> rgood m) /\ rmem lb (rarrived lb (net s)) (mem s).

(** The sender of a message, and what it has not done yet. *)
Lemma rsent_of lb s m : rctl lb s -> m ∈ net s -> exists p v, rhome (rident m) = (p, v) /\ p ∈ M /\
  rsent p v (rident m) /\ (v < lb p)%nat /\ rarrived lb (net s) (rident m) = false.
Proof.
  intros Hc Hm. destruct (flight_in _ _ _ _ _ _ _ _ (rc_flight _ _ Hc) Hm) as [Hsent Hna].
  destruct (sent_rsent lb _ Hsent) as (p & v & ? & ? & ? & ?). by exists p, v.
Qed.

(** A member past the wait of a step has the data of that step. *)
Lemma received lb s p h : rctl lb s -> p ∈ M -> (h < H)%nat -> (at_step h 4 < lb p)%nat -> bytes (chunk_in p h) <> 0 ->
  rarrived lb (net s) (RDat h (left p)) = true.
Proof.
  intros Hc Hp Hh Hv Hb. apply (rc_order _ _ Hc h (left p) (left_in p)); [|by rewrite chunk_left].
  by apply (rp_wait _ _ _ (rc_pos _ _ Hc p Hp)).
Qed.

(** A chunk in flight from [p] is not overwritten at [p], nor sent again to it. *)
Lemma not_again lb s p h : rctl lb s -> p ∈ M -> (h + nn < H)%nat ->
  (rarrived lb (net s) (RCnt (S h) p) = false \/ (lb p < at_step (S h) 0)%nat) ->
  rsentb lb (RDat (h + nn) (left p)) = false.
Proof.
  intros Hc Hp Hh Hna. apply not_true_iff_false. intros (q & v & Hq & _ & Hs & Hv)%sent_rsent. injection Hq as <- <-.
  destruct (second_turn lb s Hc p h Hp Hh) as [H1 H2]; [lia|]. destruct Hna as [Hna|Hna]; [congruence|lia].
Qed.

Lemma rsentb_dat lb h p : rsentb lb (RDat h p) = true -> (h < H)%nat.
Proof. intros (q & v & Hq & _ & Hs & _)%sent_rsent. by inversion Hs. Qed.

(** The chunk a member is about to send, or whose data are still to be read. *)
Lemma held_out lb s p h a : rinv lb s -> p ∈ M -> (h < H)%nat -> (at_step h 0 < lb p)%nat ->
  rarrived lb (net s) (RDat h p) = false -> 0 <= a < bytes (chunk_out p h) ->
  mem s p (put_from p h + a) = V (chunk_out p h) h a.
Proof.
  intros (Hc & _ & Hm) Hp Hh Hv Hna Ha. destruct (chunk_bound p h) as [_ Hcb]. unfold put_from.
  assert (rarrived lb (net s) (RCnt h p) = false) as Hnc.
  { apply not_true_iff_false. intros Hcnt. destruct (rc_order _ _ Hc h p Hp Hcnt) as [Hd _].
    rewrite Hd in Hna; [done|lia]. }
  destruct (decide (h = 0%nat)) as [->|Hh0].
  - assert (chunk_out p 0 = rk p) as E.
    { unfold chunk_out. rewrite Z.sub_0_r. destruct (member_at start stride n Hstride p Hp). by apply Z.mod_small. }
    rewrite E in *. simpl. destruct copies eqn:Ec; simpl.
    + rewrite (rm_chunk _ _ _ Hm p (rk p) a Hp) by done. unfold held. specialize (Hcopies eq_refl).
      pose proof (hop_own p Hp) as Eh.
      assert (forall k, (nn - 1 <= k)%nat -> rarrived lb (net s) (RDat k (left p)) = false) as Hno.
      { intros k Hk. apply not_true_iff_false. intros Hk'%arrived_sent%rsentb_dat. lia. }
      rewrite Eh, !Hno by lia. rewrite (proj2 (Nat.ltb_ge (nn - 1) H)) by lia. simpl.
      rewrite Ec, bool_decide_eq_true_2, (proj2 (Nat.ltb_lt _ _)) by (done || lia). done.
    + rewrite HV0 by done. apply (rm_out _ _ _ Hm). right. by apply Hsource.
  - rewrite (proj2 (Nat.eqb_neq h 0)) by done. simpl. rewrite (rm_chunk _ _ _ Hm p _ a Hp) by done.
    unfold held. rewrite hop_out by lia. assert (chunk_out p h = chunk_in p (h - 1)) as Ecio
      by (unfold chunk_out, chunk_in; f_equal; lia).
    destruct (hop_chunk_in p (h - 1) ltac:(lia)) as [[Hlt Eh]|Eh].
    + rewrite Eh. destruct (rarrived lb (net s) (RDat (h - 1 + nn) (left p))) eqn:Hag.
      * exfalso. apply arrived_sent in Hag. pose proof (rsentb_dat _ _ _ Hag).
        rewrite (not_again lb s p (h - 1) Hc Hp) in Hag; [done|lia|left]. by replace (S (h - 1)) with h by lia.
      * rewrite (proj2 (Nat.ltb_lt _ _)), (proj2 (Nat.ltb_lt (at_step (h - 1) 5) _)) by (unfold at_step in *; lia). simpl.
        by replace (S (h - 1)) with h by lia.
    + rewrite <- Eh. rewrite received with (lb := lb) (s := s); [|done|done|lia|unfold at_step in *; lia|rewrite <- Ecio; lia].
      rewrite Ecio. assert (act p (h - 1) = None) as Hnone
        by (destruct (act p (h - 1)) as [f|] eqn:Ef; [apply Hfirst_turn in Ef; lia|done]).
      pose proof (Hidle p (h - 1) a Hp ltac:(lia) Hnone) as E. replace (S (h - 1)) with h in E by lia. by rewrite E.
Qed.

(** *** The network *)

Lemma rinv_capture lb s l1 m l2 src os :
  rinv lb s -> net s = l1 ++ m :: l2 -> m_data m = Pending src os ->
  rinv lb (set_net s (l1 ++ Msg (m_src m) (m_dst m) (m_epoch m) (m_kind m) (m_target m) (m_nbi m)
                  (Captured (map (fun o => (o, mem s (m_src m) (src + o))) os)) :: l2)).
Proof.
  intros Hinv E Hd. pose proof Hinv as (Hc & Hg & Hm).
  assert (m ∈ net s) as Hm' by (rewrite E, elem_of_app, elem_of_cons; auto).
  pose proof (Hg m Hm') as Hgm. destruct (rsent_of lb s m Hc Hm') as (q & v & Hh & Hq & Hs & Hv & Hna).
  destruct (flight_capture rident rident_same M ring_slots rep rhome lb l1 m l2
    (Captured (map (fun o => (o, mem s (m_src m) (src + o))) os))) as [Hf Ha]; [by rewrite <- E; apply rc_flight|].
  set (m2 := Msg _ _ _ _ _ _ _) in *. rewrite <- E in Ha.
  assert (rgood m2) as Hg2.
  { unfold rgood in *. change (rident m2) with (rident m). destruct (rident m) as [h p|h p|h p] eqn:Ei;
      try (exfalso; clear -Hgm Hd; destruct_and!; congruence).
    injection Hh as <- <-. destruct Hgm as (Hsr & G1 & G2 & G3 & G4 & [Hda|Hda]); rewrite Hd in Hda; [|done].
    injection Hda as -> ->. repeat (split; [done|]). right. unfold m2. simpl. f_equal. unfold chunk_vals.
    apply map_ext_in. intros o Ho%list_elem_of_In%elem_of_upto. f_equal. rewrite Hsr.
    apply held_out with (lb := lb); try done. by inversion Hs. }
  assert (forall m', m' ∈ l1 ++ m2 :: l2 -> m' = m2 \/ m' ∈ net s) as Hsub
    by (intros m'; rewrite E, !elem_of_app, !elem_of_cons; tauto).
  destruct Hc as [C1 C2 C3 C4 C5 C6]. split; [|split].
  - split; simpl; rewrite ?Ha; try done. intros Hw m' h p [->|Hin]%Hsub; [done|by apply (C5 Hw m' h p)].
  - intros m' [->|Hin]%Hsub; [done|by apply Hg].
  - simpl. by rewrite Ha.
Qed.

Lemma rctl_deliver lb s l1 m l2 mm :
  rctl lb s -> (forall m', m' ∈ net s -> rgood m') -> net s = l1 ++ m :: l2 -> fence_ready m (l1 ++ l2) = true ->
  rctl lb (St mm (l1 ++ l2) (epoch s) (log s)) /\ rarrived lb (l1 ++ l2) = arrives (rarrived lb (net s)) (rident m).
Proof.
  intros Hc Hg E Hf. assert (m ∈ net s) as Hm' by (rewrite E, elem_of_app, elem_of_cons; auto).
  destruct (flight_deliver rident M ring_slots rep rhome lb l1 m l2) as [Hfl Ha]; [by rewrite <- E; apply rc_flight|].
  rewrite <- E in Ha. split; [|by extensionality i].
  assert (forall m', m' ∈ l1 ++ l2 -> m' ∈ net s) as Hsub by (intros m'; rewrite E, !elem_of_app, elem_of_cons; tauto).
  assert (forall i, rarrived lb (net s) i = true -> rarrived lb (l1 ++ l2) i = true) as Hmono
    by (intros i Hi; by rewrite Ha, Hi).
  assert (forall i p h, rident m = RCnt h p -> i <> RCnt h p -> rsentb lb i = true ->
    (forall m', m' ∈ net s -> rident m' = i -> m_src m' = p /\ m_dst m' = right p /\ (m_epoch m' < S h)%nat) ->
    rarrived lb (net s) i = true) as Hbefore.
  { intros i p h Hi Hne Hsent Hlow. unfold arrived. rewrite Hsent. apply Nat.eqb_eq, countb_zero. intros m' Hin'.
    apply bool_decide_eq_false. intros Hid. destruct (Hlow m' Hin' Hid) as (H1 & H2 & H3).
    assert (m' ∈ l1 ++ l2) as Hin2.
    { rewrite E, elem_of_app, elem_of_cons in Hin'. rewrite elem_of_app. destruct Hin' as [|[->|]]; auto. congruence. }
    pose proof (Hg m Hm') as Hgm. unfold rgood in Hgm. rewrite Hi in Hgm. destruct Hgm as (S1 & S2 & _ & _ & S3 & _).
    pose proof (fence_ready_none _ _ m' Hf Hin2 ltac:(congruence) ltac:(congruence)). lia. }
  destruct Hc as [C1 C2 C3 C4 C5 C6]. split; simpl; try done.
  - intros p Hp. destruct (C3 p Hp) as [P1 P2]. split; intros; apply Hmono; auto.
  - intros Hw m' h p Hin'. by apply (C5 Hw), Hsub.
  - intros h p Hp Hcnt. rewrite Ha in Hcnt. destruct (rarrived lb (net s) (RCnt h p)) eqn:Hold.
    { destruct (C6 h p Hp Hold) as [H1 H2]. split; [by intros ?%H1%Hmono|]. intros k Hk. by apply Hmono, H2. }
    simpl in Hcnt. apply bool_decide_eq_true in Hcnt. symmetry in Hcnt.
    destruct (flight_in _ _ _ _ _ _ _ _ C1 Hm') as [Hsent _]. rewrite Hcnt in Hsent.
    destruct (sent_rsent lb _ Hsent) as (q & v & Hh & _ & Hs & Hv). injection Hh as <- <-.
    assert (h < H)%nat as HhH by (by inversion Hs). split.
    + intros Hb. apply Hmono, (Hbefore _ p h Hcnt); [done| |].
      * apply (rsent_sentb lb p (at_step h 0)); [done|by constructor|unfold at_step in *; lia].
      * intros m' Hin' Hid. pose proof (Hg m' Hin') as Hgm. unfold rgood in Hgm. rewrite Hid in Hgm.
        destruct Hgm as (? & ? & Hk & _). split; [done|]. split; [done|]. unfold rident in Hid. rewrite Hk in Hid.
        case_match; [done|]. injection Hid as He _. lia.
    + intros k Hk. apply Hmono, (Hbefore _ p h Hcnt); [intros [= ?]; lia| |].
      * apply (rsent_sentb lb p (at_step k 3)); [done|constructor; lia|unfold at_step in *; lia].
      * intros m' Hin' Hid. pose proof (Hg m' Hin') as Hgm. unfold rgood in Hgm. rewrite Hid in Hgm.
        destruct Hgm as (? & ? & _ & _ & He & _). split; [done|]. split; [done|]. lia.
Qed.

(** What the members hold only depends on the data that have arrived. *)
Lemma held_ext lb arr arr' p c a : (forall h, arr' (RDat h (left p)) = arr (RDat h (left p))) ->
  held lb arr' p c a = held lb arr p c a.
Proof. intros He. unfold held. by rewrite !He. Qed.

Lemma chunk_cell_in c a : 0 <= a < bytes c -> chunk_cell c (target + disp c + a).
Proof. intros Ha. by exists a. Qed.

(** A counter changes. *)
Lemma rmem_word lb arr mm i p h x : rmem lb arr mm -> p ∈ M -> (h < H)%nat -> (forall k q, i <> RDat k q) ->
  x = (if arrives arr i (RClr (last_of h) p) then 0 else Z.of_nat (counted (arrives arr i) p (last_of h))) ->
  (forall q l, q ∈ M -> (l < H)%nat -> is_last l = true -> (q <> p \/ word l <> word h) ->
    arrives arr i (RClr l q) = arr (RClr l q) /\ counted (arrives arr i) q l = counted arr q l) ->
  rmem lb (arrives arr i) (<[p := <[word h := x]> (mm p)]> mm).
Proof.
  intros [R1 R2 R3] Hp Hh Hi Hx Hoth.
  assert (word h = W0 \/ word h = W1) as Hwd by (unfold word; destruct (h <? n1)%nat; tauto).
  assert (forall b, outside b -> b <> word h) as Hout by (intros b (? & ? & _); destruct Hwd; congruence).
  split.
  - intros q l Hq Hl Hll. rewrite (insert_cases mm). destruct (decide (p = q)) as [<-|Hne].
    + rewrite insert_cases. destruct (decide (word h = word l)) as [Ew|Ew].
      * assert (last_of h = l) as <-; [|by rewrite Hx]. unfold is_last in Hll. apply Nat.eqb_eq in Hll.
        unfold last_of, word in *. destruct (Nat.ltb_spec h n1), (Nat.ltb_spec l n1); try lia; exfalso; apply HW; done || lia.
      * destruct (Hoth p l Hq Hl Hll) as [-> ->]; [right; congruence|]. by apply R1.
    + destruct (Hoth q l Hq Hl Hll) as [-> ->]; [left; congruence|]. by apply R1.
  - intros q c a Hq Hcn Ha. rewrite held_ext with (arr := arr) by (intros k; apply arrives_ne; congruence).
    rewrite <- R2 by done. update_cases; [subst q|done]. rewrite fn_lookup_insert_ne; [done|].
    destruct (Hwords c _ Hcn (chunk_cell_in c a Ha)). destruct Hwd; congruence.
  - intros q b Hb. rewrite <- (R3 q b Hb). update_cases; [subst q|done]. destruct Hb as [|Hb]; [done|].
    rewrite fn_lookup_insert_ne; [done|]. specialize (Hout b Hb). congruence.
Qed.

Lemma held_other lb arr p h q c a : p ∈ M -> q ∈ M -> 0 <= c < n -> q <> p \/ c <> chunk_in p h ->
  held lb (arrives arr (RDat h (left p))) q c a = held lb arr q c a.
Proof.
  intros Hp Hq Hc Hoth. destruct (chunk_in_hop q c Hc) as [E1 E2].
  assert (forall k, chunk_in q k = c -> RDat k (left q) <> RDat h (left p)) as Hne.
  { intros k Ek [= -> El]. assert (q = p) as -> by (rewrite <- (right_left q Hq), El; by apply right_left).
    destruct Hoth; congruence. }
  unfold held. by rewrite !arrives_ne by (apply Hne; done).
Qed.

(** A chunk arrives. *)
Lemma rmem_data lb arr mm h p : rmem lb arr mm -> p ∈ M -> (h < H)%nat ->
  arr (RDat (h + nn) (left p)) = false -> ((h < nn)%nat -> bytes (chunk_in p h) <> 0 -> (lb p <= at_step h 5)%nat) ->
  rmem lb (arrives arr (RDat h (left p)))
    (<[p := apply_vals KPut (target + disp (chunk_in p h)) (chunk_vals (chunk_in p h) h) (mm p)]> mm).
Proof.
  intros [R1 R2 R3] Hp Hh Hna Hlb. set (c := chunk_in p h). destruct (chunk_bound p h) as [Hcb _]. fold c in Hcb.
  set (m' := apply_vals _ _ _ _).
  assert (forall b, ~ chunk_cell c b -> m' b = mm p b) as Hout.
  { intros b Hb. destruct (apply_puts (target + disp c) (chunk_vals c h) (mm p) b) as [([k x] & Hx & E & _)|[_ ?]]; [|done].
    apply list_elem_of_fmap in Hx as (k' & [= -> ->] & Hk%elem_of_upto). exfalso. apply Hb. exists k'. simpl in E. split; [done|lia]. }
  assert (forall a, 0 <= a < bytes c -> m' (target + disp c + a) = V c h a) as Hat.
  { intros a Ha. destruct (apply_puts (target + disp c) (chunk_vals c h) (mm p) (target + disp c + a))
      as [([k x] & Hx & E & Ev)|[Hno _]].
    - apply list_elem_of_fmap in Hx as (k' & [= -> ->] & Hk%elem_of_upto). simpl in E, Ev. unfold m'. rewrite Ev. f_equal. lia.
    - exfalso. apply (Hno (a, V c h a)); [|simpl; lia]. apply list_elem_of_fmap. exists a. split; [done|]. by apply elem_of_upto. }
  split.
  - intros q l Hq Hl Hll. unfold counted. rewrite arrives_ne by done.
    rewrite (countb_ext _ (fun k => arr (RCnt k (left q)))) by (intros; by apply arrives_ne). fold (counted arr q l).
    rewrite <- R1 by done. update_cases; [subst q|done]. apply Hout. intros Hcell.
    destruct (Hwords c _ Hcb Hcell). unfold word in *. case_match; congruence.
  - intros q c' a Hq Hc' Ha. destruct (decide (q = p /\ c' = c)) as [[-> ->]|Hne].
    + rewrite fn_lookup_insert, Hat by done. unfold held. fold c in Hlb.
      destruct (hop_chunk_in p h Hh) as [[Hlt Eh]|Eh]; fold c in Eh.
      * rewrite Eh, arrives_ne, Hna by (intros [= ?]; lia).
        rewrite (proj2 (Nat.ltb_ge (at_step h 5) (lb p))) by (apply Hlb; [done|lia]). by rewrite andb_false_r, arrives_at.
      * rewrite <- Eh. by rewrite arrives_at.
    + rewrite held_other; [|done|done|done|fold c; destruct (decide (q = p)); [right|left]; tauto].
      rewrite <- R2 by done. update_cases; [subst q|done]. apply Hout. intros (a' & Ha' & E).
      apply Hne. split; [done|]. by destruct (Hapart c' c a a' Hc' Hcb Ha Ha'); [lia|].
  - intros q b Hb. rewrite <- (R3 q b Hb). update_cases; [subst q|done]. destruct Hb as [|(_ & _ & Hb)]; [done|].
    apply Hout. by apply Hb.
Qed.

(** The steps that share a counter. *)
Lemma last_facts h : (h < H)%nat ->
  (last_of h < H)%nat /\ (h <= last_of h)%nat /\ is_last (last_of h) = true /\ word (last_of h) = word h /\
  first_of (last_of h) = first_of h /\ (first_of h <= h)%nat /\ last_of (last_of h) = last_of h /\
  number h = (S h - first_of h)%nat.
Proof.
  intros Hh. unfold is_last, last_of, first_of, word, number. destruct (Nat.ltb_spec h n1).
  - rewrite (proj2 (Nat.ltb_lt (n1 - 1) n1)), Nat.eqb_refl by lia. repeat split; lia.
  - rewrite (proj2 (Nat.ltb_ge (H - 1) n1)), Nat.eqb_refl by lia. repeat split; lia.
Qed.

Lemma same_word h l : (h < H)%nat -> (l < H)%nat -> word l = word h -> is_last l = true -> l = last_of h.
Proof.
  unfold is_last. intros Hh Hl Hw ->%Nat.eqb_eq. unfold last_of, word in *.
  destruct (Nat.ltb_spec h n1), (Nat.ltb_spec l n1); try lia; exfalso; apply HW; congruence || lia.
Qed.

Lemma counted_le arr p l : (counted arr p l <= H)%nat \/ (H <= l)%nat.
Proof.
  destruct (decide (l < H)%nat); [left|lia]. unfold counted.
  pose proof (countb_le (fun k => arr (RCnt k (left p))) (seq (first_of l) (S l - first_of l))) as Hle.
  rewrite length_seq in Hle. lia.
Qed.

Lemma rmem_cnt lb arr mm h p : rmem lb arr mm -> p ∈ M -> (h < H)%nat ->
  arr (RCnt h (left p)) = false -> arr (RClr (last_of h) p) = false ->
  rmem lb (arrives arr (RCnt h (left p))) (<[p := <[word h := sum (mm p (word h)) 1]> (mm p)]> mm).
Proof.
  intros Hm Hp Hh Hna Hcl. destruct (last_facts h Hh) as (L1 & L2 & L3 & L4 & L5 & L6 & L7 & _).
  assert (counted (arrives arr (RCnt h (left p))) p (last_of h) = S (counted arr p (last_of h))) as Hc.
  { unfold counted. apply (countb_flip _ _ _ h).
    - apply NoDup_seq.
    - rewrite L5. apply elem_of_seq. lia.
    - done.
    - apply arrives_at.
    - intros k _ Hk. apply arrives_ne. congruence. }
  pose proof (rm_word _ _ _ Hm p (last_of h) Hp L1 L3) as Hw. rewrite L4, Hcl in Hw.
  apply rmem_word; [done|done|done|done| |].
  - rewrite arrives_ne, Hcl, Hc, Hw by done.
    destruct (counted_le (arrives arr (RCnt h (left p))) p (last_of h)) as [Hle|]; [rewrite Hc in Hle|lia].
    unfold sum, long_calc. rewrite signed_sum by lia. lia.
  - intros q l Hq Hl Hll Hoth. split; [by apply arrives_ne|]. unfold counted. apply countb_ext. intros k Hk%elem_of_seq.
    apply arrives_ne. intros [= -> El]. assert (q = p) as -> by (rewrite <- (right_left q Hq), El; by apply right_left).
    destruct Hoth as [|Hoth]; [done|]. apply Hoth. destruct (last_facts l Hl) as (_ & _ & _ & _ & _ & L6' & _).
    unfold is_last in Hll. apply Nat.eqb_eq in Hll. unfold word, first_of, last_of in *.
    destruct (Nat.ltb_spec l n1), (Nat.ltb_spec h n1); done || lia.
Qed.

Lemma rmem_clr lb arr mm h p : rmem lb arr mm -> p ∈ M -> (h < H)%nat -> is_last h = true ->
  rmem lb (arrives arr (RClr h p)) (<[p := <[word h := 0]> (mm p)]> mm).
Proof.
  intros Hm Hp Hh Hl. assert (last_of h = h) as El by (unfold is_last in Hl; by apply Nat.eqb_eq in Hl).
  apply rmem_word; [done|done|done|done|by rewrite El, arrives_at|].
  intros q l Hq Hl' Hll Hoth. split.
  - apply arrives_ne. intros [= -> ->]. tauto.
  - unfold counted. apply countb_ext. intros k _. by apply arrives_ne.
Qed.

Lemma rinv_deliver lb s l1 m l2 vals :
  rinv lb s -> net s = l1 ++ m :: l2 -> m_data m = Captured vals -> fence_ready m (l1 ++ l2) = true ->
  rinv lb (set_net (set_mem s (m_dst m) (apply_vals (m_kind m) (m_target m) vals (mem s (m_dst m)))) (l1 ++ l2)).
Proof.
  intros (Hc & Hg & Hm) E Hd Hf. assert (m ∈ net s) as Hm' by (rewrite E, elem_of_app, elem_of_cons; auto).
  destruct (rctl_deliver lb s l1 m l2 (<[m_dst m := apply_vals (m_kind m) (m_target m) vals (mem s (m_dst m))]> (mem s)))
    as [Hc' Ha]; [done..|].
  split; [exact Hc'|]. split; [intros m' Hin; apply Hg; rewrite E; simpl in Hin; apply elem_of_app in Hin;
    rewrite elem_of_app, elem_of_cons; tauto|].
  simpl. rewrite Ha. pose proof (Hg m Hm') as Hgm. destruct (rsent_of lb s m Hc Hm') as (q & v & Hh & Hq & Hs & Hv & Hna).
  unfold rgood in Hgm. destruct (rident m) as [h p|h p|h p] eqn:Ei; injection Hh as <- <-.
  - (* a chunk *) assert ((h < H)%nat /\ bytes (chunk_out p h) <> 0) as [HhH Hb] by (by inversion Hs).
    destruct Hgm as (_ & -> & -> & -> & _ & [Hda|Hda]); rewrite Hd in Hda; [done|]. injection Hda as ->.
    pose proof (right_in p) as Hr. rewrite <- (left_right p Hq) in Hna, Hb, Hv |- * at 1.
    rewrite <- (left_right p Hq) at 3. rewrite <- (left_right p Hq) at 4.
    rewrite chunk_left in *. apply rmem_data; [done|done|done| |].
    + apply not_true_iff_false. intros Hag%arrived_sent. pose proof (rsentb_dat _ _ _ Hag) as Hag'.
      destruct (sent_rsent lb _ Hag) as (q & v & Hh & _ & _ & Hv'). injection Hh as <- <-.
      destruct (second_turn lb s Hc (right p) h Hr Hag') as [Hst _]; [lia|].
      rewrite (received lb s (right p) h) in Hna; [done|done|done|done|unfold at_step in *; lia|done].
    + intros _ _. destruct (decide (lb (right p) <= at_step h 5)%nat) as [|Hgt]; [done|exfalso].
      rewrite (received lb s (right p) h) in Hna; [done|done|done|done|unfold at_step in *; lia|done].
  - (* a counter *) assert (h < H)%nat as HhH by (by inversion Hs).
    destruct Hgm as (_ & -> & -> & -> & _ & Hda). rewrite Hd in Hda. injection Hda as ->.
    cbn [apply_vals fold_left combine_kind]. rewrite Z.add_0_r. pose proof (right_in p) as Hr.
    rewrite <- (left_right p Hq) in Hna. rewrite <- (left_right p Hq) at 1. apply rmem_cnt; [done|done|done|done|].
    apply not_true_iff_false. intros Hcl. destruct (arr_rsent lb s _ Hcl) as (q & v & Hh & _ & Hs' & Hv').
    injection Hh as <- <-. destruct (last_facts h HhH) as (L1 & L2 & _).
    pose proof (rp_wait _ _ _ (rc_pos _ _ Hc _ Hr) (last_of h) L1 ltac:(unfold at_step in *; lia)) as Hlast.
    destruct (decide (last_of h = h)) as [El|El]; [congruence|].
    destruct (rc_order _ _ Hc (last_of h) (left (right p)) (left_in _) Hlast) as [_ Ho].
    rewrite Ho in Hna; [done|lia].
  - (* a reset *) assert ((h < H)%nat /\ is_last h = true) as [HhH Hl] by (by inversion Hs).
    destruct Hgm as (_ & -> & -> & -> & Hda). rewrite Hd in Hda. injection Hda as ->.
    cbn [apply_vals fold_left combine_kind]. rewrite Z.add_0_r. by apply rmem_clr.
Qed.

Lemma rinv_net lb s s' : rinv lb s -> net_step s s' -> rinv lb s'.
Proof.
  intros Hi Hst. destruct Hst as [s l1 m l2 src os E Hd|s l1 m l2 vals E Hd Hf]; [by eapply rinv_capture|by eapply rinv_deliver].
Qed.

(** *** The members *)

Lemma held_pass lb arr p q c a : lb p <> 0%nat \/ copies = false -> (q = p -> (hop p c < H)%nat -> lb p <> at_step (hop p c) 5) ->
  held (<[p := S (lb p)]> lb) arr q c a = held lb arr q c a.
Proof.
  intros H0 H5. unfold held. update_cases; [subst q|done]. specialize (H5 eq_refl).
  assert (forall b, b <> lb p -> (b <? S (lb p))%nat = (b <? lb p)%nat) as Hlt.
  { intros b Hb. destruct (Nat.ltb_spec b (S (lb p))), (Nat.ltb_spec b (lb p)); lia || done. }
  assert ((hop p c <? H)%nat && (at_step (hop p c) 5 <? S (lb p))%nat = (hop p c <? H)%nat && (at_step (hop p c) 5 <? lb p)%nat) as ->.
  { destruct (Nat.ltb_spec (hop p c) H); [|done]. rewrite Hlt; [done|]. intros E. by apply H5. }
  destruct H0 as [H0| ->]; [by rewrite Hlt by lia|done].
Qed.

(** The slot of the action. *)
Lemma held_act lb s p h a : rctl lb s -> p ∈ M -> (h < H)%nat -> (h < nn)%nat -> lb p = at_step h 5 ->
  0 <= a < bytes (chunk_in p h) ->
  held lb (rarrived lb (net s)) p (chunk_in p h) a = V (chunk_in p h) h a /\
  held (<[p := S (lb p)]> lb) (rarrived lb (net s)) p (chunk_in p h) a = V (chunk_in p h) (S h) a.
Proof.
  intros Hc Hp Hh Hlt Hv Ha. destruct (hop_chunk_in p h Hh) as [[_ Eh]|Eh]; [|pose proof (hop_lt p (chunk_in p h)); lia].
  assert (rarrived lb (net s) (RDat (h + nn) (left p)) = false) as Hna.
  { apply not_true_iff_false. intros Hs%arrived_sent. pose proof (rsentb_dat _ _ _ Hs).
    rewrite (not_again lb s p h) in Hs; [done|done|done|done|right]. unfold at_step in *. lia. }
  unfold held. rewrite Eh, Hna, fn_lookup_insert, (proj2 (Nat.ltb_lt h H)), Hv by done.
  rewrite Nat.ltb_irrefl, (proj2 (Nat.ltb_lt _ (S _))) by lia. simpl.
  rewrite (received lb s p h); [done|done|done|done|unfold at_step in *; lia|lia].
Qed.

(** Only the action of the slot changes what [p] holds. *)
Lemma hop_at p h c : (h < H)%nat -> 0 <= c < n -> at_step h 5 = at_step (hop p c) 5 -> (h < nn)%nat /\ c = chunk_in p h.
Proof.
  intros Hh Hc E. assert (h = hop p c) as -> by (unfold at_step in E; lia). split; [apply hop_lt|].
  symmetry. by apply chunk_in_hop.
Qed.

Lemma rmem_pass lb arr mm p :
  rmem lb arr mm -> lb p <> 0%nat \/ copies = false -> (forall h, (h < H)%nat -> lb p <> at_step h 5) ->
  rmem (<[p := S (lb p)]> lb) arr mm.
Proof.
  intros [R1 R2 R3] H0 H5. split; [done| |done]. intros q c a Hq Hc Ha. rewrite held_pass; [by apply R2|done|].
  intros _ Hlt. by apply H5.
Qed.

Lemma rinv_move lb s p s' ms :
  let lb' := <[p := S (lb p)]> lb in
  rinv lb s -> p ∈ M -> (lb p < 1 + 8 * H)%nat ->
  net s' = net s ++ ms ->
  rflight lb' (net s') -> rarrived lb' (net s') = rarrived lb (net s) ->
  (forall m, m ∈ ms -> rgood m /\ forall h q, rident m = RDat h q -> q = p /\ lb p = at_step h 0) ->
  (forall q, q ∈ M -> epoch s' q = rep q (lb' q)) ->
  rpos (rarrived lb (net s)) p (S (lb p)) ->
  (waits = true -> forall h, lb p = at_step h 1 -> forall m, m ∈ net s -> rident m = RDat h p -> pending (m_data m) = false) ->
  rmem lb' (rarrived lb (net s)) (mem s') ->
  rinv lb' s'.
Proof.
  intros lb' ([C1 C2 C3 C4 C5 C6] & Hg & Hm) Hp Hlt Enet Hf Ha Hms Hep Hpos Hrd Hmem.
  assert (forall q, q <> p -> lb' q = lb q) as Hne by (intros q Hq; unfold lb'; by rewrite fn_lookup_insert_ne).
  assert (lb' p = S (lb p)) as Hlp by (unfold lb'; by rewrite fn_lookup_insert).
  split; [|split].
  - split; rewrite ?Ha; try done.
    + intros q Hq. destruct (decide (q = p)) as [->|Hqp]; [lia|]. rewrite Hne by done. by apply C2.
    + intros q Hq. destruct (decide (q = p)) as [->|Hqp]; [by rewrite Hlp|]. rewrite Hne by done. by apply C3.
    + intros Hw m h q. rewrite Enet. intros [Hin|Hin]%elem_of_app Hid Hv.
      * destruct (decide (q = p)) as [->|Hqp]; [|rewrite Hne in Hv by done; by eapply C5].
        rewrite Hlp in Hv. destruct (decide (lb p = at_step h 1)) as [E|E]; [by eapply Hrd|].
        apply (C5 Hw m h p); done || lia.
      * destruct (Hms m Hin) as (_ & Hd). destruct (Hd h q Hid) as [-> Hv0]. rewrite Hlp in Hv. unfold at_step in *. lia.
  - intros m. rewrite Enet. intros [Hin|Hin]%elem_of_app; [auto|]. by apply Hms.
  - by rewrite Ha.
Qed.

(** What a member learns at a position. *)
Lemma rpos_next arr p v : rpos arr p v ->
  (forall h, (h < H)%nat -> v = at_step h 4 -> arr (RCnt h (left p)) = true) ->
  (forall h, (h < H)%nat -> is_last h = true -> v = at_step h 7 -> arr (RClr h p) = true) -> rpos arr p (S v).
Proof.
  intros [P1 P2] N1 N2. split.
  - intros h Hh Hv. destruct (decide (v = at_step h 4)); [auto|apply P1; [done|lia]].
  - intros h Hh Hl Hv. destruct (decide (v = at_step h 7)); [auto|apply P2; [done|done|lia]].
Qed.

Lemma countb_prefix (f : nat -> bool) (a l b : nat) : (forall k, (a <= k < a + l)%nat -> f k = true -> (k < b)%nat) ->
  (countb f (seq a l) <= b - a)%nat.
Proof.
  revert a. induction l as [|l IH]; intros a Hf; simpl; [lia|].
  assert (countb f (seq (S a) l) <= b - S a)%nat as Hr by (apply IH; intros k Hk; apply Hf; lia).
  destruct (f a) eqn:E; [|lia]. specialize (Hf a ltac:(lia) E). lia.
Qed.

(** The wait for a counter. *)
Lemma cnt_arrived lb s p h : rinv lb s -> p ∈ M -> (h < H)%nat -> lb p = at_step h 4 ->
  Z.of_nat (number h) <= mem s p (word h) -> rarrived lb (net s) (RCnt h (left p)) = true.
Proof.
  intros (Hc & _ & Hm) Hp Hh Hv Hge. destruct (last_facts h Hh) as (L1 & L2 & L3 & L4 & L5 & L6 & L7 & L8).
  pose proof (rm_word _ _ _ Hm p (last_of h) Hp L1 L3) as Hw. rewrite L4 in Hw.
  destruct (rarrived lb (net s) (RCnt h (left p))) eqn:Ha; [done|exfalso].
  assert (counted (rarrived lb (net s)) p (last_of h) <= h - first_of h)%nat as Hle.
  { unfold counted. rewrite L5. apply countb_prefix. intros k Hk Hak. destruct (decide (k < h)%nat) as [|Hkh]; [done|exfalso].
    destruct (decide (k = h)) as [->|]; [congruence|].
    destruct (rc_order _ _ Hc k (left p) (left_in p) Hak) as [_ Ho]. rewrite Ho in Ha; [done|lia]. }
  rewrite Hw, L8 in Hge. destruct (rarrived lb (net s) (RClr (last_of h) p)); lia.
Qed.

Lemma clr_arrived lb s p h : rinv lb s -> p ∈ M -> (h < H)%nat -> is_last h = true -> lb p = at_step h 7 ->
  mem s p (word h) = 0 -> rarrived lb (net s) (RClr h p) = true.
Proof.
  intros (Hc & _ & Hm) Hp Hh Hl Hv Hz. rewrite (rm_word _ _ _ Hm p h Hp Hh Hl) in Hz.
  destruct (rarrived lb (net s) (RClr h p)) eqn:Ha; [done|exfalso].
  destruct (last_facts h Hh) as (_ & _ & _ & _ & _ & L6 & _).
  assert (0 < counted (rarrived lb (net s)) p h)%nat; [|lia]. unfold counted.
  apply (countb_pos _ _ h); [apply elem_of_seq; lia|].
  apply (rp_wait _ _ _ (rc_pos _ _ Hc p Hp)); [done|unfold at_step in *; lia].
Qed.

Lemma rep_next p h j : (j < 8)%nat ->
  rep p (S (at_step h j)) = (rep p (at_step h j) + if (j =? 2)%nat then 1 else 0)%nat.
Proof.
  intros Hj. rewrite (rep_at p h j Hj). destruct (decide (j = 7)%nat) as [->|].
  - replace (S (at_step h 7)) with (at_step (S h) 0) by (unfold at_step; lia). rewrite rep_at by lia. simpl. lia.
  - replace (S (at_step h j)) with (at_step h (S j)) by (unfold at_step; lia). rewrite rep_at by lia.
    destruct (Nat.ltb_spec 2 (S j)), (Nat.ltb_spec 2 j), (Nat.eqb_spec j 2); lia.
Qed.

Lemma at_step_inj h j h' j' : (j < 8)%nat -> (j' < 8)%nat -> at_step h j = at_step h' j' -> h = h' /\ j = j'.
Proof. unfold at_step. lia. Qed.

Lemma rinv_op_gen lb s p o x s' :
  rinv lb s -> p ∈ M -> ring_slots p !! lb p = Some (Some o) -> op_exec p o s = Some (x, s') ->
  (forall m, op_msg p o (rep p (lb p)) = Some m -> rgood m /\ forall h q, rident m = RDat h q -> q = p /\ lb p = at_step h 0) ->
  rep p (S (lb p)) = (rep p (lb p) + match o with OFence => 1 | _ => 0 end)%nat ->
  rpos (rarrived lb (net s)) p (S (lb p)) ->
  (waits = true -> forall h, lb p = at_step h 1 -> forall m, m ∈ net s -> rident m = RDat h p -> pending (m_data m) = false) ->
  rmem (<[p := S (lb p)]> lb) (rarrived lb (net s)) (mem s') ->
  rinv (<[p := S (lb p)]> lb) s'.
Proof.
  intros Hi Hp Ho Hex Hms Hfe Hpos Hrd Hmem. pose proof Hi as (Hc & _).
  pose proof (rc_epoch _ _ Hc p Hp) as Hep.
  destruct (flight_op rident M ring_slots rep rhome rhome_sends lb s p o x s' Hp (rc_flight _ _ Hc) Ho Hex) as [Hf Ha].
  { by rewrite Hep. }
  pose proof (lookup_lt_Some _ _ _ Ho) as Hlt. rewrite length_ring in Hlt.
  apply (rinv_move lb s p s' (option_list (op_msg p o (epoch s p)))); try done.
  - by eapply op_exec_net.
  - intros m. rewrite Hep. destruct (op_msg p o (rep p (lb p))) as [m1|] eqn:E; [|by intros ?%elem_of_nil].
    intros ->%list_elem_of_singleton. by apply Hms.
  - intros q Hq. rewrite (op_exec_epoch _ _ _ _ _ Hex). pose proof (rc_epoch _ _ Hc q Hq) as Hq'.
    destruct (decide (q = p)) as [->|Hqp].
    + rewrite fn_lookup_insert, Hfe, <- Hep. destruct o; try lia. rewrite fn_lookup_insert. lia.
    + rewrite (fn_lookup_insert_ne lb) by done. rewrite <- Hq'. destruct o; try done. by rewrite fn_lookup_insert_ne.
Qed.

(** Passing a slot that is neither the copy nor an action. *)
Lemma rmem_slot lb s p h j : rinv lb s -> lb p = at_step h j -> (j < 8)%nat -> j <> 5%nat ->
  rmem (<[p := S (lb p)]> lb) (rarrived lb (net s)) (mem s).
Proof.
  intros (_ & _ & Hm) Hv Hj H5. apply rmem_pass; [done|left; unfold at_step in Hv; lia|].
  intros h' _ E. rewrite Hv in E. destruct (at_step_inj h j h' 5); done || lia.
Qed.

Lemma rpos_slot lb s p h j : rinv lb s -> p ∈ M -> lb p = at_step h j -> (j < 8)%nat ->
  (j = 4%nat -> rarrived lb (net s) (RCnt h (left p)) = true) ->
  (j = 7%nat -> is_last h = true -> rarrived lb (net s) (RClr h p) = true) ->
  rpos (rarrived lb (net s)) p (S (lb p)).
Proof.
  intros (Hc & _) Hp Hv Hj H4 H7. apply rpos_next; [by apply rc_pos| |].
  - intros h' _ E. rewrite Hv in E. destruct (at_step_inj h j h' 4) as [-> ->]; auto; lia.
  - intros h' _ Hl E. rewrite Hv in E. destruct (at_step_inj h j h' 7) as [-> ->]; auto; lia.
Qed.

Lemma rmem_empty lb s p h j : rinv lb s -> p ∈ M -> (h < H)%nat -> lb p = at_step h j -> (j < 8)%nat ->
  (j = 5%nat -> act p h = None) -> rmem (<[p := S (lb p)]> lb) (rarrived lb (net s)) (mem s).
Proof.
  intros Hi Hp Hh Hv Hj Hact0. destruct (decide (j = 5)%nat) as [->|H5]; [|by eapply rmem_slot].
  specialize (Hact0 eq_refl). pose proof Hi as (Hc & _ & [R1 R2 R3]). split; [done| |done]. intros q c a Hq Hcb Ha.
  destruct (decide (q = p /\ (h < nn)%nat /\ c = chunk_in p h)) as [(-> & Hlt & ->)|Hne].
  - rewrite R2 by done. destruct (held_act lb s p h a Hc Hp Hh Hlt Hv Ha) as [-> ->]. symmetry. by apply Hidle.
  - rewrite held_pass; [by apply R2|left; unfold at_step in Hv; lia|]. intros -> _ E. rewrite Hv in E.
    destruct (hop_at p h c Hh Hcb E). by apply Hne.
Qed.

Lemma rinv_empty lb s p : rinv lb s -> p ∈ M -> ring_slots p !! lb p = Some None -> rinv (<[p := S (lb p)]> lb) s.
Proof.
  intros Hi Hp Ho. pose proof Hi as (Hc & Hg & Hm).
  destruct (flight_empty rident M ring_slots rep rhome rhome_sends lb (net s) p Hp (rc_flight _ _ Hc) Ho) as [Hf Ha].
  pose proof (lookup_lt_Some _ _ _ Ho) as Hlt. rewrite length_ring in Hlt.
  assert (forall q, q ∈ M -> rep p (S (lb p)) = rep p (lb p) -> epoch s q = rep q (<[p := S (lb p)]> lb q)) as Hep.
  { intros q Hq Hr. rewrite (rc_epoch _ _ Hc q Hq). update_cases; [by subst|done]. }
  apply ring_position in Ho as [[Hv Hcp]|(h & j & Hh & Hj & Hv & Hs)].
  - assert (copies = false) as Hcf by (by destruct copies).
    apply (rinv_move lb s p s []); rewrite ?app_nil_r; try done.
    + by intros m ?%elem_of_nil.
    + intros q Hq. apply Hep; [done|]. by rewrite Hv.
    + apply rpos_next; [by apply rc_pos|unfold at_step; lia|unfold at_step; lia].
    + intros _ h Hv'. unfold at_step in Hv'. lia.
    + apply rmem_pass; [done|by right|]. intros h _ E. unfold at_step in E. lia.
  - apply (rinv_move lb s p s []); rewrite ?app_nil_r; try done.
    + by intros m ?%elem_of_nil.
    + intros q Hq. apply Hep; [done|]. rewrite Hv, rep_next by done.
      destruct j as [|[|[|[|[|[|[|[|j]]]]]]]]; done || lia.
    + eapply rpos_slot; [done|done|done|done| |]; intros ->; [done|]. intros Hl. simpl in Hs. by rewrite Hl in Hs.
    + intros Hw h' E. rewrite Hv in E. destruct (at_step_inj h j h' 1) as [-> ->]; [done|lia|done|].
      simpl in Hs. by rewrite Hw in Hs.
    + eapply rmem_empty; try done. intros ->. simpl in Hs. by destruct (act p h).
Qed.

(** The copy of the own chunk. *)
Lemma rmem_copy lb s p : rinv lb s -> p ∈ M -> lb p = 0%nat -> copies = true ->
  rmem (<[p := 1%nat]> lb) (rarrived lb (net s)) (<[p := own_copy p (mem s p)]> (mem s)).
Proof.
  intros (Hc & _ & Hm) Hp Hv Hcp. specialize (Hcopies Hcp). pose proof Hm as [R1 R2 R3].
  destruct (member_at start stride n Hstride p Hp) as [Hr _].
  assert (forall b, own_copy p (mem s p) b = mem s p b \/ chunk_cell (rk p) b) as Hout.
  { intros b. unfold own_copy, copy_bytes. case_match eqn:E; [|by left]. right. exists (b - (target + disp (rk p))). lia. }
  split.
  - intros q h Hq Hh Hl. rewrite <- R1 by done. update_cases; [subst q|done].
    destruct (Hout (word h)) as [|Hcell]; [done|]. destruct (Hwords _ _ Hr Hcell). unfold word in *. by case_match.
  - intros q c a Hq Hcb Ha. destruct (decide (q = p /\ c = rk p)) as [[-> ->]|Hne].
    + rewrite fn_lookup_insert. unfold own_copy, copy_bytes. case_match eqn:E; [|lia].
      replace (source + sdisp (rk p) + (target + disp (rk p) + a - (target + disp (rk p)))) with (source + sdisp (rk p) + a) by lia.
      rewrite R3 by (right; by apply Hsource). rewrite <- HV0 by done. unfold held. rewrite fn_lookup_insert.
      assert (forall h, (nn - 1 <= h)%nat -> rarrived lb (net s) (RDat h (left p)) = false) as Hno.
      { intros h Hh. apply not_true_iff_false. intros Hk%arrived_sent%rsentb_dat. lia. }
      rewrite (hop_own p Hp), !Hno, (proj2 (Nat.ltb_ge (nn - 1) H)) by lia.
      by rewrite Hcp, bool_decide_eq_true_2 by done.
    + transitivity (mem s q (target + disp c + a)).
      { update_cases; [subst q|done]. destruct (Hout (target + disp c + a)) as [|(a' & Ha' & E)]; [done|exfalso].
        apply Hne. split; [done|]. by destruct (Hapart c (rk p) a a' Hcb Hr Ha Ha'); [lia|]. }
      rewrite R2 by done. unfold held. update_cases; [subst q|done]. rewrite Hv.
      rewrite (bool_decide_eq_false_2 (c = rk p)), !andb_false_r by (intros ->; tauto). done.
  - intros q b Hb. rewrite <- (R3 q b Hb). update_cases; [subst q|done]. destruct Hb as [|(_ & _ & Hb)]; [done|].
    destruct (Hout b) as [|Hcell]; [done|]. by destruct (Hb _ Hr).
Qed.

(** An action. *)
Lemma rmem_act lb s p h f : rinv lb s -> p ∈ M -> (h < H)%nat -> act p h = Some f -> lb p = at_step h 5 ->
  rmem (<[p := S (lb p)]> lb) (rarrived lb (net s)) (<[p := f (mem s p)]> (mem s)).
Proof.
  intros Hi Hp Hh Hf Hv. pose proof Hi as (Hc & _ & Hm). pose proof Hm as [R1 R2 R3].
  destruct (chunk_bound p h) as [Hcb _]. assert (h < nn)%nat as Hlt by (apply Hfirst_turn in Hf; lia).
  destruct (Hact p h f (mem s p) Hp Hh Hf) as [Hin Hout].
  { intros a Ha. rewrite R2 by done. by apply held_act. }
  { intros b Hb. apply R3. by right. }
  split.
  - intros q l Hq Hl Hll. rewrite <- R1 by done. update_cases; [subst q|done]. apply Hout. intros Hcell.
    destruct (Hwords _ _ Hcb Hcell). unfold word in *. by case_match.
  - intros q c a Hq Hcn Ha. destruct (decide (q = p /\ c = chunk_in p h)) as [[-> ->]|Hne].
    + rewrite fn_lookup_insert, Hin by done. symmetry. by apply held_act.
    + transitivity (mem s q (target + disp c + a)).
      { update_cases; [subst q|done]. apply Hout. intros (a' & Ha' & E).
        apply Hne. split; [done|]. by destruct (Hapart c (chunk_in p h) a a' Hcn Hcb Ha Ha'); [lia|]. }
      rewrite R2 by done. symmetry. apply held_pass; [left; unfold at_step in Hv; lia|]. intros -> _ E.
      rewrite Hv in E. destruct (hop_at p h c Hh Hcn E). by apply Hne.
  - intros q b Hb. rewrite <- (R3 q b Hb). update_cases; [subst q|done]. destruct Hb as [|(_ & _ & Hb)]; [done|].
    apply Hout. by apply Hb.
Qed.

(** What a member sends. *)
Lemma rgood_op p h j o m : p ∈ M -> (h < H)%nat -> (j < 8)%nat -> step_slots p h !! j = Some (Some o) ->
  op_msg p o (rep p (at_step h j)) = Some m ->
  rgood m /\ forall h' q, rident m = RDat h' q -> q = p /\ at_step h j = at_step h' 0.
Proof.
  intros Hp Hh Hj Ho. rewrite rep_at by done. pose proof (right_ne p Hp) as Hr.
  destruct j as [|[|[|[|[|[|[|[|j]]]]]]]]; [injection Ho as Ho..|lia]; try (apply slot_some in Ho as [Hb ->]);
    try (subst o; done); try done.
  - intros [= <-]. unfold rgood, rident. simpl. rewrite (proj2 (Z.eqb_neq p (right p))), Nat.add_0_r by congruence.
    split; [|by intros h' q [= -> ->]]. repeat (split; [done|]). by left.
  - subst o. intros [= <-]. unfold rgood, rident. simpl. rewrite Nat.add_1_r. by repeat split.
  - destruct (act p h); [|done]. by injection Ho as <-.
  - intros [= <-]. unfold rgood, rident. simpl. by rewrite Z.eqb_refl, last_word.
Qed.

Lemma rinv_op lb s p o x s' : rinv lb s -> p ∈ M -> ring_slots p !! lb p = Some (Some o) ->
  op_exec p o s = Some (x, s') -> rinv (<[p := S (lb p)]> lb) s'.
Proof.
  intros Hi Hp Ho Hex. pose proof (ring_position _ _ _ Ho) as [[Hv Hcp]|(h & j & Hh & Hj & Hv & Hs)].
  - symmetry in Hcp. apply slot_some in Hcp as [Hcp ->]. apply (rinv_op_gen lb s p _ x s' Hi Hp Ho Hex); rewrite ?Hv; try done.
    + apply rpos_next; [|unfold at_step; lia..]. rewrite <- Hv. destruct Hi as (Hc & _). by apply (rc_pos _ _ Hc).
    + injection Hex as _ <-. by apply rmem_copy.
  - apply (rinv_op_gen lb s p o x s' Hi Hp Ho Hex).
    + intros m. rewrite Hv. by apply rgood_op.
    + rewrite Hv, rep_next by done. clear Ho Hex. destruct j as [|[|[|[|[|[|[|[|j]]]]]]]]; [injection Hs as Ho..|lia];
        try (apply slot_some in Ho as [_ ->]); try (subst o; simpl; lia); try done.
      destruct (act p h); [|done]. injection Ho as <-. done.
    + apply (rpos_slot lb s p h j Hi Hp Hv Hj); intros ->; injection Hs as Ho'.
      * subst o. simpl in Hex. case_match eqn:E; [|done]. apply (cnt_arrived lb s p h Hi Hp Hh Hv).
        rewrite Z.geb_leb in E. by apply Z.leb_le.
      * intros Hl. apply slot_some in Ho' as [_ ->]. simpl in Hex. case_match eqn:E; [|done]. apply Z.eqb_eq in E.
        by apply clr_arrived.
    + intros Hw h' E m Hm Hid. rewrite Hv in E. destruct (at_step_inj h j h' 1 Hj ltac:(lia) E) as [-> ->].
      injection Hs as Ho'. apply slot_some in Ho' as [_ ->]. destruct Hi as (_ & Hg & _). specialize (Hg m Hm).
      unfold rgood in Hg. rewrite Hid in Hg. destruct Hg as (Hsr & _ & _ & _ & Hnb & _).
      eapply putwait_done; [done..|]. rewrite Hnb. by apply Hwaits.
    + destruct (decide (j = 5%nat)) as [->|H5].
      * injection Hs as Ho'. destruct (act p h) as [f|] eqn:Ef; [|done]. injection Ho' as <-. injection Hex as _ <-.
        by apply (rmem_act lb s p h).
      * rewrite (op_exec_mem _ _ _ _ _ Hex); [by eapply rmem_slot|].
        clear Ho Hex. destruct j as [|[|[|[|[|[|[|[|j]]]]]]]]; [injection Hs as Ho..|lia];
          try (apply slot_some in Ho as [_ ->]); try (subst o); done.
Qed.

(** *** Progress *)

Lemma countb_prefix_ge (f : nat -> bool) a l k : (k <= l)%nat -> (forall i, (a <= i < a + k)%nat -> f i = true) ->
  (k <= countb f (seq a l))%nat.
Proof.
  intros Hk Hf. replace l with (k + (l - k))%nat by lia. rewrite seq_app, countb_app.
  rewrite (proj2 (countb_all f (seq a k))); [rewrite length_seq; lia|]. intros i Hi%elem_of_seq. by apply Hf.
Qed.

(** With an idle network, the member that is furthest behind can move. *)
Lemma slowest_moves lb s p o : rinv lb s -> net s = [] -> p ∈ M -> ring_slots p !! lb p = Some (Some o) ->
  (forall q, q ∈ M -> (lb p <= lb q)%nat) -> exists r, op_exec p o s = Some r.
Proof.
  intros (Hc & _ & Hm) Hnet Hp Ho Hmin. rewrite Hnet in Hm.
  assert (forall i, rarrived lb [] i = rsentb lb i) as Hidle0 by (intros i; apply arrived_idle).
  apply ring_position in Ho as [[_ Hcp]|(h & j & Hh & Hj & Hv & Hs)].
  { symmetry in Hcp. apply slot_some in Hcp as [_ ->]. simpl. eauto. }
  destruct (last_facts h Hh) as (L1 & L2 & L3 & L4 & L5 & L6 & L7 & L8).
  pose proof (rm_word _ _ _ Hm p (last_of h) Hp L1 L3) as Hw. rewrite L4 in Hw.
  destruct j as [|[|[|[|[|[|[|[|j]]]]]]]]; [injection Hs as Ho..|lia]; try (apply slot_some in Ho as [Hl ->]);
    try subst o; simpl; rewrite ?Hnet; simpl; eauto.
  - (* the counter *)
    assert (rarrived lb [] (RClr (last_of h) p) = false) as Hcl.
    { rewrite Hidle0. apply not_true_iff_false. intros (q & v & Hq & _ & _ & Hlt)%sent_rsent. injection Hq as <- <-.
      unfold at_step in *. lia. }
    assert (number h <= counted (rarrived lb []) p (last_of h))%nat as Hge.
    { unfold counted. rewrite L5, L8. apply countb_prefix_ge; [lia|]. intros k Hk. rewrite Hidle0.
      apply (rsent_sentb lb (left p) (at_step k 3)); [apply left_in|constructor; lia|].
      specialize (Hmin _ (left_in p)). unfold at_step in *. lia. }
    rewrite Hcl in Hw. rewrite Hw. assert (Z.of_nat (counted (rarrived lb []) p (last_of h)) >=? Z.of_nat (number h) = true) as ->;
      [|eauto]. rewrite Z.geb_leb. apply Z.leb_le. lia.
  - destruct (act p h); [|done]. injection Ho as <-. simpl. eauto.
  - (* the reset *)
    assert (last_of h = h) as El by (unfold is_last in Hl; symmetry; by apply Nat.eqb_eq).
    rewrite El, Hidle0, (rsent_sentb lb p (at_step h 6)) in Hw; [|done|by constructor|unfold at_step in *; lia].
    rewrite Hw. simpl. eauto.
Qed.

Lemma ring_progress lb s : rinv lb s -> settled M ring_slots lb -> net s = [] ->
  (forall p, p ∈ M -> (length (ring_slots p) <= lb p)%nat) \/
  exists p o r, p ∈ M /\ ring_slots p !! lb p = Some (Some o) /\ op_exec p o s = Some r.
Proof.
  intros Hi Hset Hnet. destruct (decide (Exists (fun p => lb p < 1 + 8 * H)%nat M)) as [HE|HE].
  - right. apply list.Exists_exists in HE as (q & Hq & Hlt).
    destruct (list_argmin (fun p => Z.of_nat (lb p)) (fun p => lb p < 1 + 8 * H)%nat M q Hq Hlt) as (p & Hp & Hlp & Hmin).
    destruct (Hset p Hp) as [[o Ho]|Hge]; [|rewrite length_ring in Hge; lia].
    destruct (slowest_moves lb s p o Hi Hnet Hp Ho) as [r Hr]; [|by exists p, o, r].
    intros q' Hq'. destruct (decide (lb q' < 1 + 8 * H)%nat) as [Hlq|]; [specialize (Hmin q' Hq' Hlq)|]; lia.
  - left. intros p Hp. rewrite length_ring. destruct (decide (1 + 8 * H <= lb p)%nat) as [|Hn']; [done|].
    exfalso. apply HE, list.Exists_exists. exists p. split; [done|lia].
Qed.

(** *** The end *)

(** Every chunk comes to every member. *)
Context (Hcover : (nn <= S H)%nat /\ ((nn <= H)%nat \/ copies = true)).

(** The value of a chunk when the ring is done. *)
Definition final (p c a : Z) : Z :=
  if (hop p c + nn <? H)%nat then V c (hop p c + nn) a
  else if (hop p c <? H)%nat then V c (S (hop p c)) a else V c 0 a.

Lemma ring_end lb s p : rinv lb s -> p ∈ M -> (1 + 8 * H <= lb p)%nat ->
  (forall c a, 0 <= c < n -> 0 <= a < bytes c -> mem s p (target + disp c + a) = final p c a) /\
  forall h, (h < H)%nat -> mem s p (word h) = 0.
Proof.
  intros (Hc & _ & Hm) Hp Hv. destruct Hcover as [Hcov1 Hcov2]. split.
  - intros c a Hcb Ha. rewrite (rm_chunk _ _ _ Hm p c a Hp Hcb Ha). unfold held, final.
    destruct (chunk_in_hop p c Hcb) as [E1 E2]. pose proof (hop_lt p c) as Hhop.
    destruct (Nat.ltb_spec (hop p c + nn) H) as [Hlt|Hge].
    { rewrite (received lb s p (hop p c + nn)); [done|done|done|done|unfold at_step; lia|rewrite E2; lia]. }
    assert (rarrived lb (net s) (RDat (hop p c + nn) (left p)) = false) as ->.
    { apply not_true_iff_false. intros Hk%arrived_sent%rsentb_dat. lia. }
    destruct (Nat.ltb_spec (hop p c) H) as [Hlt|Hge'].
    { rewrite (proj2 (Nat.ltb_lt _ _)) by (unfold at_step; lia). done. }
    assert (rarrived lb (net s) (RDat (hop p c) (left p)) = false) as ->.
    { apply not_true_iff_false. intros Hk%arrived_sent%rsentb_dat. lia. }
    assert (c = rk p) as ->.
    { rewrite <- E1. replace (hop p c) with (hop p (rk p)) by (rewrite (hop_own p Hp); lia).
      destruct (chunk_in_hop p (rk p)) as [-> _]; [|done]. by apply (member_at start stride n Hstride p Hp). }
    destruct Hcov2 as [|Hcp]; [lia|]. rewrite Hcp, bool_decide_eq_true_2, (proj2 (Nat.ltb_lt 0 (lb p))) by (done || lia).
    done.
  - intros h Hh. destruct (last_facts h Hh) as (L1 & L2 & L3 & L4 & _). rewrite <- L4, (rm_word _ _ _ Hm p _ Hp L1 L3).
    by rewrite (rp_clear _ _ _ (rc_pos _ _ Hc p Hp)) by (done || unfold at_step; lia).
Qed.

Lemma ring_idle lb s : rinv lb s -> (forall p, p ∈ M -> (1 + 8 * H <= lb p)%nat) -> net s = [].
Proof.
  intros (Hc & _) Hv. destruct (net s) as [|m l] eqn:En; [done|exfalso].
  assert (m ∈ net s) as Hm by (rewrite En; apply list_elem_of_here).
  destruct (rsent_of lb s m Hc Hm) as (p & v & Hh & Hp & Hs & _ & Hna). apply not_true_iff_false in Hna. apply Hna.
  destruct Hs as [h Hh' Hb|h Hh'|h Hh' Hl].
  - rewrite <- (left_right p Hp). apply (received lb s (right p) h Hc (right_in p) Hh').
    + specialize (Hv _ (right_in p)). unfold at_step. lia.
    + by rewrite <- chunk_left, left_right.
  - rewrite <- (left_right p Hp). apply (rp_wait _ _ _ (rc_pos _ _ Hc _ (right_in p)) h Hh').
    specialize (Hv _ (right_in p)). unfold at_step. lia.
  - apply (rp_clear _ _ _ (rc_pos _ _ Hc p Hp) h Hh' Hl). specialize (Hv p Hp). unfold at_step. lia.
Qed.

Lemma rinv_init : (forall p h, p ∈ M -> (h < H)%nat -> m0 p (word h) = 0) -> rinv (fun _ => 0%nat) (init_state m0).
Proof.
  intros H0. assert (forall i, rarrived (fun _ => 0%nat) [] i = false) as Ha by (intros i; apply arrived_init).
  split; [|split].
  - split; simpl; try done.
    + apply flight_init.
    + intros p _. lia.
    + intros p _. split; intros; lia.
    + by intros _ m h p ?%elem_of_nil.
    + intros h p _. by rewrite Ha.
  - by intros m ?%elem_of_nil.
  - split; simpl; try done.
    + intros p h Hp Hh _. rewrite Ha, H0 by done. unfold counted.
      by rewrite (proj2 (countb_zero _ _)) by (intros; apply Ha).
    + intros p c a _ _ _. unfold held. by rewrite !Ha, !andb_false_r.
Qed.

(** The call, whatever combines the chunks, delivers their [total]. *)
Lemma ring_correct (body : Z -> prog unit) (total : Z -> Z -> Z) (used : Z -> Prop) (steps : nat) :
  (forall b, used b -> exists h, (h < H)%nat /\ b = word h) -> (3 * (Z.to_nat n * (1 + 8 * H)) <= steps)%nat ->
  (forall p, p ∈ M -> body p = seqp (omap id (ring_slots p))) ->
  (forall p h, p ∈ M -> (h < H)%nat -> m0 p (word h) = 0) ->
  (forall p c a, p ∈ M -> 0 <= c < n -> 0 <= a < bytes c -> final p c a = total c a) ->
  ring_spec M n target disp bytes W0 W1 used waits total m0 body steps.
Proof.
  intros Hused Hsteps Hbody H0 Hfinal. pose proof (rinv_init H0) as Hi.
  assert (NoDup M) as HM by (apply NoDup_active_set; lia).
  assert (coll_job M m0 body = slots_job M ring_slots m0) as E.
  { unfold coll_job, slots_job. f_equal. extensionality p. unfold slot_pt. case_decide; [|done].
    rewrite drop_0. by apply Hbody. }
  pose proof (slots_reachable M ring_slots rinv rinv_empty rinv_op rinv_net m0 Hi) as Hreach. rewrite <- E in Hreach.
  assert (forall w p, rtc step (coll_job M m0 body) w -> p ∈ M -> returned w p -> exists lb, rinv lb (w_st w) /\
    (1 + 8 * H <= lb p)%nat) as Hret.
  { intros w p Hw Hp Hr. destruct (Hreach w Hw) as (lb & Hpt & Hinv).
    destruct (slots_returned M ring_slots rinv rinv_empty lb w p Hpt Hinv Hp Hr) as (k & Hk & Hinv').
    rewrite length_ring in Hk. eexists. split; [exact Hinv'|]. by rewrite fn_lookup_insert. }
  split.
  - rewrite E. pose proof (slots_complete M HM ring_slots rinv rinv_empty rinv_op rinv_net m0 Hi ring_progress) as Hcp.
    assert (sum_list (map (fun p => length (ring_slots p)) M) = Z.to_nat n * (1 + 8 * H))%nat as El
      by (rewrite (sum_list_const _ (1 + 8 * H)%nat) by (intros; apply length_ring); unfold M, active_set;
          by rewrite pe_loop_map, length_map, length_upto, Z.sub_0_r, Nat2Z.id).
    rewrite El in Hcp. destruct Hcp as [Hb Hp]. split; [|done]. intros k w Hk. specialize (Hb k w Hk). lia.
  - intros w p c a Hw Hp Hr Hcb Ha. destruct (Hret w p Hw Hp Hr) as (lb & Hinv & Hv).
    destruct (ring_end lb _ p Hinv Hp Hv) as [-> _]; [by apply Hfinal|done|done].
  - intros w p b Hw Hp Hr (h & Hh & ->)%Hused. destruct (Hret w p Hw Hp Hr) as (lb & Hinv & Hv).
    by apply (ring_end lb _ p Hinv Hp Hv).
  - intros Hwt w p m Hw Hp Hr Hm Hs. destruct (Hret w p Hw Hp Hr) as (lb & (Hc & Hg & _) & Hv). specialize (Hg m Hm).
    unfold rgood in Hg. destruct (rident m) as [h q|h q|h q] eqn:Ei.
    + destruct (rsent_of lb _ m Hc Hm) as (q' & v & _ & _ & Hsent & _). rewrite Ei in Hsent.
      assert (h < H)%nat by (by inversion Hsent). destruct Hg as (Hq & _). assert (q = p) as -> by congruence.
      apply (rc_read _ _ Hc Hwt m h p Hm Ei). unfold at_step. lia.
    + by destruct Hg as (_ & _ & _ & _ & _ & ->).
    + by destruct Hg as (_ & _ & _ & _ & ->).
  - intros w p b Hw Hb. destruct (Hreach w Hw) as (lb & _ & _ & _ & Hm). by apply (rm_out _ _ _ Hm).
  - intros w Hw Hr. rewrite E in Hw. destruct (slots_all_returned M HM ring_slots rinv rinv_empty rinv_op rinv_net m0 Hi w Hw Hr)
      as (lb & Hinv & Hv). apply (ring_idle lb _ Hinv). intros p Hp. specialize (Hv p Hp). by rewrite length_ring in Hv.
Qed.
End ring.
