(* ===== verification/Pairs.v ===== *)
(** * Rounds of pairwise exchanges

    The recursive doubling reduction ([shmem_internal_op_to_all_recdbl_sw]): in each round
    a member is paired with another, and the two swap their running results through the
    target, which the word of the round protects: the lower rank first tells its partner
    that its target may be written, the higher rank sends, and only then does the lower
    rank send.  A member outside the power-of-two set hands its contribution in before the
    rounds and gets the result after them. *)

From S2P Require Import Prelude Machine Straight Slots Internal ReduceOp Comm CollSync Flight.
Local Open Scope Z_scope.
Local Open Scope prog_scope.

(** What a member does in a round: [Lo] and [Hi] swap; [Take] receives what [Give] hands
    in; [Send] sends to [Get] without asking. *)
Inductive role := Idle | Lo | Hi | Take | Give | Send | Get.
#[export] Instance role_eq : EqDecision role.
Proof. solve_decision. Defined.

Definition mirror (x : role) : role :=
  match x with Idle => Idle | Lo => Hi | Hi => Lo | Take => Give | Give => Take | Send => Get | Get => Send end.

(** Announces its target, waits for the announcement, waits for the data before it sends
    or after, sends, and combines. *)
Definition announces (x : role) : bool := match x with Lo | Take => true | _ => false end.
Definition asks (x : role) : bool := match x with Hi | Give => true | _ => false end.
Definition waits_first (x : role) : bool := match x with Lo | Take => true | _ => false end.
Definition sends_data (x : role) : bool := match x with Lo | Hi | Give | Send => true | _ => false end.
Definition waits_last (x : role) : bool := match x with Hi | Get => true | _ => false end.
Definition receives (x : role) : bool := waits_first x || waits_last x.
Definition combines (x : role) : bool := match x with Lo | Hi | Take => true | _ => false end.

(** The rounds of a set of members: partners agree, and the word of a round is only used
    again by the same two members, for the result of a contribution handed in. *)
Record Rounds (M : list Z) (R : nat) (role_of : Z -> nat -> role) (peer : Z -> nat -> Z) (w : nat -> Z) : Prop := {
  rd_peer : forall p r, p ∈ M -> (r < R)%nat -> role_of p r <> Idle ->
    peer p r ∈ M /\ peer p r <> p /\ peer (peer p r) r = p /\ role_of (peer p r) r = mirror (role_of p r);
  rd_word : forall p r r', p ∈ M -> (r < r')%nat -> (r' < R)%nat -> role_of p r <> Idle -> role_of p r' <> Idle -> w r = w r' ->
    peer p r' = peer p r /\ (role_of p r = Take /\ role_of p r' = Send \/ role_of p r = Give /\ role_of p r' = Get);
  rd_get : forall p r, p ∈ M -> (r < R)%nat -> role_of p r = Get ->
    (exists k, (k < r)%nat /\ role_of p k = Give /\ peer p k = peer p r) /\
    forall k, (k < R)%nat -> receives (role_of p k) = true -> k = r }.

Section pairs.
Context (M : list Z) (HM : NoDup M) (R : nat) (role_of : Z -> nat -> role) (peer : Z -> nat -> Z) (w : nat -> Z).
Context (HR : Rounds M R role_of peer w).
(** The pSync array of [N] words, the arrays and the buffer of the running result. *)
Context (pSync N target source cur len : Z) (Hlen : 0 < len).
Context (Hw : forall r, (r < R)%nat -> 0 <= w r < N).
Definition word_at (i : Z) : Z := pSync + SIZEOF_LONG * i.
Abbreviation word r := (word_at (w r)).
Definition in_words (b : Z) : Prop := exists i, 0 <= i < N /\ b = word_at i.
Context (Htp : forall a, 0 <= a < len -> ~ in_words (target + a)).
Context (Hcp : forall a, 0 <= a < len -> ~ in_words (cur + a)).
Context (Hsp : forall a, 0 <= a < len -> ~ in_words (source + a)).
Context (Hct : cur + len <= target \/ target + len <= cur).
(** The local combination, and who copies the result to its target at the end. *)
Context (redf : lmem -> lmem) (fin : Z -> bool).

Definition step_slots (p : Z) (r : nat) : list (option op) :=
  let x := role_of p r in
  [slot (announces x) (OPut (peer p r) (word r) (Captured [(0, 1)]) false);
   slot (asks x) (OWait (word r) SHMEM_CMP_EQ 1);
   slot (waits_first x) (OWait (word r) SHMEM_CMP_EQ 2);
   slot (sends_data x) (OPut (peer p r) target (Pending cur (upto 0 len)) false);
   slot (sends_data x) OPutWait;
   slot (sends_data x) OFence;
   slot (sends_data x) (OPut (peer p r) (word r) (Captured [(0, 2)]) false);
   slot (waits_last x) (OWait (word r) SHMEM_CMP_EQ 2);
   slot (combines x) (OLocal redf)].
Definition tail_slots (p : Z) : list (option op) :=
  slot (fin p) (OLocal (copy_bytes target cur len)) ::
  map (fun i => Some (OLocal (fun m => <[word_at i := SHMEM_SYNC_VALUE]> m))) (upto 0 N).
Definition pair_slots (p : Z) : list (option op) :=
  Some (OLocal (copy_bytes cur source len)) :: flat_map (step_slots p) (seq 0 R) ++ tail_slots p.

(** The position of slot [j] of round [r]; the tail starts at [pos R 0]. *)
Definition pos (r j : nat) : nat := S (9 * r + j).

Lemma length_pairs p : length (pair_slots p) = (pos R 1 + Z.to_nat N)%nat.
Proof.
  unfold pair_slots, tail_slots, pos. cbn [length]. rewrite length_app, (length_blocks 9) by done. cbn [length].
  rewrite length_map, length_upto. lia.
Qed.

Lemma slot_at p r j : (r < R)%nat -> (j < 9)%nat -> pair_slots p !! pos r j = step_slots p r !! j.
Proof.
  intros Hr Hj. change (pair_slots p !! pos r j) with ((flat_map (step_slots p) (seq 0 R) ++ tail_slots p) !! (9 * r + j)%nat).
  rewrite lookup_app_l by (rewrite (length_blocks 9) by done; nia). by rewrite (lookup_blocks 9).
Qed.

Lemma tail_at p t : pair_slots p !! (pos R 0 + t)%nat = tail_slots p !! t.
Proof.
  change (pair_slots p !! (pos R 0 + t)%nat) with ((flat_map (step_slots p) (seq 0 R) ++ tail_slots p) !! (9 * R + 0 + t)%nat).
  rewrite lookup_app_r by (rewrite (length_blocks 9) by done; lia). rewrite (length_blocks 9) by done. f_equal. lia.
Qed.

(** The three parts of the program. *)
Lemma pair_position p v oo : pair_slots p !! v = Some oo ->
  v = 0%nat /\ oo = Some (OLocal (copy_bytes cur source len)) \/
  (exists r j, (r < R)%nat /\ (j < 9)%nat /\ v = pos r j /\ step_slots p r !! j = Some oo) \/
  v = pos R 0 /\ oo = slot (fin p) (OLocal (copy_bytes target cur len)) \/
  exists i, 0 <= i < N /\ v = pos R (1 + Z.to_nat i) /\ oo = Some (OLocal (fun m => <[word_at i := SHMEM_SYNC_VALUE]> m)).
Proof.
  intros Hv. destruct v as [|v]; [left; by injection Hv as <-|right].
  destruct (decide (v < 9 * R)%nat) as [Hlt|Hge]; [left|right].
  - destruct (in_block 9 R v Hlt) as (r & j & Hr & Hj & ->). exists r, j. change (S (9 * r + j)) with (pos r j) in *.
    by rewrite slot_at in Hv by done.
  - replace (S v) with (pos R 0 + (v - 9 * R))%nat in * by (unfold pos; lia). rewrite tail_at in Hv.
    destruct (v - 9 * R)%nat as [|t]; [left; rewrite Nat.add_0_r; by injection Hv as <-|right].
    change (map (fun i => Some (OLocal (fun m => <[word_at i := SHMEM_SYNC_VALUE]> m))) (upto 0 N) !! t = Some oo) in Hv.
    rewrite list_lookup_fmap in Hv.
    destruct (upto 0 N !! t) as [i|] eqn:E; [|done]. injection Hv as <-.
    pose proof (list_elem_of_lookup_2 _ _ _ E) as Hi%elem_of_upto. exists i. split; [done|].
    pose proof (lookup_lt_Some _ _ _ E) as Ht. rewrite length_upto in Ht. rewrite lookup_upto in E by lia. injection E as <-.
    split; [unfold pos; lia|done].
Qed.

(** ** What a word is used for *)

Abbreviation ann p r := (announces (role_of p r)).
Abbreviation asked p r := (asks (role_of p r)).
Abbreviation snd p r := (sends_data (role_of p r)).
Abbreviation rcv p r := (receives (role_of p r)).
Abbreviation cmb p r := (combines (role_of p r)).

Lemma not_idle p r : ann p r || asked p r || snd p r || rcv p r || cmb p r = true -> role_of p r <> Idle.
Proof. by destruct (role_of p r). Qed.

(** The uses a member makes of one word, in order. *)
Lemma word_uses p r r' : p ∈ M -> (r < R)%nat -> (r' < R)%nat -> w r = w r' ->
  (ann p r = true -> ann p r' = true -> r = r') /\ (snd p r = true -> snd p r' = true -> r = r') /\
  (rcv p r = true -> rcv p r' = true -> r = r') /\ (asked p r = true -> asked p r' = true -> r = r') /\
  (ann p r = true -> snd p r' = true -> (r <= r')%nat) /\
  (asked p r = true -> rcv p r' = true -> (r <= r')%nat /\ (r <> r' -> peer p r' = peer p r)).
Proof.
  intros Hp Hr Hr' Ew. pose proof (rd_word _ _ _ _ _ HR p) as H.
  destruct (Nat.lt_trichotomy r r') as [Hl|[->|Hl]].
  - destruct (decide (role_of p r = Idle)) as [E|Hi]; [rewrite E; repeat split; done|].
    destruct (decide (role_of p r' = Idle)) as [E|Hi']; [rewrite E; repeat split; done|].
    destruct (H r r' Hp Hl Hr' Hi Hi' Ew) as [Hpe [[-> ->]|[-> ->]]]; repeat split; done || lia.
  - repeat split; done || lia.
  - destruct (decide (role_of p r = Idle)) as [E|Hi]; [rewrite E; repeat split; done|].
    destruct (decide (role_of p r' = Idle)) as [E|Hi']; [rewrite E; repeat split; done|].
    destruct (H r' r Hp Hl Hr Hi' Hi (eq_sym Ew)) as [Hpe [[-> ->]|[-> ->]]]; repeat split; done || lia.
Qed.

Lemma partner p r : p ∈ M -> (r < R)%nat -> role_of p r <> Idle ->
  peer p r ∈ M /\ peer p r <> p /\ peer (peer p r) r = p /\
  ann (peer p r) r = asked p r /\ asked (peer p r) r = ann p r /\ snd (peer p r) r = rcv p r /\
  rcv (peer p r) r = snd p r /\ waits_first (role_of (peer p r) r) = asked p r /\ role_of (peer p r) r <> Idle.
Proof.
  intros Hp Hr Hi. destruct (rd_peer _ _ _ _ _ HR p r Hp Hr Hi) as (H1 & H2 & H3 & ->).
  by destruct (role_of p r).
Qed.

Lemma word_inj i j : word_at i = word_at j -> i = j.
Proof. unfold word_at, SIZEOF_LONG. lia. Qed.
Lemma word_in r : (r < R)%nat -> in_words (word r).
Proof. intros Hr. exists (w r). split; [by apply Hw|done]. Qed.
Lemma word_target r : (r < R)%nat -> word r <> target.
Proof. intros Hr E. apply (Htp 0); [lia|]. rewrite Z.add_0_r, <- E. by apply word_in. Qed.

(** ** The messages *)

Definition pid : Type := Z * Z * nat.
Definition pident (m : msg) : pid := (m_src m, m_target m, m_epoch m).
(** The fences before a round: one in each round in which the member sends. *)
Definition fenced (p : Z) (r : nat) : nat := countb (fun k => snd p k) (seq 0 r).
Definition pep (p : Z) (v : nat) : nat :=
  match v with
  | O => 0
  | S u => (fenced p (Nat.min (u / 9) R) +
            if ((u / 9) <? R)%nat && snd p (u / 9) && (5 <? u mod 9)%nat then 1 else 0)%nat
  end.

Definition rdy (r : nat) (p : Z) : pid := (p, word r, fenced p r).
Definition dat (r : nat) (p : Z) : pid := (p, target, fenced p r).
Definition flg (r : nat) (p : Z) : pid := (p, word r, S (fenced p r)).

Inductive psent (p : Z) : nat -> pid -> Prop :=
| ps_rdy r : (r < R)%nat -> ann p r = true -> psent p (pos r 0) (rdy r p)
| ps_dat r : (r < R)%nat -> snd p r = true -> psent p (pos r 3) (dat r p)
| ps_flg r : (r < R)%nat -> snd p r = true -> psent p (pos r 6) (flg r p).

Lemma fenced_S p r : fenced p (S r) = (fenced p r + if snd p r then 1 else 0)%nat.
Proof. unfold fenced. rewrite seq_S, countb_app. simpl. by rewrite Nat.add_0_r. Qed.

Lemma fenced_le p r r' : (r <= r')%nat -> (fenced p r <= fenced p r')%nat.
Proof. induction 1 as [|r' _ IH]; [done|]. rewrite fenced_S. lia. Qed.

Lemma fenced_lt p r r' : snd p r = true -> (r < r')%nat -> (fenced p r < fenced p r')%nat.
Proof.
  intros Hs Hr. apply (Nat.lt_le_trans _ (fenced p (S r))); [rewrite fenced_S, Hs; lia|]. by apply fenced_le.
Qed.

Lemma fenced_inj p r r' : snd p r = true -> snd p r' = true -> fenced p r = fenced p r' -> r = r'.
Proof.
  intros H H' E. destruct (Nat.lt_trichotomy r r') as [Hl|[|Hl]]; [|done|].
  - pose proof (fenced_lt p r r' H Hl). lia.
  - pose proof (fenced_lt p r' r H' Hl). lia.
Qed.

Lemma pep_at p r j : (r < R)%nat -> (j < 9)%nat ->
  pep p (pos r j) = (fenced p r + if snd p r && (5 <? j)%nat then 1 else 0)%nat.
Proof.
  intros Hr Hj. unfold pos, pep. replace (9 * r + j)%nat with (j + r * 9)%nat by lia.
  rewrite Nat.div_add, Nat.Div0.mod_add, Nat.div_small, Nat.mod_small, Nat.add_0_l, Nat.min_l by lia.
  by rewrite (proj2 (Nat.ltb_lt r R)) by done.
Qed.

Lemma pep_tail p v : (pos R 0 <= v)%nat -> pep p v = fenced p R.
Proof.
  unfold pos, pep. intros Hv. destruct v as [|u]; [lia|].
  assert (R <= u / 9)%nat by (apply Nat.div_le_lower_bound; lia).
  rewrite Nat.min_r, (proj2 (Nat.ltb_ge (u / 9) R)) by done. simpl. lia.
Qed.

Lemma rdy_flg p r r' : p ∈ M -> (r < R)%nat -> (r' < R)%nat -> ann p r = true -> snd p r' = true -> rdy r p <> flg r' p.
Proof.
  intros Hp Hr Hr' Ha Hs [= Ew%word_inj Ef]. destruct (word_uses p r r' Hp Hr Hr' Ew) as (_ & _ & _ & _ & H & _).
  specialize (H Ha Hs). pose proof (fenced_le p r r' H). lia.
Qed.

Lemma psent_inj p v v' i i' : p ∈ M -> psent p v i -> psent p v' i' -> i = i' -> v = v'.
Proof.
  intros Hp [r Hr Ha|r Hr Hs|r Hr Hs] [r' Hr' Ha'|r' Hr' Hs'|r' Hr' Hs'] Ei.
  - injection Ei as Ew%word_inj _. destruct (word_uses p r r' Hp Hr Hr' Ew) as (H & _). by rewrite (H Ha Ha').
  - injection Ei as Et _. by destruct (word_target r Hr).
  - by destruct (rdy_flg p r r' Hp Hr Hr' Ha Hs').
  - injection Ei as Et _. by destruct (word_target r' Hr').
  - injection Ei as Ef. by rewrite (fenced_inj p r r' Hs Hs' Ef).
  - injection Ei as Et _. by destruct (word_target r' Hr').
  - by destruct (rdy_flg p r' r Hp Hr' Hr Ha' Hs).
  - injection Ei as Et _. by destruct (word_target r Hr).
  - injection Ei as _ Ef. by rewrite (fenced_inj p r r' Hs Hs' Ef).
Qed.

Abbreviation psends := (sends pident pair_slots pep).

Lemma psends_iff p v i : p ∈ M -> psends p v = Some i <-> psent p v i.
Proof.
  intros Hp. split.
  - unfold sends. destruct (pair_slots p !! v) as [oo|] eqn:Ev; [|done].
    apply pair_position in Ev as [[-> ->]|[(r & j & Hr & Hj & -> & Hs)|[[-> ->]|(i' & Hi & -> & ->)]]]; [done| |by destruct (fin p)|done].
    rewrite pep_at by done. destruct j as [|[|[|[|[|[|[|[|[|j]]]]]]]]]; [injection Hs as <-..|lia].
    + destruct (ann p r) eqn:Ha; [|done]. intros [= <-]. unfold pident. simpl. rewrite andb_false_r, Nat.add_0_r. by constructor.
    + by destruct (asked p r).
    + by destruct (waits_first _).
    + destruct (snd p r) eqn:Hs; [|done]. intros [= <-]. unfold pident. simpl. rewrite Nat.add_0_r. by constructor.
    + by destruct (snd p r).
    + by destruct (snd p r).
    + destruct (snd p r) eqn:Hs; [|done]. intros [= <-]. unfold pident. simpl. rewrite Nat.add_1_r. by constructor.
    + by destruct (waits_last _).
    + by destruct (cmb p r).
  - intros Hs. unfold sends. destruct Hs as [r Hr Ha|r Hr Hs|r Hr Hs]; rewrite slot_at, pep_at by lia; simpl.
    + rewrite Ha, andb_false_r, Nat.add_0_r. done.
    + by rewrite Hs, Nat.add_0_r.
    + by rewrite Hs, Nat.add_1_r.
Qed.

(** The slot a message is sent from: the only one that sends it. *)
Definition phome (i : pid) : Z * nat :=
  let p := i.1.1 in
  (p, match list_find (fun v => psends p v = Some i) (seq 0 (length (pair_slots p))) with
      | Some (_, v) => v
      | None => 0%nat
      end).

Lemma psent_src p v i : psent p v i -> i.1.1 = p.
Proof. by intros []. Qed.

Lemma phome_sends p v i : p ∈ M -> psends p v = Some i -> phome i = (p, v).
Proof.
  intros Hp Hs. pose proof (proj1 (psends_iff p v i Hp) Hs) as Hps. unfold phome. rewrite (psent_src p v i Hps). f_equal.
  destruct (list_find _ _) as [[k u]|] eqn:E.
  - apply list_find_Some in E as (_ & Hu & _). by apply (psent_inj p u v i i Hp (proj1 (psends_iff p u i Hp) Hu) Hps).
  - exfalso. apply list_find_None in E. rewrite list.Forall_forall in E. apply (E v); [|done].
    apply elem_of_seq. unfold sends in Hs. destruct (pair_slots p !! v) eqn:Ev; [|done]. apply lookup_lt_Some in Ev. lia.
Qed.

Lemma pident_same m d : pident (Msg (m_src m) (m_dst m) (m_epoch m) (m_kind m) (m_target m) (m_nbi m) d) = pident m.
Proof. done. Qed.

Abbreviation pflight := (flight pident M pair_slots pep phome).
Abbreviation parrived := (arrived pident M pair_slots pep phome).
Abbreviation psentb := (sentb pident M pair_slots pep phome).

Lemma psentb_at lb p v i : p ∈ M -> psent p v i -> psentb lb i = (v <? lb p)%nat.
Proof.
  intros Hp Hs. apply (sentb_at pident M pair_slots pep phome phome_sends lb i p v Hp). by apply psends_iff.
Qed.

Lemma parrived_at lb n p v i : p ∈ M -> psent p v i -> parrived lb n i = true -> (v < lb p)%nat.
Proof. intros Hp Hs Ha%arrived_sent. rewrite (psentb_at lb p v i Hp Hs) in Ha. by apply Nat.ltb_lt. Qed.

(** ** Where the members are *)

(** What a member knows at its position. *)
Record ppos (arr : pid -> bool) (p : Z) (v : nat) : Prop := {
  pp_asked : forall r, (r < R)%nat -> asked p r = true -> (pos r 1 < v)%nat -> arr (rdy r (peer p r)) = true;
  pp_first : forall r, (r < R)%nat -> waits_first (role_of p r) = true -> (pos r 2 < v)%nat -> arr (flg r (peer p r)) = true;
  pp_last : forall r, (r < R)%nat -> waits_last (role_of p r) = true -> (pos r 7 < v)%nat -> arr (flg r (peer p r)) = true }.

Record pctl (lb : Z -> nat) (s : state) : Prop := {
  pc_flight : pflight lb (net s);
  pc_len : forall p, p ∈ M -> (lb p <= pos R 1 + Z.to_nat N)%nat;
  pc_pos : forall p, p ∈ M -> ppos (parrived lb (net s)) p (lb p);
  pc_epoch : forall p, p ∈ M -> epoch s p = pep p (lb p);
  pc_read : forall m r p, m ∈ net s -> p ∈ M -> (r < R)%nat -> snd p r = true -> pident m = dat r p -> (pos r 4 < lb p)%nat ->
    pending (m_data m) = false;
  pc_order : forall r p, p ∈ M -> (r < R)%nat -> snd p r = true ->
    parrived lb (net s) (flg r p) = true -> parrived lb (net s) (dat r p) = true }.

Section facts.
Context (lb : Z -> nat) (s : state) (Hc : pctl lb s).
Abbreviation arr := (parrived lb (net s)).

Lemma past_rdy r p : p ∈ M -> (r < R)%nat -> ann p r = true -> arr (rdy r p) = true -> (pos r 0 < lb p)%nat.
Proof. intros Hp Hr Ha. apply parrived_at; [done|by constructor]. Qed.
Lemma past_dat r p : p ∈ M -> (r < R)%nat -> snd p r = true -> arr (dat r p) = true -> (pos r 3 < lb p)%nat.
Proof. intros Hp Hr Ha. apply parrived_at; [done|by constructor]. Qed.
Lemma past_flg r p : p ∈ M -> (r < R)%nat -> snd p r = true -> arr (flg r p) = true -> (pos r 6 < lb p)%nat.
Proof. intros Hp Hr Ha. apply parrived_at; [done|by constructor]. Qed.

(** A member that has its partner's data, or has waited for them. *)
Lemma got_data r p : p ∈ M -> (r < R)%nat -> rcv p r = true -> (pos r 7 < lb p)%nat ->
  arr (flg r (peer p r)) = true /\ arr (dat r (peer p r)) = true.
Proof.
  intros Hp Hr Hrc Hv. assert (role_of p r <> Idle) as Hi by (by destruct (role_of p r)).
  destruct (partner p r Hp Hr Hi) as (Hq & _ & _ & _ & _ & Hsn & _).
  assert (arr (flg r (peer p r)) = true) as Hf.
  { unfold receives in Hrc. destruct (waits_first (role_of p r)) eqn:E; [|by apply (pp_last _ _ _ (pc_pos _ _ Hc p Hp))].
    apply (pp_first _ _ _ (pc_pos _ _ Hc p Hp)); [done|done|]. unfold pos in *. lia. }
  split; [done|]. apply (pc_order _ _ Hc); [done|done|congruence|done].
Qed.

(** A member that sends has heard from its partner, or sends a result. *)
Lemma sender_heard r p : p ∈ M -> (r < R)%nat -> snd p r = true -> (pos r 3 < lb p)%nat ->
  role_of p r = Send \/
  (asked p r = true /\ arr (rdy r (peer p r)) = true /\ (pos r 0 < lb (peer p r))%nat) \/
  (waits_first (role_of p r) = true /\ arr (flg r (peer p r)) = true /\ (pos r 6 < lb (peer p r))%nat).
Proof.
  intros Hp Hr Hs Hv. assert (role_of p r <> Idle) as Hi by (by destruct (role_of p r)).
  destruct (partner p r Hp Hr Hi) as (Hq & _ & _ & Ha & _ & Hsn & _ & _).
  destruct (role_of p r) eqn:E; simpl in *; try done.
  - right; right. split; [done|]. assert (arr (flg r (peer p r)) = true) as Hf
      by (apply (pp_first _ _ _ (pc_pos _ _ Hc p Hp)); [done|by rewrite E|unfold pos in *; lia]).
    split; [done|]. by apply past_flg.
  - right; left. split; [done|]. assert (arr (rdy r (peer p r)) = true) as Hf
      by (apply (pp_asked _ _ _ (pc_pos _ _ Hc p Hp)); [done|by rewrite E|unfold pos in *; lia]).
    split; [done|]. by apply past_rdy.
  - right; left. split; [done|]. assert (arr (rdy r (peer p r)) = true) as Hf
      by (apply (pp_asked _ _ _ (pc_pos _ _ Hc p Hp)); [done|by rewrite E|unfold pos in *; lia]).
    split; [done|]. by apply past_rdy.
  - by left.
Qed.

(** Data are only on their way to a member that waits for them, or has handed in its own. *)
Lemma receiver_there r p : p ∈ M -> (r < R)%nat -> snd p r = true -> (pos r 3 < lb p)%nat ->
  (0 < lb (peer p r))%nat /\ (role_of (peer p r) r <> Get -> (pos r 0 < lb (peer p r))%nat).
Proof.
  intros Hp Hr Hs Hv. assert (role_of p r <> Idle) as Hi by (by destruct (role_of p r)).
  destruct (rd_peer _ _ _ _ _ HR p r Hp Hr Hi) as (Hq & _ & Hpp & Hm).
  destruct (sender_heard r p Hp Hr Hs Hv) as [E|[(_ & _ & Hlt)|(_ & _ & Hlt)]]; [|unfold pos in *; lia..].
  rewrite E in Hm. simpl in Hm. split; [|congruence].
  destruct (rd_get _ _ _ _ _ HR (peer p r) r Hq Hr Hm) as [(k & Hk & Hg & Hpk) _]. rewrite Hpp in Hpk.
  destruct (rd_peer _ _ _ _ _ HR (peer p r) k Hq ltac:(lia) ltac:(by rewrite Hg)) as (_ & _ & Hpp' & Hm').
  rewrite Hpk, Hg in *. simpl in Hm'.
  assert (arr (flg k (peer p k)) = true) as Hf.
  { apply (pp_first _ _ _ (pc_pos _ _ Hc p Hp)); [lia|by rewrite Hm'|unfold pos in *; lia]. }
  rewrite Hpp' in Hf. apply past_flg in Hf; [unfold pos in *; lia|done|lia|by rewrite Hg].
Qed.
End facts.

(** ** What the memories hold *)

Context (m0 : Z -> lmem) (V : Z -> nat -> Z -> Z).
Context (HV0 : forall p a, p ∈ M -> 0 <= a < len -> V p 0 a = m0 p (source + a)).
Context (Hred : forall p r m, p ∈ M -> (r < R)%nat -> cmb p r = true ->
  (forall a, 0 <= a < len -> m (cur + a) = V p r a) -> (forall a, 0 <= a < len -> m (target + a) = V (peer p r) r a) ->
  (forall a, 0 <= a < len -> redf m (cur + a) = V p (S r) a) /\
  (forall b, ~ (cur <= b < cur + len) -> redf m b = m b)).
Context (Hkeep : forall p r a, p ∈ M -> (r < R)%nat -> cmb p r = false -> V p (S r) a = V p r a).
Context (H0 : forall p i, p ∈ M -> 0 <= i < N -> m0 p (word_at i) = 0).
Context (Hfin : forall p r, p ∈ M -> (r < R)%nat -> fin p = true -> role_of p r <> Get).

(** The rounds whose combination is over at a position after the first. *)
Definition rounds_done (v : nat) : nat := Nat.min ((v - 1) / 9) R.

(** What a word shows. *)
Definition told (arr : pid -> bool) (p i : Z) (r : nat) : bool := (w r =? i) && rcv p r && arr (flg r (peer p r)).
Definition invited (arr : pid -> bool) (p i : Z) (r : nat) : bool := (w r =? i) && asked p r && arr (rdy r (peer p r)).
Definition word_value (arr : pid -> bool) (p i : Z) : Z :=
  if existsb (told arr p i) (seq 0 R) then 2 else if existsb (invited arr p i) (seq 0 R) then 1 else 0.

Definition elsewhere (b : Z) : Prop := ~ in_words b /\ ~ (target <= b < target + len) /\ ~ (cur <= b < cur + len).

Record pmem (lb : Z -> nat) (arr : pid -> bool) (mm : Z -> lmem) : Prop := {
  pm_word : forall p i, p ∈ M -> 0 <= i < N ->
    mm p (word_at i) = if (pos R (1 + Z.to_nat i) <? lb p)%nat then SHMEM_SYNC_VALUE else word_value arr p i;
  pm_cur : forall p a, p ∈ M -> (0 < lb p)%nat -> 0 <= a < len -> mm p (cur + a) = V p (rounds_done (lb p)) a;
  pm_fresh : forall p b, p ∈ M -> lb p = 0%nat -> ~ in_words b -> mm p b = m0 p b;
  pm_data : forall p r a, p ∈ M -> (r < R)%nat -> rcv p r = true -> arr (dat r (peer p r)) = true ->
    (lb p <= pos r 8)%nat \/ role_of p r = Get -> 0 <= a < len -> mm p (target + a) = V (peer p r) r a;
  pm_result : forall p a, p ∈ M -> fin p = true -> (pos R 0 < lb p)%nat -> 0 <= a < len -> mm p (target + a) = V p R a;
  pm_out : forall p b, (p ∉ M \/ elsewhere b) -> mm p b = m0 p b }.

Definition data_vals (p : Z) (r : nat) : list (Z * Z) := map (fun a => (a, V p r a)) (upto 0 len).

Inductive pgood (m : msg) : Prop :=
| pg_rdy p r : p ∈ M -> (r < R)%nat -> ann p r = true ->
    m = Msg p (peer p r) (fenced p r) KPut (word r) false (Captured [(0, 1)]) -> pgood m
| pg_dat p r d : p ∈ M -> (r < R)%nat -> snd p r = true -> m = Msg p (peer p r) (fenced p r) KPut target false d ->
    d = Pending cur (upto 0 len) \/ d = Captured (data_vals p r) -> pgood m
| pg_flg p r : p ∈ M -> (r < R)%nat -> snd p r = true ->
    m = Msg p (peer p r) (S (fenced p r)) KPut (word r) false (Captured [(0, 2)]) -> pgood m.

Definition pinv (lb : Z -> nat) (s : state) : Prop :=
  pctl lb s /\ (forall m, m ∈ net s -> pgood m) /\ pmem lb (parrived lb (net s)) (mem s).

Lemma rounds_at r j : (r <= R)%nat -> (j < 9)%nat -> rounds_done (pos r j) = r.
Proof.
  intros Hr Hj. unfold rounds_done, pos. replace (S (9 * r + j) - 1)%nat with (j + r * 9)%nat by lia.
  rewrite Nat.div_add, Nat.div_small by lia. lia.
Qed.

Lemma rounds_tail v : (pos R 0 <= v)%nat -> rounds_done v = R.
Proof. unfold rounds_done, pos. intros Hv. apply Nat.min_r, Nat.div_le_lower_bound; lia. Qed.

(** Data in flight from [p] have not been followed by their flag, and [p] still holds them
    until they are read. *)
Lemma in_flight lb s m : pctl lb s -> m ∈ net s -> exists p v, p ∈ M /\ psent p v (pident m) /\ (v < lb p)%nat /\
  parrived lb (net s) (pident m) = false.
Proof.
  intros Hc Hm. destruct (flight_in _ _ _ _ _ _ _ _ (pc_flight _ _ Hc) Hm) as [Hsent Hna].
  destruct (sentb_elim _ _ _ _ _ _ _ Hsent) as (p & v & _ & Hp & Hs & Hv). exists p, v.
  split; [done|]. split; [by apply psends_iff|done].
Qed.

(** A message in flight has been sent and has not arrived. *)
Lemma flight_at lb s m p v i : pctl lb s -> m ∈ net s -> pident m = i -> p ∈ M -> psent p v i ->
  (v < lb p)%nat /\ parrived lb (net s) i = false.
Proof.
  intros Hc Hm <- Hp Hs. destruct (flight_in _ _ _ _ _ _ _ _ (pc_flight _ _ Hc) Hm) as [Hsent Hna].
  split; [|done]. rewrite (psentb_at lb p v _ Hp Hs) in Hsent. by apply Nat.ltb_lt.
Qed.

Lemma pinv_capture lb s l1 m l2 src os :
  pinv lb s -> net s = l1 ++ m :: l2 -> m_data m = Pending src os ->
  pinv lb (set_net s (l1 ++ Msg (m_src m) (m_dst m) (m_epoch m) (m_kind m) (m_target m) (m_nbi m)
                  (Captured (map (fun o => (o, mem s (m_src m) (src + o))) os)) :: l2)).
Proof.
  intros (Hc & Hg & Hm) E Hd.
  assert (m ∈ net s) as Hm' by (rewrite E, elem_of_app, elem_of_cons; auto).
  destruct (flight_capture pident pident_same M pair_slots pep phome lb l1 m l2
    (Captured (map (fun o => (o, mem s (m_src m) (src + o))) os))) as [Hf Ha]; [by rewrite <- E; apply pc_flight|].
  set (m2 := Msg _ _ _ _ _ _ _) in *. rewrite <- E in Ha.
  assert (pgood m2) as Hg2.
  { destruct (Hg m Hm') as [p r _ _ _ Em|p r d Hp Hr Hs Em Hdd|p r _ _ _ Em]; rewrite Em in Hd; try done.
    simpl in Hd. subst d. destruct Hdd as [[= -> ->]|]; [|done].
    destruct (flight_at lb s m p (pos r 3) (dat r p) Hc Hm' ltac:(by rewrite Em) Hp ltac:(by constructor)) as [Hv _].
    assert (lb p <= pos r 4)%nat as Hv4.
    { destruct (decide (lb p <= pos r 4)%nat) as [|Hn]; [done|exfalso].
      assert (pending (m_data m) = false) as Hpd; [|by rewrite Em in Hpd].
      apply (pc_read _ _ Hc m r p); try done; [by rewrite Em|lia]. }
    assert (lb p = pos r 4) as Hv5 by (unfold pos in *; lia).
    apply (pg_dat m2 p r (Captured (map (fun o => (o, mem s p (cur + o))) (upto 0 len))) Hp Hr Hs); [unfold m2; by rewrite Em|].
    right. f_equal. unfold data_vals. apply map_ext_in. intros a Hin%list_elem_of_In%elem_of_upto. f_equal.
    rewrite (pm_cur _ _ _ Hm p a Hp) by (done || lia). by rewrite Hv5, rounds_at by lia. }
  assert (forall m', m' ∈ l1 ++ m2 :: l2 -> m' = m2 \/ m' ∈ net s) as Hsub
    by (intros m'; rewrite E, !elem_of_app, !elem_of_cons; tauto).
  destruct Hc as [C1 C2 C3 C4 C5 C6]. split; [|split].
  - split; simpl; rewrite ?Ha; try done. intros m' r p [->|Hin]%Hsub; [done|by apply C5].
  - intros m' [->|Hin]%Hsub; [done|by apply Hg].
  - simpl. by rewrite Ha.
Qed.

(** *** Deliveries *)

(** A message that has been sent has arrived unless it is in the network. *)
Lemma sent_arrived lb n p v i : p ∈ M -> psent p v i -> (v < lb p)%nat -> (forall m, m ∈ n -> pident m <> i) ->
  parrived lb n i = true.
Proof.
  intros Hp Hs Hv Hn. unfold arrived. rewrite (psentb_at lb p v i Hp Hs), (proj2 (Nat.ltb_lt _ _)) by done.
  apply Nat.eqb_eq, countb_zero. intros m Hm. by apply bool_decide_eq_false, Hn.
Qed.

Lemma good_dat m r p : pgood m -> p ∈ M -> (r < R)%nat -> snd p r = true -> pident m = dat r p ->
  m_src m = p /\ m_dst m = peer p r /\ m_epoch m = fenced p r.
Proof.
  intros Hg Hp Hr Hs Hid. destruct Hg as [q k Hq Hk Ha ->|q k d Hq Hk Ha -> _|q k Hq Hk Ha ->].
  - injection Hid as _ Et _. by destruct (word_target k Hk).
  - injection Hid as -> Ef. rewrite (fenced_inj p k r Ha Hs Ef). done.
  - injection Hid as _ Et _. by destruct (word_target k Hk).
Qed.

Lemma pctl_deliver lb s l1 m l2 mm :
  pctl lb s -> (forall m', m' ∈ net s -> pgood m') -> net s = l1 ++ m :: l2 -> fence_ready m (l1 ++ l2) = true ->
  pctl lb (St mm (l1 ++ l2) (epoch s) (log s)) /\ parrived lb (l1 ++ l2) = arrives (parrived lb (net s)) (pident m).
Proof.
  intros Hc Hg E Hf. assert (m ∈ net s) as Hm' by (rewrite E, elem_of_app, elem_of_cons; auto).
  destruct (flight_deliver pident M pair_slots pep phome lb l1 m l2) as [Hfl Ha]; [by rewrite <- E; apply pc_flight|].
  rewrite <- E in Ha. assert (parrived lb (l1 ++ l2) = arrives (parrived lb (net s)) (pident m)) as Ha'
    by (extensionality i; apply Ha).
  split; [|done]. assert (forall m', m' ∈ l1 ++ l2 -> m' ∈ net s) as Hsub by (intros m'; rewrite E, !elem_of_app, elem_of_cons; tauto).
  pose proof Hc as [C1 C2 C3 C4 C5 C6]. split; simpl; rewrite ?Ha'; try done.
  - intros p Hp. destruct (C3 p Hp) as [P1 P2 P3]. split; intros; apply arrives_mono; auto.
  - intros m' r p Hin. by apply C5, Hsub.
  - intros r p Hp Hr Hs Hflg. destruct (parrived lb (net s) (flg r p)) eqn:Hold; [by apply arrives_mono, C6|].
    destruct (decide (flg r p = pident m)) as [Eid|Hne]; [|by rewrite arrives_ne, Hold in Hflg].
    destruct (flight_at lb s m p (pos r 6) (flg r p) Hc Hm' (eq_sym Eid) Hp ltac:(by constructor)) as [Hv _].
    rewrite <- Ha'. apply (sent_arrived lb _ p (pos r 3)); [done|by constructor|unfold pos in *; lia|].
    intros m' Hin Hid. destruct (good_dat m' r p (Hg m' (Hsub m' Hin)) Hp Hr Hs Hid) as (Es & Ed & Ee).
    assert (m_src m = p /\ m_dst m = peer p r /\ m_epoch m = S (fenced p r)) as (Fs & Fd & Fe).
    { destruct (Hg m Hm') as [q k Hq Hk Hann ->|q k d Hq Hk Hann -> _|q k Hq Hk Hann ->].
      - exfalso. injection Eid as <- Ew Ef. by destruct (rdy_flg p k r Hp Hk Hr Hann Hs); unfold rdy, flg; congruence.
      - exfalso. injection Eid as _ Et _. by destruct (word_target r Hr).
      - injection Eid as <- Ew Ef. by rewrite (fenced_inj p r k Hs Hann Ef). }
    pose proof (fence_ready_none m (l1 ++ l2) m' Hf Hin ltac:(congruence) ltac:(congruence)). lia.
Qed.

Lemma existsb_ext_in (f g : nat -> bool) l : (forall x, x ∈ l -> f x = g x) -> existsb f l = existsb g l.
Proof.
  induction l as [|x l IH]; intros H; [done|]. simpl. rewrite (H x) by apply list_elem_of_here.
  f_equal. apply IH. intros y Hy. apply H. by apply list_elem_of_further.
Qed.

Lemma existsb_seq (f : nat -> bool) r : (r < R)%nat -> f r = true -> existsb f (seq 0 R) = true.
Proof. intros Hr Hf. apply existsb_exists. exists r. split; [apply in_seq; lia|done]. Qed.

Lemma existsb_none (f : nat -> bool) : (forall r, (r < R)%nat -> f r = false) -> existsb f (seq 0 R) = false.
Proof.
  intros Hf. apply not_true_iff_false. intros (r & Hin%in_seq & Hr)%existsb_exists. rewrite Hf in Hr; [done|lia].
Qed.

(** A word changes. *)
Lemma pmem_word lb arr mm i p r x : pmem lb arr mm -> p ∈ M -> (r < R)%nat ->
  (forall k q, (k < R)%nat -> i <> dat k q) -> ~ (pos R (1 + Z.to_nat (w r)) < lb p)%nat ->
  x = word_value (arrives arr i) p (w r) ->
  (forall q j, q ∈ M -> (q <> p \/ j <> w r) -> word_value (arrives arr i) q j = word_value arr q j) ->
  pmem lb (arrives arr i) (<[p := <[word r := x]> (mm p)]> mm).
Proof.
  intros [P1 P2 P3 P4 P5 P6] Hp Hr Hi Hlb Hx Hoth.
  assert (forall q b, ~ in_words b -> (<[p := <[word r := x]> (mm p)]> mm) q b = mm q b) as Hout.
  { intros q b Hb. update_cases; [subst q|done]. apply fn_lookup_insert_ne. intros <-. apply Hb. by apply word_in. }
  split.
  - intros q j Hq Hj. rewrite (insert_cases mm). destruct (decide (p = q)) as [<-|Hne].
    + rewrite insert_cases. destruct (decide (word r = word_at j)) as [Ew%word_inj|Ew].
      * subst j. rewrite (proj2 (Nat.ltb_nlt _ _)) by done. done.
      * rewrite P1 by done. rewrite Hoth; [done|done|right; congruence].
    + rewrite P1 by done. rewrite Hoth; [done|done|left; congruence].
  - intros q a Hq Hv Ha. rewrite Hout by auto. by apply P2.
  - intros q b Hq Hv Hb. rewrite Hout by auto. by apply P3.
  - intros q k a Hq Hk Hrc Harr Hv Ha. rewrite Hout by auto. rewrite arrives_ne in Harr by (intros E; by apply (Hi k (peer q k))).
    by apply P4.
  - intros q a Hq Hf Hv Ha. rewrite Hout by auto. by apply P5.
  - intros q b Hb. destruct (decide (q = p)) as [->|Hne]; [|rewrite fn_lookup_insert_ne by done; by apply P6].
    destruct Hb as [|(Hb & Ht & Hcr)]; [done|]. rewrite Hout by done. apply P6. right. by split.
Qed.

Section arrival.
Context (lb : Z -> nat) (s : state) (Hc : pctl lb s).
Abbreviation arr := (parrived lb (net s)).

Lemma dat_word r p k q : (k < R)%nat -> dat r p <> rdy k q /\ dat r p <> flg k q.
Proof. intros Hk. split; intros [= _ E _]; by apply (word_target k Hk). Qed.

(** The invitation of [p] to its partner arrives. *)
Lemma invitation r p : p ∈ M -> (r < R)%nat -> ann p r = true -> arr (rdy r p) = false ->
  let q := peer p r in
  q ∈ M /\ ~ (pos R (1 + Z.to_nat (w r)) < lb q)%nat /\ word_value (arrives arr (rdy r p)) q (w r) = 1 /\
  forall q' j, q' ∈ M -> (q' <> q \/ j <> w r) -> word_value (arrives arr (rdy r p)) q' j = word_value arr q' j.
Proof.
  intros Hp Hr Ha Hna q. assert (role_of p r <> Idle) as Hi by (by destruct (role_of p r)).
  destruct (partner p r Hp Hr Hi) as (Hq & _ & Hpp & _ & Hask & _). fold q in Hq, Hpp, Hask. rewrite Ha in Hask.
  assert (~ (pos r 1 < lb q)%nat) as Hlb.
  { intros Hv. pose proof (pp_asked _ _ _ (pc_pos _ _ Hc q Hq) r Hr Hask Hv) as Harr. rewrite Hpp in Harr. congruence. }
  split; [done|]. split; [unfold pos in *; nia|]. split.
  - unfold word_value. rewrite existsb_none, (existsb_seq _ r Hr); [done| |].
    + unfold invited. by rewrite Z.eqb_refl, Hask, Hpp, arrives_at.
    + intros k Hk. unfold told. destruct (Z.eqb_spec (w k) (w r)) as [Ew|]; [|done]. destruct (rcv q k) eqn:Hrc; [|done]. simpl.
      destruct (word_uses q r k Hq Hr Hk (eq_sym Ew)) as (_ & _ & _ & _ & _ & H). destruct (H Hask Hrc) as [Hle Hpe].
      assert (peer q k = p) as Epk by (destruct (decide (r = k)) as [<-|Hne]; [done|rewrite (Hpe Hne); done]). rewrite Epk.
      assert (role_of q k <> Idle) as Hik by (by destruct (role_of q k)).
      destruct (partner q k Hq Hk Hik) as (_ & _ & _ & _ & _ & Hsn & _). rewrite Epk, Hrc in Hsn.
      rewrite arrives_ne by (intros E; by apply (rdy_flg p r k Hp Hr Hk Ha Hsn)).
      apply not_true_iff_false. intros Hf%(past_flg lb s k p Hp Hk Hsn).
      assert (waits_first (role_of p r) = true) as Hwf by (by destruct (role_of p r)).
      pose proof (pp_first _ _ _ (pc_pos _ _ Hc p Hp) r Hr Hwf ltac:(unfold pos in *; lia)) as Hfq.
      assert (snd q r = true) as Hsq by (unfold asks in Hask; by destruct (role_of q r)).
      apply past_flg in Hfq; [|done..]. fold q in Hfq. unfold pos in *. lia.
  - intros q' j Hq' Hoth. unfold word_value. rewrite (existsb_ext_in (told _ q' j) (told arr q' j)),
      (existsb_ext_in (invited (arrives arr (rdy r p)) q' j) (invited arr q' j)); [done| |].
    + intros k Hk%elem_of_seq. unfold invited. destruct (Z.eqb_spec (w k) j) as [Ew|]; [|done].
      destruct (asked q' k) eqn:Hak; [|done]. simpl. apply arrives_ne. intros E. injection E as Ep Ew' Ef. apply word_inj in Ew'.
      assert (role_of q' k <> Idle) as Hik by (by destruct (role_of q' k)).
      destruct (partner q' k Hq' ltac:(lia) Hik) as (_ & _ & Hpp' & Han & _). rewrite Hak, Ep in Han. rewrite Ep in Hpp'.
      destruct (word_uses p k r Hp ltac:(lia) Hr Ew') as (Hu & _). specialize (Hu Han Ha). subst k.
      destruct Hoth as [Ho|Ho]; apply Ho; [by rewrite <- Hpp'|by rewrite <- Ew].
    + intros k Hk%elem_of_seq. unfold told. destruct (rcv q' k) eqn:Hrc; [|by rewrite !andb_false_r].
      f_equal. apply arrives_ne. intros E. assert (role_of q' k <> Idle) as Hik by (by destruct (role_of q' k)).
      destruct (partner q' k Hq' ltac:(lia) Hik) as (_ & _ & _ & _ & _ & Hsn & _). rewrite Hrc in Hsn.
      injection E as Ep Ew' Ef. rewrite Ep in *. apply (rdy_flg p r k Hp Hr ltac:(lia) Ha Hsn). unfold rdy, flg. congruence.
Qed.

(** The flag of [p] arrives. *)
Lemma flagged r p : p ∈ M -> (r < R)%nat -> snd p r = true -> arr (flg r p) = false ->
  let q := peer p r in
  q ∈ M /\ ~ (pos R (1 + Z.to_nat (w r)) < lb q)%nat /\ word_value (arrives arr (flg r p)) q (w r) = 2 /\
  forall q' j, q' ∈ M -> (q' <> q \/ j <> w r) -> word_value (arrives arr (flg r p)) q' j = word_value arr q' j.
Proof.
  intros Hp Hr Hs Hna q. assert (role_of p r <> Idle) as Hi by (by destruct (role_of p r)).
  destruct (partner p r Hp Hr Hi) as (Hq & _ & Hpp & _ & _ & _ & Hrc & _). fold q in Hq, Hpp, Hrc. rewrite Hs in Hrc.
  split; [done|]. split.
  - intros Hv. destruct (got_data lb s Hc r q Hq Hr Hrc ltac:(unfold pos in *; lia)) as [Hf _]. rewrite Hpp in Hf. congruence.
  - split.
    + unfold word_value. rewrite (existsb_seq _ r Hr); [done|]. unfold told. by rewrite Z.eqb_refl, Hrc, Hpp, arrives_at.
    + intros q' j Hq' Hoth. unfold word_value. rewrite (existsb_ext_in (told (arrives arr (flg r p)) q' j) (told arr q' j)),
        (existsb_ext_in (invited (arrives arr (flg r p)) q' j) (invited arr q' j)); [done| |].
      * intros k Hk%elem_of_seq. unfold invited. destruct (asked q' k) eqn:Hak; [|by rewrite !andb_false_r].
        f_equal. apply arrives_ne. intros E. assert (role_of q' k <> Idle) as Hik by (by destruct (role_of q' k)).
        destruct (partner q' k Hq' ltac:(lia) Hik) as (_ & _ & _ & Han & _). rewrite Hak in Han.
        injection E as Ep Ew' Ef. rewrite Ep in *. apply (rdy_flg p k r Hp ltac:(lia) Hr Han Hs). unfold rdy, flg. congruence.
      * intros k Hk%elem_of_seq. unfold told. destruct (Z.eqb_spec (w k) j) as [Ew|]; [|done].
        destruct (rcv q' k) eqn:Hrk; [|done]. simpl. apply arrives_ne. intros E. injection E as Ep Ew' Ef. apply word_inj in Ew'.
        assert (role_of q' k <> Idle) as Hik by (by destruct (role_of q' k)).
        destruct (partner q' k Hq' ltac:(lia) Hik) as (_ & _ & Hpp' & _ & _ & Hsn & _). rewrite Hrk, Ep in Hsn. rewrite Ep in Hpp'.
        destruct (word_uses p k r Hp ltac:(lia) Hr Ew') as (_ & Hu & _). specialize (Hu Hsn Hs). subst k.
        destruct Hoth as [Ho|Ho]; apply Ho; [by rewrite <- Hpp'|by rewrite <- Ew].
Qed.

(** The data of [p] arrive: no other data are waiting at its partner. *)
Lemma no_other_data r p k : p ∈ M -> (r < R)%nat -> snd p r = true -> (pos r 3 < lb p)%nat -> arr (dat r p) = false ->
  let q := peer p r in
  (k < R)%nat -> rcv q k = true -> arr (dat k (peer q k)) = true -> ~ ((lb q <= pos k 8)%nat \/ role_of q k = Get).
Proof.
  intros Hp Hr Hs Hv Hna q Hk Hrc Harr Hor. assert (role_of p r <> Idle) as Hi by (by destruct (role_of p r)).
  destruct (partner p r Hp Hr Hi) as (Hq & _ & Hpp & _ & _ & _ & Hrq & _). fold q in Hq, Hpp, Hrq. rewrite Hs in Hrq.
  assert (forall k', (k' < R)%nat -> role_of q k' = Get -> forall k2, (k2 < R)%nat -> rcv q k2 = true -> k2 = k') as Honly
    by (intros k' Hk' Hg; by destruct (rd_get _ _ _ _ _ HR q k' Hq Hk' Hg) as [_ ?]).
  destruct (receiver_there lb s Hc r p Hp Hr Hs Hv) as [_ Hthere]. fold q in Hthere.
  assert (k <> r) as Hne by (intros ->; rewrite Hpp in Harr; congruence).
  assert (role_of q r <> Get) as Hgr by (intros Hg; by rewrite (Honly r Hr Hg k Hk Hrc) in Hne).
  assert (role_of q k <> Get) as Hgk by (intros Hg; by rewrite (Honly k Hk Hg r Hr Hrq) in Hne).
  destruct Hor as [Hle|]; [|done]. specialize (Hthere Hgr). destruct (Nat.lt_trichotomy k r) as [Hl|[|Hl]]; [unfold pos in *; lia|done|].
  assert (role_of q k <> Idle) as Hik by (by destruct (role_of q k)).
  destruct (partner q k Hq Hk Hik) as (Hq2 & _ & Hpp2 & _ & _ & Hsn & _). rewrite Hrc in Hsn.
  apply (past_dat lb s k (peer q k) Hq2 Hk Hsn) in Harr.
  destruct (receiver_there lb s Hc k (peer q k) Hq2 Hk Hsn Harr) as [_ Ht]. rewrite Hpp2 in Ht. specialize (Ht Hgk).
  destruct (got_data lb s Hc r q Hq Hr Hrq ltac:(unfold pos in *; lia)) as [_ Hd]. rewrite Hpp in Hd. congruence.
Qed.
End arrival.

Lemma pmem_data lb s r p : pctl lb s -> pmem lb (parrived lb (net s)) (mem s) -> p ∈ M -> (r < R)%nat -> snd p r = true ->
  (pos r 3 < lb p)%nat -> parrived lb (net s) (dat r p) = false ->
  pmem lb (arrives (parrived lb (net s)) (dat r p))
    (<[peer p r := apply_vals KPut target (data_vals p r) (mem s (peer p r))]> (mem s)).
Proof.
  intros Hc [P1 P2 P3 P4 P5 P6] Hp Hr Hs Hv Hna. set (q := peer p r). set (arr := parrived lb (net s)) in *.
  assert (role_of p r <> Idle) as Hi by (by destruct (role_of p r)).
  destruct (partner p r Hp Hr Hi) as (Hq & _ & Hpp & _ & _ & _ & Hrq & _). fold q in Hq, Hpp, Hrq. rewrite Hs in Hrq.
  destruct (receiver_there lb s Hc r p Hp Hr Hs Hv) as [Hstarted _]. fold q in Hstarted.
  set (m' := apply_vals _ _ _ _).
  assert (forall b, ~ (target <= b < target + len) -> m' b = mem s q b) as Hout.
  { intros b Hb. destruct (apply_puts target (data_vals p r) (mem s q) b) as [([k x] & Hx & E & _)|[_ ?]]; [|done].
    apply list_elem_of_fmap in Hx as (k' & [= -> ->] & Hk%elem_of_upto). simpl in E. lia. }
  assert (forall a, 0 <= a < len -> m' (target + a) = V p r a) as Hat.
  { intros a Ha. destruct (apply_puts target (data_vals p r) (mem s q) (target + a)) as [([k x] & Hx & E & Ev)|[Hno _]].
    - apply list_elem_of_fmap in Hx as (k' & [= -> ->] & Hk%elem_of_upto). simpl in E, Ev. unfold m'. rewrite Ev. f_equal. lia.
    - exfalso. apply (Hno (a, V p r a)); [|simpl; lia]. apply list_elem_of_fmap. exists a. split; [done|]. by apply elem_of_upto. }
  assert (forall i, word_value (arrives arr (dat r p)) i = word_value arr i) as Hwv.
  { intros q'. extensionality j. unfold word_value.
    rewrite (existsb_ext_in (told (arrives arr (dat r p)) q' j) (told arr q' j)),
      (existsb_ext_in (invited (arrives arr (dat r p)) q' j) (invited arr q' j)); [done| |];
      intros k Hk%elem_of_seq; unfold told, invited; f_equal; apply arrives_ne;
      destruct (dat_word r p k (peer q' k) ltac:(lia)); congruence. }
  split.
  - intros q' j Hq' Hj. rewrite Hwv, <- P1 by done. update_cases; [subst q'|done]. apply Hout.
    intros Hb. apply (Htp (word_at j - target)); [lia|]. exists j. split; [done|lia].
  - intros q' a Hq' Hlb Ha. rewrite <- P2 by done. update_cases; [subst q'|done]. apply Hout. lia.
  - intros q' b Hq' Hlb Hb. rewrite <- P3 by done. update_cases; [subst q'; lia|done].
  - intros q' k a Hq' Hk Hrc Harr Hor Ha. destruct (decide (dat k (peer q' k) = dat r p)) as [E|Hne].
    + injection E as Ep Ef. assert (role_of q' k <> Idle) as Hik by (by destruct (role_of q' k)).
      destruct (partner q' k Hq' Hk Hik) as (_ & _ & Hpp' & _ & _ & Hsn & _). rewrite Hrc, Ep in Hsn. rewrite Ep in *.
      assert (k = r) as -> by (by apply (fenced_inj p)). assert (q' = q) as -> by (by rewrite <- Hpp').
      rewrite fn_lookup_insert. by apply Hat.
    + rewrite arrives_ne in Harr by done. rewrite <- P4 by done. update_cases; [subst q'|done].
      exfalso. by apply (no_other_data lb s Hc r p k Hp Hr Hs Hv Hna Hk Hrc Harr).
  - intros q' a Hq' Hf Hlb Ha. rewrite <- P5 by done. update_cases; [subst q'|done]. exfalso.
    destruct (got_data lb s Hc r q Hq Hr Hrq ltac:(unfold pos in *; lia)) as [_ Hd]. rewrite Hpp in Hd. unfold arr in Hna. congruence.
  - intros q' b Hb. rewrite <- (P6 q' b Hb). update_cases; [subst q'|done]. destruct Hb as [|(_ & Ht & _)]; [done|]. by apply Hout.
Qed.

Lemma pinv_deliver lb s l1 m l2 vals :
  pinv lb s -> net s = l1 ++ m :: l2 -> m_data m = Captured vals -> fence_ready m (l1 ++ l2) = true ->
  pinv lb (set_net (set_mem s (m_dst m) (apply_vals (m_kind m) (m_target m) vals (mem s (m_dst m)))) (l1 ++ l2)).
Proof.
  intros (Hc & Hg & Hm) E Hd Hf. assert (m ∈ net s) as Hm' by (rewrite E, elem_of_app, elem_of_cons; auto).
  destruct (pctl_deliver lb s l1 m l2 (<[m_dst m := apply_vals (m_kind m) (m_target m) vals (mem s (m_dst m))]> (mem s)))
    as [Hc' Ha]; [done..|].
  split; [exact Hc'|]. split.
  { intros m' Hin. apply Hg. rewrite E. simpl in Hin. apply elem_of_app in Hin. rewrite elem_of_app, elem_of_cons. tauto. }
  simpl. rewrite Ha. destruct (Hg m Hm') as [p r Hp Hr Hs Em|p r d Hp Hr Hs Em Hdd|p r Hp Hr Hs Em].
  - destruct (flight_at lb s m p (pos r 0) (rdy r p) Hc Hm' ltac:(by rewrite Em) Hp ltac:(by constructor)) as [_ Hna].
    assert (pident m = rdy r p) as -> by (by rewrite Em). rewrite Em in Hd |- *. injection Hd as <-. simpl.
    destruct (invitation lb s Hc r p Hp Hr Hs Hna) as (Hq & Hlb & Hx & Hoth). rewrite Z.add_0_r.
    apply pmem_word; [done|done|done| |done|done|done]. intros k q Hk E'. destruct (dat_word k q r p Hr). congruence.
  - destruct (flight_at lb s m p (pos r 3) (dat r p) Hc Hm' ltac:(by rewrite Em) Hp ltac:(by constructor)) as [Hv Hna].
    assert (pident m = dat r p) as -> by (by rewrite Em). rewrite Em in Hd |- *. simpl in Hd. subst d.
    destruct Hdd as [|[= ->]]; [done|]. by apply pmem_data.
  - destruct (flight_at lb s m p (pos r 6) (flg r p) Hc Hm' ltac:(by rewrite Em) Hp ltac:(by constructor)) as [_ Hna].
    assert (pident m = flg r p) as -> by (by rewrite Em). rewrite Em in Hd |- *. injection Hd as <-. simpl.
    destruct (flagged lb s Hc r p Hp Hr Hs Hna) as (Hq & Hlb & Hx & Hoth). rewrite Z.add_0_r.
    apply pmem_word; [done|done|done| |done|done|done]. intros k q Hk E'. destruct (dat_word k q r p Hr). congruence.
Qed.

Lemma pinv_net lb s s' : pinv lb s -> net_step s s' -> pinv lb s'.
Proof.
  intros Hi Hst. destruct Hst as [s l1 m l2 src os E Hd|s l1 m l2 vals E Hd Hf]; [by eapply pinv_capture|by eapply pinv_deliver].
Qed.

(** *** The members *)

(** Whether a member is the one that moves. *)
Ltac member_cases q p :=
  destruct (decide (q = p)) as [->|?]; [rewrite ?fn_lookup_insert|rewrite ?fn_lookup_insert_ne by done].

Lemma pos_next r j : S (pos r j) = if (j =? 8)%nat then pos (S r) 0 else pos r (S j).
Proof. unfold pos. destruct (Nat.eqb_spec j 8); lia. Qed.

Lemma pos_inj r j r' j' : (j < 9)%nat -> (j' < 9)%nat -> pos r j = pos r' j' -> r = r' /\ j = j'.
Proof. unfold pos. lia. Qed.

Lemma rounds_next v : (0 < v)%nat -> (forall r, (r < R)%nat -> v <> pos r 8) -> rounds_done (S v) = rounds_done v.
Proof.
  intros Hv Hne. unfold rounds_done. destruct v as [|u]; [lia|]. cbn [Nat.sub]. rewrite Nat.sub_0_r.
  pose proof (Nat.div_mod u 9 ltac:(lia)) as E. pose proof (Nat.mod_upper_bound u 9 ltac:(lia)) as Hb.
  destruct (decide (u mod 9 = 8)%nat) as [E8|E8].
  - destruct (decide (u / 9 < R)%nat) as [Hlt|Hge].
    + exfalso. apply (Hne (u / 9)%nat Hlt). unfold pos. lia.
    + assert (R <= S u / 9)%nat by (apply Nat.div_le_lower_bound; lia). lia.
  - replace (S u) with (S (u mod 9) + u / 9 * 9)%nat by lia. rewrite Nat.div_add, Nat.div_small by lia. lia.
Qed.

Lemma rounds_last r : (r < R)%nat -> rounds_done (S (pos r 8)) = S r.
Proof. intros Hr. rewrite pos_next. simpl. by rewrite rounds_at by lia. Qed.

(** A slot that leaves the memory alone. *)
Lemma pmem_pass lb arr mm p : pmem lb arr mm -> p ∈ M -> (0 < lb p)%nat ->
  (forall i, 0 <= i < N -> lb p <> pos R (1 + Z.to_nat i)) -> (lb p = pos R 0 -> fin p = false) ->
  (forall r, (r < R)%nat -> lb p = pos r 8 -> cmb p r = false) -> pmem (<[p := S (lb p)]> lb) arr mm.
Proof.
  intros [P1 P2 P3 P4 P5 P6] Hp Hv Hres Hfl Hcm. split; [| | | | |done].
  - intros q i Hq Hi. rewrite P1 by done. member_cases q p; [|done]. specialize (Hres i Hi).
    destruct (Nat.ltb_spec (pos R (1 + Z.to_nat i)) (lb p)), (Nat.ltb_spec (pos R (1 + Z.to_nat i)) (S (lb p))); lia || done.
  - intros q a Hq. member_cases q p; [|by apply P2]. intros _ Ha. rewrite P2 by done.
    destruct (decide (Exists (fun r => lb p = pos r 8) (seq 0 R))) as [(r & Hr%elem_of_seq & E)%list.Exists_exists|Hne].
    + destruct Hr as [_ Hr]. rewrite E, rounds_at, rounds_last by lia. symmetry. apply Hkeep; auto.
    + rewrite rounds_next; [done|done|]. intros r Hr E. apply Hne, list.Exists_exists. exists r. split; [apply elem_of_seq; lia|done].
  - intros q b Hq. member_cases q p; [ lia|by apply P3].
  - intros q r a Hq Hr Hrc Harr Hor. apply P4; try done. destruct Hor as [Hle|]; [left|by right].
    revert Hle. member_cases q p; [ lia|done].
  - intros q a Hq Hf. member_cases q p; [|by apply P5]. intros Hlt Ha. apply P5; try done.
    destruct (decide (lb p = pos R 0)) as [E|]; [by rewrite Hfl in Hf|lia].
Qed.

(** The copy of the contribution. *)
Lemma pmem_start lb arr mm p : pmem lb arr mm -> p ∈ M -> lb p = 0%nat ->
  pmem (<[p := 1%nat]> lb) arr (<[p := copy_bytes cur source len (mm p)]> mm).
Proof.
  intros [P1 P2 P3 P4 P5 P6] Hp Hv.
  assert (forall b, ~ (cur <= b < cur + len) -> copy_bytes cur source len (mm p) b = mm p b) as Hout
    by (intros b Hb; unfold copy_bytes; case_match eqn:E; [lia|done]).
  split.
  - intros q i Hq Hi. assert (forall k, (k <= 1)%nat -> (pos R (1 + Z.to_nat i) <? k)%nat = false) as Hlt
      by (intros; apply Nat.ltb_ge; unfold pos; lia).
    specialize (P1 q i Hq Hi). revert P1. member_cases q p; [|done]. rewrite Hv, !Hlt by lia. intros <-. apply Hout.
    intros Hb. apply (Hcp (word_at i - cur)); [lia|]. exists i. split; [done|lia].
  - intros q a Hq. member_cases q p; [|by apply P2]. intros _ Ha. unfold copy_bytes. case_match eqn:E; [|lia].
    replace (source + (cur + a - cur)) with (source + a) by lia. rewrite P3 by auto. change 1%nat with (pos 0 0).
    rewrite rounds_at by lia. by rewrite HV0.
  - intros q b Hq. member_cases q p; [done|by apply P3].
  - intros q r a Hq Hr Hrc Harr Hor Ha. rewrite <- (P4 q r a Hq Hr Hrc Harr); [|
      destruct (decide (q = p)) as [->|]; [left; lia|by rewrite fn_lookup_insert_ne in Hor]|done].
    member_cases q p; [|done]. apply Hout. lia.
  - intros q a Hq Hf. member_cases q p; [ unfold pos; lia|by apply P5].
  - intros q b Hb. rewrite <- (P6 q b Hb). member_cases q p; [|done]. destruct Hb as [|(_ & _ & Hb)]; [done|]. by apply Hout.
Qed.

(** A combination. *)
Lemma pmem_combine lb s p r : pctl lb s -> pmem lb (parrived lb (net s)) (mem s) -> p ∈ M -> (r < R)%nat -> cmb p r = true ->
  lb p = pos r 8 -> pmem (<[p := S (lb p)]> lb) (parrived lb (net s)) (<[p := redf (mem s p)]> (mem s)).
Proof.
  intros Hc [P1 P2 P3 P4 P5 P6] Hp Hr Hcm Hv. assert (rcv p r = true) as Hrc by (by destruct (role_of p r)).
  destruct (got_data lb s Hc r p Hp Hr Hrc ltac:(unfold pos in *; lia)) as [_ Hd].
  destruct (Hred p r (mem s p) Hp Hr Hcm) as [Hin Hout].
  { intros a Ha. rewrite P2 by (done || unfold pos in *; lia). by rewrite Hv, rounds_at by lia. }
  { intros a Ha. apply P4; done || (left; lia). }
  split.
  - intros q i Hq Hi. specialize (P1 q i Hq Hi). revert P1. member_cases q p; [|done].
    assert (forall k, (k <= pos R 0)%nat -> (pos R (1 + Z.to_nat i) <? k)%nat = false) as Hlt
      by (intros; apply Nat.ltb_ge; unfold pos in *; lia).
    rewrite !Hlt by (unfold pos in *; lia). intros <-. apply Hout. intros Hb. apply (Hcp (word_at i - cur)); [lia|].
    exists i. split; [done|lia].
  - intros q a Hq. member_cases q p; [|by apply P2]. intros _ Ha. rewrite Hv, rounds_last by done. by apply Hin.
  - intros q b Hq. member_cases q p; [done|by apply P3].
  - intros q k a Hq Hk Hrk Harr Hor Ha. rewrite <- (P4 q k a Hq Hk Hrk Harr); [| |done].
    + member_cases q p; [|done]. apply Hout. lia.
    + destruct Hor as [Hle|]; [left|by right]. revert Hle. member_cases q p; [ lia|done].
  - intros q a Hq Hf. member_cases q p; [|by apply P5]. unfold pos in *. lia.
  - intros q b Hb. rewrite <- (P6 q b Hb). member_cases q p; [|done]. destruct Hb as [|(_ & _ & Hb)]; [done|]. by apply Hout.
Qed.

(** The copy of the result. *)
Lemma pmem_finish lb arr mm p : pmem lb arr mm -> p ∈ M -> lb p = pos R 0 -> fin p = true ->
  pmem (<[p := S (lb p)]> lb) arr (<[p := copy_bytes target cur len (mm p)]> mm).
Proof.
  intros [P1 P2 P3 P4 P5 P6] Hp Hv Hf.
  assert (forall b, ~ (target <= b < target + len) -> copy_bytes target cur len (mm p) b = mm p b) as Hout
    by (intros b Hb; unfold copy_bytes; case_match eqn:E; [lia|done]).
  split.
  - intros q i Hq Hi. specialize (P1 q i Hq Hi). revert P1. member_cases q p; [|done].
    assert (forall k, (k <= pos R 1)%nat -> (pos R (1 + Z.to_nat i) <? k)%nat = false) as Hlt
      by (intros; apply Nat.ltb_ge; unfold pos in *; lia).
    rewrite !Hlt by (unfold pos in *; lia). intros <-. apply Hout. intros Hb. apply (Htp (word_at i - target)); [lia|].
    exists i. split; [done|lia].
  - intros q a Hq. member_cases q p; [|by apply P2]. intros _ Ha. rewrite Hout by lia. rewrite P2 by (done || unfold pos in *; lia).
    by rewrite !rounds_tail by lia.
  - intros q b Hq. member_cases q p; [done|by apply P3].
  - intros q k a Hq Hk Hrk Harr Hor Ha. destruct (decide (q = p)) as [->|Hne].
    + exfalso. rewrite fn_lookup_insert in Hor. destruct Hor as [Hle|Hg]; [unfold pos in *; lia|]. by apply (Hfin p k).
    + rewrite !fn_lookup_insert_ne in * by done. by apply P4.
  - intros q a Hq Hfq. member_cases q p; [|by apply P5]. intros _ Ha. unfold copy_bytes. case_match eqn:E; [|lia].
    replace (cur + (target + a - target)) with (cur + a) by lia. rewrite P2 by (done || unfold pos in *; lia). by rewrite rounds_tail by lia.
  - intros q b Hb. rewrite <- (P6 q b Hb). member_cases q p; [|done]. destruct Hb as [|(_ & Hb & _)]; [done|]. by apply Hout.
Qed.

(** The reset of a word. *)
Lemma pmem_reset lb arr mm p i : pmem lb arr mm -> p ∈ M -> 0 <= i < N -> lb p = pos R (1 + Z.to_nat i) ->
  pmem (<[p := S (lb p)]> lb) arr (<[p := <[word_at i := SHMEM_SYNC_VALUE]> (mm p)]> mm).
Proof.
  intros [P1 P2 P3 P4 P5 P6] Hp Hi Hv.
  assert (forall q b, ~ in_words b -> (<[p := <[word_at i := SHMEM_SYNC_VALUE]> (mm p)]> mm) q b = mm q b) as Hout.
  { intros q b Hb. member_cases q p; [|done]. apply fn_lookup_insert_ne. intros <-. apply Hb. by exists i. }
  split.
  - intros q j Hq Hj. specialize (P1 q j Hq Hj). revert P1. member_cases q p; [|done]. rewrite insert_cases.
    destruct (decide (word_at i = word_at j)) as [Ew%word_inj|Hne].
    + subst j. intros _. by rewrite (proj2 (Nat.ltb_lt _ _)) by lia.
    + intros ->. assert (i <> j) by congruence. rewrite Hv.
      destruct (Nat.ltb_spec (pos R (1 + Z.to_nat j)) (pos R (1 + Z.to_nat i))),
        (Nat.ltb_spec (pos R (1 + Z.to_nat j)) (S (pos R (1 + Z.to_nat i)))); unfold pos in *; lia || done.
  - intros q a Hq Hlb Ha. rewrite Hout by auto. revert Hlb. member_cases q p; [|by intros; apply P2]. intros _.
    rewrite P2 by (done || unfold pos in *; lia). by rewrite !rounds_tail by (unfold pos in *; lia).
  - intros q b Hq. member_cases q p; [done|]. intros Hlb Hb. by apply P3.
  - intros q k a Hq Hk Hrk Harr Hor Ha. rewrite Hout by auto. apply P4; try done. destruct Hor as [Hle|]; [left|by right].
    revert Hle. member_cases q p; [ lia|done].
  - intros q a Hq Hf Hlt Ha. rewrite Hout by auto. apply P5; try done. revert Hlt. member_cases q p; [ unfold pos in *; lia|done].
  - intros q b Hb. destruct (decide (q = p)) as [->|Hne]; [|rewrite fn_lookup_insert_ne by done; by apply P6].
    destruct Hb as [|Hb]; [done|]. rewrite Hout by apply Hb. apply P6. by right.
Qed.

(** A member passes a slot: [ms] is what it sends. *)
Lemma pinv_move lb s p s' ms :
  let lb' := <[p := S (lb p)]> lb in
  pinv lb s -> p ∈ M -> (lb p < pos R 1 + Z.to_nat N)%nat ->
  net s' = net s ++ ms ->
  pflight lb' (net s') -> parrived lb' (net s') = parrived lb (net s) ->
  (forall m, m ∈ ms -> pgood m /\ forall r q, q ∈ M -> (r < R)%nat -> snd q r = true -> pident m = dat r q -> q = p /\ lb p = pos r 3) ->
  (forall q, q ∈ M -> epoch s' q = pep q (lb' q)) ->
  ppos (parrived lb (net s)) p (S (lb p)) ->
  (forall r, (r < R)%nat -> snd p r = true -> lb p = pos r 4 -> forall m, m ∈ net s -> pident m = dat r p -> pending (m_data m) = false) ->
  pmem lb' (parrived lb (net s)) (mem s') ->
  pinv lb' s'.
Proof.
  intros lb' ([C1 C2 C3 C4 C5 C6] & Hg & Hm) Hp Hlt Enet Hf Ha Hms Hep Hpos Hrd Hmem.
  assert (forall q, q <> p -> lb' q = lb q) as Hne by (intros q Hq; unfold lb'; by rewrite fn_lookup_insert_ne).
  assert (lb' p = S (lb p)) as Hlp by (unfold lb'; by rewrite fn_lookup_insert).
  split; [|split].
  - split; rewrite ?Ha; try done.
    + intros q Hq. destruct (decide (q = p)) as [->|Hqp]; [lia|]. rewrite Hne by done. by apply C2.
    + intros q Hq. destruct (decide (q = p)) as [->|Hqp]; [by rewrite Hlp|]. rewrite Hne by done. by apply C3.
    + intros m r q. rewrite Enet. intros [Hin|Hin]%elem_of_app Hq Hr Hs Hid Hv.
      * destruct (decide (q = p)) as [->|Hqp]; [|rewrite Hne in Hv by done; by eapply C5].
        rewrite Hlp in Hv. destruct (decide (lb p = pos r 4)) as [E|E]; [by eapply Hrd|].
        apply (C5 m r p); done || lia.
      * destruct (Hms m Hin) as (_ & Hd). destruct (Hd r q Hq Hr Hs Hid) as [-> Hv0]. rewrite Hlp in Hv. unfold pos in *. lia.
  - intros m. rewrite Enet. intros [Hin|Hin]%elem_of_app; [auto|]. by apply Hms.
  - by rewrite Ha.
Qed.

(** What a member learns at a position. *)
Lemma ppos_next arr p v : ppos arr p v ->
  (forall r, (r < R)%nat -> asked p r = true -> v = pos r 1 -> arr (rdy r (peer p r)) = true) ->
  (forall r, (r < R)%nat -> waits_first (role_of p r) = true -> v = pos r 2 -> arr (flg r (peer p r)) = true) ->
  (forall r, (r < R)%nat -> waits_last (role_of p r) = true -> v = pos r 7 -> arr (flg r (peer p r)) = true) -> ppos arr p (S v).
Proof.
  intros [P1 P2 P3] N1 N2 N3. split; intros r Hr Hx Hv.
  - destruct (decide (v = pos r 1)); [auto|apply P1; done || lia].
  - destruct (decide (v = pos r 2)); [auto|apply P2; done || lia].
  - destruct (decide (v = pos r 7)); [auto|apply P3; done || lia].
Qed.

(** The waits. *)
Lemma told_arrived arr p r : p ∈ M -> (r < R)%nat -> rcv p r = true -> word_value arr p (w r) = 2 -> arr (flg r (peer p r)) = true.
Proof.
  intros Hp Hr Hrc. unfold word_value. destruct (existsb (told arr p (w r)) (seq 0 R)) eqn:E; [|by case_match].
  intros _. apply existsb_exists in E as (k & Hk%in_seq & Ht). unfold told in Ht. apply andb_true_iff in Ht as [[Ew%Z.eqb_eq Hk2]%andb_true_iff Ha].
  destruct (word_uses p k r Hp ltac:(lia) Hr Ew) as (_ & _ & Hu & _). by rewrite <- (Hu Hk2 Hrc).
Qed.

Lemma invited_arrived arr p r : p ∈ M -> (r < R)%nat -> asked p r = true -> word_value arr p (w r) = 1 -> arr (rdy r (peer p r)) = true.
Proof.
  intros Hp Hr Hak. unfold word_value. case_match; [done|]. destruct (existsb (invited arr p (w r)) (seq 0 R)) eqn:E; [|done].
  intros _. apply existsb_exists in E as (k & Hk%in_seq & Ht). unfold invited in Ht. apply andb_true_iff in Ht as [[Ew%Z.eqb_eq Hk2]%andb_true_iff Ha].
  destruct (word_uses p k r Hp ltac:(lia) Hr Ew) as (_ & _ & _ & Hu & _). by rewrite <- (Hu Hk2 Hak).
Qed.

Lemma word_now lb s p r j : pmem lb (parrived lb (net s)) (mem s) -> p ∈ M -> (r < R)%nat -> (j < 9)%nat -> lb p = pos r j ->
  mem s p (word r) = word_value (parrived lb (net s)) p (w r).
Proof.
  intros Hm Hp Hr Hj Hv. rewrite (pm_word _ _ _ Hm p (w r) Hp (Hw r Hr)), (proj2 (Nat.ltb_ge _ _)); [done|].
  rewrite Hv. unfold pos. lia.
Qed.

(** What a position of a round lets a member know. *)
Lemma ppos_round lb s p r j : pinv lb s -> p ∈ M -> (r < R)%nat -> (j < 9)%nat -> lb p = pos r j ->
  (j = 1%nat -> asked p r = true -> mem s p (word r) = 1) -> (j = 2%nat -> waits_first (role_of p r) = true -> mem s p (word r) = 2) ->
  (j = 7%nat -> waits_last (role_of p r) = true -> mem s p (word r) = 2) ->
  ppos (parrived lb (net s)) p (S (lb p)).
Proof.
  intros (Hc & _ & Hm) Hp Hr Hj Hv N1 N2 N3. rewrite (word_now lb s p r j Hm Hp Hr Hj Hv) in N1, N2, N3.
  apply ppos_next; [by apply pc_pos|..]; intros k Hk Hx E; rewrite Hv in E; apply pos_inj in E as [-> ->]; try lia.
  - apply invited_arrived; auto.
  - apply told_arrived; auto. unfold receives. by rewrite Hx.
  - apply told_arrived; auto. unfold receives. rewrite Hx. apply orb_true_r.
Qed.

(** The tail has no waits. *)
Lemma ppos_tail lb s p : pinv lb s -> p ∈ M -> (pos R 0 <= lb p)%nat -> ppos (parrived lb (net s)) p (S (lb p)).
Proof. intros (Hc & _) Hp Hv. apply ppos_next; [by apply pc_pos|..]; intros r Hr _ E; unfold pos in *; lia. Qed.

(** A slot of a round leaves the memory alone, unless it combines. *)
Lemma pmem_round lb s p r j : pinv lb s -> p ∈ M -> (r < R)%nat -> (j < 9)%nat -> lb p = pos r j -> (j = 8%nat -> cmb p r = false) ->
  pmem (<[p := S (lb p)]> lb) (parrived lb (net s)) (mem s).
Proof.
  intros (_ & _ & Hm) Hp Hr Hj Hv H8. apply pmem_pass; [done|done|unfold pos in *; lia|..].
  - intros i Hi E. unfold pos in *. lia.
  - unfold pos in *. lia.
  - intros k Hk E. rewrite Hv in E. apply pos_inj in E as [-> ->]; auto; lia.
Qed.

Lemma pep_round p r j : (r < R)%nat -> (j < 9)%nat ->
  pep p (S (pos r j)) = (pep p (pos r j) + if snd p r && (j =? 5)%nat then 1 else 0)%nat.
Proof.
  intros Hr Hj. rewrite pos_next. destruct (Nat.eqb_spec j 8) as [->|].
  - rewrite (pep_at p r 8) by lia. change (5 <? 8)%nat with true. change (8 =? 5)%nat with false.
    rewrite andb_true_r, andb_false_r, Nat.add_0_r. destruct (decide (S r = R)) as [E|].
    + rewrite pep_tail by (by rewrite E). by rewrite <- fenced_S, E.
    + rewrite pep_at, fenced_S by lia. change (5 <? 0)%nat with false. by rewrite andb_false_r, Nat.add_0_r.
  - rewrite !pep_at by lia. destruct (snd p r); simpl; [|lia].
    destruct (Nat.ltb_spec 5 (S j)), (Nat.ltb_spec 5 j), (Nat.eqb_spec j 5); lia.
Qed.

Lemma pinv_op_gen lb s p o x s' :
  pinv lb s -> p ∈ M -> pair_slots p !! lb p = Some (Some o) -> op_exec p o s = Some (x, s') ->
  (forall m, op_msg p o (pep p (lb p)) = Some m ->
     pgood m /\ forall r q, q ∈ M -> (r < R)%nat -> snd q r = true -> pident m = dat r q -> q = p /\ lb p = pos r 3) ->
  pep p (S (lb p)) = (pep p (lb p) + match o with OFence => 1 | _ => 0 end)%nat ->
  ppos (parrived lb (net s)) p (S (lb p)) ->
  (forall r, (r < R)%nat -> snd p r = true -> lb p = pos r 4 -> forall m, m ∈ net s -> pident m = dat r p -> pending (m_data m) = false) ->
  pmem (<[p := S (lb p)]> lb) (parrived lb (net s)) (mem s') ->
  pinv (<[p := S (lb p)]> lb) s'.
Proof.
  intros Hi Hp Ho Hex Hms Hfe Hpos Hrd Hmem. pose proof Hi as (Hc & _). pose proof (pc_epoch _ _ Hc p Hp) as Hep.
  destruct (flight_op pident M pair_slots pep phome phome_sends lb s p o x s' Hp (pc_flight _ _ Hc) Ho Hex) as [Hf Ha].
  { by rewrite Hep. }
  pose proof (lookup_lt_Some _ _ _ Ho) as Hlt. rewrite length_pairs in Hlt.
  apply (pinv_move lb s p s' (option_list (op_msg p o (epoch s p)))); try done.
  - by eapply op_exec_net.
  - intros m. rewrite Hep. destruct (op_msg p o (pep p (lb p))) as [m1|] eqn:E; [|by intros ?%elem_of_nil].
    intros ->%list_elem_of_singleton. by apply Hms.
  - intros q Hq. rewrite (op_exec_epoch _ _ _ _ _ Hex). pose proof (pc_epoch _ _ Hc q Hq) as Hq'.
    destruct (decide (q = p)) as [->|Hqp].
    + rewrite fn_lookup_insert, Hfe, <- Hep. destruct o; try lia. rewrite fn_lookup_insert. lia.
    + rewrite (fn_lookup_insert_ne lb) by done. rewrite <- Hq'. destruct o; try done. by rewrite fn_lookup_insert_ne.
Qed.

Lemma pep_start p : pep p 1 = 0%nat.
Proof. unfold pep. change (0 / 9)%nat with 0%nat. change (5 <? 0 mod 9)%nat with false. by rewrite andb_false_r. Qed.

(** What a member sends in a round. *)
Lemma pgood_op p r j o m : p ∈ M -> (r < R)%nat -> (j < 9)%nat -> step_slots p r !! j = Some (Some o) ->
  op_msg p o (pep p (pos r j)) = Some m ->
  pgood m /\ forall k q, q ∈ M -> (k < R)%nat -> snd q k = true -> pident m = dat k q -> q = p /\ pos r j = pos k 3.
Proof.
  intros Hp Hr Hj Ho Hm. assert (psent p (pos r j) (pident m) /\ pgood m) as [Hs Hg].
  { rewrite pep_at in Hm by done. destruct j as [|[|[|[|[|[|[|[|[|j]]]]]]]]]; [injection Ho as Ho..|lia];
      apply slot_some in Ho as [Hb ->]; try done; injection Hm as <-; unfold pident; simpl.
    - rewrite andb_false_r, Nat.add_0_r. split; [by constructor|]. by eapply pg_rdy.
    - rewrite Hb. simpl. rewrite Nat.add_0_r. split; [by constructor|]. eapply pg_dat; [..|by left]; done.
    - rewrite Hb. simpl. rewrite Nat.add_1_r. split; [by constructor|]. by eapply pg_flg. }
  split; [done|]. intros k q Hq Hk Hsq Hid. assert (q = p) as ->.
  { pose proof (psent_src _ _ _ Hs) as E. rewrite Hid in E. done. }
  split; [done|]. by apply (psent_inj p _ _ (pident m) (dat k p) Hp Hs); [constructor|].
Qed.

Lemma pinv_op lb s p o x s' : pinv lb s -> p ∈ M -> pair_slots p !! lb p = Some (Some o) ->
  op_exec p o s = Some (x, s') -> pinv (<[p := S (lb p)]> lb) s'.
Proof.
  intros Hi Hp Ho Hex. pose proof Hi as (Hc & Hg & Hm).
  destruct (pair_position _ _ _ Ho) as [[Hv Eo]|[(r & j & Hr & Hj & Hv & Hs)|[[Hv Eo]|(i & Hir & Hv & Eo)]]].
  - injection Eo as ->. apply (pinv_op_gen lb s p _ x s' Hi Hp Ho Hex); rewrite ?Hv; try done.
    + by rewrite pep_start.
    + apply ppos_next; [|unfold pos; lia..]. rewrite <- Hv. by apply pc_pos.
    + injection Hex as _ <-. by apply pmem_start.
  - apply (pinv_op_gen lb s p o x s' Hi Hp Ho Hex).
    + intros m. rewrite Hv. by apply pgood_op.
    + rewrite Hv, pep_round by done. f_equal. clear Ho Hex. destruct j as [|[|[|[|[|[|[|[|[|j]]]]]]]]]; [injection Hs as Hs..|lia];
        apply slot_some in Hs as [Hb ->]; rewrite ?andb_false_r; try done. by rewrite Hb.
    + apply (ppos_round lb s p r j Hi Hp Hr Hj Hv); intros -> Hx; injection Hs as Ho'; apply slot_some in Ho' as [_ ->];
        simpl in Hex; (case_match eqn:E; [by apply Z.eqb_eq in E|done]).
    + intros k Hk Hsk E m Hin Hid. rewrite Hv in E. apply pos_inj in E as [-> ->]; [|lia..].
      injection Hs as Ho'. apply slot_some in Ho' as [_ ->].
      destruct (good_dat m k p (Hg m Hin) Hp Hk Hsk Hid) as (Esrc & _ & _). eapply putwait_done; [done|done|done|].
      destruct (Hg m Hin) as [? ? ? ? ? ->|? ? ? ? ? ? -> _|? ? ? ? ? ->]; done.
    + destruct (decide (j = 8%nat)) as [->|H8].
      * injection Hs as Ho'. apply slot_some in Ho' as [Hcm ->]. injection Hex as _ <-. by eapply pmem_combine.
      * rewrite (op_exec_mem _ _ _ _ _ Hex); [by eapply pmem_round|].
        clear Ho Hex. destruct j as [|[|[|[|[|[|[|[|[|j]]]]]]]]]; [injection Hs as Hs..|lia];
          apply slot_some in Hs as [_ ->]; done.
  - symmetry in Eo. apply slot_some in Eo as [Hf ->]. apply (pinv_op_gen lb s p _ x s' Hi Hp Ho Hex); try done.
    + by rewrite !pep_tail by lia.
    + apply ppos_tail; [done|done|lia].
    + intros r Hr _ E. unfold pos in *. lia.
    + injection Hex as _ <-. by apply pmem_finish.
  - injection Eo as ->. apply (pinv_op_gen lb s p _ x s' Hi Hp Ho Hex); try done.
    + by rewrite !pep_tail by (unfold pos in *; lia).
    + apply ppos_tail; [done|done|unfold pos in *; lia].
    + intros r Hr _ E. unfold pos in *. lia.
    + injection Hex as _ <-. by apply pmem_reset.
Qed.

Lemma pinv_empty lb s p : pinv lb s -> p ∈ M -> pair_slots p !! lb p = Some None -> pinv (<[p := S (lb p)]> lb) s.
Proof.
  intros Hi Hp Ho. pose proof Hi as (Hc & Hg & Hm).
  destruct (flight_empty pident M pair_slots pep phome phome_sends lb (net s) p Hp (pc_flight _ _ Hc) Ho) as [Hf Ha].
  pose proof (lookup_lt_Some _ _ _ Ho) as Hlt. rewrite length_pairs in Hlt.
  assert (pep p (S (lb p)) = pep p (lb p) -> forall q, q ∈ M -> epoch s q = pep q (<[p := S (lb p)]> lb q)) as Hep.
  { intros E q Hq. rewrite (pc_epoch _ _ Hc q Hq). member_cases q p; done. }
  apply pair_position in Ho as [[_ Eo]|[(r & j & Hr & Hj & Hv & Hs)|[[Hv Eo]|(i & _ & _ & Eo)]]]; [done| | |done].
  - assert (j = 4%nat \/ j = 5%nat -> snd p r = false) as Hsn
      by (intros [-> | ->]; injection Hs as Hs; by apply slot_none in Hs).
    apply (pinv_move lb s p s []); rewrite ?app_nil_r; try done.
    + by intros m ?%elem_of_nil.
    + apply Hep. rewrite Hv, pep_round by done. destruct (Nat.eqb_spec j 5) as [->|]; [rewrite Hsn by auto|]; rewrite ?andb_false_r; simpl; lia.
    + apply (ppos_round lb s p r j Hi Hp Hr Hj Hv); intros -> Hx; injection Hs as Hs; apply slot_none in Hs; congruence.
    + intros k Hk Hsk E. rewrite Hv in E. apply pos_inj in E as [-> ->]; [|lia..]. rewrite Hsn in Hsk by auto. done.
    + apply (pmem_round lb s p r j Hi Hp Hr Hj Hv). intros ->. injection Hs as Hs. by apply slot_none in Hs.
  - symmetry in Eo. apply slot_none in Eo. apply (pinv_move lb s p s []); rewrite ?app_nil_r; try done.
    + by intros m ?%elem_of_nil.
    + apply Hep. by rewrite !pep_tail by lia.
    + apply ppos_tail; [done|done|lia].
    + intros r Hr _ E. unfold pos in *. lia.
    + apply pmem_pass; [done|done|unfold pos in *; lia|..]; intros; unfold pos in *; try lia. done.
Qed.

(** *** Progress *)

(** With an idle network a member is only blocked before its partner's message has been sent. *)
Lemma blocked_wait lb s p r j o : pinv lb s -> net s = [] -> p ∈ M -> (r < R)%nat -> (j < 9)%nat -> lb p = pos r j ->
  step_slots p r !! j = Some (Some o) ->
  (exists x, op_exec p o s = Some x) \/
  (j = 1%nat /\ asked p r = true /\ (lb (peer p r) <= pos r 0)%nat) \/
  ((j = 2%nat \/ j = 7%nat) /\ rcv p r = true /\ (lb (peer p r) <= pos r 6)%nat).
Proof.
  intros (Hc & _ & Hm) Hnet Hp Hr Hj Hv Ho. pose proof (word_now lb s p r j Hm Hp Hr Hj Hv) as Hword. rewrite Hnet in Hword.
  assert (forall i, parrived lb [] i = psentb lb i) as Hidle by (intros i; apply arrived_idle).
  assert (forall q v i, q ∈ M -> psent q v i -> (v < lb q)%nat -> parrived lb [] i = true) as Hthere
    by (intros q v i Hq Hs Hlt; rewrite Hidle, (psentb_at lb q v i Hq Hs); by apply Nat.ltb_lt).
  assert (rcv p r = true -> (pos r 6 < lb (peer p r))%nat -> word_value (parrived lb []) p (w r) = 2) as Htold.
  { intros Hrc Hlt. assert (role_of p r <> Idle) as Hi by (by destruct (role_of p r)).
    destruct (partner p r Hp Hr Hi) as (Hq & _ & _ & _ & _ & Hsn & _). rewrite Hrc in Hsn.
    unfold word_value. rewrite (existsb_seq _ r Hr); [done|]. unfold told. rewrite Z.eqb_refl, Hrc. simpl.
    apply (Hthere (peer p r) (pos r 6)); [done|by constructor|done]. }
  assert (asked p r = true -> (pos r 0 < lb (peer p r))%nat -> j = 1%nat -> word_value (parrived lb []) p (w r) = 1) as Hinv.
  { intros Hak Hlt ->. assert (role_of p r <> Idle) as Hi by (by destruct (role_of p r)).
    destruct (partner p r Hp Hr Hi) as (Hq & _ & Hpp & Han & _ & _ & _ & _ & Hiq). rewrite Hak in Han.
    unfold word_value. rewrite existsb_none, (existsb_seq _ r Hr); [done| |].
    - unfold invited. rewrite Z.eqb_refl, Hak. simpl. apply (Hthere (peer p r) (pos r 0)); [done|by constructor|done].
    - intros k Hk. unfold told. destruct (Z.eqb_spec (w k) (w r)) as [Ew|]; [|done]. destruct (rcv p k) eqn:Hrc; [|done]. simpl.
      destruct (word_uses p r k Hp Hr Hk (eq_sym Ew)) as (_ & _ & _ & _ & _ & H). destruct (H Hak Hrc) as [Hle Hpe].
      assert (peer p k = peer p r) as Epk by (destruct (decide (r = k)) as [<-|Hne]; [done|by rewrite (Hpe Hne)]).
      assert (role_of p k <> Idle) as Hik by (by destruct (role_of p k)).
      destruct (partner p k Hp Hk Hik) as (_ & _ & _ & _ & _ & Hsn & _). rewrite Epk in *. rewrite Hrc in Hsn.
      rewrite Hidle. apply not_true_iff_false. rewrite (psentb_at lb (peer p r) (pos k 6)) by (done || by constructor).
      intros Hlt6%Nat.ltb_lt. assert (waits_first (role_of (peer p r) r) = true) as Hwf by (by destruct (role_of (peer p r) r)).
      pose proof (pp_first _ _ _ (pc_pos _ _ Hc _ Hq) r Hr Hwf ltac:(unfold pos in *; lia)) as Hf. rewrite Hpp in Hf.
      assert (snd p r = true) as Hsq by (unfold asks in Hak; by destruct (role_of p r)).
      apply (past_flg lb s r p Hp Hr Hsq) in Hf. unfold pos in *. lia. }
  destruct j as [|[|[|[|[|[|[|[|[|j]]]]]]]]]; [injection Ho as Ho..|lia]; apply slot_some in Ho as [Hb ->]; simpl; rewrite ?Hnet; simpl; eauto;
    rewrite Hword.
  - destruct (decide (pos r 0 < lb (peer p r))%nat) as [Hlt|Hge]; [left|right; left; repeat split; done || lia].
    rewrite Hinv by done. simpl. eauto.
  - assert (rcv p r = true) as Hrc by (unfold receives; by rewrite Hb).
    destruct (decide (pos r 6 < lb (peer p r))%nat) as [Hlt|Hge]; [left|right; right; repeat split; auto; lia].
    rewrite Htold by done. simpl. eauto.
  - assert (rcv p r = true) as Hrc by (unfold receives; rewrite Hb; apply orb_true_r).
    destruct (decide (pos r 6 < lb (peer p r))%nat) as [Hlt|Hge]; [left|right; right; repeat split; auto; lia].
    rewrite Htold by done. simpl. eauto.
Qed.

(** A member at an operation that is not a wait can move. *)
Lemma not_blocked lb s p o : pinv lb s -> net s = [] -> p ∈ M -> pair_slots p !! lb p = Some (Some o) ->
  (forall r j, (r < R)%nat -> lb p = pos r j -> (j < 9)%nat -> j = 1%nat \/ j = 2%nat \/ j = 7%nat -> False) ->
  exists x, op_exec p o s = Some x.
Proof.
  intros Hi Hnet Hp Ho Hno. destruct (pair_position _ _ _ Ho) as [[_ Eo]|[(r & j & Hr & Hj & Hv & Hs)|[[_ Eo]|(i & _ & _ & Eo)]]].
  - injection Eo as ->. simpl. eauto.
  - destruct (blocked_wait lb s p r j o Hi Hnet Hp Hr Hj Hv Hs) as [|[(-> & _)|([-> | ->] & _)]]; [done|..]; exfalso; eapply Hno; eauto.
  - symmetry in Eo. apply slot_some in Eo as [_ ->]. simpl. eauto.
  - injection Eo as ->. simpl. eauto.
Qed.

Lemma pair_progress lb s : pinv lb s -> settled M pair_slots lb -> net s = [] ->
  (forall p, p ∈ M -> (length (pair_slots p) <= lb p)%nat) \/
  exists p o x, p ∈ M /\ pair_slots p !! lb p = Some (Some o) /\ op_exec p o s = Some x.
Proof.
  intros Hi Hset Hnet. set (END := (pos R 1 + Z.to_nat N)%nat).
  destruct (decide (Exists (fun p => lb p < END)%nat M)) as [HE|HE].
  2:{ left. intros p Hp. rewrite length_pairs. destruct (decide (lb p < END)%nat) as [Hlt|]; [|unfold END in *; lia].
      exfalso. apply HE, list.Exists_exists. eauto. }
  right. apply list.Exists_exists in HE as (p0 & Hp0 & Hlt0).
  destruct (list_argmin (fun p => Z.of_nat (lb p)) (fun p => lb p < END)%nat M p0 Hp0 Hlt0) as (p & Hp & Hlp & Hmin).
  assert (forall q, q ∈ M -> (lb p <= lb q)%nat) as Hle
    by (intros q Hq; destruct (decide (lb q < END)%nat) as [Hlq|]; [specialize (Hmin q Hq Hlq)|]; lia).
  assert (forall q, q ∈ M -> (lb q < END)%nat -> exists o, pair_slots q !! lb q = Some (Some o)) as Hat.
  { intros q Hq Hlq. destruct (Hset q Hq) as [|Hge]; [done|]. rewrite length_pairs in Hge. unfold END in *. lia. }
  destruct (Hat p Hp Hlp) as [o Ho].
  destruct (pair_position _ _ _ Ho) as [[Hv _]|[(r & j & Hr & Hj & Hv & Hs)|[[Hv _]|(i & _ & Hv & _)]]].
  1,3,4: exists p, o; destruct (not_blocked lb s p o Hi Hnet Hp Ho) as [x Hx]; [intros; unfold pos in *; lia|by exists x].
  destruct (blocked_wait lb s p r j o Hi Hnet Hp Hr Hj Hv Hs) as [[x Hx]|Hb]; [by exists p, o, x|].
  assert (role_of p r <> Idle) as Hir by (intros E; rewrite E in Hb; by destruct Hb as [(_ & ? & _)|(_ & ? & _)]).
  destruct (partner p r Hp Hr Hir) as (Hq & _ & _ & _ & _ & _ & _ & Hwf & _). pose proof (Hle _ Hq) as Hlq.
  destruct Hb as [(-> & _ & Hb)|([->| ->] & Hrc & Hb)]; [unfold pos in *; lia| |unfold pos in *; lia].
  (* blocked before the partner's data: the partner runs *)
  assert (waits_first (role_of p r) = true) as Hw1 by (injection Hs as Hs; by apply slot_some in Hs as [? _]).
  assert (waits_first (role_of (peer p r) r) = false) as Hw2 by (rewrite Hwf; by destruct (role_of p r)).
  set (q := peer p r) in *. assert (lb q < END)%nat as Hlq' by (unfold END, pos in *; lia).
  destruct (Hat q Hq Hlq') as [oq Hoq]. exists q, oq.
  destruct (not_blocked lb s q oq Hi Hnet Hq Hoq) as [x Hx]; [|by exists x].
  intros k jq Hk Hvq Hjq [->|[->| ->]]; [unfold pos in *; lia| |unfold pos in *; lia].
  assert (k = r) as -> by (unfold pos in *; lia). rewrite Hvq, slot_at in Hoq by done. injection Hoq as Hoq.
  apply slot_some in Hoq as [? _]. congruence.
Qed.

(** *** The end *)

(** The result of a member: its own, or what it gets. *)
Record pend (s : state) (p : Z) : Prop := {
  pe_own : forall a, fin p = true -> 0 <= a < len -> mem s p (target + a) = V p R a;
  pe_got : forall r a, (r < R)%nat -> role_of p r = Get -> 0 <= a < len -> mem s p (target + a) = V (peer p r) r a;
  pe_words : forall i, 0 <= i < N -> mem s p (word_at i) = SHMEM_SYNC_VALUE;
  pe_read : forall m, m ∈ net s -> m_src m = p -> pending (m_data m) = false }.

Lemma pair_end lb s p : pinv lb s -> p ∈ M -> (pos R 1 + Z.to_nat N <= lb p)%nat -> pend s p.
Proof.
  intros (Hc & Hg & Hm) Hp Hv. split.
  - intros a Hf Ha. apply (pm_result _ _ _ Hm); done || unfold pos in *; lia.
  - intros r a Hr Hget Ha. apply (pm_data _ _ _ Hm p r a Hp Hr); [by rewrite Hget| |by right|done].
    apply (got_data lb s Hc r p Hp Hr); [by rewrite Hget|unfold pos in *; lia].
  - intros i Hi. rewrite (pm_word _ _ _ Hm p i Hp Hi), (proj2 (Nat.ltb_lt _ _)); [done|]. unfold pos in *. lia.
  - intros m Hin Hs. destruct (Hg m Hin) as [q r _ _ _ ->|q r d Hq Hr Hsn Em _|q r _ _ _ ->]; [done| |done].
    assert (q = p) as -> by (rewrite Em in Hs; done).
    apply (pc_read _ _ Hc m r p Hin Hp Hr Hsn); [by rewrite Em|unfold pos in *; lia].
Qed.

Lemma pair_idle lb s : pinv lb s -> (forall p, p ∈ M -> (pos R 1 + Z.to_nat N <= lb p)%nat) -> net s = [].
Proof.
  intros (Hc & Hg & _) Hv. destruct (net s) as [|m l] eqn:En; [done|exfalso].
  assert (m ∈ net s) as Hin by (rewrite En; apply list_elem_of_here).
  assert (forall r p, p ∈ M -> (r < R)%nat -> snd p r = true ->
    parrived lb (net s) (flg r p) = true /\ parrived lb (net s) (dat r p) = true) as Hall.
  { intros r p Hp Hr Hs. assert (role_of p r <> Idle) as Hi by (by destruct (role_of p r)).
    destruct (partner p r Hp Hr Hi) as (Hq & _ & Hpp & _ & _ & _ & Hrc & _). rewrite Hs in Hrc. rewrite <- Hpp.
    apply (got_data lb s Hc r _ Hq Hr Hrc). specialize (Hv _ Hq). unfold pos in *. lia. }
  rewrite <- En in Hg. destruct (Hg m Hin) as [p r Hp Hr Hs Em|p r d Hp Hr Hs Em _|p r Hp Hr Hs Em].
  - destruct (flight_at lb s m p (pos r 0) (rdy r p) Hc Hin ltac:(by rewrite Em) Hp ltac:(by constructor)) as [_ Hna].
    assert (role_of p r <> Idle) as Hi by (by destruct (role_of p r)).
    destruct (partner p r Hp Hr Hi) as (Hq & _ & Hpp & _ & Hak & _). rewrite Hs in Hak.
    pose proof (pp_asked _ _ _ (pc_pos _ _ Hc _ Hq) r Hr Hak ltac:(specialize (Hv _ Hq); unfold pos in *; lia)) as Ha.
    rewrite Hpp in Ha. congruence.
  - destruct (flight_at lb s m p (pos r 3) (dat r p) Hc Hin ltac:(by rewrite Em) Hp ltac:(by constructor)) as [_ Hna].
    destruct (Hall r p Hp Hr Hs). congruence.
  - destruct (flight_at lb s m p (pos r 6) (flg r p) Hc Hin ltac:(by rewrite Em) Hp ltac:(by constructor)) as [_ Hna].
    destruct (Hall r p Hp Hr Hs). congruence.
Qed.

Lemma pinv_init : pinv (fun _ => 0%nat) (init_state m0).
Proof.
  assert (forall i, parrived (fun _ => 0%nat) [] i = false) as Ha by (intros i; apply arrived_init).
  split; [|split].
  - split; simpl; try done.
    + apply flight_init.
    + intros p _. lia.
    + intros p _. split; intros; lia.
    + by intros m r p ?%elem_of_nil.
    + intros r p _ _ _. by rewrite Ha.
  - by intros m ?%elem_of_nil.
  - split; simpl; try done.
    + intros p i Hp Hi. rewrite H0 by done. unfold word_value, told, invited.
      rewrite !existsb_none; [done|intros; by rewrite Ha, andb_false_r..].
    + intros p a _ ?. lia.
    + intros p r a _ _ _. by rewrite Ha.
    + intros p a _ _ ?. lia.
Qed.

(** What the rounds promise, under every interleaving and delivery order. *)
Record pairs_spec (body : Z -> prog unit) (steps : nat) : Prop := {
  pr_completes : job_completes (coll_job M m0 body) steps;
  pr_returned : forall s p, rtc step (coll_job M m0 body) s -> p ∈ M -> returned s p -> pend (w_st s) p;
  pr_frame : forall s p b, rtc step (coll_job M m0 body) s -> (p ∉ M \/ elsewhere b) -> mem (w_st s) p b = m0 p b;
  pr_clean : forall s, rtc step (coll_job M m0 body) s -> all_returned s -> net (w_st s) = [] }.

Lemma pairs_correct body :
  (forall p, p ∈ M -> body p = seqp (omap id (pair_slots p))) ->
  pairs_spec body (3 * (length M * (pos R 1 + Z.to_nat N))).
Proof.
  intros Hbody. pose proof pinv_init as Hi.
  assert (coll_job M m0 body = slots_job M pair_slots m0) as E.
  { unfold coll_job, slots_job. f_equal. extensionality p. unfold slot_pt. case_decide; [|done].
    rewrite drop_0. by apply Hbody. }
  pose proof (slots_reachable M pair_slots pinv pinv_empty pinv_op pinv_net m0 Hi) as Hreach. rewrite <- E in Hreach.
  split.
  - rewrite E. pose proof (slots_complete M HM pair_slots pinv pinv_empty pinv_op pinv_net m0 Hi pair_progress) as Hcm.
    rewrite (sum_list_const _ (pos R 1 + Z.to_nat N)%nat) in Hcm by (intros; apply length_pairs). done.
  - intros s p Hs Hp Hr. destruct (Hreach s Hs) as (lb & Hpt & Hinv).
    destruct (slots_returned M pair_slots pinv pinv_empty lb s p Hpt Hinv Hp Hr) as (k & Hk & Hinv').
    rewrite length_pairs in Hk. apply (pair_end _ _ p Hinv' Hp). by rewrite fn_lookup_insert.
  - intros s p b Hs Hb. destruct (Hreach s Hs) as (lb & _ & _ & _ & Hm). by apply (pm_out _ _ _ Hm).
  - intros s Hs Hr. rewrite E in Hs. destruct (slots_all_returned M HM pair_slots pinv pinv_empty pinv_op pinv_net m0 Hi s Hs Hr)
      as (lb & Hinv & Hv). apply (pair_idle lb _ Hinv). intros p Hp. specialize (Hv p Hp). by rewrite length_pairs in Hv.
Qed.
End pairs.
