(* ===== verification/TreeBarrier.v ===== *)
(** * The tree and linear barriers are barriers

    A barrier over any communication tree: the label of a PE is its position in the
    C function, and the invariant relates the value of its pSync to the arrivals its
    subtree has sent and the release its parent has sent.  [shmem_internal_sync_tree]
    releases by atomic increments; [shmem_internal_sync_linear] is the tree of depth
    one whose releases are plain puts. *)

From S2P Require Import Prelude Machine Straight Internal ReduceOp Comm Tree CollSync.
Local Open Scope Z_scope.
Local Open Scope prog_scope.

Section tree_barrier.
Context (M : list Z) (root : Z) (parent : Z -> Z) (children : Z -> list Z) (rank : Z -> Z).
Context (HT : Tree M root parent children rank) (HM : NoDup M).
Context (pSync : Z).
Abbreviation nc p := (length (children p)).
(** Whether releases are puts; then every child is a leaf. *)
Context (put_acks : bool).
Context (Hflat : put_acks = true -> forall p, p ∈ M -> p <> root -> children p = []).
Context (Hroot : nc root <> 0%nat).
Context (Hbig : forall p, p ∈ M -> Z.of_nat (nc p) + 1 < 2 ^ 63).

Let sum := long_calc SHM_INTERNAL_SUM.
Definition up_op (p : Z) : op := OAtomic (parent p) pSync sum (Captured [(0, 1)]).
Definition down_op (c : Z) : op :=
  if put_acks then OPut c pSync (Captured [(0, 1)]) false else OAtomic c pSync sum (Captured [(0, 1)]).
Definition wait_up (p : Z) : op := OWait pSync SHMEM_CMP_EQ (Z.of_nat (nc p)).
Definition wait_down (p : Z) : op :=
  if decide (nc p = 0%nat) then OWait pSync SHMEM_CMP_NE 0
  else OWait pSync SHMEM_CMP_EQ (Z.of_nat (nc p) + 1).
Definition clear_op (p : Z) : op := OPut p pSync (Captured [(0, 0)]) false.

(** Positions: 0 enter, 1 wait for the children, 2 notify the parent, 3 wait for the
    parent, 4 clear, 5 wait for the clear, 6+k release child k, then leave. *)
Definition tb_next (p : Z) (v : nat) : option (op * (Z -> nat)) :=
  if decide (p ∈ M) then
    match v with
    | 0%nat => Some (OMark ENTER, fun _ => if decide (nc p = 0%nat) then 2%nat else 1%nat)
    | 1%nat => Some (wait_up p, fun _ => if decide (p = root) then 4%nat else 2%nat)
    | 2%nat => Some (up_op p, fun _ => 3%nat)
    | 3%nat => Some (wait_down p, fun _ => 4%nat)
    | 4%nat => Some (clear_op p, fun _ => 5%nat)
    | 5%nat => Some (OWait pSync SHMEM_CMP_EQ 0, fun _ => 6%nat)
    | S (S (S (S (S (S k))))) =>
        match children p !! k with
        | Some c => Some (down_op c, fun _ => S v)
        | None => if decide (k = nc p) then Some (OMark EXIT, fun _ => S v) else None
        end
    end
  else None.

Definition tb_downs (p : Z) (k : nat) : list op :=
  if decide (k <= nc p)%nat then map down_op (drop k (children p)) ++ [OMark EXIT] else [].

Definition tb_rest (p : Z) (v : nat) : list op :=
  let r5 := OWait pSync SHMEM_CMP_EQ 0 :: tb_downs p 0 in
  let r4 := clear_op p :: r5 in
  let r3 := wait_down p :: r4 in
  let r2 := up_op p :: r3 in
  let r1 := wait_up p :: (if decide (p = root) then r4 else r2) in
  match v with
  | 0%nat => OMark ENTER :: (if decide (nc p = 0%nat) then r2 else r1)
  | 1%nat => r1
  | 2%nat => r2
  | 3%nat => r3
  | 4%nat => r4
  | 5%nat => r5
  | S (S (S (S (S (S k))))) => tb_downs p k
  end.

Definition tb_pt (p : Z) (v : nat) : prog unit :=
  if decide (p ∈ M) then seqp (tb_rest p v) else skip.

Lemma tb_pt_next p v : tb_pt p v = match tb_next p v with
                                   | Some (o, f) => Do o (fun r => tb_pt p (f r))
                                   | None => skip
                                   end.
Proof.
  unfold tb_pt, tb_next. destruct (decide (p ∈ M)); [|done].
  destruct v as [|[|[|[|[|[|k]]]]]]; try reflexivity.
  - simpl. destruct (decide (nc p = 0%nat)); reflexivity.
  - simpl. destruct (decide (p = root)); reflexivity.
  - simpl. unfold tb_downs. destruct (decide (k <= nc p)%nat) as [Hk|Hk].
    + destruct (children p !! k) as [c|] eqn:E.
      * rewrite (drop_S _ _ _ E). simpl. f_equal. extensionality r.
        apply lookup_lt_Some in E. unfold tb_rest, tb_downs. rewrite decide_True by lia. done.
      * apply lookup_ge_None in E. assert (k = nc p) as -> by lia.
        rewrite drop_all, decide_True by done. simpl. f_equal. extensionality r.
        unfold tb_rest, tb_downs. by rewrite decide_False by lia.
    + rewrite (lookup_ge_None_2 _ _) by lia. by rewrite decide_False by lia.
Qed.

(** ** Counters over the labels and the network *)

(** Arrivals and releases carry a one, clears a zero. *)
Definition is_atomic (m : msg) : bool :=
  match m_data m with Captured [(_, v)] => negb (v =? 0) | _ => false end.
Definition atoms (p : Z) (n : list msg) : nat := countb (fun m => (m_dst m =? p) && is_atomic m) n.
Definition clears (p : Z) (n : list msg) : nat := countb (fun m => (m_dst m =? p) && negb (is_atomic m)) n.

(** Arrivals sent to [p] by its children, releases sent to [p] by its parent. *)
Definition ups (lb : Z -> nat) (p : Z) : nat := countb (fun c => (2 <? lb c)%nat) (children p).
Definition downs (lb : Z -> nat) (p : Z) : nat :=
  countb (fun c => c =? p) (take (lb (parent p) - 6) (children (parent p))).

Definition good_msg (m : msg) : Prop :=
  m_dst m ∈ M /\ m_target m = pSync /\
  ((m_kind m = KAtomic sum /\ m_data m = Captured [(0, 1)]) \/
   (m_kind m = KPut /\ m_data m = Captured [(0, 1)] /\ children (m_dst m) = []) \/
   (m_kind m = KPut /\ m_data m = Captured [(0, 0)])).

(** What is known of one member from its position, its pSync and the counters. *)
Record local (p : Z) (v : nat) (x : Z) (at_ cl up down : nat) : Prop := {
  l_end : (v <= 7 + nc p)%nat;
  l_leaf : nc p = 0%nat -> v <> 1%nat;
  l_root : p = root -> v <> 2%nat /\ v <> 3%nat;
  l_cons : (v <= 4)%nat -> x + Z.of_nat at_ = Z.of_nat up + Z.of_nat down /\ cl = 0%nat /\ 0 <= x;
  l_quiet : (4 <= v)%nat -> at_ = 0%nat;
  l_nonzero : v = 4%nat -> x <> 0;
  l_five : v = 5%nat -> (cl = 0%nat <-> x = 0) /\ (cl <= 1)%nat;
  l_six : (6 <= v)%nat -> cl = 0%nat /\ x = 0;
  l_gate : (1 < v)%nat -> up = nc p;
  l_release : p <> root -> (3 < v)%nat -> down = 1%nat }.

Record tb_inv (m0 : Z -> lmem) (ls : lworld nat) : Prop := {
  i_msgs : forall m, m ∈ net (lst ls) -> good_msg m;
  i_local : forall p, p ∈ M -> local p (lab ls p) (mem (lst ls) p pSync)
              (atoms p (net (lst ls))) (clears p (net (lst ls))) (ups (lab ls) p) (downs (lab ls) p);
  i_enter : forall p, p ∈ M -> (0 < lab ls p)%nat -> (p, ENTER) ∈ log (lst ls);
  i_exit : forall p, (p, EXIT) ∈ log (lst ls) -> p ∈ M /\ lab ls p = (7 + nc p)%nat;
  i_frame : forall p a, p ∉ M \/ a <> pSync -> mem (lst ls) p a = m0 p a }.

(** *** How the counters move *)

Lemma ups_le lb p : (ups lb p <= nc p)%nat.
Proof. apply countb_le. Qed.

Lemma downs_le lb p : p ∈ M -> (downs lb p <= 1)%nat.
Proof.
  intros Hp. apply countb_nodup_le.
  - eapply sublist_NoDup; [|apply sublist_take]. apply (tree_children_nodup (Tree:=HT)).
    by apply (tree_parent_member (Tree:=HT)).
  - intros x y ?%Z.eqb_eq ?%Z.eqb_eq. congruence.
Qed.

Lemma downs_root lb : downs lb root = 0%nat.
Proof.
  unfold downs. apply countb_zero. intros x Hx%elem_of_take. apply Z.eqb_neq. intros ->.
  destruct Hx as (i & Hx%list_elem_of_lookup_2 & _).
  rewrite (tree_root_parent (Tree:=HT)) in Hx.
  by destruct (tree_child_in HT _ _ (tree_root_member (Tree:=HT)) Hx) as (_ & ? & _).
Qed.

(** A released member's parent is past its own gate. *)
Lemma downs_pos lb p : (0 < downs lb p)%nat -> (6 < lb (parent p))%nat.
Proof.
  unfold downs. intros H. destruct (lb (parent p) - 6)%nat eqn:E; [|lia]. simpl in H. lia.
Qed.

(** All children have been released once the parent is at its end. *)
Lemma downs_done lb p : p ∈ M -> p <> root -> (6 + nc (parent p) <= lb (parent p))%nat -> downs lb p = 1%nat.
Proof.
  intros Hp Hne H. pose proof (downs_le lb p Hp).
  enough (0 < downs lb p)%nat by lia. unfold downs. rewrite take_ge by lia.
  eapply countb_pos; [|by apply Z.eqb_eq].
  apply (tree_child_iff (Tree:=HT)); [by apply (tree_parent_member (Tree:=HT))|done|done].
Qed.

(** Steps that send nothing move no counter. *)
Lemma counters_same lb p v' q : q ∈ M ->
  (p = root \/ (lb p <= 2 /\ v' <= 2) \/ (2 < lb p /\ 2 < v'))%nat ->
  take (lb p - 6) (children p) = take (v' - 6) (children p) ->
  ups (<[p := v']> lb) q = ups lb q /\ downs (<[p := v']> lb) q = downs lb q.
Proof.
  intros Hq Hv Ht. split.
  - apply countb_ext. intros c Hc. destruct (decide (c = p)) as [->|].
    + rewrite fn_lookup_insert. destruct Hv as [->|[[H1 H2]|[H1 H2]]].
      * by destruct (tree_child_in HT q root Hq Hc) as (_ & ? & _).
      * by rewrite !(proj2 (Nat.ltb_ge _ _)).
      * by rewrite !(proj2 (Nat.ltb_lt _ _)).
    + by rewrite fn_lookup_insert_ne.
  - unfold downs. destruct (decide (parent q = p)) as [<-|].
    + by rewrite fn_lookup_insert, Ht.
    + by rewrite fn_lookup_insert_ne.
Qed.

(** Notifying the parent. *)
Lemma counters_up lb p q : p ∈ M -> p <> root -> lb p = 2%nat -> q ∈ M ->
  downs (<[p := 3%nat]> lb) q = downs lb q /\
  ups (<[p := 3%nat]> lb) q = (if decide (q = parent p) then S (ups lb q) else ups lb q) /\
  (q = parent p -> (ups lb q < nc q)%nat).
Proof.
  intros Hp Hne Hv Hq. split; [|split].
  - unfold downs. destruct (decide (parent q = p)) as [<-|].
    + rewrite fn_lookup_insert, Hv. done.
    + by rewrite fn_lookup_insert_ne.
  - assert (forall x, x <> p -> (2 <? <[p := 3%nat]> lb x)%nat = (2 <? lb x)%nat) as Hx.
    { intros x Hx. by rewrite fn_lookup_insert_ne by done. }
    destruct (decide (q = parent p)) as [->|Hq'].
    + apply (countb_flip _ _ _ p).
      * by apply (tree_children_nodup (Tree:=HT)).
      * by apply (tree_child_iff (Tree:=HT)).
      * by rewrite Hv.
      * by rewrite fn_lookup_insert.
      * intros x _ Hxp. by apply Hx.
    + apply countb_ext. intros x Hxc. apply Hx. intros ->.
      destruct (tree_child_in HT q p Hq Hxc) as (_ & _ & E). done.
  - intros ->. pose proof (ups_le lb (parent p)).
    enough (ups lb (parent p) <> nc (parent p)) by lia. intros E.
    apply (proj1 (countb_all _ _)) with (x := p) in E.
    + by rewrite Hv in E.
    + by apply (tree_child_iff (Tree:=HT)).
Qed.

(** Releasing child [k]. *)
Lemma counters_down lb p k c q : p ∈ M -> q ∈ M -> children p !! k = Some c -> lb p = (6 + k)%nat ->
  ups (<[p := (7 + k)%nat]> lb) q = ups lb q /\
  downs (<[p := (7 + k)%nat]> lb) q = (if decide (q = c) then S (downs lb q) else downs lb q) /\
  (q = c -> downs lb q = 0%nat).
Proof.
  intros Hp Hq Hk Hv.
  destruct (tree_child_in HT p c Hp (list_elem_of_lookup_2 _ _ _ Hk)) as (Hc & Hcr & Hpc).
  assert (parent q = p -> downs (<[p := (7 + k)%nat]> lb) q =
    (downs lb q + if (c =? q)%Z then 1 else 0)%nat) as Hd.
  { intros E. unfold downs. rewrite E, fn_lookup_insert, Hv.
    replace (7 + k - 6)%nat with (S k) by lia. replace (6 + k - 6)%nat with k by lia.
    rewrite (take_S_r _ _ _ Hk), countb_app. simpl. lia. }
  split; [|split].
  - apply countb_ext. intros x _. destruct (decide (x = p)) as [->|].
    + by rewrite fn_lookup_insert, Hv.
    + by rewrite fn_lookup_insert_ne.
  - destruct (decide (q = c)) as [->|Hqc].
    + rewrite (Hd Hpc), Z.eqb_refl. lia.
    + destruct (decide (parent q = p)) as [E|E].
      * rewrite (Hd E), (proj2 (Z.eqb_neq c q)) by done. lia.
      * unfold downs. by rewrite fn_lookup_insert_ne.
  - intros ->. pose proof (downs_le (<[p := (7 + k)%nat]> lb) c Hc) as H.
    rewrite (Hd Hpc), Z.eqb_refl in H. lia.
Qed.

Lemma counters_send n m q :
  atoms q (n ++ [m]) = (atoms q n + if ((m_dst m =? q)%Z && is_atomic m)%bool then 1 else 0)%nat /\
  clears q (n ++ [m]) = (clears q n + if ((m_dst m =? q)%Z && negb (is_atomic m))%bool then 1 else 0)%nat.
Proof. unfold atoms, clears. rewrite !countb_app. simpl. lia. Qed.

Lemma counters_recv n1 m n2 q :
  atoms q (n1 ++ m :: n2) = (atoms q (n1 ++ n2) + if ((m_dst m =? q)%Z && is_atomic m)%bool then 1 else 0)%nat /\
  clears q (n1 ++ m :: n2) = (clears q (n1 ++ n2) + if ((m_dst m =? q)%Z && negb (is_atomic m))%bool then 1 else 0)%nat.
Proof. unfold atoms, clears. rewrite !countb_app. simpl. lia. Qed.

(** *** The invariant is preserved *)

Lemma tb_inv_net m0 ls s' : tb_inv m0 ls -> net_step (lst ls) s' -> tb_inv m0 (LW (lab ls) s').
Proof.
  intros [Hm Hl He Hx Hf] Hn. remember (lst ls) as s eqn:Es.
  destruct Hn as [s l1 m l2 src offs E D | s l1 m l2 vals E D _];
    assert (m ∈ net s) as Hin by (rewrite E; rewrite elem_of_app, elem_of_cons; auto);
    destruct (Hm m Hin) as (Hd & Ht & [[Hk Hv]|[(Hk & Hv & Hleaf)|[Hk Hv]]]); rewrite D in Hv; try discriminate;
    injection Hv as ->; rewrite E in Hm; split; simpl;
    try (by intros m' Hm'; apply Hm; rewrite elem_of_app, ?elem_of_cons in *; tauto);
    try (intros p a Hpa; rewrite <- (Hf p a Hpa), Ht, Z.add_0_r;
         destruct (decide (p = m_dst m)) as [->|]; [|by rewrite fn_lookup_insert_ne];
         rewrite fn_lookup_insert, fn_lookup_insert_ne; [done|]; intros <-; tauto);
    try (subst; done).
  all: intros p Hp; specialize (Hl p Hp); rewrite E in Hl.
  all: destruct (counters_recv l1 m l2 p) as [Ha Hc]; rewrite Ha, Hc in Hl.
  all: unfold is_atomic in Hl; rewrite D in Hl; simpl in Hl; rewrite ?andb_true_r, ?andb_false_r in Hl; simpl in Hl.
  all: rewrite Hk, Ht, Z.add_0_r; simpl.
  all: destruct (decide (p = m_dst m)) as [->|Hne];
    [rewrite fn_lookup_insert, fn_lookup_insert; rewrite Z.eqb_refl in Hl
    |rewrite fn_lookup_insert_ne by done; rewrite (proj2 (Z.eqb_neq _ _)) in Hl by congruence;
     rewrite ?Nat.add_0_r in Hl; done].
  - destruct Hl. pose proof (ups_le (lab ls) (m_dst m)). pose proof (downs_le (lab ls) _ Hp).
    pose proof (Hbig _ Hp). assert (lab ls (m_dst m) < 4)%nat by lia.
    destruct l_cons0 as (Hcons & Hcl & Hpos); [lia|].
    unfold sum, long_calc; rewrite signed_sum by lia. split; intros; try lia; auto.
  - destruct Hl. pose proof (ups_le (lab ls) (m_dst m)) as Hu. pose proof (downs_le (lab ls) _ Hp).
    assert (nc (m_dst m) = 0%nat) as Hz by (by rewrite Hleaf). assert (lab ls (m_dst m) < 4)%nat by lia.
    destruct l_cons0 as (Hcons & Hcl & Hpos); [lia|]. split; intros; try lia; auto.
  - destruct Hl. assert (lab ls (m_dst m) = 5)%nat by lia. split; intros; try lia; auto.
Qed.

(** A step of member [p] from position [v] that sends nothing. *)
Lemma tb_inv_local m0 ls p v' lg :
  tb_inv m0 ls -> p ∈ M ->
  (p = root \/ (lab ls p <= 2 /\ v' <= 2) \/ (2 < lab ls p /\ 2 < v'))%nat ->
  take (lab ls p - 6) (children p) = take (v' - 6) (children p) ->
  local p v' (mem (lst ls) p pSync) (atoms p (net (lst ls))) (clears p (net (lst ls)))
    (ups (lab ls) p) (downs (lab ls) p) ->
  (0 < lab ls p \/ (p, ENTER) ∈ lg)%nat ->
  (lab ls p < 7 + nc p)%nat ->
  (forall q, (q, EXIT) ∈ lg -> (q, EXIT) ∈ log (lst ls) \/ (q = p /\ v' = 7 + nc p)%nat) ->
  (forall x, x ∈ log (lst ls) -> x ∈ lg) ->
  tb_inv m0 (LW (<[p := v']> (lab ls)) (St (mem (lst ls)) (net (lst ls)) (epoch (lst ls)) lg)).
Proof.
  intros [Hm Hl He Hx Hf] Hp Hv Ht Hloc Hent Hlt Hexit Hlog. split; simpl; try done.
  - intros q Hq. destruct (counters_same (lab ls) p v' q Hq Hv Ht) as [-> ->].
    destruct (decide (q = p)) as [->|]; [by rewrite fn_lookup_insert|].
    rewrite fn_lookup_insert_ne by done. by apply Hl.
  - intros q Hq Hpos. destruct (decide (q = p)) as [->|].
    + destruct Hent; [by apply Hlog, He|done].
    + rewrite fn_lookup_insert_ne in Hpos by done. by apply Hlog, He.
  - intros q [Hq|[-> ->]]%Hexit.
    + destruct (Hx _ Hq) as [HqM Hq']. split; [done|]. rewrite fn_lookup_insert_ne; [done|]. intros ->. lia.
    + by rewrite fn_lookup_insert.
Qed.

(** The two sends of the barrier: an arrival, and the release of a child. *)
Lemma tb_inv_send m0 ls p v' m :
  tb_inv m0 ls -> p ∈ M -> good_msg m -> (0 < lab ls p < 6 + nc p)%nat -> v' <> (7 + nc p)%nat ->
  (forall q, q ∈ M -> local q (<[p := v']> (lab ls) q) (mem (lst ls) q pSync)
      (atoms q (net (lst ls) ++ [m])) (clears q (net (lst ls) ++ [m]))
      (ups (<[p := v']> (lab ls)) q) (downs (<[p := v']> (lab ls)) q)) ->
  tb_inv m0 (LW (<[p := v']> (lab ls)) (set_net (lst ls) (net (lst ls) ++ [m]))).
Proof.
  intros [Hm Hl He Hx Hf] Hp Hg Hpos Hv' Hloc. split; simpl; try done.
  - intros m' [Hm'|Hm']%elem_of_app; [by apply Hm|]. by apply list_elem_of_singleton in Hm' as ->.
  - intros q Hq Hq0. destruct (decide (q = p)) as [->|].
    + apply He; [done|lia].
    + rewrite fn_lookup_insert_ne in Hq0 by done. by apply He.
  - intros q Hq. destruct (Hx q Hq) as [HqM Hq']. split; [done|].
    rewrite fn_lookup_insert_ne; [done|]. intros ->. lia.
Qed.

Lemma tb_inv_up m0 ls p s' r :
  tb_inv m0 ls -> p ∈ M -> lab ls p = 2%nat -> op_exec p (up_op p) (lst ls) = Some (r, s') ->
  tb_inv m0 (LW (<[p := 3%nat]> (lab ls)) s').
Proof.
  intros Hinv Hp Hv Hex. injection Hex as <- <-.
  assert (p <> root) as Hne.
  { intros ->. destruct (i_local _ _ Hinv _ Hp). destruct l_root0; lia. }
  pose proof (tree_parent_member (Tree:=HT) p Hp) as Hpm.
  apply tb_inv_send; [done|done| |lia|lia|].
  - split; [done|]. split; [done|]. by left.
  - intros q Hq. pose proof (i_local _ _ Hinv q Hq) as Hl.
    destruct (counters_up (lab ls) p q Hp Hne Hv Hq) as (-> & Hu & Hlt). rewrite Hu.
    destruct (counters_send (net (lst ls)) (Msg p (parent p) (epoch (lst ls) p) (KAtomic sum) pSync false (Captured [(0, 1)])) q) as [-> ->].
    simpl. rewrite andb_true_r, andb_false_r, !Nat.add_0_r.
    destruct (decide (q = parent p)) as [->|Hqp].
    + rewrite Z.eqb_refl, fn_lookup_insert_ne by (apply not_eq_sym; by apply (tree_parent_ne HT)).
      specialize (Hlt eq_refl). destruct Hl. split; intros; try lia; auto.
    + rewrite (proj2 (Z.eqb_neq _ _)) by congruence. rewrite Nat.add_0_r.
      destruct (decide (q = p)) as [->|]; [rewrite fn_lookup_insert|by rewrite fn_lookup_insert_ne].
      destruct Hl. rewrite Hv in *. split; intros; try lia; auto.
Qed.

Lemma tb_inv_down m0 ls p k c s' r :
  tb_inv m0 ls -> p ∈ M -> lab ls p = (6 + k)%nat -> children p !! k = Some c ->
  op_exec p (down_op c) (lst ls) = Some (r, s') ->
  tb_inv m0 (LW (<[p := (7 + k)%nat]> (lab ls)) s').
Proof.
  intros Hinv Hp Hv Hk Hex.
  destruct (tree_child_in HT p c Hp (list_elem_of_lookup_2 _ _ _ Hk)) as (Hc & Hcr & Hpc).
  pose proof (lookup_lt_Some _ _ _ Hk) as Hlt.
  assert (exists kd, let m := Msg p c (epoch (lst ls) p) kd pSync false (Captured [(0, 1)]) in
    good_msg m /\ s' = set_net (lst ls) (net (lst ls) ++ [m])) as (kd & Hg & ->).
  { unfold down_op in Hex. destruct put_acks; injection Hex as <- <-; eexists; (split; [|reflexivity]);
      (split; [done|split; [done|]]); [right; left; auto|by left]. }
  apply tb_inv_send; [done|done|done|lia|lia|].
  - intros q Hq. pose proof (i_local _ _ Hinv q Hq) as Hl.
    destruct (counters_down (lab ls) p k c q Hp Hq Hk Hv) as (-> & Hd & H0). rewrite Hd.
    destruct (counters_send (net (lst ls)) (Msg p c (epoch (lst ls) p) kd pSync false (Captured [(0, 1)])) q) as [-> ->].
    simpl. rewrite andb_true_r, andb_false_r, !Nat.add_0_r.
    destruct (decide (q = c)) as [->|Hqc].
    + rewrite Z.eqb_refl. rewrite fn_lookup_insert_ne by (rewrite <- Hpc; by apply (tree_parent_ne HT)).
      specialize (H0 eq_refl). destruct Hl. split; intros; try lia; auto.
    + rewrite (proj2 (Z.eqb_neq _ _)) by congruence. rewrite Nat.add_0_r.
      destruct (decide (q = p)) as [->|]; [rewrite fn_lookup_insert|by rewrite fn_lookup_insert_ne].
      destruct Hl. rewrite Hv in *. split; intros; try lia; auto.
Qed.

Lemma tb_inv_wait m0 ls p v' :
  tb_inv m0 ls -> p ∈ M -> (0 < lab ls p < 6)%nat ->
  (p = root \/ (lab ls p <= 2 /\ v' <= 2) \/ (2 < lab ls p /\ 2 < v'))%nat -> (v' <= 6)%nat ->
  local p v' (mem (lst ls) p pSync) (atoms p (net (lst ls))) (clears p (net (lst ls)))
    (ups (lab ls) p) (downs (lab ls) p) ->
  tb_inv m0 (LW (<[p := v']> (lab ls)) (lst ls)).
Proof.
  intros Hinv Hp Hv Hv' Hv6 Hl. destruct (lst ls) as [mm nn ee lg] eqn:Es.
  pose proof (tb_inv_local m0 ls p v' (log (lst ls)) Hinv Hp) as H. rewrite Es in H.
  apply H; simpl; try done; try lia.
  - replace (lab ls p - 6)%nat with 0%nat by lia. by replace (v' - 6)%nat with 0%nat by lia.
  - intros q Hq. by left.
Qed.

(** A release can only have been sent to a member that has notified its parent. *)
Lemma downs_early m0 ls p : tb_inv m0 ls -> p ∈ M -> (lab ls p <= 2)%nat -> downs (lab ls) p = 0%nat.
Proof.
  intros Hinv Hp Hv. destruct (decide (downs (lab ls) p = 0%nat)) as [|Hd]; [done|].
  assert (p <> root) as Hne by (intros ->; by rewrite downs_root in Hd).
  pose proof (downs_pos (lab ls) p) as Hpos.
  pose proof (tree_parent_member (Tree:=HT) p Hp) as Hpm.
  pose proof (l_gate _ _ _ _ _ _ _ (i_local _ _ Hinv _ Hpm)) as Hg.
  apply (proj1 (countb_all _ _)) with (x := p) in Hg; [|lia|by apply (tree_child_iff (Tree:=HT))].
  apply Nat.ltb_lt in Hg. lia.
Qed.

Lemma tb_inv_step m0 ls ls' : tb_inv m0 ls -> lstep tb_next ls ls' -> tb_inv m0 ls'.
Proof.
  intros Hinv Hst. destruct Hst as [ls p o f r s' Hn Hex | ls s' Hn]; [|by apply tb_inv_net].
  unfold tb_next in Hn. destruct (decide (p ∈ M)) as [Hp|]; [|done].
  pose proof (i_local _ _ Hinv p Hp) as Hl. pose proof (ups_le (lab ls) p) as Hule.
  pose proof (downs_le (lab ls) p Hp) as Hdle. pose proof (downs_early m0 ls p Hinv Hp) as Hde.
  destruct (lab ls p) as [|[|[|[|[|[|k]]]]]] eqn:Hv.
  - (* enter *) injection Hn as <- <-. injection Hex as <- <-. apply tb_inv_local; try done; try lia.
    + case_decide; lia.
    + case_decide; by rewrite Hv.
    + destruct Hl. case_decide; split; intros; try lia; auto.
      destruct (decide (p = root)) as [->|]; [done|]. split; congruence.
    + right. apply elem_of_app. right. by apply list_elem_of_here.
    + intros q [Hq|Hq]%elem_of_app; [by left|]. apply list_elem_of_singleton in Hq. discriminate.
    + intros x Hx. apply elem_of_app. by left.
  - (* all children have arrived *) injection Hn as <- <-. simpl in Hex.
    destruct (mem (lst ls) p pSync =? Z.of_nat (nc p)) eqn:Ew; [|done]. injection Hex as <- <-.
    apply Z.eqb_eq in Ew. specialize (Hde ltac:(lia)). apply tb_inv_wait; try done; try lia.
    + case_decide; [by left|lia].
    + case_decide; lia.
    + destruct Hl. destruct l_cons0 as (Hcons & Hcl & Hpos); [lia|].
      case_decide as Hr; split; intros; try lia; auto; try congruence.
  - (* notify the parent *) injection Hn as <- <-. by eapply tb_inv_up.
  - (* released *) injection Hn as <- <-. unfold wait_down in Hex.
    assert (s' = lst ls /\ mem (lst ls) p pSync <> 0 /\
            (nc p <> 0%nat -> mem (lst ls) p pSync = Z.of_nat (nc p) + 1)) as (-> & Hnz & Hw).
    { case_decide as Hz; simpl in Hex.
      - destruct (mem (lst ls) p pSync =? 0) eqn:Ew; [done|]. injection Hex as _ <-.
        apply Z.eqb_neq in Ew. done.
      - destruct (mem (lst ls) p pSync =? Z.of_nat (nc p) + 1) eqn:Ew; [|done]. injection Hex as _ <-.
        apply Z.eqb_eq in Ew. split; [done|]. split; [lia|done]. }
    apply tb_inv_wait; try done; try lia.
    destruct Hl. destruct l_cons0 as (Hcons & Hcl & Hpos); [lia|].
    split; intros; try lia; auto; destruct (decide (nc p = 0%nat)); lia.
  - (* clear *) injection Hn as <- <-. injection Hex as <- <-.
    apply tb_inv_send; [done|done| |lia|lia|].
    + split; [done|]. split; [done|]. right. by right.
    + intros q Hq. pose proof (i_local _ _ Hinv q Hq) as Hlq.
      destruct (counters_same (lab ls) p 5%nat q Hq) as [-> ->]; [lia|by rewrite Hv|].
      destruct (counters_send (net (lst ls)) (Msg p p (epoch (lst ls) p) KPut pSync false (Captured [(0, 0)])) q) as [-> ->].
      simpl. rewrite andb_true_r, andb_false_r, Nat.add_0_r.
      destruct (decide (q = p)) as [->|Hqp].
      * rewrite Z.eqb_refl, fn_lookup_insert. destruct Hl.
        destruct l_cons0 as (Hcons & Hcl & Hpos); [lia|]. split; intros; try lia; auto.
      * rewrite (proj2 (Z.eqb_neq _ _)) by congruence. rewrite Nat.add_0_r.
        by rewrite fn_lookup_insert_ne.
  - (* cleared *) injection Hn as <- <-. simpl in Hex.
    destruct (mem (lst ls) p pSync =? 0) eqn:Ew; [|done]. injection Hex as <- <-.
    apply Z.eqb_eq in Ew. apply tb_inv_wait; try done; try lia.
    destruct Hl. destruct l_five0; [lia|]. split; intros; try lia; auto.
  - (* release the children, leave *)
    destruct (children p !! k) as [c|] eqn:Ek.
    + injection Hn as <- <-. by eapply tb_inv_down.
    + case_decide as Hk; [|done]. injection Hn as <- <-. injection Hex as <- <-. subst k.
      apply tb_inv_local; try done; try lia.
      * rewrite Hv, !take_ge by lia. done.
      * destruct Hl. split; intros; try lia; auto.
      * intros q [Hq|Hq]%elem_of_app; [by left|]. apply list_elem_of_singleton in Hq.
        injection Hq as ->. right. lia.
      * intros x Hx. apply elem_of_app. by left.
Qed.

(** ** Safety, progress and the barrier theorem *)

(** Once a member is past its release, every member has entered. *)
Lemma tb_all_entered m0 ls i j :
  tb_inv m0 ls -> i ∈ M -> (3 < lab ls i)%nat -> j ∈ M -> (0 < lab ls j)%nat.
Proof.
  intros Hinv Hi Hvi. assert (1 < lab ls root)%nat as Hr.
  { assert (exists n, (Z.to_nat (rank i) <= n)%nat) as [n Hn] by eauto.
    revert i Hi Hvi Hn. induction n as [n IH] using lt_wf_ind. intros i Hi Hvi Hn.
    destruct (decide (i = root)) as [->|Hne]; [lia|].
    pose proof (tree_parent_member (Tree:=HT) i Hi) as Hpm.
    pose proof (tree_rank (Tree:=HT) i Hi Hne) as Hrk.
    pose proof (l_release _ _ _ _ _ _ _ (i_local _ _ Hinv i Hi) Hne Hvi) as Hd1.
    pose proof (downs_pos (lab ls) i) as Hpos.
    destruct (decide (parent i = root)) as [E|E]; [rewrite E in Hpos; lia|].
    apply (IH (Z.to_nat (rank (parent i))) ltac:(lia) (parent i)); [done|lia|lia]. }
  assert (forall n j, (Z.to_nat (rank j) <= n)%nat -> j ∈ M -> j <> root -> (2 < lab ls j)%nat) as Hall.
  { induction n as [n IH] using lt_wf_ind. intros j0 Hn Hj0 Hne.
    pose proof (tree_rank (Tree:=HT) j0 Hj0 Hne) as Hrk.
    pose proof (tree_parent_member (Tree:=HT) j0 Hj0) as Hpm.
    assert (1 < lab ls (parent j0))%nat as Hp1.
    { destruct (decide (parent j0 = root)) as [->|E]; [done|].
      specialize (IH (Z.to_nat (rank (parent j0))) ltac:(lia) (parent j0) ltac:(lia) Hpm E). lia. }
    pose proof (l_gate _ _ _ _ _ _ _ (i_local _ _ Hinv _ Hpm) Hp1) as Hg.
    apply (proj1 (countb_all _ _)) with (x := j0) in Hg.
    - by apply Nat.ltb_lt in Hg.
    - by apply (tree_child_iff (Tree:=HT)). }
  intros Hj. destruct (decide (j = root)) as [->|Hne]; [lia|].
  specialize (Hall (Z.to_nat (rank j)) j ltac:(lia) Hj Hne). lia.
Qed.

Lemma tb_next_none p v : p ∈ M -> (v <= 7 + nc p)%nat -> tb_next p v = None <-> v = (7 + nc p)%nat.
Proof.
  intros Hp Hv. unfold tb_next. rewrite decide_True by done.
  destruct v as [|[|[|[|[|[|k]]]]]]; try (split; [done|lia]).
  destruct (children p !! k) eqn:E.
  - apply lookup_lt_Some in E. split; [done|lia].
  - apply lookup_ge_None in E. case_decide; split; try done; lia.
Qed.

(** A member at a position that is not a wait can move. *)
Lemma tb_can_move ls p v : p ∈ M -> lab ls p = v -> (v <= 7 + nc p)%nat ->
  v <> 1%nat -> v <> 3%nat -> v <> 5%nat -> v <> (7 + nc p)%nat -> exists ls', lstep tb_next ls ls'.
Proof.
  intros Hp Hv Hle H1 H3 H5 H7.
  destruct (tb_next p v) as [[o f]|] eqn:En; [|by apply tb_next_none in En].
  assert (exists r s', op_exec p o (lst ls) = Some (r, s')) as (r & s' & Hex).
  { unfold tb_next in En. rewrite decide_True in En by done.
    destruct v as [|[|[|[|[|[|k]]]]]]; try lia; try (injection En as <- <-; simpl; eauto).
    destruct (children p !! k); [injection En as <- <-; unfold down_op; destruct put_acks; simpl; eauto|].
    case_decide; [|done]. injection En as <- <-. simpl. eauto. }
  eexists. eapply lstep_pe; [by rewrite Hv|done].
Qed.

Lemma tb_progress m0 ls : tb_inv m0 ls -> net (lst ls) = [] ->
  (forall pe, tb_next pe (lab ls pe) = None /\ true = true) \/ exists ls', lstep tb_next ls ls'.
Proof.
  intros Hinv Hnet.
  (* an unfinished member not at a wait, or at a wait that is satisfied, can move *)
  assert (forall p, p ∈ M -> (lab ls p < 7 + nc p)%nat ->
    (lab ls p = 1%nat -> mem (lst ls) p pSync = Z.of_nat (nc p)) ->
    (lab ls p = 3%nat -> mem (lst ls) p pSync = Z.of_nat (nc p) + 1) ->
    exists ls', lstep tb_next ls ls') as Hmove.
  { intros p Hp Hlt H1 H3. pose proof (i_local _ _ Hinv p Hp) as Hl. rewrite Hnet in Hl.
    destruct (decide (lab ls p = 1%nat)) as [E1|E1]; [|destruct (decide (lab ls p = 3%nat)) as [E3|E3];
      [|destruct (decide (lab ls p = 5%nat)) as [E5|E5]]].
    - eexists. eapply lstep_pe; [unfold tb_next; rewrite decide_True, E1 by done; done|].
      simpl. rewrite (H1 E1), Z.eqb_refl. done.
    - eexists. eapply lstep_pe; [unfold tb_next; rewrite decide_True, E3 by done; done|].
      unfold wait_down. specialize (H3 E3). case_decide; simpl; rewrite H3.
      + rewrite (proj2 (Z.eqb_neq _ _)) by lia. done.
      + by rewrite Z.eqb_refl.
    - eexists. eapply lstep_pe; [unfold tb_next; rewrite decide_True, E5 by done; done|].
      destruct (l_five _ _ _ _ _ _ _ Hl E5) as [Hz _]. simpl. by rewrite (proj1 Hz).
    - eapply tb_can_move; [done|reflexivity|lia..]. }
  destruct (decide (Exists (fun p => (lab ls p < 7 + nc p)%nat) M)) as [HE|HE].
  2:{ left. intros p. split; [|done]. destruct (decide (p ∈ M)) as [Hp|Hp].
      - apply tb_next_none; [done|apply (l_end _ _ _ _ _ _ _ (i_local _ _ Hinv p Hp))|].
        pose proof (l_end _ _ _ _ _ _ _ (i_local _ _ Hinv p Hp)).
        destruct (decide (lab ls p = 7 + nc p)%nat) as [|Hn]; [done|].
        exfalso. apply HE, list.Exists_exists. exists p. split; [done|lia].
      - unfold tb_next. by rewrite decide_False. }
  right. apply list.Exists_exists in HE as (p0 & Hp0 & Hlt0).
  destruct (decide (Exists (fun p => lab ls p = 1%nat) M)) as [H1|H1].
  - (* the highest-ranked member waiting for its children *)
    apply list.Exists_exists in H1 as (x & Hx & Hx1).
    destruct (list_argmax rank (fun p => lab ls p = 1%nat) M x Hx Hx1) as (p & Hp & Hp1 & Hmax).
    destruct (decide (Exists (fun c => (lab ls c <= 2)%nat) (children p))) as [Hc|Hc].
    + apply list.Exists_exists in Hc as (c & Hc & Hc2).
      destruct (tree_child_in HT p c Hp Hc) as (Hcm & Hcr & Hcp).
      pose proof (tree_rank (Tree:=HT) c Hcm Hcr) as Hrk. rewrite Hcp in Hrk.
      apply (Hmove c Hcm); [lia| |lia]. intros E. specialize (Hmax c Hcm E). lia.
    + apply (Hmove p Hp); [lia| |lia]. intros _. pose proof (i_local _ _ Hinv p Hp) as Hl. rewrite Hnet in Hl.
      destruct (l_cons _ _ _ _ _ _ _ Hl) as (Hcons & _ & _); [lia|].
      rewrite (downs_early m0 ls p Hinv Hp) in Hcons by lia.
      assert (ups (lab ls) p = nc p) as Hu.
      { apply countb_all. intros c Hc'. apply Nat.ltb_lt.
        destruct (decide (2 < lab ls c)%nat) as [|Hn]; [done|].
        exfalso. apply Hc, list.Exists_exists. exists c. split; [done|lia]. }
      unfold atoms in Hcons. simpl in Hcons. lia.
  - (* otherwise the lowest-ranked unfinished member *)
    destruct (list_argmin rank (fun p => (lab ls p < 7 + nc p)%nat) M p0 Hp0 Hlt0) as (p & Hp & Hlt & Hmin).
    apply (Hmove p Hp Hlt).
    + intros E. exfalso. apply H1, list.Exists_exists. eauto.
    + intros E. pose proof (i_local _ _ Hinv p Hp) as Hl. rewrite Hnet in Hl.
      assert (p <> root) as Hne by (intros ->; destruct (l_root _ _ _ _ _ _ _ Hl eq_refl); lia).
      destruct (l_cons _ _ _ _ _ _ _ Hl) as (Hcons & _ & _); [lia|].
      rewrite (l_gate _ _ _ _ _ _ _ Hl) in Hcons by lia.
      pose proof (tree_parent_member (Tree:=HT) p Hp) as Hpm.
      pose proof (tree_rank (Tree:=HT) p Hp Hne) as Hrk.
      rewrite (downs_done (lab ls) p Hp Hne) in Hcons.
      * unfold atoms in Hcons. simpl in Hcons. lia.
      * destruct (decide (lab ls (parent p) < 7 + nc (parent p))%nat) as [Hlt'|]; [|lia].
        specialize (Hmin _ Hpm Hlt'). lia.
Qed.

Definition tb_dist (p : Z) (v : nat) : nat := (8 + nc p - v)%nat.

Lemma tb_next_dist p v o f r : tb_next p v = Some (o, f) -> p ∈ M /\ (tb_dist p (f r) < tb_dist p v)%nat.
Proof.
  unfold tb_next, tb_dist. destruct (decide (p ∈ M)) as [Hp|]; [|done]. intros H. split; [done|].
  destruct v as [|[|[|[|[|[|k]]]]]];
    [injection H as <- <-; repeat case_decide; lia..|].
  destruct (children p !! k) eqn:E.
  - apply lookup_lt_Some in E. injection H as <- <-. lia.
  - case_decide; [|done]. injection H as <- <-. lia.
Qed.

Lemma tb_init m0 : (forall p, p ∈ M -> m0 p pSync = 0) ->
  tb_inv m0 (LW (fun _ => 0%nat) (init_state m0)).
Proof.
  intros H0. split; simpl; try done.
  - intros m ?%elem_of_nil; done.
  - intros p Hp. rewrite (H0 p Hp).
    assert (ups (fun _ => 0%nat) p = 0%nat) as -> by (by apply countb_zero).
    split; intros; try lia; auto; try done.
  - intros p Hp Hlt. lia.
  - intros p ?%elem_of_nil; done.
Qed.

(** A member that has left finds its memory as it was. *)
Lemma tb_restored m0 ls i a : (forall p, p ∈ M -> m0 p pSync = 0) -> tb_inv m0 ls ->
  (i, EXIT) ∈ log (lst ls) -> mem (lst ls) i a = m0 i a.
Proof.
  intros H0 Hinv Hex. destruct (i_exit _ _ Hinv i Hex) as [Hi Hv].
  destruct (decide (a = pSync)) as [->|]; [|by apply (i_frame _ _ Hinv); right].
  rewrite (H0 i Hi). pose proof (i_local _ _ Hinv _ Hi) as Hl.
  destruct (l_six _ _ _ _ _ _ _ Hl) as [_ Hx]; [rewrite Hv; lia|done].
Qed.

(** The barrier: any bodies that perform these operations. *)
Lemma tree_barrier_spec body m0 :
  (forall p, p ∈ M -> marked (body p) = tb_pt p 0) ->
  (forall p, p ∈ M -> m0 p pSync = 0) ->
  barrier_spec M body m0 (3 * sum_list (map (fun p => 8 + nc p)%nat M)).
Proof.
  intros Hbody H0. set (w0 := barrier_job M body m0). set (ls0 := LW (fun _ => 0%nat) (init_state m0)).
  assert (refines tb_pt w0 ls0) as Hr.
  { split; [|done]. intros p. simpl. unfold job_prog. destruct (decide (p ∈ M)) as [Hp|Hp].
    - by apply Hbody.
    - unfold tb_pt. by rewrite decide_False. }
  pose proof (tb_init m0 H0) as Hi.
  assert (forall w, rtc step w0 w -> exists ls, refines tb_pt w ls /\ tb_inv m0 ls) as Hreach.
  { intros w Hw. apply (invariant_reachable _ _ (fun _ _ => true) tb_pt_next _ _ _ _ Hr Hi (tb_inv_step m0) Hw). }
  split.
  - pose proof (labels_complete tb_pt tb_next (fun _ _ => true) tb_pt_next M tb_dist HM tb_next_dist
      (tb_inv m0) w0 ls0 Hr Hi (tb_inv_step m0) (tb_progress m0)) as H.
    unfold lmeasure, remaining, net_weight, tb_dist in H. change (net (lst ls0)) with (@nil msg) in H.
    cbn [map sum_list] in H. rewrite Nat.add_0_r in H. exact H.
  - intros w i j Hw Hex Hj. destruct (Hreach w Hw) as (ls & [_ Hs] & Hinv).
    rewrite Hs in *. destruct (i_exit _ _ Hinv i Hex) as [Hi' Hv].
    apply (i_enter _ _ Hinv j Hj). eapply tb_all_entered; [done|exact Hi'|lia|done].
  - intros w i a Hw Hex. destruct (Hreach w Hw) as (ls & [_ Hs] & Hinv).
    rewrite Hs in *. by eapply tb_restored.
  - intros w Hw Hret. destruct (Hreach w Hw) as (ls & Hrw & Hinv).
    destruct Hrw as [Hp Hs]. rewrite Hs.
    assert (forall p, p ∈ M -> lab ls p = (7 + nc p)%nat) as Hend.
    { intros p HpM. apply tb_next_none; [done|apply (l_end _ _ _ _ _ _ _ (i_local _ _ Hinv p HpM))|].
      by apply (proj1 (refines_returned tb_pt tb_next (fun _ _ => true) tb_pt_next w ls p (conj Hp Hs)) (Hret p)). }
    split.
    + destruct (net (lst ls)) as [|m n] eqn:En; [done|]. exfalso.
      destruct (i_msgs _ _ Hinv m) as (Hd & _ & _); [rewrite En; apply list_elem_of_here|].
      pose proof (i_local _ _ Hinv _ Hd) as Hl. rewrite En, (Hend _ Hd) in Hl.
      destruct (l_six _ _ _ _ _ _ _ Hl) as [Hc _]; [lia|].
      pose proof (l_quiet _ _ _ _ _ _ _ Hl) as Ha. specialize (Ha ltac:(lia)).
      unfold atoms, clears in *. simpl in *. rewrite Z.eqb_refl in *. destruct (is_atomic m); simpl in *; lia.
    + intros p a. destruct (decide (p ∈ M)) as [HpM|]; [|by apply (i_frame _ _ Hinv); left].
      destruct (decide (a = pSync)) as [->|]; [|by apply (i_frame _ _ Hinv); right].
      rewrite (H0 p HpM). pose proof (i_local _ _ Hinv _ HpM) as Hl.
      destruct (l_six _ _ _ _ _ _ _ Hl) as [_ Hx]; [rewrite (Hend _ HpM); lia|done].
  - intros w p a Hw Hp. destruct (Hreach w Hw) as (ls & [_ Hs] & Hinv). rewrite Hs. apply (i_frame _ _ Hinv). by left.
Qed.
End tree_barrier.
