(* ===== verification/DissemBarrier.v ===== *)
(** * The dissemination barrier, called again and again

    [R] successive calls of [shmem_internal_sync_dissem] on one pSync.  The label of
    a PE is the number of barriers it has completed and its position in the current
    one; the invariant relates the value of each pSync slot to the updates its
    partner has sent and the decrements its owner has sent. *)

From S2P Require Import Prelude Machine Straight Internal ReduceOp Comm Tree CollSync.
Local Open Scope Z_scope.
Local Open Scope prog_scope.

(** Marks of the [r]-th barrier; the first one uses [ENTER] and [EXIT]. *)
Definition enter_tag (r : nat) : Z := 2 * Z.of_nat r.
Definition exit_tag (r : nat) : Z := 2 * Z.of_nat r + 1.

Section dissem.
Context (M : list Z) (HM : NoDup M) (K R : nat).
(** The partners of a member in round [k] and the slot of the round. *)
Context (to from : Z -> nat -> Z) (slot : nat -> Z).
Context (Hto : forall p k, p ∈ M -> to p k ∈ M) (Hfrom : forall p k, p ∈ M -> from p k ∈ M).
Context (Hft : forall p k, p ∈ M -> from (to p k) k = p) (Htf : forall p k, p ∈ M -> to (from p k) k = p).
Context (Hslot : forall k1 k2, slot k1 = slot k2 -> k1 = k2).

(** The members [p] has heard of after [k] rounds. *)
Fixpoint heard (k : nat) (p q : Z) : Prop :=
  match k with
  | O => q = p
  | S k => heard k p q \/ heard k (from p k) q
  end.
Context (Hcover : forall p q, p ∈ M -> q ∈ M -> heard K p q).

Let sum := i32_calc SHM_INTERNAL_SUM.

Definition round_ops (p : Z) (k : nat) : list op :=
  [OAtomic (to p k) (slot k) sum (Captured [(0, 1)]);
   OWait (slot k) SHMEM_CMP_NE 0;
   OAtomic p (slot k) sum (Captured [(0, -1)])].

(** Positions of one barrier: 0 enter, 1+3k send, 2+3k wait, 3+3k decrement,
    1+3K quiet, 2+3K leave. *)
Definition one (p : Z) (r : nat) : list op :=
  OMark (enter_tag r) :: flat_map (round_ops p) (seq 0 K) ++ [OQuiet; OMark (exit_tag r)].

Definition db_next (p : Z) (l : nat * nat) : option (op * (Z -> nat * nat)) :=
  if decide (p ∈ M /\ l.1 < R)%nat then
    match one p l.1 !! l.2 with
    | Some o => Some (o, fun _ => if decide (l.2 = 2 + 3 * K)%nat then (S l.1, 0%nat) else (l.1, S l.2))
    | None => None
    end
  else None.

Definition db_pt (p : Z) (l : nat * nat) : prog unit :=
  if decide (p ∈ M /\ l.1 < R)%nat then
    if decide (l.2 <= 2 + 3 * K)%nat
    then seqp (drop l.2 (one p l.1) ++ flat_map (one p) (seq (S l.1) (R - S l.1)))
    else skip
  else skip.

Lemma length_rounds p : length (flat_map (round_ops p) (seq 0 K)) = (3 * K)%nat.
Proof.
  rewrite (flat_map_constant_length (c := 3%nat)) by done. rewrite length_seq. lia.
Qed.

Lemma length_one p r : length (one p r) = (3 + 3 * K)%nat.
Proof. unfold one. simpl. rewrite length_app, length_rounds. simpl. lia. Qed.

Lemma rounds_lookup p a n k j : (k < n)%nat -> (j < 3)%nat ->
  flat_map (round_ops p) (seq a n) !! (3 * k + j)%nat = round_ops p (a + k)%nat !! j.
Proof.
  revert a k. induction n as [|n IH]; intros a k Hk Hj; [lia|].
  cbn [seq flat_map]. destruct k as [|k].
  - rewrite lookup_app_l by (simpl; lia). rewrite Nat.add_0_r. done.
  - rewrite lookup_app_r by (simpl; lia).
    replace (3 * S k + j - length (round_ops p a))%nat with (3 * k + j)%nat by (simpl; lia).
    rewrite IH by lia. do 2 f_equal. lia.
Qed.

(** The operation at each position. *)
Lemma one_enter p r : one p r !! 0%nat = Some (OMark (enter_tag r)).
Proof. done. Qed.
Lemma one_round p r k j : (k < K)%nat -> (j < 3)%nat -> one p r !! (S (3 * k + j)) = round_ops p k !! j.
Proof.
  intros Hk Hj.
  transitivity ((flat_map (round_ops p) (seq 0 K) ++ [OQuiet; OMark (exit_tag r)]) !! (3 * k + j)%nat); [done|].
  rewrite lookup_app_l by (rewrite length_rounds; lia). by rewrite rounds_lookup.
Qed.
Lemma one_quiet p r : one p r !! (1 + 3 * K)%nat = Some OQuiet.
Proof.
  transitivity ((flat_map (round_ops p) (seq 0 K) ++ [OQuiet; OMark (exit_tag r)]) !! (3 * K)%nat); [done|].
  rewrite lookup_app_r by (rewrite length_rounds; lia). rewrite length_rounds, Nat.sub_diag. done.
Qed.
Lemma one_exit p r : one p r !! (2 + 3 * K)%nat = Some (OMark (exit_tag r)).
Proof.
  transitivity ((flat_map (round_ops p) (seq 0 K) ++ [OQuiet; OMark (exit_tag r)]) !! (S (3 * K))%nat); [done|].
  rewrite lookup_app_r by (rewrite length_rounds; lia). rewrite length_rounds.
  by replace (S (3 * K) - 3 * K)%nat with 1%nat by lia.
Qed.

(** Every position is one of these. *)
Inductive pos_view : nat -> Type :=
| pos_enter : pos_view 0
| pos_send k : (k < K)%nat -> pos_view (1 + 3 * k)
| pos_wait k : (k < K)%nat -> pos_view (2 + 3 * k)
| pos_dec k : (k < K)%nat -> pos_view (3 + 3 * k)
| pos_quiet : pos_view (1 + 3 * K)
| pos_exit : pos_view (2 + 3 * K).

Lemma pos_cases v : (v < 3 + 3 * K)%nat -> pos_view v.
Proof.
  intros Hv. destruct (decide (v = 0)%nat) as [->|]; [exact pos_enter|].
  destruct (decide (v = 1 + 3 * K)%nat) as [->|]; [exact pos_quiet|].
  destruct (decide (v = 2 + 3 * K)%nat) as [->|]; [exact pos_exit|].
  pose proof (Nat.div_mod (v - 1) 3). pose proof (Nat.mod_upper_bound (v - 1) 3).
  assert ((v - 1) / 3 < K)%nat as Hk by (apply Nat.Div0.div_lt_upper_bound; lia).
  destruct ((v - 1) mod 3)%nat as [|[|[|]]] eqn:E; [| | |lia].
  - replace v with (1 + 3 * ((v - 1) / 3))%nat by lia. by apply pos_send.
  - replace v with (2 + 3 * ((v - 1) / 3))%nat by lia. by apply pos_wait.
  - replace v with (3 + 3 * ((v - 1) / 3))%nat by lia. by apply pos_dec.
Qed.

Lemma one_send p r k : (k < K)%nat -> one p r !! (1 + 3 * k)%nat = Some (OAtomic (to p k) (slot k) sum (Captured [(0, 1)])).
Proof. intros Hk. pose proof (one_round p r k 0 Hk). rewrite Nat.add_0_r in H. apply H. lia. Qed.
Lemma one_wait p r k : (k < K)%nat -> one p r !! (2 + 3 * k)%nat = Some (OWait (slot k) SHMEM_CMP_NE 0).
Proof. intros Hk. replace (2 + 3 * k)%nat with (S (3 * k + 1)) by lia. by rewrite one_round by lia. Qed.
Lemma one_dec p r k : (k < K)%nat -> one p r !! (3 + 3 * k)%nat = Some (OAtomic p (slot k) sum (Captured [(0, -1)])).
Proof. intros Hk. replace (3 + 3 * k)%nat with (S (3 * k + 2)) by lia. by rewrite one_round by lia. Qed.

Lemma db_pt_next p l : db_pt p l = match db_next p l with
                                   | Some (o, f) => Do o (fun r => db_pt p (f r))
                                   | None => skip
                                   end.
Proof.
  destruct l as [r v]. unfold db_pt at 1, db_next. cbn [fst snd].
  destruct (decide (p ∈ M /\ r < R)%nat) as [[Hp Hr]|]; [|done].
  destruct (decide (v <= 2 + 3 * K)%nat) as [Hv|Hv].
  - destruct (one p r !! v) as [o|] eqn:E.
    2:{ apply lookup_ge_None in E. rewrite length_one in E. lia. }
    rewrite (drop_S _ _ _ E). cbn [app seqp]. f_equal. extensionality x.
    unfold db_pt. destruct (decide (v = 2 + 3 * K)%nat) as [->|Hne]; cbn [fst snd].
    + rewrite drop_ge by (rewrite length_one; lia). cbn [app].
      destruct (decide (p ∈ M /\ S r < R)%nat) as [[_ Hr']|Hr'].
      * replace (R - S r)%nat with (S (R - S (S r))) by lia. done.
      * replace (R - S r)%nat with 0%nat by (apply not_and_l in Hr' as [|]; [done|lia]). done.
    + rewrite decide_True by done. rewrite decide_True by lia. done.
  - by rewrite (lookup_ge_None_2 _ _) by (rewrite length_one; lia).
Qed.

(** ** Counts *)

(** Updates sent, waits passed and decrements sent in round [k] by a PE at [l]. *)
Definition sends (k : nat) (l : nat * nat) : nat := (l.1 + if decide (1 + 3 * k < l.2) then 1 else 0)%nat.
Definition waits (k : nat) (l : nat * nat) : nat := (l.1 + if decide (2 + 3 * k < l.2) then 1 else 0)%nat.
Definition decs (k : nat) (l : nat * nat) : nat := (l.1 + if decide (3 + 3 * k < l.2) then 1 else 0)%nat.

Definition mval (m : msg) : Z := match m_data m with Captured [(_, v)] => v | _ => 0 end.
Definition hits (v p : Z) (k : nat) (m : msg) : bool :=
  (m_dst m =? p) && (m_target m =? slot k) && (mval m =? v).
Definition cnt (v p : Z) (k : nat) (n : list msg) : nat := countb (hits v p k) n.

Record good (m : msg) : Prop := {
  g_dst : m_dst m ∈ M;
  g_kind : m_kind m = KAtomic sum;
  g_data : m_data m = Captured [(0, mval m)];
  g_slot : exists k, (k < K)%nat /\ m_target m = slot k;
  g_val : mval m = 1 \/ mval m = -1 /\ m_src m = m_dst m }.

(** One slot: its value, the updates in flight and the positions of its two users. *)
Record cell (x : Z) (plus minus : nat) (k : nat) (l lfrom : nat * nat) : Prop := {
  c_sum : x + Z.of_nat plus - Z.of_nat minus = Z.of_nat (sends k lfrom) - Z.of_nat (decs k l);
  c_nonneg : Z.of_nat minus <= x;
  c_minus : (minus <= 1)%nat;
  c_window : minus = 1%nat -> (3 + 3 * k < l.2)%nat /\ (l.2 <= 1 + 3 * K)%nat;
  c_seen : l.2 = (3 + 3 * k)%nat -> 1 <= x;
  c_gate : (waits k l <= sends k lfrom)%nat }.

Record db_inv (m0 : Z -> lmem) (ls : lworld (nat * nat)) : Prop := {
  d_lab : forall p, p ∈ M -> ((lab ls p).1 <= R /\ (lab ls p).2 <= 2 + 3 * K)%nat /\
                             ((lab ls p).1 = R -> (lab ls p).2 = 0%nat);
  d_msgs : forall m, m ∈ net (lst ls) -> good m;
  d_cell : forall p k, p ∈ M -> (k < K)%nat ->
    cell (mem (lst ls) p (slot k)) (cnt 1 p k (net (lst ls))) (cnt (-1) p k (net (lst ls))) k
         (lab ls p) (lab ls (from p k));
  d_enter : forall p r, p ∈ M -> (r < (lab ls p).1 \/ r = (lab ls p).1 /\ 0 < (lab ls p).2)%nat ->
    (p, enter_tag r) ∈ log (lst ls);
  d_exit : forall p r, (p, exit_tag r) ∈ log (lst ls) -> p ∈ M /\ (r < (lab ls p).1)%nat;
  d_frame : forall p a, p ∉ M \/ (forall k, (k < K)%nat -> a <> slot k) -> mem (lst ls) p a = m0 p a }.

Ltac counts := unfold sends, waits, decs in *; cbn [fst snd] in *; repeat case_decide; try lia.

Lemma cnt_send v p k n m : cnt v p k (n ++ [m]) = (cnt v p k n + if hits v p k m then 1 else 0)%nat.
Proof. unfold cnt. rewrite countb_app. simpl. lia. Qed.
Lemma cnt_recv v p k n1 m n2 :
  cnt v p k (n1 ++ m :: n2) = (cnt v p k (n1 ++ n2) + if hits v p k m then 1 else 0)%nat.
Proof. unfold cnt. rewrite !countb_app. simpl. lia. Qed.

Lemma hits_iff v p k m : hits v p k m = true <-> m_dst m = p /\ m_target m = slot k /\ mval m = v.
Proof. unfold hits. rewrite !andb_true_iff, !Z.eqb_eq. tauto. Qed.

Lemma to_from q p k : q ∈ M -> from q k = p -> q = to p k.
Proof. intros Hq <-. by rewrite Htf. Qed.

(** *** What the positions say: who has entered, and the value of a slot *)

Definition entered (ls : lworld (nat * nat)) (q : Z) (r : nat) : Prop :=
  (r < (lab ls q).1 \/ r = (lab ls q).1 /\ 0 < (lab ls q).2)%nat.
Definition passed (ls : lworld (nat * nat)) (q : Z) (k r : nat) : Prop :=
  (r < (lab ls q).1 \/ r = (lab ls q).1 /\ 3 * k < (lab ls q).2)%nat.

Lemma heard_entered m0 ls k p q r :
  db_inv m0 ls -> p ∈ M -> (k <= K)%nat -> passed ls p k r -> heard k p q -> entered ls q r.
Proof.
  intros Hinv. revert p. induction k as [|k IH]; intros p Hp Hk Hpass Hh.
  - simpl in Hh. subst q. exact Hpass.
  - simpl in Hh. unfold passed in *. destruct Hh as [Hh|Hh].
    + apply (IH p); [done|lia|lia|done].
    + pose proof (c_gate _ _ _ _ _ _ (d_cell _ _ Hinv p k Hp ltac:(lia))) as Hg.
      apply (IH (from p k)); [by apply Hfrom|lia| |done]. counts.
Qed.

(** A member that has completed a barrier, or all its rounds, knows that everyone has entered it. *)
Lemma completed_entered m0 ls p q r :
  db_inv m0 ls -> p ∈ M -> q ∈ M -> (r < (lab ls p).1)%nat -> entered ls q r.
Proof.
  intros Hinv Hp Hq Hr. eapply (heard_entered m0 ls K p q r); [done|done|lia| |by apply Hcover]. by left.
Qed.

(** The value of a slot and its bound: at most two updates are ever pending. *)
Lemma slot_bound m0 ls p k : db_inv m0 ls -> p ∈ M -> (k < K)%nat ->
  mem (lst ls) p (slot k) + Z.of_nat (cnt 1 p k (net (lst ls))) <= 2 /\ 0 <= mem (lst ls) p (slot k).
Proof.
  intros Hinv Hp Hk. pose proof (d_cell _ _ Hinv p k Hp Hk) as [Hs Hn Hm Hw _ Hg].
  pose proof (Hfrom p k Hp) as Hq.
  assert (sends k (lab ls (from p k)) <= (lab ls p).1 + 2 /\
          ((lab ls p).2 = 0 -> sends k (lab ls (from p k)) <= (lab ls p).1 + 1))%nat as [Hb1 Hb2].
  { destruct (lab ls (from p k)).1 as [|r] eqn:Er; [counts|].
    pose proof (completed_entered m0 ls (from p k) p r Hinv Hq Hp ltac:(lia)) as He.
    unfold entered in He. counts. }
  split; [|lia]. destruct (decide (cnt (-1) p k (net (lst ls)) = 1%nat)) as [E|E].
  - specialize (Hw E). counts.
  - counts.
Qed.

(** *** Preservation *)

Lemma db_inv_net m0 ls s' : db_inv m0 ls -> net_step (lst ls) s' -> db_inv m0 (LW (lab ls) s').
Proof.
  intros Hinv Hn. remember (lst ls) as s eqn:Es.
  destruct Hn as [s l1 m l2 src offs E D | s l1 m l2 vals E D _]; subst s;
    assert (m ∈ net (lst ls)) as Hin by (rewrite E, elem_of_app, elem_of_cons; auto);
    pose proof (d_msgs _ _ Hinv m Hin) as [Hd Hk Hdata (k0 & Hk0 & Ht) Hv];
    rewrite D in Hdata; [done|]. injection Hdata as ->.
  pose proof (slot_bound m0 ls (m_dst m) k0 Hinv Hd Hk0) as [Hb1 Hb2].
  pose proof (d_cell _ _ Hinv _ k0 Hd Hk0) as Hc.
  rewrite E in Hb1, Hc. rewrite !cnt_recv in Hc. rewrite !cnt_recv in Hb1.
  assert (forall v, hits v (m_dst m) k0 m = (mval m =? v)) as Hh.
  { intros v. unfold hits. by rewrite Ht, !Z.eqb_refl. }
  rewrite !Hh in Hc. rewrite Hh in Hb1.
  assert (sum (mem (lst ls) (m_dst m) (slot k0)) (mval m) = mem (lst ls) (m_dst m) (slot k0) + mval m) as Hsum.
  { apply signed_sum; [lia|]. destruct Hv as [|[]]; lia. }
  destruct Hinv as [Hl Hm Hcell He Hx Hf]. split; simpl; try done.
  - intros m' Hm'. apply Hm. rewrite E, elem_of_app, elem_of_cons. apply elem_of_app in Hm'. tauto.
  - intros p k Hp Hk'. rewrite Hk, Ht, Z.add_0_r. simpl. rewrite Hsum.
    destruct (decide (p = m_dst m /\ k = k0)) as [[-> ->]|Hne].
    + rewrite !fn_lookup_insert.
      destruct Hv as [Hv|[Hv _]]; rewrite Hv in *; cbn in Hc; destruct Hc; split; intros; try lia; auto.
    + assert (forall v, hits v p k m = false) as Hno.
      { intros v. apply not_true_iff_false. rewrite hits_iff, Ht. intros (<- & ->%Hslot & _). by apply Hne. }
      pose proof (Hcell p k Hp Hk') as Hc'. rewrite E, !cnt_recv, !Hno, !Nat.add_0_r in Hc'.
      destruct (decide (p = m_dst m)) as [->|]; [|by rewrite fn_lookup_insert_ne].
      rewrite fn_lookup_insert, fn_lookup_insert_ne; [done|]. intros ?%Hslot. by apply Hne.
  - intros p a Hpa. rewrite <- (Hf p a Hpa), Ht, Z.add_0_r.
    destruct (decide (p = m_dst m)) as [->|]; [|by rewrite fn_lookup_insert_ne].
    rewrite fn_lookup_insert, fn_lookup_insert_ne; [done|].
    destruct Hpa as [?|Hpa]; [done|]. intros <-. by apply (Hpa k0 Hk0).
Qed.
(** A step of member [p] to [l'], possibly sending [ms] and leaving a mark. *)
Lemma db_inv_move m0 ls p l' ms lg :
  db_inv m0 ls -> p ∈ M ->
  (l'.1 <= R /\ l'.2 <= 2 + 3 * K /\ (l'.1 = R -> l'.2 = 0) /\ (lab ls p).1 <= l'.1)%nat ->
  (forall m, m ∈ ms -> good m) ->
  (forall q k, q ∈ M -> (k < K)%nat ->
    cell (mem (lst ls) q (slot k)) (cnt 1 q k (net (lst ls) ++ ms)) (cnt (-1) q k (net (lst ls) ++ ms)) k
         (<[p := l']> (lab ls) q) (<[p := l']> (lab ls) (from q k))) ->
  (forall x, x ∈ log (lst ls) -> x ∈ lg) ->
  (forall r, (r < l'.1 \/ r = l'.1 /\ 0 < l'.2)%nat -> entered ls p r \/ (p, enter_tag r) ∈ lg) ->
  (forall q r, (q, exit_tag r) ∈ lg -> (q, exit_tag r) ∈ log (lst ls) \/ q = p /\ (r < l'.1)%nat) ->
  db_inv m0 (LW (<[p := l']> (lab ls)) (St (mem (lst ls)) (net (lst ls) ++ ms) (epoch (lst ls)) lg)).
Proof.
  intros [Hl Hm Hc He Hx Hf] Hp (HR & HK & HR0 & Hmono) Hms Hcell Hlog Hent Hexit. split; simpl; try done.
  - intros q Hq. destruct (decide (q = p)) as [->|]; [by rewrite fn_lookup_insert|].
    rewrite fn_lookup_insert_ne by done. by apply Hl.
  - intros m [?|?]%elem_of_app; auto.
  - intros q r Hq. destruct (decide (q = p)) as [->|].
    + rewrite fn_lookup_insert. intros [H|H]%Hent; [by apply Hlog, He|done].
    + rewrite fn_lookup_insert_ne by done. intros H. by apply Hlog, He.
  - intros q r [[Hq Hr]%Hx|[-> Hr]]%Hexit.
    + split; [done|]. destruct (decide (q = p)) as [->|].
      * rewrite fn_lookup_insert. lia.
      * by rewrite fn_lookup_insert_ne.
    + by rewrite fn_lookup_insert.
Qed.

(** A cell does not see a step that changes neither its counts nor its user's windows. *)
Lemma cell_from x a b k l lf lf' : sends k lf' = sends k lf -> cell x a b k l lf -> cell x a b k l lf'.
Proof. intros E []. split; rewrite ?E; auto. Qed.

(** The cells after a step that sends nothing. *)
Lemma cells_local m0 ls p l' :
  db_inv m0 ls -> p ∈ M ->
  (forall k, (k < K)%nat -> sends k l' = sends k (lab ls p)) ->
  (forall k lf, (k < K)%nat ->
     let x := mem (lst ls) p (slot k) in let a := cnt 1 p k (net (lst ls)) in let b := cnt (-1) p k (net (lst ls)) in
     cell x a b k (lab ls p) lf -> cell x a b k l' lf) ->
  forall q k, q ∈ M -> (k < K)%nat ->
    cell (mem (lst ls) q (slot k)) (cnt 1 q k (net (lst ls) ++ [])) (cnt (-1) q k (net (lst ls) ++ [])) k
         (<[p := l']> (lab ls) q) (<[p := l']> (lab ls) (from q k)).
Proof.
  intros Hinv Hp Hs Hown q k Hq Hk. rewrite app_nil_r.
  apply (cell_from _ _ _ _ _ (lab ls (from q k))).
  - destruct (decide (from q k = p)) as [->|]; [rewrite fn_lookup_insert; by apply Hs|].
    by rewrite fn_lookup_insert_ne.
  - pose proof (d_cell _ _ Hinv q k Hq Hk) as Hc. destruct (decide (q = p)) as [->|].
    + rewrite fn_lookup_insert. by apply Hown.
    + by rewrite fn_lookup_insert_ne.
Qed.

(** The cells after [p] sends its update of round [k0]. *)
Lemma cells_send m0 ls p k0 r ep :
  db_inv m0 ls -> p ∈ M -> (k0 < K)%nat -> lab ls p = (r, 1 + 3 * k0)%nat ->
  let ms := [Msg p (to p k0) ep (KAtomic sum) (slot k0) false (Captured [(0, 1)])] in
  let l' := (r, 2 + 3 * k0)%nat in
  forall q k, q ∈ M -> (k < K)%nat ->
    cell (mem (lst ls) q (slot k)) (cnt 1 q k (net (lst ls) ++ ms)) (cnt (-1) q k (net (lst ls) ++ ms)) k
         (<[p := l']> (lab ls) q) (<[p := l']> (lab ls) (from q k)).
Proof.
  intros Hinv Hp Hk0 Hlp ms l' q k Hq Hk. subst ms l'. rewrite !cnt_send.
  pose proof (d_cell _ _ Hinv q k Hq Hk) as Hc.
  assert (forall lf, cell (mem (lst ls) q (slot k)) (cnt 1 q k (net (lst ls))) (cnt (-1) q k (net (lst ls))) k (lab ls q) lf ->
          cell (mem (lst ls) q (slot k)) (cnt 1 q k (net (lst ls))) (cnt (-1) q k (net (lst ls))) k (<[p := (r, 2 + 3 * k0)%nat]> (lab ls) q) lf) as Hown.
  { intros lf Hc'. destruct (decide (q = p)) as [->|]; [|by rewrite fn_lookup_insert_ne].
    rewrite fn_lookup_insert. destruct Hc'. rewrite Hlp in *. split; intros; counts; auto. }
  unfold hits. cbn [m_dst m_target mval m_data Z.eqb Pos.eqb]. rewrite !andb_false_r, !andb_true_r.
  destruct (decide (from q k = p /\ k = k0)) as [[Hq' ->]|Hne].
  - rewrite (to_from q p k0 Hq Hq'), !Z.eqb_refl. cbn [andb]. rewrite (to_from q p k0 Hq Hq') in Hown, Hc.
    apply Hown in Hc. rewrite Hft in * by done. rewrite fn_lookup_insert.
    destruct Hc. rewrite Hlp in *. split; intros; counts; auto.
  - assert (((to p k0 =? q) && (slot k0 =? slot k))%Z = false) as ->.
    { apply not_true_iff_false. rewrite andb_true_iff, !Z.eqb_eq. intros [<- ->%Hslot].
      apply Hne. by rewrite Hft. }
    rewrite !Nat.add_0_r. apply (cell_from _ _ _ _ _ (lab ls (from q k))); [|by apply Hown].
    destruct (decide (from q k = p)) as [E|]; [|by rewrite fn_lookup_insert_ne].
    rewrite E, fn_lookup_insert, Hlp. assert (k <> k0) by tauto. counts.
Qed.

(** The cells after [p] sends its decrement of round [k0]. *)
Lemma cells_dec m0 ls p k0 r ep :
  db_inv m0 ls -> p ∈ M -> (k0 < K)%nat -> lab ls p = (r, 3 + 3 * k0)%nat ->
  let ms := [Msg p p ep (KAtomic sum) (slot k0) false (Captured [(0, -1)])] in
  let l' := (r, 4 + 3 * k0)%nat in
  forall q k, q ∈ M -> (k < K)%nat ->
    cell (mem (lst ls) q (slot k)) (cnt 1 q k (net (lst ls) ++ ms)) (cnt (-1) q k (net (lst ls) ++ ms)) k
         (<[p := l']> (lab ls) q) (<[p := l']> (lab ls) (from q k)).
Proof.
  intros Hinv Hp Hk0 Hlp ms l' q k Hq Hk. subst ms l'. rewrite !cnt_send.
  pose proof (d_cell _ _ Hinv q k Hq Hk) as Hc.
  apply (cell_from _ _ _ _ _ (lab ls (from q k))).
  { destruct (decide (from q k = p)) as [->|]; [|by rewrite fn_lookup_insert_ne].
    rewrite fn_lookup_insert, Hlp. counts. }
  unfold hits. cbn [m_dst m_target mval m_data Z.eqb Pos.eqb]. rewrite !andb_false_r, !andb_true_r.
  destruct (decide (q = p)) as [->|].
  - rewrite Z.eqb_refl, fn_lookup_insert. rewrite Hlp in Hc. cbn [andb].
    destruct (decide (k = k0)) as [->|Hne].
    + rewrite Z.eqb_refl. destruct Hc. specialize (c_seen0 eq_refl).
      assert (cnt (-1) p k0 (net (lst ls)) <> 1%nat) by (intros ?%c_window0; cbn [fst snd] in *; lia).
      split; intros; counts; auto.
    + rewrite (proj2 (Z.eqb_neq _ _)) by (intros ?%Hslot; congruence). rewrite !Nat.add_0_r.
      destruct Hc. split; intros; counts; auto.
  - rewrite (proj2 (Z.eqb_neq p q)) by congruence. rewrite !Nat.add_0_r.
    by rewrite fn_lookup_insert_ne.
Qed.
Lemma tags_exit r : enter_tag r <> exit_tag r.
Proof. unfold enter_tag, exit_tag. lia. Qed.

Lemma db_inv_step m0 ls ls' : db_inv m0 ls -> lstep db_next ls ls' -> db_inv m0 ls'.
Proof.
  intros Hinv Hst. destruct Hst as [ls p o f x s' Hn Hex | ls s' Hn]; [|by eapply db_inv_net].
  unfold db_next in Hn. destruct (decide _) as [[Hp Hr]|]; [|done].
  destruct (lab ls p) as [r v] eqn:Hlp. cbn [fst snd] in *.
  destruct (one p r !! v) as [o'|] eqn:Eo; [|done]. injection Hn as -> <-.
  pose proof (lookup_lt_Some _ _ _ Eo) as Hv. rewrite length_one in Hv.
  pose proof (d_cell _ _ Hinv p) as Hcell. rewrite Hlp in Hcell.
  assert (forall m, m ∈ @nil msg -> good m) as Hnil by (intros m ?%elem_of_nil; done).
  destruct (lst ls) as [mm nn ee lg] eqn:Es.
  assert (forall l' ms lg', db_inv m0 (LW (<[p := l']> (lab ls)) (St (mem (lst ls)) (net (lst ls) ++ ms) (epoch (lst ls)) lg')) ->
    db_inv m0 (LW (<[p := l']> (lab ls)) (St mm (nn ++ ms) ee lg'))) as Hgo by (by rewrite Es).
  assert (forall l' lg', db_inv m0 (LW (<[p := l']> (lab ls)) (St mm (nn ++ []) ee lg')) ->
    db_inv m0 (LW (<[p := l']> (lab ls)) (St mm nn ee lg'))) as Hgo0 by (intros l' lg'; by rewrite app_nil_r).
  destruct (pos_cases v Hv) as [|k Hk|k Hk|k Hk| |].
  - (* enter *) injection Eo as <-. injection Hex as <- <-. rewrite decide_False by lia.
    apply Hgo0, Hgo. apply db_inv_move; rewrite ?Hlp, ?Es; cbn [fst snd log]; try done; try lia.
    + rewrite <- Es. apply (cells_local m0); rewrite ?Hlp; [done|done|intros; counts|].
      intros k lf Hk x0 a b []. split; intros; counts; auto.
    + intros y Hy. apply elem_of_app. by left.
    + intros r' Hr'. unfold entered. rewrite Hlp. cbn [fst snd].
      destruct (decide (r' = r)) as [->|]; [right|left; lia].
      apply elem_of_app. right. apply list_elem_of_here.
    + intros q r' [Hq|Hq]%elem_of_app; [by left|]. apply list_elem_of_singleton in Hq.
      injection Hq as _ Hq. unfold enter_tag, exit_tag in Hq. lia.
  - (* send *) rewrite one_send in Eo by done. injection Eo as <-. injection Hex as <- <-.
    rewrite decide_False by lia. unfold set_net. cbn [mem net epoch log]. apply Hgo.
    apply db_inv_move; rewrite ?Hlp, ?Es; cbn [fst snd log]; try done; try lia.
    + intros m ->%list_elem_of_singleton. split; simpl; [by apply Hto|done|done|by exists k|by left].
    + rewrite <- Es. by apply (cells_send m0).
    + intros r' Hr'. left. unfold entered. rewrite Hlp. cbn [fst snd]. lia.
    + by left.
  - (* wait *) rewrite one_wait in Eo by done. injection Eo as <-. simpl in Hex.
    destruct (mm p (slot k) =? 0) eqn:Ew; [done|]. injection Hex as <- <-. apply Z.eqb_neq in Ew.
    rewrite decide_False by lia. apply Hgo0, Hgo.
    apply db_inv_move; rewrite ?Hlp, ?Es; cbn [fst snd log]; try done; try lia.
    + rewrite <- Es. apply (cells_local m0); rewrite ?Hlp; [done|done|intros; counts|].
      intros k' lf Hk' x a b. unfold x, a, b. rewrite Es. cbn [mem net]. intros [].
      destruct (decide (k' = k)) as [->|]; split; intros; counts; auto.
    + intros r' Hr'. left. unfold entered. rewrite Hlp. cbn [fst snd]. lia.
    + by left.
  - (* decrement *) rewrite one_dec in Eo by done. injection Eo as <-. injection Hex as <- <-.
    rewrite decide_False by lia. unfold set_net. cbn [mem net epoch log]. apply Hgo.
    apply db_inv_move; rewrite ?Hlp, ?Es; cbn [fst snd log]; try done; try lia.
    + intros m ->%list_elem_of_singleton. split; simpl; [done|done|done|by exists k|by right].
    + rewrite <- Es. by apply (cells_dec m0).
    + intros r' Hr'. left. unfold entered. rewrite Hlp. cbn [fst snd]. lia.
    + by left.
  - (* quiet *) rewrite one_quiet in Eo. injection Eo as <-. simpl in Hex.
    destruct (forallb _ nn) eqn:Eq; [|done]. injection Hex as <- <-.
    assert (forall k, cnt (-1) p k nn = 0%nat) as Hz.
    { intros k. apply countb_zero. intros m Hm. apply not_true_iff_false. intros (Hd & _ & Hmv)%hits_iff.
      pose proof (d_msgs _ _ Hinv m) as Hg. rewrite Es in Hg. destruct (Hg Hm) as [_ _ _ _ [Hv1|[_ Hsrc]]]; [lia|].
      rewrite forallb_forall in Eq. specialize (Eq m (proj1 (list_elem_of_In _ _) Hm)).
      rewrite (proj2 (Z.eqb_eq _ _)) in Eq by congruence. done. }
    rewrite decide_False by lia. apply Hgo0, Hgo.
    apply db_inv_move; rewrite ?Hlp, ?Es; cbn [fst snd log]; try done; try lia.
    + rewrite <- Es. apply (cells_local m0); rewrite ?Hlp; [done|done|intros; counts|].
      intros k lf Hk x a b. unfold x, a, b. rewrite Es. cbn [mem net]. rewrite Hz. intros [].
      split; intros; counts; auto.
    + intros r' Hr'. left. unfold entered. rewrite Hlp. cbn [fst snd]. lia.
    + by left.
  - (* leave *) rewrite one_exit in Eo. injection Eo as <-. injection Hex as <- <-.
    rewrite decide_True by done. apply Hgo0, Hgo.
    apply db_inv_move; rewrite ?Hlp, ?Es; cbn [fst snd log]; try done; try lia.
    + rewrite <- Es. apply (cells_local m0); rewrite ?Hlp; [done|done|intros; counts|].
      intros k lf Hk x0 a b []. split; intros; counts; auto.
    + intros y Hy. apply elem_of_app. by left.
    + intros r' Hr'. left. unfold entered. rewrite Hlp. cbn [fst snd]. lia.
    + intros q r' [Hq|Hq]%elem_of_app; [by left|]. apply list_elem_of_singleton in Hq.
      injection Hq as -> Hq. right. unfold exit_tag in Hq. split; [done|lia].
Qed.
(** ** Progress and the theorem *)

Abbreviation width := (3 + 3 * K)%nat.

Lemma db_next_some p l : p ∈ M -> (l.1 < R)%nat -> (l.2 <= 2 + 3 * K)%nat ->
  exists o f, one p l.1 !! l.2 = Some o /\ db_next p l = Some (o, f).
Proof.
  intros Hp HR HK. unfold db_next. rewrite decide_True by done.
  destruct (one p l.1 !! l.2) as [o|] eqn:E; [eauto|].
  apply lookup_ge_None in E. rewrite length_one in E. lia.
Qed.

Lemma db_progress m0 ls : db_inv m0 ls -> net (lst ls) = [] ->
  (forall pe, db_next pe (lab ls pe) = None /\ true = true) \/ exists ls', lstep db_next ls ls'.
Proof.
  intros Hinv Hnet.
  destruct (decide (Exists (fun p => (lab ls p).1 < R)%nat M)) as [HE|HE].
  2:{ left. intros p. split; [|done]. unfold db_next. rewrite decide_False; [done|]. intros [Hp Hr].
      apply HE, list.Exists_exists. eauto. }
  right. apply list.Exists_exists in HE as (p0 & Hp0 & Hlt0).
  destruct (list_argmin (fun p => Z.of_nat ((lab ls p).1 * width + (lab ls p).2)%nat)
              (fun p => (lab ls p).1 < R)%nat M p0 Hp0 Hlt0) as (p & Hp & HR & Hmin).
  destruct (d_lab _ _ Hinv p Hp) as ((_ & HK) & _).
  destruct (db_next_some p (lab ls p) Hp HR HK) as (o & f & Eo & En).
  assert (exists x s', op_exec p o (lst ls) = Some (x, s')) as (x & s' & Hex).
  { destruct (lab ls p) as [r v] eqn:Hlp. cbn [fst snd] in *.
    destruct (pos_cases v ltac:(lia)) as [|k Hk|k Hk|k Hk| |].
    - injection Eo as <-. simpl. eauto.
    - rewrite one_send in Eo by done. injection Eo as <-. simpl. eauto.
    - rewrite one_wait in Eo by done. injection Eo as <-. simpl.
      assert (mem (lst ls) p (slot k) <> 0) as Hnz; [|rewrite (proj2 (Z.eqb_neq _ _) Hnz); simpl; eauto].
      pose proof (d_cell _ _ Hinv p k Hp Hk) as [Hc _ _ _ _ _]. rewrite Hnet, Hlp in Hc. cbn in Hc.
      pose proof (Hfrom p k Hp) as Hq.
      assert (r + 1 <= sends k (lab ls (from p k)))%nat; [|counts].
      destruct (decide ((lab ls (from p k)).1 < R)%nat) as [Hq'|Hq'].
      + specialize (Hmin _ Hq Hq'). destruct (lab ls (from p k)) as [r' v'] eqn:E.
        cbn [fst snd] in *. destruct (d_lab _ _ Hinv _ Hq) as ((_ & HK') & _). rewrite E in HK'. cbn [snd] in HK'.
        assert (r' * width + v' >= r * width + (2 + 3 * k))%nat as Hge by lia.
        assert (r < r' \/ r = r' /\ 2 + 3 * k <= v')%nat as Hlex by nia. counts.
      + unfold sends. lia.
    - rewrite one_dec in Eo by done. injection Eo as <-. simpl. eauto.
    - rewrite one_quiet in Eo. injection Eo as <-. simpl. rewrite Hnet. simpl. eauto.
    - rewrite one_exit in Eo. injection Eo as <-. simpl. eauto. }
  eexists. by eapply lstep_pe.
Qed.

Definition db_dist (p : Z) (l : nat * nat) : nat := (R * width - (l.1 * width + l.2))%nat.

Lemma db_next_dist p l o f x : db_next p l = Some (o, f) -> p ∈ M /\ (db_dist p (f x) < db_dist p l)%nat.
Proof.
  unfold db_next, db_dist. destruct (decide _) as [[Hp HR]|]; [|done].
  destruct (one p l.1 !! l.2) eqn:E; [|done]. intros H. injection H as <- <-. split; [done|].
  apply lookup_lt_Some in E. rewrite length_one in E. destruct l as [r v]. cbn [fst snd] in *.
  assert (r * width + width <= R * width)%nat by nia.
  case_decide; cbn [fst snd]; nia.
Qed.

Lemma db_init m0 : (forall p k, p ∈ M -> (k < K)%nat -> m0 p (slot k) = 0) ->
  db_inv m0 (LW (fun _ => (0, 0)%nat) (init_state m0)).
Proof.
  intros H0. split; simpl; try done; try (intros; lia).
  - intros m ?%elem_of_nil; done.
  - intros p k Hp Hk. rewrite H0 by done. unfold cnt. split; simpl; intros; counts; try done.
  - intros p r ?%elem_of_nil; done.
Qed.

(** Every address is a slot or not one. *)
Lemma slot_or_not a : (exists k, (k < K)%nat /\ a = slot k) \/ forall k, (k < K)%nat -> a <> slot k.
Proof.
  destruct (decide (Exists (fun k => a = slot k) (seq 0 K))) as [HE|HE].
  - left. apply list.Exists_exists in HE as (k & Hk & ->). apply list_elem_of_In, in_seq in Hk.
    exists k. split; [lia|done].
  - right. intros k Hk ->. apply HE, list.Exists_exists. exists k. split; [|done].
    apply list_elem_of_In, in_seq. lia.
Qed.

(** A member that has left the last barrier finds its memory as it was. *)
Lemma db_restored m0 ls i a : (forall p k, p ∈ M -> (k < K)%nat -> m0 p (slot k) = 0) -> db_inv m0 ls ->
  (i, exit_tag (R - 1)) ∈ log (lst ls) -> mem (lst ls) i a = m0 i a.
Proof.
  intros H0 Hinv Hex. destruct (d_exit _ _ Hinv i _ Hex) as [Hi Hr].
  destruct (slot_or_not a) as [(k & Hk & ->)|Hn]; [|by apply (d_frame _ _ Hinv); right].
  rewrite (H0 i k Hi Hk). pose proof (d_cell _ _ Hinv i k Hi Hk) as [Hc Hnn Hm Hw _ _].
  destruct (d_lab _ _ Hinv i Hi) as ((H1 & H2) & H3).
  destruct (d_lab _ _ Hinv _ (Hfrom i k Hi)) as ((H4 & H5) & H6).
  destruct (decide (cnt (-1) i k (net (lst ls)) = 1%nat)) as [E|E]; [specialize (Hw E); lia|].
  counts.
Qed.

(** [R] successive calls by every member, with a mark before and after each call. *)
Definition repeated (body : prog unit) : prog unit :=
  for_ (seq 0 R) (fun r => mark (enter_tag r) ;; body ;; mark (exit_tag r)).
Definition repeated_job (body : Z -> prog unit) (m0 : Z -> lmem) : world :=
  World (fun p => if decide (p ∈ M) then repeated (body p) else skip) (init_state m0).

(** The specification of repeated barriers on one pSync of [K] slots. *)
Record repeated_spec (body : Z -> prog unit) (m0 : Z -> lmem) (bound : nat) : Prop := {
  repeated_completes : job_completes (repeated_job body m0) bound;
  repeated_safe : forall w i j r, rtc step (repeated_job body m0) w ->
    (i, exit_tag r) ∈ log (w_st w) -> j ∈ M -> (j, enter_tag r) ∈ log (w_st w);
  repeated_restored : forall w i a, rtc step (repeated_job body m0) w ->
    (i, exit_tag (R - 1)) ∈ log (w_st w) -> mem (w_st w) i a = m0 i a;
  repeated_slots : forall w p k, rtc step (repeated_job body m0) w -> p ∈ M -> (k < K)%nat ->
    0 <= mem (w_st w) p (slot k) < 3;
  repeated_clean : forall w, rtc step (repeated_job body m0) w -> all_returned w ->
    net (w_st w) = [] /\ forall p a, mem (w_st w) p a = m0 p a;
  repeated_frame : forall w p a, rtc step (repeated_job body m0) w -> p ∉ M -> mem (w_st w) p a = m0 p a }.

Lemma dissem_barrier_spec body m0 :
  (forall p, p ∈ M -> repeated (body p) = seqp (flat_map (one p) (seq 0 R))) ->
  (forall p k, p ∈ M -> (k < K)%nat -> m0 p (slot k) = 0) ->
  repeated_spec body m0 (3 * (length M * (R * width))).
Proof.
  intros Hbody H0. set (w0 := repeated_job body m0). set (ls0 := LW (fun _ => (0, 0)%nat) (init_state m0)).
  assert (refines db_pt w0 ls0) as Hr.
  { split; [|done]. intros p. simpl. unfold db_pt. cbn [fst snd].
    destruct (decide (p ∈ M)) as [Hp|Hp]; [|by rewrite decide_False by tauto].
    rewrite (Hbody p Hp). destruct (decide (p ∈ M /\ 0 < R)%nat) as [[_ HR]|HR].
    - rewrite decide_True by lia. destruct R; [lia|]. simpl. by rewrite Nat.sub_0_r.
    - apply not_and_l in HR as [|HR]; [done|]. by replace R with 0%nat by lia. }
  pose proof (db_init m0 H0) as Hi.
  assert (forall w, rtc step w0 w -> exists ls, refines db_pt w ls /\ db_inv m0 ls) as Hreach.
  { intros w Hw. apply (invariant_reachable _ _ (fun _ _ => true) db_pt_next _ _ _ _ Hr Hi (db_inv_step m0) Hw). }
  split.
  - pose proof (labels_complete db_pt db_next (fun _ _ => true) db_pt_next M db_dist HM db_next_dist
      (db_inv m0) w0 ls0 Hr Hi (db_inv_step m0) (db_progress m0)) as [Hb Hp].
    split; [|done]. intros n w Hn. specialize (Hb n w Hn).
    unfold lmeasure, remaining, net_weight, db_dist in Hb. cbn [lab lst ls0 fst snd] in Hb.
    change (net (init_state m0)) with (@nil msg) in Hb. cbn [map sum_list] in Hb.
    assert (sum_list (map (fun _ : Z => (R * width - (0 * width + 0))%nat) M) = (length M * (R * width))%nat) as E.
    { replace (R * width - (0 * width + 0))%nat with (R * width)%nat by lia.
      generalize (R * width)%nat. intros W. clear. induction M as [|? ? IH]; simpl; [done|]. by rewrite IH. }
    rewrite E in Hb. lia.
  - intros w i j r Hw Hex Hj. destruct (Hreach w Hw) as (ls & [_ Hs] & Hinv). rewrite Hs in *.
    destruct (d_exit _ _ Hinv i r Hex) as [Hi' Hlt].
    apply (d_enter _ _ Hinv j r Hj). by apply (completed_entered m0 ls i j r).
  - intros w i a Hw Hex. destruct (Hreach w Hw) as (ls & [_ Hs] & Hinv). rewrite Hs in *.
    by eapply db_restored.
  - intros w p k Hw Hp Hk. destruct (Hreach w Hw) as (ls & [_ Hs] & Hinv). rewrite Hs.
    pose proof (slot_bound m0 ls p k Hinv Hp Hk). lia.
  - intros w Hw Hret. destruct (Hreach w Hw) as (ls & Hrw & Hinv).
    pose proof Hrw as [_ Hs]. rewrite Hs.
    assert (forall p, p ∈ M -> lab ls p = (R, 0)%nat) as Hend.
    { intros p Hp. destruct (d_lab _ _ Hinv p Hp) as ((H1 & H2) & H3).
      pose proof (proj1 (proj1 (refines_returned db_pt db_next (fun _ _ => true) db_pt_next w ls p Hrw) (Hret p))) as Hnone.
      destruct (decide ((lab ls p).1 < R)%nat) as [Hlt|Hge].
      - destruct (db_next_some p (lab ls p) Hp Hlt H2) as (o & f & _ & E). congruence.
      - destruct (lab ls p) as [r v]. cbn [fst snd] in *. f_equal; [lia|]. apply H3. lia. }
    assert (forall p k, p ∈ M -> (k < K)%nat ->
      mem (lst ls) p (slot k) = 0 /\ cnt 1 p k (net (lst ls)) = 0%nat /\ cnt (-1) p k (net (lst ls)) = 0%nat) as Hz.
    { intros p k Hp Hk. pose proof (d_cell _ _ Hinv p k Hp Hk) as [Hc Hn Hm Hw' _ _].
      rewrite (Hend p Hp), (Hend _ (Hfrom p k Hp)) in *. unfold sends, decs in Hc. cbn [fst snd] in *.
      assert (cnt (-1) p k (net (lst ls)) <> 1%nat) by (intros E; specialize (Hw' E); lia).
      repeat case_decide; lia. }
    split.
    + destruct (net (lst ls)) as [|m n] eqn:En; [done|]. exfalso.
      destruct (d_msgs _ _ Hinv m) as [Hd _ _ (k & Hk & Ht) Hv]; [rewrite En; apply list_elem_of_here|].
      destruct (Hz (m_dst m) k Hd Hk) as (_ & H1 & H2). unfold cnt in *. simpl in H1, H2.
      unfold hits in H1 at 1, H2 at 1. rewrite Ht, !Z.eqb_refl in H1, H2. simpl in H1, H2.
      destruct Hv as [Hv|[Hv _]]; rewrite Hv in *; simpl in *; lia.
    + intros p a. destruct (decide (p ∈ M)) as [Hp|]; [|by apply (d_frame _ _ Hinv); left].
      destruct (slot_or_not a) as [(k & Hk & ->)|Hn]; [|by apply (d_frame _ _ Hinv); right].
      rewrite (H0 p k Hp Hk). by apply Hz.
  - intros w p a Hw Hp. destruct (Hreach w Hw) as (ls & [_ Hs] & Hinv). rewrite Hs. apply (d_frame _ _ Hinv). by left.
Qed.
End dissem.
