(* ===== verification/Barriers.v ===== *)
(** * The barriers of the library

    The tree barrier theorem applied to the two trees of [shmem_internal_sync_tree]
    and to the star of [shmem_internal_sync_linear], and the dispatch of
    [shmem_internal_sync]. *)

From Stdlib Require Import String.
From S2P Require Import Prelude Machine Straight Internal ReduceOp Comm Tree CollInit CollSync TreeBarrier DissemBarrier.
Local Open Scope string_scope.
Local Open Scope Z_scope.
Local Open Scope prog_scope.

(** ** The operations of the two algorithms *)

Lemma sync_tree_ops M root parent children rank pSync p :
  Tree M root parent children rank -> p ∈ M ->
  (p = root -> length (children p) <> 0%nat) ->
  marked (sync_tree_body p (parent p) (children p) pSync) = tb_pt M root parent children pSync false p 0.
Proof.
  intros HT Hp Hr. unfold tb_pt. rewrite decide_True by done.
  unfold marked, sync_tree_body. straighten.
  unfold tb_rest, tb_downs, wait_up, wait_down. simpl. f_equal.
  rewrite drop_0. rewrite !flat_map_singleton.
  destruct (decide (length (children p) = 0%nat)) as [E|E].
  - apply nil_length_inv in E. by rewrite E.
  - rewrite (proj2 (Z.eqb_neq (Z.of_nat (length (children p))) 0)) by lia. cbn [negb app]. f_equal.
    destruct (decide (p = root)) as [->|Hne].
    + rewrite (tree_root_parent (Tree:=HT)), Z.eqb_refl. done.
    + rewrite (proj2 (Z.eqb_neq _ _)); [done|].
      intros Heq. pose proof (tree_rank (Tree:=HT) p Hp Hne). rewrite Heq in *. lia.
Qed.

(** The star over an active set: the first member is the parent of every other. *)
Definition star_children (start stride size pe : Z) : list Z :=
  if decide (pe = start) then pe_loop (start + stride) stride (Z.to_nat (size - 1)) else [].

Lemma star_tree start stride size :
  1 <= stride -> 1 <= size ->
  Tree (active_set start stride size) start (fun _ => start) (star_children start stride size)
    (fun pe => if decide (pe = start) then 0 else 1).
Proof.
  intros Hst Hsz.
  assert (active_set start stride size = start :: pe_loop (start + stride) stride (Z.to_nat (size - 1))) as E.
  { unfold active_set. replace (Z.to_nat size) with (S (Z.to_nat (size - 1))) by lia. done. }
  pose proof (NoDup_active_set start stride size Hst) as Hnd. rewrite E in *.
  apply list.NoDup_cons in Hnd as [Hni Hnd]. unfold star_children. split.
  - apply list_elem_of_here.
  - done.
  - intros. apply list_elem_of_here.
  - intros p c _ Hc. case_decide; [by apply list_elem_of_further|by apply elem_of_nil in Hc].
  - intros p c _ Hc. case_decide as Hp.
    + apply elem_of_cons in Hc. split.
      * intros Hc'. split; [by intros ->|done].
      * by intros [? _]; destruct Hc.
    + split; [by intros ?%elem_of_nil|]. intros [_ ?]. congruence.
  - intros p _. case_decide; [done|constructor].
  - intros c _ Hne. rewrite decide_True by done. rewrite decide_False by done. lia.
Qed.

Lemma length_star start stride size : length (star_children start stride size start) = Z.to_nat (size - 1).
Proof.
  unfold star_children. rewrite decide_True by done.
  rewrite pe_loop_map, length_map, length_upto. lia.
Qed.

Lemma sync_linear_ops e start stride size pSync :
  let p := shmem_internal_my_pe e in
  1 <= stride -> 2 <= size -> p ∈ active_set start stride size ->
  marked (shmem_internal_sync_linear e start stride size pSync) =
  tb_pt (active_set start stride size) start (fun _ => start) (star_children start stride size) pSync true p 0.
Proof.
  intros p Hst Hsz Hp. unfold tb_pt. rewrite decide_True by done.
  unfold marked, shmem_internal_sync_linear. straighten.
  unfold tb_rest, tb_downs, wait_up, wait_down. simpl. f_equal.
  rewrite drop_0, flat_map_singleton. fold p.
  destruct (decide (p = start)) as [E|Hne].
  - rewrite E, Z.eqb_refl, length_star. rewrite decide_False by lia. cbn [app].
    rewrite Z2Nat.id by lia. unfold star_children. rewrite decide_True by done. done.
  - rewrite (proj2 (Z.eqb_neq _ _)) by congruence.
    unfold star_children. rewrite !(decide_False (P:=p = start)) by done. done.
Qed.

(** ** The rounds of the dissemination barrier *)

Lemma dissem_rounds_eq fuel i n : n <= 2 ^ 30 ->
  let l := dissem_rounds fuel (Z.of_nat i) (2 ^ Z.of_nat i) n in
  l = map (fun k => (Z.of_nat k, 2 ^ Z.of_nat k)) (seq i (length l)) /\
  (n <= 2 ^ (Z.of_nat (i + fuel)) -> n <= 2 ^ Z.of_nat (i + length l)).
Proof.
  intros Hn30. revert i. induction fuel as [|fuel IH]; intros i; simpl; [done|].
  destruct (2 ^ Z.of_nat i <? n) eqn:E.
  - apply Z.ltb_lt in E. rewrite i32_id by lia.
    replace (Z.of_nat i + 1) with (Z.of_nat (S i)) by lia.
    replace (2 * 2 ^ Z.of_nat i) with (2 ^ Z.of_nat (S i)) by (rewrite Nat2Z.inj_succ, Z.pow_succ_r; lia).
    destruct (IH (S i)) as [H1 H2]. simpl. split; [by rewrite <- H1|].
    replace (i + S fuel)%nat with (S i + fuel)%nat by lia.
    replace (i + S _)%nat with (S i + length (dissem_rounds fuel (Z.of_nat (S i)) (2 ^ Z.of_nat (S i)) n))%nat by lia. done.
  - apply Z.ltb_ge in E. simpl. rewrite Nat.add_0_r. done.
Qed.

(** The number of rounds among [n] PEs. *)
Definition dissem_K (n : Z) : nat := length (dissem_rounds 31 0 1 n).

Lemma dissem_rounds_map n : n <= 2 ^ 30 -> dissem_rounds 31 0 1 n = map (fun k => (Z.of_nat k, 2 ^ Z.of_nat k)) (seq 0 (dissem_K n)).
Proof. apply (dissem_rounds_eq 31 0 n). Qed.

Lemma dissem_K_enough n : n <= 2 ^ 30 -> n <= 2 ^ Z.of_nat (dissem_K n).
Proof.
  intros H. pose proof (dissem_rounds_eq 31 0 n H) as [_ Hn]. cbv zeta in Hn. simpl Z.of_nat in Hn at 1.
  rewrite !Nat.add_0_l in Hn. apply Hn. lia.
Qed.

Lemma dissem_K_lt n k : n <= 2 ^ 30 -> (k < dissem_K n)%nat -> 2 ^ Z.of_nat k < n.
Proof.
  intros Hn Hk. assert (forall f i d p, p ∈ dissem_rounds f i d n -> p.2 < n) as Hlt.
  { clear. induction f as [|f IH]; intros i d p; simpl; [by intros ?%elem_of_nil|].
    destruct (d <? n) eqn:E; [|by intros ?%elem_of_nil].
    intros [->|Hp]%elem_of_cons; [by apply Z.ltb_lt in E|by eapply IH]. }
  apply (Hlt 31%nat 0 1 (Z.of_nat k, 2 ^ Z.of_nat k)). rewrite dissem_rounds_map by done.
  apply list_elem_of_In, in_map_iff. exists k. split; [done|]. apply in_seq. lia.
Qed.

Section dissem_partners.
Context (start stride size : Z) (Hstride : 1 <= stride) (Hsize : 1 <= size <= 2 ^ 30).
Let M := active_set start stride size.
Let rank pe := cdiv (pe - start) stride.

Definition dissem_to (pe : Z) (k : nat) : Z :=
  start + cmod (rank pe + 2 ^ Z.of_nat k) size * stride.
Definition dissem_from (pe : Z) (k : nat) : Z :=
  start + ((rank pe - 2 ^ Z.of_nat k) mod size) * stride.

Lemma rank_pe i : 0 <= i -> rank (start + i * stride) = i.
Proof.
  intros Hi. unfold rank. replace (start + i * stride - start) with (i * stride) by lia.
  rewrite cdiv_nonneg by nia. apply Z.div_mul. lia.
Qed.

Lemma member_rank p : p ∈ M -> 0 <= rank p < size /\ p = start + rank p * stride.
Proof. intros (i & Hi & ->)%elem_of_active_set. rewrite rank_pe by lia. done. Qed.

Lemma member_mod i : start + (i mod size) * stride ∈ M.
Proof. apply elem_of_active_set. exists (i mod size). split; [|done]. apply Z.mod_pos_bound. lia. Qed.

Lemma rank_mod i : rank (start + (i mod size) * stride) = i mod size.
Proof. apply rank_pe. apply Z.mod_pos_bound. lia. Qed.

Lemma dissem_to_mod p k : p ∈ M -> dissem_to p k = start + ((rank p + 2 ^ Z.of_nat k) mod size) * stride.
Proof. intros [Hr _]%member_rank. unfold dissem_to. by rewrite cmod_nonneg by lia. Qed.

Lemma dissem_from_to p k : p ∈ M -> dissem_from (dissem_to p k) k = p.
Proof.
  intros Hp. destruct (member_rank p Hp) as [Hr E]. rewrite dissem_to_mod by done.
  unfold dissem_from. rewrite rank_mod, Zminus_mod_idemp_l.
  replace (rank p + 2 ^ Z.of_nat k - 2 ^ Z.of_nat k) with (rank p) by lia. by rewrite Z.mod_small.
Qed.

Lemma dissem_to_from p k : p ∈ M -> dissem_to (dissem_from p k) k = p.
Proof.
  intros Hp. destruct (member_rank p Hp) as [Hr E]. rewrite dissem_to_mod by apply member_mod.
  unfold dissem_from. rewrite rank_mod, Zplus_mod_idemp_l.
  replace (rank p - 2 ^ Z.of_nat k + 2 ^ Z.of_nat k) with (rank p) by lia. by rewrite Z.mod_small.
Qed.

Lemma heard_distance k : forall p d, p ∈ M -> 0 <= d < 2 ^ Z.of_nat k ->
  heard dissem_from k p (start + ((rank p - d) mod size) * stride).
Proof.
  induction k as [|k IH]; intros p d Hp Hd.
  - assert (d = 0) as -> by (simpl in Hd; lia). destruct (member_rank p Hp) as [Hr E].
    simpl. rewrite Z.sub_0_r, Z.mod_small by done. done.
  - rewrite Nat2Z.inj_succ, Z.pow_succ_r in Hd by lia. simpl.
    destruct (decide (d < 2 ^ Z.of_nat k)); [left; apply IH; [done|lia]|right].
    specialize (IH (dissem_from p k) (d - 2 ^ Z.of_nat k) (member_mod _) ltac:(lia)).
    assert (rank (dissem_from p k) = (rank p - 2 ^ Z.of_nat k) mod size) as Er by apply rank_mod.
    rewrite Er, Zminus_mod_idemp_l in IH.
    by replace (rank p - 2 ^ Z.of_nat k - (d - 2 ^ Z.of_nat k)) with (rank p - d) in IH by lia.
Qed.

(** After all the rounds every member has been heard of. *)
Lemma dissem_cover p q : p ∈ M -> q ∈ M -> heard dissem_from (dissem_K size) p q.
Proof.
  intros Hp Hq. destruct (member_rank q Hq) as [Hr E].
  pose proof (heard_distance (dissem_K size) p ((rank p - rank q) mod size) Hp) as H.
  rewrite Zminus_mod_idemp_r in H. replace (rank p - (rank p - rank q)) with (rank q) in H by lia.
  rewrite (Z.mod_small (rank q)) in H by done. rewrite <- E in H. apply H.
  pose proof (dissem_K_enough size). pose proof (Z.mod_pos_bound (rank p - rank q) size). lia.
Qed.

Definition dissem_slot (pSync : Z) (k : nat) : Z := pSync + SIZEOF_INT * Z.of_nat k.

(** In every round the [int] sum of the rank and the distance is exact. *)
Lemma dissem_to_int p k : p ∈ M -> (k < dissem_K size)%nat ->
  start + cmod (i32 (rank p + 2 ^ Z.of_nat k)) size * stride = dissem_to p k.
Proof.
  intros [Hr _]%member_rank Hk. unfold dissem_to. rewrite i32_id; [done|].
  pose proof (dissem_K_lt size k ltac:(lia) Hk). lia.
Qed.

Lemma sync_dissem_eq e pSync : shmem_internal_my_pe e ∈ M ->
  shmem_internal_sync_dissem e start stride size pSync =
  (for_ (seq 0 (dissem_K size)) (fun k =>
     let slot := dissem_slot pSync k in
     shmem_internal_atomic slot 1 (dissem_to (shmem_internal_my_pe e) k) (i32_calc SHM_INTERNAL_SUM) ;;
     SHMEM_WAIT_UNTIL slot SHMEM_CMP_NE 0 ;;
     shmem_internal_atomic slot (-1) (shmem_internal_my_pe e) (i32_calc SHM_INTERNAL_SUM)) ;;
   shmem_internal_quiet).
Proof.
  intros Hp. unfold shmem_internal_sync_dissem. rewrite dissem_rounds_map, for_map by lia.
  f_equal. apply for_ext. intros k Hk%elem_of_seq.
  pose proof (dissem_to_int _ k Hp ltac:(lia)) as E. unfold rank in E. by rewrite <- E.
Qed.

Lemma sync_dissem_ops e pSync R : shmem_internal_my_pe e ∈ M ->
  repeated R (shmem_internal_sync_dissem e start stride size pSync) =
  seqp (flat_map (one (dissem_K size) dissem_to (dissem_slot pSync) (shmem_internal_my_pe e)) (seq 0 R)).
Proof.
  intros Hp. unfold repeated. rewrite (sync_dissem_eq e pSync Hp). cbv zeta.
  straighten. apply flat_map_ext. intros r. unfold one. simpl. by rewrite <- app_assoc.
Qed.

Lemma sync_dissem_repeated (envs : Z -> env) pSync R m0 :
  (forall p, shmem_internal_my_pe (envs p) = p) ->
  (forall p k, p ∈ M -> (k < dissem_K size)%nat -> m0 p (dissem_slot pSync k) = 0) ->
  repeated_spec M (dissem_K size) R (dissem_slot pSync)
    (fun p => shmem_internal_sync_dissem (envs p) start stride size pSync) m0
    (3 * (Z.to_nat size * (R * (3 + 3 * dissem_K size)))).
Proof.
  intros He H0.
  assert (length M = Z.to_nat size) as <-.
  { unfold M, active_set. rewrite pe_loop_map, length_map, length_upto. lia. }
  apply (dissem_barrier_spec M (NoDup_active_set _ _ _ Hstride) (dissem_K size) R dissem_to dissem_from).
  - intros p k Hp. rewrite dissem_to_mod by done. apply member_mod.
  - intros p k _. apply member_mod.
  - intros p k. apply dissem_from_to.
  - intros p k. apply dissem_to_from.
  - unfold dissem_slot, SIZEOF_INT. intros. lia.
  - apply dissem_cover.
  - intros p Hp. rewrite sync_dissem_ops by (by rewrite He). by rewrite He.
  - done.
Qed.
End dissem_partners.

(** ** [shmem_internal_sync] *)

Section sync.
(** A job of [num_pes] PEs whose collectives were initialized with [params]. *)
Context (params : coll_params) (num_pes : Z).
Context (Hradix : 2 <= p_COLL_RADIX params /\ p_COLL_RADIX params * num_pes < 2 ^ 31).
Context (Hnum : 1 <= num_pes < 2 ^ 31).
Context (start stride size pSync : Z).
Context (Hstride : 1 <= stride) (Hsize : 2 <= size <= num_pes).
Context (Hset : 0 <= start /\ start + (size - 1) * stride < num_pes).

Let e := coll_env params num_pes.
Let M := active_set start stride size.

Lemma size_small : size <= 2 ^ 30.
Proof. assert (2 * num_pes <= p_COLL_RADIX params * num_pes) by nia. lia. Qed.

Lemma e_pe p : shmem_internal_my_pe (e p) = p.
Proof. unfold e, coll_env. by destruct (default _ _). Qed.
Lemma e_num p : shmem_internal_num_pes (e p) = num_pes.
Proof. unfold e, coll_env. by destruct (default _ _). Qed.
Lemma e_radix p : tree_radix (e p) = p_COLL_RADIX params.
Proof. unfold e, coll_env. by destruct (default _ _). Qed.
Lemma e_full p : (full_tree_parent (e p), full_tree_children (e p)) = full_tree num_pes (p_COLL_RADIX params) p.
Proof. unfold e, coll_env, full_tree. by destruct (default _ _). Qed.

(** The tree [sync_tree] uses, and its rank function. *)
Lemma coll_tree_is_tree root : 0 <= root < size ->
  exists rank, Tree M (start + root * stride)
    (fun p => (coll_tree (e p) ((size =? num_pes) && (root =? 0)) start stride size root).1)
    (fun p => (coll_tree (e p) ((size =? num_pes) && (root =? 0)) start stride size root).2) rank.
Proof.
  intros Hr. unfold coll_tree.
  destruct ((size =? num_pes) && (root =? 0)) eqn:E.
  - apply andb_true_iff in E as [->%Z.eqb_eq ->%Z.eqb_eq]. exists (fun p => p).
    assert (start = 0) as -> by nia.
    assert (M = active_set 0 1 num_pes) as ->.
    { unfold M. destruct (decide (stride = 1)) as [->|]; [done|]. exfalso. nia. }
    pose proof (full_tree_is_tree num_pes (p_COLL_RADIX params) ltac:(lia) (proj1 Hradix) (proj2 Hradix)) as HT.
    replace (0 + 0 * stride) with 0 by lia.
    destruct HT as [H1 H2 H3 H4 H5 H6 H7].
    pose proof (fun p => f_equal fst (e_full p)) as Ep. pose proof (fun p => f_equal snd (e_full p)) as Ec.
    simpl in Ep, Ec. split; intros *; simpl; rewrite ?Ep, ?Ec; eauto.
  - exists (kary_id start stride size root).
    assert (p_COLL_RADIX params * size <= p_COLL_RADIX params * num_pes) as Hle
      by (apply Z.mul_le_mono_nonneg_l; lia).
    pose proof (kary_tree (p_COLL_RADIX params) start stride size root (proj1 Hradix) Hstride Hr ltac:(lia) ltac:(lia)) as HT.
    destruct HT as [H1 H2 H3 H4 H5 H6 H7].
    split; intros *; rewrite ?e_pe, ?e_radix; eauto.
Qed.

Lemma length_M : length M = Z.to_nat size.
Proof. unfold M, active_set. rewrite pe_loop_map, length_map, length_upto. lia. Qed.

(** A barrier over a tree of the [size] members: any bodies that perform its operations. *)
Lemma any_tree_barrier put_acks parent children rank body m0 :
  Tree M start parent children rank ->
  (put_acks = true -> forall p, p ∈ M -> p <> start -> children p = []) ->
  (forall p, p ∈ M -> marked (body p) = tb_pt M start parent children pSync put_acks p 0) ->
  (forall p, p ∈ M -> m0 p pSync = 0) ->
  barrier_spec M body m0 (27 * Z.to_nat size).
Proof.
  intros HT Hflat Hbody H0. pose proof (NoDup_active_set start stride size Hstride) as HM.
  assert (length (children start) <> 0%nat) as Hroot.
  { assert (children start <> []) as Hne.
    { apply (tree_root_child _ _ _ _ _ HT (start + 1 * stride)); [|nia].
      apply elem_of_active_set. exists 1. lia. }
    intros E. by apply Hne, nil_length_inv. }
  assert (forall p, p ∈ M -> Z.of_nat (length (children p)) + 1 < 2 ^ 63) as Hbig.
  { intros p Hp. pose proof (tree_degree _ _ _ _ _ HT p HM Hp) as Hd. rewrite length_M in Hd. lia. }
  pose proof (tree_barrier_spec M start parent children rank HT HM pSync put_acks Hflat Hroot Hbig
                body m0 Hbody H0) as [[Hb Hp] Hsafe Hres Hclean].
  split; [|done..]. split; [|done].
  intros n w Hn. specialize (Hb n w Hn). rewrite sum_list_add in Hb.
  rewrite sum_length_bind in Hb. pose proof (tree_children_count _ _ _ _ _ HT HM) as Hc.
  fold M in Hc, Hb. change (sum_list (map (fun _ : Z => 8%nat) M)) with (sum_list (map (fun _ : Z => 8%nat) M)) in Hb.
  assert (sum_list (map (fun _ : Z => 8%nat) M) = (8 * length M)%nat) as E8.
  { clear. induction M; simpl; lia. }
  rewrite E8, length_M in Hb. rewrite length_M in Hc. lia.
Qed.

Lemma sync_linear_barrier m0 : (forall p, p ∈ M -> m0 p pSync = 0) ->
  barrier_spec M (fun p => shmem_internal_sync_linear (e p) start stride size pSync) m0 (27 * Z.to_nat size).
Proof.
  intros H0. eapply (any_tree_barrier true); [apply star_tree; lia| | |done].
  - intros _ p _ Hp. unfold star_children. by rewrite decide_False.
  - intros p Hp. rewrite sync_linear_ops by (rewrite ?e_pe; done || lia). by rewrite e_pe.
Qed.

Lemma sync_tree_barrier m0 : (forall p, p ∈ M -> m0 p pSync = 0) ->
  barrier_spec M (fun p => shmem_internal_sync_tree (e p) start stride size pSync) m0 (27 * Z.to_nat size).
Proof.
  intros H0. destruct (coll_tree_is_tree 0) as [rank HT]; [lia|].
  replace (start + 0 * stride) with start in HT by lia.
  eapply (any_tree_barrier false); [exact HT|done| |done].
  intros p Hp. unfold shmem_internal_sync_tree. rewrite e_num, e_pe.
  rewrite Z.eqb_refl, andb_true_r in HT. rewrite Z.eqb_refl, andb_true_r.
  destruct (coll_tree (e p) (size =? num_pes) start stride size 0) as [par ch] eqn:E.
  rewrite <- (sync_tree_ops _ _ _ _ _ pSync p HT Hp).
  - by rewrite E.
  - intros ->. assert (start + 1 * stride ∈ M) as H1 by (apply elem_of_active_set; exists 1; lia).
    pose proof (tree_root_child _ _ _ _ _ HT (start + 1 * stride) H1 ltac:(nia)) as Hne.
    intros E'. by apply Hne, nil_length_inv.
Qed.
(** One call of the dissemination barrier. *)
Lemma sync_dissem_barrier m0 :
  (forall p k, p ∈ M -> (k < dissem_K size)%nat -> m0 p (dissem_slot pSync k) = 0) ->
  barrier_spec M (fun p => shmem_internal_sync_dissem (e p) start stride size pSync) m0
    (9 * (Z.to_nat size * (1 + dissem_K size))).
Proof.
  intros H0.
  pose proof size_small. pose proof (sync_dissem_repeated start stride size Hstride ltac:(lia) e pSync 1 m0 e_pe H0) as [Hc Hs Hre _ Hcl Hfr].
  assert (repeated_job M 1 (fun p => shmem_internal_sync_dissem (e p) start stride size pSync) m0 =
          barrier_job M (fun p => shmem_internal_sync_dissem (e p) start stride size pSync) m0) as E.
  { unfold repeated_job, barrier_job. f_equal. extensionality p. unfold job_prog.
    destruct (decide (p ∈ M)); [|done]. unfold repeated. cbn [seq for_]. by rewrite pbind_skip. }
  fold M in Hc, Hs, Hre, Hcl, Hfr. rewrite E in Hc. setoid_rewrite E in Hs. setoid_rewrite E in Hre. setoid_rewrite E in Hcl.
  setoid_rewrite E in Hfr.
  split; [|intros w i j Hw; apply (Hs w i j 0%nat Hw)|done|done|done].
  destruct Hc as [Hb Hp]. split; [|done]. intros n w Hn. specialize (Hb n w Hn). lia.
Qed.

(** The steps a call takes at most. *)
Definition sync_bound (t : coll_type_t) : nat :=
  match t with
  | DISSEM => 9 * (Z.to_nat size * (1 + dissem_K size))
  | _ => 27 * Z.to_nat size
  end.

(** The pSync slots an algorithm uses, all zero before the call. *)
Definition sync_ready (t : coll_type_t) (m0 : Z -> lmem) : Prop :=
  match t with
  | DISSEM => forall p k, p ∈ M -> (k < dissem_K size)%nat -> m0 p (dissem_slot pSync k) = 0
  | _ => forall p, p ∈ M -> m0 p pSync = 0
  end.

Lemma sync_many_barrier t m0 :
  select barrier_type_of (p_BARRIER_ALGORITHM params) = t -> sync_ready t m0 ->
  barrier_spec M (fun p => shmem_internal_sync (e p) start stride size pSync) m0 (sync_bound t).
Proof.
  intros Ht H0.
  assert (forall p, shmem_internal_barrier_type (e p) = t) as Het.
  { intros p. rewrite <- Ht. unfold e, coll_env. by destruct (default _ _). }
  assert (forall p, COLL_CROSSOVER (e p) = p_COLL_CROSSOVER params) as Hco.
  { intros p. unfold e, coll_env. by destruct (default _ _). }
  assert (size <> 1) as H1%Z.eqb_neq by lia.
  assert ((fun p => shmem_internal_sync (e p) start stride size pSync) =
    (fun p => match t with
              | AUTO => if size <? p_COLL_CROSSOVER params
                        then shmem_internal_sync_linear (e p) start stride size pSync
                        else shmem_internal_sync_tree (e p) start stride size pSync
              | LINEAR => shmem_internal_sync_linear (e p) start stride size pSync
              | TREE => shmem_internal_sync_tree (e p) start stride size pSync
              | DISSEM => shmem_internal_sync_dissem (e p) start stride size pSync
              | _ => Raise
              end)) as ->.
  { extensionality p. unfold shmem_internal_sync. by rewrite H1, Het, Hco. }
  unfold sync_bound. destruct t.
  - destruct (size <? p_COLL_CROSSOVER params); [by apply sync_linear_barrier|by apply sync_tree_barrier].
  - by apply sync_linear_barrier.
  - by apply sync_tree_barrier.
  - by apply sync_dissem_barrier.
  - exfalso. clear -Ht. unfold select, barrier_type_of in Ht. repeat case_match; simplify_eq/=.
  - exfalso. clear -Ht. unfold select, barrier_type_of in Ht. repeat case_match; simplify_eq/=.
Qed.
End sync.

(** [shmem_internal_sync] over any active set of a job. *)
Lemma sync_is_barrier params num_pes start stride size pSync t m0 :
  active_set_ok params num_pes start stride size ->
  select barrier_type_of (p_BARRIER_ALGORITHM params) = t -> sync_ready start stride size pSync t m0 ->
  barrier_spec (active_set start stride size)
    (fun p => shmem_internal_sync (coll_env params num_pes p) start stride size pSync) m0 (sync_bound size t).
Proof.
  intros [Hr Hn Hst Hsz Hset] Ht H0. destruct (decide (size = 1)) as [->|Hne].
  - apply (barrier_spec_weaken _ _ _ 6); [destruct t; simpl; lia|].
    apply (barrier_spec_ext _ (fun _ => skip)); [done|]. apply solo_barrier.
  - apply sync_many_barrier; done || lia.
Qed.

(** C1: Whatever algorithm the barrier variable selects, and whatever the order in which
    the PEs run and the transport delivers, [shmem_internal_sync] over an active set
    of any size is a barrier: within a bound linear in the set (times the number
    of rounds for the dissemination algorithm) it returns on every member, nobody leaves
    before everybody has entered, and it leaves no message in flight and the memory, the
    pSync included, as it found it; other PEs' memory never changes. *)
Theorem sync_barrier params num_pes start stride size pSync t m0 :
  active_set_ok params num_pes start stride size ->
  select barrier_type_of (p_BARRIER_ALGORITHM params) = t -> sync_ready start stride size pSync t m0 ->
  barrier_spec (active_set start stride size)
    (fun p => shmem_internal_sync (coll_env params num_pes p) start stride size pSync) m0 (sync_bound size t).
Proof. apply sync_is_barrier. Qed.

(** A job of 16 PEs with the given barrier variable and a tree radix of 4. *)
Definition sample_params (barrier : string) : coll_params :=
  CollParams 4 16384 4 (Some barrier) None None None None.

Lemma sync_barrier_witness :
  barrier_spec (active_set 1 2 6)
    (fun p => shmem_internal_sync (coll_env (sample_params "tree") 16 p) 1 2 6 64)
    (fun _ _ => 0) (27 * 6)
  /\ barrier_spec (active_set 1 2 6)
    (fun p => shmem_internal_sync (coll_env (sample_params "dissem") 16 p) 1 2 6 64)
    (fun _ _ => 0) (9 * (6 * (1 + 3))).
Proof.
  split.
  - apply (sync_barrier (sample_params "tree") 16 1 2 6 64
             TREE); [by split; simpl; lia|reflexivity|done].
  - apply (sync_barrier (sample_params "dissem") 16 1 2 6 64
             DISSEM); [by split; simpl; lia|reflexivity|done].
Defined.

(** C20: The dissemination barrier of up to [2 ^ 30] PEs can be called over and over on one pSync with nothing
    between the calls, which is what [shmem_barrier_all] does with its own pSync: in every
    one of [R] successive calls nobody leaves before everybody has entered that call,
    although the counters of two calls overlap; a slot then never exceeds 2, so its
    [int] never wraps, and after the last call every slot is zero again. *)
Theorem sync_dissem_reusable (params : coll_params) (num_pes start stride size pSync : Z) (R : nat)
    (m0 : Z -> lmem) :
  1 <= stride -> 1 <= size <= 2 ^ 30 ->
  (forall p k, p ∈ active_set start stride size -> (k < dissem_K size)%nat ->
     m0 p (dissem_slot pSync k) = 0) ->
  repeated_spec (active_set start stride size) (dissem_K size) R (dissem_slot pSync)
    (fun p => shmem_internal_sync_dissem (coll_env params num_pes p) start stride size pSync) m0
    (3 * (Z.to_nat size * (R * (3 + 3 * dissem_K size)))).
Proof.
  intros Hs Hn H0. apply sync_dissem_repeated; [done|done| |done].
  intros p. apply e_pe.
Qed.

Lemma sync_dissem_reusable_witness :
  repeated_spec (active_set 0 1 5) 3 10 (dissem_slot 64)
    (fun p => shmem_internal_sync_dissem (coll_env (sample_params "dissem") 5 p) 0 1 5 64)
    (fun _ _ => 0) (3 * (5 * (10 * 12))).
Proof.
  apply (sync_dissem_reusable (sample_params "dissem") 5 0 1 5 64 10); [lia|lia|done].
Defined.
