(* ===== verification/Bcast.v ===== *)
(** * Broadcast ([collectives.c], [shmem_collectives.h])

    The linear and tree broadcasts and the dispatch of [shmem_internal_bcast]. *)

From S2P Require Import Prelude Machine Straight Internal ReduceOp Comm Tree CollSync.
Local Open Scope Z_scope.
Local Open Scope prog_scope.

(** Visit every member but this PE. *)
Definition others (my_pe PE_start PE_stride PE_size : Z) (body : Z -> prog unit) : prog unit :=
  for_ (active_set PE_start PE_stride PE_size) (fun pe => when (negb (pe =? my_pe)) (body pe)).

(** [put_scalar(pSync, &zero, my_pe); SHMEM_WAIT_UNTIL(pSync, EQ, 0)] *)
Definition clear_psync (pSync my_pe : Z) : prog unit :=
  shmem_internal_put_scalar pSync 0 my_pe ;;
  SHMEM_WAIT_UNTIL pSync SHMEM_CMP_EQ 0.

Definition shmem_internal_bcast_linear (e : env) (target source len PE_root PE_start PE_stride PE_size pSync : Z)
    (complete : bool) : prog unit :=
  let my_pe := shmem_internal_my_pe e in
  let real_root := PE_start + PE_root * PE_stride in
  if (PE_size =? 1) || (len =? 0) then skip
  else if real_root =? my_pe then
    (* send data to all peers *)
    others my_pe PE_start PE_stride PE_size (fun pe => shmem_internal_put_nb target source len pe) ;;
    shmem_internal_put_wait ;;
    shmem_internal_fence ;;
    (* send completion ack to all peers *)
    others my_pe PE_start PE_stride PE_size (fun pe => shmem_internal_put_scalar pSync 1 pe) ;;
    when complete
      ( (* wait for acks from everyone *)
       SHMEM_WAIT_UNTIL pSync SHMEM_CMP_EQ (PE_size - 1) ;;
       (* Clear pSync *)
       clear_psync pSync my_pe)
  else
    (* wait for data arrival message *)
    SHMEM_WAIT pSync 0 ;;
    (* Clear pSync *)
    clear_psync pSync my_pe ;;
    (* send ack back to root *)
    when complete (shmem_internal_atomic pSync 1 real_root (long_calc SHM_INTERNAL_SUM)).

(** The body of [bcast_tree] once the tree is known. *)
Definition bcast_tree_body (my_pe parent : Z) (children : list Z) (target source len pSync : Z)
    (complete : bool) : prog unit :=
  let num_children := Z.of_nat (length children) in
  if negb (num_children =? 0) then
    let send_buf := if negb (parent =? my_pe) then target else source in
    when (negb (parent =? my_pe))
      ( (* wait for data arrival message if not the root *)
       SHMEM_WAIT pSync 0 ;;
       (* if complete, send ack *)
       when complete (shmem_internal_atomic pSync 1 parent (long_calc SHM_INTERNAL_SUM))) ;;
    (* send data to all leaves *)
    for_ children (fun c => shmem_internal_put_nb target send_buf len c) ;;
    shmem_internal_put_wait ;;
    shmem_internal_fence ;;
    (* send completion ack to all peers *)
    for_ children (fun c => shmem_internal_put_scalar pSync 1 c) ;;
    (* wait for acks from everyone *)
    when complete
      (SHMEM_WAIT_UNTIL pSync SHMEM_CMP_EQ (num_children + (if parent =? my_pe then 0 else 1))) ;;
    (* Clear pSync *)
    clear_psync pSync my_pe
  else
    (* wait for data arrival message *)
    SHMEM_WAIT pSync 0 ;;
    (* if complete, send ack *)
    when complete (shmem_internal_atomic pSync 1 parent (long_calc SHM_INTERNAL_SUM)) ;;
    (* Clear pSync *)
    clear_psync pSync my_pe.

Definition shmem_internal_bcast_tree (e : env) (target source len PE_root PE_start PE_stride PE_size pSync : Z)
    (complete : bool) : prog unit :=
  if (PE_size =? 1) || (len =? 0) then skip
  else
    let '(parent, children) :=
      coll_tree e ((PE_size =? shmem_internal_num_pes e) && (0 =? PE_root)) PE_start PE_stride PE_size PE_root in
    bcast_tree_body (shmem_internal_my_pe e) parent children target source len pSync complete.

Definition shmem_internal_bcast (e : env) (target source len PE_root PE_start PE_stride PE_size pSync : Z)
    (complete : bool) : prog unit :=
  match shmem_internal_bcast_type e with
  | AUTO => if PE_size <? COLL_CROSSOVER e
            then shmem_internal_bcast_linear e target source len PE_root PE_start PE_stride PE_size pSync complete
            else shmem_internal_bcast_tree e target source len PE_root PE_start PE_stride PE_size pSync complete
  | LINEAR => shmem_internal_bcast_linear e target source len PE_root PE_start PE_stride PE_size pSync complete
  | TREE => shmem_internal_bcast_tree e target source len PE_root PE_start PE_stride PE_size pSync complete
  | _ => Raise
  end.
