(* ===== verification/Reduce.v ===== *)
(** * Reductions ([collectives.c], [shmem_collectives.h])

    The four reduction algorithms and the dispatch of [shmem_internal_op_to_all].
    Whether the transport has an atomic for an operator and datatype, the arithmetic
    of the floating-point types and the address [malloc] answers are parameters. *)

From S2P Require Import Prelude Machine Straight Internal ReduceOp Comm Tree CollSync Bcast.
Local Open Scope Z_scope.
Local Open Scope prog_scope.

(** ** The chunks of the ring *)

(** Chunk [id] of [count] elements over [npes] PEs: the element count and the byte
    displacement, the extra elements going to the first chunks. *)
Definition chunk_extra (id count npes : Z) : bool := id <? cmod count npes.
Definition chunk_count (id count npes : Z) : Z :=
  cdiv count npes + (if chunk_extra id count npes then 1 else 0).
Definition chunk_disp (id count npes type_size : Z) : Z :=
  if chunk_extra id count npes
  then id * chunk_count id count npes * type_size
  else (id * chunk_count id count npes + cmod count npes) * type_size.

(** The chunks a PE receives and sends in step [i] of the reduce-scatter, and the one it
    sends in step [i] of the all-gather. *)
Definition rs_chunk_in (group_rank i PE_size : Z) : Z := cmod (group_rank - i - 1 + PE_size) PE_size.
Definition rs_chunk_out (group_rank i PE_size : Z) : Z := cmod (group_rank - i + PE_size) PE_size.
Definition ag_chunk_out (group_rank i PE_size : Z) : Z := cmod (group_rank + 1 - i + PE_size) PE_size.
(** The rank of the right neighbour. *)
Definition ring_peer (group_rank PE_size : Z) : Z := cmod (group_rank + 1) PE_size.

(** [while (i != 1) { i >>= 1; pow2_proc <<= 1; log2_proc++; }] *)
Fixpoint pow2_loop (fuel : nat) (i pow2_proc log2_proc : Z) : Z * Z :=
  match fuel with
  | O => (pow2_proc, log2_proc)
  | S fuel => if i =? 1 then (pow2_proc, log2_proc)
              else pow2_loop fuel (Z.shiftr i 1) (Z.shiftl pow2_proc 1) (log2_proc + 1)
  end.
Definition pow2_log2 (PE_size : Z) : Z * Z := pow2_loop 31 (Z.shiftr PE_size 1) 2 1.

(** The partner of a member of the power-of-two set in round [i]. *)
Definition recdbl_peer (my_id i : Z) : Z := Z.lxor my_id (Z.shiftl 1 i).

Section reduce.
Context (fp_calc : shm_internal_op_t -> shm_internal_datatype_t -> Z -> Z -> Z).
Context (shmem_transport_atomic_supported : shm_internal_op_t -> shm_internal_datatype_t -> bool).

(** The combination a transport atomic applies at the target. *)
Definition dtype_int (d : shm_internal_datatype_t) : option (bool * Z) :=
  match d with
  | SHM_INTERNAL_SIGNED_BYTE | SHM_INTERNAL_INT8 => Some (true, 8)
  | SHM_INTERNAL_SHORT | SHM_INTERNAL_INT16 => Some (true, 16)
  | SHM_INTERNAL_INT | SHM_INTERNAL_INT32 | SHM_INTERNAL_FORTRAN_INTEGER => Some (true, 32)
  | SHM_INTERNAL_LONG | SHM_INTERNAL_LONG_LONG | SHM_INTERNAL_INT64 | SHM_INTERNAL_PTRDIFF_T => Some (true, 64)
  | SHM_INTERNAL_UCHAR | SHM_INTERNAL_UINT8 => Some (false, 8)
  | SHM_INTERNAL_USHORT | SHM_INTERNAL_UINT16 => Some (false, 16)
  | SHM_INTERNAL_UINT | SHM_INTERNAL_UINT32 => Some (false, 32)
  | SHM_INTERNAL_ULONG | SHM_INTERNAL_ULONG_LONG | SHM_INTERNAL_UINT64 | SHM_INTERNAL_SIZE_T => Some (false, 64)
  | _ => None
  end.
Definition atomic_calc (o : shm_internal_op_t) (d : shm_internal_datatype_t) : Z -> Z -> Z :=
  match dtype_int d with
  | Some (s, w) => int_calc s w o
  | None => fp_calc o d
  end.

Definition reduce_local (o : shm_internal_op_t) (d : shm_internal_datatype_t) (count inp inout : Z) : prog unit :=
  match reduce_calc fp_calc o d with
  | Some _ => do_ (OLocal (fun m => default m (shmem_internal_reduce_local fp_calc o d count inp inout m)))
  | None => Raise
  end.

Definition shmem_internal_op_to_all_linear (e : env) (target source count type_size PE_start PE_stride PE_size
    pSync : Z) (o : shm_internal_op_t) (d : shm_internal_datatype_t) : prog unit :=
  let my_pe := shmem_internal_my_pe e in
  let size := count * type_size in
  if count =? 0 then skip
  else
    (if PE_start =? my_pe then
       (* update our target buffer with our contribution *)
       shmem_internal_put_nb target source size my_pe ;;
       shmem_internal_put_wait ;;
       shmem_internal_quiet ;;
       (* let everyone know that it's safe to send to us *)
       for_ (pe_loop (PE_start + PE_stride) PE_stride (Z.to_nat (PE_size - 1)))
            (fun pe => shmem_internal_put_scalar pSync 1 pe) ;;
       (* Wait for others to acknowledge sending data *)
       SHMEM_WAIT_UNTIL pSync SHMEM_CMP_EQ (PE_size - 1) ;;
       clear_psync pSync my_pe
     else
       (* wait for clear to send *)
       SHMEM_WAIT pSync 0 ;;
       clear_psync pSync my_pe ;;
       (* send data, ack, and wait for completion *)
       shmem_internal_atomicv target source size PE_start (atomic_calc o d) (dtype_size d) ;;
       shmem_internal_put_wait ;;
       shmem_internal_fence ;;
       shmem_internal_atomic pSync 1 PE_start (long_calc SHM_INTERNAL_SUM)) ;;
    (* broadcast out *)
    shmem_internal_bcast e target target size 0 PE_start PE_stride PE_size (pSync + 2 * SIZEOF_LONG) false.

(** [tmp] is what [malloc] answers for the temporary copy of an in-place call. *)
Definition shmem_internal_op_to_all_ring (e : env) (tmp : option Z) (target source count type_size PE_start PE_stride
    PE_size pSync : Z) (o : shm_internal_op_t) (d : shm_internal_datatype_t) : prog unit :=
  let my_pe := shmem_internal_my_pe e in
  let group_rank := cdiv (my_pe - PE_start) PE_stride in
  let peer := PE_start + ring_peer group_rank PE_size * PE_stride in
  let bytes id := chunk_count id count PE_size * type_size in
  let disp id := chunk_disp id count PE_size type_size in
  let body (source : Z) :=
    (* Perform reduce-scatter *)
    for_ (upto 0 (PE_size - 1)) (fun i =>
      let chunk_in := rs_chunk_in group_rank i PE_size in
      let chunk_out := rs_chunk_out group_rank i PE_size in
      shmem_internal_put_nbi (target + disp chunk_out)
        (if i =? 0 then source + disp chunk_out else target + disp chunk_out) (bytes chunk_out) peer ;;
      shmem_internal_fence ;;
      shmem_internal_atomic pSync 1 peer (long_calc SHM_INTERNAL_SUM) ;;
      (* Wait for chunk *)
      SHMEM_WAIT_UNTIL pSync SHMEM_CMP_GE (i + 1) ;;
      reduce_local o d (chunk_count chunk_in count PE_size) (source + disp chunk_in) (target + disp chunk_in)) ;;
    (* Reset reduce-scatter pSync *)
    clear_psync pSync my_pe ;;
    (* Perform all-gather *)
    for_ (upto 0 (PE_size - 1)) (fun i =>
      let chunk_out := ag_chunk_out group_rank i PE_size in
      shmem_internal_put_nbi (target + disp chunk_out) (target + disp chunk_out) (bytes chunk_out) peer ;;
      shmem_internal_fence ;;
      shmem_internal_atomic (pSync + SIZEOF_LONG) 1 peer (long_calc SHM_INTERNAL_SUM) ;;
      SHMEM_WAIT_UNTIL (pSync + SIZEOF_LONG) SHMEM_CMP_GE (i + 1)) ;;
    (* reset pSync *)
    clear_psync (pSync + SIZEOF_LONG) my_pe in
  if count =? 0 then skip
  else if PE_size =? 1 then
    when (negb (target =? source)) (memcpy target source (count * type_size))
  else if target =? source then
    (* In-place reduction: copy source data to a temporary buffer *)
    match tmp with
    | None => Raise
    | Some tmp =>
        memcpy tmp target (count * type_size) ;;
        shmem_internal_sync e PE_start PE_stride PE_size (pSync + 2 * SIZEOF_LONG) ;;
        body tmp
    end
  else body source.

Definition shmem_internal_op_to_all_tree (e : env) (target source count type_size PE_start PE_stride PE_size
    pSync : Z) (o : shm_internal_op_t) (d : shm_internal_datatype_t) : prog unit :=
  let my_pe := shmem_internal_my_pe e in
  let size := count * type_size in
  if PE_size =? 1 then when (negb (target =? source)) (memcpy target source (type_size * count))
  else if count =? 0 then skip
  else
    let '(parent, children) :=
      coll_tree e (PE_size =? shmem_internal_num_pes e) PE_start PE_stride PE_size 0 in
    let num_children := Z.of_nat (length children) in
    when (negb (num_children =? 0))
      ( (* update our target buffer with our contribution *)
       shmem_internal_put_nb target source size my_pe ;;
       shmem_internal_put_wait ;;
       shmem_internal_quiet ;;
       (* let everyone know that it's safe to send to us *)
       for_ children (fun c => shmem_internal_put_scalar (pSync + SIZEOF_LONG) 1 c) ;;
       (* Wait for others to acknowledge sending data *)
       SHMEM_WAIT_UNTIL pSync SHMEM_CMP_EQ num_children ;;
       (* reset pSync *)
       clear_psync pSync my_pe) ;;
    when (negb (parent =? my_pe))
      ( (* wait for clear to send *)
       SHMEM_WAIT (pSync + SIZEOF_LONG) 0 ;;
       (* reset pSync *)
       clear_psync (pSync + SIZEOF_LONG) my_pe ;;
       (* send data, ack, and wait for completion *)
       shmem_internal_atomicv target (if num_children =? 0 then source else target) size parent
         (atomic_calc o d) (dtype_size d) ;;
       shmem_internal_put_wait ;;
       shmem_internal_fence ;;
       shmem_internal_atomic pSync 1 parent (long_calc SHM_INTERNAL_SUM)) ;;
    (* broadcast out *)
    shmem_internal_bcast e target target size 0 PE_start PE_stride PE_size (pSync + 2 * SIZEOF_LONG) false.

Definition ps_target_ready : Z := 1.
Definition ps_data_ready : Z := 2.

(** [current] is the buffer [malloc] answers for the running result. *)
Definition shmem_internal_op_to_all_recdbl_sw (e : env) (current : option Z) (target source count type_size PE_start
    PE_stride PE_size pSync : Z) (o : shm_internal_op_t) (d : shm_internal_datatype_t) : prog unit :=
  let my_pe := shmem_internal_my_pe e in
  let my_id := cdiv (my_pe - PE_start) PE_stride in
  let wrk_size := type_size * count in
  let pSync_extra_peer := pSync + SIZEOF_LONG * (SHMEM_REDUCE_SYNC_SIZE - 2) in
  let '(pow2_proc, log2_proc) := pow2_log2 PE_size in
  let send_data current_target psync peer :=
    shmem_internal_put_nb target current_target wrk_size peer ;;
    shmem_internal_put_wait ;;
    shmem_internal_fence ;;
    shmem_internal_put_scalar psync ps_data_ready peer in
  if PE_size =? 1 then when (negb (target =? source)) (memcpy target source (type_size * count))
  else if count =? 0 then skip
  else match current with
  | None => Raise
  | Some current_target =>
      memcpy current_target source wrk_size ;;
      (if my_id >=? pow2_proc then
         (* extra peer: hand the contribution to a PE of the power-of-two set *)
         let peer := (my_id - pow2_proc) * PE_stride + PE_start in
         (* Wait for target ready, required when source and target overlap *)
         SHMEM_WAIT_UNTIL pSync_extra_peer SHMEM_CMP_EQ ps_target_ready ;;
         send_data current_target pSync_extra_peer peer ;;
         SHMEM_WAIT_UNTIL pSync_extra_peer SHMEM_CMP_EQ ps_data_ready
       else
         when (my_id <? PE_size - pow2_proc)
           (let peer := (my_id + pow2_proc) * PE_stride + PE_start in
            shmem_internal_put_scalar pSync_extra_peer ps_target_ready peer ;;
            SHMEM_WAIT_UNTIL pSync_extra_peer SHMEM_CMP_EQ ps_data_ready ;;
            reduce_local o d count target current_target) ;;
         (* Pairwise exchange *)
         for_ (upto 0 log2_proc) (fun i =>
           let step_psync := pSync + SIZEOF_LONG * i in
           let peer := recdbl_peer my_id i * PE_stride + PE_start in
           (if my_pe <? peer then
              shmem_internal_put_scalar step_psync ps_target_ready peer ;;
              SHMEM_WAIT_UNTIL step_psync SHMEM_CMP_EQ ps_data_ready ;;
              send_data current_target step_psync peer
            else
              SHMEM_WAIT_UNTIL step_psync SHMEM_CMP_EQ ps_target_ready ;;
              send_data current_target step_psync peer ;;
              SHMEM_WAIT_UNTIL step_psync SHMEM_CMP_EQ ps_data_ready) ;;
           reduce_local o d count target current_target) ;;
         (* update extra peer with the final result from the pairwise exchange *)
         when (my_id <? PE_size - pow2_proc)
           (send_data current_target pSync_extra_peer ((my_id + pow2_proc) * PE_stride + PE_start)) ;;
         memcpy target current_target wrk_size) ;;
      reset_psync pSync SHMEM_REDUCE_SYNC_SIZE
  end.

(** [tmp]: what [malloc] answers in the algorithms that allocate. *)
Definition shmem_internal_op_to_all (e : env) (tmp : option Z) (target source count type_size PE_start PE_stride
    PE_size pSync : Z) (o : shm_internal_op_t) (d : shm_internal_datatype_t) : prog unit :=
  let linear := shmem_internal_op_to_all_linear e target source count type_size PE_start PE_stride PE_size pSync o d in
  let ring := shmem_internal_op_to_all_ring e tmp target source count type_size PE_start PE_stride PE_size pSync o d in
  let tree := shmem_internal_op_to_all_tree e target source count type_size PE_start PE_stride PE_size pSync o d in
  let recdbl := shmem_internal_op_to_all_recdbl_sw e tmp target source count type_size PE_start PE_stride PE_size pSync o d in
  match shmem_internal_reduce_type e with
  | AUTO =>
      if shmem_transport_atomic_supported o d then
        if PE_size <? COLL_CROSSOVER e then linear else tree
      else if count * type_size <? COLL_SIZE_CROSSOVER e then recdbl else ring
  | LINEAR => if shmem_transport_atomic_supported o d then linear else recdbl
  | RING => ring
  | TREE => if shmem_transport_atomic_supported o d then tree else recdbl
  | RECDBL => recdbl
  | _ => Raise
  end.
End reduce.
