(* ===== verification/Collect.v ===== *)
(** * Collects and all-to-alls ([collectives.c], [shmem_collectives.h])

    [collect] (each PE its own length), the three [fcollect] algorithms, their
    dispatch, and the two all-to-all exchanges. *)

From S2P Require Import Prelude Machine Straight Internal ReduceOp Comm Tree CollSync Bcast.
Local Open Scope Z_scope.
Local Open Scope prog_scope.

Definition shmem_internal_collect_linear (whole_puts : bool) (e : env) (target source len PE_start PE_stride PE_size pSync : Z) : prog unit :=
  let my_pe := shmem_internal_my_pe e in
  let finish (my_offset : Z) :=
    (* Send data round-robin, ending with my PE *)
    for_ (circular_visit my_pe PE_start PE_stride PE_size) (fun peer =>
      when (len >? 0) (shmem_internal_put_nbi (target + my_offset) source len peer)) ;;
    shmem_internal_barrier e PE_start PE_stride PE_size (pSync + 2 * SIZEOF_LONG) ;;
    reset_psync pSync (2 + SHMEM_BARRIER_SYNC_SIZE) in
  if PE_size =? 1 then when (negb (target =? source)) (memcpy target source len)
  (* Linear prefix sum -- propagate update lengths and calculate offset *)
  else if PE_start =? my_pe then
    shmem_internal_put_longs whole_puts pSync [wrap_s 64 len; 1] (PE_start + PE_stride) ;;
    finish 0
  else
    (* wait for send data *)
    SHMEM_WAIT_UNTIL (pSync + SIZEOF_LONG) SHMEM_CMP_EQ 1 ;;
    my_offset <- load pSync ;
    (* Not the last guy, so send offset to next PE *)
    when (my_pe <? PE_start + PE_stride * (PE_size - 1))
      (shmem_internal_put_longs whole_puts pSync [wrap_s 64 (my_offset + len); 1] (my_pe + PE_stride)) ;;
    finish my_offset.

(** [whole_puts]: see [shmem_internal_put_longs]. *)
Definition shmem_internal_collect (whole_puts : bool) (e : env) (target source len PE_start PE_stride PE_size pSync : Z) : prog unit :=
  match shmem_internal_collect_type e with
  | AUTO => shmem_internal_collect_linear whole_puts e target source len PE_start PE_stride PE_size pSync
  | LINEAR => shmem_internal_collect_linear whole_puts e target source len PE_start PE_stride PE_size pSync
  | _ => Raise
  end.

Definition shmem_internal_fcollect_linear (e : env) (target source len PE_start PE_stride PE_size pSync : Z) : prog unit :=
  let my_pe := shmem_internal_my_pe e in
  (if PE_start =? my_pe then
     (* Copy data into the target *)
     when (negb (source =? target)) (memcpy target source len) ;;
     (* send completion update *)
     shmem_internal_atomic pSync 1 PE_start (long_calc SHM_INTERNAL_SUM) ;;
     (* wait for N updates *)
     SHMEM_WAIT_UNTIL pSync SHMEM_CMP_EQ PE_size ;;
     (* Clear pSync *)
     clear_psync pSync PE_start
   else
     (* Push data into the target *)
     let offset := cdiv (my_pe - PE_start) PE_stride * len in
     shmem_internal_put_nb (target + offset) source len PE_start ;;
     shmem_internal_put_wait ;;
     (* ensure ordering *)
     shmem_internal_fence ;;
     (* send completion update *)
     shmem_internal_atomic pSync 1 PE_start (long_calc SHM_INTERNAL_SUM)) ;;
  shmem_internal_bcast e target target (len * PE_size) 0 PE_start PE_stride PE_size (pSync + SIZEOF_LONG) false.

Definition shmem_internal_fcollect_ring (e : env) (target source len PE_start PE_stride PE_size pSync : Z) : prog unit :=
  let my_pe := shmem_internal_my_pe e in
  let my_id := cdiv (my_pe - PE_start) PE_stride in
  let next_proc := PE_start + cmod (my_id + 1) PE_size * PE_stride in
  if len =? 0 then skip
  else
    (* copy my portion to the right place *)
    memcpy (target + my_id * len) source len ;;
    (* send n - 1 messages to the next highest proc *)
    for_ (upto 1 PE_size) (fun i =>
      let iter_offset := cmod (my_id + 1 - i + PE_size) PE_size * len in
      (* send data to me + 1 *)
      shmem_internal_put_nb (target + iter_offset) (target + iter_offset) len next_proc ;;
      shmem_internal_put_wait ;;
      shmem_internal_fence ;;
      (* send completion for this round to next proc *)
      shmem_internal_atomic pSync 1 next_proc (long_calc SHM_INTERNAL_SUM) ;;
      (* wait for completion for this round *)
      SHMEM_WAIT_UNTIL pSync SHMEM_CMP_GE i) ;;
    (* zero out psync *)
    clear_psync pSync my_pe.

(** The rounds of the recursive doubling, with the offset each one sends from. *)
Fixpoint recdbl_rounds (rounds : list (Z * Z)) (my_id curr_offset len : Z) : list (Z * Z * Z) :=
  match rounds with
  | [] => []
  | (i, distance) :: rounds =>
      let peer := Z.lxor my_id distance in
      (i, distance, curr_offset) ::
      recdbl_rounds rounds my_id (if my_id >? peer then curr_offset - distance * len else curr_offset) len
  end.

Definition shmem_internal_fcollect_recdbl (e : env) (target source len PE_start PE_stride PE_size pSync : Z) : prog unit :=
  let my_pe := shmem_internal_my_pe e in
  let my_id := cdiv (my_pe - PE_start) PE_stride in
  if len =? 0 then skip
  else
    (* copy my portion to the right place *)
    memcpy (target + my_id * len) source len ;;
    for_ (recdbl_rounds (dissem_rounds 31 0 1 PE_size) my_id (my_id * len) len) (fun '(i, distance, curr_offset) =>
      let peer := Z.lxor my_id distance in
      let real_peer := PE_start + peer * PE_stride in
      let slot := pSync + SIZEOF_INT * i in
      (* send data to peer *)
      shmem_internal_put_nb (target + curr_offset) (target + curr_offset) (distance * len) real_peer ;;
      shmem_internal_put_wait ;;
      shmem_internal_fence ;;
      (* mark completion for this round *)
      shmem_internal_atomic slot 1 real_peer (i32_calc SHM_INTERNAL_SUM) ;;
      SHMEM_WAIT_UNTIL slot SHMEM_CMP_NE 0 ;;
      (* this slot is no longer used, so subtract off results now *)
      shmem_internal_atomic slot (-1) my_pe (i32_calc SHM_INTERNAL_SUM)) ;;
    shmem_internal_quiet.

Definition shmem_internal_fcollect (e : env) (target source len PE_start PE_stride PE_size pSync : Z) : prog unit :=
  let ring := shmem_internal_fcollect_ring e target source len PE_start PE_stride PE_size pSync in
  match shmem_internal_fcollect_type e with
  | AUTO => ring
  | LINEAR => shmem_internal_fcollect_linear e target source len PE_start PE_stride PE_size pSync
  | RING => ring
  | RECDBL =>
      if Z.land PE_size (PE_size - 1) =? 0
      then shmem_internal_fcollect_recdbl e target source len PE_start PE_stride PE_size pSync
      else ring
  | _ => Raise
  end.

Definition shmem_internal_alltoall (e : env) (dest source len PE_start PE_stride PE_size pSync : Z) : prog unit :=
  let my_pe := shmem_internal_my_pe e in
  let my_as_rank := cdiv (my_pe - PE_start) PE_stride in
  let dest_ptr := dest + my_as_rank * len in
  if len =? 0 then skip
  else
    (* Send data round-robin, ending with my PE *)
    for_ (circular_visit my_pe PE_start PE_stride PE_size) (fun peer =>
      let peer_as_rank := cdiv (peer - PE_start) PE_stride in
      shmem_internal_put_nbi dest_ptr (source + peer_as_rank * len) len peer) ;;
    shmem_internal_barrier e PE_start PE_stride PE_size pSync ;;
    reset_psync pSync SHMEM_BARRIER_SYNC_SIZE.

(** The element [put_scalar] copies [elem_size] bytes, read at the call. *)
Definition put_elem (target source elem_size pe : Z) : prog unit :=
  Do (OLoad source) (fun v => do_ (OPut pe target (Captured [(0, v)]) false)).

Definition shmem_internal_alltoalls (e : env) (dest source dst sst elem_size nelems PE_start PE_stride PE_size
    pSync : Z) : prog unit :=
  let my_pe := shmem_internal_my_pe e in
  let my_as_rank := cdiv (my_pe - PE_start) PE_stride in
  let dest_base := dest + my_as_rank * nelems * dst * elem_size in
  if nelems =? 0 then skip
  else
    (* Send data round-robin, ending with my PE *)
    for_ (circular_visit my_pe PE_start PE_stride PE_size) (fun peer =>
      let peer_as_rank := cdiv (peer - PE_start) PE_stride in
      let source_base := source + peer_as_rank * nelems * sst * elem_size in
      for_ (upto 0 nelems) (fun i =>
        put_elem (dest_base + i * (dst * elem_size)) (source_base + i * (sst * elem_size)) elem_size peer)) ;;
    shmem_internal_barrier e PE_start PE_stride PE_size pSync ;;
    reset_psync pSync SHMEM_BARRIER_SYNC_SIZE.
