(* ===== verification/Schedule.v ===== *)
(** * The schedules of the data collectives

    The pure index computations of the collectives: the round-robin order, the
    chunks of the ring reduction, the power-of-two set of the recursive doubling
    reduction and the offsets of the recursive doubling collect. *)

From S2P Require Import Prelude Machine Internal ReduceOp Comm Tree CollSync Bcast Reduce Collect Barriers.
Local Open Scope Z_scope.

(** ** Round robin *)

Section circular.
Context (start stride size : Z) (Hstride : 1 <= stride) (Hsize : 1 <= size).

Lemma circular_visit_map i : 0 <= i < size ->
  circular_visit (start + i * stride) start stride size =
  map (fun d => start + ((i + 1 + d) mod size) * stride) (upto 0 size).
Proof.
  intros Hi. unfold circular_visit. rewrite circular_iter_next_index by lia.
  set (j := (i + 1) mod size). assert (0 <= j < size) by (apply Z.mod_pos_bound; lia).
  replace (start + j * stride) with (start + ((j + 0) mod size) * stride) at 1
    by (rewrite Z.add_0_r, Z.mod_small by lia; done).
  rewrite circular_loop_indices by lia. unfold upto. rewrite Z.sub_0_r.
  apply map_ext. intros d. do 2 f_equal. unfold j. by rewrite Zplus_mod_idemp_l.
Qed.

Lemma circular_visit_perm i : 0 <= i < size ->
  circular_visit (start + i * stride) start stride size ≡ₚ active_set start stride size.
Proof.
  intros Hi. rewrite circular_visit_map by done.
  apply NoDup_Permutation.
  - apply NoDup_fmap_2_strong; [|apply NoDup_upto].
    intros x y Hx%elem_of_upto Hy%elem_of_upto E.
    assert ((i + 1 + x) mod size = (i + 1 + y) mod size) as E' by nia.
    pose proof (Z.div_mod (i + 1 + x) size ltac:(lia)). pose proof (Z.div_mod (i + 1 + y) size ltac:(lia)).
    rewrite E' in *. set (a := (i + 1 + x) / size) in *. set (b := (i + 1 + y) / size) in *.
    assert (size * (a - b) = x - y) by lia. assert (a - b = 0) by nia. nia.
  - by apply NoDup_active_set.
  - intros p. rewrite elem_of_active_set, list_elem_of_In, in_map_iff. split.
    + intros (d & <- & _). exists ((i + 1 + d) mod size). split; [apply Z.mod_pos_bound; lia|done].
    + intros (j & Hj & ->). exists ((j - i - 1) mod size). split.
      * rewrite Zplus_mod_idemp_r. replace (i + 1 + (j - i - 1)) with j by lia. by rewrite Z.mod_small.
      * apply list_elem_of_In, elem_of_upto. apply Z.mod_pos_bound. lia.
Qed.

(** The round-robin order of [collect_linear], [alltoall] and [alltoalls]: from the member of
    rank [i] the loop ends after [size] iterations, it has then visited every member of
    the active set exactly once, and it visits the caller itself last. *)
Lemma circular_visit_permutation i : 0 <= i < size ->
  circular_visit (start + i * stride) start stride size ≡ₚ active_set start stride size /\
  circular_visit (start + i * stride) start stride size !! Z.to_nat (size - 1) = Some (start + i * stride).
Proof.
  intros Hi. split; [by apply circular_visit_perm|]. rewrite circular_visit_map by done.
  rewrite list_lookup_fmap, lookup_upto by lia. simpl. f_equal.
  replace (i + 1 + (0 + Z.of_nat (Z.to_nat (size - 1)))) with (i + 1 * size) by lia.
  rewrite Z.mod_add, Z.mod_small by lia. done.
Qed.
End circular.

Lemma circular_visit_permutation_witness :
  circular_visit 7 3 2 5 = [9; 11; 3; 5; 7] /\ circular_visit 7 3 2 5 ≡ₚ active_set 3 2 5.
Proof.
  split; [vm_compute; reflexivity|].
  apply (circular_visit_permutation 3 2 5 ltac:(lia) ltac:(lia) 2). lia.
Defined.

(** ** The chunks of the ring reduction *)

Section chunks.
Context (count npes type_size : Z) (Hcount : 0 <= count) (Hn : 1 <= npes).

Lemma chunk_disp_alt id : 0 <= id <= npes ->
  chunk_disp id count npes type_size = (id * (count / npes) + Z.min id (count mod npes)) * type_size.
Proof.
  intros Hid. unfold chunk_disp, chunk_count, chunk_extra. rewrite cdiv_nonneg, cmod_nonneg by lia.
  destruct (id <? count mod npes) eqn:E; [apply Z.ltb_lt in E|apply Z.ltb_ge in E].
  - rewrite Z.min_l by lia. lia.
  - rewrite Z.min_r by lia. lia.
Qed.

Lemma chunk_disp_next id : 0 <= id < npes ->
  chunk_disp (id + 1) count npes type_size =
  chunk_disp id count npes type_size + chunk_count id count npes * type_size.
Proof.
  intros Hid. rewrite !chunk_disp_alt by lia. unfold chunk_count, chunk_extra.
  rewrite cdiv_nonneg, cmod_nonneg by lia.
  destruct (id <? count mod npes) eqn:E; [apply Z.ltb_lt in E|apply Z.ltb_ge in E].
  - rewrite !Z.min_l by lia. lia.
  - rewrite !Z.min_r by lia. lia.
Qed.

(** C39: the chunks of the ring reduction tile the buffer: chunk 0 starts at its start, each
    chunk starts where the one before it ends, the last one ends at the end of the [count]
    elements, and no two chunks differ by more than one element.  No displacement exceeds
    the size of the buffer, so the [size_t] arithmetic of the code does not wrap. *)
Theorem chunk_tiling :
  chunk_disp 0 count npes type_size = 0 /\
  (forall id, 0 <= id < npes ->
     chunk_disp (id + 1) count npes type_size =
     chunk_disp id count npes type_size + chunk_count id count npes * type_size) /\
  chunk_disp npes count npes type_size = count * type_size /\
  (forall id, 0 <= id <= npes -> 0 <= type_size -> 0 <= chunk_disp id count npes type_size <= count * type_size) /\
  forall i j, Z.abs (chunk_count i count npes - chunk_count j count npes) <= 1.
Proof.
  pose proof (Z.mod_pos_bound count npes). repeat split.
  - rewrite chunk_disp_alt, Z.min_l by lia. lia.
  - intros id Hid. by apply chunk_disp_next.
  - rewrite chunk_disp_alt, Z.min_r by lia. pose proof (Z.div_mod count npes). f_equal. lia.
  - rewrite chunk_disp_alt by lia. pose proof (Z.div_pos count npes). nia.
  - rewrite chunk_disp_alt by lia. pose proof (Z.div_mod count npes). pose proof (Z.div_pos count npes).
    apply Z.mul_le_mono_nonneg_r; [done|]. nia.
  - intros i j. unfold chunk_count. repeat case_match; lia.
Qed.
End chunks.

Lemma chunk_tiling_witness :
  chunk_disp 3 11 4 8 = 72 /\ chunk_disp 4 11 4 8 = 11 * 8.
Proof. split; [vm_compute; reflexivity|]. apply (chunk_tiling 11 4 8 ltac:(lia) ltac:(lia)). Defined.

Lemma cmod_cases a n : 0 < n -> 0 <= a < 3 * n ->
  cmod a n = if a <? n then a else if a <? 2 * n then a - n else a - 2 * n.
Proof.
  intros Hn Ha. rewrite cmod_nonneg by lia. symmetry. repeat case_match.
  - apply (Z.mod_unique _ _ 0); lia.
  - apply (Z.mod_unique _ _ 1); lia.
  - apply (Z.mod_unique _ _ 2); lia.
Qed.

(** The index arithmetic of the ring, by cases on the wrap-around. *)
Ltac ring_cases :=
  unfold rs_chunk_in, rs_chunk_out, ag_chunk_out, ring_peer in *;
  rewrite !cmod_cases by (rewrite ?cmod_cases by lia; repeat case_match; lia);
  repeat case_match; lia.

(** The steps of the ring reduction fit together.  In the reduce-scatter the chunk a PE's
    right neighbour waits for is the one the PE sends, and what a PE reduced in one step
    it sends in the next; its last reduced chunk is the first it forwards in the
    all-gather; there each PE forwards the chunk it has just received, and every chunk
    is either the PE's own or received in one of the steps. *)
Lemma ring_schedule rank n : 2 <= n -> 0 <= rank < n ->
  let right := ring_peer rank n in
  (forall i, 0 <= i < n - 1 ->
     rs_chunk_in right i n = rs_chunk_out rank i n /\ rs_chunk_out rank (i + 1) n = rs_chunk_in rank i n) /\
  ag_chunk_out rank 0 n = rs_chunk_in rank (n - 2) n /\
  (forall i, 0 <= i < n - 2 -> ag_chunk_out right (i + 1) n = ag_chunk_out rank i n) /\
  (forall c, 0 <= c < n ->
     c = ag_chunk_out right 0 n \/ exists i, 0 <= i < n - 1 /\ ag_chunk_out rank i n = c).
Proof.
  intros Hn Hr right. unfold right. repeat split.
  - ring_cases.
  - ring_cases.
  - ring_cases.
  - intros i Hi. ring_cases.
  - intros c Hc. destruct (decide (c = ag_chunk_out (ring_peer rank n) 0 n)) as [->|Hne]; [by left|right].
    exists (cmod (rank + 1 - c + n) n).
    assert (0 <= cmod (rank + 1 - c + n) n < n) as Hb by (rewrite cmod_nonneg by lia; apply Z.mod_pos_bound; lia).
    revert Hne Hb. unfold ag_chunk_out, ring_peer. rewrite !cmod_cases by
      (rewrite ?cmod_cases by lia; repeat case_match; lia).
    repeat case_match; lia.
Qed.

Lemma ring_schedule_witness :
  map (fun i => rs_chunk_out 1 i 4) [0; 1; 2] = [1; 0; 3] /\ ag_chunk_out 1 0 4 = rs_chunk_in 1 2 4.
Proof. split; [vm_compute; reflexivity|]. apply (ring_schedule 1 4); lia. Defined.

(** ** The power-of-two set of the recursive doubling reduction *)

Lemma pow2_loop_spec fuel i l : 0 <= l -> 1 <= i < 2 ^ (Z.of_nat fuel) ->
  exists k, 0 <= k /\ 2 ^ k <= i < 2 ^ (k + 1) /\ pow2_loop fuel i (2 ^ l) l = (2 ^ (l + k), l + k).
Proof.
  revert i l. induction fuel as [|fuel IH]; intros i l Hl Hi; [simpl in Hi; lia|].
  cbn [pow2_loop]. destruct (i =? 1) eqn:E.
  - apply Z.eqb_eq in E as ->. exists 0. rewrite Z.add_0_r. split; [lia|]. split; [simpl; lia|done].
  - apply Z.eqb_neq in E.
    rewrite Nat2Z.inj_succ, Z.pow_succ_r in Hi by lia.
    rewrite Z.shiftr_div_pow2, Z.shiftl_mul_pow2 by lia. change (2 ^ 1) with 2.
    replace (2 ^ l * 2) with (2 ^ (l + 1)) by (rewrite Z.pow_add_r by lia; lia).
    destruct (IH (i / 2) (l + 1)) as (k & Hk & Hb & ->); [lia| |].
    { split; [apply Z.div_le_lower_bound; lia|apply Z.div_lt_upper_bound; lia]. }
    exists (k + 1). split; [lia|]. split.
    + assert (2 ^ (k + 1) = 2 * 2 ^ k) as E1 by (rewrite Z.pow_add_r by lia; lia).
      assert (2 ^ (k + 1 + 1) = 4 * 2 ^ k) as E2 by (rewrite !Z.pow_add_r by lia; lia). rewrite E1, E2 in *.
      pose proof (Z.div_mod i 2). pose proof (Z.mod_pos_bound i 2). lia.
    + by replace (l + 1 + k) with (l + (k + 1)) by lia.
Qed.

(** The loop finds the largest power of two not above the set's size. *)
Lemma pow2_log2_spec n : 2 <= n < 2 ^ 31 ->
  exists k, 1 <= k /\ pow2_log2 n = (2 ^ k, k) /\ 2 ^ k <= n < 2 * 2 ^ k.
Proof.
  intros Hn. unfold pow2_log2. rewrite Z.shiftr_div_pow2 by lia. change (2 ^ 1) with 2.
  pose proof (Z.div_mod n 2). pose proof (Z.mod_pos_bound n 2).
  destruct (pow2_loop_spec 31 (n / 2) 1) as (k & Hk & Hb & E); [lia|lia|].
  change (2 ^ 1) with 2 in E. exists (1 + k). rewrite E. split; [lia|]. split; [done|].
  rewrite Z.pow_add_r in * by lia. lia.
Qed.

Lemma lxor_bound k a b : 0 <= k -> 0 <= a < 2 ^ k -> 0 <= b < 2 ^ k -> 0 <= Z.lxor a b < 2 ^ k.
Proof.
  intros Hk Ha Hb. assert (0 <= Z.lxor a b) as H0 by (apply Z.lxor_nonneg; lia). split; [done|].
  destruct (decide (Z.lxor a b = 0)) as [->|]; [lia|]. apply Z.log2_lt_pow2; [lia|].
  pose proof (Z.log2_lxor a b ltac:(lia) ltac:(lia)) as Hl.
  destruct (decide (a = 0)) as [->|]; [destruct (decide (b = 0)) as [->|]; [done|]|destruct (decide (b = 0)) as [->|]].
  - rewrite Z.lxor_0_l. apply Z.log2_lt_pow2; lia.
  - rewrite Z.lxor_0_r. apply Z.log2_lt_pow2; lia.
  - assert (Z.log2 a < k) by (apply Z.log2_lt_pow2; lia). assert (Z.log2 b < k) by (apply Z.log2_lt_pow2; lia). lia.
Qed.

(** ** The offsets of the recursive doubling collect *)

Lemma land_pow2_zero a k : 0 <= k -> Z.testbit a k = false -> Z.land a (2 ^ k) = 0.
Proof.
  intros Hk Hb. apply Z.bits_inj'. intros j Hj. rewrite Z.land_spec, Z.bits_0, Z.pow2_bits_eqb by lia.
  destruct (Z.eqb_spec k j) as [<-|]; [by rewrite Hb|by rewrite andb_false_r].
Qed.

(** Flipping bit [k] adds or subtracts [2 ^ k]. *)
Lemma lxor_pow2 a k : 0 <= k ->
  Z.lxor a (2 ^ k) = if Z.testbit a k then a - 2 ^ k else a + 2 ^ k.
Proof.
  intros Hk. destruct (Z.testbit a k) eqn:E.
  - set (x := Z.lxor a (2 ^ k)). assert (Z.testbit x k = false) as Hx.
    { unfold x. by rewrite Z.lxor_spec, E, Z.pow2_bits_true by lia. }
    pose proof (Z.add_nocarry_lxor x (2 ^ k) (land_pow2_zero x k Hk Hx)) as H.
    unfold x in H at 2. rewrite Z.lxor_assoc, Z.lxor_nilpotent, Z.lxor_0_r in H. lia.
  - symmetry. by apply Z.add_nocarry_lxor, land_pow2_zero.
Qed.

Lemma block_step id k : 0 <= k ->
  id / 2 ^ (k + 1) * 2 ^ (k + 1) = id / 2 ^ k * 2 ^ k - (if Z.testbit id k then 2 ^ k else 0).
Proof.
  intros Hk. assert (0 < 2 ^ k) by lia. rewrite Z.pow_add_r, <- Z.div_div by lia. change (2 ^ 1) with 2.
  pose proof (Z.div_mod (id / 2 ^ k) 2 ltac:(lia)) as Hd.
  rewrite <- Z.bit0_mod, Z.div_pow2_bits, Z.add_0_l in Hd by lia.
  destruct (Z.testbit id k); simpl Z.b2z in Hd; lia.
Qed.

(** Round [k] pairs each member with one of the other half of its block of [2 ^ (k + 1)]. *)
Lemma xor_block K k id : 0 <= k < K -> 0 <= id < 2 ^ K ->
  let peer := Z.lxor id (2 ^ k) in
  0 <= peer < 2 ^ K /\ peer / 2 ^ (k + 1) = id / 2 ^ (k + 1) /\
  Z.abs (peer / 2 ^ k * 2 ^ k - id / 2 ^ k * 2 ^ k) = 2 ^ k.
Proof.
  intros Hk Hid peer. unfold peer.
  pose proof (Z.pow_lt_mono_r 2 k K ltac:(lia) ltac:(lia)). assert (0 < 2 ^ k) by lia.
  split; [apply lxor_bound; lia|].
  assert (2 ^ (k + 1) = 2 * 2 ^ k) as E2 by (rewrite Z.pow_add_r by lia; lia).
  assert (Z.lxor id (2 ^ k) / 2 ^ (k + 1) = id / 2 ^ (k + 1)) as E1.
  { rewrite <- !Z.shiftr_div_pow2 by lia. rewrite Z.shiftr_lxor. rewrite (Z.shiftr_div_pow2 (2 ^ _)) by lia.
    rewrite (Z.div_small (2 ^ _)) by lia. apply Z.lxor_0_r. }
  split; [done|].
  pose proof (block_step (Z.lxor id (2 ^ k)) k ltac:(lia)) as B1.
  pose proof (block_step id k ltac:(lia)) as B2. rewrite E1 in B1.
  rewrite Z.lxor_spec, Z.pow2_bits_true in B1 by lia.
  destruct (Z.testbit id k); simpl in B1; lia.
Qed.

(** The recursive doubling reduction: its loop finds [2 ^ k], the largest power of two not
    above the size of the set.  In every round [i < k] the partners stay inside the first
    [2 ^ k] members and name each other, and the partner comes from the other half of the
    aligned block of [2 ^ (i + 1)] members: combining the two partial results of a round
    doubles the block a PE holds.  The members left over map one to one on members of the
    power-of-two set. *)
Lemma recdbl_pairs n : 2 <= n < 2 ^ 31 ->
  exists k, 1 <= k /\ pow2_log2 n = (2 ^ k, k) /\ 2 ^ k <= n < 2 * 2 ^ k /\
    (forall id i, 0 <= id < 2 ^ k -> 0 <= i < k ->
       let peer := recdbl_peer id i in
       0 <= peer < 2 ^ k /\ recdbl_peer peer i = id /\ peer / 2 ^ (i + 1) = id / 2 ^ (i + 1) /\
       Z.abs (peer / 2 ^ i * 2 ^ i - id / 2 ^ i * 2 ^ i) = 2 ^ i) /\
    (forall id, 2 ^ k <= id < n -> 0 <= id - 2 ^ k < n - 2 ^ k /\ id - 2 ^ k < 2 ^ k).
Proof.
  intros Hn. destruct (pow2_log2_spec n Hn) as (k & Hk & E & Hb). exists k.
  split; [done|]. split; [done|]. split; [done|]. split; [|intros; lia].
  intros id i Hid Hi peer. unfold peer, recdbl_peer. rewrite Z.shiftl_mul_pow2, Z.mul_1_l by lia.
  destruct (xor_block k i id Hi Hid) as (H1 & H2 & H3). split; [done|]. split; [|done].
  by rewrite Z.lxor_assoc, Z.lxor_nilpotent, Z.lxor_0_r.
Qed.

Lemma recdbl_pairs_witness :
  pow2_log2 11 = (8, 3) /\
  exists k, 1 <= k /\ pow2_log2 11 = (2 ^ k, k) /\ 2 ^ k <= 11 < 2 * 2 ^ k.
Proof.
  split; [vm_compute; reflexivity|].
  destruct (recdbl_pairs 11 ltac:(lia)) as (k & H1 & H2 & H3 & _). by exists k.
Defined.

(** In round [k] a PE sends the block of [2 ^ k] members it belongs to. *)
Lemma recdbl_offsets n a id len : 0 <= id -> 0 <= len ->
  recdbl_rounds (map (fun k => (Z.of_nat k, 2 ^ Z.of_nat k)) (seq a n)) id (id / 2 ^ Z.of_nat a * 2 ^ Z.of_nat a * len) len =
  map (fun k => (Z.of_nat k, 2 ^ Z.of_nat k, id / 2 ^ Z.of_nat k * 2 ^ Z.of_nat k * len)) (seq a n).
Proof.
  intros Hid Hlen. revert a. induction n as [|n IH]; intros a; [done|].
  cbn [seq map recdbl_rounds]. f_equal. rewrite <- IH. f_equal.
  rewrite Nat2Z.inj_succ, <- Z.add_1_r, block_step, lxor_pow2, Z.gtb_ltb by lia.
  assert (0 < 2 ^ Z.of_nat a) by lia.
  destruct (Z.testbit id (Z.of_nat a)).
  - rewrite (proj2 (Z.ltb_lt _ _)) by lia. lia.
  - rewrite (proj2 (Z.ltb_ge _ _)) by lia. lia.
Qed.

(** On [2 ^ K] members the loop has [K] rounds. *)
Lemma dissem_K_pow2 (K : nat) : (K < 31)%nat -> dissem_K (2 ^ Z.of_nat K) = K.
Proof.
  intros HK. pose proof (Z.pow_le_mono_r 2 (Z.of_nat K) 30).
  pose proof (dissem_K_enough (2 ^ Z.of_nat K) ltac:(lia)) as H1%Z.pow_le_mono_r_iff; [|lia..].
  destruct (decide (K < dissem_K (2 ^ Z.of_nat K))%nat) as [Hlt|]; [|lia].
  apply dissem_K_lt in Hlt; lia.
Qed.

(** The schedule of [fcollect_recdbl] on [2 ^ K] members: [K] rounds; in round [k] member
    [id] sends the aligned block of [2 ^ k] contributions around its own, and its
    partner's block is the other half of the block of [2 ^ (k + 1)]: the running offset
    the code adjusts always names the start of the block the PE has collected. *)
Lemma fcollect_recdbl_schedule (K : nat) id len : (K < 31)%nat -> 0 <= id < 2 ^ Z.of_nat K -> 0 <= len ->
  recdbl_rounds (dissem_rounds 31 0 1 (2 ^ Z.of_nat K)) id (id * len) len =
    map (fun k => (Z.of_nat k, 2 ^ Z.of_nat k, id / 2 ^ Z.of_nat k * 2 ^ Z.of_nat k * len)) (seq 0 K) /\
  forall k, (k < K)%nat ->
    let peer := Z.lxor id (2 ^ Z.of_nat k) in
    let block x j := x / 2 ^ j * 2 ^ j in
    0 <= peer < 2 ^ Z.of_nat K /\ block peer (Z.of_nat k + 1) = block id (Z.of_nat k + 1) /\
    Z.abs (block peer (Z.of_nat k) - block id (Z.of_nat k)) = 2 ^ Z.of_nat k.
Proof.
  intros HK Hid Hlen. split.
  - rewrite dissem_rounds_map, dissem_K_pow2 by (done || (pose proof (Z.pow_le_mono_r 2 (Z.of_nat K) 30); lia)). rewrite <- recdbl_offsets by lia.
    simpl. by rewrite Z.div_1_r, Z.mul_1_r.
  - intros k Hk peer block. unfold peer, block.
    destruct (xor_block (Z.of_nat K) (Z.of_nat k) id ltac:(lia) Hid) as (H1 & H2 & H3).
    split; [done|]. split; [by rewrite H2|done].
Qed.

Lemma fcollect_recdbl_schedule_witness :
  recdbl_rounds (dissem_rounds 31 0 1 (2 ^ Z.of_nat 3)) 5 (5 * 100) 100 =
    map (fun k => (Z.of_nat k, 2 ^ Z.of_nat k, 5 / 2 ^ Z.of_nat k * 2 ^ Z.of_nat k * 100)) (seq 0 3).
Proof. apply (fcollect_recdbl_schedule 3 5 100); lia. Defined.
