(* ===== verification/Phase.v ===== *)
(** * Puts before a barrier

    [shmem_internal_barrier] completes the caller's operations and then synchronizes.
    This file proves what the callers rely on: when every member issues puts and then
    enters a barrier, the puts of all members have arrived everywhere once any member has
    left.  The job is projected onto the job of the barrier alone: messages that target
    the pSync are kept, the data messages are dropped, and the two memories agree on the
    pSync; the other steps stutter and decrease a measure. *)

From S2P Require Import Prelude Machine Straight Internal ReduceOp Comm Tree CollSync.
Local Open Scope Z_scope.
Local Open Scope prog_scope.

(** ** Programs that follow a list of operations *)

(** [q] performs the operations [ops], provided every load answers the value of [m]. *)
Fixpoint follows (m : lmem) (ops : list op) (q : prog unit) : Prop :=
  match ops with
  | [] => q = skip
  | o :: ops => exists k, q = Do o k /\
      forall v, (match o with OLoad a => v = m a | _ => True end) -> follows m ops (k v)
  end.

Lemma follows_seqp m ops : follows m ops (seqp ops).
Proof. induction ops as [|o ops IH]; simpl; [done|]. by exists (fun _ => seqp ops). Qed.

Lemma follows_bind m l1 l2 q1 q2 : follows m l1 q1 -> follows m l2 q2 -> follows m (l1 ++ l2) (q1 ;; q2).
Proof.
  intros H1 H2. revert q1 H1. induction l1 as [|o l1 IH]; intros q1; simpl; [by intros ->|].
  intros (k & -> & Hk). simpl. eexists. split; [done|]. intros v Hv. apply IH. by apply Hk.
Qed.

Lemma follows_for {I} m (l : list I) body ops :
  (forall i, i ∈ l -> follows m (ops i) (body i)) -> follows m (flat_map ops l) (for_ l body).
Proof.
  induction l as [|i l IH]; intros H; [done|]. simpl. apply follows_bind.
  - apply H, list_elem_of_here.
  - apply IH. intros j Hj. apply H. by apply list_elem_of_further.
Qed.

(** ** What an exchange promises *)

(** The specification of an exchange that ends with a barrier, under every interleaving
    and delivery order: [moved t a x] says that cell [a] of PE [t] receives [x], and
    [scratch] are the cells of the pSync.  The call returns on every member within
    [steps] steps of the job; once one member has returned, every cell has been received,
    on all PEs; nothing else changes; a member that returns has its pSync as it was; and
    no message outlives the call. *)
Record exchange_spec (M : list Z) (scratch : Z -> bool) (m0 : Z -> lmem) (moved : Z -> Z -> Z -> Prop)
    (body : Z -> prog unit) (steps : nat) : Prop := {
  ex_completes : job_completes (coll_job M m0 body) steps;
  ex_delivers : forall w i t a x, rtc step (coll_job M m0 body) w -> i ∈ M -> returned w i ->
    moved t a x -> mem (w_st w) t a = x;
  ex_frame : forall w t a, rtc step (coll_job M m0 body) w -> scratch a = false ->
    (forall x, ~ moved t a x) -> mem (w_st w) t a = m0 t a;
  ex_restored : forall w i a, rtc step (coll_job M m0 body) w -> i ∈ M -> returned w i ->
    scratch a = true -> mem (w_st w) i a = m0 i a;
  ex_clean : forall w, rtc step (coll_job M m0 body) w -> all_returned w -> net (w_st w) = [] }.

Lemma exchange_spec_iff M scratch m0 moved moved' body steps :
  (forall t a x, moved t a x <-> moved' t a x) ->
  exchange_spec M scratch m0 moved body steps -> exchange_spec M scratch m0 moved' body steps.
Proof. intros Hm [H1 H2 H3 H4 H5]. split; try done; setoid_rewrite <- Hm; done. Qed.

Lemma exchange_spec_ext M scratch m0 moved body body' steps :
  (forall p, p ∈ M -> body p = body' p) ->
  exchange_spec M scratch m0 moved body steps -> exchange_spec M scratch m0 moved body' steps.
Proof.
  intros H. assert (coll_job M m0 body = coll_job M m0 body') as E.
  { unfold coll_job. f_equal. extensionality p. case_decide; [by rewrite H|done]. }
  intros [H1 H2 H3 H4 H5]. split; rewrite <- E; done.
Qed.

Section phase.
Context (M : list Z) (HM : NoDup M).
(** The pSync of the barrier. *)
Context (lo hi : Z).
Definition in_psync (a : Z) : bool := (lo <=? a) && (a <? hi).
Context (m0 : Z -> lmem).

(** The operations of the three parts: the puts, the barrier and the resets after it. *)
Context (D B R : Z -> list op).

(** *** The barrier only uses its pSync *)

Definition sync_op (o : op) : bool :=
  match o with
  | OPut _ t (Captured [(0, _)]) _ => in_psync t
  | OAtomic _ t _ (Captured [(0, _)]) => in_psync t
  | OWait a _ _ => in_psync a
  | OQuiet => true
  | _ => false
  end.
Context (HB : forall p, p ∈ M -> Forall (fun o => sync_op o = true) (B p)).
Context (bound : nat) (Hspec : barrier_spec M (fun p => seqp (B p)) m0 bound).

(** *** The resets store what is there already *)

Definition reset_op (p : Z) (o : op) : Prop :=
  match o with
  | OLocal f => forall m, (forall a, in_psync a = true -> m a = m0 p a) -> forall a, f m a = m a
  | _ => False
  end.
Context (HR : forall p, p ∈ M -> Forall (reset_op p) (R p)).

(** *** The puts *)

(** The cells an operation of [p] writes: the PE, the address and the value. *)
Definition writes (p : Z) (o : op) : list (Z * Z * Z) :=
  match o with
  | OPut i t (Captured vals) _ => map (fun x => (i, t + x.1, x.2)) vals
  | OPut i t (Pending src offs) _ => map (fun x => (i, t + x, m0 p (src + x))) offs
  | _ => []
  end.
Definition written (i a v : Z) : Prop := exists p o, p ∈ M /\ o ∈ D p /\ (i, a, v) ∈ writes p o.

(** A cell that keeps its initial value during the phase. *)
Definition stable (p a : Z) : Prop := in_psync a = false /\ forall v, written p a v -> v = m0 p a.

Definition data_op (p : Z) (o : op) : Prop :=
  match o with
  | OLoad a => stable p a
  | OPut _ t (Captured vals) _ => in_psync t = false /\ forall x, x ∈ vals -> in_psync (t + x.1) = false
  | OPut _ t (Pending src offs) _ =>
      in_psync t = false /\ forall x, x ∈ offs -> in_psync (t + x) = false /\ stable p (src + x)
  | _ => False
  end.
Context (HD : forall p, p ∈ M -> Forall (data_op p) (D p)).
Context (Hfun : forall i a v v', written i a v -> written i a v' -> v = v').

(** *** The relation between the two jobs *)

Abbreviation nd p := (length (D p)).
Abbreviation nb p := (length (B p)).
Definition ops (p : Z) : list op := D p ++ OQuiet :: B p ++ R p.
Definition vops (p : Z) : list op := OMark ENTER :: B p ++ [OMark EXIT].
(** The position of the barrier's program when the whole program is at [l]: a member
    enters with its quiet and leaves with the last operation of the barrier. *)
Definition vpos (p : Z) (l : nat) : nat := if decide (l - nd p <= nb p)%nat then (l - nd p)%nat else (2 + nb p)%nat.

Definition sync_msg (m : msg) : bool := in_psync (m_target m).

(** The message [m] carries the put [o] of [p], its source read or not. *)
Definition carries (p : Z) (o : op) (m : msg) : Prop :=
  match o with
  | OPut i t d _ => m_src m = p /\ m_dst m = i /\ m_kind m = KPut /\ m_target m = t /\
      (m_data m = d \/
       match d with
       | Pending src offs => m_data m = Captured (map (fun x => (x, m0 p (src + x))) offs)
       | Captured _ => False
       end)
  | _ => False
  end.

(** The states: the job [sw] has done the data operations up to [lab p]. *)
Record st_rel (lab : Z -> nat) (sw sv : state) : Prop := {
  r_mem : forall p a, mem sv p a = if in_psync a then mem sw p a else m0 p a;
  r_net : net sv = List.filter sync_msg (net sw);
  r_epoch : (forall p, epoch sw p = 0%nat) /\ (forall p, epoch sv p = 0%nat) /\
            forall m, m ∈ net sw -> m_epoch m = 0%nat;
  r_sync : forall m, m ∈ net sw -> sync_msg m = true -> exists x, m_data m = Captured [(0, x)];
  r_data : forall m, m ∈ net sw -> sync_msg m = false ->
    m_src m ∈ M /\ (lab (m_src m) <= nd (m_src m))%nat /\
    exists o, o ∈ D (m_src m) /\ carries (m_src m) o m;
  r_sent : forall p k o, p ∈ M -> (k < lab p)%nat -> D p !! k = Some o ->
    (exists m, m ∈ net sw /\ sync_msg m = false /\ carries p o m) \/
    (forall i a x, (i, a, x) ∈ writes p o -> mem sw i a = x);
  r_vals : forall i a, in_psync a = false -> mem sw i a = m0 i a \/ written i a (mem sw i a) }.

Record rel (lab : Z -> nat) (w v : world) : Prop := {
  r_prog : forall p, follows (m0 p) (if decide (p ∈ M) then drop (lab p) (ops p) else []) (progs w p);
  r_vprog : forall p, progs v p = if decide (p ∈ M) then seqp (drop (vpos p (lab p)) (vops p)) else skip;
  r_len : forall p, p ∈ M -> (lab p <= length (ops p))%nat;
  r_enter : forall p, p ∈ M -> (p, ENTER) ∈ log (w_st v) -> (nd p < lab p)%nat;
  r_exit : forall p, p ∈ M -> (nd p + nb p < lab p)%nat -> (p, EXIT) ∈ log (w_st v);
  r_st : st_rel lab (w_st w) (w_st v) }.

(** What the data messages in flight can still do. *)
Definition dweight (n : list msg) : nat := net_weight (List.filter (fun m => negb (sync_msg m)) n).

Lemma dweight_app n1 n2 : dweight (n1 ++ n2) = (dweight n1 + dweight n2)%nat.
Proof. unfold dweight. by rewrite List.filter_app, net_weight_app. Qed.

Lemma dweight_one m : dweight [m] = if sync_msg m then 0%nat else msg_weight m.
Proof. unfold dweight. simpl. destruct (sync_msg m); simpl; unfold net_weight; simpl; lia. Qed.

(** *** The data operations and their messages *)

Lemma written_data i a x : written i a x -> in_psync a = false.
Proof.
  intros (p & o & Hp & Ho & Hw). pose proof (HD p Hp) as Hd. rewrite list.Forall_forall in Hd.
  specialize (Hd o Ho). destruct o as [pe t [vals|src offs] nbi| | | | | | | | | |]; simpl in *;
    try by apply elem_of_nil in Hw.
  - apply list_elem_of_In, in_map_iff in Hw as (y & [= <- <- <-] & Hy%list_elem_of_In). by apply Hd.
  - apply list_elem_of_In, in_map_iff in Hw as (y & [= <- <- <-] & Hy%list_elem_of_In). by apply Hd.
Qed.

Lemma carries_writes p o m vals : carries p o m -> m_data m = Captured vals -> forall i a x,
  (i, a, x) ∈ writes p o <-> i = m_dst m /\ exists y, y ∈ vals /\ m_target m + y.1 = a /\ y.2 = x.
Proof.
  destruct o as [pe t d nbi| | | | | | | | | |]; simpl; try done.
  intros (Hs & <- & _ & <- & Hd) Hv i a x. destruct d as [vs|src offs].
  - destruct Hd as [Hd|[]]. rewrite Hv in Hd. injection Hd as ->.
    rewrite list_elem_of_In, in_map_iff. setoid_rewrite list_elem_of_In. naive_solver.
  - destruct Hd as [Hd|Hd]; rewrite Hv in Hd; [done|]. injection Hd as ->.
    setoid_rewrite list_elem_of_In. setoid_rewrite in_map_iff. naive_solver.
Qed.

Lemma stable_value lab sw sv p a : st_rel lab sw sv -> stable p a -> mem sw p a = m0 p a.
Proof. intros Hst [Hp Hw]. destruct (r_vals _ _ _ Hst p a Hp) as [|H]; [done|]. by apply Hw. Qed.

(** Doing a put or a load of [D] before the quiet. *)
Lemma st_issue lab sw sv p o x sw' :
  st_rel lab sw sv -> p ∈ M -> D p !! lab p = Some o -> op_exec p o sw = Some (x, sw') ->
  st_rel (<[p := S (lab p)]> lab) sw' sv /\ match o with OLoad a => x = m0 p a | _ => True end /\
  (dweight (net sw') <= dweight (net sw) + 2)%nat.
Proof.
  intros Hst Hp Ho Hex. pose proof (list_elem_of_lookup_2 _ _ _ Ho) as Hin.
  pose proof (lookup_lt_Some _ _ _ Ho) as Hlt.
  pose proof (HD p Hp) as Hd. rewrite list.Forall_forall in Hd. specialize (Hd o Hin).
  destruct o as [pe t d nbi| | | | | | |a| | |]; try done; injection Hex as <- <-.
  - assert (in_psync t = false) as Ht by (by destruct d; destruct Hd).
    set (m := Msg p pe (epoch sw p) KPut t nbi d).
    assert (carries p (OPut pe t d nbi) m) as Hm by (do 4 (split; [done|]); by left).
    assert (sync_msg m = false) as Hsm by done.
    assert (msg_weight m <= 2)%nat by (unfold msg_weight; destruct (pending _); lia).
    split; [|split; [done|simpl; rewrite dweight_app, dweight_one, Hsm; lia]].
    destruct Hst as [H1 H2 (H3 & H3' & H3'') H4 H5 H6 H7].
    assert (forall m', m' ∈ net sw ++ [m] <-> m' ∈ net sw \/ m' = m) as Hnet
      by (intros m'; rewrite elem_of_app, list_elem_of_singleton; done).
    split; simpl; try done; try setoid_rewrite Hnet.
    + rewrite List.filter_app. simpl. rewrite Hsm. by rewrite app_nil_r.
    + split; [done|]. split; [done|]. intros m' [Hm'| ->]; [by apply H3''|apply H3].
    + intros m' [Hm'| ->] Hs; [by apply H4|congruence].
    + intros m' [Hm'| ->] Hs.
      * destruct (H5 m' Hm' Hs) as (Ha & Hb & Hc). split; [done|]. split; [|done].
        update_cases; [subst; lia|done].
      * simpl. rewrite fn_lookup_insert. split; [done|]. split; [lia|]. eauto.
    + intros q k o Hq Hk Ho'. destruct (decide (q = p /\ k = lab p)) as [[-> ->]|Hne].
      * simplify_eq. left. exists m. auto.
      * destruct (H6 q k o Hq) as [(m' & ? & ?)|]; [|done|left; exists m'; auto|by right].
        revert Hk. update_cases; [|done]. subst. intros. destruct (decide (k = lab q)); [|lia]. tauto.
  - split; [|split; [by eapply stable_value|lia]].
    destruct Hst as [H1 H2 H3 H4 H5 H6 H7]. split; try done.
    + intros m' Hm' Hs. destruct (H5 m' Hm' Hs) as (Ha & Hb & Hc). split; [done|]. split; [|done].
      update_cases; [subst; lia|done].
    + intros q k o Hq Hk Ho'. destruct (decide (q = p /\ k = lab p)) as [[-> ->]|Hne].
      * simplify_eq. right. intros i a' y Hw. by apply elem_of_nil in Hw.
      * apply (H6 q k o Hq); [|done]. revert Hk. update_cases; [|done]. subst. intros.
        destruct (decide (k = lab q)); [|lia]. tauto.
Qed.

(** Moving past an operation that is not one of the puts. *)
Lemma st_label lab sw sv p :
  st_rel lab sw sv -> (nd p <= lab p)%nat -> (forall m, m ∈ net sw -> sync_msg m = false -> m_src m <> p) ->
  st_rel (<[p := S (lab p)]> lab) sw sv.
Proof.
  intros [H1 H2 H3 H4 H5 H6 H7] Hl Hno. split; try done.
  - intros m Hm Hs. destruct (H5 m Hm Hs) as (Ha & Hb & Hc). split; [done|]. split; [|done].
    rewrite fn_lookup_insert_ne; [done|]. specialize (Hno m Hm Hs). congruence.
  - intros q k o Hq Hk Ho. apply (H6 q k o Hq); [|done]. apply lookup_lt_Some in Ho.
    revert Hk. update_cases; [|done]. subst. lia.
Qed.

(** After the quiet no put is in flight. *)
Lemma no_data lab sw sv p : st_rel lab sw sv -> (nd p < lab p)%nat ->
  forall m, m ∈ net sw -> sync_msg m = false -> m_src m <> p.
Proof. intros Hst Hl m Hm Hs <-. destruct (r_data _ _ _ Hst m Hm Hs) as (_ & ? & _). lia. Qed.

(** An operation of the barrier is the same operation in both jobs. *)
Lemma st_sync_op lab sw sv p o x sw' :
  st_rel lab sw sv -> sync_op o = true -> op_exec p o sw = Some (x, sw') ->
  exists sv', op_exec p o sv = Some (x, sv') /\ st_rel lab sw' sv' /\ log sv' = log sv /\
    dweight (net sw') = dweight (net sw).
Proof.
  intros [H1 H2 (H3 & H3' & H3'') H4 H5 H6 H7] Hop Hex.
  assert (forall m, sync_msg m = true -> m_epoch m = 0%nat -> (exists y, m_data m = Captured [(0, y)]) ->
    st_rel lab (set_net sw (net sw ++ [m])) (set_net sv (net sv ++ [m])) /\
    dweight (net sw ++ [m]) = dweight (net sw)) as Hsend.
  { intros m Hs He Hd. split; [|rewrite dweight_app, dweight_one, Hs; lia].
    split; simpl; try done.
    - rewrite List.filter_app, H2. simpl. by rewrite Hs.
    - split; [done|]. split; [done|]. intros m' [Hm'| ->%list_elem_of_singleton]%elem_of_app; auto.
    - intros m' [Hm'| ->%list_elem_of_singleton]%elem_of_app Hs'; auto.
    - intros m' [Hm'| ->%list_elem_of_singleton]%elem_of_app Hs'; [auto|congruence].
    - intros q k o' Hq Hk Ho. destruct (H6 q k o' Hq Hk Ho) as [(m' & ? & ?)|]; [left|by right].
      exists m'. rewrite elem_of_app. auto. }
  destruct o as [pe t [vals|] nbi|pe t c [vals|]| | | | |a c y| | | |]; try done; simpl in Hop.
  - destruct vals as [|[[] y] [|]]; try done. injection Hex as <- <-. eexists. split; [done|].
    simpl. rewrite H3, H3'. destruct (Hsend (Msg p pe 0 KPut t nbi (Captured [(0, y)]))) as [Ha Hb]; eauto.
  - destruct vals as [|[[] y] [|]]; try done. injection Hex as <- <-. eexists. split; [done|].
    simpl. rewrite H3, H3'. destruct (Hsend (Msg p pe 0 (KAtomic c) t false (Captured [(0, y)]))) as [Ha Hb]; eauto.
  - simpl in *. case_match eqn:Hq; [|done]. injection Hex as <- <-. exists sv. split; [|done].
    rewrite H2. rewrite (proj2 (forallb_forall _ _)); [done|]. intros m [Hm _]%filter_In.
    by apply (proj1 (forallb_forall _ _) Hq).
  - simpl in *. rewrite H1, Hop. case_match; [|done]. injection Hex as <- <-. by exists sv.
Qed.

(** With an idle network an operation of the barrier that can run there can run here. *)
Lemma st_sync_back lab sw sv p o x sv' :
  st_rel lab sw sv -> net sw = [] -> sync_op o = true -> op_exec p o sv = Some (x, sv') ->
  exists r, op_exec p o sw = Some r.
Proof.
  intros Hst Hn Hop Hex. destruct o; try done; simpl in *; eauto.
  - rewrite Hn. simpl. eauto.
  - rewrite (r_mem _ _ _ Hst), Hop in Hex. case_match; [eauto|done].
Qed.

(** A reset stores what is there. *)
Lemma st_reset lab sw sv p o x sw' :
  st_rel lab sw sv -> (forall a, mem sv p a = m0 p a) -> reset_op p o -> op_exec p o sw = Some (x, sw') ->
  sw' = sw.
Proof.
  intros Hst Hm Ho Hex. destruct o as [| | | | | | | |f| |]; try done. injection Hex as <- <-.
  destruct sw as [mm nn ee ll]. unfold set_mem. simpl. f_equal. extensionality q. extensionality a.
  update_cases; [|done]. subst. apply Ho. intros b Hb. pose proof (r_mem _ _ _ Hst q b) as H.
  rewrite Hb in H. simpl in H. by rewrite <- H, Hm.
Qed.

(** *** The network *)

(** A put reads its source. *)
Lemma st_capture lab sw sv l1 m l2 src offs :
  st_rel lab sw sv -> net sw = l1 ++ m :: l2 -> m_data m = Pending src offs ->
  let m' := Msg (m_src m) (m_dst m) (m_epoch m) (m_kind m) (m_target m) (m_nbi m)
              (Captured (map (fun o => (o, mem sw (m_src m) (src + o))) offs)) in
  st_rel lab (set_net sw (l1 ++ m' :: l2)) sv /\ (dweight (l1 ++ m' :: l2) < dweight (net sw))%nat.
Proof.
  intros Hst E Hd m'. assert (m ∈ net sw) as Hin by (rewrite E, elem_of_app, elem_of_cons; auto).
  assert (sync_msg m = false) as Hs.
  { apply not_true_iff_false. intros Hs. destruct (r_sync _ _ _ Hst m Hin Hs). congruence. }
  assert (sync_msg m' = false) as Hs' by done.
  split; [|rewrite E, !dweight_app, !(dweight_app [_] l2 : dweight (_ :: l2) = _), !dweight_one, Hs, Hs';
           unfold msg_weight; rewrite Hd; simpl; lia].
  assert (forall p o, o ∈ D p -> p ∈ M -> carries p o m -> carries p o m') as Hc.
  { intros p o Ho Hp Hc. destruct o as [pe t d nbi| | | | | | | | | |]; try done.
    destruct Hc as (E1 & E2 & E3 & E4 & Hdat). do 4 (split; [done|]).
    destruct d as [vs|src' offs']; rewrite Hd in Hdat; [by destruct Hdat as [|[]]|].
    destruct Hdat as [[= <- <-]|]; [|done]. right. simpl. f_equal. apply map_ext_in.
    intros y Hy%list_elem_of_In. f_equal. rewrite E1. eapply stable_value; [done|].
    pose proof (HD p Hp) as HDp. rewrite list.Forall_forall in HDp. specialize (HDp _ Ho). by apply HDp. }
  destruct Hst as [H1 H2 (H3 & H3' & H3'') H4 H5 H6 H7]. rewrite E in *.
  assert (forall y, y ∈ l1 ++ m' :: l2 <-> y ∈ l1 ++ l2 \/ y = m') as Hnet
    by (intros y; rewrite !elem_of_app, elem_of_cons; tauto).
  assert (forall y, y ∈ l1 ++ m :: l2 <-> y ∈ l1 ++ l2 \/ y = m) as Hnet0
    by (intros y; rewrite !elem_of_app, elem_of_cons; tauto).
  split; simpl; try done; try setoid_rewrite Hnet; setoid_rewrite Hnet0 in H3''; setoid_rewrite Hnet0 in H4;
    setoid_rewrite Hnet0 in H5; setoid_rewrite Hnet0 in H6.
  - rewrite H2, !List.filter_app. simpl. by rewrite Hs, Hs'.
  - split; [done|]. split; [done|]. intros y [?| ->]; [auto|]. by apply (H3'' m); right.
  - intros y [?| ->]; [auto|congruence].
  - intros y [?| ->] Hy; [auto|]. destruct (H5 m (or_intror eq_refl) Hs) as (Ha & Hb & o & Ho & Hco).
    split; [done|]. split; [done|]. exists o. split; [done|]. by apply Hc.
  - intros p k o Hp Hk Ho. pose proof (list_elem_of_lookup_2 _ _ _ Ho) as Ho'.
    destruct (H6 p k o Hp Hk Ho) as [(y & [Hy| ->] & Hys & Hyc)|]; [left|left|by right].
    + exists y. auto.
    + exists m'. split; [by right|]. split; [done|]. by apply Hc.
Qed.

(** A put arrives. *)
Lemma st_deliver_data lab sw sv l1 m l2 vals :
  st_rel lab sw sv -> net sw = l1 ++ m :: l2 -> m_data m = Captured vals -> sync_msg m = false ->
  st_rel lab (set_net (set_mem sw (m_dst m)
    (apply_vals (m_kind m) (m_target m) vals (mem sw (m_dst m)))) (l1 ++ l2)) sv /\
  (dweight (l1 ++ l2) < dweight (net sw))%nat.
Proof.
  intros Hst E Hd Hs. assert (m ∈ net sw) as Hin by (rewrite E, elem_of_app, elem_of_cons; auto).
  split; [|rewrite E, !dweight_app, (dweight_app [m] l2 : dweight (_ :: l2) = _), dweight_one, Hs;
           unfold msg_weight; rewrite Hd; simpl; lia].
  destruct (r_data _ _ _ Hst m Hin Hs) as (Hp & _ & o & Ho & Hc).
  pose proof (carries_writes _ _ _ _ Hc Hd) as Hw.
  assert (m_kind m = KPut) as Hk by (destruct o; try done; by destruct Hc as (_ & _ & ? & _)). rewrite Hk.
  set (mm := <[m_dst m := apply_vals KPut (m_target m) vals (mem sw (m_dst m))]> (mem sw)).
  assert (forall i a, (exists x, (i, a, x) ∈ writes (m_src m) o /\ mm i a = x) \/
    ((forall x, (i, a, x) ∉ writes (m_src m) o) /\ mm i a = mem sw i a)) as Hmm.
  { intros i a. unfold mm. update_cases.
    - subst i. destruct (apply_puts (m_target m) vals (mem sw (m_dst m)) a) as [(x & Hx & Ea & Ev)|[Hn Ev]].
      + left. exists x.2. split; [|done]. apply Hw. split; [done|]. by exists x.
      + right. split; [|done]. intros x (_ & y & Hy & Ey & _)%Hw. by eapply Hn.
    - right. split; [|done]. by intros x [-> _]%Hw. }
  assert (forall i a x, (i, a, x) ∈ writes (m_src m) o -> written i a x) as Hwr
    by (intros; exists (m_src m), o; auto).
  destruct Hst as [H1 H2 (H3 & H3' & H3'') H4 H5 H6 H7]. rewrite E in *.
  assert (forall y, y ∈ l1 ++ m :: l2 <-> y ∈ l1 ++ l2 \/ y = m) as Hnet
    by (intros y; rewrite !elem_of_app, elem_of_cons; tauto).
  setoid_rewrite Hnet in H3''. setoid_rewrite Hnet in H4. setoid_rewrite Hnet in H5. setoid_rewrite Hnet in H6.
  split; simpl; fold mm; try by auto.
  - intros i a. rewrite H1. destruct (in_psync a) eqn:Ea; [|done].
    destruct (Hmm i a) as [(x & Hx & _)|[_ ->]]; [|done]. apply Hwr, written_data in Hx. congruence.
  - rewrite H2, !List.filter_app. simpl. by rewrite Hs.
  - intros p k o' Hpm Hk' Ho'. pose proof (list_elem_of_lookup_2 _ _ _ Ho') as Hino.
    destruct (H6 p k o' Hpm Hk' Ho') as [(y & [Hy| ->] & Hys & Hyc)|Hr]; [left; by exists y|right..];
      intros i a x Hx; assert (written i a x) as Hwx by (by exists p, o').
    + destruct (Hmm i a) as [(x' & Hx' & ->)|[Hn _]]; [by eapply Hfun; [apply Hwr|]|].
      exfalso. apply (Hn x). apply Hw. by apply (carries_writes _ _ _ _ Hyc Hd).
    + destruct (Hmm i a) as [(x' & Hx' & ->)|[_ ->]]; [by eapply Hfun; [apply Hwr|]|by apply Hr].
  - intros i a Ha. destruct (Hmm i a) as [(x & Hx & ->)|[_ ->]]; [right; by apply Hwr|by apply H7].
Qed.

(** An update of the pSync arrives, in both jobs. *)
Lemma st_deliver_sync lab sw sv l1 m l2 vals :
  st_rel lab sw sv -> net sw = l1 ++ m :: l2 -> m_data m = Captured vals -> sync_msg m = true ->
  exists sv', net_step sv sv' /\ log sv' = log sv /\ dweight (l1 ++ l2) = dweight (net sw) /\
    st_rel lab (set_net (set_mem sw (m_dst m)
      (apply_vals (m_kind m) (m_target m) vals (mem sw (m_dst m)))) (l1 ++ l2)) sv'.
Proof.
  intros Hst E Hd Hs. assert (m ∈ net sw) as Hin by (rewrite E, elem_of_app, elem_of_cons; auto).
  destruct (r_sync _ _ _ Hst m Hin Hs) as [x Hx]. rewrite Hd in Hx. injection Hx as ->.
  destruct Hst as [H1 H2 (H3 & H3' & H3'') H4 H5 H6 H7]. rewrite E in *.
  rewrite List.filter_app in H2. simpl in H2. rewrite Hs in H2.
  eexists. split; [eapply net_deliver; [exact H2|exact Hd|]|split; [done|split]].
  - apply forallb_forall. intros y _. rewrite (H3'' m); [by rewrite andb_false_r|].
    rewrite elem_of_app, elem_of_cons; auto.
  - rewrite !dweight_app, (dweight_app [m] l2 : dweight (_ :: l2) = _), dweight_one, Hs. lia.
  - assert (forall y, y ∈ l1 ++ m :: l2 <-> y ∈ l1 ++ l2 \/ y = m) as Hnet
      by (intros y; rewrite !elem_of_app, elem_of_cons; tauto).
    setoid_rewrite Hnet in H3''. setoid_rewrite Hnet in H4. setoid_rewrite Hnet in H5. setoid_rewrite Hnet in H6.
    assert (forall i a, in_psync a = false -> <[m_dst m := apply_vals (m_kind m) (m_target m) [(0, x)]
        (mem sw (m_dst m))]> (mem sw) i a = mem sw i a) as Hmm.
    { intros i a Ha. update_cases; [|done]. subst. cbn. rewrite Z.add_0_r. update_cases; [|done].
      unfold sync_msg in Hs. subst. congruence. }
    split; simpl; try by auto.
    + intros i a. destruct (decide (m_dst m = i)) as [<-|Hi].
      * rewrite !fn_lookup_insert, Z.add_0_r. unfold sync_msg in Hs.
        destruct (decide (m_target m = a)) as [<-|Ha].
        -- by rewrite !fn_lookup_insert, H1, Hs.
        -- by rewrite !fn_lookup_insert_ne, H1 by done.
      * by rewrite !fn_lookup_insert_ne, H1 by done.
    + by rewrite List.filter_app.
    + intros p k o Hp Hk Ho. destruct (H6 p k o Hp Hk Ho) as [(y & [Hy| ->] & Hys & Hyc)|Hr];
        [left; by exists y|congruence|right].
      intros i a y Hy. rewrite Hmm; [by apply Hr|]. eapply written_data. exists p, o.
      split; [done|]. split; [by eapply list_elem_of_lookup_2|done].
    + intros i a Ha. rewrite Hmm by done. by apply H7.
Qed.

(** *** The jobs *)

Lemma length_ops p : length (ops p) = (nd p + 1 + nb p + length (R p))%nat.
Proof. unfold ops. rewrite length_app. simpl. rewrite length_app. lia. Qed.

(** The operation at each position. *)
Lemma ops_lookup p l o : ops p !! l = Some o ->
  (l < nd p /\ D p !! l = Some o)%nat \/ (l = nd p /\ o = OQuiet) \/
  (exists j, l = (nd p + 1 + j)%nat /\ B p !! j = Some o) \/
  (nd p + nb p < l /\ o ∈ R p)%nat.
Proof.
  unfold ops. intros H. apply lookup_app_Some in H as [H|[Hl H]].
  - left. split; [by apply lookup_lt_Some in H|done].
  - right. destruct (l - nd p)%nat as [|j] eqn:Ej.
    + left. injection H as <-. split; [lia|done].
    + right. cbn in H. apply lookup_app_Some in H as [H|[Hj H]].
      * left. exists j. split; [lia|done].
      * right. split; [lia|]. by eapply list_elem_of_lookup_2.
Qed.

Lemma vops_lookup p k : (k <= nb p)%nat ->
  vops p !! k = match k with O => Some (OMark ENTER) | S j => B p !! j end.
Proof.
  intros Hk. unfold vops. destruct k as [|j]; [done|]. simpl. by rewrite lookup_app_l by lia.
Qed.

Lemma vops_body p j o : B p !! j = Some o -> vops p !! S j = Some o.
Proof. intros H. rewrite vops_lookup; [done|]. by apply lookup_lt_Some in H. Qed.

Lemma vops_exit p : drop (1 + nb p) (vops p) = [OMark EXIT].
Proof. unfold vops. simpl. by rewrite drop_app_length. Qed.

Lemma seqp_step k p l o v x sv' : progs v p = seqp (drop k l) -> l !! k = Some o ->
  op_exec p o (w_st v) = Some (x, sv') -> step v (World (<[p := seqp (drop (S k) l)]> (progs v)) sv').
Proof.
  intros Hp Ho Hex. rewrite (drop_S _ _ _ Ho) in Hp. simpl in Hp. by apply (step_pe v p o _ x sv' Hp).
Qed.

(** The barrier's job does one operation, and leaves when it was the last. *)
Lemma v_move v p l o x sv' :
  progs v p = seqp (drop (vpos p l) (vops p)) -> (nd p <= l <= nd p + nb p)%nat ->
  vops p !! (l - nd p)%nat = Some o -> op_exec p o (w_st v) = Some (x, sv') ->
  exists n v', nsteps step (S n) v v' /\ progs v' = <[p := seqp (drop (vpos p (S l)) (vops p))]> (progs v) /\
    (exists lg, w_st v' = St (mem sv') (net sv') (epoch sv') (log sv' ++ lg) /\ (forall y, y ∈ lg -> y = (p, EXIT))) /\
    (nd p + nb p < S l -> (p, EXIT) ∈ log (w_st v'))%nat.
Proof.
  intros Hp Hl Ho Hex. unfold vpos in Hp. rewrite decide_True in Hp by lia.
  pose proof (seqp_step _ _ _ _ _ _ _ Hp Ho Hex) as Hs1. unfold vpos. case_decide as Hd.
  - exists 0%nat. eexists. split; [by eapply nsteps_once|]. split; [|split].
    + simpl. by replace (S l - nd p)%nat with (S (l - nd p)) by lia.
    + exists []. simpl. rewrite app_nil_r. split; [by destruct sv'|]. by intros y ?%elem_of_nil.
    + lia.
  - assert (l - nd p = nb p)%nat as El by lia. rewrite El in Hs1.
    set (v1 := World _ _) in Hs1.
    assert (step v1 (World (<[p := skip]> (progs v1)) (St (mem sv') (net sv') (epoch sv') (log sv' ++ [(p, EXIT)])))) as Hs2.
    { eapply (step_pe v1 p (OMark EXIT) (fun _ => skip) 0); [|done]. unfold v1. cbn [progs]. rewrite fn_lookup_insert.
      change (S (nb p)) with (1 + nb p)%nat. by rewrite vops_exit. }
    exists 1%nat. eexists. split; [eapply nsteps_l; [done|by eapply nsteps_once]|]. split; [|split].
    + rewrite (drop_ge (vops p)) by (unfold vops; cbn [length]; rewrite length_app; simpl; lia).
      simpl. extensionality q. update_cases; [subst; by rewrite fn_lookup_insert|].
      by rewrite !fn_lookup_insert_ne.
    + exists [(p, EXIT)]. split; [done|]. by intros y ->%list_elem_of_singleton.
    + intros _. simpl. apply elem_of_app. right. apply list_elem_of_here.
Qed.

Lemma st_log lab sw sv lg : st_rel lab sw sv -> st_rel lab sw (St (mem sv) (net sv) (epoch sv) lg).
Proof. by intros [H1 H2 H3 H4 H5 H6 H7]. Qed.

Lemma follows_step m l i o k q : follows m (drop i l) q -> q = Do o k ->
  l !! i = Some o /\ forall v, (match o with OLoad a => v = m a | _ => True end) -> follows m (drop (S i) l) (k v).
Proof.
  intros Hf ->. destruct (l !! i) as [o'|] eqn:E.
  - rewrite (drop_S _ _ _ E) in Hf. destruct Hf as (k' & [= <- <-] & Hk). done.
  - apply lookup_ge_None in E. rewrite drop_ge in Hf by done. done.
Qed.

(** The steps the members still have to make on their own. *)
Definition own (p : Z) (l : nat) : nat := ((nd p - l) + (length (ops p) - l `max` (1 + nd p + nb p)))%nat.
Definition pmeasure (lab : Z -> nat) (n : list msg) : nat := (3 * remaining own M lab + dweight n)%nat.

Lemma remaining_same lab p : (nd p <= lab p <= nd p + nb p)%nat ->
  remaining own M (<[p := S (lab p)]> lab) = remaining own M lab.
Proof.
  intros Hl. unfold remaining. f_equal. apply map_ext. intros q. update_cases; [|done]. subst.
  unfold own. lia.
Qed.

Lemma rel_update lab w v p q sw' v' :
  rel lab w v -> p ∈ M -> (lab p < length (ops p))%nat ->
  follows (m0 p) (drop (S (lab p)) (ops p)) q ->
  progs v' = <[p := seqp (drop (vpos p (S (lab p))) (vops p))]> (progs v) ->
  (forall y, y ∈ log (w_st v) -> y ∈ log (w_st v')) ->
  (forall j, (j, ENTER) ∈ log (w_st v') -> (j, ENTER) ∈ log (w_st v) \/ j = p /\ (nd p <= lab p)%nat) ->
  (nd p + nb p < S (lab p) -> (p, EXIT) ∈ log (w_st v'))%nat ->
  st_rel (<[p := S (lab p)]> lab) sw' (w_st v') ->
  rel (<[p := S (lab p)]> lab) (World (<[p := q]> (progs w)) sw') v'.
Proof.
  intros [H1 H2 H3 H4 H5 H6] Hp Hl Hq Hv Hlog Hen Hex Hst. split; simpl; [| | | | |done].
  - intros j. destruct (decide (j = p)) as [->|Hj].
    + rewrite !fn_lookup_insert. by rewrite decide_True.
    + rewrite !fn_lookup_insert_ne by done. apply H1.
  - intros j. rewrite Hv. destruct (decide (j = p)) as [->|Hj].
    + rewrite !fn_lookup_insert. by rewrite decide_True.
    + rewrite !fn_lookup_insert_ne by done. apply H2.
  - intros j Hj. update_cases; [subst; lia|auto].
  - intros j Hj [Hin|[-> Hd]]%Hen; [|rewrite fn_lookup_insert; lia].
    specialize (H4 j Hj Hin). update_cases; [subst; lia|done].
  - intros j Hj. update_cases; [subst; done|]. intros. apply Hlog. by apply H5.
Qed.

(** When the barrier's job does not move. *)
Lemma vpos_same lab w v p : rel lab w v -> p ∈ M -> (lab p < nd p \/ nd p + nb p < lab p)%nat ->
  progs v = <[p := seqp (drop (vpos p (S (lab p))) (vops p))]> (progs v).
Proof.
  intros Hrel Hp Hl. extensionality q. update_cases; [|done]. subst q.
  rewrite (r_vprog _ _ _ Hrel), decide_True by done. do 2 f_equal. unfold vpos. repeat case_decide; lia.
Qed.

(** One step of a member: the barrier's job follows, or the member's own work gets smaller. *)
Lemma rel_pe lab w v p o k x sw' :
  rel lab w v -> rtc step (barrier_job M (fun p => seqp (B p)) m0) v ->
  progs w p = Do o k -> op_exec p o (w_st w) = Some (x, sw') ->
  let lab' := <[p := S (lab p)]> lab in
  exists n v', nsteps step n v v' /\ rel lab' (World (<[p := k x]> (progs w)) sw') v' /\
    (pmeasure lab' (net sw') < n + pmeasure lab (net (w_st w)))%nat.
Proof.
  intros Hrel Hv Hp Hex lab'. pose proof (r_prog _ _ _ Hrel p) as Hf.
  destruct (decide (p ∈ M)) as [HpM|]; [|simpl in Hf; congruence].
  destruct (follows_step _ _ _ _ _ _ Hf Hp) as [Ho Hk]. pose proof (lookup_lt_Some _ _ _ Ho) as Hlt.
  pose proof (r_st _ _ _ Hrel) as Hst. pose proof (r_vprog _ _ _ Hrel p) as Hvp. rewrite decide_True in Hvp by done.
  pose proof (remaining_insert own M lab p (S (lab p)) HM HpM) as Hrem. unfold own in Hrem at 1 2.
  destruct (ops_lookup _ _ _ Ho) as [[Hl Hd]|[[Hl ->]|[(j & Hl & Hb)|[Hl Hr]]]].
  - (* a put *)
    destruct (st_issue _ _ _ _ _ _ _ Hst HpM Hd Hex) as (Hst' & Hx & Hw).
    exists 0%nat, v. split; [constructor|]. split; [|unfold pmeasure, lab'; lia].
    apply (rel_update _ _ _ _ _ _ _ Hrel HpM Hlt); auto; [|lia]. eapply vpos_same; [done|done|by left].
  - (* the quiet *)
    simpl in Hex. case_match eqn:Hq; [|done]. injection Hex as <- <-.
    destruct (v_move v p (lab p) (OMark ENTER) 0 (St (mem (w_st v)) (net (w_st v)) (epoch (w_st v))
      (log (w_st v) ++ [(p, ENTER)]))) as (n & v' & Hn & Hpv & (lg & Hs & Hlg) & Hexit); [done|lia| |done|].
    { rewrite Hl, Nat.sub_diag. by rewrite vops_lookup by lia. }
    exists (S n), v'. split; [done|]. split.
    + apply (rel_update _ _ _ _ _ _ _ Hrel HpM Hlt); [by apply Hk|done| | |done|]; rewrite ?Hs; simpl.
      * intros y Hy. rewrite !elem_of_app. auto.
      * intros i [[Hi|[= ->]%list_elem_of_singleton]%elem_of_app|Hi%Hlg]%elem_of_app; [by left| |done].
        right. split; [done|lia].
      * apply st_log. apply st_label; [done|lia|]. intros m Hm _ Heq.
        rewrite forallb_forall in Hq. specialize (Hq m (proj1 (list_elem_of_In _ _) Hm)). lia.
    + unfold pmeasure, lab'. rewrite remaining_same by lia. lia.
  - (* the barrier *)
    pose proof (HB p HpM) as HBp. rewrite list.Forall_forall in HBp.
    specialize (HBp o (list_elem_of_lookup_2 _ _ _ Hb)). pose proof (lookup_lt_Some _ _ _ Hb).
    destruct (st_sync_op _ _ _ _ _ _ _ Hst HBp Hex) as (sv' & Hex' & Hst' & Hlog & Hw).
    destruct (v_move v p (lab p) o x sv') as (n & v' & Hn & Hpv & (lg & Hs & Hlg) & Hexit); [done|lia| |done|].
    { replace (lab p - nd p)%nat with (S j) by lia. by apply vops_body. }
    exists (S n), v'. split; [done|]. split.
    + apply (rel_update _ _ _ _ _ _ _ Hrel HpM Hlt); [apply Hk; by destruct o|done| | |done|]; rewrite ?Hs; simpl.
      * intros y Hy. rewrite elem_of_app, Hlog. auto.
      * intros i [Hi|Hi%Hlg]%elem_of_app; [|done]. rewrite Hlog in Hi. by left.
      * apply st_log. apply st_label; [done|lia|]. apply (no_data _ _ _ _ Hst'). lia.
    + unfold pmeasure, lab'. rewrite remaining_same by lia. lia.
  - (* a reset *)
    pose proof (HR p HpM) as HRp. rewrite list.Forall_forall in HRp. specialize (HRp o Hr).
    assert (sw' = w_st w) as ->.
    { eapply st_reset; [exact Hst| |exact HRp|exact Hex]. intros a.
      apply (barrier_restored _ _ _ _ Hspec v p a Hv). by apply (r_exit _ _ _ Hrel). }
    exists 0%nat, v. split; [constructor|]. split; [|unfold pmeasure, lab'; lia].
    apply (rel_update _ _ _ _ _ _ _ Hrel HpM Hlt); auto.
    + apply Hk. by destruct o.
    + eapply vpos_same; [done|done|by right].
    + intros _. by apply (r_exit _ _ _ Hrel).
    + apply st_label; [done|lia|]. apply (no_data _ _ _ _ Hst). lia.
Qed.

Lemma rel_net lab w v sw' : rel lab w v -> net_step (w_st w) sw' ->
  exists n v', nsteps step n v v' /\ rel lab (World (progs w) sw') v' /\
    (pmeasure lab (net sw') < n + pmeasure lab (net (w_st w)))%nat.
Proof.
  intros [H1 H2 H3 H4 H5 Hst] Hn. remember (w_st w) as sw eqn:Es.
  destruct Hn as [sw l1 m l2 src offs E Hd|sw l1 m l2 vals E Hd Hf].
  - destruct (st_capture _ _ _ _ _ _ _ _ Hst E Hd) as [Hst' Hw].
    exists 0%nat, v. split; [constructor|]. split; [by split|unfold pmeasure; simpl; lia].
  - destruct (sync_msg m) eqn:Hs.
    + destruct (st_deliver_sync _ _ _ _ _ _ _ Hst E Hd Hs) as (sv' & Hn & Hlog & Hw & Hst').
      exists 1%nat, (World (progs v) sv'). split; [by eapply nsteps_once, step_net|].
      split; [split; simpl; rewrite ?Hlog; done|unfold pmeasure; simpl; lia].
    + destruct (st_deliver_data _ _ _ _ _ _ _ Hst E Hd Hs) as [Hst' Hw].
      exists 0%nat, v. split; [constructor|]. split; [by split|unfold pmeasure; simpl; lia].
Qed.

(** ** The theorem *)

Lemma rel_step lab w v w' :
  rel lab w v -> rtc step (barrier_job M (fun p => seqp (B p)) m0) v -> step w w' ->
  exists lab' n v', nsteps step n v v' /\ rel lab' w' v' /\
    (pmeasure lab' (net (w_st w')) < n + pmeasure lab (net (w_st w)))%nat.
Proof.
  intros Hrel Hv Hst. destruct Hst as [w p o k x s' Hp Hex|w s' Hn].
  - destruct (rel_pe _ _ _ _ _ _ _ _ Hrel Hv Hp Hex) as (n & v' & H). eauto.
  - destruct (rel_net _ _ _ _ Hrel Hn) as (n & v' & H). eauto.
Qed.

Lemma rel_reachable lab w v w' :
  rel lab w v -> rtc step (barrier_job M (fun p => seqp (B p)) m0) v -> rtc step w w' ->
  exists lab' v', rtc step (barrier_job M (fun p => seqp (B p)) m0) v' /\ rel lab' w' v'.
Proof.
  intros Hrel Hv Hw. revert lab v Hrel Hv. induction Hw as [w|w1 w2 w3 H12 _ IH]; intros lab v Hrel Hv; [eauto|].
  destruct (rel_step _ _ _ _ Hrel Hv H12) as (lab' & n & v' & Hn & Hrel' & _).
  apply (IH lab' v' Hrel'). etrans; [done|]. eapply rtc_nsteps. eauto.
Qed.

(** Each step is one of the barrier's job or spends the members' own work. *)
Lemma rel_bounded n w w' : nsteps step n w w' -> forall lab v k,
  rel lab w v -> nsteps step k (barrier_job M (fun p => seqp (B p)) m0) v ->
  (n + k <= bound + pmeasure lab (net (w_st w)))%nat.
Proof.
  destruct (barrier_completes _ _ _ _ Hspec) as [Hb _].
  induction 1 as [w|n w1 w2 w3 H12 _ IH]; intros lab v k Hrel Hk.
  - specialize (Hb _ _ Hk). lia.
  - destruct (rel_step _ _ _ _ Hrel (rtc_nsteps_2 _ _ _ Hk) H12) as (lab' & j & v' & Hj & Hrel' & Hm).
    specialize (IH lab' v' (k + j)%nat Hrel' (nsteps_trans _ _ _ _ _ Hk Hj)). lia.
Qed.

Lemma rel_returned lab w v p : rel lab w v -> p ∈ M -> returned w p <-> lab p = length (ops p).
Proof.
  intros Hrel Hp. pose proof (r_prog _ _ _ Hrel p) as Hf. rewrite decide_True in Hf by done.
  pose proof (r_len _ _ _ Hrel p Hp) as Hl. unfold returned. split.
  - intros Hr. destruct (ops p !! lab p) as [o|] eqn:E.
    + rewrite (drop_S _ _ _ E) in Hf. destruct Hf as (k & Hk & _). congruence.
    + apply lookup_ge_None in E. lia.
  - intros E. by rewrite E, drop_all in Hf.
Qed.

(** An operation outside the barrier is never blocked when the network is idle. *)
Lemma own_runs s p o : net s = [] -> (p ∈ M /\ (o ∈ D p \/ o ∈ R p)) \/ o = OQuiet ->
  exists r, op_exec p o s = Some r.
Proof.
  intros Hn [[Hp [Ho|Ho]]| ->].
  - pose proof (HD p Hp) as H. rewrite list.Forall_forall in H. specialize (H o Ho). destruct o; simpl; eauto; done.
  - pose proof (HR p Hp) as H. rewrite list.Forall_forall in H. specialize (H o Ho). destruct o; simpl; eauto; done.
  - simpl. rewrite Hn. simpl. eauto.
Qed.

(** A member whose next operation can run. *)
Lemma rel_runs lab w v p o r : rel lab w v -> p ∈ M -> ops p !! lab p = Some o ->
  op_exec p o (w_st w) = Some r -> exists w', step w w'.
Proof.
  intros Hrel Hp Ho Hex. destruct r as [x s']. pose proof (r_prog _ _ _ Hrel p) as Hf.
  rewrite decide_True, (drop_S _ _ _ Ho) in Hf by done. destruct Hf as (k & Hk & _).
  eexists. by eapply step_pe.
Qed.

(** The members inside the barrier, and where the barrier's job is then. *)
Definition inside (p : Z) (l : nat) : Prop := (nd p < l <= nd p + nb p)%nat.

Lemma inside_ops p l : inside p l -> exists o, o ∈ B p /\ ops p !! l = Some o /\
  drop (vpos p l) (vops p) = o :: drop (S (vpos p l)) (vops p).
Proof.
  unfold inside. intros Hl. destruct (lookup_lt_is_Some_2 (B p) (l - nd p - 1)%nat ltac:(lia)) as [o Ho].
  exists o. split; [by eapply list_elem_of_lookup_2|]. unfold vpos. rewrite decide_True by lia.
  replace (l - nd p)%nat with (S (l - nd p - 1)) by lia. split.
  - unfold ops. rewrite lookup_app_r by lia. replace (l - nd p)%nat with (S (l - nd p - 1)) by lia.
    simpl. by rewrite lookup_app_l by lia.
  - apply drop_S. by apply vops_body.
Qed.

Lemma vpos_end p : drop (vpos p (length (ops p))) (vops p) = [].
Proof.
  unfold vpos. rewrite length_ops. apply drop_ge. rewrite decide_False by lia.
  unfold vops. cbn [length]. rewrite length_app. simpl. lia.
Qed.

(** If the barrier's job can move inside the barrier, so can the job. *)
Lemma inside_progress lab w v v' : rel lab w v -> net (w_st w) = [] ->
  (forall p, p ∈ M -> lab p = length (ops p) \/ inside p (lab p)) -> step v v' -> exists w', step w w'.
Proof.
  intros Hrel Hn Hcase Hstep. pose proof (r_vprog _ _ _ Hrel) as Hvp.
  destruct Hstep as [v p o k x s' Hp Hex|v s' Hns].
  - specialize (Hvp p). rewrite Hp in Hvp. destruct (decide (p ∈ M)) as [HpM|]; [|done].
    destruct (Hcase p HpM) as [El|Hb]; [by rewrite El, vpos_end in Hvp|].
    destruct (inside_ops p (lab p) Hb) as (o' & Hin & Ho & Hd). rewrite Hd in Hvp. injection Hvp as <- _.
    pose proof (HB p HpM) as HBp. rewrite list.Forall_forall in HBp.
    destruct (st_sync_back _ _ _ _ _ _ _ (r_st _ _ _ Hrel) Hn (HBp o Hin) Hex) as [r Hr].
    by eapply rel_runs.
  - exfalso. pose proof (r_net _ _ _ (r_st _ _ _ Hrel)) as Hnet. rewrite Hn in Hnet. simpl in Hnet.
    destruct Hns as [s0 l1 m l2 ? ? E|s0 l1 m l2 ? E]; rewrite Hnet in E; by destruct l1.
Qed.

Lemma rel_progress lab w v : rel lab w v -> rtc step (barrier_job M (fun p => seqp (B p)) m0) v ->
  all_returned w \/ exists w', step w w'.
Proof.
  intros Hrel Hv. destruct (decide (length (net (w_st w)) = 0%nat)) as [Hn|Hn].
  2:{ right. destruct (net_progress (w_st w)) as [s' Hs']; [intros E; by rewrite E in Hn|].
      eexists. by apply step_net. }
  apply nil_length_inv in Hn.
  destruct (decide (Exists (fun p => lab p < length (ops p) /\ ~ (nd p < lab p <= nd p + nb p))%nat M)) as [HE|HE].
  - apply list.Exists_exists in HE as (p & Hp & Hlt & Hnb). right.
    destruct (lookup_lt_is_Some_2 _ _ Hlt) as [o Ho].
    destruct (own_runs (w_st w) p o Hn) as [r Hr]; [|by eapply rel_runs].
    destruct (ops_lookup _ _ _ Ho) as [[_ Hd]|[[_ ->]|[(j & Hl & Hb)|[_ Hr]]]]; [left|by right| |left].
    + split; [done|]. left. by eapply list_elem_of_lookup_2.
    + apply lookup_lt_Some in Hb. lia.
    + auto.
  - assert (forall p, p ∈ M -> lab p = length (ops p) \/ inside p (lab p)) as Hcase.
    { intros p Hp. pose proof (r_len _ _ _ Hrel p Hp).
      destruct (decide (lab p = length (ops p))) as [|Hne]; [by left|right].
      destruct (decide (nd p < lab p <= nd p + nb p)%nat) as [|Hnb]; [done|]. exfalso.
      apply HE, list.Exists_exists. exists p. split; [done|]. split; [lia|done]. }
    destruct (barrier_completes _ _ _ _ Hspec) as [_ Hprog].
    destruct (Hprog v Hv) as [Hdone|[v' Hstep]]; [left|right; by eapply inside_progress].
    intros p. destruct (decide (p ∈ M)) as [Hp|Hp].
    + apply (rel_returned _ _ _ _ Hrel Hp). destruct (Hcase p Hp) as [|Hb]; [done|]. exfalso.
      specialize (Hdone p). unfold returned in Hdone. rewrite (r_vprog _ _ _ Hrel), decide_True in Hdone by done.
      destruct (inside_ops p (lab p) Hb) as (o & _ & _ & Hd). by rewrite Hd in Hdone.
    + pose proof (r_prog _ _ _ Hrel p) as Hf. by rewrite decide_False in Hf.
Qed.

(** Each operation outside the barrier takes at most three steps. *)
Definition phase_steps : nat := (bound + 3 * sum_list (map (fun p => nd p + length (R p)) M))%nat.

Lemma rel_init body : (forall p, p ∈ M -> follows (m0 p) (ops p) (body p)) ->
  rel (fun _ => 0%nat) (coll_job M m0 body) (barrier_job M (fun p => seqp (B p)) m0).
Proof.
  intros Hb. split; cbn [progs w_st log coll_job barrier_job init_state]; try (by intros; lia).
  - intros p. case_decide; [by apply Hb|done].
  - intros p. assert (vpos p 0 = 0%nat) as -> by (unfold vpos; rewrite decide_True; lia).
    unfold job_prog, vops, marked. destruct (decide (p ∈ M)); [|done]. simpl. f_equal. extensionality x.
    apply (seqp_app (B p) [OMark EXIT]).
  - intros p Hp ?%elem_of_nil. done.
  - split; simpl; try done.
    + intros p a. by destruct (in_psync a).
    + split; [done|]. split; [done|]. intros m ?%elem_of_nil. done.
    + intros m ?%elem_of_nil. done.
    + intros m ?%elem_of_nil. done.
    + intros; lia.
    + intros i a _. by left.
Qed.

Lemma phase_correct body : (forall p, p ∈ M -> follows (m0 p) (ops p) (body p)) ->
  exchange_spec M in_psync m0 written body phase_steps.
Proof.
  intros Hb. pose proof (rel_init body Hb) as Hi. set (w0 := coll_job M m0 body) in *.
  assert (forall w, rtc step w0 w -> exists lab v,
    rtc step (barrier_job M (fun p => seqp (B p)) m0) v /\ rel lab w v) as Hreach
    by (intros w; by apply (rel_reachable _ _ _ _ Hi)).
  assert (forall lab w v p, rel lab w v -> rtc step (barrier_job M (fun p => seqp (B p)) m0) v ->
    p ∈ M -> returned w p -> (p, EXIT) ∈ log (w_st v)) as Hleft.
  { intros lab w v p Hrel Hv Hp Hr%(rel_returned _ _ _ _ Hrel Hp).
    apply (r_exit _ _ _ Hrel p Hp). rewrite Hr, length_ops. lia. }
  split.
  - split; [|intros w Hw; destruct (Hreach w Hw) as (lab & v & Hv & Hrel); by eapply rel_progress].
    intros n w Hn. pose proof (rel_bounded _ _ _ Hn _ _ 0%nat Hi (nsteps_O _ _)) as H.
    unfold pmeasure, remaining, own, phase_steps in *. unfold dweight in H. simpl in H. unfold net_weight in H.
    simpl in H. assert (map (fun p => nd p - 0 + (length (ops p) - S (nd p + nb p)))%nat M =
      map (fun p => nd p + length (R p))%nat M) as E.
    { apply map_ext. intros p. rewrite length_ops. lia. }
    rewrite E in H. lia.
  - intros w i t a x Hw Hi' Hr (j & o & Hj & Ho & Hx). destruct (Hreach w Hw) as (lab & v & Hv & Hrel).
    pose proof (barrier_safe _ _ _ _ Hspec v i j Hv (Hleft _ _ _ _ Hrel Hv Hi' Hr) Hj) as Hen.
    pose proof (r_enter _ _ _ Hrel j Hj Hen) as Hlab. destruct (list_elem_of_lookup_1 _ _ Ho) as [k Hk].
    destruct (r_sent _ _ _ (r_st _ _ _ Hrel) j k o Hj) as [(m & Hm & Hs & Hc)|Hd];
      [apply lookup_lt_Some in Hk; lia|done| |by apply Hd].
    exfalso. apply (no_data _ _ _ _ (r_st _ _ _ Hrel) Hlab m Hm Hs). by destruct o; destruct Hc.
  - intros w t a Hw Ha Hn. destruct (Hreach w Hw) as (lab & v & Hv & Hrel).
    destruct (r_vals _ _ _ (r_st _ _ _ Hrel) t a Ha) as [|H]; [done|]. by apply Hn in H.
  - intros w i a Hw Hi' Hr Ha. destruct (Hreach w Hw) as (lab & v & Hv & Hrel).
    pose proof (barrier_restored _ _ _ _ Hspec v i a Hv (Hleft _ _ _ _ Hrel Hv Hi' Hr)) as H.
    rewrite <- H, (r_mem _ _ _ (r_st _ _ _ Hrel)), Ha. done.
  - intros w Hw Hr. destruct (Hreach w Hw) as (lab & v & Hv & Hrel). pose proof (r_st _ _ _ Hrel) as Hst.
    assert (all_returned v) as Hrv.
    { intros p. unfold returned. rewrite (r_vprog _ _ _ Hrel). case_decide as Hp; [|done].
      specialize (Hr p). rewrite (rel_returned _ _ _ _ Hrel Hp) in Hr. by rewrite Hr, vpos_end. }
    destruct (barrier_clean _ _ _ _ Hspec v Hv Hrv) as [Hnv _].
    destruct (net (w_st w)) as [|m n] eqn:En; [done|]. exfalso.
    assert (m ∈ net (w_st w)) as Hm by (rewrite En; apply list_elem_of_here).
    destruct (sync_msg m) eqn:Hs.
    + pose proof (r_net _ _ _ Hst) as Hnet. rewrite Hnv, En in Hnet. simpl in Hnet. by rewrite Hs in Hnet.
    + destruct (r_data _ _ _ Hst m Hm Hs) as (Hp & Hl & _). specialize (Hr (m_src m)).
      rewrite (rel_returned _ _ _ _ Hrel Hp), length_ops in Hr. lia.
Qed.
End phase.
