(* ===== verification/Exchange.v ===== *)
(** * Puts completed by a barrier: [shmem_internal_barrier] and the all-to-alls

    [Phase] applied to the barriers of the library: [shmem_internal_barrier] completes
    the puts before it at every member, and [shmem_internal_alltoall] and
    [shmem_internal_alltoalls] deliver every block to its destination. *)

From Stdlib Require Import String.
From S2P Require Import Prelude Machine Straight Internal ReduceOp Comm Tree CollInit CollSync DissemBarrier Barriers Collect Schedule Phase.
Local Open Scope string_scope.
Local Open Scope Z_scope.
Local Open Scope prog_scope.

(** ** Programs that only use their pSync *)

Definition sync_prog (lo hi : Z) : prog unit -> Prop := performs (fun o => sync_op lo hi o = true).

(** The pSync of a barrier: 16 longs. *)
Definition psync_end (pSync : Z) : Z := pSync + SIZEOF_LONG * SHMEM_BARRIER_SYNC_SIZE.

Lemma in_psync_iff lo hi a : in_psync lo hi a = true <-> lo <= a < hi.
Proof. unfold in_psync. lia. Qed.

Ltac in_sync := apply in_psync_iff; unfold psync_end, SIZEOF_LONG, SHMEM_BARRIER_SYNC_SIZE, SIZEOF_INT in *; lia.

Ltac sync_tac := repeat first [apply performs_if | apply performs_bind | apply performs_for; intros | apply performs_do; in_sync].

Lemma sync_linear_prog e start stride size pSync :
  sync_prog pSync (psync_end pSync) (shmem_internal_sync_linear e start stride size pSync).
Proof.
  unfold shmem_internal_sync_linear.
  sync_tac.
Qed.

Lemma sync_tree_prog e start stride size pSync :
  sync_prog pSync (psync_end pSync) (shmem_internal_sync_tree e start stride size pSync).
Proof.
  unfold shmem_internal_sync_tree. destruct (coll_tree _ _ _ _ _ _) as [parent children].
  unfold sync_tree_body.
  sync_tac.
Qed.

Lemma dissem_rounds_length fuel i d n : (length (dissem_rounds fuel i d n) <= fuel)%nat.
Proof.
  revert i d. induction fuel as [|fuel IH]; intros i d; simpl; [done|].
  destruct (d <? n); simpl; [|lia]. specialize (IH (i + 1) (i32 (2 * d))). lia.
Qed.

Lemma dissem_rounds_index fuel i d n k dist : (k, dist) ∈ dissem_rounds fuel i d n -> i <= k < i + Z.of_nat fuel.
Proof.
  revert i d. induction fuel as [|fuel IH]; intros i d; simpl; [by intros ?%elem_of_nil|].
  destruct (d <? n); [|by intros ?%elem_of_nil].
  intros [[= -> ->]|H]%elem_of_cons; [lia|]. apply IH in H. lia.
Qed.

Lemma sync_dissem_prog e start stride size pSync :
  sync_prog pSync (psync_end pSync) (shmem_internal_sync_dissem e start stride size pSync).
Proof.
  unfold shmem_internal_sync_dissem. apply performs_bind; [|by apply performs_do].
  apply performs_for. intros [i distance] Hi%dissem_rounds_index. sync_tac.
Qed.

Lemma sync_sync_prog params num_pes p start stride size pSync t :
  select barrier_type_of (p_BARRIER_ALGORITHM params) = t ->
  sync_prog pSync (psync_end pSync)
    (shmem_internal_sync (coll_env params num_pes p) start stride size pSync).
Proof.
  intros Ht. unfold shmem_internal_sync. apply performs_if; [apply performs_skip|].
  assert (shmem_internal_barrier_type (coll_env params num_pes p) = t) as ->.
  { rewrite <- Ht. unfold coll_env. by destruct (default _ _). }
  destruct t; [apply performs_if|..]; try apply sync_linear_prog; try apply sync_tree_prog; try apply sync_dissem_prog.
  all: exfalso; clear -Ht; unfold select, barrier_type_of in Ht; repeat case_match; simplify_eq/=.
Qed.

(** ** A pSync that is ready *)

(** Every long of the pSync holds [SHMEM_SYNC_VALUE], and so do the ints in it. *)
Definition psync_ready (M : list Z) (pSync : Z) (m0 : Z -> lmem) : Prop :=
  forall p a, p ∈ M -> pSync <= a < psync_end pSync -> m0 p a = SHMEM_SYNC_VALUE.

Section barrier_puts.
Context (params : coll_params) (num_pes start stride size pSync : Z) (t : coll_type_t).
Context (Hok : active_set_ok params num_pes start stride size).
Context (Ht : select barrier_type_of (p_BARRIER_ALGORITHM params) = t).
Let e := coll_env params num_pes.
Let M := active_set start stride size.
Context (m0 : Z -> lmem) (H0 : psync_ready M pSync m0).

Definition barrier_ops (p : Z) : list op :=
  prog_ops (shmem_internal_sync (coll_env params num_pes p) start stride size pSync).

Lemma barrier_ops_sync p : Forall (fun o => sync_op pSync (psync_end pSync) o = true) (barrier_ops p).
Proof. eapply performs_ops, sync_sync_prog, Ht. Qed.

Lemma barrier_ops_spec : barrier_spec M (fun p => seqp (barrier_ops p)) m0 (sync_bound size t).
Proof.
  eapply barrier_spec_ext; [|apply sync_is_barrier; [done|done|]].
  - intros p _. eapply performs_ops, sync_sync_prog, Ht.
  - destruct t; simpl; intros p; try (intros Hp; apply H0; [done|unfold psync_end, SIZEOF_LONG, SHMEM_BARRIER_SYNC_SIZE; lia]).
    intros k Hp Hk. apply H0; [done|].
    pose proof (dissem_rounds_length 31 0 1 size) as Hl. fold (dissem_K size) in Hl.
    unfold psync_end, dissem_slot, SIZEOF_INT, SIZEOF_LONG, SHMEM_BARRIER_SYNC_SIZE. lia.
Qed.

Definition psync_resets (n : Z) : list op :=
  map (fun i => OLocal (fun m => <[pSync + SIZEOF_LONG * i := SHMEM_SYNC_VALUE]> m)) (upto 0 n).

Lemma reset_psync_ops n : reset_psync pSync n = seqp (psync_resets n).
Proof. unfold reset_psync. by straighten. Qed.

Lemma resets_idle p n : p ∈ M -> n <= SHMEM_BARRIER_SYNC_SIZE ->
  Forall (reset_op pSync (psync_end pSync) m0 p) (psync_resets n).
Proof.
  intros Hp Hn. apply list.Forall_forall. intros o (i & <- & Hi%list_elem_of_In%elem_of_upto)%list_elem_of_In%in_map_iff.
  intros m Hm a. update_cases; [|done]. subst.
  assert (pSync <= pSync + SIZEOF_LONG * i < psync_end pSync) by (unfold psync_end, SIZEOF_LONG in *; lia).
  rewrite Hm by (by apply in_psync_iff). by rewrite H0.
Qed.

Context (D : Z -> list op).
Context (HD : forall p, p ∈ M -> Forall (data_op M pSync (psync_end pSync) m0 D p) (D p)).
Context (Hfun : forall i a v v', written M m0 D i a v -> written M m0 D i a v' -> v = v').

(** A program that performs the puts [D], the barrier and stores [n] reset values. *)
Lemma puts_barrier_resets puts n :
  (forall p, p ∈ M -> follows (m0 p) (D p) (puts p)) -> n <= SHMEM_BARRIER_SYNC_SIZE ->
  exchange_spec M (in_psync pSync (psync_end pSync)) m0 (written M m0 D)
    (fun p => puts p ;; shmem_internal_barrier (e p) start stride size pSync ;; reset_psync pSync n)
    (sync_bound size t + 3 * sum_list (map (fun p => length (D p) + Z.to_nat n) M))%nat.
Proof.
  intros Hputs Hn. pose proof (NoDup_active_set start stride size (ok_stride _ _ _ _ _ Hok)) as HM.
  pose proof (phase_correct M HM pSync (psync_end pSync) m0 D barrier_ops (fun _ => psync_resets n)
    (fun p _ => barrier_ops_sync p) _ barrier_ops_spec (fun p Hp => resets_idle p n Hp Hn) HD Hfun) as H.
  unfold phase_steps in H. assert (length (psync_resets n) = Z.to_nat n) as El.
  { unfold psync_resets. rewrite length_map, length_upto. lia. }
  rewrite El in H. apply H. intros p Hp. unfold ops. apply follows_bind; [by apply Hputs|].
  unfold shmem_internal_barrier. rewrite reset_psync_ops. rewrite pbind_assoc.
  simpl. eexists. split; [done|]. intros v _. apply follows_bind; [|apply follows_seqp].
  assert (sync_prog pSync (psync_end pSync) (shmem_internal_sync (e p) start stride size pSync)) as Hs
    by (eapply sync_sync_prog, Ht).
  rewrite (proj1 (performs_ops _ _ Hs)). apply follows_seqp.
Qed.
End barrier_puts.

(** C7: The contract of the barriers: when every member issues any puts (their sources not
    overwritten meanwhile, no two of them with different values for one cell) and then
    calls [shmem_internal_barrier], then under every interleaving and delivery order the
    calls return within a stated number of steps, and as soon as one member has returned
    every put of every member has arrived at its target. *)
Theorem barrier_delivers params num_pes start stride size pSync t m0 D puts :
  let M := active_set start stride size in
  active_set_ok params num_pes start stride size ->
  select barrier_type_of (p_BARRIER_ALGORITHM params) = t -> psync_ready M pSync m0 ->
  (forall p, p ∈ M -> Forall (data_op M pSync (psync_end pSync) m0 D p) (D p)) ->
  (forall i a v v', written M m0 D i a v -> written M m0 D i a v' -> v = v') ->
  (forall p, p ∈ M -> follows (m0 p) (D p) (puts p)) ->
  exchange_spec M (in_psync pSync (psync_end pSync)) m0 (written M m0 D)
    (fun p => puts p ;; shmem_internal_barrier (coll_env params num_pes p) start stride size pSync)
    (sync_bound size t + 3 * sum_list (map (fun p => length (D p)) M)).
Proof.
  intros M Hok Ht H0 HD Hfun Hputs.
  pose proof (puts_barrier_resets params num_pes start stride size pSync t Hok Ht m0 H0 D HD Hfun puts 0
    Hputs ltac:(done)) as H.
  assert ((fun p => length (D p) + Z.to_nat 0) = fun p => length (D p))%nat as E
    by (extensionality p; simpl; lia).
  rewrite E in H. eapply exchange_spec_ext; [|exact H]. intros p _. cbv beta. f_equal.
  extensionality u. apply (pbind_skip (shmem_internal_barrier _ _ _ _ _)).
Qed.

(** A memory with a ready pSync at 64 and data from address 200 on. *)
Definition sample_mem (p a : Z) : Z := if a <? 200 then 0 else 1000 * p + a.

Lemma sample_ready M : psync_ready M 64 sample_mem.
Proof.
  intros p a _ Ha. unfold sample_mem. destruct (Z.ltb_spec a 200); [done|]. exfalso.
  unfold psync_end, SIZEOF_LONG, SHMEM_BARRIER_SYNC_SIZE in Ha. lia.
Qed.

(** Three PEs each store their number on PE 0. *)
Lemma barrier_delivers_witness :
  let D p := [OPut 0 (300 + 8 * p) (Captured [(0, p)]) false] in
  exchange_spec (active_set 0 1 3) (in_psync 64 192) sample_mem (written (active_set 0 1 3) sample_mem D)
    (fun p => shmem_internal_put_scalar (300 + 8 * p) p 0 ;;
              shmem_internal_barrier (coll_env (sample_params "linear") 3 p) 0 1 3 64)
    (27 * 3 + 3 * 3).
Proof.
  intros D.
  assert (forall i a v, written (active_set 0 1 3) sample_mem D i a v -> exists p, i = 0 /\ a = 300 + 8 * p /\ v = p) as Hw.
  { intros i a v (p & o & _ & ->%list_elem_of_singleton & Hx). simpl in Hx.
    apply list_elem_of_singleton in Hx as [= -> -> ->]. exists p. lia. }
  apply (barrier_delivers (sample_params "linear") 3 0 1 3 64 LINEAR sample_mem D).
  - by split; simpl; lia.
  - reflexivity.
  - apply sample_ready.
  - intros p (i & Hi & ->)%elem_of_active_set. constructor; [|constructor]. simpl.
    split; [|intros x ->%list_elem_of_singleton]; apply not_true_iff_false; rewrite in_psync_iff;
      unfold psync_end, SIZEOF_LONG, SHMEM_BARRIER_SYNC_SIZE; simpl; lia.
  - intros i a v v' (p & _ & -> & ->)%Hw (p' & _ & E & ->)%Hw. lia.
  - intros p _. by eexists.
Defined.

(** ** The exchange of blocks *)

(** Two regions of memory that do not meet. *)
Definition apart (a n b m : Z) : Prop := a + n <= b \/ b + m <= a.

Section blocks.
Context (start stride size : Z) (Hstride : 1 <= stride).
Let M := active_set start stride size.
(** Element [k] of the block of the member of rank [i]: its place in a destination array
    and in a source array of [n] elements per block. *)
Context (n : Z) (dst_at src_at : Z -> Z -> Z).

(** The member of rank [j] receives block [j] of every member, ordered by rank. *)
Definition exchanged (m0 : Z -> lmem) (t a x : Z) : Prop :=
  exists i j k, 0 <= i < size /\ 0 <= j < size /\ 0 <= k < n /\
    t = start + j * stride /\ a = dst_at i k /\ x = m0 (start + i * stride) (src_at j k).

Context (m0 : Z -> lmem) (D : Z -> list op).
Context (HD : forall i, 0 <= i < size -> forall t a x,
  (exists o, o ∈ D (start + i * stride) /\ (t, a, x) ∈ writes m0 (start + i * stride) o) <->
  exists j k, 0 <= j < size /\ 0 <= k < n /\
    t = start + j * stride /\ a = dst_at i k /\ x = m0 (start + i * stride) (src_at j k)).

Lemma written_exchanged t a x : written M m0 D t a x <-> exchanged m0 t a x.
Proof.
  unfold written, exchanged. split.
  - intros (p & o & Hp & Ho & Hw). apply elem_of_active_set in Hp as (i & Hi & ->).
    destruct (proj1 (HD i Hi t a x)) as (j & k & H); [by exists o|]. exists i, j, k. tauto.
  - intros (i & j & k & Hi & H). destruct (proj2 (HD i Hi t a x)) as (o & Ho & Hw); [exists j, k; tauto|].
    exists (start + i * stride), o. split; [|done]. apply elem_of_active_set. eauto.
Qed.

Context (Hinj : forall i k i' k', 0 <= k < n -> 0 <= k' < n -> dst_at i k = dst_at i' k' -> i = i' /\ k = k').

Lemma exchanged_fun t a x x' : written M m0 D t a x -> written M m0 D t a x' -> x = x'.
Proof.
  rewrite !written_exchanged.
  intros (i & j & k & Hi & Hj & Hk & -> & -> & ->) (i' & j' & k' & _ & _ & Hk' & Et & Ea & ->).
  apply Hinj in Ea as [-> ->]; [|done..]. assert (j = j') as -> by nia. done.
Qed.

Lemma exchanged_stable lo hi p a : in_psync lo hi a = false ->
  (forall i k, 0 <= i < size -> 0 <= k < n -> a <> dst_at i k) -> stable M lo hi m0 D p a.
Proof.
  intros Ha Hn. split; [done|]. intros v (i & j & k & Hi & _ & Hk & _ & E & _)%written_exchanged.
  exfalso. by apply (Hn i k).
Qed.
End blocks.

(** ** [shmem_internal_alltoall] and [shmem_internal_alltoalls] *)

Section alltoall.
Context (params : coll_params) (num_pes start stride size pSync : Z) (t : coll_type_t).
Context (Hok : active_set_ok params num_pes start stride size).
Context (Ht : select barrier_type_of (p_BARRIER_ALGORITHM params) = t).
Let e := coll_env params num_pes.
Let M := active_set start stride size.
Let rank p := cdiv (p - start) stride.
Context (m0 : Z -> lmem) (H0 : psync_ready M pSync m0).
Context (dest source : Z).

Lemma circular_visit_iff i peer : 0 <= i < size ->
  peer ∈ circular_visit (start + i * stride) start stride size <->
  exists j, 0 <= j < size /\ peer = start + j * stride.
Proof.
  intros Hi. destruct Hok. rewrite (circular_visit_perm start stride size ltac:(lia) ltac:(lia) i Hi).
  apply elem_of_active_set.
Qed.

Lemma out_of_psync b n x : apart b n pSync (psync_end pSync - pSync) -> 0 <= x < n ->
  in_psync pSync (psync_end pSync) (b + x) = false.
Proof. intros A Hx. apply not_true_iff_false. rewrite in_psync_iff. unfold apart in A. lia. Qed.

(** Splitting an index into its block and its position there. *)
Lemma block_index n i k i' k' : 0 <= k < n -> 0 <= k' < n -> i * n + k = i' * n + k' -> i = i' /\ k = k'.
Proof. intros. assert (i = i') as -> by nia. lia. Qed.

Definition alltoall_puts (len p : Z) : list op :=
  map (fun peer => OPut peer (dest + rank p * len) (Pending (source + rank peer * len) (upto 0 len)) true)
      (circular_visit p start stride size).

Lemma alltoall_puts_writes len i : 0 <= i < size -> forall t a x,
  (exists o, o ∈ alltoall_puts len (start + i * stride) /\ (t, a, x) ∈ writes m0 (start + i * stride) o) <->
  exists j k, 0 <= j < size /\ 0 <= k < len /\ t = start + j * stride /\ a = dest + i * len + k /\
    x = m0 (start + i * stride) (source + j * len + k).
Proof.
  intros Hi t' a x. destruct Hok. unfold alltoall_puts. split.
  - intros (o & (peer & <- & Hp%list_elem_of_In)%list_elem_of_In%in_map_iff & Hw).
    apply circular_visit_iff in Hp as (j & Hj & ->); [|done]. simpl in Hw.
    apply list_elem_of_In, in_map_iff in Hw as (k & [= <- <- <-] & Hk%list_elem_of_In%elem_of_upto).
    unfold rank. rewrite !rank_pe by lia. by exists j, k.
  - intros (j & k & Hj & Hk & -> & -> & ->). eexists. split.
    + apply list_elem_of_In, in_map. apply list_elem_of_In, circular_visit_iff; eauto.
    + simpl. unfold rank. rewrite !rank_pe by lia. apply list_elem_of_In, in_map_iff.
      exists k. split; [done|]. by apply list_elem_of_In, elem_of_upto.
Qed.

Lemma length_circular p : p ∈ M -> length (circular_visit p start stride size) = Z.to_nat size.
Proof.
  intros (i & Hi & ->)%elem_of_active_set. destruct Hok.
  rewrite (Permutation_length (circular_visit_perm start stride size ltac:(lia) ltac:(lia) i Hi)).
  unfold active_set. rewrite pe_loop_map, length_map, length_upto. lia.
Qed.

(** The steps of an all-to-all: the barrier, and the puts and resets of every member. *)
Definition exchange_steps (puts : nat) : nat :=
  (sync_bound size t + 3 * (Z.to_nat size * (puts + 16)))%nat.

Lemma exchange_steps_sum (D : Z -> list op) c : (forall p, p ∈ M -> length (D p) = c) ->
  (sync_bound size t + 3 * sum_list (map (fun p => length (D p) + Z.to_nat SHMEM_BARRIER_SYNC_SIZE) M))%nat =
  exchange_steps c.
Proof.
  intros Hc. unfold exchange_steps. do 2 f_equal.
  assert (length M = Z.to_nat size) as <- by (unfold M, active_set; rewrite pe_loop_map, length_map, length_upto; lia).
  clear -Hc. induction M as [|p l IH]; [done|]. simpl. rewrite (Hc p) by apply list_elem_of_here.
  rewrite IH; [|intros q Hq; apply Hc; by apply list_elem_of_further].
  change (Z.to_nat SHMEM_BARRIER_SYNC_SIZE) with 16%nat. lia.
Qed.

Lemma alltoall_index len i k i' k' : 0 <= k < len -> 0 <= k' < len ->
  dest + i * len + k = dest + i' * len + k' -> i = i' /\ k = k'.
Proof. intros Hk Hk' E. apply (block_index len); lia. Qed.

Lemma alltoall_data len :
  0 < len -> apart dest (size * len) source (size * len) ->
  apart dest (size * len) pSync (psync_end pSync - pSync) ->
  apart source (size * len) pSync (psync_end pSync - pSync) ->
  forall p, p ∈ M -> Forall (data_op M pSync (psync_end pSync) m0 (alltoall_puts len) p) (alltoall_puts len p).
Proof.
  intros Hlen A1 A2 A3 p (i & Hi & ->)%elem_of_active_set. apply list.Forall_forall.
  intros o (peer & <- & Hp%list_elem_of_In)%list_elem_of_In%in_map_iff.
  apply circular_visit_iff in Hp as (j & Hj & ->); [|done]. destruct Hok.
  unfold rank. rewrite !rank_pe by lia. split; [apply (out_of_psync _ _ _ A2); nia|].
  intros k Hk%elem_of_upto. split; [rewrite <- Z.add_assoc; apply (out_of_psync _ _ _ A2); nia|].
  apply (exchanged_stable start stride size len _ _ m0 _ (alltoall_puts_writes len)).
  - rewrite <- Z.add_assoc. apply (out_of_psync _ _ _ A3). nia.
  - unfold apart in A1. intros i' k' Hi' Hk' E. nia.
Qed.

Lemma alltoall_exchange len :
  0 < len -> apart dest (size * len) source (size * len) ->
  apart dest (size * len) pSync (psync_end pSync - pSync) ->
  apart source (size * len) pSync (psync_end pSync - pSync) ->
  exchange_spec M (in_psync pSync (psync_end pSync)) m0
    (exchanged start stride size len (fun i k => dest + i * len + k) (fun j k => source + j * len + k) m0)
    (fun p => shmem_internal_alltoall (e p) dest source len start stride size pSync)
    (exchange_steps (Z.to_nat size)).
Proof.
  intros Hlen A1 A2 A3. set (D := alltoall_puts len).
  pose proof (exchanged_fun start stride size (ok_stride _ _ _ _ _ Hok) len _ _ m0 D
    (alltoall_puts_writes len) (alltoall_index len)) as Hfun.
  apply (exchange_spec_iff _ _ _ (written M m0 D)).
  { apply written_exchanged. apply alltoall_puts_writes. }
  rewrite <- (exchange_steps_sum D); [|intros p Hp; unfold D, alltoall_puts; rewrite length_map; by apply length_circular].
  eapply exchange_spec_ext; [|apply (puts_barrier_resets params num_pes start stride size pSync t Hok Ht m0 H0 D
    (alltoall_data len Hlen A1 A2 A3) Hfun (fun p => seqp (D p)) SHMEM_BARRIER_SYNC_SIZE);
    [intros; apply follows_seqp|done]].
  intros p Hp. unfold shmem_internal_alltoall. rewrite (proj2 (Z.eqb_neq len 0)) by lia.
  unfold e at 2 3. rewrite e_pe. f_equal.
  symmetry. straighten. unfold D, alltoall_puts. rewrite (proj2 (Z.eqb_neq len 0)) by lia. cbn [negb].
  rewrite flat_map_singleton. unfold e. by rewrite e_pe.
Qed.

(** *** Elements: each put reads one element of the source *)

Definition alltoalls_puts (dst sst elem_size nelems p : Z) : list op :=
  flat_map (fun peer => flat_map (fun k =>
      let s := source + (rank peer * nelems + k) * (sst * elem_size) in
      [OLoad s; OPut peer (dest + (rank p * nelems + k) * (dst * elem_size)) (Captured [(0, m0 p s)]) false])
    (upto 0 nelems)) (circular_visit p start stride size).

Lemma alltoalls_puts_in dst sst elem_size nelems i o : 0 <= i < size ->
  o ∈ alltoalls_puts dst sst elem_size nelems (start + i * stride) <->
  exists j k, 0 <= j < size /\ 0 <= k < nelems /\
    let s := source + (j * nelems + k) * (sst * elem_size) in
    (o = OLoad s \/ o = OPut (start + j * stride) (dest + (i * nelems + k) * (dst * elem_size))
                         (Captured [(0, m0 (start + i * stride) s)]) false).
Proof.
  intros Hi. destruct Hok. unfold alltoalls_puts. rewrite list_elem_of_In, in_flat_map. split.
  - intros (peer & Hp%list_elem_of_In & (k & Hk%list_elem_of_In%elem_of_upto & Ho)%in_flat_map).
    apply circular_visit_iff in Hp as (j & Hj & ->); [|done].
    unfold rank in Ho. rewrite !rank_pe in Ho by lia. exists j, k. split; [done|]. split; [done|].
    simpl in Ho. destruct Ho as [<- | [<- | []]]; auto.
  - intros (j & k & Hj & Hk & Ho). exists (start + j * stride). split.
    + apply list_elem_of_In, circular_visit_iff; eauto.
    + apply in_flat_map. exists k. split; [by apply list_elem_of_In, elem_of_upto|].
      unfold rank. rewrite !rank_pe by lia. simpl. destruct Ho as [-> | ->]; auto.
Qed.

Lemma alltoalls_puts_writes dst sst elem_size nelems i : 0 <= i < size -> forall t a x,
  (exists o, o ∈ alltoalls_puts dst sst elem_size nelems (start + i * stride) /\
             (t, a, x) ∈ writes m0 (start + i * stride) o) <->
  exists j k, 0 <= j < size /\ 0 <= k < nelems /\ t = start + j * stride /\
    a = dest + (i * nelems + k) * (dst * elem_size) /\
    x = m0 (start + i * stride) (source + (j * nelems + k) * (sst * elem_size)).
Proof.
  intros Hi t' a x. split.
  - intros (o & (j & k & Hj & Hk & Ho)%alltoalls_puts_in & Hw); [|done]. exists j, k.
    destruct Ho as [-> | ->]; simpl in Hw; [by apply elem_of_nil in Hw|].
    apply list_elem_of_singleton in Hw as [= -> -> ->]. rewrite Z.add_0_r. done.
  - intros (j & k & Hj & Hk & -> & -> & ->). eexists. split.
    + apply alltoalls_puts_in; [done|]. exists j, k. split; [done|]. split; [done|]. right. reflexivity.
    + simpl. rewrite Z.add_0_r. apply list_elem_of_here.
Qed.

Lemma length_alltoalls dst sst elem_size nelems p : 0 <= nelems -> p ∈ M ->
  length (alltoalls_puts dst sst elem_size nelems p) = (Z.to_nat size * (2 * Z.to_nat nelems))%nat.
Proof.
  intros Hn Hp. unfold alltoalls_puts. rewrite (flat_map_constant_length (c := (2 * Z.to_nat nelems)%nat)).
  - by rewrite length_circular.
  - intros peer _. rewrite (flat_map_constant_length (c := 2%nat)) by done. rewrite length_upto. lia.
Qed.

Lemma alltoalls_index de n i k i' k' : 1 <= de -> 0 <= k < n -> 0 <= k' < n ->
  dest + (i * n + k) * de = dest + (i' * n + k') * de -> i = i' /\ k = k'.
Proof. intros Hd Hk Hk' E. apply (block_index n); [done|done|nia]. Qed.

Lemma block_bound n i k : 0 <= i < size -> 0 <= k < n -> 0 <= i * n + k < size * n.
Proof. nia. Qed.

Lemma alltoalls_data dst sst elem_size n :
  0 < n -> 1 <= dst -> 1 <= sst -> 1 <= elem_size ->
  apart dest (size * n * (dst * elem_size)) source (size * n * (sst * elem_size)) ->
  apart dest (size * n * (dst * elem_size)) pSync (psync_end pSync - pSync) ->
  apart source (size * n * (sst * elem_size)) pSync (psync_end pSync - pSync) ->
  let D := alltoalls_puts dst sst elem_size n in
  forall p, p ∈ M -> Forall (data_op M pSync (psync_end pSync) m0 D p) (D p).
Proof.
  intros Hn Hd Hs He A1 A2 A3 D p (i & Hi & ->)%elem_of_active_set. apply list.Forall_forall.
  intros o (j & k & Hj & Hk & Ho)%alltoalls_puts_in; [|done].
  pose proof (alltoalls_puts_writes dst sst elem_size n) as Hw.
  set (de := dst * elem_size) in *. set (se := sst * elem_size) in *.
  assert (1 <= de) as Hde by (unfold de; nia). assert (1 <= se) as Hse by (unfold se; nia).
  pose proof (block_bound n i k Hi Hk). pose proof (block_bound n j k Hj Hk).
  destruct Ho as [-> | ->]; simpl.
  - apply (exchanged_stable start stride size n _ _ m0 _ Hw).
    + apply (out_of_psync _ _ _ A3). nia.
    + intros i' k' Hi' Hk' E. pose proof (block_bound n i' k' Hi' Hk'). unfold apart in A1. nia.
  - assert (in_psync pSync (psync_end pSync) (dest + (i * n + k) * de) = false) as Hin
      by (apply (out_of_psync _ _ _ A2); nia).
    split; [done|]. intros y ->%list_elem_of_singleton. simpl. by rewrite Z.add_0_r.
Qed.

Lemma alltoalls_exchange dst sst elem_size nelems :
  0 < nelems -> 1 <= dst -> 1 <= sst -> 1 <= elem_size ->
  apart dest (size * nelems * (dst * elem_size)) source (size * nelems * (sst * elem_size)) ->
  apart dest (size * nelems * (dst * elem_size)) pSync (psync_end pSync - pSync) ->
  apart source (size * nelems * (sst * elem_size)) pSync (psync_end pSync - pSync) ->
  exchange_spec M (in_psync pSync (psync_end pSync)) m0
    (exchanged start stride size nelems (fun i k => dest + (i * nelems + k) * (dst * elem_size))
       (fun j k => source + (j * nelems + k) * (sst * elem_size)) m0)
    (fun p => shmem_internal_alltoalls (e p) dest source dst sst elem_size nelems start stride size pSync)
    (exchange_steps (Z.to_nat size * (2 * Z.to_nat nelems))).
Proof.
  intros Hn Hd Hs He A1 A2 A3. set (D := alltoalls_puts dst sst elem_size nelems).
  pose proof (exchanged_fun start stride size (ok_stride _ _ _ _ _ Hok) nelems _ _ m0 D
    (alltoalls_puts_writes dst sst elem_size nelems)
    (fun i k i' k' => alltoalls_index (dst * elem_size) nelems i k i' k' ltac:(nia))) as Hfun.
  apply (exchange_spec_iff _ _ _ (written M m0 D)).
  { apply written_exchanged. apply alltoalls_puts_writes. }
  rewrite <- (exchange_steps_sum D); [|intros p Hp; apply length_alltoalls; [lia|done]].
  eapply exchange_spec_ext; [|apply (puts_barrier_resets params num_pes start stride size pSync t Hok Ht m0 H0 D
    (alltoalls_data _ _ _ _ Hn Hd Hs He A1 A2 A3) Hfun
    (fun p => for_ (circular_visit p start stride size) (fun peer => for_ (upto 0 nelems) (fun k =>
       put_elem (dest + rank p * nelems * dst * elem_size + k * (dst * elem_size))
                (source + rank peer * nelems * sst * elem_size + k * (sst * elem_size)) elem_size peer)))
    SHMEM_BARRIER_SYNC_SIZE); [|done]].
  - intros p Hp. unfold shmem_internal_alltoalls. rewrite (proj2 (Z.eqb_neq nelems 0)) by lia.
    unfold e. rewrite e_pe. done.
  - intros p Hp. apply follows_for. intros peer _. apply follows_for. intros k _.
    replace (source + rank peer * nelems * sst * elem_size + k * (sst * elem_size))
      with (source + (rank peer * nelems + k) * (sst * elem_size)) by lia.
    replace (dest + rank p * nelems * dst * elem_size + k * (dst * elem_size))
      with (dest + (rank p * nelems + k) * (dst * elem_size)) by lia.
    eexists. split; [done|]. intros v ->. eexists. by split.
Qed.
End alltoall.

(** C8: [shmem_internal_alltoall] delivers, whichever barrier is selected and in every
    execution: it returns on every member within a stated number of steps, and once one
    member has returned, block [j] of the source of the member of rank [i] is block [i] of
    the destination of the member of rank [j], for all [i] and [j]; no other cell changes,
    the pSync is again as it was, and nothing is left in flight. *)
Theorem alltoall_correct params num_pes start stride size pSync t m0 dest source len :
  active_set_ok params num_pes start stride size ->
  select barrier_type_of (p_BARRIER_ALGORITHM params) = t ->
  psync_ready (active_set start stride size) pSync m0 -> 0 < len ->
  apart dest (size * len) source (size * len) ->
  apart dest (size * len) pSync (psync_end pSync - pSync) ->
  apart source (size * len) pSync (psync_end pSync - pSync) ->
  exchange_spec (active_set start stride size) (in_psync pSync (psync_end pSync)) m0
    (exchanged start stride size len (fun i k => dest + i * len + k) (fun j k => source + j * len + k) m0)
    (fun p => shmem_internal_alltoall (coll_env params num_pes p) dest source len start stride size pSync)
    (exchange_steps size t (Z.to_nat size)).
Proof. intros. by apply alltoall_exchange. Qed.

Lemma alltoall_correct_witness :
  exchange_spec (active_set 1 2 3) (in_psync 64 192) sample_mem
    (exchanged 1 2 3 4 (fun i k => 300 + i * 4 + k) (fun j k => 400 + j * 4 + k) sample_mem)
    (fun p => shmem_internal_alltoall (coll_env (sample_params "dissem") 8 p) 300 400 4 1 2 3 64)
    (exchange_steps 3 DISSEM 3).
Proof.
  apply (alltoall_correct (sample_params "dissem") 8 1 2 3 64 DISSEM); try (unfold apart, psync_end, SIZEOF_LONG, SHMEM_BARRIER_SYNC_SIZE; lia).
  - by split; simpl; lia.
  - reflexivity.
  - apply sample_ready.
Defined.

(** C9: [shmem_internal_alltoalls] delivers the same way, element by element: once one member
    has returned, element [k] of block [j] of the strided source of the member of rank [i]
    is element [k] of block [i] of the strided destination of the member of rank [j]. *)
Theorem alltoalls_correct params num_pes start stride size pSync t m0 dest source dst sst elem_size nelems :
  active_set_ok params num_pes start stride size ->
  select barrier_type_of (p_BARRIER_ALGORITHM params) = t ->
  psync_ready (active_set start stride size) pSync m0 ->
  0 < nelems -> 1 <= dst -> 1 <= sst -> 1 <= elem_size ->
  apart dest (size * nelems * (dst * elem_size)) source (size * nelems * (sst * elem_size)) ->
  apart dest (size * nelems * (dst * elem_size)) pSync (psync_end pSync - pSync) ->
  apart source (size * nelems * (sst * elem_size)) pSync (psync_end pSync - pSync) ->
  exchange_spec (active_set start stride size) (in_psync pSync (psync_end pSync)) m0
    (exchanged start stride size nelems (fun i k => dest + (i * nelems + k) * (dst * elem_size))
       (fun j k => source + (j * nelems + k) * (sst * elem_size)) m0)
    (fun p => shmem_internal_alltoalls (coll_env params num_pes p) dest source dst sst elem_size nelems
                start stride size pSync)
    (exchange_steps size t (Z.to_nat size * (2 * Z.to_nat nelems))).
Proof. intros. by apply alltoalls_exchange. Qed.

Lemma alltoalls_correct_witness :
  exchange_spec (active_set 0 1 3) (in_psync 64 192) sample_mem
    (exchanged 0 1 3 2 (fun i k => 300 + (i * 2 + k) * (2 * 8)) (fun j k => 500 + (j * 2 + k) * (3 * 8)) sample_mem)
    (fun p => shmem_internal_alltoalls (coll_env (sample_params "tree") 3 p) 300 500 2 3 8 2 0 1 3 64)
    (exchange_steps 3 TREE (3 * (2 * 2))).
Proof.
  apply (alltoalls_correct (sample_params "tree") 3 0 1 3 64 TREE); try (unfold apart, psync_end, SIZEOF_LONG, SHMEM_BARRIER_SYNC_SIZE; lia).
  - by split; simpl; lia.
  - reflexivity.
  - apply sample_ready.
Defined.
