(* ===== verification/Chain.v ===== *)
(** * A chain of values before an exchange

    In [shmem_internal_collect_linear] every member but the first waits for the two longs
    its predecessor puts, an offset and a flag, puts its own two longs to its successor,
    and only then enters an exchange of the kind of [Phase], whose resets also clear the
    two longs.  The job is related to the job of the exchange alone: the messages of the
    chain are dropped and the two words forgotten; its steps stutter and decrease a
    measure, and a member that has not passed the chain yet has not moved in the exchange. *)

From S2P Require Import Prelude Machine Straight Internal ReduceOp Comm Tree CollSync Phase.
Local Open Scope Z_scope.
Local Open Scope prog_scope.

Section chain.
Context (start stride n : Z) (Hstride : 1 <= stride) (Hn : 2 <= n).
Let M := active_set start stride n.
Abbreviation final := (start + (n - 1) * stride).
(** The two words, the offset each member receives, and the exchange. *)
Context (a0 : Z) (val : Z -> Z) (m0 : Z -> lmem) (ops : Z -> list op).
Abbreviation a1 := (a0 + SIZEOF_LONG).
Definition chained (a : Z) : bool := (a =? a0) || (a =? a1).
Context (H0 : forall p, p ∈ M -> m0 p a0 = 0 /\ m0 p a1 = 0).

(** ** The operations of the exchange leave the two words alone, except for their resets *)

Definition clear_op (a : Z) : op := OLocal (fun m => <[a := SHMEM_SYNC_VALUE]> m).
Definition data_apart (t : Z) (d : payload) : Prop :=
  match d with
  | Captured vals => forall x, x ∈ vals -> chained (t + x.1) = false
  | Pending src offs => forall x, x ∈ offs -> chained (t + x) = false /\ chained (src + x) = false
  end.
Definition op_apart (o : op) : Prop :=
  match o with
  | OPut _ t d _ | OAtomic _ t _ d => chained t = false /\ data_apart t d
  | OQuiet => True
  | OWait a _ _ => chained a = false
  | OLocal f => exists a, f = (fun m => <[a := SHMEM_SYNC_VALUE]> m)
  | _ => False
  end.
Context (Hops : forall p, p ∈ M -> Forall op_apart (ops p)).
Context (Hclear : forall p a, p ∈ M -> chained a = true -> clear_op a ∈ ops p).

(** ** The programs *)

Definition chain_put (p : Z) : op := OPut (p + stride) a0 (Captured [(0, val (p + stride)); (SIZEOF_LONG, 1)]) false.
(** After the load of the offset. *)
Context (cont : Z -> Z -> prog unit).
Context (Hcont : forall p, p ∈ M -> p <> start ->
  cont p (val p) = if decide (p = final) then seqp (ops p) else Do (chain_put p) (fun _ => seqp (ops p))).

(** 0 waits for the flag, 1 loads the offset, 2 puts, 3 is in the exchange. *)
Definition chain_at (p : Z) (l : nat) : prog unit :=
  match l with
  | O => Do (OWait a1 SHMEM_CMP_EQ 1) (fun _ => Do (OLoad a0) (cont p))
  | S O => Do (OLoad a0) (cont p)
  | _ => Do (chain_put p) (fun _ => seqp (ops p))
  end.
Definition chain_prog (p : Z) : prog unit := if decide (p = start) then chain_at p 2 else chain_at p 0.
Definition chain_job : world := coll_job M m0 chain_prog.
Definition rest_job : world := coll_job M m0 (fun p => seqp (ops p)).

(** ** The relation between the two jobs *)

Definition chain_msg (m : msg) : bool := m_target m =? a0.
Definition chain_to (p : Z) (m : msg) : bool := chain_msg m && (m_dst m =? p).

(** Where the members are, and whether the two words of a member have arrived. *)
Record crel (lab : Z -> nat) (arr : Z -> bool) (w v : world) : Prop := {
  c_pre : forall p, p ∈ M -> (lab p < 3)%nat -> progs w p = chain_at p (lab p) /\ progs v p = seqp (ops p);
  c_in : forall p, p ∈ M -> (3 <= lab p)%nat -> exists k,
    progs w p = seqp (drop k (ops p)) /\ progs v p = seqp (drop k (ops p)) /\
    forall a, chained a = true -> (exists j, (k <= j)%nat /\ ops p !! j = Some (clear_op a)) \/ mem (w_st w) p a = 0;
  c_last : forall p, p ∈ M -> lab p = 2%nat -> p <> final;
  c_none : forall p, p ∉ M -> progs w p = skip /\ progs v p = skip;
  c_mem : forall p a, mem (w_st v) p a = if chained a then m0 p a else mem (w_st w) p a;
  c_net : net (w_st v) = List.filter (fun m => negb (chain_msg m)) (net (w_st w));
  c_epoch : epoch (w_st v) = epoch (w_st w);
  c_apart : forall m, m ∈ net (w_st w) -> chain_msg m = false -> data_apart (m_target m) (m_data m);
  c_chain : forall m, m ∈ net (w_st w) -> chain_msg m = true ->
    m_dst m ∈ M /\ m_dst m <> start /\ m_kind m = KPut /\ m_data m = Captured [(0, val (m_dst m)); (SIZEOF_LONG, 1)];
  c_first : (2 <= lab start)%nat /\ forall a, chained a = true -> mem (w_st w) start a = 0;
  c_count : forall p, p ∈ M -> p <> start ->
    countb (chain_to p) (net (w_st w)) = (if (3 <=? lab (p - stride)%Z)%nat && negb (arr p) then 1 else 0)%nat;
  c_sent : forall p, p ∈ M -> p <> start -> arr p = true -> (3 <= lab (p - stride)%Z)%nat;
  c_arr : forall p, p ∈ M -> p <> start -> (0 < lab p)%nat -> arr p = true;
  c_words : forall p, p ∈ M -> p <> start -> if arr p
    then (lab p < 3)%nat -> mem (w_st w) p a0 = val p /\ mem (w_st w) p a1 = 1
    else mem (w_st w) p a0 = 0 /\ mem (w_st w) p a1 = 0 }.

Lemma start_in : start ∈ M.
Proof. apply elem_of_active_set. exists 0. lia. Qed.
Lemma next_in p : p ∈ M -> p <> final -> p + stride ∈ M /\ p + stride <> start.
Proof.
  intros (i & Hi & ->)%elem_of_active_set Hne. split; [|nia]. apply elem_of_active_set. exists (i + 1). split; [|lia].
  assert (i <> n - 1) by (intros ->; done). lia.
Qed.
Lemma prev_in p : p ∈ M -> p <> start -> p - stride ∈ M /\ p - stride <> final.
Proof.
  intros (i & Hi & ->)%elem_of_active_set Hne. assert (i <> 0) by (intros ->; apply Hne; lia).
  split; [|nia]. apply elem_of_active_set. exists (i - 1). split; [lia|lia].
Qed.
Lemma chained_iff a : chained a = true <-> a = a0 \/ a = a1.
Proof. unfold chained. by rewrite orb_true_iff, !Z.eqb_eq. Qed.
Lemma a0_a1 : a0 <> a1.
Proof. unfold SIZEOF_LONG. lia. Qed.

(** What the steps left of the chain cost, with a message that has not arrived. *)
Definition chain_cost (l : nat) : nat := match l with O => 4 | S O => 3 | S (S O) => 2 | _ => 0 end.
Definition chain_left (lab : Z -> nat) (s : state) : nat :=
  (sum_list (map (fun p => chain_cost (lab p)) M) + countb chain_msg (net s))%nat.

Lemma chain_left_move lab s s' p l : p ∈ M ->
  (chain_cost l + countb chain_msg (net s') < chain_cost (lab p) + countb chain_msg (net s))%nat ->
  (chain_left (<[p := l]> lab) s' < chain_left lab s)%nat.
Proof.
  intros Hp Hlt. unfold chain_left.
  assert (forall L, NoDup L -> p ∈ L -> (sum_list (map (fun q => chain_cost (<[p := l]> lab q)) L) + chain_cost (lab p) =
    sum_list (map (fun q => chain_cost (lab q)) L) + chain_cost l)%nat) as H.
  { induction L as [|q L IH]; intros Hnd Hin; [by apply elem_of_nil in Hin|].
    apply list.NoDup_cons in Hnd as [Hq Hnd]. simpl. destruct (decide (q = p)) as [->|Hne].
    - rewrite fn_lookup_insert. assert (map (fun q => chain_cost (<[p := l]> lab q)) L = map (fun q => chain_cost (lab q)) L) as ->; [|lia].
      apply map_ext_in. intros r Hr%list_elem_of_In. rewrite fn_lookup_insert_ne; [done|]. by intros ->.
    - rewrite fn_lookup_insert_ne by congruence. apply elem_of_cons in Hin as [|Hin]; [congruence|].
      specialize (IH Hnd Hin). lia. }
  specialize (H M (NoDup_active_set start stride n Hstride) Hp). lia.
Qed.

(** ** The steps of the chain *)

Definition chain_sent (w : world) (p : Z) : msg :=
  Msg p (p + stride) (epoch (w_st w) p) KPut a0 false (Captured [(0, val (p + stride)); (SIZEOF_LONG, 1)]).

(** A member moves on in the chain; into the exchange it goes with its put. *)
Lemma crel_pre lab arr w v p l q ms : crel lab arr w v -> p ∈ M -> (lab p < l)%nat -> (l <= 3)%nat ->
  (l = 2%nat -> p <> final) -> (p <> start -> arr p = true) ->
  q = (if decide (l = 3%nat) then seqp (ops p) else chain_at p l) ->
  ms = (if decide (l = 3%nat /\ p <> final) then [chain_sent w p] else []) ->
  crel (<[p := l]> lab) arr (World (<[p := q]> (progs w)) (set_net (w_st w) (net (w_st w) ++ ms))) v.
Proof.
  intros [C1 C2 CL C3 C4 C5 C6 C7 C8 [C9 C9'] C10 C11 C12 C13] Hp Hlt Hl Hfin Harr Hq Hms.
  assert (forall m, m ∈ ms -> m = chain_sent w p /\ l = 3%nat /\ p <> final) as Hin.
  { rewrite Hms. case_decide as E; [|by intros m ?%elem_of_nil]. intros m ->%list_elem_of_singleton. tauto. }
  split; simpl; try done.
  - intros r Hr Hlr. revert Hlr. destruct (decide (r = p)) as [->|Hne].
    + rewrite !fn_lookup_insert. intros Hlr. rewrite Hq, decide_False by lia. split; [done|]. apply C1; [done|lia].
    + rewrite !fn_lookup_insert_ne by congruence. by apply C1.
  - intros r Hr Hlr. revert Hlr. destruct (decide (r = p)) as [->|Hne].
    + rewrite !fn_lookup_insert. intros Hlr. exists 0%nat. rewrite Hq, decide_True, drop_0 by lia.
      split; [done|]. split; [apply C1; [done|lia]|]. intros a Ha. left.
      destruct (list_elem_of_lookup_1 _ _ (Hclear p a Hp Ha)) as [j Hj]. exists j. split; [lia|done].
    + rewrite !fn_lookup_insert_ne by congruence. by apply C2.
  - intros r Hr. update_cases; [subst r; by intros ->; apply Hfin|by apply CL].
  - intros r Hr. rewrite fn_lookup_insert_ne by (intros ->; done). by apply C3.
  - rewrite List.filter_app, C5. assert (List.filter (fun m => negb (chain_msg m)) ms = []) as ->; [|by rewrite app_nil_r].
    rewrite Hms. case_decide; [|done]. simpl. unfold chain_msg. simpl. by rewrite Z.eqb_refl.
  - intros m [Hm|Hm]%elem_of_app Hc; [by apply C7|]. destruct (Hin m Hm) as (-> & _). unfold chain_msg in Hc. simpl in Hc.
    by rewrite Z.eqb_refl in Hc.
  - intros m [Hm|Hm]%elem_of_app Hc; [by apply C8|]. destruct (Hin m Hm) as (-> & _ & Hpf). simpl.
    destruct (next_in p Hp Hpf). by repeat (split; [done|]).
  - split; [|done]. update_cases; [subst p; lia|done].
  - intros r Hr Hrs. rewrite countb_app, C10 by done. destruct (prev_in r Hr Hrs) as [_ Hrf]. update_cases.
    + assert ((r - stride)%Z = p) as -> by lia. assert (p + stride = r) as Er by lia. rewrite (proj2 (Nat.leb_gt 3 (lab _))) by lia.
      assert (arr r = false) as Har.
      { destruct (arr r) eqn:E; [|done]. specialize (C11 r Hr Hrs E). replace (r - stride)%Z with p in C11 by lia. lia. }
      rewrite Har, Hms. destruct (Nat.leb_spec 3 l) as [H3|H3].
      * assert (l = 3%nat) as -> by lia. rewrite decide_True by (split; lia). simpl. unfold chain_to, chain_msg. simpl.
        by rewrite Z.eqb_refl, (proj2 (Z.eqb_eq _ _)) by lia.
      * rewrite decide_False by lia. destruct l as [|[|[|l]]]; try done. exfalso. lia.
    + assert (countb (chain_to r) ms = 0%nat) as ->; [|by rewrite Nat.add_0_r]. apply countb_zero. intros m (-> & _)%Hin.
      unfold chain_to. simpl. rewrite (proj2 (Z.eqb_neq _ _)) by lia. apply andb_false_r.
  - intros r Hr Hrs Har. specialize (C11 r Hr Hrs Har). update_cases; [|done]. assert ((r - stride)%Z = p) as E by lia. rewrite E in C11. lia.
  - intros r Hr Hrs. update_cases; [subst r; auto|by apply C12].
  - intros r Hr Hrs. specialize (C13 r Hr Hrs). destruct (arr r); [|done]. update_cases; [subst r|done]. intros H3. apply C13. lia.
Qed.

(** A step of a member in the chain. *)
Lemma crel_chain_step lab arr w v p o k x s' : crel lab arr w v -> p ∈ M -> (lab p < 3)%nat -> progs w p = Do o k ->
  op_exec p o (w_st w) = Some (x, s') -> exists l, crel (<[p := l]> lab) arr (World (<[p := k x]> (progs w)) s') v /\
    (chain_left (<[p := l]> lab) s' < chain_left lab (w_st w))%nat.
Proof.
  intros Hr Hp Hl Hk Hex. pose proof (c_pre _ _ _ _ Hr p Hp Hl) as [Hpr _]. rewrite Hpr in Hk.
  assert (forall l q ms, s' = set_net (w_st w) (net (w_st w) ++ ms) -> k x = q ->
    crel (<[p := l]> lab) arr (World (<[p := q]> (progs w)) (set_net (w_st w) (net (w_st w) ++ ms))) v ->
    (chain_cost l + countb chain_msg ms < chain_cost (lab p))%nat -> exists l, crel (<[p := l]> lab) arr (World (<[p := k x]> (progs w)) s') v /\
    (chain_left (<[p := l]> lab) s' < chain_left lab (w_st w))%nat) as Hgo.
  { intros l q ms -> -> Hrel Hc. exists l. split; [done|]. apply chain_left_move; [done|]. simpl. rewrite countb_app. lia. }
  assert (set_net (w_st w) (net (w_st w) ++ []) = w_st w) as Eid by (rewrite app_nil_r; by destruct (w_st w)).
  pose proof (c_first _ _ _ _ Hr) as [Hst _].
  assert (p <> start -> (0 < lab p)%nat -> arr p = true) as Harr by (intros; by apply (c_arr _ _ _ _ Hr)).
  destruct (lab p) as [|[|[|l]]] eqn:El; [| | |lia].
  - assert (p <> start) as Hps by (intros ->; lia). injection Hk as <- <-. simpl in Hex. case_match eqn:Ew; [|done]. injection Hex as <- <-.
    assert (arr p = true) as Ha.
    { pose proof (c_words _ _ _ _ Hr p Hp Hps) as Hw. destruct (arr p); [done|]. destruct Hw as [_ Hw]. by rewrite Hw in Ew. }
    eapply (Hgo 1%nat _ []); [by rewrite Eid|reflexivity| |simpl; lia].
    apply crel_pre; try done; lia.
  - assert (p <> start) as Hps by (intros ->; lia). injection Hk as <- <-. injection Hex as <- <-.
    assert (arr p = true) as Ha by (apply Harr; [done|lia]).
    pose proof (c_words _ _ _ _ Hr p Hp Hps) as Hw. rewrite Ha in Hw. destruct Hw as [Hw _]; [lia|].
    pose proof (Hcont p Hp Hps) as Hct. rewrite <- Hw in Hct. destruct (decide (p = final)) as [Hf|Hf].
    + eapply (Hgo 3%nat _ []); [by rewrite Eid|exact Hct| |simpl; lia]. apply crel_pre; try done; try lia.
      rewrite decide_False by tauto. done.
    + eapply (Hgo 2%nat _ []); [by rewrite Eid|exact Hct| |simpl; lia]. apply crel_pre; try done; lia.
  - injection Hk as <- <-. injection Hex as <- <-. pose proof (c_last _ _ _ _ Hr p Hp El) as Hf.
    eapply (Hgo 3%nat _ [chain_sent w p]); [done|reflexivity| |].
    + apply crel_pre; try done; try lia; [intros; apply Harr; [done|lia]|]. by rewrite decide_True.
    + simpl. unfold chain_msg. simpl. rewrite Z.eqb_refl. simpl. lia.
Qed.

(** ** The steps of the exchange *)

Record srel (sw sv : state) : Prop := {
  s_mem : forall p a, mem sv p a = if chained a then m0 p a else mem sw p a;
  s_net : net sv = List.filter (fun m => negb (chain_msg m)) (net sw);
  s_epoch : epoch sv = epoch sw }.

Lemma crel_srel lab arr w v : crel lab arr w v -> srel (w_st w) (w_st v).
Proof. by intros []. Qed.

Lemma forallb_filter {A} (f g : A -> bool) l : forallb f l = true -> forallb f (List.filter g l) = true.
Proof. rewrite !forallb_forall. intros H x [Hx _]%filter_In. auto. Qed.

Lemma srel_send sw sv m : srel sw sv -> chain_msg m = false ->
  srel (set_net sw (net sw ++ [m])) (set_net sv (net sv ++ [m])).
Proof. intros [S1 S2 S3] Hm. split; simpl; try done. rewrite List.filter_app, S2. simpl. by rewrite Hm. Qed.

(** An operation of the exchange is the same operation in both jobs. *)
Lemma srel_op sw sv p o x sw' : srel sw sv -> p ∈ M -> op_apart o -> op_exec p o sw = Some (x, sw') ->
  exists sv' ms, op_exec p o sv = Some (x, sv') /\ srel sw' sv' /\ net sw' = net sw ++ ms /\
    (forall m, m ∈ ms -> chain_msg m = false /\ data_apart (m_target m) (m_data m)) /\
    (forall q a, chained a = true -> mem sw' q a = mem sw q a \/ q = p /\ mem sw' q a = 0) /\
    (forall a, chained a = true -> o = clear_op a -> mem sw' p a = 0).
Proof.
  intros Hs Hp Ho Hex. pose proof Hs as [S1 S2 S3]. destruct o as [t b d nbi|t b c d| | | | |b c y| |f| |]; simpl in Ho; try done; simpl in Hex.
  - injection Hex as <- <-. destruct Ho as [Hb Hd]. assert (chain_msg (Msg p t (epoch sw p) KPut b nbi d) = false) as Hm.
    { unfold chain_msg. simpl. unfold chained in Hb. by apply orb_false_iff in Hb as [? _]. }
    eexists _, [_]. split; [reflexivity|]. rewrite S3. split; [by apply srel_send|]. split; [done|].
    split; [by intros m ->%list_elem_of_singleton|]. split; [by left|done].
  - injection Hex as <- <-. destruct Ho as [Hb Hd]. assert (chain_msg (Msg p t (epoch sw p) (KAtomic c) b false d) = false) as Hm.
    { unfold chain_msg. simpl. unfold chained in Hb. by apply orb_false_iff in Hb as [? _]. }
    eexists _, [_]. split; [reflexivity|]. rewrite S3. split; [by apply srel_send|]. split; [done|].
    split; [by intros m ->%list_elem_of_singleton|]. split; [by left|done].
  - case_match eqn:E; [|done]. injection Hex as <- <-. exists sv, []. split.
    + simpl. rewrite S2. by rewrite (forallb_filter _ _ _ E).
    + split; [done|]. split; [by rewrite app_nil_r|]. split; [by intros m ?%elem_of_nil|]. split; [by left|done].
  - case_match eqn:E; [|done]. injection Hex as <- <-. exists sv, []. split.
    + simpl. rewrite S1, Ho. by rewrite E.
    + split; [done|]. split; [by rewrite app_nil_r|]. split; [by intros m ?%elem_of_nil|]. split; [by left|done].
  - injection Hex as <- <-. destruct Ho as [b ->]. exists (set_mem sv p (<[b := SHMEM_SYNC_VALUE]> (mem sv p))), [].
    split; [done|]. split; [split; simpl; [|done|done]|split; [by rewrite app_nil_r|split; [by intros m ?%elem_of_nil|split]]].
    + intros q a. rewrite !(insert_cases (mem _)). case_decide as Eq; [subst q|apply S1]. rewrite !insert_cases, S1.
      case_decide as Eb; [|done]. subst b. destruct (chained a) eqn:Ec; [|done].
      apply chained_iff in Ec as [-> | ->]; symmetry; by apply H0.
    + intros q a Ha. simpl. rewrite (insert_cases (mem _)). case_decide; [subst q|by left]. rewrite insert_cases. case_decide; [by right|by left].
    + intros a Ha [= E]. simpl. rewrite fn_lookup_insert. apply (f_equal (fun f => f (fun _ => 1) a)) in E.
      rewrite fn_lookup_insert in E. rewrite insert_cases in *. by case_decide.
Qed.

(** A step of a member in the exchange. *)
Lemma crel_rest_step lab arr w v p o k x s' : crel lab arr w v -> p ∈ M -> (3 <= lab p)%nat -> progs w p = Do o k ->
  op_exec p o (w_st w) = Some (x, s') -> exists v', step v v' /\ crel lab arr (World (<[p := k x]> (progs w)) s') v' /\
    chain_left lab s' = chain_left lab (w_st w).
Proof.
  intros Hr Hp Hl Hk Hex. pose proof (c_in _ _ _ _ Hr p Hp Hl) as (i & Hw & Hv & Hcl). rewrite Hw in Hk.
  destruct (ops p !! i) as [o1|] eqn:Ei; [|rewrite drop_ge in Hk by (by apply lookup_ge_None); done].
  rewrite (drop_S _ _ _ Ei) in Hk, Hv. simpl in Hk. injection Hk as <- <-.
  pose proof (proj1 (list.Forall_forall _ _) (Hops p Hp) o1 (list_elem_of_lookup_2 _ _ _ Ei)) as Hap.
  destruct (srel_op _ _ _ _ _ _ (crel_srel _ _ _ _ Hr) Hp Hap Hex) as (sv' & ms & Hexv & [S1 S2 S3] & Hnet & Hms & Hmem & Hcle).
  exists (World (<[p := seqp (drop (S i) (ops p))]> (progs v)) sv'). split; [eapply (step_pe v p o1 (fun _ => seqp (drop (S i) (ops p)))); [exact Hv|exact Hexv]|].
  assert (forall f, (forall m, m ∈ ms -> f m = false) -> countb f (net s') = countb f (net (w_st w))) as Hcnt.
  { intros f Hf. rewrite Hnet, countb_app. by rewrite (proj2 (countb_zero f ms)), Nat.add_0_r. }
  split; [|unfold chain_left; rewrite Hcnt; [done|]; intros m Hm; by apply Hms].
  destruct Hr as [C1 C2 CL C3 C4 C5 C6 C7 C8 [C9 C9'] C10 C11 C12 C13].
  split; simpl; try done.
  - intros q Hq Hlq. assert (q <> p) as Hne by (intros ->; lia). rewrite !fn_lookup_insert_ne by done. by apply C1.
  - intros q Hq Hlq. destruct (decide (q = p)) as [->|Hne].
    + rewrite !fn_lookup_insert. exists (S i). split; [done|]. split; [done|]. intros a Ha.
      destruct (Hcl a Ha) as [(j & Hj & Ej)|Hz].
      * destruct (decide (j = i)) as [->|]; [right|left; exists j; split; [lia|done]]. apply Hcle; [done|]. congruence.
      * right. destruct (Hmem p a Ha) as [->|[_ ->]]; done.
    + rewrite !fn_lookup_insert_ne by done. destruct (C2 q Hq Hlq) as (j & H1 & H2 & H3). exists j. split; [done|]. split; [done|].
      intros a Ha. destruct (H3 a Ha) as [|Hz]; [by left|right]. destruct (Hmem q a Ha) as [->|[_ ->]]; done.
  - intros q Hq. rewrite !fn_lookup_insert_ne by (intros ->; done). by apply C3.
  - intros m. rewrite Hnet. intros [Hm|Hm]%elem_of_app Hc; [by apply C7|]. by apply Hms.
  - intros m. rewrite Hnet. intros [Hm|Hm]%elem_of_app Hc; [by apply C8|]. destruct (Hms m Hm). congruence.
  - split; [done|]. intros a Ha. destruct (Hmem start a Ha) as [->|[_ ->]]; [by apply C9'|done].
  - intros q Hq Hqs. rewrite Hcnt; [by apply C10|]. intros m Hm. unfold chain_to. destruct (Hms m Hm) as [-> _]. done.
  - intros q Hq Hqs. specialize (C13 q Hq Hqs). assert (chained a0 = true /\ chained a1 = true) as [K0 K1] by (rewrite !chained_iff; tauto).
    destruct (arr q) eqn:Ea.
    + intros Hlq. assert (q <> p) as Hne by (intros ->; lia). destruct (C13 Hlq) as [W0 W1]. split.
      * destruct (Hmem q a0 K0) as [->|[? _]]; done.
      * destruct (Hmem q a1 K1) as [->|[? _]]; done.
    + destruct C13 as [W0 W1]. split.
      * destruct (Hmem q a0 K0) as [->|[_ ->]]; done.
      * destruct (Hmem q a1 K1) as [->|[_ ->]]; done.
Qed.

(** ** The steps of the network *)

Lemma filter_app_cons {A} (f : A -> bool) l1 x l2 :
  List.filter f (l1 ++ x :: l2) = List.filter f l1 ++ (if f x then x :: List.filter f l2 else List.filter f l2).
Proof. rewrite List.filter_app. simpl. by destruct (f x). Qed.

Lemma apply_apart k target vals m a : (forall x, x ∈ vals -> target + x.1 <> a) -> apply_vals k target vals m a = m a.
Proof.
  revert m. induction vals as [|[o x] vals IH]; intros m Hv; [done|].
  change (apply_vals k target ((o, x) :: vals) m a) with
    (apply_vals k target vals (<[target + o := combine_kind k (m (target + o)) x]> m) a).
  rewrite IH by (intros y Hy; apply Hv; by apply list_elem_of_further).
  apply fn_lookup_insert_ne. apply (Hv (o, x)), list_elem_of_here.
Qed.

(** Two memories that differ in the two words only. *)
Lemma apply_agree k target vals m m' a : (forall b, chained b = false -> m b = m' b) ->
  (forall x, x ∈ vals -> chained (target + x.1) = false) -> chained a = false ->
  apply_vals k target vals m a = apply_vals k target vals m' a.
Proof.
  revert m m'. induction vals as [|[o x] vals IH]; intros m m' Hm Hv Ha; [by apply Hm|].
  change (apply_vals k target vals (<[target + o := combine_kind k (m (target + o)) x]> m) a =
    apply_vals k target vals (<[target + o := combine_kind k (m' (target + o)) x]> m') a).
  assert (chained (target + o) = false) as Ho by (apply (Hv (o, x)), list_elem_of_here).
  apply IH; [|intros y Hy; apply Hv; by apply list_elem_of_further|done].
  intros b Hb. rewrite (Hm (target + o) Ho), !insert_cases. case_decide; [done|by apply Hm].
Qed.

(** A message of the exchange: read or delivered in both jobs. *)
Lemma crel_net_rest lab arr w v l1 m l2 m2 mm mm' :
  crel lab arr w v -> net (w_st w) = l1 ++ m :: l2 -> chain_msg m = false ->
  (forall m', m' ∈ option_list m2 -> chain_msg m' = false /\ data_apart (m_target m') (m_data m')) ->
  (forall p a, mm' p a = if chained a then m0 p a else mm p a) ->
  (forall p a, chained a = true -> mm p a = mem (w_st w) p a) ->
  net (w_st v) = List.filter (fun m => negb (chain_msg m)) l1 ++ m :: List.filter (fun m => negb (chain_msg m)) l2 /\
  crel lab arr (World (progs w) (St mm (l1 ++ option_list m2 ++ l2) (epoch (w_st w)) (log (w_st w))))
    (World (progs v) (St mm' (List.filter (fun m => negb (chain_msg m)) l1 ++ option_list m2 ++
       List.filter (fun m => negb (chain_msg m)) l2) (epoch (w_st v)) (log (w_st v)))) /\
  chain_left lab (St mm (l1 ++ option_list m2 ++ l2) (epoch (w_st w)) (log (w_st w))) = chain_left lab (w_st w).
Proof.
  intros [C1 C2 CL C3 C4 C5 C6 C7 C8 [C9 C9'] C10 C11 C12 C13] E Hm Hm2 Hmm' Hmm.
  assert (forall f, (forall m', chain_msg m' = false -> f m' = false) ->
    countb f (l1 ++ option_list m2 ++ l2) = countb f (net (w_st w))) as Hcnt.
  { intros f Hf. rewrite E, !countb_app. cbn [countb]. rewrite (Hf m Hm).
    rewrite (proj2 (countb_zero f (option_list m2))); [done|]. intros m' Hin. apply Hf. by apply Hm2. }
  assert (forall m', m' ∈ l1 ++ option_list m2 ++ l2 -> m' ∈ option_list m2 \/ m' ∈ net (w_st w)) as Hsub
    by (intros m'; rewrite E, !elem_of_app, elem_of_cons; tauto).
  split; [|split].
  - rewrite C5, E, filter_app_cons, Hm. done.
  - split; simpl; try done.
    + intros p Hp Hl. destruct (C2 p Hp Hl) as (k & H1 & H2 & H3). exists k. split; [done|]. split; [done|]. intros a Ha.
      rewrite Hmm by done. by apply H3.
    + rewrite !List.filter_app. do 2 f_equal. destruct m2 as [m2|]; [|done]. simpl in *.
      destruct (Hm2 m2 (list_elem_of_here _ _)) as [-> _]. done.
    + intros m' [Hin|Hin]%Hsub Hc; [by apply Hm2|by apply C7].
    + intros m' [Hin|Hin]%Hsub Hc; [destruct (Hm2 m' Hin); congruence|by apply C8].
    + split; [done|]. intros a Ha. rewrite Hmm by done. by apply C9'.
    + intros p Hp Hps. rewrite Hcnt; [by apply C10|]. intros m' Hm'. unfold chain_to. by rewrite Hm'.
    + intros p Hp Hps. rewrite !Hmm by (apply chained_iff; tauto). by apply C13.
  - unfold chain_left. simpl. by rewrite Hcnt.
Qed.

Lemma fence_ready_sub m l l' : fence_ready m l = true -> (forall m', m' ∈ l' -> m' ∈ l) -> fence_ready m l' = true.
Proof.
  unfold fence_ready. rewrite !forallb_forall. intros H Hs m' Hm'. apply H. apply list_elem_of_In, Hs. by apply list_elem_of_In.
Qed.

(** A message of the chain arrives. *)
Lemma crel_chain_arrives lab arr w v l1 m l2 vals : crel lab arr w v -> net (w_st w) = l1 ++ m :: l2 -> chain_msg m = true ->
  m_data m = Captured vals ->
  let s' := set_net (set_mem (w_st w) (m_dst m) (apply_vals (m_kind m) (m_target m) vals (mem (w_st w) (m_dst m)))) (l1 ++ l2) in
  crel lab (<[m_dst m := true]> arr) (World (progs w) s') v /\ (chain_left lab s' < chain_left lab (w_st w))%nat.
Proof.
  intros [C1 C2 CL C3 C4 C5 C6 C7 C8 [C9 C9'] C10 C11 C12 C13] E Hm Hd s'.
  assert (m ∈ net (w_st w)) as Hin by (rewrite E, elem_of_app, elem_of_cons; auto).
  destruct (C8 m Hin Hm) as (Hp & Hps & Hk & Hda). rewrite Hd in Hda. injection Hda as Hda. set (p := m_dst m) in *.
  pose proof Hm as Ht. unfold chain_msg in Ht. apply Z.eqb_eq in Ht.
  assert (forall q a, mem s' q a = if decide (q = p /\ chained a = true) then (if a =? a0 then val p else 1) else mem (w_st w) q a) as Hmem.
  { intros q a. unfold s'. simpl. rewrite Hk, Ht, Hda, (insert_cases (mem _)). case_decide as Eq; [subst q|rewrite decide_False by (intros [? _]; congruence); done].
    simpl. rewrite Z.add_0_r, !insert_cases. pose proof a0_a1. case_decide as E1.
    - subst a. rewrite decide_True by (split; [done|apply chained_iff; tauto]). by rewrite (proj2 (Z.eqb_neq _ _)) by congruence.
    - case_decide as E0; [subst a; rewrite decide_True by (split; [done|apply chained_iff; tauto]); by rewrite Z.eqb_refl|].
      rewrite decide_False; [done|]. intros [_ Hc]. apply chained_iff in Hc as [?|?]; congruence. }
  assert (net s' = l1 ++ l2 /\ epoch s' = epoch (w_st w)) as [Hnet Hep] by done. clearbody s'.
  assert (countb (chain_to p) (net (w_st w)) = S (countb (chain_to p) (l1 ++ l2))) as Hcp.
  { rewrite E, !countb_app. cbn [countb]. unfold chain_to at 2. rewrite Hm, Z.eqb_refl. simpl. lia. }
  pose proof (C10 p Hp Hps) as Hcount. rewrite Hcp in Hcount.
  assert ((3 <= lab (p - stride)%Z)%nat /\ arr p = false) as [Hsent Harr].
  { destruct (Nat.leb_spec 3 (lab (p - stride)%Z)), (arr p); simpl in Hcount; try lia; done. }
  assert (countb (chain_to p) (l1 ++ l2) = 0%nat) as Hlast by (destruct (_ && _); lia).
  assert (lab p = 0%nat) as Hl0.
  { destruct (decide (lab p = 0%nat)) as [|Hne]; [done|]. rewrite (C12 p Hp Hps) in Harr; [done|lia]. }
  assert (forall m', m' ∈ l1 ++ l2 -> m' ∈ net (w_st w)) as Hsub by (intros m'; rewrite E, !elem_of_app, elem_of_cons; tauto).
  split.
  - split; simpl; rewrite ?Hnet, ?Hep; try done.
    + intros q Hq Hl. assert (q <> p) as Hne by (intros ->; lia). destruct (C2 q Hq Hl) as (k & H1 & H2 & H3). exists k. split; [done|]. split; [done|].
      intros a Ha. rewrite Hmem, decide_False by tauto. by apply H3.
    + intros q a. rewrite C4. destruct (chained a) eqn:Ea; [done|]. symmetry. rewrite Hmem, decide_False; [done|]. intros [_ Hc]. congruence.
    + rewrite C5, E, filter_app_cons, Hm. simpl. by rewrite List.filter_app.
    + intros m' Hin' Hc. apply C7; auto.
    + intros m' Hin' Hc. apply C8; auto.
    + split; [done|]. intros a Ha. rewrite Hmem, decide_False by (intros [Es _]; congruence). by apply C9'.
    + intros q Hq Hqs. destruct (decide (q = p)) as [->|Hne].
      * rewrite fn_lookup_insert, andb_false_r. apply Hlast.
      * rewrite fn_lookup_insert_ne by congruence. etransitivity; [|exact (C10 q Hq Hqs)]. rewrite E, !countb_app. cbn [countb].
        assert (chain_to q m = false) as ->; [|done]. unfold chain_to. fold p. rewrite (proj2 (Z.eqb_neq p q)) by congruence. apply andb_false_r.
    + intros q Hq Hqs. update_cases; [by subst q|by apply C11].
    + intros q Hq Hqs Hlq. update_cases; [done|by apply C12].
    + intros q Hq Hqs. update_cases.
      * subst q. intros _. rewrite !Hmem, !decide_True by (split; [done|apply chained_iff; tauto]). rewrite Z.eqb_refl.
        rewrite (proj2 (Z.eqb_neq a1 a0)) by (pose proof a0_a1; congruence). done.
      * rewrite !Hmem, !decide_False by (intros [Es _]; congruence). by apply C13.
  - unfold chain_left. rewrite Hnet, E, !countb_app. cbn [countb]. rewrite Hm. lia.
Qed.

Lemma net_capture_as s l1 m l2 src offs m2 : net s = l1 ++ m :: l2 -> m_data m = Pending src offs ->
  m2 = Msg (m_src m) (m_dst m) (m_epoch m) (m_kind m) (m_target m) (m_nbi m)
    (Captured (map (fun o => (o, mem s (m_src m) (src + o))) offs)) ->
  net_step s (St (mem s) (l1 ++ m2 :: l2) (epoch s) (log s)).
Proof. intros E Hd ->. exact (net_capture s l1 m l2 src offs E Hd). Qed.

(** A step of the network: a message of the chain arrives, or a step of both networks. *)
Lemma crel_net_step lab arr w v s' : crel lab arr w v -> net_step (w_st w) s' ->
  (exists p, crel lab (<[p := true]> arr) (World (progs w) s') v /\ (chain_left lab s' < chain_left lab (w_st w))%nat) \/
  (exists v', step v v' /\ crel lab arr (World (progs w) s') v' /\ chain_left lab s' = chain_left lab (w_st w)).
Proof.
  intros Hr Hns. pose proof (c_mem _ _ _ _ Hr) as Hmem.
  remember (w_st w) as sw eqn:Esw. destruct Hns as [sw l1 m l2 src offs E Hd|sw l1 m l2 vals E Hd Hf]; subst sw.
  - assert (m ∈ net (w_st w)) as Hin by (rewrite E, elem_of_app, elem_of_cons; auto).
    destruct (chain_msg m) eqn:Hm; [destruct (c_chain _ _ _ _ Hr m Hin Hm) as (_ & _ & _ & Hc); congruence|]. right.
    pose proof (c_apart _ _ _ _ Hr m Hin Hm) as Ha. rewrite Hd in Ha. simpl in Ha.
    set (m2 := Msg (m_src m) (m_dst m) (m_epoch m) (m_kind m) (m_target m) (m_nbi m)
      (Captured (map (fun o => (o, mem (w_st w) (m_src m) (src + o))) offs))).
    destruct (crel_net_rest lab arr w v l1 m l2 (Some m2) (mem (w_st w)) (mem (w_st v)) Hr E Hm) as (Ev & Hr' & Hleft); [|done|done|].
    { intros m' ->%list_elem_of_singleton. split; [exact Hm|]. simpl. intros y Hy%list_elem_of_In.
      apply in_map_iff in Hy as (o & <- & Ho%list_elem_of_In). by apply Ha. }
    eexists. split; [|split; [exact Hr'|exact Hleft]]. apply (step_net v), (net_capture_as _ _ m _ src offs _ Ev Hd).
    unfold m2. do 2 f_equal. apply map_ext_in. intros o Ho%list_elem_of_In. rewrite Hmem. by rewrite (proj2 (Ha o Ho)).
  - assert (m ∈ net (w_st w)) as Hin by (rewrite E, elem_of_app, elem_of_cons; auto).
    destruct (chain_msg m) eqn:Hm; [left|right].
    { destruct (crel_chain_arrives lab arr w v l1 m l2 vals Hr E Hm Hd) as [Hr' Hleft]. by exists (m_dst m). }
    pose proof (c_apart _ _ _ _ Hr m Hin Hm) as Ha. rewrite Hd in Ha. simpl in Ha.
    assert (forall a x, chained a = true -> x ∈ vals -> m_target m + x.1 <> a) as Hne.
    { intros a x Hc Hx <-. rewrite (Ha x Hx) in Hc. done. }
    destruct (crel_net_rest lab arr w v l1 m l2 None
      (mem (set_mem (w_st w) (m_dst m) (apply_vals (m_kind m) (m_target m) vals (mem (w_st w) (m_dst m)))))
      (mem (set_mem (w_st v) (m_dst m) (apply_vals (m_kind m) (m_target m) vals (mem (w_st v) (m_dst m))))) Hr E Hm)
      as (Ev & Hr' & Hleft).
    { intros m' ?%elem_of_nil. done. }
    { intros p a. simpl. rewrite !(insert_cases (mem _)). case_decide as Ep; [subst p|apply Hmem].
      destruct (chained a) eqn:Ec; [rewrite apply_apart by eauto; by rewrite Hmem, Ec|].
      apply apply_agree; [|done|done]. intros b Hb. by rewrite Hmem, Hb. }
    { intros p a Hc. simpl. rewrite (insert_cases (mem _)). case_decide as Ep; [subst p|done]. apply apply_apart. eauto. }
    eexists. split; [|split; [exact Hr'|exact Hleft]]. apply (step_net v), (net_deliver _ _ m _ vals Ev Hd).
    apply (fence_ready_sub _ _ _ Hf). intros m'. rewrite !elem_of_app, !list_elem_of_In, !filter_In. tauto.
Qed.

(** Every step of the job is a step of the chain or a step of the exchange. *)
Lemma crel_step lab arr w v w' : crel lab arr w v -> step w w' -> exists lab' arr' v', crel lab' arr' w' v' /\
  (v' = v /\ (chain_left lab' (w_st w') < chain_left lab (w_st w))%nat \/
   step v v' /\ chain_left lab' (w_st w') = chain_left lab (w_st w)).
Proof.
  intros Hr Hstep. destruct Hstep as [w p o k x s' Hk Hex|w s' Hns].
  - destruct (decide (p ∈ M)) as [Hp|Hp]; [|destruct (c_none _ _ _ _ Hr p Hp) as [Hno _]; by rewrite Hno in Hk].
    destruct (decide (lab p < 3)%nat) as [Hl|Hl].
    + destruct (crel_chain_step _ _ _ _ _ _ _ _ _ Hr Hp Hl Hk Hex) as (l & Hr' & Hm). eexists _, _, _. eauto.
    + destruct (crel_rest_step _ _ _ _ _ _ _ _ _ Hr Hp ltac:(lia) Hk Hex) as (v' & Hv & Hr' & Hm). eexists _, _, _. eauto.
  - destruct (crel_net_step _ _ _ _ _ Hr Hns) as [(m & Hr' & Hm)|(v' & Hv & Hr' & Hm)]; eexists _, _, _; eauto.
Qed.

(** ** Reachable states *)

Lemma crel_init : crel (fun p => if decide (p = start) then 2 else 0)%nat (fun _ => false) chain_job rest_job.
Proof.
  split; cbn [progs w_st chain_job rest_job coll_job init_state mem net epoch]; try done.
  - intros p Hp _. unfold chain_prog. destruct (decide (p ∈ M)) as [_|H]; [|done]. split; [|done]. by case_decide.
  - intros p Hp. case_decide as E; [intros; lia|]. intros; lia.
  - intros p Hp. case_decide as E; [|lia]. intros _. subst p. nia.
  - intros p Hp. by rewrite !decide_False.
  - intros p a. by destruct (chained a).
  - intros m ?%elem_of_nil. done.
  - intros m ?%elem_of_nil. done.
  - rewrite decide_True by done. split; [lia|]. intros a [-> | ->]%chained_iff; by apply H0, start_in.
  - intros p Hp Hps. case_decide; done.
  - intros p Hp Hps. case_decide; [done|lia].
  - intros p Hp Hps. by apply H0.
Qed.

Lemma crel_nsteps k w w' : nsteps step k w w' -> forall lab arr v, crel lab arr w v -> exists lab' arr' v' j,
  nsteps step j v v' /\ crel lab' arr' w' v' /\ (k + chain_left lab' (w_st w') <= j + chain_left lab (w_st w))%nat.
Proof.
  induction 1 as [w|k w w1 w' Hs _ IH]; intros lab arr v Hr; [exists lab, arr, v, 0%nat; split; [constructor|split; [done|lia]]|].
  destruct (crel_step _ _ _ _ _ Hr Hs) as (lab1 & arr1 & v1 & Hr1 & Hc).
  destruct (IH _ _ _ Hr1) as (lab' & arr' & v' & j & Hj & Hr' & Hm).
  destruct Hc as [[-> Hlt]|[Hv Heq]].
  - exists lab', arr', v', j. split; [done|]. split; [done|lia].
  - exists lab', arr', v', (S j). split; [by econstructor|]. split; [done|lia].
Qed.

Lemma crel_reachable w : rtc step chain_job w -> exists lab arr v, rtc step rest_job v /\ crel lab arr w v.
Proof.
  intros [k Hk]%rtc_nsteps. destruct (crel_nsteps _ _ _ Hk _ _ _ crel_init) as (lab & arr & v & j & Hj & Hr & _).
  exists lab, arr, v. split; [apply rtc_nsteps; eauto|done].
Qed.

(** A member that has returned has returned in the exchange. *)
Lemma crel_returned lab arr w v p : crel lab arr w v -> p ∈ M -> returned w p ->
  (3 <= lab p)%nat /\ returned v p /\ forall a, chained a = true -> mem (w_st w) p a = 0.
Proof.
  intros Hr Hp Hw. unfold returned in *. destruct (decide (lab p < 3)%nat) as [Hl|Hl].
  - destruct (c_pre _ _ _ _ Hr p Hp Hl) as [Hq _]. rewrite Hw in Hq. by destruct (lab p) as [|[|l]].
  - split; [lia|]. destruct (c_in _ _ _ _ Hr p Hp ltac:(lia)) as (k & Hq & Hv & Hcl). rewrite Hw in Hq. rewrite Hv, <- Hq. split; [done|].
    intros a Ha. destruct (Hcl a Ha) as [(j & Hj & Ho)|]; [|done]. exfalso.
    assert (drop k (ops p) !! (j - k)%nat = Some (clear_op a)) as Hd by (rewrite lookup_drop; rewrite <- Ho; f_equal; lia).
    by destruct (drop k (ops p)).
Qed.

(** ** Progress *)

(** The first member that is still in the chain can move when nothing is in flight. *)
Lemma crel_first_moves lab arr w v p : crel lab arr w v -> net (w_st w) = [] -> p ∈ M -> (lab p < 3)%nat ->
  (forall q, q ∈ M -> (lab q < 3)%nat -> p <= q) -> exists w', step w w'.
Proof.
  intros Hr Hnet Hp Hl Hmin. destruct (c_pre _ _ _ _ Hr p Hp Hl) as [Hq _].
  destruct (lab p) as [|[|[|l]]] eqn:El; [| | |lia]; simpl in Hq; [|eexists; by eapply (step_pe w p _ _ _ _ Hq)..].
  destruct (c_first _ _ _ _ Hr) as [Hst _].
  assert (p <> start) as Hps by (intros ->; lia). destruct (prev_in p Hp Hps) as [Hpr _].
  assert (3 <= lab (p - stride)%Z)%nat as H3.
  { destruct (decide (lab (p - stride)%Z < 3)%nat) as [H|H]; [|lia]. specialize (Hmin _ Hpr H). lia. }
  assert (arr p = true) as Ha.
  { pose proof (c_count _ _ _ _ Hr p Hp Hps) as Hc. rewrite Hnet, (proj2 (Nat.leb_le _ _) H3) in Hc. by destruct (arr p). }
  pose proof (c_words _ _ _ _ Hr p Hp Hps) as Hw. rewrite Ha in Hw. destruct Hw as [_ Hw]; [lia|].
  eexists. eapply (step_pe w p _ _ _ _ Hq). simpl. by rewrite Hw.
Qed.

Lemma op_back sw sv p o x sv' : srel sw sv -> net sw = [] -> op_apart o -> op_exec p o sv = Some (x, sv') ->
  exists y sw', op_exec p o sw = Some (y, sw').
Proof.
  intros [S1 S2 S3] Hnet Ho Hex. destruct o; simpl in Ho; try done; simpl in *; eauto.
  - rewrite Hnet. simpl. eauto.
  - rewrite S1, Ho in Hex. case_match; [eauto|done].
Qed.

Lemma crel_progress lab arr w v : crel lab arr w v -> all_returned v \/ (exists v', step v v') ->
  all_returned w \/ exists w', step w w'.
Proof.
  intros Hr Hv. destruct (decide (length (net (w_st w)) = 0%nat)) as [Hnet|Hnet].
  2:{ right. destruct (net_progress (w_st w)) as [s' Hs']; [intros E; by rewrite E in Hnet|].
      eexists. by apply step_net. }
  apply nil_length_inv in Hnet.
  destruct (decide (Exists (fun p => lab p < 3)%nat M)) as [HE|HE].
  { right. apply list.Exists_exists in HE as (q & Hq & Hlq).
    destruct (list_argmin (fun x => x) (fun p => lab p < 3)%nat M q Hq Hlq) as (p & Hp & Hl & Hmin). by eapply crel_first_moves. }
  assert (forall p, p ∈ M -> (3 <= lab p)%nat) as Hin.
  { intros p Hp. destruct (decide (lab p < 3)%nat) as [H|H]; [|lia]. destruct HE. apply list.Exists_exists. eauto. }
  assert (forall p, progs w p = progs v p) as Hsame.
  { intros p. destruct (decide (p ∈ M)) as [Hp|Hp].
    - destruct (c_in _ _ _ _ Hr p Hp (Hin p Hp)) as (k & -> & -> & _). done.
    - by destruct (c_none _ _ _ _ Hr p Hp) as [-> ->]. }
  destruct Hv as [Hd|[v' Hs]]; [left; intros p; unfold returned; rewrite Hsame; apply Hd|]. right.
  destruct Hs as [v p o k x s' Hk Hex|v s' Hns].
  - destruct (decide (p ∈ M)) as [Hp|Hp]; [|destruct (c_none _ _ _ _ Hr p Hp) as [_ Hno]; by rewrite Hno in Hk].
    assert (op_apart o) as Ho.
    { destruct (c_in _ _ _ _ Hr p Hp (Hin p Hp)) as (i & _ & Hi & _). rewrite Hi in Hk.
      destruct (ops p !! i) as [o1|] eqn:Ei; [|rewrite drop_ge in Hk by (by apply lookup_ge_None); done].
      rewrite (drop_S _ _ _ Ei) in Hk. injection Hk as <- _.
      apply (proj1 (list.Forall_forall _ _) (Hops p Hp)). by eapply list_elem_of_lookup_2. }
    destruct (op_back _ _ _ _ _ _ (crel_srel _ _ _ _ Hr) Hnet Ho Hex) as (y & sw' & Hw).
    eexists. eapply (step_pe w p o k y sw'); [by rewrite Hsame|done].
  - exfalso. pose proof (c_net _ _ _ _ Hr) as E. rewrite Hnet in E. simpl in E.
    destruct Hns as [s0 l1 m l2 ? ? E'|s0 l1 m l2 ? E']; rewrite E in E'; by destruct l1.
Qed.

(** ** The specification of the whole *)

Lemma chain_correct scratch moved steps :
  (forall a, chained a = true -> scratch a = true) -> (forall t a x, moved t a x -> scratch a = false) ->
  exchange_spec M scratch m0 moved (fun p => seqp (ops p)) steps ->
  exchange_spec M scratch m0 moved chain_prog (steps + 4 * Z.to_nat n).
Proof.
  intros Hsc Hmv [E1 E2 E3 E4 E5]. fold rest_job in *. split; fold chain_job.
  - destruct E1 as [Eb Ep]. split.
    + intros k w Hk. destruct (crel_nsteps _ _ _ Hk _ _ _ crel_init) as (lab & arr & v & j & Hj & _ & Hm).
      specialize (Eb j v Hj). assert (chain_left (fun p => if decide (p = start) then 2 else 0)%nat (w_st chain_job) <= 4 * Z.to_nat n)%nat; [|lia].
      unfold chain_left. simpl. rewrite Nat.add_0_r, <- (length_active_set start stride n).
      fold M. clear. induction M as [|q L IH]; simpl; [lia|]. case_decide; simpl; lia.
    + intros w Hw. destruct (crel_reachable w Hw) as (lab & arr & v & Hv & Hr). eapply crel_progress; [exact Hr|]. by apply Ep.
  - intros w i t a x Hw Hi Hret Hm. destruct (crel_reachable w Hw) as (lab & arr & v & Hv & Hr).
    destruct (crel_returned _ _ _ _ _ Hr Hi Hret) as (_ & Hret' & _).
    rewrite <- (E2 v i t a x Hv Hi Hret' Hm), (c_mem _ _ _ _ Hr).
    destruct (chained a) eqn:Ea; [|done]. pose proof (Hsc a Ea). rewrite (Hmv t a x Hm) in *. done.
  - intros w t a Hw Ha Hno. destruct (crel_reachable w Hw) as (lab & arr & v & Hv & Hr).
    rewrite <- (E3 v t a Hv Ha Hno), (c_mem _ _ _ _ Hr).
    destruct (chained a) eqn:Ea; [|done]. rewrite (Hsc a Ea) in Ha. done.
  - intros w i a Hw Hi Hret Ha. destruct (crel_reachable w Hw) as (lab & arr & v & Hv & Hr).
    destruct (crel_returned _ _ _ _ _ Hr Hi Hret) as (_ & Hret' & Hz). destruct (chained a) eqn:Ea.
    + rewrite (Hz a Ea). apply chained_iff in Ea as [-> | ->]; symmetry; by apply H0.
    + by rewrite <- (E4 v i a Hv Hi Hret' Ha), (c_mem _ _ _ _ Hr), Ea.
  - intros w Hw Hret. destruct (crel_reachable w Hw) as (lab & arr & v & Hv & Hr).
    assert (net (w_st v) = []) as Hnv.
    { apply E5; [done|]. intros p. destruct (decide (p ∈ M)) as [Hp|Hp]; [by apply (crel_returned _ _ _ _ p Hr Hp (Hret p))|].
      by apply (c_none _ _ _ _ Hr). }
    destruct (net (w_st w)) as [|m l] eqn:En; [done|]. exfalso.
    pose proof (c_net _ _ _ _ Hr) as Hf. rewrite Hnv, En in Hf. simpl in Hf. destruct (chain_msg m) eqn:Hm; [|done].
    destruct (c_chain _ _ _ _ Hr m) as (Hp & Hps & _); [rewrite En; apply list_elem_of_here|done|].
    pose proof (c_count _ _ _ _ Hr _ Hp Hps) as Hc. rewrite En in Hc. cbn [countb] in Hc. unfold chain_to at 1 in Hc.
    rewrite Hm, Z.eqb_refl in Hc. rewrite (c_arr _ _ _ _ Hr _ Hp Hps), andb_false_r in Hc; [simpl in Hc; lia|].
    destruct (crel_returned _ _ _ _ _ Hr Hp (Hret _)). lia.
Qed.
End chain.
