(* ===== verification/CollectProof.v ===== *)
(** * [shmem_internal_collect] delivers

    The members contribute blocks of different lengths.  The offsets are passed on from
    member to member ([Chain]); the data then goes to everybody with puts that a barrier
    completes ([Phase]); a set of one member only copies. *)

From Stdlib Require Import String.
From S2P Require Import Prelude Machine Straight Internal ReduceOp Comm Tree CollInit CollSync Barriers Collect Schedule Phase Exchange Chain.
Local Open Scope string_scope.
Local Open Scope list_scope.
Local Open Scope Z_scope.
Local Open Scope prog_scope.

(** ** What a collect promises *)

(** The place of the block of the member of rank [i]: after those of the lower ranks. *)
Definition collect_offset (start stride : Z) (len : Z -> Z) (i : Z) : Z :=
  foldr Z.add 0 (map (fun j => len (start + j * stride)) (upto 0 i)).

(** Every member receives the block of every member at its offset. *)
Definition gathered (start stride size target source : Z) (len : Z -> Z) (m0 : Z -> lmem) (t a x : Z) : Prop :=
  exists i j k, 0 <= i < size /\ 0 <= j < size /\ 0 <= k < len (start + i * stride) /\ t = start + j * stride /\
    a = target + collect_offset start stride len i + k /\ x = m0 (start + i * stride) (source + k).

Definition collect_psync_end (pSync : Z) : Z := pSync + SHMEM_COLLECT_SYNC_SIZE * SIZEOF_LONG.

Lemma exchange_spec_mono M scratch m0 moved body k k' : (k <= k')%nat ->
  exchange_spec M scratch m0 moved body k -> exchange_spec M scratch m0 moved body k'.
Proof. intros Hk [[E1 E1'] E2 E3 E4 E5]. split; try done. split; [|done]. intros n w Hn. specialize (E1 n w Hn). lia. Qed.

(** ** Offsets *)

Section offsets.
Context (start stride size : Z) (len : Z -> Z).
Context (Hlen : forall p, p ∈ active_set start stride size -> 0 <= len p).
Abbreviation off := (collect_offset start stride len).

Lemma collect_offset_succ i : 0 <= i -> off (i + 1) = off i + len (start + i * stride).
Proof.
  intros Hi. unfold collect_offset. assert (upto 0 (i + 1) = upto 0 i ++ [i]) as ->.
  { unfold upto, zrange. replace (Z.to_nat (i + 1 - 0)) with (Z.to_nat (i - 0) + 1)%nat by lia.
    rewrite seq_app, map_app. simpl. do 2 f_equal. lia. }
  rewrite map_app. simpl. induction (map _ (upto 0 i)) as [|x l IH]; simpl; lia.
Qed.

Lemma collect_offset_mono i j : 0 <= i -> i <= j -> j <= size -> off i <= off j.
Proof.
  intros Hi Hij. revert j Hij. apply (Z.le_ind (fun j => j <= size -> off i <= off j)); [by intros ? ? ->|lia|].
  intros j Hj IH Hs. unfold Z.succ in *. rewrite collect_offset_succ by lia.
  pose proof (Hlen (start + j * stride)) as H. rewrite elem_of_active_set in H. specialize (IH ltac:(lia)).
  assert (0 <= len (start + j * stride)); [apply H; exists j; lia|lia].
Qed.

Lemma collect_offset_0 : off 0 = 0.
Proof. done. Qed.

(** The blocks tile the first [off size] bytes. *)
Lemma collect_block i k : 0 <= i < size -> 0 <= k < len (start + i * stride) -> 0 <= off i + k < off size.
Proof.
  intros Hi Hk. pose proof (collect_offset_mono 0 i). pose proof (collect_offset_mono (i + 1) size).
  rewrite collect_offset_0, collect_offset_succ in * by lia. lia.
Qed.

Lemma collect_blocks_apart i k i' k' : 0 <= i < size -> 0 <= i' < size -> 0 <= k < len (start + i * stride) ->
  0 <= k' < len (start + i' * stride) -> off i + k = off i' + k' -> i = i' /\ k = k'.
Proof.
  intros Hi Hi' Hk Hk' E. destruct (Z.lt_trichotomy i i') as [H|[->|H]]; [exfalso|lia|exfalso].
  - pose proof (collect_offset_mono (i + 1) i'). rewrite collect_offset_succ in * by lia. lia.
  - pose proof (collect_offset_mono (i' + 1) i). rewrite collect_offset_succ in * by lia. lia.
Qed.
End offsets.

(** ** A member alone: a local copy or nothing *)

Section alone.
Context (p : Z) (m0 : Z -> lmem) (f : lmem -> lmem) (q : prog unit).
Context (Hq : q = do_ (OLocal f) \/ q = skip /\ forall a, f (m0 p) a = m0 p a).
Let job := coll_job [p] m0 (fun _ => q).

Lemma alone_step k w : nsteps step k job w ->
  (k <= 1)%nat /\ net (w_st w) = [] /\ (w = job /\ k = 0%nat \/ k = 1%nat /\ all_returned w /\ mem (w_st w) = <[p := f (m0 p)]> m0).
Proof.
  intros H. inversion H as [x E1 E2|n x y z Hs Hr E1 E2 E3]; subst; [split; [lia|auto]|].
  assert (progs y = (fun _ => skip) /\ net (w_st y) = [] /\ mem (w_st y) = <[p := f (m0 p)]> m0) as (Hp & Hn & Hm).
  { inversion Hs as [w0 pe o k v s' Hk Hex|w0 s' Hns]; subst.
    - unfold job, coll_job in *. simpl in *. destruct (decide (pe ∈ [p])) as [Hpe|]; [|done].
      apply list_elem_of_singleton in Hpe as ->. destruct Hq as [-> | [-> _]]; [|done]. injection Hk as <- <-. injection Hex as <- <-.
      split; [|done]. extensionality r. rewrite insert_cases. case_decide; [done|].
      rewrite decide_False; [done|]. rewrite list_elem_of_singleton. congruence.
    - inversion Hns as [? l1 ? ? ? ? E|? l1 ? ? ? E]; by destruct l1. }
  assert (forall z, ~ step y z) as Hend.
  { intros z' Hz. inversion Hz as [? pe ? ? ? ? Hk|? ? Hns]; subst; [by rewrite Hp in Hk|].
    inversion Hns as [? l1 ? ? ? ? E|? l1 ? ? ? E]; rewrite Hn in E; by destruct l1. }
  inversion Hr as [|? ? y2 ? Hs2]; subst; [|by destruct (Hend y2)].
  split; [lia|]. split; [done|]. right. split; [done|]. split; [|done]. intros r. unfold returned. by rewrite Hp.
Qed.

Lemma alone_exchange scratch moved : (forall t a x, moved t a x -> t = p /\ f (m0 p) a = x) ->
  (forall a, (forall x, ~ moved p a x) -> f (m0 p) a = m0 p a) -> (forall a, scratch a = true -> f (m0 p) a = m0 p a) ->
  exchange_spec [p] scratch m0 moved (fun _ => q) 1.
Proof.
  intros Hmv Hfr Hsc. fold job. assert (forall w, rtc step job w -> net (w_st w) = [] /\
    (w = job \/ all_returned w /\ mem (w_st w) = <[p := f (m0 p)]> m0)) as Hreach.
  { intros w [k Hk]%rtc_nsteps. destruct (alone_step _ _ Hk) as (_ & ? & [[? _]|[_ ?]]); auto. }
  assert (forall w i, rtc step job w -> returned w i -> i ∈ [p] -> forall a, mem (w_st w) p a = f (m0 p) a) as Hdone.
  { intros w i Hw Hr ->%list_elem_of_singleton a. destruct (Hreach w Hw) as (_ & [->|[_ ->]]); [|by rewrite fn_lookup_insert].
    unfold returned, job, coll_job in Hr. simpl in Hr. rewrite decide_True in Hr by apply list_elem_of_here.
    destruct Hq as [->|[_ Hid]]; [done|]. simpl. by rewrite Hid. }
  split; fold job.
  - split; [intros k w Hk; by apply (alone_step k w)|]. intros w Hw. destruct (Hreach w Hw) as (_ & [->|[? _]]); [|by left].
    destruct Hq as [E|[E _]].
    + right. eexists. apply (step_pe job p (OLocal f) (fun _ => skip) 0); [|done]. unfold job, coll_job. simpl. rewrite decide_True by apply list_elem_of_here. done.
    + left. intros r. unfold returned, job, coll_job. simpl. by case_decide.
  - intros w i t a x Hw Hi Hr [-> <-]%Hmv. by eapply Hdone.
  - intros w t a Hw _ Hno. destruct (Hreach w Hw) as (_ & [->|[_ ->]]); [done|]. rewrite (insert_cases m0). case_decide; [subst t; by apply Hfr|done].
  - intros w i a Hw Hi Hr Ha. pose proof (Hdone w i Hw Hr Hi a) as H. apply list_elem_of_singleton in Hi as ->. rewrite H. by apply Hsc.
  - intros w Hw _. by apply Hreach.
Qed.
End alone.

(** ** Two members and more *)

Section collect.
Context (params : coll_params) (num_pes start stride size pSync : Z) (t : coll_type_t).
Context (Hok : active_set_ok params num_pes start stride size).
Context (Ht : select barrier_type_of (p_BARRIER_ALGORITHM params) = t).
Let e := coll_env params num_pes.
Let M := active_set start stride size.
Let rank p := cdiv (p - start) stride.
Context (target source : Z) (len : Z -> Z).
Context (Hlen : forall p, p ∈ M -> 0 <= len p).
Abbreviation off := (collect_offset start stride len).
Abbreviation bytes := (off size).
Context (Hbytes : bytes < 2 ^ 63).
Context (Htp : apart target bytes pSync (collect_psync_end pSync - pSync)).
Context (Hsrc : forall p, p ∈ M -> 0 < len p ->
  apart source (len p) pSync (collect_psync_end pSync - pSync) /\ apart target bytes source (len p)).
Context (m0 : Z -> lmem).
Context (H0 : forall p a, p ∈ M -> pSync <= a < collect_psync_end pSync -> m0 p a = SHMEM_SYNC_VALUE).

Let lo := pSync.
Let hi := collect_psync_end pSync.
Let bsync := pSync + 2 * SIZEOF_LONG.

Ltac in_collect := unfold lo, hi, bsync, collect_psync_end, psync_end, SHMEM_COLLECT_SYNC_SIZE, SHMEM_BARRIER_SYNC_SIZE, SIZEOF_LONG in *; lia.

Definition collect_puts (p : Z) : list op :=
  if len p >? 0 then
    map (fun peer => OPut peer (target + off (rank p)) (Pending source (upto 0 (len p))) true) (circular_visit p start stride size)
  else [].
Definition collect_ops : Z -> list op :=
  ops collect_puts (barrier_ops params num_pes start stride size bsync) (fun _ => psync_resets pSync SHMEM_COLLECT_SYNC_SIZE).

Lemma collect_rank i : 0 <= i -> rank (start + i * stride) = i.
Proof. intros Hi. destruct Hok. unfold rank. apply rank_pe; lia. Qed.

Lemma collect_puts_in i o : 0 <= i < size -> o ∈ collect_puts (start + i * stride) <->
  0 < len (start + i * stride) /\ exists j, 0 <= j < size /\
    o = OPut (start + j * stride) (target + off i) (Pending source (upto 0 (len (start + i * stride)))) true.
Proof.
  intros Hi. unfold collect_puts. destruct Hok. rewrite collect_rank by lia. destruct (len (start + i * stride) >? 0) eqn:El.
  - rewrite list_elem_of_In, in_map_iff. split.
    + intros (peer & <- & Hp%list_elem_of_In). apply (circular_visit_iff params num_pes) in Hp as (j & Hj & ->); [|done..].
      split; [lia|eauto].
    + intros (_ & j & Hj & ->). exists (start + j * stride). split; [done|]. apply list_elem_of_In.
      apply (circular_visit_iff params num_pes); eauto.
  - split; [by intros ?%elem_of_nil|]. intros [? _]. lia.
Qed.

Lemma collect_written d a x : written M m0 collect_puts d a x <-> gathered start stride size target source len m0 d a x.
Proof.
  unfold written, gathered. split.
  - intros (p & o & (i & Hi & ->)%elem_of_active_set & Ho & Hw). apply collect_puts_in in Ho as (Hl & j & Hj & ->); [|done].
    simpl in Hw. apply list_elem_of_In, in_map_iff in Hw as (k & [= <- <- <-] & Hk%list_elem_of_In%elem_of_upto).
    by exists i, j, k.
  - intros (i & j & k & Hi & Hj & Hk & -> & -> & ->). exists (start + i * stride). eexists.
    split; [apply elem_of_active_set; eauto|]. split; [apply collect_puts_in; [done|]; split; [lia|]; exists j; by split|].
    simpl. apply list_elem_of_In, in_map_iff. exists k. split; [done|]. by apply list_elem_of_In, elem_of_upto.
Qed.

Lemma collect_fun d a x x' : written M m0 collect_puts d a x -> written M m0 collect_puts d a x' -> x = x'.
Proof.
  rewrite !collect_written. intros (i & j & k & Hi & Hj & Hk & -> & -> & ->) (i' & j' & k' & Hi' & Hj' & Hk' & _ & E & ->).
  destruct (collect_blocks_apart start stride size len Hlen i k i' k') as [-> ->]; [done..|lia|done].
Qed.

(** The target and the sources are outside the pSync. *)
Lemma target_out x : 0 <= x < bytes -> in_psync lo hi (target + x) = false.
Proof. intros Hx. apply not_true_iff_false. rewrite in_psync_iff. unfold apart, lo, hi in *. lia. Qed.

Lemma collect_data p : p ∈ M -> Forall (data_op M lo hi m0 collect_puts p) (collect_puts p).
Proof.
  intros (i & Hi & ->)%elem_of_active_set. apply list.Forall_forall. intros o (Hl & j & Hj & ->)%collect_puts_in; [|done]. simpl.
  pose proof (fun k => collect_block start stride size len Hlen i k Hi) as Hb.
  split; [apply target_out; specialize (Hb 0); lia|]. intros k Hk%elem_of_upto. specialize (Hb k Hk).
  destruct (Hsrc (start + i * stride)) as [A1 A2]; [apply elem_of_active_set; eauto|done|]. unfold apart in A1, A2.
  split; [rewrite <- Z.add_assoc; by apply target_out|]. split.
  - apply not_true_iff_false. rewrite in_psync_iff. unfold lo, hi in *. lia.
  - intros x (i' & j' & k' & Hi' & _ & Hk' & _ & E & _)%collect_written. exfalso.
    pose proof (collect_block start stride size len Hlen i' k' Hi' Hk'). lia.
Qed.

Lemma collect_barrier_sync p : Forall (fun o => sync_op bsync (psync_end bsync) o = true) (barrier_ops params num_pes start stride size bsync p).
Proof. by eapply barrier_ops_sync. Qed.

Lemma sync_op_wider o : sync_op bsync (psync_end bsync) o = true -> sync_op lo hi o = true.
Proof.
  assert (forall a, in_psync bsync (psync_end bsync) a = true -> in_psync lo hi a = true) as H
    by (intros a; rewrite !in_psync_iff; in_collect).
  destruct o as [? ? [[|[[] ?] []]|] ?|? ? ? [[|[[] ?] []]|]| | | | | | | | |]; simpl; try done; apply H.
Qed.

Lemma collect_resets p : p ∈ M -> Forall (reset_op lo hi m0 p) (psync_resets pSync SHMEM_COLLECT_SYNC_SIZE).
Proof.
  intros Hp. apply list.Forall_forall. intros o (i & <- & Hi%list_elem_of_In%elem_of_upto)%list_elem_of_In%in_map_iff.
  intros m Hm a. update_cases; [|done]. subst.
  assert (pSync <= pSync + SIZEOF_LONG * i < hi) by in_collect.
  rewrite Hm by (by apply in_psync_iff). by rewrite H0.
Qed.

Lemma collect_phase : exchange_spec M (in_psync lo hi) m0 (gathered start stride size target source len m0)
  (fun p => seqp (collect_ops p)) (exchange_steps size t (Z.to_nat size + 2)).
Proof.
  pose proof (NoDup_active_set start stride size (ok_stride _ _ _ _ _ Hok)) as HM.
  assert (psync_ready M bsync m0) as Hrdy by (intros p a Hp Ha; apply H0; [done|in_collect]).
  pose proof (barrier_ops_spec params num_pes start stride size bsync t Hok Ht m0 Hrdy) as Hspec.
  pose proof (phase_correct M HM lo hi m0 collect_puts _ (fun _ => psync_resets pSync SHMEM_COLLECT_SYNC_SIZE)
    (fun p _ => list.Forall_impl _ _ _ (collect_barrier_sync p) sync_op_wider) _ Hspec collect_resets collect_data collect_fun
    (fun p => seqp (collect_ops p)) (fun p _ => follows_seqp _ _)) as H.
  apply (exchange_spec_iff _ _ _ _ _ _ _ collect_written). eapply exchange_spec_mono; [|exact H].
  unfold phase_steps, exchange_steps. apply Nat.add_le_mono_l, Nat.mul_le_mono_l.
  rewrite <- (length_active_set start stride size). fold M.
  assert (forall p, p ∈ M -> (length (collect_puts p) <= length M)%nat) as Hputs.
  { intros p Hp. unfold collect_puts. case_match; [|simpl; lia]. rewrite length_map, (length_circular params num_pes) by done.
    unfold M. by rewrite length_active_set. }
  transitivity (sum_list (map (fun _ => length M + 18)%nat M)); [|rewrite (sum_list_const _ (length M + 18)%nat) by done; lia].
  apply sum_list_le. intros p Hp. specialize (Hputs p Hp). unfold psync_resets. rewrite length_map, length_upto.
  change (Z.to_nat (SHMEM_COLLECT_SYNC_SIZE - 0)) with 18%nat. lia.
Qed.

(** *** The chain *)

Context (Hsize : 2 <= size).
Abbreviation off_at p := (off (rank p)).

(** What follows the offset. *)
Definition collect_finish (p o : Z) : prog unit :=
  for_ (circular_visit p start stride size) (fun peer => when (len p >? 0) (shmem_internal_put_nbi (target + o) source (len p) peer)) ;;
  shmem_internal_barrier (e p) start stride size bsync ;;
  reset_psync pSync (2 + SHMEM_BARRIER_SYNC_SIZE).
Definition collect_cont (p o : Z) : prog unit :=
  when (p <? start + stride * (size - 1)) (shmem_internal_put_longs true pSync [wrap_s 64 (o + len p); 1] (p + stride)) ;;
  collect_finish p o.

Lemma collect_finish_ops p : p ∈ M -> collect_finish p (off_at p) = seqp (collect_ops p).
Proof.
  intros Hp. unfold collect_finish.
  assert (for_ (circular_visit p start stride size) (fun peer => when (len p >? 0) (shmem_internal_put_nbi (target + off_at p) source (len p) peer)) =
    seqp (collect_puts p)) as ->.
  { straighten. unfold collect_puts. destruct (len p >? 0) eqn:El; [|by induction (circular_visit _ _ _ _)].
    rewrite (proj2 (Z.eqb_neq (len p) 0)) by lia. cbn [negb]. by rewrite flat_map_singleton. }
  unfold shmem_internal_barrier. rewrite reset_psync_ops.
  assert (sync_prog bsync (psync_end bsync) (shmem_internal_sync (e p) start stride size bsync)) as Hs by (eapply sync_sync_prog, Ht).
  rewrite (proj1 (performs_ops _ _ Hs)). fold (barrier_ops params num_pes start stride size bsync p).
  unfold shmem_internal_quiet, collect_ops, ops. by straighten.
Qed.

Lemma off_at_next p : p ∈ M -> off_at (p + stride) = off_at p + len p.
Proof.
  intros (i & Hi & ->)%elem_of_active_set. replace (start + i * stride + stride) with (start + (i + 1) * stride) by lia.
  rewrite !collect_rank by lia. apply collect_offset_succ. lia.
Qed.

Lemma off_at_range p : p ∈ M -> 0 <= off_at p /\ off_at p + len p < 2 ^ 63.
Proof.
  intros (i & Hi & ->)%elem_of_active_set. rewrite collect_rank by lia.
  pose proof (collect_offset_mono start stride size len Hlen 0 i). pose proof (collect_offset_mono start stride size len Hlen (i + 1) size).
  rewrite collect_offset_0, collect_offset_succ in * by lia. lia.
Qed.

Lemma collect_put p (q : prog unit) : p ∈ M -> (shmem_internal_put_longs true pSync [wrap_s 64 (off_at p + len p); 1] (p + stride) ;; q) =
  Do (chain_put stride pSync (fun p => off_at p) p) (fun _ => q).
Proof.
  intros Hp. destruct (off_at_range p Hp). pose proof (Hlen p Hp).
  rewrite wrap_s_id by (change (2 ^ (64 - 1)) with (2 ^ 63); lia). unfold chain_put. by rewrite off_at_next.
Qed.

Lemma collect_cont_ops p : p ∈ M -> p <> start -> collect_cont p (off_at p) =
  if decide (p = start + (size - 1) * stride) then seqp (collect_ops p)
  else Do (chain_put stride pSync (fun p => off_at p) p) (fun _ => seqp (collect_ops p)).
Proof.
  intros Hp _. unfold collect_cont. rewrite collect_finish_ops by done. pose proof Hp as (i & Hi & E)%elem_of_active_set.
  case_decide as Hf.
  - rewrite (proj2 (Z.ltb_ge _ _)) by lia. done.
  - rewrite (proj2 (Z.ltb_lt _ _)); [by apply collect_put|]. destruct Hok. assert (i <> size - 1) by (intros ->; lia). nia.
Qed.

Lemma collect_is_chain p : p ∈ M -> shmem_internal_collect_linear true (e p) target source (len p) start stride size pSync =
  chain_prog start stride pSync (fun p => off_at p) collect_ops collect_cont p.
Proof.
  intros Hp. unfold shmem_internal_collect_linear, chain_prog. unfold e. rewrite !e_pe.
  rewrite (proj2 (Z.eqb_neq size 1)) by lia. destruct (Z.eqb_spec start p) as [<-|Hne].
  - rewrite decide_True by done. assert (off_at start = 0) as Eo.
    { replace start with (start + 0 * stride) by lia. rewrite collect_rank by lia. done. }
    cbn [chain_at]. rewrite <- collect_finish_ops, <- collect_put, Eo by done. done.
  - rewrite decide_False by congruence. done.
Qed.

Lemma collect_ops_apart p : p ∈ M -> Forall (op_apart pSync) (collect_ops p).
Proof.
  intros Hp. assert (forall a, in_psync lo hi a = false -> chained pSync a = false) as Hout.
  { intros a Ha. apply not_true_iff_false. intros [-> | ->]%chained_iff; apply not_true_iff_false in Ha; apply Ha, in_psync_iff; in_collect. }
  unfold collect_ops, ops. apply Forall_app. split; [|constructor; [done|apply Forall_app; split]].
  - pose proof (collect_data p Hp) as HD. rewrite list.Forall_forall in HD |- *. intros o Ho. specialize (HD o Ho).
    apply elem_of_active_set in Hp as (i & Hi & ->). apply collect_puts_in in Ho as (_ & j & _ & ->); [|done].
    destruct HD as [Ht' Hx]. split; [by apply Hout|]. intros x Hin. destruct (Hx x Hin) as [? [? _]].
    split; by apply Hout.
  - eapply list.Forall_impl; [apply collect_barrier_sync|].
    assert (forall a, in_psync bsync (psync_end bsync) a = true -> chained pSync a = false) as Hin.
    { intros a Ha%in_psync_iff. apply not_true_iff_false. intros [-> | ->]%chained_iff; in_collect. }
    intros [? ? [[|[[] ?] []]|] ?|? ? ? [[|[[] ?] []]|]| | | | | | | | |]; simpl; try done; try apply Hin.
    all: intros Ha; split; [by apply Hin|]; intros x ->%list_elem_of_singleton; simpl; rewrite Z.add_0_r; by apply Hin.
  - apply list.Forall_forall. intros o (i & <- & _)%list_elem_of_In%in_map_iff. simpl. eauto.
Qed.

Lemma collect_ops_clear p a : p ∈ M -> chained pSync a = true -> clear_op a ∈ collect_ops p.
Proof.
  intros _ Ha. unfold collect_ops, ops. apply elem_of_app. right. apply list_elem_of_further, elem_of_app. right.
  unfold psync_resets. apply list_elem_of_In, in_map_iff. setoid_rewrite <- list_elem_of_In. setoid_rewrite elem_of_upto.
  unfold SHMEM_COLLECT_SYNC_SIZE. apply chained_iff in Ha as [-> | ->]; [exists 0|exists 1]; (split; [|lia]); unfold clear_op; do 3 f_equal; lia.
Qed.

Lemma collect_linear_delivers : exchange_spec M (in_psync lo hi) m0 (gathered start stride size target source len m0)
  (fun p => shmem_internal_collect_linear true (e p) target source (len p) start stride size pSync)
  (exchange_steps size t (Z.to_nat size + 2) + 4 * Z.to_nat size).
Proof.
  eapply exchange_spec_ext; [intros p Hp; symmetry; by apply collect_is_chain|].
  apply chain_correct; try done; [by apply (ok_stride _ _ _ _ _ Hok)|..].
  - intros p Hp. split; apply H0; try done; in_collect.
  - apply collect_ops_apart.
  - apply collect_ops_clear.
  - apply collect_cont_ops.
  - intros a [-> | ->]%chained_iff; apply in_psync_iff; in_collect.
  - intros d a x (i & j & k & Hi & Hj & Hk & _ & -> & _). rewrite <- Z.add_assoc. apply target_out.
    by apply (collect_block start stride size len Hlen).
  - apply collect_phase.
Qed.
End collect.

(** *** One member *)

Section collect_one.
Context (start stride target source pSync : Z) (len : Z -> Z) (m0 : Z -> lmem).
Let n := len start.
Context (Htp : apart target n pSync (collect_psync_end pSync - pSync)).

Lemma collect_one_delivers q : q = when (negb (target =? source)) (memcpy target source n) ->
  exchange_spec [start] (in_psync pSync (collect_psync_end pSync)) m0 (gathered start stride 1 target source len m0) (fun _ => q) 1.
Proof.
  intros Hq. assert (forall x, copy_bytes target source n (m0 start) x =
    if decide (target <= x < target + n) then m0 start (source + (x - target)) else m0 start x) as Hcopy.
  { intros x. unfold copy_bytes. case_decide as E; case_match eqn:E'; (done || lia). }
  apply (alone_exchange start m0 (copy_bytes target source n)).
  - destruct (Z.eqb_spec target source) as [E|E]; [right|by left]. split; [done|]. intros x. rewrite Hcopy.
    case_decide; [|done]. do 2 f_equal. lia.
  - intros d a x (i & j & k & Hi & Hj & Hk & -> & -> & ->). assert (i = 0) as -> by lia. assert (j = 0) as -> by lia.
    rewrite Z.mul_0_l, Z.add_0_r in *. fold n in Hk. rewrite collect_offset_0, Z.add_0_r, Hcopy, decide_True by lia.
    split; [done|]. do 2 f_equal. lia.
  - intros a Hno. rewrite Hcopy. case_decide; [|done]. exfalso. apply (Hno (m0 start (source + (a - target)))).
    exists 0, 0, (a - target). rewrite collect_offset_0, Z.mul_0_l, !Z.add_0_r. fold n. repeat split; try lia; do 2 f_equal; lia.
  - intros a Ha%in_psync_iff. rewrite Hcopy, decide_False; [done|]. unfold apart in Htp. lia.
Qed.
End collect_one.

(** C6: On a transport that makes the two longs of one put visible together (the code packs
    the offset and the flag that announces it into one put, and notes that this relies on
    byte ordering), [shmem_internal_collect], for any number of members and any lengths
    (with a sum that a long can hold, see the truncation the code mentions), whichever
    barrier is selected and in every execution: it returns on every member within a number of steps
    quadratic in the members; once one member has returned, the block of every member is
    at every member, after the blocks of the members of lower rank; no other cell changes,
    a member that returns has its pSync as it was, and nothing is left in flight. *)
Theorem collect_correct (whole_puts : bool) params num_pes start stride size pSync t target source len m0 :
  let M := active_set start stride size in
  let bytes := collect_offset start stride len size in
  let psync_size := collect_psync_end pSync - pSync in
  whole_puts = true -> active_set_ok params num_pes start stride size ->
  select barrier_type_of (p_BARRIER_ALGORITHM params) = t ->
  (forall p, p ∈ M -> 0 <= len p) -> bytes < 2 ^ 63 -> apart target bytes pSync psync_size ->
  (forall p, p ∈ M -> 0 < len p -> apart source (len p) pSync psync_size /\ apart target bytes source (len p)) ->
  (forall p a, p ∈ M -> pSync <= a < collect_psync_end pSync -> m0 p a = SHMEM_SYNC_VALUE) ->
  exchange_spec M (in_psync pSync (collect_psync_end pSync)) m0 (gathered start stride size target source len m0)
    (fun p => shmem_internal_collect whole_puts (coll_env params num_pes p) target source (len p) start stride size pSync)
    (exchange_steps size t (Z.to_nat size + 2) + 4 * Z.to_nat size).
Proof.
  intros M bytes psync_size -> Hok Ht Hlen Hbytes Htp Hsrc H0.
  assert (forall p, shmem_internal_collect true (coll_env params num_pes p) target source (len p) start stride size pSync =
    shmem_internal_collect_linear true (coll_env params num_pes p) target source (len p) start stride size pSync) as Hlin.
  { intros p. unfold shmem_internal_collect. assert (shmem_internal_collect_type (coll_env params num_pes p) =
      select collect_type_of (p_COLLECT_ALGORITHM params)) as -> by (unfold coll_env; by destruct (default _ _)).
    unfold select, collect_type_of. by repeat case_match; simplify_eq/=. }
  eapply exchange_spec_ext; [intros p _; symmetry; apply Hlin|]. clear Hlin.
  destruct (decide (size = 1)) as [E|Hne]; [|apply collect_linear_delivers; try done; destruct Hok; lia].
  assert (M = [start]) as EM by (unfold M; by rewrite E). assert (start ∈ M) as Hs by (rewrite EM; apply list_elem_of_here).
  assert (bytes = len start) as Eb by (unfold bytes, collect_offset; rewrite E; simpl; by rewrite !Z.add_0_r).
  rewrite Eb in Htp. clear H0 Hok Ht Hbytes Hlen Hsrc.
  clearbody M. clear Hs bytes Eb. subst M size.
  eapply exchange_spec_ext; [|apply (exchange_spec_mono _ _ _ _ _ 1)]; [| |eapply collect_one_delivers; [..|reflexivity]].
  - intros p ->%list_elem_of_singleton. done.
  - unfold exchange_steps. lia.
  - done.
Qed.

(** Four members that contribute 3, 0, 5 and 2 bytes. *)
Lemma collect_correct_witness :
  let len p := if p =? 1 then 3 else if p =? 3 then 0 else if p =? 5 then 5 else 2 in
  exchange_spec (active_set 1 2 4) (in_psync 64 208) (fun p a => if a <? 208 then 0 else 1000 * p + a)
    (gathered 1 2 4 300 400 len (fun p a => if a <? 208 then 0 else 1000 * p + a))
    (fun p => shmem_internal_collect true (coll_env (sample_params "dissem") 16 p) 300 400 (len p) 1 2 4 64)
    (exchange_steps 4 DISSEM 6 + 16) /\
  map (collect_offset 1 2 len) [0; 1; 2; 3; 4] = [0; 3; 3; 8; 10].
Proof.
  intros len. split; [|vm_compute; reflexivity].
  assert (forall p, 0 <= len p <= 5) as Hlen by (intros p; unfold len; repeat case_match; lia).
  assert (collect_offset 1 2 len 4 = 10) as Eb by (vm_compute; reflexivity).
  apply (collect_correct true (sample_params "dissem") 16 1 2 4 64 DISSEM 300 400 len);
    rewrite ?Eb; unfold apart, collect_psync_end, SHMEM_COLLECT_SYNC_SIZE, SIZEOF_LONG.
  - reflexivity.
  - by split; simpl; lia.
  - reflexivity.
  - intros p _. apply Hlen.
  - lia.
  - lia.
  - intros p _ _. specialize (Hlen p). lia.
  - intros p a _ Ha. rewrite (proj2 (Z.ltb_lt _ _)) by lia. done.
Defined.

(** ** Words that arrive in the other order

    Two members that contribute one byte each.  The flag of the put reaches PE 1 before the
    offset: it takes 0 for its offset, and both blocks go to the first byte of the
    target. *)
Lemma collect_split_put :
  let m0 p a := if a <? 300 then 0 else p + 1 in
  let job := coll_job (active_set 0 1 2) m0 (fun p =>
    shmem_internal_collect false (coll_env (sample_params "linear") 2 p) 500 400 1 0 1 2 64) in
  exists w, rtc step job w /\ all_returned w /\ net (w_st w) = [] /\
    gathered 0 1 2 500 400 (fun _ => 1) m0 0 501 (m0 1 400) /\ m0 1 400 = 2 /\ mem (w_st w) 0 501 = 1.
Proof.
  intros m0 job.
  destruct (exec_all_outcome ([RunPE 0; RunPE 0; RunNet 1; RunPE 1; RunPE 1; RunPE 0; RunPE 1; RunNet 0; RunPE 0; RunPE 1;
      RunNet 0; RunNet 0; RunNet 0; RunNet 0; RunNet 0; RunNet 0; RunPE 0; RunNet 0; RunNet 0; RunPE 1; RunPE 1; RunNet 0;
      RunPE 0; RunPE 0; RunNet 0; RunPE 0; RunPE 0; RunNet 0; RunPE 0; RunPE 1; RunPE 0; RunPE 1; RunNet 0] ++
      repeat (RunPE 0) 16 ++ repeat (RunPE 1) 19) job
    (fun w => (progs w 0, progs w 1, net (w_st w), mem (w_st w) 0 501))
    (skip, skip, [], 1) ltac:(vm_compute; reflexivity)) as (w & Hs & [= H0 H1 Hn Hv]).
  exists w. split; [exact Hs|]. split; [|split; [exact Hn|split; [|split; [done|exact Hv]]]].
  - eapply coll_job_returned; [exact Hs|]. intros p (i & Hi & ->)%elem_of_active_set.
    assert (i = 0 \/ i = 1) as [->| ->] by lia; [exact H0|exact H1].
  - exists 1, 0, 0. repeat split; try lia; done.
Qed.
