(* ===== verification/BcastProof.v ===== *)
(** * The broadcasts deliver

    A broadcast over any communication tree, with or without the acknowledgements that
    the caller asks for with [complete]; [bcast_tree] acknowledges before it forwards,
    [bcast_linear] (a tree of depth one) after it has cleared its pSync.  The invariant
    relates the pSync of a member to the flag its parent has sent and the acknowledgements
    its children have sent, and the flag to the data put before it: the fence orders them. *)

From S2P Require Import Prelude Machine Straight Slots Internal ReduceOp Comm Tree CollSync Bcast.
Local Open Scope Z_scope.
Local Open Scope prog_scope.

(** The specification of a broadcast over a tree, under every interleaving and delivery
    order: it returns on every member within [steps] steps of the job; a member other than
    the root that has returned has the data of the root; with [complete] so have its
    children; a member that has returned can reuse its buffers, since no put of its own
    still has to read one, and its pSync is zero; nothing but the pSyncs and the target
    arrays of the others changes; and what can still be in flight when all have returned
    is one message, the clear of its pSync by the root of a broadcast without [complete]. *)
Record bcast_spec (M : list Z) (root : Z) (children : Z -> list Z) (target source len pSync : Z) (complete : bool)
    (m0 : Z -> lmem) (body : Z -> prog unit) (steps : nat) : Prop := {
  bc_completes : job_completes (coll_job M m0 body) steps;
  bc_delivers : forall w p k, rtc step (coll_job M m0 body) w -> p ∈ M -> returned w p -> p <> root ->
    0 <= k < len -> mem (w_st w) p (target + k) = m0 root (source + k);
  bc_acked : forall w p c k, complete = true -> rtc step (coll_job M m0 body) w -> p ∈ M -> returned w p ->
    c ∈ children p -> 0 <= k < len -> mem (w_st w) c (target + k) = m0 root (source + k);
  bc_reusable : forall w p m, rtc step (coll_job M m0 body) w -> p ∈ M -> returned w p ->
    m ∈ net (w_st w) -> m_src m = p -> pending (m_data m) = false;
  bc_restored : forall w p, rtc step (coll_job M m0 body) w -> p ∈ M -> returned w p -> mem (w_st w) p pSync = 0;
  bc_frame : forall w p a, rtc step (coll_job M m0 body) w ->
    (p ∉ M \/ a <> pSync /\ (p = root \/ ~ (target <= a < target + len))) -> mem (w_st w) p a = m0 p a;
  bc_clean : forall w m, rtc step (coll_job M m0 body) w -> all_returned w -> m ∈ net (w_st w) ->
    complete = false /\ m_src m = root /\ m_dst m = root /\ m_kind m = KPut /\ m_target m = pSync /\
    m_data m = Captured [(0, 0)] }.

Section bcast.
Context (M : list Z) (root : Z) (parent : Z -> Z) (children : Z -> list Z) (rank : Z -> Z).
Context (HT : Tree M root parent children rank) (HM : NoDup M).
Context (target source len pSync : Z) (complete early : bool).
Context (Hlen : 0 < len) (Htarget : ~ (target <= pSync < target + len)) (Hsource : ~ (source <= pSync < source + len)).
Abbreviation nc p := (length (children p)).
Context (Hroot : nc root <> 0%nat).
Context (Hbig : forall p, p ∈ M -> Z.of_nat (nc p) + 1 < 2 ^ 63).

Let sum := long_calc SHM_INTERNAL_SUM.

(** *** The slots of a member *)

Definition send_buf (p : Z) : Z := if decide (p = root) then source else target.
Definition put_op (p c : Z) : op := OPut c target (Pending (send_buf p) (upto 0 len)) false.
Definition flag_op (c : Z) : op := OPut c pSync (Captured [(0, 1)]) false.
Definition ack_op (p : Z) : op := OAtomic (parent p) pSync sum (Captured [(0, 1)]).
Definition acks_wait (p : Z) : op :=
  OWait pSync SHMEM_CMP_EQ (Z.of_nat (nc p) + (if decide (p = root) then 0 else 1)).
Definition clear_put (p : Z) : op := OPut p pSync (Captured [(0, 0)]) false.

Definition leads (p : Z) : bool := negb (nc p =? 0)%nat.
Definition follower (p : Z) : bool := negb (bool_decide (p = root)).
(** Only the root of the linear broadcast without acknowledgements leaves its pSync alone. *)
Definition clears (p : Z) : bool := follower p || early || complete.
(** 0 wait for the flag, 1 acknowledge early, 2+k put the data to child k, then wait for
    the puts, fence, flag the children, wait for their acknowledgements, clear the pSync,
    wait for that, acknowledge late. *)
Definition bcast_slots (p : Z) : list (option op) :=
  [slot (follower p) (OWait pSync SHMEM_CMP_NE 0); slot (follower p && complete && early) (ack_op p)] ++
  map (fun c => Some (put_op p c)) (children p) ++
  [slot (leads p) OPutWait; slot (leads p) OFence] ++
  map (fun c => Some (flag_op c)) (children p) ++
  [slot (complete && leads p) (acks_wait p); slot (clears p) (clear_put p);
   slot (clears p) (OWait pSync SHMEM_CMP_EQ 0); slot (follower p && complete && negb early) (ack_op p)].

Lemma length_slots p : length (bcast_slots p) = (8 + 2 * nc p)%nat.
Proof. unfold bcast_slots. rewrite !length_app, !length_map. simpl. lia. Qed.

(** What each position holds. *)
Inductive bview (p : Z) : nat -> option op -> Prop :=
| bv_wait : bview p 0 (slot (follower p) (OWait pSync SHMEM_CMP_NE 0))
| bv_early : bview p 1 (slot (follower p && complete && early) (ack_op p))
| bv_data k c : children p !! k = Some c -> bview p (2 + k) (Some (put_op p c))
| bv_putwait : bview p (2 + nc p) (slot (leads p) OPutWait)
| bv_fence : bview p (3 + nc p) (slot (leads p) OFence)
| bv_flag k c : children p !! k = Some c -> bview p (4 + nc p + k) (Some (flag_op c))
| bv_acks : bview p (4 + 2 * nc p) (slot (complete && leads p) (acks_wait p))
| bv_clear : bview p (5 + 2 * nc p) (slot (clears p) (clear_put p))
| bv_cleared : bview p (6 + 2 * nc p) (slot (clears p) (OWait pSync SHMEM_CMP_EQ 0))
| bv_late : bview p (7 + 2 * nc p) (slot (follower p && complete && negb early) (ack_op p)).

Lemma slots_view p v o : bcast_slots p !! v = Some o -> bview p v o.
Proof.
  unfold bcast_slots. intros H. destruct v as [|[|v]]; [injection H as <-; constructor..|].
  simpl in H. apply lookup_app_Some in H as [H|[Hl H]].
  { rewrite list_lookup_fmap in H. destruct (children p !! v) as [c|] eqn:E; [|done]. injection H as <-.
    by apply bv_data. }
  rewrite length_map in *. destruct (v - nc p)%nat as [|[|u]] eqn:Eu.
  { injection H as <-. replace (S (S v)) with (2 + nc p)%nat by lia. constructor. }
  { injection H as <-. replace (S (S v)) with (3 + nc p)%nat by lia. constructor. }
  simpl in H. apply lookup_app_Some in H as [H|[Hl' H]].
  { rewrite list_lookup_fmap in H. destruct (children p !! u) as [c|] eqn:E; [|done]. injection H as <-.
    replace (S (S v)) with (4 + nc p + u)%nat by lia. by apply bv_flag. }
  rewrite length_map in *. destruct (u - nc p)%nat as [|[|[|[|t]]]] eqn:Et; [injection H as <-..|done].
  - replace (S (S v)) with (4 + 2 * nc p)%nat by lia. constructor.
  - replace (S (S v)) with (5 + 2 * nc p)%nat by lia. constructor.
  - replace (S (S v)) with (6 + 2 * nc p)%nat by lia. constructor.
  - replace (S (S v)) with (7 + 2 * nc p)%nat by lia. constructor.
Qed.

(** *** Messages and counters *)

Inductive mclass := Dat | Flag | Ack | Clr.
#[local] Instance mclass_eq : EqDecision mclass.
Proof. solve_decision. Defined.

Definition msg_val (m : msg) : Z := match m_data m with Captured [(_, v)] => v | _ => 0 end.
Definition classify (m : msg) : mclass :=
  if m_target m =? target then Dat
  else match m_kind m with
       | KAtomic _ => Ack
       | KPut => if msg_val m =? 0 then Clr else Flag
       end.

Definition payload_vals (m0 : Z -> lmem) : list (Z * Z) := map (fun k => (k, m0 root (source + k))) (upto 0 len).

Definition bgood (m0 : Z -> lmem) (m : msg) : Prop :=
  m_dst m ∈ M /\
  match classify m with
  | Dat => m_dst m <> root /\ m_src m = parent (m_dst m) /\ m_epoch m = 0%nat /\ m_kind m = KPut /\ m_nbi m = false /\
           m_target m = target /\
           (m_data m = Pending (send_buf (m_src m)) (upto 0 len) \/ m_data m = Captured (payload_vals m0))
  | Flag => m_dst m <> root /\ m_src m = parent (m_dst m) /\ m_epoch m = 1%nat /\ m_kind m = KPut /\
            m_target m = pSync /\ m_data m = Captured [(0, 1)]
  | Ack => m_kind m = KAtomic sum /\ m_target m = pSync /\ m_data m = Captured [(0, 1)]
  | Clr => m_src m = m_dst m /\ m_kind m = KPut /\ m_target m = pSync /\ m_data m = Captured [(0, 0)]
  end.

(** The messages of a class on their way to [p]. *)
Definition msgs (k : mclass) (p : Z) (n : list msg) : nat :=
  countb (fun m => (m_dst m =? p) && bool_decide (classify m = k)) n.
Definition is_to (k : mclass) (p : Z) (m : msg) : nat := if decide (m_dst m = p /\ classify m = k) then 1 else 0.

Lemma msgs_send k p n m : msgs k p (n ++ [m]) = (msgs k p n + is_to k p m)%nat.
Proof.
  unfold msgs, is_to. rewrite countb_app. simpl. rewrite Nat.add_0_r. f_equal.
  destruct (Z.eqb_spec (m_dst m) p), (bool_decide_reflect (classify m = k)); simpl; case_decide; tauto.
Qed.

Lemma msgs_recv k p n1 m n2 : msgs k p (n1 ++ m :: n2) = (msgs k p (n1 ++ n2) + is_to k p m)%nat.
Proof.
  unfold msgs, is_to. rewrite !countb_app. simpl.
  destruct (Z.eqb_spec (m_dst m) p), (bool_decide_reflect (classify m = k)); simpl; case_decide; lia || tauto.
Qed.

Lemma msgs_other k p n m : ~ (m_dst m = p /\ classify m = k) -> msgs k p (n ++ [m]) = msgs k p n.
Proof. intros H. rewrite msgs_send. unfold is_to. rewrite decide_False by done. lia. Qed.

Lemma msgs_more k p n m : m_dst m = p -> classify m = k -> msgs k p (n ++ [m]) = S (msgs k p n).
Proof. intros Hd Hc. rewrite msgs_send. unfold is_to. rewrite decide_True by done. lia. Qed.

Lemma msgs_none k p n : (forall m, m ∈ n -> m_dst m = p -> classify m <> k) -> msgs k p n = 0%nat.
Proof.
  intros H. apply countb_zero. intros m Hm. apply andb_false_iff.
  destruct (Z.eqb_spec (m_dst m) p); [right|by left]. apply bool_decide_eq_false. by apply H.
Qed.

Lemma msgs_some k p n m : m ∈ n -> m_dst m = p -> classify m = k -> (0 < msgs k p n)%nat.
Proof.
  intros Hm Hd Hc. eapply countb_pos; [done|]. by rewrite (proj2 (Z.eqb_eq _ _) Hd), bool_decide_eq_true_2.
Qed.

(** The sends of the members up to their positions: data, flags and acknowledgements.
    [sent off lb c] counts the operations to [c] among those from position [off] on. *)
Definition sent (off : Z -> nat) (lb : Z -> nat) (c : Z) : nat :=
  countb (fun x => x =? c) (take (lb (parent c) - off (parent c)) (children (parent c))).
Definition data_off (p : Z) : nat := 2.
Definition flag_off (p : Z) : nat := 4 + nc p.
Definition ack_pos (c : Z) : nat := if early then 1%nat else (7 + 2 * nc c)%nat.
Definition acks (lb : Z -> nat) (p : Z) : nat :=
  countb (fun c => complete && (ack_pos c <? lb c)%nat) (children p).

Lemma sent_le off lb c : c ∈ M -> (sent off lb c <= 1)%nat.
Proof.
  intros Hc. apply countb_nodup_le.
  - eapply sublist_NoDup; [|apply sublist_take]. apply (tree_children_nodup (Tree:=HT)).
    by apply (tree_parent_member (Tree:=HT)).
  - intros x y ?%Z.eqb_eq ?%Z.eqb_eq. congruence.
Qed.

Lemma sent_root off lb : sent off lb root = 0%nat.
Proof.
  apply countb_zero. intros x Hx%elem_of_take. apply Z.eqb_neq. intros ->.
  destruct Hx as (i & Hx%list_elem_of_lookup_2 & _). rewrite (tree_root_parent (Tree:=HT)) in Hx.
  by destruct (tree_child_in HT _ _ (tree_root_member (Tree:=HT)) Hx) as (_ & ? & _).
Qed.

(** What has been sent, has been sent from a position past [off]. *)
Lemma sent_pos off lb c : (0 < sent off lb c)%nat -> (off (parent c) < lb (parent c))%nat.
Proof. unfold sent. destruct (lb (parent c) - off (parent c))%nat eqn:E; simpl; lia. Qed.

Lemma sent_all off lb c : c ∈ M -> c <> root -> (off (parent c) + nc (parent c) <= lb (parent c))%nat ->
  sent off lb c = 1%nat.
Proof.
  intros Hc Hne H. pose proof (sent_le off lb c Hc). enough (0 < sent off lb c)%nat by lia.
  unfold sent. rewrite take_ge by lia. eapply countb_pos; [by apply (tree_child_of HT)|by apply Z.eqb_eq].
Qed.

Lemma sent_step off lb p q : p ∈ M -> q ∈ M ->
  sent off (<[p := S (lb p)]> lb) q =
  (sent off lb q + if decide (off p <= lb p /\ children p !! (lb p - off p) = Some q)%nat then 1 else 0)%nat.
Proof.
  intros Hp Hq. unfold sent. destruct (decide (parent q = p)) as [E|E].
  - rewrite E, fn_lookup_insert. destruct (decide (off p <= lb p)%nat) as [Ho|Ho].
    + replace (S (lb p) - off p)%nat with (S (lb p - off p)) by lia.
      destruct (children p !! (lb p - off p)%nat) as [c|] eqn:Ec.
      * rewrite (take_S_r _ _ _ Ec), countb_app. simpl.
        destruct (Z.eqb_spec c q) as [->|Hn]; [by rewrite decide_True by done|].
        rewrite decide_False; [lia|]. by intros [_ [= ?]].
      * pose proof (proj1 (lookup_ge_None _ _) Ec). rewrite !take_ge by lia.
        case_decide as Hd; [by destruct Hd|lia].
    + replace (S (lb p) - off p)%nat with 0%nat by lia. replace (lb p - off p)%nat with 0%nat by lia.
      case_decide as Hd; [lia|simpl; lia].
  - rewrite fn_lookup_insert_ne by done. case_decide as Hd; [|lia].
    destruct Hd as [_ Hd%list_elem_of_lookup_2]. by destruct (tree_child_in HT p q Hp Hd) as (_ & _ & ?).
Qed.

Lemma sent_same off lb p q : p ∈ M -> q ∈ M -> (lb p < off p \/ off p + nc p <= lb p)%nat ->
  sent off (<[p := S (lb p)]> lb) q = sent off lb q.
Proof.
  intros Hp Hq Hr. rewrite sent_step by done. case_decide as Hd; [|lia].
  destruct Hd as [Ho Hd%lookup_lt_Some]. lia.
Qed.

(** A child is sent to once. *)
Lemma sent_once off lb p q k : p ∈ M -> children p !! k = Some q -> lb p = (off p + k)%nat ->
  sent off lb q = 0%nat.
Proof.
  intros Hp Hk Hv. destruct (tree_child_in HT p q Hp (list_elem_of_lookup_2 _ _ _ Hk)) as (Hq & _ & _).
  pose proof (sent_le off (<[p := S (lb p)]> lb) q Hq) as H. rewrite sent_step in H by done.
  rewrite decide_True in H; [lia|]. split; [lia|]. by replace (lb p - off p)%nat with k by lia.
Qed.

Lemma acks_le lb p : (acks lb p <= nc p)%nat.
Proof. apply countb_le. Qed.

Lemma acks_none lb p : complete = false -> acks lb p = 0%nat.
Proof. intros Hc. apply countb_zero. intros x _. by rewrite Hc. Qed.

Lemma acks_full lb p c : acks lb p = nc p -> c ∈ children p -> (ack_pos c < lb c)%nat.
Proof. intros Ha Hc. eapply countb_all in Ha; [|exact Hc]. by apply andb_true_iff in Ha as [_ Ha%Nat.ltb_lt]. Qed.

Lemma acks_pos lb p : (0 < acks lb p)%nat -> exists c, c ∈ children p /\ (ack_pos c < lb c)%nat.
Proof.
  intros H. destruct (decide (Exists (fun c => ack_pos c < lb c)%nat (children p))) as [HE|HE].
  - by apply list.Exists_exists in HE.
  - exfalso. assert (acks lb p = 0%nat); [|lia]. apply countb_zero. intros c Hc.
    apply andb_false_iff. right. apply Nat.ltb_ge. destruct (decide (ack_pos c < lb c)%nat); [|lia].
    exfalso. apply HE, list.Exists_exists. eauto.
Qed.

Lemma acks_step lb p q : p ∈ M -> q ∈ M ->
  acks (<[p := S (lb p)]> lb) q =
  (acks lb q + if decide (complete = true /\ p <> root /\ parent p = q /\ lb p = ack_pos p) then 1 else 0)%nat.
Proof.
  intros Hp Hq. unfold acks.
  assert (forall x, x <> p -> complete && (ack_pos x <? <[p := S (lb p)]> lb x)%nat =
    complete && (ack_pos x <? lb x)%nat) as Hx by (intros x Hx; by rewrite fn_lookup_insert_ne by done).
  case_decide as Hd.
  - destruct Hd as (Hc & Hne & <- & Hv). destruct (tree_child_of HT p Hp Hne) as [Hpp Hin].
    rewrite (countb_flip (fun c => complete && (ack_pos c <? lb c)%nat) _ _ p); [lia|..].
    + by apply (tree_children_nodup (Tree:=HT)).
    + done.
    + rewrite Hv, Nat.ltb_irrefl. apply andb_false_r.
    + rewrite fn_lookup_insert, Hc. simpl. apply Nat.ltb_lt. lia.
    + intros x _ Hxp. by apply Hx.
  - rewrite Nat.add_0_r. apply countb_ext. intros x Hxq. destruct (decide (x = p)) as [->|]; [|by apply Hx].
    destruct (tree_child_in HT q p Hq Hxq) as (_ & Hr & Hpq). rewrite fn_lookup_insert.
    destruct complete; [|done]. simpl. assert (lb p <> ack_pos p) by tauto.
    destruct (Nat.ltb_spec (ack_pos p) (S (lb p))), (Nat.ltb_spec (ack_pos p) (lb p)); lia || done.
Qed.

Lemma acks_same lb p q : p ∈ M -> q ∈ M -> (complete = true -> p <> root -> lb p <> ack_pos p) ->
  acks (<[p := S (lb p)]> lb) q = acks lb q.
Proof. intros Hp Hq Hn. rewrite acks_step by done. case_decide; [tauto|lia]. Qed.

(** An acknowledgement is sent once. *)
Lemma acks_once lb p : p ∈ M -> p <> root -> lb p = ack_pos p -> (acks lb (parent p) < nc (parent p))%nat.
Proof.
  intros Hp Hne Hv. pose proof (acks_le lb (parent p)). enough (acks lb (parent p) <> nc (parent p)) by lia.
  intros E. destruct (tree_child_of HT p Hp Hne) as [_ Hin]. pose proof (acks_full _ _ _ E Hin). lia.
Qed.

(** *** The invariant *)

(** What is known of one member: its position, its pSync, the flags, acknowledgements and
    clears in flight to it, the flags and acknowledgements sent to it. *)
Record blocal (p : Z) (v : nat) (x : Z) (fl ac cl F A : nat) : Prop := {
  b_len : (v <= 8 + 2 * nc p)%nat;
  b_sum : (v <= 5 + 2 * nc p)%nat -> x + Z.of_nat fl + Z.of_nat ac = Z.of_nat F + Z.of_nat A /\ cl = 0%nat /\ 0 <= x;
  b_passed : p <> root -> (0 < v)%nat -> fl = 0%nat /\ F = 1%nat;
  b_nonzero : p <> root -> (0 < v <= 5 + 2 * nc p)%nat -> 1 <= x;
  b_quiet : (5 + 2 * nc p <= v)%nat -> fl = 0%nat /\ ac = 0%nat /\ (complete = true -> A = nc p);
  b_clear : (v = 6 + 2 * nc p)%nat -> (cl <= 1)%nat /\ (x <> 0 -> cl = 1%nat) /\
    (cl = 1%nat -> x <> 0 \/ p = root /\ complete = false) /\ (clears p = false -> x = 0);
  b_end : (7 + 2 * nc p <= v)%nat -> x = 0 /\ (cl <= 1)%nat /\ (cl = 1%nat -> p = root /\ complete = false) }.

Definition got (m0 : Z -> lmem) (s : state) (p : Z) : Prop :=
  forall k, 0 <= k < len -> mem s p (target + k) = m0 root (source + k).
Definition fenced (lb : Z -> nat) (p : Z) : nat := if decide (nc p <> 0 /\ 3 + nc p < lb p)%nat then 1 else 0.

Record binv (m0 : Z -> lmem) (lb : Z -> nat) (s : state) : Prop := {
  v_msgs : forall m, m ∈ net s -> bgood m0 m;
  v_local : forall p, p ∈ M -> blocal p (lb p) (mem s p pSync) (msgs Flag p (net s)) (msgs Ack p (net s))
    (msgs Clr p (net s)) (sent flag_off lb p) (acks lb p);
  v_epoch : forall p, p ∈ M -> epoch s p = fenced lb p;
  v_dat : forall m, m ∈ net s -> classify m = Dat -> (2 < lb (m_src m))%nat;
  v_recv : forall p, p ∈ M -> p <> root -> sent flag_off lb p = 1%nat -> msgs Flag p (net s) = 0%nat ->
    got m0 s p /\ msgs Dat p (net s) = 0%nat;
  v_sent : forall p, p ∈ M -> p <> root -> sent data_off lb p = 1%nat -> got m0 s p \/ (0 < msgs Dat p (net s))%nat;
  v_cap : forall p m, p ∈ M -> nc p <> 0%nat -> (2 + nc p < lb p)%nat -> m ∈ net s -> m_src m = p ->
    pending (m_data m) = false;
  v_frame : forall p a, (p ∉ M \/ a <> pSync /\ (p = root \/ ~ (target <= a < target + len))) -> mem s p a = m0 p a }.

(** A member that is past its wait has the data. *)
Lemma passed_got m0 lb s p : binv m0 lb s -> p ∈ M -> p <> root -> (0 < lb p)%nat -> got m0 s p.
Proof.
  intros Hinv Hp Hne Hv. destruct (b_passed _ _ _ _ _ _ _ _ (v_local _ _ _ Hinv p Hp) Hne Hv).
  by apply (v_recv _ _ _ Hinv p).
Qed.

(** Nobody acknowledges before it is flagged. *)
Lemma acks_early m0 lb s p : binv m0 lb s -> p ∈ M -> (lb p <= flag_off p)%nat -> acks lb p = 0%nat.
Proof.
  intros Hinv Hp Hv. destruct (decide (acks lb p = 0%nat)) as [|Hn]; [done|].
  destruct (acks_pos lb p) as (c & Hc & Hlc); [lia|]. destruct (tree_child_in HT p c Hp Hc) as (Hcm & Hne & <-).
  destruct (b_passed _ _ _ _ _ _ _ _ (v_local _ _ _ Hinv c Hcm) Hne) as [_ HF]; [lia|].
  pose proof (sent_pos flag_off lb c ltac:(lia)). lia.
Qed.

Lemma msgs_app k p n1 n2 : msgs k p (n1 ++ n2) = (msgs k p n1 + msgs k p n2)%nat.
Proof. apply countb_app. Qed.

(** A step of [p] that sends [ms]. *)
Lemma binv_move m0 lb s p ms ep lg :
  binv m0 lb s -> p ∈ M ->
  let lb' := <[p := S (lb p)]> lb in
  (forall m, m ∈ ms -> bgood m0 m /\ m_src m = p /\ (classify m = Dat -> (2 <= lb p)%nat)) ->
  (forall q, q ∈ M -> blocal q (lb' q) (mem s q pSync) (msgs Flag q (net s ++ ms)) (msgs Ack q (net s ++ ms))
    (msgs Clr q (net s ++ ms)) (sent flag_off lb' q) (acks lb' q)) ->
  (forall q, q ∈ M -> ep q = fenced lb' q) ->
  (forall q, q ∈ M -> sent flag_off lb' q = 1%nat -> msgs Flag q (net s ++ ms) = 0%nat ->
    sent flag_off lb q = 1%nat /\ msgs Dat q ms = 0%nat) ->
  (forall q, q ∈ M -> sent data_off lb' q = 1%nat -> sent data_off lb q = 1%nat \/ (0 < msgs Dat q ms)%nat) ->
  (nc p <> 0%nat -> (2 + nc p <= lb p)%nat -> forall m, m ∈ net s ++ ms -> m_src m = p -> pending (m_data m) = false) ->
  binv m0 lb' (St (mem s) (net s ++ ms) ep lg).
Proof.
  intros [H1 H2 H3 H4 H5 H6 H7 H8] Hp lb' Hms Hloc Hep Hrecv Hsent Hcap.
  assert (forall q, (lb q <= lb' q)%nat) as Hle by (intros q; unfold lb'; update_cases; [subst; lia|done]).
  split; simpl; try done.
  - intros m [Hm|Hm]%elem_of_app; [auto|by apply Hms].
  - intros m [Hm|Hm]%elem_of_app Hc; [specialize (H4 m Hm Hc); specialize (Hle (m_src m)); lia|].
    destruct (Hms m Hm) as (_ & -> & Hl). specialize (Hl Hc). unfold lb'. rewrite fn_lookup_insert. lia.
  - intros q Hq Hne HF Hfl. destruct (Hrecv q Hq HF Hfl) as [HF0 Hd]. rewrite msgs_app in *.
    destruct (H5 q Hq Hne HF0) as [Hg Hd0]; [lia|]. split; [done|lia].
  - intros q Hq Hne HD. rewrite msgs_app. destruct (Hsent q Hq HD) as [H|H]; [|right; lia].
    destruct (H6 q Hq Hne H); [by left|right; lia].
  - intros q m Hq Hn Hl Hm Hsrc. destruct (decide (q = p)) as [->|Hqp].
    + unfold lb' in Hl. rewrite fn_lookup_insert in Hl. eapply Hcap; [done|lia|done|done].
    + unfold lb' in Hl. rewrite fn_lookup_insert_ne in Hl by done.
      apply elem_of_app in Hm as [Hm|Hm]; [by eapply H7|]. destruct (Hms m Hm) as (_ & ? & _). congruence.
Qed.

(** A step that sends nothing and leaves the state. *)
Lemma binv_quiet m0 lb s p :
  binv m0 lb s -> p ∈ M ->
  (lb p < 2 \/ 2 + nc p <= lb p)%nat -> (lb p < 4 + nc p \/ 4 + 2 * nc p <= lb p)%nat ->
  (complete = true -> p <> root -> lb p <> ack_pos p) -> (nc p <> 0 -> lb p <> 3 + nc p)%nat ->
  (nc p <> 0%nat -> lb p = (2 + nc p)%nat -> forall m, m ∈ net s -> m_src m = p -> pending (m_data m) = false) ->
  blocal p (S (lb p)) (mem s p pSync) (msgs Flag p (net s)) (msgs Ack p (net s)) (msgs Clr p (net s))
    (sent flag_off lb p) (acks lb p) ->
  binv m0 (<[p := S (lb p)]> lb) s.
Proof.
  intros Hinv Hp Hd Hf Ha Hfe Hca Hl.
  assert (forall q, q ∈ M -> sent flag_off (<[p := S (lb p)]> lb) q = sent flag_off lb q) as HF
    by (intros q Hq; apply sent_same; [done|done|unfold flag_off; lia]).
  assert (forall q, q ∈ M -> sent data_off (<[p := S (lb p)]> lb) q = sent data_off lb q) as HD
    by (intros q Hq; apply sent_same; [done|done|unfold data_off; lia]).
  assert (forall q, q ∈ M -> acks (<[p := S (lb p)]> lb) q = acks lb q) as HA
    by (intros q Hq; by apply acks_same).
  assert (s = St (mem s) (net s ++ []) (epoch s) (log s)) as -> by (rewrite app_nil_r; by destruct s).
  apply binv_move; [done|done| | | | | |].
  - by intros m ?%elem_of_nil.
  - intros q Hq. rewrite HF, HA, app_nil_r by done. destruct (decide (q = p)) as [->|Hne].
    + by rewrite fn_lookup_insert.
    + rewrite fn_lookup_insert_ne by done. by apply (v_local _ _ _ Hinv).
  - intros q Hq. rewrite (v_epoch _ _ _ Hinv q Hq). unfold fenced. update_cases; [subst q|done].
    repeat case_decide; lia.
  - intros q Hq. rewrite HF by done. by split.
  - intros q Hq. rewrite HD by done. by left.
  - intros Hn Hv m Hm Hsrc. rewrite app_nil_r in Hm.
    destruct (decide (lb p = 2 + nc p)%nat); [by apply Hca|]. apply (v_cap _ _ _ Hinv p m); done || lia.
Qed.

(** *** The sends *)

Lemma blocal_flag q v x fl ac cl A : q <> root -> blocal q v x fl ac cl 0 A -> blocal q v x (S fl) ac cl 1 A.
Proof. intros Hq []. split; intros; try lia; auto. Qed.

Lemma blocal_ack q v x fl ac cl F A : complete = true -> (A < nc q)%nat ->
  blocal q v x fl ac cl F A -> blocal q v x fl (S ac) cl F (S A).
Proof.
  intros Hc HA [H1 H2 H3 H4 H5 H6 H7].
  assert (v < 5 + 2 * nc q)%nat as Hv.
  { destruct (decide (v < 5 + 2 * nc q)%nat); [done|]. destruct H5 as (_ & _ & H5); [lia|]. specialize (H5 Hc). lia. }
  split; intros; try lia; auto.
Qed.

(** Passing a position before the wait for the acknowledgements. *)
Lemma blocal_next p v x fl ac cl F A : (0 < v \/ p = root)%nat -> (v < 4 + 2 * nc p)%nat ->
  blocal p v x fl ac cl F A -> blocal p (S v) x fl ac cl F A.
Proof. intros Hv Hlt [H1 H2 H3 H4 H5 H6 H7]. split; intros; try lia; auto; try (apply H3; [done|destruct Hv; [lia|done]]);
  try (apply H4; [done|destruct Hv; [lia|done]]). Qed.

Lemma target_ne : target <> pSync.
Proof. lia. Qed.

(** Putting the data to child [k]. *)
Lemma binv_data m0 lb s p k c :
  binv m0 lb s -> p ∈ M -> children p !! k = Some c -> lb p = (2 + k)%nat ->
  binv m0 (<[p := S (lb p)]> lb)
    (set_net s (net s ++ [Msg p c (epoch s p) KPut target false (Pending (send_buf p) (upto 0 len))])).
Proof.
  intros Hinv Hp Hk Hv. destruct (tree_child_in HT p c Hp (list_elem_of_lookup_2 _ _ _ Hk)) as (Hc & Hcr & Hcp).
  pose proof (lookup_lt_Some _ _ _ Hk) as Hlt. set (m := Msg _ _ _ _ _ _ _).
  assert (classify m = Dat) as Hm by (unfold classify; simpl; by rewrite Z.eqb_refl).
  assert (forall q, q ∈ M -> sent flag_off (<[p := S (lb p)]> lb) q = sent flag_off lb q) as HF
    by (intros q Hq; apply sent_same; [done|done|unfold flag_off; lia]).
  assert (forall q, q ∈ M -> acks (<[p := S (lb p)]> lb) q = acks lb q) as HA
    by (intros q Hq; apply acks_same; [done|done|unfold ack_pos; destruct early; lia]).
  assert (forall j q n, j <> Dat -> msgs j q (n ++ [m]) = msgs j q n) as Hcnt.
  { intros j q n Hj. apply msgs_other. intros [_ E]. congruence. }
  apply (binv_move _ _ _ _ [m]); [done|done| | | | | |].
  - intros m' ->%list_elem_of_singleton. split; [|split; [done|lia]]. unfold bgood. rewrite Hm. simpl.
    rewrite (v_epoch _ _ _ Hinv p Hp). unfold fenced. rewrite decide_False by lia.
    repeat (split; [done || congruence|]). by left.
  - intros q Hq. rewrite HF, HA, !Hcnt by done. destruct (decide (q = p)) as [->|Hne].
    + rewrite fn_lookup_insert. apply blocal_next; [lia|lia|]. by apply (v_local _ _ _ Hinv).
    + rewrite fn_lookup_insert_ne by done. by apply (v_local _ _ _ Hinv).
  - intros q Hq. rewrite (v_epoch _ _ _ Hinv q Hq). unfold fenced. update_cases; [subst q|done].
    repeat case_decide; lia.
  - intros q Hq. rewrite HF, Hcnt by done. intros HF1 HF0. split; [done|].
    destruct (decide (q = c)) as [->|Hne].
    + pose proof (sent_pos flag_off lb c ltac:(lia)). rewrite Hcp in *. unfold flag_off in *. lia.
    + change [m] with ([] ++ [m]). rewrite msgs_other; [done|]. intros [E _]. simpl in E. congruence.
  - intros q Hq. rewrite sent_step by done. case_decide as Hd; [|intros; left; lia]. intros _. right.
    destruct Hd as [_ Hd]. unfold data_off in Hd. rewrite Hv in Hd. replace (2 + k - 2)%nat with k in Hd by lia.
    eapply msgs_some; [apply list_elem_of_here| |done]. simpl. congruence.
  - lia.
Qed.

(** The fence. *)
Lemma binv_fence m0 lb s p :
  binv m0 lb s -> p ∈ M -> leads p = true -> lb p = (3 + nc p)%nat ->
  binv m0 (<[p := S (lb p)]> lb) (St (mem s) (net s) (<[p := S (epoch s p)]> (epoch s)) (log s)).
Proof.
  intros Hinv Hp Hld Hv. unfold leads in Hld. apply negb_true_iff, Nat.eqb_neq in Hld.
  assert (forall q, q ∈ M -> sent flag_off (<[p := S (lb p)]> lb) q = sent flag_off lb q) as HF
    by (intros q Hq; apply sent_same; [done|done|unfold flag_off; lia]).
  assert (forall q, q ∈ M -> acks (<[p := S (lb p)]> lb) q = acks lb q) as HA
    by (intros q Hq; apply acks_same; [done|done|unfold ack_pos; destruct early; lia]).
  rewrite <- (app_nil_r (net s)). apply binv_move; [done|done| | | | | |].
  - by intros m ?%elem_of_nil.
  - intros q Hq. rewrite HF, HA, app_nil_r by done. destruct (decide (q = p)) as [->|Hne].
    + rewrite fn_lookup_insert. apply blocal_next; [lia|lia|]. by apply (v_local _ _ _ Hinv).
    + rewrite fn_lookup_insert_ne by done. by apply (v_local _ _ _ Hinv).
  - intros q Hq. pose proof (v_epoch _ _ _ Hinv q Hq) as Hq'. unfold fenced in *.
    destruct (decide (q = p)) as [->|Hne].
    + rewrite !fn_lookup_insert, Hq'. rewrite decide_False, decide_True by lia. done.
    + by rewrite !fn_lookup_insert_ne.
  - intros q Hq. rewrite HF by done. by split.
  - intros q Hq. rewrite sent_same by (done || unfold data_off; lia). by left.
  - intros Hn _ m Hm Hsrc. rewrite app_nil_r in Hm. apply (v_cap _ _ _ Hinv p m); done || lia.
Qed.

(** A step that sends the update [m] of a pSync, under the counters it moves. *)
Lemma binv_sync m0 lb s p m :
  binv m0 lb s -> p ∈ M -> m_src m = p -> bgood m0 m -> classify m <> Dat -> pending (m_data m) = false ->
  (lb p < 2 \/ 2 + nc p <= lb p)%nat -> (nc p <> 0 -> lb p < 2 \/ 4 + nc p <= lb p)%nat ->
  (forall q, q ∈ M -> sent flag_off (<[p := S (lb p)]> lb) q = 1%nat -> msgs Flag q (net s ++ [m]) = 0%nat ->
    sent flag_off lb q = 1%nat) ->
  (forall q, q ∈ M -> blocal q (<[p := S (lb p)]> lb q) (mem s q pSync) (msgs Flag q (net s ++ [m]))
    (msgs Ack q (net s ++ [m])) (msgs Clr q (net s ++ [m]))
    (sent flag_off (<[p := S (lb p)]> lb) q) (acks (<[p := S (lb p)]> lb) q)) ->
  binv m0 (<[p := S (lb p)]> lb) (set_net s (net s ++ [m])).
Proof.
  intros Hinv Hp Hsrc Hg Hcl Hpd Hd Hf Hr Hl. apply (binv_move _ _ _ _ [m]); [done|done| |done| | | |].
  - intros m' ->%list_elem_of_singleton. split; [done|]. split; [done|]. done.
  - intros q Hq. rewrite (v_epoch _ _ _ Hinv q Hq). unfold fenced. update_cases; [subst q|done].
    repeat case_decide; lia.
  - intros q Hq H1 H0. split; [by apply Hr|]. change [m] with ([] ++ [m]). apply msgs_other. by intros [_ ?].
  - intros q Hq. rewrite sent_same by (done || unfold data_off; lia). by left.
  - intros Hn Hv m' [Hm|Hm]%elem_of_app Hsrc'.
    + apply (v_cap _ _ _ Hinv p m'); done || lia.
    + apply list_elem_of_singleton in Hm. by subst.
Qed.

Lemma binv_flag m0 lb s p k c :
  binv m0 lb s -> p ∈ M -> children p !! k = Some c -> lb p = (4 + nc p + k)%nat ->
  binv m0 (<[p := S (lb p)]> lb) (set_net s (net s ++ [Msg p c (epoch s p) KPut pSync false (Captured [(0, 1)])])).
Proof.
  intros Hinv Hp Hk Hv. destruct (tree_child_in HT p c Hp (list_elem_of_lookup_2 _ _ _ Hk)) as (Hc & Hcr & Hcp).
  pose proof (lookup_lt_Some _ _ _ Hk) as Hlt. pose proof target_ne as Hne. set (m := Msg _ _ _ _ _ _ _).
  assert (classify m = Flag) as Hm by (unfold classify; simpl; by rewrite (proj2 (Z.eqb_neq _ _))).
  assert (forall q, q ∈ M -> acks (<[p := S (lb p)]> lb) q = acks lb q) as HA
    by (intros q Hq; apply acks_same; [done|done|unfold ack_pos; destruct early; lia]).
  assert (sent flag_off lb c = 0%nat) as H0 by (apply (sent_once flag_off lb p c k); done).
  assert (sent flag_off (<[p := S (lb p)]> lb) c = 1%nat) as H1.
  { rewrite sent_step, decide_True; [lia| |done|done]. unfold flag_off. split; [lia|].
    by replace (lb p - (4 + nc p))%nat with k by lia. }
  assert (forall q, q ∈ M -> q <> c -> sent flag_off (<[p := S (lb p)]> lb) q = sent flag_off lb q) as HF.
  { intros q Hq Hqc. rewrite sent_step, decide_False; [lia| |done|done]. intros [_ E].
    unfold flag_off in E. replace (lb p - (4 + nc p))%nat with k in E by lia. congruence. }
  apply binv_sync; try done; try lia.
  - unfold bgood. rewrite Hm. simpl. rewrite (v_epoch _ _ _ Hinv p Hp). unfold fenced. rewrite decide_True by lia.
    repeat (split; [done || congruence|]). done.
  - congruence.
  - intros q Hq Hs Hn. destruct (decide (q = c)) as [->|]; [|by rewrite <- HF].
    rewrite msgs_more in Hn by done. lia.
  - intros q Hq. rewrite HA by done. rewrite !(msgs_other Ack), !(msgs_other Clr) by (rewrite Hm; by intros [_ ?]).
    destruct (decide (q = c)) as [->|Hqc].
    + rewrite H1, msgs_more by done. rewrite fn_lookup_insert_ne by (intros <-; by apply (tree_parent_ne HT p)).
      apply blocal_flag; [done|]. rewrite <- H0. by apply (v_local _ _ _ Hinv).
    + rewrite HF, msgs_other by (done || (simpl; intros [? _]; congruence)).
      destruct (decide (q = p)) as [->|Hqp].
      * rewrite fn_lookup_insert. apply blocal_next; [lia|lia|]. by apply (v_local _ _ _ Hinv).
      * rewrite fn_lookup_insert_ne by done. by apply (v_local _ _ _ Hinv).
Qed.

Lemma binv_ack m0 lb s p :
  binv m0 lb s -> p ∈ M -> p <> root -> complete = true -> lb p = ack_pos p ->
  binv m0 (<[p := S (lb p)]> lb)
    (set_net s (net s ++ [Msg p (parent p) (epoch s p) (KAtomic sum) pSync false (Captured [(0, 1)])])).
Proof.
  intros Hinv Hp Hpr Hcm Hv. destruct (tree_child_of HT p Hp Hpr) as [Hpp Hin]. pose proof target_ne as Hne.
  set (m := Msg _ _ _ _ _ _ _).
  assert (classify m = Ack) as Hm by (unfold classify; simpl; by rewrite (proj2 (Z.eqb_neq _ _))).
  assert (ack_pos p = 1 \/ ack_pos p = 7 + 2 * nc p)%nat as Hpos by (unfold ack_pos; destruct early; auto).
  assert (forall q, q ∈ M -> sent flag_off (<[p := S (lb p)]> lb) q = sent flag_off lb q) as HF
    by (intros q Hq; apply sent_same; [done|done|unfold flag_off; lia]).
  pose proof (acks_once lb p Hp Hpr Hv) as Hlt.
  assert (parent p <> p) as Hpne by (by apply (tree_parent_ne HT)).
  apply binv_sync; try done; try lia.
  - unfold bgood. rewrite Hm. done.
  - congruence.
  - intros q Hq. by rewrite HF.
  - intros q Hq. rewrite HF, acks_step by done.
    rewrite !(msgs_other Flag), !(msgs_other Clr) by (rewrite Hm; by intros [_ ?]).
    destruct (decide (q = parent p)) as [->|Hqp].
    + rewrite decide_True, msgs_more, Nat.add_1_r by done. rewrite fn_lookup_insert_ne by done.
      apply blocal_ack; [done|done|]. by apply (v_local _ _ _ Hinv).
    + rewrite decide_False by (intros (_ & _ & ? & _); congruence).
      rewrite msgs_other by (intros [? _]; simpl in *; congruence). rewrite Nat.add_0_r.
      destruct (decide (q = p)) as [->|Hq'].
      * rewrite fn_lookup_insert. pose proof (v_local _ _ _ Hinv p Hp) as Hl.
        destruct (decide (lb p = 1)%nat) as [E|E]; [apply blocal_next; [lia|lia|done]|].
        assert (lb p = 7 + 2 * nc p)%nat as E' by lia.
        destruct (b_passed _ _ _ _ _ _ _ _ Hl Hpr) as [Hf0 HF1]; [lia|].
        destruct (b_quiet _ _ _ _ _ _ _ _ Hl) as (_ & Ha0 & HA); [lia|].
        destruct (b_end _ _ _ _ _ _ _ _ Hl) as (Hx0 & Hc1 & Hc2); [lia|]. clear Hl.
        split; intros; try lia; auto.
      * rewrite fn_lookup_insert_ne by done. by apply (v_local _ _ _ Hinv).
Qed.

Lemma binv_clear m0 lb s p :
  binv m0 lb s -> p ∈ M -> clears p = true -> lb p = (5 + 2 * nc p)%nat ->
  binv m0 (<[p := S (lb p)]> lb) (set_net s (net s ++ [Msg p p (epoch s p) KPut pSync false (Captured [(0, 0)])])).
Proof.
  intros Hinv Hp Hcl Hv. pose proof target_ne as Hne. set (m := Msg _ _ _ _ _ _ _).
  assert (classify m = Clr) as Hm by (unfold classify; simpl; by rewrite (proj2 (Z.eqb_neq _ _))).
  assert (forall q, q ∈ M -> sent flag_off (<[p := S (lb p)]> lb) q = sent flag_off lb q) as HF
    by (intros q Hq; apply sent_same; [done|done|unfold flag_off; lia]).
  assert (forall q, q ∈ M -> acks (<[p := S (lb p)]> lb) q = acks lb q) as HA
    by (intros q Hq; apply acks_same; [done|done|unfold ack_pos; destruct early; lia]).
  apply binv_sync; try done; try lia.
  - unfold bgood. rewrite Hm. done.
  - congruence.
  - intros q Hq. by rewrite HF.
  - intros q Hq. rewrite HF, HA by done.
    rewrite !(msgs_other Flag), !(msgs_other Ack) by (rewrite Hm; by intros [_ ?]).
    destruct (decide (q = p)) as [->|Hqp].
    + rewrite fn_lookup_insert, msgs_more by done. pose proof (v_local _ _ _ Hinv p Hp) as Hl.
      destruct Hl. destruct b_sum0 as (Hs & Hc0 & Hx); [lia|]. destruct b_quiet0 as (Hf0 & Ha0 & HAf); [lia|].
      rewrite Hc0. split; intros; try lia; auto. split; [lia|]. split; [lia|]. split; [|congruence].
      intros _. destruct (decide (p = root)) as [->|Hpr].
      * destruct complete eqn:Ec; [|by right]. left. specialize (HAf eq_refl). lia.
      * left. pose proof (b_nonzero0 Hpr). lia.
    + rewrite msgs_other by (intros [? _]; simpl in *; congruence). rewrite fn_lookup_insert_ne by done.
      by apply (v_local _ _ _ Hinv).
Qed.

(** *** The network *)

Lemma payload_in m0 k x : (k, x) ∈ payload_vals m0 <-> 0 <= k < len /\ x = m0 root (source + k).
Proof.
  unfold payload_vals. rewrite list_elem_of_In, in_map_iff. split.
  - intros (k' & [= <- <-] & Hk%list_elem_of_In%elem_of_upto). done.
  - intros [Hk ->]. exists k. split; [done|]. by apply list_elem_of_In, elem_of_upto.
Qed.

Lemma binv_capture m0 lb s l1 m l2 src offs :
  binv m0 lb s -> net s = l1 ++ m :: l2 -> m_data m = Pending src offs ->
  binv m0 lb (set_net s (l1 ++ Msg (m_src m) (m_dst m) (m_epoch m) (m_kind m) (m_target m) (m_nbi m)
                  (Captured (map (fun o => (o, mem s (m_src m) (src + o))) offs)) :: l2)).
Proof.
  intros Hinv E Hd. assert (m ∈ net s) as Hin by (rewrite E, elem_of_app, elem_of_cons; auto).
  pose proof (v_msgs _ _ _ Hinv m Hin) as [Hdst Hg]. set (m' := Msg _ _ _ _ _ _ _).
  destruct (classify m) eqn:Hc; [|by exfalso; destruct_and!; congruence..].
  destruct Hg as (Hr & Hs & He & Hk & Hnb & Ht & Hdat).
  assert (classify m' = Dat) as Hc' by (unfold classify; simpl; by rewrite Ht, Z.eqb_refl).
  destruct (tree_child_of HT _ Hdst Hr) as [Hp Hch]. rewrite <- Hs in Hp.
  assert (m_data m' = Captured (payload_vals m0)) as Hd'.
  { destruct Hdat as [Hdat|Hdat]; rewrite Hd in Hdat; [|done]. injection Hdat as -> ->. simpl. f_equal.
    apply map_ext_in. intros k Hk'%list_elem_of_In%elem_of_upto. f_equal. unfold send_buf. case_decide as Hsr.
    - rewrite Hsr. apply (v_frame _ _ _ Hinv). right. split; [lia|by left].
    - apply (passed_got m0 lb s _ Hinv Hp Hsr); [|done]. pose proof (v_dat _ _ _ Hinv m Hin Hc). lia. }
  assert (forall k q, msgs k q (l1 ++ m' :: l2) = msgs k q (net s)) as Hmsgs.
  { intros k q. rewrite E, !msgs_recv. unfold is_to. by rewrite Hc, Hc'. }
  assert (forall y, y ∈ l1 ++ m' :: l2 -> y = m' \/ y ∈ net s) as Hnet
    by (intros y; rewrite E, !elem_of_app, !elem_of_cons; tauto).
  destruct Hinv as [H1 H2 H3 H4 H5 H6 H7 H8]. split; simpl; try done; try setoid_rewrite Hmsgs; try done.
  - intros y [->|Hy]%Hnet; [|auto]. split; [done|]. rewrite Hc'. simpl.
    repeat (split; [done|]). right. exact Hd'.
  - intros y [->|Hy]%Hnet Hcy; [by apply (H4 m)|auto].
  - intros q y Hq Hn Hl [->|Hy]%Hnet Hsrc; [by rewrite Hd'|by eapply H7].
Qed.

Lemma apply_payload m0 mm k : 0 <= k < len ->
  apply_vals KPut target (payload_vals m0) mm (target + k) = m0 root (source + k).
Proof.
  intros Hk. destruct (apply_puts target (payload_vals m0) mm (target + k)) as [([k' x] & Hx & Ek & Ev)|[Hn _]].
  - apply payload_in in Hx as [_ ->]. simpl in Ek, Ev. rewrite Ev. by replace k with k' by lia.
  - exfalso. apply (Hn (k, m0 root (source + k))); [by apply payload_in|done].
Qed.

Lemma apply_payload_ne m0 mm a : ~ (target <= a < target + len) ->
  apply_vals KPut target (payload_vals m0) mm a = mm a.
Proof.
  intros Ha. destruct (apply_puts target (payload_vals m0) mm a) as [([k' x] & Hx & Ek & Ev)|[_ ?]]; [|done].
  apply payload_in in Hx as [? _]. simpl in Ek. lia.
Qed.

(** The data arrive at a member. *)
Lemma binv_deliver_data m0 lb s l1 m l2 vals :
  binv m0 lb s -> net s = l1 ++ m :: l2 -> m_data m = Captured vals -> classify m = Dat ->
  binv m0 lb (set_net (set_mem s (m_dst m)
    (apply_vals (m_kind m) (m_target m) vals (mem s (m_dst m)))) (l1 ++ l2)).
Proof.
  intros Hinv E Hd Hc. assert (m ∈ net s) as Hin by (rewrite E, elem_of_app, elem_of_cons; auto).
  pose proof (v_msgs _ _ _ Hinv m Hin) as [Hdst Hg]. rewrite Hc in Hg.
  destruct Hg as (Hr & Hs & He & Hk & Hnb & Ht & Hdat).
  destruct Hdat as [Hdat|Hdat]; rewrite Hd in Hdat; [done|]. injection Hdat as ->. rewrite Hk, Ht.
  set (s' := set_net _ _).
  assert (forall q, mem s' q pSync = mem s q pSync) as Hps.
  { intros q. simpl. update_cases; [subst; by apply apply_payload_ne|done]. }
  assert (got m0 s' (m_dst m)) as Hgot by (intros k Hk'; simpl; rewrite fn_lookup_insert; by apply apply_payload).
  assert (forall q, got m0 s q -> got m0 s' q) as Hmono.
  { intros q Hq. destruct (decide (q = m_dst m)) as [->|Hne]; [done|].
    intros k Hk'. simpl. rewrite fn_lookup_insert_ne by done. by apply Hq. }
  assert (forall j q, j <> Dat -> msgs j q (l1 ++ l2) = msgs j q (net s)) as Hj.
  { intros j q Hj. rewrite E, msgs_recv. unfold is_to. rewrite decide_False; [lia|]. intros [_ ?]. congruence. }
  assert (forall q, q <> m_dst m -> msgs Dat q (l1 ++ l2) = msgs Dat q (net s)) as Hjd.
  { intros q Hq. rewrite E, msgs_recv. unfold is_to. rewrite decide_False; [lia|]. intros [? _]. congruence. }
  assert (forall y, y ∈ l1 ++ l2 -> y ∈ net s) as Hnet
    by (intros y; rewrite E, !elem_of_app, !elem_of_cons; tauto).
  destruct Hinv as [H1 H2 H3 H4 H5 H6 H7 H8]. split; try by auto.
  - intros p Hp. rewrite Hps. cbn [net s' set_net]. rewrite !Hj by done. auto.
  - intros p Hp Hpr HF Hfl. cbn [net s' set_net] in *. rewrite Hj in Hfl by done.
    destruct (H5 p Hp Hpr HF Hfl) as [Hgp Hz]. split; [auto|]. rewrite E, msgs_recv in Hz. lia.
  - intros p Hp Hpr HD. cbn [net s' set_net]. destruct (decide (p = m_dst m)) as [->|Hne]; [by left|].
    rewrite Hjd by done. destruct (H6 p Hp Hpr HD); auto.
  - intros p m' Hp Hn Hl Hm' Hsrc. by eapply H7; eauto.
  - intros p a Ha. simpl. update_cases; [subst p|by apply H8]. rewrite apply_payload_ne; [by apply H8|].
    destruct Ha as [?|[_ [?|?]]]; done.
Qed.

(** An update of the pSync of a member arrives; [x'] is its new value. *)
Lemma binv_deliver_sync m0 lb s l1 m l2 x' :
  binv m0 lb s -> net s = l1 ++ m :: l2 -> classify m <> Dat -> m_dst m ∈ M ->
  blocal (m_dst m) (lb (m_dst m)) x' (msgs Flag (m_dst m) (l1 ++ l2)) (msgs Ack (m_dst m) (l1 ++ l2))
    (msgs Clr (m_dst m) (l1 ++ l2)) (sent flag_off lb (m_dst m)) (acks lb (m_dst m)) ->
  (classify m = Flag -> got m0 s (m_dst m) /\ msgs Dat (m_dst m) (net s) = 0%nat) ->
  binv m0 lb (set_net (set_mem s (m_dst m) (<[pSync := x']> (mem s (m_dst m)))) (l1 ++ l2)).
Proof.
  intros Hinv E Hc Hdst Hl Hflag. set (s' := set_net _ _).
  assert (forall q, got m0 s q -> got m0 s' q) as Hmono.
  { intros q Hq k Hk. simpl. update_cases; [|by apply Hq]. subst q.
    rewrite fn_lookup_insert_ne; [by apply Hq|]. intros ?. lia. }
  assert (forall q, msgs Dat q (l1 ++ l2) = msgs Dat q (net s)) as HD.
  { intros q. rewrite E, msgs_recv. unfold is_to. rewrite decide_False; [lia|]. intros [_ ?]. congruence. }
  assert (forall j q, q <> m_dst m \/ j <> classify m -> msgs j q (l1 ++ l2) = msgs j q (net s)) as Hj.
  { intros j q Hq. rewrite E, msgs_recv. unfold is_to. rewrite decide_False; [lia|].
    intros [? ?]. destruct Hq; congruence. }
  assert (forall y, y ∈ l1 ++ l2 -> y ∈ net s) as Hnet
    by (intros y; rewrite E, !elem_of_app, !elem_of_cons; tauto).
  destruct Hinv as [H1 H2 H3 H4 H5 H6 H7 H8]. split; try by auto.
  - intros p Hp. cbn [net s' set_net]. destruct (decide (p = m_dst m)) as [->|Hne].
    + simpl. by rewrite !fn_lookup_insert.
    + simpl. rewrite fn_lookup_insert_ne by done. rewrite !Hj by (by left). auto.
  - intros p Hp Hpr HF Hfl. cbn [net s' set_net] in *. rewrite HD.
    destruct (decide (p = m_dst m /\ classify m = Flag)) as [[-> Hf]|Hne].
    + destruct (Hflag Hf). auto.
    + rewrite Hj in Hfl by (destruct (decide (p = m_dst m)); [right|left]; [intros ?; apply Hne; done|done]).
      destruct (H5 p Hp Hpr HF Hfl). auto.
  - intros p Hp Hpr Hs. cbn [net s' set_net]. rewrite HD. destruct (H6 p Hp Hpr Hs); auto.
  - intros p m' Hp Hn Hlt Hm' Hsrc. by eapply H7; eauto.
  - intros p a Ha. simpl. update_cases; [subst p|by apply H8]. destruct Ha as [?|[Hne Ha]]; [done|].
    rewrite fn_lookup_insert_ne by done. apply H8. by right.
Qed.

(** No flag overtakes the data sent before it. *)
Lemma flag_data m0 lb s l1 m l2 :
  binv m0 lb s -> net s = l1 ++ m :: l2 -> classify m = Flag -> fence_ready m (l1 ++ l2) = true ->
  sent flag_off lb (m_dst m) = 1%nat -> got m0 s (m_dst m) /\ msgs Dat (m_dst m) (net s) = 0%nat.
Proof.
  intros Hinv E Hc Hf HF. assert (m ∈ net s) as Hin by (rewrite E, elem_of_app, elem_of_cons; auto).
  pose proof (v_msgs _ _ _ Hinv m Hin) as [Hdst Hg]. rewrite Hc in Hg. destruct Hg as (Hr & Hs & He & _).
  assert (msgs Dat (m_dst m) (net s) = 0%nat) as Hz.
  { rewrite E, msgs_recv. unfold is_to. rewrite decide_False by (intros [_ ?]; congruence). rewrite Nat.add_0_r.
    apply msgs_none. intros y Hy Hyd Hyc. assert (y ∈ net s) as Hyn.
    { rewrite E. apply elem_of_app in Hy. rewrite elem_of_app, elem_of_cons. tauto. }
    pose proof (v_msgs _ _ _ Hinv y Hyn) as [_ Hgy]. rewrite Hyc in Hgy. destruct Hgy as (_ & Hys & Hye & _).
    unfold fence_ready in Hf. rewrite forallb_forall in Hf. specialize (Hf y (proj1 (list_elem_of_In _ _) Hy)).
    rewrite Hys, Hs, Hyd, Hye, He, !Z.eqb_refl in Hf. done. }
  split; [|done]. destruct (tree_child_of HT _ Hdst Hr) as [Hp _].
  pose proof (sent_pos flag_off lb (m_dst m) ltac:(lia)) as Hpos. unfold flag_off in Hpos.
  destruct (v_sent _ _ _ Hinv _ Hdst Hr) as [|Hpos']; [|done|lia].
  apply sent_all; [done|done|]. unfold data_off. lia.
Qed.

Lemma binv_net m0 lb s s' : binv m0 lb s -> net_step s s' -> binv m0 lb s'.
Proof.
  intros Hinv Hn. destruct Hn as [s l1 m l2 src offs E Hd|s l1 m l2 vals E Hd Hf]; [by eapply binv_capture|].
  assert (m ∈ net s) as Hin by (rewrite E, elem_of_app, elem_of_cons; auto).
  pose proof (v_msgs _ _ _ Hinv m Hin) as [Hdst Hg].
  pose proof (v_local _ _ _ Hinv _ Hdst) as Hl. rewrite E, !msgs_recv in Hl. unfold is_to in Hl.
  destruct (classify m) eqn:Hc; [by eapply binv_deliver_data|..].
  - (* a flag *) destruct Hg as (Hr & _ & _ & Hk & Ht & Hdat). rewrite Hd in Hdat. injection Hdat as ->.
    rewrite Hk, Ht. cbn [apply_vals fold_left combine_kind]. rewrite Z.add_0_r. rewrite decide_True, !decide_False in Hl by (done || by intros [_ ?]). rewrite !Nat.add_0_r in Hl.
    assert (lb (m_dst m) = 0%nat) as Hv.
    { destruct (decide (lb (m_dst m) = 0%nat)) as [|Hv]; [done|].
      destruct (b_passed _ _ _ _ _ _ _ _ Hl Hr); lia. }
    pose proof (acks_early m0 lb s _ Hinv Hdst ltac:(unfold flag_off; lia)) as HA.
    pose proof (sent_le flag_off lb _ Hdst) as HF. destruct (b_sum _ _ _ _ _ _ _ _ Hl) as (Hs & Hcl & Hx); [lia|].
    apply (binv_deliver_sync _ _ _ _ _ _ _ Hinv E); [congruence|done| |].
    + rewrite Hv, HA in *. split; intros; lia || done.
    + intros _. eapply flag_data; [done|done|done|done|lia].
  - (* an acknowledgement *) destruct Hg as (Hk & Ht & Hdat). rewrite Hd in Hdat. injection Hdat as ->.
    rewrite Hk, Ht. cbn [apply_vals fold_left combine_kind]. rewrite Z.add_0_r.
    rewrite decide_False, decide_True, decide_False in Hl by (done || by intros [_ ?]). rewrite !Nat.add_0_r in Hl.
    assert (lb (m_dst m) < 5 + 2 * nc (m_dst m))%nat as Hv.
    { destruct (decide (lb (m_dst m) < 5 + 2 * nc (m_dst m))%nat) as [|Hv]; [done|].
      destruct (b_quiet _ _ _ _ _ _ _ _ Hl); lia. }
    pose proof (sent_le flag_off lb _ Hdst) as HF. pose proof (acks_le lb (m_dst m)) as HA.
    pose proof (Hbig _ Hdst). destruct (b_sum _ _ _ _ _ _ _ _ Hl) as (Hs & Hcl & Hx); [lia|].
    unfold sum, long_calc. rewrite signed_sum by lia.
    apply (binv_deliver_sync _ _ _ _ _ _ _ Hinv E); [congruence|done| |congruence].
    destruct Hl. split; intros; try lia; auto.
  - (* a clear *) destruct Hg as (_ & Hk & Ht & Hdat). rewrite Hd in Hdat. injection Hdat as ->.
    rewrite Hk, Ht. cbn [apply_vals fold_left combine_kind]. rewrite Z.add_0_r.
    rewrite decide_False, decide_False, decide_True in Hl by (done || by intros [_ ?]). rewrite !Nat.add_0_r in Hl.
    assert (6 + 2 * nc (m_dst m) <= lb (m_dst m))%nat as Hv.
    { destruct (decide (6 + 2 * nc (m_dst m) <= lb (m_dst m))%nat) as [|Hv]; [done|].
      destruct (b_sum _ _ _ _ _ _ _ _ Hl); lia. }
    apply (binv_deliver_sync _ _ _ _ _ _ _ Hinv E); [congruence|done| |congruence].
    destruct Hl. split; intros; try lia; auto.
Qed.

(** *** One slot at a time *)

(** Close a clause of [blocal] with the same clause at the position before. *)
Ltac use_local := match goal with H : (_ -> ?G) |- ?G => apply H; lia end.

Lemma follower_iff p : follower p = true <-> p <> root.
Proof. unfold follower. rewrite negb_true_iff, bool_decide_eq_false. done. Qed.
Lemma leads_iff p : leads p = true <-> nc p <> 0%nat.
Proof. unfold leads. rewrite negb_true_iff, Nat.eqb_neq. done. Qed.

(** Facts about a member that do not depend on its position. *)
Lemma acks_zero lb p : (complete && leads p) = false -> acks lb p = 0%nat.
Proof.
  intros H. apply andb_false_iff in H as [H|H]; [by apply acks_none|].
  pose proof (acks_le lb p). assert (nc p = 0%nat); [|lia].
  destruct (decide (nc p = 0%nat)) as [|Hn]; [done|]. apply leads_iff in Hn. congruence.
Qed.

Lemma acks_positions c : (ack_pos c = 1 /\ early = true \/ ack_pos c = 7 + 2 * nc c /\ early = false)%nat.
Proof. unfold ack_pos. destruct early; auto. Qed.

Lemma sent_flag_le lb p : p ∈ M -> (sent flag_off lb p <= 1)%nat /\ (p = root -> sent flag_off lb p = 0%nat).
Proof. intros Hp. split; [by apply sent_le|]. intros ->. apply sent_root. Qed.

(** After the wait for the acknowledgements, or without one, everything has arrived. *)
Lemma blocal_acks m0 lb s p : binv m0 lb s -> p ∈ M -> lb p = (4 + 2 * nc p)%nat ->
  (if complete && leads p then mem s p pSync = Z.of_nat (nc p) + (if decide (p = root) then 0 else 1) else True) ->
  blocal p (S (lb p)) (mem s p pSync) (msgs Flag p (net s)) (msgs Ack p (net s)) (msgs Clr p (net s))
    (sent flag_off lb p) (acks lb p).
Proof.
  intros Hinv Hp Hv Hw. pose proof (v_local _ _ _ Hinv p Hp) as Hl.
  destruct (sent_flag_le lb p Hp) as [HF HFr]. pose proof (acks_le lb p) as HA.
  pose proof (acks_zero lb p) as Hz. destruct Hl.
  destruct b_sum0 as (Hs & Hc & Hx); [lia|].
  assert (p <> root -> msgs Flag p (net s) = 0%nat /\ sent flag_off lb p = 1%nat /\ 1 <= mem s p pSync) as Hnr
    by (intros Hr; destruct b_passed0; [done|lia|]; specialize (b_nonzero0 Hr); lia).
  destruct (decide (p = root)) as [Hr|Hr].
  - specialize (HFr Hr). destruct (complete && leads p) eqn:E.
    + split; intros; try lia; auto; done.
    + specialize (Hz eq_refl). split; intros; try lia; auto; try done.
      split; [lia|]. split; [lia|]. intros Hc'. rewrite Hc' in E. simpl in E.
      destruct (decide (nc p = 0%nat)) as [|Hn%leads_iff]; [lia|congruence].
  - destruct (Hnr Hr) as (Hf0 & HF1 & Hx1). destruct (complete && leads p) eqn:E.
    + split; intros; try lia; auto.
    + specialize (Hz eq_refl). split; intros; try lia; auto.
      split; [lia|]. split; [lia|]. intros Hc'. rewrite Hc' in E. simpl in E.
      destruct (decide (nc p = 0%nat)) as [|Hn%leads_iff]; [lia|congruence].
Qed.

(** Passing an empty slot. *)
Lemma binv_empty m0 lb s p : binv m0 lb s -> p ∈ M -> bcast_slots p !! lb p = Some None ->
  binv m0 (<[p := S (lb p)]> lb) s.
Proof.
  intros Hinv Hp Ho. apply slots_view in Ho. pose proof (v_local _ _ _ Hinv p Hp) as Hl.
  destruct (sent_flag_le lb p Hp) as [HF HFr]. pose proof (acks_positions p) as Hap.
  remember (lb p) as v eqn:Hv in Ho. remember None as o eqn:Hn in Ho.
  destruct Ho; symmetry in Hv; try done; apply slot_none in Hn.
  - (* the root does not wait *)
    assert (p = root) as Hr by (destruct (decide (p = root)) as [|Hr%follower_iff]; [done|congruence]).
    apply binv_quiet; try done; try lia. apply blocal_next; [by right|lia|done].
  - (* no early acknowledgement *)
    apply binv_quiet; try done; try lia; [|apply blocal_next; [lia|lia|done]].
    intros Hc Hr%follower_iff. rewrite Hc, Hr in Hn. simpl in Hn. destruct Hap as [[_ He]|[Hap _]]; [congruence|lia].
  - assert (nc p = 0%nat) by (destruct (decide (nc p = 0%nat)) as [|Hl'%leads_iff]; [done|congruence]).
    apply binv_quiet; try done; try lia. apply blocal_next; [lia|lia|done].
  - assert (nc p = 0%nat) by (destruct (decide (nc p = 0%nat)) as [|Hl'%leads_iff]; [done|congruence]).
    apply binv_quiet; try done; try lia. apply blocal_next; [lia|lia|done].
  - (* no acknowledgements to wait for *)
    apply binv_quiet; try done; try lia. apply (blocal_acks m0 lb s p Hinv Hp Hv). by rewrite Hn.
  - (* the root that does not clear *)
    unfold clears in Hn. apply orb_false_iff in Hn as [[Hfo He]%orb_false_iff Hc].
    assert (p = root) as Hr by (destruct (decide (p = root)) as [|Hr%follower_iff]; [done|congruence]).
    specialize (HFr Hr). pose proof (acks_none lb p Hc) as HA.
    apply binv_quiet; try done; try lia. destruct Hl. destruct b_sum0 as (Hs & Hc0 & Hx); [lia|].
    destruct b_quiet0 as (Hq1 & Hq2 & Hq3); [lia|]. split; intros; try lia; try done; auto.
  - unfold clears in Hn. apply orb_false_iff in Hn as [[Hfo He]%orb_false_iff Hc].
    assert (p = root) as Hr by (destruct (decide (p = root)) as [|Hr%follower_iff]; [done|congruence]).
    apply binv_quiet; try done; try lia. destruct Hl.
    destruct b_clear0 as (Hc1 & _ & Hc3 & Hc4); [done|].
    assert (clears p = false) as Hcp by (unfold clears; by rewrite Hfo, He, Hc).
    specialize (Hc4 Hcp). split; intros; try lia; try done; auto; use_local.
  - (* no late acknowledgement *)
    apply binv_quiet; try done; try lia.
    + intros Hc Hr%follower_iff. rewrite Hc, Hr in Hn. simpl in Hn. destruct Hap as [[Hap _]|[_ He]]; [lia|].
      rewrite He in Hn. done.
    + destruct Hl. split; intros; try lia; auto; use_local.
Qed.

(** Performing the operation of a slot. *)
Lemma binv_op m0 lb s p o x s' : binv m0 lb s -> p ∈ M -> bcast_slots p !! lb p = Some (Some o) ->
  op_exec p o s = Some (x, s') -> binv m0 (<[p := S (lb p)]> lb) s'.
Proof.
  intros Hinv Hp Ho Hex. apply slots_view in Ho. pose proof (v_local _ _ _ Hinv p Hp) as Hl.
  destruct (sent_flag_le lb p Hp) as [HF HFr]. pose proof (acks_positions p) as Hap.
  remember (lb p) as v eqn:Hv in Ho. remember (Some o) as oo eqn:Hn in Ho.
  destruct Ho as [| |k c Hk| | |k c Hk| | | |]; symmetry in Hv; try (apply slot_some in Hn as [Hn ->]); try (injection Hn as <-).
  - (* flagged *)
    apply follower_iff in Hn. simpl in Hex. case_match eqn:Hx; [|done]. injection Hex as _ <-.
    apply negb_true_iff, Z.eqb_neq in Hx. pose proof (acks_early m0 lb s p Hinv Hp ltac:(unfold flag_off; lia)) as HA.
    apply binv_quiet; try done; try lia. destruct Hl. destruct b_sum0 as (Hs & Hc & Hx0); [lia|].
    split; intros; lia || done.
  - (* acknowledge early *)
    apply andb_true_iff in Hn as [[Hr%follower_iff Hc]%andb_true_iff He]. injection Hex as _ <-.
    apply binv_ack; try done. destruct Hap as [[Hap _]|[_ He']]; [congruence|congruence].
  - injection Hex as _ <-. by eapply binv_data.
  - (* the puts have read their sources *)
    apply leads_iff in Hn. simpl in Hex. case_match eqn:Hq; [|done]. injection Hex as _ <-.
    apply binv_quiet; try done; try lia; [|apply blocal_next; [lia|lia|done]].
    intros _ _ m Hm Hsrc. rewrite forallb_forall in Hq. specialize (Hq m (proj1 (list_elem_of_In _ _) Hm)).
    rewrite Hsrc, Z.eqb_refl in Hq. destruct (pending (m_data m)) eqn:Hpd; [|done].
    destruct (v_msgs _ _ _ Hinv m Hm) as [_ Hg].
    destruct (classify m); [destruct Hg as (_ & _ & _ & _ & Hnb & _); by rewrite Hnb in Hq|
      destruct Hg as (_ & _ & _ & _ & _ & Hd)|destruct Hg as (_ & _ & Hd)|destruct Hg as (_ & _ & _ & Hd)];
      by rewrite Hd in Hpd.
  - injection Hex as _ <-. by apply binv_fence.
  - injection Hex as _ <-. by eapply binv_flag.
  - (* everybody has acknowledged *)
    simpl in Hex. case_match eqn:Hx; [|done]. injection Hex as _ <-. apply Z.eqb_eq in Hx.
    apply binv_quiet; try done; try lia. apply (blocal_acks m0 lb s p Hinv Hp Hv). by rewrite Hn.
  - injection Hex as _ <-. by apply binv_clear.
  - (* cleared *)
    simpl in Hex. case_match eqn:Hx; [|done]. injection Hex as _ <-. apply Z.eqb_eq in Hx.
    apply binv_quiet; try done; try lia. destruct Hl. destruct b_clear0 as (Hc1 & Hc2 & Hc3 & _); [done|].
    split; intros; try lia; auto; try use_local. split; [done|]. split; [done|]. intros Hc.
    destruct (Hc3 Hc); done.
  - apply andb_true_iff in Hn as [[Hr%follower_iff Hc]%andb_true_iff He]. injection Hex as _ <-.
    apply binv_ack; try done. destruct Hap as [[_ He']|[Hap _]]; [rewrite He' in He; done|congruence].
Qed.

(** *** Progress *)

(** With an idle network a member is blocked only before its flag or its acknowledgements. *)
Definition unflagged (lb : Z -> nat) (s : state) (p : Z) : Prop := lb p = 0%nat /\ p <> root /\ mem s p pSync = 0.
Definition unacked (lb : Z -> nat) (s : state) (p : Z) : Prop :=
  lb p = (4 + 2 * nc p)%nat /\ mem s p pSync <> Z.of_nat (nc p) + (if decide (p = root) then 0 else 1).

Lemma bcast_runs m0 lb s p : binv m0 lb s -> settled M bcast_slots lb -> net s = [] -> p ∈ M ->
  (lb p < 8 + 2 * nc p)%nat -> ~ unflagged lb s p -> ~ unacked lb s p ->
  exists p o r, p ∈ M /\ bcast_slots p !! lb p = Some (Some o) /\ op_exec p o s = Some r.
Proof.
  intros Hinv Hset Hnet Hp Hlt Hf Ha. destruct (Hset p Hp) as [[o Ho]|Hge]; [|rewrite length_slots in Hge; lia].
  exists p, o. enough (exists r, op_exec p o s = Some r) as [r Hr] by eauto.
  pose proof (v_local _ _ _ Hinv p Hp) as Hl. rewrite Hnet in Hl.
  apply slots_view in Ho. remember (lb p) as v eqn:Hv in Ho. remember (Some o) as oo eqn:Hn in Ho.
  destruct Ho as [| |k c Hk| | |k c Hk| | | |]; symmetry in Hv; try (apply slot_some in Hn as [Hn ->]);
    try (injection Hn as <-); simpl; eauto.
  - apply follower_iff in Hn. destruct (Z.eqb_spec (mem s p pSync) 0) as [E|]; [|simpl; eauto].
    exfalso. by apply Hf.
  - rewrite Hnet. simpl. eauto.
  - destruct (Z.eqb_spec (mem s p pSync) (Z.of_nat (nc p) + (if decide (p = root) then 0 else 1))); [eauto|].
    exfalso. by apply Ha.
  - destruct (b_clear _ _ _ _ _ _ _ _ Hl) as (_ & Hc & _); [done|].
    destruct (Z.eqb_spec (mem s p pSync) 0) as [|E]; [eauto|]. by specialize (Hc E).
Qed.

Lemma bcast_progress m0 lb s : binv m0 lb s -> settled M bcast_slots lb -> net s = [] ->
  (forall p, p ∈ M -> (length (bcast_slots p) <= lb p)%nat) \/
  exists p o r, p ∈ M /\ bcast_slots p !! lb p = Some (Some o) /\ op_exec p o s = Some r.
Proof.
  intros Hinv Hset Hnet. pose proof (bcast_runs m0 lb s) as Hgo.
  destruct (decide (Exists (unflagged lb s) M)) as [HA|HA].
  - (* the highest member without its flag: its parent runs *)
    right. apply list.Exists_exists in HA as (y & Hy & Hyf).
    destruct (list_argmin rank (unflagged lb s) M y Hy Hyf) as (p & Hp & (Hv & Hr & Hx) & Hmin).
    destruct (tree_child_of HT p Hp Hr) as [Hpp _]. pose proof (tree_rank (Tree:=HT) p Hp Hr) as Hrk.
    pose proof (v_local _ _ _ Hinv p Hp) as Hl. rewrite Hnet in Hl.
    destruct (b_sum _ _ _ _ _ _ _ _ Hl) as (Hs & _); [lia|].
    assert (lb (parent p) < 4 + 2 * nc (parent p))%nat as Hlt.
    { destruct (decide (lb (parent p) < 4 + 2 * nc (parent p))%nat) as [|Hge]; [done|].
      rewrite (sent_all flag_off lb p Hp Hr) in Hs by (unfold flag_off; lia). unfold msgs in Hs. simpl in Hs. lia. }
    apply (Hgo (parent p)); try done; [lia| |].
    + intros Hu. specialize (Hmin _ Hpp Hu). lia.
    + intros [? _]. lia.
  - assert (forall p, p ∈ M -> ~ unflagged lb s p) as HnA
      by (intros p Hp Hu; apply HA, list.Exists_exists; eauto).
    destruct (decide (Exists (fun p => complete = true /\ unacked lb s p) M)) as [HB|HB].
    + (* the lowest member without its acknowledgements: one of its children runs *)
      right. apply list.Exists_exists in HB as (y & Hy & Hyu).
      destruct (list_argmax rank (fun p => complete = true /\ unacked lb s p) M y Hy Hyu) as (p & Hp & (Hc & Hv & Hx) & Hmax).
      pose proof (v_local _ _ _ Hinv p Hp) as Hl. rewrite Hnet in Hl.
      destruct (b_sum _ _ _ _ _ _ _ _ Hl) as (Hs & _ & Hx0); [lia|]. unfold msgs in Hs. simpl in Hs.
      destruct (decide (Exists (fun c => lb c <= ack_pos c)%nat (children p))) as [Hch|Hch].
      * apply list.Exists_exists in Hch as (c & Hcin & Hlc). destruct (tree_child_in HT p c Hp Hcin) as (Hcm & Hcr & Hcp).
        pose proof (tree_rank (Tree:=HT) c Hcm Hcr) as Hrk. rewrite Hcp in Hrk. pose proof (acks_positions c).
        apply (Hgo c); try done; [lia|by apply HnA|]. intros Hu. specialize (Hmax c Hcm (conj Hc Hu)). lia.
      * exfalso. apply Hx. assert (acks lb p = nc p) as HAf.
        { apply countb_all. intros c Hcin. rewrite Hc. simpl. apply Nat.ltb_lt.
          destruct (decide (ack_pos c < lb c)%nat) as [|Hn]; [done|]. exfalso. apply Hch, list.Exists_exists.
          exists c. split; [done|lia]. }
        destruct (decide (p = root)) as [->|Hr]; [rewrite sent_root in Hs; lia|].
        destruct (b_passed _ _ _ _ _ _ _ _ Hl Hr) as [_ HF]; lia.
    + destruct (decide (Exists (fun p => lb p < 8 + 2 * nc p)%nat M)) as [HC|HC].
      * right. apply list.Exists_exists in HC as (p & Hp & Hlt). apply (Hgo p); try done; [by apply HnA|].
        intros Hu. destruct complete eqn:Hc; [apply HB, list.Exists_exists; eauto|].
        destruct (Hset p Hp) as [[o Ho]|Hge]; [|rewrite length_slots in Hge; lia].
        apply slots_view in Ho. destruct Hu as [Hu _].
        remember (lb p) as v eqn:Hv in Ho. remember (Some o) as oo eqn:Hn in Ho.
        destruct Ho as [| |k c Hk%lookup_lt_Some| | |k c Hk%lookup_lt_Some| | | |]; try lia; by rewrite Hc in Hn.
      * left. intros p Hp. rewrite length_slots. destruct (decide (8 + 2 * nc p <= lb p)%nat) as [|Hn]; [done|].
        exfalso. apply HC, list.Exists_exists. exists p. split; [done|lia].
Qed.

Lemma binv_init m0 : (forall p, p ∈ M -> m0 p pSync = 0) -> binv m0 (fun _ => 0%nat) (init_state m0).
Proof.
  intros H0. assert (forall p, acks (fun _ => 0%nat) p = 0%nat) as HA.
  { intros p. apply countb_zero. intros c _. by rewrite andb_false_r. }
  split; simpl; try done.
  - by intros m ?%elem_of_nil.
  - intros p Hp. rewrite HA, (H0 p Hp). unfold sent. simpl. unfold msgs. simpl. split; intros; lia || done.
  - intros p Hp. unfold fenced. by rewrite decide_False by lia.
  - by intros m ?%elem_of_nil.
  - intros p m _ _ Hl. lia.
Qed.

(** ** The theorem *)

Lemma carries_payload_dst m0 lb s p m : binv m0 lb s -> m ∈ net s -> m_src m = p -> pending (m_data m) = true ->
  p ∈ M /\ nc p <> 0%nat.
Proof.
  intros Hinv Hm Hs Hpd. destruct (v_msgs _ _ _ Hinv m Hm) as [Hdst Hg].
  destruct (classify m); [|destruct Hg as (_ & _ & _ & _ & _ & Hd)|destruct Hg as (_ & _ & Hd)|
    destruct Hg as (_ & _ & _ & Hd)]; try (by rewrite Hd in Hpd).
  destruct Hg as (Hr & E & _). destruct (tree_child_of HT _ Hdst Hr) as [Hp Hc]. rewrite <- E, Hs in *.
  split; [done|]. intros Hn%nil_length_inv. rewrite Hn in Hc. by apply elem_of_nil in Hc.
Qed.

(** A member at its end. *)
Lemma bcast_at_end m0 lb s p : binv m0 lb s -> p ∈ M -> (length (bcast_slots p) <= lb p)%nat ->
  lb p = (8 + 2 * nc p)%nat /\ mem s p pSync = 0 /\ (p <> root -> got m0 s p) /\
  (complete = true -> forall c, c ∈ children p -> got m0 s c) /\
  (forall m, m ∈ net s -> m_src m = p -> pending (m_data m) = false).
Proof.
  intros Hinv Hp Hv. rewrite length_slots in Hv. pose proof (v_local _ _ _ Hinv p Hp) as Hl.
  pose proof (b_len _ _ _ _ _ _ _ _ Hl). split; [lia|].
  destruct (b_end _ _ _ _ _ _ _ _ Hl) as (Hx & _); [lia|]. split; [done|]. split; [|split].
  - intros Hr. eapply passed_got; [done|done|done|lia].
  - intros Hc c Hcin. destruct (b_quiet _ _ _ _ _ _ _ _ Hl) as (_ & _ & HA); [lia|].
    pose proof (acks_full lb p c (HA Hc) Hcin). destruct (tree_child_in HT p c Hp Hcin) as (Hcm & Hcr & _).
    eapply passed_got; [done|done|done|lia].
  - intros m Hm Hs. destruct (pending (m_data m)) eqn:Hpd; [|done].
    destruct (carries_payload_dst m0 lb s p m Hinv Hm Hs Hpd) as [_ Hn].
    rewrite <- Hpd. apply (v_cap _ _ _ Hinv p m); done || lia.
Qed.

(** What may be left in flight when all have returned. *)
Lemma bcast_left m0 lb s m : binv m0 lb s -> (forall p, p ∈ M -> (length (bcast_slots p) <= lb p)%nat) -> m ∈ net s ->
  complete = false /\ m_src m = root /\ m_dst m = root /\ m_kind m = KPut /\ m_target m = pSync /\
  m_data m = Captured [(0, 0)].
Proof.
  intros Hinv Hend Hm. destruct (v_msgs _ _ _ Hinv m Hm) as [Hdst Hg].
  pose proof (v_local _ _ _ Hinv _ Hdst) as Hl. pose proof (Hend _ Hdst) as He. rewrite length_slots in He.
  destruct (b_quiet _ _ _ _ _ _ _ _ Hl) as (Hf & Ha & _); [lia|].
  destruct (b_end _ _ _ _ _ _ _ _ Hl) as (_ & _ & Hc); [lia|].
  pose proof (b_len _ _ _ _ _ _ _ _ Hl) as Hlen'.
  pose proof (msgs_some (classify m) (m_dst m) (net s) m Hm eq_refl eq_refl) as Hpos.
  destruct (classify m); [exfalso..|]; [|lia|lia|].
  - destruct Hg as (Hr & _). destruct (b_passed _ _ _ _ _ _ _ _ Hl Hr) as [Hfl HF]; [lia|].
    destruct (v_recv _ _ _ Hinv _ Hdst Hr HF Hfl). lia.
  - destruct Hg as (Hs & Hk & Ht & Hd). destruct (b_end _ _ _ _ _ _ _ _ Hl) as (_ & H1 & _); [lia|].
    destruct Hc as [Hr Hcm]; [lia|]. rewrite Hs, Hr. done.
Qed.

Lemma tree_bcast_spec body m0 :
  (forall p, p ∈ M -> body p = seqp (omap id (bcast_slots p))) ->
  (forall p, p ∈ M -> m0 p pSync = 0) ->
  bcast_spec M root children target source len pSync complete m0 body (3 * sum_list (map (fun p => 8 + 2 * nc p) M))%nat.
Proof.
  intros Hbody H0. pose proof (binv_init m0 H0) as Hi.
  assert (coll_job M m0 body = slots_job M bcast_slots m0) as E.
  { unfold coll_job, slots_job. f_equal. extensionality p. unfold slot_pt. case_decide; [|done].
    rewrite drop_0. by apply Hbody. }
  pose proof (slots_reachable M bcast_slots (binv m0) (binv_empty m0) (binv_op m0) (binv_net m0) m0 Hi) as Hreach.
  rewrite <- E in Hreach.
  assert (forall w p, rtc step (coll_job M m0 body) w -> p ∈ M -> returned w p -> exists lb, binv m0 lb (w_st w) /\
    (length (bcast_slots p) <= lb p)%nat) as Hret.
  { intros w p Hw Hp Hr. destruct (Hreach w Hw) as (lb & Hpt & Hinv).
    destruct (slots_returned M bcast_slots (binv m0) (binv_empty m0) lb w p Hpt Hinv Hp Hr) as (n & Hn & Hinv').
    eexists. split; [exact Hinv'|]. by rewrite fn_lookup_insert. }
  split.
  - rewrite E. pose proof (slots_complete M HM bcast_slots (binv m0) (binv_empty m0) (binv_op m0) (binv_net m0) m0 Hi
      (bcast_progress m0)) as Hc. assert (map (fun p => length (bcast_slots p)) M = map (fun p => 8 + 2 * nc p)%nat M) as El
      by (apply map_ext; intros p; apply length_slots). by rewrite El in Hc.
  - intros w p k Hw Hp Hr Hpr Hk. destruct (Hret w p Hw Hp Hr) as (lb & Hinv & Hend).
    destruct (bcast_at_end m0 lb _ p Hinv Hp Hend) as (_ & _ & Hg & _). by apply Hg.
  - intros w p c k Hc Hw Hp Hr Hcin Hk. destruct (Hret w p Hw Hp Hr) as (lb & Hinv & Hend).
    destruct (bcast_at_end m0 lb _ p Hinv Hp Hend) as (_ & _ & _ & Hg & _). by apply (Hg Hc c Hcin).
  - intros w p m Hw Hp Hr. destruct (Hret w p Hw Hp Hr) as (lb & Hinv & Hend).
    destruct (bcast_at_end m0 lb _ p Hinv Hp Hend) as (_ & _ & _ & _ & Hg). apply Hg.
  - intros w p Hw Hp Hr. destruct (Hret w p Hw Hp Hr) as (lb & Hinv & Hend).
    by destruct (bcast_at_end m0 lb _ p Hinv Hp Hend) as (_ & ? & _).
  - intros w p a Hw Ha. destruct (Hreach w Hw) as (lb & _ & Hinv). by apply (v_frame _ _ _ Hinv).
  - intros w m Hw Hr Hm. rewrite E in Hw.
    destruct (slots_all_returned M HM bcast_slots (binv m0) (binv_empty m0) (binv_op m0) (binv_net m0) m0 Hi w Hw Hr)
      as (lb & Hinv & Hend). by eapply bcast_left.
Qed.
End bcast.
