(* ===== verification/Broadcast.v ===== *)
(** * The broadcasts of the library

    The broadcast theorem applied to the trees of [shmem_internal_bcast_tree], to the star
    of [shmem_internal_bcast_linear], and through the dispatch of [shmem_internal_bcast]. *)

From Stdlib Require Import String.
From S2P Require Import Prelude Machine Straight Slots Internal ReduceOp Comm Tree CollInit CollSync Barriers Bcast BcastProof.
Local Open Scope Z_scope.
Local Open Scope prog_scope.

(** ** Slots and programs *)

Lemma omap_some {A B} (f : A -> B) (l : list A) : omap id (map (fun x => Some (f x)) l) = map f l.
Proof. induction l as [|x l IH]; [done|]. simpl. f_equal. exact IH. Qed.

Lemma omap_slots p root parent children target source len pSync complete early :
  omap id (bcast_slots root parent children target source len pSync complete early p) =
  (if follower root p then [OWait pSync SHMEM_CMP_NE 0] else []) ++
  (if follower root p && complete && early then [ack_op parent pSync p] else []) ++
  map (put_op root target source len p) (children p) ++
  (if leads children p then [OPutWait; OFence] else []) ++
  map (flag_op pSync) (children p) ++
  (if complete && leads children p then [acks_wait root children pSync p] else []) ++
  (if clears root complete early p then [clear_put pSync p; OWait pSync SHMEM_CMP_EQ 0] else []) ++
  (if follower root p && complete && negb early then [ack_op parent pSync p] else []).
Proof.
  unfold bcast_slots. rewrite !omap_app, !omap_some. unfold slot.
  repeat case_match; simpl; rewrite ?app_nil_r; done.
Qed.

(** ** The linear broadcast is a star *)

Definition linear_children (start stride size root p : Z) : list Z :=
  if decide (p = root) then List.filter (fun pe => negb (pe =? root)) (active_set start stride size) else [].

Lemma elem_of_others start stride size root c :
  c ∈ List.filter (fun pe => negb (pe =? root)) (active_set start stride size) <->
  c ∈ active_set start stride size /\ c <> root.
Proof. rewrite !list_elem_of_In, filter_In, negb_true_iff, Z.eqb_neq. done. Qed.

Lemma linear_tree start stride size root : 1 <= stride -> root ∈ active_set start stride size ->
  Tree (active_set start stride size) root (fun _ => root) (linear_children start stride size root)
    (fun pe => if decide (pe = root) then 0 else 1).
Proof.
  intros Hst Hr. unfold linear_children. split; [done|done|done| | | |].
  - intros p c _ Hc. case_decide; [by apply elem_of_others in Hc as [? _]|by apply elem_of_nil in Hc].
  - intros p c _ Hc. case_decide as Hp.
    + rewrite elem_of_others. subst. tauto.
    + split; [by intros ?%elem_of_nil|]. intros [_ ?]. congruence.
  - intros p _. case_decide; [|constructor]. apply NoDup_ListNoDup, List.NoDup_filter, NoDup_ListNoDup.
    by apply NoDup_active_set.
  - intros c _ Hne. rewrite decide_True, decide_False by done. lia.
Qed.

Lemma length_linear start stride size root : 1 <= stride -> root ∈ active_set start stride size ->
  Z.of_nat (length (linear_children start stride size root root)) = size - 1.
Proof.
  intros Hst Hr. unfold linear_children. rewrite decide_True by done.
  pose proof (NoDup_active_set start stride size Hst) as Hnd. pose proof (length_active_set start stride size) as Hl.
  assert (S (length (List.filter (fun pe => negb (pe =? root)) (active_set start stride size))) = Z.to_nat size); [|lia].
  rewrite <- Hl. apply (Permutation_length (l := root :: _)). apply NoDup_Permutation; [| done |].
  - constructor; [by intros [_ ?]%elem_of_others|].
    apply NoDup_ListNoDup, List.NoDup_filter, NoDup_ListNoDup. done.
  - intros c. rewrite elem_of_cons, elem_of_others. destruct (decide (c = root)) as [->|]; tauto.
Qed.

Lemma others_ops p start stride size (f : Z -> op) :
  flat_map (fun pe => if negb (pe =? p) then [f pe] else []) (active_set start stride size) =
  map f (List.filter (fun pe => negb (pe =? p)) (active_set start stride size)).
Proof. induction (active_set start stride size) as [|a l IH]; simpl; [done|]. rewrite IH. by destruct (negb _). Qed.

Section bcasts.
Context (params : coll_params) (num_pes start stride size PE_root pSync target source len : Z) (complete : bool).
Context (Hok : active_set_ok params num_pes start stride size) (Hsize : 2 <= size) (Hroot : 0 <= PE_root < size).
Context (Hlen : 0 < len).
Context (Htarget : ~ (target <= pSync < target + len)) (Hsource : ~ (source <= pSync < source + len)).
Let e := coll_env params num_pes.
Let M := active_set start stride size.
Let root := start + PE_root * stride.
Context (m0 : Z -> lmem) (H0 : forall p, p ∈ M -> m0 p pSync = 0).

Lemma root_member : root ∈ M.
Proof. apply elem_of_active_set. by exists PE_root. Qed.

(** A broadcast over any tree of the members. *)
Lemma any_tree_bcast parent children rank early body :
  Tree M root parent children rank ->
  (forall p, p ∈ M -> body p =
    seqp (omap id (bcast_slots root parent children target source len pSync complete early p))) ->
  bcast_spec M root children target source len pSync complete m0 body (30 * Z.to_nat size).
Proof.
  intros HT Hbody. destruct Hok. pose proof (NoDup_active_set start stride size ltac:(lia)) as HM.
  assert (length (children root) <> 0%nat) as Hr.
  { assert (children root <> []) as Hne; [|by intros E%nil_length_inv].
    set (i := if decide (PE_root = 0) then 1 else 0).
    apply (tree_root_child _ _ _ _ _ HT (start + i * stride)).
    - apply elem_of_active_set. exists i. unfold i. case_decide; lia.
    - unfold root, i. case_decide; nia. }
  assert (forall p, p ∈ M -> Z.of_nat (length (children p)) + 1 < 2 ^ 63) as Hbig.
  { intros p Hp. pose proof (tree_degree _ _ _ _ _ HT p HM Hp) as Hd. fold M in Hd.
    unfold M in Hd. rewrite length_active_set in Hd. lia. }
  pose proof (tree_bcast_spec M root parent children rank HT HM target source len pSync complete early Hlen Htarget
    Hsource Hr Hbig body m0 Hbody H0) as [[Hb Hp] H2 H3 H4 H5 H6 H7].
  split; try done. split; [|done]. intros n w Hn. specialize (Hb n w Hn).
  pose proof (tree_children_count _ _ _ _ _ HT HM) as Hc. rewrite <- sum_length_bind in Hc.
  assert (sum_list (map (fun p => 8 + 2 * length (children p)) M) =
    8 * length M + 2 * sum_list (map (fun p => length (children p)) M))%nat as E.
  { clear. induction M as [|a l IH]; simpl in *; lia. }
  rewrite E in Hb. fold M in Hc. unfold M in Hb, Hc at 2. rewrite length_active_set in Hb, Hc. fold M in Hb. lia.
Qed.

Lemma bcast_linear_correct :
  bcast_spec M root (linear_children start stride size root) target source len pSync complete m0
    (fun p => shmem_internal_bcast_linear (e p) target source len PE_root start stride size pSync complete)
    (30 * Z.to_nat size).
Proof.
  destruct Hok. eapply (any_tree_bcast (fun _ => root) _ _ false); [apply linear_tree; [lia|apply root_member]|].
  intros p Hp. unfold shmem_internal_bcast_linear. unfold e. rewrite e_pe.
  rewrite (proj2 (Z.eqb_neq size 1)), (proj2 (Z.eqb_neq len 0)) by lia. cbn [orb].
  rewrite omap_slots. unfold clears, follower, leads, acks_wait, ack_op, clear_put. fold root.
  pose proof (length_linear start stride size root ltac:(lia) root_member) as Hl.
  rewrite (Z.eqb_sym root p). destruct (Z.eqb_spec p root) as [->|Hne].
  - rewrite (bool_decide_eq_true_2 (root = root)) by done.
    rewrite (proj2 (Nat.eqb_neq (length (linear_children start stride size root root)) 0)) by lia.
    rewrite Hl, decide_True by done. unfold others, clear_psync, linear_children. rewrite decide_True by done.
    unfold shmem_internal_put_nb. rewrite (proj2 (Z.eqb_neq len 0)) by lia.
    straighten. cbn [negb andb orb app]. rewrite !others_ops, !app_nil_r, !Z.add_0_r.
    unfold put_op, send_buf. rewrite decide_True by done. destruct complete; simpl; by rewrite ?app_nil_r.
  - rewrite (bool_decide_eq_false_2 (p = root)) by done.
    unfold linear_children. rewrite !(decide_False (P := p = root)) by done.
    unfold clear_psync. straighten. destruct complete; done.
Qed.

Definition bcast_tree_of (p : Z) : Z * list Z :=
  coll_tree (coll_env params num_pes p) ((size =? num_pes) && (PE_root =? 0)) start stride size PE_root.

Lemma bcast_tree_correct :
  bcast_spec M root (fun p => (bcast_tree_of p).2) target source len pSync complete m0
    (fun p => shmem_internal_bcast_tree (e p) target source len PE_root start stride size pSync complete)
    (30 * Z.to_nat size).
Proof.
  destruct Hok. destruct (coll_tree_is_tree params num_pes ltac:(lia) ltac:(lia) start stride size ltac:(lia)
    ltac:(lia) ltac:(lia) PE_root Hroot) as [rank HT]. fold M root in HT.
  apply (any_tree_bcast (fun p => (bcast_tree_of p).1) _ rank true); [exact HT|].
  intros p Hp. unfold shmem_internal_bcast_tree. unfold e. rewrite e_pe, e_num.
  rewrite (proj2 (Z.eqb_neq size 1)), (proj2 (Z.eqb_neq len 0)) by lia. cbn [orb].
  rewrite (Z.eqb_sym 0 PE_root). fold (bcast_tree_of p).
  assert (p <> root -> (bcast_tree_of p).1 =? p = false) as Hpar
    by (intros Hne; apply Z.eqb_neq; by apply (tree_parent_ne HT)).
  assert (p = root -> (bcast_tree_of p).1 =? p = true /\ length (bcast_tree_of p).2 <> 0%nat) as Hrt.
  { intros ->. split; [apply Z.eqb_eq, (tree_root_parent (Tree:=HT))|].
    intros Hn%nil_length_inv. set (i := if decide (PE_root = 0) then 1 else 0).
    apply (tree_root_child _ _ _ _ _ HT (start + i * stride)); [| |done].
    - apply elem_of_active_set. exists i. unfold i. case_decide; lia.
    - unfold root, i. case_decide; nia. }
  rewrite omap_slots. unfold clears, follower, leads, acks_wait, ack_op, clear_put, put_op, send_buf.
  destruct (bcast_tree_of p) as [par ch]. cbn [fst snd] in *.
  unfold bcast_tree_body, clear_psync, shmem_internal_put_nb. rewrite (proj2 (Z.eqb_neq len 0)) by lia.
  destruct (decide (p = root)) as [Hr|Hr].
  - destruct (Hrt Hr) as [-> Hch]. rewrite (bool_decide_eq_true_2 (p = root)) by done.
    rewrite (proj2 (Z.eqb_neq _ 0)) by lia. rewrite (proj2 (Nat.eqb_neq _ 0)) by done.
    straighten. cbn [negb andb orb app]. rewrite !flat_map_singleton.
    destruct complete; simpl; by rewrite ?app_nil_r.
  - rewrite (Hpar Hr). rewrite (bool_decide_eq_false_2 (p = root)) by done.
    destruct (decide (length ch = 0%nat)) as [Hch|Hch].
    + apply nil_length_inv in Hch as ->. straighten. destruct complete; done.
    + rewrite (proj2 (Z.eqb_neq _ 0)) by lia. rewrite (proj2 (Nat.eqb_neq _ 0)) by done.
      straighten. cbn [negb andb orb app]. rewrite !flat_map_singleton.
      destruct complete; simpl; by rewrite ?app_nil_r, <- ?app_assoc.
Qed.
End bcasts.

(** ** [shmem_internal_bcast] *)

(** The job of an empty program has no step. *)
Lemma skip_no_step M m0 body w : (forall p, p ∈ M -> body p = skip) -> ~ step (coll_job M m0 body) w.
Proof.
  intros Hb Hs. inversion Hs as [w0 pe o k v s' Hp _|w0 s' Hn]; subst.
  - simpl in Hp. case_decide as H; [|done]. by rewrite Hb in Hp.
  - inversion Hn as [s l1 m l2 ? ? E|s l1 m l2 ? E]; subst; by destruct l1.
Qed.

Lemma skip_job_steps M m0 body w : (forall p, p ∈ M -> body p = skip) ->
  rtc step (coll_job M m0 body) w -> w = coll_job M m0 body.
Proof. intros Hb Hw. apply rtc_inv in Hw as [->|(w' & Hs & _)]; [done|]. by apply skip_no_step in Hs. Qed.

Lemma skip_bcast M root children target source len pSync complete m0 body :
  (forall p, p ∈ M -> body p = skip) -> (forall p, p ∈ M -> m0 p pSync = 0) ->
  len <= 0 \/ ((forall p, p ∈ M -> p = root) /\ forall p, children p = []) ->
  bcast_spec M root children target source len pSync complete m0 body 0.
Proof.
  intros Hb H0 Hc. assert (forall w, rtc step (coll_job M m0 body) w -> w = coll_job M m0 body) as Hw
    by (intros w; by apply skip_job_steps).
  split.
  - split.
    + intros n w Hn. destruct n as [|n]; [lia|]. inversion Hn as [|? ? w' ? Hs]; subst. by apply skip_no_step in Hs.
    + intros w Hr. left. rewrite (Hw w Hr). intros p. unfold returned. simpl. case_decide; [by apply Hb|done].
  - intros w p k _ Hp _ Hr Hk. destruct Hc as [|[Hc _]]; [lia|]. by apply Hc in Hp.
  - intros w p c k _ _ _ _ Hcin Hk. destruct Hc as [|[_ Hc]]; [lia|]. rewrite Hc in Hcin. by apply elem_of_nil in Hcin.
  - intros w p m Hr _ _ Hm. rewrite (Hw w Hr) in Hm. by apply elem_of_nil in Hm.
  - intros w p Hr Hp _. rewrite (Hw w Hr). by apply H0.
  - intros w p a Hr _. by rewrite (Hw w Hr).
  - intros w m Hr _ Hm. rewrite (Hw w Hr) in Hm. by apply elem_of_nil in Hm.
Qed.

(** The members a member sends the data to. *)
Definition bcast_children (params : coll_params) (num_pes start stride size PE_root p : Z) : list Z :=
  let linear := linear_children start stride size (start + PE_root * stride) p in
  let tree := (bcast_tree_of params num_pes start stride size PE_root p).2 in
  if size =? 1 then []
  else match select bcast_type_of (p_BCAST_ALGORITHM params) with
       | AUTO => if size <? p_COLL_CROSSOVER params then linear else tree
       | LINEAR => linear
       | _ => tree
       end.

Lemma bcast_spec_weaken M root children target source len pSync complete m0 body b b' : (b <= b')%nat ->
  bcast_spec M root children target source len pSync complete m0 body b ->
  bcast_spec M root children target source len pSync complete m0 body b'.
Proof.
  intros Hb [[H1 H1'] H2 H3 H4 H5 H6 H7]. split; [|done..]. split; [|done].
  intros n w Hn. specialize (H1 n w Hn). lia.
Qed.

Lemma bcast_delivers params num_pes start stride size PE_root pSync target source len complete m0 :
  active_set_ok params num_pes start stride size -> 0 <= PE_root < size -> 0 <= len ->
  ~ (target <= pSync < target + len) -> ~ (source <= pSync < source + len) ->
  (forall p, p ∈ active_set start stride size -> m0 p pSync = 0) ->
  bcast_spec (active_set start stride size) (start + PE_root * stride)
    (bcast_children params num_pes start stride size PE_root) target source len pSync complete m0
    (fun p => shmem_internal_bcast (coll_env params num_pes p) target source len PE_root start stride size pSync complete)
    (30 * Z.to_nat size).
Proof.
  intros Hok Hroot Hlen Ht Hs H0.
  assert (forall p, shmem_internal_bcast_type (coll_env params num_pes p) = select bcast_type_of (p_BCAST_ALGORITHM params) /\
    COLL_CROSSOVER (coll_env params num_pes p) = p_COLL_CROSSOVER params) as Het
    by (intros p; unfold coll_env; by destruct (default _ _)).
  assert (forall t, select bcast_type_of (p_BCAST_ALGORITHM params) = t -> t = AUTO \/ t = LINEAR \/ t = TREE) as Hsel
    by (intros t <-; unfold select, bcast_type_of; repeat case_match; simplify_eq/=; auto).
  destruct (decide (size = 1 \/ len = 0)) as [Hz|Hz].
  - apply (bcast_spec_weaken _ _ _ _ _ _ _ _ _ _ 0); [lia|]. apply skip_bcast; [|done|].
    + intros p _. unfold shmem_internal_bcast, shmem_internal_bcast_linear, shmem_internal_bcast_tree.
      destruct (Het p) as [-> _].
      assert ((size =? 1) || (len =? 0) = true) as -> by (apply orb_true_iff; rewrite !Z.eqb_eq; done).
      destruct (Hsel _ eq_refl) as [->|[->| ->]]; by repeat case_match.
    + destruct Hz as [->| ->]; [right|by left]. split; [|done].
      intros p (i & Hi & ->)%elem_of_active_set. assert (i = 0) as -> by lia. by replace PE_root with 0 by lia.
  - pose proof (bcast_linear_correct params num_pes start stride size PE_root pSync target source len complete
      Hok ltac:(destruct Hok; lia) Hroot ltac:(lia) Ht Hs m0 H0) as HL.
    pose proof (bcast_tree_correct params num_pes start stride size PE_root pSync target source len complete
      Hok ltac:(destruct Hok; lia) Hroot ltac:(lia) Ht Hs m0 H0) as HTr.
    unfold bcast_children. rewrite (proj2 (Z.eqb_neq size 1)) by lia.
    assert ((fun p => shmem_internal_bcast (coll_env params num_pes p) target source len PE_root start stride size
        pSync complete) =
      (fun p => let e := coll_env params num_pes p in
         let linear := shmem_internal_bcast_linear e target source len PE_root start stride size pSync complete in
         let tree := shmem_internal_bcast_tree e target source len PE_root start stride size pSync complete in
         match select bcast_type_of (p_BCAST_ALGORITHM params) with
         | AUTO => if size <? p_COLL_CROSSOVER params then linear else tree
         | LINEAR => linear
         | TREE => tree
         | _ => Raise
         end)) as -> by (extensionality p; unfold shmem_internal_bcast; by destruct (Het p) as [-> ->]).
    destruct (Hsel _ eq_refl) as [->|[->| ->]]; [|done|done]. by destruct (size <? p_COLL_CROSSOVER params).
Qed.

(** C3: [shmem_internal_bcast] delivers, whichever algorithm is selected, for any root, with or
    without the acknowledgements of [complete], and in every execution: it returns on every
    member within 30 steps per member, a member that has returned has the data of the root,
    with [complete] the members it sends to have them too, and it can reuse its buffers;
    pSyncs are zero again, no other memory changes, and only a clear by the root (without
    [complete]) can outlive the call. *)
Theorem bcast_correct params num_pes start stride size PE_root pSync target source len complete m0 :
  active_set_ok params num_pes start stride size -> 0 <= PE_root < size -> 0 <= len ->
  ~ (target <= pSync < target + len) -> ~ (source <= pSync < source + len) ->
  (forall p, p ∈ active_set start stride size -> m0 p pSync = 0) ->
  bcast_spec (active_set start stride size) (start + PE_root * stride)
    (bcast_children params num_pes start stride size PE_root) target source len pSync complete m0
    (fun p => shmem_internal_bcast (coll_env params num_pes p) target source len PE_root start stride size pSync complete)
    (30 * Z.to_nat size).
Proof. apply bcast_delivers. Qed.

(** Six members of a job of 16 PEs, from the fourth of them, with a tree of radix 4. *)
Lemma bcast_correct_witness :
  bcast_spec (active_set 1 2 6) 7 (bcast_children (sample_params "linear") 16 1 2 6 3) 300 400 8 64 true
    (fun p a => if a =? 64 then 0 else 1000 * p + a)
    (fun p => shmem_internal_bcast (coll_env (sample_params "linear") 16 p) 300 400 8 3 1 2 6 64 true) (30 * 6).
Proof.
  apply (bcast_correct (sample_params "linear") 16 1 2 6 3 64 300 400 8 true); try lia.
  - by split; simpl; lia.
  - done.
Defined.

(** Without [complete] the clear of the root's pSync can outlive the call: the pSync was
    zero all along, so the wait for the clear does not wait. *)
Lemma bcast_clear_in_flight :
  let job := coll_job (active_set 0 1 2) (fun _ _ => 0)
    (fun p => shmem_internal_bcast_tree (coll_env (sample_params "auto") 2 p) 300 400 8 0 0 1 2 64 false) in
  exists w, rtc step job w /\ all_returned w /\ net (w_st w) <> [].
Proof.
  intros job.
  destruct (exec_all_outcome [RunPE 0; RunNet 0; RunPE 0; RunPE 0; RunPE 0; RunPE 0; RunPE 0; RunNet 0; RunNet 0;
      RunPE 1; RunPE 1; RunNet 1; RunPE 1] job (fun w => (progs w 0, progs w 1, length (net (w_st w)))) (skip, skip, 1%nat)
    ltac:(vm_compute; reflexivity)) as (w & Hs & [= H0 H1 Hn]).
  exists w. split; [exact Hs|]. split; [|by intros E; rewrite E in Hn].
  eapply coll_job_returned; [exact Hs|]. intros p (i & Hi & ->)%elem_of_active_set.
  assert (i = 0 \/ i = 1) as [->| ->] by lia; [exact H0|exact H1].
Qed.
