(* ===== verification/AllReduce.v ===== *)
(** * Reductions over active sets

    The linear and tree reductions of [shmem_internal_op_to_all]: the reduction to the
    root of [Gather], over a star or over the tree of the collectives, followed by the
    broadcast of [Broadcast] ([Compose]).  Every member ends with the combination of the
    contributions of all members, under every interleaving and delivery order. *)

From Stdlib Require Import String.
From S2P Require Import Prelude Machine Straight Slots Internal ReduceOp Comm Tree CollInit CollSync Barriers Bcast Reduce BcastProof Broadcast Flight Compose Gather.
Local Open Scope Z_scope.
Local Open Scope prog_scope.

(** ** What a reduction promises *)

(** Under every interleaving and delivery order: the call returns on every member within
    [steps] steps of the job; a member that has returned has the [total] in the elements
XX pSync array is as before; nothing else
    changes; and the messages that outlive the call are the resets of the root's pSync. *)
Record reduce_spec (prompt : bool) (tmp : option Z) (M : list Z) (root target len pSync : Z) (offs : list Z) (total : Z -> Z) (m0 : Z -> lmem)
    (body : Z -> prog unit) (steps : nat) : Prop := {
  rd_completes : job_completes (coll_job M m0 body) steps;
  rd_delivers : forall w p o, rtc step (coll_job M m0 body) w -> p ∈ M -> returned w p -> o ∈ offs ->
    mem (w_st w) p (target + o) = total o;
  rd_reusable : prompt = true -> forall w p m, rtc step (coll_job M m0 body) w -> p ∈ M -> returned w p ->
    m ∈ net (w_st w) -> m_src m = p -> pending (m_data m) = false;
  rd_restored : forall w p i, rtc step (coll_job M m0 body) w -> p ∈ M -> returned w p ->
    0 <= i < SHMEM_REDUCE_SYNC_SIZE -> mem (w_st w) p (pSync + i * SIZEOF_LONG) = SHMEM_SYNC_VALUE;
  rd_frame : forall w p a, rtc step (coll_job M m0 body) w ->
    (p ∉ M \/ ~ (target <= a < target + len) /\ ~ (pSync <= a < pSync + SHMEM_REDUCE_SYNC_SIZE * SIZEOF_LONG)) ->
    (forall t, tmp = Some t -> ~ (t <= a < t + len)) -> mem (w_st w) p a = m0 p a;
  rd_clean : forall w m, rtc step (coll_job M m0 body) w -> all_returned w -> m ∈ net (w_st w) ->
    m_src m = root /\ m_dst m = root /\ m_kind m = KPut /\
    pSync <= m_target m < pSync + SHMEM_REDUCE_SYNC_SIZE * SIZEOF_LONG /\ m_data m = Captured [(0, SHMEM_SYNC_VALUE)] }.

(** Promising less: more steps, a buffer that may change, buffers that are not free. *)
Lemma reduce_spec_mono prompt prompt' tmp M root target len pSync offs total m0 body n n' :
  (prompt' = true -> prompt = true) -> (n <= n')%nat ->
  reduce_spec prompt None M root target len pSync offs total m0 body n ->
  reduce_spec prompt' tmp M root target len pSync offs total m0 body n'.
Proof.
  intros Hp Hn [[R1 R1'] R2 R3 R4 R5 R6]. split; try done.
  - split; [|done]. intros k w Hk. specialize (R1 k w Hk). lia.
  - intros Ht. by apply R3, Hp.
  - intros w p a Hw Ha _. by apply R5.
Qed.

(** The offsets of the elements. *)
Definition elements (count size : Z) : list Z := map (fun i => i * size) (upto 0 count).

Lemma elem_of_elements count size o : o ∈ elements count size <-> exists i, 0 <= i < count /\ o = i * size.
Proof.
  unfold elements. rewrite list_elem_of_In, in_map_iff. split.
  - intros (i & <- & Hi%list_elem_of_In%elem_of_upto). eauto.
  - intros (i & Hi & ->). exists i. split; [done|]. by apply list_elem_of_In, elem_of_upto.
Qed.

Lemma NoDup_elements count size : 0 < size -> NoDup (elements count size).
Proof. intros Hs. apply NoDup_fmap_2_strong; [|apply NoDup_upto]. intros i j _ _ E. nia. Qed.

Lemma omap_gather root parent children target source len R A offs calc p :
  omap id (gather_slots root parent children target source len R A offs calc p) =
  (if leads children p then [OPut p target (Pending source (upto 0 len)) false; OPutWait; OQuiet] else []) ++
  map (fun c => OPut c R (Captured [(0, 1)]) false) (children p) ++
  (if leads children p then [OWait A SHMEM_CMP_EQ (Z.of_nat (length (children p)));
     OPut p A (Captured [(0, 0)]) false; OWait A SHMEM_CMP_EQ 0] else []) ++
  (if follower root p then [OWait R SHMEM_CMP_NE 0; OPut p R (Captured [(0, 0)]) false; OWait R SHMEM_CMP_EQ 0;
     OAtomic (parent p) target calc (Pending (gbuf children target source p) offs); OPutWait; OFence;
     OAtomic (parent p) A (long_calc SHM_INTERNAL_SUM) (Captured [(0, 1)])] else []).
Proof.
  unfold gather_slots. rewrite !omap_app, omap_some. unfold slot.
  destruct (leads children p), (follower root p); simpl; rewrite ?app_nil_r; done.
Qed.

(** ** Reduce to the root, then broadcast *)

Section both.
Context (M : list Z) (root target len pSync : Z) (offs : list Z) (total : Z -> Z) (m0 : Z -> lmem).
Context (Hrm : root ∈ M) (Hoffs : forall o, o ∈ offs -> 0 <= o < len).
Let psync_size := SHMEM_REDUCE_SYNC_SIZE * SIZEOF_LONG.
Let gate := pSync + 2 * SIZEOF_LONG.
Context (Hapart : target + len <= pSync \/ pSync + psync_size <= target).
Context (H0 : forall p i, p ∈ M -> 0 <= i < SHMEM_REDUCE_SYNC_SIZE -> m0 p (pSync + i * SIZEOF_LONG) = SHMEM_SYNC_VALUE).
(** The word that lets a child send; [pSync] itself counts the acknowledgements. *)
Context (ready : Z) (Hready : ready = pSync \/ ready = pSync + SIZEOF_LONG).
Context (P1 P2 : Z -> prog unit) (b1 b2 : nat) (children : Z -> list Z).
Context (Hga : gather_spec M root target len pSync ready offs total m0 P1 b1).
Context (Hbc : forall m1, (forall p, p ∈ M -> m1 p gate = 0) ->
  bcast_spec M root children target target len gate false m1 P2 b2).
Context (Hgate : forall p, p ∈ M -> p <> root -> exists k, P2 p = Do (OWait gate SHMEM_CMP_NE 0) k).

Lemma gate_shut w p : rtc step (coll_job M m0 P1) w -> p ∈ M -> mem (w_st w) p gate = 0.
Proof.
  intros Hw Hp. rewrite (ga_frame _ _ _ _ _ _ _ _ _ _ _ Hga w p gate Hw).
  - pose proof (H0 p 2 Hp ltac:(unfold SHMEM_REDUCE_SYNC_SIZE; lia)) as E. unfold gate.
    unfold SIZEOF_LONG in *. by replace (pSync + 2 * 8) with (pSync + 2 * 8) in E by lia.
  - right. unfold gate, psync_size, SIZEOF_LONG, SHMEM_REDUCE_SYNC_SIZE in *. lia.
Qed.

(** After the first part: the broadcast, from a memory with the result at the root. *)
Lemma second_part w1 : rtc step (coll_job M m0 P1) w1 -> all_returned w1 ->
  bcast_spec M root children target target len gate false (mem (w_st w1)) P2 b2 /\
  (forall o, o ∈ offs -> mem (w_st w1) root (target + o) = total o) /\
  (forall p i, p ∈ M -> 0 <= i < SHMEM_REDUCE_SYNC_SIZE -> mem (w_st w1) p (pSync + i * SIZEOF_LONG) = 0).
Proof.
  intros Hw Hr. split; [apply Hbc; intros p; by apply gate_shut|]. split.
  - intros o. by apply (ga_total _ _ _ _ _ _ _ _ _ _ _ Hga).
  - intros p i Hp Hi. destruct (ga_restored _ _ _ _ _ _ _ _ _ _ _ Hga w1 p Hw (Hr root) Hp) as [HA HR].
    destruct (decide (i = 0)) as [->|Hi0]; [by rewrite Z.mul_0_l, Z.add_0_r|].
    destruct (decide (pSync + i * SIZEOF_LONG = ready)) as [->|Hne]; [done|].
    rewrite (ga_frame _ _ _ _ _ _ _ _ _ _ _ Hga w1 p _ Hw); [by apply H0|].
    right. unfold psync_size, SIZEOF_LONG, SHMEM_REDUCE_SYNC_SIZE in *. lia.
Qed.

Lemma gather_then_bcast : reduce_spec true None M root target len pSync offs total m0 (fun p => P1 p ;; P2 p) (b1 + b2).
Proof.
  pose proof (ga_last _ _ _ _ _ _ _ _ _ _ _ Hga) as Hlast.
  assert (forall w p, rtc step (coll_job M m0 P1) w -> p ∈ M -> mem (w_st w) p gate = 0) as Hshut
    by (intros w p; apply gate_shut).
  pose proof (then_returned M m0 P1 P2 root Hlast gate Hgate Hshut) as Hret.
  pose proof (then_reachable M m0 P1 P2 root Hlast gate Hgate Hshut) as Hreach.
  split.
  - apply (then_completes M m0 P1 P2 root Hlast gate Hgate Hshut); [apply Hga|].
    intros w1 Hw1 Hr1. by apply second_part.
  - intros w p o Hw Hp Hr Ho. destruct (Hret w p Hw Hp Hr) as (w1 & w2 & H1 & Hall & _ & H2 & Hr2 & ->). simpl.
    destruct (second_part w1 H1 Hall) as (Hb & Ht & _).
    destruct (decide (p = root)) as [->|Hne].
    + rewrite (bc_frame _ _ _ _ _ _ _ _ _ _ _ Hb w2 root _ H2); [by apply Ht|]. right. split; [|by left].
      specialize (Hoffs o Ho). unfold gate, psync_size, SIZEOF_LONG, SHMEM_REDUCE_SYNC_SIZE in *. lia.
    + rewrite (bc_delivers _ _ _ _ _ _ _ _ _ _ _ Hb w2 p o H2 Hp Hr2 Hne (Hoffs o Ho)). by apply Ht.
  - intros _ w p m Hw Hp Hr Hm Hs. destruct (Hret w p Hw Hp Hr) as (w1 & w2 & H1 & Hall & _ & H2 & Hr2 & ->).
    simpl in Hm. apply list_elem_of_fmap in Hm as (m2 & -> & Hm2). simpl in Hs.
    destruct (second_part w1 H1 Hall) as (Hb & _). by apply (bc_reusable _ _ _ _ _ _ _ _ _ _ _ Hb w2 p m2).
  - intros w p i Hw Hp Hr Hi. destruct (Hret w p Hw Hp Hr) as (w1 & w2 & H1 & Hall & _ & H2 & Hr2 & ->). simpl.
    destruct (second_part w1 H1 Hall) as (Hb & _ & Hz).
    destruct (decide (i = 2)) as [->|Hi2].
    + by apply (bc_restored _ _ _ _ _ _ _ _ _ _ _ Hb w2 p).
    + rewrite (bc_frame _ _ _ _ _ _ _ _ _ _ _ Hb w2 p _ H2); [by apply Hz|]. right.
      unfold gate, psync_size, SIZEOF_LONG, SHMEM_REDUCE_SYNC_SIZE in *. lia.
  - intros w p a Hw Ha _.
    assert (p ∉ M \/ a <> pSync /\ a <> ready /\ ~ (target <= a < target + len)) as Ha1
      by (unfold psync_size, SIZEOF_LONG, SHMEM_REDUCE_SYNC_SIZE in *; destruct Ha; [by left|right; lia]).
    destruct (Hreach w Hw) as [(w1 & H1 & -> & _)|(w1 & w2 & H1 & Hall & _ & H2 & ->)].
    + by apply (ga_frame _ _ _ _ _ _ _ _ _ _ _ Hga w1 p a H1).
    + simpl. destruct (second_part w1 H1 Hall) as (Hb & _).
      rewrite (bc_frame _ _ _ _ _ _ _ _ _ _ _ Hb w2 p a H2).
      * by apply (ga_frame _ _ _ _ _ _ _ _ _ _ _ Hga w1 p a H1).
      * unfold gate, psync_size, SIZEOF_LONG, SHMEM_REDUCE_SYNC_SIZE in *. destruct Ha; [by left|right; lia].
  - intros w m Hw Hr Hm. destruct (Hret w root Hw Hrm (Hr root)) as (w1 & w2 & H1 & Hall & _ & H2 & _ & ->).
    simpl in Hm. apply list_elem_of_fmap in Hm as (m2 & -> & Hm2). simpl.
    destruct (second_part w1 H1 Hall) as (Hb & _).
    destruct (bc_clean _ _ _ _ _ _ _ _ _ _ _ Hb w2 m2 H2 Hr Hm2) as (_ & Hs & Hd' & Hk & Ht & Hda).
    rewrite Ht. repeat (split; [done|]). split; [|done].
    unfold gate, psync_size, SIZEOF_LONG, SHMEM_REDUCE_SYNC_SIZE in *. lia.
Qed.
End both.


(** ** One member, or no element *)

Section alone.
Context (p : Z) (target source len pSync : Z) (offs : list Z) (m0 : Z -> lmem) (body : Z -> prog unit).
Context (Hoffs : forall o, o ∈ offs -> 0 <= o < len).
Let psync_size := SHMEM_REDUCE_SYNC_SIZE * SIZEOF_LONG.
Context (Htp : target + len <= pSync \/ pSync + psync_size <= target).
Context (H0 : forall i, 0 <= i < SHMEM_REDUCE_SYNC_SIZE -> m0 p (pSync + i * SIZEOF_LONG) = SHMEM_SYNC_VALUE).

(** The memory once the source has been copied. *)
Definition copied : Z -> lmem := <[p := copy_bytes target source len (m0 p)]> m0.

Lemma copied_at o : 0 <= o < len -> copied p (target + o) = m0 p (source + o).
Proof.
  intros Ho. unfold copied. rewrite fn_lookup_insert. unfold copy_bytes.
  rewrite (proj2 (Z.leb_le _ _)), (proj2 (Z.ltb_lt _ _)) by lia. simpl. f_equal. lia.
Qed.
Lemma copied_ne q a : q <> p \/ ~ (target <= a < target + len) -> copied q a = m0 q a.
Proof.
  intros Ha. unfold copied. update_cases; [subst q|done]. unfold copy_bytes.
  destruct (Z.leb_spec target a), (Z.ltb_spec a (target + len)); simpl; done || (destruct Ha; [done|lia]).
Qed.

(** Every reachable memory is the initial one or the copy; once the member has returned it
    is the copy, and all that is left is a reset of the first word. *)
Lemma alone_spec steps :
  job_completes (coll_job [p] m0 body) steps ->
  (forall w, rtc step (coll_job [p] m0 body) w -> mem (w_st w) = m0 \/ mem (w_st w) = copied) ->
  (forall w, rtc step (coll_job [p] m0 body) w -> returned w p -> mem (w_st w) = copied /\
     forall m, m ∈ net (w_st w) -> m_src m = p /\ m_dst m = p /\ m_kind m = KPut /\ m_target m = pSync /\
       m_data m = Captured [(0, SHMEM_SYNC_VALUE)]) ->
  reduce_spec true None [p] p target len pSync offs (fun o => m0 p (source + o)) m0 body steps.
Proof.
  intros Hc Hm Hr. split.
  - done.
  - intros w q o Hw ->%list_elem_of_singleton Hret Ho. destruct (Hr w Hw Hret) as [-> _]. by apply copied_at, Hoffs.
  - intros _ w q m Hw ->%list_elem_of_singleton Hret Hin' _. destruct (Hr w Hw Hret) as [_ Hn].
    destruct (Hn m Hin') as (_ & _ & _ & _ & Hd). by rewrite Hd.
  - intros w q i Hw ->%list_elem_of_singleton Hret Hi. destruct (Hr w Hw Hret) as [-> _].
    rewrite copied_ne; [by apply H0|]. right. unfold psync_size, SIZEOF_LONG, SHMEM_REDUCE_SYNC_SIZE in *. lia.
  - intros w q a Hw Ha _. destruct (Hm w Hw) as [->| ->]; [done|]. apply copied_ne.
    destruct Ha as [Hq|[Ha _]]; [left; by intros ->; apply Hq, list_elem_of_singleton|by right].
  - intros w m Hw Hret Hin'. destruct (Hr w Hw (Hret p)) as [_ Hn]. destruct (Hn m Hin') as (? & ? & ? & -> & ?).
    repeat (split; [done|]). split; [unfold psync_size, SIZEOF_LONG, SHMEM_REDUCE_SYNC_SIZE; lia|done].
Qed.

(** The tree algorithm copies, unless the arrays are the same. *)
Lemma alone_memcpy : body p = when (negb (target =? source)) (memcpy target source len) ->
  reduce_spec true None [p] p target len pSync offs (fun o => m0 p (source + o)) m0 body 3.
Proof.
  intros Hb. set (sl := fun q : Z => [if negb (target =? source) then Some (OLocal (copy_bytes target source len)) else None]).
  set (I := fun (lb : Z -> nat) (s : state) => net s = [] /\
    (lb p = 0%nat /\ mem s = m0 \/ lb p = 1%nat /\ mem s = copied)).
  assert (target = source -> copied = m0) as Hsame.
  { intros E. extensionality q. extensionality a. destruct (decide (q = p /\ target <= a < target + len)) as [[-> Ha]|Ha].
    - replace a with (target + (a - target)) by lia. rewrite copied_at by lia. by rewrite E.
    - apply copied_ne. destruct (decide (q = p)); [right; tauto|by left]. }
  assert (coll_job [p] m0 body = slots_job [p] sl m0) as E.
  { unfold coll_job, slots_job. f_equal. extensionality q. unfold slot_pt. case_decide as Hq; [|done].
    apply list_elem_of_singleton in Hq as ->. rewrite Hb. unfold sl, when, memcpy. by destruct (negb _). }
  assert (NoDup [p]) as Hnd by (apply NoDup_singleton).
  assert (I (fun _ => 0%nat) (init_state m0)) as Hi by (by split; [|left]).
  assert (forall lb s q, I lb s -> q ∈ [p] -> sl q !! lb q = Some None -> I (<[q := S (lb q)]> lb) s) as He.
  { intros lb s q [Hn Hs] ->%list_elem_of_singleton Hsl. split; [done|]. right. rewrite fn_lookup_insert.
    destruct Hs as [[Hv Hs]|[Hv _]]; rewrite Hv in *; [|done]. split; [done|]. unfold sl in Hsl. simpl in Hsl.
    destruct (Z.eqb_spec target source) as [Et|]; [|done]. by rewrite Hsame. }
  assert (forall lb s q o x s', I lb s -> q ∈ [p] -> sl q !! lb q = Some (Some o) -> op_exec q o s = Some (x, s') ->
    I (<[q := S (lb q)]> lb) s') as Ho.
  { intros lb s q o x s' [Hn Hs] ->%list_elem_of_singleton Hsl Hex. unfold I. rewrite fn_lookup_insert.
    destruct Hs as [[Hv Hs]|[Hv _]]; rewrite Hv in *; [|done]. unfold sl in Hsl. simpl in Hsl.
    destruct (negb _); [|done]. injection Hsl as <-. injection Hex as _ <-. split; [done|]. right. split; [done|].
    simpl. unfold copied. by rewrite Hs. }
  assert (forall lb s s', I lb s -> net_step s s' -> I lb s') as Hnet.
  { intros lb s s' [Hn _] Hst. inversion Hst as [? l1 ? l2 ? ? E'|? l1 ? l2 ? E']; subst; rewrite Hn in E'; by destruct l1. }
  assert (forall w, rtc step (coll_job [p] m0 body) w -> exists lb, (forall q, progs w q = slot_pt [p] sl q (lb q)) /\ I lb (w_st w))
    as Hreach by (rewrite E; apply (slots_reachable [p] sl I He Ho Hnet m0 Hi)).
  apply alone_spec.
  - rewrite E. apply (slots_complete [p] Hnd sl I He Ho Hnet m0 Hi). intros lb s [Hn Hs] Hset _.
    destruct Hs as [[Hv _]|[Hv _]]; [right|left; intros q ->%list_elem_of_singleton; simpl; lia].
    destruct (Hset p) as [[o Hsl]|Hge]; [apply list_elem_of_here| |simpl in Hge; lia].
    exists p, o. assert (exists r, op_exec p o s = Some r) as [r Hr].
    { rewrite Hv in Hsl. unfold sl in Hsl. simpl in Hsl. destruct (negb _); [|done]. injection Hsl as <-. by eexists. }
    exists r. split; [apply list_elem_of_here|done].
  - intros w Hw. destruct (Hreach w Hw) as (lb & _ & _ & [[_ ?]|[_ ?]]); auto.
  - intros w Hw Hr. destruct (Hreach w Hw) as (lb & Hpt & Hinv).
    destruct (slots_returned [p] sl I He lb w p Hpt Hinv (list_elem_of_here _ _) Hr) as (n & Hn & Hn' & Hs).
    rewrite fn_lookup_insert in Hs. simpl in Hn. destruct Hs as [[? _]|[_ Hs]]; [lia|]. split; [done|].
    intros m Hm. rewrite Hn' in Hm. by apply elem_of_nil in Hm.
Qed.

(** The linear algorithm puts, waits and resets its word. *)
Definition alone_ops : list op :=
  [OPut p target (Pending source (upto 0 len)) false; OPutWait; OQuiet; OWait pSync SHMEM_CMP_EQ 0;
   OPut p pSync (Captured [(0, 0)]) false; OWait pSync SHMEM_CMP_EQ 0].

Inductive alone_at : nat -> list msg -> (Z -> lmem) -> Prop :=
| aa_start : alone_at 0 [] m0
| aa_pending v e : (1 <= v <= 2)%nat -> alone_at v [Msg p p e KPut target false (Pending source (upto 0 len))] m0
| aa_read v e : (1 <= v <= 2)%nat ->
    alone_at v [Msg p p e KPut target false (Captured (map (fun o => (o, m0 p (source + o))) (upto 0 len)))] m0
| aa_put v : (1 <= v <= 6)%nat -> alone_at v [] copied
| aa_reset v e : (5 <= v <= 6)%nat -> alone_at v [Msg p p e KPut pSync false (Captured [(0, 0)])] copied.

Lemma apply_copy : apply_vals KPut target (map (fun o => (o, m0 p (source + o))) (upto 0 len)) (m0 p) =
  copy_bytes target source len (m0 p).
Proof.
  extensionality a. unfold copy_bytes.
  destruct (apply_puts target (map (fun o => (o, m0 p (source + o))) (upto 0 len)) (m0 p) a) as [([k x] & Hx & E & Ev)|[Hn ->]].
  - apply list_elem_of_fmap in Hx as (k' & [= -> ->] & Hk%elem_of_upto). simpl in E, Ev. rewrite Ev.
    rewrite (proj2 (Z.leb_le _ _)), (proj2 (Z.ltb_lt _ _)) by lia. simpl. f_equal. lia.
  - destruct (Z.leb_spec target a), (Z.ltb_spec a (target + len)); simpl; try done. exfalso.
    apply (Hn (a - target, m0 p (source + (a - target)))); [|simpl; lia].
    apply list_elem_of_fmap. exists (a - target). split; [done|]. apply elem_of_upto. lia.
Qed.

Lemma copied_word : copied p pSync = 0.
Proof.
  rewrite copied_ne.
  - pose proof (H0 0 ltac:(unfold SHMEM_REDUCE_SYNC_SIZE; lia)) as E. simpl in E. by rewrite Z.add_0_r in E.
  - right. unfold psync_size, SIZEOF_LONG, SHMEM_REDUCE_SYNC_SIZE in *. lia.
Qed.

Lemma alone_net lb s s' : alone_at (lb p) (net s) (mem s) -> net_step s s' -> alone_at (lb p) (net s') (mem s').
Proof.
  intros Ha Hst. destruct Hst as [s l1 m l2 src offs' E Hd|s l1 m l2 vals E Hd Hf]; rewrite E in Ha; simpl.
  all: inversion Ha as [Hv Hn Em|v e Hv Hve Hn Em|v e Hv Hve Hn Em|v Hv Hve Hn Em|v e Hv Hve Hn Em]; try (by destruct l1);
    destruct l1 as [|m' l1]; try (by destruct l1); injection Hn as <- <-; simpl in Hd; try done.
  - injection Hd as <- <-. simpl. rewrite <- Em. by apply aa_read.
  - injection Hd as <-. simpl. rewrite <- Em, apply_copy. apply aa_put. lia.
  - injection Hd as <-. simpl. rewrite Z.add_0_r.
    assert (<[p := <[pSync := 0]> (copied p)]> copied = copied) as ->; [|apply aa_put; lia].
    extensionality q. extensionality a. rewrite (insert_cases copied). case_decide; [subst q|done].
    rewrite insert_cases. case_decide; [subst a|done]. symmetry. apply copied_word.
Qed.

Lemma alone_op lb s q o x s' : alone_at (lb p) (net s) (mem s) -> q ∈ [p] ->
  map Some alone_ops !! lb q = Some (Some o) -> op_exec q o s = Some (x, s') ->
  alone_at (<[q := S (lb q)]> lb p) (net s') (mem s').
Proof.
  intros Ha ->%list_elem_of_singleton Ho Hex. rewrite fn_lookup_insert.
  destruct (lb p) as [|[|[|[|[|[|v]]]]]] eqn:Hv; try (injection Ho as <-); simpl in Hex; try done.
  all: inversion Ha as [Hv' Hn Em|v' e Hv' Hve Hn Em|v' e Hv' Hve Hn Em|v' Hv' Hve Hn Em|v' e Hv' Hve Hn Em]; try lia.
  all: rewrite <- ?Hn in Hex; simpl in Hex; rewrite ?Z.eqb_refl in Hex; try discriminate Hex;
    try (case_match; [|discriminate Hex]); injection Hex as _ <-; simpl; rewrite <- ?Hn, <- ?Em; simpl; constructor; lia.
Qed.

Lemma alone_linear : body p = seqp alone_ops ->
  reduce_spec true None [p] p target len pSync offs (fun o => m0 p (source + o)) m0 body 18.
Proof.
  intros Hb. set (sl := fun _ : Z => map Some alone_ops). set (I := fun (lb : Z -> nat) s => alone_at (lb p) (net s) (mem s)).
  assert (coll_job [p] m0 body = slots_job [p] sl m0) as E.
  { unfold coll_job, slots_job. f_equal. extensionality q. unfold slot_pt. case_decide as Hq; [|done].
    apply list_elem_of_singleton in Hq as ->. by rewrite Hb. }
  assert (NoDup [p]) as Hnd by (apply NoDup_singleton).
  assert (I (fun _ => 0%nat) (init_state m0)) as Hi by constructor.
  assert (forall lb s q, I lb s -> q ∈ [p] -> sl q !! lb q = Some None -> I (<[q := S (lb q)]> lb) s) as He.
  { intros lb s q _ _ Hs. unfold sl in Hs. rewrite list_lookup_fmap in Hs. by destruct (alone_ops !! lb q). }
  assert (forall w, rtc step (coll_job [p] m0 body) w -> exists lb, (forall q, progs w q = slot_pt [p] sl q (lb q)) /\ I lb (w_st w))
    as Hreach by (rewrite E; apply (slots_reachable [p] sl I He alone_op alone_net m0 Hi)).
  apply alone_spec.
  - rewrite E. apply (slots_complete [p] Hnd sl I He alone_op alone_net m0 Hi). intros lb s Ha Hset Hn.
    destruct (Hset p) as [[o Ho]|Hge]; [apply list_elem_of_here| |left; intros q ->%list_elem_of_singleton; done].
    right. exists p, o. enough (exists r, op_exec p o s = Some r) as [r Hr]
      by (exists r; split; [apply list_elem_of_here|done]).
    pose proof copied_word as Hw. unfold I in Ha. rewrite Hn in Ha. unfold sl in Ho.
    destruct (lb p) as [|[|[|[|[|[|v]]]]]] eqn:Hv; try (injection Ho as <-); simpl; rewrite ?Hn; simpl; eauto; try done;
      inversion Ha; subst; rewrite Hw; simpl; eauto.
  - intros w Hw. destruct (Hreach w Hw) as (lb & _ & Ha). inversion Ha; auto.
  - intros w Hw Hr. destruct (Hreach w Hw) as (lb & Hpt & Hinv).
    destruct (slots_returned [p] sl I He lb w p Hpt Hinv (list_elem_of_here _ _) Hr) as (n & Hn & Ha).
    unfold I in Ha. rewrite fn_lookup_insert in Ha. simpl in Hn. inversion Ha; subst; try lia; (split; [done|]).
    + by intros m ?%elem_of_nil.
    + by intros m ->%list_elem_of_singleton.
Qed.
End alone.
(** ** The algorithms *)

(** The members of a broadcast other than the root wait for the root. *)
Lemma bcast_gate params num_pes start stride size pSync target source len complete p :
  active_set_ok params num_pes start stride size -> 2 <= size -> 0 < len ->
  p ∈ active_set start stride size -> p <> start ->
  exists k, shmem_internal_bcast (coll_env params num_pes p) target source len 0 start stride size pSync complete =
    Do (OWait pSync SHMEM_CMP_NE 0) k.
Proof.
  intros Hok Hsize Hlen Hp Hne. destruct Hok as [H1 H2 H3 H4 H5].
  assert (exists k, shmem_internal_bcast_linear (coll_env params num_pes p) target source len 0 start stride size pSync
    complete = Do (OWait pSync SHMEM_CMP_NE 0) k) as Hl.
  { unfold shmem_internal_bcast_linear. rewrite e_pe, (proj2 (Z.eqb_neq size 1)), (proj2 (Z.eqb_neq len 0)) by lia.
    rewrite (proj2 (Z.eqb_neq _ p)) by lia. by eexists. }
  assert (exists k, shmem_internal_bcast_tree (coll_env params num_pes p) target source len 0 start stride size pSync
    complete = Do (OWait pSync SHMEM_CMP_NE 0) k) as Ht.
  { unfold shmem_internal_bcast_tree. rewrite e_pe, e_num, (proj2 (Z.eqb_neq size 1)), (proj2 (Z.eqb_neq len 0)) by lia.
    destruct (coll_tree_is_tree params num_pes H1 H2 start stride size H3 ltac:(lia) H5 0 ltac:(lia)) as [rank HT].
    replace (start + 0 * stride) with start in HT by lia.
    pose proof (tree_parent_ne HT p Hp Hne) as Hpar. cbv beta in Hpar. cbn [orb].
    destruct (coll_tree _ _ _ _ _ _) as [par ch]. simpl in Hpar. unfold bcast_tree_body.
    rewrite (proj2 (Z.eqb_neq par p)) by done. destruct (negb _); by eexists. }
  assert (shmem_internal_bcast_type (coll_env params num_pes p) = select bcast_type_of (p_BCAST_ALGORITHM params)) as Het
    by (unfold coll_env; by destruct (default _ _)).
  unfold shmem_internal_bcast. rewrite Het.
  assert (forall t, select bcast_type_of (p_BCAST_ALGORITHM params) = t -> t = AUTO \/ t = LINEAR \/ t = TREE) as Hsel
    by (intros t <-; unfold select, bcast_type_of; repeat case_match; simplify_eq/=; auto).
  destruct (Hsel _ eq_refl) as [->|[->| ->]]; [|done|done]. by destruct (size <? _).
Qed.

Lemma dtype_int_facts d s w : dtype_int d = Some (s, w) -> 1 <= w /\ 0 < dtype_size d.
Proof. destruct d; simpl; try done; intros [= <- <-]; lia. Qed.

(** An integer datatype that the local reduction supports is combined as the atomics do. *)
Lemma int_reduce_calc fp_calc o d s w : dtype_int d = Some (s, w) -> reduce_calc fp_calc o d <> None ->
  reduce_calc fp_calc o d = Some (int_calc s w o).
Proof. unfold reduce_calc. destruct d; simpl; try done; intros [= <- <-] Hne; repeat case_match; done. Qed.

Section op_to_all.
Context (fp_calc : shm_internal_op_t -> shm_internal_datatype_t -> Z -> Z -> Z).
Context (params : coll_params) (num_pes start stride size pSync target source count : Z).
Context (o : shm_internal_op_t) (d : shm_internal_datatype_t) (s : bool) (w : Z).
Context (Hok : active_set_ok params num_pes start stride size) (Hdt : dtype_int d = Some (s, w)).
Let M := active_set start stride size.
Let e := coll_env params num_pes.
Let dsz := dtype_size d.
Let len := count * dsz.
Let psync_size := SHMEM_REDUCE_SYNC_SIZE * SIZEOF_LONG.
Context (Htp : target + len <= pSync \/ pSync + psync_size <= target).
Context (Hsp : source + len <= pSync \/ pSync + psync_size <= source).
Context (m0 : Z -> lmem).
Context (H0 : forall p i, p ∈ M -> 0 <= i < SHMEM_REDUCE_SYNC_SIZE -> m0 p (pSync + i * SIZEOF_LONG) = SHMEM_SYNC_VALUE).
Context (Hin : forall p i, p ∈ M -> 0 <= i < count -> in_range s w (m0 p (source + i * dsz))).

(** The combination of the contributions of all members to one element. *)
Definition reduced (off : Z) : Z := combine (int_calc s w o) (fun p => m0 p (source + off)) M.

Section nonempty.
Context (Hsize : 2 <= size) (Hcount : 0 < count).

Lemma len_pos : 0 < len.
Proof. pose proof (dtype_int_facts _ _ _ Hdt). unfold len, dsz. nia. Qed.

Lemma elements_in off : off ∈ elements count dsz -> 0 <= off < len.
Proof.
  intros (i & Hi & ->)%elem_of_elements. pose proof (dtype_int_facts _ _ _ Hdt). unfold len. fold dsz in H. nia.
Qed.

Lemma first_member : start ∈ M.
Proof. apply elem_of_active_set. exists 0. split; [destruct Hok; lia|lia]. Qed.

Lemma second_member : start + stride ∈ M /\ start + stride <> start.
Proof. destruct Hok. split; [apply elem_of_active_set; exists 1; lia|lia]. Qed.

(** The reduction to the first member over a tree, then the broadcast. *)
Lemma any_tree_reduce parent children rank ready body :
  Tree M start parent children rank ->
  ready = pSync \/ ready = pSync + SIZEOF_LONG ->
  (ready = pSync -> forall p, p ∈ M -> p <> start -> children p = []) ->
  (forall p, p ∈ M -> body p =
    (seqp (omap id (gather_slots start parent children target source len ready pSync (elements count dsz) (int_calc s w o) p)) ;;
     shmem_internal_bcast (e p) target target len 0 start stride size (pSync + 2 * SIZEOF_LONG) false)) ->
  reduce_spec true None M start target len pSync (elements count dsz) reduced m0 body (72 * Z.to_nat size).
Proof.
  intros HT Hready Hflat Hbody. destruct Hok as [K1 K2 K3 K4 K5]. pose proof len_pos as Hlen.
  destruct (dtype_int_facts _ _ _ Hdt) as [Hw Hdsz]. fold dsz in Hdsz.
  pose proof (NoDup_active_set start stride size K3) as HM. fold M in HM. destruct second_member as [H2 H2'].
  assert (length (children start) <> 0%nat) as Hr
    by (intros E%nil_length_inv; by apply (tree_root_child _ _ _ _ _ HT (start + stride))).
  assert (length M = Z.to_nat size) as HlM by apply length_active_set.
  assert (forall p, p ∈ M -> Z.of_nat (length (children p)) < 2 ^ 63) as Hbig.
  { intros p Hp. pose proof (tree_degree _ _ _ _ _ HT p HM Hp). lia. }
  assert (forall p, p ∈ M -> p <> start -> length (children p) <> 0%nat -> ready <> pSync) as Hwords.
  { intros p Hp Hne Hn E. by rewrite (Hflat E p Hp Hne) in Hn. }
  unfold psync_size, SIZEOF_LONG, SHMEM_REDUCE_SYNC_SIZE in *.
  pose proof (gather_correct M start parent children rank HT HM target source len ready pSync (elements count dsz) Hlen
    elements_in (NoDup_elements count dsz Hdsz) ltac:(lia) ltac:(lia) ltac:(lia) ltac:(lia) Hwords Hbig Hr (int_calc s w o)
    (in_range s w) ltac:(intros; by apply store_width_in_range) ltac:(intros; by apply int_calc_assoc)
    ltac:(intros; apply int_calc_comm) m0) as Hga.
  specialize (Hga ltac:(intros p off Hp (i & Hi & ->)%elem_of_elements; by apply Hin)
    (fun p => seqp (omap id (gather_slots start parent children target source len ready pSync (elements count dsz) (int_calc s w o) p)))
    ltac:(done)).
  specialize (Hga ltac:(intros p Hp; split; [|destruct Hready as [->| ->]];
    [pose proof (H0 p 0 Hp ltac:(lia)) as E|pose proof (H0 p 0 Hp ltac:(lia)) as E|pose proof (H0 p 1 Hp ltac:(lia)) as E];
    simpl in E; rewrite ?Z.add_0_r in E; exact E)).
  pose proof (gather_then_bcast M start target len pSync (elements count dsz) reduced m0 first_member elements_in
    ltac:(unfold SIZEOF_LONG, SHMEM_REDUCE_SYNC_SIZE; lia) H0 ready Hready _
    (fun p => shmem_internal_bcast (e p) target target len 0 start stride size (pSync + 2 * 8) false)
    _ (30 * Z.to_nat size) (bcast_children params num_pes start stride size 0) Hga) as Hres.
  assert (coll_job M m0 body = coll_job M m0 (fun p => seqp (omap id (gather_slots start parent children target source len
    ready pSync (elements count dsz) (int_calc s w o) p)) ;;
    shmem_internal_bcast (e p) target target len 0 start stride size (pSync + 2 * 8) false)) as E.
  { unfold coll_job. f_equal. extensionality p. case_decide; [by apply Hbody|done]. }
  destruct Hres as [R1 R2 R3 R4 R5 R6].
  - intros m1 Hz. pose proof (bcast_delivers params num_pes start stride size 0 (pSync + 2 * 8) target target len false m1
      ltac:(by split) ltac:(lia) ltac:(lia) ltac:(lia) ltac:(lia) Hz) as Hb.
    by replace (start + 0 * stride) with start in Hb by lia.
  - intros p Hp Hne. apply bcast_gate; [by split|done|done|done|done].
  - split; rewrite ?E; try done. destruct R1 as [Rb Rp]. split; [|done]. intros n w' Hn. specialize (Rb n w' Hn).
    pose proof (tree_children_count _ _ _ _ _ HT HM) as Hc. rewrite <- sum_length_bind in Hc.
    assert (sum_list (map (fun p => 13 + length (children p))%nat M) =
      13 * length M + sum_list (map (fun p => length (children p)) M))%nat as E13.
    { clear. induction M as [|a l IH]; simpl in *; lia. }
    lia.
Qed.

Lemma atomicv_ops base pe : shmem_internal_atomicv target base len pe (atomic_calc fp_calc o d) dsz =
  seqp [OAtomic pe target (int_calc s w o) (Pending base (elements count dsz))].
Proof.
  pose proof (dtype_int_facts _ _ _ Hdt) as [_ Hd]. unfold shmem_internal_atomicv, atomic_calc. rewrite Hdt.
  unfold len, elements. rewrite Z.div_mul by (fold dsz in Hd; lia). done.
Qed.

Lemma reduce_linear_correct :
  reduce_spec true None M start target len pSync (elements count dsz) reduced m0
    (fun p => shmem_internal_op_to_all_linear fp_calc (e p) target source count dsz start stride size pSync o d)
    (72 * Z.to_nat size).
Proof.
  pose proof Hok as [K1 K2 K3 K4 K5]. pose proof len_pos as Hlen.
  apply (any_tree_reduce (fun _ => start) (star_children start stride size) (fun pe => if decide (pe = start) then 0 else 1) pSync).
  - apply star_tree; lia.
  - by left.
  - intros _ p _ Hne. unfold star_children. by rewrite decide_False.
  - intros p Hp. unfold shmem_internal_op_to_all_linear. rewrite (proj2 (Z.eqb_neq count 0)) by lia.
    unfold e at 1 2 3 4 5. rewrite e_pe. fold len. rewrite atomicv_ops. f_equal.
    rewrite omap_gather. unfold gbuf, leads, follower, clear_psync.
    unfold shmem_internal_put_nb. rewrite (proj2 (Z.eqb_neq len 0)) by lia. rewrite (Z.eqb_sym start p).
    pose proof (length_star start stride size) as Hls. unfold star_children in *.
    destruct (Z.eqb_spec p start) as [->|Hne].
    + rewrite (bool_decide_eq_true_2 (start = start)), !decide_True by done. rewrite decide_True in Hls by done.
      rewrite Hls, (proj2 (Nat.eqb_neq _ 0)), Z2Nat.id by lia. straighten.
    + rewrite (bool_decide_eq_false_2 (p = start)), !(decide_False (P := p = start)) by done. by straighten.
Qed.

Lemma reduce_tree_correct :
  reduce_spec true None M start target len pSync (elements count dsz) reduced m0
    (fun p => shmem_internal_op_to_all_tree fp_calc (e p) target source count dsz start stride size pSync o d)
    (72 * Z.to_nat size).
Proof.
  pose proof Hok as [K1 K2 K3 K4 K5]. pose proof len_pos as Hlen.
  destruct (coll_tree_is_tree params num_pes K1 K2 start stride size K3 ltac:(lia) K5 0 ltac:(lia)) as [rank HT].
  replace (start + 0 * stride) with start in HT by lia. rewrite andb_true_r in HT. fold M in HT.
  apply (any_tree_reduce _ _ rank (pSync + SIZEOF_LONG) _ HT); [by right|unfold SIZEOF_LONG; lia|].
  intros p Hp. unfold shmem_internal_op_to_all_tree. unfold e. rewrite e_pe, e_num.
  rewrite (proj2 (Z.eqb_neq size 1)), (proj2 (Z.eqb_neq count 0)) by lia. fold len.
  rewrite omap_gather. unfold gbuf, leads, follower, clear_psync.
  assert (p <> start -> (coll_tree (coll_env params num_pes p) (size =? num_pes) start stride size 0).1 =? p = false) as Hpar
    by (intros Hne; apply Z.eqb_neq; by apply (tree_parent_ne HT)).
  assert (p = start -> (coll_tree (coll_env params num_pes p) (size =? num_pes) start stride size 0).1 =? p = true) as Hrt
    by (intros ->; apply Z.eqb_eq, (tree_root_parent (Tree:=HT))).
  unfold e. destruct (coll_tree _ _ _ _ _ _) as [par ch]. cbn [fst snd] in *.
  unfold shmem_internal_put_nb. rewrite (proj2 (Z.eqb_neq len 0)), atomicv_ops by lia.
  rewrite <- pbind_assoc. f_equal.
  destruct (decide (p = start)) as [Hr|Hr].
  - rewrite (Hrt Hr), (bool_decide_eq_true_2 (p = start)) by done.
    destruct (decide (length ch = 0%nat)) as [Hch|Hch].
    + apply nil_length_inv in Hch as ->. by straighten.
    + rewrite (proj2 (Z.eqb_neq (Z.of_nat _) 0)), (proj2 (Nat.eqb_neq (length ch) 0)) by lia.
      straighten. cbn [negb app]. by rewrite flat_map_singleton, !app_nil_r.
  - rewrite (Hpar Hr), (bool_decide_eq_false_2 (p = start)) by done.
    destruct (decide (length ch = 0%nat)) as [Hch|Hch].
    + apply nil_length_inv in Hch as ->. by straighten.
    + rewrite (proj2 (Z.eqb_neq (Z.of_nat _) 0)), (proj2 (Nat.eqb_neq (length ch) 0)) by lia.
      straighten. cbn [negb app]. by rewrite flat_map_singleton, <- !app_assoc.
Qed.
End nonempty.

(** No element to reduce. *)
Lemma skip_reduce root body offs steps : (forall p, p ∈ M -> body p = skip) -> offs = [] ->
  reduce_spec true None M root target len pSync offs reduced m0 body steps.
Proof.
  intros Hb ->. assert (forall w', rtc step (coll_job M m0 body) w' -> w' = coll_job M m0 body) as Hw
    by (intros w'; by apply skip_job_steps).
  split.
  - split.
    + intros n w' Hn. destruct n as [|n]; [lia|]. inversion Hn as [|? ? w1 ? Hs]; subst. by apply skip_no_step in Hs.
    + intros w' Hr. left. rewrite (Hw w' Hr). intros p. unfold returned. simpl. case_decide; [by apply Hb|done].
  - by intros w' p off _ _ _ ?%elem_of_nil.
  - intros _ w' p m Hr _ _ Hm. rewrite (Hw w' Hr) in Hm. by apply elem_of_nil in Hm.
  - intros w' p i Hr Hp _ Hi. rewrite (Hw w' Hr). by apply H0.
  - intros w' p a Hr _ _. by rewrite (Hw w' Hr).
  - intros w' m Hr _ Hm. rewrite (Hw w' Hr) in Hm. by apply elem_of_nil in Hm.
Qed.

Lemma elements_bound off : 0 <= count -> off ∈ elements count dsz -> 0 <= off < len.
Proof.
  intros Hc (i & Hi & ->)%elem_of_elements. pose proof (dtype_int_facts _ _ _ Hdt) as [_ Hd]. fold dsz in Hd.
  unfold len. nia.
Qed.

(** The broadcast of a single member. *)
Lemma bcast_one p ps : size = 1 ->
  shmem_internal_bcast (e p) target target len 0 start stride size ps false = skip.
Proof.
  intros ->. unfold shmem_internal_bcast, shmem_internal_bcast_linear, shmem_internal_bcast_tree.
  assert (shmem_internal_bcast_type (e p) = select bcast_type_of (p_BCAST_ALGORITHM params)) as ->
    by (unfold e, coll_env; by destruct (default _ _)).
  unfold select, bcast_type_of. by repeat case_match.
Qed.

Lemma reduce_linear : 0 <= count ->
  reduce_spec true None M start target len pSync (elements count dsz) reduced m0
    (fun p => shmem_internal_op_to_all_linear fp_calc (e p) target source count dsz start stride size pSync o d)
    (72 * Z.to_nat size).
Proof.
  intros Hc. pose proof Hok as [K1 K2 K3 K4 K5]. destruct (decide (count = 0)) as [Hz|Hz].
  { apply skip_reduce; [|by rewrite Hz]. intros p _. unfold shmem_internal_op_to_all_linear. by rewrite Hz. }
  destruct (decide (size = 1)) as [Hs|Hs]; [|apply reduce_linear_correct; lia].
  pose proof (dtype_int_facts _ _ _ Hdt) as [_ Hd]. fold dsz in Hd.
  apply (reduce_spec_mono true true _ _ _ _ _ _ _ _ _ _ 18); [done|lia|]. unfold reduced, M, active_set. rewrite Hs. simpl.
  assert (start ∈ M) as Hm by (apply elem_of_active_set; exists 0; lia).
  apply alone_linear; [intros off; by apply elements_bound|exact Htp|by intros i; apply H0|].
  unfold shmem_internal_op_to_all_linear. rewrite (proj2 (Z.eqb_neq count 0)) by lia.
  rewrite <- Hs, bcast_one, pbind_skip by done. unfold e. rewrite e_pe, Z.eqb_refl, Hs. fold len. unfold clear_psync, shmem_internal_put_nb.
  rewrite (proj2 (Z.eqb_neq len 0)) by (unfold len; nia). by straighten.
Qed.

Lemma reduce_tree : 0 <= count ->
  reduce_spec true None M start target len pSync (elements count dsz) reduced m0
    (fun p => shmem_internal_op_to_all_tree fp_calc (e p) target source count dsz start stride size pSync o d)
    (72 * Z.to_nat size).
Proof.
  intros Hc. pose proof Hok as [K1 K2 K3 K4 K5]. pose proof (dtype_int_facts _ _ _ Hdt) as [_ Hd]. fold dsz in Hd.
  destruct (decide (size = 1)) as [Hs|Hs].
  - apply (reduce_spec_mono true true _ _ _ _ _ _ _ _ _ _ 3); [done|lia|]. unfold reduced, M, active_set. rewrite Hs. simpl.
    assert (start ∈ M) as Hm by (apply elem_of_active_set; exists 0; lia).
    apply alone_memcpy; [intros off; by apply elements_bound|exact Htp|by intros i; apply H0|].
    unfold shmem_internal_op_to_all_tree. simpl. unfold len. by rewrite Z.mul_comm.
  - destruct (decide (count = 0)) as [Hz|Hz]; [|apply reduce_tree_correct; lia].
    apply skip_reduce; [|by rewrite Hz]. intros p _. unfold shmem_internal_op_to_all_tree.
    by rewrite Hz, (proj2 (Z.eqb_neq size 1)).
Qed.
End op_to_all.
