(* ===== verification/Rings.v ===== *)
(** * The ring collectives

    The ring of [Ring] as [shmem_internal_fcollect_ring] and
    [shmem_internal_op_to_all_ring] use it: the chunks are the contributions of the
    members in the first, the pieces of the array that each member in turn combines in
    the second. *)

From Stdlib Require Import String.
From S2P Require Import Prelude Machine Straight Slots Internal ReduceOp Comm Tree CollInit CollSync Barriers Bcast Reduce Collect Schedule Broadcast Flight Gather AllReduce Ring.
Local Open Scope Z_scope.
Local Open Scope prog_scope.

(** The rank of a member, as the collectives compute it. *)
Lemma coll_rank start stride n p : 1 <= stride -> p ∈ active_set start stride n ->
  cdiv (p - start) stride = rank start stride p.
Proof.
  intros Hst Hp. destruct (member_at start stride n Hst p Hp) as [Hr E]. unfold rank. apply cdiv_nonneg; [|lia].
  rewrite E. nia.
Qed.

Lemma right_peer start stride n p : 1 <= stride -> 1 <= n -> p ∈ active_set start stride n ->
  start + cmod (rank start stride p + 1) n * stride = right start stride n p.
Proof.
  intros Hst Hn Hp. destruct (member_at start stride n Hst p Hp) as [Hr _]. unfold right, peer. by rewrite cmod_nonneg by lia.
Qed.

(** The member of rank [r]. *)
Lemma member_of start stride n r : 0 <= r < n -> start + r * stride ∈ active_set start stride n.
Proof. intros Hr. apply elem_of_active_set. by exists r. Qed.

Lemma upto_seq lo (m : nat) : upto lo (lo + Z.of_nat m) = map (fun k => lo + Z.of_nat k) (seq 0 m).
Proof. unfold upto, zrange. by replace (Z.to_nat (lo + Z.of_nat m - lo)) with m by lia. Qed.

Lemma for_seqp {I} (l : list I) body ops : (forall i, i ∈ l -> body i = seqp (ops i)) ->
  for_ l body = seqp (flat_map ops l).
Proof.
  induction l as [|i l IH]; intros Hb; [done|]. simpl. rewrite Hb by apply list_elem_of_here.
  rewrite IH by (intros j Hj; apply Hb; by apply list_elem_of_further). apply seqp_app.
Qed.

(** ** Collecting equal contributions *)

Section fcollect.
Context (params : coll_params) (num_pes start stride n pSync target source len : Z).
Context (Hok : active_set_ok params num_pes start stride n) (Hn : 2 <= n) (Hlen : 0 < len).
Let M := active_set start stride n.
Let e := coll_env params num_pes.
Context (Htp : ~ (target <= pSync < target + n * len)) (Hsp : ~ (source <= pSync < source + len)).
Context (Hts : source + len <= target \/ target + n * len <= source).
Context (m0 : Z -> lmem) (H0 : forall p, p ∈ M -> m0 p pSync = 0).

Let H := Z.to_nat (n - 1).
Abbreviation disp c := (c * len).
Definition fcollect_value (c a : Z) : Z := m0 (start + c * stride) (source + a).

Lemma fcollect_ring_ops p : p ∈ M -> shmem_internal_fcollect_ring (e p) target source len start stride n pSync =
  seqp (omap id (ring_slots start stride n H H pSync pSync target source (fun c => disp c) (fun _ => len) (fun _ => 0)
    false true true (fun _ _ => None) p)).
Proof.
  intros Hp. destruct Hok as [K1 K2 K3 K4 K5]. destruct (member_at start stride n K3 p Hp) as [Hr _].
  rewrite omap_ring by lia. rewrite Nat.ltb_irrefl, app_nil_r. unfold shmem_internal_fcollect_ring, e. rewrite e_pe.
  rewrite (proj2 (Z.eqb_neq len 0)), (coll_rank start stride n p K3 Hp), (right_peer start stride n p K3 ltac:(lia) Hp) by lia.
  replace (upto 1 n) with (map (fun k => 1 + Z.of_nat k) (seq 0 H)) by (rewrite <- upto_seq; f_equal; unfold H; lia).
  rewrite for_map.
  match goal with |- context [for_ (seq 0 H) ?f] =>
    assert (for_ (seq 0 H) f = seqp (flat_map (step_ops start stride n H H pSync pSync target source (fun c => disp c)
      (fun _ => len) (fun _ => 0) false true true (fun _ _ => None) p) (seq 0 H))) as -> end.
  - apply for_seqp. intros h Hh%elem_of_seq. unfold shmem_internal_put_nb, step_ops, step_slots, slot, word, number, chunk_out, put_from.
    rewrite (proj2 (Z.eqb_neq len 0)), (proj2 (Nat.ltb_lt h H)), andb_false_r by lia. cbn [negb].
    rewrite cmod_nonneg by lia.
    replace ((rank start stride p + 1 - (1 + Z.of_nat h) + n) mod n) with ((rank start stride p - Z.of_nat h) mod n)
      by (rewrite <- (Z.mod_add (rank start stride p - Z.of_nat h) 1 n) by lia; f_equal; lia).
    replace (1 + Z.of_nat h) with (Z.of_nat (S h)) by lia. simpl. done.
  - unfold clear_psync, memcpy. straighten. unfold own_copy, reset_ops, word.
    rewrite (proj2 (Nat.ltb_lt (H - 1) H)), Z.add_0_r by (unfold H; lia). done.
Qed.

Lemma fcollect_ring_delivers :
  ring_spec M n target (fun c => disp c) (fun _ => len) pSync pSync (fun b => b = pSync) true fcollect_value m0
    (fun p => shmem_internal_fcollect_ring (e p) target source len start stride n pSync) (24 * Z.to_nat n * Z.to_nat n).
Proof.
  destruct Hok as [K1 K2 K3 K4 K5].
  apply (ring_correct start stride n K3 ltac:(lia) H H pSync pSync ltac:(unfold H; lia) ltac:(lia) ltac:(unfold H; lia)
    target source (fun c => disp c) (fun _ => len) (fun _ => 0)) with (nbi := false) (copies := true)
    (act := fun _ _ => None) (V := fun c _ a => fcollect_value c a).
  - intros c c' a a' Hc Hc' Ha Ha' E. assert (c = c') by nia. split; lia.
  - intros c b Hc (a & Ha & ->). split; nia.
  - intros c a Hc Ha. unfold outside. split; [lia|]. split; [lia|]. intros c' Hc' (a' & Ha' & E). nia.
  - intros p a Hp Ha. unfold fcollect_value. destruct (member_at start stride n K3 p Hp) as [_ <-]. by rewrite Z.add_0_r.
  - done.
  - done.
  - done.
  - unfold H. lia.
  - done.
  - unfold H. split; [lia|by right].
  - intros b ->. exists 0%nat. split; [unfold H; lia|]. unfold word. by rewrite (proj2 (Nat.ltb_lt 0 H)) by (unfold H; lia).
  - unfold H. nia.
  - apply fcollect_ring_ops.
  - intros p h Hp _. unfold word. destruct (h <? H)%nat; by apply H0.
  - intros p c a _ _ _. unfold final. by repeat case_match.
Qed.
End fcollect.

(** ** The pieces of an array *)

Section pieces.
Context (n count dsz : Z) (Hn : 1 <= n) (Hcount : 0 <= count) (Hdsz : 1 <= dsz).
Definition piece_disp (c : Z) : Z := chunk_disp c count n dsz.
Definition piece_bytes (c : Z) : Z := chunk_count c count n * dsz.

Lemma piece_count c : 0 <= c -> 0 <= chunk_count c count n <= count.
Proof.
  intros Hc. unfold chunk_count, chunk_extra. rewrite cdiv_nonneg, cmod_nonneg by lia.
  pose proof (Z.div_mod count n ltac:(lia)). pose proof (Z.mod_pos_bound count n ltac:(lia)).
  pose proof (Z.div_pos count n ltac:(lia) ltac:(lia)). destruct (Z.ltb_spec c (count mod n)); nia.
Qed.

Lemma piece_bytes_pos c : 0 <= c -> 0 <= piece_bytes c.
Proof. intros Hc. unfold piece_bytes. pose proof (piece_count c Hc). nia. Qed.

Lemma piece_next c : 0 <= c < n -> piece_disp (c + 1) = piece_disp c + piece_bytes c.
Proof. intros Hc. by apply chunk_disp_next. Qed.

Lemma piece_ends : piece_disp 0 = 0 /\ piece_disp n = count * dsz.
Proof.
  pose proof (Z.mod_pos_bound count n ltac:(lia)) as Hm. unfold piece_disp. rewrite !chunk_disp_alt by lia. split; [lia|].
  rewrite Z.min_r by lia. pose proof (Z.div_mod count n ltac:(lia)). f_equal. lia.
Qed.

Lemma piece_order c c' : 0 <= c -> c < c' -> c' <= n -> piece_disp c + piece_bytes c <= piece_disp c'.
Proof.
  intros Hc Hlt Hc'. assert (forall k : nat, c + 1 + Z.of_nat k <= n -> piece_disp (c + 1) <= piece_disp (c + 1 + Z.of_nat k)) as H.
  { induction k as [|k IH]; intros Hk; [by rewrite Z.add_0_r|].
    replace (c + 1 + Z.of_nat (S k)) with (c + 1 + Z.of_nat k + 1) by lia. rewrite (piece_next (c + 1 + Z.of_nat k)) by lia.
    pose proof (piece_bytes_pos (c + 1 + Z.of_nat k) ltac:(lia)). specialize (IH ltac:(lia)). lia. }
  rewrite <- piece_next by lia. specialize (H (Z.to_nat (c' - (c + 1))) ltac:(lia)).
  by replace (c + 1 + Z.of_nat (Z.to_nat (c' - (c + 1)))) with c' in H by lia.
Qed.

Lemma piece_bound c a : 0 <= c < n -> 0 <= a < piece_bytes c -> 0 <= piece_disp c + a < count * dsz.
Proof.
  intros Hc Ha. destruct piece_ends as [E0 En]. pose proof (piece_order c n ltac:(lia) ltac:(lia) ltac:(lia)).
  assert (0 <= piece_disp c); [|lia]. destruct (decide (c = 0)) as [->|]; [lia|].
  pose proof (piece_order 0 c ltac:(lia) ltac:(lia) ltac:(lia)). pose proof (piece_bytes_pos 0 ltac:(lia)). lia.
Qed.

Lemma piece_apart c c' a a' : 0 <= c < n -> 0 <= c' < n -> 0 <= a < piece_bytes c -> 0 <= a' < piece_bytes c' ->
  piece_disp c + a = piece_disp c' + a' -> c = c' /\ a = a'.
Proof.
  intros Hc Hc' Ha Ha' E. destruct (Z.lt_trichotomy c c') as [Hlt|[->|Hlt]].
  - pose proof (piece_order c c' ltac:(lia) Hlt ltac:(lia)). lia.
  - split; [done|lia].
  - pose proof (piece_order c' c ltac:(lia) Hlt ltac:(lia)). lia.
Qed.

(** Every element is in one of the pieces. *)
Lemma piece_of off : 0 <= off < count * dsz -> exists c, 0 <= c < n /\ 0 <= off - piece_disp c < piece_bytes c.
Proof.
  intros Hoff. destruct piece_ends as [E0 En].
  assert (forall k : nat, Z.of_nat k <= n -> off < piece_disp (Z.of_nat k) ->
    exists c, 0 <= c < n /\ 0 <= off - piece_disp c < piece_bytes c) as H.
  { induction k as [|k IH]; intros Hk Hlt; [change (Z.of_nat 0) with 0 in Hlt; lia|].
    destruct (decide (off < piece_disp (Z.of_nat k))) as [Hlt'|Hge]; [apply IH; lia|].
    exists (Z.of_nat k). split; [lia|]. replace (Z.of_nat (S k)) with (Z.of_nat k + 1) in Hlt by lia.
    rewrite piece_next in Hlt by lia. lia. }
  apply (H (Z.to_nat n)); rewrite ?Z2Nat.id by lia; lia.
Qed.

Lemma piece_element c i : 0 <= c <= n -> (i * dsz - piece_disp c) mod dsz = 0.
Proof.
  intros Hc. unfold piece_disp. rewrite chunk_disp_alt by lia. rewrite <- Z.mul_sub_distr_r. apply Z.mod_mul. lia.
Qed.
End pieces.

(** ** Reducing around the ring *)

Section op_to_all_ring.
Context (fp_calc : shm_internal_op_t -> shm_internal_datatype_t -> Z -> Z -> Z).
Context (params : coll_params) (num_pes start stride n pSync target source count : Z).
Context (o : shm_internal_op_t) (d : shm_internal_datatype_t) (s : bool) (w : Z).
Context (Hok : active_set_ok params num_pes start stride n) (Hdt : dtype_int d = Some (s, w)).
Context (Hcalc : reduce_calc fp_calc o d <> None).
Let M := active_set start stride n.
Let e := coll_env params num_pes.
Let dsz := dtype_size d.
Let len := count * dsz.
Let psync_size := SHMEM_REDUCE_SYNC_SIZE * SIZEOF_LONG.
Context (Htp : target + len <= pSync \/ pSync + psync_size <= target).
Context (Hsp : source + len <= pSync \/ pSync + psync_size <= source).
Context (Hts : source + len <= target \/ target + len <= source).
Context (m0 : Z -> lmem).
Context (H0 : forall p i, p ∈ M -> 0 <= i < SHMEM_REDUCE_SYNC_SIZE -> m0 p (pSync + i * SIZEOF_LONG) = SHMEM_SYNC_VALUE).
Context (Hin : forall p i, p ∈ M -> 0 <= i < count -> in_range s w (m0 p (source + i * dsz))).

Section nonempty.
Context (Hn : 2 <= n) (Hcount : 0 < count < 2 ^ 31).
Let H1 := Z.to_nat (n - 1).
Abbreviation disp := (piece_disp n count dsz).
Abbreviation bytes := (piece_bytes n count dsz).
Abbreviation rk := (rank start stride).

(** The members whose contributions to chunk [c] are combined at hop [h]. *)
Definition contributors (c : Z) (h : nat) : list Z :=
  map (fun k => start + ((c + Z.of_nat k) mod n) * stride) (seq 0 (S h)).
Definition piece_value (c : Z) (h : nat) (a : Z) : Z :=
  if a mod dsz =? 0
  then combine (int_calc s w o) (fun p => m0 p (source + disp c + a)) (contributors c (Nat.min h H1))
  else m0 (start + c * stride) (source + disp c + a).
Definition piece_act (p : Z) (h : nat) : option (lmem -> lmem) :=
  if (h <? H1)%nat then
    let c := chunk_in start stride n p h in
    Some (fun m => default m (shmem_internal_reduce_local fp_calc o d (chunk_count c count n)
                                (source + disp c) (target + disp c) m))
  else None.

Lemma contributors_next c h : contributors c (S h) = contributors c h ++ [start + ((c + Z.of_nat (S h)) mod n) * stride].
Proof. unfold contributors. by rewrite (seq_S (S h)), map_app. Qed.

Lemma combine_snoc calc (f : Z -> Z) l p : l <> [] -> combine calc f (l ++ [p]) = calc (combine calc f l) (f p).
Proof. destruct l as [|q l]; [done|]. intros _. simpl. by rewrite map_app, fold_left_app. Qed.

Lemma dsz_pos : 1 <= dsz.
Proof. pose proof (dtype_int_facts _ _ _ Hdt). unfold dsz. lia. Qed.

Lemma in_contributors c h p : p ∈ contributors c h -> p ∈ M.
Proof.
  unfold contributors. intros (k & -> & _)%list_elem_of_fmap. apply member_of, Z.mod_pos_bound. lia.
Qed.

(** After [n - 1] hops everybody has contributed. *)
Lemma contributors_all c : contributors c H1 ≡ₚ M.
Proof.
  apply NoDup_Permutation.
  - apply NoDup_fmap_2_strong; [|apply NoDup_seq]. intros i j Hi%elem_of_seq Hj%elem_of_seq E. destruct Hok as [K1 K2 K3 K4 K5].
    assert ((c + Z.of_nat i) mod n = (c + Z.of_nat j) mod n) as E' by nia.
    pose proof (Z.div_mod (c + Z.of_nat i) n ltac:(lia)). pose proof (Z.div_mod (c + Z.of_nat j) n ltac:(lia)).
    rewrite E' in *. set (x := (c + Z.of_nat i) / n) in *. set (y := (c + Z.of_nat j) / n) in *.
    assert (n * (x - y) = Z.of_nat i - Z.of_nat j) by lia. unfold H1 in *. assert (x - y = 0) by nia. lia.
  - destruct Hok. by apply NoDup_active_set.
  - intros p. split; [apply in_contributors|]. intros (i & Hi & ->)%elem_of_active_set. unfold contributors.
    apply list_elem_of_fmap. exists (Z.to_nat ((i - c) mod n)). pose proof (Z.mod_pos_bound (i - c) n ltac:(lia)).
    split; [|apply elem_of_seq; unfold H1; lia]. rewrite Z2Nat.id, Zplus_mod_idemp_r by lia.
    replace (c + (i - c)) with i by lia. by rewrite Z.mod_small.
Qed.

Lemma act_calc p h f m c : piece_act p h = Some f -> c = chunk_in start stride n p h ->
  f m = func_op (int_calc s w o) dsz (source + disp c) (target + disp c) (chunk_count c count n) m.
Proof.
  unfold piece_act. case_match; [|done]. intros [= <-] ->. unfold shmem_internal_reduce_local. rewrite (int_reduce_calc fp_calc o d s w Hdt Hcalc).
  simpl. f_equal. apply wrap_s_id; [lia|]. pose proof (piece_count n count ltac:(lia) ltac:(lia) (chunk_in start stride n p h)
    ltac:(apply Z.mod_pos_bound; lia)).
  change (2 ^ (32 - 1)) with (2 ^ 31). lia.
Qed.

(** What the local reduction does to a cell. *)
Lemma act_cell p h f m b : piece_act p h = Some f -> let c := chunk_in start stride n p h in
  0 <= c < n ->
  f m b = if bool_decide (target + disp c <= b < target + disp c + bytes c /\ (b - (target + disp c)) mod dsz = 0)
          then int_calc s w o (m b) (m (source + disp c + (b - (target + disp c)))) else m b.
Proof.
  intros Hf c Hc. rewrite (act_calc p h f m c Hf eq_refl). pose proof dsz_pos as Hd.
  pose proof (piece_count n count ltac:(lia) ltac:(lia) c ltac:(lia)) as Hcnt. apply func_op_spec; [lia|lia|].
  intros i j Hi Hj _ E.
  pose proof (piece_bound n count dsz ltac:(lia) ltac:(lia) Hd c (i * dsz) Hc ltac:(unfold piece_bytes; nia)) as Bi.
  pose proof (piece_bound n count dsz ltac:(lia) ltac:(lia) Hd c (j * dsz) Hc ltac:(unfold piece_bytes; nia)) as Bj.
  unfold len in Hts. lia.
Qed.

(** The member that takes chunk [c] to hop [S h]. *)
Lemma taker p h : p ∈ M -> start + ((chunk_in start stride n p h + Z.of_nat (S h)) mod n) * stride = p.
Proof.
  intros Hp. destruct Hok as [K1 K2 K3 K4 K5]. destruct (member_at start stride n K3 p Hp) as [Hr E]. unfold chunk_in.
  rewrite Zplus_mod_idemp_l. replace (rk p - 1 - Z.of_nat h + Z.of_nat (S h)) with (rk p) by lia.
  by rewrite Z.mod_small.
Qed.

Lemma act_value p h f m : p ∈ M -> piece_act p h = Some f -> let c := chunk_in start stride n p h in
  (forall a, 0 <= a < bytes c -> m (target + disp c + a) = piece_value c h a) ->
  (forall b, outside n pSync (pSync + SIZEOF_LONG) target disp bytes b -> m b = m0 p b) ->
  (forall c a, 0 <= c < n -> 0 <= a < bytes c -> outside n pSync (pSync + SIZEOF_LONG) target disp bytes (source + disp c + a)) ->
  (forall a, 0 <= a < bytes c -> f m (target + disp c + a) = piece_value c (S h) a) /\
  (forall b, ~ chunk_cell target disp bytes c b -> f m b = m b).
Proof.
  intros Hp Hf c Hm Hout Hsrc. assert (0 <= c < n) as Hc by (apply Z.mod_pos_bound; lia).
  assert (h < H1)%nat as Hh by (unfold piece_act in Hf; case_match eqn:E; [by apply Nat.ltb_lt in E|done]).
  split.
  - intros a Ha. rewrite (act_cell p h f m _ Hf Hc). fold c.
    replace (target + disp c + a - (target + disp c)) with a by lia. rewrite Hm, (Hout _ (Hsrc c a Hc Ha)) by done.
    unfold piece_value. destruct (Z.eqb_spec (a mod dsz) 0) as [Ea|Ea].
    + rewrite bool_decide_eq_true_2 by (split; [lia|done]). rewrite !Nat.min_l by lia.
      rewrite contributors_next, combine_snoc by done. f_equal.
      pose proof (taker p h Hp) as Ht. fold c in Ht. by rewrite Ht.
    + by rewrite bool_decide_eq_false_2 by tauto.
  - intros b Hb. rewrite (act_cell p h f m _ Hf Hc). fold c. rewrite bool_decide_eq_false_2; [done|].
    intros [Hr _]. apply Hb. exists (b - (target + disp c)). lia.
Qed.

Abbreviation op_slots := (ring_slots start stride n (H1 + H1) H1 pSync (pSync + SIZEOF_LONG) target source disp bytes disp
  true false false piece_act).
Abbreviation op_steps := (step_ops start stride n (H1 + H1) H1 pSync (pSync + SIZEOF_LONG) target source disp bytes disp
  true false false piece_act).

(** A step of the reduce-scatter, and one of the all-gather. *)
Lemma scatter_step p h : p ∈ M -> (h < H1)%nat ->
  (shmem_internal_put_nbi (target + chunk_disp (rs_chunk_out (rk p) (Z.of_nat h) n) count n dsz)
     (if Z.of_nat h =? 0 then source + chunk_disp (rs_chunk_out (rk p) (Z.of_nat h) n) count n dsz
      else target + chunk_disp (rs_chunk_out (rk p) (Z.of_nat h) n) count n dsz)
     (chunk_count (rs_chunk_out (rk p) (Z.of_nat h) n) count n * dsz) (right start stride n p) ;;
   shmem_internal_fence ;;
   shmem_internal_atomic pSync 1 (right start stride n p) (long_calc SHM_INTERNAL_SUM) ;;
   SHMEM_WAIT_UNTIL pSync SHMEM_CMP_GE (Z.of_nat h + 1) ;;
   reduce_local fp_calc o d (chunk_count (rs_chunk_in (rk p) (Z.of_nat h) n) count n)
     (source + chunk_disp (rs_chunk_in (rk p) (Z.of_nat h) n) count n dsz)
     (target + chunk_disp (rs_chunk_in (rk p) (Z.of_nat h) n) count n dsz)) =
  seqp (op_steps p h).
Proof.
  intros Hp Hh. destruct Hok as [K1 K2 K3 K4 K5]. destruct (member_at start stride n K3 p Hp) as [Hr _].
  assert (rs_chunk_out (rk p) (Z.of_nat h) n = chunk_out start stride n p h) as Eo.
  { unfold rs_chunk_out, chunk_out. rewrite cmod_nonneg by (unfold H1 in *; lia). rewrite <- (Z.mod_add (rk p - Z.of_nat h) 1 n) by lia. f_equal. lia. }
  assert (rs_chunk_in (rk p) (Z.of_nat h) n = chunk_in start stride n p h) as Ei.
  { unfold rs_chunk_in, chunk_in. rewrite cmod_nonneg by (unfold H1 in *; lia). rewrite <- (Z.mod_add (rk p - 1 - Z.of_nat h) 1 n) by lia. f_equal. lia. }
  rewrite Eo, Ei. unfold step_ops, step_slots, slot, word, number, put_from, piece_act.
  rewrite (proj2 (Nat.ltb_lt h H1)) by done. rewrite andb_true_r. unfold shmem_internal_put_nbi, reduce_local. rewrite (int_reduce_calc fp_calc o d s w Hdt Hcalc).
  replace (Z.of_nat h + 1) with (Z.of_nat (S h)) by lia.
  assert ((Z.of_nat h =? 0) = (h =? 0)%nat) as -> by (destruct (Z.eqb_spec (Z.of_nat h) 0), (Nat.eqb_spec h 0); lia).
  change (chunk_count (chunk_out start stride n p h) count n * dsz) with (bytes (chunk_out start stride n p h)).
  by destruct (Z.eqb_spec (bytes (chunk_out start stride n p h)) 0).
Qed.

Lemma gather_step p k : p ∈ M -> (k < H1)%nat ->
  (shmem_internal_put_nbi (target + chunk_disp (ag_chunk_out (rk p) (Z.of_nat k) n) count n dsz)
     (target + chunk_disp (ag_chunk_out (rk p) (Z.of_nat k) n) count n dsz)
     (chunk_count (ag_chunk_out (rk p) (Z.of_nat k) n) count n * dsz) (right start stride n p) ;;
   shmem_internal_fence ;;
   shmem_internal_atomic (pSync + SIZEOF_LONG) 1 (right start stride n p) (long_calc SHM_INTERNAL_SUM) ;;
   SHMEM_WAIT_UNTIL (pSync + SIZEOF_LONG) SHMEM_CMP_GE (Z.of_nat k + 1)) =
  seqp (op_steps p (H1 + k)).
Proof.
  intros Hp Hk. destruct Hok as [K1 K2 K3 K4 K5]. destruct (member_at start stride n K3 p Hp) as [Hr _].
  assert (ag_chunk_out (rk p) (Z.of_nat k) n = chunk_out start stride n p (H1 + k)) as Eo.
  { unfold ag_chunk_out, chunk_out. rewrite cmod_nonneg by (unfold H1 in *; lia).
    rewrite <- (Z.mod_add (rk p - Z.of_nat (H1 + k)) 2 n) by lia. f_equal. unfold H1. lia. }
  rewrite Eo. unfold step_ops, step_slots, slot, word, number, put_from, piece_act.
  rewrite (proj2 (Nat.ltb_ge (H1 + k) H1)), (proj2 (Nat.eqb_neq (H1 + k) 0)) by (unfold H1 in *; lia). cbn [andb].
  unfold shmem_internal_put_nbi. replace (Z.of_nat k + 1) with (Z.of_nat (S (H1 + k) - H1)) by lia.
  change (chunk_count (chunk_out start stride n p (H1 + k)) count n * dsz) with (bytes (chunk_out start stride n p (H1 + k))).
  by destruct (Z.eqb_spec (bytes (chunk_out start stride n p (H1 + k))) 0).
Qed.

Lemma op_ring_ops tmp p : p ∈ M ->
  shmem_internal_op_to_all_ring fp_calc (e p) tmp target source count dsz start stride n pSync o d =
  seqp (omap id (op_slots p)).
Proof.
  intros Hp. destruct Hok as [K1 K2 K3 K4 K5]. pose proof dsz_pos as Hd.
  rewrite omap_ring by (unfold SIZEOF_LONG, H1; lia). rewrite (proj2 (Nat.ltb_lt H1 (H1 + H1))) by (unfold H1; lia).
  unfold shmem_internal_op_to_all_ring, e. rewrite e_pe.
  rewrite (proj2 (Z.eqb_neq count 0)), (proj2 (Z.eqb_neq n 1)), (proj2 (Z.eqb_neq target source)) by (unfold len in *; nia).
  rewrite (coll_rank start stride n p K3 Hp). unfold ring_peer. rewrite (right_peer start stride n p K3 ltac:(lia) Hp).
  replace (upto 0 (n - 1)) with (map Z.of_nat (seq 0 H1)) by (unfold upto, zrange, H1; by rewrite Z.sub_0_r).
  rewrite !for_map.
  rewrite (for_seqp (seq 0 H1) _ (op_steps p)) by (intros h Hh%elem_of_seq; apply scatter_step; [done|lia]).
  rewrite (for_seqp (seq 0 H1) _ (fun k => op_steps p (H1 + k))) by (intros k Hk%elem_of_seq; apply gather_step; [done|lia]).
  unfold clear_psync. straighten. unfold reset_ops, word.
  rewrite (proj2 (Nat.ltb_lt (H1 - 1) H1)), (proj2 (Nat.ltb_ge (H1 + H1 - 1) H1)) by (unfold H1; lia).
  replace (H1 + H1 - H1)%nat with H1 by lia.
  assert (flat_map (fun k => op_steps p (H1 + k)) (seq 0 H1) = flat_map (op_steps p) (seq H1 H1)) as ->.
  { assert (forall m j, flat_map (fun k => op_steps p (H1 + k)) (seq j m) = flat_map (op_steps p) (seq (H1 + j) m)) as E.
    { induction m as [|m IH]; intros j; [done|]. cbn [seq flat_map]. by rewrite IH, Nat.add_succ_r. }
    rewrite E. by rewrite Nat.add_0_r. }
  simpl. done.
Qed.

Definition piece_total (c a : Z) : Z := piece_value c H1 a.

Lemma piece_value_late c h a : (H1 <= h)%nat -> piece_value c h a = piece_total c a.
Proof. intros Hh. unfold piece_total, piece_value. by rewrite Nat.min_r, Nat.min_id by lia. Qed.

Lemma psync_word i : 0 <= i < SHMEM_REDUCE_SYNC_SIZE -> pSync <= pSync + i * SIZEOF_LONG < pSync + psync_size.
Proof. unfold psync_size, SIZEOF_LONG, SHMEM_REDUCE_SYNC_SIZE. lia. Qed.

Lemma op_ring_spec tmp :
  ring_spec M n target disp bytes pSync (pSync + SIZEOF_LONG) (fun b => b = pSync \/ b = pSync + SIZEOF_LONG) false
    piece_total m0
    (fun p => shmem_internal_op_to_all_ring fp_calc (e p) tmp target source count dsz start stride n pSync o d)
    (48 * Z.to_nat n * Z.to_nat n).
Proof.
  pose proof Hok as [K1 K2 K3 K4 K5]. pose proof dsz_pos as Hd.
  pose proof (psync_word 0 ltac:(unfold SHMEM_REDUCE_SYNC_SIZE; lia)) as W0. rewrite Z.mul_0_l, Z.add_0_r in W0.
  pose proof (psync_word 1 ltac:(unfold SHMEM_REDUCE_SYNC_SIZE; lia)) as W1. rewrite Z.mul_1_l in W1.
  pose proof (fun c a Hc Ha => piece_bound n count dsz ltac:(lia) ltac:(lia) Hd c a Hc Ha) as Hbound. fold len in Hbound.
  assert (forall c a, 0 <= c < n -> 0 <= a < bytes c ->
    outside n pSync (pSync + SIZEOF_LONG) target disp bytes (source + disp c + a)) as Hsrc.
  { intros c a Hc Ha. pose proof (Hbound c a Hc Ha). unfold outside. split; [lia|]. split; [lia|].
    intros c' Hc' (a' & Ha' & E). pose proof (Hbound c' a' Hc' Ha'). lia. }
  apply (ring_correct start stride n K3 ltac:(lia) (H1 + H1) H1 pSync (pSync + SIZEOF_LONG) ltac:(unfold H1; lia)
    ltac:(unfold SIZEOF_LONG; lia) ltac:(unfold H1; lia) target source disp bytes disp) with (nbi := true) (copies := false)
    (act := piece_act) (V := piece_value).
  - by apply piece_apart; lia.
  - intros c b Hc (a & Ha & ->). pose proof (Hbound c a Hc Ha). lia.
  - exact Hsrc.
  - intros p a Hp Ha. destruct (member_at start stride n K3 p Hp) as [Hr E]. unfold piece_value. rewrite Nat.min_0_l, <- E.
    case_match; [|done]. unfold contributors. simpl. rewrite Z.add_0_r, Z.mod_small by done. by rewrite <- E.
  - intros p h f m Hp _ Hf Hm Hout. by apply (act_value p h f m Hp Hf Hm Hout).
  - intros p h a Hp _. unfold piece_act. destruct (Nat.ltb_spec h H1); [done|]. intros _. by rewrite !piece_value_late by lia.
  - intros p h f. unfold piece_act. destruct (Nat.ltb_spec h H1); [|done]. intros _. unfold H1 in *. lia.
  - done.
  - done.
  - unfold H1. lia.
  - intros b [->| ->]; [exists 0%nat|exists H1]; unfold word.
    + rewrite (proj2 (Nat.ltb_lt 0 H1)) by (unfold H1; lia). split; [unfold H1; lia|done].
    + rewrite Nat.ltb_irrefl. split; [unfold H1; lia|done].
  - unfold H1. nia.
  - apply op_ring_ops.
  - intros p h Hp _. unfold word. destruct (h <? H1)%nat.
    + pose proof (H0 p 0 Hp ltac:(unfold SHMEM_REDUCE_SYNC_SIZE; lia)) as E0. by rewrite Z.mul_0_l, Z.add_0_r in E0.
    + pose proof (H0 p 1 Hp ltac:(unfold SHMEM_REDUCE_SYNC_SIZE; lia)) as E1. by rewrite Z.mul_1_l in E1.
  - intros p c a Hp Hc Ha. assert (hop start stride n p c < Z.to_nat n)%nat
      by (unfold hop; pose proof (Z.mod_pos_bound (rk p - 1 - c) n ltac:(lia)); lia). unfold final.
    destruct (Nat.ltb_spec (hop start stride n p c + Z.to_nat n) (H1 + H1)); [apply piece_value_late; unfold H1; lia|].
    destruct (Nat.ltb_spec (hop start stride n p c) (H1 + H1)); [apply piece_value_late|]; unfold H1 in *; lia.
Qed.

Lemma total_reduced c off : 0 <= c < n -> off ∈ elements count dsz -> 0 <= off - disp c < bytes c ->
  piece_total c (off - disp c) = reduced start stride n source o s w m0 off.
Proof.
  intros Hc (i & Hi & ->)%elem_of_elements Ha. pose proof dsz_pos as Hd. unfold piece_total, piece_value, reduced.
  rewrite (piece_element n count dsz ltac:(lia) ltac:(lia) Hd c i) by lia. rewrite Z.eqb_refl, Nat.min_id.
  replace (source + disp c + (i * dsz - disp c)) with (source + i * dsz) by lia.
  destruct (dtype_int_facts _ _ _ Hdt). apply (combine_perm (int_calc s w o) (in_range s w)).
  - intros. by apply store_width_in_range.
  - intros. by apply int_calc_assoc.
  - intros. apply int_calc_comm.
  - apply contributors_all.
  - apply list.Forall_forall. intros p Hp%in_contributors. by apply Hin.
Qed.

Lemma reduce_ring_correct tmp :
  reduce_spec false None M start target len pSync (elements count dsz) (reduced start stride n source o s w m0) m0
    (fun p => shmem_internal_op_to_all_ring fp_calc (e p) tmp target source count dsz start stride n pSync o d)
    (48 * Z.to_nat n * Z.to_nat n).
Proof.
  destruct (op_ring_spec tmp) as [R1 R2 R3 _ R5 R6]. pose proof dsz_pos as Hd.
  pose proof (fun c a Hc Ha => piece_bound n count dsz ltac:(lia) ltac:(lia) Hd c a Hc Ha) as Hbound. fold len in Hbound.
  split.
  - exact R1.
  - intros w' p off Hw Hp Hr Hoff.
    assert (0 <= off < count * dsz) as Hb by (destruct (proj1 (elem_of_elements _ _ _) Hoff) as (i & Hi & ->); nia).
    destruct (piece_of n count dsz ltac:(lia) ltac:(lia) Hd off Hb) as (c & Hc & Ha). rewrite <- (total_reduced c off Hc Hoff Ha).
    rewrite <- (R2 w' p c _ Hw Hp Hr Hc Ha). f_equal. lia.
  - done.
  - intros w' p i Hw Hp Hr Hi. destruct (decide (i = 0 \/ i = 1)) as [Hu|Hu].
    + apply R3; [done..|]. destruct Hu as [->| ->]; [left|right]; lia.
    + rewrite <- (H0 p i Hp Hi). apply R5; [done|right]. pose proof (psync_word i Hi).
      split; [unfold SIZEOF_LONG; lia|]. split; [unfold SIZEOF_LONG; lia|]. intros c Hc (a & Ha & E).
      pose proof (Hbound c a Hc Ha). lia.
  - intros w' p b Hw [Hp|[Ht Hs]] _; apply R5; [done|by left|done|right].
    unfold psync_size, SIZEOF_LONG, SHMEM_REDUCE_SYNC_SIZE in *. split; [lia|]. split; [lia|].
    intros c Hc (a & Ha & ->). pose proof (Hbound c a Hc Ha). lia.
  - intros w' m Hw Hr Hm. rewrite (R6 w' Hw Hr) in Hm. by apply elem_of_nil in Hm.
Qed.
End nonempty.

Lemma reduce_ring tmp : 0 <= count < 2 ^ 31 ->
  reduce_spec false None M start target len pSync (elements count dsz) (reduced start stride n source o s w m0) m0
    (fun p => shmem_internal_op_to_all_ring fp_calc (e p) tmp target source count dsz start stride n pSync o d)
    (48 * Z.to_nat n * Z.to_nat n).
Proof.
  intros Hc. destruct (decide (count = 0)) as [Hz|Hz].
  { apply (reduce_spec_mono true false _ _ _ _ _ _ _ _ _ _ 0); [done|lia|]. apply skip_reduce; [done| |by rewrite Hz]. intros p _. unfold shmem_internal_op_to_all_ring. by rewrite Hz. }
  destruct (decide (n = 1)) as [Hs|Hs]; [|apply reduce_ring_correct; destruct Hok; lia].
  apply (reduce_spec_mono true false _ _ _ _ _ _ _ _ _ _ 3); [done|rewrite Hs; lia|]. unfold reduced, M, active_set. rewrite Hs. simpl.
  assert (start ∈ M) as Hm by (apply elem_of_active_set; exists 0; destruct Hok; lia).
  apply alone_memcpy; [|exact Htp|by intros i; apply H0|].
  - intros off (i & Hi & ->)%elem_of_elements. pose proof (dtype_int_facts _ _ _ Hdt) as [_ Hd]. fold dsz in Hd. unfold len. nia.
  - unfold shmem_internal_op_to_all_ring. by rewrite (proj2 (Z.eqb_neq count 0)).
Qed.
End op_to_all_ring.
