(* ===== verification/RecDbl.v ===== *)
(** * The recursive doubling reduction

    The rounds of [Pairs] as [shmem_internal_op_to_all_recdbl_sw] uses them: the first
    [2 ^ K] members swap their running results in [K] rounds, in round [i] with the member
    whose rank differs in bit [i]; each of the other members hands its contribution to one
    of them before the rounds and gets the result after them. *)

From S2P Require Import Prelude Machine Straight Slots Internal ReduceOp Comm Tree CollInit CollSync Barriers Bcast Reduce Collect Schedule Broadcast Flight Gather AllReduce Ring Pairs Rings.
Local Open Scope Z_scope.
Local Open Scope prog_scope.

Section schedule.
Context (start stride n : Z) (K : nat) (Hstride : 1 <= stride).
Context (HK : (1 <= K <= 30)%nat) (Hn : 2 ^ Z.of_nat K <= n < 2 * 2 ^ Z.of_nat K).
Let M := active_set start stride n.
Abbreviation rk := (rank start stride).
Abbreviation pow2 := (2 ^ Z.of_nat K).
Definition member (i : Z) : Z := start + i * stride.

(** The rounds: 0 takes the contributions of the members left over, 1 to [K] swap, [S K] sends
    them the result. *)
Definition outer (r : nat) : bool := (r =? 0)%nat || (r =? S K)%nat.
Definition peer_index (i : Z) (r : nat) : Z :=
  if outer r then (if pow2 <=? i then i - pow2 else i + pow2) else recdbl_peer i (Z.of_nat r - 1).
Definition role_index (i : Z) (r : nat) : role :=
  if (r =? 0)%nat then (if pow2 <=? i then Give else if i <? n - pow2 then Take else Idle)
  else if (r =? S K)%nat then (if pow2 <=? i then Get else if i <? n - pow2 then Send else Idle)
  else if pow2 <=? i then Idle else if i <? recdbl_peer i (Z.of_nat r - 1) then Lo else Hi.
Definition partner_of (p : Z) (r : nat) : Z := member (peer_index (rk p) r).
Definition role_in (p : Z) (r : nat) : role := role_index (rk p) r.
(** The word of a round. *)
Definition word_of (r : nat) : Z := if outer r then SHMEM_REDUCE_SYNC_SIZE - 2 else Z.of_nat r - 1.

Lemma pow2_pos : 2 <= pow2.
Proof. change 2 with (2 ^ 1) at 1. apply Z.pow_le_mono_r; lia. Qed.

Lemma rank_member i : rk (member i) = i.
Proof. apply rank_at. lia. Qed.

Lemma member_in i : 0 <= i < n -> member i ∈ M.
Proof. apply member_of. Qed.

(** In a round of the exchange. *)
Lemma recdbl_round i r : 0 <= i < pow2 -> (1 <= r <= K)%nat ->
  let j := recdbl_peer i (Z.of_nat r - 1) in
  0 <= j < pow2 /\ recdbl_peer j (Z.of_nat r - 1) = i /\ j <> i.
Proof.
  intros Hi Hr j. unfold j, recdbl_peer. rewrite Z.shiftl_mul_pow2, Z.mul_1_l by lia.
  assert (0 <= Z.of_nat r - 1 < Z.of_nat K) as Hk by lia.
  destruct (xor_block (Z.of_nat K) (Z.of_nat r - 1) i Hk Hi) as (H1 & _ & H3).
  split; [done|]. split; [by rewrite Z.lxor_assoc, Z.lxor_nilpotent, Z.lxor_0_r|].
  intros E. rewrite E, Z.sub_diag in H3. pose proof (Z.pow_pos_nonneg 2 (Z.of_nat r - 1)). simpl in H3. lia.
Qed.

Lemma peer_symmetric i r : 0 <= i < n -> (r < S (S K))%nat -> role_index i r <> Idle ->
  let j := peer_index i r in
  0 <= j < n /\ j <> i /\ peer_index j r = i /\ role_index j r = mirror (role_index i r).
Proof.
  intros Hi Hr. unfold role_index, peer_index, outer. pose proof pow2_pos as Hp.
  destruct (Nat.eqb_spec r 0) as [->|H0]; [|destruct (Nat.eqb_spec r (S K)) as [->|H1]]; cbn [orb].
  - destruct (Z.leb_spec pow2 i).
    + intros _. cbv zeta. rewrite (proj2 (Z.leb_gt _ _)), (proj2 (Z.ltb_lt _ _)) by lia. repeat split; lia.
    + destruct (Z.ltb_spec i (n - pow2)); [|done]. intros _. cbv zeta. rewrite (proj2 (Z.leb_le _ _)) by lia. repeat split; lia.
  - destruct (Z.leb_spec pow2 i).
    + intros _. cbv zeta. rewrite (proj2 (Z.leb_gt _ _)), (proj2 (Z.ltb_lt _ _)) by lia. repeat split; lia.
    + destruct (Z.ltb_spec i (n - pow2)); [|done]. intros _. cbv zeta. rewrite (proj2 (Z.leb_le _ _)) by lia. repeat split; lia.
  - destruct (Z.leb_spec pow2 i); [done|]. intros _. cbv zeta.
    destruct (recdbl_round i r ltac:(lia) ltac:(lia)) as (B1 & B2 & B3). rewrite B2, (proj2 (Z.leb_gt _ _)) by lia.
    split; [lia|]. split; [done|]. split; [done|].
    destruct (Z.ltb_spec i (recdbl_peer i (Z.of_nat r - 1))), (Z.ltb_spec (recdbl_peer i (Z.of_nat r - 1)) i); done || lia.
Qed.

Lemma recdbl_schedule : Rounds M (S (S K)) role_in partner_of word_of.
Proof.
  split.
  - intros p r Hp Hr Hi. destruct (member_at start stride n Hstride p Hp) as [Hrk E].
    destruct (peer_symmetric (rk p) r Hrk Hr Hi) as (H1 & H2 & H3 & H4). unfold partner_of, role_in in *. rewrite rank_member.
    split; [by apply member_in|]. split; [|by rewrite H3].
    intros E'. apply H2. rewrite <- (rank_member (peer_index (rk p) r)). by rewrite E'.
  - intros p r r' _ Hlt Hr'. unfold role_in, role_index, partner_of, peer_index, word_of, outer, SHMEM_REDUCE_SYNC_SIZE.
    destruct (Nat.eqb_spec r' 0) as [|_]; [lia|]. destruct (Nat.eqb_spec r 0) as [->|Hr0], (Nat.eqb_spec r' (S K)) as [->|Hr1]; cbn [orb].
    + intros Hi _ _. destruct (pow2 <=? rk p); [by split; [|right]|]. destruct (rk p <? n - pow2); [|done]. split; [done|by left].
    + intros _ _ E. lia.
    + destruct (Nat.eqb_spec r (S K)) as [|_]; [lia|]. intros _ _ E. lia.
    + destruct (Nat.eqb_spec r (S K)) as [|_]; [lia|]. intros _ _ E. lia.
  - intros p r _ Hr. unfold role_in, role_index, partner_of, peer_index, outer.
    destruct (Nat.eqb_spec r 0) as [->|Hr0]; [by destruct (pow2 <=? rk p), (rk p <? n - pow2)|].
    destruct (Nat.eqb_spec r (S K)) as [->|Hr1]; [|by destruct (pow2 <=? rk p), (rk p <? recdbl_peer (rk p) (Z.of_nat r - 1))].
    destruct (pow2 <=? rk p) eqn:E; [|by destruct (rk p <? n - pow2)]. intros _. split.
    + exists 0%nat. split; [lia|]. done.
    + intros k Hk. destruct (Nat.eqb_spec k 0); [done|]. by destruct (Nat.eqb_spec k (S K)).
Qed.

(** ** Whose contributions a member has combined *)

Fixpoint combined (r : nat) (i : Z) : list Z :=
  match r with
  | O => [i]
  | S r => if combines (role_index i r) then combined r i ++ combined r (peer_index i r) else combined r i
  end.

(** After the rounds up to [r], member [i] has combined its block of [2 ^ r] members, and the
    members left over that belong to them. *)
Lemma combined_spec r : (r <= K)%nat -> forall i, 0 <= i < pow2 ->
  NoDup (combined (S r) i) /\
  forall x, x ∈ combined (S r) i <-> 0 <= x < n /\ (x mod pow2) / 2 ^ Z.of_nat r = i / 2 ^ Z.of_nat r.
Proof.
  pose proof pow2_pos as Hp. induction r as [|r IH]; intros Hr i Hi.
  - assert (forall x, 0 <= x < n -> x mod pow2 = if x <? pow2 then x else x - pow2) as Hmod.
    { intros x Hx. destruct (Z.ltb_spec x pow2); [apply Z.mod_small; lia|].
      symmetry. apply (Z.mod_unique _ _ 1); lia. }
    change (2 ^ Z.of_nat 0) with 1. unfold combined, role_index, peer_index, outer. simpl.
    rewrite (proj2 (Z.leb_gt _ _)) by lia. setoid_rewrite Z.div_1_r. destruct (Z.ltb_spec i (n - pow2)); simpl.
    + split; [apply NoDup_cons_2; [intros ?%list_elem_of_singleton; lia|apply NoDup_singleton]|].
      intros x. rewrite elem_of_cons, list_elem_of_singleton. split.
      * intros [->| ->]; (split; [lia|]); rewrite Hmod by lia; case_match; lia.
      * intros [Hx Hm]. rewrite Hmod in Hm by done. case_match; lia.
    + split; [apply NoDup_singleton|]. intros x. rewrite list_elem_of_singleton. split.
      * intros ->. split; [lia|]. rewrite Hmod by lia. case_match; lia.
      * intros [Hx Hm]. rewrite Hmod in Hm by done. case_match; lia.
  - change (combined (S (S r)) i) with (if combines (role_index i (S r)) then combined (S r) i ++ combined (S r) (peer_index i (S r))
      else combined (S r) i).
    assert (combines (role_index i (S r)) = true) as ->.
    { unfold role_index. destruct (Nat.eqb_spec (S r) (S K)); [lia|]. simpl. rewrite (proj2 (Z.leb_gt _ _)) by lia. by case_match. }
    assert (peer_index i (S r) = Z.lxor i (2 ^ Z.of_nat r)) as ->.
    { unfold peer_index, outer, recdbl_peer. destruct (Nat.eqb_spec (S r) (S K)); [lia|]. simpl orb. cbv iota.
      rewrite Z.shiftl_mul_pow2, Z.mul_1_l by lia. do 2 f_equal. lia. }
    destruct (xor_block (Z.of_nat K) (Z.of_nat r) i ltac:(lia) Hi) as (B1 & B2 & B3). set (j := Z.lxor i (2 ^ Z.of_nat r)) in *.
    destruct (IH ltac:(lia) i Hi) as [N1 E1]. destruct (IH ltac:(lia) j B1) as [N2 E2].
    assert (0 < 2 ^ Z.of_nat r) as Hpr by lia.
    assert (i / 2 ^ Z.of_nat r <> j / 2 ^ Z.of_nat r) as Hne by (intros E; rewrite E, Z.sub_diag in B3; simpl in B3; lia).
    split.
    + apply list.NoDup_app. split; [done|]. split; [|done]. intros x [_ H1]%E1 [_ H2]%E2. congruence.
    + intros x. rewrite elem_of_app, E1, E2. replace (Z.of_nat (S r)) with (Z.of_nat r + 1) in * by lia.
      rewrite Z.pow_add_r, <- !Z.div_div in * by lia. change (2 ^ 1) with 2 in *.
      assert (forall a, a = 2 * (a / 2) \/ a = 2 * (a / 2) + 1) as Hhalf
        by (intros a; pose proof (Z.div_mod a 2 ltac:(lia)); pose proof (Z.mod_pos_bound a 2 ltac:(lia)); lia).
      set (a := i / 2 ^ Z.of_nat r) in *. set (b := j / 2 ^ Z.of_nat r) in *. set (c := x mod pow2 / 2 ^ Z.of_nat r) in *.
      split.
      * intros [[Hx ->]|[Hx ->]]; done.
      * intros [Hx E]. destruct (Hhalf a), (Hhalf b), (Hhalf c); rewrite E, ?B2 in *; try (left; split; [done|lia]); right; split; done || lia.
Qed.

(** After the exchange everybody's contribution is there. *)
Lemma combined_all i : 0 <= i < pow2 -> combined (S K) i ≡ₚ upto 0 n.
Proof.
  intros Hi. destruct (combined_spec K ltac:(lia) i Hi) as [Hnd He]. apply NoDup_Permutation; [done|apply NoDup_upto|].
  intros x. rewrite He, elem_of_upto. pose proof pow2_pos. rewrite (Z.div_small (x mod pow2)), (Z.div_small i) by (done || apply Z.mod_pos_bound; lia).
  tauto.
Qed.

Lemma combined_in r : (r <= S (S K))%nat -> forall i, 0 <= i < n -> forall x, x ∈ combined r i -> 0 <= x < n.
Proof.
  induction r as [|r IH]; intros Hr i Hi x; [intros ->%list_elem_of_singleton; done|]. simpl.
  destruct (combines (role_index i r)) eqn:E; [|apply IH; lia].
  destruct (peer_symmetric i r Hi ltac:(lia) ltac:(by destruct (role_index i r))) as (Hj & _).
  rewrite elem_of_app. intros [Hx|Hx]; (eapply IH; [lia| |exact Hx]); done.
Qed.

Lemma combined_ne r i : combined r i <> [].
Proof. revert i. induction r as [|r IH]; intros i; simpl; [done|]. case_match; [|done]. intros [? _]%app_nil. by apply (IH i). Qed.
End schedule.

Section recdbl.
Context (fp_calc : shm_internal_op_t -> shm_internal_datatype_t -> Z -> Z -> Z).
Context (params : coll_params) (num_pes start stride n pSync target source count cur : Z).
Context (o : shm_internal_op_t) (d : shm_internal_datatype_t) (s : bool) (w : Z).
Context (Hok : active_set_ok params num_pes start stride n) (Hdt : dtype_int d = Some (s, w)).
Context (Hcalc : reduce_calc fp_calc o d <> None).
Let M := active_set start stride n.
Let e := coll_env params num_pes.
Let dsz := dtype_size d.
Let len := count * dsz.
Let psync_size := SHMEM_REDUCE_SYNC_SIZE * SIZEOF_LONG.
Context (Htp : target + len <= pSync \/ pSync + psync_size <= target).
Context (Hsp : source + len <= pSync \/ pSync + psync_size <= source).
(** The buffer that [malloc] answers. *)
Context (Hcp : cur + len <= pSync \/ pSync + psync_size <= cur) (Hct : cur + len <= target \/ target + len <= cur).
Context (m0 : Z -> lmem).
Context (H0 : forall p i, p ∈ M -> 0 <= i < SHMEM_REDUCE_SYNC_SIZE -> m0 p (pSync + i * SIZEOF_LONG) = SHMEM_SYNC_VALUE).
Context (Hin : forall p i, p ∈ M -> 0 <= i < count -> in_range s w (m0 p (source + i * dsz))).

Section nonempty.
Context (Hcount : 0 < count < 2 ^ 31).
Context (K : nat) (HK : (1 <= K <= 30)%nat) (Hn : 2 ^ Z.of_nat K <= n < 2 * 2 ^ Z.of_nat K).
Context (Hpow : pow2_log2 n = (2 ^ Z.of_nat K, Z.of_nat K)).
Abbreviation rk := (rank start stride).
Abbreviation pow2 := (2 ^ Z.of_nat K).
Abbreviation N := SHMEM_REDUCE_SYNC_SIZE.

Definition local_combine (m : lmem) : lmem := default m (shmem_internal_reduce_local fp_calc o d count target cur m).
Definition finishes (p : Z) : bool := negb (rk p >=? pow2).
Definition running (p : Z) (r : nat) (a : Z) : Z :=
  if a mod dsz =? 0
  then combine (int_calc s w o) (fun i => m0 (member start stride i) (source + a)) (combined n K r (rk p))
  else m0 p (source + a).

Lemma size_pos : 1 <= dsz.
Proof. pose proof (dtype_int_facts _ _ _ Hdt). unfold dsz. lia. Qed.

Lemma combine_cell m b : local_combine m b =
  if bool_decide (cur <= b < cur + len /\ (b - cur) mod dsz = 0) then int_calc s w o (m b) (m (target + (b - cur))) else m b.
Proof.
  unfold local_combine, shmem_internal_reduce_local. rewrite (int_reduce_calc fp_calc o d s w Hdt Hcalc). simpl.
  rewrite wrap_s_id by (change (2 ^ (32 - 1)) with (2 ^ 31); lia). pose proof size_pos as Hd.
  apply func_op_spec; [done|lia|]. intros i j Hi Hj _ E. unfold len, dsz in *. nia.
Qed.

Lemma contribution_in i a k : 0 <= i < n -> 0 <= k < count -> a = k * dsz -> in_range s w (m0 (member start stride i) (source + a)).
Proof. intros Hi Hk ->. apply Hin; [by apply member_of|done]. Qed.

Lemma local_combine_spec p r m : p ∈ M -> (r < S (S K))%nat -> combines (role_in start stride n K p r) = true ->
  (forall a, 0 <= a < len -> m (cur + a) = running p r a) ->
  (forall a, 0 <= a < len -> m (target + a) = running (partner_of start stride K p r) r a) ->
  (forall a, 0 <= a < len -> local_combine m (cur + a) = running p (S r) a) /\
  (forall b, ~ (cur <= b < cur + len) -> local_combine m b = m b).
Proof.
  intros Hp Hr Hc Hcur Htgt. destruct Hok as [K1 K2 K3 K4 K5]. pose proof size_pos as Hd.
  destruct (member_at start stride n K3 p Hp) as [Hrk E]. split.
  - intros a Ha. rewrite combine_cell. replace (cur + a - cur) with a by lia. rewrite Hcur, Htgt by done. unfold running.
    destruct (Z.eqb_spec (a mod dsz) 0) as [Ea|Ea].
    + rewrite bool_decide_eq_true_2 by (split; [lia|done]). cbn [combined]. unfold role_in in Hc. rewrite Hc.
      unfold partner_of. rewrite (rank_member start stride K K3 HK). symmetry.
      assert (0 <= a / dsz < count /\ a = a / dsz * dsz) as [Hk Eak].
      { pose proof (Z.div_mod a dsz ltac:(lia)) as Edm. unfold len in Ha. split; [|lia].
        split; [apply Z.div_pos; lia|apply Z.div_lt_upper_bound; lia]. }
      assert (forall i, 0 <= i < n -> Forall (fun q => in_range s w (m0 (member start stride q) (source + a))) (combined n K r i)) as Hall.
      { intros i Hi. apply list.Forall_forall. intros x Hx.
        by apply (contribution_in x a (a / dsz)); [apply (combined_in n K HK Hn r ltac:(lia) i Hi)|..]. }
      destruct (dtype_int_facts _ _ _ Hdt) as [Hw _].
      apply (combine_app (int_calc s w o) (in_range s w)).
      * intros. by apply store_width_in_range.
      * intros. by apply int_calc_assoc.
      * apply combined_ne.
      * apply combined_ne.
      * by apply Hall.
      * apply Hall. by destruct (peer_symmetric n K HK Hn (rk p) r Hrk Hr) as (? & _); [by destruct (role_index n K (rk p) r)|].
    + by rewrite bool_decide_eq_false_2 by tauto.
  - intros b Hb. rewrite combine_cell, bool_decide_eq_false_2; [done|]. tauto.
Qed.

Abbreviation rec_slots := (pair_slots (S (S K)) (role_in start stride n K) (partner_of start stride K) (word_of K) pSync N target source
  cur len local_combine finishes).
Abbreviation rec_step := (step_slots (role_in start stride n K) (partner_of start stride K) (word_of K) pSync target cur len local_combine).

Lemma omap_flat_map {A B C} (f : A -> list B) (g : B -> option C) (l : list A) :
  omap g (flat_map f l) = flat_map (fun x => omap g (f x)) l.
Proof. induction l as [|x l IH]; [done|]. simpl. by rewrite omap_app, IH. Qed.

Lemma flat_map_map {A B C} (f : B -> list C) (g : A -> B) (l : list A) : flat_map f (map g l) = flat_map (fun x => f (g x)) l.
Proof. induction l as [|x l IH]; [done|]. simpl. by rewrite IH. Qed.

Lemma flat_map_nil {A B} (f : A -> list B) (l : list A) : (forall x, x ∈ l -> f x = []) -> flat_map f l = [].
Proof.
  induction l as [|x l IH]; intros H; [done|]. simpl. rewrite H by apply list_elem_of_here.
  apply IH. intros y Hy. apply H. by apply list_elem_of_further.
Qed.

Lemma omap_pairs p : omap id (rec_slots p) =
  [OLocal (copy_bytes cur source len)] ++ omap id (rec_step p 0) ++ flat_map (fun k => omap id (rec_step p (S k))) (seq 0 K) ++
  omap id (rec_step p (S K)) ++ (if finishes p then [OLocal (copy_bytes target cur len)] else []) ++
  map (fun i => OLocal (fun m => <[word_at pSync i := SHMEM_SYNC_VALUE]> m)) (upto 0 N).
Proof.
  unfold pair_slots, tail_slots. rewrite seq_S. change (seq 0 (S K)) with (0%nat :: seq 1 K). rewrite <- seq_shift.
  change (Some (OLocal (copy_bytes cur source len)) :: ?l) with ([Some (OLocal (copy_bytes cur source len))] ++ l).
  change (slot (finishes p) ?x :: ?l) with ([slot (finishes p) x] ++ l).
  rewrite !omap_app, omap_flat_map, omap_some, flat_map_app. cbn [flat_map]. rewrite app_nil_r, flat_map_map, <- !app_assoc.
  f_equal. do 4 f_equal. by destruct (finishes p).
Qed.

Lemma len_nonzero : len <> 0.
Proof. pose proof size_pos. unfold len. nia. Qed.

(** What a member sends: the data and, after a fence, the flag. *)
Abbreviation sending p r := [OPut (partner_of start stride K p r) target (Pending cur (upto 0 len)) false; OPutWait; OFence;
  OPut (partner_of start stride K p r) (word_at pSync (word_of K r)) (Captured [(0, 2)]) false].

Lemma omap_rec_step p r : omap id (rec_step p r) =
  let wd := word_at pSync (word_of K r) in
  match role_in start stride n K p r with
  | Idle => []
  | Lo => [OPut (partner_of start stride K p r) wd (Captured [(0, 1)]) false; OWait wd SHMEM_CMP_EQ 2] ++ sending p r ++ [OLocal local_combine]
  | Hi => [OWait wd SHMEM_CMP_EQ 1] ++ sending p r ++ [OWait wd SHMEM_CMP_EQ 2; OLocal local_combine]
  | Take => [OPut (partner_of start stride K p r) wd (Captured [(0, 1)]) false; OWait wd SHMEM_CMP_EQ 2; OLocal local_combine]
  | Give => [OWait wd SHMEM_CMP_EQ 1] ++ sending p r
  | Send => sending p r
  | Get => [OWait wd SHMEM_CMP_EQ 2]
  end.
Proof. unfold step_slots. by destruct (role_in start stride n K p r). Qed.

Lemma partner_expr p r : peer_index K (rk p) r * stride + start = partner_of start stride K p r.
Proof. unfold partner_of, member. lia. Qed.

Lemma reduce_local_ops : reduce_local fp_calc o d count target cur = seqp [OLocal local_combine].
Proof. unfold reduce_local. by rewrite (int_reduce_calc fp_calc o d s w Hdt Hcalc). Qed.

(** A round of the exchange. *)
Lemma swap_ops p k : p ∈ M -> rk p < pow2 -> (k < K)%nat ->
  let step_psync := pSync + SIZEOF_LONG * Z.of_nat k in
  let peer := recdbl_peer (rk p) (Z.of_nat k) * stride + start in
  let send_data := (shmem_internal_put_nb target cur (dsz * count) peer ;; shmem_internal_put_wait ;; shmem_internal_fence ;;
                    shmem_internal_put_scalar step_psync ps_data_ready peer) in
  ((if p <? peer then
      shmem_internal_put_scalar step_psync ps_target_ready peer ;;
      SHMEM_WAIT_UNTIL step_psync SHMEM_CMP_EQ ps_data_ready ;; send_data
    else
      SHMEM_WAIT_UNTIL step_psync SHMEM_CMP_EQ ps_target_ready ;; send_data ;;
      SHMEM_WAIT_UNTIL step_psync SHMEM_CMP_EQ ps_data_ready) ;;
   reduce_local fp_calc o d count target cur) = seqp (omap id (rec_step p (S k))).
Proof.
  intros Hp Hlt Hk. cbv zeta. destruct Hok as [K1 K2 K3 K4 K5]. destruct (member_at start stride n K3 p Hp) as [Hrk Ep].
  rewrite omap_rec_step, reduce_local_ops. cbv zeta.
  assert (outer K (S k) = false) as Ho by (unfold outer; simpl; apply Nat.eqb_neq; lia).
  assert (peer_index K (rk p) (S k) = recdbl_peer (rk p) (Z.of_nat k)) as Epi
    by (unfold peer_index; rewrite Ho; do 2 f_equal; lia).
  assert (word_of K (S k) = Z.of_nat k) as -> by (unfold word_of; rewrite Ho; lia).
  rewrite <- !partner_expr, Epi. unfold word_at, shmem_internal_put_nb. rewrite (Z.mul_comm dsz count). fold len.
  rewrite (proj2 (Z.eqb_neq len 0)) by apply len_nonzero. cbn [negb]. set (j := recdbl_peer (rk p) (Z.of_nat k)).
  assert (role_in start stride n K p (S k) = if rk p <? j then Lo else Hi) as ->.
  { unfold role_in, role_index. destruct (Nat.eqb_spec (S k) (S K)); [lia|]. cbn [Nat.eqb].
    rewrite (proj2 (Z.leb_gt _ _)) by lia. replace (Z.of_nat (S k) - 1) with (Z.of_nat k) by lia. done. }
  assert ((p <? j * stride + start) = (rk p <? j)) as ->.
  { rewrite Ep at 1. destruct (Z.ltb_spec (rk p) j); [apply Z.ltb_lt|apply Z.ltb_ge]; nia. }
  destruct (rk p <? j); by straighten.
Qed.

Lemma role_outer p : role_in start stride n K p 0 = (if pow2 <=? rk p then Give else if rk p <? n - pow2 then Take else Idle) /\
  role_in start stride n K p (S K) = (if pow2 <=? rk p then Get else if rk p <? n - pow2 then Send else Idle).
Proof. unfold role_in, role_index. split; [done|]. by rewrite (Nat.eqb_refl (S K)). Qed.

Lemma partner_outer p r : r = 0%nat \/ r = S K ->
  partner_of start stride K p r = (if pow2 <=? rk p then rk p - pow2 else rk p + pow2) * stride + start.
Proof.
  intros Hr. rewrite <- partner_expr. unfold peer_index, outer.
  destruct Hr as [-> | ->]; [done|]. by rewrite Nat.eqb_refl, orb_true_r.
Qed.

Lemma word_outer r : r = 0%nat \/ r = S K -> word_of K r = N - 2.
Proof. intros [-> | ->]; unfold word_of, outer; [done|]. by rewrite Nat.eqb_refl, orb_true_r. Qed.

Lemma reset_ops_eq : reset_psync pSync N = seqp (map (fun i => OLocal (fun m => <[word_at pSync i := SHMEM_SYNC_VALUE]> m)) (upto 0 N)).
Proof.
  unfold reset_psync. rewrite (for_seqp (upto 0 N) _ (fun i => [OLocal (fun m => <[word_at pSync i := SHMEM_SYNC_VALUE]> m)])) by done.
  by rewrite flat_map_singleton.
Qed.

Lemma recdbl_ops p : p ∈ M ->
  shmem_internal_op_to_all_recdbl_sw fp_calc (e p) (Some cur) target source count dsz start stride n pSync o d =
  seqp (omap id (rec_slots p)).
Proof.
  intros Hp. destruct Hok as [K1 K2 K3 K4 K5]. destruct (member_at start stride n K3 p Hp) as [Hrk Ep].
  unfold shmem_internal_op_to_all_recdbl_sw, e. rewrite e_pe, Hpow, (coll_rank start stride n p K3 Hp).
  pose proof (pow2_pos K HK) as Hp2.
  rewrite (proj2 (Z.eqb_neq n 1)), (proj2 (Z.eqb_neq count 0)) by lia. cbv zeta.
  rewrite omap_pairs. destruct (role_outer p) as [R0 R1]. rewrite reset_ops_eq.
  rewrite (omap_rec_step p 0), (omap_rec_step p (S K)), R0, R1. cbv zeta.
  rewrite (word_outer 0), (word_outer (S K)), (partner_outer p 0), (partner_outer p (S K)) by auto.
  change (pSync + SIZEOF_LONG * (N - 2)) with (word_at pSync (N - 2)).
  unfold shmem_internal_put_nb. rewrite (Z.mul_comm dsz count). fold len.
  rewrite (proj2 (Z.eqb_neq len 0)) by apply len_nonzero. cbn [negb when]. unfold finishes.
  rewrite Z.geb_leb. destruct (Z.leb_spec pow2 (rk p)) as [Hge|Hlt]; cbn [negb].
  - assert (flat_map (fun k => omap id (rec_step p (S k))) (seq 0 K) = []) as ->.
    { apply flat_map_nil. intros k Hk%elem_of_seq. rewrite omap_rec_step. unfold role_in, role_index.
      destruct (Nat.eqb_spec (S k) (S K)); [lia|]. cbn [Nat.eqb]. by rewrite (proj2 (Z.leb_le _ _)) by lia. }
    unfold memcpy. by straighten.
  - replace (upto 0 (Z.of_nat K)) with (map Z.of_nat (seq 0 K)) by (unfold upto, zrange; by rewrite Z.sub_0_r, Nat2Z.id).
    rewrite for_map.
    rewrite (for_seqp (seq 0 K) _ (fun k => omap id (rec_step p (S k)))).
    2:{ intros k Hk%elem_of_seq. rewrite <- (swap_ops p k Hp Hlt) by lia. unfold shmem_internal_put_nb.
        rewrite (Z.mul_comm dsz count). fold len. by rewrite (proj2 (Z.eqb_neq len 0)) by apply len_nonzero. }
    rewrite reduce_local_ops. unfold memcpy. destruct (rk p <? n - pow2); cbn [when]; straighten; by rewrite <- ?app_assoc.
Qed.

(** *** What the reduction promises *)

Lemma in_words_at b : in_words pSync N b -> pSync <= b < pSync + psync_size.
Proof. intros (i & Hi & ->). unfold psync_size, word_at, SIZEOF_LONG in *. unfold SHMEM_REDUCE_SYNC_SIZE in *. lia. Qed.

Lemma word_of_range r : (r < S (S K))%nat -> 0 <= word_of K r < N.
Proof.
  intros Hr. unfold word_of, outer, SHMEM_REDUCE_SYNC_SIZE. destruct (Nat.eqb_spec r 0); cbn [orb]; [lia|].
  destruct (Nat.eqb_spec r (S K)); lia.
Qed.

Lemma recdbl_pairs_spec :
  pairs_spec M (S (S K)) (role_in start stride n K) (partner_of start stride K) pSync N target cur len finishes m0 running
    (fun p => shmem_internal_op_to_all_recdbl_sw fp_calc (e p) (Some cur) target source count dsz start stride n pSync o d)
    (3 * (length M * (pos (S (S K)) 1 + Z.to_nat N))).
Proof.
  destruct Hok as [K1 K2 K3 K4 K5]. pose proof size_pos as Hd.
  assert (forall base a, base + len <= pSync \/ pSync + psync_size <= base -> 0 <= a < len -> ~ in_words pSync N (base + a)) as Hout
    by (intros base a Hb Ha Hw%in_words_at; lia).
  apply (pairs_correct M (NoDup_active_set start stride n K3) (S (S K)) (role_in start stride n K) (partner_of start stride K)
    (word_of K) (recdbl_schedule start stride n K K3 HK Hn) pSync N target source cur len) with (redf := local_combine).
  - pose proof len_nonzero. unfold len in *. nia.
  - exact word_of_range.
  - intros a Ha. by apply Hout.
  - intros a Ha. by apply Hout.
  - intros a Ha. by apply Hout.
  - exact Hct.
  - intros p a Hp Ha. unfold running. case_match; [|done]. simpl. destruct (member_at start stride n K3 p Hp) as [_ E].
    unfold member. by rewrite <- E.
  - intros p r m. apply local_combine_spec.
  - intros p r a _ _ Hc. unfold running. cbn [combined]. unfold role_in in Hc. by rewrite Hc.
  - intros p i Hp Hi. unfold word_at. rewrite Z.mul_comm. by apply H0.
  - intros p r _ Hr. unfold finishes, role_in, role_index. rewrite Z.geb_leb. intros Hf%negb_true_iff. rewrite Hf.
    by repeat case_match.
  - exact recdbl_ops.
Qed.

Lemma running_total i a k : 0 <= i < pow2 -> 0 <= k < count -> a = k * dsz ->
  running (member start stride i) (S K) a = reduced start stride n source o s w m0 a.
Proof.
  intros Hi Hk ->. pose proof size_pos as Hd. destruct Hok as [K1 K2 K3 K4 K5]. unfold running, reduced.
  rewrite (rank_member start stride K K3 HK), Z.mod_mul, Z.eqb_refl by lia.
  assert (combine (int_calc s w o) (fun p => m0 p (source + k * dsz)) (map (member start stride) (combined n K (S K) i)) =
    combine (int_calc s w o) (fun i => m0 (member start stride i) (source + k * dsz)) (combined n K (S K) i)) as <-.
  { unfold combine. destruct (combined n K (S K) i) as [|x l]; [done|]. simpl. by rewrite map_map. }
  destruct (dtype_int_facts _ _ _ Hdt) as [Hw _]. apply (combine_perm (int_calc s w o) (in_range s w)).
  - intros. by apply store_width_in_range.
  - intros. by apply int_calc_assoc.
  - intros. apply int_calc_comm.
  - rewrite (combined_all n K HK Hn i Hi). unfold active_set. rewrite pe_loop_map. by rewrite Z2Nat.id by lia.
  - apply list.Forall_forall. intros q (x & -> & Hx)%list_elem_of_fmap. apply (contribution_in x _ k); [|done|done].
    apply (combined_in n K HK Hn (S K) ltac:(lia) i ltac:(lia) x Hx).
Qed.

Lemma reduce_recdbl_correct steps : (3 * (length M * (pos (S (S K)) 1 + Z.to_nat N)) <= steps)%nat ->
  reduce_spec true (Some cur) M start target len pSync (elements count dsz) (reduced start stride n source o s w m0) m0
    (fun p => shmem_internal_op_to_all_recdbl_sw fp_calc (e p) (Some cur) target source count dsz start stride n pSync o d) steps.
Proof.
  intros Hsteps. destruct recdbl_pairs_spec as [[P1 P1'] P2 P3 P4]. pose proof size_pos as Hd. pose proof Hok as [K1 K2 K3 K4 K5].
  split.
  - split; [|done]. intros k w' Hk. specialize (P1 k w' Hk). lia.
  - intros w' p off Hw' Hp Hr (k & Hk & ->)%elem_of_elements. destruct (P2 w' p Hw' Hp Hr) as [E1 E2 _ _].
    destruct (member_at start stride n K3 p Hp) as [Hrk E]. assert (0 <= k * dsz < len) as Ha by (unfold len; nia).
    destruct (role_outer p) as [_ Rl]. destruct (Z.leb_spec pow2 (rk p)) as [Hge|Hlt].
    + rewrite (E2 (S K)) by (done || lia). rewrite <- (running_total (rk p - pow2) (k * dsz) k) by (done || lia). f_equal.
      rewrite partner_outer, (proj2 (Z.leb_le _ _)) by (auto || lia). unfold member. lia.
    + rewrite E1; [|unfold finishes; rewrite Z.geb_leb; by rewrite (proj2 (Z.leb_gt _ _))|done].
      rewrite <- (running_total (rk p) (k * dsz) k) by (done || lia). unfold running. rewrite (rank_member start stride K K3 HK).
      rewrite Z.mod_mul, Z.eqb_refl by lia. f_equal. cbn [combined].
      assert (combines (role_index n K (rk p) (S K)) = false) as ->; [|done]. unfold role_in in Rl. rewrite Rl. by case_match.
  - intros _ w' p m Hw' Hp Hr. destruct (P2 w' p Hw' Hp Hr) as [_ _ _ Hrd]. by apply Hrd.
  - intros w' p i Hw' Hp Hr Hi. destruct (P2 w' p Hw' Hp Hr) as [_ _ Hwd _]. rewrite <- (Hwd i Hi). f_equal. unfold word_at. lia.
  - intros w' p a Hw' Ha Htmp. apply (P3 w' p a Hw'). destruct Ha as [|[Ht Hs]]; [by left|right].
    split; [by intros ?%in_words_at|]. split; [done|]. by apply Htmp.
  - intros w' m Hw' Hr Hm. rewrite (P4 w' Hw' Hr) in Hm. by apply elem_of_nil in Hm.
Qed.
End nonempty.

Lemma reduce_recdbl : 0 <= count < 2 ^ 31 ->
  reduce_spec true (Some cur) M start target len pSync (elements count dsz) (reduced start stride n source o s w m0) m0
    (fun p => shmem_internal_op_to_all_recdbl_sw fp_calc (e p) (Some cur) target source count dsz start stride n pSync o d)
    (96 * Z.to_nat n * Z.to_nat n).
Proof.
  intros Hc. pose proof Hok as [K1 K2 K3 K4 K5]. destruct (decide (n = 1)) as [Hs|Hs].
  { apply (reduce_spec_mono true true _ _ _ _ _ _ _ _ _ _ 3); [done|rewrite Hs; lia|]. unfold reduced, M, active_set. rewrite Hs. simpl.
    assert (start ∈ M) as Hm by (apply elem_of_active_set; exists 0; lia).
    apply alone_memcpy; [|exact Htp|by intros i; apply H0|].
    - intros off (i & Hi & ->)%elem_of_elements. pose proof (dtype_int_facts _ _ _ Hdt) as [_ Hd]. fold dsz in Hd. unfold len. nia.
    - unfold shmem_internal_op_to_all_recdbl_sw. destruct (pow2_log2 1). simpl. unfold len. by rewrite Z.mul_comm. }
  destruct (decide (count = 0)) as [Hz|Hz].
  { apply (reduce_spec_mono true true _ _ _ _ _ _ _ _ _ _ 0); [done|lia|]. apply skip_reduce; [done| |by rewrite Hz].
    intros p _. unfold shmem_internal_op_to_all_recdbl_sw. destruct (pow2_log2 n). by rewrite Hz, (proj2 (Z.eqb_neq n 1)). }
  destruct (pow2_log2_spec n ltac:(lia)) as (k & Hk & Hpow & Hnk). replace k with (Z.of_nat (Z.to_nat k)) in * by lia.
  set (K := Z.to_nat k) in *.
  assert (K < 31)%nat as HK. { apply Nat.nle_gt. intros Hge. pose proof (Z.pow_le_mono_r 2 31 (Z.of_nat K)). lia. }
  apply (reduce_recdbl_correct ltac:(lia) K ltac:(lia) Hnk Hpow).
  assert (length M = Z.to_nat n) as -> by apply length_active_set.
  assert (Z.of_nat K < n) as HKn by (pose proof (Z.pow_gt_lin_r 2 (Z.of_nat K)); lia).
  unfold pos, SHMEM_REDUCE_SYNC_SIZE. change (Z.to_nat 35) with 35%nat. assert (K < Z.to_nat n)%nat by lia. nia.
Qed.
End recdbl.
