(* ===== verification/OpToAll.v ===== *)
(** * The reduction of an active set

    [shmem_internal_op_to_all] with its four algorithms and their selection: the linear
    and the tree reduction of [AllReduce], the ring of [Rings] and the recursive doubling
    of [RecDbl] make the same promise.  The ring breaks one part of it, which an execution
    shows: it returns while the network still reads its target. *)

From Stdlib Require Import String.
From S2P Require Import Prelude Machine Straight Slots Internal ReduceOp Comm Tree CollInit CollSync Barriers Bcast Reduce Collect Schedule Broadcast Flight Gather AllReduce Ring Rings RecDbl.
Local Open Scope Z_scope.
Local Open Scope prog_scope.

(** The algorithm that the parameters select; [supported] is the answer of the transport
    for the operator and the datatype. *)
Definition reduce_algorithm (params : coll_params) (supported : bool) (size bytes : Z) : coll_type_t :=
  match select reduce_type_of (p_REDUCE_ALGORITHM params) with
  | AUTO => if supported then (if size <? p_COLL_CROSSOVER params then LINEAR else TREE)
            else (if bytes <? p_COLL_SIZE_CROSSOVER params then RECDBL else RING)
  | LINEAR => if supported then LINEAR else RECDBL
  | TREE => if supported then TREE else RECDBL
  | a => a
  end.

(** What the caller guarantees of the arrays, and [malloc] of its buffer: the arrays do not
    meet the pSync; the ring is not called in place; recursive doubling gets its buffer. *)
Record reduce_arrays (alg : coll_type_t) (tmp : option Z) (target source len pSync : Z) : Prop := {
  ra_target : target + len <= pSync \/ pSync + SHMEM_REDUCE_SYNC_SIZE * SIZEOF_LONG <= target;
  ra_source : source + len <= pSync \/ pSync + SHMEM_REDUCE_SYNC_SIZE * SIZEOF_LONG <= source;
  ra_ring : alg = RING -> source + len <= target \/ target + len <= source;
  ra_tmp : alg = RECDBL -> exists cur, tmp = Some cur /\
    (cur + len <= pSync \/ pSync + SHMEM_REDUCE_SYNC_SIZE * SIZEOF_LONG <= cur) /\
    (cur + len <= target \/ target + len <= cur) }.

Definition is_ring (alg : coll_type_t) : bool := match alg with RING => true | _ => false end.
Definition is_local (alg : coll_type_t) : bool := match alg with RING | RECDBL => true | _ => false end.

(** C4: [shmem_internal_op_to_all] computes the reduction, whichever of its four algorithms the
    parameters select (recursive doubling also for a number of members that is no power of
    two): in every execution it returns on every member, within a number of steps quadratic
    in the members; a member that has returned has, for every element, the values of all
    the members combined (modulo the width of the type); the words of its pSync that were
    used are zero again; and no memory but the target, the pSync and the buffer of recursive
    doubling changes.  Except for the ring a member that has returned can also reuse its
    buffers. *)
Theorem op_to_all_correct fp_calc supported params num_pes start stride size tmp pSync target source count o d s w m0 :
  let M := active_set start stride size in
  let dsz := dtype_size d in
  let alg := reduce_algorithm params (supported o d) size (count * dsz) in
  active_set_ok params num_pes start stride size -> dtype_int d = Some (s, w) ->
  (is_local alg = true -> reduce_calc fp_calc o d <> None) -> 0 <= count < 2 ^ 31 ->
  reduce_arrays alg tmp target source (count * dsz) pSync ->
  (forall p i, p ∈ M -> 0 <= i < SHMEM_REDUCE_SYNC_SIZE -> m0 p (pSync + i * SIZEOF_LONG) = SHMEM_SYNC_VALUE) ->
  (forall p i, p ∈ M -> 0 <= i < count -> in_range s w (m0 p (source + i * dsz))) ->
  reduce_spec (negb (is_ring alg)) tmp M start target (count * dsz) pSync (elements count dsz)
    (reduced start stride size source o s w m0) m0
    (fun p => shmem_internal_op_to_all fp_calc supported (coll_env params num_pes p) tmp target source count dsz
                start stride size pSync o d) (96 * Z.to_nat size * Z.to_nat size).
Proof.
  intros M dsz alg Hok Hdt Hcalc Hcount [A1 A2 A3 A4] H0 Hin.
  assert (forall p, shmem_internal_reduce_type (coll_env params num_pes p) = select reduce_type_of (p_REDUCE_ALGORITHM params) /\
    COLL_CROSSOVER (coll_env params num_pes p) = p_COLL_CROSSOVER params /\
    COLL_SIZE_CROSSOVER (coll_env params num_pes p) = p_COLL_SIZE_CROSSOVER params) as Het
    by (intros p; unfold coll_env; by destruct (default _ _)).
  pose proof (reduce_linear fp_calc params num_pes start stride size pSync target source count o d s w Hok Hdt A1 A2 m0 H0 Hin
    ltac:(lia)) as HL.
  pose proof (reduce_tree fp_calc params num_pes start stride size pSync target source count o d s w Hok Hdt A1 A2 m0 H0 Hin
    ltac:(lia)) as HT.
  assert (1 <= size) as Hsize by (destruct Hok; lia).
  assert ((fun p => shmem_internal_op_to_all fp_calc supported (coll_env params num_pes p) tmp target source count dsz
      start stride size pSync o d) =
    (fun p => let e := coll_env params num_pes p in
       match alg with
       | LINEAR => shmem_internal_op_to_all_linear fp_calc e target source count dsz start stride size pSync o d
       | TREE => shmem_internal_op_to_all_tree fp_calc e target source count dsz start stride size pSync o d
       | RING => shmem_internal_op_to_all_ring fp_calc e tmp target source count dsz start stride size pSync o d
       | RECDBL => shmem_internal_op_to_all_recdbl_sw fp_calc e tmp target source count dsz start stride size pSync o d
       | _ => Raise
       end)) as ->.
  { extensionality p. unfold shmem_internal_op_to_all, alg, reduce_algorithm. destruct (Het p) as (-> & -> & ->).
    destruct (select _ _), (supported o d); try done; by case_match. }
  assert (alg = LINEAR \/ alg = TREE \/ alg = RING \/ alg = RECDBL) as Halg.
  { unfold alg, reduce_algorithm, select, reduce_type_of. repeat case_match; simplify_eq/=; auto. }
  destruct Halg as [E|[E|[E|E]]]; rewrite E in *; simpl.
  - eapply reduce_spec_mono; [done| |exact HL]. nia.
  - eapply reduce_spec_mono; [done| |exact HT]. nia.
  - pose proof (reduce_ring fp_calc params num_pes start stride size pSync target source count o d s w Hok Hdt (Hcalc eq_refl)
      A1 A2 (A3 eq_refl) m0 H0 Hin tmp Hcount) as HR. eapply (reduce_spec_mono false); [done| |exact HR]. nia.
  - destruct (A4 eq_refl) as (cur & -> & C1 & C2).
    apply (reduce_recdbl fp_calc params num_pes start stride size pSync target source count cur o d s w Hok Hdt (Hcalc eq_refl)
      A1 A2 C1 C2 m0 H0 Hin Hcount).
Qed.

(** Six members of a job of 16 PEs that sum three 16-bit integers with wrap-around, by
    recursive doubling and around the ring. *)
Lemma op_to_all_correct_witness :
  let params alg := CollParams 4 16384 4 None None (Some alg) None None in
  let m0 p a := if (64 <=? a) && (a <? 344) then 0 else 10000 + p in
  let job alg p := shmem_internal_op_to_all (fun _ _ => Z.add) (fun _ _ => false) (coll_env (params alg) 16 p) (Some 600)
                     400 500 3 2 1 2 6 64 SHM_INTERNAL_SUM SHM_INTERNAL_SHORT in
  reduce_spec true (Some 600) (active_set 1 2 6) 1 400 6 64 (elements 3 2)
    (reduced 1 2 6 500 SHM_INTERNAL_SUM true 16 m0) m0 (job "recdbl"%string) (96 * 6 * 6) /\
  reduce_spec false (Some 600) (active_set 1 2 6) 1 400 6 64 (elements 3 2)
    (reduced 1 2 6 500 SHM_INTERNAL_SUM true 16 m0) m0 (job "ring"%string) (96 * 6 * 6) /\
  map (reduced 1 2 6 500 SHM_INTERNAL_SUM true 16 m0) (elements 3 2) = [-5500; -5500; -5500].
Proof.
  intros params m0 job. split; [|split; [|vm_compute; reflexivity]].
  - apply (op_to_all_correct (fun _ _ => Z.add) (fun _ _ => false) (params "recdbl"%string) 16 1 2 6 (Some 600) 64 400 500 3
      SHM_INTERNAL_SUM SHM_INTERNAL_SHORT true 16 m0); [by split; simpl; lia|done|done|lia| |..].
    + split; simpl; unfold SHMEM_REDUCE_SYNC_SIZE, SIZEOF_LONG; try (left; lia) || (right; lia) || done.
      intros _. exists 600. split; [done|lia].
    + intros p i _ Hi. unfold m0, SHMEM_REDUCE_SYNC_SIZE, SIZEOF_LONG in *. case_match eqn:E; [done|lia].
    + intros p i (k & Hk & ->)%elem_of_active_set Hi. unfold m0. simpl. case_match; simpl; lia.
  - apply (op_to_all_correct (fun _ _ => Z.add) (fun _ _ => false) (params "ring"%string) 16 1 2 6 (Some 600) 64 400 500 3
      SHM_INTERNAL_SUM SHM_INTERNAL_SHORT true 16 m0); [by split; simpl; lia|done|done|lia| |..].
    + split; simpl; unfold SHMEM_REDUCE_SYNC_SIZE, SIZEOF_LONG; try (left; lia) || (right; lia) || done.
    + intros p i _ Hi. unfold m0, SHMEM_REDUCE_SYNC_SIZE, SIZEOF_LONG in *. case_match eqn:E; [done|lia].
    + intros p i (k & Hk & ->)%elem_of_active_set Hi. unfold m0. simpl. case_match; simpl; lia.
Defined.

(** The put of the last piece is followed by a fence, that orders it but does not wait: PE 0
    returns, stores into its target, and PE 1 receives what was stored.  Both contribute
    ones and twos, so that the sum is 3 everywhere. *)
Definition sum_then_store (p : Z) : prog unit :=
  shmem_internal_op_to_all_ring (fun _ _ => Z.add) (coll_env (CollParams 4 16384 4 None None None None None) 2 p) None
    300 400 2 2 0 1 2 64 SHM_INTERNAL_SUM SHM_INTERNAL_SHORT ;;
  when (p =? 0) (store 302 99).

Lemma ring_reads_target_after_return :
  let job := coll_job (active_set 0 1 2) (fun p a => if a <? 200 then 0 else p + 1) sum_then_store in
  exists w, rtc step job w /\ all_returned w /\ net (w_st w) = [] /\ mem (w_st w) 0 300 = 3 /\
    mem (w_st w) 1 300 = 3 /\ mem (w_st w) 1 302 = 99.
Proof.
  intros job.
  destruct (exec_all_outcome [RunPE 0; RunPE 0; RunPE 0; RunPE 1; RunPE 1; RunPE 1; RunNet 2; RunNet 2; RunNet 2; RunPE 0;
      RunPE 0; RunPE 0; RunNet 2; RunPE 0; RunPE 0; RunPE 0; RunPE 0; RunNet 0; RunNet 0; RunNet 0; RunPE 1; RunPE 1; RunPE 1;
      RunNet 2; RunPE 1; RunPE 1; RunPE 1; RunPE 1; RunNet 2; RunNet 2; RunNet 2; RunPE 0; RunPE 0; RunNet 2; RunPE 0; RunPE 0;
      RunNet 0; RunNet 0; RunNet 0; RunPE 1; RunPE 1; RunNet 0; RunPE 1] job
    (fun w => (progs w 0, progs w 1, net (w_st w), (mem (w_st w) 0 300, mem (w_st w) 1 300, mem (w_st w) 1 302)))
    (skip, skip, [], (3, 3, 99)) ltac:(vm_compute; reflexivity)) as (w & Hs & [= H0 H1 Hn V0 V1 V2]).
  exists w. split; [exact Hs|]. split; [|done].
  eapply coll_job_returned; [exact Hs|]. intros p (i & Hi & ->)%elem_of_active_set.
  assert (i = 0 \/ i = 1) as [->| ->] by lia; [exact H0|exact H1].
Qed.
