(* ===== verification/Doubling.v ===== *)
(** * Collecting by recursive doubling

    [shmem_internal_fcollect_recdbl] on [2 ^ K] members: in round [k] a member swaps the
    aligned block of [2 ^ k] contributions it has collected with the member whose rank
    differs in bit [k].  Each round has its own word of the pSync, a counter that goes up
    with the partner's data and down by the member's own hand; the quiet at the end makes
    the pSync reusable. *)

From S2P Require Import Prelude Machine Straight Slots Internal ReduceOp Comm Tree CollInit CollSync Barriers Bcast Reduce Collect Schedule Broadcast Flight Gather AllReduce Ring Rings.
Local Open Scope Z_scope.
Local Open Scope prog_scope.

(** ** What an fcollect promises *)

(** The bytes of the pSync. *)
Definition in_collect_psync (pSync b : Z) : Prop := pSync <= b < pSync + SHMEM_COLLECT_SYNC_SIZE * SIZEOF_LONG.

(** The concatenation of the contributions, in the order of the ranks. *)
Definition collected (start stride source len : Z) (m0 : Z -> lmem) (x : Z) : Z :=
  m0 (start + (x / len) * stride) (source + x mod len).

(** Under every interleaving and delivery order: the call returns on every member within
    [steps] steps of the job; a member that has returned has the [bytes] of [total] in its
    target, its pSync as it was, and its buffers free; nothing else changes than targets
    and pSyncs; and only resets of the root's own pSync can outlive the call. *)
Record fcollect_spec (M : list Z) (root target bytes pSync : Z) (total : Z -> Z) (m0 : Z -> lmem)
    (body : Z -> prog unit) (steps : nat) : Prop := {
  fc_completes : job_completes (coll_job M m0 body) steps;
  fc_delivers : forall w p x, rtc step (coll_job M m0 body) w -> p ∈ M -> returned w p -> 0 <= x < bytes ->
    mem (w_st w) p (target + x) = total x;
  fc_restored : forall w p b, rtc step (coll_job M m0 body) w -> p ∈ M -> returned w p -> in_collect_psync pSync b ->
    mem (w_st w) p b = m0 p b;
  fc_reusable : forall w p m, rtc step (coll_job M m0 body) w -> p ∈ M -> returned w p ->
    m ∈ net (w_st w) -> m_src m = p -> pending (m_data m) = false;
  fc_frame : forall w p b, rtc step (coll_job M m0 body) w ->
    (p ∉ M \/ ~ (target <= b < target + bytes) /\ ~ in_collect_psync pSync b) -> mem (w_st w) p b = m0 p b;
  fc_clean : forall w m, rtc step (coll_job M m0 body) w -> all_returned w -> m ∈ net (w_st w) ->
    m_src m = root /\ m_dst m = root /\ m_kind m = KPut /\ in_collect_psync pSync (m_target m) /\
    m_data m = Captured [(0, SHMEM_SYNC_VALUE)] }.

Lemma fcollect_spec_mono M root target bytes pSync total m0 body k k' : (k <= k')%nat ->
  fcollect_spec M root target bytes pSync total m0 body k -> fcollect_spec M root target bytes pSync total m0 body k'.
Proof. intros Hk [[H1 H1'] H2 H3 H4 H5 H6]. split; try done. split; [|done]. intros i w Hw. specialize (H1 i w Hw). lia. Qed.

Lemma fcollect_spec_ext M root target bytes pSync total m0 body body' steps : (forall p, p ∈ M -> body p = body' p) ->
  fcollect_spec M root target bytes pSync total m0 body steps -> fcollect_spec M root target bytes pSync total m0 body' steps.
Proof.
  intros H. assert (coll_job M m0 body = coll_job M m0 body') as E.
  { unfold coll_job. f_equal. extensionality p. case_decide; [by rewrite H|done]. }
  intros [H1 H2 H3 H4 H5 H6]. split; rewrite <- E; done.
Qed.

(** ** Bits *)

Lemma shiftr_eq_div a k : 0 <= k -> Z.shiftr a k = a / 2 ^ k.
Proof. apply Z.shiftr_div_pow2. Qed.

(** Two numbers that agree above bit [k] and differ in it. *)
Lemma log2_lxor c i k : 0 <= c -> 0 <= i -> 0 <= k ->
  Z.lxor c i <> 0 /\ Z.log2 (Z.lxor c i) = k <-> c / 2 ^ k = Z.lxor i (2 ^ k) / 2 ^ k.
Proof.
  intros Hc Hi Hk. assert (0 <= Z.lxor c i) as Hx by (apply Z.lxor_nonneg; lia).
  assert (Z.shiftr (Z.lxor i (2 ^ k)) k = Z.lxor (Z.shiftr i k) 1) as E1.
  { rewrite Z.shiftr_lxor, (Z.shiftr_div_pow2 (2 ^ k)), Z.div_same by lia. done. }
  rewrite <- !shiftr_eq_div, E1 by done.
  assert (Z.shiftr (Z.lxor c i) k = Z.lxor (Z.shiftr c k) (Z.shiftr i k)) as E2 by apply Z.shiftr_lxor. split.
  - intros [Hne Hl]. assert (Z.shiftr (Z.lxor c i) k = 1) as E.
    { rewrite shiftr_eq_div by done. pose proof (Z.log2_spec (Z.lxor c i) ltac:(lia)) as Hs. rewrite Hl in Hs.
      rewrite Z.pow_succ_r in Hs by done. symmetry. apply (Z.div_unique _ _ _ (Z.lxor c i - 2 ^ k)); lia. }
    rewrite E2 in E. rewrite <- E, <- Z.lxor_assoc, (Z.lxor_comm (Z.shiftr i k)), Z.lxor_assoc, Z.lxor_nilpotent. by rewrite Z.lxor_0_r.
  - intros E. rewrite E, (Z.lxor_comm _ 1), Z.lxor_assoc, Z.lxor_nilpotent, Z.lxor_0_r, shiftr_eq_div in E2 by done.
    assert (0 < 2 ^ k) by lia. pose proof (Z.div_mod (Z.lxor c i) (2 ^ k) ltac:(lia)).
    pose proof (Z.mod_pos_bound (Z.lxor c i) (2 ^ k) ltac:(lia)). rewrite E2 in *. split; [lia|].
    apply Z.log2_unique; [done|]. rewrite Z.pow_succ_r by done. lia.
Qed.

(** Two numbers of one aligned block differ below bit [k] only. *)
Lemma log2_lxor_block c i k : 0 <= c -> 0 <= i -> 0 <= k -> Z.lxor c i <> 0 -> c / 2 ^ k = i / 2 ^ k ->
  Z.log2 (Z.lxor c i) < k.
Proof.
  intros Hc Hi Hk Hne E. assert (0 <= Z.lxor c i) as Hx by (apply Z.lxor_nonneg; lia).
  assert (Z.shiftr (Z.lxor c i) k = 0) as E2 by (rewrite Z.shiftr_lxor, !shiftr_eq_div, E by done; apply Z.lxor_nilpotent).
  rewrite shiftr_eq_div in E2 by done. apply Z.div_small_iff in E2; [|lia].
  assert (0 < Z.lxor c i < 2 ^ k) as Hb by lia. apply Z.log2_lt_pow2; lia.
Qed.

Section doubling.
Context (start stride : Z) (K : nat) (Hstride : 1 <= stride) (HK : (K < 31)%nat).
Abbreviation n := (2 ^ Z.of_nat K).
Let M := active_set start stride n.
Abbreviation rk := (rank start stride).
Abbreviation member i := (start + i * stride).

(** The member a member swaps with in round [k], and the rank its block starts at. *)
Definition partner (p : Z) (k : nat) : Z := member (Z.lxor (rk p) (2 ^ Z.of_nat k)).
Definition block (p : Z) (k : nat) : Z := rk p / 2 ^ Z.of_nat k * 2 ^ Z.of_nat k.

Lemma rank_member_in i : 0 <= i < n -> member i ∈ M.
Proof. intros Hi. apply elem_of_active_set. by exists i. Qed.

Lemma doubling_rank p : p ∈ M -> 0 <= rk p < n /\ p = member (rk p).
Proof. by apply member_at. Qed.

Lemma pow2_lt k : (k < K)%nat -> 0 < 2 ^ Z.of_nat k < n.
Proof. intros Hk. split; [lia|]. apply Z.pow_lt_mono_r; lia. Qed.

Lemma rank_partner p k : rk (partner p k) = Z.lxor (rk p) (2 ^ Z.of_nat k).
Proof. apply rank_at. lia. Qed.

Lemma partner_in p k : p ∈ M -> (k < K)%nat -> partner p k ∈ M.
Proof.
  intros Hp Hk. apply rank_member_in. pose proof (pow2_lt k Hk). apply lxor_bound; [lia| |lia].
  by apply doubling_rank.
Qed.

Lemma partner_partner p k : p ∈ M -> partner (partner p k) k = p.
Proof.
  intros Hp. destruct (doubling_rank p Hp) as [_ E]. unfold partner at 1. rewrite rank_partner, Z.lxor_assoc, Z.lxor_nilpotent.
  by rewrite Z.lxor_0_r.
Qed.

Lemma partner_ne p k : p ∈ M -> partner p k <> p.
Proof.
  intros Hp E. pose proof (rank_partner p k) as R. rewrite E in R. symmetry in R.
  rewrite <- (Z.lxor_0_r (rk p)) in R at 2. apply (f_equal (Z.lxor (rk p))) in R.
  rewrite <- !Z.lxor_assoc, Z.lxor_nilpotent, !Z.lxor_0_l in R. assert (0 < 2 ^ Z.of_nat k) by lia. lia.
Qed.

(** The round in which a member receives the contribution of rank [c]. *)
Definition level (p c : Z) : nat := Z.to_nat (Z.log2 (Z.lxor c (rk p))).

Lemma lxor_zero_eq a b : Z.lxor a b = 0 <-> a = b.
Proof. split; [apply Z.lxor_eq|intros ->; apply Z.lxor_nilpotent]. Qed.

Lemma level_spec p c k : p ∈ M -> 0 <= c < n -> (k < K)%nat ->
  c <> rk p /\ level p c = k <-> block (partner p k) k <= c < block (partner p k) k + 2 ^ Z.of_nat k.
Proof.
  intros Hp Hc Hk. destruct (doubling_rank p Hp) as [Hr _]. pose proof (pow2_lt k Hk) as Hpow.
  pose proof (log2_lxor c (rk p) (Z.of_nat k) ltac:(lia) ltac:(lia) ltac:(lia)) as H.
  assert (c <> rk p <-> Z.lxor c (rk p) <> 0) as Hne by (by rewrite lxor_zero_eq).
  unfold block, level. rewrite rank_partner. set (q := Z.lxor (rk p) (2 ^ Z.of_nat k)) in *.
  assert (c / 2 ^ Z.of_nat k = q / 2 ^ Z.of_nat k <->
    q / 2 ^ Z.of_nat k * 2 ^ Z.of_nat k <= c < q / 2 ^ Z.of_nat k * 2 ^ Z.of_nat k + 2 ^ Z.of_nat k) as <-.
  { pose proof (Z.div_mod c (2 ^ Z.of_nat k) ltac:(lia)). pose proof (Z.mod_pos_bound c (2 ^ Z.of_nat k) ltac:(lia)).
    split; [intros <-; lia|]. intros Hb. symmetry. apply (Z.div_unique _ _ _ (c - q / 2 ^ Z.of_nat k * 2 ^ Z.of_nat k)); lia. }
  rewrite <- H, Hne. pose proof (Z.log2_nonneg (Z.lxor c (rk p))). split; intros [? ?]; (split; [done|lia]).
Qed.

Lemma level_lt p c : p ∈ M -> 0 <= c < n -> c <> rk p -> (level p c < K)%nat.
Proof.
  intros Hp Hc Hne. destruct (doubling_rank p Hp) as [Hr _]. unfold level.
  assert (Z.lxor c (rk p) <> 0) as Hx by (by rewrite lxor_zero_eq).
  pose proof (lxor_bound (Z.of_nat K) c (rk p) ltac:(lia) Hc Hr).
  pose proof (proj1 (Z.log2_lt_pow2 (Z.lxor c (rk p)) (Z.of_nat K) ltac:(lia)) ltac:(lia)).
  pose proof (Z.log2_nonneg (Z.lxor c (rk p))). lia.
Qed.

(** What a member sends in round [k] it has received before. *)
Lemma level_block p c k : p ∈ M -> 0 <= c < n -> block p k <= c < block p k + 2 ^ Z.of_nat k -> c <> rk p ->
  (level p c < k)%nat.
Proof.
  intros Hp Hc Hb Hne. destruct (doubling_rank p Hp) as [Hr _]. unfold block in Hb. assert (0 < 2 ^ Z.of_nat k) by lia.
  pose proof (log2_lxor_block c (rk p) (Z.of_nat k) ltac:(lia) ltac:(lia) ltac:(lia) ltac:(by rewrite lxor_zero_eq)) as H'.
  unfold level. pose proof (Z.log2_nonneg (Z.lxor c (rk p))).
  assert (Z.log2 (Z.lxor c (rk p)) < Z.of_nat k); [|lia]. apply H'. symmetry.
  apply (Z.div_unique _ _ _ (c - rk p / 2 ^ Z.of_nat k * 2 ^ Z.of_nat k)); lia.
Qed.

Lemma held_bound p k : p ∈ M -> (k <= K)%nat -> 0 <= block p k /\ block p k + 2 ^ Z.of_nat k <= n.
Proof.
  intros Hp Hk. destruct (doubling_rank p Hp) as [Hr _]. unfold block. assert (0 < 2 ^ Z.of_nat k) by lia.
  assert (n = 2 ^ Z.of_nat (K - k) * 2 ^ Z.of_nat k) as E by (rewrite <- Z.pow_add_r by lia; f_equal; lia).
  pose proof (Z.div_pos (rk p) (2 ^ Z.of_nat k) ltac:(lia) ltac:(lia)).
  assert (rk p / 2 ^ Z.of_nat k < 2 ^ Z.of_nat (K - k)) by (apply Z.div_lt_upper_bound; lia). nia.
Qed.

(** ** The steps *)

Context (pSync target source len : Z) (Hlen : 0 < len).
Let sum := i32_calc SHM_INTERNAL_SUM.
Definition word (k : nat) : Z := pSync + SIZEOF_INT * Z.of_nat k.
Definition dcell (p : Z) (k : nat) : Z := target + block p k * len.
Definition dsize (k : nat) : Z := 2 ^ Z.of_nat k * len.

Definition round_slots (p : Z) (k : nat) : list (option op) :=
  map Some [OPut (partner p k) (dcell p k) (Pending (dcell p k) (upto 0 (dsize k))) false;
   OPutWait;
   OFence;
   OAtomic (partner p k) (word k) sum (Captured [(0, 1)]);
   OWait (word k) SHMEM_CMP_NE 0;
   OAtomic p (word k) sum (Captured [(0, -1)])].

Definition own (p : Z) : lmem -> lmem := copy_bytes (target + rk p * len) source len.
Definition dbl_slots (p : Z) : list (option op) :=
  Some (OLocal (own p)) :: flat_map (round_slots p) (seq 0 K) ++ [Some OQuiet].

(** The position of slot [j] of round [k], and of the quiet. *)
Definition at_round (k j : nat) : nat := (1 + 6 * k + j)%nat.
Abbreviation last := (at_round K 0).

Lemma at_round_inj k j k' j' : (j < 6)%nat -> (j' < 6)%nat -> at_round k j = at_round k' j' -> k = k' /\ j = j'.
Proof. unfold at_round. lia. Qed.

Lemma dbl_at p k j : (j < 6)%nat -> (k < K)%nat -> dbl_slots p !! at_round k j = round_slots p k !! j.
Proof.
  intros Hj Hk. unfold dbl_slots, at_round. rewrite lookup_cons_ne_0 by lia.
  replace (Nat.pred (1 + 6 * k + j)) with (6 * k + j)%nat by lia.
  rewrite lookup_app_l by (rewrite (length_blocks 6) by done; lia). by rewrite lookup_blocks.
Qed.

Lemma length_dbl p : length (dbl_slots p) = S last.
Proof. unfold dbl_slots, at_round. cbn [length]. rewrite length_app, (length_blocks 6) by done. simpl. lia. Qed.

Lemma dbl_position p v oo : dbl_slots p !! v = Some oo ->
  v = 0%nat /\ oo = Some (OLocal (own p)) \/ v = last /\ oo = Some OQuiet \/
  exists k j, (k < K)%nat /\ (j < 6)%nat /\ v = at_round k j /\ round_slots p k !! j = Some oo.
Proof.
  intros Hv. pose proof (lookup_lt_Some _ _ _ Hv) as Hlt. rewrite length_dbl in Hlt.
  destruct v as [|v]; [left; by injection Hv as <-|right]. unfold at_round in Hlt.
  destruct (decide (v = 6 * K)%nat) as [->|Hne].
  - left. split; [unfold at_round; lia|]. unfold dbl_slots in Hv. rewrite lookup_cons_ne_0 in Hv by lia.
    rewrite lookup_app_r in Hv by (rewrite (length_blocks 6) by done; simpl; lia).
    rewrite (length_blocks 6) in Hv by done. cbn [Nat.pred] in Hv. rewrite Nat.sub_diag in Hv. by injection Hv as <-.
  - right. destruct (in_block 6 K v ltac:(lia)) as (k & j & Hk & Hj & ->). exists k, j.
    change (S (6 * k + j)) with (at_round k j) in *. rewrite dbl_at in Hv by done. done.
Qed.

(** Every slot holds an operation. *)
Lemma dbl_full p v : dbl_slots p !! v <> Some None.
Proof.
  intros [[_ H]|[[_ H]|(k & j & _ & _ & _ & H)]]%dbl_position; try done.
  unfold round_slots in H. rewrite list_lookup_fmap in H. by destruct (_ !! j).
Qed.

(** ** The messages *)

Inductive did := DDat (k : nat) (p : Z) | DAck (k : nat) (p : Z) | DSub (k : nat) (p : Z).
#[local] Instance did_eq : EqDecision did.
Proof. solve_decision. Defined.

Definition dident (m : msg) : did :=
  match m_kind m with
  | KPut => DDat (m_epoch m) (m_src m)
  | KAtomic _ => if m_src m =? m_dst m then DSub (Nat.pred (m_epoch m)) (m_src m) else DAck (Nat.pred (m_epoch m)) (m_src m)
  end.
(** The fences before a position: one in each round. *)
Definition dep (p : Z) (v : nat) : nat :=
  match v with
  | O => 0
  | S u => (u / 6 + if (2 <? u mod 6)%nat then 1 else 0)%nat
  end.
Definition dhome (i : did) : Z * nat :=
  match i with
  | DDat k p => (p, at_round k 0)
  | DAck k p => (p, at_round k 3)
  | DSub k p => (p, at_round k 5)
  end.
Inductive dsent (p : Z) : nat -> did -> Prop :=
| ds_dat k : (k < K)%nat -> dsent p (at_round k 0) (DDat k p)
| ds_ack k : (k < K)%nat -> dsent p (at_round k 3) (DAck k p)
| ds_sub k : (k < K)%nat -> dsent p (at_round k 5) (DSub k p).

Abbreviation dsends := (sends dident dbl_slots dep).

Lemma dep_at p k j : (j < 6)%nat -> dep p (at_round k j) = (k + if (2 <? j)%nat then 1 else 0)%nat.
Proof.
  intros Hj. unfold at_round. replace (1 + 6 * k + j)%nat with (S (j + k * 6)) by lia. unfold dep.
  by rewrite Nat.div_add, Nat.Div0.mod_add, Nat.div_small, Nat.mod_small by lia.
Qed.

Lemma dep_next p k j : (j < 6)%nat ->
  dep p (S (at_round k j)) = (dep p (at_round k j) + if (j =? 2)%nat then 1 else 0)%nat.
Proof.
  intros Hj. rewrite (dep_at p k j Hj). destruct (decide (j = 5)%nat) as [->|].
  - replace (S (at_round k 5)) with (at_round (S k) 0) by (unfold at_round; lia). rewrite dep_at by lia. simpl. lia.
  - replace (S (at_round k j)) with (at_round k (S j)) by (unfold at_round; lia). rewrite dep_at by lia.
    destruct (Nat.ltb_spec 2 (S j)), (Nat.ltb_spec 2 j), (Nat.eqb_spec j 2); lia.
Qed.

Lemma dsends_iff p v i : p ∈ M -> dsends p v = Some i <-> dsent p v i.
Proof.
  intros Hp. assert (forall k, p =? partner p k = false) as Hne
    by (intros k; apply Z.eqb_neq; intros E; by apply (partner_ne p k Hp)). split.
  - unfold sends. destruct (dbl_slots p !! v) as [oo|] eqn:Ev; [|done].
    apply dbl_position in Ev as [[-> ->]|[[-> ->]|(k & j & Hk & Hj & -> & Hs)]]; [done|done|].
    rewrite dep_at by done. destruct j as [|[|[|[|[|[|j]]]]]]; [injection Hs as <-..|lia]; simpl; try done;
      intros [= <-]; unfold dident; simpl; rewrite ?Hne, ?Z.eqb_refl, ?Nat.add_0_r, ?Nat.add_1_r; by constructor.
  - intros Hs. unfold sends. destruct Hs as [k Hk|k Hk|k Hk]; rewrite dbl_at, dep_at by lia; simpl; unfold dident; simpl;
      by rewrite ?Hne, ?Z.eqb_refl, ?Nat.add_0_r, ?Nat.add_1_r.
Qed.

Lemma dhome_sends p v i : p ∈ M -> dsends p v = Some i -> dhome i = (p, v).
Proof. intros Hp Hs%dsends_iff; [|done]. by destruct Hs. Qed.

Lemma dident_same m d : dident (Msg (m_src m) (m_dst m) (m_epoch m) (m_kind m) (m_target m) (m_nbi m) d) = dident m.
Proof. done. Qed.

Abbreviation dflight := (flight dident M dbl_slots dep dhome).
Abbreviation darrived := (arrived dident M dbl_slots dep dhome).
Abbreviation dsentb := (sentb dident M dbl_slots dep dhome).

Lemma sent_dsent lb i : dsentb lb i = true -> exists p v, dhome i = (p, v) /\ p ∈ M /\ dsent p v i /\ (v < lb p)%nat.
Proof. intros (p & v & Hh & Hp & Hs%dsends_iff & Hv)%sentb_elim; [|done]. by exists p, v. Qed.
Lemma dsent_sentb lb p v i : p ∈ M -> dsent p v i -> (v < lb p)%nat -> dsentb lb i = true.
Proof. intros Hp Hs Hv. eapply sentb_intro; [apply dhome_sends|done|by apply dsends_iff|done]. Qed.
Lemma arr_dsent lb s i : darrived lb s i = true -> exists p v, dhome i = (p, v) /\ p ∈ M /\ dsent p v i /\ (v < lb p)%nat.
Proof. intros ?%arrived_sent. by apply sent_dsent. Qed.

(** ** What the members hold *)

Context (m0 : Z -> lmem).
Abbreviation collected := (collected start stride source len m0).
Definition beyond (b : Z) : Prop := (forall k, (k < K)%nat -> b <> word k) /\ ~ (target <= b < target + n * len).
Context (Hwords : forall k, (k < K)%nat -> ~ (target <= word k < target + n * len)).
Context (Hsource : forall a, 0 <= a < len -> beyond (source + a)).

Record dctl (lb : Z -> nat) (s : state) : Prop := {
  dc_flight : dflight lb (net s);
  dc_len : forall p, p ∈ M -> (lb p <= S last)%nat;
  dc_epoch : forall p, p ∈ M -> epoch s p = dep p (lb p);
  dc_wait : forall p k, p ∈ M -> (k < K)%nat -> (at_round k 4 < lb p)%nat ->
    darrived lb (net s) (DAck k (partner p k)) = true;
  dc_quiet : forall p m, p ∈ M -> (last < lb p)%nat -> m ∈ net s -> m_src m <> p;
  dc_order : forall k p, p ∈ M -> darrived lb (net s) (DAck k p) = true -> darrived lb (net s) (DDat k p) = true }.

(** Whether member [p] has the contribution of rank [c]. *)
Definition has (lb : Z -> nat) (arr : did -> bool) (p c : Z) : bool :=
  if c =? rk p then (0 <? lb p)%nat else arr (DDat (level p c) (partner p (level p c))).
Abbreviation b2z := Z.b2z.

Record dmem (lb : Z -> nat) (arr : did -> bool) (mm : Z -> lmem) : Prop := {
  dm_word : forall p k, p ∈ M -> (k < K)%nat -> mm p (word k) = b2z (arr (DAck k (partner p k))) - b2z (arr (DSub k p));
  dm_cell : forall p x, p ∈ M -> 0 <= x < n * len ->
    mm p (target + x) = if has lb arr p (x / len) then collected x else m0 p (target + x);
  dm_out : forall p b, p ∉ M \/ beyond b -> mm p b = m0 p b }.

Definition block_vals (p : Z) (k : nat) : list (Z * Z) := map (fun o => (o, collected (block p k * len + o))) (upto 0 (dsize k)).

Definition dgood (m : msg) : Prop :=
  match dident m with
  | DDat k p => m_src m = p /\ m_dst m = partner p k /\ m_kind m = KPut /\ m_target m = dcell p k /\
      (m_data m = Pending (dcell p k) (upto 0 (dsize k)) \/ m_data m = Captured (block_vals p k))
  | DAck k p => m_src m = p /\ m_dst m = partner p k /\ m_kind m = KAtomic sum /\ m_target m = word k /\
      m_epoch m = S k /\ m_data m = Captured [(0, 1)]
  | DSub k p => m_src m = p /\ m_dst m = p /\ m_kind m = KAtomic sum /\ m_target m = word k /\ m_data m = Captured [(0, -1)]
  end.

Definition dinv (lb : Z -> nat) (s : state) : Prop :=
  dctl lb s /\ (forall m, m ∈ net s -> dgood m) /\ dmem lb (darrived lb (net s)) (mem s).

Lemma dsent_of lb s m : dctl lb s -> m ∈ net s -> exists p v, dhome (dident m) = (p, v) /\ p ∈ M /\
  dsent p v (dident m) /\ (v < lb p)%nat /\ darrived lb (net s) (dident m) = false.
Proof.
  intros Hc Hm. destruct (flight_in _ _ _ _ _ _ _ _ (dc_flight _ _ Hc) Hm) as [Hsent Hna].
  destruct (sent_dsent lb _ Hsent) as (p & v & ? & ? & ? & ?). by exists p, v.
Qed.

(** The addresses of a block. *)
Lemma block_address p k o : p ∈ M -> (k < K)%nat -> 0 <= o < dsize k ->
  0 <= block p k * len + o < n * len /\ block p k <= (block p k * len + o) / len < block p k + 2 ^ Z.of_nat k.
Proof.
  intros Hp Hk Ho. unfold dsize in Ho. destruct (held_bound p k Hp ltac:(lia)) as [H1 H2]. split; [nia|].
  rewrite Z.add_comm, Z.div_add by lia. pose proof (Z.div_pos o len ltac:(lia) ltac:(lia)).
  assert (o / len < 2 ^ Z.of_nat k) by (apply Z.div_lt_upper_bound; lia). lia.
Qed.

Lemma in_block_address p k x : block p k <= x / len < block p k + 2 ^ Z.of_nat k <-> 0 <= x - block p k * len < dsize k.
Proof.
  unfold dsize. pose proof (Z.div_mod x len ltac:(lia)). pose proof (Z.mod_pos_bound x len ltac:(lia)). split; intros; nia.
Qed.

Lemma rank_range x : 0 <= x < n * len -> 0 <= x / len < n.
Proof. intros Hx. split; [apply Z.div_pos; lia|apply Z.div_lt_upper_bound; lia]. Qed.

(** A member about to send a block, or that has sent it, has all of it. *)
Lemma has_block lb s p k c : dctl lb s -> p ∈ M -> (k <= K)%nat -> (0 < lb p)%nat -> (at_round k 0 <= lb p)%nat -> 0 <= c < n ->
  block p k <= c < block p k + 2 ^ Z.of_nat k -> has lb (darrived lb (net s)) p c = true.
Proof.
  intros Hc Hp Hk H0 Hv Hcb Hb. unfold has. destruct (Z.eqb_spec c (rk p)) as [|Hne]; [by apply Nat.ltb_lt|].
  pose proof (level_block p c k Hp Hcb Hb Hne). pose proof (level_lt p c Hp Hcb Hne) as Hl.
  apply (dc_order _ _ Hc); [by apply partner_in|]. apply (dc_wait _ _ Hc); [done|done|]. unfold at_round in *. lia.
Qed.

Lemma block_values lb s p k o : dinv lb s -> p ∈ M -> (k < K)%nat -> (at_round k 0 < lb p)%nat -> 0 <= o < dsize k ->
  mem s p (dcell p k + o) = collected (block p k * len + o).
Proof.
  intros (Hc & _ & Hm) Hp Hk Hv Ho. destruct (block_address p k o Hp Hk Ho) as [Hx Hb]. unfold dcell.
  rewrite <- Z.add_assoc, (dm_cell _ _ _ Hm) by done.
  rewrite (has_block lb s p k); [done|done|done|lia|lia|lia|by apply rank_range|done].
Qed.

(** ** The network *)

Lemma dinv_capture lb s l1 m l2 src os :
  dinv lb s -> net s = l1 ++ m :: l2 -> m_data m = Pending src os ->
  dinv lb (set_net s (l1 ++ Msg (m_src m) (m_dst m) (m_epoch m) (m_kind m) (m_target m) (m_nbi m)
                  (Captured (map (fun o => (o, mem s (m_src m) (src + o))) os)) :: l2)).
Proof.
  intros Hinv E Hd. pose proof Hinv as (Hc & Hg & Hm).
  assert (m ∈ net s) as Hm' by (rewrite E, elem_of_app, elem_of_cons; auto).
  pose proof (Hg m Hm') as Hgm. destruct (dsent_of lb s m Hc Hm') as (q & v & Hh & Hq & Hs & Hv & Hna).
  destruct (flight_capture dident dident_same M dbl_slots dep dhome lb l1 m l2
    (Captured (map (fun o => (o, mem s (m_src m) (src + o))) os))) as [Hf Ha]; [by rewrite <- E; apply dc_flight|].
  set (m2 := Msg _ _ _ _ _ _ _) in *. rewrite <- E in Ha.
  assert (dgood m2) as Hg2.
  { unfold dgood in *. change (dident m2) with (dident m). destruct (dident m) as [k p|k p|k p] eqn:Ei;
      try (exfalso; clear -Hgm Hd; destruct_and!; congruence).
    injection Hh as <- <-. destruct Hgm as (Hsr & G1 & G2 & G3 & [Hda|Hda]); rewrite Hd in Hda; [|done].
    injection Hda as -> ->. repeat (split; [done|]). right. unfold m2. simpl. f_equal. unfold block_vals.
    apply map_ext_in. intros o Ho%list_elem_of_In%elem_of_upto. f_equal. rewrite Hsr.
    apply (block_values lb); try done. by inversion Hs. }
  assert (forall m', m' ∈ l1 ++ m2 :: l2 -> m' = m2 \/ m' ∈ net s) as Hsub
    by (intros m'; rewrite E, !elem_of_app, !elem_of_cons; tauto).
  destruct Hc as [C1 C2 C3 C4 C5 C6]. split; [|split].
  - split; simpl; rewrite ?Ha; try done. intros p m' Hp Hl [->|Hin]%Hsub; [by apply (C5 p m)|by apply C5].
  - intros m' [->|Hin]%Hsub; [done|by apply Hg].
  - simpl. by rewrite Ha.
Qed.

Lemma dctl_deliver lb s l1 m l2 mm :
  dctl lb s -> (forall m', m' ∈ net s -> dgood m') -> net s = l1 ++ m :: l2 -> fence_ready m (l1 ++ l2) = true ->
  dctl lb (St mm (l1 ++ l2) (epoch s) (log s)) /\ darrived lb (l1 ++ l2) = arrives (darrived lb (net s)) (dident m).
Proof.
  intros Hc Hg E Hf. assert (m ∈ net s) as Hm' by (rewrite E, elem_of_app, elem_of_cons; auto).
  destruct (flight_deliver dident M dbl_slots dep dhome lb l1 m l2) as [Hfl Ha]; [by rewrite <- E; apply dc_flight|].
  rewrite <- E in Ha. split; [|by extensionality i].
  assert (forall m', m' ∈ l1 ++ l2 -> m' ∈ net s) as Hsub by (intros m'; rewrite E, !elem_of_app, elem_of_cons; tauto).
  assert (forall i, darrived lb (net s) i = true -> darrived lb (l1 ++ l2) i = true) as Hmono
    by (intros i Hi; by rewrite Ha, Hi).
  destruct Hc as [C1 C2 C3 C4 C5 C6]. split; simpl; try done.
  - intros; by apply Hmono, C4.
  - intros p m' Hp Hl Hin. apply C5; auto.
  - intros k p Hp Hack. rewrite Ha in Hack. destruct (darrived lb (net s) (DAck k p)) eqn:Hold; [by apply Hmono, C6|].
    simpl in Hack. apply bool_decide_eq_true in Hack. symmetry in Hack. apply Hmono.
    destruct (flight_in _ _ _ _ _ _ _ _ C1 Hm') as [Hsent _]. rewrite Hack in Hsent.
    destruct (sent_dsent lb _ Hsent) as (q & v & Hh & _ & Hs & Hv). injection Hh as <- <-.
    assert (k < K)%nat as Hk by (by inversion Hs). unfold arrived.
    rewrite (dsent_sentb lb p (at_round k 0)); [|done|by constructor|unfold at_round in *; lia].
    apply Nat.eqb_eq, countb_zero. intros m' Hin'. apply bool_decide_eq_false. intros Hid.
    assert (m' ∈ l1 ++ l2) as Hin2.
    { rewrite E, elem_of_app, elem_of_cons in Hin'. rewrite elem_of_app. destruct Hin' as [|[->|]]; auto. congruence. }
    pose proof (Hg m Hm') as Hgm. pose proof (Hg m' Hin') as Hgm'. unfold dgood in Hgm, Hgm'. rewrite Hack in Hgm. rewrite Hid in Hgm'.
    destruct Hgm as (S1 & S2 & _ & _ & S3 & _). destruct Hgm' as (T1 & T2 & T3 & _). unfold dident in Hid. rewrite T3 in Hid.
    injection Hid as T4 _. pose proof (fence_ready_none _ _ m' Hf Hin2 ltac:(congruence) ltac:(congruence)). lia.
Qed.

(** A counter changes. *)
Lemma dmem_word lb arr mm i p k x : dmem lb arr mm -> p ∈ M -> (k < K)%nat -> (forall j q, i <> DDat j q) ->
  x = b2z (arrives arr i (DAck k (partner p k))) - b2z (arrives arr i (DSub k p)) ->
  (forall q j, q ∈ M -> (j < K)%nat -> q <> p \/ j <> k -> arrives arr i (DAck j (partner q j)) = arr (DAck j (partner q j)) /\
    arrives arr i (DSub j q) = arr (DSub j q)) ->
  dmem lb (arrives arr i) (<[p := <[word k := x]> (mm p)]> mm).
Proof.
  intros [R1 R2 R3] Hp Hk Hi Hx Hoth. split.
  - intros q j Hq Hj. rewrite (insert_cases mm). destruct (decide (p = q)) as [<-|Hne].
    + rewrite insert_cases. destruct (decide (word k = word j)) as [Ew|Ew].
      * assert (j = k) as -> by (unfold word, SIZEOF_INT in Ew; lia). done.
      * destruct (Hoth p j Hq Hj) as [-> ->]; [right; congruence|]. by apply R1.
    + destruct (Hoth q j Hq Hj) as [-> ->]; [left; congruence|]. by apply R1.
  - intros q y Hq Hy. assert (has lb (arrives arr i) q (y / len) = has lb arr q (y / len)) as ->
      by (unfold has; case_match; [done|apply arrives_ne; congruence]).
    rewrite <- R2 by done. update_cases; [subst q|done]. rewrite fn_lookup_insert_ne; [done|].
    intros E. apply (Hwords k Hk). lia.
  - intros q b Hb. rewrite <- (R3 q b Hb). update_cases; [subst q|done]. destruct Hb as [|[Hb _]]; [done|].
    rewrite fn_lookup_insert_ne; [done|]. intros E. by apply (Hb k Hk).
Qed.

(** A block arrives. *)
Lemma dmem_data lb arr mm q k : dmem lb arr mm -> q ∈ M -> (k < K)%nat ->
  dmem lb (arrives arr (DDat k q))
    (<[partner q k := apply_vals KPut (dcell q k) (block_vals q k) (mm (partner q k))]> mm).
Proof.
  intros [R1 R2 R3] Hq Hk. pose proof (partner_in q k Hq Hk) as Hp. set (p := partner q k) in *.
  assert (partner p k = q) as Hpq by (by apply partner_partner). set (m' := apply_vals _ _ _ _).
  assert (forall x, 0 <= x < n * len -> m' (target + x) =
    if bool_decide (0 <= x - block q k * len < dsize k) then collected x else mm p (target + x)) as Hat.
  { intros x Hx. unfold m'. destruct (apply_puts (dcell q k) (block_vals q k) (mm p) (target + x)) as [([o v] & Ho & E & ->)|[Hno ->]].
    - apply list_elem_of_fmap in Ho as (o' & [= -> ->] & Ho%elem_of_upto). simpl in *. unfold dcell in E.
      rewrite bool_decide_eq_true_2 by lia. f_equal. lia.
    - rewrite bool_decide_eq_false_2; [done|]. intros Hb. apply (Hno (x - block q k * len, collected x)); [|unfold dcell; simpl; lia].
      apply list_elem_of_fmap. exists (x - block q k * len). split; [do 2 f_equal; lia|]. by apply elem_of_upto. }
  assert (forall b, ~ (target <= b < target + n * len) -> m' b = mm p b) as Hout.
  { intros b Hb. unfold m'. destruct (apply_puts (dcell q k) (block_vals q k) (mm p) b) as [([o v] & Ho & E & ->)|[Hno ->]]; [|done].
    apply list_elem_of_fmap in Ho as (o' & [= -> ->] & Ho%elem_of_upto). simpl in E. unfold dcell in E.
    destruct (block_address q k o' Hq Hk Ho). lia. }
  assert (forall p' c, p' ∈ M -> 0 <= c < n -> has lb (arrives arr (DDat k q)) p' c =
    if decide (p' = p) then bool_decide (block q k <= c < block q k + 2 ^ Z.of_nat k) || has lb arr p' c else has lb arr p' c) as Hhas.
  { intros p' c Hp' Hc. unfold has. destruct (decide (p' = p)) as [->|Hne].
    - pose proof (level_spec p c k Hp Hc Hk) as Hl. rewrite Hpq in Hl. destruct (Z.eqb_spec c (rk p)) as [->|Hne].
      + rewrite bool_decide_eq_false_2 by (rewrite <- Hl; tauto). done.
      + destruct (decide (level p c = k)) as [E|E].
        * rewrite E, Hpq, arrives_at, bool_decide_eq_true_2 by (by apply Hl). done.
        * rewrite bool_decide_eq_false_2 by (rewrite <- Hl; tauto). rewrite arrives_ne by congruence. done.
    - case_match; [done|]. apply arrives_ne. intros [= El Ep]. apply Hne. unfold p. rewrite <- Ep, El. symmetry.
      rewrite El in *. by apply partner_partner. }
  split.
  - intros p' j Hp' Hj. rewrite !arrives_ne, <- R1 by done. update_cases; [subst p'|done]. by apply Hout, Hwords.
  - intros p' x Hp' Hx. rewrite Hhas by (done || by apply rank_range). update_cases; [subst p'|].
    + rewrite decide_True, Hat, R2 by done.
      rewrite (bool_decide_ext _ (block q k <= x / len < block q k + 2 ^ Z.of_nat k)) by (symmetry; apply in_block_address).
      destruct (bool_decide _); [done|]. done.
    + rewrite decide_False by congruence. by apply R2.
  - intros p' b Hb. rewrite <- (R3 p' b Hb). update_cases; [subst p'|done]. destruct Hb as [|[_ Hb]]; [done|]. by apply Hout.
Qed.

Lemma sum_small a b c : -2 <= a <= 2 -> -2 <= b <= 2 -> c = a + b -> sum a b = c.
Proof. intros Ha Hb ->. unfold sum, i32_calc. apply signed_sum; lia. Qed.

Lemma b2z_range b : 0 <= b2z b <= 1.
Proof. destruct b; simpl; lia. Qed.

Lemma dinv_deliver lb s l1 m l2 vals :
  dinv lb s -> net s = l1 ++ m :: l2 -> m_data m = Captured vals -> fence_ready m (l1 ++ l2) = true ->
  dinv lb (set_net (set_mem s (m_dst m) (apply_vals (m_kind m) (m_target m) vals (mem s (m_dst m)))) (l1 ++ l2)).
Proof.
  intros (Hc & Hg & Hm) E Hd Hf. assert (m ∈ net s) as Hm' by (rewrite E, elem_of_app, elem_of_cons; auto).
  destruct (dctl_deliver lb s l1 m l2 (<[m_dst m := apply_vals (m_kind m) (m_target m) vals (mem s (m_dst m))]> (mem s)))
    as [Hc' Ha]; [done..|].
  split; [exact Hc'|]. split; [intros m' Hin; apply Hg; rewrite E; simpl in Hin; apply elem_of_app in Hin;
    rewrite elem_of_app, elem_of_cons; tauto|].
  simpl. rewrite Ha. pose proof (Hg m Hm') as Hgm. destruct (dsent_of lb s m Hc Hm') as (q & v & Hh & Hq & Hs & Hv & Hna).
  unfold dgood in Hgm. destruct (dident m) as [k p|k p|k p] eqn:Ei; injection Hh as <- <-;
    assert (k < K)%nat as Hk by (by inversion Hs).
  - destruct Hgm as (_ & -> & -> & -> & [Hda|Hda]); rewrite Hd in Hda; [done|]. injection Hda as ->. by apply dmem_data.
  - destruct Hgm as (_ & -> & -> & -> & _ & Hda). rewrite Hd in Hda. injection Hda as ->.
    cbn [apply_vals fold_left combine_kind]. rewrite Z.add_0_r. pose proof (partner_in p k Hq Hk) as Hp.
    rewrite <- (partner_partner p k Hq) at 1. rewrite <- (partner_partner p k Hq) in Hna.
    apply dmem_word; [done|done|done|done| |].
    + rewrite arrives_at, arrives_ne by done. rewrite (dm_word _ _ _ Hm) by done. rewrite Hna.
      pose proof (b2z_range (darrived lb (net s) (DSub k (partner p k)))). apply sum_small; simpl; lia.
    + intros q' j Hq' Hj Hne. split; [|by apply arrives_ne]. apply arrives_ne. intros [= -> E']. destruct Hne as [Hne|]; [|done].
      apply Hne. rewrite <- (partner_partner q' k Hq'), E'. by apply partner_partner, partner_in.
  - destruct Hgm as (_ & -> & -> & -> & Hda). rewrite Hd in Hda. injection Hda as ->.
    cbn [apply_vals fold_left combine_kind]. rewrite Z.add_0_r. apply dmem_word; [done|done|done|done| |].
    + rewrite arrives_at, arrives_ne by done. rewrite (dm_word _ _ _ Hm) by done. rewrite Hna.
      pose proof (b2z_range (darrived lb (net s) (DAck k (partner p k)))). apply sum_small; simpl; lia.
    + intros q' j Hq' Hj Hne. split; [by apply arrives_ne|]. apply arrives_ne. intros [= -> ->]. tauto.
Qed.

Lemma dinv_net lb s s' : dinv lb s -> net_step s s' -> dinv lb s'.
Proof.
  intros Hi Hst. destruct Hst as [s l1 m l2 src os E Hd|s l1 m l2 vals E Hd Hf]; [by eapply dinv_capture|by eapply dinv_deliver].
Qed.

(** ** The members *)

Lemma has_step lb arr p q c : lb p <> 0%nat -> has (<[p := S (lb p)]> lb) arr q c = has lb arr q c.
Proof.
  intros H0. unfold has. case_match; [|done]. update_cases; [subst q|done].
  destruct (Nat.ltb_spec 0 (S (lb p))), (Nat.ltb_spec 0 (lb p)); lia || done.
Qed.

Lemma dmem_step lb arr mm p : dmem lb arr mm -> lb p <> 0%nat -> dmem (<[p := S (lb p)]> lb) arr mm.
Proof. intros [R1 R2 R3] H0. split; [done| |done]. intros q x Hq Hx. rewrite has_step by done. by apply R2. Qed.

(** The copy of the own contribution. *)
Lemma dmem_copy lb arr mm p : dmem lb arr mm -> p ∈ M -> lb p = 0%nat ->
  dmem (<[p := S (lb p)]> lb) arr (<[p := own p (mm p)]> mm).
Proof.
  intros [R1 R2 R3] Hp H0. destruct (doubling_rank p Hp) as [Hr Ep].
  assert (forall b, own p (mm p) b = if bool_decide (0 <= b - (target + rk p * len) < len)
    then m0 p (source + (b - (target + rk p * len))) else mm p b) as Hown.
  { intros b. unfold own, copy_bytes. destruct (bool_decide_reflect (0 <= b - (target + rk p * len) < len)) as [Hb|Hb].
    - rewrite (proj2 (Z.leb_le _ _)), (proj2 (Z.ltb_lt _ _)) by lia. simpl. apply R3. right. by apply Hsource.
    - destruct (Z.leb_spec (target + rk p * len) b), (Z.ltb_spec b (target + rk p * len + len)); done || lia. }
  assert (forall b, ~ (target <= b < target + n * len) -> own p (mm p) b = mm p b) as Hout.
  { intros b Hb. rewrite Hown, bool_decide_eq_false_2; [done|]. nia. }
  split.
  - intros q k Hq Hk. rewrite <- R1 by done. update_cases; [subst q|done]. by apply Hout, Hwords.
  - intros q x Hq Hx. unfold has. update_cases; [subst q|].
    + rewrite fn_lookup_insert, Hown. destruct (Z.eqb_spec (x / len) (rk p)) as [E|E].
      * pose proof (Z.div_mod x len ltac:(lia)) as Hdm. pose proof (Z.mod_pos_bound x len ltac:(lia)).
        rewrite E in Hdm. rewrite bool_decide_eq_true_2 by lia. rewrite (proj2 (Nat.ltb_lt _ _)) by lia.
        unfold collected. rewrite E, <- Ep. f_equal. lia.
      * rewrite bool_decide_eq_false_2.
        { rewrite R2 by done. unfold has. by rewrite (proj2 (Z.eqb_neq _ _) E). }
        intros Hb. apply E. symmetry. apply (Z.div_unique _ _ _ (x - rk p * len)); lia.
    + rewrite fn_lookup_insert_ne by done. apply R2; done.
  - intros q b Hb. rewrite <- (R3 q b Hb). update_cases; [subst q|done]. destruct Hb as [|[_ Hb]]; [done|]. by apply Hout.
Qed.

Lemma dinv_op_gen lb s p o x s' :
  dinv lb s -> p ∈ M -> dbl_slots p !! lb p = Some (Some o) -> op_exec p o s = Some (x, s') ->
  (forall m, op_msg p o (dep p (lb p)) = Some m -> dgood m) ->
  dep p (S (lb p)) = (dep p (lb p) + match o with OFence => 1 | _ => 0 end)%nat ->
  (forall k, (k < K)%nat -> lb p = at_round k 4 -> darrived lb (net s) (DAck k (partner p k)) = true) ->
  (lb p = last -> o = OQuiet) ->
  dmem (<[p := S (lb p)]> lb) (darrived lb (net s)) (mem s') ->
  dinv (<[p := S (lb p)]> lb) s'.
Proof.
  intros Hi Hp Ho Hex Hms Hfe Hw Hq Hmem. pose proof Hi as ([C1 C2 C3 C4 C5 C6] & Hg & Hm).
  pose proof (C3 p Hp) as Hep. pose proof (op_exec_net _ _ _ _ _ Hex) as Hnet.
  destruct (flight_op dident M dbl_slots dep dhome dhome_sends lb s p o x s' Hp C1 Ho Hex) as [Hf Ha]; [by rewrite Hep|].
  pose proof (lookup_lt_Some _ _ _ Ho) as Hlt. rewrite length_dbl in Hlt.
  assert (forall q, q <> p -> <[p := S (lb p)]> lb q = lb q) as Hne by (intros q Hqp; by rewrite fn_lookup_insert_ne).
  assert (<[p := S (lb p)]> lb p = S (lb p)) as Hlp by (by rewrite fn_lookup_insert).
  assert (forall m, m ∈ option_list (op_msg p o (epoch s p)) -> m_src m = p /\ dgood m) as Hsent.
  { intros m. rewrite Hep. destruct (op_msg p o (dep p (lb p))) as [m1|] eqn:E; [|by intros ?%elem_of_nil].
    intros ->%list_elem_of_singleton. split; [|by apply Hms]. destruct o; try discriminate E; by injection E as <-. }
  split; [|split].
  - split; rewrite ?Ha; try done.
    + intros q Hq'. destruct (decide (q = p)) as [->|]; [lia|]. rewrite Hne by done. by apply C2.
    + intros q Hq'. rewrite (op_exec_epoch _ _ _ _ _ Hex). destruct (decide (q = p)) as [->|Hqp].
      * rewrite Hlp, Hfe, <- Hep. destruct o; try lia. rewrite fn_lookup_insert. lia.
      * rewrite Hne by done. rewrite <- C3 by done. destruct o; try done. by rewrite fn_lookup_insert_ne.
    + intros q k Hq' Hk Hv. destruct (decide (q = p)) as [->|Hqp]; [|rewrite Hne in Hv by done; by apply C4].
      rewrite Hlp in Hv. destruct (decide (lb p = at_round k 4)); [by apply Hw|]. apply C4; done || lia.
    + intros q m Hq' Hv Hin. rewrite Hnet in Hin. destruct (decide (q = p)) as [->|Hqp].
      * rewrite Hlp in Hv. assert (lb p = last) as El by lia. specialize (Hq El) as ->.
        simpl in Hin. rewrite app_nil_r in Hin. by eapply quiet_done.
      * rewrite Hne in Hv by done. apply elem_of_app in Hin as [Hin|Hin]; [by apply C5|].
        destruct (Hsent m Hin) as [-> _]. congruence.
  - intros m. rewrite Hnet. intros [Hin|Hin]%elem_of_app; [auto|]. by apply Hsent.
  - by rewrite Ha.
Qed.

Lemma dinv_op lb s p o x s' : dinv lb s -> p ∈ M -> dbl_slots p !! lb p = Some (Some o) ->
  op_exec p o s = Some (x, s') -> dinv (<[p := S (lb p)]> lb) s'.
Proof.
  intros Hi Hp Ho Hex. pose proof Hi as (Hc & Hg & Hm).
  pose proof (dbl_position _ _ _ Ho) as [[Hv Hs]|[[Hv Hs]|(k & j & Hk & Hj & Hv & Hs)]].
  - injection Hs as ->. apply (dinv_op_gen lb s p _ x s' Hi Hp Ho Hex); rewrite ?Hv; try done.
    injection Hex as _ <-. pose proof (dmem_copy lb _ _ p Hm Hp Hv) as H. by rewrite Hv in H.
  - injection Hs as ->. apply (dinv_op_gen lb s p _ x s' Hi Hp Ho Hex); rewrite ?Hv; try done.
    + pose proof (dep_next p K 0 ltac:(lia)) as E. by rewrite E.
    + intros k Hk E. unfold at_round in E. lia.
    + rewrite (op_exec_mem _ _ _ _ _ Hex) by done. rewrite <- Hv. apply dmem_step; [done|]. unfold at_round in Hv. lia.
  - apply (dinv_op_gen lb s p o x s' Hi Hp Ho Hex).
    + intros m. rewrite Hv, dep_at by done. unfold round_slots in Hs. rewrite list_lookup_fmap in Hs.
      assert (p =? partner p k = false) as Hne by (apply Z.eqb_neq; intros E; by apply (partner_ne p k Hp)).
      destruct j as [|[|[|[|[|[|j]]]]]]; [injection Hs as <-..|lia]; simpl; try done; intros [= <-]; unfold dgood, dident; simpl;
        rewrite ?Hne, ?Z.eqb_refl, ?Nat.add_0_r, ?Nat.add_1_r; simpl; by auto 10.
    + rewrite Hv, dep_next by done. unfold round_slots in Hs. rewrite list_lookup_fmap in Hs.
      destruct j as [|[|[|[|[|[|j]]]]]]; [injection Hs as <-..|lia]; simpl; lia.
    + intros k' _ E. rewrite Hv in E. destruct (at_round_inj k j k' 4 Hj ltac:(lia) E) as [<- ->].
      injection Hs as <-. simpl in Hex. case_match eqn:Ew; [|done]. rewrite (dm_word _ _ _ Hm) in Ew by done.
      assert (darrived lb (net s) (DSub k p) = false) as Hsub.
      { apply not_true_iff_false. intros (q & v & Hq & _ & _ & Hlt)%arr_dsent. injection Hq as <- <-. unfold at_round in *. lia. }
      rewrite Hsub in Ew. by destruct (darrived lb (net s) (DAck k (partner p k))).
    + intros E. exfalso. rewrite Hv in E. unfold at_round in E. lia.
    + unfold round_slots in Hs. rewrite list_lookup_fmap in Hs.
      assert (remote_op o = true) as Hr by (destruct j as [|[|[|[|[|[|j]]]]]]; [injection Hs as <-..|lia]; done).
      rewrite (op_exec_mem _ _ _ _ _ Hex) by done. apply dmem_step; [done|]. unfold at_round in Hv. lia.
Qed.

Lemma dinv_empty lb s p : dinv lb s -> p ∈ M -> dbl_slots p !! lb p = Some None -> dinv (<[p := S (lb p)]> lb) s.
Proof. intros _ _ H. by apply dbl_full in H. Qed.

(** With an idle network, the member that is furthest behind can move. *)
Lemma hindmost_moves lb s p o : dinv lb s -> net s = [] -> p ∈ M -> dbl_slots p !! lb p = Some (Some o) ->
  (forall q, q ∈ M -> (lb p <= lb q)%nat) -> exists r, op_exec p o s = Some r.
Proof.
  intros (Hc & _ & Hm) Hnet Hp Ho Hmin. rewrite Hnet in Hm.
  assert (forall i, darrived lb [] i = dsentb lb i) as Hidle by (intros i; apply arrived_idle).
  apply dbl_position in Ho as [[_ Hs]|[[_ Hs]|(k & j & Hk & Hj & Hv & Hs)]].
  - injection Hs as ->. simpl. eauto.
  - injection Hs as ->. simpl. rewrite Hnet. simpl. eauto.
  - unfold round_slots in Hs. rewrite list_lookup_fmap in Hs.
    destruct j as [|[|[|[|[|[|j]]]]]]; [injection Hs as <-..|lia]; simpl; rewrite ?Hnet; simpl; eauto.
    rewrite (dm_word _ _ _ Hm) by done. rewrite !Hidle.
    assert (dsentb lb (DSub k p) = false) as ->.
    { apply not_true_iff_false. intros (q & v & Hq & _ & _ & Hlt)%sent_dsent. injection Hq as <- <-. unfold at_round in *. lia. }
    pose proof (partner_in p k Hp Hk) as Hq. specialize (Hmin _ Hq).
    rewrite (dsent_sentb lb (partner p k) (at_round k 3)); [simpl; eauto|done|by constructor|unfold at_round in *; lia].
Qed.

Lemma dbl_progress lb s : dinv lb s -> settled M dbl_slots lb -> net s = [] ->
  (forall p, p ∈ M -> (length (dbl_slots p) <= lb p)%nat) \/
  exists p o r, p ∈ M /\ dbl_slots p !! lb p = Some (Some o) /\ op_exec p o s = Some r.
Proof.
  intros Hi Hset Hnet. destruct (decide (Exists (fun p => lb p < S last)%nat M)) as [HE|HE].
  - right. apply list.Exists_exists in HE as (q & Hq & Hlt).
    destruct (list_argmin (fun p => Z.of_nat (lb p)) (fun p => lb p < S last)%nat M q Hq Hlt) as (p & Hp & Hlp & Hmin).
    destruct (Hset p Hp) as [[o Ho]|Hge]; [|rewrite length_dbl in Hge; lia].
    destruct (hindmost_moves lb s p o Hi Hnet Hp Ho) as [r Hr]; [|by exists p, o, r].
    intros q' Hq'. destruct (decide (lb q' < S last)%nat) as [Hlq|]; [specialize (Hmin q' Hq' Hlq)|]; lia.
  - left. intros p Hp. rewrite length_dbl. destruct (decide (S last <= lb p)%nat) as [|Hn']; [done|].
    exfalso. apply HE, list.Exists_exists. exists p. split; [done|lia].
Qed.

(** What a member has at its end. *)
Lemma dbl_end lb s p : dinv lb s -> p ∈ M -> (S last <= lb p)%nat ->
  (forall x, 0 <= x < n * len -> mem s p (target + x) = collected x) /\
  (forall k, (k < K)%nat -> mem s p (word k) = 0) /\ forall m, m ∈ net s -> m_src m <> p.
Proof.
  intros (Hc & _ & Hm) Hp Hv. split; [|split].
  - intros x Hx. rewrite (dm_cell _ _ _ Hm) by done. rewrite (has_block lb s p K); try done; try (unfold at_round in *; lia).
    + by apply rank_range.
    + destruct (held_bound p K Hp ltac:(lia)) as [B1 B2]. pose proof (rank_range x Hx).
      assert (block p K = 0) as -> by lia. lia.
  - intros k Hk. rewrite (dm_word _ _ _ Hm) by done.
    rewrite (dc_wait _ _ Hc p k Hp Hk) by (unfold at_round in *; lia). unfold arrived.
    rewrite (dsent_sentb lb p (at_round k 5)); [|done|by constructor|unfold at_round in *; lia].
    assert (count dident (DSub k p) (net s) = 0%nat) as ->; [|done].
    apply countb_zero. intros m Hin. apply bool_decide_eq_false. intros Hid.
    apply (dc_quiet _ _ Hc p m Hp ltac:(lia) Hin). unfold dident in Hid.
    destruct (m_kind m); [|case_match]; congruence.
  - intros m. by apply (dc_quiet _ _ Hc).
Qed.

Lemma dinv_init : (forall p k, p ∈ M -> (k < K)%nat -> m0 p (word k) = 0) -> dinv (fun _ => 0%nat) (init_state m0).
Proof.
  intros H0. assert (forall i, darrived (fun _ => 0%nat) [] i = false) as Ha by (intros i; apply arrived_init).
  split; [|split].
  - split; simpl; try done; try lia.
    + apply flight_init.
    + intros k p _. by rewrite Ha.
  - by intros m ?%elem_of_nil.
  - split; simpl; try done.
    + intros p k Hp Hk. by rewrite !Ha, H0.
    + intros p x _ _. assert (has (fun _ => 0%nat) (darrived (fun _ => 0%nat) []) p (x / len) = false) as ->; [|done].
      unfold has. case_match; [done|apply Ha].
Qed.

(** ** The program *)

Lemma recdbl_program e p : p ∈ M -> shmem_internal_my_pe e = p ->
  shmem_internal_fcollect_recdbl e target source len start stride n pSync = seqp (omap id (dbl_slots p)).
Proof.
  intros Hp He. destruct (doubling_rank p Hp) as [Hr Ep]. unfold shmem_internal_fcollect_recdbl. rewrite He.
  rewrite (proj2 (Z.eqb_neq len 0)) by lia.
  assert (cdiv (p - start) stride = rk p) as -> by (unfold rank; apply cdiv_nonneg; [rewrite Ep; nia|lia]).
  destruct (fcollect_recdbl_schedule K (rk p) len HK Hr ltac:(lia)) as [-> _]. rewrite for_map.
  match goal with |- context [for_ (seq 0 K) ?f] =>
    assert (for_ (seq 0 K) f = seqp (flat_map (fun k => omap id (round_slots p k)) (seq 0 K))) as -> end.
  - apply for_seqp. intros k Hk%elem_of_seq. unfold shmem_internal_put_nb.
    rewrite (proj2 (Z.eqb_neq _ 0)) by (assert (0 < 2 ^ Z.of_nat k) by lia; nia). done.
  - unfold memcpy, shmem_internal_quiet. straighten. unfold dbl_slots. simpl. do 2 f_equal. rewrite omap_app. f_equal.
    induction (seq 0 K) as [|k l IH]; [done|]. cbn [flat_map]. by rewrite omap_app, IH.
Qed.

Lemma fcollect_recdbl_delivers (body : Z -> prog unit) :
  (forall p, p ∈ M -> body p = seqp (omap id (dbl_slots p))) ->
  (forall b, (exists k, (k < K)%nat /\ b = word k) -> in_collect_psync pSync b) ->
  (forall p b, p ∈ M -> in_collect_psync pSync b -> (exists k, b = word k) -> m0 p b = 0) ->
  (forall b, in_collect_psync pSync b -> ~ (target <= b < target + n * len)) ->
  fcollect_spec M start target (n * len) pSync collected m0 body
    (3 * (Z.to_nat n * (2 + 6 * K))).
Proof.
  intros Hbody Hin H0 Htp. assert (forall p k, p ∈ M -> (k < K)%nat -> m0 p (word k) = 0) as H0'
    by (intros p k Hp Hk; apply H0; [done|apply Hin; eauto|eauto]).
  pose proof (dinv_init H0') as Hi. assert (NoDup M) as HM by (apply NoDup_active_set; lia).
  assert (coll_job M m0 body = slots_job M dbl_slots m0) as E.
  { unfold coll_job, slots_job. f_equal. extensionality p. unfold slot_pt. case_decide; [|done]. rewrite drop_0. by apply Hbody. }
  pose proof (slots_reachable M dbl_slots dinv dinv_empty dinv_op dinv_net m0 Hi) as Hreach. rewrite <- E in Hreach.
  assert (forall w p, rtc step (coll_job M m0 body) w -> p ∈ M -> returned w p -> exists lb, dinv lb (w_st w) /\
    (S last <= lb p)%nat) as Hret.
  { intros w p Hw Hp Hr. destruct (Hreach w Hw) as (lb & Hpt & Hinv).
    destruct (slots_returned M dbl_slots dinv dinv_empty lb w p Hpt Hinv Hp Hr) as (k & Hk & Hinv').
    rewrite length_dbl in Hk. eexists. split; [exact Hinv'|]. by rewrite fn_lookup_insert. }
  split.
  - rewrite E. pose proof (slots_complete M HM dbl_slots dinv dinv_empty dinv_op dinv_net m0 Hi dbl_progress) as Hcp.
    rewrite (sum_list_const _ (S last)) in Hcp by (intros; apply length_dbl).
    replace (length M) with (Z.to_nat n) in Hcp by (unfold M; by rewrite length_active_set).
    by replace (2 + 6 * K)%nat with (S last) by (unfold at_round; lia).
  - intros w p x Hw Hp Hr Hx. destruct (Hret w p Hw Hp Hr) as (lb & Hinv & Hv). by apply (dbl_end lb _ p Hinv Hp Hv).
  - intros w p b Hw Hp Hr Hb. destruct (Hret w p Hw Hp Hr) as (lb & Hinv & Hv).
    destruct (decide (Exists (fun k => b = word k) (seq 0 K))) as [(k & Hk%elem_of_seq & ->)%list.Exists_exists|Hno].
    + destruct (dbl_end lb _ p Hinv Hp Hv) as (_ & -> & _); [|lia]. symmetry. apply H0'; [done|lia].
    + apply (dm_out _ _ _ (proj2 (proj2 Hinv))). right. split; [|by apply Htp]. intros k Hk ->. apply Hno, list.Exists_exists.
      exists k. split; [apply elem_of_seq; lia|done].
  - intros w p m Hw Hp Hr Hm Hs. destruct (Hret w p Hw Hp Hr) as (lb & Hinv & Hv).
    destruct (dbl_end lb _ p Hinv Hp Hv) as (_ & _ & Hq). by apply Hq in Hm.
  - intros w p b Hw Hb. destruct (Hreach w Hw) as (lb & _ & _ & _ & Hm). apply (dm_out _ _ _ Hm).
    destruct Hb as [|[Hb1 Hb2]]; [by left|right]. split; [|done]. intros k Hk ->. apply Hb2, Hin. eauto.
  - intros w m Hw Hr Hm. destruct (Hreach w Hw) as (lb0 & _ & Hinv0). destruct (dsent_of lb0 _ m (proj1 Hinv0) Hm)
      as (p & v & Hh & Hp & Hs & _). destruct (Hret w p Hw Hp (Hr p)) as (lb & Hinv & Hv).
    destruct (dbl_end lb _ p Hinv Hp Hv) as (_ & _ & Hq). destruct (Hq m Hm). pose proof (proj1 (proj2 Hinv0) m Hm) as Hg.
    unfold dgood in Hg. destruct (dident m); injection Hh as <- <-; by destruct Hg.
Qed.
End doubling.
