(* ===== verification/Fcollect.v ===== *)
(** * Collecting equal contributions

    [shmem_internal_fcollect] with its three algorithms and their selection.  The linear
    algorithm gathers everything at the first member, which counts the members that have
    sent, and broadcasts it from there ([Compose]); the others are in [Doubling] and
    [Rings].  All of them make the promise [fcollect_spec]. *)

From Stdlib Require Import String.
From S2P Require Import Prelude Machine Straight Slots Internal ReduceOp Comm Tree CollInit CollSync Barriers Bcast Reduce Collect Schedule BcastProof Broadcast Flight Compose Gather AllReduce Ring Rings Doubling.
Local Open Scope Z_scope.
Local Open Scope prog_scope.

(** ** Everything to the first member *)

Section linear.
Context (start stride n : Z) (Hstride : 1 <= stride) (Hn : 1 <= n < 2 ^ 31).
Let M := active_set start stride n.
Abbreviation rk := (rank start stride).
Context (pSync target source len : Z) (Hlen : 0 <= len).
Let sum := long_calc SHM_INTERNAL_SUM.

(** The first member copies, counts itself, waits for everybody and resets the word; the
    others put their contribution and then count themselves. *)
Definition linear_slots (p : Z) : list (option op) :=
  if p =? start then
    [slot (negb (source =? target)) (OLocal (copy_bytes target source len));
     Some (OAtomic start pSync sum (Captured [(0, 1)]));
     Some (OWait pSync SHMEM_CMP_EQ n);
     Some (OPut start pSync (Captured [(0, 0)]) false);
     Some (OWait pSync SHMEM_CMP_EQ 0)]
  else
    [slot (negb (len =? 0)) (OPut start (target + rk p * len) (Pending source (upto 0 len)) false);
     Some OPutWait;
     Some OFence;
     Some (OAtomic start pSync sum (Captured [(0, 1)]))].

Lemma first_in : start ∈ M.
Proof. apply elem_of_active_set. exists 0. lia. Qed.

Lemma length_linear_slots p : length (linear_slots p) = if p =? start then 5%nat else 4%nat.
Proof. unfold linear_slots. by case_match. Qed.

(** ** The messages *)

Inductive lid := LDat (p : Z) | LAck (p : Z) | LClr.
#[local] Instance lid_eq : EqDecision lid.
Proof. solve_decision. Defined.

Definition lident (m : msg) : lid :=
  match m_kind m with
  | KAtomic _ => LAck (m_src m)
  | KPut => if m_src m =? m_dst m then LClr else LDat (m_src m)
  end.
Definition ack_at (p : Z) : nat := if p =? start then 1 else 3.
Definition lhome (i : lid) : Z * nat :=
  match i with
  | LDat p => (p, 0%nat)
  | LAck p => (p, ack_at p)
  | LClr => (start, 3%nat)
  end.
Inductive lsent (p : Z) : nat -> lid -> Prop :=
| ls_dat : p <> start -> len <> 0 -> lsent p 0 (LDat p)
| ls_ack : lsent p (ack_at p) (LAck p)
| ls_clr : p = start -> lsent p 3 LClr.

Abbreviation lsends := (sends lident linear_slots no_epoch).

Lemma lsends_iff p v i : p ∈ M -> lsends p v = Some i <-> lsent p v i.
Proof.
  intros _. unfold sends, linear_slots. split.
  - destruct (Z.eqb_spec p start) as [->|Hne].
    + destruct v as [|[|[|[|[|v]]]]]; simpl; try done.
      * by destruct (negb _).
      * intros [= <-]. pose proof (ls_ack start) as H. unfold ack_at in H. rewrite Z.eqb_refl in H. done.
      * intros [= <-]. unfold lident. simpl. rewrite Z.eqb_refl. by constructor.
    + destruct v as [|[|[|[|v]]]]; simpl; try done.
      * destruct (Z.eqb_spec len 0); [done|]. simpl. intros [= <-]. unfold lident. simpl.
        rewrite (proj2 (Z.eqb_neq p start)) by done. by constructor.
      * intros [= <-]. pose proof (ls_ack p) as H. unfold ack_at in H. rewrite (proj2 (Z.eqb_neq p start)) in H by done. done.
  - destruct 1 as [Hne Hl| | ->].
    + rewrite (proj2 (Z.eqb_neq p start)), (proj2 (Z.eqb_neq len 0)) by done. simpl. unfold lident. simpl.
      by rewrite (proj2 (Z.eqb_neq p start)) by done.
    + unfold ack_at. by destruct (p =? start).
    + rewrite Z.eqb_refl. simpl. unfold lident. simpl. by rewrite Z.eqb_refl.
Qed.

Lemma lhome_sends p v i : p ∈ M -> lsends p v = Some i -> lhome i = (p, v).
Proof. intros Hp Hs%lsends_iff; [|done]. by destruct Hs as [| | ->]. Qed.

Lemma lident_same m d : lident (Msg (m_src m) (m_dst m) (m_epoch m) (m_kind m) (m_target m) (m_nbi m) d) = lident m.
Proof. done. Qed.
Lemma lident_epoch p o e e' : lident <$> op_msg p o e = lident <$> op_msg p o e'.
Proof. by destruct o. Qed.

Abbreviation lflight := (flight lident M linear_slots no_epoch lhome).
Abbreviation larrived := (arrived lident M linear_slots no_epoch lhome).
Abbreviation lsentb := (sentb lident M linear_slots no_epoch lhome).

Lemma sent_lsent lb i : lsentb lb i = true -> exists p v, lhome i = (p, v) /\ p ∈ M /\ lsent p v i /\ (v < lb p)%nat.
Proof. intros (p & v & Hh & Hp & Hs%lsends_iff & Hv)%sentb_elim; [|done]. by exists p, v. Qed.
Lemma lsent_sentb lb p v i : p ∈ M -> lsent p v i -> (v < lb p)%nat -> lsentb lb i = true.
Proof. intros Hp Hs Hv. eapply sentb_intro; [apply lhome_sends|done|by apply lsends_iff|done]. Qed.
Lemma arr_lsent lb s i : larrived lb s i = true -> exists p v, lhome i = (p, v) /\ p ∈ M /\ lsent p v i /\ (v < lb p)%nat.
Proof. intros ?%arrived_sent. by apply sent_lsent. Qed.

(** ** What the members hold *)

Context (m0 : Z -> lmem) (Hword : ~ (target <= pSync < target + n * len)).
Context (Hsource : forall a, 0 <= a < len -> source + a <> pSync /\ ~ (target <= source + a < target + n * len)).
Abbreviation collected := (collected start stride source len m0).
Definition fences (p : Z) (v : nat) : nat := if (p =? start) || (v <=? 2)%nat then 0 else 1.

Record lctl (lb : Z -> nat) (s : state) : Prop := {
  lc_flight : lflight lb (net s);
  lc_len : forall p, p ∈ M -> (lb p <= length (linear_slots p))%nat;
  lc_epoch : forall p, p ∈ M -> epoch s p = fences p (lb p);
  lc_wait : forall p, p ∈ M -> (2 < lb start)%nat -> larrived lb (net s) (LAck p) = true;
  lc_clear : (4 < lb start)%nat -> larrived lb (net s) LClr = true;
  lc_order : forall p, p ∈ M -> p <> start -> len <> 0 -> larrived lb (net s) (LAck p) = true ->
    larrived lb (net s) (LDat p) = true }.

(** Whether the contribution of [p] has come to the first member. *)
Definition got (lb : Z -> nat) (arr : lid -> bool) (p : Z) : bool :=
  if p =? start then (0 <? lb start)%nat else arr (LDat p).
Definition acks (arr : lid -> bool) : nat := countb (fun p => arr (LAck p)) M.

Record lmem_inv (lb : Z -> nat) (arr : lid -> bool) (mm : Z -> lmem) : Prop := {
  lm_word : mm start pSync = if arr LClr then 0 else Z.of_nat (acks arr);
  lm_cell : forall x, 0 <= x < n * len ->
    mm start (target + x) = if got lb arr (start + x / len * stride) then collected x else m0 start (target + x);
  lm_out : forall p b, p <> start \/ b <> pSync /\ ~ (target <= b < target + n * len) -> mm p b = m0 p b }.

Definition lgood (m : msg) : Prop :=
  match lident m with
  | LDat p => m_src m = p /\ m_dst m = start /\ m_kind m = KPut /\ m_epoch m = 0%nat /\ m_target m = target + rk p * len /\
      (m_data m = Pending source (upto 0 len) \/ m_data m = Captured (map (fun o => (o, m0 p (source + o))) (upto 0 len)))
  | LAck p => m_src m = p /\ m_dst m = start /\ m_kind m = KAtomic sum /\ m_target m = pSync /\
      (p <> start -> m_epoch m = 1%nat) /\ m_data m = Captured [(0, 1)]
  | LClr => m_src m = start /\ m_dst m = start /\ m_kind m = KPut /\ m_target m = pSync /\ m_data m = Captured [(0, 0)]
  end.

Definition linv (lb : Z -> nat) (s : state) : Prop :=
  lctl lb s /\ (forall m, m ∈ net s -> lgood m) /\ lmem_inv lb (larrived lb (net s)) (mem s).

Lemma lsent_of lb s m : lctl lb s -> m ∈ net s -> exists p v, lhome (lident m) = (p, v) /\ p ∈ M /\
  lsent p v (lident m) /\ (v < lb p)%nat /\ larrived lb (net s) (lident m) = false.
Proof.
  intros Hc Hm. destruct (flight_in _ _ _ _ _ _ _ _ (lc_flight _ _ Hc) Hm) as [Hsent Hna].
  destruct (sent_lsent lb _ Hsent) as (p & v & ? & ? & ? & ?). by exists p, v.
Qed.

(** ** The network *)

Lemma linv_capture lb s l1 m l2 src os :
  linv lb s -> net s = l1 ++ m :: l2 -> m_data m = Pending src os ->
  linv lb (set_net s (l1 ++ Msg (m_src m) (m_dst m) (m_epoch m) (m_kind m) (m_target m) (m_nbi m)
                  (Captured (map (fun o => (o, mem s (m_src m) (src + o))) os)) :: l2)).
Proof.
  intros (Hc & Hg & Hm) E Hd. assert (m ∈ net s) as Hm' by (rewrite E, elem_of_app, elem_of_cons; auto).
  pose proof (Hg m Hm') as Hgm.
  destruct (flight_capture lident lident_same M linear_slots no_epoch lhome lb l1 m l2
    (Captured (map (fun o => (o, mem s (m_src m) (src + o))) os))) as [Hf Ha]; [by rewrite <- E; apply lc_flight|].
  set (m2 := Msg _ _ _ _ _ _ _) in *. rewrite <- E in Ha.
  assert (lgood m2) as Hg2.
  { unfold lgood in *. change (lident m2) with (lident m). destruct (lident m) as [p|p|] eqn:Ei;
      try (exfalso; clear -Hgm Hd; destruct_and!; congruence).
    destruct Hgm as (Hsr & G1 & G2 & G3 & G4 & [Hda|Hda]); rewrite Hd in Hda; [|done].
    injection Hda as -> ->. repeat (split; [done|]). right. unfold m2. simpl. f_equal.
    apply map_ext_in. intros o Ho%list_elem_of_In%elem_of_upto. f_equal. rewrite Hsr. apply (lm_out _ _ _ Hm). right. by apply Hsource. }
  assert (forall m', m' ∈ l1 ++ m2 :: l2 -> m' = m2 \/ m' ∈ net s) as Hsub
    by (intros m'; rewrite E, !elem_of_app, !elem_of_cons; tauto).
  destruct Hc as [C1 C2 C3 C4 C5 C6]. split; [|split].
  - by split; simpl; rewrite ?Ha.
  - intros m' [->|Hin]%Hsub; [done|by apply Hg].
  - simpl. by rewrite Ha.
Qed.

Lemma lctl_deliver lb s l1 m l2 mm :
  lctl lb s -> (forall m', m' ∈ net s -> lgood m') -> net s = l1 ++ m :: l2 -> fence_ready m (l1 ++ l2) = true ->
  lctl lb (St mm (l1 ++ l2) (epoch s) (log s)) /\ larrived lb (l1 ++ l2) = arrives (larrived lb (net s)) (lident m).
Proof.
  intros Hc Hg E Hf. assert (m ∈ net s) as Hm' by (rewrite E, elem_of_app, elem_of_cons; auto).
  destruct (flight_deliver lident M linear_slots no_epoch lhome lb l1 m l2) as [Hfl Ha]; [by rewrite <- E; apply lc_flight|].
  rewrite <- E in Ha. split; [|by extensionality i].
  assert (forall i, larrived lb (net s) i = true -> larrived lb (l1 ++ l2) i = true) as Hmono
    by (intros i Hi; by rewrite Ha, Hi).
  destruct Hc as [C1 C2 C3 C4 C5 C6]. split; simpl; try done; auto.
  intros p Hp Hne Hl Hack. rewrite Ha in Hack. destruct (larrived lb (net s) (LAck p)) eqn:Hold; [by apply Hmono, C6|].
  simpl in Hack. apply bool_decide_eq_true in Hack. symmetry in Hack. apply Hmono.
  destruct (flight_in _ _ _ _ _ _ _ _ C1 Hm') as [Hsent _]. rewrite Hack in Hsent.
  destruct (sent_lsent lb _ Hsent) as (q & v & Hh & _ & Hs & Hv). injection Hh as <- <-. unfold arrived.
  rewrite (lsent_sentb lb p 0); [|done|by constructor|lia].
  apply Nat.eqb_eq, countb_zero. intros m' Hin'. apply bool_decide_eq_false. intros Hid.
  assert (m' ∈ l1 ++ l2) as Hin2.
  { rewrite E, elem_of_app, elem_of_cons in Hin'. rewrite elem_of_app. destruct Hin' as [|[->|]]; auto. congruence. }
  pose proof (Hg m Hm') as Hgm. pose proof (Hg m' Hin') as Hgm'. unfold lgood in Hgm, Hgm'. rewrite Hack in Hgm. rewrite Hid in Hgm'.
  destruct Hgm as (S1 & S2 & _ & _ & S3 & _). destruct Hgm' as (T1 & T2 & _ & T3 & _).
  pose proof (fence_ready_none _ _ m' Hf Hin2 ltac:(congruence) ltac:(congruence)). specialize (S3 Hne). lia.
Qed.

(** The word of the first member changes. *)
Lemma lmem_word lb arr mm i x : lmem_inv lb arr mm -> (forall p, i <> LDat p) ->
  x = (if arrives arr i LClr then 0 else Z.of_nat (acks (arrives arr i))) ->
  lmem_inv lb (arrives arr i) (<[start := <[pSync := x]> (mm start)]> mm).
Proof.
  intros [R1 R2 R3] Hi ->. split.
  - by rewrite !fn_lookup_insert.
  - intros y Hy. rewrite fn_lookup_insert, fn_lookup_insert_ne by lia. rewrite R2 by done. unfold got.
    destruct (_ =? start); [done|]. rewrite arrives_ne; [done|]. specialize (Hi (start + y / len * stride)). congruence.
  - intros p b Hb. rewrite <- (R3 p b Hb). update_cases; [subst p|done]. destruct Hb as [|[Hb _]]; [done|].
    by rewrite fn_lookup_insert_ne by congruence.
Qed.

(** A contribution arrives. *)
Lemma lmem_data lb arr mm p : lmem_inv lb arr mm -> p ∈ M -> p <> start ->
  lmem_inv lb (arrives arr (LDat p))
    (<[start := apply_vals KPut (target + rk p * len) (map (fun o => (o, m0 p (source + o))) (upto 0 len)) (mm start)]> mm).
Proof.
  intros [R1 R2 R3] Hp Hne. destruct (member_at start stride n Hstride p Hp) as [Hr Ep]. set (m' := apply_vals _ _ _ _).
  assert (forall b, m' b = if bool_decide (0 <= b - (target + rk p * len) < len)
    then m0 p (source + (b - (target + rk p * len))) else mm start b) as Hat.
  { intros b. unfold m'. destruct (apply_puts (target + rk p * len) (map (fun o => (o, m0 p (source + o))) (upto 0 len)) (mm start) b)
      as [([o v] & Ho & E & ->)|[Hno ->]].
    - apply list_elem_of_fmap in Ho as (o' & [= -> ->] & Ho%elem_of_upto). simpl in *.
      rewrite bool_decide_eq_true_2 by lia. f_equal. lia.
    - rewrite bool_decide_eq_false_2; [done|]. intros Hb. apply (Hno (b - (target + rk p * len), m0 p (source + (b - (target + rk p * len)))));
        [|simpl; lia]. apply list_elem_of_fmap. eexists. split; [done|]. by apply elem_of_upto. }
  assert (forall b, ~ (target <= b < target + n * len) -> m' b = mm start b) as Hout
    by (intros b Hb; rewrite Hat, bool_decide_eq_false_2; [done|nia]).
  split.
  - rewrite fn_lookup_insert, arrives_ne, Hout by done. unfold acks.
    rewrite (countb_ext _ (fun p => arr (LAck p))) by (intros; by apply arrives_ne). done.
  - intros x Hx. assert (0 < len) as Hl by nia. rewrite fn_lookup_insert, Hat. unfold got.
    pose proof (Z.div_mod x len ltac:(lia)) as Hdm. pose proof (Z.mod_pos_bound x len ltac:(lia)).
    destruct (decide (x / len = rk p)) as [E|E].
    + rewrite bool_decide_eq_true_2 by (rewrite E in Hdm; lia). rewrite E, <- Ep, (proj2 (Z.eqb_neq p start)), arrives_at by done.
      unfold Doubling.collected. rewrite E, <- Ep. f_equal. rewrite E in Hdm. lia.
    + rewrite bool_decide_eq_false_2.
      * rewrite R2 by done. unfold got. destruct (_ =? start); [done|]. rewrite arrives_ne; [done|]. intros [= E']. apply E.
        rewrite Ep in E'. nia.
      * intros Hb. apply E. symmetry. apply (Z.div_unique _ _ _ (x - rk p * len)); lia.
  - intros q b Hb. rewrite <- (R3 q b Hb). update_cases; [subst q|done]. destruct Hb as [|[_ Hb]]; [done|]. by apply Hout.
Qed.

Lemma acks_flip arr p : p ∈ M -> arr (LAck p) = false -> acks (arrives arr (LAck p)) = S (acks arr) /\
  (acks (arrives arr (LAck p)) <= Z.to_nat n)%nat.
Proof.
  intros Hp Hna. split.
  - apply (countb_flip _ _ _ p); [by apply NoDup_active_set|done|done|apply arrives_at|].
    intros q _ Hq. apply arrives_ne. congruence.
  - unfold acks. etransitivity; [apply countb_le|]. unfold M. by rewrite length_active_set.
Qed.

Lemma linv_deliver lb s l1 m l2 vals :
  linv lb s -> net s = l1 ++ m :: l2 -> m_data m = Captured vals -> fence_ready m (l1 ++ l2) = true ->
  linv lb (set_net (set_mem s (m_dst m) (apply_vals (m_kind m) (m_target m) vals (mem s (m_dst m)))) (l1 ++ l2)).
Proof.
  intros (Hc & Hg & Hm) E Hd Hf. assert (m ∈ net s) as Hm' by (rewrite E, elem_of_app, elem_of_cons; auto).
  destruct (lctl_deliver lb s l1 m l2 (<[m_dst m := apply_vals (m_kind m) (m_target m) vals (mem s (m_dst m))]> (mem s)))
    as [Hc' Ha]; [done..|].
  split; [exact Hc'|]. split; [intros m' Hin; apply Hg; rewrite E; simpl in Hin; apply elem_of_app in Hin;
    rewrite elem_of_app, elem_of_cons; tauto|].
  simpl. rewrite Ha. pose proof (Hg m Hm') as Hgm. destruct (lsent_of lb s m Hc Hm') as (q & v & Hh & Hq & Hs & Hv & Hna).
  unfold lgood in Hgm. destruct (lident m) as [p|p|] eqn:Ei; injection Hh as <- <-.
  - destruct Hgm as (_ & -> & -> & _ & -> & [Hda|Hda]); rewrite Hd in Hda; [done|]. injection Hda as ->.
    apply lmem_data; [done|done|]. by inversion Hs.
  - destruct Hgm as (_ & -> & -> & -> & _ & Hda). rewrite Hd in Hda. injection Hda as ->.
    cbn [apply_vals fold_left combine_kind]. rewrite Z.add_0_r. apply lmem_word; [done|done|].
    assert (larrived lb (net s) LClr = false) as Hcl.
    { apply not_true_iff_false. intros (q & v & Hq' & _ & _ & Hlt)%arr_lsent. injection Hq' as <- <-.
      rewrite (lc_wait _ _ Hc p Hq) in Hna; [done|lia]. }
    rewrite arrives_ne, Hcl, (lm_word _ _ _ Hm), Hcl by done. destruct (acks_flip _ p Hq Hna) as [Ec Hle]. rewrite Ec in *.
    unfold sum, long_calc. rewrite signed_sum by lia. lia.
  - destruct Hgm as (_ & -> & -> & -> & Hda). rewrite Hd in Hda. injection Hda as ->.
    cbn [apply_vals fold_left combine_kind]. rewrite Z.add_0_r. apply lmem_word; [done|done|]. by rewrite arrives_at.
Qed.

Lemma linv_net lb s s' : linv lb s -> net_step s s' -> linv lb s'.
Proof.
  intros Hi Hst. destruct Hst as [s l1 m l2 src os E Hd|s l1 m l2 vals E Hd Hf]; [by eapply linv_capture|by eapply linv_deliver].
Qed.

(** ** The members *)

Lemma lmem_step lb arr mm p : lmem_inv lb arr mm -> p <> start \/ lb p <> 0%nat -> lmem_inv (<[p := S (lb p)]> lb) arr mm.
Proof.
  intros [R1 R2 R3] H0. split; [done| |done]. intros x Hx. rewrite R2 by done. unfold got.
  destruct (_ =? start); [|done]. update_cases; [subst p|done].
  destruct (Nat.ltb_spec 0 (S (lb start))), (Nat.ltb_spec 0 (lb start)); lia || done || (by destruct H0).
Qed.

(** The copy of the first member's contribution, or none when it is there. *)
Lemma lmem_copy lb arr mm (b : bool) : lmem_inv lb arr mm -> lb start = 0%nat -> (b = false -> source = target) ->
  lmem_inv (<[start := 1%nat]> lb) arr (<[start := (if b then copy_bytes target source len else id) (mm start)]> mm).
Proof.
  intros [R1 R2 R3] H0 Hb.
  assert (forall a, (if b then copy_bytes target source len else id) (mm start) a = if bool_decide (0 <= a - target < len)
    then m0 start (source + (a - target)) else mm start a) as Hcp.
  { intros a. destruct (bool_decide_reflect (0 <= a - target < len)) as [Ha|Ha].
    - assert (mm start (source + (a - target)) = m0 start (source + (a - target))) as E by (apply R3; right; by apply Hsource).
      destruct b; [|simpl; rewrite <- E, Hb by done; f_equal; lia]. unfold copy_bytes.
      by rewrite (proj2 (Z.leb_le _ _)), (proj2 (Z.ltb_lt _ _)) by lia.
    - destruct b; [|done]. unfold copy_bytes. destruct (Z.leb_spec target a), (Z.ltb_spec a (target + len)); done || lia. }
  assert (forall a, ~ (target <= a < target + n * len) -> (if b then copy_bytes target source len else id) (mm start) a = mm start a)
    as Hout by (intros a Ha; rewrite Hcp, bool_decide_eq_false_2; [done|nia]).
  split.
  - rewrite fn_lookup_insert. by rewrite Hout.
  - intros x Hx. assert (0 < len) as Hl by nia. rewrite fn_lookup_insert, Hcp. unfold got. rewrite fn_lookup_insert.
    pose proof (Z.div_mod x len ltac:(lia)) as Hdm. pose proof (Z.mod_pos_bound x len ltac:(lia)).
    pose proof (Z.div_pos x len ltac:(lia) Hl). destruct (Z.eqb_spec (start + x / len * stride) start) as [E|E].
    + assert (x / len = 0) as E0 by nia. rewrite bool_decide_eq_true_2 by lia. simpl. unfold Doubling.collected.
      rewrite E. f_equal. lia.
    + rewrite bool_decide_eq_false_2 by (intros ?; apply E; rewrite Z.div_small; lia). rewrite R2 by done. unfold got.
      by rewrite (proj2 (Z.eqb_neq _ _) E).
  - intros p a Ha. rewrite <- (R3 p a Ha). update_cases; [subst p|done]. destruct Ha as [|[_ Ha]]; [done|]. by apply Hout.
Qed.

(** Moving on, with the messages sent and the memory after it. *)
Lemma linv_move lb s p s' ms :
  linv lb s -> p ∈ M -> (lb p < length (linear_slots p))%nat -> net s' = net s ++ ms ->
  lflight (<[p := S (lb p)]> lb) (net s') /\ larrived (<[p := S (lb p)]> lb) (net s') = larrived lb (net s) ->
  (forall m, m ∈ ms -> lgood m) ->
  (forall q, q ∈ M -> epoch s' q = fences q (<[p := S (lb p)]> lb q)) ->
  (p = start -> lb p = 2%nat -> forall q, q ∈ M -> larrived lb (net s) (LAck q) = true) ->
  (p = start -> lb p = 4%nat -> larrived lb (net s) LClr = true) ->
  lmem_inv (<[p := S (lb p)]> lb) (larrived lb (net s)) (mem s') ->
  linv (<[p := S (lb p)]> lb) s'.
Proof.
  intros ([C1 C2 C3 C4 C5 C6] & Hg & Hm) Hp Hlt Hnet [Hf Ha] Hms Hep Hw Hcl Hmem. split; [|split].
  - split; rewrite ?Ha; try done.
    + intros q Hq. update_cases; [subst q; lia|by apply C2].
    + intros q Hq Hv. revert Hv. update_cases; [subst p|by apply C4]. intros Hv.
      destruct (decide (lb start = 2%nat)); [by apply Hw|apply C4; done || lia].
    + intros Hv. revert Hv. update_cases; [subst p|by apply C5]. intros Hv.
      destruct (decide (lb start = 4%nat)); [by apply Hcl|apply C5; lia].
  - intros m. rewrite Hnet. intros [Hin|Hin]%elem_of_app; auto.
  - by rewrite Ha.
Qed.

Lemma linv_empty lb s p : linv lb s -> p ∈ M -> linear_slots p !! lb p = Some None -> linv (<[p := S (lb p)]> lb) s.
Proof.
  intros Hi Hp Ho. pose proof Hi as (Hc & Hg & Hm). pose proof (lookup_lt_Some _ _ _ Ho) as Hlt.
  assert (lb p = 0%nat) as H0.
  { unfold linear_slots in Ho. destruct (p =? start); destruct (lb p) as [|[|[|[|[|v]]]]]; done. }
  apply (linv_move lb s p s []); try done.
  - by rewrite app_nil_r.
  - by apply flight_empty; [apply lhome_sends|done|apply Hc|].
  - by intros m ?%elem_of_nil.
  - intros q Hq. rewrite (lc_epoch _ _ Hc q Hq). update_cases; [subst q|done]. rewrite H0. unfold fences. simpl.
    by rewrite !orb_true_r.
  - intros _ E. congruence.
  - intros _ E. congruence.
  - unfold linear_slots in Ho. rewrite H0 in Ho. simpl in Ho. destruct (Z.eqb_spec p start) as [->|Hne].
    + injection Ho as Ho%slot_none. apply negb_false_iff, Z.eqb_eq in Ho.
      pose proof (lmem_copy lb _ _ false Hm H0 (fun _ => Ho)) as H. rewrite H0. cbv beta iota delta [id] in H.
      assert (<[start := mem s start]> (mem s) = mem s) as E; [|by rewrite E in H].
      extensionality q. by update_cases; [subst q|].
    + apply lmem_step; [done|by left].
Qed.

Lemma linv_op lb s p o x s' : linv lb s -> p ∈ M -> linear_slots p !! lb p = Some (Some o) ->
  op_exec p o s = Some (x, s') -> linv (<[p := S (lb p)]> lb) s'.
Proof.
  intros Hi Hp Ho Hex. pose proof Hi as (Hc & Hg & Hm). pose proof (lookup_lt_Some _ _ _ Ho) as Hlt.
  pose proof (lc_epoch _ _ Hc p Hp) as Hep. unfold fences in Hep.
  apply (linv_move lb s p s' (option_list (op_msg p o (epoch s p)))); try done.
  - by eapply op_exec_net.
  - eapply flight_op; [apply lhome_sends|done|apply Hc|done|done|apply lident_epoch].
  - intros m. unfold linear_slots in Ho. destruct (Z.eqb_spec p start) as [->|Hne];
      destruct (lb _) as [|[|[|[|[|v]]]]]; simpl in Ho; try done; try (apply (inj Some), slot_some in Ho as [_ ->]);
      try injection Ho as <-; simpl; try (by intros ?%elem_of_nil); intros ->%list_elem_of_singleton; unfold lgood, lident; simpl;
      rewrite ?Z.eqb_refl, ?(proj2 (Z.eqb_neq p start)), ?Hep by done; simpl; naive_solver.
  - intros q Hq. rewrite (op_exec_epoch _ _ _ _ _ Hex). pose proof (lc_epoch _ _ Hc q Hq) as Hq'.
    destruct (decide (q = p)) as [->|Hqp].
    + rewrite fn_lookup_insert. rewrite Hq'. unfold linear_slots in Ho. unfold fences in *. destruct (Z.eqb_spec p start) as [->|Hne];
        destruct (lb _) as [|[|[|[|[|v]]]]]; simpl in Ho; try done; try (apply (inj Some), slot_some in Ho as [_ ->]);
        try injection Ho as <-; simpl in *; try done. rewrite fn_lookup_insert. lia.
    + rewrite (fn_lookup_insert_ne lb) by done. rewrite <- Hq'. destruct o; try done. by rewrite fn_lookup_insert_ne.
  - intros -> Hv q Hq. unfold linear_slots in Ho. rewrite Z.eqb_refl, Hv in Ho. injection Ho as <-. simpl in Hex.
    clear Hep Hlt. case_match eqn:E; [|done]. apply Z.eqb_eq in E. rewrite (lm_word _ _ _ Hm) in E.
    destruct (larrived lb (net s) LClr); [lia|]. unfold acks in E.
    assert (countb (fun p => larrived lb (net s) (LAck p)) M = length M) as Ec
      by (transitivity (Z.to_nat n); [lia|unfold M; by rewrite length_active_set]).
    by apply (proj1 (countb_all _ _) Ec).
  - intros -> Hv. unfold linear_slots in Ho. rewrite Z.eqb_refl, Hv in Ho. injection Ho as <-. simpl in Hex.
    clear Hep Hlt. case_match eqn:E; [|done]. apply Z.eqb_eq in E. rewrite (lm_word _ _ _ Hm) in E.
    destruct (larrived lb (net s) LClr); [done|exfalso].
    pose proof (countb_pos (fun p => larrived lb (net s) (LAck p)) M start first_in (lc_wait _ _ Hc start first_in ltac:(lia))).
    unfold acks in E. lia.
  - destruct (decide (p = start /\ lb p = 0%nat)) as [[-> H0]|Hne].
    + unfold linear_slots in Ho. rewrite Z.eqb_refl, H0 in Ho. apply (inj Some), slot_some in Ho as [_ ->].
      injection Hex as _ <-. rewrite H0. by apply (lmem_copy lb _ _ true).
    + assert (remote_op o = true) as Hr.
      { unfold linear_slots in Ho. destruct (Z.eqb_spec p start) as [->|];
          destruct (lb _) as [|[|[|[|[|v]]]]]; simpl in Ho; try done; try (apply (inj Some), slot_some in Ho as [_ ->]);
          try injection Ho as <-; try done. by destruct Hne. }
      rewrite (op_exec_mem _ _ _ _ _ Hex) by done. apply lmem_step; [done|]. destruct (decide (p = start)); tauto.
Qed.

(** With an idle network: the others never wait, and the first member waits for them. *)
Lemma linear_progress lb s : linv lb s -> settled M linear_slots lb -> net s = [] ->
  (forall p, p ∈ M -> (length (linear_slots p) <= lb p)%nat) \/
  exists p o r, p ∈ M /\ linear_slots p !! lb p = Some (Some o) /\ op_exec p o s = Some r.
Proof.
  intros (Hc & _ & Hm) Hset Hnet. rewrite Hnet in Hm.
  assert (forall i, larrived lb [] i = lsentb lb i) as Hidle by (intros i; apply arrived_idle).
  destruct (decide (Exists (fun p => p <> start /\ lb p < 4)%nat M)) as [HE|HE].
  - right. apply list.Exists_exists in HE as (p & Hp & Hne & Hlt). destruct (Hset p Hp) as [[o Ho]|Hge].
    2: { rewrite length_linear_slots, (proj2 (Z.eqb_neq p start)) in Hge by done. lia. }
    exists p, o. enough (exists r, op_exec p o s = Some r) as [r Hr] by (by exists r).
    unfold linear_slots in Ho. rewrite (proj2 (Z.eqb_neq p start)) in Ho by done.
    destruct (lb p) as [|[|[|[|v]]]]; simpl in Ho; try done; try (apply (inj Some), slot_some in Ho as [_ ->]);
      try injection Ho as <-; simpl; rewrite ?Hnet; simpl; eauto.
  - assert (forall p, p ∈ M -> p <> start -> (4 <= lb p)%nat) as Hoth.
    { intros p Hp Hne. destruct (decide (4 <= lb p)%nat) as [|Hn']; [done|]. exfalso. apply HE, list.Exists_exists.
      exists p. split; [done|]. split; [done|lia]. }
    pose proof (Hset start first_in) as [[o Ho]|Hge].
    + right. exists start, o. enough (exists r, op_exec start o s = Some r) as [r Hr] by (exists r; split; [apply first_in|done]).
      pose proof (lm_word _ _ _ Hm) as Hw. rewrite Hidle in Hw.
      unfold linear_slots in Ho. rewrite Z.eqb_refl in Ho.
      destruct (lb start) as [|[|[|[|[|v]]]]] eqn:Hv; simpl in Ho; try done; try (apply (inj Some), slot_some in Ho as [_ ->]);
        try injection Ho as <-; simpl; eauto.
      * assert (lsentb lb LClr = false) as Hcl.
        { apply not_true_iff_false. intros (q & v & Hq & _ & _ & Hlt)%sent_lsent. injection Hq as <- <-. lia. }
        rewrite Hcl in Hw. assert (acks (larrived lb []) = Z.to_nat n) as Ha.
        { transitivity (length M); [|unfold M; by rewrite length_active_set]. apply countb_all. intros p Hp. rewrite Hidle.
          apply (lsent_sentb lb p (ack_at p)); [done|constructor|]. unfold ack_at.
          destruct (Z.eqb_spec p start) as [->|Hne]; [lia|]. specialize (Hoth p Hp Hne). lia. }
        rewrite Hw, Ha, Z2Nat.id, Z.eqb_refl by lia. eauto.
      * rewrite (lsent_sentb lb start 3) in Hw; [|apply first_in|by constructor|lia]. rewrite Hw. simpl. eauto.
    + left. intros p Hp. rewrite length_linear_slots in *. rewrite Z.eqb_refl in Hge.
      destruct (Z.eqb_spec p start) as [->|Hne]; [done|by apply Hoth].
Qed.

(** When the first member is at its end, so are all, and everything has arrived. *)
Lemma linear_end lb s : linv lb s -> (5 <= lb start)%nat ->
  (forall p, p ∈ M -> (length (linear_slots p) <= lb p)%nat) /\ net s = [] /\ mem s start pSync = 0 /\
  forall x, 0 <= x < n * len -> mem s start (target + x) = collected x.
Proof.
  intros (Hc & _ & Hm) Hv. assert (forall p, p ∈ M -> larrived lb (net s) (LAck p) = true) as Hack
    by (intros p Hp; apply (lc_wait _ _ Hc); [done|lia]).
  split; [|split; [|split]].
  - intros p Hp. rewrite length_linear_slots. destruct (Z.eqb_spec p start) as [->|Hne]; [done|].
    destruct (arr_lsent _ _ _ (Hack p Hp)) as (q & v & Hq & _ & Hs & Hlt). injection Hq as <- <-.
    unfold ack_at in Hlt. rewrite (proj2 (Z.eqb_neq p start)) in Hlt by done. lia.
  - destruct (net s) as [|m l] eqn:En; [done|exfalso].
    assert (m ∈ net s) as Hin by (rewrite En; apply list_elem_of_here).
    destruct (lsent_of lb s m Hc Hin) as (p & v & Hh & Hp & Hs & _ & Hna). rewrite <- En in Hack. apply not_true_iff_false in Hna.
    apply Hna. destruct Hs as [Hne Hl| |Hst].
    + apply (lc_order _ _ Hc); auto.
    + auto.
    + apply (lc_clear _ _ Hc). lia.
  - rewrite (lm_word _ _ _ Hm), (lc_clear _ _ Hc) by lia. done.
  - intros x Hx. assert (0 < len) as Hl by nia. rewrite (lm_cell _ _ _ Hm) by done. unfold got.
    assert (0 <= x / len < n) as Hr by (split; [apply Z.div_pos; lia|apply Z.div_lt_upper_bound; lia]).
    destruct (Z.eqb_spec (start + x / len * stride) start) as [|Hne]; [by rewrite (proj2 (Nat.ltb_lt _ _)) by lia|].
    assert (start + x / len * stride ∈ M) as Hp by (apply elem_of_active_set; eauto).
    rewrite (lc_order _ _ Hc); [done|done|done|lia|auto].
Qed.

Lemma linv_init : m0 start pSync = 0 -> linv (fun _ => 0%nat) (init_state m0).
Proof.
  intros H0. assert (forall i, larrived (fun _ => 0%nat) [] i = false) as Ha by (intros i; apply arrived_init).
  split; [|split].
  - split; simpl; try done; try lia.
    + apply flight_init.
    + intros p _. unfold fences. simpl. by rewrite orb_true_r.
    + intros p _ _ _. by rewrite Ha.
  - by intros m ?%elem_of_nil.
  - split; simpl; try done.
    + rewrite Ha, H0. unfold acks. by rewrite (proj2 (countb_zero _ _)) by (intros; apply Ha).
    + intros x _. unfold got. destruct (_ =? start); [done|by rewrite Ha].
Qed.

(** The part before the broadcast. *)
Section body.
Context (body : Z -> prog unit) (Hbody : forall p, p ∈ M -> body p = seqp (omap id (linear_slots p))).
Context (H0 : forall p, p ∈ M -> m0 p pSync = 0).

Lemma linear_job : coll_job M m0 body = slots_job M linear_slots m0.
Proof.
  unfold coll_job, slots_job. f_equal. extensionality p. unfold slot_pt. case_decide; [|done]. rewrite drop_0. by apply Hbody.
Qed.

Lemma linear_reach w : rtc step (coll_job M m0 body) w -> exists lb,
  (forall p, progs w p = slot_pt M linear_slots p (lb p)) /\ linv lb (w_st w).
Proof. rewrite linear_job. apply (slots_reachable M linear_slots linv linv_empty linv_op linv_net m0 (linv_init (H0 start first_in))). Qed.

(** The first member has returned. *)
Lemma linear_last w : rtc step (coll_job M m0 body) w -> returned w start -> all_returned w /\
  exists lb, linv lb (w_st w) /\ (5 <= lb start)%nat.
Proof.
  intros Hw Hr. destruct (linear_reach w Hw) as (lb & Hpt & Hinv).
  destruct (slots_returned M linear_slots linv linv_empty lb w start Hpt Hinv first_in Hr) as (k & Hk & Hinv').
  rewrite length_linear_slots, Z.eqb_refl in Hk.
  assert (5 <= <[start := (lb start + k)%nat]> lb start)%nat as H5 by (by rewrite fn_lookup_insert).
  split; [|by exists (<[start := (lb start + k)%nat]> lb)].
  intros p. destruct (decide (p = start)) as [->|Hne]; [done|]. unfold returned. rewrite Hpt. unfold slot_pt.
  case_decide as Hp; [|done]. destruct (linear_end _ _ Hinv' H5) as [Hl _]. specialize (Hl p Hp).
  rewrite fn_lookup_insert_ne in Hl by done. by rewrite drop_ge.
Qed.

Lemma linear_gathers : gather_spec M start target (n * len) pSync pSync (upto 0 (n * len)) collected m0 body (15 * Z.to_nat n).
Proof.
  assert (NoDup M) as HM by (by apply NoDup_active_set). split.
  - rewrite linear_job.
    destruct (slots_complete M HM linear_slots linv linv_empty linv_op linv_net m0 (linv_init (H0 start first_in)) linear_progress) as [Hb Hp].
    split; [|done]. intros k w Hk. specialize (Hb k w Hk).
    assert (sum_list (map (fun p => length (linear_slots p)) M) <= 5 * length M)%nat as Hsum.
    { clear. induction M as [|p l IH]; simpl; [lia|]. rewrite length_linear_slots. case_match; lia. }
    assert (length M = Z.to_nat n) as El by (unfold M; by rewrite length_active_set). lia.
  - intros w Hw Hr. destruct (linear_last w Hw Hr) as (Hall & lb & Hinv & Hv). split; [done|]. by apply (linear_end lb).
  - intros w o Hw Hr Ho%elem_of_upto. destruct (linear_last w Hw Hr) as (_ & lb & Hinv & Hv). by apply (linear_end lb).
  - intros w p Hw Hr Hp. destruct (linear_last w Hw Hr) as (_ & lb & Hinv & Hv).
    destruct (decide (p = start)) as [->|Hne]; [by destruct (linear_end lb _ Hinv Hv) as (_ & _ & -> & _)|].
    assert (mem (w_st w) p pSync = m0 p pSync) as -> by (apply (lm_out _ _ _ (proj2 (proj2 Hinv))); by left).
    split; by apply H0.
  - intros w p b Hw Hb. destruct (linear_reach w Hw) as (lb & _ & _ & _ & Hm). apply (lm_out _ _ _ Hm).
    destruct (decide (p = start)) as [->|]; [right|by left]. destruct Hb as [Hb|(? & _ & ?)]; [|done].
    exfalso. apply Hb, first_in.
Qed.

(** The memories of the others do not change. *)
Lemma linear_others w p b : rtc step (coll_job M m0 body) w -> p <> start -> mem (w_st w) p b = m0 p b.
Proof. intros Hw Hne. destruct (linear_reach w Hw) as (lb & _ & _ & _ & Hm). apply (lm_out _ _ _ Hm). by left. Qed.

(** Contributions of no bytes are not sent. *)
Lemma linear_unsent w m : len = 0 -> rtc step (coll_job M m0 body) w -> m ∈ net (w_st w) -> pending (m_data m) = false.
Proof.
  intros Hl Hw Hm. destruct (linear_reach w Hw) as (lb & _ & Hc & Hg & _). specialize (Hg m Hm). unfold lgood in Hg.
  destruct (lsent_of lb _ m Hc Hm) as (p & v & _ & _ & Hs & _).
  destruct (lident m); [by inversion Hs|..]; destruct_and! Hg; by match goal with E : m_data m = _ |- _ => rewrite E end.
Qed.
End body.

(** ** The program *)

(** The linear algorithm without its broadcast. *)
Definition fcollect_linear_part (p : Z) : prog unit := seqp (omap id (linear_slots p)).

Lemma linear_program e p : p ∈ M -> shmem_internal_my_pe e = p ->
  shmem_internal_fcollect_linear e target source len start stride n pSync =
    (fcollect_linear_part p ;;
     shmem_internal_bcast e target target (len * n) 0 start stride n (pSync + SIZEOF_LONG) false).
Proof.
  intros Hp He. unfold shmem_internal_fcollect_linear, fcollect_linear_part. rewrite He, (coll_rank start stride n p Hstride Hp).
  f_equal. unfold linear_slots, clear_psync, memcpy, shmem_internal_put_nb. rewrite Z.eqb_sym.
  destruct (Z.eqb_spec p start) as [->|Hne]; straighten; [by destruct (source =? target)|by destruct (len =? 0)].
Qed.
End linear.

(** ** Gather, then broadcast *)

Section relay.
Context (M : list Z) (root target bytes pSync : Z) (total : Z -> Z) (m0 : Z -> lmem) (Hrm : root ∈ M).
Let gate := pSync + SIZEOF_LONG.
Context (Hapart : forall b, in_collect_psync pSync b -> ~ (target <= b < target + bytes)).
Context (H0 : forall p, p ∈ M -> m0 p pSync = 0 /\ m0 p gate = 0).
Context (P1 P2 : Z -> prog unit) (b1 b2 : nat) (children : Z -> list Z).
Context (Hga : gather_spec M root target bytes pSync pSync (upto 0 bytes) total m0 P1 b1).
Context (Hbc : forall m1, (forall p, p ∈ M -> m1 p gate = 0) ->
  bcast_spec M root children target target bytes gate false m1 P2 b2).
Context (Hgate : forall p, p ∈ M -> p <> root -> exists k, P2 p = Do (OWait gate SHMEM_CMP_NE 0) k).

Lemma psync_words : in_collect_psync pSync pSync /\ in_collect_psync pSync gate /\ gate <> pSync.
Proof. unfold in_collect_psync, gate, SHMEM_COLLECT_SYNC_SIZE, SIZEOF_LONG. lia. Qed.

Lemma relay_shut w p : rtc step (coll_job M m0 P1) w -> p ∈ M -> mem (w_st w) p gate = 0.
Proof.
  intros Hw Hp. destruct psync_words as (_ & Hg & Hne). rewrite (ga_frame _ _ _ _ _ _ _ _ _ _ _ Hga w p gate Hw); [by apply H0|].
  right. split; [done|]. split; [done|by apply Hapart].
Qed.

(** After the first part: the broadcast, from a memory with the result at the root. *)
Lemma relay_second w1 : rtc step (coll_job M m0 P1) w1 -> all_returned w1 ->
  bcast_spec M root children target target bytes gate false (mem (w_st w1)) P2 b2 /\
  (forall x, 0 <= x < bytes -> mem (w_st w1) root (target + x) = total x) /\
  (forall p b, p ∈ M -> in_collect_psync pSync b -> mem (w_st w1) p b = m0 p b).
Proof.
  intros Hw Hr. split; [apply Hbc; intros p; by apply relay_shut|]. split.
  - intros x Hx. apply (ga_total _ _ _ _ _ _ _ _ _ _ _ Hga); [done|done|]. by apply elem_of_upto.
  - intros p b Hp Hb. destruct (decide (b = pSync)) as [->|Hne].
    + destruct (ga_restored _ _ _ _ _ _ _ _ _ _ _ Hga w1 p Hw (Hr root) Hp) as [-> _]. symmetry. by apply H0.
    + apply (ga_frame _ _ _ _ _ _ _ _ _ _ _ Hga); [done|]. right. split; [done|]. split; [done|by apply Hapart].
Qed.

Lemma relay_fcollect : fcollect_spec M root target bytes pSync total m0 (fun p => P1 p ;; P2 p) (b1 + b2).
Proof.
  destruct psync_words as (Hps & Hpg & Hne).
  pose proof (ga_last _ _ _ _ _ _ _ _ _ _ _ Hga) as Hlast.
  pose proof (then_returned M m0 P1 P2 root Hlast gate Hgate relay_shut) as Hret.
  pose proof (then_reachable M m0 P1 P2 root Hlast gate Hgate relay_shut) as Hreach.
  split.
  - apply (then_completes M m0 P1 P2 root Hlast gate Hgate relay_shut); [apply Hga|].
    intros w1 Hw1 Hr1. by apply relay_second.
  - intros w p x Hw Hp Hr Hx. destruct (Hret w p Hw Hp Hr) as (w1 & w2 & H1 & Hall & _ & H2 & Hr2 & ->). simpl.
    destruct (relay_second w1 H1 Hall) as (Hb & Ht & _). destruct (decide (p = root)) as [->|Hpr].
    + rewrite (bc_frame _ _ _ _ _ _ _ _ _ _ _ Hb w2 root _ H2); [by apply Ht|]. right. split; [|by left].
      intros E. apply (Hapart gate Hpg). lia.
    + rewrite (bc_delivers _ _ _ _ _ _ _ _ _ _ _ Hb w2 p x H2 Hp Hr2 Hpr Hx). by apply Ht.
  - intros w p b Hw Hp Hr Hb. destruct (Hret w p Hw Hp Hr) as (w1 & w2 & H1 & Hall & _ & H2 & Hr2 & ->). simpl.
    destruct (relay_second w1 H1 Hall) as (Hbs & _ & Hz). destruct (decide (b = gate)) as [->|Hbg].
    + rewrite (bc_restored _ _ _ _ _ _ _ _ _ _ _ Hbs w2 p H2 Hp Hr2). symmetry. by apply H0.
    + rewrite (bc_frame _ _ _ _ _ _ _ _ _ _ _ Hbs w2 p b H2); [by apply Hz|]. right. split; [done|]. right. by apply Hapart.
  - intros w p m Hw Hp Hr Hm Hs. destruct (Hret w p Hw Hp Hr) as (w1 & w2 & H1 & Hall & _ & H2 & Hr2 & ->).
    simpl in Hm. apply list_elem_of_fmap in Hm as (m2 & -> & Hm2). simpl in Hs.
    destruct (relay_second w1 H1 Hall) as (Hb & _). by apply (bc_reusable _ _ _ _ _ _ _ _ _ _ _ Hb w2 p m2).
  - intros w p b Hw Hb.
    assert (p ∉ M \/ b <> pSync /\ b <> pSync /\ ~ (target <= b < target + bytes)) as Hb1
      by (destruct Hb as [|[Ht Hs]]; [by left|right; split; [|split]]; try done; by intros ->).
    assert (p ∉ M \/ b <> gate /\ (p = root \/ ~ (target <= b < target + bytes))) as Hb2
      by (destruct Hb as [|[Ht Hs]]; [by left|right; split; [by intros ->|by right]]).
    destruct (Hreach w Hw) as [(w1 & H1 & -> & _)|(w1 & w2 & H1 & Hall & _ & H2 & ->)].
    + by apply (ga_frame _ _ _ _ _ _ _ _ _ _ _ Hga w1 p b H1).
    + simpl. destruct (relay_second w1 H1 Hall) as (Hbs & _).
      rewrite (bc_frame _ _ _ _ _ _ _ _ _ _ _ Hbs w2 p b H2 Hb2). by apply (ga_frame _ _ _ _ _ _ _ _ _ _ _ Hga w1 p b H1).
  - intros w m Hw Hr Hm. destruct (Hret w root Hw Hrm (Hr root)) as (w1 & w2 & H1 & Hall & _ & H2 & _ & ->).
    simpl in Hm. apply list_elem_of_fmap in Hm as (m2 & -> & Hm2). simpl. destruct (relay_second w1 H1 Hall) as (Hb & _).
    destruct (bc_clean _ _ _ _ _ _ _ _ _ _ _ Hb w2 m2 H2 Hr Hm2) as (_ & Hs & Hd' & Hk & Ht & Hda).
    rewrite Ht. by repeat (split; [done|]).
Qed.

(** When the first part is all there is, and sends no data. *)
Lemma gather_fcollect (body : Z -> prog unit) : (forall p, p ∈ M -> body p = P1 p) ->
  (forall w m, rtc step (coll_job M m0 P1) w -> m ∈ net (w_st w) -> pending (m_data m) = false) ->
  (forall w p, rtc step (coll_job M m0 P1) w -> p ∈ M -> p <> root -> mem (w_st w) p pSync = m0 p pSync) ->
  bytes = 0 -> fcollect_spec M root target bytes pSync total m0 body b1.
Proof.
  intros Hbody Hun Hoth Hz. destruct psync_words as (Hps & _).
  assert (coll_job M m0 body = coll_job M m0 P1) as E.
  { unfold coll_job. f_equal. extensionality p. case_decide; [by apply Hbody|done]. }
  split; rewrite E.
  - apply Hga.
  - intros; lia.
  - intros w p b Hw Hp Hr Hb. destruct (decide (b = pSync)) as [->|Hne].
    + destruct (decide (p = root)) as [->|Hpr]; [|by apply Hoth].
      destruct (ga_restored _ _ _ _ _ _ _ _ _ _ _ Hga w root Hw Hr Hp) as [-> _]. symmetry. by apply H0.
    + apply (ga_frame _ _ _ _ _ _ _ _ _ _ _ Hga); [done|]. right. split; [done|]. split; [done|lia].
  - intros w p m Hw _ _ Hm _. by apply (Hun w).
  - intros w p b Hw Hb. apply (ga_frame _ _ _ _ _ _ _ _ _ _ _ Hga); [done|].
    destruct Hb as [|[Ht Hs]]; [by left|right; split; [|split]]; try done; by intros ->.
  - intros w m Hw Hr Hm. destruct (ga_last _ _ _ _ _ _ _ _ _ _ _ Hga w Hw (Hr root)) as [_ En]. rewrite En in Hm.
    by apply elem_of_nil in Hm.
Qed.
End relay.

(** ** One member around the ring *)

Section alone.
Context (p target source len pSync : Z) (m0 : Z -> lmem) (body : Z -> prog unit).
Context (Htp : forall b, in_collect_psync pSync b -> ~ (target <= b < target + len)) (H0 : m0 p pSync = 0).
Abbreviation copied := (copied p target source len m0).
Definition ring_alone_ops : list op :=
  [OLocal (copy_bytes target source len); OPut p pSync (Captured [(0, 0)]) false; OWait pSync SHMEM_CMP_EQ 0].

Inductive ring_alone : nat -> list msg -> (Z -> lmem) -> Prop :=
| ra_start : ring_alone 0 [] m0
| ra_copied v : (1 <= v <= 3)%nat -> ring_alone v [] copied
| ra_reset v ep : (2 <= v <= 3)%nat -> ring_alone v [Msg p p ep KPut pSync false (Captured [(0, 0)])] copied.

Lemma ring_alone_word : copied p pSync = 0.
Proof.
  rewrite copied_ne; [done|]. right. apply Htp. unfold in_collect_psync, SHMEM_COLLECT_SYNC_SIZE, SIZEOF_LONG. lia.
Qed.

Lemma ring_alone_net lb s s' : ring_alone (lb p) (net s) (mem s) -> net_step s s' -> ring_alone (lb p) (net s') (mem s').
Proof.
  intros Ha Hst. destruct Hst as [s l1 m l2 src os E Hd|s l1 m l2 vals E Hd Hf]; rewrite E in Ha; simpl.
  all: inversion Ha as [Hv Hn Em|v Hv Hve Hn Em|v ep Hv Hve Hn Em]; try (by destruct l1);
    destruct l1 as [|m' l1]; try (by destruct l1); injection Hn as <- <-; simpl in Hd; try done.
  injection Hd as <-. simpl. rewrite Z.add_0_r.
  assert (<[p := <[pSync := 0]> (copied p)]> copied = copied) as ->; [|apply ra_copied; lia].
  extensionality q. extensionality a. rewrite (insert_cases copied). case_decide; [subst q|done].
  rewrite insert_cases. case_decide; [subst a|done]. symmetry. apply ring_alone_word.
Qed.

Lemma ring_alone_op lb s q o x s' : ring_alone (lb p) (net s) (mem s) -> q ∈ [p] ->
  map Some ring_alone_ops !! lb q = Some (Some o) -> op_exec q o s = Some (x, s') ->
  ring_alone (<[q := S (lb q)]> lb p) (net s') (mem s').
Proof.
  intros Ha ->%list_elem_of_singleton Ho Hex. rewrite fn_lookup_insert.
  destruct (lb p) as [|[|[|v]]] eqn:Hv; try (injection Ho as <-); simpl in Hex; try done;
    inversion Ha as [Hv' Hn Em|v' Hv' Hve Hn Em|v' ep Hv' Hve Hn Em]; try lia;
    try (case_match; [|discriminate Hex]); injection Hex as _ <-; simpl; rewrite <- ?Hn, <- ?Em; simpl.
  - apply (ra_copied 1). lia.
  - apply (ra_reset 2). lia.
  - apply (ra_copied 3). lia.
  - apply (ra_reset 3). lia.
Qed.

Lemma ring_alone_fcollect : body p = seqp ring_alone_ops ->
  fcollect_spec [p] p target len pSync (fun x => m0 p (source + x)) m0 body 9.
Proof.
  intros Hb. set (sl := fun _ : Z => map Some ring_alone_ops). set (I := fun (lb : Z -> nat) s => ring_alone (lb p) (net s) (mem s)).
  assert (coll_job [p] m0 body = slots_job [p] sl m0) as E.
  { unfold coll_job, slots_job. f_equal. extensionality q. unfold slot_pt. case_decide as Hq; [|done].
    apply list_elem_of_singleton in Hq as ->. by rewrite Hb. }
  assert (NoDup [p]) as Hnd by (apply NoDup_singleton).
  assert (I (fun _ => 0%nat) (init_state m0)) as Hi by constructor.
  assert (forall lb s q, I lb s -> q ∈ [p] -> sl q !! lb q = Some None -> I (<[q := S (lb q)]> lb) s) as He.
  { intros lb s q _ _ Hs. unfold sl in Hs. rewrite list_lookup_fmap in Hs. by destruct (ring_alone_ops !! lb q). }
  assert (forall w, rtc step (coll_job [p] m0 body) w -> exists lb, (forall q, progs w q = slot_pt [p] sl q (lb q)) /\ I lb (w_st w))
    as Hreach by (rewrite E; apply (slots_reachable [p] sl I He ring_alone_op ring_alone_net m0 Hi)).
  assert (forall w, rtc step (coll_job [p] m0 body) w -> returned w p -> mem (w_st w) = copied /\
    (net (w_st w) = [] \/ exists ep, net (w_st w) = [Msg p p ep KPut pSync false (Captured [(0, 0)])])) as Hret.
  { intros w Hw Hr. destruct (Hreach w Hw) as (lb & Hpt & Hinv).
    destruct (slots_returned [p] sl I He lb w p Hpt Hinv (list_elem_of_here _ _) Hr) as (k & Hk & Ha).
    unfold I in Ha. rewrite fn_lookup_insert in Ha. simpl in Hk. inversion Ha; subst; try lia; eauto. }
  assert (in_collect_psync pSync pSync) as Hps by (unfold in_collect_psync, SHMEM_COLLECT_SYNC_SIZE, SIZEOF_LONG; lia).
  split.
  - rewrite E. apply (slots_complete [p] Hnd sl I He ring_alone_op ring_alone_net m0 Hi). intros lb s Ha Hset Hn.
    destruct (Hset p) as [[o Ho]|Hge]; [apply list_elem_of_here| |left; intros q ->%list_elem_of_singleton; done].
    right. exists p, o. enough (exists r, op_exec p o s = Some r) as [r Hr]
      by (exists r; split; [apply list_elem_of_here|done]).
    pose proof ring_alone_word as Hw. unfold I in Ha. rewrite Hn in Ha. unfold sl in Ho.
    destruct (lb p) as [|[|[|v]]] eqn:Hv; try (injection Ho as <-); simpl; eauto; try done;
      inversion Ha; subst; rewrite Hw; simpl; eauto.
  - intros w q x Hw ->%list_elem_of_singleton Hr Hx. destruct (Hret w Hw Hr) as [-> _]. by apply copied_at.
  - intros w q b Hw ->%list_elem_of_singleton Hr Hx. destruct (Hret w Hw Hr) as [-> _]. apply copied_ne. right. by apply Htp.
  - intros w q m Hw ->%list_elem_of_singleton Hr Hm _. destruct (Hret w Hw Hr) as [_ [En|[ep En]]]; rewrite En in Hm.
    + by apply elem_of_nil in Hm.
    + by apply list_elem_of_singleton in Hm as ->.
  - intros w q b Hw Hx. destruct (Hreach w Hw) as (lb & _ & Ha). unfold I in Ha. inversion Ha; try done.
    all: apply copied_ne; destruct Hx as [Hx|[? _]]; [left; by intros ->; apply Hx, list_elem_of_here|by right].
  - intros w m Hw Hr Hm. destruct (Hret w Hw (Hr p)) as [_ [En|[ep En]]]; rewrite En in Hm.
    + by apply elem_of_nil in Hm.
    + apply list_elem_of_singleton in Hm as ->. simpl. by repeat (split; [done|]).
Qed.
End alone.

(** ** The algorithms and their selection *)

Lemma land_pred_pow2 n : 1 <= n -> Z.land n (n - 1) = 0 -> n = 2 ^ Z.log2 n.
Proof.
  intros Hn Hl. pose proof (Z.log2_spec n ltac:(lia)) as Hs. rewrite Z.pow_succ_r in Hs by apply Z.log2_nonneg.
  destruct (decide (n = 2 ^ Z.log2 n)) as [|Hne]; [done|exfalso]. pose proof (Z.log2_nonneg n).
  assert (Z.log2 (n - 1) = Z.log2 n) as E by (apply Z.log2_unique; [done|]; rewrite Z.pow_succ_r by done; lia).
  assert (Z.testbit (Z.land n (n - 1)) (Z.log2 n) = true) as Hb.
  { rewrite Z.land_spec, Z.bit_log2 by lia. rewrite <- E. apply Z.bit_log2. lia. }
  rewrite Hl, Z.bits_0 in Hb. done.
Qed.

(** A broadcast of nothing does nothing. *)
Lemma bcast_nothing params num_pes p target source PE_root start stride size pSync complete :
  shmem_internal_bcast (coll_env params num_pes p) target source 0 PE_root start stride size pSync complete = skip.
Proof.
  unfold shmem_internal_bcast, shmem_internal_bcast_linear, shmem_internal_bcast_tree.
  assert (shmem_internal_bcast_type (coll_env params num_pes p) = select bcast_type_of (p_BCAST_ALGORITHM params)) as ->
    by (unfold coll_env; by destruct (default _ _)).
  rewrite orb_true_r. unfold select, bcast_type_of. by repeat case_match.
Qed.

Section fcollect.
Context (params : coll_params) (num_pes start stride n pSync target source len : Z).
Context (Hok : active_set_ok params num_pes start stride n) (Hlen : 0 <= len).
Let M := active_set start stride n.
Let e := coll_env params num_pes.
Context (Htp : target + n * len <= pSync \/ pSync + SHMEM_COLLECT_SYNC_SIZE * SIZEOF_LONG <= target).
Context (Hsp : source + len <= pSync \/ pSync + SHMEM_COLLECT_SYNC_SIZE * SIZEOF_LONG <= source).
Context (Hts : source + len <= target \/ target + n * len <= source).
Context (m0 : Z -> lmem).
Context (H0 : forall p i, p ∈ M -> 0 <= i < 2 * SHMEM_COLLECT_SYNC_SIZE -> m0 p (pSync + SIZEOF_INT * i) = SHMEM_SYNC_VALUE).
Abbreviation total := (collected start stride source len m0).
Abbreviation promise := (fcollect_spec M start target (n * len) pSync total m0).

Lemma psync_apart b : in_collect_psync pSync b -> ~ (target <= b < target + n * len) /\ ~ (source <= b < source + len).
Proof. unfold in_collect_psync. lia. Qed.

Lemma psync_zero p : p ∈ M -> m0 p pSync = 0 /\ m0 p (pSync + SIZEOF_LONG) = 0.
Proof.
  intros Hp. unfold SIZEOF_LONG. unfold SHMEM_COLLECT_SYNC_SIZE, SIZEOF_INT in H0. split.
  - rewrite <- (Z.add_0_r pSync). apply (H0 p 0); [done|lia].
  - apply (H0 p 2); [done|lia].
Qed.

Lemma fcollect_first_in : start ∈ M.
Proof. destruct Hok. apply elem_of_active_set. exists 0. lia. Qed.

(** Nothing to collect, nothing done. *)
Lemma fcollect_skip body : len = 0 -> (forall p, p ∈ M -> body p = skip) -> promise body 0.
Proof.
  intros Hz Hb. assert (forall w, rtc step (coll_job M m0 body) w -> w = coll_job M m0 body) as Hw
    by (intros w; by apply skip_job_steps). split.
  - split.
    + intros k w Hk. destruct k as [|k]; [lia|]. inversion Hk as [|? ? w' ? Hs]; subst. by apply skip_no_step in Hs.
    + intros w Hr. left. rewrite (Hw w Hr). intros p. unfold returned. simpl. case_decide; [by apply Hb|done].
  - intros. lia.
  - intros w p b Hr _ _ _. by rewrite (Hw w Hr).
  - intros w p m Hr _ _ Hm. rewrite (Hw w Hr) in Hm. by apply elem_of_nil in Hm.
  - intros w p b Hr _. by rewrite (Hw w Hr).
  - intros w m Hr _ Hm. rewrite (Hw w Hr) in Hm. by apply elem_of_nil in Hm.
Qed.

(** The linear algorithm. *)
Let P1 := fcollect_linear_part start stride n pSync target source len.

Lemma linear_arrays : ~ (target <= pSync < target + n * len) /\
  (forall a, 0 <= a < len -> source + a <> pSync /\ ~ (target <= source + a < target + n * len)).
Proof.
  destruct (psync_apart pSync) as [H1 H2]; [unfold in_collect_psync, SHMEM_COLLECT_SYNC_SIZE, SIZEOF_LONG; lia|].
  split; [done|]. intros a Ha. split; lia.
Qed.

Lemma linear_first : gather_spec M start target (n * len) pSync pSync (upto 0 (n * len)) total m0 P1 (15 * Z.to_nat n).
Proof.
  destruct linear_arrays as [Hw Hs]. destruct Hok as [K1 K2 K3 K4 K5].
  apply (linear_gathers start stride n K3 ltac:(lia) pSync target source len Hlen m0 Hw Hs P1); [done|].
  intros p Hp. by apply psync_zero.
Qed.

Lemma linear_two_parts p : p ∈ M -> shmem_internal_fcollect_linear (e p) target source len start stride n pSync =
  (P1 p ;; shmem_internal_bcast (e p) target target (len * n) 0 start stride n (pSync + SIZEOF_LONG) false).
Proof. intros Hp. destruct Hok. apply linear_program; [done|done|]. unfold e. by rewrite e_pe. Qed.

Lemma fcollect_linear_some : n = 1 \/ 0 < len ->
  promise (fun p => shmem_internal_fcollect_linear (e p) target source len start stride n pSync) (45 * Z.to_nat n).
Proof.
  intros Hd. pose proof Hok as [K1 K2 K3 K4 K5]. apply (fcollect_spec_mono _ _ _ _ _ _ _ _ (15 * Z.to_nat n + 30 * Z.to_nat n)); [lia|].
  apply (fcollect_spec_ext _ _ _ _ _ _ _ (fun p =>
    P1 p ;; shmem_internal_bcast (e p) target target (len * n) 0 start stride n (pSync + SIZEOF_LONG) false)).
  { intros p Hp. symmetry. by apply linear_two_parts. }
  apply (relay_fcollect M start target (n * len) pSync total m0 fcollect_first_in) with (children := bcast_children params num_pes start stride n 0).
  - intros b Hb. by apply psync_apart.
  - by apply psync_zero.
  - exact linear_first.
  - intros m1 Hm1. rewrite (Z.mul_comm len n). replace start with (start + 0 * stride) at 1 by lia.
    assert (in_collect_psync pSync (pSync + SIZEOF_LONG)) as Hg by (unfold in_collect_psync, SHMEM_COLLECT_SYNC_SIZE, SIZEOF_LONG; lia).
    destruct (psync_apart _ Hg). apply bcast_delivers; try done; nia.
  - intros p Hp Hne. assert (n <> 1) as Hn1 by (intros E; apply Hne; apply elem_of_active_set in Hp as (i & Hi & ->); nia).
    apply bcast_gate; try done; nia.
Qed.

Lemma fcollect_linear : promise (fun p => shmem_internal_fcollect_linear (e p) target source len start stride n pSync) (45 * Z.to_nat n).
Proof.
  destruct (decide (len = 0)) as [Hl|Hl]; [|apply fcollect_linear_some; lia].
  destruct linear_arrays as [Hw Hs]. pose proof Hok as [K1 K2 K3 K4 K5].
  apply (fcollect_spec_mono _ _ _ _ _ _ _ _ (15 * Z.to_nat n)); [lia|].
  apply (gather_fcollect M start target (n * len) pSync total m0 psync_zero P1 (15 * Z.to_nat n) linear_first).
  - intros p Hp. rewrite linear_two_parts by done. rewrite Hl, Z.mul_0_l. unfold e. by rewrite bcast_nothing, pbind_skip.
  - intros w m. apply (linear_unsent start stride n K3 ltac:(lia) pSync target source len Hlen m0 Hw Hs P1); [done| |done].
    intros p Hp. by apply psync_zero.
  - intros w p Hjob _ Hne. apply (linear_others start stride n K3 ltac:(lia) pSync target source len Hlen m0 Hw Hs P1); try done.
    intros q Hq. by apply psync_zero.
  - lia.
Qed.

Lemma fcollect_ring_one : n = 1 -> 0 < len ->
  promise (fun p => shmem_internal_fcollect_ring (e p) target source len start stride n pSync) 9.
Proof.
  intros Hn1 Hl. pose proof Hok as [K1 K2 K3 K4 K5]. destruct (psync_zero start fcollect_first_in) as [Hz _].
  assert (M = [start]) as EM by (unfold M, active_set; by rewrite Hn1).
  pose proof (ring_alone_fcollect start target source len pSync m0
    (fun p => shmem_internal_fcollect_ring (e p) target source len start stride n pSync)) as H.
  rewrite <- EM in H. replace (n * len) with len by lia.
  destruct H as [F1 F2 F3 F4 F5 F6].
  - intros b [Ht _]%psync_apart. by replace (n * len) with len in Ht by lia.
  - done.
  - unfold shmem_internal_fcollect_ring, e. rewrite e_pe, (proj2 (Z.eqb_neq len 0)), Z.sub_diag, Hn1 by lia.
    unfold clear_psync, memcpy. change (cdiv 0 stride) with (Z.quot 0 stride). rewrite Z.quot_0_l by lia.
    change (upto 1 1) with (@nil Z). rewrite Z.mul_0_l, Z.add_0_r. by straighten.
  - split; try done. intros w p x Hw Hp Hr Hx. rewrite (F2 w p x Hw Hp Hr Hx). unfold collected.
    rewrite Z.div_small, Z.mod_small by lia. f_equal. lia.
Qed.

(** The ring. *)
Lemma fcollect_ring : promise (fun p => shmem_internal_fcollect_ring (e p) target source len start stride n pSync)
  (24 * Z.to_nat n * Z.to_nat n).
Proof.
  pose proof Hok as [K1 K2 K3 K4 K5]. destruct (decide (len = 0)) as [Hl|Hl].
  { apply (fcollect_spec_mono _ _ _ _ _ _ _ _ 0); [lia|]. apply fcollect_skip; [done|]. intros p _.
    unfold shmem_internal_fcollect_ring. by rewrite Hl. }
  destruct (decide (n = 1)) as [Hn1|Hn1]; [apply (fcollect_spec_mono _ _ _ _ _ _ _ _ 9); [lia|by apply fcollect_ring_one; lia]|].
  destruct linear_arrays as [Hw Hs].
  assert (in_collect_psync pSync pSync) as Hps by (unfold in_collect_psync, SHMEM_COLLECT_SYNC_SIZE, SIZEOF_LONG; lia).
  destruct (psync_apart _ Hps) as [_ Hsw].
  destruct (fcollect_ring_delivers params num_pes start stride n pSync target source len Hok ltac:(lia) ltac:(lia) Hw Hsw
    Hts m0 (fun p Hp => proj1 (psync_zero p Hp))) as [R1 R2 R3 R4 R5 R6].
  split; try done.
  - intros w p x Hj Hp Hr Hx. pose proof (Z.div_mod x len ltac:(lia)). pose proof (Z.mod_pos_bound x len ltac:(lia)).
    assert (0 <= x / len < n) as Hd by (split; [apply Z.div_pos; lia|apply Z.div_lt_upper_bound; lia]).
    replace (target + x) with (target + x / len * len + x mod len) by lia. by apply R2.
  - intros w p b Hj Hp Hr Hb. destruct (decide (b = pSync)) as [->|Hne].
    + rewrite R3 by done. symmetry. by apply psync_zero.
    + apply R5; [done|]. right. repeat (split; [done|]). intros c Hc (a & Ha & ->). destruct (psync_apart _ Hb) as [Ht _]. nia.
  - by apply R4.
  - intros w p b Hj Hb. apply R5; [done|]. destruct Hb as [|[Ht Hb]]; [by left|right].
    assert (b <> pSync) as Hne by (by intros ->). repeat (split; [done|]). intros c Hc (a & Ha & ->). nia.
  - intros w m Hj Hr Hm. rewrite (R6 w Hj Hr) in Hm. by apply elem_of_nil in Hm.
Qed.

(** Recursive doubling. *)
Lemma fcollect_recdbl : Z.land n (n - 1) = 0 ->
  promise (fun p => shmem_internal_fcollect_recdbl (e p) target source len start stride n pSync) (45 * Z.to_nat n * Z.to_nat n).
Proof.
  intros Hland. pose proof Hok as [K1 K2 K3 K4 K5]. destruct (decide (len = 0)) as [Hl|Hl].
  { apply (fcollect_spec_mono _ _ _ _ _ _ _ _ 0); [lia|]. apply fcollect_skip; [done|]. intros p _.
    unfold shmem_internal_fcollect_recdbl. by rewrite Hl. }
  pose proof (land_pred_pow2 n ltac:(lia) Hland) as Hpow. pose proof (Z.log2_nonneg n) as Hlog.
  set (K := Z.to_nat (Z.log2 n)). assert (n = 2 ^ Z.of_nat K) as En by (unfold K; by rewrite Z2Nat.id).
  assert (Z.of_nat K < n) as HKn by (rewrite En; apply Z.pow_gt_lin_r; lia).
  assert (K < 31)%nat as HK. { apply Nat.nle_gt. intros Hge. pose proof (Z.pow_le_mono_r 2 31 (Z.of_nat K)). lia. }
  apply (fcollect_spec_mono _ _ _ _ _ _ _ _ (3 * (Z.to_nat n * (2 + 6 * K)))); [nia|].
  assert (forall k, (k < K)%nat -> in_collect_psync pSync (word pSync k)) as Hin
    by (intros k Hk; unfold in_collect_psync, word, SHMEM_COLLECT_SYNC_SIZE, SIZEOF_LONG, SIZEOF_INT; lia).
  unfold M. rewrite En. apply (fcollect_recdbl_delivers start stride K K3 HK pSync target source len ltac:(lia)); rewrite <- ?En.
  - intros k Hk. by apply psync_apart, Hin.
  - intros a Ha. split; [intros k Hk E; destruct (psync_apart _ (Hin k Hk)); lia|lia].
  - intros p Hp. pose proof (recdbl_program start stride K K3 HK pSync target source len ltac:(lia) (e p) p) as H.
    rewrite <- En in H. apply H; [done|]. unfold e. by rewrite e_pe.
  - intros b (k & Hk & ->). by apply Hin.
  - intros p b Hp Hb [k ->]. apply H0; [done|]. unfold in_collect_psync, word, SHMEM_COLLECT_SYNC_SIZE, SIZEOF_LONG, SIZEOF_INT in *. lia.
  - intros b Hb. by apply psync_apart.
Qed.
End fcollect.

(** C5: [shmem_internal_fcollect], whichever of its three algorithms the parameters select
    (linear, ring, or recursive doubling, which falls back to the ring unless the number of
    members is a power of two; a tree can be asked for but is not there), for any number of members and any length: in every
    execution it returns on every member, within a number of steps quadratic in the
    members; a member that has returned has the contribution of every member at the place
    of its rank, its pSync as it was, and its buffers free; no memory but the targets and
    the pSyncs changes, and only a reset of the first member's own pSync can outlive the
    call. *)
Theorem fcollect_correct params num_pes start stride size pSync target source len m0 :
  let M := active_set start stride size in
  let psync_size := SHMEM_COLLECT_SYNC_SIZE * SIZEOF_LONG in
  select fcollect_type_of (p_FCOLLECT_ALGORITHM params) <> TREE ->
  active_set_ok params num_pes start stride size -> 0 <= len ->
  target + size * len <= pSync \/ pSync + psync_size <= target ->
  source + len <= pSync \/ pSync + psync_size <= source ->
  source + len <= target \/ target + size * len <= source ->
  (forall p i, p ∈ M -> 0 <= i < 2 * SHMEM_COLLECT_SYNC_SIZE -> m0 p (pSync + SIZEOF_INT * i) = SHMEM_SYNC_VALUE) ->
  fcollect_spec M start target (size * len) pSync (collected start stride source len m0) m0
    (fun p => shmem_internal_fcollect (coll_env params num_pes p) target source len start stride size pSync)
    (45 * Z.to_nat size * Z.to_nat size).
Proof.
  intros M psync_size Htree Hok Hlen Htp Hsp Hts H0. assert (1 <= size) as Hsize by (destruct Hok; lia).
  assert (forall p, shmem_internal_fcollect_type (coll_env params num_pes p) = select fcollect_type_of (p_FCOLLECT_ALGORITHM params))
    as Het by (intros p; unfold coll_env; by destruct (default _ _)).
  pose proof (fcollect_linear params num_pes start stride size pSync target source len Hok Hlen Htp Hsp Hts m0 H0) as HL.
  pose proof (fcollect_ring params num_pes start stride size pSync target source len Hok Hlen Htp Hsp Hts m0 H0) as HR.
  pose proof (fcollect_recdbl params num_pes start stride size pSync target source len Hok Hlen Htp Hsp Hts m0 H0) as HD.
  apply (fcollect_spec_mono _ _ _ _ _ _ _ _ _ (45 * Z.to_nat size * Z.to_nat size)) in HL; [|nia].
  apply (fcollect_spec_mono _ _ _ _ _ _ _ _ _ (45 * Z.to_nat size * Z.to_nat size)) in HR; [|nia].
  assert (forall t, select fcollect_type_of (p_FCOLLECT_ALGORITHM params) = t -> t = AUTO \/ t = LINEAR \/ t = RING \/ t = RECDBL \/ t = TREE)
    as Hsel by (intros t <-; unfold select, fcollect_type_of; repeat case_match; simplify_eq/=; auto).
  destruct (Hsel _ eq_refl) as [E|[E|[E|[E|E]]]]; [| | | |done].
  - eapply fcollect_spec_ext; [|exact HR]. intros p _. unfold shmem_internal_fcollect. by rewrite Het, E.
  - eapply fcollect_spec_ext; [|exact HL]. intros p _. unfold shmem_internal_fcollect. by rewrite Het, E.
  - eapply fcollect_spec_ext; [|exact HR]. intros p _. unfold shmem_internal_fcollect. by rewrite Het, E.
  - destruct (decide (Z.land size (size - 1) = 0)) as [Es|Es].
    + eapply fcollect_spec_ext; [|by apply HD]. intros p _. unfold shmem_internal_fcollect. by rewrite Het, E, Es.
    + eapply fcollect_spec_ext; [|exact HR]. intros p _. unfold shmem_internal_fcollect.
      by rewrite Het, E, (proj2 (Z.eqb_neq _ _) Es).
Qed.

(** Six members of a job of 16 PEs with the linear algorithm, eight with recursive doubling. *)
Lemma fcollect_correct_witness :
  let params alg := CollParams 4 16384 4 None None None None (Some alg) in
  let m0 p a := if (64 <=? a) && (a <? 208) then 0 else 1000 * p + a in
  let job alg size p := shmem_internal_fcollect (coll_env (params alg) 16 p) 300 400 8 1 2 size 64 in
  fcollect_spec (active_set 1 2 6) 1 300 48 64 (collected 1 2 400 8 m0) m0 (job "linear"%string 6) (45 * 6 * 6) /\
  fcollect_spec (active_set 1 2 8) 1 300 64 64 (collected 1 2 400 8 m0) m0 (job "recdbl"%string 8) (45 * 8 * 8) /\
  map (collected 1 2 400 8 m0) [0; 17; 47] = [1400; 5401; 11407].
Proof.
  intros params m0 job. split; [|split; [|vm_compute; reflexivity]].
  - apply (fcollect_correct (params "linear"%string) 16 1 2 6 64 300 400 8 m0); try lia; [by vm_compute|by split; simpl; lia|..];
      unfold SHMEM_COLLECT_SYNC_SIZE, SIZEOF_LONG, SIZEOF_INT; try lia.
    intros p i _ Hi. unfold m0. case_match eqn:E; [done|lia].
  - apply (fcollect_correct (params "recdbl"%string) 16 1 2 8 64 300 400 8 m0); try lia; [by vm_compute|by split; simpl; lia|..];
      unfold SHMEM_COLLECT_SYNC_SIZE, SIZEOF_LONG, SIZEOF_INT; try lia.
    intros p i _ Hi. unfold m0. case_match eqn:E; [done|lia].
Defined.
