(* ===== verification/Lock.v ===== *)
(** * The distributed lock ([shmem_lock.h])

    An MCS queue lock over one [lock_t] per PE: [last] (used on PE 0) names the last
    PE of the queue, [data] holds the next PE of the queue in its low 31 bits and the
    hand-over signal in its sign bit. *)

From S2P Require Import Prelude Machine Straight Internal ReduceOp Comm.
Local Open Scope Z_scope.
Local Open Scope prog_scope.

(** ** The code *)

(** [struct lock_t]: two ints. *)
Definition lock_last (lockp : Z) : Z := lockp.
Definition lock_data (lockp : Z) : Z := lockp + SIZEOF_INT.

(** The masks apply to the unsigned conversion of the int. *)
Definition NEXT_MASK : Z := 2147483647.
Definition SIGNAL_MASK : Z := 2147483648.
Definition NEXT (A : Z) : Z := Z.land (wrap_u 32 A) NEXT_MASK.
Definition SIGNAL (A : Z) : Z := Z.land (wrap_u 32 A) SIGNAL_MASK.
(** [int sig = SIGNAL_MASK] *)
Definition sig : Z := wrap_s 32 SIGNAL_MASK.

(** [for (;;) { fetch data; if (stop) break; SHMEM_WAIT(data, cur_data); }], the value
    it stops at.  [fuel] is the number of iterations allowed. *)
Fixpoint poll (fuel : nat) (stop : Z -> bool) (data my_pe : Z) : prog Z :=
  match fuel with
  | O => Raise
  | S fuel =>
      cur_data <- shmem_internal_atomic_fetch data my_pe ;
      if stop cur_data then Ret cur_data
      else (SHMEM_WAIT data cur_data ;; poll fuel stop data my_pe)
  end.

(** The value of [data] changes at most twice while its owner polls. *)
Definition POLL_FUEL : nat := 3.

Definition shmem_internal_set_lock (my_pe lockp : Z) : prog unit :=
  let me := my_pe + 1 in
  (* initialize my elements to zero *)
  shmem_internal_atomic_set (lock_data lockp) 0 my_pe ;;
  shmem_internal_quiet ;;
  (* update last with my value to add me to the queue *)
  curr <- shmem_internal_swap (lock_last lockp) me 0 ;
  (* If I wasn't the first, need to add myself to the previous last's next *)
  if negb (0 =? curr) then
    (_ <- shmem_internal_mswap (lock_data lockp) me NEXT_MASK (curr - 1) ;
     (* now wait for the signal part of data to be non-zero *)
     _ <- poll POLL_FUEL (fun d => negb (SIGNAL d =? 0)) (lock_data lockp) my_pe ;
     skip)
  else skip.

Definition shmem_internal_clear_lock (my_pe lockp : Z) : prog unit :=
  shmem_internal_quiet ;;
  (* release the lock if I'm the last to try to obtain it *)
  curr <- shmem_internal_cswap (lock_last lockp) 0 (my_pe + 1) 0 ;
  (* if local PE was not the last to hold the lock, look for the next in line *)
  if negb (curr =? my_pe + 1) then
    ( (* wait for next part of the data block to be non-zero *)
     cur_data <- poll POLL_FUEL (fun d => negb (NEXT d =? 0)) (lock_data lockp) my_pe ;
     (* set the signal bit on new lock holder *)
     _ <- shmem_internal_mswap (lock_data lockp) sig sig (NEXT cur_data - 1) ;
     skip)
  else skip.

(** Answers 0 when the lock was taken, 1 otherwise. *)
Definition shmem_internal_test_lock (my_pe lockp : Z) : prog Z :=
  let me := my_pe + 1 in
  shmem_internal_atomic_set (lock_data lockp) 0 my_pe ;;
  shmem_internal_quiet ;;
  (* add self to last if and only if the lock is zero *)
  curr <- shmem_internal_cswap (lock_last lockp) me 0 0 ;
  if 0 =? curr then Ret 0 else Ret 1.

(** ** Clients: critical sections observed by marks *)

Definition LOCK_IN : Z := 0.
Definition LOCK_OUT : Z := 1.

(** One use of the lock, by [set_lock] or (when [try]) by one [test_lock]. *)
Definition use_lock (my_pe lockp : Z) (try : bool) : prog unit :=
  let critical := mark LOCK_IN ;; mark LOCK_OUT ;; shmem_internal_clear_lock my_pe lockp in
  if try then (c <- shmem_internal_test_lock my_pe lockp ; when (c =? 0) critical)
  else (shmem_internal_set_lock my_pe lockp ;; critical).

(** Who is inside the critical section after a log of marks; [None] when two PEs
    were inside at once, or one left without being inside. *)
Fixpoint holder (l : list (Z * Z)) (h : option Z) : option (option Z) :=
  match l with
  | [] => Some h
  | (p, t) :: l =>
      if t =? LOCK_IN then match h with None => holder l (Some p) | Some _ => None end
      else match h with
           | Some q => if q =? p then holder l None else None
           | None => None
           end
  end.

(** ** The packed [data] word *)

Definition enc (s : bool) (n : Z) : Z := (if s then - 2 ^ 31 else 0) + n.

Lemma enc_unsigned s n : 0 <= n < 2 ^ 31 -> wrap_u 32 (enc s n) = (if s then 1 else 0) * 2 ^ 31 + n.
Proof.
  intros Hn. unfold wrap_u, enc. destruct s; [|by rewrite Z.mod_small by lia].
  replace (- 2 ^ 31 + n) with (1 * 2 ^ 31 + n + (-1) * 2 ^ 32) by lia.
  rewrite Z.mod_add, Z.mod_small by lia. done.
Qed.

Lemma enc_NEXT s n : 0 <= n < 2 ^ 31 -> NEXT (enc s n) = n.
Proof.
  intros Hn. unfold NEXT, NEXT_MASK. change 2147483647 with (Z.ones 31).
  rewrite enc_unsigned, Z.land_ones, Z.add_comm, Z.mod_add, Z.mod_small by lia. done.
Qed.

Lemma land_pow2_bit a k : 0 <= k -> Z.land a (2 ^ k) = if Z.testbit a k then 2 ^ k else 0.
Proof.
  intros Hk. apply Z.bits_inj'. intros j Hj. rewrite Z.land_spec, Z.pow2_bits_eqb by lia.
  destruct (Z.eqb_spec k j) as [<-|Hne].
  - destruct (Z.testbit a k); simpl; [by rewrite Z.pow2_bits_true|by rewrite Z.bits_0].
  - rewrite andb_false_r. destruct (Z.testbit a k); [by rewrite Z.pow2_bits_false by lia|by rewrite Z.bits_0].
Qed.

Lemma enc_SIGNAL s n : 0 <= n < 2 ^ 31 -> SIGNAL (enc s n) = if s then SIGNAL_MASK else 0.
Proof.
  intros Hn. unfold SIGNAL, SIGNAL_MASK. change 2147483648 with (2 ^ 31).
  rewrite enc_unsigned, land_pow2_bit by lia.
  replace (Z.testbit ((if s then 1 else 0) * 2 ^ 31 + n) 31) with s; [by destruct s|].
  rewrite <- (Z.add_0_l 31) at 2. rewrite <- Z.div_pow2_bits by lia.
  rewrite Z.add_comm, Z.div_add, Z.div_small by lia. by destruct s.
Qed.

Lemma bits_high v j : 0 <= v < 2 ^ 31 -> 31 <= j -> Z.testbit v j = false.
Proof.
  intros Hv Hj. destruct (decide (v = 0)) as [->|]; [apply Z.bits_0|].
  apply Z.bits_above_log2; [lia|]. apply Z.log2_lt_pow2; [lia|].
  pose proof (Z.pow_le_mono_r 2 31 j). lia.
Qed.

(** [shmem_internal_mswap] of the next field, and of the signal. *)
Lemma enc_set_next s n v : 0 <= n < 2 ^ 31 -> 0 <= v < 2 ^ 31 ->
  Z.lor (Z.land (enc s n) (Z.lnot NEXT_MASK)) (Z.land v NEXT_MASK) = enc s v.
Proof.
  intros Hn Hv. unfold NEXT_MASK. change 2147483647 with (Z.ones 31).
  rewrite (Z.land_ones v), (Z.mod_small v) by lia. rewrite <- Z.ldiff_land, Z.ldiff_ones_r by lia.
  unfold enc. rewrite Z.shiftr_div_pow2 by lia.
  replace (((if s then - 2 ^ 31 else 0) + n) / 2 ^ 31) with (if s then -1 else 0).
  - rewrite <- Z.add_nocarry_lor.
    + rewrite Z.shiftl_mul_pow2 by lia. by destruct s.
    + apply Z.bits_inj'. intros j Hj. rewrite Z.land_spec, Z.bits_0.
      destruct (decide (j < 31)); [by rewrite Z.shiftl_spec_low by lia|].
      by rewrite (bits_high v j), andb_false_r by lia.
  - destruct s; [|by rewrite Z.div_small by lia].
    replace (- 2 ^ 31 + n) with (n + (-1) * 2 ^ 31) by lia. by rewrite Z.div_add, Z.div_small by lia.
Qed.

Lemma enc_set_signal s n : 0 <= n < 2 ^ 31 ->
  Z.lor (Z.land (enc s n) (Z.lnot sig)) (Z.land sig sig) = enc true n.
Proof.
  intros Hn. change sig with (- 2 ^ 31). rewrite Z.land_diag.
  change (Z.lnot (- 2 ^ 31)) with (Z.ones 31). rewrite Z.land_ones by lia.
  assert (enc s n mod 2 ^ 31 = n) as ->.
  { unfold enc. destruct s; [|by rewrite Z.mod_small by lia].
    replace (- 2 ^ 31 + n) with (n + (-1) * 2 ^ 31) by lia. by rewrite Z.mod_add, Z.mod_small by lia. }
  unfold enc. rewrite <- Z.add_nocarry_lor; [lia|].
  apply Z.bits_inj'. intros j Hj. rewrite Z.land_spec, Z.bits_0.
  destruct (decide (j < 31)).
  - change (- 2 ^ 31) with (Z.shiftl (-1) 31). by rewrite Z.shiftl_spec_low, andb_false_r by lia.
  - by rewrite (bits_high n j) by lia.
Qed.
