(* ===== verification/LockProof.v ===== *)
(** * The lock gives mutual exclusion and never deadlocks

    A job in which every member uses the lock [R] times, by [set_lock] or by
    [test_lock].  The label of a PE is its position in the C functions; the invariant
    says that the PEs between their enqueue and their release form a queue, which
    [last] and the [next] fields represent. *)

From S2P Require Import Prelude Machine Straight Internal ReduceOp Comm Lock.
Local Open Scope Z_scope.
Local Open Scope prog_scope.

(** Positions in one use of the lock; a poll carries its iteration and the value read. *)
Inductive pos :=
| P_set | P_quiet | P_last
| P_link (prev : Z) | P_fetch (k : nat) | P_wait (k : nat) (d : Z)
| P_in | P_out | P_rel | P_unlast
| P_nfetch (k : nat) | P_nwait (k : nat) (d : Z) | P_signal (n : Z).
#[export] Instance pos_eq_dec : EqDecision pos.
Proof. solve_decision. Defined.

Section lock.
Context (M : list Z) (HM : NoDup M) (HM0 : 0 ∈ M) (Hrange : forall p, p ∈ M -> 0 <= p < 2 ^ 31 - 1).
Context (R : nat) (tries : Z -> nat -> bool) (lockp : Z).
Abbreviation lastA := (lock_last lockp).
Abbreviation dataA := (lock_data lockp).
Abbreviation label := (nat * pos)%type.

Definition link_rmw (p old : Z) : Z := Z.lor (Z.land old (Z.lnot NEXT_MASK)) (Z.land (p + 1) NEXT_MASK).
Definition signal_rmw (old : Z) : Z := Z.lor (Z.land old (Z.lnot sig)) (Z.land sig sig).

Definition lk_next (p : Z) (l : label) : option (op * (Z -> label)) :=
  let '(r, x) := l in
  let to := fun x => (fun _ : Z => (r, x)) in
  let done_ := (S r, P_set) in
  if decide (p ∈ M /\ r < R)%nat then
    match x with
    | P_set => Some (OAtomic p dataA (fun _ v => v) (Captured [(0, 0)]), to P_quiet)
    | P_quiet => Some (OQuiet, to P_last)
    | P_last =>
        if tries p r
        then Some (ORmw 0 lastA (fun old => if old =? 0 then p + 1 else old),
                   fun curr => if 0 =? curr then (r, P_in) else done_)
        else Some (ORmw 0 lastA (fun _ => p + 1),
                   fun curr => if negb (0 =? curr) then (r, P_link (curr - 1)) else (r, P_in))
    | P_link prev => Some (ORmw prev dataA (link_rmw p), to (P_fetch 0))
    | P_fetch k =>
        if decide (k < POLL_FUEL)%nat
        then Some (ORmw p dataA (fun old => old),
                   fun d => if negb (SIGNAL d =? 0) then (r, P_in) else (r, P_wait k d))
        else None
    | P_wait k d => Some (OWait dataA SHMEM_CMP_NE d, to (P_fetch (S k)))
    | P_in => Some (OMark LOCK_IN, to P_out)
    | P_out => Some (OMark LOCK_OUT, to P_rel)
    | P_rel => Some (OQuiet, to P_unlast)
    | P_unlast => Some (ORmw 0 lastA (fun old => if old =? p + 1 then 0 else old),
                        fun curr => if negb (curr =? p + 1) then (r, P_nfetch 0) else done_)
    | P_nfetch k =>
        if decide (k < POLL_FUEL)%nat
        then Some (ORmw p dataA (fun old => old),
                   fun d => if negb (NEXT d =? 0) then (r, P_signal (NEXT d - 1)) else (r, P_nwait k d))
        else None
    | P_nwait k d => Some (OWait dataA SHMEM_CMP_NE d, to (P_nfetch (S k)))
    | P_signal n => Some (ORmw n dataA signal_rmw, fun _ => done_)
    end
  else None.

(** A poll that has used up its iterations aborts the job. *)
Definition lk_halt (p : Z) (l : label) : bool :=
  if decide (p ∈ M /\ l.1 < R)%nat then
    match l.2 with
    | P_fetch k | P_nfetch k => bool_decide (k < POLL_FUEL)%nat
    | _ => true
    end
  else true.

(** The client of member [p]: [R] uses of the lock. *)
Definition lock_client (p : Z) : prog unit :=
  for_ (seq 0 R) (fun r => use_lock p lockp (tries p r)).

(** The rest of the program from each position. *)
Definition lk_rest (p : Z) (r : nat) : prog unit :=
  for_ (seq (S r) (R - S r)) (fun r => use_lock p lockp (tries p r)).
Definition lk_signal (p n : Z) (r : nat) : prog unit :=
  Do (ORmw n dataA signal_rmw) (fun _ => lk_rest p r).
Definition lk_npoll (p : Z) (r k : nat) : prog unit :=
  pbind (poll (POLL_FUEL - k) (fun d => negb (NEXT d =? 0)) dataA p) (fun d => lk_signal p (NEXT d - 1) r).
Definition lk_unlast (p : Z) (r : nat) : prog unit :=
  Do (ORmw 0 lastA (fun old => if old =? p + 1 then 0 else old))
     (fun curr => if negb (curr =? p + 1) then lk_npoll p r 0 else lk_rest p r).
Definition lk_rel (p : Z) (r : nat) : prog unit := Do OQuiet (fun _ => lk_unlast p r).
Definition lk_out (p : Z) (r : nat) : prog unit := Do (OMark LOCK_OUT) (fun _ => lk_rel p r).
Definition lk_in (p : Z) (r : nat) : prog unit := Do (OMark LOCK_IN) (fun _ => lk_out p r).
Definition lk_poll (p : Z) (r k : nat) : prog unit :=
  pbind (poll (POLL_FUEL - k) (fun d => negb (SIGNAL d =? 0)) dataA p) (fun _ => lk_in p r).
Definition lk_link (p prev : Z) (r : nat) : prog unit :=
  Do (ORmw prev dataA (link_rmw p)) (fun _ => lk_poll p r 0).
Definition lk_last (p : Z) (r : nat) : prog unit :=
  if tries p r
  then Do (ORmw 0 lastA (fun old => if old =? 0 then p + 1 else old))
          (fun curr => if 0 =? curr then lk_in p r else lk_rest p r)
  else Do (ORmw 0 lastA (fun _ => p + 1))
          (fun curr => if negb (0 =? curr) then lk_link p (curr - 1) r else lk_in p r).

Definition lk_pt (p : Z) (l : label) : prog unit :=
  let '(r, x) := l in
  if decide (p ∈ M /\ r < R)%nat then
    match x with
    | P_set => Do (OAtomic p dataA (fun _ v => v) (Captured [(0, 0)])) (fun _ => Do OQuiet (fun _ => lk_last p r))
    | P_quiet => Do OQuiet (fun _ => lk_last p r)
    | P_last => lk_last p r
    | P_link prev => lk_link p prev r
    | P_fetch k => lk_poll p r k
    | P_wait k d => Do (OWait dataA SHMEM_CMP_NE d) (fun _ => lk_poll p r (S k))
    | P_in => lk_in p r
    | P_out => lk_out p r
    | P_rel => lk_rel p r
    | P_unlast => lk_unlast p r
    | P_nfetch k => lk_npoll p r k
    | P_nwait k d => Do (OWait dataA SHMEM_CMP_NE d) (fun _ => lk_npoll p r (S k))
    | P_signal n => lk_signal p n r
    end
  else skip.

(** One use of the lock, followed by the rest of the client. *)
Lemma use_lock_pt p r : pbind (use_lock p lockp (tries p r)) (fun _ => lk_rest p r) =
  Do (OAtomic p dataA (fun _ v => v) (Captured [(0, 0)])) (fun _ => Do OQuiet (fun _ => lk_last p r)).
Proof.
  assert (pbind (mark LOCK_IN ;; mark LOCK_OUT ;; shmem_internal_clear_lock p lockp) (fun _ => lk_rest p r) = lk_in p r) as Hin.
  { unfold lk_in, lk_out, lk_rel, lk_unlast. cbn -[poll POLL_FUEL Nat.sub Z.eqb]. f_equal. extensionality v0. f_equal. extensionality v1.
    f_equal. extensionality v2. f_equal. extensionality curr. unfold lk_npoll. change (POLL_FUEL - 0)%nat with POLL_FUEL.
    destruct (negb (curr =? p + 1)); [|done]. rewrite pbind_assoc. f_equal. }
  unfold use_lock, lk_last. set (C := (mark LOCK_IN ;; mark LOCK_OUT ;; shmem_internal_clear_lock p lockp)) in *.
  clearbody C. destruct (tries p r).
  - cbn -[poll POLL_FUEL Nat.sub Z.eqb]. f_equal. extensionality v0. f_equal. extensionality v1. f_equal. extensionality curr.
    destruct (0 =? curr); [|done]. exact Hin.
  - rewrite pbind_assoc. cbn -[poll POLL_FUEL Nat.sub Z.eqb]. f_equal. extensionality v0. f_equal. extensionality v1. f_equal. extensionality curr.
    destruct (negb (0 =? curr)); [|exact Hin].
    cbn -[poll POLL_FUEL Nat.sub Z.eqb]. unfold lk_link, lk_poll. change (POLL_FUEL - 0)%nat with POLL_FUEL. f_equal. extensionality v2.
    rewrite !pbind_assoc. f_equal. extensionality d. exact Hin.
Qed.

Lemma lk_done p r : p ∈ M -> (r < R)%nat -> lk_rest p r = lk_pt p (S r, P_set).
Proof.
  intros Hp Hr. unfold lk_rest, lk_pt. destruct (decide (p ∈ M /\ S r < R)%nat) as [[_ Hr']|Hn].
  - replace (R - S r)%nat with (S (R - S (S r))) by lia. cbn [seq for_].
    rewrite <- use_lock_pt. done.
  - replace (R - S r)%nat with 0%nat by (apply not_and_l in Hn as [|]; [done|lia]). done.
Qed.

Lemma lk_pt_in p r x : p ∈ M -> (r < R)%nat -> lk_pt p (r, x) =
    match x with
    | P_set => Do (OAtomic p dataA (fun _ v => v) (Captured [(0, 0)])) (fun _ => Do OQuiet (fun _ => lk_last p r))
    | P_quiet => Do OQuiet (fun _ => lk_last p r)
    | P_last => lk_last p r
    | P_link prev => lk_link p prev r
    | P_fetch k => lk_poll p r k
    | P_wait k d => Do (OWait dataA SHMEM_CMP_NE d) (fun _ => lk_poll p r (S k))
    | P_in => lk_in p r
    | P_out => lk_out p r
    | P_rel => lk_rel p r
    | P_unlast => lk_unlast p r
    | P_nfetch k => lk_npoll p r k
    | P_nwait k d => Do (OWait dataA SHMEM_CMP_NE d) (fun _ => lk_npoll p r (S k))
    | P_signal n => lk_signal p n r
    end.
Proof. intros. unfold lk_pt. by rewrite decide_True. Qed.

Lemma lk_pt_next p l : lk_pt p l = match lk_next p l with
                                   | Some (o, f) => Do o (fun r => lk_pt p (f r))
                                   | None => if lk_halt p l then skip else Raise
                                   end.
Proof.
  destruct l as [r x]. unfold lk_next, lk_halt. cbn [fst snd].
  destruct (decide (p ∈ M /\ r < R)%nat) as [[Hp Hr]|Hn].
  2:{ unfold lk_pt. by rewrite decide_False. }
  rewrite lk_pt_in by done. pose proof (lk_done p r Hp Hr) as Hd.
  destruct x as [| | |prev|k|k d| | | | |k|k d|n]; 
    try (unfold lk_link, lk_in, lk_out, lk_rel; f_equal; extensionality v; by rewrite lk_pt_in).
  - unfold lk_last. destruct (tries p r); f_equal; extensionality v.
    + destruct (0 =? v); [by rewrite lk_pt_in|done].
    + by destruct (negb (0 =? v)); rewrite lk_pt_in.
  - unfold lk_poll. destruct (decide (k < POLL_FUEL)%nat) as [Hk|Hk].
    + replace (POLL_FUEL - k)%nat with (S (POLL_FUEL - S k)) by lia. cbn.
      f_equal. extensionality v. destruct (negb (SIGNAL v =? 0)); by rewrite lk_pt_in.
    + rewrite bool_decide_eq_false_2 by done. by replace (POLL_FUEL - k)%nat with 0%nat by lia.
  - unfold lk_unlast. f_equal. extensionality v. destruct (negb (v =? p + 1)); [by rewrite lk_pt_in|done].
  - unfold lk_npoll. destruct (decide (k < POLL_FUEL)%nat) as [Hk|Hk].
    + replace (POLL_FUEL - k)%nat with (S (POLL_FUEL - S k)) by lia. cbn.
      f_equal. extensionality v. destruct (negb (NEXT v =? 0)); by rewrite lk_pt_in.
    + rewrite bool_decide_eq_false_2 by done. by replace (POLL_FUEL - k)%nat with 0%nat by lia.
  - unfold lk_signal. f_equal. extensionality v. done.
Qed.
(** ** The queue *)

(** Positions between the enqueue and the release. *)
Definition enq (x : pos) : bool := match x with P_set | P_quiet | P_last => false | _ => true end.
Definition is_link (x : pos) : bool := match x with P_link _ => true | _ => false end.

(** What [last] holds for a queue, and what the next field of a PE holds for its successor. *)
Fixpoint tail_of (q : list Z) : Z :=
  match q with
  | [] => 0
  | p :: q => match q with [] => p + 1 | _ => tail_of q end
  end.
Definition nxt (lb : Z -> label) (succ : option Z) : Z :=
  match succ with
  | Some s => if is_link (lb s).2 then 0 else s + 1
  | None => 0
  end.
Definition bits (s : bool) (n : Z) : nat := ((if s then 1 else 0) + (if decide (n = 0)%Z then 0 else 1))%nat.

(** A queued PE: its index, its neighbours, its next field, its position, its [data]. *)
Definition elem_ok (i : nat) (prev succ : option Z) (nx : Z) (x : pos) (w : Z) : Prop :=
  exists s, w = enc s nx /\
    match x with
    | P_link p => i <> 0%nat /\ s = false /\ prev = Some p
    | P_fetch k => (s = true <-> i = 0%nat) /\ (k <= bits s nx)%nat
    | P_wait k d => (s = true <-> i = 0%nat) /\
                    exists n, d = enc false n /\ (n = 0 \/ n = nx) /\ (k <= bits false n)%nat
    | P_in | P_out | P_rel | P_unlast => i = 0%nat
    | P_nfetch k => i = 0%nat /\ succ <> None /\ (k <= bits false nx)%nat
    | P_nwait k d => i = 0%nat /\ succ <> None /\ d = enc s 0 /\ k = 0%nat
    | P_signal n => i = 0%nat /\ succ = Some n /\ nx = n + 1
    | P_set | P_quiet | P_last => False
    end.

Record lk_ok (m0 : Z -> lmem) (q : list Z) (lb : Z -> label) (mm : Z -> lmem) (nn : list msg) (lg : list (Z * Z)) : Prop := {
  k_nodup : NoDup q;
  k_lab : forall p, p ∈ M -> ((lb p).1 <= R)%nat /\ ((lb p).1 = R -> (lb p).2 = P_set);
  k_in : forall p, p ∈ q <-> p ∈ M /\ enq (lb p).2 = true;
  k_last : mm 0 lastA = tail_of q;
  k_elem : forall i p, q !! i = Some p ->
    elem_ok i (q !! pred i) (q !! S i) (nxt lb (q !! S i)) (lb p).2 (mm p dataA);
  k_msgs : forall m, m ∈ nn -> m_src m = m_dst m /\ m_dst m ∈ M /\ m_kind m = KAtomic (fun _ v => v) /\
    m_target m = dataA /\ m_data m = Captured [(0, 0)] /\ (lb (m_dst m)).2 = P_quiet;
  k_quiet : forall p, p ∈ M -> (lb p).2 = P_quiet -> (exists m, m ∈ nn /\ m_dst m = p) \/ mm p dataA = 0;
  k_ready : forall p, p ∈ M -> (lb p).2 = P_last -> mm p dataA = 0;
  k_log : exists h, holder lg None = Some h /\ forall p, h = Some p <-> p ∈ M /\ (lb p).2 = P_out;
  k_frame : forall p a, p ∉ M \/ (a <> lastA /\ a <> dataA) -> mm p a = m0 p a }.

Definition lk_inv (m0 : Z -> lmem) (ls : lworld label) : Prop :=
  exists q, lk_ok m0 q (lab ls) (mem (lst ls)) (net (lst ls)) (log (lst ls)).

(** *** Small facts *)

Lemma tail_of_snoc q p : tail_of (q ++ [p]) = p + 1.
Proof. induction q as [|a q IH]; simpl; [done|]. destruct (q ++ [p]) eqn:E; [by destruct q|done]. Qed.

Lemma tail_of_zero q : (forall p, p ∈ q -> p ∈ M) -> tail_of q = 0 -> q = [].
Proof.
  destruct q as [|a q] using rev_ind; [done|]. intros Hq. rewrite tail_of_snoc.
  assert (a ∈ M) as Ha by (apply Hq; set_solver). pose proof (Hrange a Ha). lia.
Qed.

Lemma tail_of_one p q : NoDup (p :: q) -> tail_of (p :: q) = p + 1 -> q = [].
Proof.
  destruct q as [|a q] using rev_ind; [done|]. clear IHq. intros Hnd.
  change (p :: q ++ [a]) with ((p :: q) ++ [a]). rewrite tail_of_snoc. intros E. assert (a = p) as -> by lia.
  apply list.NoDup_cons in Hnd as [Hn _]. exfalso. apply Hn. set_solver.
Qed.

Lemma holder_snoc l x h : holder (l ++ [x]) h = match holder l h with Some h' => holder [x] h' | None => None end.
Proof.
  revert h. induction l as [|[p t] l IH]; intros h; [done|]. cbn [app holder].
  destruct (t =? LOCK_IN); destruct h as [a|]; try done. destruct (a =? p); done.
Qed.

Lemma set_mem_id s p a : set_mem s p (<[a := mem s p a]> (mem s p)) = s.
Proof.
  destruct s as [mm nn ee lg]. unfold set_mem. simpl. f_equal.
  extensionality x. destruct (decide (x = p)) as [->|]; [|by rewrite fn_lookup_insert_ne].
  rewrite fn_lookup_insert. extensionality y.
  destruct (decide (y = a)) as [->|]; [by rewrite fn_lookup_insert|by rewrite fn_lookup_insert_ne].
Qed.

Lemma last_ne_data : lastA <> dataA.
Proof. unfold lock_last, lock_data, SIZEOF_INT. lia. Qed.

Lemma nxt_range lb s : (forall p, s = Some p -> p ∈ M) -> 0 <= nxt lb s < 2 ^ 31.
Proof.
  intros Hs. destruct s as [p|]; simpl; [|lia]. pose proof (Hrange p (Hs p eq_refl)).
  destruct (is_link _); lia.
Qed.

(** Two PEs of the queue: a holder is at its head. *)
Lemma elem_unique (q : list Z) i j p : NoDup q -> q !! i = Some p -> q !! j = Some p -> i = j.
Proof. intros Hnd Hi Hj. by eapply NoDup_lookup. Qed.
(** *** Preservation *)

Lemma nxt_relabel (lb : Z -> label) p (l : label) succ : is_link l.2 = is_link (lb p).2 -> nxt (<[p := l]> lb) succ = nxt lb succ.
Proof.
  intros E. destruct succ as [s|]; [|done]. simpl. destruct (decide (s = p)) as [->|].
  - by rewrite fn_lookup_insert, E.
  - by rewrite fn_lookup_insert_ne.
Qed.

Lemma log_relabel (lb : Z -> label) p (l : label) lg :
  (lb p).2 <> P_out -> l.2 <> P_out ->
  (exists h, holder lg None = Some h /\ forall a, h = Some a <-> a ∈ M /\ (lb a).2 = P_out) ->
  exists h, holder lg None = Some h /\ forall a, h = Some a <-> a ∈ M /\ (<[p := l]> lb a).2 = P_out.
Proof.
  intros H1 H2 (h & Hh & Ha). exists h. split; [done|]. intros a. rewrite Ha.
  destruct (decide (a = p)) as [->|]; [rewrite fn_lookup_insert|by rewrite fn_lookup_insert_ne].
  split; intros []; done.
Qed.

(** A step that changes neither the queue nor the memory. *)
Lemma ok_relabel m0 q lb mm nn lg p l ms lg' :
  lk_ok m0 q lb mm nn lg -> p ∈ M -> ((l.1 <= R)%nat /\ (l.1 = R -> l.2 = P_set)) ->
  enq l.2 = enq (lb p).2 -> is_link l.2 = false -> is_link (lb p).2 = false ->
  (forall i, q !! i = Some p ->
     elem_ok i (q !! pred i) (q !! S i) (nxt lb (q !! S i)) (lb p).2 (mm p dataA) ->
     elem_ok i (q !! pred i) (q !! S i) (nxt lb (q !! S i)) l.2 (mm p dataA)) ->
  (forall m, m ∈ ms -> m_src m = p /\ m_dst m = p /\ m_kind m = KAtomic (fun _ v => v) /\
    m_target m = dataA /\ m_data m = Captured [(0, 0)]) ->
  (l.2 <> P_quiet -> ms = [] /\ forall m, m ∈ nn -> m_dst m <> p) ->
  (l.2 = P_quiet -> ms <> []) ->
  (l.2 = P_last -> mm p dataA = 0) ->
  (exists h, holder lg' None = Some h /\ forall a, h = Some a <-> a ∈ M /\ (<[p := l]> lb a).2 = P_out) ->
  lk_ok m0 q (<[p := l]> lb) mm (nn ++ ms) lg'.
Proof.
  intros [] Hp Hl He Hl1 Hl2 Hel Hms Hq1 Hq2 Hq3 Hlog. split; try done.
  - intros a Ha. destruct (decide (a = p)) as [->|]; [by rewrite fn_lookup_insert|].
    rewrite fn_lookup_insert_ne by done. by apply k_lab0.
  - intros a. rewrite k_in0. destruct (decide (a = p)) as [->|].
    + by rewrite fn_lookup_insert, He.
    + by rewrite fn_lookup_insert_ne.
  - intros i a Ha. rewrite nxt_relabel by congruence. destruct (decide (a = p)) as [->|].
    + rewrite fn_lookup_insert. apply Hel; [done|]. by apply k_elem0.
    + rewrite fn_lookup_insert_ne by done. by apply k_elem0.
  - intros m [Hm|Hm]%elem_of_app.
    + destruct (k_msgs0 m Hm) as (H1 & H2 & H3 & H4 & H5 & H6). repeat split; try done.
      destruct (decide (m_dst m = p)) as [E|]; [|by rewrite fn_lookup_insert_ne].
      rewrite E, fn_lookup_insert. destruct (decide (l.2 = P_quiet)) as [|Hne]; [done|].
      destruct (Hq1 Hne) as [_ H]. by destruct (H m Hm).
    + destruct (Hms m Hm) as (H1 & H2 & H3 & H4 & H5). rewrite H1, H2. repeat split; try done.
      rewrite fn_lookup_insert. destruct (decide (l.2 = P_quiet)) as [|Hne]; [done|].
      destruct (Hq1 Hne) as [-> _]. by apply elem_of_nil in Hm.
  - intros a Ha. destruct (decide (a = p)) as [->|].
    + rewrite fn_lookup_insert. intros E. left. destruct ms as [|m ms]; [by destruct (Hq2 E)|].
      exists m. split; [apply elem_of_app; right; apply list_elem_of_here|]. apply Hms, list_elem_of_here.
    + rewrite fn_lookup_insert_ne by done. intros E. destruct (k_quiet0 a Ha E) as [(m & Hm & Hd)|]; [|by right].
      left. exists m. split; [|done]. apply elem_of_app. by left.
  - intros a Ha. destruct (decide (a = p)) as [->|].
    + rewrite fn_lookup_insert. apply Hq3.
    + rewrite fn_lookup_insert_ne by done. by apply k_ready0.
Qed.

(** The delivery of an initialization. *)
Lemma ok_deliver m0 q lb mm l1 m l2 lg :
  lk_ok m0 q lb mm (l1 ++ m :: l2) lg ->
  lk_ok m0 q lb (<[m_dst m := <[dataA := 0]> (mm (m_dst m))]> mm) (l1 ++ l2) lg.
Proof.
  intros []. assert (m ∈ l1 ++ m :: l2) as Hin by (rewrite elem_of_app, elem_of_cons; auto).
  destruct (k_msgs0 m Hin) as (Hs & Hd & Hk & Ht & Hdata & Hq).
  assert (forall a, a ∈ q -> a <> m_dst m) as Hnq.
  { intros a Ha ->. apply k_in0 in Ha as [_ Ha]. by rewrite Hq in Ha. }
  split; try done.
  - destruct (decide (0 = m_dst m)) as [E|]; [|by rewrite fn_lookup_insert_ne].
    rewrite <- E in *. rewrite fn_lookup_insert, fn_lookup_insert_ne; [done|]. apply not_eq_sym, last_ne_data.
  - intros i a Ha. rewrite fn_lookup_insert_ne; [by apply k_elem0|].
    apply not_eq_sym, Hnq. by eapply list_elem_of_lookup_2.
  - intros m' Hm'. apply k_msgs0. rewrite elem_of_app, elem_of_cons. apply elem_of_app in Hm'. tauto.
  - intros a Ha E. destruct (decide (a = m_dst m)) as [->|Hne].
    + right. by rewrite !fn_lookup_insert.
    + rewrite fn_lookup_insert_ne by done. destruct (k_quiet0 a Ha E) as [(m' & Hm' & Hd')|]; [|by right].
      left. exists m'. split; [|done]. rewrite elem_of_app, elem_of_cons in Hm'. apply elem_of_app.
      destruct Hm' as [|[->|]]; [by left|congruence|by right].
  - intros a Ha E. rewrite fn_lookup_insert_ne; [by apply k_ready0|]. intros <-. congruence.
  - intros a x Hax. rewrite <- (k_frame0 a x Hax). destruct (decide (a = m_dst m)) as [->|]; [|by rewrite fn_lookup_insert_ne].
    rewrite fn_lookup_insert, fn_lookup_insert_ne; [done|]. destruct Hax as [?|[? ?]]; congruence.
Qed.

(** Joining the queue. *)
Lemma ok_enqueue m0 q lb mm nn lg p r x :
  lk_ok m0 q lb mm nn lg -> p ∈ M -> lb p = (r, P_last) -> (r < R)%nat ->
  (forall m, m ∈ nn -> m_dst m <> p) ->
  (x = P_in /\ q = [] \/ exists prev, q !! pred (length q) = Some prev /\ q <> [] /\ x = P_link prev) ->
  lk_ok m0 (q ++ [p]) (<[p := (r, x)]> lb) (<[0 := <[lastA := p + 1]> (mm 0)]> mm) nn lg.
Proof.
  intros [] Hp Hlp Hr Hnn Hx.
  assert (p ∉ q) as Hpq by (rewrite k_in0, Hlp; by intros [_ ?]).
  assert (enq x = true) as Hex by (destruct Hx as [[-> _]|(prev & _ & _ & ->)]; done).
  assert (x <> P_out /\ x <> P_quiet /\ x <> P_last /\ x <> P_set) as (Hxo & Hxq & Hxl & Hxs)
    by (destruct Hx as [[-> _]|(prev & _ & _ & ->)]; done).
  assert (forall a, <[0 := <[lastA := p + 1]> (mm 0)]> mm a dataA = mm a dataA) as Hdata.
  { intros a. destruct (decide (a = 0)) as [->|]; [|by rewrite fn_lookup_insert_ne].
    rewrite fn_lookup_insert, fn_lookup_insert_ne; [done|]. apply last_ne_data. }
  split.
  - apply list.NoDup_app. split; [done|]. split; [|apply NoDup_singleton].
    intros a Ha ->%list_elem_of_singleton. done.
  - intros a Ha. destruct (decide (a = p)) as [->|].
    + rewrite fn_lookup_insert. simpl. split; lia.
    + rewrite fn_lookup_insert_ne by done. by apply k_lab0.
  - intros a. rewrite elem_of_app, list_elem_of_singleton, k_in0. destruct (decide (a = p)) as [->|].
    + rewrite fn_lookup_insert. simpl. rewrite Hex. tauto.
    + rewrite fn_lookup_insert_ne by done. tauto.
  - by rewrite !fn_lookup_insert, tail_of_snoc.
  - intros i a Ha. rewrite Hdata. destruct (decide (i = length q)) as [->|Hi].
    + rewrite lookup_app_r, Nat.sub_diag in Ha by done. injection Ha as <-. rewrite fn_lookup_insert. simpl.
      rewrite (lookup_ge_None_2 (q ++ [p]) (S (length q))) by (rewrite length_app; simpl; lia). simpl.
      exists false. rewrite (k_ready0 p Hp) by (by rewrite Hlp). split; [done|].
      destruct Hx as [[-> ->]|(prev & Hprev & Hne & ->)]; [done|].
      split; [by destruct q|]. split; [done|]. rewrite lookup_app_l; [done|].
      destruct q; [done|]. simpl. lia.
    + assert (i < length q)%nat as Hlt.
      { apply lookup_lt_Some in Ha. rewrite length_app in Ha. simpl in Ha. lia. }
      rewrite lookup_app_l in Ha by done. rewrite (lookup_app_l q [p] (pred i)) by lia.
      assert (a <> p) by (intros ->; by apply Hpq, (list_elem_of_lookup_2 _ _ _ Ha)).
      rewrite fn_lookup_insert_ne by done. specialize (k_elem0 i a Ha).
      destruct (decide (S i = length q)) as [E|].
      * rewrite (lookup_ge_None_2 q (S i)) in k_elem0 by lia. simpl in k_elem0.
        rewrite lookup_app_r by lia. replace (S i - length q)%nat with 0%nat by lia. simpl.
        rewrite fn_lookup_insert. simpl.
        assert (is_link x = true) as ->.
        { destruct Hx as [[_ ->]|(prev & _ & _ & ->)]; [simpl in Hlt; lia|done]. }
        destruct k_elem0 as (s & -> & Hel). exists s. split; [done|].
        destruct (lb a).2; try done; destruct Hel as (H1 & H2 & H3); done.
      * rewrite (lookup_app_l q [p] (S i)) by lia.
        assert (nxt (<[p := (r, x)]> lb) (q !! S i) = nxt lb (q !! S i)) as ->; [|done].
        destruct (q !! S i) as [b|] eqn:Eb; [|done]. simpl.
        rewrite fn_lookup_insert_ne; [done|]. intros <-. by apply Hpq, (list_elem_of_lookup_2 _ _ _ Eb).
  - intros m Hm. destruct (k_msgs0 m Hm) as (H1 & H2 & H3 & H4 & H5 & H6). repeat split; try done.
    rewrite fn_lookup_insert_ne; [done|]. intros E. by apply (Hnn m Hm).
  - intros a Ha. rewrite Hdata. destruct (decide (a = p)) as [->|]; [by rewrite fn_lookup_insert|].
    rewrite fn_lookup_insert_ne by done. by apply k_quiet0.
  - intros a Ha. rewrite Hdata. destruct (decide (a = p)) as [->|]; [by rewrite fn_lookup_insert|].
    rewrite fn_lookup_insert_ne by done. by apply k_ready0.
  - by apply log_relabel; [rewrite Hlp| |].
  - intros a b Hab. rewrite <- (k_frame0 a b Hab). destruct (decide (a = 0)) as [->|]; [|by rewrite fn_lookup_insert_ne].
    rewrite fn_lookup_insert, fn_lookup_insert_ne; [done|]. destruct Hab as [?|[? ?]]; congruence.
Qed.
(** The frame of a write to the [data] of a member. *)
Lemma frame_data m0 (mm : Z -> lmem) p v :
  p ∈ M -> (forall a b, a ∉ M \/ (b <> lastA /\ b <> dataA) -> mm a b = m0 a b) ->
  forall a b, a ∉ M \/ (b <> lastA /\ b <> dataA) -> <[p := <[dataA := v]> (mm p)]> mm a b = m0 a b.
Proof.
  intros Hp Hf a b Hab. rewrite <- (Hf a b Hab).
  destruct (decide (a = p)) as [->|]; [|by rewrite fn_lookup_insert_ne].
  rewrite fn_lookup_insert, fn_lookup_insert_ne; [done|]. destruct Hab as [?|[? ?]]; congruence.
Qed.

Lemma last_data (mm : Z -> lmem) p v : <[p := <[dataA := v]> (mm p)]> mm 0 lastA = mm 0 lastA.
Proof.
  destruct (decide (0 = p)) as [<-|]; [|by rewrite fn_lookup_insert_ne].
  rewrite fn_lookup_insert, fn_lookup_insert_ne; [done|]. apply not_eq_sym, last_ne_data.
Qed.

Lemma nxt_other (lb : Z -> label) p l succ : succ <> Some p -> nxt (<[p := l]> lb) succ = nxt lb succ.
Proof. destruct succ as [s|]; [|done]. intros H. simpl. rewrite fn_lookup_insert_ne; [done|congruence]. Qed.

(** Linking behind the previous PE. *)
Lemma ok_link m0 q lb mm nn lg p r prev :
  lk_ok m0 q lb mm nn lg -> p ∈ M -> lb p = (r, P_link prev) -> (r < R)%nat ->
  lk_ok m0 q (<[p := (r, P_fetch 0)]> lb) (<[prev := <[dataA := link_rmw p (mm prev dataA)]> (mm prev)]> mm) nn lg.
Proof.
  intros Hok Hp Hlp Hr. pose proof Hok as [].
  assert (p ∈ q) as (i & Hi)%list_elem_of_lookup by (rewrite k_in0, Hlp; done).
  pose proof (k_elem0 i p Hi) as (s & Hw & He). rewrite Hlp in He. simpl in He. destruct He as (Hi0 & -> & Hprev).
  destruct i as [|j]; [done|]. simpl in Hprev.
  assert (prev <> p) as Hne by (intros ->; pose proof (elem_unique q _ _ _ k_nodup0 Hi Hprev); lia).
  assert (prev ∈ q) as Hpq by (by eapply list_elem_of_lookup_2). pose proof (proj1 (k_in0 prev) Hpq) as [Hpm Henq].
  pose proof (k_elem0 j prev Hprev) as (s & Hwp & Hep). rewrite Hi in Hwp, Hep. cbn [nxt] in Hwp, Hep.
  rewrite Hlp in Hwp, Hep. cbn [is_link snd] in Hwp, Hep.
  assert (link_rmw p (mm prev dataA) = enc s (p + 1)) as Hlink.
  { rewrite Hwp. pose proof (Hrange p Hp). apply enc_set_next; lia. }
  rewrite Hlink. split; try done.
  - intros a Ha. destruct (decide (a = p)) as [->|].
    + rewrite fn_lookup_insert. simpl. split; lia.
    + rewrite fn_lookup_insert_ne by done. by apply k_lab0.
  - intros a. rewrite k_in0. destruct (decide (a = p)) as [->|]; [|by rewrite fn_lookup_insert_ne].
    rewrite fn_lookup_insert, Hlp. done.
  - by rewrite last_data.
  - intros i' a Ha. destruct (decide (a = prev)) as [->|Hap].
    + assert (i' = j) as -> by (by eapply elem_unique). rewrite Hi, !fn_lookup_insert.
      rewrite fn_lookup_insert_ne by done. cbn [nxt]. rewrite fn_lookup_insert. cbn [is_link snd].
      pose proof (Hrange p Hp). exists s. split; [done|]. destruct (lb prev).2 as [| | |pp|k|k d| | | | |k|k d|n]; try done.
      * destruct Hep as [H1 H2]. split; [done|]. unfold bits in *. repeat case_decide; try lia.
      * destruct Hep as [H1 (n & -> & Hn & Hk)]. split; [done|]. exists n. split; [done|]. split; [left; lia|done].
      * destruct Hep as (H1 & H2 & H3). split; [done|]. split; [done|]. unfold bits in *. repeat case_decide; lia.
      * destruct Hep as (_ & E & Hn). injection E as ->. lia.
    + rewrite (fn_lookup_insert_ne mm) by done. specialize (k_elem0 i' a Ha).
      rewrite nxt_other.
      2:{ intros E. pose proof (elem_unique q _ _ _ k_nodup0 Hi E). apply Hap. congruence. }
      destruct (decide (a = p)) as [->|].
      * rewrite fn_lookup_insert. assert (i' = S j) as -> by (by eapply elem_unique).
        destruct k_elem0 as (s' & Hw' & He'). rewrite Hlp in He'. simpl in He'. destruct He' as (_ & -> & _).
        exists false. split; [done|]. cbn [snd]. split; [split; [done|lia]|lia].
      * by rewrite fn_lookup_insert_ne.
  - intros m Hm. destruct (k_msgs0 m Hm) as (H1 & H2 & H3 & H4 & H5 & H6). repeat split; try done.
    rewrite fn_lookup_insert_ne; [done|]. intros E. by rewrite <- E, Hlp in H6.
  - intros a Ha. destruct (decide (a = p)) as [->|]; [by rewrite fn_lookup_insert|].
    rewrite fn_lookup_insert_ne by done. intros E. rewrite (fn_lookup_insert_ne mm); [by apply k_quiet0|].
    intros <-. by rewrite E in Henq.
  - intros a Ha. destruct (decide (a = p)) as [->|]; [by rewrite fn_lookup_insert|].
    rewrite fn_lookup_insert_ne by done. intros E. rewrite (fn_lookup_insert_ne mm); [by apply k_ready0|].
    intros <-. by rewrite E in Henq.
  - by apply log_relabel; [rewrite Hlp| |].
  - by apply frame_data.
Qed.

(** Handing the lock to the next PE. *)
Lemma ok_signal m0 q lb mm nn lg p r n :
  lk_ok m0 q lb mm nn lg -> p ∈ M -> lb p = (r, P_signal n) -> (r < R)%nat ->
  exists q', lk_ok m0 q' (<[p := (S r, P_set)]> lb) (<[n := <[dataA := signal_rmw (mm n dataA)]> (mm n)]> mm) nn lg.
Proof.
  intros Hok Hp Hlp Hr. pose proof Hok as [].
  assert (p ∈ q) as (i & Hi)%list_elem_of_lookup by (rewrite k_in0, Hlp; done).
  pose proof (k_elem0 i p Hi) as (s & Hw & He). rewrite Hlp in He. simpl in He. destruct He as (-> & Hn & Hnx).
  destruct q as [|p' q']; [done|]. injection Hi as ->. destruct q' as [|n' q']; [done|]. injection Hn as ->.
  exists (n :: q'). pose proof k_nodup0 as [Hpn Hnd]%list.NoDup_cons.
  assert (n ∈ p :: n :: q') as Hnq by (apply list_elem_of_further, list_elem_of_here).
  pose proof (proj1 (k_in0 n) Hnq) as [Hnm Henq].
  assert (n <> p) as Hne by (intros ->; apply Hpn, list_elem_of_here).
  assert (is_link (lb n).2 = false) as Hlink.
  { cbn in Hnx. pose proof (Hrange n Hnm). destruct (is_link (lb n).2); [lia|done]. }
  pose proof (k_elem0 1%nat n eq_refl) as (sn & Hwn & Hen).
  assert (0 <= nxt lb ((p :: n :: q') !! 2%nat) < 2 ^ 31) as Hrg.
  { apply nxt_range. intros a Ha%list_elem_of_lookup_2. by apply k_in0 in Ha as [? _]. }
  assert (signal_rmw (mm n dataA) = enc true (nxt lb ((p :: n :: q') !! 2%nat))) as Hsig.
  { rewrite Hwn. by apply enc_set_signal. }
  rewrite Hsig. split; try done.
  - intros a Ha. destruct (decide (a = p)) as [->|].
    + rewrite fn_lookup_insert. simpl. split; [lia|done].
    + rewrite fn_lookup_insert_ne by done. by apply k_lab0.
  - intros a. destruct (decide (a = p)) as [->|].
    + rewrite fn_lookup_insert. simpl. split; [done|by intros [_ ?]].
    + rewrite fn_lookup_insert_ne by done. rewrite <- k_in0, (elem_of_cons (n :: q')). tauto.
  - by rewrite last_data, k_last0.
  - intros i a Ha. specialize (k_elem0 (S i) a Ha). change ((n :: q') !! S i) with ((p :: n :: q') !! S (S i)).
    assert (a <> p) as Hap by (intros ->; by apply Hpn, (list_elem_of_lookup_2 _ _ _ Ha)).
    rewrite nxt_other by (intros E%(list_elem_of_lookup_2 (n :: q') (S i)); done).
    rewrite (fn_lookup_insert_ne lb) by done.
    destruct i as [|i].
    + injection Ha as <-. rewrite !fn_lookup_insert. exists true. split; [done|].
      revert Hlink Hen. destruct (lb n).2 as [| | |pp|k|k d| | | | |k|k d|nn']; intros Hlink Hen; try done;
        try (by destruct Hen).
      destruct Hen as [H1 H2]. split; [done|]. unfold bits in *. destruct sn; lia.
    + assert (a <> n) as Han.
      { intros ->. apply list.NoDup_cons in Hnd as [Hn' _]. apply Hn'. by apply (list_elem_of_lookup_2 q' i). }
      rewrite (fn_lookup_insert_ne mm) by done.
      destruct k_elem0 as (s' & Hw' & He'). exists s'. split; [done|].
      change (pred (S i)) with i. change (pred (S (S i))) with (S i) in He'.
      destruct (lb a).2 as [| | |pp|k|k d| | | | |k|k d|nn']; try done; try (by destruct He').
      * destruct He' as [H1 H2]. split; [|done]. rewrite H1. lia.
      * destruct He' as [H1 H2]. split; [|done]. rewrite H1. lia.
  - intros m Hm. destruct (k_msgs0 m Hm) as (H1 & H2 & H3 & H4 & H5 & H6). repeat split; try done.
    rewrite fn_lookup_insert_ne; [done|]. intros E. by rewrite <- E, Hlp in H6.
  - intros a Ha. destruct (decide (a = p)) as [->|]; [by rewrite fn_lookup_insert|].
    rewrite fn_lookup_insert_ne by done. intros E. rewrite (fn_lookup_insert_ne mm); [by apply k_quiet0|].
    intros <-. by rewrite E in Henq.
  - intros a Ha. destruct (decide (a = p)) as [->|]; [by rewrite fn_lookup_insert|].
    rewrite fn_lookup_insert_ne by done. intros E. rewrite (fn_lookup_insert_ne mm); [by apply k_ready0|].
    intros <-. by rewrite E in Henq.
  - by apply log_relabel; [rewrite Hlp| |].
  - by apply frame_data.
Qed.

(** Releasing a lock nobody waits for. *)
Lemma ok_unlock m0 q lb mm nn lg p r :
  lk_ok m0 q lb mm nn lg -> p ∈ M -> lb p = (r, P_unlast) -> (r < R)%nat -> mm 0 lastA = p + 1 ->
  lk_ok m0 [] (<[p := (S r, P_set)]> lb) (<[0 := <[lastA := 0]> (mm 0)]> mm) nn lg.
Proof.
  intros [] Hp Hlp Hr Hlast.
  assert (p ∈ q) as (i & Hi)%list_elem_of_lookup by (rewrite k_in0, Hlp; done).
  pose proof (k_elem0 i p Hi) as (s & Hw & He). rewrite Hlp in He. simpl in He. subst i.
  destruct q as [|p' q]; [done|]. injection Hi as ->. rewrite k_last0 in Hlast.
  apply tail_of_one in Hlast as ->; [|done].
  assert (forall a, <[0 := <[lastA := 0]> (mm 0)]> mm a dataA = mm a dataA) as Hdata.
  { intros a. destruct (decide (a = 0)) as [->|]; [|by rewrite fn_lookup_insert_ne].
    rewrite fn_lookup_insert, fn_lookup_insert_ne; [done|]. apply last_ne_data. }
  split; try done.
  - constructor.
  - intros a Ha. destruct (decide (a = p)) as [->|].
    + rewrite fn_lookup_insert. simpl. split; [lia|done].
    + rewrite fn_lookup_insert_ne by done. by apply k_lab0.
  - intros a. destruct (decide (a = p)) as [->|].
    + rewrite fn_lookup_insert. simpl. split; [by intros ?%elem_of_nil|by intros [_ ?]].
    + rewrite fn_lookup_insert_ne by done. rewrite <- k_in0, list_elem_of_singleton. split; [by intros ?%elem_of_nil|done].
  - by rewrite !fn_lookup_insert.
  - intros m Hm. destruct (k_msgs0 m Hm) as (H1 & H2 & H3 & H4 & H5 & H6). repeat split; try done.
    rewrite fn_lookup_insert_ne; [done|]. intros E. by rewrite <- E, Hlp in H6.
  - intros a Ha. rewrite Hdata. destruct (decide (a = p)) as [->|]; [by rewrite fn_lookup_insert|].
    rewrite fn_lookup_insert_ne by done. by apply k_quiet0.
  - intros a Ha. rewrite Hdata. destruct (decide (a = p)) as [->|]; [by rewrite fn_lookup_insert|].
    rewrite fn_lookup_insert_ne by done. by apply k_ready0.
  - by apply log_relabel; [rewrite Hlp| |].
  - intros a b Hab. rewrite <- (k_frame0 a b Hab). destruct (decide (a = 0)) as [->|]; [|by rewrite fn_lookup_insert_ne].
    rewrite fn_lookup_insert, fn_lookup_insert_ne; [done|]. destruct Hab as [?|[? ?]]; congruence.
Qed.
Lemma no_msgs m0 q lb mm nn lg p : lk_ok m0 q lb mm nn lg -> (lb p).2 <> P_quiet -> forall m, m ∈ nn -> m_dst m <> p.
Proof. intros Hok Hp m Hm <-. by destruct (k_msgs _ _ _ _ _ _ Hok m Hm) as (_ & _ & _ & _ & _ & ?). Qed.

(** A step that leaves queue, memory, messages and log alone. *)
Lemma ok_local m0 q lb mm nn lg p l :
  lk_ok m0 q lb mm nn lg -> p ∈ M -> ((l.1 <= R)%nat /\ (l.1 = R -> l.2 = P_set)) ->
  enq l.2 = enq (lb p).2 -> is_link l.2 = false -> is_link (lb p).2 = false ->
  (lb p).2 <> P_out -> l.2 <> P_out -> l.2 <> P_quiet -> (forall m, m ∈ nn -> m_dst m <> p) ->
  (forall i, q !! i = Some p -> 0 <= nxt lb (q !! S i) < 2 ^ 31 ->
     elem_ok i (q !! pred i) (q !! S i) (nxt lb (q !! S i)) (lb p).2 (mm p dataA) ->
     elem_ok i (q !! pred i) (q !! S i) (nxt lb (q !! S i)) l.2 (mm p dataA)) ->
  (l.2 = P_last -> mm p dataA = 0) ->
  lk_ok m0 q (<[p := l]> lb) mm nn lg.
Proof.
  intros Hok Hp Hl He H1 H2 Ho Ho' Hq Hm Hel Hlast. rewrite <- (app_nil_r nn).
  eapply ok_relabel; try done.
  - intros i Hi. apply Hel; [done|]. apply nxt_range. intros a Ha%list_elem_of_lookup_2.
    by apply (k_in _ _ _ _ _ _ Hok) in Ha as [? _].
  - intros m ?%elem_of_nil; done.
  - apply log_relabel; try done. apply (k_log _ _ _ _ _ _ Hok).
Qed.

Lemma enc_inj s n n' : enc s n = enc s n' -> n = n'.
Proof. unfold enc. lia. Qed.

(** How the polls and the waits of a queued PE move. *)
Lemma elem_fetch i prev succ nx w k : 0 <= nx < 2 ^ 31 -> elem_ok i prev succ nx (P_fetch k) w ->
  elem_ok i prev succ nx (if negb (SIGNAL w =? 0) then P_in else P_wait k w) w.
Proof.
  intros Hnx (s & -> & Hs & Hk). rewrite enc_SIGNAL by done. exists s. split; [done|].
  destruct s; simpl; [by apply Hs|]. split; [done|]. exists nx. split; [done|]. split; [by right|done].
Qed.
Lemma elem_wait i prev succ nx w k d : w <> d -> elem_ok i prev succ nx (P_wait k d) w ->
  elem_ok i prev succ nx (P_fetch (S k)) w.
Proof.
  intros Hw (s & -> & Hs & n & -> & Hn & Hk). exists s. split; [done|]. split; [done|].
  unfold bits in *. destruct s; simpl in *; repeat case_decide; try lia; destruct Hn; subst; try lia; congruence.
Qed.
Lemma elem_nfetch (i : nat) prev (lb : Z -> label) (q : list Z) (p : Z) w k : q !! i = Some p ->
  0 <= nxt lb (q !! S i) < 2 ^ 31 ->
  elem_ok i prev (q !! S i) (nxt lb (q !! S i)) (P_nfetch k) w ->
  elem_ok i prev (q !! S i) (nxt lb (q !! S i)) (if negb (NEXT w =? 0) then P_signal (NEXT w - 1) else P_nwait k w) w.
Proof.
  intros Hi Hnx (s & -> & -> & Hs & Hk). rewrite enc_NEXT by done. exists s. split; [done|].
  destruct (nxt lb (q !! 1%nat) =? 0) eqn:E; simpl.
  - apply Z.eqb_eq in E. rewrite E in *. unfold bits in Hk. simpl in Hk. repeat split; try done. lia.
  - apply Z.eqb_neq in E. split; [done|]. split; [|lia].
    destruct (q !! 1%nat) as [b|]; [|done]. simpl in *. destruct (is_link _); [done|]. f_equal. lia.
Qed.
Lemma elem_nwait i prev succ nx w k d : w <> d -> elem_ok i prev succ nx (P_nwait k d) w ->
  elem_ok i prev succ nx (P_nfetch (S k)) w.
Proof.
  intros Hw (s & -> & -> & Hs & -> & ->). exists s. split; [done|]. split; [done|]. split; [done|].
  unfold bits. simpl. case_decide; [subst; done|lia].
Qed.

(** The poll counters stay below the fuel. *)
Lemma poll_fuel m0 q lb mm nn lg p : lk_ok m0 q lb mm nn lg -> p ∈ M ->
  match (lb p).2 with P_fetch k | P_nfetch k | P_wait k _ | P_nwait k _ => (k < POLL_FUEL)%nat | _ => True end.
Proof.
  intros Hok Hp. destruct (enq (lb p).2) eqn:E; [|by destruct (lb p).2].
  assert (p ∈ q) as (i & Hi)%list_elem_of_lookup by (by apply (k_in _ _ _ _ _ _ Hok)).
  destruct (k_elem _ _ _ _ _ _ Hok i p Hi) as (s & _ & He).
  destruct (lb p).2 as [| | |pp|k|k d| | | | |k|k d|n]; try done; unfold POLL_FUEL, bits in *.
  - destruct He as [_ Hk]. destruct s; case_decide; lia.
  - destruct He as (_ & n & _ & _ & Hk). case_decide; lia.
  - destruct He as (_ & _ & Hk). case_decide; lia.
  - destruct He as (_ & _ & _ & ->). lia.
Qed.

Lemma lk_inv_step m0 ls ls' : lk_inv m0 ls -> lstep lk_next ls ls' -> lk_inv m0 ls'.
Proof.
  intros (q & Hok) Hst. destruct Hst as [ls p o f v s' Hn Hex | ls s' Hn].
  2:{ exists q. simpl. remember (lst ls) as s eqn:Es. destruct Hn as [s l1 m l2 src offs E D | s l1 m l2 vals E D _].
      - destruct (k_msgs _ _ _ _ _ _ Hok m) as (_ & _ & _ & _ & H & _); [rewrite E; set_solver|congruence].
      - destruct (k_msgs _ _ _ _ _ _ Hok m) as (_ & _ & Hk & Ht & Hd & _); [rewrite E; set_solver|].
        rewrite D in Hd. injection Hd as ->. rewrite Hk, Ht. simpl. rewrite Z.add_0_r.
        rewrite E in Hok. by apply ok_deliver. }
  destruct (lab ls p) as [r x] eqn:Hlp. unfold lk_next in Hn.
  destruct (decide (p ∈ M /\ r < R)%nat) as [[Hp Hr]|]; [|done].
  pose proof (no_msgs _ _ _ _ _ _ p Hok) as Hnm. rewrite Hlp in Hnm. cbn [snd] in Hnm.
  destruct (lst ls) as [mm nn ee lg] eqn:Es. cbn [mem net log] in Hok, Hnm.
  assert (forall x', ((r, x').1 <= R)%nat /\ ((r, x').1 = R -> (r, x').2 = P_set)) as Hl by (intros x'; simpl; split; [lia|intros; lia]).
  assert (forall x', x' = P_set -> ((S r, x').1 <= R)%nat /\ ((S r, x').1 = R -> (S r, x').2 = P_set)) as HlS
    by (intros x' ->; simpl; split; [lia|done]).
  assert (forall t a g, op_exec p (ORmw t a g) (St mm nn ee lg) = Some (v, s') ->
    v = mm t a /\ s' = set_mem (St mm nn ee lg) t (<[a := g (mm t a)]> (mm t))) as Hrmw
    by (intros t a g H; injection H as <- <-; done).
  unfold lk_inv. destruct x as [| | |prev|k|k d| | | | |k|k d|n].
  - (* initialize *) injection Hn as <- <-. injection Hex as <- <-. exists q. cbn [lab lst mem net log set_net].
    apply (ok_relabel m0 q (lab ls) mm nn lg); rewrite ?Hlp; try done.
    + intros m ->%list_elem_of_singleton. done.
    + apply log_relabel; rewrite ?Hlp; try done. apply (k_log _ _ _ _ _ _ Hok).
  - (* quiet *) injection Hn as <- <-. simpl in Hex. destruct (forallb _ nn) eqn:Eq; [|done]. injection Hex as <- <-.
    assert (forall m, m ∈ nn -> m_dst m <> p) as Hnone.
    { intros m Hm E. destruct (k_msgs _ _ _ _ _ _ Hok m Hm) as (Hs & _). rewrite forallb_forall in Eq.
      specialize (Eq m (proj1 (list_elem_of_In _ _) Hm)). rewrite Hs, E, Z.eqb_refl in Eq. done. }
    exists q. cbn [lab lst mem net log]. apply (ok_local m0 q (lab ls)); rewrite ?Hlp; try done.
    intros _. destruct (k_quiet _ _ _ _ _ _ Hok p Hp) as [(m & Hm & Hd)|]; [by rewrite Hlp| |done].
    by destruct (Hnone m Hm).
  - (* enqueue *)
    assert (forall a, a ∈ q -> a ∈ M) as HqM by (intros a Ha; by apply (k_in _ _ _ _ _ _ Hok) in Ha as [? _]).
    pose proof (k_last _ _ _ _ _ _ Hok) as Hlast.
    destruct (tries p r) eqn:Et; injection Hn as <- <-; apply Hrmw in Hex as [-> ->]; cbv beta;
      change (match mm 0 lastA with 0 => true | _ => false end) with (0 =? mm 0 lastA).
    + destruct (0 =? mm 0 lastA) eqn:E0.
      * apply Z.eqb_eq in E0. rewrite <- E0. change (0 =? 0) with true. cbn [andb].
        rewrite Hlast in E0. symmetry in E0. apply tail_of_zero in E0 as ->; [|done].
        exists ([] ++ [p]). cbn [lab lst mem net log set_mem]. apply ok_enqueue; try done. { by apply Hnm. } by left.
      * rewrite Z.eqb_sym in E0. rewrite E0.
        exists q. rewrite (set_mem_id (St mm nn ee lg) 0 lastA : set_mem (St mm nn ee lg) 0 (<[lastA := mm 0 lastA]> (mm 0)) = _).
        cbn [lab lst mem net log]. apply (ok_local m0 q (lab ls)); rewrite ?Hlp; try done; auto.
    + exists (q ++ [p]). cbn [lab lst mem net log set_mem]. destruct (0 =? mm 0 lastA) eqn:E0; cbn [negb].
      * apply Z.eqb_eq in E0. rewrite Hlast in E0. symmetry in E0. apply tail_of_zero in E0 as ->; [|done].
        apply ok_enqueue; try done. { by apply Hnm. } by left.
      * apply Z.eqb_neq in E0. apply ok_enqueue; try done. { by apply Hnm. }
        right. exists (mm 0 lastA - 1). rewrite Hlast in *. clear Hlast.
        destruct q as [|a q' _] using rev_ind; [done|]. rewrite tail_of_snoc, length_app, Z.add_simpl_r. simpl.
        rewrite Nat.add_1_r. simpl. rewrite lookup_app_r, Nat.sub_diag by lia. split; [done|]. split; [|done].
        by destruct q'.
  - (* link *) injection Hn as <- <-. apply Hrmw in Hex as [-> ->]. exists q. cbn [lab lst mem net log set_mem].
    by apply ok_link.
  - (* fetch *) destruct (decide (k < POLL_FUEL)%nat); [|done]. injection Hn as <- <-. apply Hrmw in Hex as [-> ->].
    exists q. rewrite (set_mem_id (St mm nn ee lg) p dataA : set_mem (St mm nn ee lg) p (<[dataA := mm p dataA]> (mm p)) = _).
    cbn [lab lst mem net log].
    apply (ok_local m0 q (lab ls)); rewrite ?Hlp; try done; try (by destruct (negb _)); auto.
    intros i Hi Hnx He. apply elem_fetch in He; [|done]. by destruct (negb _).
  - (* wait *) injection Hn as <- <-. simpl in Hex. destruct (mm p dataA =? d) eqn:Ew; [done|]. injection Hex as <- <-.
    apply Z.eqb_neq in Ew. exists q. cbn [lab lst mem net log].
    apply (ok_local m0 q (lab ls)); rewrite ?Hlp; try done; auto.
    intros i Hi Hnx He. by eapply elem_wait.
  - (* enter *) injection Hn as <- <-. injection Hex as <- <-. exists q. cbn [lab lst mem net log]. rewrite <- (app_nil_r nn).
    apply (ok_relabel m0 q (lab ls) mm nn lg); rewrite ?Hlp; try done; auto.
    { intros m ?%elem_of_nil; done. }
    destruct (k_log _ _ _ _ _ _ Hok) as (h & Hh & Ha). rewrite holder_snoc, Hh. simpl.
    assert (forall a, a ∈ M -> (lab ls a).2 = P_out \/ a = p -> q !! 0%nat = Some a) as Hhead.
    { intros a Ham Hcase. assert (a ∈ q) as (i & Hi)%list_elem_of_lookup.
      { apply (k_in _ _ _ _ _ _ Hok). split; [done|]. destruct Hcase as [E|E]; rewrite E; [done|by rewrite Hlp]. }
      destruct (k_elem _ _ _ _ _ _ Hok i a Hi) as (s & _ & He).
      destruct Hcase as [E|E]; [rewrite E in He|rewrite E, Hlp in He; simpl in He]; by subst i. }
    destruct h as [a|].
    + destruct (proj1 (Ha a) eq_refl) as [Ham Hao].
      pose proof (Hhead a Ham (or_introl Hao)). pose proof (Hhead p Hp (or_intror eq_refl)).
      assert (a = p) as -> by congruence. by rewrite Hlp in Hao.
    + exists (Some p). split; [done|]. intros a. destruct (decide (a = p)) as [->|Hne].
      * rewrite fn_lookup_insert. done.
      * rewrite fn_lookup_insert_ne by done. rewrite <- Ha. split; congruence.
  - (* leave *) injection Hn as <- <-. injection Hex as <- <-. exists q. cbn [lab lst mem net log]. rewrite <- (app_nil_r nn).
    apply (ok_relabel m0 q (lab ls) mm nn lg); rewrite ?Hlp; try done; auto.
    { intros m ?%elem_of_nil; done. }
    destruct (k_log _ _ _ _ _ _ Hok) as (h & Hh & Ha). rewrite holder_snoc, Hh. simpl.
    assert (h = Some p) as -> by (apply Ha; by rewrite Hlp). rewrite Z.eqb_refl. exists None. split; [done|].
    intros a. split; [done|]. intros [Ham Hao]. destruct (decide (a = p)) as [->|Hne].
    + by rewrite fn_lookup_insert in Hao.
    + rewrite fn_lookup_insert_ne in Hao by done. pose proof (proj2 (Ha a) (conj Ham Hao)). congruence.
  - (* quiet *) injection Hn as <- <-. simpl in Hex. destruct (forallb _ nn) eqn:Eq; [|done]. injection Hex as <- <-.
    exists q. cbn [lab lst mem net log]. apply (ok_local m0 q (lab ls)); rewrite ?Hlp; try done; auto.
  - (* try to empty the queue *) injection Hn as <- <-. apply Hrmw in Hex as [-> ->].
    destruct (mm 0 lastA =? p + 1) eqn:E; cbn [negb].
    + apply Z.eqb_eq in E. exists []. cbn [lab lst mem net log set_mem]. by eapply ok_unlock.
    + exists q. rewrite (set_mem_id (St mm nn ee lg) 0 lastA : set_mem (St mm nn ee lg) 0 (<[lastA := mm 0 lastA]> (mm 0)) = _).
      cbn [lab lst mem net log]. apply (ok_local m0 q (lab ls)); rewrite ?Hlp; try done; auto.
      intros i Hi Hnx (s & Hw & He). simpl in He. subst i. exists s. split; [done|]. cbn [snd]. split; [done|]. split; [|lia].
      apply Z.eqb_neq in E. rewrite (k_last _ _ _ _ _ _ Hok) in E.
      destruct q as [|a [|b q]]; [done| |done]. injection Hi as ->. done.
  - (* fetch *) destruct (decide (k < POLL_FUEL)%nat); [|done]. injection Hn as <- <-. apply Hrmw in Hex as [-> ->].
    exists q. rewrite (set_mem_id (St mm nn ee lg) p dataA : set_mem (St mm nn ee lg) p (<[dataA := mm p dataA]> (mm p)) = _).
    cbn [lab lst mem net log].
    apply (ok_local m0 q (lab ls)); rewrite ?Hlp; try done; try (by destruct (negb _)); auto.
    intros i Hi Hnx He. apply (elem_nfetch i _ _ _ p) in He; [|done|done]. by destruct (negb _).
  - (* wait *) injection Hn as <- <-. simpl in Hex. destruct (mm p dataA =? d) eqn:Ew; [done|]. injection Hex as <- <-.
    apply Z.eqb_neq in Ew. exists q. cbn [lab lst mem net log].
    apply (ok_local m0 q (lab ls)); rewrite ?Hlp; try done; auto.
    intros i Hi Hnx He. by eapply elem_nwait.
  - (* hand over *) injection Hn as <- <-. apply Hrmw in Hex as [-> ->]. cbn [lab lst mem net log set_mem].
    by eapply ok_signal.
Qed.
(** ** Progress, termination and the theorem *)

(** A PE can move unless it waits for a value that has not changed. *)
Lemma lk_can_move m0 q ls p r x :
  lk_ok m0 q (lab ls) (mem (lst ls)) (net (lst ls)) (log (lst ls)) -> net (lst ls) = [] ->
  p ∈ M -> lab ls p = (r, x) -> (r < R)%nat ->
  (match x with P_wait _ d | P_nwait _ d => mem (lst ls) p dataA <> d | _ => True end) ->
  exists ls', lstep lk_next ls ls'.
Proof.
  intros Hok Hnet Hp Hlp Hr Hw. pose proof (poll_fuel _ _ _ _ _ _ p Hok Hp) as Hk. rewrite Hlp in Hk. cbn [snd] in Hk.
  assert (exists o f, lk_next p (lab ls p) = Some (o, f) /\ exists v s', op_exec p o (lst ls) = Some (v, s'))
    as (o & f & En & v & s' & Hex); [|eexists; by eapply lstep_pe].
  rewrite Hlp. unfold lk_next. rewrite decide_True by done.
  destruct x as [| | |prev|k|k d| | | | |k|k d|n]; try (rewrite decide_True by done);
    try (destruct (tries p r)); do 2 eexists; (split; [reflexivity|]); simpl; rewrite ?Hnet; simpl; eauto.
  all: rewrite (proj2 (Z.eqb_neq _ _) Hw); simpl; eauto.
Qed.

Lemma lk_progress m0 ls : lk_inv m0 ls -> net (lst ls) = [] ->
  (forall pe, lk_next pe (lab ls pe) = None /\ lk_halt pe (lab ls pe) = true) \/ exists ls', lstep lk_next ls ls'.
Proof.
  intros (q & Hok) Hnet.
  destruct (decide (Exists (fun p => (lab ls p).1 < R)%nat M)) as [HE|HE].
  2:{ left. intros p. unfold lk_next, lk_halt. destruct (lab ls p) as [r x] eqn:Hlp. cbn [fst snd].
      rewrite !decide_False; [done|..]; intros [Hp Hr]; apply HE, list.Exists_exists; exists p; rewrite Hlp; done. }
  right. apply list.Exists_exists in HE as (p & Hp & Hr).
  assert (forall a, a ∈ q -> a ∈ M /\ ((lab ls a).1 < R)%nat) as Hq.
  { intros a [Ha He]%(k_in _ _ _ _ _ _ Hok). split; [done|].
    destruct (k_lab _ _ _ _ _ _ Hok a Ha) as [Hle HeqR]. destruct (decide ((lab ls a).1 = R)) as [E|]; [|lia].
    by rewrite (HeqR E) in He. }
  destruct q as [|h q].
  - (* nobody is queued *)
    destruct (lab ls p) as [r x] eqn:Hlp. apply (lk_can_move m0 [] ls p r x); try done.
    pose proof (proj2 (k_in _ _ _ _ _ _ Hok p)) as Hin. rewrite Hlp in Hin.
    destruct x; try done; exfalso; by apply (elem_of_nil p), Hin.
  - (* the head of the queue can move, or its successor can link *)
    destruct (Hq h (list_elem_of_here _ _)) as [Hh Hhr].
    pose proof (k_elem _ _ _ _ _ _ Hok 0%nat h eq_refl) as (s & Hw & He).
    destruct (lab ls h) as [r x] eqn:Hlh. cbn [fst snd] in *.
    destruct x as [| | |prev|k|k d| | | | |k|k d|n]; try done;
      try (apply (lk_can_move m0 (h :: q) ls h r _ Hok Hnet Hh Hlh Hhr); done).
    + destruct He as [Hs (n & -> & Hn & _)]. apply (lk_can_move m0 (h :: q) ls h r _ Hok Hnet Hh Hlh Hhr).
      rewrite Hw, (proj2 Hs) by done.
      assert (0 <= nxt (lab ls) ((h :: q) !! 1%nat) < 2 ^ 31) as Hn1.
      { apply nxt_range. intros a Ha%list_elem_of_lookup_2. by apply Hq. }
      unfold enc. destruct Hn; lia.
    + destruct He as (_ & Hsucc & -> & ->). destruct ((h :: q) !! 1%nat) as [b|] eqn:Eb; [|done].
      destruct (is_link (lab ls b).2) eqn:El.
      * destruct (Hq b (list_elem_of_lookup_2 _ _ _ Eb)) as [Hb Hbr]. destruct (lab ls b) as [rb xb] eqn:Hlb.
        apply (lk_can_move m0 (h :: q) ls b rb xb Hok Hnet Hb Hlb Hbr). by destruct xb.
      * apply (lk_can_move m0 (h :: q) ls h r _ Hok Hnet Hh Hlh Hhr). rewrite Hw. cbn [nxt]. rewrite El.
        destruct (Hq b (list_elem_of_lookup_2 _ _ _ Eb)) as [Hb _]. pose proof (Hrange b Hb). unfold enc. lia.
Qed.

Definition pos_dist (x : pos) : nat :=
  match x with
  | P_set => 30 | P_quiet => 29 | P_last => 28 | P_link _ => 27
  | P_fetch k => 20 + 2 * (3 - k) | P_wait k _ => 21 + 2 * (2 - k)
  | P_in => 15 | P_out => 14 | P_rel => 13 | P_unlast => 12
  | P_nfetch k => 4 + 2 * (3 - k) | P_nwait k _ => 5 + 2 * (2 - k)
  | P_signal _ => 1
  end.
Definition lk_dist (p : Z) (l : label) : nat := ((R - l.1) * 31 + pos_dist l.2)%nat.

Lemma lk_next_dist p l o f v : lk_next p l = Some (o, f) -> p ∈ M /\ (lk_dist p (f v) < lk_dist p l)%nat.
Proof.
  unfold lk_next, lk_dist. destruct l as [r x]. destruct (decide (p ∈ M /\ r < R)%nat) as [[Hp Hr]|]; [|done].
  intros H. split; [done|]. cbn [fst snd]. unfold POLL_FUEL in H.
  assert ((R - r) * 31 = (R - S r) * 31 + 31)%nat by lia.
  destruct x as [| | |prev|k|k d| | | | |k|k d|n]; repeat (case_match; try done);
    injection H as <- <-; repeat case_match; cbn [fst snd pos_dist]; lia.
Qed.

Lemma lk_init m0 : m0 0 lastA = 0 -> lk_inv m0 (LW (fun _ => (0%nat, P_set)) (init_state m0)).
Proof.
  intros H0. exists []. split; simpl; try done.
  - constructor.
  - intros p _. split; [lia|done].
  - intros p. split; [by intros ?%elem_of_nil|by intros [_ ?]].
  - intros m ?%elem_of_nil; done.
  - exists None. split; [done|]. intros p. split; [done|]. by intros [_ ?].
Qed.

(** The job in which every member runs its client. *)
Definition lock_job (m0 : Z -> lmem) : world :=
  World (fun p => if decide (p ∈ M) then lock_client p else skip) (init_state m0).

Lemma lk_refines m0 : refines lk_pt (lock_job m0) (LW (fun _ => (0%nat, P_set)) (init_state m0)).
Proof.
  split; [|done]. intros p. simpl. destruct (decide (p ∈ M)) as [Hp|Hp].
  - destruct (decide (p ∈ M /\ 0 < R)%nat) as [[_ Hr]|Hn].
    + unfold lock_client. replace R with (S (R - 1)) at 1 by lia. cbn [seq for_].
      rewrite <- use_lock_pt. unfold lk_rest. replace (R - 1)%nat with (R - 1)%nat by lia. done.
    + unfold lock_client. by replace R with 0%nat by (apply not_and_l in Hn as [|]; [done|lia]).
  - by rewrite decide_False by tauto.
Qed.

(** What the lock promises: every use returns, at most one PE is inside at any
    time, and when all is done the lock is free and nothing is in flight. *)
Record lock_spec (m0 : Z -> lmem) (bound : nat) : Prop := {
  lock_completes : job_completes (lock_job m0) bound;
  lock_exclusive : forall w, rtc step (lock_job m0) w -> exists h, holder (log (w_st w)) None = Some h;
  lock_free : forall w, rtc step (lock_job m0) w -> all_returned w ->
    net (w_st w) = [] /\ mem (w_st w) 0 lastA = 0 /\ holder (log (w_st w)) None = Some None }.

(** C2: The distributed lock is correct under every interleaving and every delivery order:
    for any members, each using the lock any number of times by [set_lock] or by
    [test_lock] in any pattern, every use returns (within a bound linear in the number of
    uses: no deadlock, no lost hand-over), the critical sections never overlap, and when
    all have returned the lock is free and no message is in flight. *)
Theorem lock_correct m0 : m0 0 lastA = 0 -> lock_spec m0 (3 * (length M * (R * 31 + 30))).
Proof.
  intros H0. set (ls0 := LW (fun _ => (0%nat, P_set)) (init_state m0)).
  pose proof (lk_refines m0) as Hr. pose proof (lk_init m0 H0) as Hi.
  assert (forall w, rtc step (lock_job m0) w -> exists ls, refines lk_pt w ls /\ lk_inv m0 ls) as Hreach.
  { intros w Hw. apply (invariant_reachable _ _ lk_halt lk_pt_next _ _ _ _ Hr Hi (lk_inv_step m0) Hw). }
  split.
  - pose proof (labels_complete lk_pt lk_next lk_halt lk_pt_next M lk_dist HM lk_next_dist
      (lk_inv m0) _ ls0 Hr Hi (lk_inv_step m0) (lk_progress m0)) as [Hb Hp].
    split; [|done]. intros n w Hn. specialize (Hb n w Hn).
    unfold lmeasure, remaining, net_weight, lk_dist in Hb. cbn [lab lst ls0 fst snd pos_dist] in Hb.
    change (net (init_state m0)) with (@nil msg) in Hb. cbn [map sum_list] in Hb. rewrite Nat.sub_0_r in Hb.
    assert (forall c, sum_list (map (fun _ : Z => c) M) = (length M * c)%nat) as E.
    { intros c. clear. induction M as [|? ? IH]; simpl; [done|]. by rewrite IH. }
    rewrite E in Hb. lia.
  - intros w Hw. destruct (Hreach w Hw) as (ls & [_ Hs] & q & Hok). rewrite Hs.
    destruct (k_log _ _ _ _ _ _ Hok) as (h & Hh & _). eauto.
  - intros w Hw Hret. destruct (Hreach w Hw) as (ls & Hrw & q & Hok). pose proof Hrw as [_ Hs]. rewrite Hs.
    assert (forall p, p ∈ M -> (lab ls p).2 = P_set) as Hend.
    { intros p Hp. destruct (k_lab _ _ _ _ _ _ Hok p Hp) as [Hle HR].
      destruct (decide ((lab ls p).1 = R)) as [E|Hne]; [by apply HR|]. exfalso.
      pose proof (proj1 (refines_returned lk_pt lk_next lk_halt lk_pt_next w ls p Hrw) (Hret p)) as [Hn Hh].
      destruct (lab ls p) as [r x] eqn:Hlp. unfold lk_next, lk_halt in *. cbn [fst snd] in *.
      assert (p ∈ M /\ r < R)%nat as Hpr by (split; [done|lia]).
      rewrite (decide_True _ _ Hpr) in Hn. rewrite (decide_True _ _ Hpr) in Hh.
      destruct x as [| | |prev|k|k d| | | | |k|k d|n]; try done; try (by destruct (tries p r));
        apply bool_decide_eq_true in Hh; by rewrite decide_True in Hn. }
    assert (q = []) as ->.
    { destruct q as [|a q]; [done|]. destruct (proj1 (k_in _ _ _ _ _ _ Hok a) (list_elem_of_here _ _)) as [Ha He].
      by rewrite (Hend a Ha) in He. }
    split; [|split].
    + destruct (net (lst ls)) as [|m n] eqn:En; [done|]. exfalso.
      destruct (k_msgs _ _ _ _ _ _ Hok m (list_elem_of_here _ _)) as (_ & Hd & _ & _ & _ & Hq).
      by rewrite (Hend _ Hd) in Hq.
    + apply (k_last _ _ _ _ _ _ Hok).
    + destruct (k_log _ _ _ _ _ _ Hok) as (h & Hh & Ha). rewrite Hh. f_equal. destruct h as [a|]; [|done].
      destruct (proj1 (Ha a) eq_refl) as [Ham Hao]. by rewrite (Hend a Ham) in Hao.
Qed.
End lock.

Lemma lock_correct_witness :
  lock_spec [0; 2; 3] 5 (fun p r => (p =? 2) && Nat.even r) 64 (fun _ _ => 0) (3 * (3 * (5 * 31 + 30))).
Proof.
  apply (lock_correct [0; 2; 3]); [|apply list_elem_of_here| |done].
  - repeat (apply list.NoDup_cons; split; [intros H; repeat (apply elem_of_cons in H as [H|H]; [lia|]); by apply elem_of_nil in H|]).
    apply NoDup_nil_2.
  - intros p H. repeat (apply elem_of_cons in H as [->|H]; [lia|]). by apply elem_of_nil in H.
Defined.
