(* ===== verification/CFloat.v ===== *)
(** * Single-precision division

    [shmem_internal_team_split_2d] computes [ceil(parent_size / (float) xrange)].
    Positive binary32 values are pairs [(m, e)] standing for [m * 2 ^ e] with a
    significand of 24 bits; conversions and divisions round to nearest, ties to even. *)

From S2P Require Import Prelude.
Local Open Scope Z_scope.

(** Round [n / d] to an integer, ties to even. *)
Definition round_even (n d : Z) : Z :=
  let q := n / d in
  let r := n mod d in
  if 2 * r <? d then q
  else if d <? 2 * r then q + 1
  else if Z.even q then q else q + 1.

(** [n / d] scaled by [2 ^ s]. *)
Definition scale_num (n s : Z) : Z := n * 2 ^ Z.max s 0.
Definition scale_den (d s : Z) : Z := d * 2 ^ Z.max (- s) 0.

(** The scale at which [n / d] has a 24-bit integer part. *)
Definition scale_of (n d : Z) : Z :=
  let s := 24 - (Z.log2 n - Z.log2 d) in
  if scale_num n s / scale_den d s <? 2 ^ 24 then s else s - 1.

Definition round24 (n d : Z) : Z * Z :=
  let s := scale_of n d in (round_even (scale_num n s) (scale_den d s), - s).

Definition float_of_int (x : Z) : Z * Z := round24 x 1.
Definition fdiv (x y : Z * Z) : Z * Z :=
  let '(m, e) := round24 x.1 y.1 in (m, e + x.2 - y.2).
Definition fceil (x : Z * Z) : Z :=
  if 0 <=? x.2 then x.1 * 2 ^ x.2 else - ((- x.1) / 2 ^ (- x.2)).

(** [ceil(a / (float) b)], [a] being converted as well. *)
Definition ceil_float_div (a b : Z) : Z := fceil (fdiv (float_of_int a) (float_of_int b)).

(** ** Exactness on the sizes that fit the significand *)

Lemma round_even_bounds n d : 0 < d -> n / d <= round_even n d <= n / d + 1.
Proof. intros. unfold round_even. repeat case_match; lia. Qed.

Lemma round_even_above n d k : 0 < d -> 2 * k * d + d < 2 * n -> k + 1 <= round_even n d.
Proof.
  intros Hd Hk. unfold round_even. pose proof (Z.div_mod n d ltac:(lia)). pose proof (Z.mod_pos_bound n d Hd).
  set (q := n / d) in *. set (r := n mod d) in *.
  destruct (2 * r <? d) eqn:E1; [apply Z.ltb_lt in E1|apply Z.ltb_ge in E1].
  - assert (k < q) by nia. lia.
  - assert (k <= q) by nia. destruct (d <? 2 * r) eqn:E2; [lia|]. apply Z.ltb_ge in E2.
    assert (k < q) by nia. destruct (Z.even q); lia.
Qed.

Lemma round_even_below n d k : 0 < d -> n <= k * d -> round_even n d <= k.
Proof.
  intros Hd Hk. unfold round_even. pose proof (Z.div_mod n d ltac:(lia)). pose proof (Z.mod_pos_bound n d Hd).
  set (q := n / d) in *. set (r := n mod d) in *.
  destruct (decide (r = 0)) as [->|].
  - rewrite (proj2 (Z.ltb_lt _ _)) by lia. nia.
  - assert (q < k) by nia. repeat case_match; lia.
Qed.

Lemma round_even_exact k d : 0 < d -> round_even (k * d) d = k.
Proof.
  intros. unfold round_even. rewrite Z.div_mul, Z.mod_mul by lia. by rewrite (proj2 (Z.ltb_lt _ _)) by lia.
Qed.

(** The scale is not negative for a quotient below [2 ^ 24], and the scaled quotient has 24 bits. *)
Lemma scale_of_spec n d : 0 < n < 2 ^ 24 -> 0 < d ->
  0 <= scale_of n d /\ 2 ^ 23 * d <= n * 2 ^ scale_of n d < 2 ^ 24 * d.
Proof.
  intros Hn Hd. pose proof (Z.log2_spec n ltac:(lia)) as [Hn1 Hn2]. pose proof (Z.log2_spec d Hd) as [Hd1 Hd2].
  pose proof (Z.log2_nonneg n). pose proof (Z.log2_nonneg d).
  assert (Z.log2 n < 24) by (apply Z.log2_lt_pow2; lia).
  rewrite Z.pow_succ_r in Hn2, Hd2 by lia.
  unfold scale_of. set (s := 24 - (Z.log2 n - Z.log2 d)).
  assert (0 < s) as Hs by lia. unfold scale_num, scale_den. rewrite (Z.max_l s 0), (Z.max_r (- s) 0) by lia.
  rewrite Z.pow_0_r, Z.mul_1_r.
  assert (2 ^ Z.log2 n * 2 ^ s = 2 ^ 24 * 2 ^ Z.log2 d) as E.
  { rewrite <- !Z.pow_add_r by lia. f_equal. lia. }
  assert (2 ^ 23 * d <= n * 2 ^ s) as Hlow by nia.
  assert (n * 2 ^ s < 2 ^ 25 * d) as Hup by nia.
  destruct (n * 2 ^ s / d <? 2 ^ 24) eqn:El.
  { apply Z.ltb_lt in El. split; [lia|]. split; [done|].
    pose proof (Z.div_mod (n * 2 ^ s) d ltac:(lia)). pose proof (Z.mod_pos_bound (n * 2 ^ s) d Hd). nia. }
  apply Z.ltb_ge in El.
  split; [lia|]. assert (2 ^ 24 * d <= n * 2 ^ s) as H24.
  { pose proof (Z.mul_div_le (n * 2 ^ s) d Hd). nia. }
  replace (2 ^ s) with (2 * 2 ^ (s - 1)) in H24, Hup by (rewrite <- Z.pow_succ_r by lia; f_equal; lia). lia.
Qed.

(** A converted int below [2 ^ 24] is exact. *)
Lemma float_of_int_exact x : 0 < x < 2 ^ 24 ->
  exists s, 0 <= s /\ 0 < x * 2 ^ s < 2 ^ 24 /\ float_of_int x = (x * 2 ^ s, - s).
Proof.
  intros Hx. destruct (scale_of_spec x 1 Hx ltac:(lia)) as [Hs Hb]. exists (scale_of x 1). split; [done|].
  split; [lia|].
  unfold float_of_int, round24, scale_num, scale_den. rewrite (Z.max_l _ 0), (Z.max_r _ 0) by lia.
  rewrite Z.pow_0_r, Z.mul_1_l. f_equal.
  rewrite <- (Z.mul_1_r (x * _)) at 1. by apply round_even_exact.
Qed.

(** The ceiling of a quotient. *)
Lemma ceil_div_cases a b : 0 < b -> (a + b - 1) / b = if decide (a mod b = 0) then a / b else a / b + 1.
Proof.
  intros Hb. pose proof (Z.div_mod a b ltac:(lia)). pose proof (Z.mod_pos_bound a b Hb).
  case_decide; symmetry; [apply (Z.div_unique _ _ _ (b - 1))|apply (Z.div_unique _ _ _ (a mod b - 1))]; lia.
Qed.

(** A scale common to both operands does not matter to the quotient. *)
Lemma fceil_quotient a b m s : 0 < b -> 0 <= s ->
  a / b * 2 ^ s <= m <= (a + b - 1) / b * 2 ^ s -> (a mod b <> 0 -> a / b * 2 ^ s < m) ->
  - ((- m) / 2 ^ s) = (a + b - 1) / b.
Proof.
  intros Hb Hs Hm Hne. assert (0 < 2 ^ s) by lia.
  pose proof (Z.div_mod a b ltac:(lia)) as Ea. pose proof (Z.mod_pos_bound a b Hb).
  rewrite ceil_div_cases in * by done. set (q := a / b) in *. case_decide as E.
  - replace m with (q * 2 ^ s) by lia. replace (- (q * 2 ^ s)) with (- q * 2 ^ s) by lia. rewrite Z.div_mul; lia.
  - specialize (Hne E). replace (- m / 2 ^ s) with (- (q + 1)); [lia|].
    apply (Z.div_unique _ _ _ ((q + 1) * 2 ^ s - m)); lia.
Qed.

Lemma round_even_scale c n d : 0 < c -> 0 < d -> round_even (n * c) (d * c) = round_even n d.
Proof.
  intros Hc Hd. unfold round_even. rewrite Z.div_mul_cancel_r, Z.mul_mod_distr_r by lia.
  assert (2 * (n mod d * c) <? d * c = (2 * (n mod d) <? d)) as ->.
  { destruct (Z.ltb_spec (2 * (n mod d)) d); [apply Z.ltb_lt|apply Z.ltb_ge]; nia. }
  assert (d * c <? 2 * (n mod d * c) = (d <? 2 * (n mod d))) as ->; [|done].
  destruct (Z.ltb_spec d (2 * (n mod d))); [apply Z.ltb_lt|apply Z.ltb_ge]; nia.
Qed.

(** The single-precision quotient of two ints below [2 ^ 24] is their quotient rounded once. *)
Lemma fdiv_ints a b : 0 < a < 2 ^ 24 -> 0 < b < 2 ^ 24 ->
  exists t, 0 <= t /\ 2 ^ 23 * b <= a * 2 ^ t /\
    fdiv (float_of_int a) (float_of_int b) = (round_even (a * 2 ^ t) b, - t).
Proof.
  intros Ha Hb. destruct (float_of_int_exact a Ha) as (s1 & Hs1 & Hm1 & ->).
  destruct (float_of_int_exact b Hb) as (s2 & Hs2 & Hm2 & ->).
  destruct (scale_of_spec (a * 2 ^ s1) (b * 2 ^ s2) Hm1 ltac:(lia)) as [Hs Hq].
  unfold fdiv, round24. cbn [fst snd]. set (s := scale_of (a * 2 ^ s1) (b * 2 ^ s2)) in *.
  assert (0 < 2 ^ s2) by lia. assert (0 < 2 ^ (s1 + s)) by lia.
  rewrite <- Z.mul_assoc, <- Z.pow_add_r in Hq by lia.
  assert (s2 <= s1 + s) as Ht.
  { destruct (decide (s2 <= s1 + s)) as [|Hn]; [done|]. exfalso.
    assert (2 ^ (s1 + s + 1) <= 2 ^ s2) as Hle by (apply Z.pow_le_mono_r; lia).
    rewrite Z.pow_add_r in Hle by lia. nia. }
  exists (s1 + s - s2). split; [lia|].
  assert (2 ^ (s1 + s) = 2 ^ (s1 + s - s2) * 2 ^ s2) as E by (rewrite <- Z.pow_add_r by lia; f_equal; lia).
  split; [nia|]. f_equal; [|lia].
  unfold scale_num, scale_den. rewrite (Z.max_l s 0), (Z.max_r (- s) 0), Z.pow_0_r, Z.mul_1_r by lia.
  rewrite <- Z.mul_assoc, <- Z.pow_add_r, E, Z.mul_assoc by lia. apply round_even_scale; lia.
Qed.

(** [ceil(a / (float) b)] is the exact ceiling for operands below [2 ^ 24]. *)
Lemma ceil_float_div_exact a b : 0 < a < 2 ^ 24 -> 0 < b < 2 ^ 24 -> ceil_float_div a b = (a + b - 1) / b.
Proof.
  intros Ha Hb. unfold ceil_float_div. destruct (fdiv_ints a b Ha Hb) as (t & Ht & Hlow & ->).
  set (m := round_even (a * 2 ^ t) b). assert (0 < 2 ^ t) by lia.
  assert (- ((- m) / 2 ^ t) = (a + b - 1) / b) as E.
  { pose proof (Z.div_mod a b ltac:(lia)) as Ea. pose proof (Z.mod_pos_bound a b ltac:(lia)).
    apply fceil_quotient; [lia|done| |].
    - rewrite ceil_div_cases by lia. split.
      + pose proof (round_even_bounds (a * 2 ^ t) b ltac:(lia)) as [Hr _]. etrans; [|exact Hr].
        apply Z.div_le_lower_bound; [lia|]. nia.
      + apply round_even_below; [lia|]. case_decide; nia.
    - intros Hne. unfold m. enough (a / b * 2 ^ t + 1 <= round_even (a * 2 ^ t) b) by lia.
      apply round_even_above; [lia|].
      assert (b < 2 * 2 ^ t) by nia. nia. }
  unfold fceil. cbn [fst snd]. destruct (0 <=? - t) eqn:E0; [|by rewrite Z.opp_involutive].
  apply Z.leb_le in E0. assert (t = 0) as E1 by lia. rewrite E1 in *. simpl in *.
  rewrite Z.div_1_r in E. lia.
Qed.
