(* ===== verification/Team.v ===== *)
(** * Teams ([shmem_team.c], [shmem_team.h])

    Team objects, the pool of pSyncs they share, creation (strided and 2-D splits),
    destruction and the pSync choice of each collective.  A team in use is named by
    its [psync_idx], its index in the team pool.  The availability bits and the two
    return-value cells are symmetric memory; the pool is private state, passed along.
    [malloc], [shmem_internal_shmalloc], [shmem_internal_ptr] and the destruction of
    a context by the transport are parameters. *)

From S2P Require Import Prelude CFloat Machine Straight Internal ReduceOp Comm Tree CollSync Bcast Reduce.
Local Open Scope Z_scope.
Local Open Scope prog_scope.

Definition SHMEM_TEAM_WORLD_INDEX : Z := 0.
Definition SHMEM_TEAM_SHARED_INDEX : Z := 1.
Definition SHMEM_TEAMS_MIN : Z := 2.
Definition N_PSYNC_BYTES : Z := 8.
Definition N_PSYNCS_PER_TEAM : Z := 2.
Definition PSYNC_CHUNK_SIZE : Z := N_PSYNCS_PER_TEAM * SHMEM_SYNC_SIZE.

Inductive shmem_internal_team_op_t := SYNC | BCAST | REDUCE | COLLECT | ALLTOALL.

(** A context created on a team: its handle and whether it is private. *)
Record team_ctx := TeamCtx { ctx_handle : Z; ctx_private : bool }.

(** [struct shmem_internal_team_t]; [psync_avail] holds [N_PSYNCS_PER_TEAM] flags. *)
Record shmem_internal_team_t := Team {
  team_my_pe : Z;
  team_start : Z; team_stride : Z; team_size : Z;
  psync_idx : Z;
  psync_avail : list bool;
  team_config : Z; config_mask : Z;
  contexts : list (option team_ctx) }.

Definition set_avail (t : shmem_internal_team_t) (a : list bool) : shmem_internal_team_t :=
  Team (team_my_pe t) (team_start t) (team_stride t) (team_size t) (psync_idx t) a
       (team_config t) (config_mask t) (contexts t).

Definition all_avail : list bool := [true; true].

(** The globals of [shmem_team.c]: the pool, and the addresses of the symmetric arrays. *)
Record teams := Teams {
  TEAMS_MAX : Z;
  team_pool : Z -> option shmem_internal_team_t;
  psync_pool : Z;
  psync_pool_avail : Z;
  team_ret_val : Z }.
Definition psync_barrier_pool (ts : teams) : Z :=
  psync_pool ts + SIZEOF_LONG * (PSYNC_CHUNK_SIZE * TEAMS_MAX ts).
Definition psync_pool_avail_reduced (ts : teams) : Z := psync_pool_avail ts + N_PSYNC_BYTES.
Definition team_ret_val_reduced (ts : teams) : Z := team_ret_val ts + SIZEOF_INT.
Definition set_team (ts : teams) (i : Z) (t : option shmem_internal_team_t) : teams :=
  Teams (TEAMS_MAX ts) (<[i := t]> (team_pool ts)) (psync_pool ts) (psync_pool_avail ts) (team_ret_val ts).

(** ** PE numbers *)

Definition shmem_internal_team_pe (team : shmem_internal_team_t) (pe : Z) : Z :=
  team_start team + team_stride team * pe.

(** [None] is [SHMEM_TEAM_INVALID]. *)
Definition shmem_internal_team_translate_pe (src_team : option shmem_internal_team_t) (src_pe : Z)
    (dest_team : option shmem_internal_team_t) : Z :=
  match src_team, dest_team with
  | Some src, Some dest =>
      if src_pe >? team_size src then -1
      else
        let src_pe_world := team_start src + src_pe * team_stride src in
        shmem_internal_pe_in_active_set src_pe_world (team_start dest) (team_stride dest) (team_size dest)
  | _, _ => -1
  end.

(** ** [SHMEM_TEAM_SHARED] *)

(** The state [(start, stride, size)] of the scan; [None] is the -1 return. *)
Definition check_for_linear_stride (pe : Z) (s : Z * Z * Z) : option (Z * Z * Z) :=
  let '(start, stride, size) := s in
  if start <? 0 then Some (pe, stride, size + 1)
  else if stride <? 0 then Some (start, pe - start, size + 1)
  else if negb (cmod (pe - start) stride =? 0) then None
  else Some (start, stride, size + 1).

(** The scan over the PEs that share memory with this one. *)
Fixpoint shared_scan (pes : list Z) (s : Z * Z * Z) : option (Z * Z * Z) :=
  match pes with
  | [] => Some s
  | pe :: pes => match check_for_linear_stride pe s with
                 | None => None
                 | Some s => shared_scan pes s
                 end
  end.

(** [shmem_internal_ptr pe]: whether [pe] is reachable by loads and stores. *)
Definition team_shared_triplet (only_self : bool) (shmem_internal_ptr : Z -> bool) (my_pe num_pes : Z) : Z * Z * Z :=
  if only_self then (my_pe, 1, 1)
  else match shared_scan (List.filter shmem_internal_ptr (upto 0 num_pes)) (-1, -1, 0) with
       | None => (my_pe, 1, 1)
       | Some (start, stride, size) => (start, if stride =? -1 then 1 else stride, size)
       end.

(** ** Initialization *)

Definition team_world (num_pes my_pe : Z) : shmem_internal_team_t :=
  Team my_pe 0 1 num_pes SHMEM_TEAM_WORLD_INDEX all_avail 0 0 [].
Definition team_shared (only_self : bool) (ptr : Z -> bool) (my_pe num_pes : Z) : shmem_internal_team_t :=
  let '(start, stride, size) := team_shared_triplet only_self ptr my_pe num_pes in
  Team my_pe start stride size SHMEM_TEAM_SHARED_INDEX all_avail 0 0 [].

(** The availability bytes: ones for the slots below [TEAMS_MAX], zeros for the two
    predefined teams. *)
Definition init_avail (teams_max : Z) : list Z :=
  let b := fold_left (fun b i => shmem_internal_bit_set b N_PSYNC_BYTES i) (upto 0 teams_max)
                     (replicate (Z.to_nat N_PSYNC_BYTES) 0) in
  shmem_internal_bit_clear (shmem_internal_bit_clear b N_PSYNC_BYTES SHMEM_TEAM_WORLD_INDEX)
    N_PSYNC_BYTES SHMEM_TEAM_SHARED_INDEX.

Definition write_bytes (addr : Z) (bs : list Z) (m : Z -> Z) : Z -> Z :=
  fold_left (fun m i => <[addr + i := byte_at bs i]> m) (upto 0 (Z.of_nat (length bs))) m.
Definition write_longs (addr n v : Z) (m : Z -> Z) : Z -> Z :=
  fold_left (fun m i => <[addr + SIZEOF_LONG * i := v]> m) (upto 0 n) m.

Section init.
Context (malloc : Z -> option Z) (shmem_internal_shmalloc : Z -> (Z -> Z) -> option Z).

(** [None] is the return of -1 (everything allocated is freed again). *)
Definition shmem_internal_team_init (teams_max : Z) (only_self : bool) (ptr : Z -> bool) (num_pes my_pe : Z)
    (m : Z -> Z) : option (teams * (Z -> Z)) :=
  if teams_max >? N_PSYNC_BYTES * CHAR_BIT then None
  else
    let teams_max := if teams_max <? SHMEM_TEAMS_MIN then SHMEM_TEAMS_MIN else teams_max in
    let psync_len := teams_max * (PSYNC_CHUNK_SIZE + SHMEM_SYNC_SIZE) in
    match shmem_internal_shmalloc (SIZEOF_LONG * psync_len) m with
    | None => None
    | Some pool =>
        let m := write_longs pool psync_len SHMEM_SYNC_VALUE m in
        match shmem_internal_shmalloc (2 * N_PSYNC_BYTES) m with
        | None => None
        | Some avail =>
            let m := write_bytes avail (init_avail teams_max ++ replicate (Z.to_nat N_PSYNC_BYTES) 0) m in
            match shmem_internal_shmalloc (SIZEOF_INT * 2) m with
            | None => None
            | Some ret =>
                Some (Teams teams_max
                        (fun i => if i =? SHMEM_TEAM_WORLD_INDEX then Some (team_world num_pes my_pe)
                                  else if i =? SHMEM_TEAM_SHARED_INDEX then Some (team_shared only_self ptr my_pe num_pes)
                                  else None)
                        pool avail ret, m)
            end
        end
    end.
End init.

(** ** pSyncs *)

(** The first available pSync of a team: its flag index and the flags with it taken. *)
Fixpoint take_psync (i : Z) (avail : list bool) : option (Z * list bool) :=
  match avail with
  | [] => None
  | true :: avail => Some (i, false :: avail)
  | false :: avail => match take_psync (i + 1) avail with
                      | Some (j, avail) => Some (j, false :: avail)
                      | None => None
                      end
  end.

(** The pSync to use and the team with its flags updated; when none is available the
    team quiesces on its barrier pSync first. *)
Definition shmem_internal_team_choose_psync (e : env) (ts : teams) (team : shmem_internal_team_t)
    (op : shmem_internal_team_op_t) : prog (Z * shmem_internal_team_t) :=
  match op with
  | SYNC => Ret (psync_barrier_pool ts + SIZEOF_LONG * (psync_idx team * SHMEM_SYNC_SIZE), team)
  | _ =>
      match take_psync 0 (psync_avail team) with
      | Some (i, avail) =>
          Ret (psync_pool ts + SIZEOF_LONG * ((psync_idx team + i) * PSYNC_CHUNK_SIZE), set_avail team avail)
      | None =>
          let psync := psync_idx team * SHMEM_SYNC_SIZE in
          pbind (shmem_internal_quiet ;;
                 shmem_internal_sync e (team_start team) (team_stride team) (team_size team)
                   (psync_barrier_pool ts + SIZEOF_LONG * psync))
                (fun _ => Ret (psync_pool ts + SIZEOF_LONG * psync, set_avail team [false; true]))
      end
  end.

Definition shmem_internal_team_release_psyncs (team : shmem_internal_team_t) (op : shmem_internal_team_op_t) :
    shmem_internal_team_t :=
  match op with
  | SYNC => set_avail team all_avail
  | _ => team
  end.

(** ** Creation and destruction *)

(** Reading the availability bytes, and changing one bit of them. *)
Fixpoint load_bytes (addr : Z) (n : nat) : prog (list Z) :=
  match n with
  | O => Ret []
  | S n => (b <- load addr ; bs <- load_bytes (addr + 1) n ; Ret (b :: bs))
  end.
Definition bit_set_mem (ptr index : Z) : prog unit :=
  (b <- load (ptr + index / CHAR_BIT) ;
   store (ptr + index / CHAR_BIT) (Z.lor b (Z.shiftl 1 (index mod CHAR_BIT)))).
Definition bit_clear_mem (ptr index : Z) : prog unit :=
  (b <- load (ptr + index / CHAR_BIT) ;
   store (ptr + index / CHAR_BIT) (Z.land b (Z.lnot (Z.shiftl 1 (index mod CHAR_BIT))) mod 256)).

Section ops.
Context (fp_calc : shm_internal_op_t -> shm_internal_datatype_t -> Z -> Z -> Z).
Context (atomic_supported : shm_internal_op_t -> shm_internal_datatype_t -> bool).
(** [shmem_transport_quiet] and [shmem_transport_ctx_destroy] of a context. *)
Context (transport_ctx_destroy : Z -> prog unit).

(** The arguments a split accepts. *)
Definition split_valid (parent : shmem_internal_team_t) (PE_start PE_stride PE_size : Z) : bool :=
  negb ((PE_start <? 0) || (PE_start >=? team_size parent) ||
        (PE_size <=? 0) || (PE_size >? team_size parent) || (PE_stride <? 1)).

(** The selected slot, or -1 when none is available or it is not below the maximum. *)
Definition split_slot (teams_max : Z) (reduced : list Z) : Z :=
  let idx := shmem_internal_bit_1st_nonzero reduced N_PSYNC_BYTES in
  if (idx =? -1) || (idx >=? teams_max) then -1 else idx.

(** [parent] is the pool index of the parent ([None] for SHMEM_TEAM_INVALID), [tmp]
    what [malloc] answers in the reductions.  The result: the return value, the
    index of the new team if this PE has one, and the globals. *)
Definition shmem_internal_team_split_strided (e : env) (tmp : option Z) (ts : teams) (parent : option Z)
    (PE_start PE_stride PE_size : Z) (config : option Z) (mask : Z) : prog (Z * option Z * teams) :=
  match parent with
  | None => Ret (1, None, ts)
  | Some pidx =>
  match team_pool ts pidx with
  | None => Raise (* a dangling handle *)
  | Some pt =>
    let global_PE_start := shmem_internal_team_pe pt PE_start in
    let global_PE_end := global_PE_start + PE_stride * (PE_size - 1) in
    if negb (split_valid pt PE_start PE_stride PE_size) then Ret (-1, None, ts)
    else if (global_PE_start >=? shmem_internal_num_pes e) || (global_PE_end >=? shmem_internal_num_pes e)
    then Ret (-1, None, ts)
    else
      let my_pe := shmem_internal_pe_in_active_set (shmem_internal_my_pe e) global_PE_start PE_stride PE_size in
      chosen <- shmem_internal_team_choose_psync e ts pt REDUCE ;
      let '(psync, pt) := chosen in
      store (team_ret_val ts) 0 ;;
      store (team_ret_val_reduced ts) 0 ;;
      created <-
        (if negb (my_pe =? -1) then
           shmem_internal_op_to_all fp_calc atomic_supported e tmp (psync_pool_avail_reduced ts)
             (psync_pool_avail ts) N_PSYNC_BYTES 1 global_PE_start PE_stride PE_size psync
             SHM_INTERNAL_BAND SHM_INTERNAL_UCHAR ;;
           reduced <- load_bytes (psync_pool_avail_reduced ts) (Z.to_nat N_PSYNC_BYTES) ;
           let idx := split_slot (TEAMS_MAX ts) reduced in
           if idx =? -1 then (store (team_ret_val ts) 1 ;; Ret None)
           else
             (* Set the selected psync bit to 0, reserving that slot *)
             (bit_clear_mem (psync_pool_avail ts) idx ;;
              Ret (Some (Team my_pe global_PE_start PE_stride PE_size idx all_avail
                           (default 0 config) (match config with Some _ => mask | None => 0 end) [])))
         else Ret None) ;
      let ts := match created with Some t => set_team ts (psync_idx t) (Some t) | None => ts end in
      (* This barrier on the parent team eliminates race conditions between back-to-back creations *)
      let pt := shmem_internal_team_release_psyncs pt REDUCE in
      chosen <- shmem_internal_team_choose_psync e ts pt SYNC ;
      let '(psync, pt) := chosen in
      shmem_internal_barrier e (team_start pt) (team_stride pt) (team_size pt) psync ;;
      let pt := shmem_internal_team_release_psyncs pt SYNC in
      (* This reduction assures all PEs return the same value *)
      chosen <- shmem_internal_team_choose_psync e ts pt REDUCE ;
      let '(psync, pt) := chosen in
      shmem_internal_op_to_all fp_calc atomic_supported e tmp (team_ret_val_reduced ts) (team_ret_val ts) 1
        SIZEOF_INT (team_start pt) (team_stride pt) (team_size pt) psync SHM_INTERNAL_MAX SHM_INTERNAL_INT ;;
      let pt := shmem_internal_team_release_psyncs pt REDUCE in
      let ts := set_team ts pidx (Some pt) in
      ret <- load (team_ret_val_reduced ts) ;
      Ret (ret, option_map psync_idx created, ts)
  end
  end.

(** One axis of a 2-D split: the sizes and starts of its teams, created in turn; a
    failure aborts the job. *)
Fixpoint split_axis (e : env) (tmp : option Z) (parent : Z) (stride : Z) (config : option Z) (mask : Z)
    (teams_ : list (Z * Z)) (ts : teams) (mine : option Z) : prog (option Z * teams) :=
  match teams_ with
  | [] => Ret (mine, ts)
  | (start, size) :: rest =>
      r <- shmem_internal_team_split_strided e tmp ts (Some parent) start stride size config mask ;
      let '(ret, t, ts) := r in
      if negb (ret =? 0) then Raise
      else split_axis e tmp parent stride config mask rest ts (match t with Some _ => t | None => mine end)
  end.

(** The teams of the two axes: their first PE and their size. *)
Definition x_teams (parent_size xrange : Z) : list (Z * Z) :=
  let num_xteams := ceil_float_div parent_size xrange in
  map (fun i => (i * xrange,
                 if (i =? num_xteams - 1) && negb (cmod parent_size xrange =? 0)
                 then cmod parent_size xrange else xrange)) (upto 0 num_xteams).
Definition y_teams (parent_size xrange : Z) : list (Z * Z) :=
  let remainder := cmod parent_size xrange in
  let yrange := cdiv parent_size xrange in
  map (fun i => (i, if negb (remainder =? 0) && (i <? remainder) then yrange + 1 else yrange)) (upto 0 xrange).

Definition shmem_internal_team_split_2d (e : env) (tmp : option Z) (ts : teams) (parent : option Z) (xrange : Z)
    (xconfig : option Z) (xmask : Z) (yconfig : option Z) (ymask : Z) : prog (Z * option Z * option Z * teams) :=
  match parent with
  | None => Ret (1, None, None, ts)
  | Some pidx =>
  match team_pool ts pidx with
  | None => Raise (* a dangling handle *)
  | Some pt =>
    let parent_size := team_size pt in
    let xrange := if xrange >? parent_size then parent_size else xrange in
    x <- split_axis e tmp pidx (team_stride pt) xconfig xmask (x_teams parent_size xrange) ts None ;
    let '(xteam, ts) := x in
    y <- split_axis e tmp pidx (xrange * team_stride pt) yconfig ymask (y_teams parent_size xrange) ts None ;
    let '(yteam, ts) := y in
    let pt := default pt (team_pool ts pidx) in
    chosen <- shmem_internal_team_choose_psync e ts pt SYNC ;
    let '(psync, pt) := chosen in
    shmem_internal_barrier e (team_start pt) (team_stride pt) (team_size pt) psync ;;
    Ret (0, xteam, yteam, set_team ts pidx (Some (shmem_internal_team_release_psyncs pt SYNC)))
  end
  end.

(** Destroying the shareable contexts of a team. *)
Definition destroy_contexts (cs : list (option team_ctx)) : prog unit :=
  for_ cs (fun c => match c with
                    | Some c => transport_ctx_destroy (ctx_handle c)
                    | None => skip
                    end).

(** Only [SHMEM_TEAM_INVALID] ([None]) is answered with -1.  A handle whose team was
    destroyed is a dangling pointer: the code reads the pSync index from it (freed
    memory, except for the two static teams) and aborts when it finds the bit free. *)
Definition shmem_internal_team_destroy (ts : teams) (team : option Z) : prog (Z * teams) :=
  match team with
  | None => Ret (-1, ts)
  | Some idx =>
  match team_pool ts idx with
  | None => Raise
  | Some t =>
      b <- load (psync_pool_avail ts + psync_idx t / CHAR_BIT) ;
      if negb (Z.land (Z.shiftr b (psync_idx t mod CHAR_BIT)) 1 =? 0)
      then Raise (* Destroying a team without an active pSync *)
      else
        (bit_set_mem (psync_pool_avail ts) (psync_idx t) ;;
         destroy_contexts (contexts t) ;;
         Ret (0, set_team ts (psync_idx t) None))
  end
  end.

(** Destroy all undestroyed teams. *)
Fixpoint fini_loop (ids : list Z) (ts : teams) : prog teams :=
  match ids with
  | [] => Ret ts
  | i :: ids =>
      match team_pool ts i with
      | Some _ => (r <- shmem_internal_team_destroy ts (Some i) ; fini_loop ids (snd r))
      | None => fini_loop ids ts
      end
  end.
Definition shmem_internal_team_fini (ts : teams) : prog teams := fini_loop (upto 0 (TEAMS_MAX ts)) ts.
End ops.
