(* ===== verification/TeamFacts.v ===== *)
(** * Facts about teams

    The bit arrays as sets of slots, the agreement of all members on a free pSync
    slot, the PE translations, and the shapes of the 2-D splits. *)

From S2P Require Import Prelude CFloat Machine Internal Tree Team.
Local Open Scope Z_scope.

(** ** Bit arrays *)

(** A byte array of [size] unsigned chars, and bit [i] of it. *)
Definition bytes_ok (ptr : list Z) (size : Z) : Prop :=
  Z.of_nat (length ptr) = size /\ Forall (fun b => 0 <= b < 256) ptr.
Definition bit (ptr : list Z) (i : Z) : bool := Z.testbit (byte_at ptr (i / CHAR_BIT)) (i mod CHAR_BIT).

Lemma land_1_testbit b j : 0 <= j -> Z.land (Z.shiftr b j) 1 = Z.b2z (Z.testbit b j).
Proof.
  intros Hj. change 1 with (Z.ones 1). rewrite Z.land_ones by lia. change (2 ^ 1) with 2.
  by rewrite <- Z.bit0_mod, Z.shiftr_spec, Z.add_0_l by lia.
Qed.

Lemma bit_fetch_spec ptr size i : 0 <= i -> shmem_internal_bit_fetch ptr size i = Z.b2z (bit ptr i).
Proof. intros Hi. apply land_1_testbit. apply Z.mod_pos_bound. unfold CHAR_BIT. lia. Qed.

Lemma byte_at_upd ptr i j v : 0 <= i < Z.of_nat (length ptr) -> 0 <= j ->
  byte_at (byte_upd ptr i v) j = if decide (i = j) then v else byte_at ptr j.
Proof.
  intros Hi Hj. unfold byte_at, byte_upd. rewrite !nth_lookup. case_decide as E.
  - subst j. by rewrite list_lookup_insert_eq by lia.
  - by rewrite list_lookup_insert_ne by lia.
Qed.

Lemma bit_index i j : 0 <= i -> 0 <= j -> i = j <-> i / CHAR_BIT = j / CHAR_BIT /\ i mod CHAR_BIT = j mod CHAR_BIT.
Proof.
  intros Hi Hj. unfold CHAR_BIT. split; [by intros ->|]. intros [E1 E2].
  rewrite (Z.div_mod i 8), (Z.div_mod j 8) by lia. by rewrite E1, E2.
Qed.

Lemma shiftl_1_testbit a b : 0 <= a -> 0 <= b -> Z.testbit (Z.shiftl 1 a) b = bool_decide (a = b).
Proof.
  intros Ha Hb. rewrite Z.shiftl_mul_pow2, Z.mul_1_l, Z.pow2_bits_eqb by lia.
  by destruct (Z.eqb_spec a b); [rewrite bool_decide_eq_true_2|rewrite bool_decide_eq_false_2].
Qed.

Section bits.
Context (ptr : list Z) (size : Z) (Hok : bytes_ok ptr size).

Lemma byte_range i : 0 <= byte_at ptr i < 256.
Proof.
  unfold byte_at. rewrite nth_lookup. destruct (ptr !! Z.to_nat i) as [b|] eqn:E; simpl; [|lia].
  destruct Hok as [_ HF]. rewrite list.Forall_forall in HF. apply HF. by eapply list_elem_of_lookup_2.
Qed.

Lemma div_index i : 0 <= i < size * CHAR_BIT -> 0 <= i / CHAR_BIT < Z.of_nat (length ptr).
Proof.
  destruct Hok as [-> _]. unfold CHAR_BIT. intros. split; [apply Z.div_pos; lia|apply Z.div_lt_upper_bound; lia].
Qed.

Lemma bit_set_spec i j : 0 <= i < size * CHAR_BIT -> 0 <= j ->
  bit (shmem_internal_bit_set ptr size i) j = bool_decide (i = j) || bit ptr j.
Proof.
  intros Hi Hj. pose proof (div_index i Hi). unfold bit, shmem_internal_bit_set.
  assert (0 <= j / CHAR_BIT) by (apply Z.div_pos; unfold CHAR_BIT; lia).
  assert (0 <= j mod CHAR_BIT /\ 0 <= i mod CHAR_BIT) as [] by (split; apply Z.mod_pos_bound; unfold CHAR_BIT; lia).
  rewrite byte_at_upd by lia. pose proof (bit_index i j ltac:(lia) Hj) as Hij. case_decide as E.
  - rewrite Z.lor_spec, shiftl_1_testbit, E by lia. rewrite orb_comm. f_equal.
    apply bool_decide_ext. tauto.
  - rewrite bool_decide_eq_false_2; [done|]. tauto.
Qed.

Lemma bit_clear_spec i j : 0 <= i < size * CHAR_BIT -> 0 <= j ->
  bit (shmem_internal_bit_clear ptr size i) j = negb (bool_decide (i = j)) && bit ptr j.
Proof.
  intros Hi Hj. pose proof (div_index i Hi). unfold bit, shmem_internal_bit_clear.
  assert (0 <= j / CHAR_BIT) by (apply Z.div_pos; unfold CHAR_BIT; lia).
  assert (0 <= j mod CHAR_BIT < 8 /\ 0 <= i mod CHAR_BIT) as [] by (split; apply Z.mod_pos_bound; unfold CHAR_BIT; lia).
  rewrite byte_at_upd by lia. pose proof (bit_index i j ltac:(lia) Hj) as Hij. case_decide as E.
  - change 256 with (2 ^ 8). rewrite Z.mod_pow2_bits_low, Z.land_spec, Z.lnot_spec, shiftl_1_testbit, E by lia.
    rewrite andb_comm. f_equal. f_equal. apply bool_decide_ext. tauto.
  - rewrite bool_decide_eq_false_2; [done|]. tauto.
Qed.

Lemma upd_ok i v : 0 <= v < 256 -> bytes_ok (byte_upd ptr i v) size.
Proof.
  intros Hv. destruct Hok as [Hl HF]. split.
  - unfold byte_upd. by rewrite length_insert.
  - unfold byte_upd. apply Forall_insert; done.
Qed.

Lemma bit_set_ok i : 0 <= i -> bytes_ok (shmem_internal_bit_set ptr size i) size.
Proof.
  intros Hi. apply upd_ok. pose proof (byte_range (i / CHAR_BIT)).
  assert (0 <= i mod CHAR_BIT < 8) by (apply Z.mod_pos_bound; unfold CHAR_BIT; lia).
  rewrite Z.shiftl_mul_pow2, Z.mul_1_l by lia.
  assert (0 < 2 ^ (i mod CHAR_BIT)) by lia.
  set (b := byte_at ptr (i / CHAR_BIT)) in *. set (k := i mod CHAR_BIT) in *.
  assert (0 <= Z.lor b (2 ^ k)) as Hlor by (apply Z.lor_nonneg; lia). split; [done|].
  assert (Z.lor b (2 ^ k) <> 0) as Hne by (intros [_ ?]%Z.lor_eq_0_iff; lia).
  change 256 with (2 ^ 8). apply Z.log2_lt_pow2; [lia|].
  rewrite Z.log2_lor, Z.log2_pow2 by lia.
  assert (Z.log2 b < 8); [|lia].
  destruct (decide (b = 0)) as [->|]; [done|]. apply Z.log2_lt_pow2; lia.
Qed.

Lemma bit_clear_ok i : bytes_ok (shmem_internal_bit_clear ptr size i) size.
Proof. apply upd_ok. apply Z.mod_pos_bound. lia. Qed.
End bits.

(** ** The least set bit *)

Lemma first_bit_spec fuel b j : 0 <= b < 2 ^ Z.of_nat fuel ->
  match first_bit fuel b j with
  | Some k => exists i, 0 <= i < Z.of_nat fuel /\ k = j + i /\ Z.testbit b i = true /\
                        forall i', 0 <= i' < i -> Z.testbit b i' = false
  | None => forall i, 0 <= i -> Z.testbit b i = false
  end.
Proof.
  revert b j. induction fuel as [|fuel IH]; intros b j Hb.
  - assert (b = 0) as -> by (simpl in Hb; lia). cbn. intros. apply Z.bits_0.
  - cbn [first_bit]. destruct (b =? 0) eqn:E0; [apply Z.eqb_eq in E0 as ->; intros; apply Z.bits_0|].
    destruct (Z.odd b) eqn:Eo.
    + exists 0. rewrite Z.bit0_odd, Z.add_0_r. repeat split; try lia. done.
    + rewrite Nat2Z.inj_succ, Z.pow_succ_r in Hb by lia.
      assert (forall i, 0 <= i -> Z.testbit (Z.shiftr b 1) i = Z.testbit b (i + 1)) as Hs
        by (intros; by rewrite Z.shiftr_spec).
      specialize (IH (Z.shiftr b 1) (j + 1)).
      destruct (first_bit fuel (Z.shiftr b 1) (j + 1)) as [k|].
      * destruct IH as (i & Hi & -> & Ht & Hl).
        { rewrite Z.shiftr_div_pow2 by lia. change (2 ^ 1) with 2. split; [apply Z.div_pos; lia|apply Z.div_lt_upper_bound; lia]. }
        exists (i + 1). split; [lia|]. split; [lia|]. split; [by rewrite <- Hs by lia|].
        intros i' Hi'. destruct (decide (i' = 0)) as [->|]; [by rewrite Z.bit0_odd|].
        replace i' with (i' - 1 + 1) by lia. rewrite <- Hs by lia. apply Hl. lia.
      * intros i Hi. destruct (decide (i = 0)) as [->|]; [by rewrite Z.bit0_odd|].
        replace i with (i - 1 + 1) by lia. rewrite <- Hs by lia. apply IH; [|lia].
        rewrite Z.shiftr_div_pow2 by lia. change (2 ^ 1) with 2. split; [apply Z.div_pos; lia|apply Z.div_lt_upper_bound; lia].
Qed.

Lemma byte_at_cons b ptr i : 0 < i -> byte_at (b :: ptr) i = byte_at ptr (i - 1).
Proof. intros. unfold byte_at. by replace (Z.to_nat i) with (S (Z.to_nat (i - 1))) by lia. Qed.

Lemma bit_cons b ptr i : 0 <= i -> bit (b :: ptr) i = if i <? 8 then Z.testbit b i else bit ptr (i - 8).
Proof.
  intros Hi. unfold bit, CHAR_BIT. destruct (Z.ltb_spec i 8).
  - by rewrite Z.div_small, Z.mod_small by lia.
  - replace i with (i - 8 + 1 * 8) at 1 2 by lia. rewrite Z.div_add, Z.mod_add by lia.
    assert (0 <= (i - 8) / 8) by (apply Z.div_pos; lia).
    rewrite byte_at_cons by lia. do 2 f_equal. lia.
Qed.

Lemma first_byte_spec ptr n : Forall (fun b => 0 <= b < 256) ptr -> 0 <= n ->
  let r := first_byte ptr n in
  (r = -1 /\ forall i, 0 <= i < 8 * Z.of_nat (length ptr) -> bit ptr i = false) \/
  (exists i, 0 <= i < 8 * Z.of_nat (length ptr) /\ r = 8 * n + i /\ bit ptr i = true /\
             forall i', 0 <= i' < i -> bit ptr i' = false).
Proof.
  revert n. induction ptr as [|b ptr IH]; intros n HF Hn r; [left; split; [done|simpl; lia]|].
  apply list.Forall_cons in HF as [Hb HF]. unfold r. cbn [first_byte length].
  pose proof (first_bit_spec 8 b 0 Hb) as Hf. destruct (first_bit 8 b 0) as [k|].
  - destruct Hf as (i & Hi & -> & Ht & Hl). right. exists i. unfold CHAR_BIT. split; [lia|]. split; [lia|].
    rewrite bit_cons, (proj2 (Z.ltb_lt i 8)) by lia. split; [done|]. intros i' Hi'.
    rewrite bit_cons, (proj2 (Z.ltb_lt i' 8)) by lia. by apply Hl.
  - destruct (IH (n + 1) HF ltac:(lia)) as [[-> Hall]|(i & Hi & -> & Ht & Hl)].
    + left. split; [done|]. intros i Hi. rewrite bit_cons by lia.
      destruct (Z.ltb_spec i 8); [apply Hf; lia|apply Hall; lia].
    + right. exists (i + 8). split; [lia|]. split; [lia|]. rewrite bit_cons, (proj2 (Z.ltb_ge _ _)) by lia.
      replace (i + 8 - 8) with i by lia. split; [done|]. intros i' Hi'. rewrite bit_cons by lia.
      destruct (Z.ltb_spec i' 8); [apply Hf; lia|apply Hl; lia].
Qed.

(** [bit_1st_nonzero] answers the least set bit, or -1 when there is none. *)
Lemma bit_1st_nonzero_spec ptr size : bytes_ok ptr size ->
  let r := shmem_internal_bit_1st_nonzero ptr size in
  (r = -1 /\ forall i, 0 <= i < size * CHAR_BIT -> bit ptr i = false) \/
  (0 <= r < size * CHAR_BIT /\ bit ptr r = true /\ forall i, 0 <= i < r -> bit ptr i = false).
Proof.
  intros [<- HF] r. unfold r, shmem_internal_bit_1st_nonzero. rewrite Nat2Z.id, take_ge by lia.
  destruct (first_byte_spec ptr 0 HF ltac:(lia)) as [[-> Hall]|(i & Hi & -> & Ht & Hl)].
  - left. split; [done|]. intros i Hi. apply Hall. unfold CHAR_BIT in Hi. lia.
  - right. rewrite Z.mul_0_r, Z.add_0_l. unfold CHAR_BIT. split; [lia|done].
Qed.

(** ** The pool of pSync slots *)

(** The availability bits of a PE agree with its team pool. *)
Record pool_inv (ts : teams) (avail : list Z) : Prop := {
  pi_max : TEAMS_MAX ts <= N_PSYNC_BYTES * CHAR_BIT;
  pi_bytes : bytes_ok avail N_PSYNC_BYTES;
  pi_bits : forall i, 0 <= i < N_PSYNC_BYTES * CHAR_BIT ->
    bit avail i = true <-> i < TEAMS_MAX ts /\ team_pool ts i = None;
  pi_pool : forall i t, team_pool ts i = Some t -> psync_idx t = i /\ 0 <= i < TEAMS_MAX ts }.

Lemma init_bits n : 0 <= n <= 64 ->
  let b := fold_left (fun b i => shmem_internal_bit_set b N_PSYNC_BYTES i) (upto 0 n)
                     (replicate (Z.to_nat N_PSYNC_BYTES) 0) in
  bytes_ok b N_PSYNC_BYTES /\ forall i, 0 <= i -> bit b i = bool_decide (i < n).
Proof.
  intros Hn. replace n with (Z.of_nat (Z.to_nat n)) by lia.
  assert (Z.to_nat n <= 64)%nat as Hle by lia. generalize dependent (Z.to_nat n). clear Hn n.
  intros n Hle. unfold upto, zrange. rewrite Z.sub_0_r, Nat2Z.id. induction n as [|n IH].
  - cbn [seq map fold_left]. split.
    + split; [done|]. by repeat constructor.
    + intros i Hi. rewrite bool_decide_eq_false_2 by lia. unfold bit, byte_at.
      rewrite nth_lookup. destruct (decide (Z.to_nat (i / CHAR_BIT) < 8)%nat).
      * rewrite lookup_replicate_2 by done. simpl. apply Z.bits_0.
      * rewrite lookup_ge_None_2 by (rewrite length_replicate; change (Z.to_nat N_PSYNC_BYTES) with 8%nat; lia). simpl. apply Z.bits_0.
  - rewrite seq_S, map_app, fold_left_app. cbn [map fold_left]. destruct (IH ltac:(lia)) as [Hok Hb].
    split; [apply bit_set_ok; [done|lia]|]. intros i Hi.
    rewrite bit_set_spec by (try done; unfold N_PSYNC_BYTES, CHAR_BIT; lia). rewrite Hb by done.
    rewrite Nat2Z.inj_succ. destruct (decide (0 + Z.of_nat (0 + n) = i)) as [E|E].
    + rewrite bool_decide_eq_true_2 by done. simpl. symmetry. apply bool_decide_eq_true_2. lia.
    + rewrite bool_decide_eq_false_2 by done. simpl. apply bool_decide_ext. lia.
Qed.

(** Initialization establishes the invariant. *)
Lemma init_pool_inv teams_max world shared pool avail ret :
  2 <= teams_max <= 64 -> psync_idx world = 0 -> psync_idx shared = 1 ->
  pool_inv (Teams teams_max (fun i => if i =? 0 then Some world else if i =? 1 then Some shared else None) pool avail ret)
           (init_avail teams_max).
Proof.
  intros Hmax Hw Hs. destruct (init_bits teams_max ltac:(lia)) as [Hok Hb]. unfold init_avail.
  assert (bytes_ok (shmem_internal_bit_clear (fold_left (fun b i => shmem_internal_bit_set b N_PSYNC_BYTES i)
    (upto 0 teams_max) (replicate (Z.to_nat N_PSYNC_BYTES) 0)) N_PSYNC_BYTES SHMEM_TEAM_WORLD_INDEX) N_PSYNC_BYTES)
    as Hok1 by (by apply bit_clear_ok).
  split; simpl.
  - unfold N_PSYNC_BYTES, CHAR_BIT. lia.
  - by apply bit_clear_ok.
  - intros i Hi. assert (0 <= i < 64) as Hi' by done. clear Hi.
    rewrite (bit_clear_spec _ _ Hok1) by (done || lia). rewrite (bit_clear_spec _ _ Hok) by (done || lia).
    rewrite Hb by lia. unfold SHMEM_TEAM_WORLD_INDEX, SHMEM_TEAM_SHARED_INDEX.
    rewrite !andb_true_iff, !negb_true_iff, !bool_decide_eq_false, bool_decide_eq_true.
    destruct (Z.eqb_spec i 0); [split; [lia|by intros [_ ?]]|].
    destruct (Z.eqb_spec i 1); [split; [lia|by intros [_ ?]]|]. split; [|lia]. intros (_ & _ & ?). done.
  - intros i t. destruct (Z.eqb_spec i 0) as [->|]; [intros [= <-]; lia|].
    destruct (Z.eqb_spec i 1) as [->|]; [intros [= <-]; lia|done].
Qed.

(** The AND reduction over the members' bytes. *)
Definition and_bytes (bs : list (list Z)) : list Z :=
  match bs with
  | [] => []
  | b :: bs => fold_left (zip_with Z.land) bs b
  end.

Lemma land_range a b : 0 <= a < 256 -> 0 <= b < 256 -> 0 <= Z.land a b < 256.
Proof.
  intros Ha Hb. assert (0 <= Z.land a b) by (apply Z.land_nonneg; lia). split; [done|].
  apply Z.le_lt_trans with a; [|lia].
  pose proof (Z.land_ldiff a b) as _. assert (Z.ldiff a (Z.land a b) = a - Z.land a b) as E.
  { symmetry. apply Z.sub_nocarry_ldiff. apply Z.bits_inj'. intros j Hj.
    rewrite Z.ldiff_spec, Z.land_spec, Z.bits_0. by destruct (Z.testbit a j), (Z.testbit b j). }
  assert (0 <= Z.ldiff a (Z.land a b)); [|lia]. apply Z.ldiff_nonneg. lia.
Qed.

Lemma zip_land_ok a b size : bytes_ok a size -> bytes_ok b size -> bytes_ok (zip_with Z.land a b) size.
Proof.
  intros [Ha HFa] [Hb HFb]. split; [rewrite length_zip_with_l_eq; lia|].
  apply list.Forall_forall. intros x Hx. apply elem_of_lookup_zip_with in Hx as (i & y & z & -> & Hy & Hz).
  rewrite list.Forall_forall in HFa, HFb.
  apply land_range; [apply HFa|apply HFb]; by eapply list_elem_of_lookup_2.
Qed.

Lemma bit_zip_land a b size i : bytes_ok a size -> bytes_ok b size -> 0 <= i ->
  bit (zip_with Z.land a b) i = bit a i && bit b i.
Proof.
  intros [Ha _] [Hb _] Hi. unfold bit, byte_at. rewrite !nth_lookup, lookup_zip_with.
  destruct (a !! Z.to_nat (i / CHAR_BIT)) as [x|] eqn:Ex, (b !! Z.to_nat (i / CHAR_BIT)) as [y|] eqn:Ey; simpl.
  - apply Z.land_spec.
  - apply lookup_lt_Some in Ex. apply lookup_ge_None in Ey. lia.
  - apply lookup_lt_Some in Ey. apply lookup_ge_None in Ex. lia.
  - by rewrite Z.bits_0.
Qed.

Lemma and_bytes_spec bs size : bs <> [] -> (forall b, b ∈ bs -> bytes_ok b size) ->
  bytes_ok (and_bytes bs) size /\ forall i, 0 <= i -> bit (and_bytes bs) i = forallb (fun b => bit b i) bs.
Proof.
  destruct bs as [|b bs]; [done|]. intros _ Hall. simpl.
  assert (bytes_ok b size) as Hb by (apply Hall, list_elem_of_here).
  assert (forall b', b' ∈ bs -> bytes_ok b' size) as Hbs by (intros b' H; apply Hall; by apply list_elem_of_further).
  clear Hall. revert b Hb. induction bs as [|c bs IH]; intros b Hb; simpl.
  - split; [done|]. intros. by rewrite andb_true_r.
  - assert (bytes_ok c size) as Hc by (apply Hbs, list_elem_of_here).
    destruct (IH ltac:(intros b' H; apply Hbs; by apply list_elem_of_further) (zip_with Z.land b c)
                (zip_land_ok _ _ _ Hb Hc)) as [H1 H2].
    split; [done|]. intros i Hi. rewrite H2, (bit_zip_land b c size) by done. by rewrite andb_assoc.
Qed.

(** C26: Team creation agrees on a slot: the members of the new team reduce their availability
    bytes with AND and each takes the first set bit.  When every member's bytes agree
    with its own pool, the chosen slot is below [TEAMS_MAX], free on every member, and
    the least such slot; the answer -1 means that every slot is in use by some member. *)
Theorem split_slot_agreement (members : list Z) (ts : Z -> teams) (avail : Z -> list Z) (teams_max : Z) :
  members <> [] -> 0 <= teams_max ->
  (forall p, p ∈ members -> TEAMS_MAX (ts p) = teams_max /\ pool_inv (ts p) (avail p)) ->
  let idx := split_slot teams_max (and_bytes (map avail members)) in
  (idx = -1 /\ forall i, 0 <= i < teams_max -> exists p, p ∈ members /\ team_pool (ts p) i <> None) \/
  (0 <= idx < teams_max /\ (forall p, p ∈ members -> team_pool (ts p) idx = None) /\
   forall i, 0 <= i < idx -> exists p, p ∈ members /\ team_pool (ts p) i <> None).
Proof.
  intros Hne Hmax Hinv idx.
  assert (bytes_ok (and_bytes (map avail members)) N_PSYNC_BYTES /\ forall i, 0 <= i ->
    bit (and_bytes (map avail members)) i = forallb (fun b => bit b i) (map avail members)) as [Hok Hbit].
  { apply and_bytes_spec; [by destruct members|]. intros b Hb%list_elem_of_In%in_map_iff.
    destruct Hb as (p & <- & Hp%list_elem_of_In). by apply Hinv. }
  assert (forall i, 0 <= i < N_PSYNC_BYTES * CHAR_BIT ->
    bit (and_bytes (map avail members)) i = true <->
    i < teams_max /\ forall p, p ∈ members -> team_pool (ts p) i = None) as Hiff.
  { intros i Hi. rewrite Hbit, forallb_forall by lia. split.
    - intros H. assert (forall p, p ∈ members -> bit (avail p) i = true) as Hp.
      { intros p Hp. apply H, in_map_iff. exists p. split; [done|]. by apply list_elem_of_In. }
      assert (forall p, p ∈ members -> i < teams_max /\ team_pool (ts p) i = None) as Hp'.
      { intros p Hpm. destruct (Hinv p Hpm) as [<- Hpi]. by apply (pi_bits _ _ Hpi i Hi), Hp. }
      split; [|intros p Hpm; by apply Hp'].
      destruct members as [|p ms]; [done|]. by destruct (Hp' p (list_elem_of_here _ _)).
    - intros [Hlt Hp] b Hb%in_map_iff. destruct Hb as (p & <- & Hpm%list_elem_of_In).
      destruct (Hinv p Hpm) as [Em Hpi]. apply (pi_bits _ _ Hpi i Hi). rewrite Em. auto. }
  assert (teams_max <= N_PSYNC_BYTES * CHAR_BIT) as Hle.
  { destruct members as [|p ms]; [done|]. destruct (Hinv p (list_elem_of_here _ _)) as [<- Hpi]. apply (pi_max _ _ Hpi). }
  assert (forall i, 0 <= i < teams_max -> bit (and_bytes (map avail members)) i = false ->
    exists p, p ∈ members /\ team_pool (ts p) i <> None) as Hused.
  { intros i Hi Hf. destruct (decide (Exists (fun p => team_pool (ts p) i <> None) members)) as [HE|HE].
    - apply list.Exists_exists in HE. done.
    - exfalso. assert (bit (and_bytes (map avail members)) i = true); [|congruence].
      apply Hiff; [lia|]. split; [lia|]. intros p Hp. destruct (team_pool (ts p) i) eqn:E; [|done].
      exfalso. apply HE, list.Exists_exists. exists p. split; [done|]. by rewrite E. }
  unfold idx, split_slot. destruct (bit_1st_nonzero_spec _ _ Hok) as [[-> Hall]|(Hr & Ht & Hl)].
  - left. split; [done|]. intros i Hi. apply Hused; [done|]. apply Hall. lia.
  - set (r := shmem_internal_bit_1st_nonzero _ _) in *. apply Hiff in Ht as [Hlt Hp]; [|done].
    rewrite (proj2 (Z.eqb_neq r (-1))), Z.geb_leb, (proj2 (Z.leb_gt teams_max r)) by lia. simpl.
    right. split; [lia|]. split; [done|]. intros i Hi. apply Hused; [lia|]. by apply Hl.
Qed.

Lemma split_slot_agreement_witness :
  let ts p := Teams 4 (fun i => if i =? 0 then Some (team_world 4 p)
                                else if i =? 1 then Some (team_shared true (fun _ => false) 4 p) else None) 0 0 0 in
  split_slot 4 (and_bytes (map (fun _ => init_avail 4) [0; 1])) = 2 /\
  (forall p, p ∈ [0; 1] -> team_pool (ts p) 2 = None).
Proof.
  intros ts. split; [vm_compute; reflexivity|].
  destruct (split_slot_agreement [0; 1] ts (fun _ => init_avail 4) 4) as [[E _]|(_ & H & _)].
  - done.
  - lia.
  - intros p _. split; [done|]. by apply init_pool_inv.
  - vm_compute in E. discriminate.
  - exact H.
Defined.

(** Reserving a free slot for a new team, and freeing the slot of a destroyed one. *)
Lemma reserve_pool_inv ts avail t :
  pool_inv ts avail -> 0 <= psync_idx t < TEAMS_MAX ts -> team_pool ts (psync_idx t) = None ->
  pool_inv (set_team ts (psync_idx t) (Some t)) (shmem_internal_bit_clear avail N_PSYNC_BYTES (psync_idx t)).
Proof.
  intros [Hm Hok Hb Hp] Hi Hnone. split; simpl.
  - done.
  - by apply bit_clear_ok.
  - intros i Hir. rewrite (bit_clear_spec _ _ Hok) by lia.
    destruct (decide (psync_idx t = i)) as [<-|Hne].
    + rewrite bool_decide_eq_true_2, fn_lookup_insert by done. simpl. split; [done|]. by intros [_ ?].
    + rewrite bool_decide_eq_false_2, fn_lookup_insert_ne by done. by apply Hb.
  - intros i t'. destruct (decide (psync_idx t = i)) as [<-|Hne].
    + rewrite fn_lookup_insert. by intros [= <-].
    + rewrite fn_lookup_insert_ne by done. apply Hp.
Qed.

Lemma release_pool_inv ts avail t :
  pool_inv ts avail -> team_pool ts (psync_idx t) = Some t ->
  shmem_internal_bit_fetch avail N_PSYNC_BYTES (psync_idx t) = 0 /\
  pool_inv (set_team ts (psync_idx t) None) (shmem_internal_bit_set avail N_PSYNC_BYTES (psync_idx t)).
Proof.
  intros [Hm Hok Hb Hp] Ht. destruct (Hp _ _ Ht) as [_ Hi].
  assert (bit avail (psync_idx t) = false) as Hbit.
  { apply not_true_iff_false. intros E. apply Hb in E as [_ E]; [congruence|lia]. }
  split; [by rewrite bit_fetch_spec, Hbit by lia|]. split; simpl.
  - done.
  - apply bit_set_ok; [done|lia].
  - intros i Hir. rewrite (bit_set_spec _ _ Hok) by lia.
    destruct (decide (psync_idx t = i)) as [<-|Hne].
    + rewrite bool_decide_eq_true_2, fn_lookup_insert by done. simpl. split; [intros _; split; [lia|done]|done].
    + rewrite bool_decide_eq_false_2, fn_lookup_insert_ne by done. by apply Hb.
  - intros i t'. destruct (decide (psync_idx t = i)) as [<-|Hne].
    + by rewrite fn_lookup_insert.
    + rewrite fn_lookup_insert_ne by done. apply Hp.
Qed.

(** ** PE translation *)

(** A team as created: positive stride, members inside the job. *)
Record team_wf (num_pes : Z) (t : shmem_internal_team_t) : Prop := {
  wf_start : 0 <= team_start t;
  wf_stride : 1 <= team_stride t;
  wf_size : 1 <= team_size t;
  wf_end : team_start t + team_stride t * (team_size t - 1) < num_pes }.

(** PE translation between two teams: a member of the source team translates to the member
    of the destination team that has the same PE number in the job, and to -1 exactly when the
    destination team has no such member. *)
Lemma translate_pe_spec n src dest p : team_wf n src -> team_wf n dest -> 0 <= p < team_size src ->
  let r := shmem_internal_team_translate_pe (Some src) p (Some dest) in
  (forall q, 0 <= q < team_size dest ->
     shmem_internal_team_pe dest q = shmem_internal_team_pe src p <-> r = q) /\
  (r = -1 \/ 0 <= r < team_size dest).
Proof.
  intros [] [] Hp r. unfold r, shmem_internal_team_translate_pe, shmem_internal_team_pe. clear r.
  rewrite Z.gtb_ltb, (proj2 (Z.ltb_ge _ _)) by lia.
  set (w := team_start src + p * team_stride src).
  pose proof (pe_in_active_set_inv w (team_start dest) (team_stride dest) (team_size dest) _ wf_stride1 eq_refl) as Hinv.
  split.
  - intros q Hq. split.
    + intros E. replace w with (team_start dest + q * team_stride dest) by (unfold w; lia).
      by apply pe_in_active_set_member.
    + intros E. rewrite E in Hinv. destruct Hinv as [_ Hw]; [lia|]. unfold w in Hw. lia.
  - destruct (decide (shmem_internal_pe_in_active_set w (team_start dest) (team_stride dest) (team_size dest) = -1));
      [by left|right; by apply Hinv].
Qed.

Lemma translate_pe_spec_witness :
  let src := Team 0 1 2 4 2 all_avail 0 0 [] in
  let dest := Team 0 0 3 4 3 all_avail 0 0 [] in
  shmem_internal_team_translate_pe (Some src) 1 (Some dest) = 1 /\
  forall q, 0 <= q < 4 ->
    shmem_internal_team_pe dest q = 3 <-> shmem_internal_team_translate_pe (Some src) 1 (Some dest) = q.
Proof.
  intros src dest. split; [reflexivity|].
  apply (translate_pe_spec 10 src dest 1); [split; simpl; lia|split; simpl; lia|simpl; lia].
Defined.

(** ** The teams of a 2-D split *)

Section split_2d.
Context (n x : Z) (Hn : 0 < n < 2 ^ 24) (Hx : 0 < x <= n).

Lemma num_xteams : ceil_float_div n x = (n + x - 1) / x.
Proof. apply ceil_float_div_exact; lia. Qed.

(** The x-axis teams are the consecutive blocks of [x] PEs, the last one shorter. *)
Lemma x_teams_cover p : 0 <= p < n ->
  exists i s, (i, s) ∈ x_teams n x /\ i <= p < i + s /\
    forall i' s', (i', s') ∈ x_teams n x -> i' <= p < i' + s' -> i' = i /\ s' = s.
Proof.
  intros Hp. unfold x_teams. rewrite num_xteams, cmod_nonneg by lia.
  pose proof (Z.div_mod p x ltac:(lia)) as Ep. pose proof (Z.mod_pos_bound p x ltac:(lia)) as Bp.
  pose proof (Z.div_mod n x ltac:(lia)) as En. pose proof (Z.mod_pos_bound n x ltac:(lia)) as Bn.
  pose proof (ceil_div_cases n x ltac:(lia)) as Ec. set (c := (n + x - 1) / x) in *. set (k := p / x) in *. set (q := n / x) in *.
  assert (n mod x <> 0 -> c = q + 1) as Hc1 by (intros; by rewrite Ec, decide_False).
  assert (n mod x = 0 -> c = q) as Hc0 by (intros; by rewrite Ec, decide_True). clear Ec.
  assert (0 <= k < c) as Hk.
  { split; [apply Z.div_pos; lia|]. apply Z.div_lt_upper_bound; [lia|].
    destruct (decide (n mod x = 0)) as [E|E]; [rewrite (Hc0 E)|rewrite (Hc1 E)]; lia. }
  assert (forall i, 0 <= i < c ->
    (if (i =? c - 1) && negb (n mod x =? 0) then n mod x else x) =
    if decide (i = c - 1 /\ n mod x <> 0) then n mod x else x) as Esz.
  { intros i Hi. destruct (Z.eqb_spec i (c - 1)), (Z.eqb_spec (n mod x) 0); simpl;
      destruct (decide (i = c - 1 /\ n mod x <> 0)); first [done | tauto]. }
  exists (k * x), (if (k =? c - 1) && negb (n mod x =? 0) then n mod x else x). split; [|split].
  - apply list_elem_of_In, in_map_iff. exists k. split; [done|]. by apply list_elem_of_In, elem_of_upto.
  - rewrite Esz by lia. destruct (decide (k = c - 1 /\ n mod x <> 0)) as [E|E]; [|lia]. destruct E as [E1 E2]. specialize (Hc1 E2). nia.
  - intros i' s' Hin%list_elem_of_In%in_map_iff Hi'. destruct Hin as (j & [= <- <-] & Hj%list_elem_of_In%elem_of_upto).
    rewrite Esz in Hi' by lia. assert (j = k) as ->; [|done]. destruct (decide (j = c - 1 /\ n mod x <> 0)) as [E|E].
    + destruct E as [E1 E2]. specialize (Hc1 E2). nia.
    + nia.
Qed.

(** The y-axis team [i] holds the PEs congruent to [i] modulo [x]. *)
Lemma y_teams_cover p : 0 <= p < n ->
  exists i s, (i, s) ∈ y_teams n x /\ (exists k, 0 <= k < s /\ p = i + x * k) /\
    forall i' s', (i', s') ∈ y_teams n x -> (exists k, 0 <= k < s' /\ p = i' + x * k) -> i' = i /\ s' = s.
Proof.
  intros Hp. unfold y_teams. rewrite cmod_nonneg, cdiv_nonneg by lia.
  pose proof (Z.div_mod p x ltac:(lia)) as Ep. pose proof (Z.mod_pos_bound p x ltac:(lia)) as Bp.
  pose proof (Z.div_mod n x ltac:(lia)) as En. pose proof (Z.mod_pos_bound n x ltac:(lia)) as Bn.
  set (k := p / x) in *. set (q := n / x) in *. set (i := p mod x) in *.
  exists i, (if negb (n mod x =? 0) && (i <? n mod x) then q + 1 else q). split; [|split].
  - apply list_elem_of_In, in_map_iff. exists i. split; [done|]. by apply list_elem_of_In, elem_of_upto.
  - exists k. split; [|lia]. destruct (Z.eqb_spec (n mod x) 0), (Z.ltb_spec i (n mod x)); simpl; nia.
  - intros i' s' Hin%list_elem_of_In%in_map_iff (k' & Hk' & E).
    destruct Hin as (j & [= <- <-] & Hj%list_elem_of_In%elem_of_upto).
    assert (j = i) as ->; [|done].
    assert (0 <= k') by (destruct (negb _ && _); lia). assert (k' = k) by nia. nia.
Qed.

(** The members of every team are PEs of the parent. *)
Lemma x_teams_inside i s : (i, s) ∈ x_teams n x -> 0 <= i /\ 1 <= s /\ i + s <= n.
Proof.
  unfold x_teams. rewrite num_xteams, cmod_nonneg by lia.
  pose proof (Z.div_mod n x ltac:(lia)) as En. pose proof (Z.mod_pos_bound n x ltac:(lia)) as Bn.
  pose proof (ceil_div_cases n x ltac:(lia)) as Ec. set (c := (n + x - 1) / x) in *. set (q := n / x) in *.
  intros Hin%list_elem_of_In%in_map_iff. destruct Hin as (j & [= <- <-] & Hj%list_elem_of_In%elem_of_upto).
  assert (n mod x <> 0 -> c = q + 1) as Hc1 by (intros; by rewrite Ec, decide_False).
  assert (n mod x = 0 -> c = q) as Hc0 by (intros; by rewrite Ec, decide_True). clear Ec.
  destruct (Z.eqb_spec j (c - 1)) as [->|], (Z.eqb_spec (n mod x) 0) as [E|E]; simpl.
  - specialize (Hc0 E). nia.
  - specialize (Hc1 E). nia.
  - specialize (Hc0 E). nia.
  - specialize (Hc1 E). nia.
Qed.

Lemma y_teams_inside i s : (i, s) ∈ y_teams n x -> 0 <= i < x /\ 1 <= s /\ i + x * (s - 1) < n.
Proof.
  unfold y_teams. rewrite cmod_nonneg, cdiv_nonneg by lia.
  pose proof (Z.div_mod n x ltac:(lia)) as En. pose proof (Z.mod_pos_bound n x ltac:(lia)) as Bn.
  set (q := n / x) in *.
  intros Hin%list_elem_of_In%in_map_iff. destruct Hin as (j & [= <- <-] & Hj%list_elem_of_In%elem_of_upto).
  assert (1 <= q) by nia.
  destruct (Z.eqb_spec (n mod x) 0), (Z.ltb_spec j (n mod x)); simpl; nia.
Qed.

(** C30: The two axes of a 2-D split each partition the parent team: the x-axis teams are
    consecutive blocks, the y-axis teams the classes of PEs with stride [x]; every parent
    PE is in exactly one team of each axis, every team is non-empty and stays inside the
    parent.  (The number of x-axis teams is computed in single precision, exact below
    2^24 PEs.) *)
Theorem split_2d_partition p : 0 <= p < n ->
  (exists i s, (i, s) ∈ x_teams n x /\ i <= p < i + s /\
     forall i' s', (i', s') ∈ x_teams n x -> i' <= p < i' + s' -> i' = i /\ s' = s) /\
  (exists i s, (i, s) ∈ y_teams n x /\ (exists k, 0 <= k < s /\ p = i + x * k) /\
     forall i' s', (i', s') ∈ y_teams n x -> (exists k, 0 <= k < s' /\ p = i' + x * k) -> i' = i /\ s' = s) /\
  (forall i s, (i, s) ∈ x_teams n x -> 0 <= i /\ 1 <= s /\ i + s <= n) /\
  (forall i s, (i, s) ∈ y_teams n x -> 0 <= i < x /\ 1 <= s /\ i + x * (s - 1) < n).
Proof.
  intros Hp. split; [by apply x_teams_cover|]. split; [by apply y_teams_cover|].
  split; [apply x_teams_inside|apply y_teams_inside].
Qed.
End split_2d.

Lemma split_2d_partition_witness :
  x_teams 10 4 = [(0, 4); (4, 4); (8, 2)] /\ y_teams 10 4 = [(0, 3); (1, 3); (2, 2); (3, 2)] /\
  exists i s, (i, s) ∈ x_teams 10 4 /\ i <= 9 < i + s.
Proof.
  split; [vm_compute; reflexivity|]. split; [vm_compute; reflexivity|].
  destruct (split_2d_partition 10 4 ltac:(lia) ltac:(lia) 9 ltac:(lia)) as [(i & s & H1 & H2 & _) _].
  by exists i, s.
Defined.
