(* ===== verification/TeamOps.v ===== *)
(** * Creation, initialization and destruction of teams on memory

    The invariant of [TeamFacts] is about a list of availability bytes; here the bytes
    are read from the symmetric memory the operations of [shmem_team.c] run on. *)

From S2P Require Import Prelude CFloat Machine Straight Internal ReduceOp Comm Tree CollSync Bcast Reduce Team TeamFacts.
Local Open Scope Z_scope.
Local Open Scope prog_scope.

(** The availability bytes of a PE. *)
Definition avail_bytes (ts : teams) (m : lmem) : list Z :=
  map (fun i => m (psync_pool_avail ts + i)) (upto 0 N_PSYNC_BYTES).

Lemma avail_bytes_lookup ts m k : (k < 8)%nat ->
  avail_bytes ts m !! k = Some (m (psync_pool_avail ts + Z.of_nat k)).
Proof. intros Hk. unfold avail_bytes. rewrite list_lookup_fmap, lookup_upto by (unfold N_PSYNC_BYTES; lia). done. Qed.

Lemma avail_bytes_byte ts m i : 0 <= i < N_PSYNC_BYTES -> byte_at (avail_bytes ts m) i = m (psync_pool_avail ts + i).
Proof.
  intros Hi. unfold N_PSYNC_BYTES in Hi. unfold byte_at. rewrite nth_lookup, avail_bytes_lookup by lia.
  simpl. f_equal. lia.
Qed.

(** Storing byte [i] of the availability array. *)
Lemma avail_bytes_store ts m i v : 0 <= i < N_PSYNC_BYTES ->
  avail_bytes ts (<[psync_pool_avail ts + i := v]> m) = byte_upd (avail_bytes ts m) i v.
Proof.
  intros Hi. unfold N_PSYNC_BYTES in Hi. unfold byte_upd. apply list_eq. intros k.
  assert (length (avail_bytes ts m) = 8%nat) as Hl by (unfold avail_bytes; by rewrite length_map, length_upto).
  destruct (decide (k < 8)%nat) as [Hk|Hk].
  - rewrite avail_bytes_lookup by done. destruct (decide (k = Z.to_nat i)) as [->|Hne].
    + rewrite list_lookup_insert_eq by lia. rewrite Z2Nat.id by lia. by rewrite fn_lookup_insert.
    + rewrite list_lookup_insert_ne by done. rewrite avail_bytes_lookup by done.
      by rewrite fn_lookup_insert_ne by lia.
  - rewrite !lookup_ge_None_2; [done| |].
    + rewrite length_insert. lia.
    + unfold avail_bytes. rewrite length_map, length_upto. unfold N_PSYNC_BYTES. lia.
Qed.

Lemma slot_byte i : 0 <= i < N_PSYNC_BYTES * CHAR_BIT -> 0 <= i / CHAR_BIT < N_PSYNC_BYTES.
Proof.
  unfold N_PSYNC_BYTES, CHAR_BIT. intros Hi. split; [apply Z.div_pos; lia|apply Z.div_lt_upper_bound; lia].
Qed.

(** [shmem_internal_bit_set] and [shmem_internal_bit_clear] on the array in memory; the
    bytes of no other address change. *)
Definition frame (ts : teams) (m m' : lmem) : Prop :=
  forall a, ~ (psync_pool_avail ts <= a < psync_pool_avail ts + N_PSYNC_BYTES) -> m' a = m a.

Lemma bit_set_run ts m i : 0 <= i < N_PSYNC_BYTES * CHAR_BIT ->
  exists m', run_local (bit_set_mem (psync_pool_avail ts) i) m = Some (tt, m') /\
    avail_bytes ts m' = shmem_internal_bit_set (avail_bytes ts m) N_PSYNC_BYTES i /\ frame ts m m'.
Proof.
  intros Hi. pose proof (slot_byte i Hi) as Hb. eexists. split; [reflexivity|]. split.
  - rewrite avail_bytes_store by done. unfold shmem_internal_bit_set. by rewrite avail_bytes_byte by done.
  - intros a Ha. rewrite fn_lookup_insert_ne by lia. done.
Qed.

Lemma bit_clear_run ts m i : 0 <= i < N_PSYNC_BYTES * CHAR_BIT ->
  exists m', run_local (bit_clear_mem (psync_pool_avail ts) i) m = Some (tt, m') /\
    avail_bytes ts m' = shmem_internal_bit_clear (avail_bytes ts m) N_PSYNC_BYTES i /\ frame ts m m'.
Proof.
  intros Hi. pose proof (slot_byte i Hi) as Hb. eexists. split; [reflexivity|]. split.
  - rewrite avail_bytes_store by done. unfold shmem_internal_bit_clear. by rewrite avail_bytes_byte by done.
  - intros a Ha. rewrite fn_lookup_insert_ne by lia. done.
Qed.

(** ** Initialization *)

(** Writing an array: byte [i] at [addr + i]. *)
Lemma write_bytes_spec addr bs m a :
  write_bytes addr bs m a =
  if decide (addr <= a < addr + Z.of_nat (length bs)) then byte_at bs (a - addr) else m a.
Proof.
  unfold write_bytes, upto, zrange. rewrite Z.sub_0_r, Nat2Z.id. generalize (length bs). intros n.
  induction n as [|n IH]; [by rewrite decide_False by (simpl; lia)|].
  rewrite seq_S, map_app, fold_left_app. cbn [map fold_left].
  destruct (decide (a = addr + Z.of_nat n)) as [->|Hne].
  - rewrite Z.add_0_l, fn_lookup_insert, decide_True by lia. f_equal. lia.
  - rewrite Z.add_0_l, fn_lookup_insert_ne, IH by (rewrite ?Nat.add_0_l; lia).
    destruct (decide (addr <= a < addr + Z.of_nat n)); [by rewrite decide_True by lia|by rewrite decide_False by lia].
Qed.

Section init.
Context (shmalloc : Z -> (Z -> Z) -> option Z).

Lemma team_init_run teams_max only_self ptr num_pes my_pe m :
  match shmem_internal_team_init shmalloc teams_max only_self ptr num_pes my_pe m with
  | Some (ts, m') =>
      teams_max <= 64 /\ TEAMS_MAX ts = Z.max 2 teams_max /\
      (forall i, team_pool ts i = if i =? 0 then Some (team_world num_pes my_pe)
                                 else if i =? 1 then Some (team_shared only_self ptr my_pe num_pes) else None) /\
      pool_inv ts (avail_bytes ts m')
  | None => True
  end /\
  (64 < teams_max -> shmem_internal_team_init shmalloc teams_max only_self ptr num_pes my_pe m = None).
Proof.
  unfold shmem_internal_team_init. rewrite Z.gtb_ltb. change (N_PSYNC_BYTES * CHAR_BIT) with 64.
  destruct (Z.ltb_spec 64 teams_max) as [|Hle]; [done|]. split; [|lia]. cbv zeta.
  destruct (shmalloc _ m) as [pool|]; [|done]. destruct (shmalloc _ _) as [avail|]; [|done].
  destruct (shmalloc _ _) as [ret|]; [|done]. split; [done|].
  assert ((if teams_max <? SHMEM_TEAMS_MIN then SHMEM_TEAMS_MIN else teams_max) = Z.max 2 teams_max) as ->.
  { unfold SHMEM_TEAMS_MIN. destruct (Z.ltb_spec teams_max 2); lia. }
  set (tm := Z.max 2 teams_max). split; [done|]. split; [done|].
  assert (2 <= tm <= 64) as Htm by lia. destruct (init_bits tm ltac:(lia)) as [Hb _].
  assert (bytes_ok (init_avail tm) N_PSYNC_BYTES) as Hok.
  { unfold init_avail. apply bit_clear_ok, bit_clear_ok, Hb. }
  match goal with |- pool_inv _ ?l => assert (l = init_avail tm) as -> end.
  - destruct Hok as [Hl _]. unfold N_PSYNC_BYTES in Hl. apply list_eq. intros k.
    destruct (decide (k < 8)%nat) as [Hk|Hk].
    + rewrite avail_bytes_lookup by done. cbn [psync_pool_avail].
      rewrite write_bytes_spec, length_app, length_replicate, decide_True by (unfold N_PSYNC_BYTES; lia).
      replace (avail + Z.of_nat k - avail) with (Z.of_nat k) by lia. unfold byte_at. rewrite Nat2Z.id.
      rewrite app_nth1 by lia. destruct (lookup_lt_is_Some_2 (init_avail tm) k ltac:(lia)) as [x Hx].
      rewrite Hx. f_equal. by rewrite nth_lookup, Hx.
    + rewrite !lookup_ge_None_2; [done|lia|unfold avail_bytes; rewrite length_map, length_upto; unfold N_PSYNC_BYTES; lia].
  - apply init_pool_inv; [done|done|]. unfold team_shared. by destruct (team_shared_triplet _ _ _ _) as [[? ?] ?].
Qed.

(** C28: A successful [team_init] leaves [TEAMS_MAX] between 2 and 64 (raising a smaller request
    to 2), the world and shared teams in slots 0 and 1 of an otherwise empty pool, and
    availability bytes in memory that agree with that pool; it fails when more teams than
    availability bits are requested. *)
Theorem team_init_spec teams_max only_self ptr num_pes my_pe m :
  match shmem_internal_team_init shmalloc teams_max only_self ptr num_pes my_pe m with
  | Some (ts, m') =>
      teams_max <= 64 /\ TEAMS_MAX ts = Z.max 2 teams_max /\
      (forall i, team_pool ts i = if i =? 0 then Some (team_world num_pes my_pe)
                                 else if i =? 1 then Some (team_shared only_self ptr my_pe num_pes) else None) /\
      pool_inv ts (avail_bytes ts m')
  | None => True
  end /\
  (64 < teams_max -> shmem_internal_team_init shmalloc teams_max only_self ptr num_pes my_pe m = None).
Proof. apply team_init_run. Qed.
End init.

(** ** Creation and destruction *)

(** Reserving the slot a split chose: clearing its bit in the availability bytes and
    putting the new team into the pool keeps pool and bytes in agreement, and touches
    no other memory. *)
Lemma reserve_slot ts m t :
  pool_inv ts (avail_bytes ts m) -> 0 <= psync_idx t < TEAMS_MAX ts -> team_pool ts (psync_idx t) = None ->
  exists m', run_local (bit_clear_mem (psync_pool_avail ts) (psync_idx t)) m = Some (tt, m') /\
    pool_inv (set_team ts (psync_idx t) (Some t)) (avail_bytes ts m') /\ frame ts m m'.
Proof.
  intros Hinv Hi Hn. pose proof (pi_max _ _ Hinv) as Hm.
  destruct (bit_clear_run ts m (psync_idx t) ltac:(lia)) as (m' & Hr & Hb & Hf).
  exists m'. split; [done|]. split; [|done]. rewrite Hb. by apply reserve_pool_inv.
Qed.

Definition sample_env : env := Env 1 4 4 4 16384 AUTO AUTO AUTO AUTO AUTO 0 [].
(** A job of 4 PEs with 4 team slots, as initialization leaves it. *)
Definition sample_teams : teams :=
  Teams 4 (fun i => if i =? 0 then Some (team_world 4 1)
                    else if i =? 1 then Some (team_shared true (fun _ => false) 4 1) else None) 1000 100000 200000.
Definition sample_mem : lmem :=
  write_bytes 100000 (init_avail 4 ++ replicate (Z.to_nat N_PSYNC_BYTES) 0) (fun _ => 0).

Lemma sample_inv : pool_inv sample_teams (avail_bytes sample_teams sample_mem).
Proof.
  replace (avail_bytes sample_teams sample_mem) with (init_avail 4) by (vm_compute; reflexivity).
  by apply init_pool_inv.
Qed.

Lemma reserve_slot_witness :
  let t := Team 0 1 1 2 2 all_avail 0 0 [] in
  exists m', run_local (bit_clear_mem 100000 2) sample_mem = Some (tt, m') /\
    pool_inv (set_team sample_teams 2 (Some t)) (avail_bytes sample_teams m') /\ m' 100000 = 8.
Proof.
  destruct (reserve_slot sample_teams sample_mem (Team 0 1 1 2 2 all_avail 0 0 []) sample_inv) as (m' & H1 & H2 & _).
  - simpl. lia.
  - reflexivity.
  - exists m'. split; [exact H1|]. split; [exact H2|]. injection H1 as <-. vm_compute. reflexivity.
Defined.

Section destroy.
Context (transport_ctx_destroy : Z -> prog unit).
(** Destroying a context completes without touching the symmetric memory. *)
Context (Hctx : forall h m, run_local (transport_ctx_destroy h) m = Some (tt, m)).

Lemma destroy_contexts_run cs m : run_local (destroy_contexts transport_ctx_destroy cs) m = Some (tt, m).
Proof.
  unfold destroy_contexts. induction cs as [|c cs IH]; [done|]. simpl. rewrite run_local_bind.
  destruct c; [rewrite Hctx|]; simpl; apply IH.
Qed.

Lemma team_destroy_run ts m i t :
  pool_inv ts (avail_bytes ts m) -> team_pool ts i = Some t ->
  exists m', run_local (shmem_internal_team_destroy transport_ctx_destroy ts (Some i)) m =
             Some ((0, set_team ts i None), m') /\
    pool_inv (set_team ts i None) (avail_bytes ts m') /\ frame ts m m'.
Proof.
  intros Hinv Ht. destruct (pi_pool _ _ Hinv i t Ht) as [E Hi]. subst i. pose proof (pi_max _ _ Hinv) as Hm.
  assert (0 <= psync_idx t < N_PSYNC_BYTES * CHAR_BIT) as Hr by lia.
  destruct (bit_set_run ts m (psync_idx t) Hr) as (m' & Hrun & Hb & Hf).
  destruct (release_pool_inv _ _ t Hinv Ht) as [Hfetch Hinv'].
  exists m'. split; [|split; [by rewrite Hb|done]].
  unfold shmem_internal_team_destroy. rewrite Ht. unfold load. cbn [pbind run_local].
  unfold shmem_internal_bit_fetch in Hfetch. rewrite avail_bytes_byte in Hfetch by (by apply slot_byte).
  rewrite Hfetch, Z.eqb_refl. cbn [negb]. rewrite run_local_bind, Hrun. simpl.
  rewrite run_local_bind, destroy_contexts_run. done.
Qed.


Lemma fini_loop_run ids ts m :
  pool_inv ts (avail_bytes ts m) -> 
  exists ts' m', run_local (fini_loop transport_ctx_destroy ids ts) m = Some (ts', m') /\
    pool_inv ts' (avail_bytes ts m') /\ TEAMS_MAX ts' = TEAMS_MAX ts /\ frame ts m m' /\
    forall i, team_pool ts' i = if decide (i ∈ ids) then None else team_pool ts i.
Proof.
  revert ts m. induction ids as [|j ids IH]; intros ts m Hinv; cbn [fini_loop].
  - exists ts, m. do 4 (split; [done|]). intros i. destruct (decide (i ∈ [])) as [H%elem_of_nil|]; done.
  - destruct (team_pool ts j) as [t|] eqn:Ej.
    + destruct (team_destroy_run ts m j t Hinv Ej) as (m1 & Hr & Hinv1 & Hf1).
      rewrite run_local_bind, Hr. cbn [mbind option_bind snd].
      destruct (IH (set_team ts j None) m1 Hinv1) as (ts' & m' & Hr' & Hinv' & Hm' & Hf' & Hp').
      exists ts', m'. split; [done|]. split; [done|]. split; [done|]. split.
      * intros a Ha. rewrite Hf' by done. by apply Hf1.
      * intros i. rewrite Hp'. simpl. pose proof (elem_of_cons ids i j).
        destruct (decide (i ∈ ids)), (decide (i ∈ j :: ids)) as [Hd|Hd]; try done; try tauto.
        -- apply elem_of_cons in Hd as [->|]; [by rewrite fn_lookup_insert|done].
        -- by rewrite fn_lookup_insert_ne by (intros ->; tauto).
    + destruct (IH ts m Hinv) as (ts' & m' & Hr' & Hinv' & Hm' & Hf' & Hp').
      exists ts', m'. do 4 (split; [done|]). intros i. rewrite Hp'. pose proof (elem_of_cons ids i j).
      destruct (decide (i ∈ ids)), (decide (i ∈ j :: ids)) as [Hd|Hd]; try done; try tauto.
      by apply elem_of_cons in Hd as [->|].
Qed.

(** C29: [team_fini] destroys every team that is left: it returns, the pool is empty, and every
    slot below [TEAMS_MAX] is available again. *)
Theorem team_fini_spec ts m :
  pool_inv ts (avail_bytes ts m) ->
  exists ts' m', run_local (shmem_internal_team_fini transport_ctx_destroy ts) m = Some (ts', m') /\
    frame ts m m' /\ (forall i, team_pool ts' i = None) /\
    forall i, 0 <= i < N_PSYNC_BYTES * CHAR_BIT -> bit (avail_bytes ts m') i = true <-> i < TEAMS_MAX ts.
Proof.
  intros Hinv. destruct (fini_loop_run (upto 0 (TEAMS_MAX ts)) ts m Hinv) as (ts' & m' & Hr & Hinv' & Hm & Hf & Hp).
  assert (forall i, team_pool ts' i = None) as Hnone.
  { intros i. rewrite Hp. destruct (decide (i ∈ upto 0 (TEAMS_MAX ts))) as [|Hn]; [done|].
    destruct (team_pool ts i) as [t|] eqn:E; [|done]. destruct (pi_pool _ _ Hinv i t E) as [_ Hi].
    destruct Hn. by apply elem_of_upto. }
  exists ts', m'. do 3 (split; [done|]). intros i Hi. rewrite (pi_bits _ _ Hinv' i Hi), Hm, Hnone. tauto.
Qed.
End destroy.


Lemma team_fini_spec_witness :
  exists ts' m', run_local (shmem_internal_team_fini (fun _ => skip) sample_teams) sample_mem = Some (ts', m') /\
    forall i, team_pool ts' i = None.
Proof.
  destruct (team_fini_spec (fun _ => skip) ltac:(done) sample_teams sample_mem sample_inv) as (ts' & m' & H1 & _ & H2 & _).
  by exists ts', m'.
Defined.

(** ** The choice of a pSync *)

(** Between two synchronizations of a team its first two collectives get different pSyncs,
    a whole chunk of [PSYNC_CHUNK_SIZE] longs apart; the third finds none available, so
    the team first completes its operations and synchronizes on its barrier pSync, after
    which both are available again (one of them taken by the call).  A barrier or sync
    makes both available at once. *)
Lemma choose_psync_rotation e ts t op :
  op <> SYNC -> psync_avail t = all_avail ->
  let barrier_psync := psync_barrier_pool ts + SIZEOF_LONG * (psync_idx t * SHMEM_SYNC_SIZE) in
  exists a1 t1 a2 t2 a3,
    shmem_internal_team_choose_psync e ts t op = Ret (a1, t1) /\
    shmem_internal_team_choose_psync e ts t1 op = Ret (a2, t2) /\
    a2 = a1 + SIZEOF_LONG * PSYNC_CHUNK_SIZE /\
    shmem_internal_team_choose_psync e ts t2 op =
      ((shmem_internal_quiet ;; shmem_internal_sync e (team_start t) (team_stride t) (team_size t) barrier_psync) ;;
       Ret (a3, set_avail t [false; true])) /\
    psync_avail (shmem_internal_team_release_psyncs t2 SYNC) = all_avail.
Proof.
  intros Hop Hav bp. unfold bp. clear bp. destruct t as [me st sd sz idx av cfg mask ctxs]. simpl in Hav. subst av.
  destruct op; [done| | | |]; do 5 eexists; (split; [reflexivity|]); (split; [reflexivity|]);
    (split; [simpl; unfold SIZEOF_LONG; lia|]); (split; reflexivity).
Qed.

Lemma choose_psync_rotation_witness :
  exists a1 t1 a2 t2,
    shmem_internal_team_choose_psync (sample_env) sample_teams (team_world 4 1) BCAST = Ret (a1, t1) /\
    shmem_internal_team_choose_psync (sample_env) sample_teams t1 BCAST = Ret (a2, t2) /\
    a2 = a1 + SIZEOF_LONG * PSYNC_CHUNK_SIZE.
Proof.
  destruct (choose_psync_rotation (sample_env) sample_teams (team_world 4 1) BCAST ltac:(done) eq_refl)
    as (a1 & t1 & a2 & t2 & a3 & H1 & H2 & H3 & _). by exists a1, t1, a2, t2.
Defined.

(** C21: The chunks of the pool are indexed by [psync_idx + i], so two teams share pSyncs: the
    second pSync of a team is the first pSync of the team in the next slot, and the
    second pSync of the team in the last slot is the barrier pSync of the team in slot 0. *)
Theorem choose_psync_overlap e ts t t' op op' :
  op <> SYNC -> op' <> SYNC -> psync_avail t = [false; true] -> psync_avail t' = all_avail ->
  (psync_idx t' = psync_idx t + 1 ->
     exists a u u', shmem_internal_team_choose_psync e ts t op = Ret (a, u) /\
                    shmem_internal_team_choose_psync e ts t' op' = Ret (a, u')) /\
  (psync_idx t = TEAMS_MAX ts - 1 -> psync_idx t' = 0 ->
     exists a u, shmem_internal_team_choose_psync e ts t op = Ret (a, u) /\
                 shmem_internal_team_choose_psync e ts t' SYNC = Ret (a, t')).
Proof.
  intros Hop Hop' Hav Hav'.
  assert (shmem_internal_team_choose_psync e ts t op =
    Ret (psync_pool ts + SIZEOF_LONG * ((psync_idx t + 1) * PSYNC_CHUNK_SIZE), set_avail t [false; false])) as Et.
  { unfold shmem_internal_team_choose_psync. rewrite Hav. by destruct op. }
  rewrite Et. split; intros E.
  - exists (psync_pool ts + SIZEOF_LONG * ((psync_idx t + 1) * PSYNC_CHUNK_SIZE)). do 2 eexists. split; [done|].
    unfold shmem_internal_team_choose_psync. rewrite Hav', E. simpl. rewrite Z.add_0_r. by destruct op'.
  - intros E'. do 2 eexists. split; [done|]. simpl. unfold psync_barrier_pool. rewrite E, E'. do 2 f_equal. lia.
Qed.

Lemma choose_psync_overlap_witness :
  exists a u u',
    shmem_internal_team_choose_psync (sample_env) sample_teams (set_avail (team_world 4 1) [false; true]) REDUCE = Ret (a, u) /\
    shmem_internal_team_choose_psync (sample_env) sample_teams (team_shared true (fun _ => false) 4 1) COLLECT = Ret (a, u').
Proof.
  destruct (choose_psync_overlap (sample_env) sample_teams (set_avail (team_world 4 1) [false; true])
    (team_shared true (fun _ => false) 4 1) REDUCE COLLECT ltac:(done) ltac:(done) eq_refl eq_refl) as [H _].
  destruct (H eq_refl) as (a & u & u' & H1 & H2). by exists a, u, u'.
Defined.
