(* ===== verification/ErrState.v ===== *)
(** * Programs over a state that can fail

    The single-process components of the runtime (the PMI client, the runtime layer over
    it, start-up) are C functions over static variables: a computation takes the state and
    gives a value and the new state, or stops the process ([None]: an abort, or an access
    out of bounds).  This file has the monad, its notations, and the rule its proofs use. *)

From S2P Require Import Prelude.
Local Open Scope Z_scope.

Definition ST (S A : Type) : Type := S -> option (A * S).
Definition ret {S A} (a : A) : ST S A := fun s => Some (a, s).
Definition bind {S A B} (m : ST S A) (f : A -> ST S B) : ST S B :=
  fun s => match m s with Some (a, s) => f a s | None => None end.
Definition get {S} : ST S S := fun s => Some (s, s).
Definition put {S} (s : S) : ST S unit := fun _ => Some (tt, s).
Definition modify {S} (f : S -> S) : ST S unit := fun s => Some (tt, f s).
(** The process stops. *)
Definition stop {S A} : ST S A := fun _ => None.

Declare Scope st_scope.
Delimit Scope st_scope with st.
Notation "x <- m ; k" := (bind m (fun x => k)) (at level 100, m at next level, k at level 200, right associativity) : st_scope.
Notation "m ;; k" := (bind m (fun _ => k)) (at level 100, k at level 200, right associativity) : st_scope.

(** A computation on a part of the state: [view] reads the part, [upd] writes it back. *)
Definition zoom {S T A} (view : S -> T) (upd : T -> S -> S) (m : ST T A) : ST S A :=
  fun s => match m (view s) with Some (a, t) => Some (a, upd t s) | None => None end.

(** What a state-passing test gives once the run of its first step is known. *)
Lemma bind_run {S A B} (m : ST S A) (f : A -> ST S B) s a s' :
  m s = Some (a, s') -> bind m f s = f a s'.
Proof. unfold bind. by intros ->. Qed.

Lemma bind_stop {S A B} (m : ST S A) (f : A -> ST S B) s : m s = None -> bind m f s = None.
Proof. unfold bind. by intros ->. Qed.

Lemma zoom_run {S T A} (view : S -> T) upd (m : ST T A) s a t :
  m (view s) = Some (a, t) -> zoom view upd m s = Some (a, upd t s).
Proof. unfold zoom. by intros ->. Qed.

(** Run the first step of the goal's computation by the given equation. *)
Ltac run_step H := rewrite (bind_run _ _ _ _ _ H).

(** ** Total correctness

    [runs_or E m s Q]: started in [s], the computation [m] gives a value and a state that
    satisfy [Q], or it stops and [E] holds.  [runs m s Q] is total correctness: it does
    not stop.  The rules follow the syntax of the computation. *)
Definition runs_or {S A} (E : Prop) (m : ST S A) (s : S) (Q : A -> S -> Prop) : Prop :=
  match m s with Some (a, s') => Q a s' | None => E end.

Abbreviation runs := (runs_or False).

Section runs.
Context {S A B : Type} (E : Prop).
Implicit Types (s : S) (m : ST S A).

Lemma runs_ret (a : A) s (Q : A -> S -> Prop) : Q a s -> runs_or E (ret a) s Q.
Proof. done. Qed.

Lemma runs_get s (Q : S -> S -> Prop) : Q s s -> runs_or E get s Q.
Proof. done. Qed.

Lemma runs_modify (f : S -> S) s (Q : unit -> S -> Prop) : Q tt (f s) -> runs_or E (modify f) s Q.
Proof. done. Qed.

Lemma runs_bind m (f : A -> ST S B) s (Q : B -> S -> Prop) :
  runs_or E m s (fun a s' => runs_or E (f a) s' Q) -> runs_or E (bind m f) s Q.
Proof. unfold runs_or, bind. by destruct (m s) as [[a s']|]. Qed.

Lemma runs_mono m s (P Q : A -> S -> Prop) : runs_or E m s P -> (forall a s', P a s' -> Q a s') -> runs_or E m s Q.
Proof. unfold runs_or. destruct (m s) as [[a s']|]; auto. Qed.

(** A known result of a run, and the result of a run. *)
Lemma runs_eq m s (Q : A -> S -> Prop) a s' : runs_or E m s Q -> m s = Some (a, s') -> Q a s'.
Proof. unfold runs_or. intros H He. by rewrite He in H. Qed.

Lemma runs_some m s (Q : A -> S -> Prop) a s' : m s = Some (a, s') -> Q a s' -> runs_or E m s Q.
Proof. unfold runs_or. by intros ->. Qed.

Lemma runs_elim m s (Q : A -> S -> Prop) : runs m s Q -> exists a s', m s = Some (a, s') /\ Q a s'.
Proof. unfold runs_or. destruct (m s) as [[a s']|]; [eauto|done]. Qed.

(** A specification of the first part of a computation. *)
Lemma runs_then m (f : A -> ST S B) s (P : A -> S -> Prop) (Q : B -> S -> Prop) :
  runs_or E m s P -> (forall a s', P a s' -> runs_or E (f a) s' Q) -> runs_or E (bind m f) s Q.
Proof. intros H Hf. apply runs_bind. by eapply runs_mono. Qed.

(** The excuse may grow, and goes away when it is known not to hold. *)
Lemma runs_excuse (E' : Prop) m s (Q : A -> S -> Prop) : (E -> E') -> runs_or E m s Q -> runs_or E' m s Q.
Proof. unfold runs_or. destruct (m s) as [[a s']|]; auto. Qed.
End runs.


(** Step through the primitives at the head of a computation. *)
Ltac runs_step :=
  match goal with
  | |- runs_or _ (bind _ _) _ _ => apply runs_bind
  | |- runs_or _ (ret _) _ _ => apply runs_ret
  | |- runs_or _ get _ _ => apply runs_get
  | |- runs_or _ (modify _) _ _ => apply runs_modify
  end.
