(* ===== verification/Stx.v ===== *)
(** * Shared transmit contexts of the OFI transport ([transport_ofi.c])

    A communication context sends through a shared transmit context (STX) of a fixed pool:
    contexts that are private to a thread share one STX per thread, the others are spread
    over the rest.  The pool, the table from threads to their private STXs and the two
    searches are those of the code; an index outside the pool, a failed assertion and an
    abort are [stop].  The invariant says that the reference counts are the numbers of
    contexts, and that a private STX serves the contexts of one thread only. *)

From S2P Require Import Prelude ErrState.
Local Open Scope Z_scope.
Local Open Scope st_scope.

Definition SHMEM_CTX_PRIVATE : Z := Z.shiftl 1 0.

(** [struct shmem_internal_tid]. *)
Inductive shmem_internal_tid := tid_is_pid (val : Z) | tid_is_uint64 (val : Z).
#[export] Instance tid_eq_dec : EqDecision shmem_internal_tid.
Proof. solve_decision. Defined.

Record shmem_transport_ofi_stx_t := Stx { ref_cnt : Z; is_private : bool }.
Inductive stx_allocator_t := ROUNDROBIN | RANDOM.

(** The static variables: the pool, the entries of the key-value store, the index where
    the round-robin search starts, the seed of the random one. *)
Record stx_state := StxState {
  stx_pool : list shmem_transport_ofi_stx_t;
  stx_kvs : list (shmem_internal_tid * Z);
  rr_start_idx : Z;
  rand_pool_seed : Z }.

Definition set_pool (l : list shmem_transport_ofi_stx_t) (s : stx_state) : stx_state :=
  StxState l (stx_kvs s) (rr_start_idx s) (rand_pool_seed s).
Definition set_kvs (l : list (shmem_internal_tid * Z)) (s : stx_state) : stx_state :=
  StxState (stx_pool s) l (rr_start_idx s) (rand_pool_seed s).
Definition set_rr (i : Z) (s : stx_state) : stx_state :=
  StxState (stx_pool s) (stx_kvs s) i (rand_pool_seed s).
Definition set_seed (r : Z) (s : stx_state) : stx_state :=
  StxState (stx_pool s) (stx_kvs s) (rr_start_idx s) r.

(** [&stx_pool[i]]: the element, and storing it. *)
Definition stx_at (i : Z) : ST stx_state shmem_transport_ofi_stx_t := fun s =>
  if i <? 0 then None else match stx_pool s !! Z.to_nat i with Some x => Some (x, s) | None => None end.
Definition stx_set (i : Z) (x : shmem_transport_ofi_stx_t) : ST stx_state unit :=
  modify (fun s => set_pool (<[Z.to_nat i := x]> (stx_pool s)) s).

(** The macros of the hash table that the code uses. *)
Fixpoint HASH_FIND (t : shmem_internal_tid) (kvs : list (shmem_internal_tid * Z)) : option Z :=
  match kvs with
  | [] => None
  | (t', i) :: kvs => if decide (t' = t) then Some i else HASH_FIND t kvs
  end.
Fixpoint HASH_DEL (t : shmem_internal_tid) (kvs : list (shmem_internal_tid * Z)) : list (shmem_internal_tid * Z) :=
  match kvs with
  | [] => []
  | (t', i) :: kvs => if decide (t' = t) then kvs else (t', i) :: HASH_DEL t kvs
  end.
Definition HASH_ADD (t : shmem_internal_tid) (i : Z) (kvs : list (shmem_internal_tid * Z)) : list (shmem_internal_tid * Z) :=
  kvs ++ [(t, i)].

Definition RAND_MAX : Z := 2 ^ 31 - 1.

Section stx.
(** The parameters of the library, the C library's generator, and a bound on the number of
    random probes that are run. *)
Context (stx_max stx_threshold : Z) (stx_allocator : stx_allocator_t) (OFI_STX_DISABLE_PRIVATE : bool)
  (rand_r : Z -> Z * Z) (probes : nat).

Definition shmem_transport_ofi_is_private (options : Z) : bool :=
  negb OFI_STX_DISABLE_PRIVATE && negb (Z.land options SHMEM_CTX_PRIVATE =? 0).

Fixpoint unused_loop (n : nat) (i : Z) : ST stx_state Z :=
  match n with
  | O => ret (-1)
  | S n =>
      x <- stx_at i ;
      if ref_cnt x =? 0 then (if is_private x then stop else ret i)
      else unused_loop n (i + 1)
  end.
Definition shmem_transport_ofi_stx_search_unused : ST stx_state Z := unused_loop (Z.to_nat stx_max) 0.

(** The test of both shared searches. *)
Definition shareable (threshold : Z) (x : shmem_transport_ofi_stx_t) : bool :=
  (ref_cnt x >? 0) && ((ref_cnt x <=? threshold) || (threshold =? -1)) && negb (is_private x).

Fixpoint rr_loop (threshold : Z) (n : nat) (i : Z) : ST stx_state Z :=
  match n with
  | O => ret (-1)
  | S n =>
      x <- stx_at i ;
      if shareable threshold x then modify (set_rr (cmod (i + 1) stx_max)) ;; ret i
      else rr_loop threshold n (cmod (i + 1) stx_max)
  end.

(** Whether the random search has anything to find. *)
Fixpoint count_loop (threshold : Z) (n : nat) (i : Z) : ST stx_state bool :=
  match n with
  | O => ret false
  | S n =>
      x <- stx_at i ;
      if shareable threshold x then ret true else count_loop threshold n (i + 1)
  end.

(** The product of the code is computed in double precision, which is exact for a pool of
    fewer than 2 ^ 22 STXs. *)
Fixpoint probe_loop (threshold : Z) (n : nat) : ST stx_state Z :=
  match n with
  | O => stop
  | S n =>
      s <- get ;
      let '(r, seed) := rand_r (rand_pool_seed s) in
      modify (set_seed seed) ;;
      let stx_idx := cdiv (r * stx_max) (RAND_MAX + 1) in
      x <- stx_at stx_idx ;
      if shareable threshold x then ret stx_idx else probe_loop threshold n
  end.

Definition shmem_transport_ofi_stx_search_shared (threshold : Z) : ST stx_state Z :=
  match stx_allocator with
  | ROUNDROBIN => s <- get ; rr_loop threshold (Z.to_nat stx_max) (rr_start_idx s)
  | RANDOM =>
      found <- count_loop threshold (Z.to_nat stx_max) 0 ;
      if (found : bool) then probe_loop threshold probes else ret (-1)
  end.

Definition add_ref (i n : Z) : ST stx_state unit :=
  x <- stx_at i ; stx_set i (Stx (ref_cnt x + n) (is_private x)).

(** The index and the options of the context afterwards; [calloc_ok] is whether [calloc]
    answers an entry for the key-value store. *)
Definition shmem_transport_ofi_stx_allocate (calloc_ok : bool) (options : Z) (t : shmem_internal_tid) :
    ST stx_state (Z * Z) :=
  if stx_max =? 0 then ret (-1, options)
  else if shmem_transport_ofi_is_private options then
    s <- get ;
    match HASH_FIND t (stx_kvs s) with
    | Some idx => add_ref idx 1 ;; ret (idx, options)
    | None =>
        (* No STX allocated to the given TID, attempt to allocate one *)
        unused <- shmem_transport_ofi_stx_search_unused ;
        if unused <? 0 then
          (* Couldn't get new STX, assign a shared one *)
          shared <- shmem_transport_ofi_stx_search_shared stx_threshold ;
          stx_idx <- (if shared <? 0 then shmem_transport_ofi_stx_search_shared (-1) else ret shared) ;
          if stx_idx <? 0 then stop
          else add_ref stx_idx 1 ;; ret (stx_idx, Z.land options (Z.lnot SHMEM_CTX_PRIVATE))
        else
          add_ref unused 1 ;;
          x <- stx_at unused ;
          stx_set unused (Stx (ref_cnt x) true) ;;
          if calloc_ok then modify (fun s => set_kvs (HASH_ADD t unused (stx_kvs s)) s) ;; ret (unused, options)
          else stop
    end
  else
    shared <- shmem_transport_ofi_stx_search_shared stx_threshold ;
    unused <- (if shared <? 0 then shmem_transport_ofi_stx_search_unused else ret shared) ;
    stx_idx <- (if unused <? 0 then shmem_transport_ofi_stx_search_shared (-1) else ret unused) ;
    if stx_idx <? 0 then stop
    else add_ref stx_idx 1 ;; ret (stx_idx, options).

(** The part of [shmem_transport_ctx_destroy] that gives the STX back. *)
Definition release_stx (stx_idx options : Z) (t : shmem_internal_tid) : ST stx_state unit :=
  if stx_idx >=? 0 then
    if shmem_transport_ofi_is_private options then
      s <- get ;
      match HASH_FIND t (stx_kvs s) with
      | Some _ =>
          add_ref stx_idx (-1) ;;
          x <- stx_at stx_idx ;
          if ref_cnt x =? 0 then
            modify (fun s => set_kvs (HASH_DEL t (stx_kvs s)) s) ;;
            stx_set stx_idx (Stx (ref_cnt x) false)
          else ret tt
      | None => ret tt (* a warning *)
      end
    else
      add_ref stx_idx (-1) ;;
      x <- stx_at stx_idx ;
      if is_private x then stop else ret tt
  else ret tt.
End stx.

(** ** The contexts that use the pool *)

(** What a live context remembers: its STX, its options after the allocation, its thread. *)
Record user := User { u_idx : Z; u_options : Z; u_tid : shmem_internal_tid }.
Definition users_of (i : Z) (us : list user) : nat := countb (fun u => u_idx u =? i) us.

Lemma NoDup_fmap_fst_inj {A B} (l : list (A * B)) a a' b : NoDup (map snd l) -> (a, b) ∈ l -> (a', b) ∈ l -> a = a'.
Proof.
  induction l as [|[c d] l IH]; simpl; intros Hnd H H'; [by apply elem_of_nil in H|].
  apply list.NoDup_cons in Hnd as [Hn Hnd]. rewrite elem_of_cons in H, H'.
  destruct H as [H|H], H' as [H'|H']; simplify_eq; [done| | |by apply IH];
    (destruct Hn; apply list_elem_of_fmap; eexists; split; [|eassumption]; done).
Qed.

Lemma NoDup_fmap_snd_inj {A B} (l : list (A * B)) a b b' : NoDup (map fst l) -> (a, b) ∈ l -> (a, b') ∈ l -> b = b'.
Proof.
  induction l as [|[c d] l IH]; simpl; intros Hnd H H'; [by apply elem_of_nil in H|].
  apply list.NoDup_cons in Hnd as [Hn Hnd]. rewrite elem_of_cons in H, H'.
  destruct H as [H|H], H' as [H'|H']; simplify_eq; [done| | |by apply IH];
    (destruct Hn; apply list_elem_of_fmap; eexists; split; [|eassumption]; done).
Qed.

Section proof.
Context (stx_max stx_threshold : Z) (stx_allocator : stx_allocator_t) (OFI_STX_DISABLE_PRIVATE : bool)
  (rand_r : Z -> Z * Z) (probes : nat).
Context (Hmax : 0 < stx_max).
Let private := shmem_transport_ofi_is_private OFI_STX_DISABLE_PRIVATE.
Let allocate := shmem_transport_ofi_stx_allocate stx_max stx_threshold stx_allocator OFI_STX_DISABLE_PRIVATE rand_r probes.
Let release := release_stx OFI_STX_DISABLE_PRIVATE.

(** The [k]-th index the random search draws from a seed. *)
Fixpoint draw (k : nat) (seed : Z) : Z :=
  match k with
  | O => cdiv ((rand_r seed).1 * stx_max) (RAND_MAX + 1)
  | S k => draw k (rand_r seed).2
  end.

(** What the manual of [rand_r] says. *)
Definition draws_range : Prop := forall seed, 0 <= (rand_r seed).1 <= RAND_MAX.
Context (Hrand : stx_allocator = RANDOM -> draws_range).

(** The random search has something to find, and none of its first [probes] draws finds it. *)
Definition unlucky (s : stx_state) : Prop :=
  stx_allocator = RANDOM /\ exists threshold,
    (exists j x, stx_pool s !! j = Some x /\ shareable threshold x = true) /\
    forall k, (k < probes)%nat -> exists x,
      stx_pool s !! Z.to_nat (draw k (rand_pool_seed s)) = Some x /\ shareable threshold x = false.

(** Why an allocation may not return: no entry for the table, or a search that goes on. *)
Definition excused (calloc_ok : bool) (options : Z) (s : stx_state) : Prop :=
  (calloc_ok = false /\ private options = true) \/ unlucky s.

Record stx_inv (us : list user) (s : stx_state) : Prop := {
  si_len : length (stx_pool s) = Z.to_nat stx_max;
  si_rr : 0 <= rr_start_idx s < stx_max;
  si_ref : forall i x, stx_pool s !! i = Some x -> ref_cnt x = Z.of_nat (users_of (Z.of_nat i) us);
  si_priv : forall i x, stx_pool s !! i = Some x -> is_private x = true <-> exists t, (t, Z.of_nat i) ∈ stx_kvs s;
  si_keys : NoDup (map fst (stx_kvs s));
  si_idxs : NoDup (map snd (stx_kvs s));
  si_kvs : forall t i, (t, i) ∈ stx_kvs s -> exists u, u ∈ us /\ u_idx u = i;
  si_users : forall u, u ∈ us -> 0 <= u_idx u < stx_max /\
    if private (u_options u) then (u_tid u, u_idx u) ∈ stx_kvs s else forall t, (t, u_idx u) ∉ stx_kvs s }.

(** *** The hash table *)

Lemma find_some t i kvs : NoDup (map fst kvs) -> HASH_FIND t kvs = Some i <-> (t, i) ∈ kvs.
Proof.
  induction kvs as [|[t' i'] kvs IH]; simpl; intros Hnd; [by rewrite elem_of_nil|].
  apply list.NoDup_cons in Hnd as [Hn Hnd]. rewrite elem_of_cons. case_decide as E.
  - subst. split; [intros [= ->]; by left|]. intros [[= ->]|H]; [done|]. destruct Hn.
    apply list_elem_of_fmap. by exists (t, i).
  - rewrite IH by done. split; [by right|]. by intros [[= -> ->]|H].
Qed.

Lemma find_none t kvs : HASH_FIND t kvs = None <-> forall i, (t, i) ∉ kvs.
Proof.
  induction kvs as [|[t' i'] kvs IH]; simpl; [split; [intros _ i ?%elem_of_nil|]; done|]. case_decide as E.
  - subst. split; [done|]. intros H. destruct (H i'). apply list_elem_of_here.
  - rewrite IH. split; intros H i; [by rewrite elem_of_cons; intros [[= -> ->]|Hi]; [|apply (H i)]|].
    intros Hi. apply (H i). by apply list_elem_of_further.
Qed.

Lemma elem_of_del t kvs e : NoDup (map fst kvs) -> e ∈ HASH_DEL t kvs <-> e ∈ kvs /\ e.1 <> t.
Proof.
  induction kvs as [|[t' i'] kvs IH]; simpl; intros Hnd; [rewrite elem_of_nil; naive_solver|].
  apply list.NoDup_cons in Hnd as [Hn Hnd]. case_decide as E.
  - subst. rewrite elem_of_cons. split.
    + intros He. split; [by right|]. intros <-. apply Hn. apply list_elem_of_fmap. by exists e.
    + intros [[->|He] Ht]; [done|done].
  - rewrite !elem_of_cons, IH by done. split; [|naive_solver]. intros [->|[He Ht]]; [split; [by left|done]|by split; [right|]].
Qed.

Lemma del_sublist t kvs : HASH_DEL t kvs `sublist_of` kvs.
Proof. induction kvs as [|[t' i'] kvs IH]; simpl; [done|]. case_decide; [by apply sublist_cons|by apply sublist_skip]. Qed.

Lemma del_nodup {A} (f : shmem_internal_tid * Z -> A) t kvs : NoDup (map f kvs) -> NoDup (map f (HASH_DEL t kvs)).
Proof. intros H. eapply sublist_NoDup; [exact H|]. apply (fmap_sublist f), del_sublist. Qed.

(** *** The pool *)

Lemma runs_stx_at {P : Prop} i x s (Q : shmem_transport_ofi_stx_t -> stx_state -> Prop) :
  0 <= i -> stx_pool s !! Z.to_nat i = Some x -> Q x s -> runs_or P (stx_at i) s Q.
Proof. intros Hi Hx HQ. apply (runs_some _ _ _ _ x s); [|done]. unfold stx_at. by rewrite (proj2 (Z.ltb_ge i 0)), Hx. Qed.

Lemma pool_lookup us s i : stx_inv us s -> 0 <= i < stx_max -> exists x, stx_pool s !! Z.to_nat i = Some x.
Proof. intros [Hl _ _ _ _ _ _ _] Hi. apply lookup_lt_is_Some. lia. Qed.

(** The searches move their own variables only. *)
Definition same_table (s s' : stx_state) : Prop :=
  stx_pool s' = stx_pool s /\ stx_kvs s' = stx_kvs s /\ 0 <= rr_start_idx s' < stx_max.

Lemma inv_same us s s' : stx_inv us s -> same_table s s' -> stx_inv us s'.
Proof. intros [] (E1 & E2 & E3). split; rewrite ?E1, ?E2; done. Qed.

Lemma same_refl us s : stx_inv us s -> same_table s s.
Proof. by intros [_ H _ _ _ _ _ _]. Qed.

Lemma same_trans s1 s2 s3 : same_table s1 s2 -> same_table s2 s3 -> same_table s1 s3.
Proof. intros (E1 & E2 & _) (E3 & E4 & H). split; [congruence|]. by split; [congruence|]. Qed.

Lemma ref_nonneg us s i x : stx_inv us s -> stx_pool s !! i = Some x -> 0 <= ref_cnt x.
Proof. intros H Hx. rewrite (si_ref _ _ H i x Hx). lia. Qed.

Lemma unused_private us s i x : stx_inv us s -> stx_pool s !! i = Some x -> ref_cnt x = 0 -> is_private x = false.
Proof.
  intros H Hx Hr. destruct (is_private x) eqn:E; [|done]. apply (si_priv _ _ H i x Hx) in E as [t Ht].
  destruct (si_kvs _ _ H _ _ Ht) as (u & Hu & Hi). rewrite (si_ref _ _ H i x Hx) in Hr.
  pose proof (countb_pos (fun u => u_idx u =? Z.of_nat i) us u Hu ltac:(by apply Z.eqb_eq)). unfold users_of in Hr. lia.
Qed.

Lemma unused_loop_spec {P : Prop} us s n i : stx_inv us s -> 0 <= i -> i + Z.of_nat n = stx_max ->
  runs_or P (unused_loop n i) s (fun r s' => s' = s /\
    (r = -1 /\ (forall j x, (Z.to_nat i <= j)%nat -> stx_pool s !! j = Some x -> ref_cnt x <> 0) \/
     0 <= r < stx_max /\ exists x, stx_pool s !! Z.to_nat r = Some x /\ ref_cnt x = 0)).
Proof.
  intros Hinv. revert i. induction n as [|n IH]; intros i Hi Hn; simpl.
  - apply runs_ret. split; [done|]. left. split; [done|]. intros j x Hj Hx. apply lookup_lt_Some in Hx.
    rewrite (si_len _ _ Hinv) in Hx. lia.
  - destruct (pool_lookup us s i Hinv ltac:(lia)) as [x Hx]. apply runs_bind. eapply runs_stx_at; [done|exact Hx|].
    destruct (Z.eqb_spec (ref_cnt x) 0) as [E|E].
    + rewrite (unused_private us s _ x Hinv Hx E). apply runs_ret. split; [done|]. right. split; [lia|]. by exists x.
    + eapply runs_mono; [apply IH; lia|]. intros r s' (-> & [[-> Hr]|Hr]); (split; [done|]); [left|by right].
      split; [done|]. intros j y Hj Hy. destruct (decide (j = Z.to_nat i)) as [->|Hne]; [congruence|]. apply (Hr j); [lia|done].
Qed.

Lemma search_unused_spec {P : Prop} us s : stx_inv us s ->
  runs_or P (shmem_transport_ofi_stx_search_unused stx_max) s (fun r s' => s' = s /\
    (r = -1 /\ (forall j x, stx_pool s !! j = Some x -> ref_cnt x <> 0) \/
     0 <= r < stx_max /\ exists x, stx_pool s !! Z.to_nat r = Some x /\ ref_cnt x = 0)).
Proof.
  intros Hinv. eapply runs_mono; [apply (unused_loop_spec us s (Z.to_nat stx_max) 0); [done|lia..]|].
  intros r s' (-> & [[-> Hr]|Hr]); (split; [done|]); [left; split; [done|]; intros j x; apply Hr; lia|by right].
Qed.

(** What a shared search answers. *)
Definition shared_found (threshold : Z) (s : stx_state) (r : Z) : Prop :=
  r = -1 /\ (forall j x, stx_pool s !! j = Some x -> shareable threshold x = false) \/
  0 <= r < stx_max /\ exists x, stx_pool s !! Z.to_nat r = Some x /\ shareable threshold x = true.

Lemma rr_loop_spec {P : Prop} us s th n i : stx_inv us s -> 0 <= i < stx_max ->
  runs_or P (rr_loop stx_max th n i) s (fun r s' => same_table s s' /\
    (r = -1 /\ s' = s /\ (forall k x, 0 <= k < Z.of_nat n -> stx_pool s !! Z.to_nat ((i + k) mod stx_max) = Some x -> shareable th x = false) \/
     0 <= r < stx_max /\ exists x, stx_pool s !! Z.to_nat r = Some x /\ shareable th x = true)).
Proof.
  intros Hinv. revert i. induction n as [|n IH]; intros i Hi; simpl.
  - apply runs_ret. split; [by eapply same_refl|]. left. split; [done|]. split; [done|]. intros k x Hk. lia.
  - destruct (pool_lookup us s i Hinv Hi) as [x Hx]. apply runs_bind. eapply runs_stx_at; [lia|exact Hx|].
    rewrite cmod_nonneg by lia. pose proof (Z.mod_pos_bound (i + 1) stx_max Hmax) as Hb.
    destruct (shareable th x) eqn:E.
    + runs_step. runs_step. runs_step. split; [done|]. right. split; [lia|]. by exists x.
    + eapply runs_mono; [apply IH; lia|]. intros r s' [Hs [(-> & -> & Hr)|Hr]]; (split; [done|]); [left|by right].
      split; [done|]. split; [done|]. intros k y Hk Hy. destruct (decide (k = 0)) as [->|Hk0].
      * rewrite Z.add_0_r, Z.mod_small in Hy by lia. congruence.
      * apply (Hr (k - 1)); [lia|]. rewrite Z.add_mod_idemp_l by lia. by replace (i + 1 + (k - 1)) with (i + k) by lia.
Qed.

Lemma count_loop_spec {P : Prop} us s th n i : stx_inv us s -> 0 <= i -> i + Z.of_nat n = stx_max ->
  runs_or P (count_loop th n i) s (fun r s' => s' = s /\
    if (r : bool) then exists j x, 0 <= j < stx_max /\ stx_pool s !! Z.to_nat j = Some x /\ shareable th x = true
    else forall j x, (Z.to_nat i <= j)%nat -> stx_pool s !! j = Some x -> shareable th x = false).
Proof.
  intros Hinv. revert i. induction n as [|n IH]; intros i Hi Hn; simpl.
  - apply runs_ret. split; [done|]. intros j x Hj Hx. apply lookup_lt_Some in Hx. rewrite (si_len _ _ Hinv) in Hx. lia.
  - destruct (pool_lookup us s i Hinv ltac:(lia)) as [x Hx]. apply runs_bind. eapply runs_stx_at; [done|exact Hx|].
    destruct (shareable th x) eqn:E.
    + apply runs_ret. split; [done|]. exists i, x. split; [lia|done].
    + eapply runs_mono; [apply IH; lia|]. intros [|] s' [-> Hr]; (split; [done|]); [done|].
      intros j y Hj Hy. destruct (decide (j = Z.to_nat i)) as [->|Hne]; [congruence|]. apply (Hr j); [lia|done].
Qed.
Lemma draw_range seed : stx_allocator = RANDOM -> 0 <= draw 0 seed < stx_max.
Proof.
  intros Ha. pose proof (Hrand Ha) as Hr. specialize (Hr seed). simpl. unfold RAND_MAX in *. rewrite cdiv_nonneg by nia.
  split; [apply Z.div_pos; nia|]. apply Z.div_lt_upper_bound; nia.
Qed.

Lemma probe_loop_spec us s th n : stx_allocator = RANDOM -> stx_inv us s ->
  runs_or (forall k, (k < n)%nat -> exists x,
      stx_pool s !! Z.to_nat (draw k (rand_pool_seed s)) = Some x /\ shareable th x = false)
    (probe_loop stx_max rand_r th n) s
    (fun r s' => same_table s s' /\ 0 <= r < stx_max /\ exists x, stx_pool s !! Z.to_nat r = Some x /\ shareable th x = true).
Proof.
  intros Ha. revert s. induction n as [|n IH]; intros s Hinv; [by intros k Hk; lia|].
  cbn [probe_loop]. pose proof (draw_range (rand_pool_seed s) Ha) as Hd0. simpl in Hd0. runs_step. runs_step.
  destruct (rand_r (rand_pool_seed s)) as [r seed] eqn:Er. simpl in Hd0. runs_step. runs_step.
  assert (stx_inv us (set_seed seed s)) as Hinv' by (eapply inv_same; [exact Hinv|by destruct Hinv]).
  destruct (pool_lookup us _ _ Hinv' Hd0) as [y Hy]. apply runs_bind. eapply runs_stx_at; [lia|exact Hy|].
  destruct (shareable th y) eqn:E.
  - apply runs_ret. split; [by destruct Hinv|]. split; [lia|]. by exists y.
  - eapply runs_excuse; [|apply (IH (set_seed seed s)); done].
    intros Hmiss [|k] Hk; simpl; rewrite Er; [by exists y|]. apply (Hmiss k). lia.
Qed.

Lemma search_shared_spec us s th : stx_inv us s ->
  runs_or (unlucky s) (shmem_transport_ofi_stx_search_shared stx_max stx_allocator rand_r probes th) s
    (fun r s' => same_table s s' /\ shared_found th s r /\ (r = -1 -> s' = s)).
Proof.
  intros Hinv. unfold shmem_transport_ofi_stx_search_shared.
  assert (forall a : stx_allocator_t, a = ROUNDROBIN \/ a = RANDOM) as Hall by (intros []; auto).
  destruct (Hall stx_allocator) as [Ea|Ea]; rewrite Ea.
  - runs_step. runs_step. eapply runs_mono; [apply (rr_loop_spec us); [done|by destruct Hinv]|].
    intros r s' [Hs [(-> & -> & Hr)|Hr]]; (split; [done|]); [|split; [by right|lia]].
    split; [left|done]. split; [done|]. intros j x Hx.
    pose proof (lookup_lt_Some _ _ _ Hx) as Hj. rewrite (si_len _ _ Hinv) in Hj.
    apply (Hr ((Z.of_nat j - rr_start_idx s) mod stx_max)).
    + pose proof (Z.mod_pos_bound (Z.of_nat j - rr_start_idx s) stx_max Hmax). lia.
    + rewrite Z.add_mod_idemp_r by lia. replace (rr_start_idx s + _) with (Z.of_nat j) by lia.
      by rewrite Z.mod_small, Nat2Z.id by lia.
  - eapply runs_then; [apply (count_loop_spec us s th (Z.to_nat stx_max) 0); [done|lia..]|].
    intros [|] s' [-> Hr].
    + destruct Hr as (j & x & Hj & Hx & Hsh).
      eapply runs_mono; [eapply runs_excuse; [|by apply (probe_loop_spec us)]|].
      * intros Hmiss. split; [done|]. exists th. split; [by exists (Z.to_nat j), x|done].
      * intros r s' (Hs & Hr & Hy). split; [done|]. split; [by right|lia].
    + apply runs_ret. split; [by eapply same_refl|]. split; [|done]. left. split; [done|]. intros j y. apply Hr. lia.
Qed.

(** *** Joining and leaving *)

Lemma users_of_app i us vs : users_of i (us ++ vs) = (users_of i us + users_of i vs)%nat.
Proof. apply countb_app. Qed.

Lemma users_of_one i u : users_of i [u] = if u_idx u =? i then 1%nat else 0%nat.
Proof. unfold users_of. simpl. by destruct (u_idx u =? i). Qed.

Lemma users_of_cons i us u vs :
  users_of i (us ++ u :: vs) = (users_of i (us ++ vs) + if Z.eqb (u_idx u) i then 1%nat else 0%nat)%nat.
Proof. rewrite !users_of_app. change (u :: vs) with ([u] ++ vs). rewrite users_of_app, users_of_one. lia. Qed.

Lemma pool_insert us s i x j y : stx_inv us s -> 0 <= i < stx_max ->
  <[Z.to_nat i := x]> (stx_pool s) !! j = Some y ->
  j = Z.to_nat i /\ y = x \/ j <> Z.to_nat i /\ stx_pool s !! j = Some y.
Proof.
  intros Hinv Hi H. destruct (decide (j = Z.to_nat i)) as [->|Hne]; [left|right; by rewrite list_lookup_insert_ne in H].
  rewrite list_lookup_insert_eq in H by (rewrite (si_len _ _ Hinv); lia). by injection H as <-.
Qed.

(** A context joins an STX: an STX of its thread if it is private, a shared one otherwise. *)
Lemma inv_join us s i x o t : stx_inv us s -> 0 <= i < stx_max -> stx_pool s !! Z.to_nat i = Some x ->
  (if private o then (t, i) ∈ stx_kvs s else forall t', (t', i) ∉ stx_kvs s) ->
  stx_inv (us ++ [User i o t]) (set_pool (<[Z.to_nat i := Stx (ref_cnt x + 1) (is_private x)]> (stx_pool s)) s).
Proof.
  intros Hinv Hi Hx Hk. pose proof Hinv as [I1 I2 I3 I4 I5 I6 I7 I8]. split; simpl; try done.
  - by rewrite length_insert.
  - intros j y [[-> ->]|[Hj Hy]]%(pool_insert us); try done; rewrite users_of_app, users_of_one; simpl.
    + rewrite (I3 _ _ Hx), Z2Nat.id, Z.eqb_refl by lia. lia.
    + rewrite (I3 _ _ Hy), (proj2 (Z.eqb_neq _ _)) by lia. lia.
  - intros j y [[-> ->]|[Hj Hy]]%(pool_insert us); try done; [exact (I4 _ _ Hx)|exact (I4 _ _ Hy)].
  - intros t' i' Ht. destruct (I7 _ _ Ht) as (u & Hu & Hui). exists u. split; [|done]. apply elem_of_app. by left.
  - intros u [Hu| ->%list_elem_of_singleton]%elem_of_app; [by apply I8|done].
Qed.

(** A private context takes an unused STX for its thread. *)
Lemma inv_claim us s i x o t : stx_inv us s -> 0 <= i < stx_max -> stx_pool s !! Z.to_nat i = Some x ->
  private o = true -> ref_cnt x = 0 -> (forall i', (t, i') ∉ stx_kvs s) ->
  stx_inv (us ++ [User i o t])
    (set_kvs (HASH_ADD t i (stx_kvs s)) (set_pool (<[Z.to_nat i := Stx 1 true]> (stx_pool s)) s)).
Proof.
  intros Hinv Hi Hx Ho Hr Ht. pose proof Hinv as [I1 I2 I3 I4 I5 I6 I7 I8]. unfold HASH_ADD.
  assert (forall u, u ∈ us -> u_idx u <> i) as Hun.
  { intros u Hu E. rewrite (I3 _ _ Hx), Z2Nat.id in Hr by lia.
    pose proof (countb_pos (fun u => u_idx u =? i) us u Hu ltac:(by apply Z.eqb_eq)). unfold users_of in Hr. lia. }
  assert (forall t', (t', i) ∉ stx_kvs s) as Hni.
  { intros t' H. destruct (I7 _ _ H) as (u & Hu & Hui). by destruct (Hun u). }
  split; simpl; try done.
  - by rewrite length_insert.
  - intros j y [[-> ->]|[Hj Hy]]%(pool_insert us); try done; rewrite users_of_app, users_of_one; simpl.
    + rewrite (I3 _ _ Hx) in Hr. rewrite Z2Nat.id, Z.eqb_refl by lia. rewrite Z2Nat.id in Hr by lia. lia.
    + rewrite (I3 _ _ Hy), (proj2 (Z.eqb_neq _ _)) by lia. lia.
  - intros j y [[-> ->]|[Hj Hy]]%(pool_insert us); try done.
    + split; [|done]. intros _. exists t. rewrite Z2Nat.id by lia. apply elem_of_app. right. by apply list_elem_of_singleton.
    + rewrite (I4 _ _ Hy). split; intros [t' Ht']; exists t'; [apply elem_of_app; by left|].
      apply elem_of_app in Ht' as [Ht'|[= -> E]%list_elem_of_singleton]; [done|lia].
  - rewrite map_app. apply list.NoDup_app. split; [done|]. split; [|apply list.NoDup_singleton]. simpl.
    intros t' Hin ->%list_elem_of_singleton. apply list_elem_of_fmap in Hin as ([t' i'] & -> & H). by destruct (Ht i').
  - rewrite map_app. apply list.NoDup_app. split; [done|]. split; [|apply list.NoDup_singleton]. simpl.
    intros i' Hin ->%list_elem_of_singleton. apply list_elem_of_fmap in Hin as ([t' i'] & -> & H). by destruct (Hni t').
  - intros t' i' [H|[= -> ->]%list_elem_of_singleton]%elem_of_app.
    + destruct (I7 _ _ H) as (u & Hu & Hui). exists u. split; [apply elem_of_app; by left|done].
    + exists (User i o t). split; [|done]. apply elem_of_app. right. by apply list_elem_of_singleton.
  - intros u [Hu| ->%list_elem_of_singleton]%elem_of_app.
    + destruct (I8 u Hu) as [Hb Hp]. split; [done|]. destruct (private (u_options u)); [apply elem_of_app; by left|].
      intros t' [H|[= -> E]%list_elem_of_singleton]%elem_of_app; [by destruct (Hp t')|]. by destruct (Hun u Hu).
    + simpl. rewrite Ho. split; [done|]. apply elem_of_app. right. by apply list_elem_of_singleton.
Qed.

(** A context leaves; its STX stays with the table unless it was the last one of a private STX. *)
Lemma inv_leave us vs s u x : stx_inv (us ++ u :: vs) s -> stx_pool s !! Z.to_nat (u_idx u) = Some x ->
  private (u_options u) = false \/ (0 < users_of (u_idx u) (us ++ vs))%nat ->
  stx_inv (us ++ vs) (set_pool (<[Z.to_nat (u_idx u) := Stx (ref_cnt x - 1) (is_private x)]> (stx_pool s)) s).
Proof.
  intros Hinv Hx Hc. pose proof Hinv as [I1 I2 I3 I4 I5 I6 I7 I8].
  destruct (I8 u) as [Hb Hp]; [apply elem_of_app; right; apply list_elem_of_here|].
  split; simpl; try done.
  - by rewrite length_insert.
  - intros j y [[-> ->]|[Hj Hy]]%(pool_insert (us ++ u :: vs)); try done.
    + simpl. rewrite (I3 _ _ Hx), users_of_cons, Z2Nat.id, Z.eqb_refl by lia. lia.
    + rewrite (I3 _ _ Hy), users_of_cons, (proj2 (Z.eqb_neq _ _)) by lia. lia.
  - intros j y [[-> ->]|[Hj Hy]]%(pool_insert (us ++ u :: vs)); try done; [exact (I4 _ _ Hx)|exact (I4 _ _ Hy)].
  - intros t i Ht. destruct (I7 _ _ Ht) as (v & Hv & Hi). rewrite elem_of_app, elem_of_cons in Hv.
    destruct Hv as [Hv|[->|Hv]]; [by exists v; rewrite elem_of_app; auto| |by exists v; rewrite elem_of_app; auto].
    destruct Hc as [Hc|Hc]; [rewrite Hc in Hp; subst i; by destruct (Hp t)|].
    destruct (decide (Exists (fun v => u_idx v = u_idx u) (us ++ vs))) as [(v & Hv & E)%list.Exists_exists|Hn].
    + exists v. split; [done|congruence].
    + assert (users_of (u_idx u) (us ++ vs) = 0%nat) as E0; [|lia]. apply countb_zero. intros v Hv. apply Z.eqb_neq.
      intros E. apply Hn, list.Exists_exists. eauto.
  - intros v Hv. apply I8. rewrite elem_of_app, elem_of_cons. rewrite elem_of_app in Hv. naive_solver.
Qed.

Lemma inv_release_private us vs s u x : stx_inv (us ++ u :: vs) s -> stx_pool s !! Z.to_nat (u_idx u) = Some x ->
  private (u_options u) = true -> users_of (u_idx u) (us ++ vs) = 0%nat ->
  stx_inv (us ++ vs)
    (set_kvs (HASH_DEL (u_tid u) (stx_kvs s)) (set_pool (<[Z.to_nat (u_idx u) := Stx 0 false]> (stx_pool s)) s)).
Proof.
  intros Hinv Hx Hpr Hc. pose proof Hinv as [I1 I2 I3 I4 I5 I6 I7 I8].
  destruct (I8 u) as [Hb Hp]; [apply elem_of_app; right; apply list_elem_of_here|]. rewrite Hpr in Hp.
  assert (forall v, v ∈ us ++ vs -> u_idx v <> u_idx u) as Hne.
  { intros v Hv E. pose proof (proj1 (countb_zero _ _) Hc v Hv) as E'. simpl in E'. by rewrite E, Z.eqb_refl in E'. }
  assert (forall v, v ∈ us ++ vs -> v ∈ us ++ u :: vs) as Hin.
  { intros v. rewrite !elem_of_app, elem_of_cons. naive_solver. }
  assert (forall t i, (t, i) ∈ stx_kvs s -> t <> u_tid u <-> i <> u_idx u) as Hkey.
  { intros t i H. split; intros E ->; apply E.
    - apply (NoDup_fmap_fst_inj _ _ _ _ I6 H Hp).
    - apply (NoDup_fmap_snd_inj _ _ _ _ I5 H Hp). }
  split; simpl; try done.
  - by rewrite length_insert.
  - intros j y [[-> ->]|[Hj Hy]]%(pool_insert (us ++ u :: vs)); try done.
    + by rewrite Z2Nat.id, Hc by lia.
    + rewrite (I3 _ _ Hy), users_of_cons, (proj2 (Z.eqb_neq _ _)) by lia. lia.
  - intros j y [[-> ->]|[Hj Hy]]%(pool_insert (us ++ u :: vs)); try done.
    + split; [done|]. intros [t [Ht Hn]%elem_of_del]; [|done]. simpl in Hn. apply (Hkey _ _ Ht) in Hn. lia.
    + rewrite (I4 _ _ Hy). split; intros [t Ht]; exists t; [|by apply elem_of_del in Ht as [? _]].
      apply elem_of_del; [done|]. split; [done|]. apply (Hkey _ _ Ht). lia.
  - by apply del_nodup.
  - by apply del_nodup.
  - intros t i [Ht Hn]%elem_of_del; [|done]. destruct (I7 _ _ Ht) as (v & Hv & Hi).
    rewrite elem_of_app, elem_of_cons in Hv. destruct Hv as [Hv|[->|Hv]]; [exists v| |exists v]; rewrite ?elem_of_app; auto.
    apply (Hkey _ _ Ht) in Hn. by destruct Hn.
  - intros v Hv. destruct (I8 v (Hin v Hv)) as [Hbv Hpv]. split; [done|]. destruct (private (u_options v)).
    + apply elem_of_del; [done|]. split; [done|]. apply (Hkey _ _ Hpv). by apply Hne.
    + intros t [Ht _]%elem_of_del; [|done]. by apply (Hpv t).
Qed.
(** *** The operations *)

Lemma runs_add_ref {P : Prop} i n x s (Q : unit -> stx_state -> Prop) : 0 <= i -> stx_pool s !! Z.to_nat i = Some x ->
  Q tt (set_pool (<[Z.to_nat i := Stx (ref_cnt x + n) (is_private x)]> (stx_pool s)) s) -> runs_or P (add_ref i n) s Q.
Proof. intros Hi Hx HQ. unfold add_ref. runs_step. eapply runs_stx_at; [done|exact Hx|]. by apply runs_modify. Qed.

Lemma shared_not_private us s i x : stx_inv us s -> 0 <= i -> stx_pool s !! Z.to_nat i = Some x ->
  is_private x = false -> forall t, (t, i) ∉ stx_kvs s.
Proof.
  intros Hinv Hi Hx Hp t Ht. assert (is_private x = true); [|congruence].
  apply (si_priv _ _ Hinv _ _ Hx). exists t. by rewrite Z2Nat.id.
Qed.

(** While a context that is not private lives, a search without a threshold succeeds. *)
Lemma shared_exists us s u : stx_inv us s -> u ∈ us -> private (u_options u) = false ->
  exists j x, stx_pool s !! j = Some x /\ shareable (-1) x = true.
Proof.
  intros Hinv Hu Hp. destruct (si_users _ _ Hinv u Hu) as [Hb Hk]. rewrite Hp in Hk.
  destruct (pool_lookup us s _ Hinv Hb) as [x Hx]. exists (Z.to_nat (u_idx u)), x. split; [done|].
  pose proof (si_ref _ _ Hinv _ _ Hx) as Hr. rewrite Z2Nat.id in Hr by lia.
  pose proof (countb_pos (fun v => u_idx v =? u_idx u) us u Hu (Z.eqb_refl _)) as Hc.
  fold (users_of (u_idx u) us) in Hc. unfold shareable. rewrite Z.gtb_ltb, (proj2 (Z.ltb_lt 0 _)) by lia.
  rewrite orb_true_r. simpl. destruct (is_private x) eqn:E; [|done]. apply (si_priv _ _ Hinv _ _ Hx) in E as [t Ht].
  rewrite Z2Nat.id in Ht by lia. by destruct (Hk t).
Qed.

Lemma found_not_private th x : shareable th x = true -> is_private x = false.
Proof. unfold shareable. intros [_ H]%andb_true_iff. by apply negb_true_iff. Qed.

(** The contexts can be served: there are none yet, or one of them is not private. *)
Definition servable (us : list user) : Prop := us = [] \/ exists u, u ∈ us /\ private (u_options u) = false.

Lemma search_any us s : stx_inv us s -> servable us ->
  (forall j x, stx_pool s !! j = Some x -> ref_cnt x <> 0) ->
  runs_or (unlucky s) (shmem_transport_ofi_stx_search_shared stx_max stx_allocator rand_r probes (-1)) s (fun r s' => same_table s s' /\
    0 <= r < stx_max /\ exists x, stx_pool s !! Z.to_nat r = Some x /\ is_private x = false).
Proof.
  intros Hinv Hserv Hfull. eapply runs_mono; [by apply (search_shared_spec us)|].
  intros r s' (Hs & [[_ Hr]|(Hb & x & Hx & Hsh)] & _).
  - exfalso. destruct Hserv as [->|(u & Hu & Hp)].
    + destruct (pool_lookup [] s 0 Hinv ltac:(lia)) as [x Hx]. apply (Hfull _ _ Hx).
      rewrite (si_ref _ _ Hinv _ _ Hx). done.
    + destruct (shared_exists us s u Hinv Hu Hp) as (j & x & Hx & Hsh). rewrite (Hr _ _ Hx) in Hsh. done.
  - split; [done|]. split; [done|]. exists x. split; [done|]. by eapply found_not_private.
Qed.

Lemma private_cleared o : private (Z.land o (Z.lnot SHMEM_CTX_PRIVATE)) = false.
Proof.
  unfold private, shmem_transport_ofi_is_private. rewrite <- Z.land_assoc.
  change (Z.land (Z.lnot SHMEM_CTX_PRIVATE) SHMEM_CTX_PRIVATE) with 0. rewrite Z.land_0_r. apply andb_false_r.
Qed.

(** The options afterwards: those of the call, or without PRIVATE when no STX was free for
    the thread. *)
Definition options_after (o o' : Z) : Prop := o' = o \/ private o = true /\ o' = Z.land o (Z.lnot SHMEM_CTX_PRIVATE).

(** What an allocation establishes. *)
Definition allocated (us : list user) (o : Z) (t : shmem_internal_tid) (r : Z * Z) (s : stx_state) : Prop :=
  stx_inv (us ++ [User r.1 r.2 t]) s /\ options_after o r.2.

Lemma join_shared {P : Prop} us s s' i x o o' t : stx_inv us s -> same_table s s' -> 0 <= i < stx_max ->
  stx_pool s !! Z.to_nat i = Some x -> is_private x = false -> private o' = false -> options_after o o' ->
  runs_or P (if i <? 0 then stop else add_ref i 1 ;; ret (i, o')) s' (allocated us o t).
Proof.
  intros Hinv Hs Hi Hx Hp Ho Ha. pose proof (inv_same us s s' Hinv Hs) as Hinv'. destruct Hs as (E1 & E2 & _).
  rewrite <- E1 in Hx. rewrite (proj2 (Z.ltb_ge i 0)) by lia. runs_step. eapply runs_add_ref; [lia|exact Hx|].
  runs_step. split; [|done]. apply inv_join; [done|done|done|]. simpl. rewrite Ho.
  by eapply shared_not_private; [..|exact Hp]; [|lia|].
Qed.

(** An answered index is kept, otherwise the next search runs. *)
Lemma runs_or_else {A} {P : Prop} r (m : ST stx_state A) (f : Z -> ST stx_state A) s (Q : A -> stx_state -> Prop) :
  (r = -1 -> runs_or P m s Q) -> (0 <= r -> runs_or P (f r) s Q) -> (r = -1 \/ 0 <= r) ->
  runs_or P (if r <? 0 then m else f r) s Q.
Proof. intros Hm Hf [->|Hr]; [by apply Hm|]. rewrite (proj2 (Z.ltb_ge r 0)) by lia. by apply Hf. Qed.

Lemma allocate_shared ok us s o t : stx_inv us s -> servable us -> private o = false ->
  runs_or (unlucky s) (allocate ok o t) s (allocated us o t).
Proof.
  intros Hinv Hserv Ho. unfold allocate, shmem_transport_ofi_stx_allocate. fold private. rewrite Ho.
  rewrite (proj2 (Z.eqb_neq _ _)) by lia.
  assert (forall i s' x, same_table s s' -> 0 <= i < stx_max -> stx_pool s !! Z.to_nat i = Some x -> is_private x = false ->
    runs_or (unlucky s) (if i <? 0 then stop else add_ref i 1 ;; ret (i, o)) s' (allocated us o t)) as Hfin.
  { intros i s' x Hs Hi Hx Hp. eapply (join_shared us s); [done|done|done|exact Hx|done|done|by left]. }
  eapply runs_then; [by apply (search_shared_spec us)|].
  intros r s1 (Hs1 & [[-> _]|(Hr & x & Hx & Hsh)] & Hmiss).
  - change (-1 <? 0) with true. cbv iota. rewrite (Hmiss eq_refl) in *. clear s1 Hmiss.
    eapply runs_then; [by apply (search_unused_spec us)|]. intros r s2 (-> & [[-> Hfull]|(Hr & x & Hx & H0)]).
    + change (-1 <? 0) with true. cbv iota. eapply runs_then; [by apply (search_any us)|].
      intros r s3 (Hs3 & Hr & x & Hx & Hp). by eapply Hfin.
    + pose proof (unused_private us s _ x Hinv Hx H0) as Hp. pose proof (Hfin r s x Hs1 Hr Hx Hp) as H.
      rewrite (proj2 (Z.ltb_ge r 0)) by lia. runs_step. by runs_step.
  - pose proof (Hfin r s1 x Hs1 Hr Hx (found_not_private _ _ Hsh)) as H.
    rewrite (proj2 (Z.ltb_ge r 0)) by lia. runs_step. runs_step. rewrite (proj2 (Z.ltb_ge r 0)) by lia.
    runs_step. by runs_step.
Qed.

Lemma claim_unused ok us s i x o t : stx_inv us s -> 0 <= i < stx_max -> stx_pool s !! Z.to_nat i = Some x ->
  private o = true -> ref_cnt x = 0 -> (forall i', (t, i') ∉ stx_kvs s) ->
  runs_or (excused ok o s) (add_ref i 1 ;; x <- stx_at i ; stx_set i (Stx (ref_cnt x) true) ;;
        if (ok : bool) then modify (fun s => set_kvs (HASH_ADD t i (stx_kvs s)) s) ;; ret (i, o) else stop) s (allocated us o t).
Proof.
  intros Hinv Hi Hx Ho Hr Ht. runs_step. eapply runs_add_ref; [lia|exact Hx|]. runs_step.
  eapply runs_stx_at; [lia|apply list_lookup_insert_eq; apply lookup_lt_Some in Hx; exact Hx|].
  runs_step. unfold stx_set. runs_step. destruct ok; [|by left]. runs_step. runs_step. runs_step. split; [|by left]. simpl.
  rewrite list_insert_insert_eq, Hr. by apply (inv_claim us s i x).
Qed.

Lemma allocate_private ok us s o t : stx_inv us s -> servable us -> private o = true ->
  runs_or (excused ok o s) (allocate ok o t) s (allocated us o t).
Proof.
  intros Hinv Hserv Ho. unfold allocate, shmem_transport_ofi_stx_allocate. fold private. rewrite Ho.
  rewrite (proj2 (Z.eqb_neq _ _)) by lia. runs_step. runs_step.
  destruct (HASH_FIND t (stx_kvs s)) as [i|] eqn:Ef.
  - apply find_some in Ef; [|apply Hinv]. destruct (si_kvs _ _ Hinv _ _ Ef) as (u & Hu & <-).
    destruct (si_users _ _ Hinv u Hu) as [Hb _]. destruct (pool_lookup us s _ Hinv Hb) as [x Hx].
    runs_step. eapply runs_add_ref; [lia|exact Hx|]. runs_step. split; [|by left].
    apply inv_join; try done. simpl. by rewrite Ho.
  - rewrite find_none in Ef. eapply runs_then; [by apply (search_unused_spec us)|].
    intros r s1 (-> & [[-> Hfull]|(Hr & x & Hx & H0)]).
    + change (-1 <? 0) with true. cbv iota. apply (runs_excuse (unlucky s)); [by right|].
      eapply runs_then; [by apply (search_shared_spec us)|]. intros r s1 (Hs1 & Hf & Hmiss).
      eapply (runs_then _ _ _ _ (fun r' s' => same_table s s' /\ 0 <= r' < stx_max /\
        exists x, stx_pool s !! Z.to_nat r' = Some x /\ is_private x = false)).
      * destruct Hf as [[-> _]|(Hr & x & Hx & Hsh)].
        -- change (-1 <? 0) with true. cbv iota. rewrite (Hmiss eq_refl) in *. clear s1 Hmiss.
           eapply runs_mono; [by apply (search_any us)|]. intros r' s' (Hs' & Hb & x & Hx & Hp).
           split; [done|]. split; [done|]. by exists x.
        -- rewrite (proj2 (Z.ltb_ge r 0)) by lia. apply runs_ret. split; [done|]. split; [done|].
           exists x. split; [done|]. by eapply found_not_private.
      * intros i s2 (Hs2 & Hi & x & Hx & Hp).
        eapply (join_shared us s); [done|done|done|exact Hx|done|apply private_cleared|by right].
    + rewrite (proj2 (Z.ltb_ge r 0)) by lia. by apply (claim_unused ok us s r x).
Qed.

Lemma release_spec {P : Prop} us vs s u : stx_inv (us ++ u :: vs) s ->
  runs_or P (release (u_idx u) (u_options u) (u_tid u)) s (fun _ s' => stx_inv (us ++ vs) s').
Proof.
  intros Hinv. destruct (si_users _ _ Hinv u) as [Hb Hp]; [apply elem_of_app; right; apply list_elem_of_here|].
  destruct (pool_lookup _ s _ Hinv Hb) as [x Hx]. unfold release, release_stx. fold private.
  rewrite Z.geb_leb, (proj2 (Z.leb_le 0 _)) by lia.
  assert (forall x', <[Z.to_nat (u_idx u) := x']> (stx_pool s) !! Z.to_nat (u_idx u) = Some x') as Hat.
  { intros x'. apply list_lookup_insert_eq. by apply lookup_lt_Some in Hx. }
  assert (ref_cnt x - 1 = Z.of_nat (users_of (u_idx u) (us ++ vs))) as Hr.
  { rewrite (si_ref _ _ Hinv _ _ Hx), Z2Nat.id, users_of_cons, Z.eqb_refl by lia. lia. }
  destruct (private (u_options u)) eqn:Ho.
  - runs_step. runs_step. rewrite (proj2 (find_some _ _ _ (si_keys _ _ Hinv)) Hp).
    runs_step. eapply runs_add_ref; [lia|exact Hx|]. runs_step. eapply runs_stx_at; [lia|apply Hat|]. simpl.
    replace (ref_cnt x + -1) with (ref_cnt x - 1) by lia. destruct (Z.eqb_spec (ref_cnt x - 1) 0) as [E|E].
    + runs_step. runs_step. apply runs_modify. simpl. rewrite E, list_insert_insert_eq.
      eapply inv_release_private; [done|exact Hx|done|lia].
    + runs_step. apply inv_leave; [done|done|right; lia].
  - runs_step. eapply runs_add_ref; [lia|exact Hx|]. runs_step. eapply runs_stx_at; [lia|apply Hat|]. simpl.
    destruct (is_private x) eqn:E.
    + apply (si_priv _ _ Hinv _ _ Hx) in E as [t Ht]. rewrite Z2Nat.id in Ht by lia. by destruct (Hp t).
    + runs_step. rewrite <- E. apply inv_leave; [done|done|by left].
Qed.

(** *** Every sequence of creations and destructions *)

(** The pool as [shmem_transport_startup] fills it. *)
Definition stx_start (seed : Z) : stx_state := StxState (replicate (Z.to_nat stx_max) (Stx 0 false)) [] 0 seed.

Lemma inv_start seed : stx_inv [] (stx_start seed).
Proof.
  split; simpl; try apply base.NoDup_nil_2.
  - apply length_replicate.
  - lia.
  - by intros i x [-> _]%lookup_replicate.
  - intros i x [-> _]%lookup_replicate. split; [done|]. by intros [t ?%elem_of_nil].
  - by intros t i ?%elem_of_nil.
  - by intros u ?%elem_of_nil.
Qed.

(** There is nothing to share in the empty pool. *)
Lemma start_lucky seed : ~ unlucky (stx_start seed).
Proof.
  intros (_ & th & (j & x & [-> _]%lookup_replicate & Hsh) & _). done.
Qed.

(** The first context, the default one, stays. *)
Inductive stx_step : list user * stx_state -> list user * stx_state -> Prop :=
| stx_create us s ok o t r s' : allocate ok o t s = Some (r, s') -> stx_step (us, s) (us ++ [User r.1 r.2 t], s')
| stx_destroy us u vs s s' : us <> [] -> release (u_idx u) (u_options u) (u_tid u) s = Some (tt, s') ->
    stx_step (us ++ u :: vs, s) (us ++ vs, s').

Lemma allocate_spec ok us s o t : stx_inv us s -> servable us ->
  runs_or (excused ok o s) (allocate ok o t) s (allocated us o t).
Proof.
  intros. destruct (private o) eqn:Ho; [by apply allocate_private|].
  apply (runs_excuse (unlucky s)); [by right|by apply allocate_shared].
Qed.

(** A generator that visits every STX within the probes that are run is never unlucky. *)
Definition draws_cover : Prop := forall seed j, 0 <= j < stx_max -> exists k, (k < probes)%nat /\ draw k seed = j.

Lemma lucky us s : (stx_allocator = RANDOM -> draws_cover) -> stx_inv us s -> ~ unlucky s.
Proof.
  intros Hcov Hinv (Ha & th & (j & x & Hx & Hsh) & Hmiss). pose proof (lookup_lt_Some _ _ _ Hx) as Hj.
  rewrite (si_len _ _ Hinv) in Hj. destruct (Hcov Ha (rand_pool_seed s) (Z.of_nat j) ltac:(lia)) as (k & Hk & Hd).
  destruct (Hmiss k Hk) as (y & Hy & Hn). rewrite Hd, Nat2Z.id in Hy. congruence.
Qed.

Lemma allocate_total us s o t : (stx_allocator = RANDOM -> draws_cover) -> stx_inv us s -> servable us ->
  runs (allocate true o t) s (allocated us o t).
Proof.
  intros Hcov Hinv Hserv. eapply runs_excuse; [|by apply allocate_spec].
  intros [[? _]|H]; [done|by eapply lucky].
Qed.

(** A state with its users, the first of which is not private. *)
Definition in_service (w : list user * stx_state) : Prop :=
  stx_inv w.1 w.2 /\ exists u us, w.1 = u :: us /\ private (u_options u) = false.

Lemma in_service_servable w : in_service w -> servable w.1.
Proof. intros (_ & u & us & -> & Hp). right. exists u. split; [apply list_elem_of_here|done]. Qed.

Lemma in_service_step w w' : stx_step w w' -> in_service w -> in_service w'.
Proof.
  intros [us s ok o t r s' E|us u vs s s' Hne E] Hw; pose proof (in_service_servable _ Hw) as Hserv;
    destruct Hw as (Hinv & v & us' & Hus & Hp); simpl in *; subst.
  - destruct (runs_eq _ _ _ _ _ _ (allocate_spec _ _ _ _ _ Hinv Hserv) E) as [Hinv' _]. split; [done|]. by eexists v, _.
  - pose proof (runs_eq False _ _ _ _ _ (release_spec _ _ _ _ Hinv) E) as Hinv'. split; [done|].
    destruct us as [|v' us]; [done|]. simpl in Hus. injection Hus as -> _. by eexists v, _.
Qed.

Lemma in_service_reachable w w' : rtc stx_step w w' -> in_service w -> in_service w'.
Proof. induction 1; [done|]. intros Hw. by eauto using in_service_step. Qed.

(** What holds of the pool and its users whenever the transport is up. *)
Record stx_spec (us : list user) (s : stx_state) : Prop := {
  sp_ref : forall i x, stx_pool s !! i = Some x -> ref_cnt x = Z.of_nat (users_of (Z.of_nat i) us);
  sp_private : forall u v, u ∈ us -> v ∈ us -> private (u_options u) = true ->
    u_idx v = u_idx u <-> private (u_options v) = true /\ u_tid v = u_tid u;
  sp_create : forall ok o t, is_Some (allocate ok o t s) \/ excused ok o s;
  sp_destroy : forall us1 u us2, us = us1 ++ u :: us2 -> is_Some (release (u_idx u) (u_options u) (u_tid u) s) }.

Lemma in_service_spec us s : in_service (us, s) -> stx_spec us s.
Proof.
  intros Hw. pose proof (in_service_servable _ Hw) as Hserv. destruct Hw as [Hinv _]. simpl in *. split.
  - apply Hinv.
  - intros u v Hu Hv Hp. destruct (si_users _ _ Hinv u Hu) as [_ Hku], (si_users _ _ Hinv v Hv) as [_ Hkv].
    rewrite Hp in Hku. split.
    + intros E. rewrite E in Hkv. destruct (private (u_options v)); [|by destruct (Hkv _ Hku)]. split; [done|].
      exact (NoDup_fmap_fst_inj _ _ _ _ (si_idxs _ _ Hinv) Hkv Hku).
    + intros [E Et]. rewrite E, Et in Hkv. exact (NoDup_fmap_snd_inj _ _ _ _ (si_keys _ _ Hinv) Hkv Hku).
  - intros ok o t. pose proof (allocate_spec ok us s o t Hinv Hserv) as H. unfold runs_or in H.
    destruct (allocate ok o t s) as [[r s']|]; [by left|by right].
  - intros us1 u us2 ->. destruct (runs_elim _ _ _ (release_spec us1 us2 s u Hinv)) as (r & s' & -> & _). by eexists.
Qed.
End proof.

(** C25: A context gets a transmit context of the pool, whichever allocator is selected, as long
    as the default context lives: after any sequence of creations and destructions, over
    any answers of [calloc], the reference counts are the numbers of contexts that use
    each STX, and a private context shares its STX with the private contexts of its thread
    and with no other.  A destruction never fails.  A creation returns, unless [calloc]
    has no entry for a private context (the process is aborted), or the allocator is
    RANDOM and its search, which the code leaves unbounded, is still running after
    [probes] draws, for any number [probes]: none of them hit an STX that can be shared
    although there is one.  Of [rand_r] only its documented range is assumed; the first
    creation, into the empty pool, needs no draw. *)
Theorem stx_pool_safe stx_max stx_threshold stx_allocator disable_private rand_r probes seed ok0 o0 t0 :
  let allocate := shmem_transport_ofi_stx_allocate stx_max stx_threshold stx_allocator disable_private rand_r probes in
  0 < stx_max -> (stx_allocator = RANDOM -> draws_range rand_r) ->
  shmem_transport_ofi_is_private disable_private o0 = false ->
  exists r0 s0, allocate ok0 o0 t0 (stx_start stx_max seed) = Some (r0, s0) /\
    forall us s,
      rtc (stx_step stx_max stx_threshold stx_allocator disable_private rand_r probes) ([User r0.1 r0.2 t0], s0) (us, s) ->
      stx_spec stx_max stx_threshold stx_allocator disable_private rand_r probes us s.
Proof.
  intros allocate Hmax Hrand Ho.
  pose proof (allocate_shared stx_max stx_threshold stx_allocator disable_private rand_r probes Hmax Hrand ok0 [] _ o0 t0
    (inv_start _ disable_private Hmax seed) (or_introl eq_refl) Ho) as H.
  eapply (runs_excuse _ False) in H; [|by apply start_lucky].
  destruct (runs_elim _ _ _ H) as (r0 & s0 & E & Hinv & Ho').
  exists r0, s0. split; [done|]. intros us s Hs. apply in_service_spec; [done..|].
  eapply in_service_reachable; [done|done|exact Hs|]. split; [done|]. eexists _, _. split; [done|]. simpl.
  destruct Ho' as [->|[Hp _]]; [done|congruence].
Qed.

(** A pool of two and a generator that alternates between its halves: the second context of
    the default thread shares, the private one takes the other STX for itself. *)
Lemma stx_pool_safe_witness :
  let rand_r r := (r mod 2 ^ 31, (r mod 2 ^ 31 + 2 ^ 30) mod 2 ^ 31) in
  exists r0 s0,
    shmem_transport_ofi_stx_allocate 2 1 RANDOM false rand_r 2 true 0 (tid_is_pid 7) (stx_start 2 0) = Some (r0, s0) /\
    forall us s, rtc (stx_step 2 1 RANDOM false rand_r 2) ([User r0.1 r0.2 (tid_is_pid 7)], s0) (us, s) ->
      stx_spec 2 1 RANDOM false rand_r 2 us s.
Proof.
  apply (stx_pool_safe 2 1 RANDOM false (fun r => (r mod 2 ^ 31, (r mod 2 ^ 31 + 2 ^ 30) mod 2 ^ 31)) 2 0 true 0 (tid_is_pid 7));
    [lia| |reflexivity].
  intros _ seed. simpl. unfold RAND_MAX. pose proof (Z.mod_pos_bound seed (2 ^ 31)). lia.
Defined.
