(* ===== verification/Util.v ===== *)
(** * Line wrapping ([util.c])

    [shmem_util_wrap] breaks a string at spaces.  Characters are their values, a C
    string the list of its characters before the NUL; the loop is run with the number
    of bytes of the output buffer it has touched, to compare with its allocation. *)

From S2P Require Import Prelude.
Local Open Scope Z_scope.

Definition zlen {A} (l : list A) : Z := Z.of_nat (length l).
Definition SPACE : Z := 32.
Definition NEWLINE : Z := 10.

(** The [while] loop at [str_p = rest].  [out] is the text before [out_p], [saved] what
    follows [str_s] and the text before [out_s], [hi] the bytes touched so far. *)
Fixpoint wrap_loop (fuel : nat) (wraplen : Z) (indent rest out : list Z)
    (saved : option (list Z * list Z)) (linelen hi : Z) : option (list Z * Z) :=
  match fuel with
  | O => None
  | S fuel =>
      match rest with
      | [] => Some (out, Z.max hi (zlen out + 1))
      | c :: rest =>
          (* Remember location of last space *)
          let saved := if c =? SPACE then Some (rest, out) else saved in
          let copy := wrap_loop fuel wraplen indent rest (out ++ [c]) saved (linelen + 1) (Z.max hi (zlen out + 1)) in
          (* Reached end of line, try to wrap *)
          if linelen >=? wraplen then
            match saved with
            | Some (after, out_s) =>
                (* the newline, then [strcpy] of the indentation and its NUL *)
                let out := out_s ++ [NEWLINE] ++ indent in
                wrap_loop fuel wraplen indent after out None 0 (Z.max hi (zlen out + 1))
            | None => copy
            end
          else copy
      end
  end.

Definition wrap_fuel (str : list Z) : nat := S (length str + length str * length str).

Definition wrap_alloc (str : list Z) (wraplen indent_len : Z) : Z :=
  zlen str + 2 * (zlen str / wraplen + 1) * indent_len.

(** The output text and the number of bytes of the buffer that are written; [None] is
    the [NULL] indentation.  A zero [wraplen] divides by zero in the allocation. *)
Definition shmem_util_wrap (str : list Z) (wraplen : Z) (indent : option (list Z)) : option (list Z * Z) :=
  wrap_loop (wrap_fuel str) wraplen (default [] indent) str [] None 0 0.

(** ** What wrapping means *)

(** A line fits, or has no place to break it. *)
Definition line_ok (wraplen : Z) (l : list Z) : Prop := zlen l <= wraplen \/ SPACE ∉ l.

(** [wrapped s o]: [o] is [s] with some spaces replaced by a newline and the
    indentation, every line of [s] so delimited being [line_ok]. *)
Inductive wrapped (wraplen : Z) (indent : list Z) : list Z -> list Z -> Prop :=
| wrapped_last l : line_ok wraplen l -> wrapped wraplen indent l l
| wrapped_line l s o : line_ok wraplen l -> wrapped wraplen indent s o ->
    wrapped wraplen indent (l ++ [SPACE] ++ s) (l ++ [NEWLINE] ++ indent ++ o).

(** ** The loop *)

Section wrap.
Context (n wraplen : Z) (indent : list Z) (Hwl : 1 <= wraplen).

(** The least input position at which line [w] can start: two wraps consume more
    than [wraplen] characters. *)
Definition least_start (w : Z) : Z := w / 2 * (wraplen + 1) + w mod 2.

Lemma least_start_next2 w : least_start (w + 2) = least_start w + wraplen + 1.
Proof.
  unfold least_start. replace (w + 2) with (w + 1 * 2) by lia. rewrite Z.div_add, Z.mod_add by lia. lia.
Qed.

Lemma least_start_wraps w : 0 <= w -> least_start w <= n -> w <= 2 * (n / wraplen) + 1.
Proof.
  unfold least_start. intros Hw H. pose proof (Z.div_mod w 2). pose proof (Z.mod_pos_bound w 2).
  assert (w / 2 <= n / wraplen); [|lia]. apply Z.div_le_lower_bound; nia.
Qed.

(** The bytes ever touched. *)
Definition hi_bound : Z := n + (2 * (n / wraplen) + 1) * zlen indent + 1.

(** The state of the loop: [o0] is the output up to the current line, [l] the line so
    far, [w] the number of wraps, [k] a prefix of the line known to have no space. *)
Record wrap_inv (rest o0 l : list Z) (saved : option (list Z * list Z)) (w k : Z) : Prop := {
  wi_saved : match saved with
             | None => SPACE ∉ l
             | Some (after, out_s) => exists l1 l2, l = l1 ++ [SPACE] ++ l2 /\ SPACE ∉ l2 /\
                 after = l2 ++ rest /\ out_s = o0 ++ l1
             end;
  wi_line : line_ok wraplen l;
  wi_wraps : 0 <= w;
  wi_out : zlen o0 = (n - zlen (l ++ rest)) + w * zlen indent;
  wi_start : 0 <= least_start w <= n - zlen (l ++ rest);
  wi_prefix : 0 <= k /\ SPACE ∉ take (Z.to_nat k) (l ++ rest) /\
              least_start (w + 1) <= n - zlen (l ++ rest) + k + 1 }.

Lemma zlen_app {A} (l1 l2 : list A) : zlen (l1 ++ l2) = zlen l1 + zlen l2.
Proof. unfold zlen. rewrite length_app. lia. Qed.

Lemma zlen_cons {A} (x : A) l : zlen (x :: l) = 1 + zlen l.
Proof. unfold zlen. simpl. lia. Qed.

Lemma zlen_nonneg {A} (l : list A) : 0 <= zlen l.
Proof. unfold zlen. lia. Qed.

Lemma prefix_before_space k l1 s : SPACE ∉ take (Z.to_nat k) (l1 ++ [SPACE] ++ s) -> 0 <= k -> k <= zlen l1.
Proof.
  intros H Hk. destruct (Z.le_gt_cases k (zlen l1)); [done|]. exfalso. apply H.
  unfold zlen in *. rewrite take_app_ge by lia. apply elem_of_app. right.
  destruct (Z.to_nat k - length l1)%nat eqn:E; [lia|]. apply list_elem_of_here.
Qed.

(** Breaking the line at the space between [l1] and [l2]. *)
Lemma wrap_break rest l o0 saved w k l1 l2 t :
  wrap_inv rest o0 l saved w k -> l ++ rest = l1 ++ [SPACE] ++ l2 ++ t ->
  SPACE ∉ l2 -> wraplen <= zlen l1 + 1 + zlen l2 ->
  wrap_inv (l2 ++ t) (o0 ++ l1 ++ [NEWLINE] ++ indent) [] None (w + 1) (zlen l2).
Proof.
  intros [_ _ Hw Ho Hs (Hk & Hkp & Hks)] E Hl2 Hlen. rewrite E in *.
  pose proof (prefix_before_space _ _ _ Hkp Hk). pose proof (zlen_nonneg l1). pose proof (zlen_nonneg l2).
  pose proof (zlen_nonneg t). repeat rewrite ?zlen_app, ?zlen_cons in *. change (zlen (@nil Z)) with 0 in *.
  split; simpl.
  - apply not_elem_of_nil.
  - left. unfold zlen; simpl; lia.
  - lia.
  - repeat rewrite ?zlen_app, ?zlen_cons. change (zlen (@nil Z)) with 0. lia.
  - rewrite zlen_app. unfold least_start in *. pose proof (Z.mod_pos_bound (w + 1) 2).
    pose proof (Z.div_pos (w + 1) 2). split; [nia|lia].
  - rewrite zlen_app, <- Z.add_assoc, least_start_next2. split; [lia|]. split; [|lia].
    unfold zlen. by rewrite Nat2Z.id, take_app_length.
Qed.

(** Copying one character to the current line. *)
Lemma wrap_copy rest l o0 saved saved' w k c :
  wrap_inv (c :: rest) o0 l saved w k ->
  saved' = (if c =? SPACE then Some (rest, o0 ++ l) else saved) ->
  zlen l < wraplen \/ saved' = None ->
  wrap_inv rest o0 (l ++ [c]) saved' w k.
Proof.
  intros [Hsv Hl Hw Ho Hs Hp] -> Hc. rewrite (cons_middle c l rest) in *.
  rewrite app_assoc in *. split; try done.
  - destruct (Z.eqb_spec c SPACE) as [->|Hne].
    + exists l, []. rewrite !app_nil_l. split; [done|]. split; [apply not_elem_of_nil|done].
    + destruct saved as [[after out_s]|].
      * destruct Hsv as (l1 & l2 & -> & H2 & -> & ->). exists l1, (l2 ++ [c]). rewrite <- !app_assoc.
        split; [done|]. split; [|done]. rewrite elem_of_app, list_elem_of_singleton. naive_solver.
      * rewrite elem_of_app, list_elem_of_singleton. naive_solver.
  - destruct Hc as [Hc|Hc].
    + left. rewrite zlen_app. change (zlen [c]) with 1. lia.
    + right. destruct (Z.eqb_spec c SPACE) as [->|Hne]; [done|]. subst saved.
      rewrite elem_of_app, list_elem_of_singleton. naive_solver.
Qed.

(** The bytes the current character, or the newline and indentation, touch. *)
Lemma wrap_touched rest l o0 saved w k :
  wrap_inv rest o0 l saved w k -> zlen (o0 ++ l) + 1 <= hi_bound.
Proof.
  intros [_ _ Hw Ho Hs _]. pose proof (least_start_wraps w Hw ltac:(rewrite ?zlen_app in *; unfold zlen in *; lia)).
  pose proof (zlen_nonneg indent). pose proof (zlen_nonneg rest). unfold hi_bound.
  rewrite zlen_app in *. nia.
Qed.

Lemma wrap_loop_spec fuel : forall rest o0 l saved w k hi,
  wrap_inv rest o0 l saved w k -> hi <= hi_bound ->
  (length rest + length (l ++ rest) * length (l ++ rest) < fuel)%nat ->
  exists o hi', wrap_loop fuel wraplen indent rest (o0 ++ l) saved (zlen l) hi = Some (o0 ++ o, hi') /\
    wrapped wraplen indent (l ++ rest) o /\ hi' <= hi_bound /\ zlen (o0 ++ o) + 1 <= hi'.
Proof.
  induction fuel as [|fuel IH]; intros rest o0 l saved w k hi Hinv Hhi Hfuel; [lia|].
  pose proof (wrap_touched _ _ _ _ _ _ Hinv) as Ht.
  destruct rest as [|c rest]; cbn [wrap_loop].
  { exists l, (Z.max hi (zlen (o0 ++ l) + 1)). rewrite app_nil_r. split; [done|]. split; [|lia].
    apply wrapped_last, (wi_line _ _ _ _ _ _ Hinv). }
  set (saved' := if c =? SPACE then Some (rest, o0 ++ l) else saved).
  assert (zlen l < wraplen \/ saved' = None -> exists o hi',
    wrap_loop fuel wraplen indent rest ((o0 ++ l) ++ [c]) saved' (zlen l + 1) (Z.max hi (zlen (o0 ++ l) + 1)) =
      Some (o0 ++ o, hi') /\
    wrapped wraplen indent (l ++ c :: rest) o /\ hi' <= hi_bound /\ zlen (o0 ++ o) + 1 <= hi') as Hcopy.
  { intros Hc. rewrite (cons_middle c l rest), app_assoc in *. rewrite <- (app_assoc o0).
    replace (zlen l + 1) with (zlen (l ++ [c])) by (rewrite zlen_app; done).
    eapply (IH rest o0 (l ++ [c])); [by eapply wrap_copy|lia|simpl in Hfuel; lia]. }
  destruct (Z.geb_spec (zlen l) wraplen) as [Hge|Hlt]; [|apply Hcopy; lia].
  destruct saved' as [[after out_s]|] eqn:Es; [|apply Hcopy; by right].
  assert (exists l1 l2 t, l ++ c :: rest = l1 ++ [SPACE] ++ l2 ++ t /\ SPACE ∉ l2 /\
    wraplen <= zlen l1 + 1 + zlen l2 /\ after = l2 ++ t /\ out_s = o0 ++ l1 /\ line_ok wraplen l1)
    as (l1 & l2 & t & E & Hl2 & Hlen & -> & -> & Hok).
  { subst saved'. pose proof (wi_line _ _ _ _ _ _ Hinv) as Hlo. destruct (Z.eqb_spec c SPACE) as [->|Hne].
    - injection Es as <- <-. exists l, [], rest. split; [done|]. split; [apply not_elem_of_nil|].
      unfold zlen in *; simpl; split; [lia|done].
    - pose proof (wi_saved _ _ _ _ _ _ Hinv) as Hs. rewrite Es in Hs. destruct Hs as (l1 & l2 & -> & H2 & -> & ->).
      exists l1, l2, (c :: rest). rewrite <- !app_assoc. split; [done|]. split; [done|].
      rewrite !zlen_app in Hge. change (zlen [SPACE]) with 1 in Hge. split; [lia|]. split; [done|]. split; [done|].
      destruct Hlo as [Hlo|Hlo]; [left; rewrite zlen_app in Hlo; unfold zlen in *; lia|].
      exfalso. apply Hlo. rewrite !elem_of_app, list_elem_of_singleton. auto. }
  pose proof (wrap_break _ _ _ _ _ _ _ _ _ Hinv E Hl2 Hlen) as Hinv'.
  pose proof (wrap_touched _ _ _ _ _ _ Hinv') as Ht'. rewrite app_nil_r in Ht'.
  edestruct (IH (l2 ++ t) (o0 ++ l1 ++ [NEWLINE] ++ indent) []) as (o & hi' & Er & Hw & Hb & Hb').
  - exact Hinv'.
  - apply (Z.max_lub hi); [exact Hhi|exact Ht'].
  - rewrite E in Hfuel. rewrite app_nil_l. rewrite !length_app in *. simpl in *. nia.
  - rewrite app_nil_r in Er. change (zlen (@nil Z)) with 0 in Er.
    exists (l1 ++ [NEWLINE] ++ indent ++ o), hi'. rewrite E.
    rewrite <- (app_assoc o0 l1). rewrite Er. rewrite <- !app_assoc in *. split; [done|]. split; [|split; [done|exact Hb']].
    by apply wrapped_line.
Qed.
End wrap.

Lemma wrap_init str wraplen indent : 1 <= wraplen -> wrap_inv (zlen str) wraplen indent str [] [] None 0 0.
Proof.
  intros Hwl. pose proof (zlen_nonneg str).
  assert (least_start wraplen 0 = 0 /\ least_start wraplen (0 + 1) = 1) as [E0 E1] by done.
  split; simpl.
  - apply not_elem_of_nil.
  - left. unfold zlen; simpl; lia.
  - lia.
  - unfold zlen; simpl; lia.
  - rewrite E0. lia.
  - rewrite E1. split; [lia|]. split; [apply not_elem_of_nil|lia].
Qed.

(** C40: wrapping terminates, the result is the string with some of its spaces replaced by a
    newline and the indentation so that every line fits in [wraplen] columns or has no
    space to break at, and with an indentation the buffer the code allocates holds the
    result with its NUL and every byte written on the way. *)
Theorem wrap_correct (str : list Z) (wraplen : Z) (indent : list Z) :
  1 <= wraplen -> indent <> [] ->
  exists out hi, shmem_util_wrap str wraplen (Some indent) = Some (out, hi) /\
    wrapped wraplen indent str out /\ zlen out + 1 <= hi <= wrap_alloc str wraplen (zlen indent).
Proof.
  intros Hwl Hi. unfold shmem_util_wrap.
  destruct (wrap_loop_spec (zlen str) wraplen indent Hwl (wrap_fuel str) str [] [] None 0 0 0) as (o & hi & E & Hw & Hb & Hb').
  - by apply wrap_init.
  - unfold hi_bound, zlen. pose proof (Z.div_pos (Z.of_nat (length str)) wraplen). nia.
  - unfold wrap_fuel. simpl. lia.
  - exists o, hi. simpl in *. split; [exact E|]. split; [done|]. split; [done|].
    assert (1 <= zlen indent) by (destruct indent; [done|unfold zlen; simpl; lia]).
    unfold hi_bound in Hb. unfold wrap_alloc. pose proof (Z.div_pos (zlen str) wraplen ltac:(unfold zlen; lia)). nia.
Qed.

Lemma wrap_correct_witness :
  let str := [97; 98; 32; 99; 32; 100] in
  shmem_util_wrap str 3 (Some [46]) = Some ([97; 98; 10; 46; 99; 32; 100], 8) /\
  exists out hi, shmem_util_wrap str 3 (Some [46]) = Some (out, hi) /\
    wrapped 3 [46] str out /\ zlen out + 1 <= hi <= wrap_alloc str 3 1.
Proof. split; [reflexivity|]. apply (wrap_correct [97; 98; 32; 99; 32; 100] 3 [46]); [lia|discriminate]. Defined.

(** Without indentation the buffer is one byte short for every string: the terminating
    NUL is always written past its end. *)
Lemma wrap_overflow (str : list Z) (wraplen : Z) : 1 <= wraplen ->
  exists out hi, shmem_util_wrap str wraplen None = Some (out, hi) /\
    hi = wrap_alloc str wraplen 0 + 1.
Proof.
  intros Hwl. unfold shmem_util_wrap.
  destruct (wrap_loop_spec (zlen str) wraplen [] Hwl (wrap_fuel str) str [] [] None 0 0 0) as (o & hi & E & Hw & Hb & Hb').
  - by apply wrap_init.
  - unfold hi_bound, zlen. simpl. lia.
  - unfold wrap_fuel. simpl. lia.
  - exists o, hi. simpl in *. split; [exact E|]. unfold hi_bound, wrap_alloc in *. change (zlen (@nil Z)) with 0 in *.
    assert (zlen o = zlen str); [|lia]. clear -Hw. induction Hw as [|l s o Hl Hw IH]; [done|].
    rewrite !zlen_app, IH. done.
Qed.

Lemma wrap_overflow_witness : exists out hi, shmem_util_wrap [97; 32; 98] 80 None = Some (out, hi) /\ hi = 4.
Proof. exact (wrap_overflow [97; 32; 98] 80 ltac:(lia)). Defined.
