(* ===== verification/FreeList.v ===== *)
(** * Free lists ([shmem_free_list.c], [shmem_free_list.h])

    The list of fixed-size items the transports take their bounce buffers and
    fragments from.  Items are linked through their first word, inside the blocks
    [malloc] answered; the blocks are linked through their headers.  Memory is a heap
    of blocks: an access outside an allocated block, and a [free] of anything but a
    block, is an error ([None]), so a result is a proof of memory safety.  The answers
    of [malloc] are arguments; the item initializer is a parameter. *)

From stdpp Require Import gmap.
From S2P Require Import Prelude.
Local Open Scope Z_scope.

(** ** The heap *)

(** The words of the allocated blocks by address, and the blocks with their sizes. *)
Record heap := Heap { cells : gmap Z Z; blocks : gmap Z Z }.

Definition NULL : Z := 0.
Definition SIZEOF_PTR : Z := 8.

Definition load_word (a : Z) (h : heap) : option Z := cells h !! a.
Definition store_word (a v : Z) (h : heap) : option heap :=
  match cells h !! a with
  | Some _ => Some (Heap (<[a := v]> (cells h)) (blocks h))
  | None => None
  end.

Definition fill_block (buf size : Z) (c : gmap Z Z) : gmap Z Z :=
  foldr (fun a c => <[a := 0]> c) c (upto buf (buf + size)).
Definition clear_block (buf size : Z) (c : gmap Z Z) : gmap Z Z :=
  foldr (fun a c => delete a c) c (upto buf (buf + size)).

(** [malloc(size)] answering [buf], and [free(buf)]. *)
Definition heap_malloc (buf size : Z) (h : heap) : heap :=
  Heap (fill_block buf size (cells h)) (<[buf := size]> (blocks h)).
Definition heap_free (buf : Z) (h : heap) : option heap :=
  match blocks h !! buf with
  | Some size => Some (Heap (clear_block buf size (cells h)) (delete buf (blocks h)))
  | None => None
  end.

(** ** The code *)

Record shmem_free_list_t := FreeList { element_size : Z; nalloc : Z; allocs : Z; head : Z }.

Section free_list.
Context (init_fn : Z -> heap -> heap).

(** The loop over the new items: initialize each and link it to the next one; the
    address of the last item comes with the heap. *)
Fixpoint item_loop (n : nat) (es num_elements i item last : Z) (h : heap) : option (Z * heap) :=
  match n with
  | O => Some (last, h)
  | S n =>
      let h := init_fn item h in
      let next := item + es in
      if i =? num_elements - 1 then
        match store_word item NULL h with
        | Some h => item_loop n es num_elements (i + 1) next item h
        | None => None
        end
      else
        match store_word item next h with
        | Some h => item_loop n es num_elements (i + 1) next last h
        | None => None
        end
  end.

(** The number computed from the page size is overwritten with 2. *)
Definition NUM_ELEMENTS : Z := 2.

(** The product is of 32-bit unsigned numbers. *)
Definition more_size (fl : shmem_free_list_t) : Z := SIZEOF_PTR + wrap_u 32 (NUM_ELEMENTS * element_size fl).

(** Answers 0, or 1 when [malloc] fails.  The overwritten number of elements is a
    quotient by the element size, which traps on 0. *)
Definition shmem_free_list_more (fl : shmem_free_list_t) (buf : option Z) (h : heap) :
    option (Z * shmem_free_list_t * heap) :=
  if element_size fl =? 0 then None else
  match buf with
  | None => Some (1, fl, h)
  | Some header =>
      let h := heap_malloc header (more_size fl) h in
      let first := header + SIZEOF_PTR in
      match item_loop (Z.to_nat NUM_ELEMENTS) (element_size fl) NUM_ELEMENTS 0 first NULL h with
      | None => None
      | Some (last, h) =>
          match store_word header (allocs fl) h with
          | None => None
          | Some h =>
              match (if negb (last =? NULL) then store_word last (head fl) h else Some h) with
              | None => None
              | Some h => Some (0, FreeList (element_size fl) (nalloc fl) header first, h)
              end
          end
      end
  end.

(** The list object itself, 40 bytes without the lock of ENABLE_THREADS.  It is a block
    of the heap; its fields are the record. *)
Definition SIZEOF_FREE_LIST : Z := 40.

(** [obj] is what [calloc] answers for the list object; [None] inside is NULL.  The
    object is given back when the first items cannot be had. *)
Definition shmem_free_list_init (obj : option Z) (es : Z) (buf : option Z) (h : heap) :
    option (option shmem_free_list_t * heap) :=
  match obj with
  | None => Some (None, h)
  | Some obj =>
      let h := heap_malloc obj SIZEOF_FREE_LIST h in
      match shmem_free_list_more (FreeList es 0 NULL NULL) buf h with
      | None => None
      | Some (ret, fl, h) =>
          if negb (ret =? 0) then
            match heap_free obj h with
            | None => None
            | Some h => Some (None, h)
            end
          else Some (Some fl, h)
      end
  end.

(** The item taken, or NULL. *)
Definition shmem_free_list_alloc (fl : shmem_free_list_t) (buf : option Z) (h : heap) :
    option (Z * shmem_free_list_t * heap) :=
  match (if head fl =? NULL then shmem_free_list_more fl buf h else Some (0, fl, h)) with
  | None => None
  | Some (ret, fl, h) =>
      if negb (ret =? 0) then Some (NULL, fl, h)
      else
        match load_word (head fl) h with
        | None => None
        | Some next => Some (head fl, FreeList (element_size fl) ((nalloc fl + 1) mod 2 ^ 64) (allocs fl) next, h)
        end
  end.

Definition shmem_free_list_free (fl : shmem_free_list_t) (data : Z) (h : heap) : option (shmem_free_list_t * heap) :=
  match store_word data (head fl) h with
  | None => None
  | Some h => Some (FreeList (element_size fl) ((nalloc fl - 1) mod 2 ^ 64) (allocs fl) data, h)
  end.

(** [while (NULL != alloc)]: [fuel] bounds the number of blocks.  The list object is not
    given back, here or by any caller. *)
Fixpoint destroy_loop (fuel : nat) (alloc : Z) (h : heap) : option heap :=
  if alloc =? NULL then Some h
  else match fuel with
       | O => None
       | S fuel =>
           match load_word alloc h with
           | None => None
           | Some next => match heap_free alloc h with
                          | None => None
                          | Some h => destroy_loop fuel next h
                          end
           end
       end.
Definition shmem_free_list_destroy (fuel : nat) (fl : shmem_free_list_t) (h : heap) : option heap :=
  destroy_loop fuel (allocs fl) h.
End free_list.

(** ** Linked lists in the heap *)

Fixpoint chain (c : gmap Z Z) (p : Z) (l : list Z) : Prop :=
  match l with
  | [] => p = NULL
  | x :: l => p = x /\ x <> NULL /\ exists q, c !! x = Some q /\ chain c q l
  end.

Lemma chain_frame c c' p l : (forall x, x ∈ l -> c' !! x = c !! x) -> chain c p l -> chain c' p l.
Proof.
  revert p. induction l as [|x l IH]; intros p Hf; [done|]. intros (-> & Hx & q & Hq & Hc).
  split; [done|]. split; [done|]. exists q. rewrite Hf by apply list_elem_of_here. split; [done|].
  apply IH; [|done]. intros y Hy. apply Hf. by apply list_elem_of_further.
Qed.

Lemma chain_insert c p l x v : x ∉ l -> chain c p l -> chain (<[x := v]> c) p l.
Proof. intros Hx. apply chain_frame. intros y Hy. apply lookup_insert_ne. by intros ->. Qed.

Lemma lookup_fold_insert l (c : gmap Z Z) a :
  foldr (fun a c => <[a := 0]> c) c l !! a = if decide (a ∈ l) then Some 0 else c !! a.
Proof.
  induction l as [|b l IH]; [done|]. simpl. destruct (decide (b = a)) as [<-|Hne].
  - rewrite lookup_insert_eq. by rewrite decide_True by apply list_elem_of_here.
  - rewrite lookup_insert_ne, IH by done. apply decide_ext. rewrite elem_of_cons. naive_solver.
Qed.

Lemma lookup_fold_delete l (c : gmap Z Z) a :
  foldr (fun a c => delete a c) c l !! a = if decide (a ∈ l) then None else c !! a.
Proof.
  induction l as [|b l IH]; [done|]. simpl. destruct (decide (b = a)) as [<-|Hne].
  - rewrite lookup_delete_eq. by rewrite decide_True by apply list_elem_of_here.
  - rewrite lookup_delete_ne, IH by done. apply decide_ext. rewrite elem_of_cons. naive_solver.
Qed.

(** ** Well-formed heaps *)

(** Every byte of a block is a cell, and blocks do not overlap. *)
Record heap_wf (h : heap) : Prop := {
  hw_cells : forall b s a, blocks h !! b = Some s -> b <= a < b + s -> is_Some (cells h !! a);
  hw_pos : forall b s, blocks h !! b = Some s -> 0 < b;
  hw_disjoint : forall b s b' s', blocks h !! b = Some s -> blocks h !! b' = Some s' -> b <> b' ->
      b + s <= b' \/ b' + s' <= b }.

(** What the C library promises of an answer of [malloc]. *)
Record fresh (buf size : Z) (h : heap) : Prop := {
  fr_pos : 0 < buf;
  fr_new : blocks h !! buf = None;
  fr_disjoint : forall b s, blocks h !! b = Some s -> b + s <= buf \/ buf + size <= b }.

(** [h'] is [h] up to the contents of the cells of the range [[lo, hi)]. *)
Definition differ_within (lo hi : Z) (h h' : heap) : Prop :=
  blocks h' = blocks h /\
  forall a, (is_Some (cells h !! a) -> is_Some (cells h' !! a)) /\ (a < lo \/ hi <= a -> cells h' !! a = cells h !! a).

Lemma differ_trans lo hi h1 h2 h3 : differ_within lo hi h1 h2 -> differ_within lo hi h2 h3 -> differ_within lo hi h1 h3.
Proof.
  intros [Hb1 H1] [Hb2 H2]. split; [congruence|]. intros a. destruct (H1 a) as [S1 E1], (H2 a) as [S2 E2].
  split; [auto|]. intros Ha. rewrite E2, E1; auto.
Qed.

Lemma differ_weaken lo hi lo' hi' h h' : lo' <= lo -> hi <= hi' -> differ_within lo hi h h' -> differ_within lo' hi' h h'.
Proof. intros Hl Hh [Hb H]. split; [done|]. intros a. destruct (H a). split; [done|]. intros []; auto with lia. Qed.

Lemma store_word_ok a v h : is_Some (cells h !! a) ->
  exists h', store_word a v h = Some h' /\ differ_within a (a + 1) h h' /\ cells h' !! a = Some v.
Proof.
  intros [w Hw]. unfold store_word. rewrite Hw. eexists. split; [done|]. simpl. split; [|apply lookup_insert_eq].
  split; [done|]. intros b. simpl. destruct (decide (a = b)) as [<-|Hne].
  - rewrite lookup_insert_eq. split; [done|lia].
  - by rewrite lookup_insert_ne.
Qed.

Lemma differ_wf lo hi h h' : differ_within lo hi h h' -> heap_wf h -> heap_wf h'.
Proof.
  intros [Hb Hc] [H1 H2 H3]. split; rewrite Hb; try done. intros b s a Hs Ha. apply Hc. by eapply H1.
Qed.

Lemma malloc_wf buf size h : fresh buf size h -> heap_wf h -> heap_wf (heap_malloc buf size h).
Proof.
  intros [F1 F2 F3] [H1 H2 H3]. unfold heap_malloc. split; simpl.
  - intros b s a Hb Ha. unfold fill_block. rewrite lookup_fold_insert. case_decide as E; [done|].
    rewrite elem_of_upto in E. destruct (decide (b = buf)) as [->|Hne].
    + rewrite lookup_insert_eq in Hb. injection Hb as <-. lia.
    + rewrite lookup_insert_ne in Hb by done. by eapply H1.
  - intros b s. destruct (decide (b = buf)) as [->|Hne]; [done|]. rewrite lookup_insert_ne by done. apply H2.
  - intros b s b' s' Hb Hb' Hne. destruct (decide (b = buf)) as [->|Hb1], (decide (b' = buf)) as [->|Hb2];
      rewrite ?lookup_insert_eq in *; rewrite ?lookup_insert_ne in * by done; [done| | |by eapply H3].
    + injection Hb as <-. apply F3 in Hb'. lia.
    + injection Hb' as <-. apply F3 in Hb. lia.
Qed.

Lemma malloc_outside buf size h a : a < buf \/ buf + size <= a -> cells (heap_malloc buf size h) !! a = cells h !! a.
Proof.
  intros Ha. simpl. unfold fill_block. rewrite lookup_fold_insert. case_decide as E; [|done].
  rewrite elem_of_upto in E. lia.
Qed.

(** ** The invariant of a free list *)

Section proof.
(** An item has room for a link, and two of them have a size of 32 bits. *)
Context (init_fn : Z -> heap -> heap) (es : Z) (Hes : SIZEOF_PTR <= es /\ 2 * es < 2 ^ 32).
(** The initializer writes its item only. *)
Context (Hinit : forall item h, differ_within item (item + es) h (init_fn item h)).

Definition block_size : Z := SIZEOF_PTR + NUM_ELEMENTS * es.
Definition items_of (b : Z) : list Z := [b + SIZEOF_PTR; b + SIZEOF_PTR + es].

(** The items of the blocks [bs] are the free ones [fr], in list order, and the ones
    handed out, [lv]. *)
Record fl_inv (fl : shmem_free_list_t) (h : heap) (fr lv bs : list Z) : Prop := {
  fi_es : element_size fl = es;
  fi_wf : heap_wf h;
  fi_free : chain (cells h) (head fl) fr;
  fi_allocs : chain (cells h) (allocs fl) bs;
  fi_items : fr ++ lv ≡ₚ bs ≫= items_of;
  fi_nodup : NoDup (fr ++ lv);
  fi_blocks : NoDup bs /\ forall b, b ∈ bs -> blocks h !! b = Some block_size;
  fi_count : nalloc fl = Z.of_nat (length lv) mod 2 ^ 64 }.

(** Every item lies in one of the blocks, after its header. *)
Lemma item_in_block fl h fr lv bs x : fl_inv fl h fr lv bs -> x ∈ fr ++ lv ->
  exists b, b ∈ bs /\ b + SIZEOF_PTR <= x < b + block_size /\ blocks h !! b = Some block_size.
Proof.
  intros Hi Hx. rewrite (fi_items _ _ _ _ _ Hi) in Hx. apply list_elem_of_bind in Hx as (b & Hx & Hb).
  exists b. split; [done|]. split; [|by apply (fi_blocks _ _ _ _ _ Hi)].
  unfold items_of, block_size, NUM_ELEMENTS, SIZEOF_PTR in *. rewrite !elem_of_cons, elem_of_nil in Hx.
  destruct Hx as [->|[->|[]]]; lia.
Qed.

(** No item is a block header. *)
Lemma item_not_block fl h fr lv bs x : fl_inv fl h fr lv bs -> x ∈ fr ++ lv -> x ∉ bs.
Proof.
  intros Hi Hx Hb. destruct (item_in_block _ _ _ _ _ x Hi Hx) as (b & Hbb & Hr & Hs).
  apply (fi_blocks _ _ _ _ _ Hi) in Hb. unfold block_size, SIZEOF_PTR, NUM_ELEMENTS in *.
  destruct (hw_disjoint _ (fi_wf _ _ _ _ _ Hi) b _ x _ Hs Hb); lia.
Qed.

Lemma item_cell fl h fr lv bs x : fl_inv fl h fr lv bs -> x ∈ fr ++ lv -> is_Some (cells h !! x) /\ x <> NULL.
Proof.
  intros Hi Hx. destruct (item_in_block _ _ _ _ _ x Hi Hx) as (b & _ & Hr & Hs).
  pose proof (hw_pos _ (fi_wf _ _ _ _ _ Hi) _ _ Hs). unfold SIZEOF_PTR, NULL in *.
  split; [|lia]. eapply (hw_cells _ (fi_wf _ _ _ _ _ Hi)); [done|lia].
Qed.

(** [item_loop] on a new block: its two items linked, the rest of the heap untouched. *)
Lemma item_loop_block buf h : heap_wf h -> blocks h !! buf = Some block_size ->
  exists h', item_loop init_fn 2 es NUM_ELEMENTS 0 (buf + SIZEOF_PTR) NULL h = Some (buf + SIZEOF_PTR + es, h') /\
    differ_within (buf + SIZEOF_PTR) (buf + block_size) h h' /\
    cells h' !! (buf + SIZEOF_PTR) = Some (buf + SIZEOF_PTR + es).
Proof.
  intros Hwf Hb. unfold block_size, NUM_ELEMENTS in *. set (first := buf + SIZEOF_PTR). cbn [item_loop].
  change (0 =? 2 - 1) with false. change (0 + 1 =? 2 - 1) with true. cbv iota.
  assert (forall a, first <= a < first + 2 * es -> is_Some (cells h !! a)) as Hcells.
  { intros a Ha. apply (hw_cells _ Hwf _ _ _ Hb). unfold SIZEOF_PTR in *. lia. }
  unfold SIZEOF_PTR in *. pose proof (Hinit first h) as D1.
  destruct (store_word_ok first (first + es) (init_fn first h)) as (h2 & -> & D2 & E2); [apply D1, Hcells; lia|].
  pose proof (Hinit (first + es) h2) as D3.
  destruct (store_word_ok (first + es) NULL (init_fn (first + es) h2)) as (h4 & -> & D4 & E4).
  { apply D3, D2, D1, Hcells. lia. }
  exists h4. split; [done|]. split.
  - eapply (differ_weaken first (buf + (8 + 2 * es))); [done..|].
    eapply differ_trans; [eapply differ_weaken; [..|exact D1]; unfold first; lia|].
    eapply differ_trans; [eapply differ_weaken; [..|exact D2]; unfold first; lia|].
    eapply differ_trans; [eapply differ_weaken; [..|exact D3]|eapply differ_weaken; [..|exact D4]]; unfold first; lia.
  - destruct D4 as [_ D4], D3 as [_ D3]. rewrite (proj2 (D4 first)), (proj2 (D3 first)) by lia. done.
Qed.
(** Outside a set of addresses nothing changed, so the other chains are as they were. *)
Lemma chain_differ lo hi h h' p l : differ_within lo hi h h' -> (forall x, x ∈ l -> x < lo \/ hi <= x) ->
  chain (cells h) p l -> chain (cells h') p l.
Proof. intros [_ H] Hl. apply chain_frame. intros x Hx. apply H, Hl, Hx. Qed.

Lemma more_eq fl buf h : element_size fl = es ->
  shmem_free_list_more init_fn fl (Some buf) h =
  match item_loop init_fn 2 es NUM_ELEMENTS 0 (buf + SIZEOF_PTR) NULL (heap_malloc buf block_size h) with
  | None => None
  | Some (last, h) =>
      match store_word buf (allocs fl) h with
      | None => None
      | Some h =>
          match (if negb (last =? NULL) then store_word last (head fl) h else Some h) with
          | None => None
          | Some h => Some (0, FreeList es (nalloc fl) buf (buf + SIZEOF_PTR), h)
          end
      end
  end.
Proof.
  intros E. unfold shmem_free_list_more, more_size. rewrite E, (proj2 (Z.eqb_neq es 0)) by (unfold SIZEOF_PTR in *; lia).
  rewrite (wrap_u_id 32 (NUM_ELEMENTS * es)) by (unfold NUM_ELEMENTS, SIZEOF_PTR in *; lia). done.
Qed.

(** A new block: its items come first in the free list. *)
Lemma more_ok fl h fr lv bs buf : fl_inv fl h fr lv bs -> fresh buf block_size h ->
  exists fl' h', shmem_free_list_more init_fn fl (Some buf) h = Some (0, fl', h') /\
    fl_inv fl' h' (items_of buf ++ fr) lv (buf :: bs) /\ blocks h' = <[buf := block_size]> (blocks h).
Proof.
  intros Hi Hf. pose proof Hi as [He Hwf Hfree Hall Hit Hnd [Hbn Hbs] Hc].
  rewrite more_eq by done. set (h0 := heap_malloc buf block_size h).
  pose proof (malloc_wf _ _ _ Hf Hwf : heap_wf h0) as Hwf0.
  assert (blocks h0 !! buf = Some block_size) as Hb0 by apply lookup_insert_eq.
  destruct (item_loop_block buf h0 Hwf0 Hb0) as (h1 & -> & D1 & E1).
  assert (forall a, buf <= a < buf + block_size -> is_Some (cells h1 !! a)) as Hc1
    by (intros a Ha; apply D1, (hw_cells _ Hwf0 _ _ _ Hb0 Ha)).
  unfold block_size, SIZEOF_PTR, NUM_ELEMENTS, NULL in *.
  destruct (store_word_ok buf (allocs fl) h1) as (h2 & -> & D2 & E2); [apply Hc1; lia|].
  rewrite (proj2 (Z.eqb_neq (buf + 8 + es) 0)) by (pose proof (fr_pos _ _ _ Hf); lia). cbn [negb].
  destruct (store_word_ok (buf + 8 + es) (head fl) h2) as (h3 & -> & D3 & E3); [apply D2, Hc1; lia|].
  assert (differ_within buf (buf + (8 + 2 * es)) h0 h3) as D.
  { eapply differ_trans; [eapply differ_weaken; [..|exact D1]; lia|].
    eapply differ_trans; eapply differ_weaken; [..|exact D2| | |exact D3]; lia. }
  assert (forall x, x ∈ bs \/ x ∈ fr ++ lv -> (x < buf \/ buf + (8 + 2 * es) <= x)) as Hout.
  { intros x [Hx|Hx].
    - apply Hbs in Hx. pose proof (fr_disjoint _ _ _ Hf _ _ Hx). lia.
    - destruct (item_in_block _ _ _ _ _ x Hi Hx) as (b & _ & Hr & Hs). unfold block_size, NUM_ELEMENTS, SIZEOF_PTR in *.
      pose proof (fr_disjoint _ _ _ Hf _ _ Hs). lia. }
  assert (forall l p, (forall x, x ∈ l -> x ∈ bs \/ x ∈ fr ++ lv) -> chain (cells h) p l -> chain (cells h3) p l) as Hchain.
  { intros l p Hl H. eapply chain_differ; [exact D|auto|]. eapply chain_frame; [|exact H].
    intros x Hx. apply malloc_outside. apply Hout; auto. }
  assert (cells h3 !! (buf + 8) = Some (buf + 8 + es)) as E1'
    by (rewrite (proj2 (proj2 D3 _)), (proj2 (proj2 D2 _)) by lia; done).
  assert (cells h3 !! buf = Some (allocs fl)) as E2' by (rewrite (proj2 (proj2 D3 _)) by lia; done).
  eexists _, _. split; [reflexivity|]. split; [|exact (proj1 D)]. split; simpl.
  - done.
  - by eapply differ_wf.
  - pose proof (fr_pos _ _ _ Hf). unfold NULL, SIZEOF_PTR. split; [done|]. split; [lia|]. eexists. split; [exact E1'|].
    split; [done|]. split; [lia|]. eexists. split; [exact E3|]. apply Hchain; [|done].
    intros x Hx. right. apply elem_of_app. by left.
  - split; [done|]. pose proof (fr_pos _ _ _ Hf). split; [unfold NULL; lia|]. eexists. split; [exact E2'|].
    apply Hchain; [auto|done].
  - by rewrite <- Hit.
  - assert (forall x, x ∈ items_of buf -> x ∉ fr ++ lv) as Hni.
    { intros x Hx Hin. specialize (Hout x (or_intror Hin)). unfold items_of, SIZEOF_PTR in Hx.
      rewrite !elem_of_cons, elem_of_nil in Hx. lia. }
    unfold items_of, SIZEOF_PTR in *. apply list.NoDup_cons. split; [|apply list.NoDup_cons; split; [|done]].
    + rewrite elem_of_cons. intros [?|Hin]; [lia|]. eapply Hni; [|exact Hin]. apply list_elem_of_here.
    + apply Hni. apply list_elem_of_further, list_elem_of_here.
  - split.
    + apply list.NoDup_cons. split; [|done]. intros Hin. apply Hbs in Hin. by rewrite (fr_new _ _ _ Hf) in Hin.
    + rewrite (proj1 D). intros b [->|Hb]%elem_of_cons; [done|]. simpl.
      rewrite lookup_insert_ne; [auto|]. intros ->. apply Hbs in Hb. by rewrite (fr_new _ _ _ Hf) in Hb.
  - done.
Qed.
(** Taking the first free item. *)
Lemma take_ok fl h x fr lv bs : fl_inv fl h (x :: fr) lv bs ->
  exists next, load_word (head fl) h = Some next /\ head fl = x /\ x <> NULL /\
    fl_inv (FreeList (element_size fl) ((nalloc fl + 1) mod 2 ^ 64) (allocs fl) next) h fr (x :: lv) bs.
Proof.
  intros [He Hwf (Ep & Hx & q & Hq & Hfree) Hall Hit Hnd Hb Hc].
  exists q. rewrite Ep. split; [done|]. split; [done|]. split; [done|].
  assert (fr ++ x :: lv ≡ₚ (x :: fr) ++ lv) as Hperm by (by rewrite <- Permutation_middle).
  split; simpl; try done; [by rewrite Hperm|by rewrite Hperm|].
  rewrite Hc, Zplus_mod_idemp_l. f_equal. lia.
Qed.

Lemma alloc_ok fl h fr lv bs buf : fl_inv fl h fr lv bs ->
  (forall b, buf = Some b -> fresh b block_size h) ->
  exists x fl' h', shmem_free_list_alloc init_fn fl buf h = Some (x, fl', h') /\
    ((x = NULL /\ fr = [] /\ buf = None /\ fl' = fl /\ h' = h) \/
     (x <> NULL /\ x ∉ lv /\ exists fr' bs', fl_inv fl' h' fr' (x :: lv) bs' /\
        (forall b, b ∈ bs -> b ∈ bs') /\
        (forall b, b ∈ bs' -> b ∈ bs \/ blocks h !! b = None) /\
        forall b, b ∉ bs' -> blocks h' !! b = blocks h !! b)).
Proof.
  intros Hi Hf. unfold shmem_free_list_alloc. destruct fr as [|x fr].
  - rewrite (fi_free _ _ _ _ _ Hi : head fl = NULL), Z.eqb_refl. destruct buf as [buf|].
    + destruct (more_ok _ _ _ _ _ _ Hi (Hf _ eq_refl)) as (fl1 & h1 & -> & Hi1 & Eb). cbn [Z.eqb negb].
      destruct (take_ok _ _ _ _ _ _ Hi1) as (next & -> & Eh & Hx & Hi2). rewrite Eh.
      eexists _, _, _. split; [done|]. right. split; [done|]. split.
      * pose proof (fi_nodup _ _ _ _ _ Hi2) as Hnd. apply list.NoDup_app in Hnd as (_ & _ & Hnd).
        by apply list.NoDup_cons in Hnd as [? _].
      * eexists _, (buf :: bs). split; [exact Hi2|]. split; [intros; by apply list_elem_of_further|].
        pose proof (fr_new _ _ _ (Hf _ eq_refl)) as Hnew. split.
        -- intros b [->|]%elem_of_cons; auto.
        -- intros b Hb. rewrite not_elem_of_cons in Hb. rewrite Eb. apply lookup_insert_ne. naive_solver.
    + unfold shmem_free_list_more. rewrite (fi_es _ _ _ _ _ Hi), (proj2 (Z.eqb_neq es 0)) by (unfold SIZEOF_PTR in *; lia).
      eexists _, _, _. split; [done|]. by left.
  - destruct (take_ok _ _ _ _ _ _ Hi) as (next & El & Eh & Hx & Hi2).
    rewrite Eh, (proj2 (Z.eqb_neq x NULL)) by done. cbn [Z.eqb negb]. rewrite El, Eh.
    eexists _, _, _. split; [done|]. right. split; [done|]. split.
    + pose proof (fi_nodup _ _ _ _ _ Hi2) as Hnd. apply list.NoDup_app in Hnd as (_ & _ & Hnd).
      by apply list.NoDup_cons in Hnd as [? _].
    + eexists _, bs. split; [exact Hi2|]. naive_solver.
Qed.

Lemma free_ok fl h fr lv bs x lv' : fl_inv fl h fr lv bs -> lv ≡ₚ x :: lv' ->
  exists fl' h', shmem_free_list_free fl x h = Some (fl', h') /\ fl_inv fl' h' (x :: fr) lv' bs /\ blocks h' = blocks h.
Proof.
  intros Hi Hlv. pose proof Hi as [He Hwf Hfree Hall Hit Hnd Hb Hc].
  assert (x ∈ fr ++ lv) as Hx by (rewrite Hlv, elem_of_app, elem_of_cons; auto).
  destruct (item_cell _ _ _ _ _ x Hi Hx) as [Hcell Hne].
  unfold shmem_free_list_free. destruct (store_word_ok x (head fl) h Hcell) as (h' & -> & D & E).
  assert (x :: fr ++ lv' ≡ₚ fr ++ lv) as Hperm by (by rewrite Hlv, <- Permutation_middle).
  assert (x ∉ fr) as Hxf.
  { intros Hin. rewrite <- Hperm in Hnd. apply list.NoDup_cons in Hnd as [Hnx _]. apply Hnx, elem_of_app. by left. }
  eexists _, _. split; [done|]. split; [|exact (proj1 D)]. split; simpl.
  - done.
  - by eapply differ_wf.
  - split; [done|]. split; [done|]. eexists. split; [exact E|]. eapply chain_differ; [exact D| |done].
    intros y Hy. destruct (decide (y = x)) as [->|]; [done|lia].
  - eapply chain_differ; [exact D| |done]. intros y Hy.
    assert (y <> x) by (intros ->; by apply (item_not_block _ _ _ _ _ _ Hi Hx)). lia.
  - by rewrite Hperm.
  - by rewrite Hperm.
  - by rewrite (proj1 D).
  - rewrite Hc. apply Permutation_length in Hlv. rewrite Hlv. simpl length. rewrite Zminus_mod_idemp_l. f_equal. lia.
Qed.

(** ** The contents of the items

    A client writes into the items it holds, past their first word, and the initializer
    puts a tag there; neither meets the links of the list. *)

(** Distinct items do not overlap. *)
Lemma item_apart fl h fr lv bs x y : fl_inv fl h fr lv bs -> x ∈ fr ++ lv -> y ∈ fr ++ lv -> x <> y ->
  x + es <= y \/ y + es <= x.
Proof.
  intros Hi Hx Hy Hne. rewrite (fi_items _ _ _ _ _ Hi) in Hx, Hy.
  apply list_elem_of_bind in Hx as (b & Hx & Hb), Hy as (c & Hy & Hc).
  apply (fi_blocks _ _ _ _ _ Hi) in Hb, Hc. unfold items_of in Hx, Hy. rewrite !elem_of_cons, elem_of_nil in Hx, Hy.
  destruct (decide (b = c)) as [<-|Hbc]; [lia|].
  pose proof (hw_disjoint _ (fi_wf _ _ _ _ _ Hi) _ _ _ _ Hb Hc Hbc). unfold block_size, NUM_ELEMENTS, SIZEOF_PTR in *. lia.
Qed.

(** Nor do items and headers. *)
Lemma item_header_apart fl h fr lv bs x b : fl_inv fl h fr lv bs -> x ∈ fr ++ lv -> b ∈ bs ->
  b + SIZEOF_PTR <= x \/ x + es <= b.
Proof.
  intros Hi Hx Hb. rewrite (fi_items _ _ _ _ _ Hi) in Hx. apply list_elem_of_bind in Hx as (c & Hx & Hc).
  apply (fi_blocks _ _ _ _ _ Hi) in Hb, Hc. unfold items_of in Hx. rewrite !elem_of_cons, elem_of_nil in Hx.
  destruct (decide (b = c)) as [<-|Hbc]; [unfold SIZEOF_PTR in *; lia|].
  pose proof (hw_disjoint _ (fi_wf _ _ _ _ _ Hi) _ _ _ _ Hb Hc Hbc). unfold block_size, NUM_ELEMENTS, SIZEOF_PTR in *. lia.
Qed.

Lemma item_within fl h fr lv bs x : fl_inv fl h fr lv bs -> x ∈ fr ++ lv ->
  exists b, b ∈ bs /\ b + SIZEOF_PTR <= x /\ x + es <= b + block_size /\ blocks h !! b = Some block_size.
Proof.
  intros Hi Hx. rewrite (fi_items _ _ _ _ _ Hi) in Hx. apply list_elem_of_bind in Hx as (b & Hx & Hb). exists b. split; [done|].
  apply (fi_blocks _ _ _ _ _ Hi) in Hb. unfold items_of in Hx. rewrite !elem_of_cons, elem_of_nil in Hx.
  unfold block_size, NUM_ELEMENTS, SIZEOF_PTR in *. destruct Hx as [->|[->|[]]]; (split; [lia|]); (split; [lia|done]).
Qed.

(** Writing into an item that is held, past its first word. *)
Lemma write_item_ok fl h h' fr lv bs x : fl_inv fl h fr lv bs -> x ∈ lv -> differ_within (x + 1) (x + es) h h' ->
  fl_inv fl h' fr lv bs.
Proof.
  intros Hi Hx D. pose proof Hi as [He Hwf Hfree Hall Hit Hnd Hb Hc].
  assert (x ∈ fr ++ lv) as Hx' by (apply elem_of_app; by right).
  assert (forall y, y ∈ fr ++ lv -> y < x + 1 \/ x + es <= y) as Hitem.
  { intros y Hy. destruct (decide (y = x)) as [->|Hne]; [lia|].
    destruct (item_apart _ _ _ _ _ x y Hi Hx' Hy); unfold SIZEOF_PTR in *; lia. }
  split; try done; [by eapply differ_wf| | |by rewrite (proj1 D)].
  - eapply chain_differ; [exact D| |done]. intros y Hy. apply Hitem. apply elem_of_app. by left.
  - eapply chain_differ; [exact D| |done]. intros b Hbb. destruct (item_header_apart _ _ _ _ _ x b Hi Hx' Hbb); unfold SIZEOF_PTR in *; lia.
Qed.

(** The tag of the items. *)
Section tag.
Context (off tag : Z) (Hoff : SIZEOF_PTR <= off < es).
Context (Htag : forall item h, is_Some (cells h !! (item + off)) -> cells (init_fn item h) !! (item + off) = Some tag).
Definition tagged (h : heap) (l : list Z) : Prop := forall x, x ∈ l -> cells h !! (x + off) = Some tag.

Lemma item_loop_tags buf h h' last : heap_wf h -> blocks h !! buf = Some block_size ->
  item_loop init_fn 2 es NUM_ELEMENTS 0 (buf + SIZEOF_PTR) NULL h = Some (last, h') -> tagged h' (items_of buf).
Proof.
  intros Hwf Hb. unfold block_size, NUM_ELEMENTS, SIZEOF_PTR in *. set (first := buf + 8). cbn [item_loop].
  change (0 =? 2 - 1) with false. change (0 + 1 =? 2 - 1) with true. cbv iota.
  assert (forall a, first <= a < first + 2 * es -> is_Some (cells h !! a)) as Hcells.
  { intros a Ha. apply (hw_cells _ Hwf _ _ _ Hb). lia. }
  pose proof (Hinit first h) as D1.
  destruct (store_word_ok first (first + es) (init_fn first h)) as (h2 & -> & D2 & _); [apply D1, Hcells; lia|].
  pose proof (Hinit (first + es) h2) as D3.
  destruct (store_word_ok (first + es) NULL (init_fn (first + es) h2)) as (h4 & -> & D4 & _).
  { apply D3, D2, D1, Hcells. lia. }
  intros [= _ <-] x Hx. unfold items_of, SIZEOF_PTR in *. rewrite !elem_of_cons, elem_of_nil in Hx.
  fold first in Hx. destruct Hx as [->|[->|[]]].
  - rewrite (proj2 (proj2 D4 _)), (proj2 (proj2 D3 _)), (proj2 (proj2 D2 _)) by lia.
    apply Htag, Hcells. lia.
  - rewrite (proj2 (proj2 D4 _)) by lia. apply Htag. apply D2, D1, Hcells. lia.
Qed.

(** What a new block changes: nothing outside it, and its items are tagged. *)
Lemma more_cells fl h fr lv bs buf rc fl' h' : fl_inv fl h fr lv bs -> fresh buf block_size h ->
  shmem_free_list_more init_fn fl (Some buf) h = Some (rc, fl', h') ->
  (forall a, a < buf \/ buf + block_size <= a -> cells h' !! a = cells h !! a) /\ tagged h' (items_of buf).
Proof.
  intros Hi Hf. pose proof Hi as [He Hwf _ _ _ _ _ _].
  rewrite more_eq by done.
  set (h0 := heap_malloc buf block_size h). pose proof (malloc_wf _ _ _ Hf Hwf : heap_wf h0) as Hwf0.
  assert (blocks h0 !! buf = Some block_size) as Hb0 by apply lookup_insert_eq.
  destruct (item_loop_block buf h0 Hwf0 Hb0) as (h1 & E1 & D1 & _).
  pose proof (item_loop_tags _ _ _ _ Hwf0 Hb0 E1) as Ht. rewrite E1.
  assert (forall a, buf <= a < buf + block_size -> is_Some (cells h1 !! a)) as Hc1
    by (intros a Ha; apply D1, (hw_cells _ Hwf0 _ _ _ Hb0 Ha)).
  unfold block_size, SIZEOF_PTR, NUM_ELEMENTS, NULL in *.
  destruct (store_word_ok buf (allocs fl) h1) as (h2 & -> & D2 & _); [apply Hc1; lia|].
  rewrite (proj2 (Z.eqb_neq (buf + 8 + es) 0)) by (pose proof (fr_pos _ _ _ Hf); lia). cbn [negb].
  destruct (store_word_ok (buf + 8 + es) (head fl) h2) as (h3 & -> & D3 & _); [apply D2, Hc1; lia|].
  intros [= _ _ <-]. split.
  - intros a Ha. rewrite (proj2 (proj2 D3 a)), (proj2 (proj2 D2 a)), (proj2 (proj2 D1 a)) by lia. by apply malloc_outside.
  - intros x Hx. pose proof (Ht x Hx) as Hx'. unfold items_of in Hx. rewrite !elem_of_cons, elem_of_nil in Hx. unfold SIZEOF_PTR in *.
    rewrite (proj2 (proj2 D3 _)), (proj2 (proj2 D2 _)) by lia. done.
Qed.
(** Taking an item when [malloc] answers: the items are tagged, and the blocks that were
    there keep their contents. *)
Lemma alloc_tagged fl h fr lv bs buf : fl_inv fl h fr lv bs -> fresh buf block_size h -> tagged h (fr ++ lv) ->
  exists x fl' h' fr' bs', shmem_free_list_alloc init_fn fl (Some buf) h = Some (x, fl', h') /\ x <> NULL /\
    fl_inv fl' h' fr' (x :: lv) bs' /\ tagged h' (fr' ++ x :: lv) /\
    (forall b s, blocks h !! b = Some s -> blocks h' !! b = Some s /\
       forall a, b <= a < b + s -> cells h' !! a = cells h !! a) /\
    (forall b, b ∈ bs' -> b ∈ bs \/ blocks h !! b = None).
Proof.
  intros Hi Hf Ht. unfold shmem_free_list_alloc. destruct fr as [|x fr].
  - rewrite (fi_free _ _ _ _ _ Hi : head fl = NULL), Z.eqb_refl.
    destruct (more_ok _ _ _ _ _ _ Hi Hf) as (fl1 & h1 & E & Hi1 & Eb).
    destruct (more_cells _ _ _ _ _ _ _ _ _ Hi Hf E) as [Hout Htags]. rewrite E. cbn [Z.eqb negb].
    destruct (take_ok _ _ _ _ _ _ Hi1) as (next & -> & Eh & Hx & Hi2). rewrite Eh.
    assert (forall b s, blocks h !! b = Some s -> forall a, b <= a < b + s -> cells h1 !! a = cells h !! a) as Hold.
    { intros b s Hb a Ha. apply Hout. pose proof (fr_disjoint _ _ _ Hf _ _ Hb). lia. }
    eexists _, _, _, _, _. split; [done|]. split; [done|]. split; [exact Hi2|]. split; [|split].
    + intros y Hy. rewrite elem_of_app, elem_of_cons in Hy. simpl in Hy. destruct (decide (y ∈ lv)) as [Hl|Hl].
      * destruct (item_within _ _ _ _ _ y Hi ltac:(done)) as (b & _ & Hr & He & Hs). rewrite Hout; [by apply Ht|].
        pose proof (fr_disjoint _ _ _ Hf _ _ Hs) as Hd. clear - Hr He Hd Hoff. unfold SIZEOF_PTR in *. lia.
      * apply Htags. unfold items_of. rewrite !elem_of_cons, elem_of_nil.
        destruct Hy as [[->|Hy%elem_of_nil]|[->|Hy]%elem_of_cons]; [auto|done|auto|done].
    + intros b s Hb. split; [|by apply (Hold b s)]. rewrite Eb, lookup_insert_ne; [done|]. intros <-.
      by rewrite (fr_new _ _ _ Hf) in Hb.
    + intros b [->|Hb]%elem_of_cons; [right; apply (fr_new _ _ _ Hf)|by left].
  - destruct (take_ok _ _ _ _ _ _ Hi) as (next & El & Eh & Hx & Hi2).
    rewrite Eh, (proj2 (Z.eqb_neq x NULL)) by done. cbn [Z.eqb negb]. rewrite El, Eh.
    eexists _, _, _, _, bs. split; [done|]. split; [done|]. split; [exact Hi2|]. split; [|split; [done|by left]].
    intros y Hy. apply Ht. rewrite elem_of_app, elem_of_cons in Hy. rewrite elem_of_app, elem_of_cons. naive_solver.
Qed.

(** Giving an item back changes its first word only. *)
Lemma free_tagged fl h fr lv bs x lv' : fl_inv fl h fr lv bs -> lv ≡ₚ x :: lv' -> tagged h (fr ++ lv) ->
  exists fl' h', shmem_free_list_free fl x h = Some (fl', h') /\ fl_inv fl' h' (x :: fr) lv' bs /\
    tagged h' ((x :: fr) ++ lv') /\ blocks h' = blocks h /\ forall a, a <> x -> cells h' !! a = cells h !! a.
Proof.
  intros Hi Hlv Ht. destruct (free_ok _ _ _ _ _ _ _ Hi Hlv) as (fl' & h' & E & Hi' & Eb).
  assert (x ∈ fr ++ lv) as Hx by (rewrite Hlv, elem_of_app, elem_of_cons; auto).
  assert (forall a, a <> x -> cells h' !! a = cells h !! a) as Hout.
  { intros a Ha. unfold shmem_free_list_free, store_word in E. destruct (cells h !! x); [|done]. injection E as _ <-.
    simpl. by rewrite lookup_insert_ne. }
  exists fl', h'. split; [done|]. split; [done|]. split; [|done].
  intros y Hy. assert (y ∈ fr ++ lv) as Hy' by (rewrite Hlv; rewrite !elem_of_app, !elem_of_cons in *; naive_solver).
  rewrite Hout; [by apply Ht|]. unfold SIZEOF_PTR in *. intros E'. destruct (decide (x = y)) as [->|Hne]; [lia|].
  destruct (item_apart _ _ _ _ _ x y Hi Hx Hy' Hne); lia.
Qed.
(** A new list: its items are free and tagged. *)
Lemma init_tagged h obj buf : heap_wf h -> fresh obj SIZEOF_FREE_LIST h ->
  fresh buf block_size (heap_malloc obj SIZEOF_FREE_LIST h) ->
  exists fl h', shmem_free_list_init init_fn (Some obj) es (Some buf) h = Some (Some fl, h') /\
    fl_inv fl h' (items_of buf) [] [buf] /\ tagged h' (items_of buf) /\
    blocks h' = <[buf := block_size]> (<[obj := SIZEOF_FREE_LIST]> (blocks h)).
Proof.
  intros Hwf Ho Hf. unfold shmem_free_list_init. cbv zeta.
  assert (fl_inv (FreeList es 0 NULL NULL) (heap_malloc obj SIZEOF_FREE_LIST h) [] [] []) as H0.
  { split; try done; [by apply malloc_wf|constructor|]. split; [constructor|]. by intros b ?%elem_of_nil. }
  destruct (more_ok _ _ _ _ _ _ H0 Hf) as (fl & h' & E & Hi & Eb). destruct (more_cells _ _ _ _ _ _ _ _ _ H0 Hf E) as [_ Ht].
  rewrite E. rewrite app_nil_r in Hi. by exists fl, h'.
Qed.
End tag.

(** Releasing the blocks of a list whose allocations are [bs]. *)
Lemma destroy_ok bs : forall p h fuel, heap_wf h -> NoDup bs -> (forall b, b ∈ bs -> is_Some (blocks h !! b)) ->
  (forall b s, blocks h !! b = Some s -> b ∈ bs -> 0 < s) ->
  chain (cells h) p bs -> (length bs <= fuel)%nat ->
  exists h', destroy_loop fuel p h = Some h' /\
    forall b, blocks h' !! b = if decide (b ∈ bs) then None else blocks h !! b.
Proof.
  clear init_fn es Hes Hinit.
  induction bs as [|b bs IH]; intros p h fuel Hwf Hnd Hbs Hs Hch Hfuel.
  - simpl in Hch. subst p. exists h. split; [by destruct fuel|done].
  - destruct Hch as (-> & Hb & q & Hq & Hch). apply list.NoDup_cons in Hnd as [Hnb Hnd].
    destruct fuel as [|fuel]; [simpl in Hfuel; lia|]. cbn [destroy_loop].
    rewrite (proj2 (Z.eqb_neq b NULL)) by done. unfold load_word. rewrite Hq.
    destruct (Hbs b (list_elem_of_here _ _)) as [s Es]. unfold heap_free. rewrite Es.
    edestruct (IH q (Heap (clear_block b s (cells h)) (delete b (blocks h))) fuel) as (h' & -> & Hh').
    + split; simpl.
      * intros b' s' a Hb' Ha. rewrite lookup_delete_Some in Hb'. destruct Hb' as [Hne Hb'].
        unfold clear_block. rewrite lookup_fold_delete. rewrite decide_False.
        -- by eapply (hw_cells _ Hwf).
        -- rewrite elem_of_upto. intros Ha'. destruct (hw_disjoint _ Hwf _ _ _ _ Es Hb' Hne); lia.
      * intros b' s'. rewrite lookup_delete_Some. intros [_ H]. by eapply (hw_pos _ Hwf).
      * intros b1 s1 b2 s2. rewrite !lookup_delete_Some. intros [_ H1] [_ H2]. by apply (hw_disjoint _ Hwf).
    + done.
    + intros b' Hb'. simpl. rewrite lookup_delete_ne by (intros ->; done). apply Hbs. by apply list_elem_of_further.
    + intros b' s'. simpl. rewrite lookup_delete_Some. intros [_ H] Hin. apply (Hs b' s' H). by apply list_elem_of_further.
    + simpl. eapply chain_frame; [|exact Hch]. intros y Hy. unfold clear_block. rewrite lookup_fold_delete.
      rewrite decide_False; [done|]. rewrite elem_of_upto. intros Hyr.
      destruct (Hbs y) as [sy Ey]; [by apply list_elem_of_further|].
      pose proof (Hs y sy Ey ltac:(by apply list_elem_of_further)).
      assert (b <> y) as Hby by (by intros ->). destruct (hw_disjoint _ Hwf _ _ _ _ Es Ey Hby); lia.
    + simpl in Hfuel. lia.
    + exists h'. split; [done|]. intros b'. rewrite Hh'. simpl. destruct (decide (b' = b)) as [->|Hne].
      * rewrite lookup_delete_eq. rewrite (decide_True (P := b ∈ b :: bs)) by apply list_elem_of_here. by case_decide.
      * rewrite lookup_delete_ne by done. apply decide_ext. rewrite elem_of_cons. naive_solver.
Qed.

(** ** Clients *)

(** What a client does with a list: take an item (malloc answering [buf] if asked),
    or give back one of the items it holds, [lv]. *)
Inductive fl_step : shmem_free_list_t * heap * list Z -> shmem_free_list_t * heap * list Z -> Prop :=
| fl_take fl h lv buf x fl' h' :
    (forall b, buf = Some b -> fresh b block_size h) ->
    shmem_free_list_alloc init_fn fl buf h = Some (x, fl', h') ->
    fl_step (fl, h, lv) (fl', h', if decide (x = NULL) then lv else x :: lv)
| fl_give fl h lv x lv' fl' h' :
    lv ≡ₚ x :: lv' ->
    shmem_free_list_free fl x h = Some (fl', h') ->
    fl_step (fl, h, lv) (fl', h', lv').

(** The list in a heap that held [b0] before it was created. *)
Definition fl_ok (b0 : gmap Z Z) (s : shmem_free_list_t * heap * list Z) : Prop :=
  let '(fl, h, lv) := s in
  exists fr bs, fl_inv fl h fr lv bs /\ (forall b, b ∈ bs -> b0 !! b = None) /\
    forall b, b ∉ bs -> blocks h !! b = b0 !! b.

Lemma fl_step_ok b0 s s' : fl_ok b0 s -> fl_step s s' -> fl_ok b0 s'.
Proof.
  intros Hok Hst. destruct Hst as [fl h lv buf x fl' h' Hf E|fl h lv x lv' fl' h' Hlv E];
    destruct Hok as (fr & bs & Hi & Hn & Hb).
  - destruct (alloc_ok _ _ _ _ _ _ Hi Hf) as (x2 & fl2 & h2 & E2 & [(-> & -> & _ & -> & ->)|(Hx & _ & fr' & bs' & Hi' & Hsub & Hnew & Hb')]);
      rewrite E in E2; injection E2 as -> -> ->.
    + rewrite decide_True by done. by exists [], bs.
    + rewrite decide_False by done. exists fr', bs'. split; [done|]. split.
      * intros b Hin. destruct (decide (b ∈ bs)); [auto|]. rewrite <- Hb by done. destruct (Hnew b Hin); done.
      * intros b Hin. rewrite Hb' by done. apply Hb. auto.
  - destruct (free_ok _ _ _ _ _ _ _ Hi Hlv) as (fl2 & h2 & E2 & Hi' & Eb). rewrite E in E2. injection E2 as -> ->.
    exists (x :: fr), bs. split; [done|]. split; [done|]. intros b. rewrite Eb. apply Hb.
Qed.

Lemma init_ok h obj buf : heap_wf h -> fresh obj SIZEOF_FREE_LIST h ->
  fresh buf block_size (heap_malloc obj SIZEOF_FREE_LIST h) ->
  exists fl h', shmem_free_list_init init_fn (Some obj) es (Some buf) h = Some (Some fl, h') /\
    fl_ok (<[obj := SIZEOF_FREE_LIST]> (blocks h)) (fl, h', []).
Proof.
  intros Hwf Ho Hf. unfold shmem_free_list_init. cbv zeta.
  destruct (more_ok (FreeList es 0 NULL NULL) (heap_malloc obj SIZEOF_FREE_LIST h) [] [] [] buf) as (fl & h' & -> & Hi & Eb); [|done|].
  { split; try done; [by apply malloc_wf|constructor|]. split; [constructor|]. intros b ?%elem_of_nil. done. }
  eexists _, _. split; [done|]. exists (items_of buf ++ []), [buf]. split; [done|]. rewrite Eb. split.
  - intros b ->%list_elem_of_singleton. apply (fr_new _ _ _ Hf).
  - intros b Hb. apply lookup_insert_ne. intros ->. by apply Hb, list_elem_of_singleton.
Qed.
(** Without a first block the list object is given back. *)
Lemma init_none h obj : blocks h !! obj = None ->
  exists h', shmem_free_list_init init_fn (Some obj) es None h = Some (None, h') /\ blocks h' = blocks h.
Proof.
  intros Hn. unfold shmem_free_list_init, shmem_free_list_more. cbv zeta. cbn [element_size].
  rewrite (proj2 (Z.eqb_neq es 0)) by (unfold SIZEOF_PTR in *; lia). cbn [Z.eqb negb].
  unfold heap_free, heap_malloc. cbn [blocks]. rewrite lookup_insert_eq. eexists. split; [done|]. simpl.
  by apply delete_insert_id.
Qed.
End proof.

(** C22: a free list is memory safe.  When [calloc] answers no list object, or [malloc] no
    first block, nothing is created and nothing stays allocated.  Otherwise, whatever a
    client takes and gives back, and whatever blocks [malloc] answers: taking an item
    never touches unallocated memory and answers an item that is not in use (or NULL,
    when the list is empty and [malloc] failed); giving back any item in use succeeds;
    the counter is the number of items in use; and destroying the list frees each of its
    blocks once, leaving the blocks that were there before it and one more, the list
    object, which the code never frees.  An item has at least the size of a pointer, and
    twice its size fits 32 bits. *)
Theorem free_list_safe (init_fn : Z -> heap -> heap) (es : Z) (h0 : heap) (obj buf : Z) :
  SIZEOF_PTR <= es /\ 2 * es < 2 ^ 32 -> (forall item h, differ_within item (item + es) h (init_fn item h)) ->
  heap_wf h0 -> fresh obj SIZEOF_FREE_LIST h0 -> fresh buf (block_size es) (heap_malloc obj SIZEOF_FREE_LIST h0) ->
  shmem_free_list_init init_fn None es (Some buf) h0 = Some (None, h0) /\
  (exists h1, shmem_free_list_init init_fn (Some obj) es None h0 = Some (None, h1) /\ blocks h1 = blocks h0) /\
  exists fl0 h1, shmem_free_list_init init_fn (Some obj) es (Some buf) h0 = Some (Some fl0, h1) /\
    forall fl h lv, rtc (fl_step init_fn es) (fl0, h1, []) (fl, h, lv) ->
      (forall buf', (forall b, buf' = Some b -> fresh b (block_size es) h) ->
         exists x fl' h', shmem_free_list_alloc init_fn fl buf' h = Some (x, fl', h') /\ x ∉ lv /\
           (x = NULL -> buf' = None /\ fl' = fl /\ h' = h)) /\
      (forall x, x ∈ lv -> exists fl' h', shmem_free_list_free fl x h = Some (fl', h')) /\
      nalloc fl = Z.of_nat (length lv) mod 2 ^ 64 /\
      exists fuel h', shmem_free_list_destroy fuel fl h = Some h' /\
        blocks h' = <[obj := SIZEOF_FREE_LIST]> (blocks h0).
Proof.
  intros Hes Hinit Hwf Ho Hf. split; [done|]. split; [by apply init_none, Ho|].
  destruct (init_ok init_fn es Hes Hinit h0 obj buf Hwf Ho Hf) as (fl0 & h1 & E & Hok).
  exists fl0, h1. split; [done|]. intros fl h lv Hr. set (b0 := <[obj := SIZEOF_FREE_LIST]> (blocks h0)) in *.
  assert (fl_ok es b0 (fl, h, lv)) as (fr & bs & Hi & Hn & Hb).
  { revert Hok. induction Hr as [s|s1 s2 s3 H12 _ IH]; [done|]. intros Hok. apply IH. by eapply fl_step_ok. }
  split; [|split; [|split]].
  - intros buf' Hf'. destruct (alloc_ok init_fn es Hes Hinit _ _ _ _ _ _ Hi Hf') as (x & fl' & h' & E' & H).
    exists x, fl', h'. split; [done|]. destruct H as [(-> & _ & -> & -> & ->)|(Hx & Hin & _)]; [|done].
    split; [|done]. intros Hin. destruct (item_cell es Hes _ _ _ _ _ NULL Hi) as [_ ?]; [|done].
    apply elem_of_app. by right.
  - intros x Hx. destruct (proj1 (elem_of_Permutation lv x) Hx) as [lv' Hlv].
    destruct (free_ok es Hes _ _ _ _ _ _ _ Hi Hlv) as (fl' & h' & E' & _). eauto.
  - apply (fi_count _ _ _ _ _ _ Hi).
  - destruct (fi_blocks _ _ _ _ _ _ Hi) as [Hnd Hbs].
    destruct (destroy_ok bs (allocs fl) h (length bs)) as (h' & E' & Hh').
    + apply (fi_wf _ _ _ _ _ _ Hi).
    + done.
    + intros b Hin. by rewrite Hbs.
    + intros b s Es Hin. rewrite Hbs in Es by done. injection Es as <-. unfold block_size, SIZEOF_PTR, NUM_ELEMENTS in *. lia.
    + apply (fi_allocs _ _ _ _ _ _ Hi).
    + done.
    + exists (length bs), h'. split; [done|]. apply map_eq. intros b. rewrite Hh'. case_decide as D; [|auto].
      by rewrite Hn.
Qed.

Lemma free_list_safe_witness :
  exists fl0 h1, shmem_free_list_init (fun _ h => h) (Some 1024) 16 (Some 4096) (Heap ∅ ∅) = Some (Some fl0, h1) /\
    forall fl h lv, rtc (fl_step (fun _ h => h) 16) (fl0, h1, []) (fl, h, lv) ->
      nalloc fl = Z.of_nat (length lv) mod 2 ^ 64.
Proof.
  destruct (free_list_safe (fun _ h => h) 16 (Heap ∅ ∅) 1024 4096) as (_ & _ & fl0 & h1 & E & H).
  - unfold SIZEOF_PTR. lia.
  - intros item h. split; [done|]. intros a. done.
  - split; simpl; intros *; rewrite !lookup_empty; done.
  - split; [lia|done|]. intros b s. simpl. by rewrite lookup_empty.
  - split; [lia|done|]. intros b s. simpl. rewrite lookup_insert_Some, lookup_empty. intros [[<- <-]|[_ ?]]; [|done].
    unfold SIZEOF_FREE_LIST. lia.
  - exists fl0, h1. split; [exact E|]. intros fl h lv Hr. apply (H fl h lv Hr).
Defined.
