(* ===== verification/Fabric.v ===== *)
(** * The libfabric endpoint of a context

    libfabric is not part of the repository: the transport is written against the interface
    [Fabric], one operation per call it makes, and proved against [FabricLaws], what the
    libfabric manual says of a reliable endpoint with automatic progress: every call may
    also answer an error, of which nothing more is said.  A request that
    is accepted (return value 0) completes later; the two counters of an endpoint count
    completions; a request issued with FI_COMPLETION also leaves one event in the
    completion queue, which carries its context.  An example provider has these laws. *)

From S2P Require Import Prelude.
Local Open Scope Z_scope.

Definition FI_EAGAIN : Z := 11.

Inductive fi_datatype :=
| FI_INT8 | FI_UINT8 | FI_INT16 | FI_UINT16 | FI_INT32 | FI_UINT32 | FI_INT64 | FI_UINT64
| FI_FLOAT | FI_DOUBLE | FI_FLOAT_COMPLEX | FI_DOUBLE_COMPLEX | FI_LONG_DOUBLE | FI_LONG_DOUBLE_COMPLEX.

Inductive fi_op :=
| FI_MIN | FI_MAX | FI_SUM | FI_PROD | FI_LOR | FI_LAND | FI_BOR | FI_BAND | FI_LXOR | FI_BXOR
| FI_ATOMIC_READ | FI_ATOMIC_WRITE | FI_CSWAP | FI_MSWAP.

(** The bytes a request sends: copied by the call, or read from the buffer until it completes. *)
Inductive fi_data := Inject (bytes : list Z) | Buffer (addr : Z).

Inductive fi_kind :=
| FiWrite
| FiRead (target : Z)
| FiAtomic (d : fi_datatype) (o : fi_op)
| FiFetchAtomic (d : fi_datatype) (o : fi_op) (result : Z)
| FiCompareAtomic (d : fi_datatype) (o : fi_op) (compare : fi_data) (result : Z).

(** [rq_count] is in bytes for reads and writes, in elements for atomics; [rq_context] is
    the context of the requested completion event; [rq_fence] is FI_FENCE. *)
Record fi_request := Request {
  rq_kind : fi_kind; rq_data : fi_data; rq_count : Z; rq_pe : Z; rq_addr : Z; rq_key : Z;
  rq_context : option Z; rq_fence : bool }.

(** Whether a request counts in the put counter (bound with FI_WRITE) or in the get counter. *)
Definition is_put (rq : fi_request) : bool :=
  match rq_kind rq with FiWrite | FiAtomic _ _ => true | _ => false end.

(** The calls; those that select a counter take [true] for the put counter. *)
Class Fabric (F : Type) := {
  fi_submit : fi_request -> F -> Z * F;
  fi_cq_read : F -> Z * Z * F;
  fi_cq_readerr : F -> Z * F;
  fi_cntr_read : bool -> F -> Z * F;
  fi_cntr_readerr : bool -> F -> Z * F;
  fi_cntr_wait : bool -> Z -> F -> Z * F;
  fi_target_cq_read : F -> Z * F;
  fi_target_cntr_read : F -> Z * F;
  fi_target_cntr_wait : Z -> F -> Z * F;
  fi_atomicvalid : fi_datatype -> fi_op -> Z * Z }.

(** An accepted request: whether it completed, and whether its event was read. *)
Record entry := Entry { e_req : fi_request; e_done : bool; e_seen : bool }.

(** Time passes: requests complete, nothing else changes. *)
Definition later (e e' : entry) : Prop :=
  e_req e' = e_req e /\ e_seen e' = e_seen e /\ (e_done e = true -> e_done e' = true).
Definition advance : list entry -> list entry -> Prop := Forall2 later.

Definition submitted (w : bool) (l : list entry) : nat := countb (fun e => eqb (is_put (e_req e)) w) l.
Definition completed (w : bool) (l : list entry) : nat := countb (fun e => eqb (is_put (e_req e)) w && e_done e) l.
Definition all_done (l : list entry) : Prop := forall e, e ∈ l -> e_done e = true.

(** A completion event is waiting in the queue. *)
Definition event_ready (e : entry) : Prop := e_done e = true /\ e_seen e = false /\ rq_context (e_req e) <> None.

(** [refusals] bounds how often a request is refused in a row, [delay] how many polls the
    completion of a request takes. *)
Class FabricLaws (F : Type) `{Fabric F} (refusals delay : nat) := {
  entries : F -> list entry;
  tries : F -> nat;
  work : F -> nat;
  polled (f f' : F) : Prop := (tries f' <= tries f)%nat /\ (work f' <= work f)%nat;
  progress (f f' : F) : Prop := polled f f' /\ (~ all_done (entries f) -> (work f' < work f)%nat);
  law_tries f : (tries f <= refusals)%nat;
  law_work f : (work f <= delay)%nat;
  law_submit rq f ret f' : fi_submit rq f = (ret, f') ->
    ret = 0 /\ (exists l d, advance (entries f) l /\ entries f' = l ++ [Entry rq d false]) \/
    ret = - FI_EAGAIN /\ advance (entries f) (entries f') /\ (tries f' < tries f)%nat \/
    ret <> 0 /\ ret <> - FI_EAGAIN;
  law_cq_read f ret c f' : fi_cq_read f = (ret, c, f') -> ret <> 1 /\ ret <> - FI_EAGAIN \/ progress f f' /\
    (ret = 1 /\ (exists l k rq, advance (entries f) l /\ l !! k = Some (Entry rq true false) /\ rq_context rq = Some c /\
       entries f' = <[k := Entry rq true true]> l) \/
     ret = - FI_EAGAIN /\ advance (entries f) (entries f') /\ forall e, e ∈ entries f -> ~ event_ready e);
  law_cq_readerr f ret f' : fi_cq_readerr f = (ret, f') ->
    ret <> 0 /\ ret <> - FI_EAGAIN \/ polled f f' /\ advance (entries f) (entries f');
  law_cntr_read w f n f' : fi_cntr_read w f = (n, f') -> progress f f' /\ advance (entries f) (entries f') /\
    Z.of_nat (completed w (entries f)) <= n <= Z.of_nat (completed w (entries f'));
  law_cntr_readerr w f n f' : fi_cntr_readerr w f = (n, f') -> polled f f' /\ advance (entries f) (entries f');
  law_cntr_wait w n f ret f' : n <= Z.of_nat (submitted w (entries f)) -> fi_cntr_wait w n f = (ret, f') ->
    ret <> 0 \/ polled f f' /\ advance (entries f) (entries f') /\ n <= Z.of_nat (completed w (entries f'));
  law_target_cq_read f ret f' : fi_target_cq_read f = (ret, f') -> polled f f' /\ advance (entries f) (entries f') }.

(** Some call of the endpoint answers an error. *)
Inductive endpoint_error {F : Type} `{FabricLaws F refusals delay} : Prop :=
| err_submit rq f ret f' : fi_submit rq f = (ret, f') -> ret <> 0 -> ret <> - FI_EAGAIN -> endpoint_error
| err_cq_read f ret c f' : fi_cq_read f = (ret, c, f') -> ret <> 1 -> ret <> - FI_EAGAIN -> endpoint_error
| err_cq_readerr f ret f' : fi_cq_readerr f = (ret, f') -> ret <> 0 -> ret <> - FI_EAGAIN -> endpoint_error
| err_cntr_readerr w f n f' : fi_cntr_readerr w f = (n, f') -> n <> 0 -> endpoint_error
| err_cntr_wait w n f ret f' : n <= Z.of_nat (submitted w (entries f)) -> fi_cntr_wait w n f = (ret, f') ->
    ret <> 0 -> endpoint_error.

(** ** Time passing *)

Lemma advance_refl l : advance l l.
Proof. induction l; by constructor. Qed.

Lemma advance_trans l1 l2 l3 : advance l1 l2 -> advance l2 l3 -> advance l1 l3.
Proof.
  intros H12. revert l3. induction H12 as [|e1 e2 l1 l2 (R1 & S1 & D1) _ IH]; intros l3 H23; inversion H23; constructor; [|by apply IH].
  match goal with H : later e2 _ |- _ => destruct H as (R2 & S2 & D2) end.
  split; [congruence|]. split; [congruence|auto].
Qed.

Lemma advance_length l l' : advance l l' -> length l' = length l.
Proof. intros H. symmetry. by eapply Forall2_length. Qed.

Lemma advance_lookup l l' k e' : advance l l' -> l' !! k = Some e' -> exists e, l !! k = Some e /\ later e e'.
Proof. intros H Hk. destruct (Forall2_lookup_r _ _ _ _ _ H Hk) as (e & He & Hl). eauto. Qed.

Lemma advance_reqs l l' : advance l l' -> map e_req l' = map e_req l.
Proof. induction 1 as [|e e' l l' (E & _) _ IH]; [done|]. simpl. by rewrite IH, E. Qed.

Lemma advance_submitted w l l' : advance l l' -> submitted w l' = submitted w l.
Proof. unfold submitted. induction 1 as [|e e' l l' (E & _) _ IH]; [done|]. simpl. by rewrite IH, E. Qed.

Lemma advance_completed w l l' : advance l l' -> (completed w l <= completed w l')%nat.
Proof.
  unfold completed. induction 1 as [|e e' l l' (E & _ & D) _ IH]; [done|]. simpl. rewrite E.
  destruct (eqb (is_put (e_req e)) w), (e_done e); simpl; try rewrite D by done; simpl; try lia; destruct (e_done e'); lia.
Qed.

Lemma completed_submitted w l : (completed w l <= submitted w l)%nat.
Proof. unfold completed, submitted. induction l as [|e l IH]; [done|]. simpl. destruct (eqb _ _), (e_done e); simpl; lia. Qed.

(** When the counter reaches the number of requests, all of them completed. *)
Lemma completed_all w l : completed w l = submitted w l -> forall e, e ∈ l -> is_put (e_req e) = w -> e_done e = true.
Proof.
  unfold completed, submitted. induction l as [|x l IH]; simpl; [by intros _ e ?%elem_of_nil|].
  pose proof (completed_submitted w l) as Hle. unfold completed, submitted in Hle.
  intros E e [->|He]%elem_of_cons Hw.
  - rewrite Hw, eqb_reflx in E. destruct (e_done x); [done|]. simpl in E. lia.
  - apply IH; [|done|done]. destruct (eqb _ _), (e_done x); simpl in *; lia.
Qed.

Lemma advance_done (P : fi_request -> Prop) l l' : advance l l' ->
  (forall e, e ∈ l -> P (e_req e) -> e_done e = true) -> forall e, e ∈ l' -> P (e_req e) -> e_done e = true.
Proof.
  intros Ha Hd e' [k Hk]%list_elem_of_lookup HP. destruct (advance_lookup _ _ _ _ Ha Hk) as (e & He & R & _ & D).
  apply D, (Hd e); [by eapply list_elem_of_lookup_2|congruence].
Qed.

(** ** An example provider: a queue of fixed depth

    A request is refused while [depth] requests are pending; every call but a successful
    submission completes all of them. *)
Section queue.
Context (depth : nat) (Hdepth : (0 < depth)%nat).

Definition finish : list entry -> list entry := map (fun e => Entry (e_req e) true (e_seen e)).
Definition pending_count (l : list entry) : nat := countb (fun e => negb (e_done e)) l.

(** The first event of the completion queue, marked as read. *)
Fixpoint take_event (l : list entry) : option (Z * list entry) :=
  match l with
  | [] => None
  | e :: l =>
      match rq_context (e_req e), e_done e && negb (e_seen e) with
      | Some c, true => Some (c, Entry (e_req e) true true :: l)
      | _, _ => match take_event l with Some (c, l') => Some (c, e :: l') | None => None end
      end
  end.

#[local] Instance queue_fabric : Fabric (list entry) := {
  fi_submit rq l := if (depth <=? pending_count l)%nat then (- FI_EAGAIN, finish l) else (0, l ++ [Entry rq false false]);
  fi_cq_read l := match take_event l with Some (c, l') => (1, c, finish l') | None => (- FI_EAGAIN, 0, finish l) end;
  fi_cq_readerr l := (0, finish l);
  fi_cntr_read w l := (Z.of_nat (completed w l), finish l);
  fi_cntr_readerr w l := (0, finish l);
  fi_cntr_wait w n l := (0, finish l);
  fi_target_cq_read l := (0, finish l);
  fi_target_cntr_read l := (0, finish l);
  fi_target_cntr_wait n l := (0, finish l);
  fi_atomicvalid d o := (0, 4) }.

Lemma finish_advance l : advance l (finish l).
Proof. induction l as [|e l IH]; constructor; [done|exact IH]. Qed.

Lemma finish_done l : all_done (finish l).
Proof. by intros e (e' & -> & _)%list_elem_of_fmap. Qed.

Lemma pending_finish l : pending_count (finish l) = 0%nat.
Proof. apply countb_zero. intros e He. by rewrite (finish_done l e He). Qed.

Lemma completed_finish w l : completed w (finish l) = submitted w l.
Proof.
  unfold completed, submitted, finish. induction l as [|e l IH]; [done|]. simpl in *. by rewrite andb_true_r, IH.
Qed.

Lemma take_event_some l c l' : take_event l = Some (c, l') ->
  exists k rq, l !! k = Some (Entry rq true false) /\ rq_context rq = Some c /\ l' = <[k := Entry rq true true]> l.
Proof.
  revert l'. induction l as [|e l IH]; intros l'; simpl; [done|].
  assert ((match take_event l with Some (c, l') => Some (c, e :: l') | None => None end) = Some (c, l') ->
    exists k rq, (e :: l) !! k = Some (Entry rq true false) /\ rq_context rq = Some c /\ l' = <[k := Entry rq true true]> (e :: l)) as Hrest.
  { destruct (take_event l) as [[c' l1]|]; [|done]. intros [= -> <-]. destruct (IH l1 eq_refl) as (k & rq & Hk & Hc & ->).
    by exists (S k), rq. }
  destruct (rq_context (e_req e)) as [c'|] eqn:Ec; [|exact Hrest].
  destruct e as [rq [|] [|]]; simpl in *; try exact Hrest. intros [= -> <-]. by exists 0%nat, rq.
Qed.

Lemma take_event_none l : take_event l = None -> forall e, e ∈ l -> ~ event_ready e.
Proof.
  induction l as [|x l IH]; simpl; intros H e; [by intros ?%elem_of_nil|].
  assert (take_event l = None) as Hl.
  { destruct (rq_context (e_req x)), (e_done x && negb (e_seen x)); try done; by destruct (take_event l) as [[]|]. }
  intros [->|He]%elem_of_cons; [|by apply IH]. intros (Hd & Hs & Hc).
  destruct (rq_context (e_req x)); [|done]. by rewrite Hd, Hs in H.
Qed.

Lemma mark_pending k rq l : l !! k = Some (Entry rq true false) ->
  pending_count (<[k := Entry rq true true]> l) = pending_count l.
Proof.
  revert k. induction l as [|e l IH]; intros k; [done|]. destruct k as [|k]; simpl; [by intros [= ->]|].
  intros Hk. unfold pending_count in *. simpl. by rewrite IH.
Qed.

Lemma pending_zero l : pending_count l = 0%nat -> all_done l.
Proof. intros H e He. pose proof (proj1 (countb_zero _ _) H e He) as E. by apply negb_false_iff. Qed.

Lemma finish_insert k rq l : l !! k = Some (Entry rq true false) ->
  finish (<[k := Entry rq true true]> l) = <[k := Entry rq true true]> (finish l).
Proof. intros _. unfold finish. by rewrite list_fmap_insert. Qed.

Definition queue_tries (l : list entry) : nat := if (depth <=? pending_count l)%nat then 1%nat else 0%nat.
Definition queue_work (l : list entry) : nat := if (pending_count l =? 0)%nat then 0%nat else 1%nat.

Lemma queue_finish_tries l : queue_tries (finish l) = 0%nat.
Proof. unfold queue_tries. rewrite pending_finish, (proj2 (Nat.leb_gt _ _)) by lia. done. Qed.

Lemma queue_finish_work l : queue_work (finish l) = 0%nat.
Proof. unfold queue_work. by rewrite pending_finish. Qed.

Lemma queue_progress l : ~ all_done l -> (0 < queue_work l)%nat.
Proof.
  intros H. unfold queue_work. destruct (Nat.eqb_spec (pending_count l) 0) as [E|E]; [|lia].
  destruct H. by apply pending_zero.
Qed.

(** Every poll leaves nothing pending. *)
Lemma queue_polls l l' : ((queue_tries (finish l') <= queue_tries l)%nat /\ (queue_work (finish l') <= queue_work l)%nat) /\
  (~ all_done l -> (queue_work (finish l') < queue_work l)%nat).
Proof. rewrite queue_finish_tries, queue_finish_work. split; [lia|]. apply queue_progress. Qed.

(** The laws: at most one refusal in a row, and one poll completes everything. *)
#[local] Program Instance queue_laws : FabricLaws (list entry) 1 1 := {
  entries l := l; tries := queue_tries; work := queue_work }.
Next Obligation. intros l. unfold queue_tries. case_match; lia. Qed.
Next Obligation. intros l. unfold queue_work. case_match; lia. Qed.
Next Obligation.
  simpl. intros rq l r l' E. destruct (Nat.leb_spec depth (pending_count l)) as [Hd|Hd]; injection E as <- <-.
  - right. left. split; [done|]. split; [apply finish_advance|]. rewrite queue_finish_tries. unfold queue_tries.
    rewrite (proj2 (Nat.leb_le _ _)); lia.
  - left. split; [done|]. exists l, false. split; [apply advance_refl|done].
Qed.
Next Obligation.
  simpl. intros l r c l' E. destruct (take_event l) as [[c' l1]|] eqn:Et; injection E as <- <- <-;
    right; (split; [apply queue_polls|]).
  - left. split; [done|]. destruct (take_event_some _ _ _ Et) as (k & rq & Hk & Hc & ->). exists (finish l), k, rq.
    split; [apply finish_advance|]. unfold finish at 1. rewrite list_lookup_fmap, Hk, (finish_insert _ _ _ Hk). done.
  - right. split; [done|]. split; [apply finish_advance|]. by apply take_event_none.
Qed.
Next Obligation. simpl. intros l r l' [= <- <-]. right. split; [apply queue_polls|apply finish_advance]. Qed.
Next Obligation.
  simpl. intros w l n l' [= <- <-]. split; [apply queue_polls|]. split; [apply finish_advance|].
  rewrite completed_finish. pose proof (completed_submitted w l). lia.
Qed.
Next Obligation. simpl. intros w l n l' [= <- <-]. split; [apply queue_polls|apply finish_advance]. Qed.
Next Obligation.
  simpl. intros w n l r l' Hn [= <- <-]. right. split; [apply queue_polls|]. split; [apply finish_advance|].
  by rewrite completed_finish.
Qed.
Next Obligation. simpl. intros l r l' [= <- <-]. split; [apply queue_polls|apply finish_advance]. Qed.

(** Nor does this provider answer errors. *)
Lemma queue_no_error : ~ endpoint_error (F := list entry) (refusals := 1) (delay := 1).
Proof.
  intros H. destruct H as [rq l r l' E H1 H2|l r c l' E H1 H2|l r l' E H1 H2|w l n l' E H1|w n l r l' _ E H1]; simpl in E.
  - destruct (depth <=? pending_count l)%nat; by injection E as <- <-.
  - destruct (take_event l) as [[]|]; by injection E as <- <- <-.
  - by injection E as <- <-.
  - by injection E as <- <-.
  - by injection E as <- <-.
Qed.
End queue.
