(* ===== verification/OfiTransport.v ===== *)
(** * The data path of the OFI transport ([transport_ofi.h])

    Puts, gets and atomics of one communication context over a libfabric endpoint
    ([Fabric]), as programs over the state of the context, its bounce buffers (a
    [FreeList]), the memory of the process and the endpoint.  An abort, a failed assertion,
    a lock taken twice or released without being held, and an access outside allocated
    memory are [stop]. *)

From stdpp Require Import gmap.
From S2P Require Import Prelude ReduceOp ErrState Stx FreeList Fabric.
Local Open Scope Z_scope.
Local Open Scope st_scope.

(** ** The datatypes of the fabric *)

Definition SHMEM_Dtsize (d : fi_datatype) : Z :=
  match d with
  | FI_INT8 | FI_UINT8 => 1
  | FI_INT16 | FI_UINT16 => 2
  | FI_INT32 | FI_UINT32 | FI_FLOAT => 4
  | FI_INT64 | FI_UINT64 | FI_DOUBLE | FI_FLOAT_COMPLEX => 8
  | FI_DOUBLE_COMPLEX | FI_LONG_DOUBLE => 16
  | FI_LONG_DOUBLE_COMPLEX => 32
  end.

(** The DTYPE_ macros of the configuration, for an LP64 machine. *)
Definition shmem_transport_dtype_table (d : shm_internal_datatype_t) : fi_datatype :=
  match d with
  | SHM_INTERNAL_SIGNED_BYTE | SHM_INTERNAL_INT8 => FI_INT8
  | SHM_INTERNAL_SHORT | SHM_INTERNAL_INT16 => FI_INT16
  | SHM_INTERNAL_INT | SHM_INTERNAL_FORTRAN_INTEGER | SHM_INTERNAL_INT32 => FI_INT32
  | SHM_INTERNAL_LONG | SHM_INTERNAL_LONG_LONG | SHM_INTERNAL_INT64 | SHM_INTERNAL_PTRDIFF_T => FI_INT64
  | SHM_INTERNAL_UCHAR | SHM_INTERNAL_UINT8 => FI_UINT8
  | SHM_INTERNAL_USHORT | SHM_INTERNAL_UINT16 => FI_UINT16
  | SHM_INTERNAL_UINT | SHM_INTERNAL_UINT32 => FI_UINT32
  | SHM_INTERNAL_ULONG | SHM_INTERNAL_ULONG_LONG | SHM_INTERNAL_UINT64 | SHM_INTERNAL_SIZE_T => FI_UINT64
  | SHM_INTERNAL_FLOAT => FI_FLOAT
  | SHM_INTERNAL_DOUBLE => FI_DOUBLE
  | SHM_INTERNAL_LONG_DOUBLE => FI_LONG_DOUBLE
  | SHM_INTERNAL_FLOAT_COMPLEX => FI_FLOAT_COMPLEX
  | SHM_INTERNAL_DOUBLE_COMPLEX => FI_DOUBLE_COMPLEX
  end.

(** The reduction operators are libfabric's. *)
Definition fi_op_of (o : shm_internal_op_t) : fi_op :=
  match o with
  | SHM_INTERNAL_BAND => FI_BAND | SHM_INTERNAL_BOR => FI_BOR | SHM_INTERNAL_BXOR => FI_BXOR
  | SHM_INTERNAL_MIN => FI_MIN | SHM_INTERNAL_MAX => FI_MAX
  | SHM_INTERNAL_SUM => FI_SUM | SHM_INTERNAL_PROD => FI_PROD
  end.

(** ** The context *)

Definition SHMEM_CTX_SERIALIZED : Z := Z.shiftl 1 1.
Definition SHMEMX_CTX_BOUNCE_BUFFER : Z := Z.shiftl 1 31.
Definition SHMEM_THREAD_SINGLE : Z := 0.
Definition SHMEM_THREAD_MULTIPLE : Z := 3.
Definition SHMEM_SIGNAL_ADD : Z := 1.
Definition SHMEM_TRANSPORT_OFI_TYPE_BOUNCE : Z := 1.

(** [struct shmem_transport_ofi_bounce_buffer_t]: the link of the free list, the type of
    the fragment, the data. *)
Definition OFFSET_MYTYPE : Z := 8.
Definition SIZEOF_BOUNCE_BUFFER : Z := 16.
Definition SIZEOF_DOUBLE_COMPLEX : Z := 16.

Record shmem_transport_ctx_t := Ctx {
  options : Z;
  pending_put_cntr : Z;
  pending_get_cntr : Z;
  pending_bb_cntr : Z;
  completed_bb_cntr : Z;
  bounce_buffers : option shmem_free_list_t }.

(** [init_bounce_buffer], the initializer of the free list. *)
Definition init_bounce_buffer (item : Z) (h : heap) : heap :=
  default h (store_word (item + OFFSET_MYTYPE) SHMEM_TRANSPORT_OFI_TYPE_BOUNCE h).

(** The build options; the thread level; the variables set at start-up; the address of a PE;
    [malloc]; the translation of an address; a bound on the turns of a spinning loop. *)
Class ofi_config := OfiConfig {
  USE_CTX_LOCK : bool;
  WANT_TOTAL_DATA_ORDERING : Z;
  USE_FI_FENCE : bool;
  ENABLE_MANUAL_PROGRESS : bool;
  shmem_internal_thread_level : Z;
  max_poll : Z;
  put_poll_limit : Z;
  get_poll_limit : Z;
  max_buffered_send : Z;
  max_msg_size : Z;
  bounce_buffer_size : Z;
  max_bounce_buffers : Z;
  GET_DEST : Z -> Z;
  malloc : Z -> heap -> option Z;
  get_mr : Z -> Z -> option (Z * Z);
  spins : nat }.

Section transport.
Context {F : Type} {fabric : Fabric F} {cfg : ofi_config}.

(** What [shmem_transport_ofi_ctx_init] gives the data path: the counters at zero, and a list
    of bounce buffers if the options ask for one. *)
Definition ctx_init_data (ctx_options : Z) (h : heap) : option (shmem_transport_ctx_t * heap) :=
  if negb (Z.land ctx_options SHMEMX_CTX_BOUNCE_BUFFER =? 0) && (bounce_buffer_size >? 0) && (max_bounce_buffers >? 0) then
    let size := wrap_u 32 (SIZEOF_BOUNCE_BUFFER + bounce_buffer_size) in
    let obj := malloc SIZEOF_FREE_LIST h in
    let h1 := match obj with Some o => heap_malloc o SIZEOF_FREE_LIST h | None => h end in
    match shmem_free_list_init init_bounce_buffer obj size (malloc (more_size (FreeList size 0 NULL NULL)) h1) h with
    | Some (fl, h) => Some (Ctx ctx_options 0 0 0 0 fl, h)
    | None => None
    end
  else Some (Ctx (Z.land ctx_options (Z.lnot SHMEMX_CTX_BOUNCE_BUFFER)) 0 0 0 0 None, h).

Record tr := Tr { ctx : shmem_transport_ctx_t; lock_held : bool; bb_lock_held : bool; hp : heap; fab : F }.

Definition set_ctx (c : shmem_transport_ctx_t) (s : tr) : tr := Tr c (lock_held s) (bb_lock_held s) (hp s) (fab s).
Definition set_lock (b : bool) (s : tr) : tr := Tr (ctx s) b (bb_lock_held s) (hp s) (fab s).
Definition set_bb_lock (b : bool) (s : tr) : tr := Tr (ctx s) (lock_held s) b (hp s) (fab s).
Definition set_hp (h : heap) (s : tr) : tr := Tr (ctx s) (lock_held s) (bb_lock_held s) h (fab s).
Definition set_fab (f : F) (s : tr) : tr := Tr (ctx s) (lock_held s) (bb_lock_held s) (hp s) f.
Definition set_bounce (b : option shmem_free_list_t) (c : shmem_transport_ctx_t) : shmem_transport_ctx_t :=
  Ctx (options c) (pending_put_cntr c) (pending_get_cntr c) (pending_bb_cntr c) (completed_bb_cntr c) b.
Definition on_ctx (f : shmem_transport_ctx_t -> shmem_transport_ctx_t) : ST tr unit := modify (fun s => set_ctx (f (ctx s)) s).

(** A call of the fabric, and an access to memory. *)
Definition on_fab {A} (f : F -> A * F) : ST tr A := fun s => let '(a, f') := f (fab s) in Some (a, set_fab f' s).
Definition load (a : Z) : ST tr Z := fun s => match load_word a (hp s) with Some v => Some (v, s) | None => None end.
Definition store (a v : Z) : ST tr unit := fun s =>
  match store_word a v (hp s) with Some h => Some (tt, set_hp h s) | None => None end.
Definition assert_ (b : bool) : ST tr unit := if b then ret tt else stop.

(** ** Locks and counters *)

Definition locks_apply (options : Z) : bool :=
  (Z.land options (Z.lor SHMEM_CTX_PRIVATE SHMEM_CTX_SERIALIZED) =? 0) && (shmem_internal_thread_level =? SHMEM_THREAD_MULTIPLE).

Definition CTX_LOCK : ST tr unit :=
  s <- get ;
  if USE_CTX_LOCK && locks_apply (options (ctx s))
  then (if lock_held s then stop else modify (set_lock true)) else ret tt.
Definition CTX_UNLOCK : ST tr unit :=
  s <- get ;
  if USE_CTX_LOCK && locks_apply (options (ctx s))
  then (if lock_held s then modify (set_lock false) else stop) else ret tt.

Definition CTX_BB_LOCK : ST tr unit :=
  s <- get ;
  match bounce_buffers (ctx s) with
  | None => stop
  | Some _ => if locks_apply (options (ctx s)) then (if bb_lock_held s then stop else modify (set_bb_lock true)) else ret tt
  end.
Definition CTX_BB_UNLOCK : ST tr unit :=
  s <- get ;
  if locks_apply (options (ctx s)) then (if bb_lock_held s then modify (set_bb_lock false) else stop) else ret tt.

(** [true] selects the put counter. *)
Definition CNTR_READ (put : bool) : ST tr Z :=
  s <- get ; ret (if put then pending_put_cntr (ctx s) else pending_get_cntr (ctx s)).
Definition CNTR_INC (put : bool) : ST tr unit := on_ctx (fun c =>
  if put
  then Ctx (options c) ((pending_put_cntr c + 1) mod 2 ^ 64) (pending_get_cntr c) (pending_bb_cntr c) (completed_bb_cntr c) (bounce_buffers c)
  else Ctx (options c) (pending_put_cntr c) ((pending_get_cntr c + 1) mod 2 ^ 64) (pending_bb_cntr c) (completed_bb_cntr c) (bounce_buffers c)).
Definition bb_inc : ST tr unit := on_ctx (fun c =>
  Ctx (options c) (pending_put_cntr c) (pending_get_cntr c) ((pending_bb_cntr c + 1) mod 2 ^ 64) (completed_bb_cntr c) (bounce_buffers c)).
Definition bb_completed_inc : ST tr unit := on_ctx (fun c =>
  Ctx (options c) (pending_put_cntr c) (pending_get_cntr c) (pending_bb_cntr c) ((completed_bb_cntr c + 1) mod 2 ^ 64) (bounce_buffers c)).

(** The event it may read is only warned about. *)
Definition shmem_transport_probe : ST tr unit :=
  if ENABLE_MANUAL_PROGRESS then on_fab fi_target_cq_read ;; ret tt else ret tt.

(** ** Bounce buffers *)

Definition bb_free (item : Z) : ST tr unit := fun s =>
  match bounce_buffers (ctx s) with
  | None => None
  | Some fl => match shmem_free_list_free fl item (hp s) with
               | Some (fl, h) => Some (tt, set_hp h (set_ctx (set_bounce (Some fl) (ctx s)) s))
               | None => None
               end
  end.
Definition bb_alloc : ST tr Z := fun s =>
  match bounce_buffers (ctx s) with
  | None => None
  | Some fl => match shmem_free_list_alloc init_bounce_buffer fl (malloc (more_size fl) (hp s)) (hp s) with
               | Some (item, fl, h) => Some (item, set_hp h (set_ctx (set_bounce (Some fl) (ctx s)) s))
               | None => None
               end
  end.
Definition bb_nalloc : ST tr Z :=
  s <- get ; match bounce_buffers (ctx s) with Some fl => ret (nalloc fl) | None => stop end.

(** Reading all the events: [n] bounds their number. *)
Fixpoint drain_loop (n : nat) : ST tr unit :=
  match n with
  | O => stop
  | S n =>
      r <- on_fab fi_cq_read ;
      let '(rc, frag) := r in
      if rc =? - FI_EAGAIN then ret tt
      else if rc =? 1 then
        mytype <- load (frag + OFFSET_MYTYPE) ;
        if mytype =? SHMEM_TRANSPORT_OFI_TYPE_BOUNCE
        then bb_free frag ;; bb_completed_inc ;; drain_loop n
        else stop
      else stop
  end.
(** At most [max_bounce_buffers] events are outstanding. *)
Definition shmem_transport_ofi_drain_cq : ST tr unit := drain_loop (S (Z.to_nat max_bounce_buffers)).

(** [while (nalloc >= limit) drain]. *)
Fixpoint drain_while (n : nat) (limit : Z) : ST tr unit :=
  nalloc <- bb_nalloc ;
  if nalloc >=? limit then
    match n with O => stop | S n => shmem_transport_ofi_drain_cq ;; drain_while n limit end
  else ret tt.

Definition memcpy (target source len : Z) : ST tr unit :=
  foldr (fun k rest => v <- load (source + k) ; store (target + k) v ;; rest) (ret tt) (upto 0 len).

Definition create_bounce_buffer (source len : Z) : ST tr Z :=
  CTX_BB_LOCK ;;
  assert_ (max_bounce_buffers >? 0) ;;
  drain_while spins max_bounce_buffers ;;
  buff <- bb_alloc ;
  bb_inc ;;
  CTX_BB_UNLOCK ;;
  (if buff =? NULL then stop else ret tt) ;;
  mytype <- load (buff + OFFSET_MYTYPE) ;
  assert_ (mytype =? SHMEM_TRANSPORT_OFI_TYPE_BOUNCE) ;;
  memcpy (buff + SIZEOF_BOUNCE_BUFFER) source len ;;
  ret buff.

(** ** Completion *)

(** The polling loop of [put_quiet] and [get_wait]: whether everything completed, or the
    limit was reached. *)
Fixpoint poll_loop (n : nat) (put : bool) (limit poll_count : Z) : ST tr bool :=
  if (poll_count <? limit) || (limit <? 0) then
    match n with
    | O => stop
    | S n =>
        success <- on_fab (fi_cntr_read put) ;
        fail <- on_fab (fi_cntr_readerr put) ;
        cnt <- CNTR_READ put ;
        shmem_transport_probe ;;
        if (success <? cnt) && (fail =? 0) then
          CTX_UNLOCK ;; CTX_LOCK ;; poll_loop n put limit (poll_count + 1)
        else if negb (fail =? 0) then stop
        else CTX_UNLOCK ;; ret true
    end
  else ret false.

(** The blocking loop after it. *)
Fixpoint wait_loop (n : nat) (put : bool) (cnt : Z) : ST tr unit :=
  match n with
  | O => stop
  | S n =>
      rc <- on_fab (fi_cntr_wait put cnt) ;
      cnt_new <- CNTR_READ put ;
      if negb (rc =? 0) then stop
      else if cnt <? cnt_new then wait_loop n put cnt_new
      else assert_ (cnt =? cnt_new)
  end.

Definition wait_for (put : bool) (limit : Z) : ST tr unit :=
  polled <- poll_loop spins put limit 0 ;
  if (polled : bool) then ret tt
  else cnt_new <- CNTR_READ put ; wait_loop spins put cnt_new ;; CTX_UNLOCK.

Definition has_bounce : ST tr bool := s <- get ; ret (match bounce_buffers (ctx s) with Some _ => true | None => false end).

Definition shmem_transport_put_quiet : ST tr unit :=
  CTX_LOCK ;;
  (* Wait for bounce buffered operations to complete *)
  bounce <- has_bounce ;
  (if (bounce : bool) then CTX_BB_LOCK ;; drain_while spins 1 ;; CTX_BB_UNLOCK else ret tt) ;;
  (* wait for put counter to meet outstanding count value *)
  wait_for true put_poll_limit.

Definition shmem_transport_get_wait : ST tr unit := CTX_LOCK ;; wait_for false get_poll_limit.

Definition shmem_transport_quiet : ST tr Z := shmem_transport_put_quiet ;; shmem_transport_get_wait ;; ret 0.

Definition shmem_transport_fence : ST tr Z :=
  (if WANT_TOTAL_DATA_ORDERING =? 0 then shmem_transport_put_quiet else ret tt) ;;
  shmem_transport_get_wait ;; ret 0.

(** ** Issuing requests *)

(** Whether to retry, with the number of polls. *)
Definition try_again (rc polled : Z) : ST tr (bool * Z) :=
  if negb (rc =? 0) then
    if rc =? - FI_EAGAIN then
      bounce <- has_bounce ;
      (if (bounce : bool) then CTX_BB_LOCK ;; shmem_transport_ofi_drain_cq ;; CTX_BB_UNLOCK
       else e <- on_fab fi_cq_readerr ;
            if (e =? 0) || (e =? - FI_EAGAIN) then ret tt else stop) ;;
      shmem_transport_probe ;;
      if polled + 1 <=? max_poll then ret (true, polled + 1) else stop
    else stop
  else ret (false, polled).

(** [do { ret = fi_...; } while (try_again(ctx, ret, &polled))]. *)
Fixpoint issue_loop (n : nat) (mk : ST tr fi_request) (polled : Z) : ST tr unit :=
  match n with
  | O => stop
  | S n =>
      rq <- mk ;
      rc <- on_fab (fi_submit rq) ;
      r <- try_again rc polled ;
      let '(again, polled) := r in
      if (again : bool) then issue_loop n mk polled else ret tt
  end.
Definition issue (mk : ST tr fi_request) : ST tr unit := issue_loop (S (Z.to_nat max_poll)) mk 0.

(** The bytes at [source], as a request that injects them copies them. *)
Definition inject (source len : Z) : ST tr fi_data :=
  foldr (fun k rest => v <- load (source + k) ; d <- rest ;
           ret (match d with Inject l => Inject (v :: l) | Buffer a => Buffer a end))
    (ret (Inject [])) (upto 0 len).

(** [shmem_transport_ofi_get_mr], which aborts for an address outside the symmetric areas. *)
Definition shmem_transport_ofi_get_mr (addr pe : Z) : ST tr (Z * Z) :=
  match get_mr addr pe with Some r => ret r | None => stop end.

(** ** Puts *)

Definition write_request (d : fi_data) (len pe addr key : Z) (context : option Z) : fi_request :=
  Request FiWrite d len (GET_DEST pe) addr key context false.

Definition shmem_transport_put_scalar (target source len pe : Z) : ST tr unit :=
  mr <- shmem_transport_ofi_get_mr target pe ;
  let '(addr, key) := mr in
  assert_ (len <=? max_buffered_send) ;;
  CTX_LOCK ;; CNTR_INC true ;;
  issue (d <- inject source len ; ret (write_request d len pe addr key None)) ;;
  CTX_UNLOCK.

(** The loop over fragments: [done] bytes are on their way; [n] bounds the fragments left. *)
Fixpoint frag_loop (n : nat) (put : bool) (len done : Z) (mk : Z -> Z -> fi_request) : ST tr unit :=
  if done <? len then
    match n with
    | O => stop
    | S n =>
        let frag_len := Z.min max_msg_size (len - done) in
        CNTR_INC put ;; issue (ret (mk done frag_len)) ;; frag_loop n put len (done + frag_len) mk
    end
  else ret tt.
Definition frags (len : Z) : nat := Z.to_nat (len / max_msg_size + 1).

Definition shmem_transport_ofi_put_large (target source len pe : Z) : ST tr unit :=
  mr <- shmem_transport_ofi_get_mr target pe ;
  let '(addr, key) := mr in
  CTX_LOCK ;;
  frag_loop (frags len) true len 0 (fun done frag_len =>
    write_request (Buffer (source + done)) frag_len pe (addr + done) key None) ;;
  CTX_UNLOCK.

(** The value of [*completion] afterwards. *)
Definition shmem_transport_put_nb (target source len pe completion : Z) : ST tr Z :=
  bounce <- has_bounce ;
  if len <=? max_buffered_send then
    shmem_transport_put_scalar target source len pe ;; ret completion
  else if (len <=? bounce_buffer_size) && bounce then
    CTX_LOCK ;; CNTR_INC true ;;
    mr <- shmem_transport_ofi_get_mr target pe ;
    let '(addr, key) := mr in
    buff <- create_bounce_buffer source len ;
    issue (ret (write_request (Buffer (buff + SIZEOF_BOUNCE_BUFFER)) len pe addr key (Some buff))) ;;
    CTX_UNLOCK ;; ret completion
  else
    shmem_transport_ofi_put_large target source len pe ;; ret (completion + 1).

(** The data of a put with signal, up to the fence that separates it from the signal. *)
Definition put_signal_data (target source len pe : Z) : ST tr unit :=
  mr <- shmem_transport_ofi_get_mr target pe ;
  let '(addr, key) := mr in
  if len <=? max_buffered_send then
    CTX_LOCK ;; CNTR_INC true ;;
    issue (d <- inject source len ; ret (write_request d len pe addr key None)) ;;
    CTX_UNLOCK
  else
    CTX_LOCK ;;
    frag_loop (frags len) true len 0 (fun done frag_len =>
      write_request (Buffer (source + done)) frag_len pe (addr + done) key None) ;;
    CTX_UNLOCK.

Definition put_signal_send (sig_addr signal sig_op pe : Z) : ST tr unit :=
  mr <- shmem_transport_ofi_get_mr sig_addr pe ;
  let '(addr, key) := mr in
  let atomic_op := if sig_op =? SHMEM_SIGNAL_ADD then FI_SUM else FI_ATOMIC_WRITE in
  CTX_LOCK ;; CNTR_INC true ;;
  issue (ret (Request (FiAtomic FI_UINT64 atomic_op) (Inject [signal]) 1 (GET_DEST pe) addr key None USE_FI_FENCE)) ;;
  CTX_UNLOCK.

Definition shmem_transport_put_signal_nbi (target source len sig_addr signal sig_op pe : Z) : ST tr unit :=
  put_signal_data target source len pe ;;
  (if USE_FI_FENCE then ret 0 else shmem_transport_fence) ;;
  put_signal_send sig_addr signal sig_op pe.

Definition shmem_transport_put_wait (completion : Z) : ST tr Z :=
  assert_ (completion >=? 0) ;;
  if completion >? 0 then shmem_transport_put_quiet ;; ret (completion - 1) else ret completion.

Definition shmem_transport_put_nbi (target source len pe : Z) : ST tr unit :=
  if len <=? max_buffered_send then shmem_transport_put_scalar target source len pe
  else shmem_transport_ofi_put_large target source len pe.

(** ** Gets *)

Definition shmem_transport_get (target source len pe : Z) : ST tr unit :=
  mr <- shmem_transport_ofi_get_mr source pe ;
  let '(addr, key) := mr in
  CTX_LOCK ;;
  let read done frag_len :=
    Request (FiRead (target + done)) (Inject []) frag_len (GET_DEST pe) (addr + done) key None false in
  (if len <=? max_msg_size then CNTR_INC false ;; issue (ret (read 0 len))
   else frag_loop (frags len) false len 0 read) ;;
  CTX_UNLOCK.

(** ** Atomics *)

Definition check_dtype (len : Z) (d : shm_internal_datatype_t) : ST tr unit :=
  assert_ (SHMEM_Dtsize (shmem_transport_dtype_table d) =? len).

(** [put] selects the counter; [mk] builds the request for the address and the key. *)
Definition atomic_request (target pe : Z) (put : bool) (checks : ST tr unit) (mk : Z -> Z -> ST tr fi_request) : ST tr unit :=
  mr <- shmem_transport_ofi_get_mr target pe ;
  let '(addr, key) := mr in
  checks ;;
  CTX_LOCK ;; CNTR_INC put ;; issue (mk addr key) ;; CTX_UNLOCK.

Definition fetching_checks (len : Z) (d : shm_internal_datatype_t) : ST tr unit :=
  assert_ (len <=? SIZEOF_DOUBLE_COMPLEX) ;; check_dtype len d.

Definition shmem_transport_cswap (target source dest operand len pe : Z) (d : shm_internal_datatype_t) : ST tr unit :=
  atomic_request target pe false (fetching_checks len d) (fun addr key =>
    ret (Request (FiCompareAtomic (shmem_transport_dtype_table d) FI_CSWAP (Buffer operand) dest) (Buffer source) 1
           (GET_DEST pe) addr key None false)).

Definition shmem_transport_cswap_nbi (target source dest operand len pe : Z) (d : shm_internal_datatype_t) : ST tr unit :=
  atomic_request target pe false (fetching_checks len d) (fun addr key =>
    v <- inject source len ; c <- inject operand len ;
    ret (Request (FiCompareAtomic (shmem_transport_dtype_table d) FI_CSWAP c dest) v 1 (GET_DEST pe) addr key None false)).

Definition shmem_transport_mswap (target source dest mask len pe : Z) (d : shm_internal_datatype_t) : ST tr unit :=
  atomic_request target pe false (fetching_checks len d) (fun addr key =>
    ret (Request (FiCompareAtomic (shmem_transport_dtype_table d) FI_MSWAP (Buffer mask) dest) (Buffer source) 1
           (GET_DEST pe) addr key None false)).

Definition shmem_transport_atomic (target source len pe : Z) (o : fi_op) (d : shm_internal_datatype_t) : ST tr unit :=
  atomic_request target pe true (check_dtype len d) (fun addr key =>
    v <- inject source len ;
    ret (Request (FiAtomic (shmem_transport_dtype_table d) o) v 1 (GET_DEST pe) addr key None false)).

Definition shmem_transport_fetch_atomic (target source dest len pe : Z) (o : fi_op) (d : shm_internal_datatype_t) : ST tr unit :=
  atomic_request target pe false (fetching_checks len d) (fun addr key =>
    ret (Request (FiFetchAtomic (shmem_transport_dtype_table d) o dest) (Buffer source) 1 (GET_DEST pe) addr key None false)).

Definition shmem_transport_fetch_atomic_nbi (target source dest len pe : Z) (o : fi_op) (d : shm_internal_datatype_t) :
    ST tr unit :=
  atomic_request target pe false (fetching_checks len d) (fun addr key =>
    v <- inject source len ;
    ret (Request (FiFetchAtomic (shmem_transport_dtype_table d) o dest) v 1 (GET_DEST pe) addr key None false)).

Definition shmem_transport_swap (target source dest len pe : Z) (d : shm_internal_datatype_t) : ST tr unit :=
  shmem_transport_fetch_atomic target source dest len pe FI_ATOMIC_WRITE d.
Definition shmem_transport_swap_nbi (target source dest len pe : Z) (d : shm_internal_datatype_t) : ST tr unit :=
  shmem_transport_fetch_atomic_nbi target source dest len pe FI_ATOMIC_WRITE d.
Definition shmem_transport_atomic_set (target source len pe : Z) (d : shm_internal_datatype_t) : ST tr unit :=
  shmem_transport_atomic target source len pe FI_ATOMIC_WRITE d.
(** The source of a pure fetch is NULL. *)
Definition shmem_transport_atomic_fetch (target source len pe : Z) (d : shm_internal_datatype_t) : ST tr unit :=
  shmem_transport_fetch_atomic source NULL target len pe FI_ATOMIC_READ d.

(** The loop over the chunks of a long vector: [sent] of [len] elements are on their way. *)
Fixpoint chunk_loop (n : nat) (len chunk sent : Z) (mk : Z -> Z -> fi_request) : ST tr unit :=
  if sent <? len then
    match n with
    | O => stop
    | S n =>
        let chunksize := Z.min (len - sent) chunk in
        CNTR_INC true ;; issue (ret (mk sent chunksize)) ;; chunk_loop n len chunk (sent + chunksize) mk
    end
  else ret tt.

Definition shmem_transport_atomicv (target source full_len pe : Z) (o : fi_op) (datatype : shm_internal_datatype_t) : ST tr unit :=
  let dt := shmem_transport_dtype_table datatype in
  let size := SHMEM_Dtsize dt in
  let len := full_len / size in
  assert_ (size * len =? full_len) ;;
  CTX_LOCK ;;
  let '(rc, max_count) := fi_atomicvalid dt o in
  let max_atomic_size := (max_count * size) mod 2 ^ 64 in
  if (max_atomic_size >? max_msg_size) || negb (rc =? 0) || (max_atomic_size =? 0) then CTX_UNLOCK ;; stop
  else
    mr <- shmem_transport_ofi_get_mr target pe ;
    let '(addr, key) := mr in
    bounce <- has_bounce ;
    (if full_len <=? Z.min max_buffered_send max_atomic_size then
       CNTR_INC true ;;
       issue (v <- inject source full_len ; ret (Request (FiAtomic dt o) v len (GET_DEST pe) addr key None false))
     else if (full_len <=? Z.min bounce_buffer_size max_atomic_size) && bounce then
       buff <- create_bounce_buffer source full_len ;
       CNTR_INC true ;;
       issue (ret (Request (FiAtomic dt o) (Buffer (buff + SIZEOF_BOUNCE_BUFFER)) len (GET_DEST pe) addr key (Some buff) false))
     else
       chunk_loop (Z.to_nat len) len (max_atomic_size / size) 0 (fun sent chunksize =>
         Request (FiAtomic dt o) (Buffer (source + sent * size)) chunksize (GET_DEST pe) (addr + sent * size) key None false)) ;;
    CTX_UNLOCK.

(** USE_SHR_ATOMICS forces software reductions. *)
Definition shmem_transport_atomic_supported (USE_SHR_ATOMICS : bool) (o : fi_op) (d : shm_internal_datatype_t) : ST tr bool :=
  if USE_SHR_ATOMICS then ret false
  else
    CTX_LOCK ;;
    let '(rc, size) := fi_atomicvalid (shmem_transport_dtype_table d) o in
    CTX_UNLOCK ;; ret (negb (negb (rc =? 0) || (size =? 0))).

(** ** Performance counters *)

(** The counters of the bounce buffers: pending and completed, zero without bounce buffers. *)
Definition bb_counters : ST tr (Z * Z) :=
  s <- get ;
  if negb (Z.land (options (ctx s)) SHMEMX_CTX_BOUNCE_BUFFER =? 0)
  then CTX_BB_LOCK ;; s <- get ; CTX_BB_UNLOCK ;; ret (pending_bb_cntr (ctx s), completed_bb_cntr (ctx s))
  else ret (0, 0).

Definition shmem_transport_pcntr_get_issued_write : ST tr Z :=
  CTX_LOCK ;; cnt <- CNTR_READ true ; CTX_UNLOCK ;;
  bb <- bb_counters ; ret ((cnt + bb.1) mod 2 ^ 64).
Definition shmem_transport_pcntr_get_issued_read : ST tr Z :=
  CTX_LOCK ;; cnt <- CNTR_READ false ; CTX_UNLOCK ;; ret cnt.
Definition shmem_transport_pcntr_get_completed_write : ST tr Z :=
  CTX_LOCK ;; cnt <- on_fab (fi_cntr_read true) ; CTX_UNLOCK ;;
  bb <- bb_counters ; ret ((cnt + bb.2) mod 2 ^ 64).
Definition shmem_transport_pcntr_get_completed_read : ST tr Z :=
  CTX_LOCK ;; cnt <- on_fab (fi_cntr_read false) ; CTX_UNLOCK ;; ret cnt.
Definition shmem_transport_pcntr_get_completed_target (ENABLE_TARGET_CNTR : bool) : ST tr Z :=
  if ENABLE_TARGET_CNTR then on_fab fi_target_cntr_read else ret 0.

Record shmemx_pcntr_t := Pcntr { completed_put : Z; completed_get : Z; pending_put : Z; pending_get : Z; target : Z }.
Definition shmem_transport_pcntr_get_all (ENABLE_TARGET_CNTR : bool) : ST tr shmemx_pcntr_t :=
  CTX_LOCK ;;
  bb <- bb_counters ;
  cput <- on_fab (fi_cntr_read true) ;
  cget <- on_fab (fi_cntr_read false) ;
  pput <- CNTR_READ true ;
  pget <- CNTR_READ false ;
  CTX_UNLOCK ;;
  t <- shmem_transport_pcntr_get_completed_target ENABLE_TARGET_CNTR ;
  ret (Pcntr ((bb.2 + cput) mod 2 ^ 64) cget ((bb.1 + pput) mod 2 ^ 64) pget t).

Definition shmem_transport_received_cntr_get (ENABLE_HARD_POLLING : bool) : ST tr Z :=
  if ENABLE_HARD_POLLING then stop
  else assert_ (shmem_internal_thread_level =? SHMEM_THREAD_SINGLE) ;; on_fab fi_target_cntr_read.
Definition shmem_transport_received_cntr_wait (ENABLE_HARD_POLLING : bool) (ge_val : Z) : ST tr unit :=
  if ENABLE_HARD_POLLING then stop
  else
    assert_ (shmem_internal_thread_level =? SHMEM_THREAD_SINGLE) ;;
    rc <- on_fab (fi_target_cntr_wait ge_val) ; if negb (rc =? 0) then stop else ret tt.

(** Counted operations are not supported over libfabric. *)
Definition shmem_transport_put_ct_nb (ct target source len pe : Z) : ST tr Z := stop.
Definition shmem_transport_get_ct (ct target source len pe : Z) : ST tr unit := stop.
Definition shmem_transport_ct_create : ST tr Z := stop.
Definition shmem_transport_ct_free (ct : Z) : ST tr Z := stop.
Definition shmem_transport_ct_get (ct : Z) : ST tr Z := stop.
Definition shmem_transport_ct_set (ct value : Z) : ST tr unit := stop.
Definition shmem_transport_ct_wait (ct wait_for : Z) : ST tr unit := stop.

Definition shmem_transport_syncmem : ST tr unit := ret tt.
End transport.
