(* ===== verification/OfiProof.v ===== *)
(** * The data path of the OFI transport: what its calls guarantee

    Over any endpoint with the laws of [Fabric].  The invariant ties the counters of the
    context to the requests issued and the bounce buffers in use to the events not yet
    read; every call preserves it, terminates, and issues the requests it should.  The
    consequences: quiet completes everything, a blocking put leaves its source reusable,
    and the buffers of the transport are reused only after their events. *)

From stdpp Require Import gmap.
From S2P Require Import Prelude ReduceOp ErrState Stx FreeList Fabric OfiTransport.
Local Open Scope Z_scope.
Local Open Scope st_scope.

(** What start-up guarantees of the configuration: the provider is retried often enough,
    the sizes are positive, [malloc] answers fresh blocks, the loops may spin long enough. *)
Record config_ok (refusals delay : nat) {cfg : ofi_config} : Prop := {
  co_poll : 0 <= max_poll;
  co_msg : 0 < max_msg_size;
  co_bounce : 0 <= bounce_buffer_size < 2 ^ 31 - SIZEOF_BOUNCE_BUFFER;
  co_max_bb : 0 <= max_bounce_buffers < 2 ^ 64;
  co_malloc : forall n h, exists b, malloc n h = Some b /\ fresh b n h;
  co_spins : (delay + Z.to_nat max_bounce_buffers + 1 < spins)%nat }.

(** The contexts of the events that were not read yet. *)
Definition event_of (e : entry) : option Z := if e_seen e then None else rq_context (e_req e).
Definition outstanding (l : list entry) : list Z := omap event_of l.

(** Time passes and events are read. *)
Definition moved : list entry -> list entry -> Prop := Forall2 (fun e e' =>
  e_req e' = e_req e /\ (e_done e = true -> e_done e' = true) /\ (e_seen e = true -> e_seen e' = true)).

Lemma moved_refl l : moved l l.
Proof. induction l; by constructor. Qed.

Lemma moved_trans l1 l2 l3 : moved l1 l2 -> moved l2 l3 -> moved l1 l3.
Proof.
  intros H12. revert l3. induction H12 as [|e1 e2 l1 l2 (R1 & D1 & S1) _ IH]; intros l3 H23; inversion H23 as [|? e3 ? l3' (R2 & D2 & S2)];
    constructor; [|by apply IH]. split; [congruence|auto].
Qed.

Lemma advance_moved l l' : advance l l' -> moved l l'.
Proof. induction 1 as [|e e' l l' (R & S & D)]; constructor; [|done]. split; [done|]. by rewrite S. Qed.

Lemma moved_app l1 l1' l2 l2' : moved l1 l1' -> moved l2 l2' -> moved (l1 ++ l2) (l1' ++ l2').
Proof. apply Forall2_app. Qed.

Lemma moved_mark l k rq : l !! k = Some (Entry rq true false) -> moved l (<[k := Entry rq true true]> l).
Proof.
  revert k. induction l as [|e l IH]; intros [|k]; simpl; try done.
  - intros [= ->]. constructor; [done|apply moved_refl].
  - intros Hk. constructor; [done|by apply IH].
Qed.

Lemma moved_submitted w l l' : moved l l' -> submitted w l' = submitted w l.
Proof. unfold submitted. induction 1 as [|e e' l l' (E & _) _ IH]; [done|]. simpl. by rewrite IH, E. Qed.

Lemma moved_reqs l l' : moved l l' -> map e_req l' = map e_req l.
Proof. induction 1 as [|e e' l l' (E & _) _ IH]; [done|]. simpl. by rewrite IH, E. Qed.

Lemma moved_done (P : fi_request -> Prop) l l' : moved l l' ->
  (forall e, e ∈ l -> P (e_req e) -> e_done e = true) -> forall e, e ∈ l' -> P (e_req e) -> e_done e = true.
Proof.
  intros Ha Hd e' [k Hk]%list_elem_of_lookup HP. destruct (Forall2_lookup_r _ _ _ _ _ Ha Hk) as (e & He & R & D & _).
  apply D, (Hd e); [by eapply list_elem_of_lookup_2|congruence].
Qed.

Lemma advance_outstanding l l' : advance l l' -> outstanding l' = outstanding l.
Proof. unfold outstanding. induction 1 as [|e e' l l' (R & S & _) _ IH]; [done|]. csimpl.
  replace (event_of e') with (event_of e) by (unfold event_of; by rewrite R, S). by rewrite IH.
Qed.

Lemma mark_outstanding l k rq c : l !! k = Some (Entry rq true false) -> rq_context rq = Some c ->
  outstanding l ≡ₚ c :: outstanding (<[k := Entry rq true true]> l).
Proof.
  unfold outstanding. revert k. induction l as [|e l IH]; intros [|k]; csimpl; try done.
  - intros [= ->] Hc. csimpl. unfold event_of at 1. simpl. by rewrite Hc.
  - intros Hk Hc. destruct (event_of e) as [c'|]; [|by apply IH]. rewrite (IH k) by done. constructor.
Qed.

Lemma outstanding_app l1 l2 : outstanding (l1 ++ l2) = outstanding l1 ++ outstanding l2.
Proof. apply omap_app. Qed.

Lemma advance_seen l l' : advance l l' -> (forall e, e ∈ l -> e_seen e = true -> e_done e = true) ->
  forall e, e ∈ l' -> e_seen e = true -> e_done e = true.
Proof.
  intros Ha Hl e' [k Hk]%list_elem_of_lookup Hs. destruct (advance_lookup _ _ _ _ Ha Hk) as (e & He & _ & S & D).
  apply D, (Hl e); [by eapply list_elem_of_lookup_2|congruence].
Qed.

(** An event that is outstanding and whose request completed is ready. *)
Lemma outstanding_ready l c : c ∈ outstanding l -> all_done l -> exists e, e ∈ l /\ event_ready e.
Proof.
  intros (e & He & Hev)%list_elem_of_omap Hd. exists e. split; [done|]. unfold event_of in Hev.
  destruct (e_seen e) eqn:Es; [done|]. split; [by apply Hd|]. split; [done|congruence].
Qed.

Section proof.
Context {F : Type} {fabric : Fabric F} {refusals delay : nat} {laws : FabricLaws F refusals delay} {cfg : ofi_config}.
Context (Hcfg : config_ok refusals delay).
(** The blocks of the program: the arrays it puts from lie in them. *)
Context (ub : gmap Z Z).
(** Why a call may stop: the endpoint answers an error, or refuses a request more often
    than the transport retries it. *)
Definition endpoint_fault : Prop := endpoint_error \/ max_poll < Z.of_nat refusals.
#[local] Abbreviation runs := (runs_or endpoint_fault).
Abbreviation state := (tr (F := F)).
Implicit Types (s : state) (h : heap) (l : list entry).

Definition elem_size : Z := SIZEOF_BOUNCE_BUFFER + bounce_buffer_size.
Definition in_user (a : Z) : Prop := exists b sz, ub !! b = Some sz /\ b <= a < b + sz.
Abbreviation ents s := (entries (fab s)).

(** ** The invariant *)

(** The bounce buffers: in use are those whose event was not read, and [out], those of the
    requests being issued. *)
Definition bounce_ok (out : list Z) (s : state) : Prop :=
  match bounce_buffers (ctx s) with
  | None => outstanding (ents s) = [] /\ out = []
  | Some fl => 0 < max_bounce_buffers /\ exists fr lv bs, fl_inv elem_size fl (hp s) fr lv bs /\
      tagged OFFSET_MYTYPE SHMEM_TRANSPORT_OFI_TYPE_BOUNCE (hp s) (fr ++ lv) /\
      lv ≡ₚ out ++ outstanding (ents s) /\ Z.of_nat (length lv) <= max_bounce_buffers /\ forall b, b ∈ bs -> ub !! b = None
  end.

(** [p] puts and [g] gets are counted but not issued yet. *)
Record core (p g : nat) (out : list Z) (s : state) : Prop := {
  cr_put : pending_put_cntr (ctx s) = Z.of_nat (submitted true (ents s) + p) mod 2 ^ 64;
  cr_get : pending_get_cntr (ctx s) = Z.of_nat (submitted false (ents s) + g) mod 2 ^ 64;
  cr_wf : heap_wf (hp s);
  cr_user : forall b sz, ub !! b = Some sz -> blocks (hp s) !! b = Some sz;
  cr_bounce : bounce_ok out s;
  cr_context : forall e, e ∈ ents s -> rq_context (e_req e) <> None -> is_put (e_req e) = true;
  cr_seen : forall e, e ∈ ents s -> e_seen e = true -> e_done e = true }.

(** Whether the two locks are held, where they apply. *)
Definition locks (b c : bool) (s : state) : Prop :=
  lock_held s = b && (USE_CTX_LOCK && locks_apply (options (ctx s))) /\ bb_lock_held s = c && locks_apply (options (ctx s)).

Record mid (b c : bool) (p g : nat) (out : list Z) (s : state) : Prop := { md_locks : locks b c s; md_core : core p g out s }.

(** Between two calls. *)
Definition tr_inv : state -> Prop := mid false false 0 0 [].

(** What a call does: it issues [rqs], time passes, the memory of the program and the bounce
    buffers still in use (and those of [out]) keep their contents. *)
Record evolves (out : list Z) (rqs : list fi_request) (s s' : state) : Prop := {
  ev_options : options (ctx s') = options (ctx s);
  ev_bounce : is_Some (bounce_buffers (ctx s')) <-> is_Some (bounce_buffers (ctx s));
  ev_entries : exists l new, moved (ents s) l /\ ents s' = l ++ new /\ map e_req new = rqs;
  ev_user : forall a, in_user a -> cells (hp s') !! a = cells (hp s) !! a;
  ev_data : forall k e' c, (k < length (ents s))%nat -> ents s' !! k = Some e' -> event_of e' = Some c ->
    forall d, SIZEOF_BOUNCE_BUFFER <= d < elem_size -> cells (hp s') !! (c + d) = cells (hp s) !! (c + d);
  ev_out : forall c, c ∈ out -> forall d, SIZEOF_BOUNCE_BUFFER <= d < elem_size -> cells (hp s') !! (c + d) = cells (hp s) !! (c + d) }.

Lemma evolves_refl out s : evolves out [] s s.
Proof. split; try done. exists (ents s), []. split; [apply moved_refl|]. split; [by rewrite app_nil_r|done]. Qed.

Lemma evolves_length out rqs s s' : evolves out rqs s s' -> length (ents s') = (length (ents s) + length rqs)%nat.
Proof.
  intros [_ _ (l & new & Hm & -> & <-) _ _ _]. rewrite length_app, length_map. by rewrite (Forall2_length Hm).
Qed.

Lemma event_of_moved l l' k e' c : moved l l' -> l' !! k = Some e' -> event_of e' = Some c ->
  exists e, l !! k = Some e /\ event_of e = Some c.
Proof.
  intros Hm Hk Hc. destruct (Forall2_lookup_r _ _ _ _ _ Hm Hk) as (e & He & R & _ & S). exists e. split; [done|].
  unfold event_of in *. destruct (e_seen e') eqn:E; [done|]. rewrite R in Hc.
  destruct (e_seen e); [by specialize (S eq_refl)|done].
Qed.

Lemma evolves_trans out r1 r2 s1 s2 s3 : evolves out r1 s1 s2 -> evolves out r2 s2 s3 -> evolves out (r1 ++ r2) s1 s3.
Proof.
  intros H12 H23. pose proof (evolves_length _ _ _ _ H12) as Hl12.
  destruct H12 as [O1 B1 (l1 & n1 & M1 & E1 & R1) U1 D1 T1], H23 as [O2 B2 (l2 & n2 & M2 & E2 & R2) U2 D2 T2]. split.
  - congruence.
  - by rewrite B2.
  - rewrite E1 in M2. apply Forall2_app_inv_l in M2 as (l1' & n1' & Ml & Mn & ->).
    exists l1', (n1' ++ n2). split; [by eapply moved_trans|]. split; [by rewrite E2, app_assoc|].
    by rewrite map_app, (moved_reqs _ _ Mn), R1, R2.
  - intros a Ha. by rewrite U2, U1.
  - intros k e' c Hk He Hc d Hd. assert (k < length (ents s2))%nat as Hk2 by lia.
    rewrite (D2 k e' c Hk2 He Hc d Hd).
    rewrite E2 in He. rewrite lookup_app_l in He by (by rewrite (Forall2_length M2) in Hk2).
    destruct (event_of_moved _ _ _ _ _ M2 He Hc) as (e2 & He2 & Hc2). by apply (D1 k e2 c).
  - intros c Hc d Hd. by rewrite (T2 c Hc d Hd), T1.
Qed.

Lemma evolves_same out s s' : fab s' = fab s -> ctx s' = ctx s -> hp s' = hp s -> evolves out [] s s'.
Proof. intros E1 E2 E3. pose proof (evolves_refl out s) as []. split; rewrite ?E1, ?E2, ?E3; done. Qed.

Lemma evolves_nil out s1 s2 s3 rqs : evolves out [] s1 s2 -> evolves out rqs s2 s3 -> evolves out rqs s1 s3.
Proof. apply (evolves_trans out [] rqs). Qed.

Lemma evolves_sub out out' rqs s s' : (forall c, c ∈ out' -> c ∈ out) -> evolves out rqs s s' -> evolves out' rqs s s'.
Proof. intros Hs []. split; auto. Qed.

(** ** The primitives *)

Lemma runs_on_fab {A} (call : F -> A * F) s (Q : A -> state -> Prop) :
  (forall a f', call (fab s) = (a, f') -> Q a (set_fab f' s)) -> runs (on_fab call) s Q.
Proof. intros HQ. unfold on_fab, runs_or. destruct (call (fab s)) as [a f'] eqn:E. by apply HQ. Qed.

Lemma runs_load a v s (Q : Z -> state -> Prop) : cells (hp s) !! a = Some v -> Q v s -> runs (load a) s Q.
Proof. intros Hv HQ. apply (runs_some _ _ _ _ v s); [|done]. unfold load, load_word. by rewrite Hv. Qed.

Lemma runs_assert (b : bool) s (Q : unit -> state -> Prop) : b = true -> Q tt s -> runs (assert_ b) s Q.
Proof. intros -> HQ. by apply runs_ret. Qed.

Lemma runs_lock b p g out s : mid false b p g out s ->
  runs CTX_LOCK s (fun _ s' => mid true b p g out s' /\ evolves out [] s s' /\ fab s' = fab s /\ ctx s' = ctx s /\ hp s' = hp s).
Proof.
  intros [[L1 L2] [C1 C2 C3 C4 C5 C6 C7]]. unfold CTX_LOCK. runs_step. runs_step. simpl in L1.
  destruct (USE_CTX_LOCK && locks_apply (options (ctx s))) eqn:E.
  - rewrite L1. apply runs_modify. split; [|split; [by apply evolves_same|done]]. by split; [split; simpl; rewrite ?E|].
  - apply runs_ret. split; [|split; [by apply evolves_same|done]]. by split; [split; simpl; rewrite ?E|].
Qed.

Lemma runs_unlock b p g out s : mid true b p g out s ->
  runs CTX_UNLOCK s (fun _ s' => mid false b p g out s' /\ evolves out [] s s' /\ fab s' = fab s /\ ctx s' = ctx s /\ hp s' = hp s).
Proof.
  intros [[L1 L2] [C1 C2 C3 C4 C5 C6 C7]]. unfold CTX_UNLOCK. runs_step. runs_step. simpl in L1.
  destruct (USE_CTX_LOCK && locks_apply (options (ctx s))) eqn:E.
  - rewrite L1. apply runs_modify. split; [|split; [by apply evolves_same|done]]. by split; [split|].
  - apply runs_ret. split; [|split; [by apply evolves_same|done]]. by split; [split; simpl; rewrite ?E|].
Qed.

Definition has_buffers s : Prop := is_Some (bounce_buffers (ctx s)).

Lemma runs_bb_lock b p g out s : has_buffers s -> mid b false p g out s ->
  runs CTX_BB_LOCK s (fun _ s' => mid b true p g out s' /\ evolves out [] s s' /\ fab s' = fab s /\ ctx s' = ctx s /\ hp s' = hp s).
Proof.
  intros [fl Hfl] [[L1 L2] [C1 C2 C3 C4 C5 C6 C7]]. unfold CTX_BB_LOCK. runs_step. runs_step. rewrite Hfl. simpl in L2.
  destruct (locks_apply (options (ctx s))) eqn:E.
  - rewrite L2. apply runs_modify. split; [|split; [by apply evolves_same|done]]. split; [split; simpl; rewrite ?E; by rewrite ?E in L1|done].
  - apply runs_ret. split; [|split; [by apply evolves_same|done]]. by split; [split; simpl; rewrite ?E; rewrite ?E in L1|].
Qed.

Lemma runs_bb_unlock b p g out s : mid b true p g out s ->
  runs CTX_BB_UNLOCK s (fun _ s' => mid b false p g out s' /\ evolves out [] s s' /\ fab s' = fab s /\ ctx s' = ctx s /\ hp s' = hp s).
Proof.
  intros [[L1 L2] [C1 C2 C3 C4 C5 C6 C7]]. unfold CTX_BB_UNLOCK. runs_step. runs_step. simpl in L2.
  destruct (locks_apply (options (ctx s))) eqn:E.
  - rewrite L2. apply runs_modify. split; [|split; [by apply evolves_same|done]]. by split; [split; simpl; rewrite ?E; rewrite ?E in L1|].
  - apply runs_ret. split; [|split; [by apply evolves_same|done]]. by split; [split; simpl; rewrite ?E; rewrite ?E in L1|].
Qed.

(** Time passes in a call of the fabric. *)
Lemma advance_step b c p g out s f' : mid b c p g out s -> advance (ents s) (entries f') ->
  mid b c p g out (set_fab f' s) /\ evolves out [] s (set_fab f' s).
Proof.
  intros [[L1 L2] [C1 C2 C3 C4 C5 C6 C7]] Ha. split; [split; [done|split; simpl; try done]|split; try done].
  - by rewrite (advance_submitted _ _ _ Ha).
  - by rewrite (advance_submitted _ _ _ Ha).
  - unfold bounce_ok in *. simpl. by rewrite (advance_outstanding _ _ Ha).
  - intros e' [k Hk]%list_elem_of_lookup Hc. destruct (advance_lookup _ _ _ _ Ha Hk) as (e & He & R & _).
    rewrite R in *. apply C6; [by eapply list_elem_of_lookup_2|done].
  - by apply (advance_seen _ _ Ha).
  - exists (entries f'), []. split; [by apply advance_moved|]. by rewrite app_nil_r.
Qed.

(** The polls that remain. *)
Definition calm s s' : Prop := (tries (fab s') <= tries (fab s))%nat /\ (work (fab s') <= work (fab s))%nat.
Lemma calm_refl s : calm s s.
Proof. by split. Qed.
Lemma calm_trans s1 s2 s3 : calm s1 s2 -> calm s2 s3 -> calm s1 s3.
Proof. unfold calm. lia. Qed.
Lemma calm_fab s s' : fab s' = fab s -> calm s s'.
Proof. unfold calm. by intros ->. Qed.

(** A poll of the fabric whose answer is known. *)
Lemma runs_probe b c p g out s : mid b c p g out s ->
  runs shmem_transport_probe s (fun _ s' => mid b c p g out s' /\ evolves out [] s s' /\ calm s s' /\ advance (ents s) (ents s')).
Proof.
  intros Hm. unfold shmem_transport_probe. destruct ENABLE_MANUAL_PROGRESS.
  - runs_step. apply runs_on_fab. intros rc f' E. runs_step. destruct (law_target_cq_read _ _ _ E) as [Hp Ha].
    destruct (advance_step _ _ _ _ _ _ _ Hm Ha) as [Hm' He]. by split.
  - apply runs_ret. split; [done|]. split; [apply evolves_refl|]. split; [apply calm_refl|apply advance_refl].
Qed.

Lemma nalloc_length fl h fr lv bs : fl_inv elem_size fl h fr lv bs -> Z.of_nat (length lv) <= max_bounce_buffers ->
  nalloc fl = Z.of_nat (length lv).
Proof. intros Hi Hl. rewrite (fi_count _ _ _ _ _ _ Hi). apply Z.mod_small. pose proof (co_max_bb _ _ Hcfg). lia. Qed.

Lemma elem_size_ok : SIZEOF_PTR <= elem_size /\ 2 * elem_size < 2 ^ 32.
Proof. pose proof (co_bounce _ _ Hcfg). unfold elem_size, SIZEOF_PTR, SIZEOF_BOUNCE_BUFFER in *. lia. Qed.

Lemma more_size_eq fl : element_size fl = elem_size -> more_size fl = block_size elem_size.
Proof.
  intros E. unfold more_size, block_size. rewrite E. pose proof elem_size_ok as He.
  rewrite wrap_u_id by (unfold NUM_ELEMENTS, SIZEOF_PTR in *; lia). done.
Qed.

Lemma mytype_offset : SIZEOF_PTR <= OFFSET_MYTYPE < elem_size.
Proof. pose proof (co_bounce _ _ Hcfg). unfold elem_size, SIZEOF_PTR, OFFSET_MYTYPE, SIZEOF_BOUNCE_BUFFER. lia. Qed.

Lemma init_within item h : differ_within item (item + elem_size) h (init_bounce_buffer item h).
Proof.
  pose proof mytype_offset. unfold init_bounce_buffer, store_word, SIZEOF_PTR in *.
  destruct (cells h !! (item + OFFSET_MYTYPE)) eqn:E; simpl; [|by split].
  split; [done|]. intros a. simpl. destruct (decide (item + OFFSET_MYTYPE = a)) as [<-|Hne].
  - rewrite lookup_insert_eq. split; [done|lia].
  - by rewrite lookup_insert_ne.
Qed.

Lemma init_tags item h : is_Some (cells h !! (item + OFFSET_MYTYPE)) ->
  cells (init_bounce_buffer item h) !! (item + OFFSET_MYTYPE) = Some SHMEM_TRANSPORT_OFI_TYPE_BOUNCE.
Proof. intros [v Hv]. unfold init_bounce_buffer, store_word. rewrite Hv. apply lookup_insert_eq. Qed.

(** User cells are not items. *)
Lemma user_not_item fl h fr lv bs a x : fl_inv elem_size fl h fr lv bs -> (forall b sz, ub !! b = Some sz -> blocks h !! b = Some sz) ->
  (forall b, b ∈ bs -> ub !! b = None) -> in_user a -> x ∈ fr ++ lv -> a < x \/ x + elem_size <= a.
Proof.
  intros Hi Hu Hbs (b & sz & Hb & Ha) Hx.
  destruct (item_within elem_size elem_size_ok _ _ _ _ _ x Hi Hx) as (c & Hcb & H1 & H2 & Hc).
  assert (b <> c) as Hbc by (intros ->; by rewrite (Hbs c Hcb) in Hb).
  pose proof (hw_disjoint _ (fi_wf _ _ _ _ _ _ Hi) _ _ _ _ (Hu _ _ Hb) Hc Hbc). unfold SIZEOF_PTR in *. lia.
Qed.

(** ** Reading the completion queue *)

(** The outstanding events never grow while time passes. *)
Definition no_more s s' : Prop := (length (outstanding (ents s')) <= length (outstanding (ents s)))%nat.

Lemma outstanding_put e c l : e ∈ l -> event_of e = Some c -> c ∈ outstanding l.
Proof. intros He Hc. apply list_elem_of_omap. eauto. Qed.

(** One event: its buffer goes back to the list. *)
Lemma event_step b c p g out s fl frag f' l k rq (Q : unit -> state -> Prop) rest :
  mid b c p g out s -> bounce_buffers (ctx s) = Some fl ->
  advance (ents s) l -> l !! k = Some (Entry rq true false) -> rq_context rq = Some frag ->
  entries f' = <[k := Entry rq true true]> l ->
  (forall s', mid b c p g out s' -> evolves out [] s s' -> has_buffers s' -> fab s' = f' ->
     outstanding (ents s) ≡ₚ frag :: outstanding (ents s') -> runs rest s' Q) ->
  runs (mytype <- load (frag + OFFSET_MYTYPE) ;
        if mytype =? SHMEM_TRANSPORT_OFI_TYPE_BOUNCE then bb_free frag ;; bb_completed_inc ;; rest else stop) (set_fab f' s) Q.
Proof.
  intros [[L1 L2] [C1 C2 C3 C4 C5 C6 C7]] Hfl Ha Hk Hrq Ef HQ.
  pose proof (mark_outstanding _ _ _ _ Hk Hrq) as Hperm. rewrite <- Ef, (advance_outstanding _ _ Ha) in Hperm.
  assert (moved (ents s) (entries f')) as Hmv.
  { eapply moved_trans; [by apply advance_moved|]. rewrite Ef. by apply moved_mark. }
  unfold bounce_ok in C5. rewrite Hfl in C5. destruct C5 as (Hmax & fr & lv & bs & Hi & Ht & Hlv & Hl & Hbs).
  assert (lv ≡ₚ frag :: (out ++ outstanding (entries f'))) as Hlv'.
  { rewrite Hlv, Hperm. by rewrite <- Permutation_middle. }
  assert (frag ∈ fr ++ lv) as Hfrag by (rewrite Hlv', elem_of_app, elem_of_cons; auto).
  assert (frag ∉ out ++ outstanding (entries f')) as Hnew.
  { pose proof (fi_nodup _ _ _ _ _ _ Hi) as Hnd. apply list.NoDup_app in Hnd as (_ & _ & Hnd). rewrite Hlv' in Hnd.
    by apply list.NoDup_cons in Hnd as [? _]. }
  runs_step. eapply runs_load; [by apply Ht|]. rewrite Z.eqb_refl. runs_step.
  destruct (free_tagged elem_size elem_size_ok _ _ mytype_offset _ _ _ _ _ _ _ Hi Hlv' Ht) as (fl' & h' & E & Hi' & Ht' & Eb & Hcells).
  apply (runs_some _ _ _ _ tt (set_hp h' (set_ctx (set_bounce (Some fl') (ctx s)) (set_fab f' s)))); [unfold bb_free; simpl; by rewrite Hfl, E|].
  runs_step. unfold bb_completed_inc, on_ctx. runs_step. unfold set_ctx, set_hp, set_fab, set_bounce. simpl.
  assert (forall x d, x ∈ out ++ outstanding (entries f') -> SIZEOF_BOUNCE_BUFFER <= d < elem_size -> x + d <> frag) as Hdata.
  { intros x d Hx Hd E'. assert (x <> frag) as Hne by (by intros ->).
    assert (x ∈ fr ++ lv) as Hx' by (rewrite Hlv', elem_of_app, elem_of_cons; auto).
    pose proof (item_apart elem_size elem_size_ok _ _ _ _ _ x frag Hi Hx' Hfrag Hne).
    unfold elem_size, SIZEOF_BOUNCE_BUFFER in *. lia. }
  apply HQ; simpl; [split; [by split|split; simpl; try done]|split; simpl; try done| |done|done].
  - by rewrite (moved_submitted _ _ _ Hmv).
  - by rewrite (moved_submitted _ _ _ Hmv).
  - apply (fi_wf _ _ _ _ _ _ Hi').
  - intros x sz Hx. rewrite Eb. by apply C4.
  - split; [done|]. exists (frag :: fr), (out ++ outstanding (entries f')), bs. split; [done|]. split; [done|]. split; [done|].
    split; [|done]. rewrite Hlv' in Hl. simpl in Hl. lia.
  - intros e' [j Hj]%list_elem_of_lookup Hc. destruct (Forall2_lookup_r _ _ _ _ _ Hmv Hj) as (e & He & R & _).
    rewrite R in *. apply C6; [by eapply list_elem_of_lookup_2|done].
  - rewrite Ef. intros e He. apply list_elem_of_lookup in He as [j Hj]. apply list_lookup_insert_Some in Hj as [(_ & <- & _)|[_ Hj]]; [done|].
    apply (advance_seen _ _ Ha C7). by eapply list_elem_of_lookup_2.
  - exists (entries f'), []. split; [done|]. by rewrite app_nil_r.
  - intros a Ha'. apply Hcells. intros ->. pose proof (user_not_item _ _ _ _ _ _ _ Hi C4 Hbs Ha' Hfrag).
    unfold elem_size, SIZEOF_BOUNCE_BUFFER in *. pose proof (co_bounce _ _ Hcfg). lia.
  - intros j e' x Hj He Hx d Hd. apply Hcells, Hdata; [|done]. apply elem_of_app. right.
    eapply outstanding_put; [by eapply list_elem_of_lookup_2|done].
  - intros x Hx d Hd. apply Hcells, Hdata; [|done]. apply elem_of_app. by left.
  - by eexists.
Qed.

Lemma all_done_dec l : all_done l \/ ~ all_done l.
Proof.
  destruct (decide (Forall (fun e => e_done e = true) l)) as [H|H]; rewrite List.Forall_forall in H; [left|right].
  - intros e He. apply H. by apply list_elem_of_In.
  - intros Ha. apply H. intros e He. apply Ha. by apply list_elem_of_In.
Qed.

(** The queue is empty when the loop ends: an event was read, or time passed. *)
Lemma drain_loop_spec n b c p g out s : mid b c p g out s -> has_buffers s -> (length (outstanding (ents s)) < n)%nat ->
  runs (drain_loop n) s (fun _ s' => mid b c p g out s' /\ evolves out [] s s' /\ has_buffers s' /\ calm s s' /\ no_more s s' /\
    (outstanding (ents s) = [] \/ (length (outstanding (ents s')) < length (outstanding (ents s)))%nat \/
     (work (fab s') < work (fab s))%nat)).
Proof.
  revert s. induction n as [|n IH]; intros s Hm Hb Hn; [lia|]. simpl. runs_step. apply runs_on_fab. intros [rc frag] f' E.
  destruct (law_cq_read _ _ _ _ E) as [[N1 N2]|[[Hpo Hpr] [(-> & l & k & rq & Ha & Hk & Hrq & Ef)|(-> & Ha & Hev)]]].
  { rewrite (proj2 (Z.eqb_neq _ _) N1), (proj2 (Z.eqb_neq _ _) N2). left. by eapply err_cq_read. }
  - change (1 =? - FI_EAGAIN) with false. change (1 =? 1) with true. cbv iota. destruct Hb as [fl Hfl].
    eapply event_step; [exact Hm|exact Hfl|exact Ha|exact Hk|exact Hrq|exact Ef|].
    intros s' Hm' He Hb' Efab Hperm. apply Permutation_length in Hperm. simpl in Hperm.
    eapply runs_mono; [apply (IH s' Hm' Hb'); lia|]. intros _ s2 (Hm2 & He2 & Hb2 & Hc2 & Hn2 & _).
    split; [done|]. split; [by eapply evolves_nil|]. split; [done|]. unfold calm, no_more in *. rewrite Efab in *. unfold polled in Hpo.
    split; [lia|]. split; [lia|]. right. left. lia.
  - change (- FI_EAGAIN =? - FI_EAGAIN) with true. cbv iota. runs_step.
    destruct (advance_step _ _ _ _ _ _ _ Hm Ha) as [Hm' He]. split; [done|]. split; [done|]. split; [done|]. split; [done|].
    split; [unfold no_more; simpl; by rewrite (advance_outstanding _ _ Ha)|]. simpl.
    destruct (all_done_dec (ents s)) as [Hd|Hd]; [|right; right; by apply Hpr]. left.
    destruct (outstanding (ents s)) as [|x xs] eqn:Eo; [done|].
    destruct (outstanding_ready (ents s) x) as (e & Hin & Hr); [rewrite Eo; apply list_elem_of_here|done|]. by destruct (Hev e).
Qed.

(** The events outstanding are bounded by the limit on bounce buffers. *)
Lemma outstanding_bound p g out s : core p g out s -> has_buffers s ->
  0 < max_bounce_buffers /\ Z.of_nat (length out + length (outstanding (ents s))) <= max_bounce_buffers.
Proof.
  intros Hc [fl Hfl]. pose proof (cr_bounce _ _ _ _ Hc) as C5. unfold bounce_ok in C5. rewrite Hfl in C5.
  destruct C5 as (Hmax & fr & lv & bs & _ & _ & Hlv & Hl & _). split; [done|].
  apply Permutation_length in Hlv. rewrite length_app in Hlv. lia.
Qed.

Lemma drain_cq_spec b c p g out s : mid b c p g out s -> has_buffers s ->
  runs shmem_transport_ofi_drain_cq s (fun _ s' => mid b c p g out s' /\ evolves out [] s s' /\ has_buffers s' /\ calm s s' /\ no_more s s' /\
    (outstanding (ents s) = [] \/ (length (outstanding (ents s')) < length (outstanding (ents s)))%nat \/
     (work (fab s') < work (fab s))%nat)).
Proof. intros Hm Hb. apply drain_loop_spec; [done|done|]. pose proof (outstanding_bound _ _ _ _ (md_core _ _ _ _ _ _ Hm) Hb). lia. Qed.

Lemma runs_nalloc b c p g s (Q : Z -> state -> Prop) : mid b c p g [] s -> has_buffers s ->
  Q (Z.of_nat (length (outstanding (ents s)))) s -> runs bb_nalloc s Q.
Proof.
  intros Hm [fl Hfl] HQ. unfold bb_nalloc. runs_step. runs_step. rewrite Hfl. apply runs_ret.
  pose proof (cr_bounce _ _ _ _ (md_core _ _ _ _ _ _ Hm)) as C5. unfold bounce_ok in C5. rewrite Hfl in C5.
  destruct C5 as (Hmax & fr & lv & bs & Hi & _ & Hlv & Hl & _). rewrite (nalloc_length _ _ _ _ _ Hi Hl).
  apply Permutation_length in Hlv. by rewrite Hlv.
Qed.

Lemma drain_while_spec n limit b c p g s : mid b c p g [] s -> has_buffers s -> 1 <= limit ->
  (length (outstanding (ents s)) + work (fab s) < n)%nat ->
  runs (drain_while n limit) s (fun _ s' => mid b c p g [] s' /\ evolves [] [] s s' /\ has_buffers s' /\ calm s s' /\
    Z.of_nat (length (outstanding (ents s'))) < limit).
Proof.
  revert s. induction n as [|n IH]; intros s Hm Hb Hl Hn; [lia|]. cbn [drain_while]. runs_step.
  eapply runs_nalloc; [done|done|]. rewrite Z.geb_leb. destruct (Z.leb_spec limit (Z.of_nat (length (outstanding (ents s))))) as [Hle|Hlt].
  - eapply runs_then; [by eapply drain_cq_spec|]. intros _ s1 (Hm1 & He1 & Hb1 & Hc1 & Hn1 & Hd).
    eapply runs_mono; [apply (IH s1); [done|done|done|]|].
    + unfold calm, no_more in *. destruct Hd as [Hd|[Hd|Hd]]; [rewrite Hd in Hle; simpl in Hle; lia|lia|lia].
    + intros _ s2 (Hm2 & He2 & Hb2 & Hc2 & Hlt). split; [done|]. split; [by eapply evolves_nil|]. split; [done|].
      split; [by eapply calm_trans|done].
  - runs_step. split; [done|]. split; [apply evolves_refl|]. split; [done|]. split; [apply calm_refl|done].
Qed.

(** The loops of the code spin long enough. *)
Lemma spins_enough b c p g s : mid b c p g [] s -> has_buffers s -> (length (outstanding (ents s)) + work (fab s) < spins)%nat.
Proof.
  intros Hm Hb. pose proof (outstanding_bound _ _ _ _ (md_core _ _ _ _ _ _ Hm) Hb) as [_ Ho]. simpl in Ho.
  pose proof (law_work (fab s)). pose proof (co_spins _ _ Hcfg). lia.
Qed.

(** ** Copying *)

Definition value_at s (a : Z) : Z := default 0 (cells (hp s) !! a).
(** The [len] bytes at [a]. *)
Definition bytes_at s (a len : Z) : list Z := map (fun k => value_at s (a + k)) (upto 0 len).
Definition readable s (a len : Z) : Prop := forall k, 0 <= k < len -> is_Some (cells (hp s) !! (a + k)).

Lemma user_cell p g out s a : core p g out s -> in_user a -> is_Some (cells (hp s) !! a).
Proof. intros Hc (b & sz & Hb & Ha). by eapply (hw_cells _ (cr_wf _ _ _ _ Hc)); [apply (cr_user _ _ _ _ Hc)|]. Qed.

Lemma inject_list source (l : list Z) s : (forall k, k ∈ l -> is_Some (cells (hp s) !! (source + k))) ->
  runs (foldr (fun k rest => v <- load (source + k) ; d <- rest ;
           ret (match d with Inject l => Inject (v :: l) | Buffer a => Buffer a end)) (ret (Inject [])) l) s
    (fun d s' => s' = s /\ d = Inject (map (fun k => value_at s (source + k)) l)).
Proof.
  induction l as [|k l IH]; intros Hr; simpl; [by apply runs_ret|].
  destruct (Hr k (list_elem_of_here _ _)) as [v Hv]. runs_step. eapply runs_load; [exact Hv|].
  eapply runs_then; [apply IH; intros j Hj; apply Hr; by apply list_elem_of_further|].
  intros d s' [-> ->]. apply runs_ret. split; [done|]. unfold value_at at 2. by rewrite Hv.
Qed.

Lemma inject_spec source len s : readable s source len ->
  runs (inject source len) s (fun d s' => s' = s /\ d = Inject (bytes_at s source len)).
Proof. intros Hr. apply inject_list. intros k Hk%elem_of_upto. by apply Hr. Qed.

Lemma memcpy_list target source len (l : list Z) s : NoDup l -> (forall k, k ∈ l -> 0 <= k < len) ->
  (source + len <= target \/ target + len <= source) ->
  readable s source len -> readable s target len ->
  runs (foldr (fun k rest => v <- load (source + k) ; store (target + k) v ;; rest) (ret tt) l) s
    (fun _ s' => exists h', s' = set_hp h' s /\ blocks h' = blocks (hp s) /\
      (forall a, is_Some (cells (hp s) !! a) -> is_Some (cells h' !! a)) /\
      (forall a, (forall k, k ∈ l -> a <> target + k) -> cells h' !! a = cells (hp s) !! a) /\
      forall k, k ∈ l -> cells h' !! (target + k) = Some (value_at s (source + k))).
Proof.
  revert s. induction l as [|k l IH]; intros s Hnd Hl Hd Hrs Hrt; cbn [foldr].
  - apply runs_ret. exists (hp s). split; [by destruct s|]. split; [done|]. split; [done|]. split; [done|]. by intros k ?%elem_of_nil.
  - apply list.NoDup_cons in Hnd as [Hk Hnd]. pose proof (Hl k (list_elem_of_here _ _)) as Hkl.
    destruct (Hrs k Hkl) as [v Hv], (Hrt k Hkl) as [w Hw]. runs_step. eapply runs_load; [exact Hv|]. runs_step.
    set (h1 := Heap (<[target + k := v]> (cells (hp s))) (blocks (hp s))).
    apply (runs_some _ _ _ _ tt (set_hp h1 s)); [unfold store, store_word; by rewrite Hw|].
    assert (forall a, is_Some (cells (hp s) !! a) -> is_Some (cells h1 !! a)) as Hs1.
    { intros a Ha. simpl. destruct (decide (target + k = a)) as [<-|Hne]; [by rewrite lookup_insert_eq|by rewrite lookup_insert_ne]. }
    assert (forall j, 0 <= j < len -> cells h1 !! (source + j) = cells (hp s) !! (source + j)) as Hsrc.
    { intros j Hj. simpl. apply lookup_insert_ne. lia. }
    eapply runs_mono; [apply (IH (set_hp h1 s) Hnd)|].
    + intros j Hj. apply Hl. by apply list_elem_of_further.
    + done.
    + intros j Hj. simpl. apply Hs1, Hrs, Hj.
    + intros j Hj. simpl. apply Hs1, Hrt, Hj.
    + intros _ s' (h' & -> & Eb & Hs' & Hout & Hin). exists h'. split; [done|]. split; [done|]. split; [auto|]. split.
      * intros a Ha. rewrite Hout by (intros j Hj; apply Ha; by apply list_elem_of_further). simpl.
        rewrite lookup_insert_ne; [done|]. intros <-. by apply (Ha k (list_elem_of_here _ _)).
      * intros j [->|Hj]%elem_of_cons.
        -- rewrite Hout by (intros i Hi E; assert (i = k) as -> by lia; done). simpl. rewrite lookup_insert_eq.
           unfold value_at. by rewrite Hv.
        -- rewrite Hin by done. f_equal. unfold value_at. simpl hp. by rewrite Hsrc by (apply Hl; by apply list_elem_of_further).
Qed.

Lemma memcpy_spec target source len s : (source + len <= target \/ target + len <= source) ->
  readable s source len -> readable s target len ->
  runs (memcpy target source len) s (fun _ s' => exists h', s' = set_hp h' s /\ differ_within target (target + len) (hp s) h' /\
    forall k, 0 <= k < len -> cells h' !! (target + k) = Some (value_at s (source + k))).
Proof.
  intros Hd Hs Ht. eapply runs_mono; [apply (memcpy_list target source len (upto 0 len) s)|]; [apply NoDup_upto| |done|done|done|].
  - by intros k Hk%elem_of_upto.
  - intros _ s' (h' & -> & Eb & Hs' & Hout & Hin). exists h'. split; [done|]. split.
    + split; [done|]. intros a. split; [apply Hs'|]. intros Ha. apply Hout. intros k Hk%elem_of_upto. lia.
    + intros k Hk. by apply Hin, elem_of_upto.
Qed.

(** ** Taking a bounce buffer *)

Definition user_range (a len : Z) : Prop := forall k, 0 <= k < len -> in_user (a + k).

Lemma user_readable p g out s a len : core p g out s -> user_range a len -> readable s a len.
Proof. intros Hc Hu k Hk. by eapply user_cell, Hu. Qed.

(** Only the counters of the bounce buffers change. *)
Lemma bb_count_step b c p g out s n m : mid b c p g out s ->
  let s' := set_ctx (Ctx (options (ctx s)) (pending_put_cntr (ctx s)) (pending_get_cntr (ctx s)) n m (bounce_buffers (ctx s))) s in
  mid b c p g out s' /\ evolves out [] s s'.
Proof.
  intros [[L1 L2] [C1 C2 C3 C4 C5 C6 C7]]. split; [by split|]. pose proof (evolves_refl out s) as []. by split.
Qed.

Lemma alloc_step b c p g s : mid b c p g [] s -> has_buffers s -> Z.of_nat (length (outstanding (ents s))) < max_bounce_buffers ->
  runs bb_alloc s (fun x s' => mid b c p g [x] s' /\ evolves [] [] s s' /\ has_buffers s' /\ fab s' = fab s /\ x <> NULL).
Proof.
  intros [[L1 L2] [C1 C2 C3 C4 C5 C6 C7]] [fl Hfl] Hlt. unfold bounce_ok in C5. rewrite Hfl in C5.
  destruct C5 as (Hmax & fr & lv & bs & Hi & Ht & Hlv & Hl & Hbs).
  pose proof (more_size_eq fl (fi_es _ _ _ _ _ _ Hi)) as Esz.
  destruct (co_malloc _ _ Hcfg (more_size fl) (hp s)) as (buf & Hbuf & Hfresh). rewrite Esz in Hfresh.
  destruct (alloc_tagged init_bounce_buffer elem_size elem_size_ok init_within _ SHMEM_TRANSPORT_OFI_TYPE_BOUNCE mytype_offset init_tags
    _ _ _ _ _ _ Hi Hfresh Ht) as (x & fl' & h' & fr' & bs' & E & Hx & Hi' & Ht' & Hold & Hnew).
  eapply runs_some; [unfold bb_alloc; by rewrite Hfl, Hbuf, E|].
  assert (forall y d, y ∈ lv -> 0 <= d < elem_size -> cells h' !! (y + d) = cells (hp s) !! (y + d)) as Hlive.
  { intros y d Hy Hd. destruct (item_within elem_size elem_size_ok _ _ _ _ _ y Hi) as (b' & _ & H1 & H2 & Hb'); [apply elem_of_app; by right|].
    apply (Hold _ _ Hb'). unfold SIZEOF_PTR in *. lia. }
  simpl in Hlv. split; [split; [by split|split; simpl; try done]|split; [split; simpl; try done|]].
  - apply (fi_wf _ _ _ _ _ _ Hi').
  - intros y sz Hy. by apply (Hold y sz), C4.
  - split; [done|]. exists fr', (x :: lv), bs'. split; [done|]. split; [done|]. split; [by rewrite Hlv|]. split.
    + apply Permutation_length in Hlv. simpl. lia.
    + intros y Hy. destruct (Hnew y Hy) as [Hy'|Hy']; [by apply Hbs|]. destruct (ub !! y) as [sz|] eqn:Eu; [|done].
      apply C4 in Eu. congruence.
  - exists (ents s), []. split; [apply moved_refl|]. by rewrite app_nil_r.
  - intros a (y & sz & Hy & Ha). apply (Hold y sz); [by apply C4|done].
  - intros k e' y Hk He Hy d Hd. apply Hlive; [|unfold SIZEOF_BOUNCE_BUFFER in Hd; lia]. rewrite Hlv.
    eapply outstanding_put; [by eapply list_elem_of_lookup_2|done].
  - by intros y ?%elem_of_nil.
  - split; [by eexists|done].
Qed.

Lemma range_apart a len t : user_range a len -> (forall k, in_user k -> k < t \/ t + len <= k) ->
  a + len <= t \/ t + len <= a.
Proof.
  intros Hu Hn. destruct (Z.le_gt_cases (a + len) t) as [|H1]; [by left|]. destruct (Z.le_gt_cases (t + len) a) as [|H2]; [by right|].
  exfalso. pose proof (Hn _ (Hu (Z.max 0 (t - a)) ltac:(lia))). lia.
Qed.

(** The copy into the buffer. *)
Lemma fill_step b c p g s x source len : mid b c p g [x] s -> has_buffers s -> 0 <= len <= bounce_buffer_size -> user_range source len ->
  runs (memcpy (x + SIZEOF_BOUNCE_BUFFER) source len) s (fun _ s' => mid b c p g [x] s' /\ evolves [] [] s s' /\ has_buffers s' /\
    fab s' = fab s /\ bytes_at s' (x + SIZEOF_BOUNCE_BUFFER) len = bytes_at s source len).
Proof.
  intros Hm [fl Hfl] Hlen Hu. pose proof (md_core _ _ _ _ _ _ Hm) as Hc.
  destruct Hm as [[L1 L2] [C1 C2 C3 C4 C5 C6 C7]]. unfold bounce_ok in C5. rewrite Hfl in C5.
  destruct C5 as (Hmax & fr & lv & bs & Hi & Ht & Hlv & Hl & Hbs).
  assert (x ∈ lv) as Hx by (rewrite Hlv; simpl; apply list_elem_of_here).
  assert (x ∈ fr ++ lv) as Hx' by (apply elem_of_app; by right).
  destruct (item_within elem_size elem_size_ok _ _ _ _ _ x Hi Hx') as (b' & _ & H1 & H2 & Hb').
  assert (elem_size = 16 + bounce_buffer_size) as Ees by done. unfold SIZEOF_PTR in H1.
  assert (forall a, in_user a -> a < x \/ x + elem_size <= a) as Hau by (intros a Ha; by eapply user_not_item).
  eapply runs_mono; [apply memcpy_spec|].
  - apply range_apart; [done|]. intros k Hk. apply Hau in Hk. rewrite Ees in Hk. unfold SIZEOF_BOUNCE_BUFFER. lia.
  - by eapply user_readable.
  - intros k Hk. apply (hw_cells _ C3 _ _ _ Hb'). unfold SIZEOF_BOUNCE_BUFFER. lia.
  - intros _ s' (h' & -> & D & Hcopy). unfold SIZEOF_BOUNCE_BUFFER in *.
    assert (differ_within (x + 1) (x + elem_size) (hp s) h') as D'.
    { eapply differ_weaken; [| |exact D]; lia. }
    pose proof (write_item_ok elem_size elem_size_ok _ _ _ _ _ _ _ Hi Hx D') as Hi'.
    assert (forall y d, y ∈ fr ++ lv -> y <> x -> 0 <= d < elem_size -> cells h' !! (y + d) = cells (hp s) !! (y + d)) as Hother.
    { intros y d Hy Hne Hd. apply D'. destruct (item_apart elem_size elem_size_ok _ _ _ _ _ x y Hi Hx' Hy ltac:(done)); lia. }
    split; [split; [by split|split; simpl; try done]|split; [split; simpl; try done|split; [by eexists|split; [done|]]]].
    + by eapply differ_wf.
    + intros y sz Hy. rewrite (proj1 D). by apply C4.
    + unfold bounce_ok. simpl. rewrite Hfl. split; [done|]. exists fr, lv, bs. split; [done|]. split; [|done]. intros y Hy.
      destruct (decide (y = x)) as [->|Hne].
      * rewrite (proj2 (proj2 D _)) by (unfold OFFSET_MYTYPE; lia). by apply Ht.
      * rewrite Hother; [by apply Ht|done|done|]. pose proof mytype_offset. unfold SIZEOF_PTR in *. lia.
    + exists (ents s), []. split; [apply moved_refl|]. by rewrite app_nil_r.
    + intros a Ha. apply D'. apply Hau in Ha. lia.
    + intros k e' y Hk He Hy d Hd. assert (y ∈ outstanding (ents s)) as Hout.
      { eapply outstanding_put; [by eapply list_elem_of_lookup_2|done]. }
      pose proof (fi_nodup _ _ _ _ _ _ Hi) as Hnd. apply list.NoDup_app in Hnd as (_ & _ & Hnd). rewrite Hlv in Hnd.
      apply list.NoDup_cons in Hnd as [Hnx _]. simpl in Hnx. apply Hother; [|by intros ->|unfold SIZEOF_BOUNCE_BUFFER in Hd; lia].
      apply elem_of_app. right. rewrite Hlv. simpl. by apply list_elem_of_further.
    + by intros y ?%elem_of_nil.
    + unfold bytes_at. apply map_ext_in. intros k Hk%list_elem_of_In%elem_of_upto. unfold value_at. simpl hp.
      by rewrite Hcopy.
Qed.

Lemma create_spec b p g s source len : mid b false p g [] s -> has_buffers s -> 0 <= len <= bounce_buffer_size -> user_range source len ->
  runs (create_bounce_buffer source len) s (fun x s' => mid b false p g [x] s' /\ evolves [] [] s s' /\ has_buffers s' /\
    bytes_at s' (x + SIZEOF_BOUNCE_BUFFER) len = bytes_at s source len).
Proof.
  intros Hm Hb Hlen Hu. unfold create_bounce_buffer. pose proof (outstanding_bound _ _ _ _ (md_core _ _ _ _ _ _ Hm) Hb) as [Hmax _].
  eapply runs_then; [by apply runs_bb_lock|]. intros _ s1 (Hm1 & He1 & Ef1 & Ec1 & Eh1).
  assert (has_buffers s1) as Hb1 by (unfold has_buffers; by rewrite Ec1). runs_step.
  apply runs_assert; [rewrite Z.gtb_ltb; by apply Z.ltb_lt|].
  eapply runs_then; [apply (drain_while_spec _ max_bounce_buffers _ _ _ _ _ Hm1 Hb1); [lia|by eapply spins_enough]|].
  intros _ s2 (Hm2 & He2 & Hb2 & _ & Hlt). eapply runs_then; [by apply alloc_step|].
  intros x s3 (Hm3 & He3 & Hb3 & Ef3 & Hx). runs_step. unfold bb_inc, on_ctx. apply runs_modify.
  destruct (bb_count_step _ _ _ _ _ _ ((pending_bb_cntr (ctx s3) + 1) mod 2 ^ 64) (completed_bb_cntr (ctx s3)) Hm3) as [Hm4 He4].
  set (s4 := set_ctx _ s3) in *. assert (has_buffers s4) as Hb4 by exact Hb3.
  eapply runs_then; [by eapply runs_bb_unlock|]. intros _ s5 (Hm5 & He5 & Ef5 & Ec5 & Eh5).
  assert (has_buffers s5) as Hb5 by (unfold has_buffers; by rewrite Ec5).
  rewrite (proj2 (Z.eqb_neq x NULL)) by done. runs_step. apply runs_ret.
  assert (cells (hp s5) !! (x + OFFSET_MYTYPE) = Some SHMEM_TRANSPORT_OFI_TYPE_BOUNCE) as Htag.
  { destruct Hb5 as [fl Hfl]. pose proof (cr_bounce _ _ _ _ (md_core _ _ _ _ _ _ Hm5)) as C5. unfold bounce_ok in C5. rewrite Hfl in C5.
    destruct C5 as (_ & fr & lv & bs & _ & Ht & Hlv & _). apply Ht. apply elem_of_app. right. rewrite Hlv. simpl. apply list_elem_of_here. }
  runs_step. eapply runs_load; [exact Htag|]. runs_step. apply runs_assert; [done|].
  eapply runs_then; [by apply fill_step|]. intros _ s6 (Hm6 & He6 & Hb6 & _ & Hbytes). runs_step. split; [done|].
  assert (evolves [] [] s s5) as He.
  { eapply evolves_nil; [exact He1|]. eapply evolves_nil; [exact He2|]. eapply evolves_nil; [exact He3|].
    eapply evolves_nil; [eapply evolves_sub; [|exact He4]; by intros ? ?%elem_of_nil|].
    eapply evolves_sub; [|exact He5]. by intros ? ?%elem_of_nil. }
  split; [by eapply evolves_nil|]. split; [done|]. rewrite Hbytes. unfold bytes_at. apply map_ext_in.
  intros k Hk%list_elem_of_In%elem_of_upto. unfold value_at. by rewrite (ev_user _ _ _ _ He _ (Hu k Hk)).
Qed.

(** ** Waiting for completion *)

(** Fewer requests than the counters can count. *)
Definition countable s : Prop := Z.of_nat (length (ents s)) < 2 ^ 64.

Lemma submitted_length w l : (submitted w l <= length l)%nat.
Proof. apply countb_le. Qed.

Lemma runs_cntr put b c out s (Q : Z -> state -> Prop) : mid b c 0 0 out s -> countable s ->
  Q (Z.of_nat (submitted put (ents s))) s -> runs (CNTR_READ put) s Q.
Proof.
  intros [_ [C1 C2 _ _ _ _ _]] Hs HQ. unfold CNTR_READ, countable in *. pose proof (submitted_length put (ents s)). runs_step. runs_step.
  apply runs_ret. rewrite !Nat.add_0_r in *. destruct put; [rewrite C1|rewrite C2]; rewrite Z.mod_small by lia; done.
Qed.

(** All requests of a counter completed. *)
Definition class_done (put : bool) s : Prop := forall e, e ∈ ents s -> is_put (e_req e) = put -> e_done e = true.

Lemma class_done_evolves put out s s' : class_done put s -> evolves out [] s s' -> class_done put s'.
Proof.
  intros Hd [_ _ (l & new & Hm & E & Hr) _ _ _]. destruct new as [|]; [|done]. rewrite app_nil_r in E.
  unfold class_done. rewrite E. intros e He Hp. by apply (moved_done (fun rq => is_put rq = put) _ _ Hm Hd).
Qed.

Lemma evolves_countable out s s' : evolves out [] s s' -> countable s -> countable s'.
Proof. intros H Hs. unfold countable. rewrite (evolves_length _ _ _ _ H). simpl. by rewrite Nat.add_0_r. Qed.

(** Time passed: no request was issued and no event was read. *)
Definition waited s s' : Prop := evolves [] [] s s' /\ calm s s' /\ outstanding (ents s') = outstanding (ents s).
Lemma waited_refl s : waited s s.
Proof. split; [apply evolves_refl|]. split; [apply calm_refl|done]. Qed.
Lemma waited_trans s1 s2 s3 : waited s1 s2 -> waited s2 s3 -> waited s1 s3.
Proof. intros (E1 & C1 & O1) (E2 & C2 & O2). split; [by eapply evolves_nil|]. split; [by eapply calm_trans|congruence]. Qed.
Lemma waited_same s s' : evolves [] [] s s' -> fab s' = fab s -> waited s s'.
Proof. intros He Ef. split; [done|]. split; [by apply calm_fab|by rewrite Ef]. Qed.
Lemma waited_advance b c p g out s f' : mid b c p g out s -> advance (ents s) (entries f') -> polled (fab s) f' ->
  mid b c p g out (set_fab f' s) /\ waited s (set_fab f' s).
Proof.
  intros Hm Ha Hp. destruct (advance_step _ _ _ _ _ _ _ Hm Ha) as [Hm' He]. split; [done|].
  split; [by eapply evolves_sub; [|exact He]; intros ? ?%elem_of_nil|]. split; [done|]. simpl. by apply advance_outstanding.
Qed.

Lemma not_all_done put l : (completed put l < submitted put l)%nat -> ~ all_done l.
Proof.
  intros Hlt Hd. assert (completed put l = submitted put l); [|lia]. unfold completed, submitted. apply countb_ext.
  intros e He. by rewrite (Hd e He), andb_true_r.
Qed.

Lemma poll_loop_spec n put limit count c s : mid true c 0 0 [] s -> countable s -> (work (fab s) < n)%nat ->
  runs (poll_loop n put limit count) s (fun r s' => waited s s' /\
    if (r : bool) then mid false c 0 0 [] s' /\ class_done put s' else mid true c 0 0 [] s').
Proof.
  revert count s. induction n as [|n IH]; intros count s Hm Hs Hn; [lia|]. cbn [poll_loop].
  destruct ((count <? limit) || (limit <? 0)); [|runs_step; split; [apply waited_refl|done]].
  runs_step. apply runs_on_fab. intros success f1 E1. destruct (law_cntr_read _ _ _ _ E1) as ([Hp1 Hpr] & Ha1 & Hsucc).
  destruct (waited_advance _ _ _ _ _ _ _ Hm Ha1 Hp1) as [Hm1 Hw1]. set (s1 := set_fab f1 s) in *.
  runs_step. apply runs_on_fab. intros fail f2 E2. destruct (law_cntr_readerr _ _ _ _ E2) as (Hp2 & Ha2).
  destruct (waited_advance _ _ _ _ _ _ _ Hm1 Ha2 Hp2) as [Hm2 Hw2]. set (s2 := set_fab f2 s1) in *.
  assert (submitted put (ents s2) = submitted put (ents s)) as Esub.
  { simpl. rewrite (advance_submitted _ _ _ Ha2). by rewrite (advance_submitted _ _ _ Ha1). }
  assert (countable s2) as Hs2 by (eapply evolves_countable; [exact (proj1 Hw2)|]; eapply evolves_countable; [exact (proj1 Hw1)|done]).
  runs_step. eapply runs_cntr; [exact Hm2|done|]. rewrite Esub.
  eapply runs_then; [by apply (runs_probe _ _ _ _ _ _ Hm2)|]. intros _ s3 (Hm3 & He3 & Hc3 & Ha3).
  assert (waited s2 s3) as Hw3 by (split; [done|]; split; [done|by apply advance_outstanding]).
  assert (waited s s3) as Hw by (eapply waited_trans; [exact Hw1|]; by eapply waited_trans).
  destruct (Z.eqb_spec fail 0) as [->|Hfail]; [|rewrite andb_false_r; left; by eapply err_cntr_readerr].
  rewrite andb_true_r. destruct (Z.ltb_spec success (Z.of_nat (submitted put (ents s)))) as [Hlt|Hge].
  - assert (work f1 < work (fab s))%nat as Hwork by (apply Hpr, (not_all_done put); lia).
    eapply runs_then; [by eapply runs_unlock|]. intros _ s4 (Hm4 & He4 & Ef4 & _).
    eapply runs_then; [by eapply runs_lock|]. intros _ s5 (Hm5 & He5 & Ef5 & _).
    assert (waited s3 s5) as Hw5 by (eapply waited_trans; by apply waited_same).
    eapply runs_mono; [apply (IH _ s5 Hm5)|].
    + eapply evolves_countable; [exact (proj1 Hw5)|]. eapply evolves_countable; [exact (proj1 Hw3)|done].
    + rewrite Ef5, Ef4. destruct Hw2 as (_ & Hc2 & _). unfold calm in *. simpl in *. lia.
    + intros r s6 [Hw6 Hr]. split; [|done]. eapply waited_trans; [exact Hw|]. by eapply waited_trans.
  - cbn [negb Z.eqb]. eapply runs_then; [by eapply runs_unlock|]. intros _ s4 (Hm4 & He4 & Ef4 & _). runs_step.
    split; [eapply waited_trans; [exact Hw|by apply waited_same]|]. split; [done|].
    assert (class_done put s1) as Hd1.
    { intros e He Hp. simpl in He. refine (completed_all put (entries f1) _ e He Hp).
      pose proof (completed_submitted put (entries f1)). rewrite (advance_submitted _ _ _ Ha1) in *. lia. }
    eapply class_done_evolves; [|exact He4]. eapply class_done_evolves; [|exact He3]. by eapply class_done_evolves; [|exact (proj1 Hw2)].
Qed.

Lemma wait_for_spec put limit s : mid true false 0 0 [] s -> countable s ->
  runs (wait_for put limit) s (fun _ s' => mid false false 0 0 [] s' /\ waited s s' /\ class_done put s').
Proof.
  intros Hm Hs. unfold wait_for. assert (work (fab s) < spins)%nat as Hn.
  { pose proof (law_work (fab s)). pose proof (co_spins _ _ Hcfg). lia. }
  eapply runs_then; [by apply poll_loop_spec|]. intros [|] s1 [Hw1 Hr]; [apply runs_ret; split; [apply Hr|by split; [|apply Hr]]|].
  pose proof (evolves_countable _ _ _ (proj1 Hw1) Hs) as Hs1. runs_step. eapply runs_cntr; [exact Hr|done|].
  destruct spins as [|n] eqn:En; [lia|]. cbn [wait_loop]. runs_step. runs_step. apply runs_on_fab. intros rc f2 E2.
  destruct (Z.eqb_spec rc 0) as [->|Hrc].
  2: { runs_step. unfold CNTR_READ. runs_step. runs_step. runs_step. cbn [negb]. left. by eapply err_cntr_wait; [|exact E2|]. }
  destruct (law_cntr_wait _ _ _ _ _ (Z.le_refl _) E2) as [?|(Hp2 & Ha2 & Hge)]; [done|].
  destruct (waited_advance _ _ _ _ _ _ _ Hr Ha2 Hp2) as [Hm2 Hw2]. set (s2 := set_fab f2 s1) in *.
  runs_step. eapply runs_cntr; [exact Hm2|by eapply evolves_countable; [exact (proj1 Hw2)|]|]. cbn [negb Z.eqb].
  assert (submitted put (ents s2) = submitted put (ents s1)) as -> by (apply (advance_submitted _ _ _ Ha2)).
  rewrite Z.ltb_irrefl, Z.eqb_refl. apply runs_ret. eapply runs_mono; [by eapply runs_unlock|].
  intros _ s3 (Hm3 & He3 & Ef3 & _). split; [done|]. split; [eapply waited_trans; [exact Hw1|]; eapply waited_trans; [exact Hw2|by apply waited_same]|].
  eapply class_done_evolves; [|exact He3]. intros e He Hp. simpl in He. refine (completed_all put (entries f2) _ e He Hp).
  pose proof (completed_submitted put (entries f2)). rewrite (advance_submitted _ _ _ Ha2) in *. lia.
Qed.

Lemma runs_has_bounce s (Q : bool -> state -> Prop) :
  (has_buffers s -> Q true s) -> (~ has_buffers s -> Q false s) -> runs has_bounce s Q.
Proof.
  intros Ht Hf. unfold has_bounce. runs_step. runs_step. apply runs_ret. unfold has_buffers in *.
  destruct (bounce_buffers (ctx s)); [by apply Ht|]. apply Hf. by intros [].
Qed.

(** [put_quiet]: every put completed and every bounce buffer is free. *)
Lemma put_quiet_spec s : tr_inv s -> countable s ->
  runs shmem_transport_put_quiet s (fun _ s' => tr_inv s' /\ evolves [] [] s s' /\ class_done true s' /\ outstanding (ents s') = []).
Proof.
  intros Hm Hs. unfold shmem_transport_put_quiet. eapply runs_then; [by apply runs_lock|]. intros _ s1 (Hm1 & He1 & Ef1 & Ec1 & _).
  pose proof (evolves_countable _ _ _ He1 Hs) as Hs1. runs_step.
  eapply runs_has_bounce; intros Hb; cbv iota.
  - eapply (runs_then _ _ _ _ (fun _ s' => mid true false 0 0 [] s' /\ evolves [] [] s1 s' /\ outstanding (ents s') = [])).
    + eapply runs_then; [by apply runs_bb_lock|]. intros _ s2 (Hm2 & He2 & Ef2 & Ec2 & _).
      assert (has_buffers s2) as Hb2 by (unfold has_buffers; by rewrite Ec2).
      eapply runs_then; [apply (drain_while_spec _ 1 _ _ _ _ _ Hm2 Hb2); [lia|by eapply spins_enough]|].
      intros _ s3 (Hm3 & He3 & Hb3 & _ & Hlt). eapply runs_mono; [by eapply runs_bb_unlock|].
      intros _ s4 (Hm4 & He4 & Ef4 & _). split; [done|]. split; [eapply evolves_nil; [exact He2|]; by eapply evolves_nil|].
      rewrite Ef4. apply nil_length_inv. lia.
    + intros _ s2 (Hm2 & He2 & Ho2). eapply runs_mono; [apply wait_for_spec; [done|by eapply evolves_countable]|].
      intros _ s3 (Hm3 & (He3 & _ & Ho3) & Hd). split; [done|].
      split; [eapply evolves_nil; [exact He1|]; by eapply evolves_nil|]. split; [done|congruence].
  - runs_step. apply runs_ret. eapply runs_mono; [by apply wait_for_spec|]. intros _ s3 (Hm3 & (He3 & _ & Ho3) & Hd).
    split; [done|]. split; [by eapply evolves_nil|]. split; [done|]. rewrite Ho3.
    pose proof (cr_bounce _ _ _ _ (md_core _ _ _ _ _ _ Hm1)) as C5. unfold bounce_ok in C5. unfold has_buffers in Hb.
    destruct (bounce_buffers (ctx s1)); [by destruct Hb; eexists|]. apply C5.
Qed.

Lemma get_wait_spec s : tr_inv s -> countable s ->
  runs shmem_transport_get_wait s (fun _ s' => tr_inv s' /\ waited s s' /\ class_done false s').
Proof.
  intros Hm Hs. unfold shmem_transport_get_wait. eapply runs_then; [by apply runs_lock|]. intros _ s1 (Hm1 & He1 & Ef1 & Ec1 & _).
  eapply runs_mono; [apply wait_for_spec; [done|by eapply evolves_countable]|]. intros _ s2 (Hm2 & Hw2 & Hd). split; [done|].
  split; [|done]. eapply waited_trans; [by apply waited_same|done].
Qed.

(** [quiet]: everything issued before it completed, and all bounce buffers are free. *)
Lemma quiet_spec s : tr_inv s -> countable s ->
  runs shmem_transport_quiet s (fun r s' => r = 0 /\ tr_inv s' /\ evolves [] [] s s' /\ all_done (ents s') /\ outstanding (ents s') = []).
Proof.
  intros Hm Hs. unfold shmem_transport_quiet. eapply runs_then; [by apply put_quiet_spec|]. intros _ s1 (Hm1 & He1 & Hd1 & Ho1).
  eapply runs_then; [apply get_wait_spec; [done|by eapply evolves_countable]|]. intros _ s2 (Hm2 & (He2 & _ & Ho2) & Hd2).
  apply runs_ret. split; [done|]. split; [done|]. split; [by eapply evolves_nil|]. split; [|congruence].
  pose proof (class_done_evolves _ _ _ _ Hd1 He2) as Hd3. intros e He.
  destruct (is_put (e_req e)) eqn:Ep; [by apply Hd3|by apply Hd2].
Qed.

(** [fence] completes everything unless the fabric orders all data. *)
Lemma fence_spec s : tr_inv s -> countable s ->
  runs shmem_transport_fence s (fun r s' => r = 0 /\ tr_inv s' /\ evolves [] [] s s' /\ class_done false s' /\
    (WANT_TOTAL_DATA_ORDERING = 0 -> all_done (ents s'))).
Proof.
  intros Hm Hs. unfold shmem_transport_fence.
  eapply (runs_then _ _ _ _ (fun _ s' => tr_inv s' /\ evolves [] [] s s' /\ (WANT_TOTAL_DATA_ORDERING = 0 -> class_done true s'))).
  { destruct (Z.eqb_spec WANT_TOTAL_DATA_ORDERING 0) as [Ez|Hz].
    - eapply runs_mono; [by apply put_quiet_spec|]. intros _ s1 (Hm1 & He1 & Hd1 & _). by split.
    - apply runs_ret. split; [done|]. split; [apply evolves_refl|done]. }
  intros _ s1 (Hm1 & He1 & Hd1). eapply runs_then; [apply get_wait_spec; [done|by eapply evolves_countable]|].
  intros _ s2 (Hm2 & (He2 & _) & Hd2). apply runs_ret. split; [done|]. split; [done|]. split; [by eapply evolves_nil|].
  split; [done|]. intros Hw. pose proof (class_done_evolves _ _ _ _ (Hd1 Hw) He2) as Hd3. intros e He.
  destruct (is_put (e_req e)) eqn:Ep; [by apply Hd3|by apply Hd2].
Qed.

(** ** Issuing requests *)

(** The bounce buffer a request sends from. *)
Definition ctxs (rq : fi_request) : list Z := match rq_context rq with Some c => [c] | None => [] end.

(** One more request of the kind is counted. *)
Definition counting (b : bool) (put : bool) (out : list Z) : state -> Prop :=
  mid b false (if put then 1 else 0) (if put then 0 else 1) out.

Lemma count_mod n : (Z.of_nat (n + 0) mod 2 ^ 64 + 1) mod 2 ^ 64 = Z.of_nat (n + 1) mod 2 ^ 64.
Proof. rewrite Nat.add_0_r, Zplus_mod_idemp_l. f_equal. lia. Qed.

Lemma runs_cntr_inc b put out s : mid b false 0 0 out s ->
  runs (CNTR_INC put) s (fun _ s' => counting b put out s' /\ evolves out [] s s' /\ fab s' = fab s /\
    bounce_buffers (ctx s') = bounce_buffers (ctx s) /\ hp s' = hp s).
Proof.
  intros [[L1 L2] [C1 C2 C3 C4 C5 C6 C7]]. unfold CNTR_INC, on_ctx. apply runs_modify. destruct put.
  - split; [split; [by split|split; try done]|split; [|done]]; simpl.
    + by rewrite C1, count_mod.
    + split; try done. exists (ents s), []. split; [apply moved_refl|]. by rewrite app_nil_r.
  - split; [split; [by split|split; try done]|split; [|done]]; simpl.
    + by rewrite C2, count_mod.
    + split; try done. exists (ents s), []. split; [apply moved_refl|]. by rewrite app_nil_r.
Qed.

Lemma submitted_app w l e : submitted w (l ++ [e]) = (submitted w l + (if eqb (is_put (e_req e)) w then 1 else 0))%nat.
Proof. unfold submitted. rewrite countb_app. simpl. destruct (eqb _ _); simpl; lia. Qed.

(** The request is accepted. *)
Lemma submit_step b rq s f' l d : counting b (is_put rq) (ctxs rq) s -> (rq_context rq <> None -> is_put rq = true) ->
  advance (ents s) l -> entries f' = l ++ [Entry rq d false] ->
  mid b false 0 0 [] (set_fab f' s) /\ evolves (ctxs rq) [rq] s (set_fab f' s).
Proof.
  intros [[L1 L2] [C1 C2 C3 C4 C5 C6 C7]] Hput Ha Ef. pose proof (advance_length _ _ Ha) as Hlen.
  assert (outstanding (entries f') = outstanding (ents s) ++ ctxs rq) as Ho.
  { rewrite Ef, outstanding_app, (advance_outstanding _ _ Ha). by unfold ctxs. }
  split; [split; [by split|split; simpl; try done]|split; simpl; try done].
  - rewrite Ef, submitted_app, (advance_submitted _ _ _ Ha), C1. simpl. destruct (is_put rq); simpl; f_equal; lia.
  - rewrite Ef, submitted_app, (advance_submitted _ _ _ Ha), C2. simpl. destruct (is_put rq); simpl; f_equal; lia.
  - unfold bounce_ok in *. simpl. rewrite Ho. destruct (bounce_buffers (ctx s)).
    + destruct C5 as (Hmax & fr & lv & bs & Hi & Ht & Hlv & Hl). split; [done|]. exists fr, lv, bs. split; [done|]. split; [done|].
      split; [|done]. rewrite Hlv. simpl. apply Permutation_app_comm.
    + destruct C5 as [-> ->]. done.
  - rewrite Ef. intros e [He|He]%elem_of_app Hc.
    + apply list_elem_of_lookup in He as [k Hk]. destruct (advance_lookup _ _ _ _ Ha Hk) as (e0 & He0 & R & _).
      rewrite R in *. apply C6; [by eapply list_elem_of_lookup_2|done].
    + apply list_elem_of_singleton in He as ->. by apply Hput.
  - rewrite Ef. intros e [He|He]%elem_of_app; [by apply (advance_seen _ _ Ha C7)|by apply list_elem_of_singleton in He as ->].
  - exists l, [Entry rq d false]. split; [by apply advance_moved|done].
Qed.

(** After a refusal: the transport drains its queue and polls. *)
Lemma again_spec b p g out s polled : mid b false p g out s -> polled + 1 <= max_poll \/ max_poll < Z.of_nat refusals ->
  runs (try_again (- FI_EAGAIN) polled) s (fun r s' => (r = (true, polled + 1) /\ polled + 1 <= max_poll) /\
    mid b false p g out s' /\ evolves out [] s s' /\ calm s s').
Proof.
  intros Hm Hp. unfold try_again. change (negb (- FI_EAGAIN =? 0)) with true. rewrite Z.eqb_refl. cbv iota.
  set (P := fun s' : state => mid b false p g out s' /\ evolves out [] s s' /\ calm s s').
  assert (forall s' : state, P s' -> runs (shmem_transport_probe ;; (if polled + 1 <=? max_poll then ret (true, polled + 1) else stop)) s'
    (fun r s2 => (r = (true, polled + 1) /\ polled + 1 <= max_poll) /\ P s2)) as Hrest.
  { intros s1 (Hm1 & He1 & Hc1). eapply runs_then; [by eapply runs_probe|]. intros _ s2 (Hm2 & He2 & Hc2 & _).
    destruct (Z.leb_spec (polled + 1) max_poll); [|right; by destruct Hp; [lia|]]. apply runs_ret. split; [done|]. split; [done|]. split; [by eapply evolves_nil|by eapply calm_trans]. }
  runs_step. apply runs_has_bounce; intros Hb; cbv iota.
  - apply runs_bind. eapply runs_then; [by apply runs_bb_lock|]. intros _ s1 (Hm1 & He1 & Ef1 & Ec1 & _).
    assert (has_buffers s1) as Hb1 by (unfold has_buffers; by rewrite Ec1).
    eapply runs_then; [by eapply drain_cq_spec|]. intros _ s2 (Hm2 & He2 & Hb2 & Hc2 & _).
    eapply runs_mono; [by eapply runs_bb_unlock|]. intros _ s3 (Hm3 & He3 & Ef3 & _). apply Hrest. split; [done|].
    split; [eapply evolves_nil; [exact He1|]; by eapply evolves_nil|].
    eapply calm_trans; [by apply calm_fab|]. eapply calm_trans; [exact Hc2|by apply calm_fab].
  - apply runs_bind. runs_step. apply runs_on_fab. intros rc f' E. 
    destruct ((rc =? 0) || (rc =? - FI_EAGAIN)) eqn:Erc.
    2: { apply orb_false_iff in Erc as [N1%Z.eqb_neq N2%Z.eqb_neq]. left. by eapply err_cq_readerr. }
    destruct (law_cq_readerr _ _ _ E) as [[N1%Z.eqb_neq N2%Z.eqb_neq]|[Hpo Ha]]; [by rewrite N1, N2 in Erc|].
    destruct (advance_step _ _ _ _ _ _ _ Hm Ha) as [Hm1 He1].
    apply runs_ret, Hrest. by split.
Qed.

(** What a retried computation of the request may rely on. *)
Definition makes b put out (mk : ST state fi_request) (rq : fi_request) s : Prop :=
  forall s', evolves out [] s s' -> counting b put out s' -> runs mk s' (fun r s2 => s2 = s' /\ r = rq).

Lemma makes_evolves b put out mk rq s s' : evolves out [] s s' -> makes b put out mk rq s -> makes b put out mk rq s'.
Proof. intros He Hk s2 He2. apply Hk. by eapply evolves_nil. Qed.

Lemma makes_ret b put out rq s : makes b put out (ret rq) rq s.
Proof. intros s' _ _. by apply runs_ret. Qed.

Lemma issue_loop_spec n b rq mk polled s : counting b (is_put rq) (ctxs rq) s -> (rq_context rq <> None -> is_put rq = true) ->
  makes b (is_put rq) (ctxs rq) mk rq s -> polled + Z.of_nat n = max_poll + 1 -> polled <= max_poll ->
  polled + Z.of_nat (tries (fab s)) <= Z.of_nat refusals ->
  runs (issue_loop n mk polled) s (fun _ s' => mid b false 0 0 [] s' /\ evolves (ctxs rq) [rq] s s').
Proof.
  revert polled s. induction n as [|n IH]; intros polled s Hm Hput Hk Hn Hle Hp; [lia|]. cbn [issue_loop].
  eapply runs_then; [by apply Hk; [apply evolves_refl|]|]. intros rq' s' [-> ->]. runs_step. apply runs_on_fab. intros rc f' E.
  destruct (law_submit _ _ _ _ E) as [(-> & l & d & Ha & Ef)|[(-> & Ha & Ht)|[N1 N2]]].
  - destruct (submit_step _ _ _ _ _ _ Hm Hput Ha Ef) as [Hm' He']. runs_step. unfold try_again. apply runs_ret. by apply runs_ret.
  - destruct (advance_step _ _ _ _ _ _ _ Hm Ha) as [Hm1 He1].
    eapply runs_then; [apply again_spec; [exact Hm1|lia]|]. intros r s2 ([-> Hmax] & Hm2 & He2 & Hc2). cbv iota beta.
    pose proof (evolves_nil _ _ _ _ _ He1 He2) as He. unfold calm in Hc2. simpl in Hc2.
    eapply runs_mono; [apply (IH (polled + 1) s2 Hm2 Hput); [by eapply makes_evolves|lia|lia|lia]|].
    intros _ s3 [Hm3 He3]. split; [done|by eapply evolves_nil].
  - unfold try_again. rewrite (proj2 (Z.eqb_neq _ _) N1), (proj2 (Z.eqb_neq _ _) N2). left. by eapply err_submit.
Qed.

(** A request is issued, however often the fabric refuses it. *)
Lemma issue_spec b rq mk s : counting b (is_put rq) (ctxs rq) s -> (rq_context rq <> None -> is_put rq = true) ->
  makes b (is_put rq) (ctxs rq) mk rq s ->
  runs (issue mk) s (fun _ s' => mid b false 0 0 [] s' /\ evolves (ctxs rq) [rq] s s').
Proof.
  intros Hm Hput Hk. pose proof (law_tries (fab s)). pose proof (co_poll _ _ Hcfg). apply issue_loop_spec; [done|done|done|lia..].
Qed.

(** A request without a completion event, counted and issued. *)
Lemma request_spec b put rq mk s : mid b false 0 0 [] s -> is_put rq = put -> rq_context rq = None ->
  makes b put [] mk rq s ->
  runs (CNTR_INC put ;; issue mk) s (fun _ s' => mid b false 0 0 [] s' /\ evolves [] [rq] s s').
Proof.
  intros Hm <- Hc Hk. assert (ctxs rq = []) as Ec by (unfold ctxs; by rewrite Hc).
  eapply runs_then; [by apply runs_cntr_inc|]. intros _ s1 (Hm1 & He1 & _).
  eapply runs_mono; [apply issue_spec; [by rewrite Ec|by rewrite Hc|rewrite Ec; by eapply makes_evolves]|].
  rewrite Ec. intros _ s2 [Hm2 He2]. split; [done|by eapply evolves_nil].
Qed.

Lemma runs_assoc {A B C} (m : ST state A) (f : A -> ST state B) (k : B -> ST state C) s Q :
  runs (bind (bind m f) k) s Q -> runs (bind m (fun a => bind (f a) k)) s Q.
Proof. unfold runs_or, bind. destruct (m s) as [[a s1]|]; done. Qed.

(** The same under the lock of the context. *)
Lemma locked_request put rq mk s : tr_inv s -> is_put rq = put -> rq_context rq = None ->
  (forall s', evolves [] [] s s' -> makes true put [] mk rq s') ->
  runs (CTX_LOCK ;; CNTR_INC put ;; issue mk ;; CTX_UNLOCK) s (fun _ s' => tr_inv s' /\ evolves [] [rq] s s').
Proof.
  intros Hm Hp Hc Hk. eapply runs_then; [by apply runs_lock|]. intros _ s1 (Hm1 & He1 & _). apply runs_assoc.
  eapply runs_then; [apply request_spec; [done|done|done|by apply Hk]|]. intros _ s2 [Hm2 He2].
  eapply runs_mono; [by eapply runs_unlock|]. intros _ s3 (Hm3 & He3 & _). split; [done|].
  eapply evolves_nil; [exact He1|]. rewrite <- (app_nil_r [rq]). by eapply evolves_trans.
Qed.

Lemma user_bytes out rqs s s' a len : user_range a len -> evolves out rqs s s' -> bytes_at s' a len = bytes_at s a len.
Proof.
  intros Hu He. unfold bytes_at. apply map_ext_in. intros k Hk%list_elem_of_In%elem_of_upto. unfold value_at.
  by rewrite (ev_user _ _ _ _ He _ (Hu k Hk)).
Qed.

(** A request that injects the bytes of the program. *)
Lemma makes_inject b put source len (f : fi_data -> fi_request) s : user_range source len ->
  makes b put [] (d <- inject source len ; ret (f d)) (f (Inject (bytes_at s source len))) s.
Proof.
  intros Hu s' He Hm'. eapply runs_then; [apply inject_spec; by eapply user_readable; [exact (md_core _ _ _ _ _ _ Hm')|]|].
  intros d s2 [-> ->]. apply runs_ret. split; [done|]. by rewrite (user_bytes _ _ _ _ _ _ Hu He).
Qed.

(** ** Puts *)

Lemma runs_get_mr target pe r s (Q : Z * Z -> state -> Prop) : get_mr target pe = Some r -> Q r s ->
  runs (shmem_transport_ofi_get_mr target pe) s Q.
Proof. intros E HQ. unfold shmem_transport_ofi_get_mr. rewrite E. by apply runs_ret. Qed.

Lemma put_scalar_spec target source len pe addr key s : tr_inv s -> user_range source len -> len <= max_buffered_send ->
  get_mr target pe = Some (addr, key) ->
  runs (shmem_transport_put_scalar target source len pe) s (fun _ s' => tr_inv s' /\
    evolves [] [write_request (Inject (bytes_at s source len)) len pe addr key None] s s').
Proof.
  intros Hm Hu Hlen Hmr. unfold shmem_transport_put_scalar. runs_step. eapply runs_get_mr; [exact Hmr|]. cbv beta iota. runs_step.
  apply runs_assert; [by apply Z.leb_le|]. apply locked_request; [done|done|done|]. intros s' He.
  rewrite <- (user_bytes _ _ _ _ _ _ Hu He). by apply (makes_inject true true).
Qed.

(** The fragments of a long transfer: offset and length. *)
Fixpoint fragments (max : Z) (n : nat) (len done : Z) : list (Z * Z) :=
  match n with
  | O => []
  | S n => if done <? len then let k := Z.min max (len - done) in (done, k) :: fragments max n len (done + k) else []
  end.

Lemma frag_loop_spec n b put len done (mk : Z -> Z -> fi_request) s : mid b false 0 0 [] s ->
  (forall d k, is_put (mk d k) = put /\ rq_context (mk d k) = None) -> len - done <= Z.of_nat n * max_msg_size ->
  runs (frag_loop n put len done mk) s (fun _ s' => mid b false 0 0 [] s' /\
    evolves [] (map (fun '(d, k) => mk d k) (fragments max_msg_size n len done)) s s').
Proof.
  pose proof (co_msg _ _ Hcfg) as Hmax. revert done s. induction n as [|n IH]; intros d s Hm Hk Hn; cbn [frag_loop fragments];
    (destruct (Z.ltb_spec d len) as [Hlt|Hge]; [|apply runs_ret; split; [assumption|apply evolves_refl]]); [nia|].
  apply runs_assoc. eapply runs_then; [apply request_spec; [done|apply Hk|apply Hk|apply makes_ret]|]. intros _ s1 [Hm1 He1].
  eapply runs_mono; [apply (IH _ s1 Hm1 Hk); nia|]. intros _ s2 [Hm2 He2]. split; [done|]. simpl.
  by apply (evolves_trans [] [_] _ s s1 s2).
Qed.

Lemma frags_enough len : 0 <= len -> len <= Z.of_nat (frags len) * max_msg_size.
Proof.
  intros Hl. pose proof (co_msg _ _ Hcfg) as Hm. unfold frags. pose proof (Z.div_pos _ _ Hl Hm).
  pose proof (Z.div_mod len max_msg_size (Z.neq_sym _ _ (Z.lt_neq _ _ Hm))). pose proof (Z.mod_pos_bound len _ Hm).
  rewrite Z2Nat.id by lia. nia.
Qed.

(** The requests of a long put. *)
Definition large_requests (source len pe addr key : Z) : list fi_request :=
  map (fun '(d, k) => write_request (Buffer (source + d)) k pe (addr + d) key None) (fragments max_msg_size (frags len) len 0).

Lemma locked_frags put len (mk : Z -> Z -> fi_request) s : tr_inv s -> 0 <= len ->
  (forall d k, is_put (mk d k) = put /\ rq_context (mk d k) = None) ->
  runs (CTX_LOCK ;; frag_loop (frags len) put len 0 mk ;; CTX_UNLOCK) s (fun _ s' => tr_inv s' /\
    evolves [] (map (fun '(d, k) => mk d k) (fragments max_msg_size (frags len) len 0)) s s').
Proof.
  intros Hm Hlen Hk. eapply runs_then; [by apply runs_lock|]. intros _ s1 (Hm1 & He1 & _).
  eapply runs_then; [apply frag_loop_spec; [done|exact Hk|pose proof (frags_enough len Hlen); lia]|]. intros _ s2 [Hm2 He2].
  eapply runs_mono; [by eapply runs_unlock|]. intros _ s3 (Hm3 & He3 & _). split; [done|]. eapply evolves_nil; [exact He1|].
  rewrite <- (app_nil_r (map _ _)). by eapply evolves_trans.
Qed.

Lemma put_large_spec target source len pe addr key s : tr_inv s -> 0 <= len -> get_mr target pe = Some (addr, key) ->
  runs (shmem_transport_ofi_put_large target source len pe) s (fun _ s' => tr_inv s' /\
    evolves [] (large_requests source len pe addr key) s s').
Proof.
  intros Hm Hlen Hmr. unfold shmem_transport_ofi_put_large. runs_step. eapply runs_get_mr; [exact Hmr|]. by apply (locked_frags true).
Qed.

(** The bytes a request sends, when its buffer is read in the state [s]; [size] is the size
    of what it counts. *)
Definition sends (size : Z) s (rq : fi_request) : list Z :=
  match rq_data rq with Inject l => l | Buffer a => bytes_at s a (rq_count rq * size) end.

(** The requests address consecutive parts of the remote memory: the elements from [i] to
    [n] of the array at [addr]. *)
Fixpoint covers (kind : Z -> fi_kind) (size pe addr key : Z) (rqs : list fi_request) (i n : Z) : Prop :=
  match rqs with
  | [] => i = n
  | rq :: rqs => rq_kind rq = kind i /\ rq_pe rq = GET_DEST pe /\ rq_key rq = key /\ rq_addr rq = addr + i * size /\
      0 <= rq_count rq /\ match rq_data rq with Inject ((_ :: _) as l) => length l = Z.to_nat (rq_count rq * size) | _ => True end /\
      covers kind size pe addr key rqs (i + rq_count rq) n
  end.
Definition carries (kind : Z -> fi_kind) (size : Z) s (rqs : list fi_request) (pe addr key n : Z) (bytes : list Z) : Prop :=
  covers kind size pe addr key rqs 0 n /\ flat_map (sends size s) rqs = bytes.
Definition writes : state -> list fi_request -> Z -> Z -> Z -> Z -> list Z -> Prop := carries (fun _ => FiWrite) 1.

(** The request does not read the memory of the program: its bytes were copied. *)
Definition copied (rq : fi_request) : Prop :=
  match rq_data rq with Inject _ => True | Buffer a => exists c, rq_context rq = Some c /\ a = c + SIZEOF_BOUNCE_BUFFER /\ rq_count rq <= bounce_buffer_size end.

Lemma bytes_at_split s a n m : 0 <= n <= m -> bytes_at s a n ++ bytes_at s (a + n) (m - n) = bytes_at s a m.
Proof.
  intros H. unfold bytes_at, upto, zrange. rewrite !map_map. replace (Z.to_nat (m - 0)) with (Z.to_nat (n - 0) + Z.to_nat (m - n - 0))%nat by lia.
  rewrite seq_app, map_app. f_equal. rewrite <- (Nat.add_0_r (0 + Z.to_nat (n - 0))), <- fmap_add_seq, map_map.
  apply map_ext. intros i. f_equal. lia.
Qed.

Lemma length_bytes_at s a len : length (bytes_at s a len) = Z.to_nat len.
Proof. unfold bytes_at. rewrite length_map, length_upto. f_equal. lia. Qed.

Lemma length_fragments max n len d : (length (fragments max n len d) <= n)%nat.
Proof.
  revert d. induction n as [|n IH]; intros d; simpl; [done|]. destruct (d <? len); simpl; [|lia].
  specialize (IH (d + Z.min max (len - d))). lia.
Qed.

(** The fragment of [k] elements at [i] of the array at [addr]. *)
Definition part_of (kind : Z -> fi_kind) (size pe addr key i k : Z) (rq : fi_request) : Prop :=
  rq_kind rq = kind i /\ rq_pe rq = GET_DEST pe /\ rq_key rq = key /\ rq_addr rq = addr + i * size /\ rq_count rq = k.

(** The fragments cover the whole array. *)
Lemma fragments_cover kind size max pe addr key (mk : Z -> Z -> fi_request) len n i : 0 < max -> 0 <= i <= len -> len - i <= Z.of_nat n * max ->
  (forall i k, part_of kind size pe addr key i k (mk i k) /\ match rq_data (mk i k) with Inject (_ :: _) => False | _ => True end) ->
  covers kind size pe addr key (map (fun '(i, k) => mk i k) (fragments max n len i)) i len.
Proof.
  intros Hmax Hi Hn Hk. revert i Hi Hn. induction n as [|n IH]; intros i Hi Hn; cbn [fragments]; [simpl; lia|].
  destruct (Z.ltb_spec i len) as [Hlt|Hge]; [|simpl; lia]. set (k := Z.min max (len - i)). simpl.
  destruct (Hk i k) as [(E1 & E2 & E3 & E4 & E5) Hd]. rewrite E5. repeat (split; [done || lia|]). split.
  - by destruct (rq_data (mk i k)) as [[]|].
  - apply IH; [lia|nia].
Qed.

(** They send all its bytes. *)
Lemma fragments_send size s source max (mk : Z -> Z -> fi_request) len n i : 0 < max -> 0 < size -> 0 <= i <= len ->
  len - i <= Z.of_nat n * max -> (forall i k, rq_data (mk i k) = Buffer (source + i * size) /\ rq_count (mk i k) = k) ->
  flat_map (sends size s) (map (fun '(i, k) => mk i k) (fragments max n len i)) = bytes_at s (source + i * size) ((len - i) * size).
Proof.
  intros Hmax Hsize Hi Hn Hk. revert i Hi Hn. induction n as [|n IH]; intros i Hi Hn; cbn [fragments].
  - by assert (len - i = 0) as -> by lia.
  - destruct (Z.ltb_spec i len) as [Hlt|Hge]; [|by assert (len - i = 0) as -> by lia].
    set (k := Z.min max (len - i)). simpl. unfold sends at 1. destruct (Hk i k) as [-> ->].
    rewrite (IH (i + k)) by nia. rewrite <- (bytes_at_split s (source + i * size) (k * size) ((len - i) * size)) by nia.
    f_equal. f_equal; lia.
Qed.

Lemma large_write s source pe addr key len : 0 <= len ->
  writes s (large_requests source len pe addr key) pe addr key len (bytes_at s source len).
Proof.
  intros Hl. pose proof (co_msg _ _ Hcfg). pose proof (frags_enough len Hl). split.
  - apply fragments_cover; [done|lia|lia|]. intros i k. split; [|done]. repeat split; simpl; (done || lia).
  - unfold large_requests. rewrite (fragments_send 1 s source); [f_equal; lia|done|lia|lia|lia|].
    intros i k. simpl. by rewrite Z.mul_1_r.
Qed.

Lemma large_length source len pe addr key : (length (large_requests source len pe addr key) <= S (frags len))%nat.
Proof. unfold large_requests. rewrite length_map. pose proof (length_fragments max_msg_size (frags len) len 0). lia. Qed.

(** One request carries all. *)
Lemma carries_one kind size s rq pe addr key n bytes : part_of kind size pe addr key 0 n rq -> 0 <= n ->
  length bytes = Z.to_nat (n * size) -> sends size s rq = bytes -> carries kind size s [rq] pe addr key n bytes.
Proof.
  intros (E1 & E2 & E3 & E4 & E5) Hn Hl <-. split; [|simpl; by rewrite app_nil_r]. simpl. rewrite E5.
  repeat (split; [done || lia|]). split; [|lia]. unfold sends in Hl. by destruct (rq_data rq) as [[]|].
Qed.

Lemma write_one s d len pe addr key c bytes : 0 <= len -> length bytes = Z.to_nat len ->
  match d with Inject l => l | Buffer a => bytes_at s a len end = bytes ->
  writes s [write_request d len pe addr key c] pe addr key len bytes.
Proof.
  intros Hl Hb E. apply carries_one; [repeat split; simpl; (done || lia)|done|by rewrite Z.mul_1_r|].
  unfold sends. simpl. by rewrite Z.mul_1_r.
Qed.

(** A request sends from the bounce buffer [x], which keeps its contents. *)
Lemma send_bounce b rq x len s : counting b true [x] s -> is_put rq = true -> rq_context rq = Some x -> 0 <= len <= bounce_buffer_size ->
  runs (issue (ret rq)) s (fun _ s' => mid b false 0 0 [] s' /\ evolves [] [rq] s s' /\
    bytes_at s' (x + SIZEOF_BOUNCE_BUFFER) len = bytes_at s (x + SIZEOF_BOUNCE_BUFFER) len).
Proof.
  intros Hm Hp Hx Hlen. assert (ctxs rq = [x]) as Ec by (unfold ctxs; by rewrite Hx).
  eapply runs_mono; [apply (issue_spec b rq); [by rewrite Hp, Ec|done|apply makes_ret]|]. rewrite Ec. intros _ s1 [Hm1 He1].
  split; [done|]. split; [eapply evolves_sub; [|exact He1]; by intros c ?%elem_of_nil|].
  unfold bytes_at. apply map_ext_in. intros k Hk%list_elem_of_In%elem_of_upto. unfold value_at.
  rewrite <- Z.add_assoc, (ev_out _ _ _ _ He1 x (list_elem_of_here _ _)); [done|]. unfold elem_size, SIZEOF_BOUNCE_BUFFER. lia.
Qed.

(** A put of the program's bytes: what is issued writes them, and the result tells whether
    the array can be reused at once. *)
Lemma put_nb_spec target source len pe addr key completion s : tr_inv s -> user_range source len -> 0 <= len ->
  get_mr target pe = Some (addr, key) ->
  runs (shmem_transport_put_nb target source len pe completion) s (fun r s' => exists rqs, tr_inv s' /\ evolves [] rqs s s' /\
    writes s' rqs pe addr key len (bytes_at s source len) /\ (length rqs <= S (frags len))%nat /\
    (r = completion /\ Forall copied rqs \/ r = completion + 1)).
Proof.
  intros Hm Hu Hlen Hmr. unfold shmem_transport_put_nb. runs_step.
  assert (runs (shmem_transport_ofi_put_large target source len pe ;; ret (completion + 1)) s (fun r s' => exists rqs, tr_inv s' /\ evolves [] rqs s s' /\
    writes s' rqs pe addr key len (bytes_at s source len) /\ (length rqs <= S (frags len))%nat /\
    (r = completion /\ Forall copied rqs \/ r = completion + 1))) as Hlarge.
  { eapply runs_then; [by eapply put_large_spec|]. intros _ s1 [Hm1 He1]. apply runs_ret. exists (large_requests source len pe addr key).
    split; [done|]. split; [done|]. rewrite <- (user_bytes _ _ _ _ _ _ Hu He1). split; [by apply large_write|].
    split; [|by right]. apply large_length. }
  assert (len <= max_buffered_send -> runs (shmem_transport_put_scalar target source len pe ;; ret completion) s (fun r s' => exists rqs, tr_inv s' /\
    evolves [] rqs s s' /\ writes s' rqs pe addr key len (bytes_at s source len) /\ (length rqs <= S (frags len))%nat /\
    (r = completion /\ Forall copied rqs \/ r = completion + 1))) as Hsmall.
  { intros Hle. eapply runs_then; [by eapply put_scalar_spec|]. intros _ s1 [Hm1 He1]. apply runs_ret.
    exists [write_request (Inject (bytes_at s source len)) len pe addr key None]. split; [done|]. split; [done|].
    split; [apply write_one; [done|apply length_bytes_at|done]|]. split; [simpl; lia|]. left. split; [done|]. by repeat constructor. }
  apply runs_has_bounce; intros Hb; (destruct (Z.leb_spec len max_buffered_send) as [Hle|Hgt]; [by apply Hsmall|]);
    [|rewrite andb_false_r; exact Hlarge]. rewrite andb_true_r.
  destruct (Z.leb_spec len bounce_buffer_size) as [Hle|]; [|exact Hlarge]. clear Hlarge Hsmall.
  eapply runs_then; [by apply runs_lock|]. intros _ s1 (Hm1 & He1 & Ef1 & Ec1 & _).
  eapply runs_then; [by apply runs_cntr_inc|]. intros _ s2 (Hm2 & He2 & Ef2 & Ec2 & _).
  runs_step. eapply runs_get_mr; [exact Hmr|]. cbv beta iota.
  assert (has_buffers s2) as Hb2 by (unfold has_buffers; by rewrite Ec2, Ec1).
  eapply runs_then; [apply create_spec; [exact Hm2|done|lia|exact Hu]|]. intros x s3 (Hm3 & He3 & _ & Hbytes).
  set (rq := write_request (Buffer (x + SIZEOF_BOUNCE_BUFFER)) len pe addr key (Some x)).
  eapply runs_then; [apply (send_bounce true rq x len); [exact Hm3|done|done|lia]|]. intros _ s4 (Hm4 & He4 & Hb4).
  eapply runs_then; [by eapply runs_unlock|]. intros _ s5 (Hm5 & He5 & _ & _ & Eh5). apply runs_ret. exists [rq].
  assert (evolves [] [] s s3) as He13 by (eapply evolves_nil; [exact He1|]; by eapply evolves_nil).
  split; [done|]. split; [eapply evolves_nil; [exact He13|]; rewrite <- (app_nil_r [rq]); by eapply evolves_trans|].
  split; [|split; [simpl; lia|left; split; [done|by repeat constructor; eexists]]].
  apply write_one; [done|apply length_bytes_at|].
  rewrite <- (user_bytes _ _ _ _ source len Hu (evolves_nil _ _ _ _ _ He1 He2)), <- Hbytes, <- Hb4.
  unfold bytes_at, value_at. by rewrite Eh5.
Qed.

Lemma evolves_room out rqs s s' : evolves out rqs s s' -> Z.of_nat (length (ents s) + length rqs) < 2 ^ 64 -> countable s'.
Proof. intros He H. unfold countable. by rewrite (evolves_length _ _ _ _ He). Qed.

(** A blocking put: when it returns, what still reads memory does not read the program's. *)
Lemma blocking_put_spec target source len pe addr key s : tr_inv s -> user_range source len -> 0 <= len ->
  get_mr target pe = Some (addr, key) -> Z.of_nat (length (ents s) + S (frags len)) < 2 ^ 64 ->
  runs (completion <- shmem_transport_put_nb target source len pe 0 ; shmem_transport_put_wait completion) s
    (fun r s' => r = 0 /\ tr_inv s' /\ exists rqs, evolves [] rqs s s' /\ covers (fun _ => FiWrite) 1 pe addr key rqs 0 len /\ (length rqs <= S (frags len))%nat /\
       (exists s1, evolves [] rqs s s1 /\ evolves [] [] s1 s' /\ flat_map (sends 1 s1) rqs = bytes_at s source len) /\
       forall e, e ∈ ents s' -> e_req e ∈ rqs -> e_done e = true \/ copied (e_req e)).
Proof.
  intros Hm Hu Hlen Hmr Hroom. eapply runs_then; [by eapply put_nb_spec|].
  intros r s1 (rqs & Hm1 & He1 & [Hc Hw] & Hn & [[-> Hcp] | -> ]); unfold shmem_transport_put_wait; runs_step.
  - apply runs_assert; [done|]. apply runs_ret. split; [done|]. split; [done|]. exists rqs. split; [done|]. split; [done|]. split; [done|].
    split; [exists s1; split; [done|]; split; [apply evolves_refl|done]|]. intros e _ He. right. rewrite List.Forall_forall in Hcp. apply Hcp.
    by apply list_elem_of_In.
  - apply runs_assert; [done|]. change (0 + 1 >? 0) with true. cbv iota.
    eapply runs_then; [apply put_quiet_spec; [done|eapply evolves_room; [exact He1|lia]]|]. intros _ s2 (Hm2 & He2 & Hd2 & _).
    apply runs_ret. split; [done|]. split; [done|]. pose proof (evolves_trans _ _ _ _ _ _ He1 He2) as He. rewrite app_nil_r in He.
    exists rqs. split; [done|]. split; [done|]. split; [done|]. split; [by exists s1|]. intros e Hin Hrq. left. apply Hd2; [done|].
    clear - Hc Hrq. revert Hc. generalize 0. induction rqs as [|rq rqs IH]; intros i; [by apply elem_of_nil in Hrq|].
    intros (Hk & _ & _ & _ & _ & _ & Hc). apply elem_of_cons in Hrq as [->|Hrq]; [unfold is_put; by rewrite Hk|by eapply IH].
Qed.

Lemma put_nbi_spec target source len pe addr key s : tr_inv s -> user_range source len -> 0 <= len ->
  get_mr target pe = Some (addr, key) ->
  runs (shmem_transport_put_nbi target source len pe) s (fun _ s' => exists rqs, tr_inv s' /\ evolves [] rqs s s' /\
    writes s' rqs pe addr key len (bytes_at s source len) /\ (length rqs <= S (frags len))%nat).
Proof.
  intros Hm Hu Hlen Hmr. unfold shmem_transport_put_nbi. destruct (Z.leb_spec len max_buffered_send) as [Hle|Hgt].
  - eapply runs_mono; [by eapply put_scalar_spec|]. intros _ s1 [Hm1 He1]. eexists. split; [done|]. split; [exact He1|].
    split; [apply write_one; [done|apply length_bytes_at|done]|simpl; lia].
  - eapply runs_mono; [by eapply put_large_spec|]. intros _ s1 [Hm1 He1]. exists (large_requests source len pe addr key).
    split; [done|]. split; [done|]. rewrite <- (user_bytes _ _ _ _ _ _ Hu He1). split; [by apply large_write|].
    apply large_length.
Qed.

(** ** Put with signal *)

Definition signal_request (signal sig_op pe addr key : Z) : fi_request :=
  Request (FiAtomic FI_UINT64 (if sig_op =? SHMEM_SIGNAL_ADD then FI_SUM else FI_ATOMIC_WRITE)) (Inject [signal]) 1
    (GET_DEST pe) addr key None USE_FI_FENCE.

Lemma put_signal_data_spec target source len pe addr key s : tr_inv s -> user_range source len -> 0 <= len ->
  get_mr target pe = Some (addr, key) ->
  runs (put_signal_data target source len pe) s (fun _ s' => exists rqs, tr_inv s' /\ evolves [] rqs s s' /\
    writes s' rqs pe addr key len (bytes_at s source len) /\ (length rqs <= S (frags len))%nat).
Proof.
  intros Hm Hu Hlen Hmr. unfold put_signal_data. runs_step. eapply runs_get_mr; [exact Hmr|]. cbv beta iota.
  destruct (Z.leb_spec len max_buffered_send) as [Hle|Hgt].
  - eapply runs_mono.
    + apply (locked_request true (write_request (Inject (bytes_at s source len)) len pe addr key None)); [done|done|done|].
      intros s' He. rewrite <- (user_bytes _ _ _ _ _ _ Hu He). by apply (makes_inject true true).
    + intros _ s1 [Hm1 He1]. eexists. split; [done|]. split; [exact He1|].
      split; [apply write_one; [done|apply length_bytes_at|done]|simpl; lia].
  - eapply runs_mono; [by apply (locked_frags true)|]. intros _ s1 [Hm1 He1]. exists (large_requests source len pe addr key).
    split; [done|]. split; [done|]. rewrite <- (user_bytes _ _ _ _ _ _ Hu He1). split; [by apply large_write|].
    apply large_length.
Qed.

(** The data first, then the signal: fenced by the fabric, or after a fence that completed
    everything before it (nothing if the fabric orders all data). *)
Lemma put_signal_spec target source len sig_addr signal sig_op pe addr key saddr skey s : tr_inv s -> user_range source len -> 0 <= len ->
  get_mr target pe = Some (addr, key) -> get_mr sig_addr pe = Some (saddr, skey) ->
  Z.of_nat (length (ents s) + S (frags len)) < 2 ^ 64 ->
  runs (shmem_transport_put_signal_nbi target source len sig_addr signal sig_op pe) s (fun _ s' => tr_inv s' /\
    exists rqs s1 s2, evolves [] rqs s s1 /\ writes s1 rqs pe addr key len (bytes_at s source len) /\ (length rqs <= S (frags len))%nat /\
      evolves [] [] s1 s2 /\
      evolves [] [signal_request signal sig_op pe saddr skey] s2 s' /\
      (USE_FI_FENCE = false -> WANT_TOTAL_DATA_ORDERING = 0 -> all_done (ents s2))).
Proof.
  intros Hm Hu Hlen Hmr Hsig Hroom. unfold shmem_transport_put_signal_nbi.
  eapply runs_then; [by eapply put_signal_data_spec|]. intros _ s1 (rqs & Hm1 & He1 & Hw & Hn).
  eapply (runs_then _ _ _ _ (fun _ s2 => tr_inv s2 /\ evolves [] [] s1 s2 /\
    (USE_FI_FENCE = false -> WANT_TOTAL_DATA_ORDERING = 0 -> all_done (ents s2)))).
  { destruct USE_FI_FENCE eqn:Ef.
    - apply runs_ret. split; [done|]. split; [apply evolves_refl|done].
    - eapply runs_mono; [apply fence_spec; [done|eapply evolves_room; [exact He1|lia]]|].
      intros _ s2 (_ & Hm2 & He2 & _ & Hd). by split. }
  intros _ s2 (Hm2 & He2 & Hd). unfold put_signal_send. runs_step. eapply runs_get_mr; [exact Hsig|]. cbv beta iota.
  eapply runs_mono; [apply (locked_request true (signal_request signal sig_op pe saddr skey)); [done|done|done|]|].
  - intros s' _. apply makes_ret.
  - intros _ s3 [Hm3 He3]. split; [done|]. by exists rqs, s1, s2.
Qed.

(** ** Gets *)

Lemma get_spec target source len pe addr key s : tr_inv s -> 0 <= len -> get_mr source pe = Some (addr, key) ->
  runs (shmem_transport_get target source len pe) s (fun _ s' => exists rqs, tr_inv s' /\ evolves [] rqs s s' /\
    covers (fun i => FiRead (target + i)) 1 pe addr key rqs 0 len /\ (length rqs <= S (frags len))%nat).
Proof.
  intros Hm Hlen Hmr. unfold shmem_transport_get. runs_step. eapply runs_get_mr; [exact Hmr|]. cbv beta iota zeta.
  destruct (Z.leb_spec len max_msg_size) as [Hle|Hgt].
  - eapply runs_then; [by apply runs_lock|]. intros _ s1 (Hm1 & He1 & _).
    eapply runs_then; [eapply (request_spec true false); [done| | |apply makes_ret]; done|]. intros _ s2 [Hm2 He2].
    eapply runs_mono; [by eapply runs_unlock|]. intros _ s3 (Hm3 & He3 & _). eexists. split; [done|]. split.
    { eapply evolves_nil; [exact He1|]. by eapply evolves_trans. }
    split; [|simpl; lia]. simpl. repeat (split; [done || f_equal; lia|]). lia.
  - eapply runs_mono; [apply (locked_frags false); [done|done|by intros]|]. intros _ s1 [Hm1 He1]. eexists. split; [done|]. split; [exact He1|].
    pose proof (co_msg _ _ Hcfg). pose proof (frags_enough len Hlen). split.
    + apply fragments_cover; [done|lia|lia|]. intros i k. split; [|done]. repeat split; simpl; (done || lia).
    + rewrite length_map. pose proof (length_fragments max_msg_size (frags len) len 0). lia.
Qed.

(** A blocking get: the bytes arrived. *)
Lemma blocking_get_spec target source len pe addr key s : tr_inv s -> 0 <= len -> get_mr source pe = Some (addr, key) ->
  Z.of_nat (length (ents s) + S (frags len)) < 2 ^ 64 ->
  runs (shmem_transport_get target source len pe ;; shmem_transport_get_wait) s (fun _ s' => exists rqs, tr_inv s' /\ evolves [] rqs s s' /\
    covers (fun i => FiRead (target + i)) 1 pe addr key rqs 0 len /\ class_done false s').
Proof.
  intros Hm Hlen Hmr Hroom. eapply runs_then; [by eapply get_spec|]. intros _ s1 (rqs & Hm1 & He1 & Hc & Hn).
  eapply runs_mono; [apply get_wait_spec; [done|eapply evolves_room; [exact He1|lia]]|].
  intros _ s2 (Hm2 & (He2 & _) & Hd). exists rqs. split; [done|]. split; [|done].
  rewrite <- (app_nil_r rqs). by eapply evolves_trans.
Qed.

(** ** Atomics *)

(** The checks pass. *)
Definition passes (checks : ST state unit) : Prop := forall s, runs checks s (fun _ s' => s' = s).

Lemma check_dtype_passes d : passes (check_dtype (SHMEM_Dtsize (shmem_transport_dtype_table d)) d).
Proof. intros s. apply runs_assert; [apply Z.eqb_refl|done]. Qed.

Lemma fetching_passes d : passes (fetching_checks (SHMEM_Dtsize (shmem_transport_dtype_table d)) d).
Proof. intros s. unfold fetching_checks. runs_step. apply runs_assert; [by destruct d|]. apply check_dtype_passes. Qed.

Lemma atomic_request_spec target pe put checks mk rq addr key s : tr_inv s -> get_mr target pe = Some (addr, key) ->
  passes checks -> is_put rq = put -> rq_context rq = None -> (forall s', evolves [] [] s s' -> makes true put [] (mk addr key) rq s') ->
  runs (atomic_request target pe put checks mk) s (fun _ s' => tr_inv s' /\ evolves [] [rq] s s').
Proof.
  intros Hm Hmr Hc Hp Hr Hk. unfold atomic_request. runs_step. eapply runs_get_mr; [exact Hmr|]. cbv beta iota.
  eapply runs_then; [apply Hc|]. intros _ s' ->. by apply locked_request.
Qed.

(** Which request each atomic of one element issues; [len] is the size of the datatype. *)
Inductive atomic_call : Type :=
| CallAtomic (o : fi_op)
| CallFetch (o : fi_op) (dest : Z)
| CallFetchNbi (o : fi_op) (dest : Z)
| CallCswap (dest operand : Z)
| CallCswapNbi (dest operand : Z)
| CallMswap (dest mask : Z).

Definition atomic_code (c : atomic_call) (target source len pe : Z) (d : shm_internal_datatype_t) : ST state unit :=
  match c with
  | CallAtomic o => shmem_transport_atomic target source len pe o d
  | CallFetch o dest => shmem_transport_fetch_atomic target source dest len pe o d
  | CallFetchNbi o dest => shmem_transport_fetch_atomic_nbi target source dest len pe o d
  | CallCswap dest operand => shmem_transport_cswap target source dest operand len pe d
  | CallCswapNbi dest operand => shmem_transport_cswap_nbi target source dest operand len pe d
  | CallMswap dest mask => shmem_transport_mswap target source dest mask len pe d
  end.

Definition atomic_kind (s : state) (c : atomic_call) (len : Z) (d : fi_datatype) : fi_kind :=
  match c with
  | CallAtomic o => FiAtomic d o
  | CallFetch o dest | CallFetchNbi o dest => FiFetchAtomic d o dest
  | CallCswap dest operand => FiCompareAtomic d FI_CSWAP (Buffer operand) dest
  | CallCswapNbi dest operand => FiCompareAtomic d FI_CSWAP (Inject (bytes_at s operand len)) dest
  | CallMswap dest mask => FiCompareAtomic d FI_MSWAP (Buffer mask) dest
  end.

Definition atomic_data (s : state) (c : atomic_call) (source len : Z) : fi_data :=
  match c with
  | CallAtomic _ | CallFetchNbi _ _ | CallCswapNbi _ _ => Inject (bytes_at s source len)
  | _ => Buffer source
  end.

(** The arrays a call copies belong to the program. *)
Definition atomic_reads (c : atomic_call) (source len : Z) : Prop :=
  match c with
  | CallAtomic _ | CallFetchNbi _ _ => user_range source len
  | CallCswapNbi _ operand => user_range source len /\ user_range operand len
  | _ => True
  end.

Lemma atomic_code_spec c target source pe d addr key s : let len := SHMEM_Dtsize (shmem_transport_dtype_table d) in
  tr_inv s -> get_mr target pe = Some (addr, key) -> atomic_reads c source len ->
  runs (atomic_code c target source len pe d) s (fun _ s' => tr_inv s' /\
    evolves [] [Request (atomic_kind s c len (shmem_transport_dtype_table d)) (atomic_data s c source len) 1 (GET_DEST pe) addr key None false] s s').
Proof.
  intros len Hm Hmr Hr. destruct c as [o|o dest|o dest|dest operand|dest operand|dest mask]; simpl in *;
    (eapply atomic_request_spec; [done|exact Hmr|first [apply check_dtype_passes|apply fetching_passes]|done|done|]); intros s' He; try apply makes_ret.
  - rewrite <- (user_bytes _ _ _ _ _ _ Hr He).
    by apply (makes_inject true true source len (fun v => Request (FiAtomic _ o) v 1 (GET_DEST pe) addr key None false)).
  - rewrite <- (user_bytes _ _ _ _ _ _ Hr He).
    by apply (makes_inject true false source len (fun v => Request (FiFetchAtomic _ o dest) v 1 (GET_DEST pe) addr key None false)).
  - destruct Hr as [Hs Ho]. rewrite <- (user_bytes _ _ _ _ _ _ Hs He), <- (user_bytes _ _ _ _ _ _ Ho He). intros s1 He1 Hm1.
    eapply runs_then; [apply inject_spec; by eapply user_readable; [exact (md_core _ _ _ _ _ _ Hm1)|]|]. intros v s2 [-> ->].
    rewrite (user_bytes _ _ _ _ _ _ Hs He1).
    exact (makes_inject true false operand len (fun c => Request (FiCompareAtomic _ FI_CSWAP c dest) _ 1 (GET_DEST pe) addr key None false) s' Ho s1 He1 Hm1).
Qed.

(** The loop over chunks. *)
Lemma chunk_loop_spec n b len chunk sent (mk : Z -> Z -> fi_request) s : mid b false 0 0 [] s -> 0 < chunk ->
  (forall i k, is_put (mk i k) = true /\ rq_context (mk i k) = None) -> len - sent <= Z.of_nat n * chunk ->
  runs (chunk_loop n len chunk sent mk) s (fun _ s' => mid b false 0 0 [] s' /\
    evolves [] (map (fun '(i, k) => mk i k) (fragments chunk n len sent)) s s').
Proof.
  intros Hm Hchunk Hk. revert sent s Hm. induction n as [|n IH]; intros i s Hm Hn; cbn [chunk_loop fragments];
    (destruct (Z.ltb_spec i len) as [Hlt|Hge]; [|apply runs_ret; split; [assumption|apply evolves_refl]]); [nia|].
  cbv zeta. rewrite (Z.min_comm (len - i)). apply runs_assoc.
  eapply runs_then; [apply request_spec; [done|apply Hk|apply Hk|apply makes_ret]|]. intros _ s1 [Hm1 He1].
  eapply runs_mono; [apply (IH _ s1 Hm1); nia|]. intros _ s2 [Hm2 He2]. split; [done|]. simpl.
  by apply (evolves_trans [] [_] _ s s1 s2).
Qed.

Lemma fragments_max max n len i : Forall (fun '(_, k) => k <= max) (fragments max n len i).
Proof.
  revert i. induction n as [|n IH]; intros i; simpl; [done|]. destruct (i <? len); [|done]. constructor; [lia|apply IH].
Qed.

Lemma size_positive d : 0 < SHMEM_Dtsize d.
Proof. by destruct d. Qed.

(** What one of the three ways to send [n] elements does. *)
Definition carried (dt : fi_datatype) (o : fi_op) (source n pe addr key max : Z) (s s' : state) : Prop :=
  exists rqs, mid true false 0 0 [] s' /\ evolves [] rqs s s' /\
    carries (fun _ => FiAtomic dt o) (SHMEM_Dtsize dt) s' rqs pe addr key n (bytes_at s source (n * SHMEM_Dtsize dt)) /\
    Forall (fun rq => rq_count rq <= max) rqs /\ (length rqs <= S (Z.to_nat n))%nat.

Lemma atomicv_small dt o source n pe addr key max s : mid true false 0 0 [] s -> user_range source (n * SHMEM_Dtsize dt) -> 0 <= n <= max ->
  runs (CNTR_INC true ;;
        issue (v <- inject source (n * SHMEM_Dtsize dt) ; ret (Request (FiAtomic dt o) v n (GET_DEST pe) addr key None false))) s
    (fun _ s' => carried dt o source n pe addr key max s s').
Proof.
  intros Hm Hu Hn. eapply runs_mono; [apply (request_spec true true (Request (FiAtomic dt o) (Inject (bytes_at s source (n * SHMEM_Dtsize dt)))
    n (GET_DEST pe) addr key None false)); [done|done|done|]|].
  - by apply (makes_inject true true source _ (fun v => Request (FiAtomic dt o) v n (GET_DEST pe) addr key None false)).
  - intros _ s2 [Hm2 He2]. eexists. split; [done|]. split; [exact He2|]. split; [|split; [by repeat constructor; simpl; lia|simpl; lia]].
    apply carries_one; [repeat split; simpl; (done || lia)|lia|apply length_bytes_at|done].
Qed.

Lemma atomicv_bounce dt o source n pe addr key max s : mid true false 0 0 [] s -> has_buffers s -> user_range source (n * SHMEM_Dtsize dt) ->
  0 <= n <= max -> n * SHMEM_Dtsize dt <= bounce_buffer_size ->
  runs (buff <- create_bounce_buffer source (n * SHMEM_Dtsize dt) ;
        CNTR_INC true ;;
        issue (ret (Request (FiAtomic dt o) (Buffer (buff + SIZEOF_BOUNCE_BUFFER)) n (GET_DEST pe) addr key (Some buff) false))) s
    (fun _ s' => carried dt o source n pe addr key max s s').
Proof.
  intros Hm Hb Hu Hn Hfit. pose proof (size_positive dt) as Hsize.
  eapply runs_then; [apply create_spec; [exact Hm|done|nia|exact Hu]|]. intros x s1 (Hm1 & He1 & _ & Hb1).
  eapply runs_then; [by apply runs_cntr_inc|]. intros _ s2 (Hm2 & He2 & _ & _ & Eh2).
  eapply runs_mono; [apply (send_bounce true _ x (n * SHMEM_Dtsize dt)); [exact Hm2|done|done|nia]|].
  intros _ s3 (Hm3 & He3 & Hb3). eexists. split; [done|]. split.
  { eapply evolves_nil; [exact He1|]. eapply evolves_nil; [|exact He3]. eapply evolves_sub; [|exact He2]. by intros c ?%elem_of_nil. }
  split; [|split; [by repeat constructor; simpl; lia|simpl; lia]]. apply carries_one; [repeat split; simpl; (done || lia)|lia|apply length_bytes_at|].
  unfold sends. simpl. rewrite Hb3, <- Hb1. unfold bytes_at, value_at. by rewrite Eh2.
Qed.

Lemma atomicv_chunks dt o source n pe addr key max s : mid true false 0 0 [] s -> user_range source (n * SHMEM_Dtsize dt) -> 0 <= n -> 0 < max ->
  runs (chunk_loop (Z.to_nat n) n max 0 (fun sent chunksize =>
         Request (FiAtomic dt o) (Buffer (source + sent * SHMEM_Dtsize dt)) chunksize (GET_DEST pe) (addr + sent * SHMEM_Dtsize dt) key None false)) s
    (fun _ s' => carried dt o source n pe addr key max s s').
Proof.
  intros Hm Hu Hn Hmax. eapply runs_mono; [apply chunk_loop_spec; [done|done|by intros|nia]|]. intros _ s1 [Hm1 He1].
  eexists. split; [done|]. split; [exact He1|]. split; [split|split].
  - apply fragments_cover; [done|lia|nia|]. intros i k. split; [|done]. repeat split; simpl; (done || lia).
  - rewrite (fragments_send (SHMEM_Dtsize dt) s1 source); [|done|apply size_positive|lia|nia|by intros].
    rewrite Z.mul_0_l, Z.add_0_r, Z.sub_0_r. by eapply user_bytes.
  - pose proof (fragments_max max (Z.to_nat n) n 0) as Hall. revert Hall. generalize (fragments max (Z.to_nat n) n 0).
    induction l as [|[i k] l IH]; intros Hall; [by constructor|]. inversion Hall. constructor; [done|by apply IH].
  - rewrite length_map. pose proof (length_fragments max (Z.to_nat n) n 0). lia.
Qed.

(** The lock is released; [s] is the state before it was taken. *)
Lemma atomicv_unlock dt o source n pe addr key max s s1 s2 : evolves [] [] s s1 -> user_range source (n * SHMEM_Dtsize dt) ->
  carried dt o source n pe addr key max s1 s2 ->
  runs CTX_UNLOCK s2 (fun _ s' => exists rqs, tr_inv s' /\ evolves [] rqs s s' /\
    carries (fun _ => FiAtomic dt o) (SHMEM_Dtsize dt) s' rqs pe addr key n (bytes_at s source (n * SHMEM_Dtsize dt)) /\
    Forall (fun rq => rq_count rq <= max) rqs /\ (length rqs <= S (Z.to_nat n))%nat).
Proof.
  intros He1 Hu (rqs & Hm2 & He2 & [Hc Hs] & Hall). eapply runs_mono; [by eapply runs_unlock|]. intros _ s3 (Hm3 & He3 & _ & _ & Eh3).
  exists rqs. split; [done|]. split; [eapply evolves_nil; [exact He1|]; rewrite <- (app_nil_r rqs); by eapply evolves_trans|].
  split; [|done]. split; [done|]. rewrite <- (user_bytes _ _ _ _ _ _ Hu He1), <- Hs. unfold sends, bytes_at, value_at. by rewrite Eh3.
Qed.

(** An atomic over [n] elements: every element is sent once, in requests the provider accepts. *)
Lemma atomicv_spec target source n pe o d max addr key s : let dt := shmem_transport_dtype_table d in let size := SHMEM_Dtsize dt in
  tr_inv s -> user_range source (n * size) -> 0 <= n -> get_mr target pe = Some (addr, key) ->
  fi_atomicvalid dt o = (0, max) -> 0 < max -> max * size <= max_msg_size < 2 ^ 64 ->
  runs (shmem_transport_atomicv target source (n * size) pe o d) s (fun _ s' => exists rqs, tr_inv s' /\ evolves [] rqs s s' /\
    carries (fun _ => FiAtomic dt o) size s' rqs pe addr key n (bytes_at s source (n * size)) /\
    Forall (fun rq => rq_count rq <= max) rqs /\ (length rqs <= S (Z.to_nat n))%nat).
Proof.
  intros dt size Hm Hu Hn Hmr Hv Hmax Hfit. assert (0 < size) as Hsize by apply size_positive.
  assert (0 < max * size) as Hpos by nia. unfold shmem_transport_atomicv. fold dt. fold size.
  rewrite Z.div_mul, (Z.mul_comm size) by lia. runs_step. apply runs_assert; [apply Z.eqb_refl|].
  eapply runs_then; [by apply runs_lock|]. intros _ s1 (Hm1 & He1 & _). rewrite Hv.
  rewrite Z.mod_small by lia. rewrite (proj2 (Z.eqb_neq (max * size) 0)) by lia. rewrite Z.gtb_ltb, (proj2 (Z.ltb_ge _ _)) by lia.
  cbv iota beta zeta. cbn [negb orb Z.eqb]. runs_step. eapply runs_get_mr; [exact Hmr|]. cbv beta iota. rewrite Z.div_mul by lia.
  pose proof (user_bytes _ _ _ _ source (n * size) Hu He1) as Eb. runs_step.
  apply runs_has_bounce; intros Hb; (eapply (runs_then _ _ _ _ (fun _ s2 => carried dt o source n pe addr key max s1 s2));
    [destruct (Z.leb_spec (n * size) (Z.min max_buffered_send (max * size))); [apply atomicv_small; [done|done|nia]|]|]).
  - destruct (Z.leb_spec (n * size) (Z.min bounce_buffer_size (max * size))); [apply atomicv_bounce; [done|done|done|nia|lia]|by apply atomicv_chunks].
  - intros _ s2 Hs2. by eapply atomicv_unlock.
  - rewrite andb_false_r. by apply atomicv_chunks.
  - intros _ s2 Hs2. by eapply atomicv_unlock.
Qed.

(** ** The program's own memory *)

(** The program writes one of its cells. *)
Definition program_write (w : Z * Z) (s : state) : state := set_hp (Heap (<[w.1 := w.2]> (cells (hp s))) (blocks (hp s))) s.
Definition program_writes (ws : list (Z * Z)) (s : state) : state := fold_left (fun s w => program_write w s) ws s.

Lemma write_differ a v h : is_Some (cells h !! a) -> differ_within a (a + 1) h (Heap (<[a := v]> (cells h)) (blocks h)).
Proof.
  intros Ha. split; [done|]. intros x. simpl. split.
  - intros Hx. destruct (decide (a = x)) as [<-|Hne]; [by rewrite lookup_insert_eq|by rewrite lookup_insert_ne].
  - intros Hx. apply lookup_insert_ne. lia.
Qed.

(** The bounce buffers do not notice. *)
Lemma program_write_step b c p g out a v s : in_user a -> mid b c p g out s ->
  mid b c p g out (program_write (a, v) s) /\
  forall x, x ∈ outstanding (ents s) -> forall d, SIZEOF_BOUNCE_BUFFER <= d < elem_size ->
    cells (hp (program_write (a, v) s)) !! (x + d) = cells (hp s) !! (x + d).
Proof.
  intros Ha Hm. pose proof (user_cell _ _ _ _ _ (md_core _ _ _ _ _ _ Hm) Ha) as Hcell.
  destruct Hm as [[L1 L2] [C1 C2 C3 C4 C5 C6 C7]]. pose proof (write_differ a v _ Hcell) as D. unfold program_write. simpl.
  pose proof (differ_wf _ _ _ _ D C3) as Hwf.
  unfold bounce_ok in *. destruct (bounce_buffers (ctx s)) as [fl|] eqn:Hfl.
  2: { split; [split; [by split|split; simpl; try done; unfold bounce_ok; simpl; by rewrite Hfl]|].
       destruct C5 as [-> _]. by intros x ?%elem_of_nil. }
  destruct C5 as (Hmax & fr & lv & bs & Hi & Ht & Hlv & Hl & Hbs).
  assert (forall x d, x ∈ fr ++ lv -> 0 <= d < elem_size -> x + d <> a) as Hitem.
  { intros x d Hx Hd. pose proof (user_not_item _ _ _ _ _ _ _ Hi C4 Hbs Ha Hx). lia. }
  assert (forall x, x ∈ bs -> x <> a) as Hblock.
  { intros x Hx ->. destruct Ha as (y & sz & Hy & Hya). destruct (fi_blocks _ _ _ _ _ _ Hi) as [_ Hb]. specialize (Hb a Hx).
    assert (a <> y) as Hne by (intros ->; by rewrite (Hbs y Hx) in Hy).
    pose proof (hw_disjoint _ C3 _ _ _ _ Hb (C4 _ _ Hy) Hne) as Hdis. pose proof elem_size_ok.
    unfold block_size, NUM_ELEMENTS, SIZEOF_PTR in *. lia. }
  pose proof elem_size_ok as Hes. unfold SIZEOF_PTR in Hes.
  assert (forall x, x <> a -> cells (Heap (<[a := v]> (cells (hp s))) (blocks (hp s))) !! x = cells (hp s) !! x) as Hother.
  { intros x Hx. apply (proj2 D x). lia. }
  split; [split; [by split|split; simpl; try done]|].
  - unfold bounce_ok. simpl. rewrite Hfl. split; [done|]. exists fr, lv, bs. split; [|split; [|done]].
    + destruct Hi as [I1 I2 I3 I4 I5 I6 I7 I8]. split; try done.
      * eapply chain_frame; [|exact I3]. intros x Hx. apply Hother. rewrite <- (Z.add_0_r x). apply Hitem; [apply elem_of_app; by left|lia].
      * eapply chain_frame; [|exact I4]. intros x Hx. by apply Hother, Hblock.
    + intros x Hx. rewrite Hother; [by apply Ht|]. apply Hitem; [done|]. pose proof mytype_offset. unfold SIZEOF_PTR in *. lia.
  - intros x Hx d Hd. apply Hother. apply Hitem; [|unfold SIZEOF_BOUNCE_BUFFER in Hd; lia].
    apply elem_of_app. right. rewrite Hlv. apply elem_of_app. by right.
Qed.

(** The bytes of a copied request that is pending do not depend on the program's memory. *)
Lemma copied_frozen ws s e : tr_inv s -> Forall (fun w => in_user w.1) ws -> e ∈ ents s -> e_done e = false -> copied (e_req e) ->
  sends 1 (program_writes ws s) (e_req e) = sends 1 s (e_req e).
Proof.
  intros Hm Hws He Hd Hc. revert s Hm He. induction Hws as [|[a v] ws Ha Hws IH]; intros s Hm He; [done|].
  destruct (program_write_step _ _ _ _ _ a v s Ha Hm) as [Hm1 Hsame]. simpl. rewrite (IH _ Hm1 He).
  unfold copied, sends in *. destruct (rq_data (e_req e)) as [|b]; [done|]. destruct Hc as (c & Hrq & -> & Hlen).
  assert (c ∈ outstanding (ents s)) as Hout.
  { eapply outstanding_put; [exact He|]. unfold event_of. destruct (e_seen e) eqn:Es; [|done].
    by rewrite (cr_seen _ _ _ _ (md_core _ _ _ _ _ _ Hm) e He Es) in Hd. }
  unfold bytes_at. apply map_ext_in. intros k Hk%list_elem_of_In%elem_of_upto. unfold value_at. f_equal.
  rewrite <- Z.add_assoc. apply Hsame; [done|]. unfold elem_size, SIZEOF_BOUNCE_BUFFER in *. lia.
Qed.

(** ** A new context *)

(** The blocks of the program are those that existed when the context was made. *)
Lemma ctx_init_data_inv ctx_options h f : heap_wf h -> ub = blocks h -> entries f = [] ->
  exists c h', ctx_init_data ctx_options h = Some (c, h') /\ tr_inv (Tr c false false h' f).
Proof.
  intros Hwf Hub Hf. unfold ctx_init_data.
  destruct (negb (Z.land ctx_options SHMEMX_CTX_BOUNCE_BUFFER =? 0) && (bounce_buffer_size >? 0) && (max_bounce_buffers >? 0)) eqn:E.
  - apply andb_true_iff in E as [_ Emax]. rewrite Z.gtb_ltb, Z.ltb_lt in Emax.
    fold elem_size. pose proof elem_size_ok as Hes. cbv zeta.
    rewrite (wrap_u_id 32 elem_size) by (unfold SIZEOF_PTR in *; lia). rewrite more_size_eq by done.
    destruct (co_malloc _ _ Hcfg SIZEOF_FREE_LIST h) as (obj & -> & Hobj).
    destruct (co_malloc _ _ Hcfg (block_size elem_size) (heap_malloc obj SIZEOF_FREE_LIST h)) as (buf & -> & Hfresh).
    pose proof (fr_new _ _ _ Hobj) as Ho. pose proof (fr_new _ _ _ Hfresh) as Hb'. simpl in Hb'.
    rewrite lookup_insert_None in Hb'. destruct Hb' as [Hb' Hbo].
    destruct (init_tagged init_bounce_buffer elem_size elem_size_ok init_within _ SHMEM_TRANSPORT_OFI_TYPE_BOUNCE mytype_offset init_tags
      h obj buf Hwf Hobj Hfresh) as (fl & h' & -> & Hi & Ht & Eb).
    eexists _, _. split; [done|]. split; [by split|]. split; simpl; rewrite ?Hf; try done.
    + apply (fi_wf _ _ _ _ _ _ Hi).
    + intros b sz. rewrite Hub, Eb. intros Hb.
      rewrite !lookup_insert_ne; [done|intros <-; by rewrite Ho in Hb|intros <-; by rewrite Hb' in Hb].
    + split; [done|]. exists (items_of elem_size buf), [], [buf]. split; [done|]. rewrite app_nil_r. split; [done|]. simpl. rewrite Hf.
      split; [done|]. split; [simpl; lia|]. intros b ->%list_elem_of_singleton. by rewrite Hub.
    + by intros e ?%elem_of_nil.
    + by intros e ?%elem_of_nil.
  - eexists _, _. split; [done|]. split; [by split|]. split; simpl; rewrite ?Hf, ?Hub; try done.
    + unfold bounce_ok. simpl. by rewrite Hf.
    + by intros e ?%elem_of_nil.
    + by intros e ?%elem_of_nil.
Qed.
End proof.
