(* ===== verification/OfiCalls.v ===== *)
(** * Programs over the OFI transport

    A program that uses one context: its calls of the transport and its own writes to its
    memory.  Any program runs to its end and keeps the invariant of the transport; and the
    properties of single calls, with an endpoint (the queue of [Fabric]) that shows they
    apply. *)

From stdpp Require Import gmap.
From S2P Require Import Prelude ReduceOp ErrState Stx FreeList Fabric OfiTransport OfiProof.
Local Open Scope Z_scope.
Local Open Scope st_scope.

Inductive ofi_call :=
| PutCall (target source len pe : Z)
| PutNbiCall (target source len pe : Z)
| PutSignalCall (target source len sig_addr signal sig_op pe : Z)
| GetCall (target source len pe : Z)
| GetWaitCall
| AtomicCall (c : atomic_call) (target source pe : Z) (d : shm_internal_datatype_t)
| AtomicvCall (target source n pe : Z) (o : fi_op) (d : shm_internal_datatype_t)
| QuietCall
| FenceCall
| WriteCall (a v : Z).

Definition dtype_size (d : shm_internal_datatype_t) : Z := SHMEM_Dtsize (shmem_transport_dtype_table d).

Section calls.
Context {F : Type} {fabric : Fabric F} {cfg : ofi_config}.

(** A blocking put is [put_nb] followed by [put_wait]. *)
Definition call_code (c : ofi_call) : ST (tr (F := F)) unit :=
  match c with
  | PutCall target source len pe =>
      completion <- shmem_transport_put_nb target source len pe 0 ; shmem_transport_put_wait completion ;; ret tt
  | PutNbiCall target source len pe => shmem_transport_put_nbi target source len pe
  | PutSignalCall target source len sig_addr signal sig_op pe =>
      shmem_transport_put_signal_nbi target source len sig_addr signal sig_op pe
  | GetCall target source len pe => shmem_transport_get target source len pe
  | GetWaitCall => shmem_transport_get_wait
  | AtomicCall c target source pe d => atomic_code c target source (dtype_size d) pe d
  | AtomicvCall target source n pe o d => shmem_transport_atomicv target source (n * dtype_size d) pe o d
  | QuietCall => shmem_transport_quiet ;; ret tt
  | FenceCall => shmem_transport_fence ;; ret tt
  | WriteCall a v => modify (program_write (a, v))
  end.

Fixpoint run_calls (cs : list ofi_call) : ST (tr (F := F)) unit :=
  match cs with [] => ret tt | c :: cs => call_code c ;; run_calls cs end.
End calls.

Section proof.
Context {F : Type} {fabric : Fabric F} {refusals delay : nat} {laws : FabricLaws F refusals delay} {cfg : ofi_config}.
Context (Hcfg : config_ok refusals delay) (ub : gmap Z Z).
#[local] Abbreviation runs := (runs_or endpoint_fault).
Abbreviation state := (tr (F := F)).
Implicit Types (s : state).

(** The arguments are valid: arrays of the program, symmetric addresses, reductions the
    provider supports within its message size. *)
Definition call_ok (c : ofi_call) : Prop :=
  match c with
  | PutCall target source len pe | PutNbiCall target source len pe =>
      user_range ub source len /\ 0 <= len /\ is_Some (get_mr target pe)
  | PutSignalCall target source len sig_addr signal sig_op pe =>
      user_range ub source len /\ 0 <= len /\ is_Some (get_mr target pe) /\ is_Some (get_mr sig_addr pe)
  | GetCall target source len pe => 0 <= len /\ is_Some (get_mr source pe)
  | GetWaitCall | QuietCall | FenceCall => True
  | AtomicCall c target source pe d => is_Some (get_mr target pe) /\ atomic_reads ub c source (dtype_size d)
  | AtomicvCall target source n pe o d => user_range ub source (n * dtype_size d) /\ 0 <= n /\ is_Some (get_mr target pe) /\
      exists max, fi_atomicvalid (shmem_transport_dtype_table d) o = (0, max) /\ 0 < max /\ max * dtype_size d <= max_msg_size < 2 ^ 64
  | WriteCall a v => in_user ub a
  end.

(** A bound on the number of requests of a call. *)
Definition call_cost (c : ofi_call) : nat :=
  match c with
  | PutCall _ _ len _ | PutNbiCall _ _ len _ | GetCall _ _ len _ => S (frags len)
  | PutSignalCall _ _ len _ _ _ _ => S (S (frags len))
  | GetWaitCall | QuietCall | FenceCall | WriteCall _ _ => 0
  | AtomicCall _ _ _ _ _ => 1
  | AtomicvCall _ _ n _ _ _ => S (Z.to_nat n)
  end.

(** What the endpoint was given. *)
Definition requests s : list fi_request := map e_req (entries (fab s)).

Lemma evolves_requests out rqs s s' : evolves ub out rqs s s' -> requests s' = requests s ++ rqs.
Proof.
  intros [_ _ (l & new & Hm & E & <-) _ _ _]. unfold requests. by rewrite E, map_app, (moved_reqs _ _ Hm).
Qed.

Lemma call_spec c s : tr_inv ub s -> call_ok c -> Z.of_nat (length (requests s) + call_cost c) < 2 ^ 64 ->
  runs (call_code c) s (fun _ s' => tr_inv ub s' /\ exists rqs, requests s' = requests s ++ rqs /\ (length rqs <= call_cost c)%nat).
Proof.
  intros Hm Hok Hroom. unfold requests in Hroom. rewrite length_map in Hroom.
  destruct c as [target source len pe|target source len pe|target source len sa sg so pe|target source len pe| |c target source pe d|
    target source n pe o d| | |a v]; simpl in *.
  - destruct Hok as (Hu & Hl & [[addr key] Hmr]). apply runs_assoc.
    eapply runs_then; [by eapply (blocking_put_spec Hcfg ub)|]. intros _ s1 (_ & Hm1 & rqs & He1 & _ & Hn & _). apply runs_ret.
    split; [done|]. exists rqs. by rewrite (evolves_requests _ _ _ _ He1).
  - destruct Hok as (Hu & Hl & [[addr key] Hmr]). eapply runs_mono; [by eapply (put_nbi_spec Hcfg ub)|].
    intros _ s1 (rqs & Hm1 & He1 & _ & Hn). split; [done|]. exists rqs. by rewrite (evolves_requests _ _ _ _ He1).
  - destruct Hok as (Hu & Hl & [[addr key] Hmr] & [[saddr skey] Hsig]).
    eapply runs_mono; [eapply (put_signal_spec Hcfg ub); [done|done|done|exact Hmr|exact Hsig|lia]|].
    intros _ s3 (Hm3 & rqs & s1 & s2 & He1 & _ & Hn & He2 & He3 & _). split; [done|]. exists (rqs ++ [signal_request sg so pe saddr skey]).
    rewrite (evolves_requests _ _ _ _ He3), (evolves_requests _ _ _ _ He2), (evolves_requests _ _ _ _ He1), app_nil_r, app_assoc.
    split; [done|]. rewrite length_app. simpl. lia.
  - destruct Hok as (Hl & [[addr key] Hmr]). eapply runs_mono; [by eapply (get_spec Hcfg ub)|].
    intros _ s1 (rqs & Hm1 & He1 & _ & Hn). split; [done|]. exists rqs. by rewrite (evolves_requests _ _ _ _ He1).
  - eapply runs_mono; [apply (get_wait_spec Hcfg ub); [done|unfold countable; lia]|]. intros _ s1 (Hm1 & (He1 & _) & _). split; [done|].
    exists []. by rewrite (evolves_requests _ _ _ _ He1).
  - destruct Hok as ([[addr key] Hmr] & Hr). eapply runs_mono; [by eapply (atomic_code_spec Hcfg ub)|]. intros _ s1 [Hm1 He1].
    split; [done|]. eexists. split; [by rewrite (evolves_requests _ _ _ _ He1)|done].
  - destruct Hok as (Hu & Hn & [[addr key] Hmr] & max & Hv & Hmax & Hfit).
    eapply runs_mono; [by eapply (atomicv_spec Hcfg ub)|]. intros _ s1 (rqs & Hm1 & He1 & _ & _ & Hlen).
    split; [done|]. exists rqs. by rewrite (evolves_requests _ _ _ _ He1).
  - eapply runs_then; [apply (quiet_spec Hcfg ub); [done|unfold countable; lia]|]. intros _ s1 (_ & Hm1 & He1 & _). apply runs_ret.
    split; [done|]. exists []. by rewrite (evolves_requests _ _ _ _ He1).
  - eapply runs_then; [apply (fence_spec Hcfg ub); [done|unfold countable; lia]|]. intros _ s1 (_ & Hm1 & He1 & _). apply runs_ret.
    split; [done|]. exists []. by rewrite (evolves_requests _ _ _ _ He1).
  - apply runs_modify. split; [by apply program_write_step|]. exists []. by rewrite app_nil_r.
Qed.

(** ** Programs *)

(** The requests a program may issue. *)
Definition total_cost (cs : list ofi_call) : nat := sum_list_with call_cost cs.

Lemma run_calls_spec cs s : tr_inv ub s -> Forall call_ok cs -> Z.of_nat (length (requests s) + total_cost cs) < 2 ^ 64 ->
  runs (run_calls cs) s (fun _ s' => tr_inv ub s' /\ exists rqs, requests s' = requests s ++ rqs /\ (length rqs <= total_cost cs)%nat).
Proof.
  intros Hm Hok. revert s Hm. unfold total_cost. induction Hok as [|c cs Hc _ IH]; intros s Hm Hroom; simpl in *.
  - apply runs_ret. split; [done|]. exists []. by rewrite app_nil_r.
  - eapply runs_then; [apply (call_spec c); [done|done|lia]|]. intros _ s1 (Hm1 & rqs & Er & Hl).
    eapply runs_mono; [apply IH; [done|rewrite Er, length_app; lia]|]. intros _ s2 (Hm2 & rqs2 & Er2 & Hl2). split; [done|].
    exists (rqs ++ rqs2). rewrite Er2, Er, app_assoc. split; [done|]. rewrite length_app. lia.
Qed.

(** Between two calls with nothing outstanding: no lock is held, no bounce buffer is in use. *)
Lemma idle_state s : tr_inv ub s -> outstanding (entries (fab s)) = [] ->
  lock_held s = false /\ bb_lock_held s = false /\
  match bounce_buffers (ctx s) with Some fl => nalloc fl = 0 | None => True end.
Proof.
  intros [[L1 L2] Hc] Ho. split; [by rewrite L1|]. split; [by rewrite L2|].
  pose proof (cr_bounce _ _ _ _ _ Hc) as C5. unfold bounce_ok in C5. destruct (bounce_buffers (ctx s)); [|done].
  destruct C5 as (_ & fr & lv & bs & Hi & _ & Hlv & _). rewrite Ho in Hlv. apply Permutation_nil_r in Hlv as ->.
  by rewrite (fi_count _ _ _ _ _ _ Hi).
Qed.

Lemma countb_reqs (f : fi_request -> bool) (l : list entry) : countb f (map e_req l) = countb (fun e => f (e_req e)) l.
Proof. induction l as [|e l IH]; [done|]. simpl. by rewrite IH. Qed.

(** The pending counters count the requests. *)
Lemma counters_exact s : tr_inv ub s -> Z.of_nat (length (requests s)) < 2 ^ 64 ->
  pending_put_cntr (ctx s) = Z.of_nat (countb is_put (requests s)) /\
  pending_get_cntr (ctx s) = Z.of_nat (countb (fun rq => negb (is_put rq)) (requests s)).
Proof.
  intros [_ [C1 C2 _ _ _ _ _]] Hl. unfold requests in *. rewrite length_map in Hl. rewrite C1, C2, !Nat.add_0_r.
  rewrite !Z.mod_small by (pose proof (submitted_length true (entries (fab s))); pose proof (submitted_length false (entries (fab s))); lia).
  unfold submitted. rewrite !countb_reqs. split; f_equal; apply countb_ext; intros e _; by destruct (is_put (e_req e)).
Qed.
End proof.

(** ** The properties *)


(** C11: a blocking put sends the array as it was when it was called, and the program may
    then overwrite it.  The requests issued write exactly the remote range, consecutive and
    each within it, with the bytes of the array; and after the call, whatever the program
    writes into its memory, a request that is not complete still sends the same bytes,
    because they were injected or copied into a bounce buffer.  (Over an endpoint that
    answers no error and is retried often enough.) *)
Theorem blocking_put_reusable {F : Type} {fabric : Fabric F} {refusals delay : nat} {laws : FabricLaws F refusals delay} {cfg : ofi_config}
    (ub : gmap Z Z) (target source len pe addr key : Z) (s : tr) :
  config_ok refusals delay -> ~ endpoint_fault -> tr_inv ub s -> user_range ub source len -> 0 <= len -> get_mr target pe = Some (addr, key) ->
  Z.of_nat (length (entries (fab s)) + S (frags len)) < 2 ^ 64 ->
  runs (completion <- shmem_transport_put_nb target source len pe 0 ; shmem_transport_put_wait completion) s (fun r s' =>
    r = 0 /\ tr_inv ub s' /\ exists rqs, requests s' = requests s ++ rqs /\ covers (fun _ => FiWrite) 1 pe addr key rqs 0 len /\
      (exists s1, evolves ub [] rqs s s1 /\ evolves ub [] [] s1 s' /\ flat_map (sends 1 s1) rqs = bytes_at s source len) /\
      forall ws e, Forall (fun w => in_user ub w.1) ws -> e ∈ entries (fab s') -> e_req e ∈ rqs ->
        e_done e = true \/ sends 1 (program_writes ws s') (e_req e) = sends 1 s' (e_req e)).
Proof.
  intros Hcfg Hgood Hm Hu Hl Hmr Hroom. apply (runs_excuse _ _ _ _ _ Hgood). eapply runs_mono; [by apply (blocking_put_spec Hcfg ub target source len pe addr key s)|].
  intros r s' (-> & Hm' & rqs & He & Hc & _ & Hs & Hsafe). split; [done|]. split; [done|]. exists rqs.
  split; [by eapply evolves_requests|]. split; [done|]. split; [done|]. intros ws e Hws Hin Hrq.
  destruct (e_done e) eqn:Ed; [by left|right]. destruct (Hsafe e Hin Hrq) as [|Hcp]; [congruence|].
  by apply (copied_frozen Hcfg ub).
Qed.

(** C12: a put with signal delivers its data before its signal.  The data requests cover the
    remote range with the bytes of the array; the signal is one atomic on the signal word
    (add or set, as asked), issued after them; and unless the fabric itself orders the data
    (it fences the signal, or total ordering is assumed), all requests issued before the
    signal had completed when it was issued.  (Over an endpoint that answers no error and
    is retried often enough.) *)
Theorem put_signal_ordered {F : Type} {fabric : Fabric F} {refusals delay : nat} {laws : FabricLaws F refusals delay} {cfg : ofi_config}
    (ub : gmap Z Z) (target source len sig_addr signal sig_op pe addr key saddr skey : Z) (s : tr) :
  config_ok refusals delay -> ~ endpoint_fault -> tr_inv ub s -> user_range ub source len -> 0 <= len ->
  get_mr target pe = Some (addr, key) -> get_mr sig_addr pe = Some (saddr, skey) ->
  Z.of_nat (length (entries (fab s)) + S (frags len)) < 2 ^ 64 ->
  runs (shmem_transport_put_signal_nbi target source len sig_addr signal sig_op pe) s (fun _ s' => tr_inv ub s' /\
    exists rqs s1 s2,
      evolves ub [] rqs s s1 /\ covers (fun _ => FiWrite) 1 pe addr key rqs 0 len /\ flat_map (sends 1 s1) rqs = bytes_at s source len /\
      evolves ub [] [] s1 s2 /\ evolves ub [] [signal_request signal sig_op pe saddr skey] s2 s' /\
      requests s' = requests s ++ rqs ++ [signal_request signal sig_op pe saddr skey] /\
      (rq_fence (signal_request signal sig_op pe saddr skey) = true \/ WANT_TOTAL_DATA_ORDERING <> 0 \/ all_done (entries (fab s2)))).
Proof.
  intros Hcfg Hgood Hm Hu Hl Hmr Hsig Hroom.
  apply (runs_excuse _ _ _ _ _ Hgood). eapply runs_mono; [by apply (put_signal_spec Hcfg ub target source len sig_addr signal sig_op pe addr key saddr skey s)|].
  intros _ s' (Hm' & rqs & s1 & s2 & He1 & [Hc Hs] & _ & He2 & He3 & Hd). split; [done|]. exists rqs, s1, s2.
  split; [done|]. split; [done|]. split; [done|]. split; [done|]. split; [done|]. split.
  - by rewrite (evolves_requests _ _ _ _ _ He3), (evolves_requests _ _ _ _ _ He2), (evolves_requests _ _ _ _ _ He1), app_nil_r, app_assoc.
  - simpl. destruct USE_FI_FENCE; [by left|right]. destruct (decide (WANT_TOTAL_DATA_ORDERING = 0)); [right; by apply Hd|by left].
Qed.

(** C13: an atomic over an array sends every element exactly once, in requests the provider
    accepts.  Whichever of its three ways it takes (injected, from a bounce buffer, in
    chunks), the requests are of the operation and datatype asked for, cover the elements
    consecutively, together send the bytes of the array, and none has more elements than
    the provider's limit.  (Over an endpoint that answers no error and is retried often
    enough.) *)
Theorem atomicv_correct {F : Type} {fabric : Fabric F} {refusals delay : nat} {laws : FabricLaws F refusals delay} {cfg : ofi_config}
    (ub : gmap Z Z) (target source n pe : Z) (o : fi_op) (d : shm_internal_datatype_t) (max addr key : Z) (s : tr) :
  config_ok refusals delay -> ~ endpoint_fault -> tr_inv ub s -> user_range ub source (n * dtype_size d) -> 0 <= n -> get_mr target pe = Some (addr, key) ->
  fi_atomicvalid (shmem_transport_dtype_table d) o = (0, max) -> 0 < max -> max * dtype_size d <= max_msg_size < 2 ^ 64 ->
  runs (shmem_transport_atomicv target source (n * dtype_size d) pe o d) s (fun _ s' => tr_inv ub s' /\
    exists rqs, requests s' = requests s ++ rqs /\
      covers (fun _ => FiAtomic (shmem_transport_dtype_table d) o) (dtype_size d) pe addr key rqs 0 n /\
      flat_map (sends (dtype_size d) s') rqs = bytes_at s source (n * dtype_size d) /\ Forall (fun rq => rq_count rq <= max) rqs).
Proof.
  intros Hcfg Hgood Hm Hu Hn Hmr Hv Hmax Hfit. apply (runs_excuse _ _ _ _ _ Hgood). eapply runs_mono; [by apply (atomicv_spec Hcfg ub target source n pe o d max addr key s)|].
  intros _ s' (rqs & Hm' & He & [Hc Hs] & Hall & _). split; [done|]. exists rqs. split; [by eapply evolves_requests|done].
Qed.

(** ** An example: a queue of depth 1, so that every second request is refused at first *)
Section example.

(** [malloc] takes memory above everything allocated before. *)
Definition top_of (h : heap) : Z := foldr (fun b acc => Z.max acc (Z.max b.1 (b.1 + b.2))) 0 (map_to_list (blocks h)).
Definition bump_malloc (n : Z) (h : heap) : option Z := Some (top_of h + 1).

Lemma top_above h b sz : blocks h !! b = Some sz -> 0 <= top_of h /\ b <= top_of h /\ b + sz <= top_of h.
Proof.
  intros Hb%elem_of_map_to_list. unfold top_of. induction (map_to_list (blocks h)) as [|x l IH]; [by apply elem_of_nil in Hb|].
  simpl. apply elem_of_cons in Hb as [<-|Hb]; [|destruct (IH Hb); simpl; lia]. simpl.
  assert (0 <= foldr (fun b acc => Z.max acc (Z.max b.1 (b.1 + b.2))) 0 l) by (clear; induction l; simpl; lia). lia.
Qed.

Lemma bump_fresh n h : fresh (top_of h + 1) n h.
Proof.
  split.
  - assert (0 <= top_of h); [|lia]. unfold top_of. induction (map_to_list (blocks h)); simpl; lia.
  - destruct (blocks h !! (top_of h + 1)) as [sz|] eqn:E; [|done]. destruct (top_above _ _ _ E). lia.
  - intros b sz Hb. destruct (top_above _ _ _ Hb). lia.
Qed.

#[local] Instance example_config : ofi_config := {
  USE_CTX_LOCK := true; WANT_TOTAL_DATA_ORDERING := 0; USE_FI_FENCE := false; ENABLE_MANUAL_PROGRESS := true;
  shmem_internal_thread_level := SHMEM_THREAD_MULTIPLE; max_poll := 4; put_poll_limit := 2; get_poll_limit := 2;
  max_buffered_send := 8; max_msg_size := 64; bounce_buffer_size := 32; max_bounce_buffers := 1;
  GET_DEST := fun pe => pe; malloc := bump_malloc;
  get_mr := fun a pe => if (4096 <=? a) && (a <? 4352) then Some (a - 4096, 7) else None; spins := 5 }.
#[local] Instance example_fabric : Fabric (list entry) := queue_fabric 1.
#[local] Instance example_laws : FabricLaws (list entry) 1 1 := queue_laws 1 Nat.lt_0_1.

Lemma example_ok : config_ok 1 1.
Proof.
  split; simpl; try (unfold SIZEOF_BOUNCE_BUFFER; lia). intros n h. exists (top_of h + 1). split; [done|]. apply bump_fresh.
Qed.

Lemma example_good : ~ endpoint_fault.
Proof. intros [H|H]; [by apply (queue_no_error 1 Nat.lt_0_1) in H|simpl in H; lia]. Qed.

(** The memory of the program: one block of 256 bytes. *)
Definition example_heap : heap := heap_malloc 4096 256 (Heap ∅ ∅).

Lemma example_wf : heap_wf example_heap.
Proof.
  apply malloc_wf; [split; [lia|done|]; intros b s; simpl; by rewrite lookup_empty|].
  split; simpl; intros *; rewrite !lookup_empty; done.
Qed.

Lemma example_blocks : blocks example_heap = {[4096 := 256]}.
Proof. done. Qed.

Lemma example_range a len : 4096 <= a -> a + len <= 4352 -> user_range (blocks example_heap) a len.
Proof. intros Ha Hl k Hk. exists 4096, 256. rewrite example_blocks, lookup_singleton_eq. split; [done|lia]. Qed.

(** Every kind of call; the third put needs two fragments. *)
Definition example_program : list ofi_call :=
  [WriteCall 4100 42; PutCall 4096 4100 4 1; PutCall 4096 4100 20 1; PutCall 4096 4100 100 1; PutNbiCall 4200 4100 100 1;
   PutSignalCall 4096 4100 40 4104 1 SHMEM_SIGNAL_ADD 1; GetCall 4200 4096 80 1; GetWaitCall;
   AtomicCall (CallFetch FI_SUM 4300) 4096 4104 1 SHM_INTERNAL_LONG; AtomicvCall 4096 4200 12 1 FI_SUM SHM_INTERNAL_INT; FenceCall].

Lemma example_calls : Forall (call_ok (blocks example_heap)) example_program.
Proof.
  assert (in_user (blocks example_heap) 4100) as Hw by (exists 4096, 256; rewrite example_blocks, lookup_singleton_eq; split; [done|lia]).
  repeat apply List.Forall_cons; try apply List.Forall_nil; simpl; repeat split; try exact Hw; try lia; try (by eexists);
    try (apply example_range; unfold dtype_size; simpl; lia).
Qed.

Definition example_ctx : option (shmem_transport_ctx_t * heap) := ctx_init_data SHMEMX_CTX_BOUNCE_BUFFER example_heap.


(** A new context of the example. *)
Lemma example_start : exists c h', example_ctx = Some (c, h') /\ tr_inv (blocks example_heap) (Tr c false false h' []).
Proof. exact (ctx_init_data_inv example_ok (blocks example_heap) SHMEMX_CTX_BOUNCE_BUFFER example_heap [] example_wf eq_refl eq_refl). Qed.

Lemma blocking_put_reusable_witness : exists c h', example_ctx = Some (c, h') /\
  runs (completion <- shmem_transport_put_nb 4096 4100 100 1 0 ; shmem_transport_put_wait completion) (Tr c false false h' []) (fun r s' =>
    r = 0 /\ tr_inv (blocks example_heap) s' /\ exists rqs, requests s' = rqs /\ covers (fun _ => FiWrite) 1 1 0 7 rqs 0 100).
Proof.
  destruct example_start as (c & h' & E & Hm). exists c, h'. split; [exact E|].
  eapply runs_mono; [apply (blocking_put_reusable (blocks example_heap) 4096 4100 100 1 0 7 _ example_ok example_good Hm)|].
  - apply example_range; lia.
  - lia.
  - reflexivity.
  - vm_compute. reflexivity.
  - intros r s' (-> & Hm' & rqs & Er & Hc & _). split; [reflexivity|]. split; [exact Hm'|]. exists rqs. split; [exact Er|exact Hc].
Defined.

Lemma put_signal_ordered_witness : exists c h', example_ctx = Some (c, h') /\
  runs (shmem_transport_put_signal_nbi 4096 4100 40 4104 1 SHMEM_SIGNAL_ADD 1) (Tr c false false h' []) (fun _ s' =>
    exists rqs, requests s' = rqs ++ [signal_request 1 SHMEM_SIGNAL_ADD 1 8 7] /\ covers (fun _ => FiWrite) 1 1 0 7 rqs 0 40).
Proof.
  destruct example_start as (c & h' & E & Hm). exists c, h'. split; [exact E|].
  eapply runs_mono; [apply (put_signal_ordered (blocks example_heap) 4096 4100 40 4104 1 SHMEM_SIGNAL_ADD 1 0 7 8 7 _ example_ok example_good Hm)|].
  - apply example_range; lia.
  - lia.
  - reflexivity.
  - reflexivity.
  - vm_compute. reflexivity.
  - intros _ s' (_ & rqs & s1 & s2 & _ & Hc & _ & _ & _ & Er & _). exists rqs. split; [exact Er|exact Hc].
Defined.

Lemma atomicv_correct_witness : exists c h', example_ctx = Some (c, h') /\
  runs (shmem_transport_atomicv 4096 4200 (12 * dtype_size SHM_INTERNAL_INT) 1 FI_SUM SHM_INTERNAL_INT) (Tr c false false h' []) (fun _ s' =>
    exists rqs, requests s' = rqs /\ covers (fun _ => FiAtomic FI_INT32 FI_SUM) 4 1 0 7 rqs 0 12 /\ Forall (fun rq => rq_count rq <= 4) rqs).
Proof.
  destruct example_start as (c & h' & E & Hm). exists c, h'. split; [exact E|].
  eapply runs_mono; [apply (atomicv_correct (blocks example_heap) 4096 4200 12 1 FI_SUM SHM_INTERNAL_INT 4 0 7 _ example_ok example_good Hm)|].
  - apply example_range; vm_compute; congruence.
  - lia.
  - reflexivity.
  - reflexivity.
  - lia.
  - vm_compute. split; congruence.
  - intros _ s' (_ & rqs & Er & Hc & _ & Hall). exists rqs. split; [exact Er|]. split; [exact Hc|exact Hall].
Defined.

(** Evaluated: the requests of the example, a fragment or chunk each, by length. *)
Definition run_example (cs : list ofi_call) : option (tr (F := list entry)) :=
  match example_ctx with
  | Some (c, h) => match run_calls cs (Tr c false false h []) with Some (_, s) => Some s | None => None end
  | None => None
  end.

Lemma example_requests :
  match run_example example_program with
  | Some s => map (fun rq => (is_put rq, rq_count rq)) (requests s)
  | None => []
  end = [(true, 4); (true, 20); (true, 64); (true, 36); (true, 64); (true, 36); (true, 40); (true, 1); (false, 64); (false, 16);
         (false, 1); (true, 4); (true, 4); (true, 4)].
Proof. vm_compute. reflexivity. Qed.

(** [put_wait] after an atomic over a long array does not wait for it: [completion] is not
    counted up, and the program's next write changes what is sent. *)
Lemma atomicv_not_waited :
  match run_example [AtomicvCall 4096 4200 12 1 FI_SUM SHM_INTERNAL_INT] with
  | Some s =>
      match shmem_transport_put_wait 0 s with
      | Some (0, s) => Some (flat_map (sends 4 s) (map e_req (filter (fun e => negb (e_done e)) (entries (fab s)))),
                             flat_map (sends 4 (program_write (4232, 5) s)) (map e_req (filter (fun e => negb (e_done e)) (entries (fab s)))))
      | _ => None
      end
  | None => None
  end = Some (replicate 16 0, 5 :: replicate 15 0).
Proof. vm_compute. reflexivity. Qed.

(** A put through a bounce buffer is one request, and the performance counter of the issued
    writes counts it twice. *)
Lemma bounced_put_counted_twice :
  match run_example [PutCall 4096 4100 20 1] with
  | Some s => match shmem_transport_pcntr_get_issued_write s with
              | Some (n, s) => Some (length (requests s), n)
              | None => None
              end
  | None => None
  end = Some (1%nat, 2).
Proof. vm_compute. reflexivity. Qed.
End example.
