(* ===== verification/SymHeap.v ===== *)
(** * The symmetric heap ([symmetric_heap_c.c], the checks of [shmem_internal.h])

    The break pointer the allocator grows the heap with, the mapping of the heap, the
    allocation calls of the API, and the argument checks on symmetric addresses.
    Addresses are integers.  The allocator itself ([dlmalloc] and friends, vendored in
    [malloc.c]) is a parameter: its metadata live in the memory of the PE. *)

From stdpp Require Import strings.
From S2P Require Import Prelude Machine Straight Internal ReduceOp Comm Tree CollSync.
Local Open Scope Z_scope.
Local Open Scope prog_scope.

(** ** The break pointer *)

Record symheap := SymHeap {
  shmem_internal_heap_base : Z;
  shmem_internal_heap_length : Z;
  shmem_internal_heap_curr : Z }.

Definition set_curr (h : symheap) (c : Z) : symheap :=
  SymHeap (shmem_internal_heap_base h) (shmem_internal_heap_length h) c.

(** The old break, or -1 when the heap is exhausted.  The pointer sum is modulo the
    address width, and the difference of two pointers is a signed 64-bit number. *)
Definition shmem_internal_get_next (incr : Z) (h : symheap) : Z * symheap :=
  let orig := shmem_internal_heap_curr h in
  let curr := wrap_u 64 (orig + incr) in
  if curr <? shmem_internal_heap_base h then (orig, set_curr h (shmem_internal_heap_base h))
  else if wrap_s 64 (curr - shmem_internal_heap_base h) >? shmem_internal_heap_length h then (-1, h)
  else (orig, set_curr h curr).

(** A sequence of requests, with their answers. *)
Fixpoint get_next_all (incrs : list Z) (h : symheap) : list Z * symheap :=
  match incrs with
  | [] => ([], h)
  | i :: incrs => let '(p, h) := shmem_internal_get_next i h in
                  let '(ps, h) := get_next_all incrs h in (p :: ps, h)
  end.

(** ** Mapping the heap *)

(** The [uint64_t] arithmetic of the rounding macros. *)
Definition FLOOR (a b : Z) : Z := wrap_u 64 (wrap_u 64 a - wrap_u 64 a mod wrap_u 64 b).
Definition CEILING (a b : Z) : Z :=
  if wrap_u 64 a <=? 0 then 0 else wrap_u 64 (FLOOR (a - 1) b + b).

Definition ONEGIG : Z := 1024 * 1024 * 1024.
Definition SHMEM_INTERNAL_HEAP_OVERHEAD : Z := 1024 * 1024.

(** An entry of the mount table: its type, its directory and the block size [statfs]
    answers ([None] when it fails). *)
Record mntent := Mntent { mnt_type : string; mnt_dir : string; f_bsize : option Z }.

Fixpoint scan_mounts (page_size : Z) (entries : list mntent) : option string :=
  match entries with
  | [] => None
  | m :: entries =>
      if negb (String.eqb (mnt_type m) "hugetlbfs") then scan_mounts page_size entries
      else match f_bsize m with
           | Some b => if b =? page_size then Some (mnt_dir m) else scan_mounts page_size entries
           | None => scan_mounts page_size entries
           end
  end.

(** [mounts] is [None] when the table cannot be opened; the answer is the directory. *)
Definition find_hugepage_dir (page_size : Z) (mounts : option (list mntent)) : option string :=
  if page_size =? 0 then None
  else match mounts with None => None | Some entries => scan_mounts page_size entries end.

(** What the system answers to the calls of [mmap_alloc]. *)
Record mmap_sys := MmapSys {
  sys_mounts : option (list mntent);
  sys_snprintf : Z;
  sys_malloc : bool;
  sys_open : Z;
  sys_mmap : Z -> Z -> Z -> option Z }.

(** What was released before the return. *)
Record mmap_cleanup := Cleanup { c_unlink : bool; c_close : bool; c_free_dir : bool; c_free_name : bool }.

(** The mapping ([None] is NULL), the length it was asked for, whether the file was
    created, and the clean-up. *)
Definition mmap_alloc (use_huge : bool) (page_size data_base data_length : Z) (sys : mmap_sys) (bytes : Z) :
    option Z * Z * bool * mmap_cleanup :=
  let requested_base := Z.land (data_base + data_length + 2 * ONEGIG) (Z.lnot (ONEGIG - 1)) in
  let directory := if use_huge then find_hugepage_dir page_size (sys_mounts sys) else None in
  let file_name := match directory with
                   | Some _ => negb (sys_snprintf sys <? 0) && sys_malloc sys
                   | None => false
                   end in
  let fd := if file_name then (if sys_open sys <? 0 then 0 else sys_open sys) else 0 in
  let opened := file_name && negb (sys_open sys <? 0) in
  let bytes := if opened then CEILING bytes page_size else bytes in
  (sys_mmap sys requested_base bytes fd, bytes, opened,
   Cleanup (negb (fd =? 0) && file_name) (negb (fd =? 0))
           (match directory with Some _ => true | None => false end) file_name).

(** The heap, or [None] for the -1 return; [alloc] is [mmap_alloc] or the C [malloc]. *)
Definition shmem_internal_symmetric_init (SYMMETRIC_SIZE : Z) (alloc : Z -> option Z) : option symheap :=
  let length := SYMMETRIC_SIZE + SHMEM_INTERNAL_HEAP_OVERHEAD in
  match alloc length with
  | None => None
  | Some base => Some (SymHeap base length base)
  end.

(** [fini]: the region released, if any, and the heap after it. *)
Definition shmem_internal_symmetric_fini (h : symheap) : option (Z * Z) * symheap :=
  if negb (shmem_internal_heap_base h =? 0)
  then (Some (shmem_internal_heap_base h, shmem_internal_heap_length h), SymHeap 0 0 0)
  else (None, h).

(** ** Argument checks: true when the argument is accepted *)

(** The data segment and the heap of the process. *)
Record regions := Regions { data_base : Z; data_length : Z; heap_base : Z; heap_length : Z }.

(** Address arithmetic is 64-bit. *)
Definition ptr_add (p n : Z) : Z := wrap_u 64 (p + n).

Definition SHMEM_ERR_CHECK_SYMMETRIC (r : regions) (ptr len : Z) : bool :=
  let ptr_ext := ptr_add ptr len in
  let data_ext := ptr_add (data_base r) (data_length r) in
  let heap_ext := ptr_add (heap_base r) (heap_length r) in
  if len =? 0 then true
  else if (ptr >=? data_base r) && (ptr <? data_ext) then negb (ptr_ext >? data_ext)
  else if (ptr >=? heap_base r) && (ptr <? heap_ext) then negb (ptr_ext >? heap_ext)
  else false.

Definition SHMEM_ERR_CHECK_SYMMETRIC_HEAP (r : regions) (ptr : Z) : bool :=
  (ptr >=? heap_base r) && (ptr <? ptr_add (heap_base r) (heap_length r)).

(** ** The allocation calls *)

Section api.
(** The allocator: results and memory after each call. *)
Context (dlmalloc : Z -> lmem -> Z * lmem) (dlcalloc : Z -> Z -> lmem -> Z * lmem).
Context (dlrealloc dlmemalign : Z -> Z -> lmem -> Z * lmem) (dlfree : Z -> lmem -> lmem).
(** The globals: whether the library is initialized, the regions, the barrier pSync. *)
Context (e : env) (shmem_internal_initialized : bool) (r : regions) (barrier_all_psync : Z).

Definition NULL : Z := 0.
Definition call (f : lmem -> Z * lmem) : prog Z := Do (OCall f) Ret.
Definition SHMEM_ERR_CHECK_INITIALIZED : prog unit := if shmem_internal_initialized then skip else Raise.
Definition barrier_all : prog unit := shmem_internal_barrier_all e barrier_all_psync.

Definition shmem_internal_shmalloc (size : Z) : prog Z := call (dlmalloc size).

Definition shmem_internal_free (ptr : Z) : prog unit :=
  when (negb (ptr =? NULL)) (do_ (OLocal (dlfree ptr))).

Definition shmem_malloc (size : Z) : prog Z :=
  SHMEM_ERR_CHECK_INITIALIZED ;;
  if size =? 0 then Ret NULL
  else (ret <- call (dlmalloc size) ; barrier_all ;; Ret ret).

Definition shmem_calloc (count size : Z) : prog Z :=
  SHMEM_ERR_CHECK_INITIALIZED ;;
  if (size =? 0) || (count =? 0) then Ret NULL
  else (ret <- call (dlcalloc count size) ; barrier_all ;; Ret ret).

Definition shmem_free (ptr : Z) : prog unit :=
  SHMEM_ERR_CHECK_INITIALIZED ;;
  (if negb (ptr =? NULL) && negb (SHMEM_ERR_CHECK_SYMMETRIC_HEAP r ptr) then Raise else skip) ;;
  barrier_all ;;
  shmem_internal_free ptr.

Definition shmem_realloc (ptr size : Z) : prog Z :=
  SHMEM_ERR_CHECK_INITIALIZED ;;
  if (size =? 0) && (ptr =? NULL) then Ret ptr
  else
    ((if negb (ptr =? NULL) && negb (SHMEM_ERR_CHECK_SYMMETRIC_HEAP r ptr) then Raise else skip) ;;
     barrier_all ;;
     ret <- (if (size =? 0) && negb (ptr =? NULL)
             then (do_ (OLocal (dlfree ptr)) ;; Ret NULL)
             else call (dlrealloc ptr size)) ;
     barrier_all ;;
     Ret ret).

Definition shmem_align (alignment size : Z) : prog Z :=
  SHMEM_ERR_CHECK_INITIALIZED ;;
  if size =? 0 then Ret NULL
  else if alignment =? 0 then Ret NULL
  else (ret <- call (dlmemalign alignment size) ; barrier_all ;; Ret ret).

(** An invalid hint only raises a warning. *)
Definition shmem_malloc_with_hints (size hints : Z) : prog Z :=
  SHMEM_ERR_CHECK_INITIALIZED ;;
  if size =? 0 then Ret NULL
  else (ret <- call (dlmalloc size) ; barrier_all ;; Ret ret).

(** The deprecated names. *)
Definition shmalloc (size : Z) : prog Z := shmem_malloc size.
Definition shfree (ptr : Z) : prog unit := shmem_free ptr.
Definition shrealloc (ptr size : Z) : prog Z := shmem_realloc ptr size.
Definition shmemalign (alignment size : Z) : prog Z := shmem_align alignment size.
End api.

(** ** The break stays in the heap *)

(** The heap lies in the lower half of the address space and the break within it. *)
Definition heap_ok (h : symheap) : Prop :=
  0 <= shmem_internal_heap_base h <= shmem_internal_heap_curr h /\
  shmem_internal_heap_curr h <= shmem_internal_heap_base h + shmem_internal_heap_length h /\
  shmem_internal_heap_base h + shmem_internal_heap_length h < 2 ^ 63.

(** The increments for which neither the sum nor the difference wraps. *)
Definition incr_ok (length i : Z) : Prop := 0 <= i <= 2 ^ 63 - 1 - length.

Lemma get_next_cases incr h : heap_ok h -> incr_ok (shmem_internal_heap_length h) incr ->
  let '(p, h') := shmem_internal_get_next incr h in
  heap_ok h' /\ shmem_internal_heap_base h' = shmem_internal_heap_base h /\
  shmem_internal_heap_length h' = shmem_internal_heap_length h /\
  ((p = -1 /\ h' = h /\ shmem_internal_heap_base h + shmem_internal_heap_length h < shmem_internal_heap_curr h + incr) \/
   (p = shmem_internal_heap_curr h /\ shmem_internal_heap_curr h' = p + incr)).
Proof.
  intros (Hb & Hc & Hl) Hi. unfold shmem_internal_get_next, heap_ok, incr_ok, set_curr in *.
  rewrite (wrap_u_id 64), (wrap_s_id 64) by (change (2 ^ (64 - 1)) with (2 ^ 63); lia).
  destruct (Z.ltb_spec (shmem_internal_heap_curr h + incr) (shmem_internal_heap_base h)); simpl.
  - split; [lia|]. split; [done|]. split; [done|]. right. lia.
  - rewrite Z.gtb_ltb. destruct (Z.ltb_spec (shmem_internal_heap_length h) (shmem_internal_heap_curr h + incr - shmem_internal_heap_base h)); simpl.
    + split; [lia|]. split; [done|]. split; [done|]. left. split; [done|]. split; [done|]. lia.
    + split; [lia|]. split; [done|]. split; [done|]. right. lia.
Qed.

Lemma get_next_all_cons i incrs h :
  get_next_all (i :: incrs) h =
  ((shmem_internal_get_next i h).1 :: (get_next_all incrs (shmem_internal_get_next i h).2).1,
   (get_next_all incrs (shmem_internal_get_next i h).2).2).
Proof. simpl. destruct (shmem_internal_get_next i h) as [p h1]. simpl. by destruct (get_next_all incrs h1). Qed.

(** The heap before request number [k]. *)
Definition before (incrs : list Z) (h : symheap) (k : nat) : symheap := (get_next_all (take k incrs) h).2.

Lemma before_S i incrs h k : before (i :: incrs) h (S k) = before incrs (shmem_internal_get_next i h).2 k.
Proof. unfold before. cbn [take]. by rewrite get_next_all_cons. Qed.

(** C32: the regions the allocator is given by a sequence of requests between 0 and [2 ^ 63 -
    1] less the length of the heap (beyond, the signed difference the code compares may
    wrap) lie in the heap, above the break, in increasing order and without overlap; a
    request is refused (-1) exactly when it does not fit, and then leaves the break
    where it was. *)
Theorem get_next_regions (incrs : list Z) (h : symheap) :
  heap_ok h -> Forall (incr_ok (shmem_internal_heap_length h)) incrs ->
  let '(ps, h') := get_next_all incrs h in
  heap_ok h' /\ shmem_internal_heap_curr h <= shmem_internal_heap_curr h' /\ length ps = length incrs /\
  (forall k p i, ps !! k = Some p -> incrs !! k = Some i -> p <> -1 ->
     shmem_internal_heap_curr h <= p /\ p + i <= shmem_internal_heap_curr h') /\
  (forall j k p q i, (j < k)%nat -> ps !! j = Some p -> ps !! k = Some q -> incrs !! j = Some i ->
     p <> -1 -> q <> -1 -> p + i <= q) /\
  (forall k i, incrs !! k = Some i ->
     (ps !! k = Some (-1) <->
      shmem_internal_heap_base h + shmem_internal_heap_length h < shmem_internal_heap_curr (before incrs h k) + i) /\
     (ps !! k = Some (-1) -> before incrs h (S k) = before incrs h k)).
Proof.
  intros Hok Hpos. remember (shmem_internal_heap_length h) as L eqn:HL. revert h Hok HL.
  induction Hpos as [|i incrs Hi _ IH]; intros h Hok HL; simpl.
  - split; [done|]. split; [lia|]. split; [done|]. split; [|split]; intros *; rewrite lookup_nil; done.
  - subst L. pose proof (get_next_cases i h Hok Hi) as Hn.
    pose proof (fun k => before_S i incrs h k) as HbS. destruct (shmem_internal_get_next i h) as [p h1].
    destruct Hn as (Hok1 & Hb1 & Hl1 & Hp). specialize (IH h1 Hok1 (eq_sym Hl1)).
    destruct (get_next_all incrs h1) as [ps h2]. destruct IH as (Hok2 & Hmono & Hlen & Hin & Hord & Href). cbn [snd] in HbS.
    assert (p <> -1 -> p = shmem_internal_heap_curr h /\ p + i = shmem_internal_heap_curr h1) as Hp'.
    { destruct Hok as [[] _]. unfold incr_ok in Hi. destruct Hp as [(-> & _)|[-> ->]]; [done|]. lia. }
    assert (shmem_internal_heap_curr h <= shmem_internal_heap_curr h1) as Hm1.
    { unfold incr_ok in Hi. destruct Hp as [(_ & -> & _)|[-> ->]]; lia. }
    split; [done|]. split; [lia|]. split; [simpl; lia|]. split; [|split].
    + intros [|k] q j; simpl; [intros [= ->] [= ->] Hq|].
      * apply Hp' in Hq. lia.
      * intros Hk Hj Hq. specialize (Hin k q j Hk Hj Hq). lia.
    + intros [|j] [|k] q q' j' Hjk; simpl; try lia.
      * intros [= ->] Hk [= ->] Hq Hq'. apply Hp' in Hq. destruct (lookup_lt_is_Some_2 incrs k) as [i' Hi'].
        { apply lookup_lt_Some in Hk. lia. }
        specialize (Hin k q' i' Hk Hi' Hq'). lia.
      * intros. eapply Hord; [|done..]. lia.
    + intros [|k] j; simpl; [intros [= <-]|]; rewrite !HbS.
      * change (before incrs h1 0) with h1. change (before (i :: incrs) h 0) with h. destruct Hok as [[] _]. unfold incr_ok in Hi. split.
        -- destruct Hok1 as (_ & ? & _).
           split; [intros [= Ep]|intros Ho; f_equal]; destruct Hp as [(? & _ & ?)|[? ?]]; lia.
        -- intros [= Ep]. destruct Hp as [(_ & -> & _)|[? _]]; [done|lia].
      * intros Hj. rewrite <- Hb1. by apply Href.
Qed.

Lemma get_next_regions_witness :
  get_next_all [64; 4096; 32] (SymHeap 1000 4096 1000) = ([1000; -1; 1064], SymHeap 1000 4096 1096) /\
  let '(ps, h') := get_next_all [64; 4096; 32] (SymHeap 1000 4096 1000) in
  heap_ok h' /\ length ps = 3%nat.
Proof.
  split; [reflexivity|].
  pose proof (get_next_regions [64; 4096; 32] (SymHeap 1000 4096 1000)) as H. simpl in *.
  destruct H as (H & _); [unfold heap_ok; simpl; lia|repeat constructor; simpl; lia|]. split; [exact H|reflexivity].
Defined.

(** Beyond that bound the check is passed: with one byte of the heap in use, a request of
    [2 ^ 63 - 1] bytes is answered like any other and moves the break out of the heap. *)
Lemma get_next_accepts_overflow :
  let h := SymHeap 4096 65536 4097 in
  heap_ok h /\ shmem_internal_get_next (2 ^ 63 - 1) h = (4097, set_curr h (2 ^ 63 + 4096)).
Proof. split; [unfold heap_ok; simpl; lia|reflexivity]. Qed.

(** ** Rounding *)

(** For addresses whose rounding does not leave 64 bits, [CEILING] is the least multiple
    of the page size that is not below its argument. *)
Lemma CEILING_spec (a b : Z) : 0 <= a -> 1 <= b -> a + b <= 2 ^ 64 ->
  a <= CEILING a b < a + b /\ CEILING a b mod b = 0.
Proof.
  intros Ha Hb Hab. unfold CEILING. rewrite wrap_u_id by lia. destruct (Z.leb_spec a 0) as [H0|H0].
  - assert (a = 0) as -> by lia. rewrite Z.mod_0_l by lia. lia.
  - unfold FLOOR. rewrite (wrap_u_id 64 (a - 1)) by lia.
    destruct (decide (b = 2 ^ 64)) as [->|Hne]; [lia|]. rewrite (wrap_u_id 64 b) by lia.
    pose proof (Z.mod_pos_bound (a - 1) b). pose proof (Z.mod_le (a - 1) b).
    rewrite (wrap_u_id 64 (a - 1 - (a - 1) mod b)), wrap_u_id by lia.
    split; [lia|]. replace (a - 1 - (a - 1) mod b + b) with ((a - 1) / b * b + 1 * b)
      by (pose proof (Z.div_mod (a - 1) b); lia).
    by rewrite <- Z.mul_add_distr_r, Z.mod_mul by lia.
Qed.

(** ** The symmetric address checks *)

Definition regions_wf (r : regions) : Prop :=
  0 <= data_base r /\ 0 <= data_length r /\ data_base r + data_length r < 2 ^ 64 /\
  0 <= heap_base r /\ 0 <= heap_length r /\ heap_base r + heap_length r < 2 ^ 64 /\
  (data_base r + data_length r <= heap_base r \/ heap_base r + heap_length r <= data_base r).

(** [[ptr, ptr + len)] lies within [[base, base + length)]. *)
Definition inside (ptr len base length : Z) : Prop := base <= ptr /\ ptr + len <= base + length.

(** As long as the end of the argument does not wrap around, the check accepts exactly
    the empty arguments and those that lie within the data segment or within the heap. *)
Lemma check_symmetric_spec (r : regions) (ptr len : Z) :
  regions_wf r -> 0 <= ptr -> 0 <= len -> ptr + len < 2 ^ 64 ->
  SHMEM_ERR_CHECK_SYMMETRIC r ptr len = true <->
  len = 0 \/ inside ptr len (data_base r) (data_length r) \/ inside ptr len (heap_base r) (heap_length r).
Proof.
  intros (? & ? & ? & ? & ? & ? & Hd) Hp Hl Ho. unfold SHMEM_ERR_CHECK_SYMMETRIC, inside, ptr_add.
  rewrite !wrap_u_id by lia. rewrite !Z.geb_leb, !Z.gtb_ltb.
  destruct (Z.eqb_spec len 0); [split; [by left|done]|].
  destruct (Z.leb_spec (data_base r) ptr), (Z.ltb_spec ptr (data_base r + data_length r)); cbn [andb];
  destruct (Z.leb_spec (heap_base r) ptr), (Z.ltb_spec ptr (heap_base r + heap_length r)); cbn [andb];
  rewrite ?negb_true_iff, ?Z.ltb_ge; lia.
Qed.

Lemma check_symmetric_spec_witness :
  SHMEM_ERR_CHECK_SYMMETRIC (Regions 4096 1000 8192 65536) 8200 16 = true /\
  (16 = 0 \/ inside 8200 16 4096 1000 \/ inside 8200 16 8192 65536).
Proof.
  split; [reflexivity|].
  apply (check_symmetric_spec (Regions 4096 1000 8192 65536) 8200 16); [unfold regions_wf; simpl; lia|lia..|reflexivity].
Defined.

(** When it does wrap around the check is vacuous: every address of the heap is accepted
    with the length [(size_t) -1]. *)
Lemma check_symmetric_wraps (r : regions) (ptr : Z) :
  regions_wf r -> heap_base r <= ptr < heap_base r + heap_length r -> 0 < ptr ->
  SHMEM_ERR_CHECK_SYMMETRIC r ptr (2 ^ 64 - 1) = true.
Proof.
  intros (? & ? & ? & ? & ? & ? & Hd) Hp Hp0. unfold SHMEM_ERR_CHECK_SYMMETRIC, ptr_add.
  rewrite (wrap_u_id 64 (_ + data_length r)), (wrap_u_id 64 (_ + heap_length r)) by lia.
  replace (wrap_u 64 (ptr + (2 ^ 64 - 1))) with (ptr - 1).
  2:{ unfold wrap_u. replace (ptr + (2 ^ 64 - 1)) with (ptr - 1 + 1 * 2 ^ 64) by lia.
      rewrite Z.mod_add by lia. rewrite Z.mod_small by lia. done. }
  change (2 ^ 64 - 1 =? 0) with false. cbv iota. rewrite !Z.geb_leb, !Z.gtb_ltb.
  destruct (Z.leb_spec (data_base r) ptr), (Z.ltb_spec ptr (data_base r + data_length r)); cbn [andb];
    rewrite ?(proj2 (Z.leb_le (heap_base r) ptr)), ?(proj2 (Z.ltb_lt ptr (heap_base r + heap_length r))) by lia; cbn [andb];
    rewrite ?negb_true_iff, ?Z.ltb_ge; lia.
Qed.

Lemma check_symmetric_wraps_witness :
  SHMEM_ERR_CHECK_SYMMETRIC (Regions 4096 1000 8192 65536) 8200 (2 ^ 64 - 1) = true.
Proof. apply (check_symmetric_wraps (Regions 4096 1000 8192 65536) 8200); [unfold regions_wf; simpl; lia|simpl; lia|lia]. Defined.

(** ** The mapping *)

(** The heap is mapped at a gigabyte boundary more than one and at most two gigabytes
    above the data segment; with a huge-page file the length is rounded up to the page
    size, and the file, its name and its directory are all released. *)
Lemma mmap_alloc_spec (use_huge : bool) (page_size data_base data_length bytes : Z) (sys : mmap_sys) :
  0 <= data_base + data_length -> 1 <= page_size -> 0 <= bytes -> bytes + page_size <= 2 ^ 64 -> sys_open sys <> 0 ->
  let '(ret, len, opened, c) := mmap_alloc use_huge page_size data_base data_length sys bytes in
  (exists base fd, ret = sys_mmap sys base len fd /\ base mod ONEGIG = 0 /\
     data_base + data_length + ONEGIG < base <= data_base + data_length + 2 * ONEGIG) /\
  (if opened then bytes <= len < bytes + page_size /\ len mod page_size = 0 else len = bytes) /\
  c_unlink c = opened /\ c_close c = opened.
Proof.
  intros Hd Hps Hb Hbp Ho. unfold mmap_alloc.
  set (dir := if use_huge then _ else None). set (name := match dir with Some _ => _ | None => false end).
  split; [|split].
  - eexists _, _. split; [reflexivity|]. set (x := data_base + data_length + 2 * ONEGIG).
    change (ONEGIG - 1) with (Z.ones 30). rewrite <- Z.ldiff_land, Z.ldiff_ones_r by lia.
    rewrite Z.shiftl_mul_pow2, Z.shiftr_div_pow2 by lia. change ONEGIG with (2 ^ 30) in *.
    rewrite Z.mod_mul by lia. split; [done|]. subst x.
    pose proof (Z.div_mod (data_base + data_length + 2 * 2 ^ 30) (2 ^ 30) ltac:(lia)).
    pose proof (Z.mod_pos_bound (data_base + data_length + 2 * 2 ^ 30) (2 ^ 30) ltac:(lia)). lia.
  - destruct (name && negb (sys_open sys <? 0)); [|done]. by apply CEILING_spec.
  - simpl. destruct name; simpl; [|done]. destruct (Z.ltb_spec (sys_open sys) 0); simpl; [done|].
    rewrite (proj2 (Z.eqb_neq _ 0)) by done. done.
Qed.

Definition hugepage_sys : mmap_sys :=
  MmapSys (Some [Mntent "proc" "/proc" None; Mntent "hugetlbfs" "/hugepages" (Some 2097152)]) 30 true 5
          (fun base len fd => Some base).

Lemma mmap_alloc_spec_witness :
  mmap_alloc true 2097152 4194304 65536 hugepage_sys 537919488 =
    (Some 2147483648, 538968064, true, Cleanup true true true true) /\
  let '(ret, len, opened, c) := mmap_alloc true 2097152 4194304 65536 hugepage_sys 537919488 in
  c_unlink c = opened /\ c_close c = opened.
Proof.
  split; [vm_compute; reflexivity|].
  pose proof (mmap_alloc_spec true 2097152 4194304 65536 537919488 hugepage_sys) as H.
  destruct (mmap_alloc true 2097152 4194304 65536 hugepage_sys 537919488) as [[[ret len] opened] c].
  apply H; simpl; lia.
Defined.

(** With huge pages and the default sizes (512 MB of heap, pages of 2 MB), the mapping
    is larger than the heap length that [shmem_internal_symmetric_fini] unmaps, which is
    not a multiple of the page size. *)
Lemma hugepage_heap_unmapped_short (data_base data_length : Z) :
  let '(ret, len, opened, _) := mmap_alloc true 2097152 data_base data_length hugepage_sys
                                  (512 * 1024 * 1024 + SHMEM_INTERNAL_HEAP_OVERHEAD) in
  opened = true /\
  forall h, shmem_internal_symmetric_init (512 * 1024 * 1024) (fun _ => ret) = Some h ->
    shmem_internal_heap_base h <> 0 ->
    exists l, (shmem_internal_symmetric_fini h).1 = Some (shmem_internal_heap_base h, l) /\ l < len /\ l mod 2097152 <> 0.
Proof.
  unfold mmap_alloc, shmem_internal_symmetric_init. cbn [hugepage_sys sys_mounts sys_snprintf sys_malloc sys_open sys_mmap].
  change (find_hugepage_dir 2097152 _) with (Some "/hugepages"%string).
  cbn [negb andb Z.ltb Z.compare]. split; [done|]. intros h [= <-] Hb. simpl in Hb. unfold shmem_internal_symmetric_fini.
  cbn [shmem_internal_heap_base shmem_internal_heap_length]. rewrite (proj2 (Z.eqb_neq _ 0)) by exact Hb. cbn [negb fst].
  eexists. split; [reflexivity|]. split; [vm_compute; reflexivity|]. vm_compute. discriminate.
Qed.

(** ** Reallocation *)

Section realloc.
Context (dlrealloc : Z -> Z -> lmem -> Z * lmem) (dlfree : Z -> lmem -> lmem).
Context (e : env) (initialized : bool) (r : regions) (psync : Z).

(** [shmem_realloc] to size 0 is [shmem_free] followed by a barrier, and answers NULL; of
    NULL it is an allocation between two barriers. *)
Lemma realloc_zero_is_free (ptr size : Z) : ptr <> NULL -> size <> 0 ->
  shmem_realloc dlrealloc dlfree e initialized r psync ptr 0 =
    (shmem_free dlfree e initialized r psync ptr ;; barrier_all e psync ;; Ret NULL) /\
  shmem_realloc dlrealloc dlfree e initialized r psync NULL size =
    (SHMEM_ERR_CHECK_INITIALIZED initialized ;; barrier_all e psync ;;
     ret <- call (dlrealloc NULL size) ; barrier_all e psync ;; Ret ret).
Proof.
  intros Hp Hs. unfold shmem_realloc, shmem_free, shmem_internal_free.
  apply Z.eqb_neq in Hp, Hs. rewrite Hp, Hs. split; [|done].
  rewrite pbind_assoc. f_equal. extensionality u. cbn [negb andb]. rewrite pbind_assoc. f_equal. extensionality u'.
  by rewrite pbind_assoc.
Qed.
End realloc.

Lemma realloc_zero_is_free_witness (* a PE whose heap holds the address 8200 *) :
  let e := Env 0 1 4 4 16384 AUTO AUTO AUTO AUTO AUTO 0 [] in
  let r := Regions 4096 1000 8192 65536 in
  shmem_realloc (fun _ _ m => (0, m)) (fun _ m => m) e true r 0 8200 0 =
    (shmem_free (fun _ m => m) e true r 0 8200 ;; barrier_all e 0 ;; Ret NULL).
Proof. apply (realloc_zero_is_free (fun _ _ m => (0, m)) (fun _ m => m) _ true _ 0 8200 1); discriminate. Defined.
