(* ===== verification/Access.v ===== *)
(** * Which PEs and addresses a program may name
    ([shmem_accessibility.h], [shmem_remote_pointer.h], [query_c.c], [contexts_c.c])

    The queries of the public interface that need no communication, on the regions of
    [SymHeap]. *)

From S2P Require Import Prelude Machine Straight Internal ReduceOp Comm SymHeap.
Local Open Scope Z_scope.

Section access.
(** [shmem_internal_my_pe], [shmem_internal_num_pes], the regions, the rank of a PE among
    those that share memory with this one (-1 if it does not), and with XPMEM the address
    at which its memory is attached. *)
Context (my_pe num_pes : Z) (r : regions) (shr_rank : Z -> Z) (xpmem_ptr : option (Z -> Z -> Z -> Z)).

Definition shmem_n_pes : Z := num_pes.
Definition shmem_my_pe : Z := my_pe.

Definition shmem_internal_pe_accessible (pe : Z) : Z := if (pe >=? 0) && (pe <? num_pes) then 1 else 0.

Definition shmem_internal_addr_accessible (addr pe : Z) : Z :=
  if (pe <? 0) || (pe >=? num_pes) then 0
  else if (addr >=? heap_base r) && (addr <? ptr_add (heap_base r) (heap_length r)) then 1
  else if (addr >=? data_base r) && (addr <? ptr_add (data_base r) (data_length r)) then 1
  else 0.

(** The local pointer to the object of a PE, or NULL. *)
Definition shmem_internal_ptr (target pe : Z) : Z :=
  if pe =? my_pe then target
  else
    let node_rank := shr_rank pe in
    if negb (-1 =? node_rank) then match xpmem_ptr with Some f => f target pe node_rank | None => NULL end
    else NULL.

(** An address is accessible at a valid PE exactly when the check of symmetric arguments
    accepts the byte at that address. *)
Lemma addr_accessible_checked addr pe : regions_wf r -> 0 <= addr < 2 ^ 64 - 1 -> 0 <= pe < num_pes ->
  shmem_internal_addr_accessible addr pe = 1 <-> SHMEM_ERR_CHECK_SYMMETRIC r addr 1 = true.
Proof.
  intros (? & ? & ? & ? & ? & ? & Hd) Ha Hpe. unfold shmem_internal_addr_accessible, SHMEM_ERR_CHECK_SYMMETRIC, ptr_add.
  rewrite !wrap_u_id by lia. change (1 =? 0) with false. cbv iota.
  rewrite (proj2 (Z.ltb_ge pe 0)), !Z.geb_leb, (proj2 (Z.leb_gt num_pes pe)), !Z.gtb_ltb by lia. cbn [orb].
  destruct (Z.leb_spec (data_base r) addr), (Z.ltb_spec addr (data_base r + data_length r)); cbn [andb];
  destruct (Z.leb_spec (heap_base r) addr), (Z.ltb_spec addr (heap_base r + heap_length r)); cbn [andb];
  rewrite ?negb_true_iff, ?Z.ltb_ge; split; intros; try done; lia.
Qed.
End access.

(** ** Contexts: creation reports the transport's error and never leaves a stale handle *)

Section contexts.
(** The transport's [ctx_create] (its code and the handle it stores), the two reserved handles. *)
Context (transport_ctx_create : Z -> Z * Z) (SHMEM_CTX_INVALID SHMEM_CTX_DEFAULT : Z).

(** The return value and [*ctx]. *)
Definition shmem_ctx_create (options : Z) : Z * Z :=
  let '(ret, ctx) := transport_ctx_create options in
  (ret, if negb (0 =? ret) then SHMEM_CTX_INVALID else ctx).

(** What destroying a handle does. *)
Inductive ctx_destroyed := CtxNothing | CtxError | CtxQuietDestroy.
Definition shmem_ctx_destroy (ctx : Z) : ctx_destroyed :=
  if ctx =? SHMEM_CTX_INVALID then CtxNothing
  else if ctx =? SHMEM_CTX_DEFAULT then CtxError
  else CtxQuietDestroy.

(** A context whose creation failed can be destroyed without effect. *)
Lemma ctx_create_destroy options : (shmem_ctx_create options).1 <> 0 -> shmem_ctx_destroy (shmem_ctx_create options).2 = CtxNothing.
Proof.
  unfold shmem_ctx_create, shmem_ctx_destroy. destruct (transport_ctx_create options) as [rc ctx]. cbn [fst snd]. intros H.
  rewrite (proj2 (Z.eqb_neq 0 rc)) by congruence. cbn [negb]. by rewrite Z.eqb_refl.
Qed.
End contexts.
