(* ===== verification/Env.v ===== *)
(** * Environment parameters ([shmem_env.c], [shmem_env_defs.h])

    The table of parameters, their lookup under the two prefixes, the conversions of
    the four kinds, and the parse of the whole table.  The environment is a function
    from names to values; [sscanf] and [strtol] are parameters that answer the exact
    value they convert. *)

From Stdlib Require Import Ascii.
From stdpp Require Import strings.
From S2P Require Import Prelude.
Local Open Scope Z_scope.

(** ** The table *)

Inductive env_value :=
| VLong (v : Z)
| VSize (v : Z)
| VBool (v : bool)
| VString (v : string).

Inductive env_category := CAT_OPENSHMEM | CAT_COLLECTIVES | CAT_TRANSPORT | CAT_INTRANODE | CAT_OTHER.
#[export] Instance env_category_eq_dec : EqDecision env_category.
Proof. solve_decision. Defined.

(** [SHMEM_INTERNAL_ENV_DEF(NAME, KIND, DEFAULT, CATEGORY, _)]; the kind is that of the default. *)
Record env_def := EnvDef { NAME : string; DEFAULT : env_value; CATEGORY : env_category }.

(** The configuration the table depends on. *)
Record config := Config {
  linux : bool; aslr_check : bool; use_cma : bool; use_ofi : bool; use_ucx : bool; use_xpmem : bool;
  use_memcpy : bool; use_portals4 : bool; enable_pmi_mpi : bool;
  default_bounce_size : Z; default_teams_max : Z; default_poll_limit : Z }.

Definition env_defs (c : config) : list env_def :=
  [EnvDef "INFO" (VBool false) CAT_OPENSHMEM;
   EnvDef "VERSION" (VBool false) CAT_OPENSHMEM;
   EnvDef "DEBUG" (VBool false) CAT_OPENSHMEM;
   EnvDef "SYMMETRIC_SIZE" (VSize (512 * 1024 * 1024)) CAT_OPENSHMEM] ++
  (if linux c then
     [EnvDef "SYMMETRIC_HEAP_USE_HUGE_PAGES" (VBool false) CAT_OTHER;
      EnvDef "SYMMETRIC_HEAP_PAGE_SIZE" (VSize (2 * 1024 * 1024)) CAT_OTHER] else []) ++
  (if aslr_check c then [EnvDef "DISABLE_ASLR_CHECK" (VBool false) CAT_OTHER] else []) ++
  [EnvDef "SYMMETRIC_HEAP_USE_MALLOC" (VBool false) CAT_OTHER;
   EnvDef "BOUNCE_SIZE" (VSize (default_bounce_size c)) CAT_OTHER;
   EnvDef "MAX_BOUNCE_BUFFERS" (VLong 128) CAT_OTHER;
   EnvDef "TRAP_ON_ABORT" (VBool false) CAT_OTHER;
   EnvDef "COLL_CROSSOVER" (VLong 4) CAT_COLLECTIVES;
   EnvDef "COLL_SIZE_CROSSOVER" (VSize 16384) CAT_COLLECTIVES;
   EnvDef "COLL_RADIX" (VLong 4) CAT_COLLECTIVES;
   EnvDef "BARRIER_ALGORITHM" (VString "auto") CAT_COLLECTIVES;
   EnvDef "BCAST_ALGORITHM" (VString "auto") CAT_COLLECTIVES;
   EnvDef "REDUCE_ALGORITHM" (VString "auto") CAT_COLLECTIVES;
   EnvDef "COLLECT_ALGORITHM" (VString "auto") CAT_COLLECTIVES;
   EnvDef "FCOLLECT_ALGORITHM" (VString "auto") CAT_COLLECTIVES;
   EnvDef "BARRIERS_FLUSH" (VBool false) CAT_COLLECTIVES;
   EnvDef "TEAMS_MAX" (VLong (default_teams_max c)) CAT_OTHER;
   EnvDef "TEAM_SHARED_ONLY_SELF" (VBool false) CAT_OTHER] ++
  (if use_cma c then
     [EnvDef "CMA_PUT_MAX" (VSize (8 * 1024)) CAT_INTRANODE;
      EnvDef "CMA_GET_MAX" (VSize (16 * 1024)) CAT_INTRANODE] else []) ++
  (if use_ofi c then
     [EnvDef "OFI_ATOMIC_CHECKS_WARN" (VBool false) CAT_TRANSPORT;
      EnvDef "OFI_PROVIDER" (VString "auto") CAT_TRANSPORT;
      EnvDef "OFI_USE_PROVIDER" (VString "auto") CAT_TRANSPORT;
      EnvDef "OFI_FABRIC" (VString "auto") CAT_TRANSPORT;
      EnvDef "OFI_DOMAIN" (VString "auto") CAT_TRANSPORT;
      EnvDef "OFI_TX_POLL_LIMIT" (VLong (default_poll_limit c)) CAT_TRANSPORT;
      EnvDef "OFI_RX_POLL_LIMIT" (VLong (default_poll_limit c)) CAT_TRANSPORT;
      EnvDef "OFI_STX_MAX" (VLong 1) CAT_TRANSPORT;
      EnvDef "OFI_STX_AUTO" (VBool false) CAT_TRANSPORT;
      EnvDef "OFI_STX_THRESHOLD" (VLong 1) CAT_TRANSPORT;
      EnvDef "OFI_STX_ALLOCATOR" (VString "round-robin") CAT_TRANSPORT;
      EnvDef "OFI_STX_DISABLE_PRIVATE" (VBool false) CAT_TRANSPORT] else []) ++
  (if use_ucx c then [EnvDef "PROGRESS_INTERVAL" (VLong 1000) CAT_TRANSPORT] else []) ++
  (if enable_pmi_mpi c then [EnvDef "MPI_THREAD_LEVEL" (VString "MPI_THREAD_SINGLE") CAT_TRANSPORT] else []) ++
  [EnvDef "BACKTRACE" (VString "") CAT_OTHER].

(** ** Conversions *)

(** How a call ends: with a value, with a non-zero return, in an abort of the job, or in
    a conversion C leaves undefined (a double outside the range of [size_t]). *)
Inductive outcome (A : Type) :=
| Done (a : A)
| Error
| Aborted
| Undefined.
Arguments Done {A} a.
Arguments Error {A}.
Arguments Aborted {A}.
Arguments Undefined {A}.

(** The power of two of a size suffix. *)
Definition suffix_scale (f : ascii) : option Z :=
  if Ascii.eqb f "k" || Ascii.eqb f "K" then Some 10
  else if Ascii.eqb f "m" || Ascii.eqb f "M" then Some 20
  else if Ascii.eqb f "g" || Ascii.eqb f "G" then Some 30
  else if Ascii.eqb f "t" || Ascii.eqb f "T" then Some 40
  else None.

(** [ceil] of the rational [num / den], [0 < den]. *)
Definition ceil_div (num den : Z) : Z := - ((- num) / den).

Section parse.
(** [sscanf(str, "%lf%c", &p, &f)]: the number converted (as a fraction) and the
    character after it, as far as the conversions go. *)
Context (sscanf : string -> option (Z * Z * option ascii)).
(** [strtol(s, &e, 0)]: [None] when [errno] is set or nothing is converted. *)
Context (strtol : string -> option Z).
Context (getenv : string -> option string).

(** The conversion of [ceil(p * (1lu << scale))] to [size_t]. *)
Definition to_size (num den scale : Z) : outcome Z :=
  let v := ceil_div (num * 2 ^ scale) den in
  if (0 <=? v) && (v <? 2 ^ 64) then Done v else Undefined.

Definition atol_scaled (str : string) : outcome Z :=
  match sscanf str with
  | Some (num, den, Some f) =>
      match suffix_scale f with
      | Some scale => to_size num den scale
      | None => Error
      end
  | Some (num, den, None) => if num <? 0 then Error else to_size num den 0
  | None => Error
  end.

Definition errchk_atol (s : string) : outcome Z :=
  match strtol s with Some v => Done v | None => Aborted end.

Definition shmem_internal_getenv (name : string) : option string :=
  match getenv ("SHMEM_" +:+ name) with
  | Some v => Some v
  | None => getenv ("SMA_" +:+ name)
  end.

(** The value of a parameter, by kind, and whether it was provided. *)
Definition shmem_internal_getenv_string (name default_val : string) : outcome (env_value * bool) :=
  match shmem_internal_getenv name with
  | Some env => Done (VString env, true)
  | None => Done (VString default_val, false)
  end.
Definition shmem_internal_getenv_long (name : string) (default_val : Z) : outcome (env_value * bool) :=
  match shmem_internal_getenv name with
  | Some env => match errchk_atol env with
                | Done v => Done (VLong v, true)
                | Error => Error | Aborted => Aborted | Undefined => Undefined
                end
  | None => Done (VLong default_val, false)
  end.
Definition shmem_internal_getenv_size (name : string) (default_val : Z) : outcome (env_value * bool) :=
  match shmem_internal_getenv name with
  | Some env => match atol_scaled env with
                | Done v => Done (VSize v, true)
                | Error => Error | Aborted => Aborted | Undefined => Undefined
                end
  | None => Done (VSize default_val, false)
  end.
(** Setting a boolean, to whatever value, negates its default. *)
Definition shmem_internal_getenv_bool (name : string) (default_val : bool) : outcome (env_value * bool) :=
  match shmem_internal_getenv name with
  | Some env => Done (VBool (negb default_val), true)
  | None => Done (VBool default_val, false)
  end.

Definition getenv_def (d : env_def) : outcome (env_value * bool) :=
  match DEFAULT d with
  | VLong v => shmem_internal_getenv_long (NAME d) v
  | VSize v => shmem_internal_getenv_size (NAME d) v
  | VBool v => shmem_internal_getenv_bool (NAME d) v
  | VString v => shmem_internal_getenv_string (NAME d) v
  end.

(** The parameters in table order, up to the first failure. *)
Fixpoint parse_defs (defs : list env_def) : outcome (list (string * env_value * bool)) :=
  match defs with
  | [] => Done []
  | d :: defs =>
      match getenv_def d with
      | Done (v, provided) =>
          match parse_defs defs with
          | Done params => Done ((NAME d, v, provided) :: params)
          | failure => failure
          end
      | Error => Error | Aborted => Aborted | Undefined => Undefined
      end
  end.

Definition shmem_internal_parse_env (c : config) : outcome (list (string * env_value * bool)) :=
  parse_defs (env_defs c).
End parse.

(** ** Printing *)

(** What [print_env] prints: a parameter with its default, or a heading. *)
Inductive print_item := PrintParam (d : env_def) | PrintHeading (h : string).

Definition in_category (cat : env_category) (defs : list env_def) : list print_item :=
  map PrintParam (filter (fun d => CATEGORY d = cat) defs).

Definition network_name (c : config) : string :=
  if use_ofi c then "OFI" else if use_portals4 c then "Portals 4" else if use_ucx c then "UCX" else "none".
Definition onnode_name (c : config) : string :=
  if use_cma c then "Linux CMA" else if use_xpmem c then "XPMEM" else if use_memcpy c then "memcpy" else "none".

Definition shmem_internal_print_env (c : config) : list print_item :=
  in_category CAT_OPENSHMEM (env_defs c) ++
  [PrintHeading "Additional options:"] ++ in_category CAT_OTHER (env_defs c) ++
  [PrintHeading "Collectives options:"] ++ in_category CAT_COLLECTIVES (env_defs c) ++
  [PrintHeading ("Network transport: " +:+ network_name c)] ++ in_category CAT_TRANSPORT (env_defs c) ++
  [PrintHeading ("On-node transport: " +:+ onnode_name c)] ++ in_category CAT_INTRANODE (env_defs c).

(** ** Sizes *)

Lemma ceil_div_least num den v : 0 < den -> ceil_div num den <= v <-> num <= v * den.
Proof.
  intros Hd. unfold ceil_div. pose proof (Z.div_mod (- num) den ltac:(lia)).
  pose proof (Z.mod_pos_bound (- num) den Hd). split; nia.
Qed.

Definition same_kind (v w : env_value) : Prop :=
  match v, w with
  | VLong _, VLong _ | VSize _, VSize _ | VBool _, VBool _ | VString _, VString _ => True
  | _, _ => False
  end.

(** A size is read as the number times the power of two of its suffix, rounded up: the
    result is the least integer that is not below it. *)
Lemma atol_scaled_spec (sscanf : string -> option (Z * Z * option ascii)) (str : string)
    (num den scale : Z) (f : option ascii) :
  sscanf str = Some (num, den, f) -> 0 <= num -> 0 < den -> num * 2 ^ scale <= (2 ^ 64 - 1) * den ->
  match f with Some f => suffix_scale f = Some scale | None => scale = 0 end ->
  exists v, atol_scaled sscanf str = Done v /\ forall w, v <= w <-> num * 2 ^ scale <= w * den.
Proof.
  intros Es Hn Hd Hr Hf. exists (ceil_div (num * 2 ^ scale) den).
  assert (0 <= scale) as Hscale.
  { destruct f as [f|]; [|lia]. unfold suffix_scale in Hf. repeat case_match; simplify_eq; lia. }
  split; [|intros w; by apply ceil_div_least].
  assert (0 <= ceil_div (num * 2 ^ scale) den < 2 ^ 64) as [H0 H1].
  { pose proof (proj2 (ceil_div_least (num * 2 ^ scale) den (2 ^ 64 - 1) Hd) Hr). split; [|lia].
    destruct (Z.le_gt_cases 0 (ceil_div (num * 2 ^ scale) den)); [done|].
    pose proof (proj1 (ceil_div_least (num * 2 ^ scale) den (-1) Hd)). nia. }
  unfold atol_scaled, to_size. rewrite Es. destruct f as [f|].
  - rewrite Hf, (proj2 (Z.leb_le _ _)), (proj2 (Z.ltb_lt _ _)) by lia. done.
  - subst scale. rewrite (proj2 (Z.ltb_ge num 0)), (proj2 (Z.leb_le _ _)), (proj2 (Z.ltb_lt _ _)) by lia. done.
Qed.

Lemma atol_scaled_spec_witness (* "1.5K" is 1536 *) :
  let sscanf (_ : string) := Some (3, 2, Some "K"%char) in
  atol_scaled sscanf "1.5K" = Done 1536 /\
  exists v, atol_scaled sscanf "1.5K" = Done v /\ forall w, v <= w <-> 3 * 2 ^ 10 <= w * 2.
Proof.
  split; [reflexivity|].
  apply (atol_scaled_spec _ "1.5K" 3 2 10 (Some "K"%char)); [reflexivity|lia..|reflexivity].
Defined.

(** A negative size is rejected only when it has no suffix: with one, the sign is not
    looked at and the conversion to [size_t] is undefined. *)
Lemma atol_scaled_negative (sscanf : string -> option (Z * Z * option ascii)) (str : string) (num den : Z) :
  num < 0 -> 0 < den -> num * 1024 <= - den ->
  (sscanf str = Some (num, den, None) -> atol_scaled sscanf str = Error) /\
  (sscanf str = Some (num, den, Some "K"%char) -> atol_scaled sscanf str = Undefined).
Proof.
  intros Hn Hd Hr. unfold atol_scaled. split; intros ->.
  - by rewrite (proj2 (Z.ltb_lt _ _)).
  - change (suffix_scale "K"%char) with (Some 10). unfold to_size.
    pose proof (proj2 (ceil_div_least (num * 2 ^ 10) den (-1) Hd)). rewrite (proj2 (Z.leb_gt 0 _)) by lia. done.
Qed.

Lemma atol_scaled_negative_witness :
  atol_scaled (fun _ => Some (-1, 1, Some "K"%char)) "-1K" = Undefined.
Proof. apply (atol_scaled_negative (fun _ => Some (-1, 1, Some "K"%char)) "-1K" (-1) 1); [lia..|reflexivity]. Defined.

(** ** The whole table *)

Section table.
Context (sscanf : string -> option (Z * Z * option ascii)) (strtol : string -> option Z).
Context (getenv : string -> option string).

(** What one parameter gets. *)
Definition def_ok (d : env_def) (p : string * env_value * bool) : Prop :=
  let '(name, v, provided) := p in
  name = NAME d /\ same_kind v (DEFAULT d) /\
  match getenv ("SHMEM_" +:+ NAME d), getenv ("SMA_" +:+ NAME d) with
  | None, None => provided = false /\ v = DEFAULT d
  | Some env, _ | None, Some env => provided = true /\
      match DEFAULT d with
      | VBool b => v = VBool (negb b)
      | VString _ => v = VString env
      | VLong _ => exists z, strtol env = Some z /\ v = VLong z
      | VSize _ => exists z, atol_scaled sscanf env = Done z /\ v = VSize z
      end
  end.

Lemma getenv_def_ok d v provided : getenv_def sscanf strtol getenv d = Done (v, provided) -> def_ok d (NAME d, v, provided).
Proof.
  unfold getenv_def, def_ok, shmem_internal_getenv_long, shmem_internal_getenv_size, shmem_internal_getenv_bool,
    shmem_internal_getenv_string, shmem_internal_getenv, errchk_atol. intros H.
  repeat case_match; simplify_eq; simpl; eauto 10.
Qed.

Lemma parse_defs_ok defs params : parse_defs sscanf strtol getenv defs = Done params -> Forall2 def_ok defs params.
Proof.
  revert params. induction defs as [|d defs IH]; intros params; simpl; [by intros [= <-]|].
  destruct (getenv_def _ _ _ d) as [[v provided]| | |] eqn:E; try done.
  destruct (parse_defs _ _ _ defs) as [ps| | |] eqn:Ed; try done. intros [= <-].
  constructor; [by apply getenv_def_ok|by apply IH].
Qed.

(** When the environment parses, every parameter of the table gets, in order, the value
    converted from its SHMEM_ variable, else from its SMA_ variable, else its default; it
    is marked provided exactly when one of them is set, and a boolean that is set is
    the negation of its default. *)
Lemma parse_env_spec (c : config) (params : list (string * env_value * bool)) :
  shmem_internal_parse_env sscanf strtol getenv c = Done params -> Forall2 def_ok (env_defs c) params.
Proof. apply parse_defs_ok. Qed.
End table.

(** A Linux build with the OFI transport. *)
Definition ofi_config : config := Config true false false true false false false false false 2048 40 100.

Lemma parse_env_spec_witness :
  let getenv s := if String.eqb s "SMA_TEAMS_MAX" then Some "12"%string
                  else if String.eqb s "SHMEM_DEBUG" then Some "0"%string else None in
  let strtol (_ : string) := Some 12 in
  exists params, shmem_internal_parse_env (fun _ => None) strtol getenv ofi_config = Done params /\
    Forall2 (def_ok (fun _ => None) strtol getenv) (env_defs ofi_config) params /\
    ("DEBUG", VBool true, true) ∈ params /\ ("TEAMS_MAX", VLong 12, true) ∈ params.
Proof.
  intros getenv strtol.
  destruct (shmem_internal_parse_env (fun _ => None) strtol getenv ofi_config) as [params| | |] eqn:E;
    vm_compute in E; try discriminate.
  exists params. split; [done|]. split.
  - apply (parse_env_spec (fun _ => None) strtol getenv ofi_config params). injection E as <-. vm_compute. reflexivity.
  - injection E as <-. split; vm_compute; repeat constructor.
Defined.

(** The listing prints every parameter of the table exactly once, and four headings. *)
Lemma print_env_complete (c : config) :
  exists headings, length headings = 4%nat /\
    shmem_internal_print_env c ≡ₚ map PrintHeading headings ++ map PrintParam (env_defs c).
Proof.
  exists ["Additional options:"; "Collectives options:"; "Network transport: " +:+ network_name c;
          "On-node transport: " +:+ onnode_name c]%string.
  split; [done|]. unfold shmem_internal_print_env, in_category. cbn [map].
  assert (forall l : list env_def,
    map PrintParam (filter (fun d => CATEGORY d = CAT_OPENSHMEM) l) ++ map PrintParam (filter (fun d => CATEGORY d = CAT_OTHER) l) ++
    map PrintParam (filter (fun d => CATEGORY d = CAT_COLLECTIVES) l) ++ map PrintParam (filter (fun d => CATEGORY d = CAT_TRANSPORT) l) ++
    map PrintParam (filter (fun d => CATEGORY d = CAT_INTRANODE) l) ≡ₚ map PrintParam l) as Hperm.
  { induction l as [|d l IH]; [done|]. rewrite !filter_cons. destruct (CATEGORY d) eqn:E;
      repeat first [rewrite decide_True by done|rewrite decide_False by done]; cbn [map app]; rewrite <- IH; solve_Permutation. }
  rewrite <- (Hperm (env_defs c)). solve_Permutation.
Qed.
