(* ===== verification/PmiUtil.v ===== *)
(** * PMI client utilities ([pmi-simple/simple_pmiutil.c], [mpl.h])

    Bounded string copies, the buffered line reader of the connection to the process
    manager, and the table of the [key=value] pairs of a reply.  A C string is the list
    of its characters before the NUL, a buffer the string it holds. *)

From Stdlib Require Import Ascii.
From stdpp Require Import strings.
From S2P Require Import Prelude Util.
Local Open Scope Z_scope.

Definition PMI_SUCCESS : Z := 0.
Definition PMI_FAIL : Z := -1.
Definition PMI_ERR_INVALID_ARG : Z := 3.
Definition PMIU_MAXLINE : Z := 1024.
Definition PMIU_IDSIZE : Z := 32.
Definition MAXVALLEN : Z := 1024.
Definition MAXKEYLEN : Z := 32.
Definition MAX_READLINE : Z := 1024.

(** The characters of a literal. *)
Fixpoint chars (s : string) : list Z :=
  match s with
  | EmptyString => []
  | String a s => Z.of_N (N_of_ascii a) :: chars s
  end.

(** ** Bounded copies *)

(** [while ( *s_ptr && i-- > 0) *d_ptr++ = *s_ptr++]: what is copied and the final [i]. *)
Fixpoint copy_loop (src : list Z) (i : Z) : list Z * Z :=
  match src with
  | [] => ([], i)
  | c :: src => if i >? 0 then let '(d, i) := copy_loop src (i - 1) in (c :: d, i) else ([], i - 1)
  end.

(** The string left in [dest], and the return value. *)
Definition MPL_strncpy (dest src : list Z) (n : Z) : list Z * Z :=
  if n =? 0 then (dest, 0)
  else
    let '(d, i) := copy_loop src n in
    if i >? 0 then (d, 0) else (take (Z.to_nat (n - 1)) d, 1).

(** The first loop, [while (i-- > 0 && *d_ptr) d_ptr++], leaves [i = n - strlen - 1]
    (or -1, when the string fills the buffer). *)
Definition MPL_strnapp (dest src : list Z) (n : Z) : list Z * Z :=
  let i := if zlen dest <? n then n - zlen dest - 1 else -1 in
  if i <=? 0 then (dest, 1)
  else
    let '(d, i) := copy_loop src i in
    if i >=? 0 then (dest ++ d, 0) else (take (length (dest ++ d) - 1) (dest ++ d), 1).

(** ** Reading lines *)

(** What a call of [read] on the connection answers. *)
Inductive read_result := Bytes (l : list Z) | Eof | Eintr | ReadError.

(** The static variables: the characters between [nextChar] and [lastChar], [lastfd]. *)
Record reader := Reader { readbuf : list Z; lastfd : Z }.
Definition reader0 : reader := Reader [] (-1).

(** [do { n = read(...) } while (n == -1 && errno == EINTR)]; no more results is the end
    of file. *)
Fixpoint do_read (io : list read_result) : read_result * list read_result :=
  match io with
  | [] => (Eof, [])
  | Eintr :: io => do_read io
  | r :: io => (r, io)
  end.

(** The loop, [room] more characters fitting in [buf]: the characters stored, whether
    the loop ended on a read error, the rest. *)
Fixpoint readline_loop (room : nat) (buf : list Z) (io : list read_result) :
    list Z * bool * list Z * list read_result :=
  match room with
  | O => ([], false, buf, io)
  | S room =>
      let next ch buf io :=
        if ch =? NEWLINE then ([ch], false, buf, io)
        else let '(line, err, buf, io) := readline_loop room buf io in (ch :: line, err, buf, io) in
      match buf with
      | ch :: buf => next ch buf io
      | [] =>
          match do_read io with
          | (Bytes (ch :: buf), io) => next ch buf io
          | (ReadError, io) => ([], true, [], io)
          | (_, io) => ([], false, [], io)
          end
      end
  end.

(** The string in [buf] and the return value. *)
Definition PMIU_readline (fd : Z) (buf : list Z) (maxlen : Z) (r : reader) (io : list read_result) :
    list Z * Z * reader * list read_result :=
  if negb (zlen (readbuf r) =? 0) && negb (fd =? lastfd r) then (buf, PMI_FAIL, r, io)
  else
    let '(line, err, rest, io) := readline_loop (Z.to_nat (maxlen - 1)) (readbuf r) io in
    (line, if err && (zlen line =? 0) then -1 else zlen line, Reader rest fd, io).

(** ** Writing lines *)

(** [written] is what [write] answers for a message (retried on EINTR); the message is
    sent, or dropped with a diagnostic, and both return success. *)
Definition PMIU_writeline (written : Z -> Z) (buf : list Z) : Z * option (list Z) :=
  if zlen buf >? PMIU_MAXLINE then (PMI_SUCCESS, None)
  else if negb (List.last buf 0 =? NEWLINE) then (PMI_SUCCESS, None)
  else if written (zlen buf) <? 0 then (PMI_FAIL, None)
  else (PMI_SUCCESS, Some buf).

(** ** Key-value pairs *)

Definition EQUALS : Z := 61.

Fixpoint skip_spaces (p : list Z) : list Z :=
  match p with
  | c :: p' => if c =? SPACE then skip_spaces p' else p
  | [] => []
  end.

(** The characters up to the first delimiter (or the NUL), and what is left. *)
Fixpoint span (stop : Z -> bool) (p : list Z) : list Z * list Z :=
  match p with
  | [] => ([], [])
  | c :: p' => if stop c then ([], p) else let '(a, b) := span stop p' in (c :: a, b)
  end.

Definition key_stop (c : Z) : bool := (c =? SPACE) || (c =? EQUALS) || (c =? NEWLINE).
Definition value_stop (c : Z) : bool := (c =? SPACE) || (c =? NEWLINE).

Abbreviation keyvals := (list (list Z * list Z)).
Definition TAB_SIZE : Z := 64.

(** The return value and the table, or a write outside the table. *)
Inductive parse_result :=
| Parsed (rc : Z) (tab : keyvals)
| TabOverflow.

(** One iteration of [while (1)]; [tab] holds the pairs stored so far. *)
Fixpoint parse_loop (fuel : nat) (p : list Z) (tab : keyvals) : parse_result :=
  match fuel with
  | O => TabOverflow
  | S fuel =>
      match skip_spaces p with
      | [] => Parsed PMI_SUCCESS tab
      | c :: q =>
          if c =? EQUALS then Parsed PMI_FAIL tab
          else if c =? NEWLINE then Parsed PMI_SUCCESS tab
          else
            let '(key, p) := span key_stop (c :: q) in
            match p with
            | d :: p =>
                if negb (d =? EQUALS) then Parsed PMI_FAIL tab
                else if zlen tab >=? TAB_SIZE then TabOverflow
                else
                  let '(value, rest) := span value_stop p in
                  (* the copy runs to the end of the line; [offset] cuts it *)
                  if zlen value >=? MAXVALLEN then TabOverflow
                  else
                    let k := (MPL_strncpy [] key MAXKEYLEN).1 in
                    let v := take (length value) (MPL_strncpy [] p MAXVALLEN).1 in
                    let tab := tab ++ [(k, v)] in
                    match rest with
                    | c :: _ => if c =? SPACE then parse_loop fuel rest tab else Parsed PMI_SUCCESS tab
                    | [] => Parsed PMI_SUCCESS tab
                    end
            | [] => Parsed PMI_FAIL tab
            end
      end
  end.

Definition PMIU_parse_keyvals (st : list Z) : parse_result := parse_loop (S (length st)) st [].

Definition str_eqb (s1 s2 : list Z) : bool := bool_decide (s1 = s2).

(** The string in [valstr] and whether the pointer answered is not NULL. *)
Fixpoint PMIU_getval (tab : keyvals) (keystr valstr : list Z) (vallen : Z) : list Z * bool :=
  match tab with
  | [] => ([], false)
  | (k, v) :: tab =>
      if str_eqb keystr k
      then let '(s, rc) := MPL_strncpy valstr v vallen in (s, rc =? 0)
      else PMIU_getval tab keystr valstr vallen
  end.

Definition PMIU_chgval (tab : keyvals) (keystr valstr : list Z) : keyvals :=
  map (fun '(k, v) => if str_eqb keystr k
                      then (k, (MPL_strncpy v valstr (MAXVALLEN - 1)).1) else (k, v)) tab.

(** ** Copies *)

Lemma copy_loop_spec src i : 0 <= i ->
  copy_loop src i = (take (Z.to_nat i) src, if zlen src <=? i then i - zlen src else -1).
Proof.
  revert i. induction src as [|c src IH]; intros i Hi; simpl.
  - change (zlen (@nil Z)) with 0. by rewrite take_nil, (proj2 (Z.leb_le 0 i)), Z.sub_0_r by done.
  - rewrite Z.gtb_ltb, zlen_cons. destruct (Z.ltb_spec 0 i) as [Hpos|Hzero].
    + rewrite IH by lia. replace (Z.to_nat i) with (S (Z.to_nat (i - 1))) by lia. simpl. f_equal.
      destruct (Z.leb_spec (zlen src) (i - 1)), (Z.leb_spec (1 + zlen src) i); lia.
    + replace i with 0 by lia. simpl. f_equal. pose proof (zlen_nonneg src).
      by rewrite (proj2 (Z.leb_gt _ 0)) by lia.
Qed.

Lemma strncpy_fits dest src n : zlen src < n -> MPL_strncpy dest src n = (src, 0).
Proof.
  intros H. pose proof (zlen_nonneg src). unfold MPL_strncpy. rewrite (proj2 (Z.eqb_neq n 0)), copy_loop_spec by lia.
  rewrite (proj2 (Z.leb_le _ n)), Z.gtb_ltb, (proj2 (Z.ltb_lt 0 _)) by lia. f_equal.
  apply take_ge. unfold zlen in *. lia.
Qed.

Lemma strncpy_truncates dest src n : 1 <= n <= zlen src -> MPL_strncpy dest src n = (take (Z.to_nat (n - 1)) src, 1).
Proof.
  intros H. unfold MPL_strncpy. rewrite (proj2 (Z.eqb_neq n 0)), copy_loop_spec by lia.
  rewrite Z.gtb_ltb. destruct (Z.leb_spec (zlen src) n); rewrite (proj2 (Z.ltb_ge 0 _)) by lia;
    (f_equal; rewrite take_take; f_equal; lia).
Qed.

(** The bounded copy and the bounded append never leave more than [n] bytes, NUL
    included, in the destination; they succeed exactly when everything fits (the append
    also fails on a destination that is already full), and then copy everything. *)
Lemma bounded_copies (dest src : list Z) (n : Z) : 1 <= n -> zlen dest < n ->
  (let '(s, rc) := MPL_strncpy dest src n in
   zlen s + 1 <= n /\ (rc = 0 <-> zlen src < n) /\ (rc = 0 -> s = src) /\ s `prefix_of` src) /\
  (let '(s, rc) := MPL_strnapp dest src n in
   zlen s + 1 <= n /\ (rc = 0 <-> zlen dest + 1 < n /\ zlen dest + zlen src < n) /\ (rc = 0 -> s = dest ++ src) /\
   s `prefix_of` dest ++ src).
Proof.
  intros Hn Hd. pose proof (zlen_nonneg src). pose proof (zlen_nonneg dest). split.
  - destruct (Z.lt_ge_cases (zlen src) n).
    + rewrite strncpy_fits by done. split; [lia|]. split; [done|]. split; [done|]. reflexivity.
    + rewrite strncpy_truncates by lia. split; [unfold zlen in *; rewrite length_take; lia|]. split; [lia|].
      split; [done|]. apply prefix_take.
  - unfold MPL_strnapp. rewrite (proj2 (Z.ltb_lt _ n)) by lia.
    destruct (Z.leb_spec (n - zlen dest - 1) 0) as [Hfull|Hroom].
    { split; [lia|]. split; [lia|]. split; [done|]. apply prefix_app_r. reflexivity. }
    rewrite copy_loop_spec by lia. destruct (Z.leb_spec (zlen src) (n - zlen dest - 1)) as [Hfit|Hbig].
    + rewrite Z.geb_leb, (proj2 (Z.leb_le 0 _)), take_ge by (unfold zlen in *; lia).
      rewrite zlen_app. split; [lia|]. split; [lia|]. split; [done|]. reflexivity.
    + cbn [Z.geb Z.compare]. split; [unfold zlen in *; rewrite length_take, length_app, length_take; lia|].
      split; [lia|]. split; [done|]. etransitivity; [apply prefix_take|]. apply prefix_app, prefix_take.
Qed.

Lemma bounded_copies_witness :
  MPL_strncpy [] (chars "singinit") 9 = (chars "singinit", 0) /\ MPL_strncpy [] (chars "singinit") 8 = (chars "singini", 1) /\
  MPL_strnapp (chars "ab") (chars "cd") 4 = (chars "ab", 1) /\
  (let '(s, rc) := MPL_strnapp (chars "ab") (chars "cd") 4 in zlen s + 1 <= 4).
Proof.
  split; [reflexivity|]. split; [reflexivity|]. split; [reflexivity|].
  apply (bounded_copies (chars "ab") (chars "cd") 4); [lia|reflexivity].
Defined.

(** ** The stream of a connection *)

(** The characters the connection delivers before its end, however they are chunked. *)
Fixpoint stream (io : list read_result) : list Z :=
  match io with
  | Bytes (c :: l) :: io => c :: l ++ stream io
  | Eintr :: io => stream io
  | _ => []
  end.

(** The first line of a stream, its newline included, at most [room] characters. *)
Fixpoint first_line (room : nat) (s : list Z) : list Z :=
  match room, s with
  | S room, c :: s => c :: (if c =? NEWLINE then [] else first_line room s)
  | _, _ => []
  end.

Lemma stream_do_read io :
  match do_read io with
  | (Bytes (c :: l), io') => stream io = c :: l ++ stream io'
  | _ => stream io = []
  end.
Proof. induction io as [|[[|c l]| | |] io IH]; simpl; done. Qed.

Lemma readline_loop_spec room : forall buf io,
  let '(line, _, buf', io') := readline_loop room buf io in
  line = first_line room (buf ++ stream io) /\
  (buf ++ stream io = line ++ buf' ++ stream io' \/ buf ++ stream io = line).
Proof.
  induction room as [|room IH]; intros buf io; simpl; [by split; [|left]|].
  assert (forall ch buf io, let '(line, _, buf', io') :=
    (if ch =? NEWLINE then ([ch], false, buf, io)
     else let '(line, err, buf, io) := readline_loop room buf io in (ch :: line, err, buf, io)) in
    line = first_line (S room) (ch :: buf ++ stream io) /\
    (ch :: buf ++ stream io = line ++ buf' ++ stream io' \/ ch :: buf ++ stream io = line)) as Hnext.
  { clear buf io. intros ch buf io. simpl. destruct (ch =? NEWLINE); [by split; [|left]|].
    specialize (IH buf io). destruct (readline_loop room buf io) as [[[line err] buf'] io'].
    destruct IH as [-> E]; destruct E as [E|E]; (split; [done|]); [left|right]; simpl; by f_equal. }
  destruct buf as [|ch buf]; [|exact (Hnext ch buf io)].
  pose proof (stream_do_read io) as Hs. destruct (do_read io) as [r io'].
  destruct r as [[|ch l]| | |]; rewrite Hs; try (split; [done|by right]). exact (Hnext ch l io').
Qed.

(** The reader answers the next line of the connection whatever the chunks in which the
    data arrive: the characters up to and including the first newline, but at most
    [maxlen - 1] of them; what it leaves is the rest of the stream (unless that line is
    all there was), and it answers its length or -1 on an error before any data. *)
Lemma readline_spec (fd : Z) (buf : list Z) (maxlen : Z) (r : reader) (io : list read_result) :
  readbuf r = [] \/ fd = lastfd r ->
  let '(line, n, r', io') := PMIU_readline fd buf maxlen r io in
  let s := readbuf r ++ stream io in
  line = first_line (Z.to_nat (maxlen - 1)) s /\
  (s = line ++ readbuf r' ++ stream io' \/ s = line) /\
  (n = zlen line \/ (n = -1 /\ line = [])).
Proof.
  intros Hfd. unfold PMIU_readline.
  assert (negb (zlen (readbuf r) =? 0) && negb (fd =? lastfd r) = false) as ->.
  { destruct Hfd as [E|E]; rewrite E; [done|]. by rewrite Z.eqb_refl, andb_false_r. }
  pose proof (readline_loop_spec (Z.to_nat (maxlen - 1)) (readbuf r) io) as H.
  destruct (readline_loop _ _ io) as [[[line err] rest] io']. destruct H as [H1 H2].
  split; [done|]. split; [done|]. destruct err; simpl; [|by left].
  destruct (Z.eqb_spec (zlen line) 0) as [E|]; [|by left]. right. split; [done|].
  destruct line; [done|]. rewrite zlen_cons in E. pose proof (zlen_nonneg line). lia.
Qed.

Lemma readline_spec_witness :
  let io := [Eintr; Bytes (chars "cmd=b"); Bytes (chars "arrier_out" ++ [10; 99])] in
  PMIU_readline 3 [] 1024 reader0 io = (chars "cmd=barrier_out" ++ [10], 16, Reader [99] 3, []) /\
  chars "cmd=barrier_out" ++ [10] = first_line 1023 (stream io).
Proof.
  split; [reflexivity|].
  exact (proj1 (readline_spec 3 [] 1024 reader0 [Eintr; Bytes (chars "cmd=b"); Bytes (chars "arrier_out" ++ [10; 99])]
                (or_introl eq_refl))).
Defined.

(** ** Reading back a reply *)

Definition plain_key (k : list Z) : Prop := k <> [] /\ Forall (fun c => key_stop c = false) k /\ zlen k < MAXKEYLEN.
Definition plain_value (v : list Z) : Prop := Forall (fun c => value_stop c = false) v /\ zlen v < MAXVALLEN.

Definition pair_text (kv : list Z * list Z) : list Z := kv.1 ++ [EQUALS] ++ kv.2.

(** The pairs of a reply, separated by spaces and ended by a newline. *)
Fixpoint reply_text (kvs : keyvals) : list Z :=
  match kvs with
  | [] => [NEWLINE]
  | [kv] => pair_text kv ++ [NEWLINE]
  | kv :: kvs => pair_text kv ++ [SPACE] ++ reply_text kvs
  end.

Lemma span_stop stop l p : Forall (fun c => stop c = false) l ->
  match p with [] => True | c :: _ => stop c = true end -> span stop (l ++ p) = (l, p).
Proof.
  intros Hl Hp. induction Hl as [|c l Hc _ IH]; simpl; [|by rewrite Hc, IH].
  destruct p as [|c p]; [done|]. simpl. by rewrite Hp.
Qed.

Lemma skip_spaces_plain c p : key_stop c = false -> skip_spaces (c :: p) = c :: p.
Proof. unfold key_stop. simpl. destruct (c =? SPACE); [done|]. done. Qed.

(** One iteration on a plain pair followed by a separator. *)
Lemma parse_pair fuel k v d p tab : plain_key k -> plain_value v -> d = SPACE \/ d = NEWLINE -> zlen tab < TAB_SIZE ->
  parse_loop (S fuel) (pair_text (k, v) ++ d :: p) tab =
  if d =? SPACE then parse_loop fuel (d :: p) (tab ++ [(k, v)]) else Parsed PMI_SUCCESS (tab ++ [(k, v)]).
Proof.
  intros (Hne & Hk & Hkl) (Hv & Hvl) Hd Ht. destruct k as [|c k]; [done|].
  pose proof (Forall_inv Hk) as Hc. cbn beta in Hc.
  cbn [parse_loop]. unfold pair_text. cbn [fst snd]. rewrite <- !app_assoc.
  change ((c :: k) ++ [EQUALS] ++ v ++ d :: p) with (c :: (k ++ [EQUALS] ++ v ++ d :: p)).
  rewrite skip_spaces_plain by done.
  assert (c =? EQUALS = false /\ c =? NEWLINE = false) as [-> ->]
    by (unfold key_stop in Hc; by destruct (c =? SPACE), (c =? EQUALS), (c =? NEWLINE)).
  change (c :: (k ++ [EQUALS] ++ v ++ d :: p)) with ((c :: k) ++ [EQUALS] ++ v ++ d :: p).
  rewrite (span_stop key_stop (c :: k)) by done. change ([EQUALS] ++ v ++ d :: p) with (EQUALS :: (v ++ d :: p)).
  cbv iota beta. rewrite Z.eqb_refl. cbn [negb]. rewrite Z.geb_leb, (proj2 (Z.leb_gt TAB_SIZE _)) by done.
  rewrite (span_stop value_stop v) by (done || by destruct Hd as [-> | ->]).
  rewrite Z.geb_leb, (proj2 (Z.leb_gt MAXVALLEN _)) by done.
  rewrite strncpy_fits by done. cbn [fst].
  assert (take (length v) (MPL_strncpy [] (v ++ d :: p) MAXVALLEN).1 = v) as Ev.
  { destruct (Z.lt_ge_cases (zlen (v ++ d :: p)) MAXVALLEN).
    - rewrite strncpy_fits by done. cbn [fst]. by rewrite take_app_length.
    - rewrite strncpy_truncates by (unfold MAXVALLEN in *; lia). cbn [fst]. rewrite take_take, Nat.min_l.
      + by rewrite take_app_length.
      + unfold zlen, MAXVALLEN in *. lia. }
  by rewrite Ev.
Qed.

Lemma parse_reply kvs : forall tab fuel, Forall (fun kv => plain_key kv.1 /\ plain_value kv.2) kvs ->
  zlen tab + zlen kvs <= TAB_SIZE -> (length kvs < fuel)%nat ->
  parse_loop fuel (reply_text kvs) tab = Parsed PMI_SUCCESS (tab ++ kvs) /\
  parse_loop fuel (SPACE :: reply_text kvs) tab = Parsed PMI_SUCCESS (tab ++ kvs).
Proof.
  induction kvs as [|[k v] kvs IH]; intros tab fuel HF Hlen Hfuel; (destruct fuel as [|fuel]; [lia|]).
  - rewrite app_nil_r. done.
  - apply list.Forall_cons in HF as [[Hk Hv] HF]. cbn [fst snd] in *. rewrite zlen_cons in Hlen. pose proof (zlen_nonneg kvs).
    assert (parse_loop (S fuel) (reply_text ((k, v) :: kvs)) tab = Parsed PMI_SUCCESS (tab ++ (k, v) :: kvs)) as E.
    { assert (zlen (tab ++ [(k, v)]) = zlen tab + 1) as El by (rewrite zlen_app; done).
      destruct kvs as [|kv kvs].
      - cbn [reply_text]. rewrite parse_pair by (done || by right || lia). done.
      - change (reply_text ((k, v) :: kv :: kvs)) with (pair_text (k, v) ++ SPACE :: reply_text (kv :: kvs)).
        rewrite parse_pair by (done || by left || lia). rewrite Z.eqb_refl.
        destruct (IH (tab ++ [(k, v)]) fuel HF) as [_ E]; [lia|simpl in *; lia|].
        rewrite E. by rewrite <- app_assoc. }
    split; [done|]. cbn [parse_loop]. change (skip_spaces (SPACE :: reply_text ((k, v) :: kvs)))
      with (skip_spaces (reply_text ((k, v) :: kvs))). exact E.
Qed.

Lemma length_reply kvs : (length kvs <= length (reply_text kvs))%nat.
Proof.
  assert (forall kv, 1 <= length (pair_text kv))%nat as Hp by (intros; unfold pair_text; rewrite !length_app; simpl; lia).
  induction kvs as [|kv kvs IH]; [simpl; lia|]. specialize (Hp kv). destruct kvs as [|kv' kvs].
  - change (reply_text [kv]) with (pair_text kv ++ [NEWLINE]). rewrite length_app. simpl. lia.
  - change (reply_text (kv :: kv' :: kvs)) with (pair_text kv ++ [SPACE] ++ reply_text (kv' :: kvs)).
    rewrite !length_app. simpl in *. lia.
Qed.

Lemma parse_reply_text kvs : Forall (fun kv => plain_key kv.1 /\ plain_value kv.2) kvs -> zlen kvs <= TAB_SIZE ->
  PMIU_parse_keyvals (reply_text kvs) = Parsed PMI_SUCCESS kvs.
Proof.
  intros HF Hlen. unfold PMIU_parse_keyvals. apply (parse_reply kvs [] (S (length (reply_text kvs)))); [done|done|].
  pose proof (length_reply kvs). lia.
Qed.

(** A hypothesis, or a literal. *)
Ltac plain := first [assumption | split; [repeat constructor | vm_compute; reflexivity]].

Lemma getval_here k v tab valstr : plain_value v -> PMIU_getval ((k, v) :: tab) k valstr PMIU_MAXLINE = (v, true).
Proof. intros [_ Hv]. simpl. unfold str_eqb. rewrite bool_decide_eq_true_2 by done. by rewrite strncpy_fits. Qed.

Lemma getval_there k k' v tab valstr n : k <> k' -> PMIU_getval ((k', v) :: tab) k valstr n = PMIU_getval tab k valstr n.
Proof. intros Hk. simpl. unfold str_eqb. by rewrite bool_decide_eq_false_2. Qed.

(** C37: parsing the text of a reply gives its pairs back, and each key then reads as the value
    of its first pair: up to 64 pairs, keys without blanks or "=", values without blanks,
    all within their sizes. *)
Theorem parse_keyvals_roundtrip (kvs : keyvals) :
  Forall (fun kv => plain_key kv.1 /\ plain_value kv.2) kvs -> zlen kvs <= TAB_SIZE ->
  PMIU_parse_keyvals (reply_text kvs) = Parsed PMI_SUCCESS kvs /\
  forall pre k v post, kvs = pre ++ (k, v) :: post -> Forall (fun kv => kv.1 <> k) pre ->
    PMIU_getval kvs k [] PMIU_MAXLINE = (v, true).
Proof.
  intros HF Hlen. split.
  - by apply parse_reply_text.
  - intros pre k v post -> Hpre. induction Hpre as [|[k' v'] pre Hk' _ IH]; cbn [app] in *.
    + apply list.Forall_cons in HF as [[_ Hv] _]. by apply getval_here.
    + apply list.Forall_cons in HF as [_ HF]. rewrite zlen_cons in Hlen.
      rewrite getval_there by (intros E; by apply Hk'). apply IH; first [exact HF|lia].
Qed.

Definition reply_example : keyvals := [(chars "cmd", chars "get_result"); (chars "rc", chars "0"); (chars "value", chars "a=b")].

Lemma parse_keyvals_roundtrip_witness :
  PMIU_parse_keyvals (chars "cmd=get_result rc=0 value=a=b" ++ [10]) = Parsed PMI_SUCCESS reply_example /\
  PMIU_getval reply_example (chars "rc") [] PMIU_MAXLINE = (chars "0", true).
Proof.
  destruct (parse_keyvals_roundtrip reply_example) as [H1 H2].
  - repeat constructor; discriminate.
  - vm_compute; discriminate.
  - split; [exact H1|]. eapply (H2 [(chars "cmd", chars "get_result")]); [reflexivity|]. repeat constructor. discriminate.
Defined.

(** Nothing bounds the number of pairs: a reply of 65 pairs, well within the length of a
    line, writes past the end of the table. *)
Lemma parse_keyvals_overflow :
  let reply := reply_text (replicate 65 ([97], [])) in
  zlen reply < PMIU_MAXLINE /\ PMIU_parse_keyvals reply = TabOverflow.
Proof. split; [vm_compute; reflexivity|vm_compute; reflexivity]. Qed.
