(* ===== verification/SimplePmi.v ===== *)
(** * The PMI-1 client ([pmi-simple/simple_pmi.c])

    The client of the process manager: a line-based request/response protocol over one
    connection.  The process manager is a parameter: its state, and the reads it makes
    possible on the connection in answer to each line it is sent.  The calls run in a
    state monad over the static variables of the file; the monad fails when the
    key-value table of [simple_pmiutil.c] is written out of bounds.  The build is the one
    configure makes, with [USE_PMI_PORT]; the sockets are parameters. *)

From Stdlib Require Import Ascii.
From stdpp Require Import strings pretty.
From S2P Require Import Prelude ErrState Util PmiUtil.
Local Open Scope Z_scope.

Inductive PMIState :=
| PMI_UNINITIALIZED | SINGLETON_INIT_BUT_NO_PM | NORMAL_INIT_WITH_PM | SINGLETON_INIT_WITH_PM.
#[export] Instance PMIState_eq_dec : EqDecision PMIState.
Proof. solve_decision. Defined.

(** [PMI_initialized > SINGLETON_INIT_BUT_NO_PM] *)
Definition with_pm (i : PMIState) : bool :=
  match i with NORMAL_INIT_WITH_PM | SINGLETON_INIT_WITH_PM => true | _ => false end.

(** The process: [p_rank] and so on are [PMI_rank] and so on; the last four fields are the
    connection (reader, pending reads), the table of the last reply, and the manager. *)
Record pmi (P : Type) := Pmi {
  p_fd : Z; p_size : Z; p_rank : Z; p_initialized : PMIState;
  p_kvsname_max : Z; p_keylen_max : Z; p_vallen_max : Z; p_debug : Z; p_spawned : Z;
  cached_singinit_inuse : bool; cached_singinit_key : list Z; cached_singinit_val : list Z;
  singinit_kvsname : list Z; firstcall : bool;
  p_reader : reader; p_io : list read_result; p_tab : keyvals; p_manager : P }.
Arguments Pmi {P}.
Arguments p_fd {P}. Arguments p_size {P}. Arguments p_rank {P}. Arguments p_initialized {P}.
Arguments p_kvsname_max {P}. Arguments p_keylen_max {P}. Arguments p_vallen_max {P}.
Arguments p_debug {P}. Arguments p_spawned {P}. Arguments cached_singinit_inuse {P}.
Arguments cached_singinit_key {P}. Arguments cached_singinit_val {P}. Arguments singinit_kvsname {P}.
Arguments firstcall {P}. Arguments p_reader {P}. Arguments p_io {P}. Arguments p_tab {P}. Arguments p_manager {P}.

(** The state when the program starts. *)
Definition pmi_start {P} (manager : P) : pmi P :=
  Pmi (-1) 1 0 PMI_UNINITIALIZED 0 0 0 0 0 false [] [] [] true reader0 [] [] manager.

(** ** The monad *)

Abbreviation M P := (ST (pmi P)).
Local Open Scope st_scope.

(** Assignments to the static variables. *)
Definition set_conn {P} (r : reader) (io : list read_result) (s : pmi P) : pmi P :=
  Pmi (p_fd s) (p_size s) (p_rank s) (p_initialized s) (p_kvsname_max s) (p_keylen_max s) (p_vallen_max s)
      (p_debug s) (p_spawned s) (cached_singinit_inuse s) (cached_singinit_key s) (cached_singinit_val s)
      (singinit_kvsname s) (firstcall s) r io (p_tab s) (p_manager s).
Definition set_manager {P} (io : list read_result) (p : P) (s : pmi P) : pmi P :=
  Pmi (p_fd s) (p_size s) (p_rank s) (p_initialized s) (p_kvsname_max s) (p_keylen_max s) (p_vallen_max s)
      (p_debug s) (p_spawned s) (cached_singinit_inuse s) (cached_singinit_key s) (cached_singinit_val s)
      (singinit_kvsname s) (firstcall s) (p_reader s) io (p_tab s) p.
Definition set_tab {P} (t : keyvals) (s : pmi P) : pmi P :=
  Pmi (p_fd s) (p_size s) (p_rank s) (p_initialized s) (p_kvsname_max s) (p_keylen_max s) (p_vallen_max s)
      (p_debug s) (p_spawned s) (cached_singinit_inuse s) (cached_singinit_key s) (cached_singinit_val s)
      (singinit_kvsname s) (firstcall s) (p_reader s) (p_io s) t (p_manager s).
Definition set_fd {P} (fd : Z) (s : pmi P) : pmi P :=
  Pmi fd (p_size s) (p_rank s) (p_initialized s) (p_kvsname_max s) (p_keylen_max s) (p_vallen_max s)
      (p_debug s) (p_spawned s) (cached_singinit_inuse s) (cached_singinit_key s) (cached_singinit_val s)
      (singinit_kvsname s) (firstcall s) (p_reader s) (p_io s) (p_tab s) (p_manager s).
Definition set_initialized {P} (i : PMIState) (s : pmi P) : pmi P :=
  Pmi (p_fd s) (p_size s) (p_rank s) i (p_kvsname_max s) (p_keylen_max s) (p_vallen_max s)
      (p_debug s) (p_spawned s) (cached_singinit_inuse s) (cached_singinit_key s) (cached_singinit_val s)
      (singinit_kvsname s) (firstcall s) (p_reader s) (p_io s) (p_tab s) (p_manager s).
Definition set_job {P} (size rank debug : Z) (s : pmi P) : pmi P :=
  Pmi (p_fd s) size rank (p_initialized s) (p_kvsname_max s) (p_keylen_max s) (p_vallen_max s)
      debug (p_spawned s) (cached_singinit_inuse s) (cached_singinit_key s) (cached_singinit_val s)
      (singinit_kvsname s) (firstcall s) (p_reader s) (p_io s) (p_tab s) (p_manager s).
Definition set_maxes {P} (kvsname keylen vallen : Z) (s : pmi P) : pmi P :=
  Pmi (p_fd s) (p_size s) (p_rank s) (p_initialized s) kvsname keylen vallen
      (p_debug s) (p_spawned s) (cached_singinit_inuse s) (cached_singinit_key s) (cached_singinit_val s)
      (singinit_kvsname s) (firstcall s) (p_reader s) (p_io s) (p_tab s) (p_manager s).
Definition set_spawned {P} (b : Z) (s : pmi P) : pmi P :=
  Pmi (p_fd s) (p_size s) (p_rank s) (p_initialized s) (p_kvsname_max s) (p_keylen_max s) (p_vallen_max s)
      (p_debug s) b (cached_singinit_inuse s) (cached_singinit_key s) (cached_singinit_val s)
      (singinit_kvsname s) (firstcall s) (p_reader s) (p_io s) (p_tab s) (p_manager s).
Definition set_cached {P} (inuse : bool) (key val : list Z) (s : pmi P) : pmi P :=
  Pmi (p_fd s) (p_size s) (p_rank s) (p_initialized s) (p_kvsname_max s) (p_keylen_max s) (p_vallen_max s)
      (p_debug s) (p_spawned s) inuse key val
      (singinit_kvsname s) (firstcall s) (p_reader s) (p_io s) (p_tab s) (p_manager s).
Definition set_singinit {P} (kvsname : list Z) (first : bool) (s : pmi P) : pmi P :=
  Pmi (p_fd s) (p_size s) (p_rank s) (p_initialized s) (p_kvsname_max s) (p_keylen_max s) (p_vallen_max s)
      (p_debug s) (p_spawned s) (cached_singinit_inuse s) (cached_singinit_key s) (cached_singinit_val s)
      kvsname first (p_reader s) (p_io s) (p_tab s) (p_manager s).

(** ** Library calls *)

(** [snprintf(buf, n, ...)] of a text: what fits; the return value is never negative. *)
Definition snprintf (n : Z) (text : list Z) : list Z := take (Z.to_nat (n - 1)) text.

(** Decimal output and input. *)
Definition dec (z : Z) : list Z := chars (pretty z).
Definition is_digit (c : Z) : bool := (48 <=? c) && (c <=? 57).
Fixpoint digits (s : list Z) (acc : Z) : Z :=
  match s with
  | c :: s => if is_digit c then digits s (10 * acc + (c - 48)) else acc
  | [] => acc
  end.
Definition atoi (s : list Z) : Z :=
  match skip_spaces s with
  | c :: s' => if c =? 45 then - digits s' 0 else if c =? 43 then digits s' 0 else digits (c :: s') 0
  | [] => 0
  end.

(** The request texts: literal text with strings in between. *)
Definition nl : list Z := [NEWLINE].

Section client.
Context {P : Type}.
(** What the manager does with a line it receives: the reads it makes possible. *)
Context (manager : list Z -> P -> list read_result * P).
(** What [write] answers on the connection. *)
Context (written : Z -> Z).

Definition writeline (buf : list Z) : M P Z :=
  s <- get ;
  match PMIU_writeline written buf with
  | (rc, Some line) =>
      let '(reads, p) := manager line (p_manager s) in
      put (set_manager (p_io s ++ reads) p s) ;; ret rc
  | (rc, None) => ret rc
  end.

(** The characters in the buffer and the return value. *)
Definition readline (buf : list Z) (maxlen : Z) : M P (list Z * Z) :=
  s <- get ;
  let '(line, n, r, io) := PMIU_readline (p_fd s) buf maxlen (p_reader s) (p_io s) in
  put (set_conn r io s) ;; ret (line, n).

Definition parse_keyvals (st : list Z) : M P Z :=
  fun s => match PMIU_parse_keyvals st with
           | Parsed rc tab => Some (rc, set_tab tab s)
           | TabOverflow => None
           end.

Definition getval (key : list Z) (valstr : list Z) (vallen : Z) : M P (list Z * bool) :=
  s <- get ; ret (PMIU_getval (p_tab s) key valstr vallen).

Definition GetResponse (request expectedCmd : list Z) (checkRc : bool) : M P Z :=
  err <- writeline request ;
  if negb (err =? 0) then ret err
  else
    r <- readline [] PMIU_MAXLINE ;
    let '(recvbuf, n) := r in
    if n <=? 0 then ret PMI_FAIL
    else
      err <- parse_keyvals recvbuf ;
      if negb (err =? 0) then ret err
      else
        c <- getval (chars "cmd") [] PMIU_MAXLINE ;
        let '(cmdName, p) := c in
        if negb p then ret PMI_FAIL
        else if negb (str_eqb expectedCmd cmdName) then ret PMI_FAIL
        else if checkRc then
          c <- getval (chars "rc") cmdName PMIU_MAXLINE ;
          let '(rc, p) := c in
          if p && negb (str_eqb rc (chars "0")) then ret PMI_FAIL else ret err
        else ret err.

Definition PMI_Abort (exit_code : Z) : M P Z :=
  GetResponse (snprintf PMIU_MAXLINE (chars "cmd=abort exitcode=" ++ dec exit_code ++ nl)) [] false ;;
  ret PMI_FAIL.

(** An abort the manager survives does not stop the caller. *)
Definition PMII_getmaxes : M P Z :=
  rc <- writeline (chars "cmd=init pmi_version=1 pmi_subversion=1" ++ nl) ;
  if negb (rc =? 0) then ret PMI_FAIL
  else
    r <- readline [] PMIU_MAXLINE ;
    let '(buf, err) := r in
    (if err <? 0 then PMI_Abort (-1) else ret 0) ;;
    parse_keyvals buf ;;
    c <- getval (chars "cmd") [] PMIU_MAXLINE ;
    (if negb (str_eqb c.1 (chars "response_to_init")) then PMI_Abort (-1)
     else
       c <- getval (chars "rc") buf PMIU_MAXLINE ;
       if negb (str_eqb c.1 (chars "0")) then PMI_Abort (-1) else ret 0) ;;
    err <- GetResponse (chars "cmd=get_maxes" ++ nl) (chars "maxes") false ;
    if err =? PMI_SUCCESS then
      a <- getval (chars "kvsname_max") [] PMIU_MAXLINE ;
      b <- getval (chars "keylen_max") [] PMIU_MAXLINE ;
      c <- getval (chars "vallen_max") [] PMIU_MAXLINE ;
      modify (set_maxes (atoi a.1) (atoi b.1) (atoi c.1)) ;;
      ret err
    else ret err.

(** ** Connecting *)

(** The environment variables, the connection to a host and port (a descriptor, or -1),
    the connection [mpiexec] makes back to a singleton (negative when a socket call
    fails), and the process id. *)
Context (getenv : string -> option (list Z)) (connect_to_pm : list Z -> Z -> Z) (singinit_accept : Z) (getpid : Z).

(** One [cmd=set key=n] line of the handshake: -1, or the value. *)
Definition read_set (key : list Z) : M P (option Z) :=
  r <- readline [] PMIU_MAXLINE ;
  let '(buf, err) := r in
  if err <? 0 then ret None
  else
    parse_keyvals buf ;;
    c <- getval (chars "cmd") [] PMIU_MAXLINE ;
    if negb (str_eqb c.1 (chars "set")) then ret None
    else v <- getval key [] PMIU_MAXLINE ; ret (Some (atoi v.1)).

Definition PMII_Set_from_port (id : Z) : M P Z :=
  err <- writeline (snprintf PMIU_MAXLINE (chars "cmd=initack pmiid=" ++ dec id ++ nl)) ;
  if negb (err =? 0) then ret PMI_FAIL
  else
    r <- readline [] PMIU_MAXLINE ;
    let '(buf, err) := r in
    if err <? 0 then ret PMI_FAIL
    else
      parse_keyvals buf ;;
      c <- getval (chars "cmd") [] PMIU_MAXLINE ;
      if negb (str_eqb c.1 (chars "initack")) then ret PMI_FAIL
      else
        v <- read_set (chars "size") ;
        match v with
        | None => ret PMI_FAIL
        | Some size =>
            modify (fun s => set_job size (p_rank s) (p_debug s) s) ;;
            v <- read_set (chars "rank") ;
            match v with
            | None => ret PMI_FAIL
            | Some rank =>
                modify (fun s => set_job (p_size s) rank (p_debug s) s) ;;
                v <- read_set (chars "debug") ;
                match v with
                | None => ret PMI_FAIL
                | Some debug => modify (fun s => set_job (p_size s) (p_rank s) debug s) ;; ret PMI_SUCCESS
                end
            end
        end.

Definition MAXHOSTNAME : nat := 256.

(** The part of [hostname:port] before the colon, as far as it fits. *)
Fixpoint split_host (room : nat) (p : list Z) : list Z * list Z :=
  match room, p with
  | S room, c :: q => if c =? 58 then ([], p) else let '(h, rest) := split_host room q in (c :: h, rest)
  | _, _ => ([], p)
  end.

(** The return value and [*notset]. *)
Definition getPMIFD (notset : bool) : M P (Z * bool) :=
  modify (set_fd (-1)) ;;
  match getenv "PMI_FD" with
  | Some p => modify (set_fd (atoi p)) ;; ret (PMI_SUCCESS, notset)
  | None =>
      match getenv "PMI_PORT" with
      | Some p =>
          match split_host MAXHOSTNAME p with
          | (hostname, c :: port) =>
              if c =? 58 then
                let fd := connect_to_pm hostname (atoi port) in
                modify (set_fd fd) ;;
                if fd <? 0 then ret (PMI_FAIL, notset)
                else match getenv "PMI_ID" with
                     | Some id => PMII_Set_from_port (atoi id) ;; ret (PMI_SUCCESS, false)
                     | None => ret (PMI_SUCCESS, notset)
                     end
              else ret (PMI_FAIL, notset)
          | (_, []) => ret (PMI_FAIL, notset)
          end
      | None => ret (PMI_SUCCESS, notset)
      end
  end.

Definition env_int (name : string) (default_ : Z) : Z :=
  match getenv name with Some p => atoi p | None => default_ end.

(** The return value and [*spawned], which is [spawned0] before the call. *)
Definition PMI_Init (spawned0 : Z) : M P (Z * Z) :=
  modify (set_initialized PMI_UNINITIALIZED) ;;
  modify (fun s => set_job (p_size s) (p_rank s) (env_int "PMI_DEBUG" (p_debug s)) s) ;;
  r <- getPMIFD true ;
  let '(rc, notset) := r in
  s <- get ;
  if negb (rc =? 0) then ret (rc, spawned0)
  else if p_fd s =? -1 then
    (* Singleton init: process not started with mpiexec *)
    modify (fun s => set_maxes 256 256 256 (set_initialized SINGLETON_INIT_BUT_NO_PM (set_job 1 0 (p_debug s) s))) ;;
    ret (PMI_SUCCESS, 0)
  else
    (if notset
     then modify (set_job (env_int "PMI_SIZE" 1) (env_int "PMI_RANK" 0) (env_int "PMI_DEBUG" 0))
     else ret tt) ;;
    ready <-
      (if negb (env_int "PMI_TOTALVIEW" 0 =? 0) then
         r <- readline [] PMIU_MAXLINE ;
         parse_keyvals r.1 ;;
         c <- getval (chars "cmd") [] PMIU_MAXLINE ;
         ret (str_eqb c.1 (chars "tv_ready"))
       else ret true) ;
    if negb ready then ret (PMI_FAIL, spawned0)
    else
      PMII_getmaxes ;;
      let spawned := env_int "PMI_SPAWNED" 0 in
      modify (set_spawned spawned) ;;
      s <- get ;
      (if decide (p_initialized s = PMI_UNINITIALIZED) then modify (set_initialized NORMAL_INIT_WITH_PM) else ret tt) ;;
      ret (PMI_SUCCESS, if negb (spawned =? 0) then 1 else 0).

(** ** Group functions: the return value and the answer *)

Definition PMI_Initialized : M P (Z * bool) :=
  s <- get ; ret (PMI_SUCCESS, negb (bool_decide (p_initialized s = PMI_UNINITIALIZED))).
Definition PMI_Get_size : M P (Z * Z) :=
  s <- get ; ret (PMI_SUCCESS, if decide (p_initialized s = PMI_UNINITIALIZED) then 1 else p_size s).
Definition PMI_Get_rank : M P (Z * Z) :=
  s <- get ; ret (PMI_SUCCESS, if decide (p_initialized s = PMI_UNINITIALIZED) then 0 else p_rank s).

Definition PMI_Barrier : M P Z :=
  s <- get ;
  if with_pm (p_initialized s) then GetResponse (chars "cmd=barrier_in" ++ nl) (chars "barrier_out") false
  else ret PMI_SUCCESS.

(** The connection is shut down and closed after the exchange. *)
Definition PMI_Finalize : M P Z :=
  s <- get ;
  if with_pm (p_initialized s) then GetResponse (chars "cmd=finalize" ++ nl) (chars "finalize_ack") false
  else ret PMI_SUCCESS.

(** ** The key-value space *)

Definition PMI_KVS_Put (kvsname key value : list Z) : M P Z :=
  s <- get ;
  if decide (p_initialized s = SINGLETON_INIT_BUT_NO_PM) then
    if cached_singinit_inuse s then ret PMI_FAIL
    else
      let '(k, rc) := MPL_strncpy (cached_singinit_key s) key (p_keylen_max s) in
      modify (set_cached false k (cached_singinit_val s)) ;;
      if negb (rc =? 0) then ret PMI_FAIL
      else
        let '(v, rc) := MPL_strncpy (cached_singinit_val s) value (p_vallen_max s) in
        modify (set_cached false k v) ;;
        if negb (rc =? 0) then ret PMI_FAIL
        else modify (set_cached true k v) ;; ret PMI_SUCCESS
  else
    GetResponse (snprintf PMIU_MAXLINE
                   (chars "cmd=put kvsname=" ++ kvsname ++ chars " key=" ++ key ++ chars " value=" ++ value ++ nl))
                (chars "put_result") true.

Definition PMI_KVS_Commit (kvsname : list Z) : M P Z := ret PMI_SUCCESS.

Definition PMII_singinit : M P Z :=
  modify (set_fd singinit_accept) ;;
  if singinit_accept <? 0 then ret PMI_FAIL
  else
    r <- readline [] PMIU_MAXLINE ;
    parse_keyvals r.1 ;;
    c <- getval (chars "cmd") [] PMIU_MAXLINE ;
    if negb (str_eqb c.1 (chars "singinit")) then ret PMI_FAIL
    else
      c <- getval (chars "authtype") c.1 PMIU_MAXLINE ;
      if c.2 && negb (str_eqb c.1 (chars "none")) then ret PMI_FAIL
      else
        rc <- GetResponse (chars "cmd=singinit pmi_version=1 pmi_subversion=1 stdio=yes authtype=none" ++ nl)
                          (chars "singinit_info") false ;
        if negb (rc =? 0) then ret PMI_FAIL
        else
          c <- getval (chars "versionok") c.1 PMIU_MAXLINE ;
          if c.2 && negb (str_eqb c.1 (chars "yes")) then ret PMI_FAIL
          else
            s <- get ;
            name <- getval (chars "kvsname") (singinit_kvsname s) 256 ;
            modify (set_singinit name.1 (firstcall s)) ;;
            ret PMI_SUCCESS.

Definition PMIi_InitIfSingleton : M P Z :=
  s <- get ;
  if negb (bool_decide (p_initialized s = SINGLETON_INIT_BUT_NO_PM)) || negb (firstcall s) then ret PMI_SUCCESS
  else
    modify (set_singinit (singinit_kvsname s) false) ;;
    rc <- PMII_singinit ;
    if rc <? 0 then ret PMI_FAIL
    else
      modify (fun s => set_spawned 0 (set_job 1 0 0 (set_initialized SINGLETON_INIT_WITH_PM s))) ;;
      PMII_getmaxes ;;
      s <- get ;
      PMI_KVS_Put (singinit_kvsname s) (cached_singinit_key s) (cached_singinit_val s) ;;
      ret PMI_SUCCESS.

(** The return value and the string in [value]. *)
Definition PMI_KVS_Get (kvsname key value : list Z) (length : Z) : M P (Z * list Z) :=
  rc <- PMIi_InitIfSingleton ;
  if negb (rc =? 0) then ret (PMI_FAIL, value)
  else
    let buf := snprintf PMIU_MAXLINE (chars "cmd=get kvsname=" ++ kvsname ++ chars " key=" ++ key ++ nl) in
    err <- GetResponse buf (chars "get_result") false ;
    if err =? PMI_SUCCESS then
      c <- getval (chars "rc") buf PMIU_MAXLINE ;
      if atoi c.1 =? 0 then v <- getval (chars "value") value length ; ret (PMI_SUCCESS, v.1)
      else ret (PMI_FAIL, value)
    else ret (err, value).

Definition PMI_KVS_Get_my_name (kvsname : list Z) (length : Z) : M P (Z * list Z) :=
  s <- get ;
  if decide (p_initialized s = SINGLETON_INIT_BUT_NO_PM)
  then ret (PMI_SUCCESS, snprintf length (chars "singinit_kvs_" ++ dec getpid ++ chars "_0"))
  else
    err <- GetResponse (chars "cmd=get_my_kvsname" ++ nl) (chars "my_kvsname") false ;
    if err =? PMI_SUCCESS then v <- getval (chars "kvsname") kvsname length ; ret (err, v.1)
    else ret (err, kvsname).

(** [maxlen] is [None] for a NULL pointer. *)
Definition get_max (field : pmi P -> Z) (maxlen : option Z) : M P (Z * option Z) :=
  s <- get ;
  match maxlen with
  | None => ret (PMI_ERR_INVALID_ARG, None)
  | Some _ => ret (PMI_SUCCESS, Some (field s))
  end.
Definition PMI_KVS_Get_name_length_max : option Z -> M P (Z * option Z) := get_max p_kvsname_max.
Definition PMI_KVS_Get_key_length_max : option Z -> M P (Z * option Z) := get_max p_keylen_max.
Definition PMI_KVS_Get_value_length_max : option Z -> M P (Z * option Z) := get_max p_vallen_max.

(** ** Universe, names *)

Definition PMI_Get_universe_size (size : Z) : M P (Z * Z) :=
  rc <- PMIi_InitIfSingleton ;
  if negb (rc =? 0) then ret (PMI_FAIL, size)
  else
    s <- get ;
    if with_pm (p_initialized s) then
      err <- GetResponse (chars "cmd=get_universe_size" ++ nl) (chars "universe_size") false ;
      if err =? PMI_SUCCESS then c <- getval (chars "size") [] PMIU_MAXLINE ; ret (PMI_SUCCESS, atoi c.1)
      else ret (err, size)
    else ret (PMI_SUCCESS, 1).

Definition PMI_Get_appnum (appnum : Z) : M P (Z * Z) :=
  s <- get ;
  if with_pm (p_initialized s) then
    err <- GetResponse (chars "cmd=get_appnum" ++ nl) (chars "appnum") false ;
    if err =? PMI_SUCCESS then c <- getval (chars "appnum") [] PMIU_MAXLINE ; ret (PMI_SUCCESS, atoi c.1)
    else ret (err, appnum)
  else ret (PMI_SUCCESS, -1).

(** A name-service command: the return value, and whether the manager granted it. *)
Definition name_command (text expected : list Z) : M P (Z * bool) :=
  s <- get ;
  if with_pm (p_initialized s) then
    err <- GetResponse (snprintf PMIU_MAXLINE text) expected false ;
    if err =? PMI_SUCCESS then
      c <- getval (chars "rc") [] PMIU_MAXLINE ;
      if negb (str_eqb c.1 (chars "0")) then ret (PMI_FAIL, false) else ret (PMI_SUCCESS, true)
    else ret (PMI_SUCCESS, false)
  else ret (PMI_FAIL, false).

Definition PMI_Publish_name (service_name port : list Z) : M P Z :=
  r <- name_command (chars "cmd=publish_name service=" ++ service_name ++ chars " port=" ++ port ++ nl)
         (chars "publish_result") ;
  ret r.1.
Definition PMI_Unpublish_name (service_name : list Z) : M P Z :=
  r <- name_command (chars "cmd=unpublish_name service=" ++ service_name ++ nl) (chars "unpublish_result") ;
  ret r.1.
Definition MPI_MAX_PORT_NAME : Z := 256.
Definition PMI_Lookup_name (service_name port : list Z) : M P (Z * list Z) :=
  r <- name_command (chars "cmd=lookup_name service=" ++ service_name ++ nl) (chars "lookup_result") ;
  if r.2 then p <- getval (chars "port") port MPI_MAX_PORT_NAME ; ret (r.1, p.1)
  else ret (r.1, port).
End client.

(** ** A request and its reply *)

(** Nothing is waiting to be read on the connection. *)
Definition idle {P} (s : pmi P) : Prop := readbuf (p_reader s) = [] /\ p_io s = [].

(** The state after an exchange: the table of the reply, the manager's new state. *)
Definition replied {P} (kvs : keyvals) (p : P) (s : pmi P) : pmi P :=
  set_tab kvs (set_conn (Reader [] (p_fd s)) [] (set_manager [] p s)).

Definition plain_reply (kvs : keyvals) : Prop :=
  Forall (fun kv => plain_key kv.1 /\ plain_value kv.2) kvs /\ zlen kvs <= TAB_SIZE /\
  zlen (reply_text kvs) < PMIU_MAXLINE.

Lemma reply_text_line kvs : Forall (fun kv => plain_key kv.1 /\ plain_value kv.2) kvs ->
  exists l, reply_text kvs = l ++ [NEWLINE] /\ Forall (fun c => c <> NEWLINE) l.
Proof.
  assert (forall kv, plain_key kv.1 -> plain_value kv.2 -> Forall (fun c => c <> NEWLINE) (pair_text kv)) as Hp.
  { intros kv (_ & Hk & _) (Hv & _). unfold pair_text. apply Forall_app. split; [|apply Forall_app; split].
    - eapply list.Forall_impl; [exact Hk|]. intros c Hc ->. done.
    - repeat constructor. done.
    - eapply list.Forall_impl; [exact Hv|]. intros c Hc ->. done. }
  induction 1 as [|kv kvs [Hk Hv] HF (l & E & Hl)]; [exists []; split; [done|constructor]|].
  destruct kvs as [|kv' kvs]; [exists (pair_text kv); split; [done|auto]|].
  exists (pair_text kv ++ [SPACE] ++ l). change (reply_text (kv :: kv' :: kvs)) with (pair_text kv ++ [SPACE] ++ reply_text (kv' :: kvs)).
  rewrite E, <- !app_assoc. split; [done|]. apply Forall_app. split; [auto|]. by constructor.
Qed.

Lemma readline_whole l room : Forall (fun c => c <> NEWLINE) l -> (length l < room)%nat ->
  readline_loop room (l ++ [NEWLINE]) [] = (l ++ [NEWLINE], false, [], []).
Proof.
  intros Hl. revert room. induction Hl as [|c l Hc _ IH]; intros [|room] Hr; simpl in Hr; try lia; [done|].
  cbn [readline_loop app]. rewrite (proj2 (Z.eqb_neq c NEWLINE)) by done. rewrite IH by lia. done.
Qed.

Section exchange.
Context {P : Type} (manager : list Z -> P -> list read_result * P) (written : Z -> Z).
Context (Hwritten : forall n, 0 <= written n).

(** A line the client may send: it ends with its newline and is not too long. *)
Definition sendable (request : list Z) : Prop :=
  List.last request 0 = NEWLINE /\ zlen request <= PMIU_MAXLINE.

Lemma exchange request kvs p s : idle s -> sendable request -> plain_reply kvs ->
  manager request (p_manager s) = ([Bytes (reply_text kvs)], p) ->
  exists s', writeline manager written request s = Some (0, s') /\
    readline [] PMIU_MAXLINE s' = Some ((reply_text kvs, zlen (reply_text kvs)), set_conn (Reader [] (p_fd s)) [] (set_manager [] p s)) /\
    PMIU_parse_keyvals (reply_text kvs) = Parsed PMI_SUCCESS kvs.
Proof.
  intros [Hr Hio] [Hl Hlen] (Hp & Hn & Ht) Hm.
  exists (set_manager [Bytes (reply_text kvs)] p s).
  destruct (reply_text_line kvs Hp) as (l & E & Hlf). split; [|split].
  - unfold writeline, bind, get, PMIU_writeline. rewrite Z.gtb_ltb, (proj2 (Z.ltb_ge _ _)), Hl by lia.
    cbn [negb Z.eqb]. change (NEWLINE =? NEWLINE) with true. cbn [negb].
    rewrite (proj2 (Z.ltb_ge _ 0)) by done. rewrite Hm, Hio. done.
  - unfold readline, bind, get, PMIU_readline. cbn [set_manager p_fd p_reader p_io]. rewrite Hr.
    change (zlen (@nil Z) =? 0) with true. cbn [negb andb].
    replace (Z.to_nat (PMIU_MAXLINE - 1)) with (S (Z.to_nat (PMIU_MAXLINE - 2))) by (unfold PMIU_MAXLINE; lia).
    destruct (reply_text kvs) as [|c t] eqn:Et; [by destruct l|].
    change (readline_loop (S (Z.to_nat (PMIU_MAXLINE - 2))) [] [Bytes (c :: t)])
      with (readline_loop (S (Z.to_nat (PMIU_MAXLINE - 2))) (c :: t) []).
    rewrite E in *. rewrite readline_whole; [done..|]. rewrite zlen_app in Ht. unfold zlen, PMIU_MAXLINE in *. simpl in Ht. lia.
  - by apply parse_reply_text.
Qed.
(** A request that is granted. *)
Lemma GetResponse_ok request expected (checkRc : bool) kvs p s :
  idle s -> sendable request -> plain_reply kvs ->
  manager request (p_manager s) = ([Bytes (reply_text kvs)], p) ->
  PMIU_getval kvs (chars "cmd") [] PMIU_MAXLINE = (expected, true) ->
  (PMIU_getval kvs (chars "rc") expected PMIU_MAXLINE).1 = chars "0" \/ checkRc = false ->
  GetResponse manager written request expected checkRc s = Some (PMI_SUCCESS, replied kvs p s).
Proof.
  intros Hi Hs Hp Hm Hcmd Hrc. destruct (exchange _ _ _ _ Hi Hs Hp Hm) as (s1 & E1 & E2 & E3).
  unfold GetResponse, bind at 1. rewrite E1. cbn [negb Z.eqb]. unfold bind at 1. rewrite E2.
  assert (0 < zlen (reply_text kvs)) as Hpos.
  { destruct (reply_text_line kvs) as (l & -> & _); [apply Hp|]. rewrite zlen_app. pose proof (zlen_nonneg l). change (zlen [NEWLINE]) with 1. lia. }
  rewrite (proj2 (Z.leb_gt _ 0)) by done. unfold bind at 1, parse_keyvals. rewrite E3. cbn [negb Z.eqb PMI_SUCCESS].
  unfold bind at 1, getval at 1, bind at 1, get, ret at 1. cbn [p_tab set_tab]. rewrite Hcmd. cbn [negb].
  unfold str_eqb at 1. rewrite bool_decide_eq_true_2 by done. cbn [negb].
  destruct checkRc; [|done]. destruct Hrc as [Hrc|]; [|done].
  unfold bind at 1, getval, bind at 1, get, ret at 1. cbn [p_tab set_tab].
  destruct (PMIU_getval kvs (chars "rc") expected PMIU_MAXLINE) as [rc found]. simpl in Hrc. subst rc.
  unfold str_eqb. rewrite bool_decide_eq_true_2, andb_false_r by done. done.
Qed.
End exchange.

(** ** The key-value space of a process manager *)

Definition put_pairs (kvsname key value : list Z) : keyvals :=
  [(chars "cmd", chars "put"); (chars "kvsname", kvsname); (chars "key", key); (chars "value", value)].
Definition get_pairs (kvsname key : list Z) : keyvals :=
  [(chars "cmd", chars "get"); (chars "kvsname", kvsname); (chars "key", key)].
Definition put_reply : keyvals := [(chars "cmd", chars "put_result"); (chars "rc", chars "0")].
Definition get_reply (value : list Z) : keyvals :=
  [(chars "cmd", chars "get_result"); (chars "rc", chars "0"); (chars "value", value)].

(** What a process manager promises: it stores what it is given, and answers a request
    for a stored key with its value. *)
Class KvsManager {P : Type} (manager : list Z -> P -> list read_result * P) := {
  kvs_lookup : P -> list Z -> list Z -> option (list Z);
  kvs_stores : forall p n k v, plain_value n -> plain_value k -> plain_value v ->
    exists p', manager (reply_text (put_pairs n k v)) p = ([Bytes (reply_text put_reply)], p') /\
      forall n' k', kvs_lookup p' n' k' = if decide (n' = n /\ k' = k) then Some v else kvs_lookup p n' k';
  kvs_answers : forall p n k v, plain_value n -> plain_value k -> kvs_lookup p n k = Some v ->
    manager (reply_text (get_pairs n k)) p = ([Bytes (reply_text (get_reply v))], p) }.

(** The requests of the client are the texts of those pairs. *)
Lemma put_text_pairs n k v :
  chars "cmd=put kvsname=" ++ n ++ chars " key=" ++ k ++ chars " value=" ++ v ++ nl = reply_text (put_pairs n k v).
Proof. unfold put_pairs, reply_text, pair_text. cbn [fst snd]. rewrite <- !app_assoc. done. Qed.

Lemma get_text_pairs n k : chars "cmd=get kvsname=" ++ n ++ chars " key=" ++ k ++ nl = reply_text (get_pairs n k).
Proof. unfold get_pairs, reply_text, pair_text. cbn [fst snd]. rewrite <- !app_assoc. done. Qed.

(** Their lengths. *)
Lemma put_line_length n k v : zlen (reply_text (put_pairs n k v)) = 29 + zlen n + zlen k + zlen v.
Proof. unfold put_pairs, reply_text, pair_text. cbn [fst snd]. rewrite !zlen_app. vm_compute zlen in *. lia. Qed.

Lemma get_line_length n k : zlen (reply_text (get_pairs n k)) = 22 + zlen n + zlen k.
Proof. unfold get_pairs, reply_text, pair_text. cbn [fst snd]. rewrite !zlen_app. vm_compute zlen in *. lia. Qed.

Lemma snprintf_fits n text : zlen text < n -> snprintf n text = text.
Proof. intros H. unfold snprintf. apply take_ge. unfold zlen in *. lia. Qed.

Lemma last_reply_text kvs : List.last (reply_text kvs) 0 = NEWLINE.
Proof.
  assert (forall l, List.last (l ++ [NEWLINE]) 0 = NEWLINE) as H by (intros; apply last_last).
  induction kvs as [|kv kvs IH]; [done|]. destruct kvs as [|kv' kvs]; [apply H|].
  change (reply_text (kv :: kv' :: kvs)) with (pair_text kv ++ [SPACE] ++ reply_text (kv' :: kvs)).
  rewrite app_assoc. revert IH. destruct (reply_text (kv' :: kvs)) as [|c t] eqn:E; [done|]. intros IH.
  clear E. revert c IH. generalize (pair_text kv ++ [SPACE]). intros l c IH. induction l as [|x l IHl]; [done|].
  simpl. destruct (l ++ c :: t) eqn:El; [by destruct l|exact IHl].
Qed.

Lemma plain_put_reply : plain_reply put_reply.
Proof. split; [repeat constructor; discriminate|]. split; vm_compute; [discriminate|reflexivity]. Qed.

Lemma plain_get_reply v : plain_value v -> zlen v < 995 -> plain_reply (get_reply v).
Proof.
  intros [Hv Hl] Hlen. split; [|split].
  - repeat (apply list.Forall_cons; split; [split; [repeat constructor; discriminate|]|]); [..|constructor].
    + repeat constructor.
    + repeat constructor.
    + by split.
  - vm_compute. discriminate.
  - unfold get_reply, reply_text, pair_text, PMIU_MAXLINE. cbn [fst snd]. rewrite !zlen_app.
    vm_compute zlen in *. lia.
Qed.

(** A process connected to a process manager. *)
Definition connected {P} (s : pmi P) : Prop := idle s /\ with_pm (p_initialized s) = true.

Section kvs.
Context {P : Type} (manager : list Z -> P -> list read_result * P) (written : Z -> Z).
Context (Hwritten : forall n, 0 <= written n) {HM : KvsManager manager}.
Context (getenv : string -> option (list Z)) (connect_to_pm : list Z -> Z -> Z) (singinit_accept : Z).

Lemma kvs_put_ok s n k v : connected s -> plain_value n -> plain_value k -> plain_value v ->
  zlen (reply_text (put_pairs n k v)) < PMIU_MAXLINE ->
  exists s', PMI_KVS_Put manager written n k v s = Some (PMI_SUCCESS, s') /\ connected s' /\
    forall n' k', kvs_lookup (p_manager s') n' k' = if decide (n' = n /\ k' = k) then Some v else kvs_lookup (p_manager s) n' k'.
Proof.
  intros [Hi Hw] Hn Hk Hv Hlen. destruct (kvs_stores (p_manager s) n k v Hn Hk Hv) as (p' & Hm & Hlk).
  exists (replied put_reply p' s). split; [|split; [split; [done|exact Hw]|done]].
  unfold PMI_KVS_Put, bind, get. rewrite decide_False by (intros E; by rewrite E in Hw).
  rewrite put_text_pairs, snprintf_fits by done. apply GetResponse_ok; try done.
  - split; [apply last_reply_text|lia].
  - apply plain_put_reply.
  - by left.
Qed.

Lemma kvs_get_ok s n k v value length : connected s -> plain_value n -> plain_value k -> plain_value v ->
  zlen (reply_text (get_pairs n k)) < PMIU_MAXLINE -> zlen v < 995 -> zlen v < length ->
  kvs_lookup (p_manager s) n k = Some v ->
  exists s', PMI_KVS_Get manager written singinit_accept n k value length s = Some ((PMI_SUCCESS, v), s') /\
    connected s' /\ p_manager s' = p_manager s.
Proof.
  intros [Hi Hw] Hn Hk Hv Hlen Hvl Hvl' Hlk. pose proof (kvs_answers _ _ _ _ Hn Hk Hlk) as Hm.
  exists (replied (get_reply v) (p_manager s) s). split; [|split; [split; [done|exact Hw]|done]].
  unfold PMI_KVS_Get, PMIi_InitIfSingleton. unfold bind at 1 2, get at 1.
  rewrite bool_decide_eq_false_2 by (intros E; by rewrite E in Hw). cbn [negb orb]. unfold ret at 1. cbn [negb Z.eqb PMI_SUCCESS].
  rewrite get_text_pairs, snprintf_fits by done. unfold bind at 1.
  rewrite (GetResponse_ok manager written Hwritten _ _ false (get_reply v) (p_manager s)); try done.
  - rewrite Z.eqb_refl. unfold getval, bind, get, ret. cbn [p_tab replied set_tab].
    change (PMIU_getval (get_reply v) (chars "rc") _ PMIU_MAXLINE) with (chars "0", true).
    change (atoi (chars "0", true).1 =? 0) with true. cbv iota beta. cbn [p_tab replied set_tab].
    change (PMIU_getval (get_reply v) (chars "value") value length)
      with (let '(str, rc) := MPL_strncpy value v length in (str, rc =? 0)).
    rewrite strncpy_fits by done. done.
  - split; [apply last_reply_text|lia].
  - by apply plain_get_reply.
  - by right.
Qed.

(** The barrier, when the manager answers it. *)
Definition barrier_line : list Z := chars "cmd=barrier_in" ++ nl.
Definition barrier_reply : keyvals := [(chars "cmd", chars "barrier_out")].

Lemma barrier_ok s p : connected s -> manager barrier_line (p_manager s) = ([Bytes (reply_text barrier_reply)], p) ->
  exists s', PMI_Barrier manager written s = Some (PMI_SUCCESS, s') /\ connected s' /\ p_manager s' = p.
Proof.
  intros [Hi Hw] Hm. exists (replied barrier_reply p s). split; [|split; [split; [done|exact Hw]|done]].
  unfold PMI_Barrier, bind, get. rewrite Hw. apply GetResponse_ok; try done.
  - split; [repeat constructor; discriminate|]. split; vm_compute; [discriminate|reflexivity].
  - by right.
Qed.
End kvs.

(** ** A concrete manager *)

(** It keeps the pairs it was given, the newest first. *)
Abbreviation store := (list (list Z * list Z * list Z)).

Fixpoint store_lookup (p : store) (n k : list Z) : option (list Z) :=
  match p with
  | [] => None
  | (n', k', v) :: p => if decide (n = n' /\ k = k') then Some v else store_lookup p n k
  end.

Definition store_manager (line : list Z) (p : store) : list read_result * store :=
  match PMIU_parse_keyvals line with
  | Parsed _ tab =>
      let field f := (PMIU_getval tab (chars f) [] PMIU_MAXLINE).1 in
      if str_eqb (field "cmd") (chars "put")
      then ([Bytes (reply_text put_reply)], (field "kvsname", field "key", field "value") :: p)
      else match store_lookup p (field "kvsname") (field "key") with
           | Some v => ([Bytes (reply_text (get_reply v))], p)
           | None => ([Bytes (reply_text [(chars "cmd", chars "get_result"); (chars "rc", chars "1")])], p)
           end
  | TabOverflow => ([], p)
  end.

Lemma put_pairs_plain n k v : plain_value n -> plain_value k -> plain_value v ->
  Forall (fun kv => plain_key kv.1 /\ plain_value kv.2) (put_pairs n k v).
Proof. intros Hn Hk Hv. repeat constructor; try discriminate; try apply Hn; try apply Hk; apply Hv. Qed.

Lemma get_pairs_plain n k : plain_value n -> plain_value k ->
  Forall (fun kv => plain_key kv.1 /\ plain_value kv.2) (get_pairs n k).
Proof. intros Hn Hk. repeat constructor; try discriminate; try apply Hn; apply Hk. Qed.

#[export] Instance store_kvs : KvsManager store_manager.
Proof.
  refine {| kvs_lookup := store_lookup |}.
  - intros p n k v Hn Hk Hv. exists ((n, k, v) :: p). split.
    + unfold store_manager. rewrite parse_reply_text by (by apply put_pairs_plain || (vm_compute; discriminate)).
      unfold put_pairs. rewrite getval_here by plain. rewrite !(getval_there _ (chars "cmd")) by discriminate.
      rewrite getval_here by plain. rewrite !(getval_there _ (chars "kvsname")) by discriminate. rewrite getval_here by plain.
      rewrite !(getval_there _ (chars "key")) by discriminate. by rewrite getval_here by plain.
    + intros n' k'. simpl. by apply decide_ext.
  - intros p n k v Hn Hk Hlk. unfold store_manager.
    rewrite parse_reply_text by (by apply get_pairs_plain || (vm_compute; discriminate)).
    unfold get_pairs. rewrite getval_here by plain. rewrite !(getval_there _ (chars "cmd")) by discriminate.
    rewrite getval_here by plain. rewrite !(getval_there _ (chars "kvsname")) by discriminate. rewrite getval_here by plain.
    change (str_eqb (chars "get", true).1 (chars "put")) with false. cbn [fst]. by rewrite Hlk.
Defined.


(** A process the manager started, on descriptor 3. *)
Definition started : pmi store := set_initialized NORMAL_INIT_WITH_PM (set_fd 3 (pmi_start [])).


(** ** A request that does not fit *)

(** The truncated text has lost its newline. *)
Lemma truncated_text n k v : plain_value n -> plain_value k -> Forall (fun c => value_stop c = false) v ->
  PMIU_MAXLINE <= zlen (reply_text (put_pairs n k v)) ->
  zlen (snprintf PMIU_MAXLINE (reply_text (put_pairs n k v))) = PMIU_MAXLINE - 1 /\
  List.last (snprintf PMIU_MAXLINE (reply_text (put_pairs n k v))) 0 <> NEWLINE.
Proof.
  intros Hn Hk Hv Hlen. unfold snprintf. set (text := reply_text (put_pairs n k v)) in *.
  assert (zlen (take (Z.to_nat (PMIU_MAXLINE - 1)) text) = PMIU_MAXLINE - 1) as El
    by (unfold zlen, PMIU_MAXLINE in *; rewrite length_take; lia).
  split; [done|]. intros Hlast.
  assert (exists l, text = l ++ [NEWLINE] /\ Forall (fun c => c <> NEWLINE) l) as (l & E & Hl).
  { unfold text. rewrite <- put_text_pairs. exists (chars "cmd=put kvsname=" ++ n ++ chars " key=" ++ k ++ chars " value=" ++ v).
    rewrite <- !app_assoc. split; [done|].
    assert (forall w, Forall (fun c => value_stop c = false) w -> Forall (fun c => c <> NEWLINE) w) as Hw
      by (intros w H; eapply list.Forall_impl; [exact H|]; intros c Hc ->; done).
    rewrite !Forall_app. split; [repeat constructor; discriminate|]. split; [apply Hw, Hn|].
    split; [repeat constructor; discriminate|]. split; [apply Hw, Hk|]. split; [repeat constructor; discriminate|auto]. }
  assert (take (Z.to_nat (PMIU_MAXLINE - 1)) text = take (Z.to_nat (PMIU_MAXLINE - 1)) l) as Et.
  { rewrite E in *. rewrite zlen_app in Hlen. change (zlen [NEWLINE]) with 1 in Hlen.
    apply take_app_le. unfold zlen, PMIU_MAXLINE in *. lia. }
  rewrite Et in *. assert (NEWLINE ∈ take (Z.to_nat (PMIU_MAXLINE - 1)) l) as Hin.
  { destruct (take (Z.to_nat (PMIU_MAXLINE - 1)) l) as [|c t] eqn:Ec; [unfold zlen, PMIU_MAXLINE in El; simpl in El; lia|].
    rewrite <- Hlast. apply list_elem_of_In. destruct (exists_last (l:=c :: t)) as (t' & x & ->); [done|].
    rewrite last_last. apply in_or_app. right. by left. }
  apply elem_of_take in Hin as (i & Hi & _). rewrite list.Forall_forall in Hl. by apply (Hl NEWLINE); [eapply list_elem_of_lookup_2|].
Qed.

Lemma writeline_dropped {P : Type} (manager : list Z -> P -> list read_result * P) (written : Z -> Z) (s : pmi P) line :
  List.last line 0 <> NEWLINE -> writeline manager written line s = Some (PMI_SUCCESS, s).
Proof.
  intros Hl. unfold writeline, bind, get, PMIU_writeline. destruct (zlen line >? PMIU_MAXLINE); [done|].
  by rewrite (proj2 (Z.eqb_neq _ NEWLINE)).
Qed.

(** A put whose request does not fit a line is lost, and the client is not told.  No manager
    sees it: the outcome is the same with every manager, and leaves the manager's state as
    it was.  The client then takes the next line for the answer, so it reports success
    when that line is the answer to an earlier put. *)
Lemma long_put_not_sent {P : Type} (manager : list Z -> P -> list read_result * P) (written : Z -> Z) (s : pmi P)
    (n k v : list Z) :
  plain_value n -> plain_value k -> Forall (fun c => value_stop c = false) v ->
  995 <= zlen n + zlen k + zlen v -> with_pm (p_initialized s) = true ->
  (forall manager' written', PMI_KVS_Put manager' written' n k v s = PMI_KVS_Put manager written n k v s) /\
  (forall rc s', PMI_KVS_Put manager written n k v s = Some (rc, s') -> p_manager s' = p_manager s) /\
  (readbuf (p_reader s) = [] -> p_io s = [Bytes (reply_text put_reply)] ->
   exists s', PMI_KVS_Put manager written n k v s = Some (PMI_SUCCESS, s')).
Proof.
  intros Hn Hk Hv Hlen Hw. destruct (truncated_text n k v Hn Hk Hv) as [_ Hl].
  { rewrite put_line_length. unfold PMIU_MAXLINE. lia. }
  assert (forall manager' written', PMI_KVS_Put manager' written' n k v s =
    GetResponse manager' written' (snprintf PMIU_MAXLINE (reply_text (put_pairs n k v))) (chars "put_result") true s) as Eput.
  { intros m' w'. unfold PMI_KVS_Put, bind, get. rewrite decide_False by (intros E; by rewrite E in Hw). by rewrite put_text_pairs. }
  revert Hl Eput. generalize (snprintf PMIU_MAXLINE (reply_text (put_pairs n k v))). intros line Hl Eput.
  split; [|split].
  - intros m' w'. rewrite !Eput. unfold GetResponse, bind. by rewrite !writeline_dropped.
  - intros rc s'. rewrite Eput. unfold GetResponse, readline, parse_keyvals, getval, bind, get, put, ret.
    rewrite writeline_dropped by done. cbn [negb Z.eqb PMI_SUCCESS]. intros E.
    repeat case_match; simplify_eq; done.
  - intros Hr Hio. rewrite Eput. unfold GetResponse, bind at 1. rewrite writeline_dropped by done.
    unfold readline, bind, get, put, ret, PMIU_readline. cbn [negb Z.eqb PMI_SUCCESS]. rewrite Hr, Hio. eexists. vm_compute. reflexivity.
Qed.

Lemma long_put_not_sent_witness :
  forall rc s', PMI_KVS_Put store_manager (fun n => n) (chars "kvs_0") (chars "k") (replicate 1000 97) started = Some (rc, s') ->
  p_manager s' = [].
Proof.
  apply (long_put_not_sent store_manager (fun n => n) started (chars "kvs_0") (chars "k") (replicate 1000 97)).
  - plain.
  - plain.
  - apply Forall_replicate. reflexivity.
  - vm_compute. discriminate.
  - reflexivity.
Defined.

(** Without a process manager the process is a job of its own: [PMI_Init] succeeds, and
    from then on the client is initialized with rank 0 and size 1, whatever the variables
    [PMI_SIZE] and [PMI_RANK] say. *)
Lemma init_singleton {P : Type} (manager : list Z -> P -> list read_result * P) (written : Z -> Z)
    (getenv : string -> option (list Z)) (connect_to_pm : list Z -> Z -> Z) (spawned0 : Z) (s : pmi P) :
  getenv "PMI_FD" = None -> getenv "PMI_PORT" = None ->
  exists s', PMI_Init manager written getenv connect_to_pm spawned0 s = Some ((PMI_SUCCESS, 0), s') /\
    PMI_Initialized s' = Some ((PMI_SUCCESS, true), s') /\
    PMI_Get_rank s' = Some ((PMI_SUCCESS, 0), s') /\ PMI_Get_size s' = Some ((PMI_SUCCESS, 1), s') /\
    PMI_Barrier manager written s' = Some (PMI_SUCCESS, s').
Proof.
  intros Hfd Hport. unfold PMI_Init, getPMIFD. rewrite Hfd, Hport.
  unfold bind, modify, get, ret. cbn [p_fd set_fd set_job set_initialized negb Z.eqb PMI_SUCCESS].
  eexists. split; [reflexivity|]. split; [reflexivity|]. split; [reflexivity|]. split; reflexivity.
Qed.

Lemma init_singleton_witness :
  exists s', PMI_Init store_manager (fun n => n) (fun x => if String.eqb x "PMI_SIZE" then Some (chars "16") else None)
               (fun _ _ => -1) 0 (pmi_start []) = Some ((PMI_SUCCESS, 0), s') /\ PMI_Get_size s' = Some ((PMI_SUCCESS, 1), s').
Proof.
  destruct (init_singleton store_manager (fun n => n) (fun x => if String.eqb x "PMI_SIZE" then Some (chars "16") else None)
              (fun _ _ => -1) 0 (pmi_start [])) as (s' & E & _ & _ & E' & _); [reflexivity|reflexivity|].
  exists s'. split; [exact E|exact E'].
Defined.
