(* ===== verification/PmiStart.v ===== *)
(** * Starting the client under a process manager ([PMI_Init])

    What a process manager answers to the requests of start-up, and that [PMI_Init] then
    leaves a client that is connected and knows its rank, its size and the limits of the
    key-value space. *)

From stdpp Require Import strings pretty.
From S2P Require Import Prelude ErrState Util PmiUtil SimplePmi.
Local Open Scope Z_scope.
Local Open Scope st_scope.

(** ** Numbers in decimal *)

Lemma digits_app s1 s2 acc : Forall (fun c => is_digit c = true) s1 -> digits (s1 ++ s2) acc = digits s2 (digits s1 acc).
Proof.
  intros H. revert acc. induction H as [|c s1 Hc _ IH]; intros acc; [done|]. simpl. rewrite Hc. apply IH.
Qed.

Lemma pretty_N_go_digits x s : Forall (fun c => is_digit c = true) (chars s) ->
  Forall (fun c => is_digit c = true) (chars (pretty_N_go x s)).
Proof.
  revert s. induction (N.lt_wf_0 x) as [x _ IH]; intros s Hs.
  destruct (decide (0 < x)%N); [|by replace x with 0%N by lia].
  rewrite pretty_N_go_step by done. apply IH; [by apply N.div_lt|].
  simpl. constructor; [|done]. unfold pretty_N_char. by repeat case_match.
Qed.

Lemma dec_digits z : 0 <= z -> Forall (fun c => is_digit c = true) (dec z).
Proof.
  intros Hz. unfold dec. destruct z as [|p|p]; [by repeat constructor| |lia].
  change (pretty (Z.pos p)) with (pretty_N_go (N.pos p) EmptyString).
  apply pretty_N_go_digits. constructor.
Qed.

Lemma pretty_N_char_value d : (d < 10)%N -> Z.of_N (Ascii.N_of_ascii (pretty_N_char d)) = 48 + Z.of_N d.
Proof. intros H. unfold pretty_N_char. repeat case_match; subst; try done; change (Z.of_N (Ascii.N_of_ascii _)) with 57; lia. Qed.

Lemma digits_pretty_go x s : Forall (fun c => is_digit c = true) (chars s) ->
  digits (chars (pretty_N_go x s)) 0 = digits (chars s) (Z.of_N x).
Proof.
  revert s. induction (N.lt_wf_0 x) as [x _ IH]; intros s Hs.
  destruct (decide (0 < x)%N); [|by replace x with 0%N by lia].
  assert (x `mod` 10 < 10)%N as Hm by (apply N.mod_lt; lia).
  rewrite pretty_N_go_step, IH by (done || by apply N.div_lt || (simpl; constructor; [unfold pretty_N_char; by repeat case_match|done])).
  cbn [digits chars]. rewrite pretty_N_char_value by done.
  assert (Z.of_N x = 10 * Z.of_N (x `div` 10) + Z.of_N (x `mod` 10)) as ->
    by (rewrite (N.div_mod x 10) at 1 by done; rewrite N2Z.inj_add, N2Z.inj_mul; done).
  revert Hm. generalize (x `mod` 10)%N. intros y Hm. unfold is_digit.
  rewrite (proj2 (Z.leb_le 48 _)), (proj2 (Z.leb_le _ 57)) by lia. cbn [andb]. f_equal. lia.
Qed.

(** What [snprintf] writes, [atoi] reads back. *)
Lemma atoi_dec z : 0 <= z -> atoi (dec z) = z.
Proof.
  intros Hz. destruct z as [|p|p]; [done| |lia].
  assert (digits (dec (Z.pos p)) 0 = Z.pos p) as E.
  { unfold dec. change (pretty (Z.pos p)) with (pretty_N_go (N.pos p) EmptyString).
    rewrite digits_pretty_go by constructor. done. }
  pose proof (dec_digits (Z.pos p)) as Hd. destruct (dec (Z.pos p)) as [|c l]; [done|].
  specialize (Hd ltac:(lia)). apply list.Forall_cons in Hd as [Hc _]. unfold is_digit in Hc.
  apply andb_prop in Hc as [H1%Z.leb_le H2%Z.leb_le]. unfold atoi.
  cbn [skip_spaces]. unfold SPACE. rewrite !(proj2 (Z.eqb_neq c _)) by lia. exact E.
Qed.


(** ** The manager at start-up *)

Definition init_line : list Z := chars "cmd=init pmi_version=1 pmi_subversion=1" ++ nl.
Definition init_reply : keyvals :=
  [(chars "cmd", chars "response_to_init"); (chars "pmi_version", chars "1"); (chars "pmi_subversion", chars "1"); (chars "rc", chars "0")].
Definition maxes_line : list Z := chars "cmd=get_maxes" ++ nl.
Definition maxes_reply (kvsname_max keylen_max vallen_max : Z) : keyvals :=
  [(chars "cmd", chars "maxes"); (chars "kvsname_max", dec kvsname_max); (chars "keylen_max", dec keylen_max); (chars "vallen_max", dec vallen_max)].
Definition name_line : list Z := chars "cmd=get_my_kvsname" ++ nl.
Definition name_reply (name : list Z) : keyvals := [(chars "cmd", chars "my_kvsname"); (chars "kvsname", name)].

(** What a process manager answers during start-up: it accepts the version, and tells the
    limits and the name of the job's key-value space. *)
Class StartManager {P : Type} (manager : list Z -> P -> list read_result * P) := {
  start_maxes : Z * Z * Z;
  start_name : list Z;
  start_maxes_nonneg : 0 <= start_maxes.1.1 /\ 0 <= start_maxes.1.2 /\ 0 <= start_maxes.2;
  start_plain : plain_reply (maxes_reply start_maxes.1.1 start_maxes.1.2 start_maxes.2) /\ plain_reply (name_reply start_name);
  start_version : forall p, manager init_line p = ([Bytes (reply_text init_reply)], p);
  start_limits : forall p, manager maxes_line p =
    ([Bytes (reply_text (maxes_reply start_maxes.1.1 start_maxes.1.2 start_maxes.2))], p);
  start_space : forall p, manager name_line p = ([Bytes (reply_text (name_reply start_name))], p) }.

Section start.
Context {P : Type} (manager : list Z -> P -> list read_result * P) (written : Z -> Z).
Context (Hwritten : forall n, 0 <= written n) {SM : StartManager manager}.
Context (getenv : string -> option (list Z)) (connect_to_pm : list Z -> Z -> Z) (getpid : Z).

Lemma getval_run (s : pmi P) key valstr n : getval key valstr n s = Some (PMIU_getval (p_tab s) key valstr n, s).
Proof. done. Qed.

Lemma modify_run {S} (f : S -> S) s : modify f s = Some (tt, f s).
Proof. done. Qed.

(** What start-up does not touch. *)
Definition same_process (s s' : pmi P) : Prop :=
  p_fd s' = p_fd s /\ p_size s' = p_size s /\ p_rank s' = p_rank s /\ p_initialized s' = p_initialized s /\
  p_manager s' = p_manager s.

Lemma plain_pair kvs k v : plain_reply kvs -> (k, v) ∈ kvs -> plain_value v.
Proof. intros (HF & _) Hin. rewrite list.Forall_forall in HF. by destruct (HF _ Hin). Qed.

Lemma getmaxes_ok s : idle s -> exists s', PMII_getmaxes manager written s = Some (PMI_SUCCESS, s') /\
  idle s' /\ same_process s s' /\
  p_kvsname_max s' = start_maxes.1.1 /\ p_keylen_max s' = start_maxes.1.2 /\ p_vallen_max s' = start_maxes.2.
Proof.
  intros Hi. assert (plain_reply init_reply) as Hp0
    by (split; [repeat constructor; discriminate|split; vm_compute; [discriminate|reflexivity]]).
  destruct (exchange manager written Hwritten init_line init_reply (p_manager s) s Hi) as (s1 & E1 & E2 & E3); try done.
  { apply start_version. }
  unfold PMII_getmaxes. run_step E1. cbn [negb Z.eqb]. run_step E2.
  rewrite (proj2 (Z.ltb_ge _ 0)) by apply zlen_nonneg. unfold bind at 1, ret at 1.
  unfold bind at 1, parse_keyvals at 1. rewrite E3.
  set (s2 := set_tab _ _).
  run_step (getval_run s2 (chars "cmd") [] PMIU_MAXLINE).
  change (PMIU_getval (p_tab s2) (chars "cmd") [] PMIU_MAXLINE) with (chars "response_to_init", true).
  cbn [fst]. unfold str_eqb at 1. rewrite bool_decide_eq_true_2 by done. cbn [negb].
  unfold bind at 1. run_step (getval_run s2 (chars "rc") (reply_text init_reply) PMIU_MAXLINE).
  change (PMIU_getval (p_tab s2) (chars "rc") (reply_text init_reply) PMIU_MAXLINE) with (chars "0", true).
  cbn [fst]. unfold str_eqb at 1. rewrite bool_decide_eq_true_2 by done. cbn [negb]. unfold ret at 1.
  set (rep := maxes_reply start_maxes.1.1 start_maxes.1.2 start_maxes.2).
  assert (GetResponse manager written maxes_line (chars "maxes") false s2 = Some (PMI_SUCCESS, replied rep (p_manager s) s2)) as E4.
  { apply GetResponse_ok; try done; [apply start_plain|apply start_limits|by right]. }
  run_step E4. rewrite Z.eqb_refl.
  pose proof (proj1 start_plain) as Hp. pose proof start_maxes_nonneg as (? & ? & ?).
  run_step (getval_run (replied rep (p_manager s) s2) (chars "kvsname_max") [] PMIU_MAXLINE).
  run_step (getval_run (replied rep (p_manager s) s2) (chars "keylen_max") [] PMIU_MAXLINE).
  run_step (getval_run (replied rep (p_manager s) s2) (chars "vallen_max") [] PMIU_MAXLINE).
  rewrite (bind_run (modify _) _ _ _ _ (modify_run _ _)). change (p_tab (replied rep (p_manager s) s2)) with rep.
  unfold rep, maxes_reply.
  rewrite !(getval_there _ (chars "cmd")) by discriminate.
  rewrite (getval_here (chars "kvsname_max")) by (eapply plain_pair; [apply Hp|by apply list_elem_of_In; right; left]).
  rewrite !(getval_there _ (chars "kvsname_max")) by discriminate.
  rewrite (getval_here (chars "keylen_max")) by (eapply plain_pair; [apply Hp|by apply list_elem_of_In; right; right; left]).
  rewrite !(getval_there _ (chars "keylen_max")) by discriminate.
  rewrite getval_here by (eapply plain_pair; [apply Hp|by apply list_elem_of_In; right; right; right; left]).
  cbn [fst]. rewrite !atoi_dec by done.
  eexists. split; [reflexivity|]. split; [done|]. split; [|done]. done.
Qed.

(** A process the manager started: [PMI_FD] names the connection, [PMI_RANK] and
    [PMI_SIZE] its place in the job. *)
Lemma pmi_init_ok spawned0 s fd : idle s -> getenv "PMI_FD" = Some fd -> atoi fd <> -1 ->
  env_int getenv "PMI_TOTALVIEW" 0 = 0 ->
  exists b s', PMI_Init manager written getenv connect_to_pm spawned0 s = Some ((PMI_SUCCESS, b), s') /\
    connected s' /\ p_size s' = env_int getenv "PMI_SIZE" 1 /\ p_rank s' = env_int getenv "PMI_RANK" 0 /\
    p_manager s' = p_manager s /\
    p_kvsname_max s' = start_maxes.1.1 /\ p_keylen_max s' = start_maxes.1.2 /\ p_vallen_max s' = start_maxes.2.
Proof.
  intros Hi Hfd Hne Htv. unfold PMI_Init, getPMIFD. rewrite Hfd.
  do 2 rewrite (bind_run (modify _) _ _ _ _ (modify_run _ _)).
  unfold bind at 1 2 3, modify at 1 2, ret at 1. unfold bind at 1, get at 1. cbn [negb Z.eqb PMI_SUCCESS].
  cbn [p_fd set_fd]. rewrite (proj2 (Z.eqb_neq _ _)) by done.
  rewrite (bind_run (modify _) _ _ _ _ (modify_run _ _)). rewrite Htv. cbn [negb Z.eqb].
  unfold bind at 1, ret at 1. cbn [negb].
  match goal with |- context [bind (PMII_getmaxes manager written) _ ?st] =>
    destruct (getmaxes_ok st Hi) as (s' & E & Hi' & (_ & Hsz & Hrk & Hin & Hm) & Ha & Hb & Hc) end.
  run_step E. rewrite (bind_run (modify _) _ _ _ _ (modify_run _ _)). unfold bind at 1, get at 1.
  cbn [p_initialized set_spawned]. rewrite Hin. cbn [p_initialized set_job set_fd set_initialized].
  rewrite decide_True by done. rewrite (bind_run (modify _) _ _ _ _ (modify_run _ _)).
  eexists _, _. split; [reflexivity|]. split; [split; [exact Hi'|done]|].
  split; [exact Hsz|]. split; [exact Hrk|]. split; [exact Hm|]. done.
Qed.

Lemma my_name_ok s maxlen : connected s -> zlen start_name < maxlen ->
  exists s', PMI_KVS_Get_my_name manager written getpid [] maxlen s = Some ((PMI_SUCCESS, start_name), s') /\
    connected s' /\ p_manager s' = p_manager s.
Proof.
  intros [Hi Hw] Hlen. exists (replied (name_reply start_name) (p_manager s) s). split; [|split; [split; [done|exact Hw]|done]].
  unfold PMI_KVS_Get_my_name. unfold bind at 1, get at 1. rewrite decide_False by (intros E; by rewrite E in Hw).
  assert (GetResponse manager written name_line (chars "my_kvsname") false s
          = Some (PMI_SUCCESS, replied (name_reply start_name) (p_manager s) s)) as E.
  { apply GetResponse_ok; try done; [apply start_plain|apply start_space|by right]. }
  run_step E. rewrite Z.eqb_refl. rewrite (bind_run _ _ _ _ _ (getval_run _ _ _ _)).
  change (PMIU_getval (p_tab (replied (name_reply start_name) (p_manager s) s)) (chars "kvsname") [] maxlen)
    with (let '(str, rc) := MPL_strncpy [] start_name maxlen in (str, rc =? 0)).
  rewrite strncpy_fits by done. done.
Qed.
End start.
