(* ===== verification/RuntimeUtil.v ===== *)
(** * Runtime utilities ([runtime_util.c])

    The hexadecimal encoding of binary values for the key-value store of the process
    manager, and the discovery of the PEs that run on this PE's node by comparing
    host names.  A [char] is its value, a C string the list of its characters before
    the terminating NUL. *)

From stdpp Require Import strings.
From S2P Require Import Prelude ErrState Internal ReduceOp Util PmiUtil.
Local Open Scope Z_scope.
Local Open Scope st_scope.

(** ** Encoding *)

(** The [encodings] table: '0'..'9' then 'a'..'f'. *)
Definition encodings (d : Z) : Z := if d <? 10 then 48 + d else 97 + (d - 10).

Definition encode_byte (b : Z) : list Z := [encodings (Z.land b 15); encodings (Z.shiftr b 4)].

(** The characters written (the final NUL included), or [None] for the return of 1. *)
Definition shmem_runtime_util_encode (inval : list Z) (outvallen : Z) : option (list Z) :=
  if Z.of_nat (length inval) * 2 + 1 >? outvallen then None
  else Some (flat_map encode_byte inval ++ [0]).

(** One digit, in [int] arithmetic: any character but a decimal digit is read as a letter. *)
Definition decode_digit (c : Z) : Z := if (48 <=? c) && (c <=? 57) then c - 48 else c - 97 + 10.

(** The loop: two characters per byte; the byte is stored modulo 256. *)
Fixpoint decode_loop (n : nat) (inval : list Z) : list Z :=
  match n, inval with
  | S n, lo :: hi :: inval =>
      wrap_u 8 (Z.lor (decode_digit lo) (Z.shiftl (decode_digit hi) 4)) :: decode_loop n inval
  | _, _ => []
  end.

Definition shmem_runtime_util_decode (inval : list Z) (outvallen : Z) : option (list Z) :=
  if negb (outvallen =? Z.of_nat (length inval) / 2) then None
  else Some (decode_loop (Z.to_nat outvallen) inval).

(** ** The PEs of a node *)

(** [strncmp(s1, s2, n) == 0]; reading past the end of a list reads its NUL. *)
Fixpoint strncmp_eq (s1 s2 : list Z) (n : nat) {struct n} : bool :=
  match n with
  | O => true
  | S n =>
      match s1, s2 with
      | [], [] => true
      | c1 :: s1, c2 :: s2 => (c1 =? c2) && (if c1 =? 0 then true else strncmp_eq s1 s2 n)
      | _, _ => false
      end
  end.

(** ** The runtime layer these utilities are written against

    [shmem_runtime_put] and [shmem_runtime_get] of one of the runtime layers: a put answers
    its return value, a get its return value and the bytes it wrote.  Keys are the
    characters of the key, values are bytes. *)
Class Runtime (S : Type) := {
  rt_put : list Z -> list Z -> ST S Z;
  rt_get : Z -> list Z -> Z -> ST S (Z * list Z) }.

(** What a runtime layer promises: a put it has room for succeeds, is then visible under
    the rank of the caller, and disturbs nothing else; a get of a visible value of that
    length answers it and changes nothing that is visible.  [rt_same] relates states with
    the same set-up: rank, size and the layer's own variables. *)
Class RuntimeKvs (S : Type) {R : Runtime S} := {
  rt_me : S -> Z;
  rt_same : relation S;
  rt_same_pre :: PreOrder rt_same;
  rt_same_me : forall s s', rt_same s s' -> rt_me s' = rt_me s;
  rt_visible : S -> Z -> list Z -> list Z -> Prop;
  rt_room : S -> list Z -> list Z -> Prop;
  rt_put_spec : forall s key bytes, rt_room s key bytes ->
    exists s', rt_put key bytes s = Some (0, s') /\ rt_same s s' /\
      rt_visible s' (rt_me s) key bytes /\
      (forall pe k b, rt_visible s pe k b -> (pe, k) <> (rt_me s, key) -> rt_visible s' pe k b) /\
      (forall k b, k <> key -> rt_room s k b -> rt_room s' k b);
  rt_get_spec : forall s pe key bytes, rt_visible s pe key bytes ->
    exists s', rt_get pe key (zlen bytes) s = Some ((0, bytes), s') /\ rt_same s s' /\
      (forall pe' k b, rt_visible s pe' k b -> rt_visible s' pe' k b) }.

(** A [size_t] in memory (8 bytes, least significant first). *)
Fixpoint le_bytes (n : nat) (v : Z) : list Z :=
  match n with O => [] | S n => v mod 256 :: le_bytes n (v / 256) end.
Fixpoint le_value (bs : list Z) : Z :=
  match bs with [] => 0 | b :: bs => b + 256 * le_value bs end.
Definition sizeof_size_t : Z := 8.

(** ** The host names *)

Section hostnames.
Context {S : Type} {R : Runtime S}.
(** [MAX_HOSTNAME_LEN], and what [gethostname] returns and writes (up to its NUL). *)
Context (MAX_HOSTNAME_LEN : Z) (gethostname : Z * list Z).

(** The C string in [hostname] once its last byte is cleared. *)
Definition hostname : list Z := take (Z.to_nat MAX_HOSTNAME_LEN) gethostname.2.

Definition shmem_runtime_util_put_hostname : ST S Z :=
  if negb (gethostname.1 =? 0) then ret gethostname.1
  else
    let hostname_len := zlen hostname in
    rc <- rt_put (chars "hostname_len") (le_bytes 8 hostname_len) ;
    if negb (rc =? 0) then ret rc
    else
      rc <- rt_put (chars "hostname") hostname ;
      if negb (rc =? 0) then ret rc else ret 0.

(** The scan over the PEs: the return value, the location array and [n_node_pes].  A name
    longer than [peer_hostname] would be written past its end. *)
Fixpoint populate_loop (pes : list Z) (location_array : list Z) (n_node_pes : Z) : ST S (Z * list Z * Z) :=
  match pes with
  | [] => ret (0, location_array, n_node_pes)
  | i :: pes =>
      r <- rt_get i (chars "hostname_len") sizeof_size_t ;
      if negb (r.1 =? 0) then ret (r.1, location_array, n_node_pes)
      else
        let hlen := le_value r.2 in
        r <- rt_get i (chars "hostname") hlen ;
        if negb (r.1 =? 0) then ret (r.1, location_array, n_node_pes)
        else if hlen >? MAX_HOSTNAME_LEN + 1 then stop
        else if strncmp_eq hostname r.2 (Z.to_nat hlen)
        then populate_loop pes (<[Z.to_nat i := n_node_pes]> location_array) (n_node_pes + 1)
        else populate_loop pes (<[Z.to_nat i := -1]> location_array) n_node_pes
  end.

(** The return value, the location array and [*node_size]. *)
Definition shmem_runtime_util_populate_node (location_array : list Z) (size node_size : Z) : ST S (Z * list Z * Z) :=
  if negb (gethostname.1 =? 0) then ret (gethostname.1, location_array, node_size)
  else
    r <- populate_loop (upto 0 size) location_array 0 ;
    let '(rc, location_array, n_node_pes) := r in
    if negb (rc =? 0) then ret (rc, location_array, node_size)
    else if (n_node_pes <? 1) || (n_node_pes >? size) then ret (1, location_array, node_size)
    else ret (0, location_array, n_node_pes).
End hostnames.

(** ** Decoding inverts encoding *)

Definition is_byte (b : Z) : Prop := 0 <= b < 256.

Lemma decode_encodings d : 0 <= d < 16 -> decode_digit (encodings d) = d.
Proof.
  intros Hd. unfold decode_digit, encodings. destruct (Z.ltb_spec d 10).
  - rewrite (proj2 (Z.leb_le 48 _)), (proj2 (Z.leb_le _ 57)) by lia. simpl. lia.
  - rewrite (proj2 (Z.leb_gt _ 57)), andb_false_r by lia. lia.
Qed.

Lemma byte_digits b : is_byte b ->
  0 <= Z.land b 15 < 16 /\ 0 <= Z.shiftr b 4 < 16 /\ wrap_u 8 (Z.lor (Z.land b 15) (Z.shiftl (Z.shiftr b 4) 4)) = b.
Proof.
  unfold is_byte. intros Hb. change 15 with (Z.ones 4). rewrite Z.land_ones by lia.
  split; [apply Z.mod_pos_bound; lia|]. split.
  - rewrite Z.shiftr_div_pow2 by lia. change (2 ^ 4) with 16.
    split; [apply Z.div_pos; lia|apply Z.div_lt_upper_bound; lia].
  - rewrite <- Z.land_ones, <- Z.ldiff_ones_r by lia.
    replace (Z.lor (Z.land b (Z.ones 4)) (Z.ldiff b (Z.ones 4))) with b; [by apply wrap_u_id|].
    apply Z.bits_inj'. intros i Hi. rewrite Z.lor_spec, Z.land_spec, Z.ldiff_spec.
    by destruct (Z.testbit b i), (Z.testbit (Z.ones 4) i).
Qed.

Lemma decode_loop_encode bs : Forall is_byte bs -> decode_loop (length bs) (flat_map encode_byte bs) = bs.
Proof.
  induction 1 as [|b bs Hb _ IH]; [done|]. simpl. f_equal; [|done].
  destruct (byte_digits b Hb) as (? & ? & ?). by rewrite !decode_encodings by done.
Qed.

Lemma length_encode bs : length (flat_map encode_byte bs) = (2 * length bs)%nat.
Proof. induction bs; simpl; lia. Qed.

(** ** Finding the PEs of a node *)

Definition no_nul (s : list Z) : Prop := 0 ∉ s.

(** Only the peer's characters are compared: the test is "is a prefix of". *)
Lemma strncmp_eq_prefix s1 s2 : no_nul s2 ->
  strncmp_eq s1 s2 (length s2) = true <-> s2 `prefix_of` s1.
Proof.
  revert s1. induction s2 as [|c2 s2 IH]; intros s1 Hn; simpl.
  - split; [intros _; apply prefix_nil|done].
  - unfold no_nul in *. rewrite not_elem_of_cons in Hn. destruct Hn as [Hc Hn].
    destruct s1 as [|c1 s1].
    + split; [done|]. by intros [k [=]].
    + rewrite andb_true_iff, Z.eqb_eq. split.
      * intros [-> H]. rewrite (proj2 (Z.eqb_neq c2 0)) in H by done. apply prefix_cons. by apply IH.
      * intros H. pose proof (prefix_cons_inv_1 _ _ _ _ H) as ->. split; [done|].
        rewrite (proj2 (Z.eqb_neq c1 0)) by done. apply IH; [done|]. by apply prefix_cons_inv_2 in H.
Qed.

(** C33: decoding the string [encode] wrote gives the bytes back: every value stored in the
    key-value store is read back unchanged, and its encoding is a C string of two
    characters per byte. *)
Theorem encode_decode_roundtrip (bs : list Z) (outvallen : Z) :
  Forall is_byte bs -> Z.of_nat (length bs) * 2 + 1 <= outvallen ->
  exists s, shmem_runtime_util_encode bs outvallen = Some (s ++ [0]) /\
    no_nul s /\ length s = (2 * length bs)%nat /\
    shmem_runtime_util_decode s (Z.of_nat (length bs)) = Some bs.
Proof.
  intros Hbs Hlen. exists (flat_map encode_byte bs). unfold shmem_runtime_util_encode, shmem_runtime_util_decode.
  rewrite length_encode, Z.gtb_ltb, (proj2 (Z.ltb_ge _ _)) by lia. split; [done|]. split; [|split; [done|]].
  - intros (b & Hb & Hin)%list_elem_of_In%in_flat_map. unfold encode_byte, encodings in Hin.
    rewrite list.Forall_forall in Hbs. destruct (byte_digits b) as (? & ? & _); [by apply Hbs, list_elem_of_In|].
    destruct Hin as [H'|[H'|[]]]; destruct (Z.ltb_spec (Z.land b 15) 10), (Z.ltb_spec (Z.shiftr b 4) 10); lia.
  - replace (Z.of_nat (2 * length bs)) with (Z.of_nat (length bs) * 2) by lia. rewrite Z.div_mul, Z.eqb_refl by lia.
    simpl. by rewrite Nat2Z.id, decode_loop_encode.
Qed.

Lemma encode_decode_roundtrip_witness :
  shmem_runtime_util_encode [222; 173; 0] 7 = Some [101; 100; 100; 97; 48; 48; 0] /\
  exists s, shmem_runtime_util_encode [222; 173; 0] 7 = Some (s ++ [0]) /\
    no_nul s /\ length s = 6%nat /\ shmem_runtime_util_decode s 3 = Some [222; 173; 0].
Proof.
  split; [reflexivity|].
  apply (encode_decode_roundtrip [222; 173; 0] 7); [repeat constructor; unfold is_byte; lia|simpl; lia].
Defined.

(** ** Publishing and scanning the names *)

Lemma length_le_bytes n v : length (le_bytes n v) = n.
Proof. revert v. induction n; intros v; simpl; auto. Qed.

Lemma le_bytes_bytes n v : Forall is_byte (le_bytes n v).
Proof.
  revert v. induction n; intros v; simpl; constructor; [|done].
  unfold is_byte. pose proof (Z.mod_pos_bound v 256). lia.
Qed.

Lemma le_value_bytes n v : 0 <= v < 256 ^ Z.of_nat n -> le_value (le_bytes n v) = v.
Proof.
  revert v. induction n as [|n IH]; intros v Hv; simpl; [change (256 ^ Z.of_nat 0) with 1 in Hv; lia|].
  rewrite Nat2Z.inj_succ, Z.pow_succ_r in Hv by lia. rewrite IH.
  - pose proof (Z.div_mod v 256). lia.
  - split; [apply Z.div_pos; lia|apply Z.div_lt_upper_bound; lia].
Qed.

Section names.
Context {S : Type} {R : Runtime S} {K : RuntimeKvs S}.
Context (MAX_HOSTNAME_LEN : Z).
Context (Hmax : 0 <= MAX_HOSTNAME_LEN < 2 ^ 63).
Implicit Types (s : S) (name : list Z).

(** The name of PE [pe] is published: both of its keys are visible. *)
Definition published s (pe : Z) name : Prop :=
  rt_visible s pe (chars "hostname_len") (le_bytes 8 (zlen name)) /\ rt_visible s pe (chars "hostname") name.

Lemma hostname_fits name : zlen name <= MAX_HOSTNAME_LEN -> hostname MAX_HOSTNAME_LEN (0, name) = name.
Proof. intros H. unfold hostname. apply take_ge. unfold zlen in H. simpl. lia. Qed.

Lemma put_hostname_spec s name : zlen name <= MAX_HOSTNAME_LEN ->
  rt_room s (chars "hostname_len") (le_bytes 8 (zlen name)) -> rt_room s (chars "hostname") name ->
  exists s', shmem_runtime_util_put_hostname MAX_HOSTNAME_LEN (0, name) s = Some (0, s') /\
    rt_same s s' /\ published s' (rt_me s) name.
Proof.
  intros Hlen Hr1 Hr2. unfold shmem_runtime_util_put_hostname. rewrite hostname_fits by done. cbn [fst negb Z.eqb].
  destruct (rt_put_spec _ _ _ Hr1) as (s1 & E1 & M1 & V1 & _ & R1). run_step E1. cbn [negb Z.eqb].
  destruct (rt_put_spec s1 (chars "hostname") name) as (s2 & E2 & M2 & V2 & P2 & _); [by apply R1|]. run_step E2.
  exists s2. split; [done|]. split; [by etransitivity|]. rewrite (rt_same_me _ _ M1) in V2, P2. split; [|done].
  apply P2; [done|]. intros [=].
Qed.

(** What the scan computes, given the names and the test of each PE. *)
Lemma populate_loop_spec (name : Z -> list Z) (myname : list Z) (same : Z -> bool) pes loc n s :
  zlen myname <= MAX_HOSTNAME_LEN -> NoDup pes ->
  (forall i, i ∈ pes -> 0 <= i < zlen loc /\ zlen (name i) <= MAX_HOSTNAME_LEN /\ published s i (name i) /\
     strncmp_eq myname (name i) (length (name i)) = same i) ->
  exists loc' s', populate_loop MAX_HOSTNAME_LEN (0, myname) pes loc n s = Some ((0, loc', n + Z.of_nat (countb same pes)), s') /\
    rt_same s s' /\ length loc' = length loc /\
    (forall i, 0 <= i -> i ∉ pes -> loc' !! Z.to_nat i = loc !! Z.to_nat i) /\
    forall k i, pes !! k = Some i ->
      loc' !! Z.to_nat i = Some (if same i then n + Z.of_nat (countb same (take k pes)) else -1).
Proof.
  intros Hmy Hnd. revert loc n s. induction pes as [|p pes IH]; intros loc n s H; cbn [populate_loop countb].
  - exists loc, s. rewrite Z.add_0_r. split; [done|]. split; [done|]. split; [done|]. split; [done|].
    intros k i. by rewrite lookup_nil.
  - apply list.NoDup_cons in Hnd as [Hp Hnd]. destruct (H p (list_elem_of_here _ _)) as (Hpb & Hpl & [V1 V2] & Hs).
    destruct (rt_get_spec _ _ _ _ V1) as (s1 & E1 & M1 & K1).
    change (zlen (le_bytes 8 _)) with sizeof_size_t in E1. run_step E1. cbn [fst snd negb Z.eqb].
    assert (0 <= zlen (name p) < 256 ^ Z.of_nat 8) as Hv by (pose proof (zlen_nonneg (name p)); change (256 ^ Z.of_nat 8) with (2 ^ 64); lia).
    rewrite (le_value_bytes 8 _ Hv).
    destruct (rt_get_spec s1 _ _ _ (K1 _ _ _ V2)) as (s2 & E2 & M2 & K2). run_step E2. cbn [fst snd negb Z.eqb].
    rewrite Z.gtb_ltb, (proj2 (Z.ltb_ge _ _)) by lia. rewrite hostname_fits by done.
    replace (Z.to_nat (zlen (name p))) with (length (name p)) by (unfold zlen; lia). rewrite Hs.
    assert (forall v n', exists loc' s', populate_loop MAX_HOSTNAME_LEN (0, myname) pes (<[Z.to_nat p := v]> loc) n' s2
        = Some ((0, loc', n' + Z.of_nat (countb same pes)), s') /\ rt_same s s' /\ length loc' = length loc /\
        loc' !! Z.to_nat p = Some v /\
        (forall i, 0 <= i -> i ∉ p :: pes -> loc' !! Z.to_nat i = loc !! Z.to_nat i) /\
        (forall k i, pes !! k = Some i -> loc' !! Z.to_nat i = Some (if same i then n' + Z.of_nat (countb same (take k pes)) else -1)))
      as Hrest.
    { intros v n'. destruct (IH Hnd (<[Z.to_nat p := v]> loc) n' s2) as (loc' & s' & E & M & L & F & G).
      { intros i Hi. destruct (H i) as (? & ? & [] & ?); [by apply list_elem_of_further|].
        unfold zlen. rewrite length_insert. split; [done|]. split; [done|]. split; [split; auto|done]. }
      rewrite length_insert in L. exists loc', s'. split; [done|]. split; [by repeat (etransitivity; [done|])|]. split; [done|]. split; [|split; [|done]].
      - rewrite F; [|lia|done]. apply list_lookup_insert_eq. unfold zlen in Hpb. lia.
      - intros i Hi [Hne Hni]%not_elem_of_cons. rewrite F by done. apply list_lookup_insert_ne. lia. }
    destruct (Hrest (if same p then n else -1) (if same p then n + 1 else n)) as (loc' & s' & E & M & L & Hpv & F & G).
    exists loc', s'. split; [|split; [done|split; [done|split; [done|]]]].
    + rewrite Nat2Z.inj_add, Z.add_assoc. destruct (same p); rewrite E; [done|by rewrite Z.add_0_r].
    + intros [|k] i; cbn [lookup list_lookup take countb].
      * intros [= <-]. rewrite Hpv. destruct (same p); [|done]. f_equal. simpl. lia.
      * intros Hi. rewrite (G k i Hi). f_equal. destruct (same i), (same p); simpl; lia.
Qed.

(** The node map of PE [me]: the PEs with its host name are numbered in rank order from 0,
    the others get -1. *)
Definition on_node (name : Z -> list Z) (me i : Z) : bool := bool_decide (name i = name me).
Definition node_map (name : Z -> list Z) (me size : Z) (location_array : list Z) : Prop :=
  zlen location_array = size /\
  forall i, 0 <= i < size -> location_array !! Z.to_nat i =
    Some (if on_node name me i then Z.of_nat (countb (on_node name me) (upto 0 i)) else -1).

Lemma take_upto_to n i : 0 <= i <= n -> take (Z.to_nat i) (upto 0 n) = upto 0 i.
Proof. intros H. unfold upto, zrange. rewrite !Z.sub_0_r, firstn_map, take_seq. do 2 f_equal. lia. Qed.

(** When no host name is a proper prefix of this PE's, the scan finds its node. *)
Lemma populate_node_spec (name : Z -> list Z) (me size : Z) loc n s :
  0 <= me < size -> zlen loc = size ->
  (forall i, 0 <= i < size -> published s i (name i) /\ no_nul (name i) /\ zlen (name i) <= MAX_HOSTNAME_LEN) ->
  (forall i, 0 <= i < size -> name i `prefix_of` name me -> name i = name me) ->
  exists loc' s', shmem_runtime_util_populate_node MAX_HOSTNAME_LEN (0, name me) loc size n s
      = Some ((0, loc', Z.of_nat (countb (on_node name me) (upto 0 size))), s') /\
    rt_same s s' /\ node_map name me size loc'.
Proof.
  intros Hme Hloc Hi Hp. set (same := on_node name me).
  destruct (populate_loop_spec name (name me) same (upto 0 size) loc 0 s) as (loc' & s' & E & M & Hl & _ & Hk).
  - by apply Hi.
  - apply NoDup_upto.
  - intros i Hr%elem_of_upto. destruct (Hi i Hr) as (? & Hn & ?). split; [lia|]. split; [done|]. split; [done|].
    apply eq_iff_eq_true. unfold same, on_node. rewrite strncmp_eq_prefix, bool_decide_eq_true by done.
    split; [auto|by intros ->].
  - exists loc', s'. unfold shmem_runtime_util_populate_node. cbn [fst negb Z.eqb]. run_step E. cbn [negb Z.eqb].
    rewrite Z.add_0_l. pose proof (countb_le same (upto 0 size)) as Hle. rewrite length_upto in Hle.
    assert (0 < countb same (upto 0 size))%nat as Hpos
      by (apply (countb_pos same (upto 0 size) me); [by apply elem_of_upto|by apply bool_decide_eq_true_2]).
    rewrite (proj2 (Z.ltb_ge _ 1)), Z.gtb_ltb, (proj2 (Z.ltb_ge size _)) by lia.
    split; [done|]. split; [done|]. split; [unfold zlen in *; lia|]. intros i Hr.
    rewrite (Hk (Z.to_nat i) i) by (rewrite lookup_upto by lia; f_equal; lia).
    by rewrite take_upto_to by lia.
Qed.
End names.
