(* ===== verification/OfiMr.v ===== *)
(** * Remote addresses of the OFI transport ([transport_ofi.h], [transport_ofi.c])

    The data segment and the heap of every PE are registered with the provider under keys;
    keys and, if needed, base addresses go through the key-value store of the runtime, and
    [shmem_transport_ofi_get_mr] translates a local symmetric address into the address and
    key that name the same object at another PE.  How depends on two build options and on
    the provider's mode; that all variants agree is the theorem. *)

From stdpp Require Import strings.
From S2P Require Import Prelude ErrState Internal ReduceOp Util PmiUtil SymHeap RuntimeUtil.
Local Open Scope Z_scope.
Local Open Scope st_scope.

(** The build options, and the provider's answers: its mode bits and, with FI_MR_PROV_KEY,
    the keys it chose for this PE's heap and data segment. *)
Class mr_config := MrConfig {
  ENABLE_MR_SCALABLE : bool;
  ENABLE_REMOTE_VIRTUAL_ADDRESSING : bool;
  FI_MR_PROV_KEY : bool;
  FI_MR_VIRT_ADDR : bool }.

Record mr_tables := MrTables {
  target_heap_keys : list Z; target_data_keys : list Z; target_heap_addrs : list Z; target_data_addrs : list Z }.

Definition UINT64_MAX : Z := 2 ^ 64 - 1.

Section ofi_mr.
Context {S : Type} {R : Runtime S} {cfg : mr_config}.

(** What [allocate_recv_cntr_mr] registers: base, length, requested key. *)
Definition registrations (r : regions) : list (Z * Z * Z) :=
  if ENABLE_MR_SCALABLE && ENABLE_REMOTE_VIRTUAL_ADDRESSING then [(0, UINT64_MAX, 0)]
  else [(heap_base r, heap_length r, 1); (data_base r, data_length r, 0)].

(** ** Publishing *)

Definition put_word (key : list Z) (v : Z) : ST S Z := rt_put key (le_bytes 8 v).

(** The return value, and [use_absolute_address]. *)
Definition publish_mr_info (r : regions) (prov_heap_key prov_data_key : Z) : ST S (Z * bool) :=
  if ENABLE_MR_SCALABLE then ret (0, false)
  else
    let heap_key := if FI_MR_PROV_KEY then prov_heap_key else 1 in
    let data_key := if FI_MR_PROV_KEY then prov_data_key else 0 in
    err <- put_word (chars "fi_heap_key") heap_key ;
    if negb (err =? 0) then ret (1, false)
    else
      err <- put_word (chars "fi_data_key") data_key ;
      if negb (err =? 0) then ret (1, false)
      else if ENABLE_REMOTE_VIRTUAL_ADDRESSING then ret (0, FI_MR_VIRT_ADDR)
      else
        let heap_addr := if FI_MR_VIRT_ADDR then heap_base r else 0 in
        let data_addr := if FI_MR_VIRT_ADDR then data_base r else 0 in
        err <- put_word (chars "fi_heap_addr") heap_addr ;
        if negb (err =? 0) then ret (1, false)
        else
          err <- put_word (chars "fi_data_addr") data_addr ;
          if negb (err =? 0) then ret (1, false) else ret (0, false).

(** ** Reading the tables *)

(** The loop over the PEs that fills two tables; the tables come from [malloc], and every
    entry is written. *)
Fixpoint fill_loop (k1 k2 : list Z) (pes : list Z) (t1 t2 : list Z) : ST S (Z * list Z * list Z) :=
  match pes with
  | [] => ret (0, t1, t2)
  | i :: pes =>
      r1 <- rt_get i k1 8 ;
      if negb (r1.1 =? 0) then ret (1, t1, t2)
      else
        let t1 := <[Z.to_nat i := le_value r1.2]> t1 in
        r2 <- rt_get i k2 8 ;
        if negb (r2.1 =? 0) then ret (1, t1, t2)
        else fill_loop k1 k2 pes t1 (<[Z.to_nat i := le_value r2.2]> t2)
  end.

(** [malloc] tells of each of the four allocations whether it answers. *)
Definition populate_mr_tables (malloc : nat -> bool) (num_pes : Z) : ST S (Z * mr_tables) :=
  let fresh := replicate (Z.to_nat num_pes) 0 in
  if ENABLE_MR_SCALABLE then ret (0, MrTables [] [] [] [])
  else if negb (malloc 0%nat) then ret (1, MrTables [] [] [] [])
  else if negb (malloc 1%nat) then ret (1, MrTables fresh [] [] [])
  else
    r <- fill_loop (chars "fi_heap_key") (chars "fi_data_key") (upto 0 num_pes) fresh fresh ;
    let '(err, heap_keys, data_keys) := r in
    if negb (err =? 0) then ret (1, MrTables heap_keys data_keys [] [])
    else if ENABLE_REMOTE_VIRTUAL_ADDRESSING then ret (0, MrTables heap_keys data_keys [] [])
    else if negb (malloc 2%nat) then ret (1, MrTables heap_keys data_keys [] [])
    else if negb (malloc 3%nat) then ret (1, MrTables heap_keys data_keys fresh [])
    else
      r <- fill_loop (chars "fi_heap_addr") (chars "fi_data_addr") (upto 0 num_pes) fresh fresh ;
      let '(err, heap_addrs, data_addrs) := r in
      ret (if negb (err =? 0) then 1 else 0, MrTables heap_keys data_keys heap_addrs data_addrs).

(** ** The translation *)

Definition in_data (r : regions) (addr : Z) : bool := (addr >=? data_base r) && (addr <? ptr_add (data_base r) (data_length r)).
Definition in_heap (r : regions) (addr : Z) : bool := (addr >=? heap_base r) && (addr <? ptr_add (heap_base r) (heap_length r)).

(** [None] is the abort for an address outside the symmetric areas. *)
Definition shmem_transport_ofi_get_mr (r : regions) (t : mr_tables) (use_absolute_address : bool) (addr dest_pe : Z) :
    option (Z * Z) :=
  let pe := Z.to_nat dest_pe in
  if ENABLE_MR_SCALABLE then
    if ENABLE_REMOTE_VIRTUAL_ADDRESSING then Some (addr, 0)
    else if in_data r addr then Some (addr - data_base r, 0)
    else if in_heap r addr then Some (addr - heap_base r, 1)
    else None
  else if in_data r addr then
    key ← target_data_keys t !! pe;
    if ENABLE_REMOTE_VIRTUAL_ADDRESSING
    then Some (if use_absolute_address then addr else addr - data_base r, key)
    else base ← target_data_addrs t !! pe; Some (ptr_add base (addr - data_base r), key)
  else if in_heap r addr then
    key ← target_heap_keys t !! pe;
    if ENABLE_REMOTE_VIRTUAL_ADDRESSING
    then Some (if use_absolute_address then addr else addr - heap_base r, key)
    else base ← target_heap_addrs t !! pe; Some (ptr_add base (addr - heap_base r), key)
  else None.

(** ** The addresses of the endpoints *)

(** [fi_getname] answers a code and the bytes of the name; the result is the return value
    and the length of an address. *)
Definition publish_av_info (fi_getname : Z * list Z) : ST S (Z * Z) :=
  let '(rc, epname) := fi_getname in
  if negb (rc =? 0) || (zlen epname >? 128) then ret (rc, 0)
  else
    rc <- rt_put (chars "fi_epname") epname ;
    if negb (rc =? 0) then ret (rc, 0) else ret (rc, zlen epname).

Fixpoint names_loop (pes : list Z) (addrlen : Z) : ST S (list (list Z)) :=
  match pes with
  | [] => ret []
  | i :: pes =>
      r <- rt_get i (chars "fi_epname") addrlen ;
      if negb (r.1 =? 0) then stop else rest <- names_loop pes addrlen ; ret (r.2 :: rest)
  end.

(** [fi_av_insert] answers the number of addresses it inserted. *)
Definition populate_av (malloc_ok : bool) (fi_av_insert : list (list Z) -> Z) (num_pes addrlen : Z) : ST S Z :=
  if negb malloc_ok then ret 1
  else
    alladdrs <- names_loop (upto 0 num_pes) addrlen ;
    let rc := fi_av_insert alladdrs in
    if negb (rc =? num_pes) then ret rc else ret 0.
End ofi_mr.

(** ** Proofs *)

(** What the provider does with an address and a key: it looks up the region registered
    under the key; with FI_MR_VIRT_ADDR the address is the target's virtual address,
    otherwise an offset. *)
Definition resolve (virt : bool) (regs : list (Z * Z * Z)) (addr key : Z) : option Z :=
  match list_find (fun reg => reg.2 = key) regs with
  | Some (_, (base, len, _)) =>
      let a := if virt then addr else base + addr in
      if (base <=? a) && (a <? base + len) then Some a else None
  | None => None
  end.

Section proof.
Context {S : Type} {R : Runtime S} {K : RuntimeKvs S} {cfg : mr_config}.
Implicit Types (s : S) (r : regions).

(** The regions of a process: apart, and inside the address space. *)
Record regions_ok r : Prop := {
  ro_data : 0 <= data_base r /\ 0 <= data_length r /\ data_base r + data_length r < 2 ^ 64;
  ro_heap : 0 <= heap_base r /\ 0 <= heap_length r /\ heap_base r + heap_length r < 2 ^ 64;
  ro_apart : data_base r + data_length r <= heap_base r \/ heap_base r + heap_length r <= data_base r }.

Lemma in_data_iff r a : regions_ok r -> in_data r a = true <-> data_base r <= a < data_base r + data_length r.
Proof.
  intros [Hd _ _]. unfold in_data, ptr_add. rewrite wrap_u_id by lia. rewrite Z.geb_leb, andb_true_iff, Z.leb_le, Z.ltb_lt. lia.
Qed.

Lemma in_heap_iff r a : regions_ok r -> in_heap r a = true <-> heap_base r <= a < heap_base r + heap_length r.
Proof.
  intros [_ Hh _]. unfold in_heap, ptr_add. rewrite wrap_u_id by lia. rewrite Z.geb_leb, andb_true_iff, Z.leb_le, Z.ltb_lt. lia.
Qed.

(** The job: the regions of every PE, and the keys its provider chose. *)
Context (n : Z) (reg : Z -> regions) (prov_heap prov_data : Z -> Z).

Definition heap_key (i : Z) : Z := if ENABLE_MR_SCALABLE then 1 else if FI_MR_PROV_KEY then prov_heap i else 1.
Definition data_key (i : Z) : Z := if ENABLE_MR_SCALABLE then 0 else if FI_MR_PROV_KEY then prov_data i else 0.

(** The regions of PE [i] under the keys they got. *)
Definition registered (i : Z) : list (Z * Z * Z) :=
  map (fun '(base, len, k) => (base, len, if ENABLE_MR_SCALABLE || negb FI_MR_PROV_KEY then k else if k =? 1 then prov_heap i else prov_data i))
    (registrations (reg i)).

Record job_ok : Prop := {
  jo_regions : forall i, 0 <= i < n -> regions_ok (reg i);
  jo_keys : forall i, 0 <= i < n -> 0 <= prov_heap i < 2 ^ 64 /\ 0 <= prov_data i < 2 ^ 64 /\ prov_heap i <> prov_data i;
  jo_same : forall i j, 0 <= i < n -> 0 <= j < n -> data_length (reg i) = data_length (reg j) /\ heap_length (reg i) = heap_length (reg j);
  jo_virtual : ENABLE_REMOTE_VIRTUAL_ADDRESSING = true -> forall i j, 0 <= i < n -> 0 <= j < n ->
    data_base (reg i) = data_base (reg j) /\ heap_base (reg i) = heap_base (reg j);
  jo_scalable : ENABLE_MR_SCALABLE = true -> FI_MR_VIRT_ADDR = false }.

(** What PE [i] publishes. *)
Definition mr_entries (i : Z) : list (list Z * list Z) :=
  if ENABLE_MR_SCALABLE then []
  else [(chars "fi_heap_key", le_bytes 8 (heap_key i)); (chars "fi_data_key", le_bytes 8 (data_key i))] ++
    if ENABLE_REMOTE_VIRTUAL_ADDRESSING then []
    else [(chars "fi_heap_addr", le_bytes 8 (if FI_MR_VIRT_ADDR then heap_base (reg i) else 0));
          (chars "fi_data_addr", le_bytes 8 (if FI_MR_VIRT_ADDR then data_base (reg i) else 0))].
Definition entries_visible s (i : Z) (l : list (list Z * list Z)) : Prop := forall k b, (k, b) ∈ l -> rt_visible s i k b.

(** Publishing one entry after another, under distinct keys. *)
Record publishing (s0 s : S) (vis todo : list (list Z * list Z)) : Prop := {
  pu_same : rt_same s0 s;
  pu_visible : entries_visible s (rt_me s0) vis;
  pu_room : forall k b, (k, b) ∈ todo -> rt_room s k b;
  pu_keys : NoDup (map fst (todo ++ vis)) }.

Lemma put_step s0 s vis todo k b : publishing s0 s vis ((k, b) :: todo) ->
  exists s', rt_put k b s = Some (0, s') /\ publishing s0 s' ((k, b) :: vis) todo.
Proof.
  intros [Hs Hv Hr Hk]. destruct (rt_put_spec s k b) as (s' & E & M & V & P & R'); [apply Hr, list_elem_of_here|].
  exists s'. split; [done|]. rewrite (rt_same_me _ _ Hs) in V, P. simpl in Hk. apply list.NoDup_cons in Hk as [Hn Hk].
  assert (forall k' b', (k', b') ∈ todo ++ vis -> k' <> k) as Hne.
  { intros k' b' H ->. apply Hn. apply (list_elem_of_fmap_2 fst) in H. done. }
  split.
  - by etransitivity.
  - intros k' b' [[= -> ->]|H]%elem_of_cons; [done|]. apply P; [by apply Hv|]. intros [= E']. eapply Hne; [|exact E'].
    apply elem_of_app. by right.
  - intros k' b' H. apply R'; [|apply Hr; by apply list_elem_of_further]. eapply Hne. apply elem_of_app. by left.
  - rewrite <- Permutation_middle. simpl. apply list.NoDup_cons. by split.
Qed.

Lemma publish_start s l : (forall k b, (k, b) ∈ l -> rt_room s k b) -> NoDup (map fst l) -> publishing s s [] l.
Proof. intros Hr Hn. split; [done|by intros k b ?%elem_of_nil|done|by rewrite app_nil_r]. Qed.

Lemma publish_spec s i : rt_me s = i -> (forall k b, (k, b) ∈ mr_entries i -> rt_room s k b) ->
  exists s', publish_mr_info (reg i) (prov_heap i) (prov_data i) s =
      Some ((0, negb ENABLE_MR_SCALABLE && ENABLE_REMOTE_VIRTUAL_ADDRESSING && FI_MR_VIRT_ADDR), s') /\
    rt_same s s' /\ entries_visible s' i (mr_entries i).
Proof.
  intros Hi Hr. assert (publishing s s [] (mr_entries i)) as H0.
  { apply publish_start; [done|]. unfold mr_entries. destruct ENABLE_MR_SCALABLE, ENABLE_REMOTE_VIRTUAL_ADDRESSING;
      apply (bool_decide_unpack _); vm_compute; exact I. }
  unfold publish_mr_info, mr_entries, heap_key, data_key, put_word in *.
  destruct ENABLE_MR_SCALABLE; [exists s; split; [done|]; split; [done|]; by intros k b ?%elem_of_nil|].
  destruct (put_step _ _ _ _ _ _ H0) as (s1 & E1 & H1). run_step E1. cbn [negb Z.eqb].
  destruct (put_step _ _ _ _ _ _ H1) as (s2 & E2 & H2). run_step E2. cbn [negb Z.eqb].
  destruct ENABLE_REMOTE_VIRTUAL_ADDRESSING.
  - exists s2. split; [done|]. split; [apply H2|]. intros k b H. rewrite <- Hi. apply (pu_visible _ _ _ _ H2).
    revert H. rewrite app_nil_r, !elem_of_cons. tauto.
  - destruct (put_step _ _ _ _ _ _ H2) as (s3 & E3 & H3). run_step E3. cbn [negb Z.eqb].
    destruct (put_step _ _ _ _ _ _ H3) as (s4 & E4 & H4). run_step E4. cbn [negb Z.eqb].
    exists s4. split; [done|]. split; [apply H4|]. intros k b H. rewrite <- Hi. apply (pu_visible _ _ _ _ H4).
    revert H. simpl. rewrite !elem_of_cons. tauto.
Qed.

(** ** Reading the tables *)

Definition table (f : Z -> Z) : list Z := map f (upto 0 n).

Lemma table_lookup f i : 0 <= i < n -> table f !! Z.to_nat i = Some (f i).
Proof.
  intros Hi. unfold table. rewrite list_lookup_fmap, lookup_upto by lia. simpl. do 2 f_equal. lia.
Qed.

(** Two words under the keys [k1] and [k2] of every PE. *)
Definition words_visible s (k1 k2 : list Z) (f1 f2 : Z -> Z) : Prop := forall i, 0 <= i < n ->
  rt_visible s i k1 (le_bytes 8 (f1 i)) /\ rt_visible s i k2 (le_bytes 8 (f2 i)) /\ 0 <= f1 i < 2 ^ 64 /\ 0 <= f2 i < 2 ^ 64.

Definition keeps s s' : Prop := rt_same s s' /\ forall pe k b, rt_visible s pe k b -> rt_visible s' pe k b.
Lemma keeps_trans s1 s2 s3 : keeps s1 s2 -> keeps s2 s3 -> keeps s1 s3.
Proof. intros [M1 V1] [M2 V2]. split; [by etransitivity|auto]. Qed.

Lemma keeps_words s s' k1 k2 f1 f2 : keeps s s' -> words_visible s k1 k2 f1 f2 -> words_visible s' k1 k2 f1 f2.
Proof. intros [_ V] H i Hi. destruct (H i Hi) as (? & ? & ? & ?). auto. Qed.

Lemma word_value v : 0 <= v < 2 ^ 64 -> le_value (le_bytes 8 v) = v.
Proof. intros H. by apply (le_value_bytes 8). Qed.

(** The loop, from the PE [i] on: the entries before it are in the tables. *)
Lemma fill_loop_spec k1 k2 f1 f2 s m i t1 t2 : words_visible s k1 k2 f1 f2 -> 0 <= i -> i + Z.of_nat m = n ->
  length t1 = Z.to_nat n -> length t2 = Z.to_nat n ->
  exists s', fill_loop k1 k2 (zrange i m) t1 t2 s =
      Some ((0, take (Z.to_nat i) t1 ++ map f1 (zrange i m), take (Z.to_nat i) t2 ++ map f2 (zrange i m)), s') /\ keeps s s'.
Proof.
  revert i s t1 t2. induction m as [|m IH]; intros i s t1 t2 Hw Hi Hm H1 H2.
  - exists s. unfold zrange. simpl. rewrite !take_ge, !app_nil_r by lia. split; [done|]. by split.
  - assert (zrange i (Datatypes.S m) = i :: zrange (i + 1) m) as ->.
    { unfold zrange. simpl. rewrite Z.add_0_r. f_equal. rewrite <- seq_shift, map_map. apply map_ext. lia. }
    destruct (Hw i) as (V1 & V2 & B1 & B2); [lia|]. cbn [fill_loop map].
    destruct (rt_get_spec _ _ _ _ V1) as (s1 & E1 & M1 & K1). change (zlen (le_bytes 8 (f1 i))) with 8 in E1.
    run_step E1. cbn [fst snd negb Z.eqb].
    destruct (rt_get_spec _ _ _ _ (K1 _ _ _ V2)) as (s2 & E2 & M2 & K2). change (zlen (le_bytes 8 (f2 i))) with 8 in E2.
    run_step E2. cbn [fst snd negb Z.eqb]. rewrite !word_value by done.
    assert (keeps s s2) as Hk by (split; [by etransitivity|auto]).
    destruct (IH (i + 1) s2 (<[Z.to_nat i := f1 i]> t1) (<[Z.to_nat i := f2 i]> t2)) as (s3 & E3 & Hk3);
      [by eapply keeps_words|lia|lia|by rewrite length_insert|by rewrite length_insert|].
    exists s3. split; [|by eapply keeps_trans]. rewrite E3. replace (Z.to_nat (i + 1)) with (Datatypes.S (Z.to_nat i)) by lia.
    assert (forall v (t : list Z), length t = Z.to_nat n -> take (Datatypes.S (Z.to_nat i)) (<[Z.to_nat i := v]> t) = take (Z.to_nat i) t ++ [v]) as Htake.
    { intros v t Ht. rewrite (take_S_r _ _ v) by (apply list_lookup_insert_eq; lia). by rewrite take_insert_ge. }
    rewrite !Htake by done. by rewrite <- !app_assoc.
Qed.

Lemma fill_spec k1 k2 f1 f2 s : 0 <= n -> words_visible s k1 k2 f1 f2 ->
  exists s', fill_loop k1 k2 (upto 0 n) (replicate (Z.to_nat n) 0) (replicate (Z.to_nat n) 0) s = Some ((0, table f1, table f2), s') /\ keeps s s'.
Proof.
  intros Hn Hw. destruct (fill_loop_spec k1 k2 f1 f2 s (Z.to_nat (n - 0)) 0 (replicate (Z.to_nat n) 0) (replicate (Z.to_nat n) 0))
    as (s' & E & Hk); rewrite ?length_replicate; try lia; [done|]. by exists s'.
Qed.

Definition base_addr (f : regions -> Z) (i : Z) : Z := if FI_MR_VIRT_ADDR then f (reg i) else 0.

(** The tables of every build. *)
Definition full_tables : mr_tables :=
  if ENABLE_MR_SCALABLE then MrTables [] [] [] []
  else MrTables (table heap_key) (table data_key)
    (if ENABLE_REMOTE_VIRTUAL_ADDRESSING then [] else table (base_addr heap_base))
    (if ENABLE_REMOTE_VIRTUAL_ADDRESSING then [] else table (base_addr data_base)).

Lemma key_bounds i : job_ok -> 0 <= i < n -> 0 <= heap_key i < 2 ^ 64 /\ 0 <= data_key i < 2 ^ 64.
Proof.
  intros Hj Hi. destruct (jo_keys Hj i Hi) as (? & ? & _). unfold heap_key, data_key. destruct ENABLE_MR_SCALABLE, FI_MR_PROV_KEY; lia.
Qed.

Lemma addr_bounds i : job_ok -> 0 <= i < n -> 0 <= base_addr heap_base i < 2 ^ 64 /\ 0 <= base_addr data_base i < 2 ^ 64.
Proof.
  intros Hj Hi. destruct (jo_regions Hj i Hi) as [? ? _]. unfold base_addr. destruct FI_MR_VIRT_ADDR; lia.
Qed.

Lemma populate_spec s : job_ok -> 0 <= n -> (forall i, 0 <= i < n -> entries_visible s i (mr_entries i)) ->
  exists s', populate_mr_tables (fun _ => true) n s = Some ((0, full_tables), s') /\ keeps s s'.
Proof.
  intros Hj Hn Hv. unfold populate_mr_tables, full_tables, mr_entries in *. cbn [negb].
  destruct ENABLE_MR_SCALABLE; [exists s; split; [done|by split]|].
  destruct (fill_spec (chars "fi_heap_key") (chars "fi_data_key") heap_key data_key s Hn) as (s1 & E1 & K1).
  { intros i Hi. pose proof (Hv i Hi) as Hvi. split; [apply Hvi, list_elem_of_here|].
    split; [apply Hvi, list_elem_of_further, list_elem_of_here|]. by apply key_bounds. }
  run_step E1. cbn [negb Z.eqb]. destruct ENABLE_REMOTE_VIRTUAL_ADDRESSING; [by exists s1|].
  destruct (fill_spec (chars "fi_heap_addr") (chars "fi_data_addr") (base_addr heap_base) (base_addr data_base) s1 Hn) as (s2 & E2 & K2).
  { apply (keeps_words s); [done|]. intros i Hi. pose proof (Hv i Hi) as Hvi. split; [|split; [|by apply addr_bounds]];
      apply Hvi; simpl; rewrite !elem_of_cons; auto. }
  run_step E2. exists s2. split; [done|]. by eapply keeps_trans.
Qed.

(** ** The translation *)

(** The registrations of a PE, by kind of build. *)
Lemma registered_two i : ENABLE_MR_SCALABLE && ENABLE_REMOTE_VIRTUAL_ADDRESSING = false ->
  registered i = [(heap_base (reg i), heap_length (reg i), heap_key i); (data_base (reg i), data_length (reg i), data_key i)].
Proof.
  intros E. unfold registered, registrations, heap_key, data_key. rewrite E. simpl. by destruct ENABLE_MR_SCALABLE, FI_MR_PROV_KEY.
Qed.

Lemma keys_apart i : job_ok -> 0 <= i < n -> heap_key i <> data_key i.
Proof.
  intros Hj Hi. destruct (jo_keys Hj i Hi) as (_ & _ & ?). unfold heap_key, data_key. by destruct ENABLE_MR_SCALABLE, FI_MR_PROV_KEY.
Qed.

(** An offset into the data segment, or into the heap, of PE [i]. *)
Lemma resolve_data i d : job_ok -> 0 <= i < n -> ENABLE_MR_SCALABLE && ENABLE_REMOTE_VIRTUAL_ADDRESSING = false ->
  0 <= d < data_length (reg i) ->
  resolve FI_MR_VIRT_ADDR (registered i) (if FI_MR_VIRT_ADDR then data_base (reg i) + d else d) (data_key i) = Some (data_base (reg i) + d).
Proof.
  intros Hj Hi Hb Hd. unfold resolve. rewrite registered_two by done. pose proof (keys_apart i Hj Hi) as Hk.
  cbn [list_find snd]. rewrite decide_False by done. cbn [list_find snd]. rewrite decide_True by done. simpl.
  destruct FI_MR_VIRT_ADDR; rewrite (proj2 (Z.leb_le _ _)), (proj2 (Z.ltb_lt _ _)) by lia; done.
Qed.

Lemma resolve_heap i d : ENABLE_MR_SCALABLE && ENABLE_REMOTE_VIRTUAL_ADDRESSING = false ->
  0 <= d < heap_length (reg i) ->
  resolve FI_MR_VIRT_ADDR (registered i) (if FI_MR_VIRT_ADDR then heap_base (reg i) + d else d) (heap_key i) = Some (heap_base (reg i) + d).
Proof.
  intros Hb Hd. unfold resolve. rewrite registered_two by done. cbn [list_find snd]. rewrite decide_True by done.
  destruct FI_MR_VIRT_ADDR; rewrite (proj2 (Z.leb_le _ _)), (proj2 (Z.ltb_lt _ _)) by lia; done.
Qed.

Lemma base_offset (f : regions -> Z) i d : 0 <= f (reg i) -> 0 <= d -> f (reg i) + d < 2 ^ 64 ->
  ptr_add (base_addr f i) d = if FI_MR_VIRT_ADDR then f (reg i) + d else d.
Proof. intros H1 H2 H3. unfold ptr_add, base_addr. destruct FI_MR_VIRT_ADDR; rewrite wrap_u_id; lia. Qed.

(** The flag [use_absolute_address] that [publish_mr_info] leaves. *)
Definition absolute : bool := negb ENABLE_MR_SCALABLE && ENABLE_REMOTE_VIRTUAL_ADDRESSING && FI_MR_VIRT_ADDR.

Definition same_object (me pe a b : Z) : Prop :=
  (in_data (reg me) a = true -> b = data_base (reg pe) + (a - data_base (reg me))) /\
  (in_data (reg me) a = false -> b = heap_base (reg pe) + (a - heap_base (reg me))).

(** Everything is registered as one region of the whole address space. *)
Lemma translate_all me pe a : job_ok -> 0 <= me < n -> 0 <= pe < n -> ENABLE_MR_SCALABLE = true -> ENABLE_REMOTE_VIRTUAL_ADDRESSING = true ->
  in_data (reg me) a || in_heap (reg me) a = true ->
  resolve FI_MR_VIRT_ADDR (registered pe) a 0 = Some a /\ same_object me pe a a.
Proof.
  intros Hj Hme Hpe Es Ev Ha. destruct (jo_virtual Hj Ev me pe Hme Hpe) as [Ed Eh]. pose proof (jo_regions Hj me Hme) as Hr.
  split; [|split; intros _; lia]. rewrite (jo_scalable Hj Es). unfold registered, registrations, resolve. rewrite Es, Ev. simpl.
  apply orb_true_iff in Ha as [Ha|Ha]; [apply (in_data_iff _ _ Hr) in Ha|apply (in_heap_iff _ _ Hr) in Ha];
    destruct Hr as [? ? _]; unfold UINT64_MAX; rewrite (proj2 (Z.leb_le _ _)), (proj2 (Z.ltb_lt _ _)) by lia; done.
Qed.

Lemma scalable_keys i : ENABLE_MR_SCALABLE = true -> heap_key i = 1 /\ data_key i = 0.
Proof. unfold heap_key, data_key. by intros ->. Qed.

Lemma translate_data me pe a : job_ok -> 0 <= me < n -> 0 <= pe < n -> ENABLE_MR_SCALABLE && ENABLE_REMOTE_VIRTUAL_ADDRESSING = false ->
  in_data (reg me) a = true ->
  shmem_transport_ofi_get_mr (reg me) full_tables absolute a pe =
    Some (if FI_MR_VIRT_ADDR then data_base (reg pe) + (a - data_base (reg me)) else a - data_base (reg me), data_key pe).
Proof.
  intros Hj Hme Hpe Hb Ha. pose proof (jo_regions Hj me Hme) as Hr. pose proof (jo_regions Hj pe Hpe) as [Hp _ _].
  pose proof (jo_same Hj me pe Hme Hpe) as [Hl _]. pose proof Ha as Hd. apply (in_data_iff _ _ Hr) in Hd.
  pose proof (jo_scalable Hj) as Hscal. pose proof (jo_virtual Hj) as Hvirt.
  pose proof (scalable_keys pe) as Hkeys.
  unfold shmem_transport_ofi_get_mr, full_tables, absolute. rewrite Ha.
  destruct ENABLE_MR_SCALABLE, ENABLE_REMOTE_VIRTUAL_ADDRESSING; try done.
  - rewrite Hscal by done. by destruct Hkeys as [_ ->].
  - simpl. rewrite table_lookup by done. simpl. destruct (Hvirt eq_refl me pe Hme Hpe) as [E _]. f_equal. f_equal.
    destruct FI_MR_VIRT_ADDR; simpl; lia.
  - simpl. rewrite !table_lookup by done. simpl. rewrite (base_offset data_base) by lia. done.
Qed.

Lemma translate_heap me pe a : job_ok -> 0 <= me < n -> 0 <= pe < n -> ENABLE_MR_SCALABLE && ENABLE_REMOTE_VIRTUAL_ADDRESSING = false ->
  in_data (reg me) a = false -> in_heap (reg me) a = true ->
  shmem_transport_ofi_get_mr (reg me) full_tables absolute a pe =
    Some (if FI_MR_VIRT_ADDR then heap_base (reg pe) + (a - heap_base (reg me)) else a - heap_base (reg me), heap_key pe).
Proof.
  intros Hj Hme Hpe Hb Hd Ha. pose proof (jo_regions Hj me Hme) as Hr. pose proof (jo_regions Hj pe Hpe) as [_ Hp _].
  pose proof (jo_same Hj me pe Hme Hpe) as [_ Hl]. pose proof Ha as Hh. apply (in_heap_iff _ _ Hr) in Hh.
  pose proof (jo_scalable Hj) as Hscal. pose proof (jo_virtual Hj) as Hvirt. pose proof (scalable_keys pe) as Hkeys.
  unfold shmem_transport_ofi_get_mr, full_tables, absolute. rewrite Hd, Ha.
  destruct ENABLE_MR_SCALABLE, ENABLE_REMOTE_VIRTUAL_ADDRESSING; try done.
  - rewrite Hscal by done. by destruct Hkeys as [-> _].
  - simpl. rewrite table_lookup by done. simpl. destruct (Hvirt eq_refl me pe Hme Hpe) as [_ E]. f_equal. f_equal.
    destruct FI_MR_VIRT_ADDR; simpl; lia.
  - simpl. rewrite !table_lookup by done. simpl. rewrite (base_offset heap_base) by lia. done.
Qed.

(** Any other address aborts. *)
Lemma translate_none r t u a pe : in_data r a || in_heap r a = false -> ENABLE_MR_SCALABLE && ENABLE_REMOTE_VIRTUAL_ADDRESSING = false ->
  shmem_transport_ofi_get_mr r t u a pe = None.
Proof.
  intros [Hd Hh]%orb_false_iff Hb. unfold shmem_transport_ofi_get_mr. rewrite Hd, Hh.
  destruct ENABLE_MR_SCALABLE, ENABLE_REMOTE_VIRTUAL_ADDRESSING; done.
Qed.

Lemma translate me pe a : job_ok -> 0 <= me < n -> 0 <= pe < n -> in_data (reg me) a || in_heap (reg me) a = true ->
  exists addr key b, shmem_transport_ofi_get_mr (reg me) full_tables absolute a pe = Some (addr, key) /\
    resolve FI_MR_VIRT_ADDR (registered pe) addr key = Some b /\ same_object me pe a b.
Proof.
  intros Hj Hme Hpe Ha. pose proof (jo_regions Hj me Hme) as Hr. pose proof (jo_same Hj me pe Hme Hpe) as [Ld Lh].
  destruct (ENABLE_MR_SCALABLE && ENABLE_REMOTE_VIRTUAL_ADDRESSING) eqn:Eb.
  - apply andb_true_iff in Eb as [Es Ev]. destruct (translate_all me pe a Hj Hme Hpe Es Ev Ha) as [Hres Hsame].
    exists a, 0, a. split; [unfold shmem_transport_ofi_get_mr; by rewrite Es, Ev|by split].
  - destruct (in_data (reg me) a) eqn:Ed.
    + rewrite translate_data by done. pose proof Ed as Hd. apply (in_data_iff _ _ Hr) in Hd. eexists _, _, _. split; [done|].
      split; [apply resolve_data; [done|done|done|lia]|]. split; [done|congruence].
    + simpl in Ha. rewrite translate_heap by done. pose proof Ha as Hh. apply (in_heap_iff _ _ Hr) in Hh. eexists _, _, _. split; [done|].
      split; [apply resolve_heap; [done|lia]|]. split; [congruence|done].
Qed.
End proof.

(** C15: a translated address names the same object at the target.  For each of the builds
    (scalable or not, with or without remote virtual addressing) and each mode of the
    provider (keys and addresses its own or not): every PE publishes its keys and bases
    with success; a PE that sees what the others published reads its tables; and then
    every address in its data segment or heap translates, for every PE, to an address and
    key that the target's provider resolves to the same offset in the same segment there;
    an address outside both aborts, unless the whole address space is registered. *)
Theorem mr_translation {S : Type} {R : Runtime S} {K : RuntimeKvs S} {cfg : mr_config}
    (n : Z) (reg : Z -> regions) (prov_heap prov_data : Z -> Z) (s : S) :
  job_ok n reg prov_heap prov_data -> 0 <= rt_me s < n ->
  (forall k b, (k, b) ∈ mr_entries reg prov_heap prov_data (rt_me s) -> rt_room s k b) ->
  exists use_absolute s1, publish_mr_info (reg (rt_me s)) (prov_heap (rt_me s)) (prov_data (rt_me s)) s = Some ((0, use_absolute), s1) /\
    rt_same s s1 /\ entries_visible s1 (rt_me s) (mr_entries reg prov_heap prov_data (rt_me s)) /\
    forall s2, rt_same s s2 -> (forall i, 0 <= i < n -> entries_visible s2 i (mr_entries reg prov_heap prov_data i)) ->
      exists t s3, populate_mr_tables (fun _ => true) n s2 = Some ((0, t), s3) /\ rt_same s s3 /\
        (forall a pe, in_data (reg (rt_me s)) a || in_heap (reg (rt_me s)) a = false ->
          ENABLE_MR_SCALABLE && ENABLE_REMOTE_VIRTUAL_ADDRESSING = false ->
          shmem_transport_ofi_get_mr (reg (rt_me s)) t use_absolute a pe = None) /\
        forall a pe, in_data (reg (rt_me s)) a || in_heap (reg (rt_me s)) a = true -> 0 <= pe < n ->
          exists addr key b, shmem_transport_ofi_get_mr (reg (rt_me s)) t use_absolute a pe = Some (addr, key) /\
            resolve FI_MR_VIRT_ADDR (registered reg prov_heap prov_data pe) addr key = Some b /\ same_object reg (rt_me s) pe a b.
Proof.
  intros Hj Hme Hroom. destruct (publish_spec n reg prov_heap prov_data s (rt_me s) eq_refl Hroom) as (s1 & E1 & M1 & V1).
  eexists _, s1. split; [exact E1|]. split; [done|]. split; [done|]. intros s2 M2 V2.
  destruct (populate_spec n reg prov_heap prov_data s2 Hj ltac:(lia) V2) as (s3 & E3 & M3 & _). eexists _, s3. split; [exact E3|].
  split; [by etransitivity|]. split; [intros a pe; apply translate_none|]. intros a pe Ha Hpe. by apply (translate n reg prov_heap prov_data).
Qed.

(** ** An example: a store shared by the PEs *)
Section example.

Definition store : Type := Z * (Z -> list Z -> option (list Z)).
#[local] Instance store_runtime : Runtime store := {
  rt_put k b := fun s => Some (0, (s.1, fun pe k' => if decide (pe = s.1 /\ k' = k) then Some b else s.2 pe k'));
  rt_get pe k len := fun s => match s.2 pe k with Some b => Some ((0, b), s) | None => Some ((1, []), s) end }.

#[local] Program Instance store_kvs : RuntimeKvs store := {
  rt_me s := s.1; rt_same s s' := s.1 = s'.1; rt_visible s pe k b := s.2 pe k = Some b; rt_room s k b := True }.
Next Obligation. by split; [|intros ? ? ? -> ->]. Qed.
Next Obligation. by intros. Qed.
Next Obligation.
  intros s k b _. eexists. split; [done|]. split; [done|]. split; [simpl; by rewrite decide_True|]. split; [|done].
  intros pe k' b' H Hne. simpl. rewrite decide_False; [done|]. intros [-> ->]. by apply Hne.
Qed.
Next Obligation. simpl. intros s pe k b H. exists s. rewrite H. done. Qed.

#[local] Instance basic_mr : mr_config := {
  ENABLE_MR_SCALABLE := false; ENABLE_REMOTE_VIRTUAL_ADDRESSING := false; FI_MR_PROV_KEY := true; FI_MR_VIRT_ADDR := true }.

(** Two PEs with different layouts and provider keys. *)
Definition two_regions (i : Z) : regions := Regions (4096 * (i + 1)) 100 (2 ^ 20 * (i + 1)) 1000.

Lemma two_job : job_ok 2 two_regions (fun i => 77 + i) (fun i => 5 + i).
Proof.
  split; simpl; try done; intros i Hi; try (split; simpl; lia); lia.
Qed.

Lemma mr_translation_witness : exists use_absolute s1,
  publish_mr_info (two_regions 0) 77 5 (0, fun _ _ => None) = Some ((0, use_absolute), s1) /\
  forall s2, s2.1 = 0 -> (forall i, 0 <= i < 2 -> entries_visible s2 i (mr_entries two_regions (fun i => 77 + i) (fun i => 5 + i) i)) ->
    exists t s3, populate_mr_tables (fun _ => true) 2 s2 = Some ((0, t), s3) /\
      exists addr key b, shmem_transport_ofi_get_mr (two_regions 0) t use_absolute 4100 1 = Some (addr, key) /\ b = 8196 /\
        resolve true (registered two_regions (fun i => 77 + i) (fun i => 5 + i) 1) addr key = Some b.
Proof.
  destruct (mr_translation 2 two_regions (fun i => 77 + i) (fun i => 5 + i) (0, fun _ _ => None)) as (u & s1 & E & _ & _ & H).
  - exact two_job.
  - simpl. lia.
  - intros k b _. exact I.
  - exists u, s1. split; [exact E|]. intros s2 H2 V2. destruct (H s2 (eq_sym H2) V2) as (t & s3 & E3 & _ & _ & Ht). exists t, s3.
    split; [exact E3|]. destruct (Ht 4100 1 eq_refl ltac:(lia)) as (addr & key & b & E4 & E5 & Hb & _). exists addr, key, b.
    split; [exact E4|]. split; [|exact E5]. exact (Hb eq_refl).
Defined.

(** [fi_av_insert] that inserts no address answers 0, which [populate_av] returns as success. *)
Lemma populate_av_none_inserted (n addrlen : Z) (s : store) (names : list (list Z)) :
  n <> 0 -> names_loop (upto 0 n) addrlen s = Some (names, s) -> populate_av true (fun _ => 0) n addrlen s = Some (0, s).
Proof.
  intros Hn E. unfold populate_av. cbn [negb]. run_step E. by rewrite (proj2 (Z.eqb_neq 0 n)) by lia.
Qed.
End example.
