(* ===== verification/FabricCtl.v ===== *)
(** * Opening and closing libfabric objects

    The control path of the transport opens fabrics, domains, endpoints, counters, queues,
    memory regions and shared contexts, binds them to each other and closes them.  These
    calls of libfabric are the interface [FabricCtl]; [FabricCtlLaws] is what its manual
    says of them: a failed call changes nothing, a new object depends on the one it was
    opened from and on those bound to it, and an object closes when no open object depends
    on it.  An example provider has these laws. *)

From S2P Require Import Prelude.
Local Open Scope Z_scope.

(** The objects of the transport; those of a communication context carry its address. *)
Inductive fi_obj :=
| Fabfd | Domainfd | Avfd | TargetEp | TargetCq | TargetCntr | TargetMr | HeapMr | DataMr
| StxFd (i : Z) | CtxPutCntr (c : Z) | CtxGetCntr (c : Z) | CtxCq (c : Z) | CtxEp (c : Z).
#[export] Instance fi_obj_eq_dec : EqDecision fi_obj.
Proof. solve_decision. Defined.

Class FabricCtl (F : Type) := {
  fc_open : fi_obj -> option fi_obj -> F -> Z * F;
  fc_bind : fi_obj -> fi_obj -> F -> Z * F;
  fc_enable : fi_obj -> F -> Z * F;
  fc_close : fi_obj -> F -> Z * F }.

Class FabricCtlLaws (F : Type) `{FabricCtl F} := {
  live : F -> fi_obj -> Prop;
  needs : F -> fi_obj -> fi_obj -> Prop;
  law_open o p f rc f' : fc_open o p f = (rc, f') ->
    (rc = 0 -> (forall x, live f' x <-> x = o \/ live f x) /\ forall u v, needs f' u v -> needs f u v \/ u = o /\ p = Some v) /\
    (rc <> 0 -> (forall x, live f' x <-> live f x) /\ forall u v, needs f' u v -> needs f u v);
  law_bind o v f rc f' : fc_bind o v f = (rc, f') ->
    (forall x, live f' x <-> live f x) /\ forall u w, needs f' u w -> needs f u w \/ u = o /\ w = v;
  law_enable o f rc f' : fc_enable o f = (rc, f') ->
    (forall x, live f' x <-> live f x) /\ forall u v, needs f' u v -> needs f u v;
  law_close o f rc f' : fc_close o f = (rc, f') -> live f o -> (forall u, live f u -> ~ needs f u o) ->
    rc = 0 /\ (forall x, live f' x <-> live f x /\ x <> o) /\ forall u v, needs f' u v -> needs f u v }.

(** ** An example: the open objects and what they need, in lists

    [fails] tells which of the calls that open or bind fail, counted from the start. *)
Section objects.
Context (fails : nat -> bool).

Record objects := Objects { calls : nat; opened : list fi_obj; needed : list (fi_obj * fi_obj) }.

Definition attempt (f : objects -> objects) (s : objects) : Z * objects :=
  if fails (calls s) then (-12, Objects (S (calls s)) (opened s) (needed s))
  else let s := f s in (0, Objects (S (calls s)) (opened s) (needed s)).

#[local] Instance objects_ctl : FabricCtl objects := {
  fc_open o p := attempt (fun s => Objects (calls s) (o :: opened s)
    (match p with Some v => (o, v) :: needed s | None => needed s end));
  fc_bind o v := attempt (fun s => Objects (calls s) (opened s) ((o, v) :: needed s));
  fc_enable o := attempt (fun s => s);
  fc_close o s :=
    if decide (o ∈ opened s /\ Forall (fun u => (u, o) ∉ needed s) (opened s))
    then (0, Objects (calls s) (filter (fun x => x <> o) (opened s)) (needed s)) else (-16, s) }.

#[local] Program Instance objects_laws : FabricCtlLaws objects := {
  live s o := o ∈ opened s; needs s u v := (u, v) ∈ needed s }.
Next Obligation.
  simpl. unfold attempt. intros o p f rc f' E. destruct (fails (calls f)); injection E as <- <-; simpl; [done|]. split; [|done].
  intros _. split; [intros x; apply elem_of_cons|]. intros u v H. destruct p as [w|]; [|by left].
  apply elem_of_cons in H as [[= -> ->]|H]; [by right|by left].
Qed.
Next Obligation.
  simpl. unfold attempt. intros o v f rc f' E. destruct (fails (calls f)); injection E as <- <-; simpl; (split; [done|]); intros u w H; [by left|].
  apply elem_of_cons in H as [[= -> ->]|H]; [by right|by left].
Qed.
Next Obligation. simpl. unfold attempt. intros o f rc f' E. destruct (fails (calls f)); by injection E as <- <-. Qed.
Next Obligation.
  simpl. intros o f rc f' E Hl Hn. rewrite decide_True in E.
  - injection E as <- <-. simpl. split; [done|]. split; [|done]. intros x. rewrite list_elem_of_filter. tauto.
  - split; [done|]. apply list.Forall_forall. exact Hn.
Qed.
End objects.
