(* ===== verification/OfiCtl.v ===== *)
(** * The control path of the OFI transport ([transport_ofi.c])

    Start-up, communication contexts and shutdown: which libfabric objects are opened,
    bound and closed in which order, the parameters that are computed on the way, and the
    lock that protects the tables of contexts and of shared transmit contexts.  The state is
    that of the transport's static variables; the libfabric objects ([FabricCtl]), the
    runtime layer ([Runtime]) and the pool of shared contexts ([Stx]) are parts of it.  A
    code is what the function returns; [stop] is an abort, a failed assertion, an access
    through a null pointer or a lock taken twice. *)

From stdpp Require Import gmap strings.
From S2P Require Import Prelude ErrState Internal ReduceOp Util PmiUtil SymHeap RuntimeUtil Stx FreeList Fabric OfiTransport OfiMr FabricCtl.
Local Open Scope Z_scope.
Local Open Scope st_scope.

(** [if (ret) return ret;] *)
Definition and_then {S} (m k : ST S Z) : ST S Z := rc <- m ; if negb (rc =? 0) then ret rc else k.
Notation "m >>? k" := (and_then m k) (at level 100, k at level 200, right associativity) : st_scope.

Definition SHMEM_THREAD_FUNNELED : Z := 1.

(** What [fi_getinfo] tells of a fabric. *)
Record fi_info := FiInfo {
  info_fabric_name : list Z; info_domain_name : list Z; info_max_msg_size : Z; info_max_ep_stx_ctx : Z;
  info_inject_size : Z; info_needs_context : bool; info_mr_rma_event : bool; info_tx_ctx_cnt : Z }.

(** The environment variables of the transport (with whether they were provided). *)
Record ofi_params := OfiParams {
  OFI_FABRIC : option (list Z); OFI_DOMAIN : option (list Z);
  OFI_STX_MAX : Z; OFI_STX_THRESHOLD : Z; OFI_STX_ALLOCATOR : list Z; OFI_STX_AUTO : bool; OFI_STX_DISABLE_PRIVATE : bool;
  BOUNCE_SIZE : Z; MAX_BOUNCE_BUFFERS : Z;
  OFI_TX_POLL_LIMIT : Z; OFI_TX_POLL_LIMIT_provided : bool; OFI_RX_POLL_LIMIT : Z; OFI_RX_POLL_LIMIT_provided : bool;
  OFI_ATOMIC_CHECKS_WARN : bool }.

(** The build options; the process; the answers of libfabric, of the C library and of the
    runtime that the code reads. *)
Class ofi_env := OfiEnv {
  ctl_ctx_lock : bool; ENABLE_TARGET_CNTR : bool; ENABLE_MR_RMA_EVENT : bool; ENABLE_FORTRAN : bool;
  params : ofi_params;
  thread_level : Z; my_pe : Z; num_pes : Z; node_size : Z; my_regions : regions;
  fi_getinfo : Z * list fi_info;
  fnmatch : list Z -> list Z -> bool;
  fi_mr_heap_key : Z; fi_mr_data_key : Z;
  fi_getname : Z * list Z;
  fi_av_insert : list (list Z) -> Z;
  fi_valid : bool -> bool -> fi_datatype -> fi_op -> Z * Z;
  rand_r : Z -> Z * Z; probes : nat }.

(** [struct shmem_transport_ctx_t], the fields of the control path: which of the pointers
    are set. *)
Record ctl_ctx := CtlCtx {
  c_id : Z; c_options : Z; c_ep : bool; c_put_cntr : bool; c_get_cntr : bool; c_cq : bool;
  c_bounce : bool; c_stx_idx : Z; c_tid : shmem_internal_tid; c_team : Z }.

(** The static variables that start-up computes. *)
Record ofi_vars := OfiVars {
  v_p_info : option fi_info; v_stx_max : Z; v_stx_threshold : Z; v_stx_allocator : stx_allocator_t;
  v_max_buffered_send : Z; v_max_msg_size : Z; v_bounce_buffer_size : Z; v_max_bounce_buffers : Z;
  v_put_poll_limit : Z; v_get_poll_limit : Z; v_mr_rma_event : bool;
  v_use_absolute_address : bool; v_addrlen : Z; v_tables : mr_tables }.

Definition DEFAULT_CTX : Z := 0.
Definition SHMEM_TRANSPORT_CTX_DEFAULT_ID : Z := -1.
Definition grow_size : nat := 128.

Section ofi_ctl.
Context {F S : Type} {fabric : FabricCtl F} {R : Runtime S} {mcfg : mr_config} {oenv : ofi_env}.

(** [teams] has the array [contexts] of every team, [ctxs] the contexts by address, the
    default one at [DEFAULT_CTX]; [next_ctx] is the next address [malloc] answers. *)
Record ctl := Ctl {
  mtx : bool; fcs : F; rts : S; stxs : stx_state; teams : gmap Z (list (option Z)); ctxs : gmap Z ctl_ctx;
  next_ctx : Z; vars : ofi_vars }.

Definition set_mtx (b : bool) (s : ctl) : ctl := Ctl b (fcs s) (rts s) (stxs s) (teams s) (ctxs s) (next_ctx s) (vars s).
Definition set_fcs (f : F) (s : ctl) : ctl := Ctl (mtx s) f (rts s) (stxs s) (teams s) (ctxs s) (next_ctx s) (vars s).
Definition set_rts (r : S) (s : ctl) : ctl := Ctl (mtx s) (fcs s) r (stxs s) (teams s) (ctxs s) (next_ctx s) (vars s).
Definition set_stxs (x : stx_state) (s : ctl) : ctl := Ctl (mtx s) (fcs s) (rts s) x (teams s) (ctxs s) (next_ctx s) (vars s).
Definition set_teams (t : gmap Z (list (option Z))) (s : ctl) : ctl := Ctl (mtx s) (fcs s) (rts s) (stxs s) t (ctxs s) (next_ctx s) (vars s).
Definition set_ctxs (c : gmap Z ctl_ctx) (s : ctl) : ctl := Ctl (mtx s) (fcs s) (rts s) (stxs s) (teams s) c (next_ctx s) (vars s).
Definition set_next (n : Z) (s : ctl) : ctl := Ctl (mtx s) (fcs s) (rts s) (stxs s) (teams s) (ctxs s) n (vars s).
Definition set_vars (v : ofi_vars) (s : ctl) : ctl := Ctl (mtx s) (fcs s) (rts s) (stxs s) (teams s) (ctxs s) (next_ctx s) v.
Definition upd_vars (f : ofi_vars -> ofi_vars) : ST ctl unit := modify (fun s => set_vars (f (vars s)) s).

(** Calls of libfabric; closing checks the answer. *)
Definition on_fcs (f : F -> Z * F) : ST ctl Z := fun s => let '(rc, f') := f (fcs s) in Some (rc, set_fcs f' s).
Definition f_open (o : fi_obj) (p : option fi_obj) : ST ctl Z := on_fcs (fc_open o p).
Definition f_bind (o v : fi_obj) : ST ctl Z := on_fcs (fc_bind o v).
Definition f_enable (o : fi_obj) : ST ctl Z := on_fcs (fc_enable o).
Definition f_close (o : fi_obj) : ST ctl unit := rc <- on_fcs (fc_close o) ; if negb (rc =? 0) then stop else ret tt.
Definition on_runtime {A} (m : ST S A) : ST ctl A := zoom rts set_rts m.

(** SHMEM_MUTEX_LOCK and SHMEM_MUTEX_UNLOCK of [shmem_transport_ofi_lock]. *)
Definition OFI_LOCK : ST ctl unit :=
  s <- get ;
  if thread_level =? SHMEM_THREAD_MULTIPLE then (if mtx s then stop else modify (set_mtx true)) else ret tt.
Definition OFI_UNLOCK : ST ctl unit :=
  s <- get ;
  if thread_level =? SHMEM_THREAD_MULTIPLE then (if mtx s then modify (set_mtx false) else stop) else ret tt.

Definition get_ctx (c : Z) : ST ctl ctl_ctx :=
  s <- get ; match ctxs s !! c with Some x => ret x | None => stop end.
Definition put_ctx (c : Z) (x : ctl_ctx) : ST ctl unit := modify (fun s => set_ctxs (<[c := x]> (ctxs s)) s).
Definition upd_ctx (c : Z) (f : ctl_ctx -> ctl_ctx) : ST ctl unit := x <- get_ctx c ; put_ctx c (f x).

(** ** Contexts *)

Definition bind_enable_ep_resources (c : Z) : ST ctl Z :=
  x <- get_ctx c ;
  (if c_stx_idx x >=? 0 then f_bind (CtxEp c) (StxFd (c_stx_idx x)) else ret 0) >>?
  f_bind (CtxEp c) (CtxPutCntr c) >>?
  f_bind (CtxEp c) (CtxGetCntr c) >>?
  f_bind (CtxEp c) (CtxCq c) >>?
  f_bind (CtxEp c) Avfd >>?
  f_enable (CtxEp c).

(** An open that stores the new object in a field of the context. *)
Definition open_field (c : Z) (o : fi_obj) (f : ctl_ctx -> ctl_ctx) : ST ctl Z :=
  rc <- f_open o (Some Domainfd) ;
  (if rc =? 0 then upd_ctx c f else ret tt) ;; ret rc.

Definition with_id (i : Z) (x : ctl_ctx) := CtlCtx i (c_options x) (c_ep x) (c_put_cntr x) (c_get_cntr x) (c_cq x) (c_bounce x) (c_stx_idx x) (c_tid x) (c_team x).
Definition with_put (x : ctl_ctx) := CtlCtx (c_id x) (c_options x) (c_ep x) true (c_get_cntr x) (c_cq x) (c_bounce x) (c_stx_idx x) (c_tid x) (c_team x).
Definition with_get (x : ctl_ctx) := CtlCtx (c_id x) (c_options x) (c_ep x) (c_put_cntr x) true (c_cq x) (c_bounce x) (c_stx_idx x) (c_tid x) (c_team x).
Definition with_cq (x : ctl_ctx) := CtlCtx (c_id x) (c_options x) (c_ep x) (c_put_cntr x) (c_get_cntr x) true (c_bounce x) (c_stx_idx x) (c_tid x) (c_team x).
Definition with_ep (x : ctl_ctx) := CtlCtx (c_id x) (c_options x) true (c_put_cntr x) (c_get_cntr x) (c_cq x) (c_bounce x) (c_stx_idx x) (c_tid x) (c_team x).
Definition with_tid (t : shmem_internal_tid) (x : ctl_ctx) := CtlCtx (c_id x) (c_options x) (c_ep x) (c_put_cntr x) (c_get_cntr x) (c_cq x) (c_bounce x) (c_stx_idx x) t (c_team x).
Definition with_stx (i o : Z) (x : ctl_ctx) := CtlCtx (c_id x) o (c_ep x) (c_put_cntr x) (c_get_cntr x) (c_cq x) (c_bounce x) i (c_tid x) (c_team x).
Definition with_bounce (o : Z) (b : bool) (x : ctl_ctx) := CtlCtx (c_id x) o (c_ep x) (c_put_cntr x) (c_get_cntr x) (c_cq x) b (c_stx_idx x) (c_tid x) (c_team x).
Definition with_team (t : Z) (x : ctl_ctx) := CtlCtx (c_id x) (c_options x) (c_ep x) (c_put_cntr x) (c_get_cntr x) (c_cq x) (c_bounce x) (c_stx_idx x) (c_tid x) t.

Definition private (options : Z) : bool := shmem_transport_ofi_is_private (OFI_STX_DISABLE_PRIVATE params) options.

(** [shmem_transport_ofi_stx_allocate] on a context; [calloc] answers. *)
Definition ctx_stx_allocate (c : Z) : ST ctl unit :=
  s <- get ;
  x <- get_ctx c ;
  let v := vars s in
  r <- zoom stxs set_stxs (shmem_transport_ofi_stx_allocate (v_stx_max v) (v_stx_threshold v) (v_stx_allocator v)
         (OFI_STX_DISABLE_PRIVATE params) rand_r probes true (c_options x) (c_tid x)) ;
  upd_ctx c (with_stx r.1 r.2).

(** The last part: whether the context gets bounce buffers (the list itself is made by
    [OfiTransport.ctx_init_data]). *)
Definition ctx_bounce (c : Z) : ST ctl unit :=
  s <- get ;
  upd_ctx c (fun x =>
    if negb (Z.land (c_options x) SHMEMX_CTX_BOUNCE_BUFFER =? 0) && (v_bounce_buffer_size (vars s) >? 0) && (v_max_bounce_buffers (vars s) >? 0)
    then with_bounce (c_options x) true x
    else with_bounce (Z.land (c_options x) (Z.lnot SHMEMX_CTX_BOUNCE_BUFFER)) false x).

(** [t] is the id of the calling thread. *)
Definition shmem_transport_ofi_ctx_init (c id : Z) (t : shmem_internal_tid) : ST ctl Z :=
  upd_ctx c (with_id id) ;;
  (open_field c (CtxPutCntr c) with_put >>?
   open_field c (CtxGetCntr c) with_get >>?
   open_field c (CtxCq c) with_cq >>?
   open_field c (CtxEp c) with_ep >>?
   (x <- get_ctx c ;
    (if (thread_level >? SHMEM_THREAD_FUNNELED) && private (c_options x) then upd_ctx c (with_tid t) else ret tt) ;;
    ctx_stx_allocate c ;;
    (bind_enable_ep_resources c >>? (ctx_bounce c ;; ret 0)))).

Definition shmem_transport_ctx_destroy (c : Z) : ST ctl unit :=
  x <- get_ctx c ;
  (if c_ep x then f_close (CtxEp c) else ret tt) ;;
  (if c_stx_idx x >=? 0 then
     OFI_LOCK ;; zoom stxs set_stxs (release_stx (OFI_STX_DISABLE_PRIVATE params) (c_stx_idx x) (c_options x) (c_tid x)) ;; OFI_UNLOCK
   else ret tt) ;;
  (if c_put_cntr x then f_close (CtxPutCntr c) else ret tt) ;;
  (if c_get_cntr x then f_close (CtxGetCntr c) else ret tt) ;;
  (if c_cq x then f_close (CtxCq c) else ret tt) ;;
  (if c_id x >=? 0 then
     OFI_LOCK ;;
     modify (fun s => set_teams (<[c_team x := <[Z.to_nat (c_id x) := None]> (default [] (teams s !! c_team x))]> (teams s)) s) ;;
     OFI_UNLOCK ;;
     modify (fun s => set_ctxs (delete c (ctxs s)) s)
   else if c_id x =? SHMEM_TRANSPORT_CTX_DEFAULT_ID then ret tt
   else stop).

(** The first open slot. *)
Fixpoint open_slot (l : list (option Z)) : nat :=
  match l with None :: _ | [] => O | Some _ :: l => Datatypes.S (open_slot l) end.

(** [realloc] and [malloc] answer; the new context is zeroed. *)
Definition shmem_transport_ctx_create (team : option Z) (ctx_options : Z) (t : shmem_internal_tid) : ST ctl (Z * option Z) :=
  match team with
  | None => stop
  | Some team =>
      OFI_LOCK ;;
      s <- get ;
      let contexts := default [] (teams s !! team) in
      let id := open_slot contexts in
      (if (length contexts <=? id)%nat
       then modify (set_teams (<[team := contexts ++ replicate grow_size None]> (teams s))) else ret tt) ;;
      let c := next_ctx s in
      modify (set_next (c + 1)) ;;
      put_ctx c (CtlCtx 0 ctx_options false false false false false (-1) (tid_is_pid 0) team) ;;
      rc <- shmem_transport_ofi_ctx_init c (Z.of_nat id) t ;
      (if negb (rc =? 0) then shmem_transport_ctx_destroy c
       else modify (fun s => set_teams (<[team := <[id := Some c]> (default [] (teams s !! team))]> (teams s)) s)) ;;
      OFI_UNLOCK ;;
      ret (rc, if rc =? 0 then Some c else None)
  end.

(** ** Atomics the provider must support *)

Definition DT_AMO_STANDARD : list shm_internal_datatype_t :=
  [SHM_INTERNAL_INT; SHM_INTERNAL_LONG; SHM_INTERNAL_LONG_LONG; SHM_INTERNAL_INT32; SHM_INTERNAL_INT64].
Definition AMO_STANDARD_OPS : list fi_op := [FI_SUM].
Definition FETCH_AMO_STANDARD_OPS : list fi_op := [FI_SUM].
Definition COMPARE_AMO_STANDARD_OPS : list fi_op := [FI_CSWAP].
Definition DT_AMO_EXTENDED : list shm_internal_datatype_t :=
  [SHM_INTERNAL_FLOAT; SHM_INTERNAL_DOUBLE; SHM_INTERNAL_INT; SHM_INTERNAL_LONG; SHM_INTERNAL_LONG_LONG;
   SHM_INTERNAL_INT32; SHM_INTERNAL_INT64] ++ if ENABLE_FORTRAN then [SHM_INTERNAL_FORTRAN_INTEGER] else [].
Definition AMO_EXTENDED_OPS : list fi_op := [FI_ATOMIC_WRITE].
Definition FETCH_AMO_EXTENDED_OPS : list fi_op := [FI_ATOMIC_WRITE; FI_ATOMIC_READ].
Definition DT_REDUCE_BITWISE : list shm_internal_datatype_t :=
  [SHM_INTERNAL_SHORT; SHM_INTERNAL_INT; SHM_INTERNAL_LONG; SHM_INTERNAL_LONG_LONG; SHM_INTERNAL_INT32; SHM_INTERNAL_INT64].
Definition REDUCE_BITWISE_OPS : list fi_op := [FI_BAND; FI_BOR; FI_BXOR].
Definition DT_REDUCE_COMPARE : list shm_internal_datatype_t :=
  [SHM_INTERNAL_FLOAT; SHM_INTERNAL_DOUBLE; SHM_INTERNAL_SHORT; SHM_INTERNAL_INT; SHM_INTERNAL_LONG; SHM_INTERNAL_LONG_LONG;
   SHM_INTERNAL_INT32; SHM_INTERNAL_INT64; SHM_INTERNAL_LONG_DOUBLE].
Definition REDUCE_COMPARE_OPS : list fi_op := [FI_MAX; FI_MIN].
Definition DT_REDUCE_ARITH : list shm_internal_datatype_t :=
  [SHM_INTERNAL_FLOAT; SHM_INTERNAL_DOUBLE; SHM_INTERNAL_FLOAT_COMPLEX; SHM_INTERNAL_DOUBLE_COMPLEX; SHM_INTERNAL_SHORT;
   SHM_INTERNAL_INT; SHM_INTERNAL_LONG; SHM_INTERNAL_LONG_LONG; SHM_INTERNAL_INT32; SHM_INTERNAL_INT64; SHM_INTERNAL_LONG_DOUBLE].
Definition REDUCE_ARITH_OPS : list fi_op := [FI_SUM; FI_PROD].
Definition DT_INTERNAL_REQ : list shm_internal_datatype_t := [SHM_INTERNAL_INT].
Definition INTERNAL_REQ_OPS : list fi_op := [FI_MSWAP].

Inductive atomic_support_lv := ATOMIC_NO_SUPPORT | ATOMIC_WARNINGS | ATOMIC_SOFT_SUPPORT.

(** The size is truncated to an [int] by the call. *)
Definition atomicvalid_rtncheck (rc atomic_size : Z) (atomic_sup : atomic_support_lv) : Z :=
  if (negb (rc =? 0) || (wrap_s 32 atomic_size =? 0)) &&
     match atomic_sup with ATOMIC_SOFT_SUPPORT => false | _ => true end
  then match atomic_sup with ATOMIC_WARNINGS => 0 | _ => if rc =? 0 then -1 else rc end
  else 0.

(** The loops over datatypes and operations; [fetch] and [compare] select the libfabric
    query of [atomicvalid_DTxOP], [fetch_atomicvalid_DTxOP] and [compare_atomicvalid_DTxOP]. *)
Fixpoint valid_ops (fetch compare : bool) (dt : fi_datatype) (ops : list fi_op) (sup : atomic_support_lv) : option Z :=
  match ops with
  | [] => None
  | o :: ops =>
      let '(rc, size) := fi_valid fetch compare dt o in
      if negb (atomicvalid_rtncheck rc size sup =? 0) then Some rc else valid_ops fetch compare dt ops sup
  end.
Fixpoint valid_DTxOP (fetch compare : bool) (dts : list shm_internal_datatype_t) (ops : list fi_op) (sup : atomic_support_lv) : Z :=
  match dts with
  | [] => 0
  | d :: dts => match valid_ops fetch compare (shmem_transport_dtype_table d) ops sup with
                | Some rc => rc
                | None => valid_DTxOP fetch compare dts ops sup
                end
  end.
Definition atomicvalid_DTxOP := valid_DTxOP false false.
Definition fetch_atomicvalid_DTxOP := valid_DTxOP true false.
Definition compare_atomicvalid_DTxOP := valid_DTxOP false true.

Definition first_error (l : list Z) : Z := default 0 (list_find (fun rc => rc <> 0) l ≫= fun x => Some x.2).

Definition atomic_limitations_check : Z :=
  let general_atomic_sup := if OFI_ATOMIC_CHECKS_WARN params then ATOMIC_WARNINGS else ATOMIC_NO_SUPPORT in
  let reduction_sup := ATOMIC_SOFT_SUPPORT in
  first_error
    [atomicvalid_DTxOP DT_AMO_STANDARD AMO_STANDARD_OPS general_atomic_sup;
     fetch_atomicvalid_DTxOP DT_AMO_STANDARD FETCH_AMO_STANDARD_OPS general_atomic_sup;
     compare_atomicvalid_DTxOP DT_AMO_STANDARD COMPARE_AMO_STANDARD_OPS general_atomic_sup;
     atomicvalid_DTxOP DT_AMO_EXTENDED AMO_EXTENDED_OPS general_atomic_sup;
     fetch_atomicvalid_DTxOP DT_AMO_EXTENDED FETCH_AMO_EXTENDED_OPS general_atomic_sup;
     atomicvalid_DTxOP DT_REDUCE_BITWISE REDUCE_BITWISE_OPS reduction_sup;
     atomicvalid_DTxOP DT_REDUCE_COMPARE REDUCE_COMPARE_OPS reduction_sup;
     atomicvalid_DTxOP DT_REDUCE_ARITH REDUCE_ARITH_OPS reduction_sup;
     compare_atomicvalid_DTxOP DT_INTERNAL_REQ INTERNAL_REQ_OPS general_atomic_sup].

(** ** Start-up *)

Definition sizeof_long_double : Z := 16.

Definition set_info (i : option fi_info) (v : ofi_vars) := OfiVars i (v_stx_max v) (v_stx_threshold v) (v_stx_allocator v) (v_max_buffered_send v) (v_max_msg_size v) (v_bounce_buffer_size v) (v_max_bounce_buffers v) (v_put_poll_limit v) (v_get_poll_limit v) (v_mr_rma_event v) (v_use_absolute_address v) (v_addrlen v) (v_tables v).
Definition set_stx_max (n : Z) (v : ofi_vars) := OfiVars (v_p_info v) n (v_stx_threshold v) (v_stx_allocator v) (v_max_buffered_send v) (v_max_msg_size v) (v_bounce_buffer_size v) (v_max_bounce_buffers v) (v_put_poll_limit v) (v_get_poll_limit v) (v_mr_rma_event v) (v_use_absolute_address v) (v_addrlen v) (v_tables v).
Definition set_stx_how (th : Z) (a : stx_allocator_t) (v : ofi_vars) := OfiVars (v_p_info v) (v_stx_max v) th a (v_max_buffered_send v) (v_max_msg_size v) (v_bounce_buffer_size v) (v_max_bounce_buffers v) (v_put_poll_limit v) (v_get_poll_limit v) (v_mr_rma_event v) (v_use_absolute_address v) (v_addrlen v) (v_tables v).
Definition set_sizes (buffered msg : Z) (rma : bool) (v : ofi_vars) := OfiVars (v_p_info v) (v_stx_max v) (v_stx_threshold v) (v_stx_allocator v) buffered msg (v_bounce_buffer_size v) (v_max_bounce_buffers v) (v_put_poll_limit v) (v_get_poll_limit v) rma (v_use_absolute_address v) (v_addrlen v) (v_tables v).
Definition set_bounces (size max : Z) (v : ofi_vars) := OfiVars (v_p_info v) (v_stx_max v) (v_stx_threshold v) (v_stx_allocator v) (v_max_buffered_send v) (v_max_msg_size v) size max (v_put_poll_limit v) (v_get_poll_limit v) (v_mr_rma_event v) (v_use_absolute_address v) (v_addrlen v) (v_tables v).
Definition set_limits (p g : Z) (v : ofi_vars) := OfiVars (v_p_info v) (v_stx_max v) (v_stx_threshold v) (v_stx_allocator v) (v_max_buffered_send v) (v_max_msg_size v) (v_bounce_buffer_size v) (v_max_bounce_buffers v) p g (v_mr_rma_event v) (v_use_absolute_address v) (v_addrlen v) (v_tables v).
Definition set_addressing (b : bool) (v : ofi_vars) := OfiVars (v_p_info v) (v_stx_max v) (v_stx_threshold v) (v_stx_allocator v) (v_max_buffered_send v) (v_max_msg_size v) (v_bounce_buffer_size v) (v_max_bounce_buffers v) (v_put_poll_limit v) (v_get_poll_limit v) (v_mr_rma_event v) b (v_addrlen v) (v_tables v).
Definition set_addrlen (n : Z) (v : ofi_vars) := OfiVars (v_p_info v) (v_stx_max v) (v_stx_threshold v) (v_stx_allocator v) (v_max_buffered_send v) (v_max_msg_size v) (v_bounce_buffer_size v) (v_max_bounce_buffers v) (v_put_poll_limit v) (v_get_poll_limit v) (v_mr_rma_event v) (v_use_absolute_address v) n (v_tables v).
Definition set_tables (t : mr_tables) (v : ofi_vars) := OfiVars (v_p_info v) (v_stx_max v) (v_stx_threshold v) (v_stx_allocator v) (v_max_buffered_send v) (v_max_msg_size v) (v_bounce_buffer_size v) (v_max_bounce_buffers v) (v_put_poll_limit v) (v_get_poll_limit v) (v_mr_rma_event v) (v_use_absolute_address v) (v_addrlen v) t.

(** Whether a fabric has the names the user asked for. *)
Definition names_match (i : fi_info) : bool :=
  match OFI_FABRIC params with Some p => fnmatch p (info_fabric_name i) | None => true end &&
  match OFI_DOMAIN params with Some p => fnmatch p (info_domain_name i) | None => true end.

Definition choose_fabric (fabrics : list fi_info) : option fi_info :=
  match OFI_FABRIC params, OFI_DOMAIN params with
  | None, None => hd_error fabrics
  | _, _ => snd <$> list_find (fun i => names_match i = true) fabrics
  end.

Definition query_for_fabric : ST ctl Z :=
  let '(rc, fabrics) := fi_getinfo in
  if negb (rc =? 0) then ret rc
  else
    upd_vars (set_info (choose_fabric fabrics)) ;;
    match choose_fabric fabrics with
    | None => ret rc
    | Some i =>
        if negb (info_max_msg_size i >? 0) then ret 1
        else
          (if info_max_ep_stx_ctx i =? 0 then upd_vars (set_stx_max 0) else ret tt) ;;
          (if info_inject_size i >=? sizeof_long_double then ret tt else stop) ;;
          upd_vars (set_sizes (info_inject_size i) (info_max_msg_size i) (ENABLE_MR_RMA_EVENT && info_mr_rma_event i)) ;;
          ret rc
    end.

Definition allocate_fabric_resources : ST ctl Z :=
  s <- get ;
  match v_p_info (vars s) with
  | None => stop
  | Some _ => f_open Fabfd None >>? f_open Domainfd (Some Fabfd) >>? f_open Avfd (Some Domainfd)
  end.

Definition when_ok (b : bool) (m : ST ctl Z) : ST ctl Z := if b then m else ret 0.

Definition allocate_recv_cntr_mr : ST ctl Z :=
  s <- get ;
  let rma_event := v_mr_rma_event (vars s) in
  when_ok ENABLE_TARGET_CNTR (f_open TargetCntr (Some Domainfd)) >>?
  (if ENABLE_MR_SCALABLE && ENABLE_REMOTE_VIRTUAL_ADDRESSING then
     f_open TargetMr (Some Domainfd) >>?
     when_ok ENABLE_TARGET_CNTR (
       f_bind TargetMr TargetCntr >>?
       when_ok (ENABLE_MR_RMA_EVENT && rma_event) (f_enable TargetMr))
   else
     f_open HeapMr (Some Domainfd) >>?
     f_open DataMr (Some Domainfd) >>?
     when_ok ENABLE_TARGET_CNTR (
       f_bind HeapMr TargetCntr >>?
       f_bind DataMr TargetCntr >>?
       when_ok (ENABLE_MR_RMA_EVENT && rma_event) (f_enable DataMr >>? f_enable HeapMr))).

Definition shmem_transport_ofi_target_ep_init : ST ctl Z :=
  f_open TargetEp (Some Domainfd) >>?
  f_bind TargetEp Avfd >>?
  allocate_recv_cntr_mr >>?
  f_open TargetCq (Some Domainfd) >>?
  f_bind TargetEp TargetCq >>?
  f_enable TargetEp >>?
  ret 0.

(** STX resource settings. *)
Definition initial_stx_max : option Z :=
  if ((thread_level =? SHMEM_THREAD_SINGLE) || (thread_level =? SHMEM_THREAD_FUNNELED)) && (OFI_STX_MAX params >? 1) then Some 1
  else if OFI_STX_MAX params <? 0 then None else Some (OFI_STX_MAX params).

Definition allocator_of (type : list Z) : stx_allocator_t :=
  if decide (type = chars "round-robin") then ROUNDROBIN
  else if decide (type = chars "random") then RANDOM
  else ROUNDROBIN.

Definition poll_limits : Z * Z :=
  let forced := ctl_ctx_lock && (thread_level =? SHMEM_THREAD_MULTIPLE) in
  (if forced && negb (OFI_TX_POLL_LIMIT_provided params) then -1 else OFI_TX_POLL_LIMIT params,
   if forced && negb (OFI_RX_POLL_LIMIT_provided params) then -1 else OFI_RX_POLL_LIMIT params).

Definition shmem_transport_init : ST ctl Z :=
  match initial_stx_max with
  | None => stop
  | Some n =>
      upd_vars (set_stx_max n) ;;
      (query_for_fabric >>?
       allocate_fabric_resources >>?
       (upd_vars (set_stx_how (OFI_STX_THRESHOLD params) (allocator_of (OFI_STX_ALLOCATOR params))) ;;
        (* stx_rand_init *)
        match allocator_of (OFI_STX_ALLOCATOR params) with
        | RANDOM => modify (fun s => set_stxs (set_seed my_pe (stxs s)) s)
        | ROUNDROBIN => ret tt
        end ;;
        s <- get ;
        upd_vars (match v_p_info (vars s) with
                  | Some i => if info_needs_context i then set_bounces 0 0 else set_bounces (BOUNCE_SIZE params) (MAX_BOUNCE_BUFFERS params)
                  | None => fun v => v
                  end) ;;
        upd_vars (set_limits poll_limits.1 poll_limits.2) ;;
        (* the default context *)
        modify (fun s => set_ctxs (<[DEFAULT_CTX := CtlCtx 0 SHMEMX_CTX_BOUNCE_BUFFER false false false false false 0 (tid_is_pid 0) 0]> (ctxs s)) s) ;;
        (shmem_transport_ofi_target_ep_init >>?
         (r <- on_runtime (publish_mr_info my_regions fi_mr_heap_key fi_mr_data_key) ;
          let '(rc, absolute) := r in
          upd_vars (set_addressing absolute) ;;
          if negb (rc =? 0) then ret rc
          else
            r <- on_runtime (publish_av_info fi_getname) ;
            let '(rc, addrlen) := r in
            upd_vars (set_addrlen addrlen) ;; if negb (rc =? 0) then ret rc else ret 0))))
  end.

(** The share of the provider's transmit contexts that this PE takes. *)
Definition auto_stx_max (ofi_tx_ctx_cnt : Z) : option Z :=
  if ofi_tx_ctx_cnt <=? 0 then None
  else
    let remainder := cmod ofi_tx_ctx_cnt node_size in
    let node_pe := cmod my_pe num_pes in
    let n := cdiv ofi_tx_ctx_cnt node_size + (if (remainder >? 0) && (cmod node_pe node_size <? remainder) then 1 else 0) in
    if n <=? 0 then None else Some n.

Fixpoint open_stxs (n : nat) (i : Z) : ST ctl Z :=
  match n with
  | O => ret 0
  | Datatypes.S n =>
      f_open (StxFd i) (Some Domainfd) >>?
      (modify (fun s => set_stxs (set_pool (stx_pool (stxs s) ++ [Stx 0 false]) (stxs s)) s) ;; open_stxs n (i + 1))
  end.

(** The tables come from [malloc], which answers. *)
Definition shmem_transport_startup : ST ctl Z :=
  s <- get ;
  (if OFI_STX_AUTO params && negb (v_stx_max (vars s) =? 0) then
     match hd_error fi_getinfo.2 with
     | None => stop
     | Some i => match auto_stx_max (info_tx_ctx_cnt i) with Some n => upd_vars (set_stx_max n) | None => stop end
     end
   else ret tt) ;;
  s <- get ;
  open_stxs (Z.to_nat (v_stx_max (vars s))) 0 >>?
  (upd_ctx DEFAULT_CTX (with_team 0) ;;
   (shmem_transport_ofi_ctx_init DEFAULT_CTX SHMEM_TRANSPORT_CTX_DEFAULT_ID (tid_is_pid 0) >>?
    ret atomic_limitations_check >>?
    (r <- on_runtime (populate_mr_tables (fun _ => true) num_pes) ;
     let '(rc, t) := r in
     upd_vars (set_tables t) ;;
     if negb (rc =? 0) then ret rc
     else
       s <- get ;
       rc <- on_runtime (populate_av true fi_av_insert num_pes (v_addrlen (vars s))) ;
       if negb (rc =? 0) then ret rc else ret 0))).

(** ** Shutdown *)

Fixpoint close_stxs (n : nat) (i : Z) : ST ctl unit :=
  match n with O => ret tt | Datatypes.S n => f_close (StxFd i) ;; close_stxs n (i + 1) end.

(** After the quiet on the default context, which is on the data path. *)
Definition shmem_transport_fini : ST ctl Z :=
  shmem_transport_ctx_destroy DEFAULT_CTX ;;
  modify (fun s => set_stxs (set_kvs [] (stxs s)) s) ;;
  s <- get ;
  close_stxs (Z.to_nat (v_stx_max (vars s))) 0 ;;
  f_close TargetEp ;;
  f_close TargetCq ;;
  (if ENABLE_MR_SCALABLE && ENABLE_REMOTE_VIRTUAL_ADDRESSING then f_close TargetMr
   else f_close HeapMr ;; f_close DataMr) ;;
  (if ENABLE_TARGET_CNTR then f_close TargetCntr else ret tt) ;;
  f_close Avfd ;;
  f_close Domainfd ;;
  f_close Fabfd ;;
  ret 0.
End ofi_ctl.
