(* ===== verification/OfiCtlProof.v ===== *)
(** * The control path of the OFI transport: what start-up, contexts and shutdown guarantee

    Over any provider with the laws of [FabricCtl]: the invariant says which libfabric
    objects are open - those of start-up and those of the live contexts - that the arrays
    of contexts hold exactly the live ones, and that the pool of shared contexts is that of
    [Stx].  Everything that is opened is closed again, in an order in which nothing is
    closed while something still needs it. *)

From stdpp Require Import gmap.
From S2P Require Import Prelude ErrState Internal ReduceOp Util PmiUtil SymHeap RuntimeUtil Stx FreeList Fabric OfiTransport OfiMr FabricCtl OfiCtl.
Local Open Scope Z_scope.
Local Open Scope st_scope.

(** Which object may need which. *)
Definition allowed (u o : fi_obj) : Prop :=
  match u, o with
  | Domainfd, Fabfd => True
  | (Fabfd | Domainfd), _ | _, Fabfd => False
  | _, Domainfd => True
  | TargetEp, (Avfd | TargetCq) => True
  | (TargetMr | HeapMr | DataMr), TargetCntr => True
  | CtxEp _, (StxFd _ | Avfd) => True
  | CtxEp c, (CtxPutCntr c' | CtxGetCntr c' | CtxCq c') => c = c'
  | _, _ => False
  end.

Section proof.
Context {F S : Type} {fabric : FabricCtl F} {laws : FabricCtlLaws F} {R : Runtime S} {K : RuntimeKvs S} {mcfg : mr_config} {oenv : ofi_env}.
Abbreviation state := (ctl (F := F) (S := S)).
Implicit Types (s : state) (P : fi_obj -> Prop).

Lemma runs_and_then (m k : ST state Z) s (P Q : Z -> state -> Prop) : runs m s P ->
  (forall s', P 0 s' -> runs k s' Q) -> (forall rc s', rc <> 0 -> P rc s' -> Q rc s') -> runs (m >>? k) s Q.
Proof.
  intros Hm Hk He. unfold and_then. eapply runs_then; [exact Hm|]. intros rc s' H. destruct (Z.eqb_spec rc 0) as [->|Hn]; simpl.
  - by apply Hk.
  - apply runs_ret. by apply He.
Qed.

(** ** The objects *)

(** Exactly the objects of [P] are open, and they need each other as expected. *)
Definition owns P s : Prop := (forall o, live (fcs s) o <-> P o) /\ forall u v, needs (fcs s) u v -> allowed u v.

Lemma owns_ext P P' s : (forall o, P o <-> P' o) -> owns P s -> owns P' s.
Proof. intros HP [Hl Hn]. split; [|done]. intros o. by rewrite Hl. Qed.

Lemma owns_fcs P s s' : fcs s' = fcs s -> owns P s -> owns P s'.
Proof. unfold owns. by intros ->. Qed.

(** A call of libfabric changes the libfabric part only. *)
Lemma runs_fcs (call : F -> Z * F) s (Q : Z -> state -> Prop) :
  (forall rc f', call (fcs s) = (rc, f') -> Q rc (set_fcs f' s)) -> runs (on_fcs call) s Q.
Proof. intros HQ. unfold on_fcs, runs_or. destruct (call (fcs s)) as [rc f'] eqn:E. by apply HQ. Qed.

Lemma f_open_spec P o p s : owns P s -> allowed o p ->
  runs (f_open o (Some p)) s (fun rc s' => (exists f', s' = set_fcs f' s) /\
    (rc = 0 /\ owns (fun x => x = o \/ P x) s' \/ rc <> 0 /\ owns P s')).
Proof.
  intros [Hl Hn] Ha. apply runs_fcs. intros rc f' E. split; [by eexists|]. destruct (law_open _ _ _ _ _ E) as [H0 H1].
  destruct (decide (rc = 0)) as [->|Hrc]; [left|right]; (split; [done|]).
  - destruct (H0 eq_refl) as [L N]. split; simpl; [intros x; by rewrite L, Hl|].
    intros u v [H|[-> [= <-]]]%N; [by apply Hn|done].
  - destruct (H1 Hrc) as [L N]. split; simpl; [intros x; by rewrite L, Hl|]. intros u v H. by apply Hn, N.
Qed.

Lemma f_bind_spec P o v s : owns P s -> allowed o v ->
  runs (f_bind o v) s (fun _ s' => (exists f', s' = set_fcs f' s) /\ owns P s').
Proof.
  intros [Hl Hn] Ha. apply runs_fcs. intros rc f' E. split; [by eexists|]. destruct (law_bind _ _ _ _ _ E) as [L N].
  split; simpl; [intros x; by rewrite L, Hl|]. intros u w [H|[-> ->]]%N; [by apply Hn|done].
Qed.

Lemma f_enable_spec P o s : owns P s -> runs (f_enable o) s (fun _ s' => (exists f', s' = set_fcs f' s) /\ owns P s').
Proof.
  intros [Hl Hn]. apply runs_fcs. intros rc f' E. split; [by eexists|]. destruct (law_enable _ _ _ _ E) as [L N].
  split; simpl; [intros x; by rewrite L, Hl|]. intros u w H. by apply Hn, N.
Qed.

Lemma f_close_spec P o s : owns P s -> P o -> (forall u, P u -> ~ allowed u o) ->
  runs (f_close o) s (fun _ s' => (exists f', s' = set_fcs f' s) /\ owns (fun x => P x /\ x <> o) s').
Proof.
  intros [Hl Hn] Ho Hfree. unfold f_close. runs_step. apply runs_fcs. intros rc f' E.
  destruct (law_close _ _ _ _ E) as (-> & L & N).
  - by apply Hl.
  - intros u Hu Hneed. apply (Hfree u); [by apply Hl|by apply Hn].
  - apply runs_ret. split; [by eexists|]. split; simpl; [intros x; by rewrite L, Hl|]. intros u v H. by apply Hn, N.
Qed.

(** The objects start-up opens. *)
Definition base_objs : list fi_obj :=
  [Fabfd; Domainfd; Avfd; TargetEp; TargetCq] ++ (if ENABLE_TARGET_CNTR then [TargetCntr] else []) ++
  if ENABLE_MR_SCALABLE && ENABLE_REMOTE_VIRTUAL_ADDRESSING then [TargetMr] else [HeapMr; DataMr].

(** Those of a context, by the pointers that are set. *)
Definition ctx_owned (c : Z) (x : ctl_ctx) (o : fi_obj) : Prop :=
  o = CtxEp c /\ c_ep x = true \/ o = CtxPutCntr c /\ c_put_cntr x = true \/
  o = CtxGetCntr c /\ c_get_cntr x = true \/ o = CtxCq c /\ c_cq x = true.

Definition stx_objs s (o : fi_obj) : Prop := exists i, o = StxFd i /\ 0 <= i < v_stx_max (vars s).

Definition objs_of s (o : fi_obj) : Prop :=
  o ∈ base_objs \/ stx_objs s o \/ exists c x, ctxs s !! c = Some x /\ ctx_owned c x o.

(** Objects of a context are of no other kind. *)
Definition is_ctx_obj (o : fi_obj) : Prop :=
  match o with CtxPutCntr _ | CtxGetCntr _ | CtxCq _ | CtxEp _ => True | _ => False end.

Lemma base_not_ctx o : o ∈ base_objs -> ~ is_ctx_obj o.
Proof.
  unfold base_objs. destruct ENABLE_TARGET_CNTR, (ENABLE_MR_SCALABLE && ENABLE_REMOTE_VIRTUAL_ADDRESSING); simpl;
    rewrite ?elem_of_cons, elem_of_nil; intros H; repeat (destruct H as [->|H]; [by intros []|]); done.
Qed.

Lemma owned_ctx c x o : ctx_owned c x o -> is_ctx_obj o.
Proof. by intros [[-> _]|[[-> _]|[[-> _]|[-> _]]]]. Qed.

(** ** Contexts *)

Definition user_of (x : ctl_ctx) : user := User (c_stx_idx x) (c_options x) (c_tid x).
Definition complete (x : ctl_ctx) : Prop := c_ep x = true /\ c_put_cntr x = true /\ c_get_cntr x = true /\ c_cq x = true.

(** The pool: without STXs no context has one. *)
Definition stx_good (us : list user) s : Prop :=
  v_stx_max (vars s) = 0 /\ (forall u, u ∈ us -> u_idx u = -1) \/
  0 < v_stx_max (vars s) /\ stx_inv (v_stx_max (vars s)) (OFI_STX_DISABLE_PRIVATE params) us (stxs s).
Definition serves (us : list user) : Prop := servable (OFI_STX_DISABLE_PRIVATE params) us.

(** For the random search the generator stays in range and visits every STX. *)
Definition search_ok s : Prop := v_stx_allocator (vars s) = RANDOM -> draws_range rand_r /\ draws_cover (v_stx_max (vars s)) rand_r probes.

(** Everything but the contexts, the pool and libfabric stays. *)
Definition frame s s' : Prop :=
  mtx s' = mtx s /\ rts s' = rts s /\ teams s' = teams s /\ next_ctx s' = next_ctx s /\ vars s' = vars s.
Lemma frame_refl s : frame s s.
Proof. done. Qed.
Lemma frame_trans s1 s2 s3 : frame s1 s2 -> frame s2 s3 -> frame s1 s3.
Proof. unfold frame. intuition congruence. Qed.

(** The context [c] is being set up or taken down: it is [x] now, the others are those of [s0]. *)
Record in_work (c : Z) s0 (x : ctl_ctx) s : Prop := {
  iw_frame : frame s0 s;
  iw_ctxs : ctxs s = <[c := x]> (ctxs s0);
  iw_objs : owns (objs_of s) s }.

Lemma in_work_ctx c s0 x s : in_work c s0 x s -> ctxs s !! c = Some x.
Proof. intros [_ -> _]. apply lookup_insert_eq. Qed.

Lemma in_work_vars c s0 x s : in_work c s0 x s -> vars s = vars s0.
Proof. intros [(_ & _ & _ & _ & H) _ _]. exact H. Qed.

Lemma runs_get_ctx c x s (Q : ctl_ctx -> state -> Prop) : ctxs s !! c = Some x -> Q x s -> runs (get_ctx c) s Q.
Proof. intros Hx HQ. unfold get_ctx. runs_step. runs_step. rewrite Hx. by apply runs_ret. Qed.

Lemma runs_upd_ctx c f x s (Q : unit -> state -> Prop) : ctxs s !! c = Some x ->
  Q tt (set_ctxs (<[c := f x]> (ctxs s)) s) -> runs (upd_ctx c f) s Q.
Proof. intros Hx HQ. unfold upd_ctx. runs_step. eapply runs_get_ctx; [exact Hx|]. by apply runs_modify. Qed.

(** Changing the context changes its objects. *)
Lemma objs_of_update c y s o : objs_of (set_ctxs (<[c := y]> (ctxs s)) s) o <->
  o ∈ base_objs \/ stx_objs s o \/ ctx_owned c y o \/ exists d x, d <> c /\ ctxs s !! d = Some x /\ ctx_owned d x o.
Proof.
  unfold objs_of. simpl. split; (intros [H|[H|H]]; [by left|right; by left|right; right]).
  - destruct H as (d & x & Hd & Hx). destruct (decide (d = c)) as [->|Hne].
    + rewrite lookup_insert_eq in Hd. injection Hd as <-. by left.
    + rewrite lookup_insert_ne in Hd by done. right. by exists d, x.
  - destruct H as [H|(d & x & Hne & Hd & Hx)].
    + exists c, y. by rewrite lookup_insert_eq.
    + exists d, x. by rewrite lookup_insert_ne.
Qed.

Lemma objs_of_split c x s o : ctxs s !! c = Some x -> objs_of s o <->
  o ∈ base_objs \/ stx_objs s o \/ ctx_owned c x o \/ exists d y, d <> c /\ ctxs s !! d = Some y /\ ctx_owned d y o.
Proof.
  intros Hc. rewrite <- (objs_of_update c x s o). unfold objs_of. simpl. by rewrite insert_id.
Qed.

(** The part of the context changes whose objects are the same. *)
Lemma in_work_update c s0 x y s f' : in_work c s0 x s -> (forall o, ctx_owned c y o <-> ctx_owned c x o) ->
  fcs f' = fcs s -> frame s f' -> ctxs f' = <[c := y]> (ctxs s) -> in_work c s0 y f'.
Proof.
  intros Hw Hy Ef Hf Ec. pose proof (in_work_ctx _ _ _ _ Hw) as Hc. destruct Hw as [H1 H2 H3]. split.
  - by eapply frame_trans.
  - by rewrite Ec, H2, insert_insert_eq.
  - apply (owns_fcs _ s); [done|]. eapply owns_ext; [|exact H3]. intros o. rewrite (objs_of_split c x s o Hc).
    assert (objs_of f' o <-> objs_of (set_ctxs (<[c := y]> (ctxs s)) s) o) as ->.
    { unfold objs_of, stx_objs. simpl. rewrite Ec. by destruct Hf as (_ & _ & _ & _ & ->). }
    rewrite objs_of_update, Hy. done.
Qed.

(** ** Setting up a context *)

Lemma in_work_fcs c s0 x s f' : in_work c s0 x s -> owns (objs_of s) (set_fcs f' s) -> in_work c s0 x (set_fcs f' s).
Proof. by intros [H1 H2 _] H3. Qed.

Lemma open_field_spec c s0 x s o f : in_work c s0 x s -> allowed o Domainfd ->
  (forall p, ctx_owned c (f x) p <-> p = o \/ ctx_owned c x p) ->
  runs (open_field c o f) s (fun rc s' => stxs s' = stxs s /\ (rc = 0 /\ in_work c s0 (f x) s' \/ rc <> 0 /\ in_work c s0 x s')).
Proof.
  intros Hw Ha Hf. pose proof (in_work_ctx _ _ _ _ Hw) as Hx. pose proof Hw as [H1 H2 H3]. unfold open_field.
  eapply runs_then; [by apply f_open_spec|]. intros rc s' [[f' ->] [[-> Ho]|[Hrc Ho]]].
  - apply runs_bind. simpl. eapply runs_upd_ctx; [exact Hx|]. apply runs_ret. split; [done|]. left. split; [done|]. split.
    + exact H1.
    + simpl. by rewrite H2, insert_insert_eq.
    + eapply owns_ext; [|eapply owns_fcs; [|exact Ho]; done]. intros p. rewrite objs_of_update. simpl.
      rewrite (objs_of_split c x s p Hx), Hf. unfold stx_objs. simpl. tauto.
  - apply runs_bind. rewrite (proj2 (Z.eqb_neq rc 0)) by done. apply runs_ret. apply runs_ret. split; [done|]. right.
    split; [done|]. by apply in_work_fcs.
Qed.

(** A change of the context that leaves its objects. *)
Lemma upd_field_spec c s0 x s f : in_work c s0 x s -> (forall p, ctx_owned c (f x) p <-> ctx_owned c x p) ->
  runs (upd_ctx c f) s (fun _ s' => stxs s' = stxs s /\ in_work c s0 (f x) s').
Proof.
  intros Hw Hf. eapply runs_upd_ctx; [by eapply in_work_ctx|]. split; [done|]. by eapply in_work_update.
Qed.

Lemma bind_step_spec c s0 x s o v : in_work c s0 x s -> allowed o v ->
  runs (f_bind o v) s (fun _ s' => stxs s' = stxs s /\ in_work c s0 x s').
Proof.
  intros Hw Ha. eapply runs_mono; [apply f_bind_spec; [apply Hw|done]|]. intros rc s' [[f' ->] Ho]. split; [done|].
  by apply in_work_fcs.
Qed.

Lemma bind_enable_spec c s0 x s : in_work c s0 x s ->
  runs (bind_enable_ep_resources c) s (fun _ s' => stxs s' = stxs s /\ in_work c s0 x s').
Proof.
  intros Hw. pose proof (in_work_ctx _ _ _ _ Hw) as Hx. unfold bind_enable_ep_resources. apply runs_bind.
  eapply runs_get_ctx; [exact Hx|].
  assert (forall k o v s, in_work c s0 x s -> allowed o v ->
    (forall s', in_work c s0 x s' -> runs k s' (fun _ s'' => stxs s'' = stxs s' /\ in_work c s0 x s'')) ->
    runs (f_bind o v >>? k) s (fun _ s' => stxs s' = stxs s /\ in_work c s0 x s')) as Hstep.
  { intros k o v s1 Hw1 Ha Hk. eapply runs_and_then; [by apply bind_step_spec| |done]. intros s2 [E2 Hw2].
    eapply runs_mono; [by apply Hk|]. intros rc s3 [E3 Hw3]. by rewrite E3. }
  assert (forall s, in_work c s0 x s -> runs
    (f_bind (CtxEp c) (CtxPutCntr c) >>? f_bind (CtxEp c) (CtxGetCntr c) >>? f_bind (CtxEp c) (CtxCq c) >>?
     f_bind (CtxEp c) Avfd >>? f_enable (CtxEp c)) s (fun _ s' => stxs s' = stxs s /\ in_work c s0 x s')) as Hrest.
  { intros s1 Hw1. repeat (apply Hstep; [done|done|clear s1 Hw1; intros s1 Hw1]).
    eapply runs_mono; [apply f_enable_spec, Hw1|]. intros rc s' [[f' ->] Ho]. split; [done|]. by apply in_work_fcs. }
  destruct (c_stx_idx x >=? 0).
  - by apply Hstep.
  - unfold and_then at 1. apply runs_bind. apply runs_ret. simpl. by apply Hrest.
Qed.

(** ** The pool *)

Lemma private_bounce o : private (Z.land o (Z.lnot SHMEMX_CTX_BOUNCE_BUFFER)) = private o.
Proof.
  unfold private, shmem_transport_ofi_is_private. rewrite <- Z.land_assoc.
  by change (Z.land (Z.lnot SHMEMX_CTX_BOUNCE_BUFFER) SHMEM_CTX_PRIVATE) with SHMEM_CTX_PRIVATE.
Qed.

(** The order of the contexts does not matter, and of their options only the private bit. *)
Lemma stx_inv_ext n us vs p :
  (forall i, users_of i us = users_of i vs) -> (forall u, u ∈ us -> exists v, v ∈ vs /\ u_idx v = u_idx u) ->
  (forall v, v ∈ vs -> exists u, u ∈ us /\ u_idx u = u_idx v /\ u_tid u = u_tid v /\ private (u_options u) = private (u_options v)) ->
  stx_inv n (OFI_STX_DISABLE_PRIVATE params) us p -> stx_inv n (OFI_STX_DISABLE_PRIVATE params) vs p.
Proof.
  intros Hc Huv Hvu [I1 I2 I3 I4 I5 I6 I7 I8]. split; try done.
  - intros i x Hx. by rewrite <- Hc, (I3 _ _ Hx).
  - intros t i Ht. destruct (I7 _ _ Ht) as (u & Hu & <-). by apply Huv.
  - intros v Hv. destruct (Hvu v Hv) as (u & Hu & <- & <- & Ep). fold (private (u_options v)). rewrite <- Ep. by apply I8.
Qed.

Lemma users_of_perm i us vs : us ≡ₚ vs -> users_of i us = users_of i vs.
Proof. unfold users_of. induction 1; simpl; try lia. Qed.

Lemma stx_good_perm us vs s : us ≡ₚ vs -> stx_good us s -> stx_good vs s.
Proof.
  intros Hp [[H0 Hu]|[H0 Hi]]; [left|right]; (split; [done|]).
  - intros u. rewrite <- Hp. apply Hu.
  - eapply stx_inv_ext; [..|exact Hi].
    + intros i. by apply users_of_perm.
    + intros u. rewrite Hp. by exists u.
    + intros u. rewrite <- Hp. by exists u.
Qed.

Lemma stx_good_options i o o' t us s : private o = private o' ->
  stx_good (User i o t :: us) s -> stx_good (User i o' t :: us) s.
Proof.
  intros Ho [[H0 Hu]|[H0 Hi]]; [left|right]; (split; [done|]).
  - intros u [->|H]%elem_of_cons; [apply (Hu (User i o t)); by left|apply Hu; by right].
  - eapply stx_inv_ext; [..|exact Hi].
    + done.
    + intros u [->|H]%elem_of_cons; [by exists (User i o' t); split; [left|]|by exists u; split; [right|]].
    + intros u [->|H]%elem_of_cons; [by exists (User i o t); split; [left|]|by exists u; split; [right|]].
Qed.

Lemma stx_good_same us s s' : stxs s' = stxs s -> vars s' = vars s -> stx_good us s -> stx_good us s'.
Proof. unfold stx_good. by intros -> ->. Qed.

(** The allocation for a context. *)
Lemma ctx_stx_allocate_spec c s0 x s us : in_work c s0 x s -> 0 <= v_stx_max (vars s0) -> search_ok s0 ->
  stx_good us s -> serves us ->
  runs (ctx_stx_allocate c) s (fun _ s' => exists i o, in_work c s0 (with_stx i o x) s' /\
    stx_good (user_of (with_stx i o x) :: us) s' /\ (private (c_options x) = false -> private o = false)).
Proof.
  intros Hw Hmax Hs Hg Hserv. pose proof (in_work_ctx _ _ _ _ Hw) as Hx. unfold ctx_stx_allocate. apply runs_bind, runs_get, runs_bind.
  eapply runs_get_ctx; [exact Hx|]. assert (vars s = vars s0) as Ev by apply Hw.
  assert (forall r p, runs (upd_ctx c (with_stx r.1 r.2)) (set_stxs p s) (fun _ s' => stxs s' = p /\ in_work c s0 (with_stx r.1 r.2 x) s')) as Hupd.
  { intros r p. eapply runs_mono; [eapply (upd_field_spec c s0 x (set_stxs p s))|by intros ? ? [? ?]].
    - destruct Hw as [H1 H2 H3]. by split.
    - done. }
  destruct Hg as [[H0 Hu]|[H0 Hi]].
  - eapply runs_then with (P := fun r s' => r = (-1, c_options x) /\ s' = set_stxs (stxs s) s).
    { apply (runs_some _ _ _ _ (-1, c_options x) (set_stxs (stxs s) s)); [|done]. unfold zoom, shmem_transport_ofi_stx_allocate. by rewrite H0. }
    intros r s' [-> ->]. eapply runs_mono; [apply Hupd|]. intros [] s' [Es Hw']. exists (-1), (c_options x). split; [done|]. split; [|done].
    left. split; [by rewrite (in_work_vars _ _ _ _ Hw'), <- Ev|].
    intros u [->|H]%elem_of_cons; [done|by apply Hu].
  - unfold search_ok in Hs. rewrite <- Ev in Hs.
    destruct (runs_elim _ _ _ (allocate_total (v_stx_max (vars s)) (v_stx_threshold (vars s)) (v_stx_allocator (vars s))
      (OFI_STX_DISABLE_PRIVATE params) rand_r probes H0 (fun Ea => proj1 (Hs Ea)) us (stxs s) (c_options x) (c_tid x)
      (fun Ea => proj2 (Hs Ea)) Hi Hserv)) as (r & p & E & [Hi' Ho]).
    apply runs_bind. apply (runs_some _ _ _ _ r (set_stxs p s)); [by apply zoom_run|].
    eapply runs_mono; [apply Hupd|]. intros [] s' [Es Hw']. exists r.1, r.2. split; [done|]. split.
    + apply (stx_good_perm (us ++ [User r.1 r.2 (c_tid x)])); [by rewrite Permutation_app_comm|]. right.
      rewrite (in_work_vars _ _ _ _ Hw'), <- Ev, Es. by split.
    + intros Hp. destruct Ho as [->|[Hp' _]]; [done|]. exfalso. unfold private in Hp. congruence.
Qed.

Lemma ctx_bounce_spec c s0 x s us : in_work c s0 x s -> stx_good (user_of x :: us) s ->
  runs (ctx_bounce c) s (fun _ s' => exists o b, private o = private (c_options x) /\ in_work c s0 (with_bounce o b x) s' /\
    stx_good (user_of (with_bounce o b x) :: us) s').
Proof.
  intros Hw Hg. unfold ctx_bounce. apply runs_bind, runs_get.
  assert (exists o b, private o = private (c_options x) /\
    (if negb (Z.land (c_options x) SHMEMX_CTX_BOUNCE_BUFFER =? 0) && (v_bounce_buffer_size (vars s) >? 0) && (v_max_bounce_buffers (vars s) >? 0)
     then with_bounce (c_options x) true x
     else with_bounce (Z.land (c_options x) (Z.lnot SHMEMX_CTX_BOUNCE_BUFFER)) false x) = with_bounce o b x) as (o & b & Ho & E).
  { destruct (_ && _); eexists _, _; (split; [|done]); [done|apply private_bounce]. }
  eapply runs_upd_ctx; [by eapply in_work_ctx|]. cbv beta. rewrite E. exists o, b. split; [done|]. split.
  - by eapply in_work_update.
  - eapply stx_good_same; [done|done|]. by eapply stx_good_options; [symmetry; exact Ho|].
Qed.

(** The fields that opening and binding do not touch. *)
Definition early (x y : ctl_ctx) : Prop := c_id y = c_id x /\ c_team y = c_team x /\ c_stx_idx y = c_stx_idx x.

(** What [shmem_transport_ofi_ctx_init] leaves: a complete context that has joined the
    pool, or the part that was set up before the failure. *)
Definition initialized c id x us s rc s' : Prop := exists x', in_work c s x' s' /\ c_id x' = id /\ c_team x' = c_team x /\
  (private (c_options x) = false -> private (c_options x') = false) /\
  (rc = 0 /\ complete x' /\ stx_good (user_of x' :: us) s' \/
   rc <> 0 /\ (c_stx_idx x = -1 -> stx_good (if c_stx_idx x' >=? 0 then user_of x' :: us else us) s')).

Lemma opening_failed c id x y us s rc s' : early (with_id id x) y -> c_options y = c_options x -> rc <> 0 ->
  in_work c s y s' -> stx_good us s' -> initialized c id x us s rc s'.
Proof.
  intros (E1 & E2 & E3) E4 Hrc Hw Hg. exists y. split; [done|]. split; [done|]. split; [done|]. split; [by rewrite E4|].
  right. split; [done|]. intros Hx. simpl in E3. by rewrite E3, Hx.
Qed.

(** The last steps, once the objects are open. *)
Lemma ctx_join_spec c id x y us s s' t : in_work c s y s' -> early (with_id id x) y -> c_options y = c_options x -> complete y ->
  0 <= v_stx_max (vars s) -> search_ok s -> stx_good us s' -> serves us ->
  runs (x <- get_ctx c ;
    (if (thread_level >? SHMEM_THREAD_FUNNELED) && private (c_options x) then upd_ctx c (with_tid t) else ret tt) ;;
    ctx_stx_allocate c ;;
    (bind_enable_ep_resources c >>? (ctx_bounce c ;; ret 0))) s' (initialized c id x us s).
Proof.
  intros Hw (E1 & E2 & E3) E4 Hc Hmax Hs Hg Hserv. apply runs_bind. eapply runs_get_ctx; [by eapply in_work_ctx|].
  eapply runs_then with (P := fun _ s'' => exists y', c_id y' = id /\ c_team y' = c_team x /\ c_options y' = c_options x /\ complete y' /\
    in_work c s y' s'' /\ stx_good us s'').
  { destruct (_ && _); [|by apply runs_ret; exists y]. eapply runs_mono; [by eapply (upd_field_spec c s y s' (with_tid t))|].
    intros [] s'' [Es Hw'']. exists (with_tid t y). repeat split; try done; try apply Hc; try apply Hw''.
    eapply stx_good_same; [exact Es| |exact Hg]. by rewrite (in_work_vars _ _ _ _ Hw), (in_work_vars _ _ _ _ Hw''). }
  intros [] s1 (y' & F1 & F2 & F3 & Fc & Hw1 & Hg1).
  eapply runs_then; [by eapply (ctx_stx_allocate_spec c s y' s1 us)|]. intros [] s2 (i & o & Hw2 & Hg2 & Ho).
  assert (forall s3, stxs s3 = stxs s2 -> in_work c s (with_stx i o y') s3 -> stx_good (user_of (with_stx i o y') :: us) s3) as Hsame.
  { intros s3 Es Hw3. eapply stx_good_same; [exact Es| |exact Hg2]. destruct (iw_frame _ _ _ _ Hw2) as (_ & _ & _ & _ & ->).
    by destruct (iw_frame _ _ _ _ Hw3) as (_ & _ & _ & _ & ->). }
  eapply runs_and_then; [by apply (bind_enable_spec c s (with_stx i o y') s2)| |].
  - intros s3 [Es Hw3]. eapply runs_then; [by apply (ctx_bounce_spec c s (with_stx i o y') s3 us); [|by apply Hsame]|].
    intros [] s4 (o' & b & Ho' & Hw4 & Hg4). apply runs_ret. eexists. split; [exact Hw4|]. simpl. repeat split; try done.
    + intros Hp. rewrite Ho'. simpl. apply Ho. by rewrite F3.
    + left. split; [done|]. split; [exact Fc|done].
  - intros rc s3 Hrc [Es Hw3]. eexists. split; [exact Hw3|]. simpl. repeat split; try done.
    + intros Hp. apply Ho. by rewrite F3.
    + right. split; [done|]. intros _. pose proof (Hsame s3 Es Hw3) as Hg3. destruct (Z.geb_spec i 0); [done|].
      (* without a pool there is nothing to give back *)
      destruct Hg3 as [[H0 Hu]|[H0 Hi]].
      * left. split; [done|]. intros u Hu'. apply Hu. by right.
      * exfalso. destruct (si_users _ _ _ _ Hi (user_of (with_stx i o y')) (list_elem_of_here _ _)) as [Hb _]. simpl in Hb. lia.
Qed.

Lemma ctx_init_spec c id t s x us : ctxs s !! c = Some x -> c_ep x = false -> c_put_cntr x = false -> c_get_cntr x = false -> c_cq x = false ->
  owns (objs_of s) s -> stx_good us s -> serves us -> 0 <= v_stx_max (vars s) -> search_ok s ->
  runs (shmem_transport_ofi_ctx_init c id t) s (initialized c id x us s).
Proof.
  intros Hx X1 X2 X3 X4 Ho Hg Hserv Hmax Hs. unfold shmem_transport_ofi_ctx_init.
  assert (in_work c s x s) as Hw0 by (split; [apply frame_refl|by rewrite insert_id|done]).
  eapply runs_then; [eapply (upd_field_spec c s x s (with_id id)); [done|by intros p]|]. intros [] s0 [E0 Hw].
  assert (forall o f k y s1, in_work c s y s1 -> stxs s1 = stxs s -> early (with_id id x) y -> c_options y = c_options x -> allowed o Domainfd ->
    early y (f y) -> c_options (f y) = c_options y -> (forall p, ctx_owned c (f y) p <-> p = o \/ ctx_owned c y p) ->
    (forall s2, in_work c s (f y) s2 -> stxs s2 = stxs s -> early (with_id id x) (f y) -> c_options (f y) = c_options x ->
      runs k s2 (initialized c id x us s)) ->
    runs (open_field c o f >>? k) s1 (initialized c id x us s)) as Hstep.
  { intros o f k y s1 Hw1 E1 Hy Hy' Ha Hf Hf' Hp Hk.
    assert (forall s2, stxs s2 = stxs s1 -> in_work c s y s2 -> stx_good us s2) as Hg2.
    { intros s2 E2 Hw2. apply (stx_good_same us s); [by rewrite E2, E1|by eapply in_work_vars|done]. }
    eapply runs_and_then; [by eapply (open_field_spec c s y s1 o f)| |].
    - intros s2 [E2 [[_ Hw2]|[? _]]]; [|done]. apply Hk; [done|by rewrite E2| |congruence].
      destruct Hf as (F1 & F2 & F3). unfold early. by rewrite F1, F2, F3.
    - intros rc s2 Hrc [E2 [[? _]|[_ Hw2]]]; [done|]. eapply opening_failed; [exact Hy|done|done|exact Hw2|by apply Hg2]. }
  eapply Hstep; [exact Hw|done|done|done|done|done|done| |].
  { unfold ctx_owned. simpl. rewrite X2. naive_solver. }
  intros s1 Hw1 E1 _ _. eapply Hstep; [exact Hw1|done|done|done|done|done|done| |].
  { unfold ctx_owned. simpl. rewrite X3. naive_solver. }
  intros s2 Hw2 E2 _ _. eapply Hstep; [exact Hw2|done|done|done|done|done|done| |].
  { unfold ctx_owned. simpl. rewrite X4. naive_solver. }
  intros s3 Hw3 E3 _ _. eapply Hstep; [exact Hw3|done|done|done|done|done|done| |].
  { unfold ctx_owned. simpl. rewrite X1. naive_solver. }
  intros s4 Hw4 E4 He Ho4. eapply ctx_join_spec; [exact Hw4|exact He|exact Ho4|done|done|done| |done].
  apply (stx_good_same us s); [exact E4|by eapply in_work_vars|done].
Qed.

(** ** Taking down a context *)

(** Which contexts an object of a context belongs to. *)
Ltac ctx_obj :=
  split; [intros [H%base_not_ctx|[(i & H & _)|[H|(d & y & Hne & _ & H)]]] | intros H; right; right; left];
  unfold ctx_owned in *; simpl in *; naive_solver.

Lemma objs_of_ep c x s : ctxs s !! c = Some x -> objs_of s (CtxEp c) <-> c_ep x = true.
Proof. intros Hx. rewrite (objs_of_split c x s _ Hx). ctx_obj. Qed.
Lemma objs_of_put c x s : ctxs s !! c = Some x -> objs_of s (CtxPutCntr c) <-> c_put_cntr x = true.
Proof. intros Hx. rewrite (objs_of_split c x s _ Hx). ctx_obj. Qed.
Lemma objs_of_get c x s : ctxs s !! c = Some x -> objs_of s (CtxGetCntr c) <-> c_get_cntr x = true.
Proof. intros Hx. rewrite (objs_of_split c x s _ Hx). ctx_obj. Qed.
Lemma objs_of_cq c x s : ctxs s !! c = Some x -> objs_of s (CtxCq c) <-> c_cq x = true.
Proof. intros Hx. rewrite (objs_of_split c x s _ Hx). ctx_obj. Qed.

Lemma close_if_spec (b : bool) P o s : owns P s -> (P o <-> b = true) -> (forall u, P u -> ~ allowed u o) ->
  runs (if b then f_close o else ret tt) s (fun _ s' => (exists f', s' = set_fcs f' s) /\ owns (fun x => P x /\ x <> o) s').
Proof.
  intros Ho Hb Hfree. destruct b.
  - apply f_close_spec; [done|by apply Hb|done].
  - apply runs_ret. split; [exists (fcs s); by destruct s|]. eapply owns_ext; [|exact Ho]. intros x. split; [|by intros [? _]].
    intros Hx. split; [done|]. intros ->. by apply Hb in Hx.
Qed.

Definition unlocked s : Prop := thread_level = SHMEM_THREAD_MULTIPLE -> mtx s = false.

(** The lock inside a critical section that is entered in [s], and its two ends. *)
Definition held s : bool := if thread_level =? SHMEM_THREAD_MULTIPLE then true else mtx s.

Lemma lock_spec s : unlocked s -> runs OFI_LOCK s (fun _ s' => s' = set_mtx (held s) s).
Proof.
  unfold unlocked, OFI_LOCK, held. intros Hl. apply runs_bind, runs_get. destruct (Z.eqb_spec thread_level SHMEM_THREAD_MULTIPLE) as [E|E].
  - rewrite Hl by done. by apply runs_modify.
  - apply runs_ret. by destruct s.
Qed.

Lemma unlock_spec s s' : unlocked s -> mtx s' = mtx s -> runs OFI_UNLOCK (set_mtx (held s) s') (fun _ s'' => s'' = s').
Proof.
  unfold unlocked, OFI_UNLOCK, held. intros Hl Es. apply runs_bind, runs_get. destruct (Z.eqb_spec thread_level SHMEM_THREAD_MULTIPLE) as [E|E].
  - apply runs_modify. rewrite Hl in Es by done. by destruct s'; simpl in *; subst.
  - apply runs_ret. destruct s'; simpl in *; by subst.
Qed.

(** Leaving the pool. *)
Definition with_idx (x : ctl_ctx) (us : list user) : list user := if c_stx_idx x >=? 0 then user_of x :: us else us.

Lemma release_region_spec x us s : unlocked s -> stx_good (with_idx x us) s ->
  runs (if c_stx_idx x >=? 0 then
     OFI_LOCK ;; zoom stxs set_stxs (release_stx (OFI_STX_DISABLE_PRIVATE params) (c_stx_idx x) (c_options x) (c_tid x)) ;; OFI_UNLOCK
   else ret tt) s (fun _ s' => exists p, s' = set_stxs p s /\ stx_good us s').
Proof.
  unfold with_idx. intros Hl Hg. destruct (Z.geb_spec (c_stx_idx x) 0) as [Hi|Hi].
  2: { apply runs_ret. exists (stxs s). split; [by destruct s|done]. }
  destruct Hg as [[H0 Hu]|[H0 Hi']].
  { specialize (Hu _ (list_elem_of_here _ _)). simpl in Hu. lia. }
  destruct (runs_elim _ _ _ (release_spec _ 0 ROUNDROBIN (OFI_STX_DISABLE_PRIVATE params) rand_r O H0 [] us (stxs s) (user_of x) Hi')) as ([] & p & E & Hp).
  eapply runs_then; [by apply lock_spec|]. intros [] s' ->. apply runs_bind. apply (runs_some _ _ _ _ tt (set_stxs p (set_mtx (held s) s)));
    [apply zoom_run; exact E|]. eapply runs_mono; [by apply (unlock_spec s (set_stxs p s))|]. intros [] s' ->.
  exists p. split; [done|]. by right.
Qed.

(** The objects of other owners than the context [c]. *)
Definition others c s o : Prop := objs_of s o /\ o <> CtxEp c /\ o <> CtxPutCntr c /\ o <> CtxGetCntr c /\ o <> CtxCq c.

Lemma ctx_destroy_spec c x s us : ctxs s !! c = Some x -> owns (objs_of s) s -> stx_good (with_idx x us) s -> unlocked s ->
  0 <= c_id x \/ c_id x = SHMEM_TRANSPORT_CTX_DEFAULT_ID ->
  runs (shmem_transport_ctx_destroy c) s (fun _ s' => exists f p, owns (others c s) s' /\ stx_good us s' /\
    s' = if 0 <=? c_id x
         then set_ctxs (delete c (ctxs s)) (set_teams (<[c_team x := <[Z.to_nat (c_id x) := None]> (default [] (teams s !! c_team x))]> (teams s))
                (set_fcs f (set_stxs p s)))
         else set_fcs f (set_stxs p s)).
Proof.
  intros Hx Ho Hg Hl Hid. unfold shmem_transport_ctx_destroy. apply runs_bind. eapply runs_get_ctx; [exact Hx|].
  eapply runs_then; [apply (close_if_spec (c_ep x) _ _ _ Ho)|].
  { by apply objs_of_ep. } { intros u _ Ha. by destruct u. }
  intros [] s1 [[f1 ->] Ho1]. eapply runs_then; [by apply (release_region_spec x us)|]. intros [] s2 (p & -> & Hg2).
  eapply runs_then; [eapply (close_if_spec (c_put_cntr x)); [eapply owns_fcs; [|exact Ho1]; done| |]|].
  { rewrite <- (objs_of_put c x s Hx). naive_solver. } { intros u [_ Hne] Ha. destruct u; simpl in Ha; by subst. }
  intros [] s3 [[f3 ->] Ho3]. eapply runs_then; [apply (close_if_spec (c_get_cntr x) _ _ _ Ho3)|].
  { rewrite <- (objs_of_get c x s Hx). naive_solver. } { intros u [[_ Hne] _] Ha. destruct u; simpl in Ha; by subst. }
  intros [] s4 [[f4 ->] Ho4]. eapply runs_then; [apply (close_if_spec (c_cq x) _ _ _ Ho4)|].
  { rewrite <- (objs_of_cq c x s Hx). naive_solver. } { intros u [[[_ Hne] _] _] Ha. destruct u; simpl in Ha; by subst. }
  intros [] s5 [[f5 ->] Ho5].
  assert (forall s', fcs s' = f5 -> owns (others c s) s') as Hfin.
  { intros s' Ef. apply (owns_fcs _ (set_fcs f5 s)); [exact Ef|]. eapply owns_ext; [|exact Ho5]. unfold others. intros o. simpl. tauto. }
  rewrite Z.geb_leb. destruct (Z.leb_spec 0 (c_id x)) as [Hi|Hi].
  - eapply runs_then; [by apply lock_spec|]. intros [] s' ->. apply runs_bind, runs_modify.
    eapply runs_then; [apply (unlock_spec _ (set_teams _ (set_fcs f5 (set_stxs p s)))); done|]. intros [] s' ->.
    apply runs_modify. exists f5, p. split; [by apply Hfin|]. split; [|done]. by apply (stx_good_same us (set_stxs p (set_fcs f1 s))).
  - destruct Hid as [Hid| ->]; [lia|]. apply runs_ret. exists f5, p. split; [by apply Hfin|]. split; [|done].
    by apply (stx_good_same us (set_stxs p (set_fcs f1 s))).
Qed.

(** ** The arrays of contexts *)

Definition slot (T : gmap Z (list (option Z))) (t : Z) (i : nat) : option Z := T !! t ≫= fun l => mjoin (l !! i).

Lemma open_slot_spec l : (open_slot l <= length l)%nat /\ ((open_slot l < length l)%nat -> l !! open_slot l = Some None).
Proof. induction l as [|[c|] l [IH1 IH2]]; simpl; [lia| |split; [lia|done]]. split; [lia|]. intros H. apply IH2. lia. Qed.

(** The array of the team, grown when it has no open slot. *)
Definition grown (T : gmap Z (list (option Z))) (team : Z) : gmap Z (list (option Z)) :=
  let l := default [] (T !! team) in
  if (length l <=? open_slot l)%nat then <[team := l ++ replicate grow_size None]> T else T.

Lemma grown_spec T team : exists l, grown T team !! team = Some l /\ l !! open_slot (default [] (T !! team)) = Some None /\
  forall t i, slot (grown T team) t i = slot T t i.
Proof.
  unfold grown. assert (0 < grow_size)%nat as Hg by (unfold grow_size; lia). revert Hg. generalize grow_size. intros g Hg.
  set (l := default [] (T !! team)). destruct (open_slot_spec l) as [H1 H2].
  destruct (Nat.leb_spec (length l) (open_slot l)) as [H|H].
  - exists (l ++ replicate g None). split; [by rewrite lookup_insert_eq|]. split.
    + rewrite lookup_app_r by done. apply lookup_replicate_2. lia.
    + intros t i. unfold slot. destruct (decide (t = team)) as [->|Hne]; [|by rewrite lookup_insert_ne]. rewrite lookup_insert_eq. simpl.
      destruct (decide (i < length l)%nat) as [Hi|Hi].
      * rewrite lookup_app_l by done. unfold l in *. by destruct (T !! team).
      * rewrite lookup_app_r by lia. trans (None : option Z).
        { destruct (_ !! (i - length l)%nat) eqn:E; [|done]. by apply lookup_replicate in E as [-> _]. }
        unfold l in *. destruct (T !! team); simpl in *; [|done]. by rewrite lookup_ge_None_2 by lia.
  - exists l. split; [|by split; [apply H2|]]. unfold l in *. destruct (T !! team); [done|]. simpl in *. lia.
Qed.

Lemma slot_set T team l i v t j : T !! team = Some l -> (i < length l)%nat ->
  slot (<[team := <[i := v]> l]> T) t j = if decide (t = team /\ j = i) then v else slot T t j.
Proof.
  intros Hl Hi. unfold slot. destruct (decide (t = team)) as [->|Hne].
  - rewrite lookup_insert_eq, Hl. simpl. destruct (decide (j = i)) as [->|Hj].
    + rewrite decide_True by done. by rewrite list_lookup_insert_eq.
    + rewrite decide_False by (by intros [_ ?]). by rewrite list_lookup_insert_ne.
  - rewrite lookup_insert_ne by done. by rewrite decide_False by (by intros [? _]).
Qed.

(** ** The invariant *)

Definition users s : list user := (fun e => user_of e.2) <$> map_to_list (ctxs s).

Record ctl_inv s : Prop := {
  ci_unlocked : mtx s = false;
  ci_default : exists x, ctxs s !! DEFAULT_CTX = Some x /\ c_id x = SHMEM_TRANSPORT_CTX_DEFAULT_ID /\ private (c_options x) = false;
  ci_ctx : forall c x, ctxs s !! c = Some x -> complete x /\ (c = DEFAULT_CTX \/
    0 < c < next_ctx s /\ 0 <= c_id x /\ slot (teams s) (c_team x) (Z.to_nat (c_id x)) = Some c);
  ci_slot : forall t i c, slot (teams s) t i = Some c -> c <> DEFAULT_CTX /\
    exists x, ctxs s !! c = Some x /\ c_team x = t /\ c_id x = Z.of_nat i;
  ci_next : 0 < next_ctx s;
  ci_objs : owns (objs_of s) s;
  ci_pool : stx_good (users s) s;
  ci_max : 0 <= v_stx_max (vars s);
  ci_search : search_ok s }.

Lemma elem_of_users c x s : ctxs s !! c = Some x -> user_of x ∈ users s.
Proof. intros H. apply list_elem_of_fmap. exists (c, x). split; [done|]. by apply elem_of_map_to_list. Qed.

Lemma ctl_inv_serves s : ctl_inv s -> serves (users s).
Proof. intros H. destruct (ci_default _ H) as (x & Hx & _ & Hp). right. exists (user_of x). split; [by eapply elem_of_users|done]. Qed.

Lemma users_insert c x s : ctxs s !! c = None -> users (set_ctxs (<[c := x]> (ctxs s)) s) ≡ₚ user_of x :: users s.
Proof. intros H. unfold users. simpl. by rewrite map_to_list_insert by done. Qed.

Lemma users_delete c x s : ctxs s !! c = Some x -> user_of x :: users (set_ctxs (delete c (ctxs s)) s) ≡ₚ users s.
Proof. intros H. unfold users. simpl. by rewrite <- (map_to_list_delete (ctxs s) c x H). Qed.

Lemma next_fresh s : ctl_inv s -> ctxs s !! next_ctx s = None.
Proof.
  intros H. destruct (ctxs s !! next_ctx s) as [x|] eqn:E; [|done]. exfalso. pose proof (ci_next _ H).
  destruct (ci_ctx _ H _ _ E) as [_ [Hd|[Hr _]]]; [unfold DEFAULT_CTX in Hd|]; lia.
Qed.

(** A context without an STX has nothing to give back. *)
Lemma with_idx_good x us s : stx_good (user_of x :: us) s -> stx_good (with_idx x us) s.
Proof.
  intros H. unfold with_idx. destruct (Z.geb_spec (c_stx_idx x) 0) as [Hi|Hi]; [done|]. destruct H as [[H0 Hu]|[H0 Hinv]].
  - left. split; [done|]. intros u Hu'. apply Hu. by right.
  - exfalso. destruct (si_users _ _ _ _ Hinv (user_of x) (list_elem_of_here _ _)) as [Hb _]. simpl in Hb. lia.
Qed.

Lemma others_delete c x s o : ctxs s !! c = Some x -> others c s o <-> objs_of (set_ctxs (delete c (ctxs s)) s) o.
Proof.
  intros Hx. unfold others. rewrite (objs_of_split c x s o Hx). unfold objs_of, stx_objs. simpl. split.
  - intros ([H|[H|[H|(d & y & Hne & Hd & H)]]] & N); [by left|by right; left| |].
    + exfalso. unfold ctx_owned in H. naive_solver.
    + right. right. exists d, y. by rewrite lookup_delete_ne.
  - intros [H|[(i & -> & Hi)|(d & y & Hd & H)]].
    + split; [by left|]. repeat split; intros ->; by apply base_not_ctx in H.
    + split; [|done]. right. left. by exists i.
    + apply lookup_delete_Some in Hd as [Hne Hd]. split; [right; right; right; by exists d, y|].
      unfold ctx_owned in H. naive_solver.
Qed.

(** ** Destroying a context *)

Lemma destroy_spec c s : ctl_inv s -> is_Some (ctxs s !! c) -> c <> DEFAULT_CTX ->
  runs (shmem_transport_ctx_destroy c) s (fun _ s' => ctl_inv s' /\ ctxs s' = delete c (ctxs s) /\ vars s' = vars s).
Proof.
  intros H [x Hx] Hc. destruct (ci_ctx _ H _ _ Hx) as [Hcomp [?|(Hn & Hid & Hslot)]]; [done|].
  pose proof (ci_pool _ H) as Hg. apply (stx_good_perm _ _ _ (symmetry (users_delete c x s Hx))), with_idx_good in Hg.
  eapply runs_mono; [eapply ctx_destroy_spec; [exact Hx|apply H|exact Hg|intros _; apply H|by left]|].
  intros [] s' (f & p & Ho & Hg' & Es). rewrite (proj2 (Z.leb_le 0 _)) in Es by done.
  assert (exists l, teams s !! c_team x = Some l /\ (Z.to_nat (c_id x) < length l)%nat) as (l & Hl & Hil).
  { unfold slot in Hslot. destruct (teams s !! c_team x) as [l|]; [|done]. exists l. split; [done|]. simpl in Hslot.
    apply lookup_lt_is_Some. by destruct (l !! _). }
  rewrite Hl in Es. simpl in Es. rewrite Es in *. clear Es s'. split; [|done]. destruct H as [I1 I2 I3 I4 I5 I6 I7 I8 I9]. split; try done.
  - destruct I2 as (y & Hy & HI). exists y. split; [|done]. simpl. by rewrite lookup_delete_ne.
  - simpl. intros d y [Hne Hd]%lookup_delete_Some. destruct (I3 _ _ Hd) as [HcI [?|(Hn' & Hid' & Hslot')]]; (split; [done|]); [by left|right].
    split; [done|]. split; [done|]. rewrite (slot_set _ _ _ _ _ _ _ Hl Hil). rewrite decide_False; [done|]. intros [E1 E2]. congruence.
  - simpl. intros t i d. rewrite (slot_set _ _ _ _ _ _ _ Hl Hil). case_decide as E; [done|]. intros Hs. destruct (I4 _ _ _ Hs) as (Hd & y & Hy & <- & Ei).
    split; [done|]. exists y. split; [|done]. rewrite lookup_delete_ne; [done|]. intros <-. rewrite Hx in Hy. injection Hy as <-. apply E.
    split; [done|]. by rewrite Ei, Nat2Z.id.
  - eapply owns_ext; [|exact Ho]. intros o. by rewrite (others_delete c x s o Hx).
Qed.

(** ** Creating a context *)

(** A provider that refuses nothing. *)
Definition accepting : Prop := forall o v f, (exists f', fc_open o (Some v) f = (0, f')) /\
  (exists f', fc_bind o v f = (0, f')) /\ (exists f', fc_enable o f = (0, f')).

(** A computation whose code, if it gives one, is 0. *)
Definition no_error (m : ST state Z) : Prop := forall s rc s', m s = Some (rc, s') -> rc = 0.

Lemma no_error_then m k : no_error m -> no_error k -> no_error (m >>? k).
Proof.
  intros Hm Hk s rc s'. unfold and_then, bind. destruct (m s) as [[r s1]|] eqn:E; [|done]. apply Hm in E as ->. apply Hk.
Qed.

Lemma no_error_after {A} (m : ST state A) (k : A -> ST state Z) : (forall a, no_error (k a)) -> no_error (bind m k).
Proof. intros Hk s rc s'. unfold bind. destruct (m s) as [[a s1]|]; [|done]. apply Hk. Qed.

Lemma no_error_fcs (f : F -> Z * F) : (forall x, exists x', f x = (0, x')) -> no_error (on_fcs f).
Proof. intros Hf s rc s'. unfold on_fcs. destruct (Hf (fcs s)) as [x' ->]. by intros [= <- _]. Qed.

Lemma no_error_ret : no_error (ret 0).
Proof. by intros s rc s' [= <- _]. Qed.

Lemma ctx_init_accepted c id t : accepting -> no_error (shmem_transport_ofi_ctx_init c id t).
Proof.
  intros Ha.
  assert (forall o f, no_error (open_field c o f)) as Hopen.
  { intros o f s rc s'. unfold open_field, f_open, on_fcs, bind. destruct (Ha o Domainfd (fcs s)) as [[f' ->] _]. simpl.
    destruct (upd_ctx c f _) as [[[] s1]|]; [|done]. by intros [= <- _]. }
  assert (forall o v, no_error (f_bind o v)) as Hbind by (intros o v; apply no_error_fcs; intros x; apply (Ha o v x)).
  assert (no_error (f_enable (CtxEp c))) as Hen by (apply no_error_fcs; intros x; apply (Ha (CtxEp c) Fabfd x)).
  apply no_error_after. intros []. repeat (apply no_error_then; [apply Hopen|]).
  apply no_error_after. intros x. apply no_error_after. intros []. apply no_error_after. intros []. apply no_error_then.
  - apply no_error_after. intros y. repeat (apply no_error_then; [by (destruct (_ >=? _); [apply Hbind|apply no_error_ret])||apply Hbind|]).
    exact Hen.
  - apply no_error_after. intros []. apply no_error_ret.
Qed.

(** The lock is not touched by a call of libfabric. *)
Lemma close_if_mtx (b : bool) o s s' : (if b then f_close o else ret tt) s = Some (tt, s') -> mtx s' = mtx s.
Proof.
  destruct b; [|by intros [= <-]]. unfold f_close, on_fcs, bind. destruct (fc_close o (fcs s)) as [rc f'].
  destruct (negb (rc =? 0)); [done|]. by intros [= <-].
Qed.

Lemma bind_none {A B} (m : ST state A) (k : A -> ST state B) s :
  (forall a s', m s = Some (a, s') -> k a s' = None) -> bind m k s = None.
Proof. intros H. unfold bind. destruct (m s) as [[a s']|] eqn:E; [by apply H|done]. Qed.

Lemma lock_again s : thread_level = SHMEM_THREAD_MULTIPLE -> mtx s = true -> OFI_LOCK s = None.
Proof. intros Ht Hm. unfold OFI_LOCK, bind, get. by rewrite Ht, Z.eqb_refl, Hm. Qed.

(** Destroying a context needs the lock. *)
Lemma destroy_locked c x s : thread_level = SHMEM_THREAD_MULTIPLE -> mtx s = true -> ctxs s !! c = Some x -> 0 <= c_id x ->
  shmem_transport_ctx_destroy c s = None.
Proof.
  intros Ht Hm Hx Hi. unfold shmem_transport_ctx_destroy, get_ctx, bind at 1 2, get. rewrite Hx. unfold ret at 1.
  apply bind_none. intros [] s1 E1%close_if_mtx. destruct (c_stx_idx x >=? 0).
  { apply bind_stop, bind_stop, lock_again; [done|congruence]. }
  apply bind_none. intros _ s2 [= <-]. apply bind_none. intros [] s3 E3%close_if_mtx. apply bind_none. intros [] s4 E4%close_if_mtx.
  apply bind_none. intros [] s5 E5%close_if_mtx. rewrite Z.geb_leb, (proj2 (Z.leb_le 0 _)) by done.
  apply bind_stop, lock_again; [done|congruence].
Qed.

(** The state in which a new context is initialized, and what follows. *)
Definition new_ctx (team o : Z) : ctl_ctx := CtlCtx 0 o false false false false false (-1) (tid_is_pid 0) team.
Definition new_slot s (team : Z) : nat := open_slot (default [] (teams s !! team)).
Definition entered s (team o : Z) : state :=
  set_ctxs (<[next_ctx s := new_ctx team o]> (ctxs s)) (set_next (next_ctx s + 1) (set_teams (grown (teams s) team) (set_mtx (held s) s))).

Definition create_tail (c : Z) (team : Z) (id : nat) (rc : Z) : ST state (Z * option Z) :=
  (if negb (rc =? 0) then shmem_transport_ctx_destroy c
   else modify (fun s => set_teams (<[team := <[id := Some c]> (default [] (teams s !! team))]> (teams s)) s)) ;;
  OFI_UNLOCK ;;
  ret (rc, if rc =? 0 then Some c else None).

Lemma create_split s team o t : unlocked s -> shmem_transport_ctx_create (Some team) o t s =
  (rc <- shmem_transport_ofi_ctx_init (next_ctx s) (Z.of_nat (new_slot s team)) t ; create_tail (next_ctx s) team (new_slot s team) rc) (entered s team o).
Proof.
  intros Hl. unfold shmem_transport_ctx_create. destruct (runs_elim _ _ _ (lock_spec s Hl)) as ([] & s' & E & ->). run_step E.
  unfold entered, grown, new_slot, bind at 1, get, put_ctx. simpl. by destruct (_ <=? _)%nat.
Qed.

Lemma objs_of_new c y s o : ctxs s !! c = None -> objs_of (set_ctxs (<[c := y]> (ctxs s)) s) o <-> objs_of s o \/ ctx_owned c y o.
Proof.
  intros Hc. rewrite objs_of_update. unfold objs_of. split.
  - intros [H|[H|[H|(d & x & _ & H)]]]; [tauto|tauto|tauto|]. left. right. right. by exists d, x.
  - intros [[H|[H|(d & x & Hd & H)]]|H]; [tauto|tauto| |tauto]. right. right. right. exists d, x. split; [|done]. intros ->. congruence.
Qed.

(** The initialization of the new context, seen from the state before the call. *)
Lemma create_init s team o t : ctl_inv s -> exists rc x s2,
  shmem_transport_ofi_ctx_init (next_ctx s) (Z.of_nat (new_slot s team)) t (entered s team o) = Some (rc, s2) /\
  frame (entered s team o) s2 /\ ctxs s2 = <[next_ctx s := x]> (ctxs s) /\ owns (objs_of s2) s2 /\
  c_id x = Z.of_nat (new_slot s team) /\ c_team x = team /\
  (rc = 0 /\ complete x /\ stx_good (user_of x :: users s) s2 \/ rc <> 0 /\ stx_good (with_idx x (users s)) s2).
Proof.
  intros H. pose proof (next_fresh _ H) as Hn. pose proof (ctl_inv_serves _ H) as Hserv.
  eassert (runs (shmem_transport_ofi_ctx_init (next_ctx s) (Z.of_nat (new_slot s team)) t) (entered s team o) _) as Hrun.
  1: eapply (ctx_init_spec (next_ctx s) (Z.of_nat (new_slot s team)) t (entered s team o) (new_ctx team o) (users s)); try done.
  - apply lookup_insert_eq.
  - apply (owns_fcs _ s); [done|]. eapply owns_ext; [|apply (ci_objs _ H)]. intros p.
    pose proof (objs_of_new (next_ctx s) (new_ctx team o) s p Hn) as Hp. unfold objs_of, stx_objs, entered in *. simpl in *. rewrite Hp.
    unfold ctx_owned. simpl. naive_solver.
  - apply (ci_pool _ H).
  - apply (ci_max _ H).
  - apply (ci_search _ H).
  - destruct (runs_elim _ _ _ Hrun) as (rc & s2 & E & x & Hw & E1 & E2 & _ & Hres).
    exists rc, x, s2. split; [done|]. split; [apply Hw|]. split; [rewrite (iw_ctxs _ _ _ _ Hw); apply insert_insert_eq|]. split; [apply Hw|].
    split; [done|]. split; [done|]. destruct Hres as [?|[? Hg]]; [by left|right]. split; [done|]. by apply Hg.
Qed.

(** What a creation gives. *)
Definition created s (team : Z) (r : Z * option Z) s' : Prop := ctl_inv s' /\ vars s' = vars s /\
  (r.1 = 0 /\ (exists c x, r.2 = Some c /\ ctxs s !! c = None /\ ctxs s' = <[c := x]> (ctxs s) /\ c_team x = team) \/
   r.1 <> 0 /\ r.2 = None /\ ctxs s' = ctxs s).

(** What the array of contexts looks like when the new one has, or has not, its slot. *)
Lemma new_slot_set s team l v t i : grown (teams s) team !! team = Some l ->
  slot (<[team := <[new_slot s team := v]> l]> (grown (teams s) team)) t i =
    (if decide (t = team /\ i = new_slot s team) then v else slot (teams s) t i) /\ slot (teams s) team (new_slot s team) = None.
Proof.
  intros Hl. destruct (grown_spec (teams s) team) as (l' & Hl' & Hn & Hs). rewrite Hl in Hl'. injection Hl' as <-. split.
  - by rewrite (slot_set _ _ _ _ _ _ _ Hl (lookup_lt_Some _ _ _ Hn)), Hs.
  - rewrite <- Hs. unfold slot. rewrite Hl. simpl. unfold new_slot. by rewrite Hn.
Qed.

Lemma unlock_from s s' : unlocked s -> mtx s' = held s -> runs OFI_UNLOCK s' (fun _ s'' => s'' = set_mtx (mtx s) s').
Proof. intros Hl E. replace s' with (set_mtx (held s) (set_mtx (mtx s) s')) at 1 by (rewrite <- E; by destruct s'). by apply unlock_spec. Qed.

(** The new context is complete and takes its slot. *)
Lemma create_done s team o x s2 : ctl_inv s -> frame (entered s team o) s2 -> ctxs s2 = <[next_ctx s := x]> (ctxs s) ->
  owns (objs_of s2) s2 -> c_id x = Z.of_nat (new_slot s team) -> c_team x = team -> complete x -> stx_good (user_of x :: users s) s2 ->
  runs (create_tail (next_ctx s) team (new_slot s team) 0) s2 (created s team).
Proof.
  intros H (F1 & F2 & F3 & F4 & F5) Ec Ho Hid Hteam Hcomp Hg. pose proof (next_fresh _ H) as Hn. simpl in F1, F3, F4, F5.
  unfold create_tail. simpl. runs_step. runs_step. eapply runs_then; [apply (unlock_from s); [intros _; apply H|done]|].
  intros [] s' ->. apply runs_ret. destruct (grown_spec (teams s) team) as (l & Hl & _). rewrite F3, Hl. simpl.
  assert (forall t i, slot (<[team := <[new_slot s team := Some (next_ctx s)]> l]> (grown (teams s) team)) t i =
    (if decide (t = team /\ i = new_slot s team) then Some (next_ctx s) else slot (teams s) t i)) as Hslot.
  { intros t i. apply (new_slot_set s team l _ t i Hl). }
  assert (slot (teams s) team (new_slot s team) = None) as Hfree by apply (new_slot_set s team l None 0 0 Hl).
  split; [|split; [exact F5|left; split; [done|]; exists (next_ctx s), x; by rewrite <- Ec]].
  destruct H as [I1 I2 I3 I4 I5 I6 I7 I8 I9]. split; simpl; try (rewrite ?F5; done).
  - destruct I2 as (y & Hy & HI). exists y. split; [|done]. rewrite Ec, lookup_insert_ne; [done|]. unfold DEFAULT_CTX. lia.
  - rewrite Ec, F4. intros c y [[<- <-]|[Hne Hy]]%lookup_insert_Some.
    + split; [done|right]. split; [lia|]. split; [lia|]. by rewrite Hid, Nat2Z.id, Hslot, decide_True.
    + destruct (I3 _ _ Hy) as [HcI [?|(Hr & Hid' & Hs)]]; (split; [done|]); [by left|right]. split; [lia|]. split; [done|]. rewrite Hslot, decide_False; [done|].
      intros [E1 E2]. rewrite E1, E2 in Hs. congruence.
  - rewrite Ec. intros t i c. rewrite Hslot. case_decide as E.
    + destruct E as [-> ->]. intros [= <-]. split; [unfold DEFAULT_CTX; lia|]. exists x. by rewrite lookup_insert_eq.
    + intros Hs. destruct (I4 _ _ _ Hs) as (Hd & y & Hy & Et). split; [done|]. exists y. rewrite lookup_insert_ne; [done|]. congruence.
  - rewrite F4. lia.
  - unfold users. simpl. rewrite Ec. eapply stx_good_perm; [symmetry; apply (users_insert _ x s Hn)|]. by apply (stx_good_same _ s2).
  - unfold search_ok. simpl. by rewrite F5.
Qed.

(** What was opened is closed again, and the slot stays empty. *)
Lemma create_undone s team o x s2 rc : ctl_inv s -> frame (entered s team o) s2 -> ctxs s2 = <[next_ctx s := x]> (ctxs s) ->
  owns (objs_of s2) s2 -> c_id x = Z.of_nat (new_slot s team) -> c_team x = team -> rc <> 0 -> stx_good (with_idx x (users s)) s2 ->
  thread_level <> SHMEM_THREAD_MULTIPLE ->
  runs (create_tail (next_ctx s) team (new_slot s team) rc) s2 (created s team).
Proof.
  intros H (F1 & F2 & F3 & F4 & F5) Ec Ho Hid Hteam Hrc Hg Ht. pose proof (next_fresh _ H) as Hn. simpl in F1, F3, F4, F5.
  unfold create_tail. rewrite (proj2 (Z.eqb_neq rc 0)) by done. cbn [negb].
  assert (ctxs s2 !! next_ctx s = Some x) as Hx by (rewrite Ec; apply lookup_insert_eq).
  eapply runs_then; [eapply (ctx_destroy_spec (next_ctx s) x s2 (users s)); [done|done|done|by intros ?|left; lia]|].
  intros [] s3 (f & p & Ho3 & Hg3 & E3). rewrite (proj2 (Z.leb_le 0 _)) in E3 by lia. simpl in E3. rewrite E3 in *. clear E3 s3.
  eapply runs_then; [apply (unlock_from s); [intros _; apply H|done]|]. intros [] s' ->. apply runs_ret.
  rewrite Hteam, Hid, Nat2Z.id, F3 in *. destruct (grown_spec (teams s) team) as (l & Hl & _). rewrite Hl in *. simpl in *.
  assert (forall t i, slot (<[team := <[new_slot s team := None]> l]> (grown (teams s) team)) t i = slot (teams s) t i) as Hslot.
  { intros t i. destruct (new_slot_set s team l None t i Hl) as [-> Hfree]. case_decide as D; [|done]. destruct D as [-> ->]. by rewrite Hfree. }
  assert (delete (next_ctx s) (ctxs s2) = ctxs s) as Ed by (by rewrite Ec, delete_insert_id).
  split; [|split; [exact F5|right; by rewrite Ed]].
  destruct H as [I1 I2 I3 I4 I5 I6 I7 I8 I9]. split; simpl; try (rewrite ?F5, ?Ed; done).
  - rewrite Ed, F4. intros c y Hy. destruct (I3 _ _ Hy) as [HcI [?|(Hr & Hid' & Hs)]]; (split; [done|]); [by left|right]. split; [lia|]. by rewrite Hslot.
  - rewrite Ed. intros t i c. rewrite Hslot. apply I4.
  - rewrite F4. lia.
  - eapply owns_fcs, owns_ext, Ho3; [done|]. intros p'. by rewrite (others_delete _ _ _ _ Hx).
  - unfold search_ok. simpl. by rewrite F5.
Qed.

(** Every creation ends, unless the initialization fails while the library holds its lock. *)
Lemma ctx_create_spec s team o t : ctl_inv s -> runs (shmem_transport_ctx_create (Some team) o t) s (created s team) \/
  thread_level = SHMEM_THREAD_MULTIPLE /\ ~ accepting /\ shmem_transport_ctx_create (Some team) o t s = None.
Proof.
  intros H. destruct (create_init s team o t H) as (rc & x & s2 & E & Hf & Ec & Ho & Hid & Hteam & Hres).
  assert (unlocked s) as Hl by (intros _; apply H).
  assert (runs (create_tail (next_ctx s) team (new_slot s team) rc) s2 (created s team) ->
    runs (shmem_transport_ctx_create (Some team) o t) s (created s team)) as Hrun.
  { unfold runs_or. rewrite create_split by done. by run_step E. }
  destruct Hres as [(-> & Hcomp & Hg)|[Hrc Hg]]; [left; by eapply Hrun, create_done|].
  destruct (decide (thread_level = SHMEM_THREAD_MULTIPLE)) as [Ht|Ht]; [right|left; by eapply Hrun, create_undone].
  split; [done|]. split; [intros Ha; by apply Hrc, (ctx_init_accepted _ _ _ Ha _ _ _ E)|].
  rewrite create_split by done. run_step E. unfold create_tail. rewrite (proj2 (Z.eqb_neq rc 0)) by done. apply bind_stop.
  apply (destroy_locked _ x); [done| |by rewrite Ec, lookup_insert_eq|lia]. destruct Hf as (-> & _). unfold entered, held. simpl. by rewrite Ht.
Qed.

(** At the thread level MULTIPLE a failed initialization never gives an answer: the
    destruction of the context takes the lock that the creation holds. *)
Lemma create_deadlock s team o t rc s2 : ctl_inv s -> thread_level = SHMEM_THREAD_MULTIPLE -> rc <> 0 ->
  shmem_transport_ofi_ctx_init (next_ctx s) (Z.of_nat (new_slot s team)) t (entered s team o) = Some (rc, s2) ->
  shmem_transport_ctx_create (Some team) o t s = None.
Proof.
  intros H Ht Hrc E. destruct (create_init s team o t H) as (rc' & x & s2' & E' & Hf & Ec & _ & Hid & _ & _).
  rewrite E in E'. injection E' as <- <-. rewrite create_split by (intros _; apply H). run_step E. unfold create_tail.
  rewrite (proj2 (Z.eqb_neq rc 0)) by done. apply bind_stop. apply (destroy_locked _ x); [done| |by rewrite Ec, lookup_insert_eq|lia].
  destruct Hf as (-> & _). unfold entered, held. simpl. by rewrite Ht.
Qed.
End proof.
