(* ===== verification/OfiLife.v ===== *)
(** * The life of the OFI transport: start-up, contexts, shutdown

    Start-up that answers 0 establishes the invariant of [OfiCtlProof], whatever it had to
    open on the way; creating and destroying contexts keeps it; and shutdown, once only the
    default context is left, closes everything that is open. *)

From stdpp Require Import gmap strings.
From S2P Require Import Prelude ErrState Internal ReduceOp Util PmiUtil SymHeap RuntimeUtil Stx FreeList Fabric OfiTransport OfiMr FabricCtl OfiCtl OfiCtlProof.
Local Open Scope Z_scope.
Local Open Scope st_scope.

Section life.
Context {F S : Type} {fabric : FabricCtl F} {laws : FabricCtlLaws F} {R : Runtime S} {mcfg : mr_config} {oenv : ofi_env}.
Abbreviation state := (ctl (F := F) (S := S)).
Implicit Types (C : gmap Z ctl_ctx) (s : state) (P : fi_obj -> Prop) (l : list fi_obj).

(** ** Shutdown *)

Lemma close_next o l s : owns (fun x => x ∈ o :: l) s -> o ∉ l -> (forall u, u ∈ o :: l -> ~ allowed u o) ->
  runs (f_close o) s (fun _ s' => owns (fun x => x ∈ l) s').
Proof.
  intros Ho Hn Hf. eapply runs_mono; [apply f_close_spec; [exact Ho|by left|done]|]. intros [] s' [_ Ho'].
  eapply owns_ext; [|exact Ho']. intros x. cbv beta. rewrite elem_of_cons. naive_solver.
Qed.

(** The shared contexts from [i] on and the objects of start-up. *)
Definition stxs_from (i n : Z) (o : fi_obj) : Prop := o ∈ base_objs \/ exists j, o = StxFd j /\ i <= j < n.

Lemma close_stxs_spec n i s : owns (stxs_from i (i + Z.of_nat n)) s ->
  runs (close_stxs n i) s (fun _ s' => owns (fun o => o ∈ base_objs) s').
Proof.
  revert i s. induction n as [|n IH]; intros i s Ho; simpl.
  - apply runs_ret. eapply owns_ext; [|exact Ho]. intros o. unfold stxs_from. split; [|by left]. intros [?|(j & _ & Hj)]; [done|lia].
  - eapply runs_then; [apply f_close_spec; [exact Ho| |]|].
    + right. exists i. split; [done|lia].
    + intros u [Hu|(j & -> & _)] Ha; [|done]. destruct u; try done. by apply base_not_ctx in Hu.
    + intros [] s' [_ Ho']. apply IH. eapply owns_ext; [|exact Ho']. intros o. unfold stxs_from. split.
      * intros [[H|(j & -> & Hj)] Hne]; [by left|right]. exists j. split; [done|]. assert (j <> i) by congruence. lia.
      * intros [H|(j & -> & Hj)]; (split; [|]); [by left| |right; exists j; split; [done|lia]|intros [= ->]; lia].
        intros ->. revert H. unfold base_objs. destruct ENABLE_TARGET_CNTR, (ENABLE_MR_SCALABLE && ENABLE_REMOTE_VIRTUAL_ADDRESSING);
          rewrite !elem_of_app, !elem_of_cons, !elem_of_nil; naive_solver.
Qed.

(** The order in which shutdown closes them. *)
Definition closing_order : list fi_obj :=
  [TargetEp; TargetCq] ++ (if ENABLE_MR_SCALABLE && ENABLE_REMOTE_VIRTUAL_ADDRESSING then [TargetMr] else [HeapMr; DataMr]) ++
  (if ENABLE_TARGET_CNTR then [TargetCntr] else []) ++ [Avfd; Domainfd; Fabfd].

Lemma closing_order_all o : o ∈ base_objs <-> o ∈ closing_order.
Proof.
  unfold base_objs, closing_order. destruct ENABLE_TARGET_CNTR, (ENABLE_MR_SCALABLE && ENABLE_REMOTE_VIRTUAL_ADDRESSING); simpl;
    rewrite !elem_of_cons, !elem_of_nil; tauto.
Qed.

(** Nothing in the rest of the list needs the object that is closed. *)
Ltac close_one := eapply close_next;
  [eassumption|by rewrite ?elem_of_cons, elem_of_nil; naive_solver
  |by intros u Hu; rewrite !elem_of_cons, elem_of_nil in Hu; naive_solver].
Ltac close_step :=
  match goal with
  | |- runs (bind (f_close _) _) _ _ => eapply runs_then; [close_one|intros [] ? ?]
  | |- runs (bind (bind _ _) _) _ _ => apply runs_bind
  | |- runs (bind (ret _) _) _ _ => apply runs_bind, runs_ret
  | |- runs (f_close _) _ _ => eapply runs_mono; [close_one|intros [] ? ?]
  | |- runs (ret _) _ _ => apply runs_ret; auto
  end.

Lemma close_base_spec s : owns (fun o => o ∈ base_objs) s ->
  runs (f_close TargetEp ;; f_close TargetCq ;;
    (if ENABLE_MR_SCALABLE && ENABLE_REMOTE_VIRTUAL_ADDRESSING then f_close TargetMr else f_close HeapMr ;; f_close DataMr) ;;
    (if ENABLE_TARGET_CNTR then f_close TargetCntr else ret tt) ;;
    f_close Avfd ;; f_close Domainfd ;; f_close Fabfd ;; ret 0) s (fun rc s' => rc = 0 /\ owns (fun _ => False) s').
Proof.
  intros Ho. apply (owns_ext _ _ _ closing_order_all) in Ho. revert Ho. unfold closing_order.
  assert (forall s', owns (fun o => o ∈ []) s' -> 0 = 0 /\ owns (fun _ => False) s') as Hend.
  { intros s' Ho. split; [done|]. eapply owns_ext; [|exact Ho]. intros o. by rewrite elem_of_nil. }
  destruct (ENABLE_MR_SCALABLE && ENABLE_REMOTE_VIRTUAL_ADDRESSING), ENABLE_TARGET_CNTR; simpl; intros Ho; repeat close_step.
Qed.

Lemma fini_spec s : ctl_inv s -> (forall c, is_Some (ctxs s !! c) -> c = DEFAULT_CTX) ->
  runs shmem_transport_fini s (fun rc s' => rc = 0 /\ owns (fun _ => False) s').
Proof.
  intros H Honly. destruct (ci_default _ H) as (x & Hx & Hid & _). pose proof (ci_pool _ H) as Hg.
  apply (stx_good_perm _ _ _ (symmetry (users_delete DEFAULT_CTX x s Hx))), with_idx_good in Hg. unfold shmem_transport_fini.
  eapply runs_then; [eapply ctx_destroy_spec; [exact Hx|apply H|exact Hg|intros _; apply H|by right]|].
  intros [] s1 (f & p & Ho & _ & E). rewrite Hid in E. simpl in E. subst s1. runs_step. runs_step. apply runs_bind, runs_get. simpl.
  eapply runs_then; [apply close_stxs_spec|].
  - eapply owns_fcs, owns_ext, Ho; [done|]. intros o. rewrite (others_delete _ _ _ o Hx). unfold objs_of, stx_objs, stxs_from. simpl.
    pose proof (ci_max _ H). split.
    + intros [Hb|[(i & -> & Hi)|(c & y & Hc & _)]]; [by left|right; exists i; split; [done|lia]|].
      apply lookup_delete_Some in Hc as [Hne Hc]. exfalso. by apply Hne; symmetry; apply Honly; eexists.
    + intros [Hb|(i & -> & Hi)]; [by left|]. right. left. exists i. split; [done|lia].
  - intros [] s2 Ho2. apply close_base_spec. exact Ho2.
Qed.

(** ** Start-up *)

(** What holds when the computation answers 0. *)
Definition achieves {A} (a : A) (m : ST state A) s (Q : state -> Prop) : Prop := forall s', m s = Some (a, s') -> Q s'.

Lemma achieves_then m k s (Q : state -> Prop) (W : state -> Prop) :
  achieves 0 m s W -> (forall s', W s' -> achieves 0 k s' Q) -> achieves 0 (m >>? k) s Q.
Proof.
  intros Hm Hk s2. unfold and_then, bind. destruct (m s) as [[rc s1]|] eqn:E; [|done]. destruct (Z.eqb_spec rc 0) as [->|Hrc]; simpl.
  - apply Hk, Hm, E.
  - by intros [= -> _].
Qed.

Lemma achieves_bind {A} (m : ST state A) (k : A -> ST state Z) s (Q : state -> Prop) :
  (forall a s1, m s = Some (a, s1) -> achieves 0 (k a) s1 Q) -> achieves 0 (bind m k) s Q.
Proof. intros Hk s2. unfold bind. destruct (m s) as [[a s1]|] eqn:E; [by apply Hk|done]. Qed.

Lemma achieves_runs m s (W : Z -> state -> Prop) (Q : state -> Prop) : runs m s W -> (forall s', W 0 s' -> Q s') -> achieves 0 m s Q.
Proof. intros Hr HQ s' E. by apply HQ, (runs_eq _ _ _ _ _ _ Hr E). Qed.

(** The transport before it has contexts: exactly the objects of [l] are open. *)
Record starting C l s : Prop := {
  sg_unlocked : mtx s = false;
  sg_ctxs : ctxs s = C;
  sg_objs : owns (fun o => o ∈ l) s;
  sg_pool : stx_pool (stxs s) = [] /\ stx_kvs (stxs s) = [] /\ rr_start_idx (stxs s) = 0;
  sg_slots : forall t i, slot (teams s) t i = None;
  sg_next : 0 < next_ctx s;
  sg_max : 0 <= v_stx_max (vars s) }.

Lemma starting_fcs C l l' s f : starting C l s -> owns (fun o => o ∈ l') (set_fcs f s) -> starting C l' (set_fcs f s).
Proof. by intros [] ?. Qed.

Lemma starting_rts C l s r : starting C l s -> starting C l (set_rts r s).
Proof. by intros []. Qed.

Lemma starting_vars C l s v : starting C l s -> 0 <= v_stx_max v -> starting C l (set_vars v s).
Proof. by intros []. Qed.

Lemma open_achieves C o p l s : starting C l s -> allowed o p -> achieves 0 (f_open o (Some p)) s (starting C (o :: l)).
Proof.
  intros H Ha. eapply achieves_runs; [apply f_open_spec; [apply H|exact Ha]|]. intros s' [[f ->] [[_ Ho]|[? _]]]; [|done].
  eapply starting_fcs; [exact H|]. eapply owns_ext; [|exact Ho]. intros x. cbv beta. by rewrite elem_of_cons.
Qed.

Lemma open_root C l s : starting C l s -> achieves 0 (f_open Fabfd None) s (starting C (Fabfd :: l)).
Proof.
  intros H s'. unfold f_open, on_fcs. destruct (fc_open Fabfd None (fcs s)) as [rc f] eqn:E. intros [= -> <-].
  eapply starting_fcs; [exact H|]. destruct (law_open _ _ _ _ _ E) as [H0 _]. destruct (H0 eq_refl) as [L N]. destruct (sg_objs _ _ _ H) as [HL HN].
  split; simpl; [intros x; by rewrite L, HL, elem_of_cons|]. intros u v [Hn|[_ ?]]%N; [by apply HN|done].
Qed.

Lemma bind_achieves C o v l s : starting C l s -> allowed o v -> achieves 0 (f_bind o v) s (starting C l).
Proof.
  intros H Ha. eapply achieves_runs; [apply f_bind_spec; [apply H|exact Ha]|]. intros s' [[f ->] Ho]. by eapply starting_fcs.
Qed.

Lemma enable_achieves C o l s : starting C l s -> achieves 0 (f_enable o) s (starting C l).
Proof. intros H. eapply achieves_runs; [apply f_enable_spec, H|]. intros s' [[f ->] Ho]. by eapply starting_fcs. Qed.

Lemma when_achieves C b m l s : starting C l s -> (forall s', starting C l s' -> achieves 0 m s' (starting C l)) -> achieves 0 (when_ok b m) s (starting C l).
Proof. intros H Hm. destruct b; [by apply Hm|]. by intros s' [= <-]. Qed.

Lemma ret_achieves s (Q : state -> Prop) : Q s -> achieves 0 (ret 0) s Q.
Proof. by intros H s' [= <-]. Qed.

Ltac ach :=
  match goal with
  | |- achieves 0 (ret 0) _ _ => eapply ret_achieves; eassumption
  | |- achieves 0 (_ >>? _) _ _ => eapply achieves_then; [|intros]
  | |- achieves 0 (f_open Fabfd None) _ _ => eapply open_root; eassumption
  | |- achieves 0 (f_open _ _) _ _ => eapply open_achieves; [eassumption|done]
  | |- achieves 0 (f_bind _ _) _ _ => eapply bind_achieves; [eassumption|done]
  | |- achieves 0 (f_enable _) _ _ => eapply enable_achieves; eassumption
  end.

Lemma fabric_achieves C l s : starting C l s -> achieves 0 allocate_fabric_resources s (starting C (Avfd :: Domainfd :: Fabfd :: l)).
Proof.
  intros H. unfold allocate_fabric_resources. apply achieves_bind. intros _ _ [= <- <-]. destruct (v_p_info (vars s)); [|done].
  repeat ach.
Qed.

Lemma query_achieves C l s : starting C l s -> achieves 0 query_for_fabric s (starting C l).
Proof.
  intros H. unfold query_for_fabric. destruct fi_getinfo as [rc fabrics]. destruct (Z.eqb_spec rc 0) as [->|Hrc]; simpl.
  2: { by intros s' [= -> _]. }
  apply achieves_bind. intros [] s1 [= <-]. assert (starting C l (set_vars (set_info (choose_fabric fabrics) (vars s)) s)) as H1
    by (apply starting_vars; [done|apply H]).
  destruct (choose_fabric fabrics) as [i|]; [|by intros s' [= <-]]. destruct (negb (info_max_msg_size i >? 0)); [by intros s' [=]|].
  apply achieves_bind. intros [] s2 E2. assert (starting C l s2) as H2.
  { destruct (_ =? 0); injection E2 as <-; [|exact H1]. by apply starting_vars. }
  apply achieves_bind. intros [] s3 E3. destruct (_ >=? _); [|done]. injection E3 as <-.
  apply achieves_bind. intros [] s4 [= <-]. intros s' [= <-]. apply starting_vars; [done|apply H2].
Qed.

(** The objects of the target endpoint. *)
Definition target_objs : list fi_obj :=
  (if ENABLE_MR_SCALABLE && ENABLE_REMOTE_VIRTUAL_ADDRESSING then [TargetMr] else [DataMr; HeapMr]) ++ (if ENABLE_TARGET_CNTR then [TargetCntr] else []).

Lemma mr_achieves C l s : starting C l s -> achieves 0 allocate_recv_cntr_mr s (starting C (target_objs ++ l)).
Proof.
  intros H. unfold allocate_recv_cntr_mr, target_objs. apply achieves_bind. intros _ _ [= <- <-].
  generalize (v_mr_rma_event (vars s)). intros rma.
  assert (forall b m l s, starting C l s -> (forall s', starting C l s' -> achieves 0 m s' (starting C l)) ->
    achieves 0 (when_ok b m) s (starting C l)) as Hwhen by (intros; by apply when_achieves).
  destruct (ENABLE_MR_SCALABLE && ENABLE_REMOTE_VIRTUAL_ADDRESSING), ENABLE_TARGET_CNTR; simpl;
    repeat (ach || (eapply Hwhen; [eassumption|intros])).
Qed.

Lemma target_ep_achieves C l s : starting C l s -> achieves 0 shmem_transport_ofi_target_ep_init s (starting C (TargetCq :: target_objs ++ TargetEp :: l)).
Proof.
  intros H. unfold shmem_transport_ofi_target_ep_init. do 2 (eapply achieves_then; [ach|intros]). eapply achieves_then; [by apply mr_achieves|intros]. repeat ach.
Qed.

(** What start-up opens before the first context, and the default context. *)
Definition first_objs : list fi_obj := TargetCq :: target_objs ++ [TargetEp; Avfd; Domainfd; Fabfd].
Definition default_ctx : ctl_ctx := CtlCtx 0 SHMEMX_CTX_BOUNCE_BUFFER false false false false false 0 (tid_is_pid 0) 0.

Lemma runtime_rts {A} (m : ST S A) s a s' : on_runtime m s = Some (a, s') -> exists r, s' = set_rts r s.
Proof. unfold on_runtime, zoom. destruct (m (rts s)) as [[b r]|]; [|done]. intros [= _ <-]. by exists r. Qed.

Lemma init_achieves s : starting ∅ [] s -> achieves 0 shmem_transport_init s (starting {[DEFAULT_CTX := default_ctx]} first_objs).
Proof.
  intros H. unfold shmem_transport_init. destruct initial_stx_max as [n|] eqn:En; [|done].
  assert (0 <= n) as Hn.
  { unfold initial_stx_max in En. destruct (_ && _); [by injection En as <-|]. destruct (Z.ltb_spec (OFI_STX_MAX params) 0); [done|]. by injection En as <-. }
  apply achieves_bind. intros [] s1 [= <-]. apply (starting_vars _ _ _ (set_stx_max n (vars s))) in H; [|done].
  eapply achieves_then; [by apply query_achieves|]. clear H. intros s1 H1. eapply achieves_then; [by apply fabric_achieves|]. clear s1 H1. intros s1 H1.
  apply achieves_bind. intros [] s2 [= <-]. apply (starting_vars _ _ _ (set_stx_how (OFI_STX_THRESHOLD params) (allocator_of (OFI_STX_ALLOCATOR params)) (vars s1))) in H1; [|apply H1].
  revert H1. generalize (set_vars (set_stx_how (OFI_STX_THRESHOLD params) (allocator_of (OFI_STX_ALLOCATOR params)) (vars s1)) s1). clear s1. intros s1 H1.
  apply achieves_bind. intros [] s2 E2. assert (starting ∅ [Avfd; Domainfd; Fabfd] s2) as H2.
  { destruct (allocator_of _); injection E2 as <-; [done|]. by destruct H1. }
  apply achieves_bind. intros _ _ [= <- <-]. apply achieves_bind. intros [] s3 [= <-].
  assert (forall v, v_stx_max v = v_stx_max (vars s2) -> starting ∅ [Avfd; Domainfd; Fabfd] (set_vars v s2)) as Hv.
  { intros v Ev. apply starting_vars; [done|]. rewrite Ev. apply H2. }
  apply achieves_bind. intros [] s4 [= <-]. apply achieves_bind. intros [] s5 [= <-].
  eapply achieves_then; [apply (target_ep_achieves {[DEFAULT_CTX := default_ctx]} [Avfd; Domainfd; Fabfd])|].
  { match goal with |- starting _ _ (set_ctxs ?c (set_vars ?v _)) => destruct (Hv v) as [G1 G2 G3 G4 G5 G6 G7] end.
    - simpl. destruct (v_p_info (vars s2)) as [i|]; [by destruct (info_needs_context i)|done].
    - split; try done. simpl. by rewrite (sg_ctxs _ _ _ H2). }
  intros s6 H6. fold first_objs in H6. apply achieves_bind. intros [rc b] s7 [r ->]%runtime_rts. apply achieves_bind. intros [] s8 [= <-].
  destruct (Z.eqb_spec rc 0) as [->|Hrc]; simpl; [|by intros s' [= -> _]].
  apply achieves_bind. intros [rc len] s9 [r' ->]%runtime_rts. apply achieves_bind. intros [] s10 [= <-].
  assert (0 <= v_stx_max (vars s6)) by apply H6.
  destruct (Z.eqb_spec rc 0) as [->|Hrc]; simpl; [|by intros s' [= -> _]]. apply ret_achieves. by destruct H6.
Qed.

(** The first [i] shared contexts are open and in the pool. *)
Record stocking C l (i : nat) (v : ofi_vars) s : Prop := {
  sk_unlocked : mtx s = false;
  sk_ctxs : ctxs s = C;
  sk_objs : owns (fun o => o ∈ l \/ exists j, o = StxFd j /\ 0 <= j < Z.of_nat i) s;
  sk_pool : exists seed, stxs s = StxState (replicate i (Stx 0 false)) [] 0 seed;
  sk_slots : forall t j, slot (teams s) t j = None;
  sk_next : 0 < next_ctx s;
  sk_vars : vars s = v }.

Lemma stocking_start C l s : starting C l s -> stocking C l 0 (vars s) s.
Proof.
  intros [H1 H2 H3 (E1 & E2 & E3) H5 H6 _]. split; try done.
  - eapply owns_ext; [|exact H3]. intros o. split; [by left|]. intros [?|(j & _ & Hj)]; [done|lia].
  - exists (rand_pool_seed (stxs s)). destruct (stxs s); simpl in *. by subst.
Qed.

Lemma open_stxs_achieves C l v n i s : stocking C l i v s -> achieves 0 (open_stxs n (Z.of_nat i)) s (stocking C l (i + n) v).
Proof.
  revert i s. induction n as [|n IH]; intros i s H; simpl.
  - apply ret_achieves. by rewrite Nat.add_0_r.
  - eapply achieves_then with (W := fun s' => exists f, s' = set_fcs f s /\ owns (fun o => o = StxFd (Z.of_nat i) \/ (o ∈ l \/ exists j, o = StxFd j /\ 0 <= j < Z.of_nat i)) s').
    { eapply achieves_runs; [apply f_open_spec; [apply H|done]|]. intros s' [[f ->] [[_ Ho]|[? _]]]; [|done]. by exists f. }
    intros s' (f & -> & Ho). apply achieves_bind. intros [] s1 [= <-]. replace (Z.of_nat i + 1) with (Z.of_nat (Datatypes.S i)) by lia.
    replace (i + Datatypes.S n)%nat with (Datatypes.S i + n)%nat by lia. apply IH. destruct H as [H1 H2 H3 [seed E] H5 H6 H7]. split; try done.
    + eapply owns_fcs, owns_ext, Ho; [done|]. intros o. split.
      * intros [->|[?|(j & -> & Hj)]]; [right; exists (Z.of_nat i)|by left|right; exists j]; (split; [done|lia]).
      * intros [?|(j & -> & Hj)]; [by right; left|]. destruct (decide (j = Z.of_nat i)) as [->|]; [by left|]. right. right. exists j. split; [done|lia].
    + exists seed. simpl. rewrite E. simpl. unfold set_pool. simpl. by rewrite <- (replicate_cons_app i).
Qed.

Lemma first_objs_all o : o ∈ first_objs <-> o ∈ base_objs.
Proof.
  unfold base_objs, first_objs, target_objs. destruct ENABLE_TARGET_CNTR, (ENABLE_MR_SCALABLE && ENABLE_REMOTE_VIRTUAL_ADDRESSING); simpl;
    rewrite !elem_of_cons, !elem_of_nil; tauto.
Qed.

(** The default context comes up: the invariant holds. *)
Lemma default_up d n v s t : stocking {[DEFAULT_CTX := d]} first_objs n v s -> v_stx_max v = Z.of_nat n -> search_ok s ->
  c_ep d = false -> c_put_cntr d = false -> c_get_cntr d = false -> c_cq d = false -> private (c_options d) = false ->
  achieves 0 (shmem_transport_ofi_ctx_init DEFAULT_CTX SHMEM_TRANSPORT_CTX_DEFAULT_ID t) s (fun s' => ctl_inv s' /\ vars s' = v).
Proof.
  intros H Hn Hs D1 D2 D3 D4 D5. destruct H as [H1 H2 H3 [seed E] H5 H6 H7].
  eapply achieves_runs; [eapply (ctx_init_spec DEFAULT_CTX _ t s d [])|]; try done.
  - by rewrite H2, lookup_singleton_eq.
  - eapply owns_ext; [|exact H3]. intros o. cbv beta. rewrite first_objs_all. unfold objs_of, stx_objs. rewrite H2, H7, Hn. split; [tauto|].
    intros [?|[?|(c & x & Hc & Hx)]]; [by left|by right|]. apply lookup_singleton_Some in Hc as [<- <-]. unfold ctx_owned in Hx. rewrite D1, D2, D3, D4 in Hx. exfalso. by intuition.
  - unfold stx_good. rewrite H7, Hn. destruct n as [|n]; [left; split; [done|by intros u ?%elem_of_nil]|right]. split; [lia|].
    rewrite E. pose proof (inv_start (Z.of_nat (Datatypes.S n)) (OFI_STX_DISABLE_PRIVATE params) ltac:(lia) seed) as Hi.
    unfold stx_start in Hi. by rewrite Nat2Z.id in Hi.
  - by left.
  - rewrite H7, Hn. lia.
  - intros s' (x & Hw & Hid & _ & Hp & [(_ & Hcomp & Hg)|[? _]]); [|done].
    destruct (iw_frame _ _ _ _ Hw) as (F1 & _ & F3 & F4 & F5). pose proof (iw_ctxs _ _ _ _ Hw) as Ec. rewrite H2, insert_singleton_eq in Ec.
    split; [|by rewrite F5]. split.
    + by rewrite F1.
    + exists x. rewrite Ec, lookup_singleton_eq. auto.
    + rewrite Ec. intros c y [<- <-]%lookup_singleton_Some. split; [done|by left].
    + intros t' i c. by rewrite F3, H5.
    + by rewrite F4.
    + apply Hw.
    + unfold users. rewrite Ec, map_to_list_singleton. exact Hg.
    + rewrite F5, H7, Hn. lia.
    + unfold search_ok. by rewrite F5.
Qed.

Lemma ctl_inv_vars v s : ctl_inv s -> v_stx_max v = v_stx_max (vars s) -> v_stx_allocator v = v_stx_allocator (vars s) -> ctl_inv (set_vars v s).
Proof.
  intros [I1 I2 I3 I4 I5 I6 I7 I8 I9] E1 E2. split; try done; simpl.
  - eapply owns_fcs, owns_ext, I6; [done|]. intros o. unfold objs_of, stx_objs. simpl. by rewrite E1.
  - unfold stx_good in *. simpl. by rewrite E1.
  - by rewrite E1.
  - unfold search_ok in *. simpl. by rewrite E1, E2.
Qed.

Lemma ctl_inv_rts r s : ctl_inv s -> ctl_inv (set_rts r s).
Proof. by intros []. Qed.

(** The size of the pool that [shmem_transport_startup] settles on. *)
Definition stx_count s : Z :=
  if OFI_STX_AUTO params && negb (v_stx_max (vars s) =? 0)
  then default 0 (hd_error fi_getinfo.2 ≫= fun i => auto_stx_max (info_tx_ctx_cnt i)) else v_stx_max (vars s).

Lemma auto_pos cnt n : auto_stx_max cnt = Some n -> 0 < n.
Proof. unfold auto_stx_max. destruct (cnt <=? 0); [done|]. destruct (Z.leb_spec (cdiv cnt node_size + (if (cmod cnt node_size >? 0) && (cmod (cmod my_pe num_pes) node_size <? cmod cnt node_size) then 1 else 0)) 0); [done|]. by intros [= <-]. Qed.

Lemma startup_achieves s : starting {[DEFAULT_CTX := default_ctx]} first_objs s ->
  (v_stx_allocator (vars s) = RANDOM -> draws_range rand_r /\ draws_cover (stx_count s) rand_r probes) -> achieves 0 shmem_transport_startup s ctl_inv.
Proof.
  intros H Hs. unfold shmem_transport_startup. apply achieves_bind. intros _ _ [= <- <-]. apply achieves_bind. intros [] s1 E1.
  assert (starting {[DEFAULT_CTX := default_ctx]} first_objs s1 /\ v_stx_max (vars s1) = stx_count s /\
    v_stx_allocator (vars s1) = v_stx_allocator (vars s)) as (H1 & Emax & Ea).
  { revert E1. unfold stx_count. destruct (_ && _); [|by intros [= <-]]. destruct (hd_error _) as [i|]; [|done].
    simpl. destruct (auto_stx_max _) as [n|] eqn:En; [|done]. intros [= <-]. apply auto_pos in En. split; [|done]. apply starting_vars; [done|]. simpl. lia. }
  apply achieves_bind. intros _ _ [= <- <-]. pose proof (sg_max _ _ _ H1) as Hmax.
  eapply achieves_then; [apply (open_stxs_achieves {[DEFAULT_CTX := default_ctx]} first_objs (vars s1) _ 0 s1), stocking_start, H1|]. intros s2 H2. simpl in H2.
  apply achieves_bind. intros [] s3 E3.
  assert (stocking {[DEFAULT_CTX := with_team 0 default_ctx]} first_objs (Z.to_nat (v_stx_max (vars s1))) (vars s1) s3) as H3.
  { unfold upd_ctx, get_ctx, bind, get in E3. rewrite (sk_ctxs _ _ _ _ _ H2), lookup_singleton_eq in E3. injection E3 as <-.
    destruct H2 as [G1 G2 G3 G4 G5 G6 G7]. split; try done. simpl. by rewrite G2, insert_singleton_eq. }
  eapply achieves_then; [eapply (default_up (with_team 0 default_ctx)); [exact H3|lia| |done..|]|].
  { unfold search_ok. rewrite (sk_vars _ _ _ _ _ H3), Ea, Emax. exact Hs. }
  { simpl. unfold private, shmem_transport_ofi_is_private. by destruct (OFI_STX_DISABLE_PRIVATE params). }
  intros s4 [H4 _]. eapply achieves_then with (W := ctl_inv); [by intros s' [= _ <-]|]. clear s4 H4. intros s4 H4.
  apply achieves_bind. intros [rc tb] s5 [r ->]%runtime_rts. apply achieves_bind. intros [] s6 [= <-].
  assert (ctl_inv (set_vars (set_tables tb (vars s4)) (set_rts r s4))) as H6 by (apply (ctl_inv_vars (set_tables tb (vars s4))); [by apply ctl_inv_rts|done..]).
  destruct (Z.eqb_spec rc 0) as [->|Hrc]; simpl; [|by intros s' [= -> _]].
  apply achieves_bind. intros _ _ [= <- <-]. apply achieves_bind. intros rc s7 [r' ->]%runtime_rts.
  destruct (Z.eqb_spec rc 0) as [->|Hrc]; simpl; [|by intros s' [= -> _]]. apply ret_achieves. by apply ctl_inv_rts.
Qed.

(** ** Every sequence of creations and destructions *)

Inductive ctl_step : state -> state -> Prop :=
| step_create team o t s r s' : shmem_transport_ctx_create (Some team) o t s = Some (r, s') -> ctl_step s s'
| step_destroy c s s' : is_Some (ctxs s !! c) -> c <> DEFAULT_CTX -> shmem_transport_ctx_destroy c s = Some (tt, s') -> ctl_step s s'.

Lemma ctl_step_inv s s' : ctl_step s s' -> ctl_inv s -> ctl_inv s'.
Proof.
  intros [team o t s1 r s2 E|c s1 s2 Hc Hne E] H.
  - destruct (ctx_create_spec s1 team o t H) as [Hr|(_ & _ & En)]; [by destruct (runs_eq _ _ _ _ _ _ Hr E)|congruence].
  - by destruct (runs_eq _ _ _ _ _ _ (destroy_spec c s1 H Hc Hne) E).
Qed.

Lemma ctl_steps_inv s s' : rtc ctl_step s s' -> ctl_inv s -> ctl_inv s'.
Proof. induction 1 as [|x y z Hxy _ IH]; [done|]. intros Hi. by eapply IH, ctl_step_inv. Qed.

(** The objects of a context. *)
Definition objects_of_ctx (c : Z) : list fi_obj := [CtxEp c; CtxPutCntr c; CtxGetCntr c; CtxCq c].

(** What the transport offers whenever it is up. *)
Record running s : Prop := {
  run_open o : live (fcs s) o <->
    o ∈ base_objs \/ (exists i, o = StxFd i /\ 0 <= i < v_stx_max (vars s)) \/ exists c, is_Some (ctxs s !! c) /\ o ∈ objects_of_ctx c;
  run_slots c : (exists t i, slot (teams s) t i = Some c) <-> is_Some (ctxs s !! c) /\ c <> DEFAULT_CTX;
  run_create team o t :
    runs (shmem_transport_ctx_create (Some team) o t) s (fun r s' =>
      r.1 = 0 /\ (exists c x, r.2 = Some c /\ ctxs s !! c = None /\ ctxs s' = <[c := x]> (ctxs s) /\ c_team x = team) \/
      r.1 <> 0 /\ r.2 = None /\ ctxs s' = ctxs s /\ forall p, live (fcs s') p <-> live (fcs s) p) \/
    thread_level = SHMEM_THREAD_MULTIPLE /\ ~ accepting;
  run_destroy c : is_Some (ctxs s !! c) -> c <> DEFAULT_CTX ->
    runs (shmem_transport_ctx_destroy c) s (fun _ s' => ctxs s' = delete c (ctxs s));
  run_fini : (forall c, is_Some (ctxs s !! c) -> c = DEFAULT_CTX) ->
    runs shmem_transport_fini s (fun rc s' => rc = 0 /\ forall o, ~ live (fcs s') o) }.

Lemma ctl_inv_running s : ctl_inv s -> running s.
Proof.
  intros H. split.
  - intros o. rewrite (proj1 (ci_objs _ H)). unfold objs_of, stx_objs.
    enough ((exists c x, ctxs s !! c = Some x /\ ctx_owned c x o) <-> exists c, is_Some (ctxs s !! c) /\ o ∈ objects_of_ctx c) as E by (by rewrite E).
    unfold objects_of_ctx, ctx_owned. setoid_rewrite elem_of_cons. setoid_rewrite elem_of_cons. setoid_rewrite elem_of_cons.
    setoid_rewrite elem_of_cons. setoid_rewrite elem_of_nil. split.
    + intros (c & x & Hx & Ho). exists c. split; [by eexists|]. tauto.
    + intros (c & [x Hx] & Ho). exists c, x. split; [done|]. destruct (ci_ctx _ H _ _ Hx) as [(C1 & C2 & C3 & C4) _]. tauto.
  - intros c. split.
    + intros (t & i & Hs). destruct (ci_slot _ H _ _ _ Hs) as (Hc & x & Hx & _). split; [by eexists|done].
    + intros [[x Hx] Hc]. destruct (ci_ctx _ H _ _ Hx) as [_ [?|(_ & _ & Hs)]]; [done|]. eauto.
  - intros team o t. destruct (ctx_create_spec s team o t H) as [Hr|(Ht & Ha & _)]; [left|by right]. eapply runs_mono; [exact Hr|].
    intros r s' (H' & Ev & [Hok|(Hrc & Hn & Ec)]); [by left|right]. split; [done|]. split; [done|]. split; [done|].
    intros p. rewrite (proj1 (ci_objs _ H)), (proj1 (ci_objs _ H')). unfold objs_of, stx_objs. by rewrite Ec, Ev.
  - intros c Hc Hne. eapply runs_mono; [by apply destroy_spec|]. intros [] s' (_ & Ec & _). exact Ec.
  - intros Honly. eapply runs_mono; [by apply fini_spec|]. intros rc s' [-> [Hl _]]. split; [done|]. intros o Ho. by apply Hl in Ho.
Qed.

(** The static variables before start-up: nothing is open, and no team has contexts. *)
Definition cold s : Prop := starting ∅ [] s.
End life.

(** C14: the transport opens, uses and closes its libfabric objects in order.  When start-up
    answers 0, then after any sequence of context creations and destructions: exactly the
    objects of start-up, the shared contexts of the pool and the four objects of each live
    context are open; the teams' arrays hold exactly the contexts that were created and not
    destroyed; a creation ends with a new context, or with an error and everything as
    before (unless it fails at the thread level MULTIPLE); a destruction ends; and shutdown,
    with only the default context left, answers 0 and leaves nothing open - it never closes
    an object that another open one still needs.  For the RANDOM allocator of shared
    contexts, whose search the code leaves unbounded, the draws of [rand_r] are supposed to
    visit every index within [probes]. *)
Theorem transport_lifecycle {F S : Type} {fabric : FabricCtl F} {laws : FabricCtlLaws F} {R : Runtime S} {mcfg : mr_config} {oenv : ofi_env}
    (s0 s1 s2 s : ctl (F := F) (S := S)) :
  cold s0 -> shmem_transport_init s0 = Some (0, s1) ->
  (v_stx_allocator (vars s1) = RANDOM -> draws_range rand_r /\ draws_cover (stx_count s1) rand_r probes) ->
  shmem_transport_startup s1 = Some (0, s2) -> rtc ctl_step s2 s -> running s.
Proof.
  intros H0 E1 Hs E2 Hr. apply ctl_inv_running, (ctl_steps_inv s2); [done|].
  eapply startup_achieves; [|exact Hs|exact E2]. by eapply init_achieves.
Qed.

(** ** An example: one process, a provider that refuses one call

    Start-up makes 18 calls that can fail and the default context 10 more; the next context
    takes 10, and the refused call is one of those of the context after it. *)
Section example.

#[local] Instance example_fabric : FabricCtl objects := objects_ctl (fun n => n =? 40)%nat.
#[local] Instance example_laws : FabricCtlLaws objects := objects_laws (fun n => n =? 40)%nat.
#[local] Instance example_runtime : Runtime store := store_runtime.
#[local] Instance example_mr : mr_config := basic_mr.

Definition example_info : fi_info := FiInfo [] [] (2 ^ 30) 16 64 false false 8.
#[local] Instance example_env : ofi_env := {
  ctl_ctx_lock := false; ENABLE_TARGET_CNTR := true; ENABLE_MR_RMA_EVENT := false; ENABLE_FORTRAN := false;
  params := OfiParams None None 2 1 (chars "round-robin") false false 2048 128 32 false 32 false false;
  thread_level := SHMEM_THREAD_FUNNELED; my_pe := 0; num_pes := 1; node_size := 1; my_regions := two_regions 0;
  fi_getinfo := (0, [example_info]); fnmatch _ _ := true; fi_mr_heap_key := 7; fi_mr_data_key := 9;
  fi_getname := (0, [1; 2; 3]); fi_av_insert l := zlen l; fi_valid _ _ _ _ := (0, 8);
  rand_r x := (x, x); probes := 0 }.

Definition example_vars : ofi_vars := OfiVars None 0 0 ROUNDROBIN 0 0 0 0 0 0 false false 0 (MrTables [] [] [] []).
Definition example_cold : ctl (F := objects) (S := store) :=
  Ctl false (Objects 0 [] []) (0, fun _ _ => None) (StxState [] [] 0 0) ∅ ∅ 1 example_vars.

Definition after {A} (m : ST (ctl (F := objects) (S := store)) A) s : ctl := match m s with Some (_, s') => s' | None => s end.

Lemma ran {A} (m : ST (ctl (F := objects) (S := store)) A) s a : fst <$> m s = Some a -> m s = Some (a, after m s).
Proof. unfold after. destruct (m s) as [[b s']|]; [|done]. simpl. by intros [= ->]. Qed.

(** The second context is refused: the pool and the objects are those of before. *)
Abbreviation new_context := (shmem_transport_ctx_create (F := objects) (S := store) (Some 0) 0 (tid_is_pid 0)).
Definition after_init := after shmem_transport_init example_cold.
Definition after_startup := after shmem_transport_startup after_init.
Definition after_create := after new_context after_startup.
Definition after_refusal := after new_context after_create.

Lemma run_init : shmem_transport_init example_cold = Some (0, after_init).
Proof. unfold after_init. apply ran. vm_compute. reflexivity. Qed.
Lemma run_startup : shmem_transport_startup after_init = Some (0, after_startup).
Proof. unfold after_startup. apply ran. vm_compute. reflexivity. Qed.
Lemma run_accepted : new_context after_startup = Some ((0, Some 1), after_create).
Proof. unfold after_create. apply ran. vm_compute. reflexivity. Qed.
Lemma run_refused : new_context after_create = Some ((-12, None), after_refusal).
Proof. unfold after_refusal. apply ran. vm_compute. reflexivity. Qed.
Lemma run_allocator : v_stx_allocator (vars after_init) = ROUNDROBIN.
Proof. vm_compute. reflexivity. Qed.

#[local] Opaque after_init after_startup after_create after_refusal.

Lemma example_cold_ok : cold example_cold.
Proof.
  split; try reflexivity; [|repeat split].
  split; simpl; [intros o; by rewrite elem_of_nil|intros u v H; by apply elem_of_nil in H].
Qed.

Lemma transport_lifecycle_witness : exists s1 s2 s3 s4,
  shmem_transport_init example_cold = Some (0, s1) /\ shmem_transport_startup s1 = Some (0, s2) /\
  new_context s2 = Some ((0, Some 1), s3) /\ new_context s3 = Some ((-12, None), s4) /\ running s4.
Proof.
  exists after_init, after_startup, after_create, after_refusal. split; [exact run_init|]. split; [exact run_startup|]. split; [exact run_accepted|]. split; [exact run_refused|].
  apply (transport_lifecycle example_cold after_init after_startup after_refusal example_cold_ok run_init).
  - intros H. exfalso. by rewrite run_allocator in H.
  - exact run_startup.
  - exact (rtc_l _ _ _ _ (step_create _ _ _ _ _ _ run_accepted) (rtc_once _ _ (step_create _ _ _ _ _ _ run_refused))).
Defined.
End example.

(** ** What start-up does not notice *)
Section unnoticed.
Context {F S : Type} {fabric : FabricCtl F} {R : Runtime S} {mcfg : mr_config} {oenv : ofi_env}.

(** A provider that answers a query with success and no size does not support the
    operation; the check gives its code, 0, as that of the whole table. *)
Lemma sizeless_atomic_accepted fetch compare d dts o ops sup :
  fi_valid fetch compare (shmem_transport_dtype_table d) o = (0, 0) -> sup = ATOMIC_NO_SUPPORT ->
  atomicvalid_rtncheck 0 0 sup = -1 /\ valid_DTxOP fetch compare (d :: dts) (o :: ops) sup = 0.
Proof. intros E ->. split; [done|]. simpl. by rewrite E. Qed.

(** When no fabric has the names asked for, the query succeeds and the next step reads
    through a null pointer. *)
Lemma no_fabric_stops (l : list fi_info) s : fi_getinfo = (0, l) -> choose_fabric l = None ->
  shmem_transport_init (F := F) (S := S) s = None.
Proof.
  intros E Ec. unfold shmem_transport_init. destruct initial_stx_max as [n|]; [|done].
  unfold query_for_fabric, and_then, bind, allocate_fabric_resources, upd_vars, modify, get, ret. rewrite E. simpl. by rewrite Ec.
Qed.
End unnoticed.
