(* ===== verification/RuntimePmi.v ===== *)
(** * The runtime layer over PMI-1 ([runtime-pmi.c])

    Start-up of the process manager's client, the exchange of all PEs' data, and the
    key-value space the transports publish their addresses in: over the client of
    [SimplePmi], or, for a job of one PE, over a hash table in the process.  The layer is
    an instance of the interface [RuntimeKvs] of [RuntimeUtil], and the exchange is proved
    against that interface.  The hash table ([uthash.h]) is a parameter, as are
    [gethostname] and the answers of [malloc]. *)

From stdpp Require Import strings pretty.
From S2P Require Import Prelude ErrState Internal ReduceOp Util PmiUtil SimplePmi PmiStart RuntimeUtil.
Local Open Scope Z_scope.
Local Open Scope st_scope.

(** A pointer to an allocated buffer: NULL, its contents, or a pointer already freed. *)
Inductive ptr (A : Type) := Null | Live (a : A) | Freed.
Arguments Null {A}. Arguments Live {A}. Arguments Freed {A}.

(** The static variables of the file, and the client. *)
Record runtime (P H : Type) := RuntimeState {
  rank : Z ;
  size : Z ;
  node_size : Z ;
  kvs_name : (ptr (list Z)) ;
  kvs_key : (ptr (list Z)) ;
  kvs_value : (ptr (list Z)) ;
  max_name_len : Z ;
  max_key_len : Z ;
  max_val_len : Z ;
  initialized_pmi : bool ;
  location_array : (ptr (list Z)) ;
  singleton_kvs : H ;
  rt_pmi : (pmi P) }.
Arguments RuntimeState {P H}.
Arguments rank {P H}. Arguments size {P H}. Arguments node_size {P H}. Arguments kvs_name {P H}. Arguments kvs_key {P H}. Arguments kvs_value {P H}. Arguments max_name_len {P H}. Arguments max_key_len {P H}. Arguments max_val_len {P H}. Arguments initialized_pmi {P H}. Arguments location_array {P H}. Arguments singleton_kvs {P H}. Arguments rt_pmi {P H}.

(** Assignments to the static variables. *)
Definition set_rank {P H} (v : Z) (s : runtime P H) : runtime P H :=
  RuntimeState v (size s) (node_size s) (kvs_name s) (kvs_key s) (kvs_value s) (max_name_len s) (max_key_len s) (max_val_len s) (initialized_pmi s) (location_array s) (singleton_kvs s) (rt_pmi s).
Definition set_size {P H} (v : Z) (s : runtime P H) : runtime P H :=
  RuntimeState (rank s) v (node_size s) (kvs_name s) (kvs_key s) (kvs_value s) (max_name_len s) (max_key_len s) (max_val_len s) (initialized_pmi s) (location_array s) (singleton_kvs s) (rt_pmi s).
Definition set_node_size {P H} (v : Z) (s : runtime P H) : runtime P H :=
  RuntimeState (rank s) (size s) v (kvs_name s) (kvs_key s) (kvs_value s) (max_name_len s) (max_key_len s) (max_val_len s) (initialized_pmi s) (location_array s) (singleton_kvs s) (rt_pmi s).
Definition set_kvs_name {P H} (v : (ptr (list Z))) (s : runtime P H) : runtime P H :=
  RuntimeState (rank s) (size s) (node_size s) v (kvs_key s) (kvs_value s) (max_name_len s) (max_key_len s) (max_val_len s) (initialized_pmi s) (location_array s) (singleton_kvs s) (rt_pmi s).
Definition set_kvs_key {P H} (v : (ptr (list Z))) (s : runtime P H) : runtime P H :=
  RuntimeState (rank s) (size s) (node_size s) (kvs_name s) v (kvs_value s) (max_name_len s) (max_key_len s) (max_val_len s) (initialized_pmi s) (location_array s) (singleton_kvs s) (rt_pmi s).
Definition set_kvs_value {P H} (v : (ptr (list Z))) (s : runtime P H) : runtime P H :=
  RuntimeState (rank s) (size s) (node_size s) (kvs_name s) (kvs_key s) v (max_name_len s) (max_key_len s) (max_val_len s) (initialized_pmi s) (location_array s) (singleton_kvs s) (rt_pmi s).
Definition set_max_name_len {P H} (v : Z) (s : runtime P H) : runtime P H :=
  RuntimeState (rank s) (size s) (node_size s) (kvs_name s) (kvs_key s) (kvs_value s) v (max_key_len s) (max_val_len s) (initialized_pmi s) (location_array s) (singleton_kvs s) (rt_pmi s).
Definition set_max_key_len {P H} (v : Z) (s : runtime P H) : runtime P H :=
  RuntimeState (rank s) (size s) (node_size s) (kvs_name s) (kvs_key s) (kvs_value s) (max_name_len s) v (max_val_len s) (initialized_pmi s) (location_array s) (singleton_kvs s) (rt_pmi s).
Definition set_max_val_len {P H} (v : Z) (s : runtime P H) : runtime P H :=
  RuntimeState (rank s) (size s) (node_size s) (kvs_name s) (kvs_key s) (kvs_value s) (max_name_len s) (max_key_len s) v (initialized_pmi s) (location_array s) (singleton_kvs s) (rt_pmi s).
Definition set_initialized_pmi {P H} (v : bool) (s : runtime P H) : runtime P H :=
  RuntimeState (rank s) (size s) (node_size s) (kvs_name s) (kvs_key s) (kvs_value s) (max_name_len s) (max_key_len s) (max_val_len s) v (location_array s) (singleton_kvs s) (rt_pmi s).
Definition set_location_array {P H} (v : (ptr (list Z))) (s : runtime P H) : runtime P H :=
  RuntimeState (rank s) (size s) (node_size s) (kvs_name s) (kvs_key s) (kvs_value s) (max_name_len s) (max_key_len s) (max_val_len s) (initialized_pmi s) v (singleton_kvs s) (rt_pmi s).
Definition set_singleton_kvs {P H} (v : H) (s : runtime P H) : runtime P H :=
  RuntimeState (rank s) (size s) (node_size s) (kvs_name s) (kvs_key s) (kvs_value s) (max_name_len s) (max_key_len s) (max_val_len s) (initialized_pmi s) (location_array s) v (rt_pmi s).
Definition set_pmi {P H} (v : pmi P) (s : runtime P H) : runtime P H :=
  RuntimeState (rank s) (size s) (node_size s) (kvs_name s) (kvs_key s) (kvs_value s) (max_name_len s) (max_key_len s) (max_val_len s) (initialized_pmi s) (location_array s) (singleton_kvs s) v.

(** The state when the program starts. *)
Definition runtime_start {P H} (singleton_kvs : H) (client : pmi P) : runtime P H :=
  RuntimeState (-1) 0 0 Null Null Null 0 0 0 false Null singleton_kvs client.

(** The table behind [HASH_ADD_STR] and [HASH_FIND_STR]: with distinct keys, a lookup
    answers what was added. *)
Class StrHash (H : Type) := {
  hash_empty : H;
  hash_add : H -> list Z -> list Z -> H;
  hash_find : H -> list Z -> option (list Z);
  hash_find_empty : forall k, hash_find hash_empty k = None;
  hash_find_add : forall h k v k', hash_find h k = None ->
    hash_find (hash_add h k v) k' = if decide (k' = k) then Some v else hash_find h k' }.

Definition SINGLETON_KEY_LEN : Z := 128.
Definition SINGLETON_VAL_LEN : Z := 1024.

Section runtime.
Context {P H : Type} {TH : StrHash H}.
(** The process manager and the connection to it, as in [SimplePmi]. *)
Context (manager : list Z -> P -> list read_result * P) (written : Z -> Z).
Context (getenv : string -> option (list Z)) (connect_to_pm : list Z -> Z -> Z) (singinit_accept getpid : Z).
(** Whether an allocation of that many bytes succeeds, [sizeof(singleton_kvs_t)], and what
    a fresh [int] array holds. *)
Context (malloc : Z -> bool) (sizeof_singleton_kvs_t junk : Z).
Context (MAX_HOSTNAME_LEN : Z) (gethostname : Z * list Z).
(** Whether the build has [ENABLE_ERROR_CHECKING]. *)
Context (error_checking : bool).

Abbreviation RT := (ST (runtime P H)).

(** A call of the client. *)
Definition pmi_call {A} (m : M P A) : RT A := zoom rt_pmi set_pmi m.

(** The contents of a buffer the code is about to use. *)
Definition deref {A} (p : ptr A) : RT A :=
  match p with Live a => ret a | Null | Freed => stop end.

(** [free]: nothing happens to NULL, and a second [free] is an error. *)
Definition free {A} (p : ptr A) : RT (ptr A) :=
  match p with Null => ret Null | Live _ => ret Freed | Freed => stop end.

(** A name space of the process manager, for a job of several PEs. *)
Definition init_kvs (enable_node_ranks : bool) : RT Z :=
  s <- get ;
  r <- pmi_call (PMI_KVS_Get_name_length_max (Some (max_name_len s))) ;
  if negb (r.1 =? PMI_SUCCESS) then ret 5
  else
    modify (set_max_name_len (default 0 r.2)) ;;
    if negb (malloc (default 0 r.2)) then ret 6
    else
      modify (set_kvs_name (Live [])) ;;
      s <- get ;
      r <- pmi_call (PMI_KVS_Get_key_length_max (Some (max_key_len s))) ;
      if negb (r.1 =? PMI_SUCCESS) then ret 7
      else
        modify (set_max_key_len (default 0 r.2)) ;;
        s <- get ;
        r <- pmi_call (PMI_KVS_Get_value_length_max (Some (max_val_len s))) ;
        if negb (r.1 =? PMI_SUCCESS) then ret 8
        else
          modify (set_max_val_len (default 0 r.2)) ;;
          s <- get ;
          r <- pmi_call (PMI_KVS_Get_my_name manager written getpid [] (max_name_len s)) ;
          modify (set_kvs_name (Live r.2)) ;;
          if negb (r.1 =? PMI_SUCCESS) then ret 9
          else if enable_node_ranks then
            if negb (malloc (4 * size s)) then ret 10
            else modify (set_location_array (Live (replicate (Z.to_nat (size s)) junk))) ;; ret 0
          else ret 0.

Definition shmem_runtime_init (enable_node_ranks : bool) : RT Z :=
  r <- pmi_call PMI_Initialized ;
  if negb (r.1 =? PMI_SUCCESS) then ret 1
  else
    rc <- (if negb r.2 then
             r <- pmi_call (PMI_Init manager written getenv connect_to_pm 0) ;
             if negb (r.1 =? PMI_SUCCESS) then ret 2 else modify (set_initialized_pmi true) ;; ret 0
           else ret 0) ;
    if negb (rc =? 0) then ret rc
    else
      r <- pmi_call PMI_Get_rank ;
      modify (set_rank r.2) ;;
      if negb (r.1 =? PMI_SUCCESS) then ret 3
      else
        r <- pmi_call PMI_Get_size ;
        modify (set_size r.2) ;;
        if negb (r.1 =? PMI_SUCCESS) then ret 4
        else
          rc <- (if r.2 >? 1 then init_kvs enable_node_ranks
                 else
                   (* Use a local KVS for singleton runs *)
                   modify (fun s => set_max_name_len 0 (set_kvs_name Null
                     (set_max_val_len SINGLETON_VAL_LEN (set_max_key_len SINGLETON_KEY_LEN s)))) ;; ret 0) ;
          if negb (rc =? 0) then ret rc
          else
            s <- get ;
            if negb (malloc (max_key_len s)) then ret 11
            else
              modify (set_kvs_key (Live [])) ;;
              if negb (malloc (max_val_len s)) then ret 12
              else modify (set_kvs_value (Live [])) ;; ret 0.

Definition shmem_runtime_fini : RT Z :=
  s <- get ;
  a <- free (location_array s) ; modify (set_location_array a) ;;
  n <- free (kvs_name s) ; modify (set_kvs_name n) ;;
  k <- free (kvs_key s) ; modify (set_kvs_key k) ;;
  v <- free (kvs_value s) ; modify (set_kvs_value v) ;;
  (if initialized_pmi s
   then pmi_call (PMI_Finalize manager written) ;; modify (set_initialized_pmi false)
   else ret tt) ;;
  ret 0.

(** How the process ends. *)
Inductive ending := Trapped | Exited (code : Z) | Aborted.

Definition shmem_runtime_abort (TRAP_ON_ABORT : bool) (exit_code : Z) : RT ending :=
  if TRAP_ON_ABORT then ret Trapped
  else
    s <- get ;
    if size s =? 1 then ret (Exited exit_code)
    else pmi_call (PMI_Abort manager written exit_code) ;; ret Aborted.

Definition shmem_runtime_get_rank : RT Z := s <- get ; ret (rank s).
Definition shmem_runtime_get_size : RT Z := s <- get ; ret (size s).

Definition shmem_runtime_get_node_rank (pe : Z) : RT Z :=
  s <- get ;
  if error_checking && negb ((pe <? size s) && (0 <=? pe)) then stop
  else if size s =? 1 then ret 0
  else
    a <- deref (location_array s) ;
    match a !! Z.to_nat pe with Some r => ret r | None => stop end.

Definition shmem_runtime_get_node_size : RT Z :=
  s <- get ; if size s =? 1 then ret 1 else ret (node_size s).

(** [snprintf(kvs_key, max_key_len, "shmem-%lu-%s", (long unsigned) pe, key)] *)
Definition key_text (pe : Z) (key : list Z) : list Z :=
  chars "shmem-" ++ dec (wrap_u 64 pe) ++ chars "-" ++ key.

Definition shmem_runtime_put (key value : list Z) : RT Z :=
  s <- get ;
  let k := snprintf (max_key_len s) (key_text (rank s) key) in
  deref (kvs_key s) ;;
  modify (set_kvs_key (Live k)) ;;
  deref (kvs_value s) ;;
  match shmem_runtime_util_encode value (max_val_len s) with
  | None => ret 1
  | Some text =>
      let v := take (2 * length value) text in
      modify (set_kvs_value (Live v)) ;;
      if size s =? 1 then
        if negb (malloc sizeof_singleton_kvs_t) then ret 3
        else if negb (max_key_len s <=? SINGLETON_KEY_LEN) then stop
        else if negb (max_val_len s <=? SINGLETON_VAL_LEN) then stop
        else
          let e_key := take (Z.to_nat (max_key_len s)) k in
          let e_val := take (Z.to_nat (max_val_len s)) v in
          modify (set_singleton_kvs (hash_add (singleton_kvs s) e_key e_val)) ;;
          ret 0
      else
        name <- deref (kvs_name s) ;
        rc <- pmi_call (PMI_KVS_Put manager written name k v) ;
        if negb (rc =? PMI_SUCCESS) then ret 2 else ret 0
  end.

(** The return value and the bytes written to [value]. *)
Definition shmem_runtime_get (pe : Z) (key : list Z) (valuelen : Z) : RT (Z * list Z) :=
  s <- get ;
  let k := snprintf (max_key_len s) (key_text pe key) in
  deref (kvs_key s) ;;
  modify (set_kvs_key (Live k)) ;;
  value <- deref (kvs_value s) ;
  rc <- (if size s =? 1 then
           match hash_find (singleton_kvs s) k with
           | None => ret 3
           | Some e_val => modify (set_kvs_value (Live (take (Z.to_nat (max_val_len s)) e_val))) ;; ret 0
           end
         else
           name <- deref (kvs_name s) ;
           r <- pmi_call (PMI_KVS_Get manager written singinit_accept name k value (max_val_len s)) ;
           modify (set_kvs_value (Live r.2)) ;;
           if negb (r.1 =? PMI_SUCCESS) then ret 1 else ret 0) ;
  if negb (rc =? 0) then ret (rc, [])
  else
    s <- get ;
    text <- deref (kvs_value s) ;
    match shmem_runtime_util_decode text valuelen with
    | None => ret (2, [])
    | Some bytes => ret (0, bytes)
    end.

#[local] Instance runtime_pmi : Runtime (runtime P H) := {
  rt_put := shmem_runtime_put;
  rt_get := shmem_runtime_get }.

(** The node map, once every PE has published its name. *)
Definition map_nodes : RT Z :=
  s <- get ;
  match location_array s with
  | Null => ret 0
  | Freed => stop
  | Live a =>
      r <- shmem_runtime_util_populate_node MAX_HOSTNAME_LEN gethostname a (size s) (node_size s) ;
      let '(rc, a, n) := r in
      modify (fun s => set_node_size n (set_location_array (Live a) s)) ;;
      if negb (rc =? 0) then ret 7 else ret 0
  end.

Definition shmem_runtime_exchange : RT Z :=
  s <- get ;
  (* Use singleton KVS for single process jobs *)
  if size s =? 1 then ret 0
  else
    rc <- match location_array s with
          | Null => ret 0
          | Freed => stop
          | Live _ => shmem_runtime_util_put_hostname MAX_HOSTNAME_LEN gethostname
          end ;
    if negb (rc =? 0) then ret 4
    else
      name <- deref (kvs_name s) ;
      rc <- pmi_call (PMI_KVS_Commit name) ;
      if negb (rc =? PMI_SUCCESS) then ret 5
      else
        rc <- pmi_call (PMI_Barrier manager written) ;
        if negb (rc =? PMI_SUCCESS) then ret 6
        else map_nodes.

Definition shmem_runtime_barrier : RT unit := pmi_call (PMI_Barrier manager written) ;; ret tt.
End runtime.

(** ** Keys *)

Lemma chars_inj s1 s2 : chars s1 = chars s2 -> s1 = s2.
Proof.
  revert s2. induction s1 as [|a s1 IH]; intros [|b s2] [=]; [done|]. f_equal; [|by apply IH].
  rewrite <- (Ascii.ascii_N_embedding a), <- (Ascii.ascii_N_embedding b). f_equal. lia.
Qed.

Lemma split_dash (d1 d2 k1 k2 : list Z) : 45 ∉ d1 -> 45 ∉ d2 -> d1 ++ 45 :: k1 = d2 ++ 45 :: k2 -> d1 = d2 /\ k1 = k2.
Proof.
  revert d2. induction d1 as [|c d1 IH]; intros [|c' d2]; rewrite ?not_elem_of_cons; simpl.
  - by intros _ _ [= ->].
  - intros _ [] [=]. congruence.
  - intros [] _ [=]. congruence.
  - intros [? H1] [? H2] [= -> E]. by destruct (IH d2 H1 H2 E) as [-> ->].
Qed.

(** Different PEs and different keys never share an entry. *)
Lemma key_text_inj pe pe' key key' : 0 <= pe < 2 ^ 64 -> 0 <= pe' < 2 ^ 64 ->
  key_text pe key = key_text pe' key' -> pe = pe' /\ key = key'.
Proof.
  intros H1 H2. unfold key_text. rewrite !wrap_u_id by done. intros E%app_inv_head.
  assert (forall z, 0 <= z -> 45 ∉ dec z) as Hd.
  { intros z Hz Hin. pose proof (dec_digits z Hz) as Hf. rewrite list.Forall_forall in Hf. by specialize (Hf _ Hin). }
  apply split_dash in E as [E ->]; [|apply Hd; lia..]. split; [|done].
  by apply (inj pretty), chars_inj.
Qed.

(** ** The layer keeps the promises of [RuntimeKvs] *)

Section laws.
Context {P H : Type} {TH : StrHash H}.
Context (manager : list Z -> P -> list read_result * P) (written : Z -> Z) (singinit_accept : Z).
Context (malloc : Z -> bool) (sizeof_singleton_kvs_t : Z).
Context (Hwritten : forall n, 0 <= written n) {HM : KvsManager manager} (Hmalloc : malloc sizeof_singleton_kvs_t = true).
Implicit Types (s : runtime P H).

Abbreviation put_ := (shmem_runtime_put manager written malloc sizeof_singleton_kvs_t).
Abbreviation get_ := (shmem_runtime_get manager written singinit_accept).

(** What [shmem_runtime_init] leaves: buffers for keys and values and, in a job of several
    PEs, a connection to the manager and the name of the job's space. *)
Record runtime_ok s : Prop := {
  ok_rank : 0 <= rank s < 2 ^ 64;
  ok_key : exists k, kvs_key s = Live k;
  ok_value : exists v, kvs_value s = Live v;
  ok_lens : size s = 1 -> max_key_len s = SINGLETON_KEY_LEN /\ max_val_len s = SINGLETON_VAL_LEN;
  ok_conn : size s <> 1 -> connected (rt_pmi s) /\ exists n, kvs_name s = Live n /\ plain_value n }.

(** What is stored under a key text. *)
Definition stored s (k : list Z) : option (list Z) :=
  if size s =? 1 then hash_find (singleton_kvs s) k
  else match kvs_name s with Live n => kvs_lookup (p_manager (rt_pmi s)) n k | _ => None end.

Definition name_len s : Z := match kvs_name s with Live n => zlen n | _ => 0 end.

(** The key and the encoded value fit the buffers and the request fits a line. *)
Record entry_fits s (pe : Z) (key bytes : list Z) : Prop := {
  fit_pe : 0 <= pe < 2 ^ 64;
  fit_key : Forall (fun c => value_stop c = false) key;
  fit_key_len : zlen (key_text pe key) < max_key_len s;
  fit_bytes : Forall is_byte bytes;
  fit_value_len : 2 * zlen bytes < max_val_len s;
  fit_line : size s <> 1 -> name_len s + zlen (key_text pe key) + 2 * zlen bytes < 900 }.

Definition hex (bytes : list Z) : list Z := flat_map encode_byte bytes.

Definition visible s (pe : Z) (key bytes : list Z) : Prop :=
  runtime_ok s /\ entry_fits s pe key bytes /\ stored s (key_text pe key) = Some (hex bytes).

Definition room s (key bytes : list Z) : Prop :=
  runtime_ok s /\ entry_fits s (rank s) key bytes /\ (size s = 1 -> stored s (key_text (rank s) key) = None).

(** The part of the state that puts and gets leave alone. *)
Definition same_setup s s' : Prop :=
  rank s' = rank s /\ size s' = size s /\ kvs_name s' = kvs_name s /\
  max_key_len s' = max_key_len s /\ max_val_len s' = max_val_len s /\
  node_size s' = node_size s /\ location_array s' = location_array s.

Lemma entry_fits_same s s' pe key bytes : same_setup s s' -> entry_fits s pe key bytes -> entry_fits s' pe key bytes.
Proof.
  intros (E1 & E2 & E3 & E4 & E5 & _) []. constructor; try congruence. unfold name_len in *. rewrite E2, E3. done.
Qed.

Lemma runtime_ok_same s s' : same_setup s s' -> runtime_ok s ->
  (exists k, kvs_key s' = Live k) -> (exists v, kvs_value s' = Live v) ->
  (size s <> 1 -> connected (rt_pmi s')) -> runtime_ok s'.
Proof.
  intros (E1 & E2 & E3 & E4 & E5 & _) [] Hk Hv Hc. constructor; try done.
  - congruence.
  - rewrite E2, E4, E5. done.
  - rewrite E2, E3. intros Hs. split; [by apply Hc|by apply ok_conn0].
Qed.

Lemma snprintf_key s pe key bytes : entry_fits s pe key bytes -> snprintf (max_key_len s) (key_text pe key) = key_text pe key.
Proof. intros []. by apply snprintf_fits. Qed.

Lemma zlen_hex bytes : zlen (hex bytes) = 2 * zlen bytes.
Proof. unfold zlen, hex. rewrite length_encode. lia. Qed.

Lemma encode_hex bytes n : 2 * zlen bytes < n -> shmem_runtime_util_encode bytes n = Some (hex bytes ++ [0]).
Proof.
  intros Hn. unfold shmem_runtime_util_encode. unfold zlen in Hn. by rewrite Z.gtb_ltb, (proj2 (Z.ltb_ge _ _)) by lia.
Qed.

Lemma take_hex bytes : take (2 * length bytes) (hex bytes ++ [0]) = hex bytes.
Proof. unfold hex. by rewrite <- length_encode, take_app_length. Qed.

Lemma plain_hex bytes : Forall is_byte bytes -> Forall (fun c => value_stop c = false) (hex bytes).
Proof.
  intros Hb. apply Forall_flat_map. eapply list.Forall_impl; [exact Hb|]. intros b Hbb.
  destruct (byte_digits b Hbb) as (H1 & H2 & _).
  assert (forall d, 0 <= d < 16 -> value_stop (encodings d) = false) as He.
  { intros d Hd. unfold value_stop, encodings, SPACE, NEWLINE. destruct (Z.ltb_spec d 10);
      rewrite !(proj2 (Z.eqb_neq _ _)) by lia; done. }
  unfold encode_byte. auto.
Qed.

Lemma plain_key_text pe key : 0 <= pe < 2 ^ 64 -> Forall (fun c => value_stop c = false) key ->
  Forall (fun c => value_stop c = false) (key_text pe key).
Proof.
  intros Hpe Hk. unfold key_text. rewrite !Forall_app. split; [by repeat constructor|].
  split; [|split; [by repeat constructor|done]].
  rewrite wrap_u_id by done. eapply list.Forall_impl; [apply dec_digits; lia|].
  intros c Hc. unfold is_digit in Hc. apply andb_prop in Hc as [H1%Z.leb_le H2%Z.leb_le].
  unfold value_stop, SPACE, NEWLINE. by rewrite !(proj2 (Z.eqb_neq _ _)) by lia.
Qed.

(** A put in a job of several PEs, and in a job of one. *)
Lemma put_stores s key bytes : room s key bytes ->
  exists s', put_ key bytes s = Some (0, s') /\ same_setup s s' /\ runtime_ok s' /\
    forall k, stored s' k = if decide (k = key_text (rank s) key) then Some (hex bytes) else stored s k.
Proof.
  intros (Hok & Hf & Hfree). pose proof Hf as []. pose proof Hok as [].
  destruct ok_key0 as [kb Ekb], ok_value0 as [vb Evb].
  unfold shmem_runtime_put, bind, get, modify, deref. rewrite Ekb, Evb.
  rewrite (snprintf_key s _ key bytes Hf), encode_hex, take_hex by done. unfold ret at 1 2.
  destruct (Z.eqb_spec (size s) 1) as [E1|N1].
  - destruct (ok_lens0 E1) as [Ek Ev]. rewrite Hmalloc, Ek, Ev. cbn [negb Z.leb].
    rewrite !take_ge by (pose proof (zlen_hex bytes); unfold zlen in *; lia).
    eexists. split; [reflexivity|]. split; [done|]. split.
    + eapply runtime_ok_same; [|exact Hok|..]; [done|by eexists|by eexists|done].
    + intros k. specialize (Hfree E1). unfold stored in *. cbn. rewrite E1 in *. cbn [Z.eqb] in *.
      by apply hash_find_add.
  - destruct (ok_conn0 N1) as (Hc & n & En & Hn). cbn [kvs_name set_kvs_value set_kvs_key]. rewrite En.
    specialize (fit_line0 N1). unfold name_len in fit_line0. rewrite En in fit_line0.
    pose proof (zlen_nonneg n). pose proof (zlen_nonneg (key_text (rank s) key)). pose proof (zlen_hex bytes). pose proof (zlen_nonneg bytes).
    destruct (kvs_put_ok manager written Hwritten (rt_pmi s) n (key_text (rank s) key) (hex bytes) Hc Hn)
      as (c' & Ec & Hc' & Hlk).
    { split; [by apply plain_key_text|unfold MAXVALLEN; lia]. }
    { split; [by apply plain_hex|unfold MAXVALLEN; lia]. }
    { rewrite put_line_length. unfold PMIU_MAXLINE. lia. }
    unfold pmi_call, zoom, ret at 1. cbn [rt_pmi set_kvs_value set_kvs_key]. rewrite Ec. cbn [negb Z.eqb PMI_SUCCESS].
    eexists. split; [reflexivity|]. split; [done|]. split.
    + eapply runtime_ok_same; [|exact Hok|..]; [done|by eexists|by eexists|done].
    + intros k. unfold stored. cbn. rewrite En, (proj2 (Z.eqb_neq _ _)) by done. rewrite Hlk.
      apply decide_ext. naive_solver.
Qed.

Lemma decode_hex bytes : Forall is_byte bytes -> shmem_runtime_util_decode (hex bytes) (zlen bytes) = Some bytes.
Proof.
  intros Hb. unfold shmem_runtime_util_decode, hex. rewrite length_encode.
  replace (Z.of_nat (2 * length bytes)) with (zlen bytes * 2) by (unfold zlen; lia).
  rewrite Z.div_mul, Z.eqb_refl by lia. unfold zlen. cbn [negb]. by rewrite Nat2Z.id, decode_loop_encode.
Qed.

Lemma get_answers s pe key bytes : visible s pe key bytes ->
  exists s', get_ pe key (zlen bytes) s = Some ((0, bytes), s') /\ same_setup s s' /\ runtime_ok s' /\
    forall k, stored s' k = stored s k.
Proof.
  intros (Hok & Hf & Hst). pose proof Hf as []. pose proof Hok as [].
  destruct ok_key0 as [kb Ekb], ok_value0 as [vb Evb].
  unfold shmem_runtime_get, bind, get, modify, deref. rewrite Ekb. cbn [kvs_value set_kvs_key]. rewrite Evb.
  rewrite (snprintf_key s _ key bytes Hf). unfold ret at 1 2. cbn [size singleton_kvs set_kvs_key].
  unfold stored in Hst. destruct (Z.eqb_spec (size s) 1) as [E1|N1].
  - destruct (ok_lens0 E1) as [Ek Ev]. rewrite Hst, Ev. unfold ret at 1. cbn [negb Z.eqb kvs_value set_kvs_value].
    rewrite take_ge by (pose proof (zlen_hex bytes); unfold zlen in *; lia).
    unfold ret at 1. rewrite decode_hex by done. eexists. split; [reflexivity|]. split; [done|]. split.
    + eapply runtime_ok_same; [|exact Hok|..]; [done|by eexists|by eexists|done].
    + intros k. done.
  - destruct (ok_conn0 N1) as (Hc & n & En & Hn). cbn [kvs_name set_kvs_key]. rewrite En in Hst |- *.
    specialize (fit_line0 N1). unfold name_len in fit_line0. rewrite En in fit_line0.
    pose proof (zlen_nonneg n). pose proof (zlen_nonneg (key_text pe key)). pose proof (zlen_hex bytes). pose proof (zlen_nonneg bytes).
    destruct (kvs_get_ok manager written Hwritten singinit_accept (rt_pmi s) n (key_text pe key) (hex bytes) vb (max_val_len s) Hc Hn)
      as (c' & Ec & Hc' & Hm).
    { split; [by apply plain_key_text|unfold MAXVALLEN; lia]. }
    { split; [by apply plain_hex|unfold MAXVALLEN; lia]. }
    { rewrite get_line_length. unfold PMIU_MAXLINE. lia. }
    { lia. }
    { lia. }
    { done. }
    unfold pmi_call, zoom, ret at 1. cbn [rt_pmi set_kvs_key max_val_len]. rewrite Ec.
    cbn [fst snd negb Z.eqb PMI_SUCCESS]. unfold ret at 1. cbn [negb Z.eqb kvs_value set_kvs_value].
    unfold ret at 1. rewrite decode_hex by done. eexists. split; [reflexivity|]. split; [done|]. split.
    + eapply runtime_ok_same; [|exact Hok|..]; [done|by eexists|by eexists|done].
    + intros k. unfold stored. cbn. by rewrite En, Hm.
Qed.

(** The promises of [RuntimeKvs]. *)
#[export] Instance runtime_pmi_kvs :
  @RuntimeKvs (runtime P H) (runtime_pmi manager written singinit_accept malloc sizeof_singleton_kvs_t).
Proof.
  refine {| rt_me := rank; rt_same := same_setup; rt_visible := visible; rt_room := room |}.
  - split; [done|]. intros s1 s2 s3. unfold same_setup. intuition congruence.
  - by intros s s' [? _].
  - intros s key bytes Hr. destruct (put_stores s key bytes Hr) as (s' & E & Hsame & Hok & Hst).
    destruct Hr as (Hok0 & Hf & _). pose proof Hsame as (Hrk & Hsz & _).
    exists s'. split; [exact E|]. split; [done|]. split; [|split].
    + split; [done|]. split; [by eapply entry_fits_same|]. rewrite Hst. by rewrite decide_True.
    + intros pe k b (_ & Hfb & Hb) Hne. split; [done|]. split; [by eapply entry_fits_same|].
      rewrite Hst, decide_False; [done|]. intros Hk. apply Hne.
      apply key_text_inj in Hk as [-> ->]; [done|apply Hfb|apply Hf].
    + intros k b Hne (_ & Hfb & Hb). split; [done|]. split; [eapply entry_fits_same; [done|by rewrite Hrk]|].
      rewrite Hsz, Hst, Hrk. intros E1. rewrite decide_False; [by apply Hb|].
      intros Hk. apply key_text_inj in Hk as [_ ->]; [done|apply Hfb|apply Hf].
  - intros s pe key bytes Hv. destruct (get_answers s pe key bytes Hv) as (s' & E & Hsame & Hok & Hst).
    exists s'. split; [exact E|]. split; [done|].
    intros pe' k b (_ & Hfb & Hb). split; [done|]. split; [by eapply entry_fits_same|]. by rewrite Hst.
Defined.

(** ** The exchange *)

#[local] Instance runtime_here : Runtime (runtime P H) :=
  runtime_pmi manager written singinit_accept malloc sizeof_singleton_kvs_t.
#[local] Instance runtime_kvs_here : RuntimeKvs (runtime P H) := runtime_pmi_kvs.

Context (MAX_HOSTNAME_LEN : Z) (Hmax : 0 <= MAX_HOSTNAME_LEN < 2 ^ 63).

(** What PE [pe] publishes before the barrier. *)
Definition name_entries (name : list Z) : list (list Z * list Z) :=
  [(chars "hostname_len", le_bytes 8 (zlen name)); (chars "hostname", name)].

(** The manager answers the barrier when every PE has entered it: what each PE of the job
    publishes first, in the space [n], is then there. *)
Definition barrier_gathers (n : list Z) (name : Z -> list Z) (me size : Z) : Prop :=
  forall p, (forall k b, (k, b) ∈ name_entries (name me) -> kvs_lookup p n (key_text me k) = Some (hex b)) ->
  exists p', manager barrier_line p = ([Bytes (reply_text barrier_reply)], p') /\
    forall pe k b, 0 <= pe < size -> (k, b) ∈ name_entries (name pe) -> kvs_lookup p' n (key_text pe k) = Some (hex b).

(** What the gathered entries mean for a PE whose connection is idle again. *)
Lemma gathered_published s c' (name : Z -> list Z) n : runtime_ok s -> connected c' -> kvs_name s = Live n -> 1 < size s ->
  (forall i k b, 0 <= i < size s -> (k, b) ∈ name_entries (name i) ->
     entry_fits s i k b /\ kvs_lookup (p_manager c') n (key_text i k) = Some (hex b)) ->
  forall i, 0 <= i < size s -> published (set_pmi c' s) i (name i).
Proof.
  intros Hok Hc En Hsz Hall i Hi.
  assert (runtime_ok (set_pmi c' s)) as Hok'.
  { eapply runtime_ok_same; [|exact Hok|..]; [done|exact (ok_key _ Hok)|exact (ok_value _ Hok)|done]. }
  assert (forall k b, (k, b) ∈ name_entries (name i) -> visible (set_pmi c' s) i k b) as Hv.
  { intros k b Hkb. destruct (Hall i k b Hi Hkb) as [Hf Hl]. split; [done|]. split; [by apply (entry_fits_same s)|].
    unfold stored. cbn. by rewrite En, (proj2 (Z.eqb_neq _ _)) by lia. }
  split; apply Hv; [apply list_elem_of_here|apply list_elem_of_further, list_elem_of_here].
Qed.

(** Until the map: the PE publishes its name, commits, and passes the barrier. *)
Lemma exchange_publishes (name : Z -> list Z) s n a :
  runtime_ok s -> 1 < size s -> 0 <= rank s < size s -> kvs_name s = Live n -> location_array s = Live a ->
  (forall i, 0 <= i < size s -> zlen (name i) <= MAX_HOSTNAME_LEN /\
     forall k b, (k, b) ∈ name_entries (name i) -> entry_fits s i k b) ->
  barrier_gathers n name (rank s) (size s) ->
  exists s2, same_setup s s2 /\ (forall i, 0 <= i < size s -> published s2 i (name i)) /\
    shmem_runtime_exchange manager written singinit_accept malloc sizeof_singleton_kvs_t
      MAX_HOSTNAME_LEN (0, name (rank s)) s
    = map_nodes manager written singinit_accept malloc sizeof_singleton_kvs_t MAX_HOSTNAME_LEN (0, name (rank s)) s2.
Proof.
  intros Hok Hsz Hrk En Ea Hnames Hbar. destruct (Hnames (rank s) Hrk) as (Hlen & Hfit).
  assert (forall k b, (k, b) ∈ name_entries (name (rank s)) -> room s k b) as Hroom
    by (intros k b Hkb; split; [done|]; split; [by apply Hfit|lia]).
  destruct (put_hostname_spec MAX_HOSTNAME_LEN s (name (rank s)) Hlen) as (s1 & E1 & S1 & V1 & V2).
  { apply Hroom, list_elem_of_here. }
  { apply Hroom. apply list_elem_of_further, list_elem_of_here. }
  pose proof S1 as (Er & Esz & Ekn & _). cbn in V1, V2.
  destruct V1 as (Hok1 & _ & St1), V2 as (_ & _ & St2).
  destruct (ok_conn _ Hok1) as (Hc1 & _); [lia|]. unfold stored in St1, St2.
  rewrite Esz, (proj2 (Z.eqb_neq _ _)), Ekn, En in St1, St2 by lia.
  destruct (Hbar (p_manager (rt_pmi s1))) as (p' & Hm & Hall).
  { intros k b [[= -> ->]|[[= -> ->]|Hin]%elem_of_cons]%elem_of_cons; [done|done|by apply elem_of_nil in Hin]. }
  destruct (barrier_ok manager written Hwritten (rt_pmi s1) p' Hc1 Hm) as (c' & Ec & Hcc & Hp').
  exists (set_pmi c' s1). split; [exact S1|]. split.
  - rewrite <- Esz. apply (gathered_published s1 c' name n Hok1 Hcc); [congruence|lia|].
    intros i k b Hi Hkb. rewrite Esz in Hi. split; [by eapply entry_fits_same, Hnames|]. rewrite Hp'. by apply Hall.
  - unfold shmem_runtime_exchange, bind at 1, get at 1. rewrite (proj2 (Z.eqb_neq _ _)), Ea by lia.
    run_step E1. cbn [negb Z.eqb]. rewrite En. unfold deref, bind at 1, ret at 1.
    unfold bind at 1, pmi_call at 1, zoom, PMI_KVS_Commit, ret at 1. cbn [negb Z.eqb PMI_SUCCESS].
    unfold bind at 1, pmi_call at 1, zoom. cbn [rt_pmi set_pmi]. by rewrite Ec.
Qed.

(** C34: the exchange of a job of several PEs: each PE publishes its host name, passes the
    barrier and reads the names of all; it then knows exactly the PEs that share its host,
    numbered in rank order from 0, and their number, provided that no host name is a proper
    prefix of its own. *)
Theorem exchange_maps_nodes (name : Z -> list Z) s n a :
  runtime_ok s -> 1 < size s -> 0 <= rank s < size s ->
  kvs_name s = Live n -> location_array s = Live a -> zlen a = size s ->
  (forall i, 0 <= i < size s -> no_nul (name i) /\ zlen (name i) <= MAX_HOSTNAME_LEN /\
     forall k b, (k, b) ∈ name_entries (name i) -> entry_fits s i k b) ->
  (forall i, 0 <= i < size s -> name i `prefix_of` name (rank s) -> name i = name (rank s)) ->
  barrier_gathers n name (rank s) (size s) ->
  exists s' loc, shmem_runtime_exchange manager written singinit_accept malloc sizeof_singleton_kvs_t
      MAX_HOSTNAME_LEN (0, name (rank s)) s = Some (0, s') /\
    rank s' = rank s /\ size s' = size s /\ location_array s' = Live loc /\
    node_map name (rank s) (size s) loc /\
    node_size s' = Z.of_nat (countb (on_node name (rank s)) (upto 0 (size s))).
Proof.
  intros Hok Hsz Hrk En Ea Hla Hnames Hpre Hbar.
  destruct (exchange_publishes name s n a) as (s2 & S2 & V2 & ->); try done.
  { intros i Hi. by apply Hnames. }
  pose proof S2 as (Er & Esz & _ & _ & _ & _ & Eloc).
  destruct (populate_node_spec MAX_HOSTNAME_LEN Hmax name (rank s) (size s) a (node_size s2) s2) as (loc & s3 & E3 & S3 & Hmap); try done.
  { intros i Hi. split; [by apply V2|]. by split; apply Hnames. }
  pose proof S3 as (Er3 & Esz3 & _).
  unfold map_nodes, bind at 1, get at 1. rewrite Eloc, Ea, Esz. run_step E3.
  unfold bind at 1, modify at 1. cbn [negb Z.eqb]. eexists _, loc. split; [reflexivity|]. cbn.
  split; [congruence|]. split; [congruence|]. split; [done|]. done.
Qed.
End laws.

(** ** Start-up *)

(** Evaluate the reads and assignments of the static variables. *)
Ltac rt_simpl := cbn [rank size node_size kvs_name kvs_key kvs_value max_name_len max_key_len max_val_len initialized_pmi
  location_array singleton_kvs rt_pmi set_rank set_size set_node_size set_kvs_name set_kvs_key set_kvs_value set_max_name_len
  set_max_key_len set_max_val_len set_initialized_pmi set_location_array set_singleton_kvs set_pmi runtime_start
  negb Z.eqb PMI_SUCCESS fst snd default id].

Section init.
Context {P H : Type} {TH : StrHash H}.
Context (manager : list Z -> P -> list read_result * P) (written : Z -> Z) (Hwritten : forall n, 0 <= written n).
Context (getenv : string -> option (list Z)) (connect_to_pm : list Z -> Z -> Z) (getpid : Z).
Context (malloc : Z -> bool) (junk : Z) (Hmalloc : forall n, malloc n = true).
Implicit Types (s : runtime P H).

Abbreviation init_ := (shmem_runtime_init (H:=H) manager written getenv connect_to_pm getpid malloc junk).

Lemma init_kvs_ok (enable_node_ranks : bool) s {SM : StartManager manager} :
  connected (rt_pmi s) -> zlen start_name < start_maxes.1.1 ->
  p_kvsname_max (rt_pmi s) = start_maxes.1.1 -> p_keylen_max (rt_pmi s) = start_maxes.1.2 ->
  p_vallen_max (rt_pmi s) = start_maxes.2 ->
  exists s', init_kvs manager written getpid malloc junk enable_node_ranks s = Some (0, s') /\
    rank s' = rank s /\ size s' = size s /\ kvs_name s' = Live start_name /\
    max_key_len s' = start_maxes.1.2 /\ max_val_len s' = start_maxes.2 /\
    initialized_pmi s' = initialized_pmi s /\
    location_array s' = (if enable_node_ranks then Live (replicate (Z.to_nat (size s)) junk) else location_array s) /\
    connected (rt_pmi s') /\ p_manager (rt_pmi s') = p_manager (rt_pmi s).
Proof.
  intros Hc Hnm Ea Eb Ec.
  destruct (my_name_ok manager written Hwritten getpid (rt_pmi s) start_maxes.1.1 Hc Hnm) as (c2 & E2 & Hc2 & Em2).
  unfold init_kvs, pmi_call, zoom, PMI_KVS_Get_name_length_max, PMI_KVS_Get_key_length_max,
    PMI_KVS_Get_value_length_max, get_max, bind, modify, get, ret.
  rt_simpl. rewrite Hmalloc. rt_simpl. rewrite Ea, E2. rt_simpl. rewrite Hmalloc.
  destruct enable_node_ranks; rt_simpl; (eexists; split; [reflexivity|]); by rt_simpl.
Qed.

(** C35: start-up under a process manager succeeds and leaves a well-formed layer: the rank,
    the size and the limits the manager told, the name of the job's key-value space, the
    buffers, and an idle connection. *)
Theorem init_establishes (enable_node_ranks : bool) (p : P) (fd : list Z) {SM : StartManager manager} :
  getenv "PMI_FD" = Some fd -> atoi fd <> -1 -> env_int getenv "PMI_TOTALVIEW" 0 = 0 ->
  let size_ := env_int getenv "PMI_SIZE" 1 in let rank_ := env_int getenv "PMI_RANK" 0 in
  1 < size_ -> 0 <= rank_ < 2 ^ 64 -> zlen start_name < start_maxes.1.1 ->
  exists s', init_ enable_node_ranks (runtime_start hash_empty (pmi_start p)) = Some (0, s') /\
    runtime_ok s' /\ rank s' = rank_ /\ size s' = size_ /\ kvs_name s' = Live start_name /\
    max_key_len s' = start_maxes.1.2 /\ max_val_len s' = start_maxes.2 /\
    p_manager (rt_pmi s') = p /\ initialized_pmi s' = true /\
    location_array s' = if enable_node_ranks then Live (replicate (Z.to_nat size_) junk) else Null.
Proof.
  intros Hfd Hne Htv size_ rank_ Hsz Hrk Hnm.
  destruct (pmi_init_ok manager written Hwritten getenv connect_to_pm 0 (pmi_start p) fd) as
    (b & c1 & E1 & [Hi1 Hw1] & Es & Er & Em & Ea & Eb & Ec); try done.
  assert (p_initialized c1 <> PMI_UNINITIALIZED) as Hin by (intros E; by rewrite E in Hw1).
  set (s1 := set_size size_ (set_rank rank_ (set_initialized_pmi true (set_pmi c1 (runtime_start (H:=H) hash_empty (pmi_start p)))))).
  destruct (init_kvs_ok enable_node_ranks s1 (conj Hi1 Hw1) Hnm Ea Eb Ec)
    as (s2 & E2 & Hr2 & Hs2 & Hn2 & Hk2 & Hv2 & Hp2 & Hl2 & Hc2 & Hm2).
  assert (init_ enable_node_ranks (runtime_start hash_empty (pmi_start p)) =
    Some (0, set_kvs_value (Live []) (set_kvs_key (Live []) s2))) as Einit.
  { unfold shmem_runtime_init, pmi_call, zoom, PMI_Initialized, PMI_Get_rank, PMI_Get_size, bind, modify, get, ret.
    rt_simpl. cbn [pmi_start p_initialized]. rewrite bool_decide_eq_true_2 by done. rt_simpl. rewrite E1. rt_simpl.
    rewrite !decide_False by done. rt_simpl. rewrite Es, Er, Z.gtb_ltb, (proj2 (Z.ltb_lt _ _)) by done.
    change (init_kvs manager written getpid malloc junk enable_node_ranks _) with
      (init_kvs manager written getpid malloc junk enable_node_ranks s1).
    rewrite E2. rt_simpl. rewrite !Hmalloc. reflexivity. }
  eexists. split; [exact Einit|]. rt_simpl. subst s1. revert Hr2 Hs2 Hp2 Hl2 Hm2. rt_simpl. intros Hr2 Hs2 Hp2 Hl2 Hm2.
  split; [|by rewrite Hr2, Hs2, Hm2]. constructor; rt_simpl.
  - by rewrite Hr2.
  - by eexists.
  - by eexists.
  - rewrite Hs2. lia.
  - intros _. split; [done|]. exists start_name. split; [done|].
    apply (plain_pair (name_reply start_name) (chars "kvsname")); [apply start_plain|]. apply list_elem_of_further, list_elem_of_here.
Qed.
End init.

(** ** Jobs of one PE *)

Section singleton.
Context {P H : Type} {TH : StrHash H}.
Context (manager : list Z -> P -> list read_result * P) (written : Z -> Z) {HM : KvsManager manager}.
Context (getenv : string -> option (list Z)) (connect_to_pm : list Z -> Z -> Z) (singinit_accept getpid : Z).
Context (malloc : Z -> bool) (sizeof_singleton_kvs_t junk : Z) (Hmalloc : forall n, malloc n = true).
Context (MAX_HOSTNAME_LEN : Z) (gethostname : Z * list Z).

(** A job of one PE needs no exchange and is its own node. *)
Lemma alone_node (s : runtime P H) : size s = 1 ->
  shmem_runtime_exchange manager written singinit_accept malloc sizeof_singleton_kvs_t MAX_HOSTNAME_LEN gethostname s = Some (0, s) /\
  shmem_runtime_get_node_rank true 0 s = Some (0, s) /\ shmem_runtime_get_node_size s = Some (1, s).
Proof.
  intros E. unfold shmem_runtime_exchange, shmem_runtime_get_node_rank, shmem_runtime_get_node_size, bind, get.
  by rewrite E.
Qed.

(** Without a process manager start-up makes a job of one PE, whatever [PMI_SIZE] and
    [PMI_RANK] say; it needs no exchange, and the layer is ready for puts. *)
Lemma init_alone (enable_node_ranks : bool) (p : P) :
  getenv "PMI_FD" = None -> getenv "PMI_PORT" = None ->
  exists s : runtime P H,
    shmem_runtime_init manager written getenv connect_to_pm getpid malloc junk enable_node_ranks
      (runtime_start hash_empty (pmi_start p)) = Some (0, s) /\
    runtime_ok s /\ rank s = 0 /\ size s = 1 /\ location_array s = Null /\
    shmem_runtime_exchange manager written singinit_accept malloc sizeof_singleton_kvs_t MAX_HOSTNAME_LEN gethostname s = Some (0, s) /\
    shmem_runtime_get_node_rank true 0 s = Some (0, s) /\ shmem_runtime_get_node_size s = Some (1, s) /\
    forall key bytes, entry_fits s 0 key bytes -> room manager s key bytes.
Proof.
  intros Hfd Hport.
  destruct (init_singleton manager written getenv connect_to_pm 0 (pmi_start p) Hfd Hport) as (c & E1 & _ & E2 & E3 & _).
  unfold shmem_runtime_init, pmi_call, zoom, PMI_Initialized, bind, modify, get, ret. rt_simpl.
  cbn [pmi_start p_initialized]. rewrite bool_decide_eq_true_2 by done. rt_simpl. rewrite E1. rt_simpl. rewrite E2. rt_simpl.
  rewrite E3. rt_simpl. change (1 >? 1) with false. rt_simpl. rewrite !Hmalloc. rt_simpl.
  match goal with |- exists x, Some (0, ?st) = _ /\ _ => set (s := st) end.
  assert (runtime_ok s) as Hok by (constructor; [done|by eexists|by eexists|done|done]).
  exists s. split; [reflexivity|]. split; [done|]. do 3 (split; [reflexivity|]).
  destruct (alone_node s) as (X1 & X2 & X3); [reflexivity|]. split; [exact X1|]. split; [exact X2|]. split; [exact X3|].
  intros key bytes Hf. split; [done|]. split; [done|]. intros _. unfold stored. apply hash_find_empty.
Qed.
End singleton.

(** ** Puts and gets *)


(** A value that does not fit is rejected before anything is stored; a key that was never
    put is reported. *)
Lemma put_rejects {P H : Type} {TH : StrHash H} (manager : list Z -> P -> list read_result * P) (written : Z -> Z)
    (malloc : Z -> bool) (sizeof_singleton_kvs_t : Z) (s : runtime P H) (key bytes kb vb : list Z) :
  kvs_key s = Live kb -> kvs_value s = Live vb -> max_val_len s < 2 * zlen bytes + 1 ->
  exists s', shmem_runtime_put manager written malloc sizeof_singleton_kvs_t key bytes s = Some (1, s') /\
    singleton_kvs s' = singleton_kvs s /\ rt_pmi s' = rt_pmi s.
Proof.
  intros Ek Ev Hlen. unfold shmem_runtime_put, bind, get, modify, deref, shmem_runtime_util_encode. rewrite Ek, Ev.
  unfold ret. unfold zlen in Hlen. rewrite Z.gtb_ltb, (proj2 (Z.ltb_lt _ _)) by lia. by eexists.
Qed.

(** ** A concrete job *)

#[export] Instance list_hash : StrHash (list (list Z * list Z)).
Proof.
  refine {| hash_empty := []; hash_add h k v := (k, v) :: h;
    hash_find := fix find h k := match h with [] => None | (k', v) :: h => if decide (k = k') then Some v else find h k end |}.
  - done.
  - intros h k v k' _. done.
Defined.

(** A manager of a job: [store_manager] for puts and gets, the answers of start-up, and a
    barrier after which the names of all PEs are there. *)
Definition job_space : list Z := chars "kvs_0".
Definition job_entries (name : Z -> list Z) (size : Z) : store :=
  flat_map (fun pe => map (fun kb => (job_space, key_text pe kb.1, hex kb.2)) (name_entries (name pe))) (upto 0 size).

Definition job_manager (name : Z -> list Z) (size : Z) (line : list Z) (p : store) : list read_result * store :=
  if str_eqb line barrier_line then ([Bytes (reply_text barrier_reply)], job_entries name size ++ p)
  else if str_eqb line init_line then ([Bytes (reply_text init_reply)], p)
  else if str_eqb line maxes_line then ([Bytes (reply_text (maxes_reply 256 256 1024))], p)
  else if str_eqb line name_line then ([Bytes (reply_text (name_reply job_space))], p)
  else store_manager line p.

#[export] Instance job_start name size : StartManager (job_manager name size).
Proof.
  refine {| start_maxes := (256, 256, 1024); start_name := job_space |}.
  - done.
  - split; (split; [repeat constructor; discriminate|split; vm_compute; [discriminate|reflexivity]]).
  - done.
  - done.
  - done.
Defined.

Lemma job_manager_store name size line p : line <> barrier_line -> line <> init_line -> line <> maxes_line -> line <> name_line ->
  job_manager name size line p = store_manager line p.
Proof. intros H1 H2 H3 H4. unfold job_manager, str_eqb. by rewrite !bool_decide_eq_false_2 by done. Qed.

#[export] Instance job_kvs name size : KvsManager (job_manager name size).
Proof.
  refine {| kvs_lookup := store_lookup |}.
  - intros p n k v Hn Hk Hv. rewrite job_manager_store by discriminate. by apply (kvs_stores (KvsManager:=store_kvs)).
  - intros p n k v Hn Hk Hl. rewrite job_manager_store by discriminate. by apply (kvs_answers (KvsManager:=store_kvs)).
Defined.

Lemma init_establishes_witness :
  let getenv x := if String.eqb x "PMI_FD" then Some (chars "3") else if String.eqb x "PMI_SIZE" then Some (chars "4")
                  else if String.eqb x "PMI_RANK" then Some (chars "1") else None in
  exists s' : runtime store (list (list Z * list Z)),
    shmem_runtime_init (job_manager (fun _ => [97]) 4) (fun n => n * n) getenv (fun _ _ => -1) 77 (fun _ => true) 0 true
      (runtime_start hash_empty (pmi_start [])) = Some (0, s') /\ runtime_ok s' /\ location_array s' = Live [0; 0; 0; 0].
Proof.
  intros getenv.
  destruct (init_establishes (H:=list (list Z * list Z)) (job_manager (fun _ => [97]) 4) (fun n => n * n) ltac:(intros; nia) getenv
    (fun _ _ => -1) 77 (fun _ => true) 0 ltac:(done) true [] (chars "3")) as (s' & E & Hok & _ & _ & _ & _ & _ & _ & _ & Hl);
    [reflexivity|done|reflexivity|reflexivity|split; [discriminate|reflexivity]|reflexivity|].
  exists s'. split; [exact E|]. split; [exact Hok|exact Hl].
Defined.

(** PE 0 of a job of one. *)
Definition alone : runtime store (list (list Z * list Z)) :=
  RuntimeState 0 1 0 Null (Live []) (Live []) 0 128 1024 true Null hash_empty (pmi_start []).


(** PE 1 of a job of four on two hosts, after [shmem_runtime_init]. *)
Definition job_names (i : Z) : list Z := [97; 49 + i mod 2].
Lemma job_names_no_nul i : no_nul (job_names i).
Proof.
  unfold no_nul, job_names. rewrite !not_elem_of_cons. pose proof (Z.mod_pos_bound i 2).
  split; [lia|]. split; [lia|apply not_elem_of_nil].
Qed.

Definition job_pe (me : Z) (name : Z -> list Z) (size : Z) : runtime store (list (list Z * list Z)) :=
  RuntimeState me size 0 (Live job_space) (Live []) (Live []) 256 256 1024 true (Live (replicate (Z.to_nat size) 0)) hash_empty
    (set_maxes 256 256 1024 (set_job size me 0 (set_initialized NORMAL_INIT_WITH_PM (set_fd 3 (pmi_start []))))).

Lemma exchange_maps_nodes_witness :
  exists s' loc, shmem_runtime_exchange (job_manager job_names 4) (fun n => n * n) (-1) (fun _ => true) 1208 64 (0, job_names 1) (job_pe 1 job_names 4)
      = Some (0, s') /\ location_array s' = Live loc /\ node_size s' = 2.
Proof.
  assert (forall i, 0 <= i < 4 -> i = 0 \/ i = 1 \/ i = 2 \/ i = 3) as Hcases by lia.
  destruct (exchange_maps_nodes (job_manager job_names 4) (fun n => n * n) (-1) (fun _ => true) 1208 ltac:(intros; nia) ltac:(done)
    64 ltac:(done) job_names (job_pe 1 job_names 4) job_space [0; 0; 0; 0]) as (s' & loc & E & _ & _ & El & _ & En).
  - constructor; [done|by eexists|by eexists|done|]. intros _. split; [done|]. exists job_space. split; [done|plain].
  - done.
  - done.
  - done.
  - done.
  - done.
  - intros i Hi. destruct (Hcases i Hi) as [->|[->|[->| ->]]];
      (split; [apply job_names_no_nul|]; split; [done|];
       intros k b Hkb; repeat (apply elem_of_cons in Hkb as [[= -> ->]|Hkb]); [..|by apply elem_of_nil in Hkb]);
      (constructor; [done|by repeat constructor|done|repeat constructor; discriminate|done|done]).
  - intros i _ [k [= Hk Hk']]. simpl. unfold job_names. by rewrite Hk.
  - intros p _. eexists. split; [reflexivity|]. intros pe k b Hpe Hkb.
    destruct (Hcases pe Hpe) as [->|[->|[->| ->]]]; (repeat (apply elem_of_cons in Hkb as [[= -> ->]|Hkb]); [..|by apply elem_of_nil in Hkb]);
      reflexivity.
  - exists s', loc. split; [exact E|]. split; [exact El|exact En].
Defined.

(** Without the condition on prefixes the map is not symmetric: the PE on host "n10" counts
    the PE of host "n1" as its neighbour, while that one does not count it. *)
Lemma exchange_prefix_names :
  let name i := if i =? 0 then [110; 49] else [110; 49; 48] in
  let run me := shmem_runtime_exchange (job_manager name 2) (fun n => n * n) (-1) (fun _ => true) 1208 64 (0, name me) (job_pe me name 2) in
  let map_of r := match r with Some (rc, s) => Some (rc, location_array s, node_size s) | None => None end in
  map_of (run 0) = Some (0, Live [0; -1], 1) /\ map_of (run 1) = Some (0, Live [0; 1], 2).
Proof. split; vm_compute; reflexivity. Qed.
