(* ===== verification/Init.v ===== *)
(** * Start-up and shutdown ([init.c], [init_c.c])

    Start-up calls the parts of the library in order, undoes what it has done when one
    of them fails, and registers a shutdown that runs once.  The parts are represented by the calls made
    to them, recorded in order, and by the codes they answer; their own behaviour is in
    the other files ([Env], [RuntimePmi], [SymHeap], [CollInit], [TeamOps]).  The state is
    that of the globals of [init.c]. *)

From S2P Require Import Prelude.
Local Open Scope Z_scope.

(** ** The calls start-up and shutdown make *)

Inductive mutex := mutex_alloc | mutex_rand_r.
Inductive call :=
| ParseEnv | MutexInit (m : mutex) | RuntimeInit (enable_node_ranks : bool) | SymmetricInit
| TransportInit | ShrTransportInit | RuntimeExchange | TransportStartup | ShrTransportStartup
| CollectivesInit | TeamInit | AtExit | RuntimeBarrier
| BarrierAll | TeamFini | TransportFini | ShrTransportFini | MutexDestroy (m : mutex) | SymmetricFini | RuntimeFini.
#[export] Instance mutex_eq_dec : EqDecision mutex.
Proof. solve_decision. Defined.
#[export] Instance call_eq_dec : EqDecision call.
Proof. solve_decision. Defined.

(** The build options, and the environment parameters start-up reads. *)
Record build := Build {
  ENABLE_THREADS : bool; USE_ON_NODE_COMMS : bool; USE_OFI : bool; USE_PMIX : bool;
  ENABLE_ERROR_CHECKING : bool;
  (** remote virtual addressing on Linux, with the check not disabled by configure *)
  ASLR_CHECK : bool }.
Record params := Params {
  OFI_STX_AUTO : bool; TEAM_SHARED_ONLY_SELF : bool; BOUNCE_SIZE_provided : bool; BOUNCE_SIZE : Z;
  DISABLE_ASLR_CHECK : bool }.

Definition SHMEM_THREAD_SINGLE : Z := 0.
Definition SHMEM_THREAD_MULTIPLE : Z := 3.

(** The globals, the parameters parsed from the environment, whether the [atexit] handler
    is registered, and the calls made so far. *)
Record globals := Globals {
  data_base : Z; data_length : Z; my_pe : Z; num_pes : Z;
  initialized : bool; finalized : bool; initialized_with_start_pes : bool; global_exit_called : bool;
  thread_level : Z; rand_seed : Z; bounce_size : Z; handler : bool; log : list call }.

Definition globals0 : globals := Globals 0 0 (-1) (-1) false false false false 0 0 0 false [].

(** Assignments to the globals. *)
Definition set_data (base len : Z) (s : globals) : globals :=
  Globals base len (my_pe s) (num_pes s) (initialized s) (finalized s) (initialized_with_start_pes s) (global_exit_called s)
    (thread_level s) (rand_seed s) (bounce_size s) (handler s) (log s).
Definition set_pes (me n : Z) (s : globals) : globals :=
  Globals (data_base s) (data_length s) me n (initialized s) (finalized s) (initialized_with_start_pes s) (global_exit_called s)
    (thread_level s) (rand_seed s) (bounce_size s) (handler s) (log s).
Definition set_initialized (b : bool) (s : globals) : globals :=
  Globals (data_base s) (data_length s) (my_pe s) (num_pes s) b (finalized s) (initialized_with_start_pes s) (global_exit_called s)
    (thread_level s) (rand_seed s) (bounce_size s) (handler s) (log s).
Definition set_finalized (b : bool) (s : globals) : globals :=
  Globals (data_base s) (data_length s) (my_pe s) (num_pes s) (initialized s) b (initialized_with_start_pes s) (global_exit_called s)
    (thread_level s) (rand_seed s) (bounce_size s) (handler s) (log s).
Definition set_with_start_pes (b : bool) (s : globals) : globals :=
  Globals (data_base s) (data_length s) (my_pe s) (num_pes s) (initialized s) (finalized s) b (global_exit_called s)
    (thread_level s) (rand_seed s) (bounce_size s) (handler s) (log s).
Definition set_global_exit_called (b : bool) (s : globals) : globals :=
  Globals (data_base s) (data_length s) (my_pe s) (num_pes s) (initialized s) (finalized s) (initialized_with_start_pes s) b
    (thread_level s) (rand_seed s) (bounce_size s) (handler s) (log s).
Definition set_thread_level (l : Z) (s : globals) : globals :=
  Globals (data_base s) (data_length s) (my_pe s) (num_pes s) (initialized s) (finalized s) (initialized_with_start_pes s)
    (global_exit_called s) l (rand_seed s) (bounce_size s) (handler s) (log s).
Definition set_rand_seed (v : Z) (s : globals) : globals :=
  Globals (data_base s) (data_length s) (my_pe s) (num_pes s) (initialized s) (finalized s) (initialized_with_start_pes s)
    (global_exit_called s) (thread_level s) v (bounce_size s) (handler s) (log s).
Definition set_bounce_size (v : Z) (s : globals) : globals :=
  Globals (data_base s) (data_length s) (my_pe s) (num_pes s) (initialized s) (finalized s) (initialized_with_start_pes s)
    (global_exit_called s) (thread_level s) (rand_seed s) v (handler s) (log s).
Definition set_handler (b : bool) (s : globals) : globals :=
  Globals (data_base s) (data_length s) (my_pe s) (num_pes s) (initialized s) (finalized s) (initialized_with_start_pes s)
    (global_exit_called s) (thread_level s) (rand_seed s) (bounce_size s) b (log s).
Definition add_log (c : call) (s : globals) : globals :=
  Globals (data_base s) (data_length s) (my_pe s) (num_pes s) (initialized s) (finalized s) (initialized_with_start_pes s)
    (global_exit_called s) (thread_level s) (rand_seed s) (bounce_size s) (handler s) (log s ++ [c]).

(** ** Computations: a value, the end of this process ([abort]), or of the job. *)

Inductive outcome (A : Type) := Ret (a : A) | Abort | JobAbort (code : Z).
Arguments Ret {A}. Arguments Abort {A}. Arguments JobAbort {A}.

Definition IO (A : Type) : Type := globals -> outcome A * globals.
Definition ret {A} (a : A) : IO A := fun s => (Ret a, s).
Definition bind {A B} (m : IO A) (f : A -> IO B) : IO B :=
  fun s => match m s with
           | (Ret a, s) => f a s
           | (Abort, s) => (Abort, s)
           | (JobAbort code, s) => (JobAbort code, s)
           end.
Definition get : IO globals := fun s => (Ret s, s).
Definition modify (f : globals -> globals) : IO unit := fun s => (Ret tt, f s).
Definition abort {A} : IO A := fun s => (Abort, s).
Definition shmem_runtime_abort {A} (code : Z) : IO A := fun s => (JobAbort code, s).

Declare Scope io_scope.
Delimit Scope io_scope with io.
Notation "x <- m ; k" := (bind m (fun x => k)) (at level 100, m at next level, k at level 200, right associativity) : io_scope.
Notation "m ;; k" := (bind m (fun _ => k)) (at level 100, k at level 200, right associativity) : io_scope.
Local Open Scope io_scope.

Section init.
Context (B : build).
(** What the parts answer, and what the runtime says of the job. *)
Context (answer : call -> Z) (get_rank get_size : Z) (env_params : params).
(** [sizeof(SHMEM_VENDOR_STRING)], [SHMEM_MAX_NAME_LEN]; the linker's addresses of the data
    segment; the first character of [randomize_va_space], when it can be read, and whether
    the process was started without randomization. *)
Context (sizeof_vendor_string max_name_len data_start end_ : Z) (aslr_status : option Z) (no_randomize : bool).

Definition do_call (c : call) : IO Z := modify (add_log c) ;; ret (answer c).

(** [SHMEM_MUTEX_INIT] and [SHMEM_MUTEX_DESTROY]: nothing below [SHMEM_THREAD_MULTIPLE]. *)
Definition SHMEM_MUTEX_INIT (m : mutex) : IO unit :=
  s <- get ;
  if ENABLE_THREADS B && (thread_level s =? SHMEM_THREAD_MULTIPLE) then modify (add_log (MutexInit m)) else ret tt.
Definition SHMEM_MUTEX_DESTROY (m : mutex) : IO unit :=
  s <- get ;
  if ENABLE_THREADS B && (thread_level s =? SHMEM_THREAD_MULTIPLE) then modify (add_log (MutexDestroy m)) else ret tt.

Definition shmem_internal_randr_init : IO unit :=
  modify (fun s => set_rand_seed (my_pe s) s) ;;
  SHMEM_MUTEX_INIT mutex_rand_r.
Definition shmem_internal_randr_fini : IO unit := SHMEM_MUTEX_DESTROY mutex_rand_r.

Definition shmem_internal_shutdown : IO unit :=
  s <- get ;
  if negb (initialized s) || finalized s then ret tt
  else
    do_call BarrierAll ;;
    modify (set_finalized true) ;;
    do_call TeamFini ;;
    do_call TransportFini ;;
    do_call ShrTransportFini ;;
    SHMEM_MUTEX_DESTROY mutex_alloc ;;
    shmem_internal_randr_fini ;;
    do_call SymmetricFini ;;
    do_call RuntimeFini ;;
    ret tt.

(** The warning, and the shutdown. *)
Definition shmem_internal_shutdown_atexit : IO bool :=
  s <- get ;
  let warn := initialized s && negb (finalized s) && negb (initialized_with_start_pes s) &&
              negb (global_exit_called s) && (my_pe s =? 0) in
  shmem_internal_shutdown ;;
  ret warn.

(** The flags of the [cleanup] label. *)
Record flags := Flags {
  runtime_initialized : bool; transport_initialized : bool; shr_initialized : bool;
  randr_initialized : bool; teams_initialized : bool }.

Definition when (b : bool) (m : IO unit) : IO unit := if b then m else ret tt.

Definition cleanup (f : flags) : IO Z :=
  when (transport_initialized f) (do_call TransportFini ;; ret tt) ;;
  when (shr_initialized f) (do_call ShrTransportFini ;; ret tt) ;;
  when (randr_initialized f) shmem_internal_randr_fini ;;
  when (teams_initialized f) (do_call TeamFini ;; ret tt) ;;
  s <- get ;
  when (negb (data_base s =? 0)) (do_call SymmetricFini ;; ret tt) ;;
  when (runtime_initialized f) (do_call RuntimeFini ;; ret tt) ;;
  abort.

Definition enable_node_ranks (p : params) : bool :=
  (if USE_ON_NODE_COMMS B then true else if USE_OFI B then OFI_STX_AUTO p else false)
  || negb (TEAM_SHARED_ONLY_SELF p).

(** The check of address space layout randomization. *)
Definition aslr_check : IO unit :=
  if ASLR_CHECK B && negb (DISABLE_ASLR_CHECK env_params) then
    match aslr_status with
    | Some c => if negb (c =? 48) && negb no_randomize then shmem_runtime_abort 1 else ret tt
    | None => ret tt
    end
  else ret tt.

(** From the transports' start-up to the end. *)
Definition init_startup : IO Z :=
  rc <- do_call TransportStartup ;
  if negb (rc =? 0) then cleanup (Flags true false false false false)
  else
    rc <- do_call ShrTransportStartup ;
    if negb (rc =? 0) then cleanup (Flags true true false false false)
    else
      rc <- do_call CollectivesInit ;
      if negb (rc =? 0) then cleanup (Flags true true true false false)
      else
        rc <- do_call TeamInit ;
        if negb (rc =? 0) then cleanup (Flags true true true false false)
        else
          shmem_internal_randr_init ;;
          (* the result of atexit is not looked at: nonzero, and no handler is registered *)
          rc <- do_call AtExit ;
          modify (fun s => set_initialized true (set_handler (rc =? 0) s)) ;;
          (if USE_PMIX B then ret tt else do_call RuntimeBarrier ;; ret tt) ;;
          ret 0.

(** The return value ([*tl_provided] is [thread_level] afterwards). *)
Definition shmem_internal_init (tl_requested : Z) : IO Z :=
  rc <- do_call ParseEnv ;
  if negb (rc =? 0) then ret rc
  else
    modify (set_bounce_size (BOUNCE_SIZE env_params)) ;;
    SHMEM_MUTEX_INIT mutex_alloc ;;
    modify (set_thread_level (if ENABLE_THREADS B then tl_requested else SHMEM_THREAD_SINGLE)) ;;
    rc <- do_call (RuntimeInit (enable_node_ranks env_params)) ;
    if negb (rc =? 0) then cleanup (Flags false false false false false)
    else
      modify (set_pes get_rank get_size) ;;
      if sizeof_vendor_string >? max_name_len then cleanup (Flags true false false false false)
      else
        s <- get ;
        (if (thread_level s =? SHMEM_THREAD_MULTIPLE) && negb (BOUNCE_SIZE_provided env_params)
         then modify (set_bounce_size 0) else ret tt) ;;
        aslr_check ;;
        (* a missing data segment is only reported *)
        modify (set_data data_start (end_ - data_start)) ;;
        rc <- do_call SymmetricInit ;
        if negb (rc =? 0) then cleanup (Flags true false false false false)
        else
          rc <- do_call TransportInit ;
          if negb (rc =? 0) then cleanup (Flags true false false false false)
          else
            rc <- do_call ShrTransportInit ;
            if negb (rc =? 0) then cleanup (Flags true false false false false)
            else
              rc <- do_call RuntimeExchange ;
              if negb (rc =? 0) then cleanup (Flags true false false false false)
              else init_startup.

Definition shmem_internal_start_pes : IO unit :=
  modify (set_with_start_pes true) ;;
  rc <- shmem_internal_init SHMEM_THREAD_SINGLE ;
  if negb (rc =? 0) then abort else ret tt.

Definition shmem_internal_finalize : IO unit := shmem_internal_shutdown.

Definition shmem_internal_global_exit (status : Z) : IO unit :=
  modify (set_global_exit_called true) ;;
  shmem_runtime_abort status.

(** ** The entry points of [init_c.c] *)

Definition SHMEM_ERR_CHECK_INITIALIZED : IO unit :=
  s <- get ;
  if ENABLE_ERROR_CHECKING B && negb (initialized s) then abort else ret tt.

Definition start_pes : IO unit :=
  s <- get ; if negb (initialized s) then shmem_internal_start_pes else ret tt.

Definition shmem_init : IO unit :=
  s <- get ;
  if initialized s then shmem_runtime_abort 1
  else
    rc <- shmem_internal_init SHMEM_THREAD_SINGLE ;
    if negb (rc =? 0) then abort else ret tt.

Definition shmem_init_thread (tl_requested : Z) : IO Z :=
  s <- get ;
  if initialized s then shmem_runtime_abort 1 else shmem_internal_init tl_requested.

Definition shmem_query_thread : IO Z := SHMEM_ERR_CHECK_INITIALIZED ;; s <- get ; ret (thread_level s).
Definition shmem_global_exit (status : Z) : IO unit := SHMEM_ERR_CHECK_INITIALIZED ;; shmem_internal_global_exit status.
Definition shmem_finalize : IO unit := SHMEM_ERR_CHECK_INITIALIZED ;; shmem_internal_finalize.
End init.

(** ** What start-up and shutdown do *)

Lemma bind_inv {A B} (m : IO A) (f : A -> IO B) s b s' : bind m f s = (Ret b, s') ->
  exists a s1, m s = (Ret a, s1) /\ f a s1 = (Ret b, s').
Proof. unfold bind. destruct (m s) as [[a| |] s1]; [|done|done]. intros H. by exists a, s1. Qed.

Definition add_logs (l : list call) (s : globals) : globals := fold_left (fun s c => add_log c s) l s.

(** Evaluate a computation on known globals. *)
Ltac io_simpl := cbn [bind ret get modify abort shmem_runtime_abort do_call when add_logs fold_left
  data_base data_length my_pe num_pes initialized finalized initialized_with_start_pes global_exit_called thread_level
  rand_seed bounce_size handler log set_data set_pes set_initialized set_finalized set_with_start_pes
  set_global_exit_called set_thread_level set_rand_seed set_bounce_size set_handler add_log
  runtime_initialized transport_initialized shr_initialized randr_initialized teams_initialized negb andb orb Z.eqb].

(** The same, down to the record of the globals. *)
Ltac io_eval := cbv beta iota delta [
  data_base data_length my_pe num_pes initialized finalized initialized_with_start_pes global_exit_called thread_level
  rand_seed bounce_size handler log set_data set_pes set_initialized set_finalized set_with_start_pes
  set_global_exit_called set_thread_level set_rand_seed set_bounce_size set_handler add_log].

Lemma add_logs_globals l s : add_logs l s =
  Globals (data_base s) (data_length s) (my_pe s) (num_pes s) (initialized s) (finalized s) (initialized_with_start_pes s)
    (global_exit_called s) (thread_level s) (rand_seed s) (bounce_size s) (handler s) (log s ++ l).
Proof.
  revert s. induction l as [|c l IH]; intros s; [by destruct s; simpl; rewrite app_nil_r|].
  change (add_logs (c :: l) s) with (add_logs l (add_log c s)). rewrite IH. simpl. by rewrite <- app_assoc.
Qed.

Lemma log_add_logs l s : log (add_logs l s) = log s ++ l.
Proof. by rewrite add_logs_globals. Qed.

Lemma initialized_add_logs l s : initialized (add_logs l s) = initialized s.
Proof. by rewrite add_logs_globals. Qed.

Lemma handler_add_logs l s : handler (add_logs l s) = handler s.
Proof. by rewrite add_logs_globals. Qed.

(** The first element that fails a test. *)
Lemma first_failure {A} (P : A -> Prop) `{forall x, Decision (P x)} (l : list A) : ~ Forall P l ->
  exists k x, l !! k = Some x /\ ~ P x /\ Forall P (take k l).
Proof.
  induction l as [|a l IH]; intros Hl; [by destruct Hl|].
  destruct (decide (P a)) as [Ha|Ha]; [|by exists 0%nat, a].
  destruct IH as (k & x & Hk & Hx & Hp); [by intros HF; apply Hl; constructor|].
  exists (S k), x. split; [done|]. split; [done|]. by constructor.
Qed.

Section specs.
Context (B : build) (answer : call -> Z) (get_rank get_size : Z) (env_params : params).
Context (sizeof_vendor_string max_name_len data_start end_ : Z) (aslr_status : option Z) (no_randomize : bool).

Abbreviation init_ := (shmem_internal_init B answer get_rank get_size env_params sizeof_vendor_string max_name_len
  data_start end_ aslr_status no_randomize).
Abbreviation shutdown_ := (shmem_internal_shutdown B answer).

(** The calls of a start-up that can fail, in order. *)
Definition start_calls : list call :=
  [RuntimeInit (enable_node_ranks B env_params); SymmetricInit; TransportInit; ShrTransportInit; RuntimeExchange;
   TransportStartup; ShrTransportStartup; CollectivesInit; TeamInit].

(** What is undone when the [k]-th of them fails. *)
Definition undo_calls (k : nat) : list call :=
  (if (5 <? k)%nat then [TransportFini] else []) ++ (if (6 <? k)%nat then [ShrTransportFini] else []) ++
  (if (0 <? k)%nat && negb (data_start =? 0) then [SymmetricFini] else []) ++ (if (0 <? k)%nat then [RuntimeFini] else []).

Definition multiple (tl : Z) : bool := ENABLE_THREADS B && (tl =? SHMEM_THREAD_MULTIPLE).

(** The calls of a complete start-up and of a shutdown at thread level [tl]. *)
Definition up_calls (tl : Z) : list call :=
  ParseEnv :: start_calls ++ (if multiple tl then [MutexInit mutex_rand_r] else []) ++
  AtExit :: (if USE_PMIX B then [] else [RuntimeBarrier]).
Definition down_calls (tl : Z) : list call :=
  [BarrierAll; TeamFini; TransportFini; ShrTransportFini] ++
  (if multiple tl then [MutexDestroy mutex_alloc; MutexDestroy mutex_rand_r] else []) ++ [SymmetricFini; RuntimeFini].

(** The library before any successful start-up. *)
Definition fresh (s : globals) : Prop :=
  initialized s = false /\ finalized s = false /\ thread_level s = SHMEM_THREAD_SINGLE /\ data_base s = 0 /\ handler s = false.

Definition level_of (tl : Z) : Z := if ENABLE_THREADS B then tl else SHMEM_THREAD_SINGLE.

(** The globals after a successful start-up. *)
Definition up_state (tl : Z) (s : globals) : globals :=
  Globals data_start (end_ - data_start) get_rank get_size true (finalized s) (initialized_with_start_pes s) (global_exit_called s)
    (level_of tl) get_rank
    (if (level_of tl =? SHMEM_THREAD_MULTIPLE) && negb (BOUNCE_SIZE_provided env_params) then 0 else BOUNCE_SIZE env_params)
    (answer AtExit =? 0) (log s ++ up_calls (level_of tl)).

Definition vendor_fits : Prop := sizeof_vendor_string <= max_name_len.
Definition aslr_ok : Prop := forall s, aslr_check B env_params aslr_status no_randomize s = (Ret tt, s).

Lemma cleanup_spec f s : cleanup B answer f s =
  (Abort, add_logs ((if transport_initialized f then [TransportFini] else []) ++ (if shr_initialized f then [ShrTransportFini] else []) ++
    (if randr_initialized f && multiple (thread_level s) then [MutexDestroy mutex_rand_r] else []) ++
    (if teams_initialized f then [TeamFini] else []) ++
    (if negb (data_base s =? 0) then [SymmetricFini] else []) ++ (if runtime_initialized f then [RuntimeFini] else [])) s).
Proof.
  unfold cleanup, shmem_internal_randr_fini, SHMEM_MUTEX_DESTROY, multiple, bind, when, do_call, get, modify, ret, abort.
  destruct f as [r t h n m], (data_base s =? 0) eqn:E, r, t, h, m, n; io_simpl; rewrite ?E;
    destruct (ENABLE_THREADS B && (thread_level s =? SHMEM_THREAD_MULTIPLE)) eqn:E'; io_simpl; rewrite ?E, ?E'; reflexivity.
Qed.

(** One fallible call: the code goes on, or to its [cleanup]. *)
Lemma call_ok {A} c (bad k : Z -> IO A) s : answer c = 0 ->
  bind (do_call answer c) (fun rc => if negb (rc =? 0) then bad rc else k rc) s = k 0 (add_log c s).
Proof. intros E. unfold bind, do_call, modify, ret, bind. by rewrite E. Qed.

Lemma call_bad {A} c (bad k : Z -> IO A) s : answer c <> 0 ->
  bind (do_call answer c) (fun rc => if negb (rc =? 0) then bad rc else k rc) s = bad (answer c) (add_log c s).
Proof. intros E. unfold bind, do_call, modify, ret, bind. by rewrite (proj2 (Z.eqb_neq _ _) E). Qed.

(** [SHMEM_MUTEX_INIT] comes before the thread level is set. *)
Lemma mutex_init_single {A} m (f : unit -> IO A) s : thread_level s = SHMEM_THREAD_SINGLE -> bind (SHMEM_MUTEX_INIT B m) f s = f tt s.
Proof. intros E. unfold SHMEM_MUTEX_INIT, bind, get, ret. by rewrite E, andb_false_r. Qed.

Lemma io_modify_run {A} g (f : unit -> IO A) s : bind (modify g) f s = f tt (g s).
Proof. done. Qed.

Context (Hvendor : vendor_fits) (Haslr : aslr_ok).

Lemma Hvendor_b : (sizeof_vendor_string >? max_name_len) = false.
Proof. rewrite Z.gtb_ltb. apply Z.ltb_ge. exact Hvendor. Qed.


Lemma get_run {A} (f : globals -> IO A) s : bind get f s = f s s.
Proof. done. Qed.

(** The middle of start-up cannot fail in this setting. *)
Lemma init_middle {A} (f : unit -> IO A) s :
  bind (aslr_check B env_params aslr_status no_randomize) f s = f tt s.
Proof. unfold bind. by rewrite Haslr. Qed.

Lemma bounce_run {A} (f : unit -> IO A) b s :
  bind (if b : bool then modify (set_bounce_size 0) else ret tt) f s =
  f tt (if b then set_bounce_size 0 s else s).
Proof. by destruct b. Qed.

(** A failure of the [k]-th call. *)
Lemma init_fails_at tl s k c : fresh s -> answer ParseEnv = 0 -> start_calls !! k = Some c -> answer c <> 0 ->
  Forall (fun c' => answer c' = 0) (take k start_calls) ->
  exists s', init_ tl s = (Abort, s') /\ log s' = log s ++ ParseEnv :: take (S k) start_calls ++ undo_calls k /\
    initialized s' = false /\ handler s' = false.
Proof.
  intros (Hin & Hfin & Htl & Hdb & Hh) Hp Hk Hc Hprev.
  unfold shmem_internal_init, init_startup.
  destruct k as [|[|[|[|[|[|[|[|[|k]]]]]]]]]; [..|done]; injection Hk as <-; unfold start_calls in Hprev; cbn [take] in Hprev;
    repeat (apply list.Forall_cons in Hprev as [? Hprev]);
    repeat first [rewrite call_ok by done | rewrite io_modify_run | rewrite mutex_init_single by done | rewrite Hvendor_b
      | rewrite get_run | rewrite bounce_run | rewrite init_middle];
    rewrite call_bad, cleanup_spec by done; (eexists; split; [reflexivity|]); rewrite log_add_logs.
  all: match goal with |- context [if ?b && ?c then set_bounce_size 0 _ else _] => destruct (b && c) | _ => idtac end.
  all: rewrite initialized_add_logs, handler_add_logs; io_simpl; rewrite ?Hdb; split; [|done].
  all: unfold undo_calls, start_calls; cbn [take Nat.ltb Nat.leb andb]; destruct (data_start =? 0); io_simpl;
    rewrite <- ?app_assoc; done.
Qed.

(** C17: when the [k]-th call of start-up fails, the process aborts after undoing, each once,
    the parts whose start-up had completed: the two transports once they are started, the
    heap once the data segment is known, and the runtime; the library is not marked as
    initialized and no exit handler is registered. *)
Theorem init_failure tl s k c : fresh s -> answer ParseEnv = 0 -> start_calls !! k = Some c -> answer c <> 0 ->
  Forall (fun c' => answer c' = 0) (take k start_calls) ->
  exists s', init_ tl s = (Abort, s') /\ log s' = log s ++ ParseEnv :: take (S k) start_calls ++ undo_calls k /\
    initialized s' = false /\ handler s' = false.
Proof. apply init_fails_at. Qed.

(** When every part answers 0, start-up makes all the calls, in order. *)
Lemma init_success tl s : fresh s -> (forall c, c ∈ ParseEnv :: start_calls -> answer c = 0) ->
  init_ tl s = (Ret 0, up_state tl s).
Proof.
  intros (Hin & Hfin & Htl & Hdb & Hh) Hall.
  assert (Forall (fun c => answer c = 0) (ParseEnv :: start_calls)) as HF by (by apply list.Forall_forall).
  unfold start_calls in HF. repeat (apply list.Forall_cons in HF as [? HF]).
  unfold shmem_internal_init, init_startup.
  repeat first [rewrite call_ok by done | rewrite io_modify_run | rewrite mutex_init_single by done | rewrite Hvendor_b
    | rewrite get_run | rewrite bounce_run | rewrite init_middle].
  unfold shmem_internal_randr_init, SHMEM_MUTEX_INIT, do_call, bind, modify, get, ret.
  unfold up_state, up_calls, start_calls, level_of, multiple.
  destruct s as [db dl me n i f w g t r b h lg]; simpl in *; subst.
  destruct (ENABLE_THREADS B), (USE_PMIX B); io_simpl;
    try (destruct (tl =? SHMEM_THREAD_MULTIPLE) eqn:E, (BOUNCE_SIZE_provided env_params); io_simpl; rewrite ?E);
    change (SHMEM_THREAD_SINGLE =? SHMEM_THREAD_MULTIPLE) with false; io_simpl; io_eval; rewrite <- ?app_assoc; reflexivity.
Qed.

(** A start-up that returns either changed nothing but the log, or succeeded. *)
Lemma init_returns tl s rc s' : fresh s -> init_ tl s = (Ret rc, s') ->
  (rc = answer ParseEnv /\ rc <> 0 /\ s' = add_log ParseEnv s) \/ (rc = 0 /\ s' = up_state tl s).
Proof.
  intros Hf Hrun. destruct (decide (answer ParseEnv = 0)) as [Hp|Hp].
  - right. destruct (decide (Forall (fun c => answer c = 0) start_calls)) as [Hall|Hex].
    + rewrite init_success in Hrun; [by injection Hrun as <- <-|done|].
      intros c [->|Hc]%elem_of_cons; [done|]. rewrite list.Forall_forall in Hall. by apply Hall.
    + destruct (first_failure (fun c => answer c = 0) start_calls Hex) as (k & c & Hk & Hc & Hpre).
      destruct (init_fails_at tl s k c Hf Hp Hk Hc Hpre) as (s2 & E & _). congruence.
  - left. unfold shmem_internal_init in Hrun. rewrite call_bad in Hrun by done. by injection Hrun as <- <-.
Qed.

Lemma shutdown_spec s : initialized s = true -> finalized s = false ->
  shutdown_ s = (Ret tt, add_logs (down_calls (thread_level s)) (set_finalized true s)).
Proof.
  intros Hi Hf. unfold shmem_internal_shutdown, shmem_internal_randr_fini, SHMEM_MUTEX_DESTROY, down_calls, multiple,
    do_call, bind, get, modify, ret.
  rewrite Hi, Hf. io_simpl. destruct (ENABLE_THREADS B && (thread_level s =? SHMEM_THREAD_MULTIPLE)) eqn:E;
    io_simpl; rewrite ?E; reflexivity.
Qed.

(** Shutdown runs once. *)
Lemma shutdown_again s : initialized s = false \/ finalized s = true -> shutdown_ s = (Ret tt, s).
Proof.
  intros H. unfold shmem_internal_shutdown, bind, get, ret. destruct H as [-> | ->]; [done|]. by rewrite orb_true_r.
Qed.
End specs.

(** ** The life of the library in a process *)

Section lifecycle.
Context (B : build) (get_rank get_size : Z) (env_params : params).
Context (sizeof_vendor_string max_name_len data_start end_ : Z) (aslr_status : option Z) (no_randomize : bool).
Context (Hvendor : vendor_fits sizeof_vendor_string max_name_len) (Haslr : aslr_ok B env_params aslr_status no_randomize).

(** What an application does: any of the calls, and leaving [main]. *)
Inductive op := OpStartPes | OpInit | OpInitThread (tl : Z) | OpQuery | OpGlobalExit (status : Z) | OpFinalize | OpExit.

Definition run_op (answer : call -> Z) (o : op) : IO unit :=
  match o with
  | OpStartPes => start_pes B answer get_rank get_size env_params sizeof_vendor_string max_name_len data_start end_ aslr_status no_randomize
  | OpInit => shmem_init B answer get_rank get_size env_params sizeof_vendor_string max_name_len data_start end_ aslr_status no_randomize
  | OpInitThread tl =>
      shmem_init_thread B answer get_rank get_size env_params sizeof_vendor_string max_name_len data_start end_ aslr_status no_randomize tl ;;
      ret tt
  | OpQuery => shmem_query_thread B ;; ret tt
  | OpGlobalExit status => shmem_global_exit B status
  | OpFinalize => shmem_finalize B answer
  | OpExit => s <- get ; if handler s then shmem_internal_shutdown_atexit B answer ;; ret tt else ret tt
  end.

(** The states an application can reach, whatever the parts answer each time. *)
Inductive reachable : globals -> Prop :=
| reach_start : reachable globals0
| reach_op s s' answer o : reachable s -> run_op answer o s = (Ret tt, s') -> reachable s'.

(** Down, up, or shut down; [n] start-ups failed in the environment before. *)
Inductive phase (s : globals) : Prop :=
| phase_down n : fresh s -> log s = replicate n ParseEnv -> phase s
| phase_up n : initialized s = true -> finalized s = false ->
    log s = replicate n ParseEnv ++ up_calls B env_params (thread_level s) -> phase s
| phase_over n : initialized s = true -> finalized s = true ->
    log s = replicate n ParseEnv ++ up_calls B env_params (thread_level s) ++ down_calls B (thread_level s) -> phase s.

Lemma phase_shutdown answer s s' : phase s -> shmem_internal_shutdown B answer s = (Ret tt, s') ->
  phase s' /\ (initialized s = true -> finalized s' = true).
Proof.
  intros [n (Hi & Hf & Ht & Hd & Hh) Hl|n Hi Hf Hl|n Hi Hf Hl].
  - rewrite shutdown_again by auto. intros [= <-]. split; [by eapply phase_down|congruence].
  - rewrite shutdown_spec by done. intros H%(f_equal snd). cbn [snd] in H. subst s'.
    rewrite add_logs_globals. split; [|done]. apply (phase_over _ n); [done..|].
    change (log s ++ down_calls B (thread_level s) = replicate n ParseEnv ++ up_calls B env_params (thread_level s) ++ down_calls B (thread_level s)).
    by rewrite Hl, <- app_assoc.
  - rewrite shutdown_again by auto. intros [= <-]. split; [by eapply phase_over|done].
Qed.

Lemma phase_init answer tl s rc s' : phase s -> initialized s = false ->
  shmem_internal_init B answer get_rank get_size env_params sizeof_vendor_string max_name_len data_start end_ aslr_status no_randomize tl s
    = (Ret rc, s') -> phase s'.
Proof.
  intros Hph Hni Hrun. destruct Hph as [n Hfr Hl|n Hi|n Hi]; [|congruence..].
  destruct (init_returns B answer get_rank get_size env_params sizeof_vendor_string max_name_len data_start end_ aslr_status
    no_randomize Hvendor Haslr tl s rc s' Hfr Hrun) as [(_ & _ & ->)|[_ ->]].
  - apply (phase_down _ (S n)); [exact Hfr|]. unfold add_log. cbn [log].
    by rewrite Hl, <- replicate_cons_app.
  - destruct Hfr as (_ & Hf & _). apply (phase_up _ n); [done..|]. unfold up_state. cbn [log thread_level]. by rewrite Hl.
Qed.

Lemma phase_with_start_pes s : phase s -> phase (set_with_start_pes true s).
Proof.
  intros [n Hfr Hl|n Hi Hf Hl|n Hi Hf Hl]; [by apply (phase_down _ n)|by apply (phase_up _ n)|by apply (phase_over _ n)].
Qed.

Lemma check_same u s s' : SHMEM_ERR_CHECK_INITIALIZED B s = (Ret u, s') -> s' = s.
Proof. unfold SHMEM_ERR_CHECK_INITIALIZED, bind, get, ret, abort. case_match; by intros [= <-]. Qed.

Lemma query_same v s s' : shmem_query_thread B s = (Ret v, s') -> s' = s.
Proof. intros (? & ? & H & [= _ <-])%bind_inv. by apply check_same in H. Qed.

Lemma phase_exit answer s s' : phase s -> run_op answer OpExit s = (Ret tt, s') ->
  phase s' /\ if handler s then initialized s = true -> finalized s' = true else s' = s.
Proof.
  intros Hph (? & ? & [= <- <-] & Hrun)%bind_inv. destruct (handler s) eqn:Hh.
  - apply bind_inv in Hrun as (? & ? & Hrun & [= <-]). apply bind_inv in Hrun as (? & ? & [= <- <-] & Hrun).
    apply bind_inv in Hrun as ([] & ? & Hrun & [= _ <-]). by apply phase_shutdown in Hrun.
  - by injection Hrun as <-.
Qed.

Lemma phase_op answer o s s' : phase s -> run_op answer o s = (Ret tt, s') -> phase s'.
Proof.
  intros IH Hrun. destruct o; simpl in Hrun.
  - apply bind_inv in Hrun as (? & ? & [= <- <-] & Hrun). destruct (initialized s) eqn:Hi; [by injection Hrun as <-|].
    apply bind_inv in Hrun as (? & s1 & [= <- <-] & Hrun). apply bind_inv in Hrun as (rc & s2 & Hinit & Hrun).
    apply phase_init in Hinit; [|by apply phase_with_start_pes|done].
    destruct (rc =? 0); simpl in Hrun; [by injection Hrun as <-|done].
  - apply bind_inv in Hrun as (? & ? & [= <- <-] & Hrun). destruct (initialized s) eqn:Hi; [done|].
    apply bind_inv in Hrun as (rc & s2 & Hinit & Hrun). apply phase_init in Hinit; [|done..].
    destruct (rc =? 0); simpl in Hrun; [by injection Hrun as <-|done].
  - apply bind_inv in Hrun as (rc & s2 & Hrun & [= <-]).
    apply bind_inv in Hrun as (? & ? & [= <- <-] & Hrun). destruct (initialized s) eqn:Hi; [done|].
    by apply phase_init in Hrun.
  - apply bind_inv in Hrun as (? & ? & Hrun & [= <-]). by apply query_same in Hrun as ->.
  - apply bind_inv in Hrun as (? & ? & Hrun & Hend). done.
  - apply bind_inv in Hrun as (? & ? & Hchk & Hrun). apply check_same in Hchk as ->.
    by apply phase_shutdown in Hrun as [].
  - by apply phase_exit in Hrun as [].
Qed.

(** The handler over one call. *)
Lemma phase_handler s : phase s -> initialized s = false -> handler s = false.
Proof. intros [n (_ & _ & _ & _ & Hh)|n Hi|n Hi] Hni; [done|congruence..]. Qed.

Lemma handler_shutdown answer s s' : shmem_internal_shutdown B answer s = (Ret tt, s') ->
  handler s' = handler s /\ initialized s' = initialized s.
Proof.
  destruct (decide (initialized s = true /\ finalized s = false)) as [[Hi Hf]|H].
  - rewrite shutdown_spec by done. intros E%(f_equal snd). cbn [snd] in E. subst s'. by rewrite add_logs_globals.
  - rewrite shutdown_again; [by intros [= <-]|]. destruct (initialized s), (finalized s); tauto.
Qed.

Definition handler_rule (answer : call -> Z) (s s' : globals) : Prop :=
  handler s' = if initialized s then handler s else initialized s' && (answer AtExit =? 0).

Lemma handler_same answer s s' : phase s -> handler s' = handler s /\ initialized s' = initialized s -> handler_rule answer s s'.
Proof.
  intros Hph [Hh Hi]. unfold handler_rule. destruct (initialized s) eqn:E; [done|]. rewrite Hi, Hh. by apply phase_handler.
Qed.

Lemma handler_init answer tl s rc s' : phase s -> initialized s = false ->
  shmem_internal_init B answer get_rank get_size env_params sizeof_vendor_string max_name_len data_start end_ aslr_status no_randomize tl s
    = (Ret rc, s') -> handler_rule answer s s'.
Proof.
  intros Hph Hni Hrun. destruct Hph as [n Hfr Hl|n Hi|n Hi]; [|congruence..].
  destruct (init_returns B answer get_rank get_size env_params sizeof_vendor_string max_name_len data_start end_ aslr_status
    no_randomize Hvendor Haslr tl s rc s' Hfr Hrun) as [(_ & _ & ->)|[_ ->]].
  - apply handler_same; [by apply (phase_down _ n)|done].
  - unfold handler_rule. by rewrite Hni.
Qed.

Lemma handler_op answer o s s' : phase s -> run_op answer o s = (Ret tt, s') -> handler_rule answer s s'.
Proof.
  intros Hph Hrun. destruct o; simpl in Hrun.
  - apply bind_inv in Hrun as (? & ? & [= <- <-] & Hrun). destruct (initialized s) eqn:Hi; [injection Hrun as <-; by apply handler_same|].
    apply bind_inv in Hrun as (? & s1 & [= <- <-] & Hrun). apply bind_inv in Hrun as (rc & s2 & Hinit & Hrun).
    apply handler_init in Hinit; [|by apply phase_with_start_pes|done].
    destruct (rc =? 0); simpl in Hrun; [by injection Hrun as <-|done].
  - apply bind_inv in Hrun as (? & ? & [= <- <-] & Hrun). destruct (initialized s) eqn:Hi; [done|].
    apply bind_inv in Hrun as (rc & s2 & Hinit & Hrun). apply handler_init in Hinit; [|done..].
    destruct (rc =? 0); simpl in Hrun; [by injection Hrun as <-|done].
  - apply bind_inv in Hrun as (rc & s2 & Hrun & [= <-]).
    apply bind_inv in Hrun as (? & ? & [= <- <-] & Hrun). destruct (initialized s) eqn:Hi; [done|].
    by apply handler_init in Hrun.
  - apply bind_inv in Hrun as (? & ? & Hrun & [= <-]). apply query_same in Hrun as ->. by apply handler_same.
  - apply bind_inv in Hrun as (? & ? & Hrun & Hend). done.
  - apply bind_inv in Hrun as (? & ? & Hchk & Hrun). apply check_same in Hchk as ->.
    apply handler_same; [done|]. by apply handler_shutdown in Hrun.
  - apply handler_same; [done|]. apply bind_inv in Hrun as (? & ? & [= <- <-] & Hrun).
    destruct (handler s) eqn:Hh; [|by injection Hrun as <-]. rewrite <- Hh.
    apply bind_inv in Hrun as (? & ? & Hrun & [= <-]). apply bind_inv in Hrun as (? & ? & [= <- <-] & Hrun).
    apply bind_inv in Hrun as ([] & ? & Hrun & [= _ <-]). by apply handler_shutdown in Hrun.
Qed.

(** C16: in every state an application can reach, whatever the parts answered, the library is
    down, up, or shut down, and the calls it made are exactly those of that phase: a
    complete start-up, every part in order, and after it at most one complete shutdown.
    The handler is registered by the call that brings the library up, exactly when
    [atexit] accepts it, and stays registered; when it is, leaving [main] shuts a running
    library down, and when it is not, leaving [main] changes nothing. *)
Theorem lifecycle s : reachable s -> phase s /\
  (forall answer o s', run_op answer o s = (Ret tt, s') ->
     handler s' = if initialized s then handler s else initialized s' && (answer AtExit =? 0)) /\
  forall answer s', run_op answer OpExit s = (Ret tt, s') ->
    phase s' /\ if handler s then initialized s = true -> finalized s' = true else s' = s.
Proof.
  intros Hr. assert (phase s) as Hph.
  { induction Hr as [|s s' answer o Hr IH Hrun]; [by apply (phase_down _ 0)|]. by eapply phase_op. }
  split; [done|]. split; [intros answer o s' Hrun; by apply (handler_op answer o)|]. intros answer s' Hrun. by apply phase_exit in Hrun.
Qed.
End lifecycle.

(** A threaded build in which everything but the second call succeeds. *)
Definition threaded : build := Build true true true false true false.
Definition plain_params : params := Params true true false 2048 false.

Lemma init_failure_witness :
  let answer c := if decide (c = ShrTransportStartup) then 1 else 0 in
  exists s', shmem_internal_init threaded answer 3 8 plain_params 20 256 4096 8192 None false SHMEM_THREAD_MULTIPLE globals0 = (Abort, s') /\
    log s' = ParseEnv :: take 7 (start_calls threaded plain_params) ++ [TransportFini; SymmetricFini; RuntimeFini].
Proof.
  intros answer. destruct (init_failure threaded answer 3 8 plain_params 20 256 4096 8192 None false ltac:(discriminate) ltac:(done)
    SHMEM_THREAD_MULTIPLE globals0 6 ShrTransportStartup) as (s' & E & Hl & _); [done|done|done|done|by repeat constructor|].
  exists s'. split; [exact E|exact Hl].
Defined.

Lemma lifecycle_witness :
  exists s, reachable threaded 3 8 plain_params 20 256 4096 8192 None false s /\ initialized s = true /\ finalized s = false /\
    phase threaded plain_params s.
Proof.
  pose (r := run_op threaded 3 8 plain_params 20 256 4096 8192 None false (fun _ => 0) (OpInitThread SHMEM_THREAD_MULTIPLE) globals0).
  assert (r = (Ret tt, r.2)) as E by (vm_compute; reflexivity).
  pose proof (reach_op threaded 3 8 plain_params 20 256 4096 8192 None false globals0 r.2 (fun _ => 0)
    (OpInitThread SHMEM_THREAD_MULTIPLE) (reach_start _ _ _ _ _ _ _ _ _ _) E) as Hr.
  exists r.2. split; [exact Hr|]. split; [vm_compute; reflexivity|]. split; [vm_compute; reflexivity|].
  apply (lifecycle threaded 3 8 plain_params 20 256 4096 8192 None false); [discriminate|done|exact Hr].
Defined.

(** A call is not in an explicit list. *)
Ltac not_there H := repeat (apply elem_of_cons in H as [H|H]; [discriminate H|]); by apply elem_of_nil in H.

(** The lock of the allocator is initialized before the thread level is known, so it never
    is: in no reachable state was [mutex_alloc] initialized, although a shutdown at
    [SHMEM_THREAD_MULTIPLE] destroys it. *)
Lemma alloc_mutex_not_initialized B get_rank get_size p n m ds e a nr s :
  vendor_fits n m -> aslr_ok B p a nr -> reachable B get_rank get_size p n m ds e a nr s -> MutexInit mutex_alloc ∉ log s.
Proof.
  intros Hv Ha Hr. assert (phase B p s) as Hph.
  { induction Hr as [|s s' answer o Hr IH Hrun]; [by apply (phase_down _ _ _ 0)|]. by eapply phase_op. }
  assert (MutexInit mutex_alloc ∉ up_calls B p (thread_level s)) as Hup.
  { unfold up_calls, start_calls. destruct (multiple B (thread_level s)), (USE_PMIX B); simpl; intros Hin; not_there Hin. }
  assert (MutexInit mutex_alloc ∉ down_calls B (thread_level s)) as Hdown.
  { unfold down_calls. destruct (multiple B (thread_level s)); simpl; intros Hin; not_there Hin. }
  assert (forall k, MutexInit mutex_alloc ∉ replicate k ParseEnv) as Hrep by (intros k [? ?]%elem_of_replicate; done).
  destruct Hph as [k _ ->|k _ _ ->|k _ _ ->]; rewrite ?not_elem_of_app; auto.
Qed.
